(* ===== verification/_CoqProject ===== *)
-Q . S2P
Prelude.v
Sha256.v
Field.v
FieldInverse.v
Matrix.v
Noise.v
Transcript.v
Replay.v
Multiply.v
SharedCache.v
ArithUint256.v
Compact.v
Freivalds.v
LowRank.v
MatMulPow.v
Params.v
Difficulty.v
BlockIndex.v
ChainWork.v
AsertParams.v
Credit.v
Asert.v
Retarget.v
VersionBits.v
Header.v
HeaderPow.v
HeaderSync.v
HeaderSyncWindow.v
HeaderSyncLaws.v
Coins.v
CoinsRun.v
BlockUndo.v
CrashReplay.v
Merkle.v
ShieldedTree.v
ShieldedFrontier.v
ShieldedWitness.v
ShieldedIndex.v
ShieldedLookup.v
ShieldedSerial.v
TxCheck.v
TxRules.v
Supply.v
Nullifiers.v
NullifierLaws.v
NullifierRaces.v
ConnectBlock.v
ConnectLaws.v
BlockClaims.v
Script.v
ScriptLaws.v
Pqm.v
Interpreter.v
InterpreterLaws.v
InterpreterSafety.v
VerifyScript.v
SigHash.v
PqmLaws.v
FlagLaws.v
P2mrSpend.v
P2mrSigners.v
ScriptFlags.v
CuckooCache.v
SigCache.v
SigHashLaws.v
InputScripts.v
SpendSafety.v
InputSafety.v
ScriptClaims.v
Witnesses.v
ChainWitnesses.v
CoinsWitnesses.v
ShieldedWitnesses.v
BlockWitnesses.v
ScriptWitnesses.v
HeaderSyncClaims.v
