(* ===== verification/Prelude.v ===== *)
(** * The BTX MatMul node: a verification development

    BTX is a Bitcoin-derived node whose proof of work is a matrix product over
    GF(2^31 - 1). A miner perturbs two seeded matrices with low-rank noise
    bound to the header, multiplies them block by block, hashes a compression
    of every partial block into a transcript and wins when the digest meets
    the target. This development models the code that decides whether such
    work is valid, what the next target is, which chain of headers carries the
    most authenticated work, what a block does to the coins and to the
    shielded pool, and who may spend a coin. Every path below is under [src/].

    ** The parts and the files that model them

    Hashing and bytes.
    - [Prelude]: results of fallible code, machine integers, counted loops,
      vectors with bounds, little-endian bytes, sums, the tactics and hint
      databases of the development.
    - [Sha256]: [crypto/sha256.cpp] (the portable transform and [CSHA256]),
      [crypto/common.h], [hash.h], against FIPS 180-4.

    The matrix product ([matmul/]).
    - [Field], [FieldInverse]: [field.cpp].
    - [Matrix]: [matrix.cpp], matrices, views, blocks and seeded matrices;
      [Multiply]: the tiled product of worker threads; [SharedCache]: the cache
      of seeded matrices under concurrent callers.
    - [Noise]: [noise.cpp]. [Transcript], [Replay]: [transcript.cpp].
    - [Freivalds]: [freivalds.cpp]. [LowRank], [MatMulPow]: [matmul_pow.cpp]
      and [solver_runtime.cpp].

    Targets and retargeting.
    - [ArithUint256], [Compact]: [arith_uint256.h], [arith_uint256.cpp].
    - [Params]: the fields and height predicates of [consensus/params.h].
    - [Difficulty]: the target arithmetic of [pow.cpp]. [AsertParams]: the
      validation of the fork schedule and the anchor in force. [Credit]: the
      time credit with its cache on the index. [Asert]: [MatMulAsert].
      [Retarget]: Dark Gravity Wave, the interval retarget,
      [GetNextWorkRequired], [PermittedDifficultyTransition].

    The header tree.
    - [BlockIndex]: [chain.h], [chain.cpp], the entries, skip list, median
      time, active chain, locators. [ChainWork]: work, authenticated work,
      header preference, and [AddToBlockIndex] of [node/blockstorage.cpp].

    Headers and blocks.
    - [Header]: [primitives/block.h], [serialize.h], [streams.h] and the
      deterministic seeds of [pow.cpp]. [HeaderPow]: the checks of [pow.cpp]
      from [CheckMatMulProofOfWork_Phase1] to
      [CheckMatMulProofOfWork_ProductCommitted].
    - [HeaderSync]: [headerssync.h], [headerssync.cpp], the two downloads of a
      peer's headers, with [SipHashUint256] of [crypto/siphash.cpp];
      [HeaderSyncWindow] the window of entries for them, [HeaderSyncLaws] the
      invariant over all messages, [HeaderSyncClaims] the theorems and a
      session at which they apply.

    - [Merkle]: [consensus/merkle.cpp] and the pair hashing of
      [crypto/sha256.cpp].

    Deployments.
    - [VersionBits]: [versionbits.h], [versionbits.cpp]; the checks a subclass
      supplies are the class [ThresholdConditionChecker].

    Coins.
    - [Coins]: [coins.h], [coins.cpp] and the batches of [txdb.cpp]: caches
      stacked over the coin database, their flags and flushes. [CoinsRun]: runs
      of operations against a map of coins.
    - [BlockUndo]: what connecting, disconnecting and rolling a block forward
      does to the coins ([coins.cpp], [validation.cpp]). [CrashReplay]:
      [Chainstate::ReplayBlocks], with the block files as the class
      [BlockFiles].


    The shielded pool ([shielded/]).
    - [ShieldedTree]: [merkle_tree.h], [merkle_tree.cpp]: the tree of note
      commitments kept as a frontier, its witnesses, the index of positions in
      memory or in a store with its cache, checkpoints, truncation, detaching.
      [ShieldedFrontier], [ShieldedWitness]: the frontier and a witness against
      the full tree; [ShieldedIndex]: truncation and detaching;
      [ShieldedLookup]: witnesses rebuilt from the index; [ShieldedSerial]:
      the stored form.
    - [Nullifiers]: [nullifier.h], [nullifier.cpp], a database of nullifiers,
      anchors, manifests and claims behind two generations of caches;
      [NullifierLaws]: against plain sets; [NullifierRaces]: look-ups beside
      writers.
    - [Supply]: [turnstile.cpp], [unshield_velocity.cpp] and the subsidy of
      [validation.cpp].

    Transactions and blocks.
    - [TxCheck]: [consensus/tx_check.cpp], [consensus/tx_verify.cpp] and the
      structure and value of a bundle ([shielded/bundle.cpp]). [TxRules]: the
      rules these decide.
    - [ConnectBlock]: the parts of [CheckBlock], [ConnectBlock] and
      [DisconnectBlock] ([validation.cpp]) that move value and retire
      nullifiers, on the coins of [Coins] and the database of [Nullifiers].
      [ConnectLaws], [BlockClaims]: what an accepted block and a chain of them
      do.

    Scripts and spends ([script/]).
    - [Script]: [script.h], [script.cpp]: opcodes, numbers, instructions;
      [ScriptLaws]: their encodings. [Interpreter]: the machine of
      [interpreter.cpp], over the class [BaseSignatureChecker] of what a script
      asks about its transaction and the class [CondStack] of its pending
      conditions; [InterpreterLaws]: the latter's two instances;
      [InterpreterSafety]: no script stops the machine.
    - [VerifyScript]: witness programs and [VerifyScript]; [FlagLaws]: what a
      flag can change; [SpendSafety]: no spend stops it.
    - [Pqm]: [pqm.cpp] and the keys of [pqkey.cpp]; [PqmLaws]: the tree of
      scripts an output commits to; [P2mrSpend], [P2mrSigners]: how such an
      output and its threshold script are spent.
    - [SigHash], [SigHashLaws]: the signature hashes of [interpreter.cpp], their
      caches, the checker of a transaction, and what a hash commits to.
    - [ScriptFlags]: the flags of [validation.cpp] and [policy/policy.h].
      [CuckooCache]: [cuckoocache.h]. [SigCache]: [sigcache.cpp].
      [InputScripts], [InputSafety]: [CheckInputScripts] of [validation.cpp].
      [ScriptClaims]: the results on all of these.

    [Witnesses], [ChainWitnesses], [CoinsWitnesses], [ShieldedWitnesses],
    [BlockWitnesses] and [ScriptWitnesses] hold concrete networks, operands,
    headers, chains, coins, trees, blocks and spends at which the hypotheses of
    the theorems hold, and the runs that show where the code and its comments
    part.

    ** How code becomes definitions

    A w-bit integer is a [Z] with its wrap-around written out ([u32], [u64],
    [s64], ...); a byte string is a [list Z] of bytes; an [arith_uint256] is
    the list of its 32-bit digits. Code that can fail returns [result]: a
    failed assertion, a thrown error, an access out of bounds or exhausted
    fuel. [CBlockIndex] pointers are the hashes of the entries, and the index
    is a finite map; pointer reads go through [deref], so a dangling pointer
    is an error and not a default. A definition keeps the name of the function
    it models; loops and lambdas of a function are definitions beside it.

    Parameters stand for what is outside the sources: the dgemm of the
    platform BLAS ([Blas], with exactness on the range the code uses it in as
    [ExactBlas]), Boost's [cpp_int] ([CppInt], with its documented arithmetic
    as [CppIntLaws]), and the machine ([Platform]: the instruction set, the
    number of hardware threads, the environment variables read), LevelDB
    ([LevelDB]) and the multiset hash ([MuHash], with [MuHashLaws]). For scripts
    they are the post-quantum library ([PQLibrary]), the elliptic curve
    ([CurveLibrary], [TaprootLibrary]), RIPEMD-160, SHA-1 and the low-S test
    ([ScriptPrimitives], whose digests are bytes by [PrimitiveLaws]), the hash
    of a shielded bundle ([BundleHash]) and the logarithm of a float
    ([FloatLog]). The checks
    of [ConnectBlock] that only reject (scripts, proofs, sizes, the account
    registry) are the fields of [BlockRules]: the theorems hold for all of them.

    ** What the theorems show

    - Work. The verifier accepts exactly the headers whose digest is that of
      the perturbed product and meets the target ([verify_decides]), whatever
      the solver returns is accepted ([solve_outcome_verifies]); the checks on
      blocks decide the specified predicates ([phase2_decides],
      [product_check_decides]), a payload binds the digest
      ([freivalds_check_binds], [wrong_product_caught]), and a mined block with
      its payload is accepted ([mined_block_accepted]).
    - Coins. Any run of operations on a stack of caches answers as a plain map
      of coins ([coins_run_refines]); connecting and disconnecting a block is
      the identity ([disconnect_undoes_connect]); a database write leaves only
      recoverable states ([coins_db_write_crash_safe]), and replaying from any
      of them ends with the coins of the new tip ([replay_recovers]).
    - Supply. On any chain of accepted blocks coins and pool together hold at
      most what the schedule has issued, settlement with other chains apart
      ([supply_never_exceeds], from [connect_no_inflation]), each nullifier is
      spent at most once ([nullifiers_spent_once]), a block can be taken back
      ([shielded_disconnect_undoes]) and what leaves the pool stays under the
      rolling limit ([velocity_limits_egress], [velocity_reorg_exact]).
    - The pool's stores. The nullifier database answers as plain sets, alone
      and beside concurrent writers, and its counter and digest are those of
      the set ([nullifier_set_refines], [nullifier_lookups_are_atomic],
      [nullifier_count_and_digest]); a witness follows the tree of commitments,
      can be stored and resumed, and can be rebuilt from the index
      ([shielded_witness_tracks], [shielded_witness_restarts],
      [shielded_witnesses_at]); truncation and detached copies restore and do
      not disturb ([shielded_truncate_restores], [shielded_detach_isolates]);
      the root commits to the leaves ([shielded_root_binds]).
    - Transactions. The context-free check and the relative lock times decide
      their rules ([check_transaction_decides], [sequence_locks_decide]).
    - Spends. An output to a threshold of post-quantum keys is spent by exactly
      so many of its keys, which signed this transaction and this script
      ([p2mr_multisig_signers], from [p2mr_spends_committed] and
      [p2mr_multisig_counts]), and what they signed covers the transaction and
      the coins it spends but not the shielded bundle ([p2mr_sighash_covers]).
      [VerifyScript] returns on all bytes ([verify_script_returns],
      [input_check_returns]); more flags accept less, with the exceptions that
      the statement names ([flags_are_soft_forks]), and what the relay policy
      accepts the next block accepts ([mempool_policy_stricter]).
    - Caches of scripts and signatures. The cuckoo cache holds only what was
      put in ([cuckoo_cache_sound]), so the signature cache changes no verdict
      ([signature_cache_transparent]) and the cache of passed transactions lets
      nothing through ([input_scripts_checked]). The two counters of the
      condition stack are as good as the vector they stand for
      ([condition_stack_refines]), and numbers are read as they are written
      ([script_num_roundtrip]).
    - Fast paths. The verifier's replay, the threaded product under every
      interleaving, the noise removal and the seed cache agree with their
      reference ([replay_equals_canonical], [canonical_matmul_product],
      [any_interleaving_multiplies], [denoise_exact], [shared_cache_safe]); the
      constant-space Merkle computation agrees with the tree
      ([merkle_path_authenticates]).
    - Retargeting. The retarget returns on every consistent index with a valid
      target, follows the anchor's exponential, skips no configured rescale,
      and is insensitive to its cache ([matmul_asert_total],
      [asert_follows_anchor], [asert_doubles_per_half_life],
      [no_rescale_skipped], [anchor_is_latest_fork],
      [credit_cache_transparent], [next_work_valid],
      [interval_retarget_permitted]).
    - The header tree. Insertion and propagation preserve the recurrences of
      work and authenticated work, header preference is a strict weak order,
      forged headers gain nothing ([add_to_block_index_preserves],
      [propagation_restores_recurrence], [header_preference_order],
      [forged_suffix_gains_nothing]); skip list, median time and forks are what
      walking [pprev] gives ([get_ancestor_walks_pprev],
      [median_time_past_monotone], [last_common_ancestor_highest]).
    - Header synchronisation. What is released follows the first download and
      carries enough work or enough headers on top ([sync_releases_sound]); a
      peer that repeats its chain gets it released
      ([honest_resync_released]); the retarget finds its anchor in the window
      ([sync_window_keeps_anchor]); what a peer can make the session hold is
      bounded ([sync_memory_bounded]), the window apart
      ([presync_window_grows]).
    - Deployments. The cached walk over periods gives the states of BIP 9
      ([versionbits_state_correct], [versionbits_since_height]).
    - Encodings and arithmetic against their references
      ([incremental_hashing_fips], [header_wire_roundtrip],
      [compact_bits_roundtrip], [arith_refines_integers], [inverse_correct],
      [merkle_root_binds]).

    ** Fuel and bounds

    Recursion that is not structural takes fuel, and no theorem assumes that
    the fuel suffices. [inv_loop] gets 32 steps for a 31-bit exponent; walks
    along [pprev] get the height of the entry (each step lowers it);
    [propagate] gets the size of the index (no entry is queued twice);
    [neon_loop] and [tiles] get the length they advance through; the walks of a
    deployment and the rollback of a replay get the height of the entry; the
    loops over the levels of a Merkle tree get 32, the width of their counter;
    [empty_ancestors] gets the largest number of halvings; the machine of a
    script gets the length of the script, since every instruction reads a byte;
    the levels of a tree of scripts get the number of leaves. The theorems on
    these functions state that they return.

    ** Not modelled

    The SSE4, AVX2, SHA-NI and ARM hash transforms and the GPU solvers, whose
    results the modelled code re-checks; the version-4, LT and resident
    curriculum proof systems; the signing of scripts, the count of signature
    operations of a block; the proofs and the account registry of
    the shielded pool, the journal that recovers an interrupted change of it,
    the activation of the best chain, the mempool, networking, the wallet, RPC
    and the user interface; logging
    and runtime statistics, which no modelled decision reads; vendored
    libraries. Timing is modelled only where the code branches on it: the
    solver's clock is an input. *)

From Stdlib Require Import ZArith Lia String.
From stdpp Require Import base list numbers strings tactics.

Open Scope Z_scope.

(** ** Results of fallible code

    [EAssert] is a failed [assert] (Bitcoin-derived code always builds with
    assertions enabled, so a failed assertion aborts the process),
    [ERuntime] a thrown [std::runtime_error], [EBounds] an access outside an
    array (undefined behaviour in the source) and [EFuel] a loop that did not
    finish within the iterations the model gives it. *)
Inductive error :=
| EAssert
| ERuntime (msg : string)
| EBounds
| EFuel.

Inductive result (A : Type) :=
| Ok (a : A)
| Err (e : error).
Arguments Ok {A} _.
Arguments Err {A} _.

#[export] Instance error_eq_dec : EqDecision error.
Proof. solve_decision. Defined.

#[export] Instance result_eq_dec {A} `{!EqDecision A} : EqDecision (result A).
Proof. solve_decision. Defined.

#[export] Instance result_ret : MRet result := fun A a => Ok a.
#[export] Instance result_bind : MBind result := fun A B f m =>
  match m with Ok a => f a | Err e => Err e end.

Definition assert_ (b : bool) : result unit := if b then Ok tt else Err EAssert.
Definition throw_if (b : bool) (msg : string) : result unit :=
  if b then Err (ERuntime msg) else Ok tt.

Lemma bind_Ok {A B} (a : A) (f : A → result B) : (Ok a ≫= f) = f a.
Proof. done. Qed.

Lemma bind_Ok_inv {A B} (m : result A) (f : A → result B) b :
  (m ≫= f) = Ok b → ∃ a, m = Ok a ∧ f a = Ok b.
Proof. destruct m; naive_solver. Qed.

Lemma bind_ext {A B} (m : result A) (f g : A → result B) :
  (∀ a, m = Ok a → f a = g a) → (m ≫= f) = (m ≫= g).
Proof. destruct m; naive_solver. Qed.

Lemma assert_true b : b = true → assert_ b = Ok tt.
Proof. by intros ->. Qed.

Lemma assert_Ok_inv b u : assert_ b = Ok u → b = true.
Proof. by destruct b. Qed.

Lemma throw_if_false b msg : b = false → throw_if b msg = Ok tt.
Proof. by intros ->. Qed.

(** ** Machine-width integers

    A w-bit unsigned value is an integer in [[0, 2^w)]; the casts and the
    wrap-around of the unsigned operations are these truncations. *)
Definition u8 (x : Z) : Z := Z.land x 0xff.
Definition u16 (x : Z) : Z := Z.land x 0xffff.
Definition u32 (x : Z) : Z := Z.land x 0xffffffff.
Definition u64 (x : Z) : Z := Z.land x 0xffffffffffffffff.
Definition u128 (x : Z) : Z := Z.land x 0xffffffffffffffffffffffffffffffff.

(** Two's-complement reading of a w-bit pattern. *)
Definition to_signed (w : Z) (x : Z) : Z :=
  let y := x mod 2 ^ w in if y <? 2 ^ (w - 1) then y else y - 2 ^ w.
Definition s8 : Z → Z := to_signed 8.
Definition s32 : Z → Z := to_signed 32.
Definition s64 : Z → Z := to_signed 64.

Definition bool_to_Z (b : bool) : Z := if b then 1 else 0.

Lemma u8_mod x : u8 x = x mod 2 ^ 8.
Proof. apply (Z.land_ones x 8); lia. Qed.
Lemma u16_mod x : u16 x = x mod 2 ^ 16.
Proof. apply (Z.land_ones x 16); lia. Qed.
Lemma u32_mod x : u32 x = x mod 2 ^ 32.
Proof. apply (Z.land_ones x 32); lia. Qed.
Lemma u64_mod x : u64 x = x mod 2 ^ 64.
Proof. apply (Z.land_ones x 64); lia. Qed.
Lemma u128_mod x : u128 x = x mod 2 ^ 128.
Proof. apply (Z.land_ones x 128); lia. Qed.

Lemma u8_small x : 0 ≤ x < 2 ^ 8 → u8 x = x.
Proof. intros. rewrite u8_mod. by apply Z.mod_small. Qed.
Lemma u16_small x : 0 ≤ x < 2 ^ 16 → u16 x = x.
Proof. intros. rewrite u16_mod. by apply Z.mod_small. Qed.
Lemma u32_small x : 0 ≤ x < 2 ^ 32 → u32 x = x.
Proof. intros. rewrite u32_mod. by apply Z.mod_small. Qed.
Lemma u64_small x : 0 ≤ x < 2 ^ 64 → u64 x = x.
Proof. intros. rewrite u64_mod. by apply Z.mod_small. Qed.
Lemma u128_small x : 0 ≤ x < 2 ^ 128 → u128 x = x.
Proof. intros. rewrite u128_mod. by apply Z.mod_small. Qed.

Lemma u8_bound x : 0 ≤ u8 x < 2 ^ 8.
Proof. rewrite u8_mod. by apply Z.mod_pos_bound. Qed.
Lemma u16_bound x : 0 ≤ u16 x < 2 ^ 16.
Proof. rewrite u16_mod. by apply Z.mod_pos_bound. Qed.
Lemma u32_bound x : 0 ≤ u32 x < 2 ^ 32.
Proof. rewrite u32_mod. by apply Z.mod_pos_bound. Qed.
Lemma u64_bound x : 0 ≤ u64 x < 2 ^ 64.
Proof. rewrite u64_mod. by apply Z.mod_pos_bound. Qed.

Lemma to_signed_small w x :
  0 < w → - 2 ^ (w - 1) ≤ x < 2 ^ (w - 1) → to_signed w x = x.
Proof.
  intros Hw Hx. unfold to_signed.
  assert (2 ^ w = 2 * 2 ^ (w - 1)) as Hp.
  { replace w with (Z.succ (w - 1)) at 1 by lia. rewrite Z.pow_succ_r; lia. }
  destruct (decide (0 ≤ x)).
  - rewrite Z.mod_small by lia. destruct (Z.ltb_spec x (2 ^ (w - 1))); lia.
  - replace (x mod 2 ^ w) with (x + 2 ^ w).
    2: { apply Z.mod_unique with (-1); lia. }
    destruct (Z.ltb_spec (x + 2 ^ w) (2 ^ (w - 1))); lia.
Qed.

(** A [land] with a mask of [n] ones and a right shift, as quotient and
    remainder, for the folding reductions. *)
Lemma land_mask x n m : 0 ≤ n → m = Z.ones n → Z.land x m = x mod 2 ^ n.
Proof. intros ? ->. by apply Z.land_ones. Qed.

(** [lia] after naming the quotient and remainder of every [/] and [mod] by a
    literal. *)
Ltac divmod_lia := Z.to_euclidean_division_equations; lia.

(** ** Arrays: bounds-checked reads and writes

    A read or write past the end is undefined behaviour in the source, so the
    model reports it instead of inventing a value. *)
Definition vget {A} (l : list A) (i : Z) : result A :=
  if bool_decide (0 ≤ i) then
    match l !! Z.to_nat i with Some v => Ok v | None => Err EBounds end
  else Err EBounds.

Definition vset {A} (l : list A) (i : Z) (v : A) : result (list A) :=
  if bool_decide (0 ≤ i < Z.of_nat (length l))
  then Ok (<[Z.to_nat i := v]> l) else Err EBounds.

(** The number of elements as an integer ([size()] of the source). *)
Definition zlen {A} (l : list A) : Z := Z.of_nat (length l).

(** Total read used in specifications. *)
Definition znth (l : list Z) (i : Z) : Z := nth (Z.to_nat i) l 0.

Lemma zlen_nonneg {A} (l : list A) : 0 ≤ zlen l.
Proof. unfold zlen; lia. Qed.

Lemma zlen_app {A} (l k : list A) : zlen (l ++ k) = zlen l + zlen k.
Proof. unfold zlen. rewrite length_app. lia. Qed.

Lemma znth_lookup (l : list Z) (i : nat) : (i < length l)%nat → l !! i = Some (znth l (Z.of_nat i)).
Proof.
  intros H. unfold znth. rewrite Nat2Z.id.
  destruct (lookup_lt_is_Some_2 l i H) as [x Hx]. rewrite Hx. f_equal.
  symmetry. by apply nth_lookup_Some.
Qed.

Lemma vget_Ok (l : list Z) i : 0 ≤ i < zlen l → vget l i = Ok (znth l i).
Proof.
  intros Hi. unfold vget, zlen in *. rewrite bool_decide_true by lia.
  rewrite znth_lookup by lia. by rewrite Z2Nat.id by lia.
Qed.

Lemma vget_Ok_inv {A} (l : list A) i v : vget l i = Ok v → 0 ≤ i < zlen l.
Proof.
  unfold vget, zlen. case_bool_decide; [|done].
  destruct (l !! Z.to_nat i) eqn:E; [|done]. apply lookup_lt_Some in E. lia.
Qed.

Lemma vset_Ok {A} (l : list A) i v :
  0 ≤ i < zlen l → vset l i v = Ok (<[Z.to_nat i := v]> l).
Proof. intros. unfold vset. by rewrite bool_decide_true. Qed.

Lemma znth_insert (l : list Z) i j v :
  0 ≤ i < zlen l → 0 ≤ j →
  znth (<[Z.to_nat i := v]> l) j = if decide (i = j) then v else znth l j.
Proof.
  unfold zlen, znth. intros Hi Hj. rewrite !nth_lookup.
  destruct (decide (i = j)) as [<-|Hne].
  - by rewrite list_lookup_insert_eq by lia.
  - by rewrite list_lookup_insert_ne by lia.
Qed.

Lemma znth_ext (l k : list Z) :
  zlen l = zlen k → (∀ i, 0 ≤ i < zlen l → znth l i = znth k i) → l = k.
Proof.
  unfold zlen. intros Hlen H. apply list_eq_same_length with (length l); [lia|done|].
  intros i x y Hi Hx Hy.
  specialize (H (Z.of_nat i) ltac:(lia)). unfold znth in H. rewrite Nat2Z.id in H.
  rewrite !nth_lookup, Hx, Hy in H. by simpl in H.
Qed.

Lemma znth_oob (l : list Z) i : zlen l ≤ i → znth l i = 0.
Proof. unfold zlen, znth. intros. apply nth_overflow. lia. Qed.

Lemma zlen_insert {A} (l : list A) i v : zlen (<[i := v]> l) = zlen l.
Proof. unfold zlen. by rewrite length_insert. Qed.

Lemma Forall_znth (P : Z → Prop) (l : list Z) :
  Forall P l ↔ ∀ i, 0 ≤ i < zlen l → P (znth l i).
Proof.
  rewrite Forall_lookup. unfold zlen. split.
  - intros H i Hi. apply (H (Z.to_nat i)). rewrite znth_lookup by lia.
    by rewrite Z2Nat.id by lia.
  - intros H i x Hx. pose proof (lookup_lt_Some _ _ _ Hx).
    specialize (H (Z.of_nat i) ltac:(lia)).
    rewrite znth_lookup in Hx by lia. by simplify_eq.
Qed.

Lemma znth_replicate n x i : 0 ≤ i < Z.of_nat n → znth (replicate n x) i = x.
Proof. intros. unfold znth. by rewrite nth_lookup, lookup_replicate_2 by lia. Qed.

Lemma znth_app (l k : list Z) i :
  0 ≤ i → znth (l ++ k) i = if decide (i < zlen l) then znth l i else znth k (i - zlen l).
Proof.
  unfold zlen, znth. intros Hi. case_decide.
  - apply app_nth1; lia.
  - rewrite app_nth2 by lia. f_equal. lia.
Qed.

(** Induction in steps of two. *)
Lemma pair_ind {A} (P : list A → Prop) : P [] → (∀ a, P [a]) → (∀ a b l, P l → P (a :: b :: l)) → ∀ l, P l.
Proof.
  intros H0 H1 H2 l. assert (P l ∧ ∀ a, P (a :: l)) as [? _]; [|done].
  induction l as [|b l [IH1 IH2]]; [by split|]. split; [apply IH2|]. intros a. by apply H2.
Qed.

(** Induction on the (non-negative) bound of a sum or loop. *)
Lemma Z_bound_ind (P : Z → Prop) :
  P 0 → (∀ n, 0 ≤ n → P n → P (n + 1)) → ∀ n, 0 ≤ n → P n.
Proof. intros H0 HS n Hn. by apply natlike_ind; [..|lia]; [|intros x Hx; apply HS]. Qed.

(** The vector of [n] values of a function. *)
Definition ztab {A} (n : Z) (f : Z → A) : list A := (λ i, f (Z.of_nat i)) <$> seq 0 (Z.to_nat n).

Lemma zlen_ztab {A} n (f : Z → A) : 0 ≤ n → zlen (ztab n f) = n.
Proof. intros. unfold zlen, ztab. rewrite length_fmap, length_seq. lia. Qed.

Lemma length_ztab {A} n (f : Z → A) : length (ztab n f) = Z.to_nat n.
Proof. unfold ztab. by rewrite length_fmap, length_seq. Qed.

Lemma znth_ztab n f i : 0 ≤ i < n → znth (ztab n f) i = f i.
Proof.
  intros. unfold znth, ztab. rewrite nth_lookup, list_lookup_fmap, lookup_seq_lt by lia.
  simpl. f_equal. lia.
Qed.

Lemma vget_ztab {A} n (f : Z → A) i : 0 ≤ i < n → vget (ztab n f) i = Ok (f i).
Proof.
  intros. unfold vget, ztab. rewrite bool_decide_true, list_lookup_fmap, lookup_seq_lt by lia.
  simpl. f_equal. by rewrite Z2Nat.id by lia.
Qed.

Lemma ztab_ext {A} n (f g : Z → A) : (∀ i, 0 ≤ i < n → f i = g i) → ztab n f = ztab n g.
Proof.
  intros H. unfold ztab. apply list_fmap_ext. intros i x Hx.
  apply lookup_seq in Hx. apply H. lia.
Qed.

Lemma ztab_succ {A} n (f : Z → A) : 0 ≤ n → ztab (n + 1) f = ztab n f ++ [f n].
Proof.
  intros. unfold ztab. replace (Z.to_nat (n + 1)) with (Z.to_nat n + 1)%nat by lia.
  rewrite seq_app, fmap_app. simpl. by rewrite Z2Nat.id.
Qed.

Lemma ztab_znth (l : list Z) : ztab (zlen l) (znth l) = l.
Proof.
  apply znth_ext; rewrite ?zlen_ztab by apply zlen_nonneg; [done|].
  intros. by apply znth_ztab.
Qed.

(** ** Counted loops

    [for_range lo hi f s] is [for (i = lo; i < hi; ++i) s = f(i, s)]. *)
Fixpoint for_ {S : Type} (n : nat) (i : Z) (f : Z → S → result S) (s : S) : result S :=
  match n with
  | O => Ok s
  | S n' => s' ← f i s; for_ n' (i + 1) f s'
  end.

Definition for_range {S : Type} (lo hi : Z) (f : Z → S → result S) (s : S) : result S :=
  for_ (Z.to_nat (hi - lo)) lo f s.

Lemma for_inv {S : Type} (I : Z → S → Prop) (f : Z → S → result S) n lo s :
  I lo s →
  (∀ i s, lo ≤ i < lo + Z.of_nat n → I i s → ∃ s', f i s = Ok s' ∧ I (i + 1) s') →
  ∃ s', for_ n lo f s = Ok s' ∧ I (lo + Z.of_nat n) s'.
Proof.
  revert lo s. induction n as [|n IH]; intros lo s H0 Hstep; simpl.
  - exists s. by rewrite Z.add_0_r.
  - destruct (Hstep lo s ltac:(lia) H0) as (s' & -> & HI). simpl.
    destruct (IH (lo + 1) s' HI) as (s'' & -> & HI').
    { intros i t Hi. apply Hstep. lia. }
    exists s''. split; [done|]. by replace (lo + Z.of_nat (Datatypes.S n)) with (lo + 1 + Z.of_nat n) by lia.
Qed.

Lemma for_range_inv {S : Type} (I : Z → S → Prop) (f : Z → S → result S) lo hi s :
  lo ≤ hi → I lo s →
  (∀ i s, lo ≤ i < hi → I i s → ∃ s', f i s = Ok s' ∧ I (i + 1) s') →
  ∃ s', for_range lo hi f s = Ok s' ∧ I hi s'.
Proof.
  intros Hle H0 Hstep. unfold for_range.
  destruct (for_inv I f (Z.to_nat (hi - lo)) lo s H0) as (s' & E & HI).
  { intros i t Hi. apply Hstep. lia. }
  exists s'. split; [done|]. by replace hi with (lo + Z.of_nat (Z.to_nat (hi - lo))) by lia.
Qed.

Lemma for_ext {S : Type} (f g : Z → S → result S) n lo s :
  (∀ i s, lo ≤ i < lo + Z.of_nat n → f i s = g i s) → for_ n lo f s = for_ n lo g s.
Proof.
  revert lo s. induction n as [|n IH]; intros lo s H; simpl; [done|].
  rewrite H by lia. apply bind_ext. intros s' _. apply IH. intros. apply H. lia.
Qed.

Lemma for_range_ext {S : Type} (f g : Z → S → result S) lo hi s :
  (∀ i s, lo ≤ i < hi → f i s = g i s) → for_range lo hi f s = for_range lo hi g s.
Proof. intros H. apply for_ext. intros. apply H. lia. Qed.

Lemma for_range_empty {S : Type} (f : Z → S → result S) lo hi s :
  hi ≤ lo → for_range lo hi f s = Ok s.
Proof. intros. unfold for_range. by replace (Z.to_nat (hi - lo)) with 0%nat by lia. Qed.

Lemma for_range_step {S : Type} (f : Z → S → result S) lo hi s :
  lo < hi → for_range lo hi f s = (s' ← f lo s; for_range (lo + 1) hi f s').
Proof.
  intros. unfold for_range.
  replace (Z.to_nat (hi - lo)) with (Datatypes.S (Z.to_nat (hi - (lo + 1)))) by lia. done.
Qed.

Lemma for_app {S : Type} (f : Z → S → result S) n m lo s :
  for_ (n + m) lo f s = (s' ← for_ n lo f s; for_ m (lo + Z.of_nat n) f s').
Proof.
  revert lo s. induction n as [|n IH]; intros lo s; simpl.
  - by rewrite Z.add_0_r.
  - destruct (f lo s); simpl; [|done]. rewrite IH.
    by replace (lo + 1 + Z.of_nat n) with (lo + Z.of_nat (Datatypes.S n)) by lia.
Qed.

Lemma for_range_split {S : Type} (f : Z → S → result S) lo mid hi s :
  lo ≤ mid ≤ hi →
  for_range lo hi f s = (s' ← for_range lo mid f s; for_range mid hi f s').
Proof.
  intros. unfold for_range.
  replace (Z.to_nat (hi - lo)) with (Z.to_nat (mid - lo) + Z.to_nat (hi - mid))%nat by lia.
  rewrite for_app. by replace (lo + Z.of_nat (Z.to_nat (mid - lo))) with mid by lia.
Qed.

Lemma for_shift {S : Type} (f : Z → S → result S) n lo s :
  for_ n lo f s = for_ n 0 (λ i, f (lo + i)) s.
Proof.
  assert (∀ n a b s, for_ n (a + b) f s = for_ n b (λ i, f (a + i)) s) as H.
  { clear. induction n as [|n IH]; intros a b s; simpl; [done|].
    destruct (f (a + b) s); simpl; [|done]. by rewrite <- IH, Z.add_assoc. }
  rewrite <- H. by rewrite Z.add_0_r.
Qed.

Lemma for_range_shift {S : Type} (f : Z → S → result S) lo n s :
  for_range lo (lo + n) f s = for_range 0 n (λ i, f (lo + i)) s.
Proof.
  unfold for_range. replace (lo + n - lo) with (n - 0) by lia. apply for_shift.
Qed.

(** Two nested counted loops are one loop over the row-major index. *)
Lemma for_nest {S : Type} (f : Z → Z → S → result S) R C s :
  0 ≤ R → 0 ≤ C →
  for_range 0 R (λ x s, for_range 0 C (f x) s) s
    = for_range 0 (R * C) (λ k s, f (k / C) (k mod C) s) s.
Proof.
  intros HR HC. revert R HR. apply Z_bound_ind; [by rewrite !for_range_empty by lia|]. intros R HR IH.
  rewrite (for_range_split _ 0 R (R + 1)), IH by lia.
  rewrite (for_range_split _ 0 (R * C) ((R + 1) * C)) by nia.
  apply bind_ext. intros s' _. rewrite for_range_step by lia.
  replace ((R + 1) * C) with (R * C + C) by lia. rewrite for_range_shift.
  rewrite (for_range_ext (λ i s, f ((R * C + i) / C) ((R * C + i) mod C) s) (f R)).
  - destruct (for_range 0 C (f R) s'); [|done]. simpl. by apply for_range_empty.
  - intros i t Hi. by rewrite Z.add_comm, Z.div_add, Z.mod_add, Z.div_small, Z.mod_small by lia.
Qed.

(** A loop that assigns every element of a vector. *)
Lemma for_assign n (g : Z → result Z) g' w :
  zlen w = n → (∀ k, 0 ≤ k < n → g k = Ok (g' k)) →
  for_range 0 n (λ k w, v ← g k; vset w k v) w = Ok (ztab n g').
Proof.
  intros Hw Hg. assert (0 ≤ n) by (subst n; apply zlen_nonneg).
  pose (I := λ i o, zlen o = n ∧ ∀ j, 0 ≤ j < i → znth o j = g' j).
  destruct (for_range_inv I (λ k w, v ← g k; vset w k v) 0 n w) as (o & -> & Hl & Ho).
  - done.
  - split; [done|]. lia.
  - intros i o Hi [Hl Ho]. rewrite Hg by lia. simpl. rewrite vset_Ok by lia.
    eexists; split; [done|]. split; [by rewrite zlen_insert|].
    intros j Hj. rewrite znth_insert by lia. case_decide; [by subst|]. apply Ho. lia.
  - f_equal. apply znth_ext; [by rewrite zlen_ztab by lia|].
    intros i Hi. rewrite Ho, znth_ztab by lia. done.
Qed.

(** A fold that stops at the first error. *)
Fixpoint mfold {S A : Type} (f : A → S → result S) (l : list A) (s : S) : result S :=
  match l with
  | [] => Ok s
  | x :: l' => s' ← f x s; mfold f l' s'
  end.

Lemma mfold_app {S A : Type} (f : A → S → result S) l k s :
  mfold f (l ++ k) s = (s' ← mfold f l s; mfold f k s').
Proof. revert s. induction l as [|x l IH]; intros s; simpl; [done|]. destruct (f x s); simpl; auto. Qed.

Lemma mfold_inv {S A : Type} (I : list A → S → Prop) (f : A → S → result S) l s :
  I [] s →
  (∀ done x s, x ∈ l → I done s → ∃ s', f x s = Ok s' ∧ I (done ++ [x]) s') →
  ∃ s', mfold f l s = Ok s' ∧ I l s'.
Proof.
  intros H0 Hstep.
  assert (∀ k done s, (∀ x, x ∈ k → x ∈ l) → I done s →
    ∃ s', mfold f k s = Ok s' ∧ I (done ++ k) s') as Hgen.
  { induction k as [|x k IH]; intros dn t Hsub HI; simpl.
    - exists t. by rewrite app_nil_r.
    - destruct (Hstep dn x t) as (t' & -> & HI'); [apply Hsub; left|done|]. simpl.
      destruct (IH (dn ++ [x]) t') as (t'' & -> & HI''); [|done|].
      { intros y Hy. apply Hsub. by right. }
      exists t''. split; [done|]. by rewrite <- app_assoc in HI''. }
  exact (Hgen l [] s ltac:(auto) H0).
Qed.

(** Unconditional successive evaluations that collect one value per index
    ([push_back] in a loop). *)
Definition collect {A} (n : Z) (f : Z → result A) : result (list A) :=
  for_range 0 n (fun i acc => v ← f i; Ok (acc ++ [v])) [].

Lemma collect_Ok {A} n (f : Z → result A) g :
  0 ≤ n → (∀ i, 0 ≤ i < n → f i = Ok (g i)) → collect n f = Ok (ztab n g).
Proof.
  intros Hn H. unfold collect.
  destruct (for_range_inv (λ i acc, acc = ztab i g)
    (fun i acc => v ← f i; Ok (acc ++ [v])) 0 n []) as (l & -> & ->); try done.
  intros i s Hi ->. rewrite H by done. simpl. eexists; split; [done|].
  by rewrite ztab_succ by lia.
Qed.

Lemma collect_ext {A} n (f g : Z → result A) :
  (∀ i, 0 ≤ i < n → f i = g i) → collect n f = collect n g.
Proof. intros H. unfold collect. apply for_range_ext. intros. by rewrite H. Qed.

(** ** Finite sums of integers *)
Fixpoint zsum_ (n : nat) (f : Z → Z) : Z :=
  match n with
  | O => 0
  | S n' => zsum_ n' f + f (Z.of_nat n')
  end.
Definition zsum (n : Z) (f : Z → Z) : Z := zsum_ (Z.to_nat n) f.

Lemma zsum_0 f : zsum 0 f = 0.
Proof. done. Qed.

Lemma zsum_succ n f : 0 ≤ n → zsum (n + 1) f = zsum n f + f n.
Proof.
  intros. unfold zsum. replace (Z.to_nat (n + 1)) with (S (Z.to_nat n)) by lia.
  simpl. by rewrite Z2Nat.id.
Qed.

Lemma zsum_ext n f g : (∀ i, 0 ≤ i < n → f i = g i) → zsum n f = zsum n g.
Proof.
  destruct (decide (0 ≤ n)) as [Hn|]; [|unfold zsum; by replace (Z.to_nat n) with 0%nat by lia].
  revert n Hn. apply (Z_bound_ind (λ n, (∀ i, 0 ≤ i < n → f i = g i) → zsum n f = zsum n g)); [done|].
  intros n Hn IH H. rewrite !zsum_succ, IH, H by first [lia | intros; apply H; lia]. done.
Qed.

Lemma zsum_zero n : zsum n (λ _, 0) = 0.
Proof. unfold zsum. induction (Z.to_nat n); simpl; lia. Qed.

Lemma zsum_add n f g : zsum n (λ i, f i + g i) = zsum n f + zsum n g.
Proof. unfold zsum. induction (Z.to_nat n); simpl; lia. Qed.

Lemma zsum_sub n f g : zsum n (λ i, f i - g i) = zsum n f - zsum n g.
Proof. unfold zsum. induction (Z.to_nat n); simpl; lia. Qed.

Lemma zsum_mul_l n c f : zsum n (λ i, c * f i) = c * zsum n f.
Proof. unfold zsum. induction (Z.to_nat n); simpl; lia. Qed.

Lemma zsum_mul_r n c f : zsum n (λ i, f i * c) = zsum n f * c.
Proof. unfold zsum. induction (Z.to_nat n); simpl; lia. Qed.

Lemma zsum_swap n m (f : Z → Z → Z) :
  zsum n (λ i, zsum m (f i)) = zsum m (λ j, zsum n (λ i, f i j)).
Proof.
  destruct (decide (0 ≤ n)) as [Hn|].
  2: { unfold zsum at 1. replace (Z.to_nat n) with 0%nat by lia. symmetry.
       erewrite zsum_ext; [apply zsum_zero|]. intros j _. unfold zsum.
       by replace (Z.to_nat n) with 0%nat by lia. }
  revert n Hn. apply Z_bound_ind; [by rewrite zsum_zero|].
  intros n Hn IH. rewrite zsum_succ, IH, <- zsum_add by done.
  apply zsum_ext. intros j _. by rewrite zsum_succ.
Qed.

Lemma zsum_swap22 n m p q (F : Z → Z → Z → Z → Z) :
  zsum n (λ i, zsum m (λ j, zsum p (λ k, zsum q (λ l, F i j k l))))
    = zsum p (λ k, zsum q (λ l, zsum n (λ i, zsum m (λ j, F i j k l)))).
Proof.
  erewrite zsum_ext by (intros i _; apply zsum_swap).
  rewrite zsum_swap. apply zsum_ext. intros k _.
  erewrite zsum_ext by (intros i _; apply zsum_swap).
  apply zsum_swap.
Qed.

Lemma zsum_app n m f : 0 ≤ n → 0 ≤ m → zsum (n + m) f = zsum n f + zsum m (λ i, f (n + i)).
Proof.
  intros Hn Hm. revert m Hm. apply Z_bound_ind.
  - rewrite Z.add_0_r, zsum_0. lia.
  - intros m Hm IH. rewrite Z.add_assoc, !zsum_succ, IH by lia. lia.
Qed.

(** A sum over [N * b] indices, block by block. *)
Lemma zsum_blocks N b f :
  0 ≤ N → 0 ≤ b → zsum (N * b) f = zsum N (λ l, zsum b (λ t, f (l * b + t))).
Proof.
  intros HN Hb. revert N HN. apply Z_bound_ind; [done|].
  intros N HN IH. rewrite Z.mul_add_distr_r, Z.mul_1_l, zsum_app, zsum_succ, IH by lia. done.
Qed.

(** Selecting one index of a sum. *)
Lemma zsum_pick n F i : 0 ≤ i < n → zsum n (λ x, if decide (x = i) then F x else 0) = F i.
Proof.
  intros Hi. assert (0 ≤ n) as Hn by lia. revert Hi. revert n Hn.
  apply (Z_bound_ind (λ n, 0 ≤ i < n → zsum n (λ x, if decide (x = i) then F x else 0) = F i)); [lia|].
  intros n Hn IH Hi. rewrite zsum_succ by done. case_decide as Hd.
  - rewrite (zsum_ext n _ (λ _, 0)), zsum_zero, Hd; [done|].
    intros x Hx. rewrite decide_False; [done|lia].
  - rewrite IH by lia. lia.
Qed.

Lemma zsum_nonneg n f : (∀ i, 0 ≤ i < n → 0 ≤ f i) → 0 ≤ zsum n f.
Proof.
  destruct (decide (0 ≤ n)) as [Hn|]; [|unfold zsum; by replace (Z.to_nat n) with 0%nat by lia].
  revert n Hn. apply (Z_bound_ind (λ n, (∀ i, 0 ≤ i < n → 0 ≤ f i) → 0 ≤ zsum n f)); [done|].
  intros n Hn IH H. rewrite zsum_succ by lia.
  pose proof (H n ltac:(lia)). specialize (IH ltac:(intros; apply H; lia)). lia.
Qed.

Lemma zsum_abs_bound n f B :
  0 ≤ n → (∀ i, 0 ≤ i < n → Z.abs (f i) ≤ B) → Z.abs (zsum n f) ≤ n * B.
Proof.
  revert n. apply (Z_bound_ind (λ n, (∀ i, 0 ≤ i < n → Z.abs (f i) ≤ B) → Z.abs (zsum n f) ≤ n * B)); [done|].
  intros n Hn IH H. rewrite zsum_succ by lia.
  pose proof (H n ltac:(lia)). specialize (IH ltac:(intros; apply H; lia)). lia.
Qed.

(** A loop that adds one term per iteration computes the sum. *)
Lemma for_range_sum (f : Z → Z) (step : Z → Z → result Z) (R : Z → Z → Prop) n s0 :
  0 ≤ n → R (zsum 0 f) s0 →
  (∀ i s, 0 ≤ i < n → R (zsum i f) s → ∃ s', step i s = Ok s' ∧ R (zsum i f + f i) s') →
  ∃ s, for_range 0 n step s0 = Ok s ∧ R (zsum n f) s.
Proof.
  intros Hn H0 Hs. apply (for_range_inv (λ i s, R (zsum i f) s)); [done..|].
  intros i s Hi HR. rewrite zsum_succ by lia. by apply Hs.
Qed.

(** ** Congruence modulo [m]

    Setoid rewriting with [==m] through sums, products and finite sums. *)
Section Congruence.
Context (m : Z).

Definition cong (x y : Z) : Prop := x mod m = y mod m.

#[export] Instance cong_equiv : Equivalence cong.
Proof. split; unfold cong; [by intros ?|by intros ??|intros ???; congruence]. Qed.

#[export] Instance cong_add_proper : Proper (cong ==> cong ==> cong) Z.add.
Proof. intros a b H c d K. unfold cong in *. by rewrite Zplus_mod, H, K, <- Zplus_mod. Qed.

#[export] Instance cong_mul_proper : Proper (cong ==> cong ==> cong) Z.mul.
Proof. intros a b H c d K. unfold cong in *. by rewrite Zmult_mod, H, K, <- Zmult_mod. Qed.

#[export] Instance cong_sub_proper : Proper (cong ==> cong ==> cong) Z.sub.
Proof. intros a b H c d K. unfold cong in *. by rewrite Zminus_mod, H, K, <- Zminus_mod. Qed.

#[export] Instance cong_opp_proper : Proper (cong ==> cong) Z.opp.
Proof. intros a b H. rewrite <- !Z.sub_0_l. by rewrite H. Qed.

Lemma cong_mod x : cong (x mod m) x.
Proof. apply Zmod_mod. Qed.

Lemma cong_zsum n f g : (∀ i, 0 ≤ i < n → cong (f i) (g i)) → cong (zsum n f) (zsum n g).
Proof.
  destruct (decide (0 ≤ n)) as [Hn|]; [|unfold zsum; by replace (Z.to_nat n) with 0%nat by lia].
  revert n Hn. apply (Z_bound_ind (λ n, (∀ i, 0 ≤ i < n → cong (f i) (g i)) → cong (zsum n f) (zsum n g))); [done|].
  intros n Hn IH H. rewrite !zsum_succ by lia.
  rewrite (H n) by lia. rewrite IH; [done|]. intros. apply H. lia.
Qed.

Lemma cong_eq x y : x = y → cong x y.
Proof. by intros ->. Qed.

Lemma cong_canonical x y : cong x y → 0 ≤ x < m → 0 ≤ y < m → x = y.
Proof. unfold cong. intros H Hx Hy. by rewrite !Z.mod_small in H. Qed.
End Congruence.

(** ** Byte strings

    Memory is a list of bytes; the little- and big-endian accessors of
    [crypto/common.h]. *)
Fixpoint le_bytes (n : nat) (x : Z) : list Z :=
  match n with
  | O => []
  | S n' => Z.land x 255 :: le_bytes n' (Z.shiftr x 8)
  end.

Fixpoint le_word (l : list Z) : Z :=
  match l with
  | [] => 0
  | b :: l' => b + 256 * le_word l'
  end.

Definition is_byte (b : Z) : Prop := 0 ≤ b < 256.

Lemma length_le_bytes n x : length (le_bytes n x) = n.
Proof. revert x. induction n; simpl; auto. Qed.

Lemma le_bytes_is_byte n x : Forall is_byte (le_bytes n x).
Proof.
  revert x. induction n as [|n IH]; intros x; simpl; constructor; auto.
  unfold is_byte. rewrite (land_mask x 8) by done. by apply Z.mod_pos_bound.
Qed.

Lemma le_word_le_bytes n x : le_word (le_bytes n x) = x mod 2 ^ (8 * Z.of_nat n).
Proof.
  revert x. induction n as [|n IH]; intros x; simpl le_bytes; simpl le_word.
  - by rewrite Z.mod_1_r.
  - rewrite IH, (land_mask x 8), Z.shiftr_div_pow2 by done.
    replace (8 * Z.of_nat (S n)) with (8 + 8 * Z.of_nat n) by lia.
    rewrite Z.pow_add_r, Z.rem_mul_r by lia. done.
Qed.

Lemma le_word_bound l : Forall is_byte l → 0 ≤ le_word l < 2 ^ (8 * zlen l).
Proof.
  unfold zlen. induction 1 as [|b l Hb Hl IH]; simpl; [done|].
  replace (8 * Z.of_nat (S (length l))) with (8 + 8 * Z.of_nat (length l)) by lia.
  rewrite Z.pow_add_r by lia. unfold is_byte in *. nia.
Qed.

Lemma le_bytes_le_word l : Forall is_byte l → le_bytes (length l) (le_word l) = l.
Proof.
  induction 1 as [|b l Hb Hl IH]; simpl; [done|]. unfold is_byte in Hb.
  rewrite (land_mask _ 8), Z.shiftr_div_pow2 by done. change (2 ^ 8) with 256.
  rewrite (Z.mul_comm 256), Z.mod_add, Z.div_add, Z.mod_small, Z.div_small, Z.add_0_l by lia.
  by rewrite IH.
Qed.

(** The [n] bytes at offset [off], as a pointer read sees them. *)
Definition slice {A} (off len : nat) (l : list A) : list A := take len (drop off l).

(** The destination after [memcpy(buf + off, src, ...)]. *)
Definition memcpy_at {A} (buf : list A) (off : nat) (src : list A) : list A :=
  take off buf ++ src ++ drop (off + length src) buf.

Lemma length_memcpy_at {A} (buf : list A) off src :
  (off + length src ≤ length buf)%nat → length (memcpy_at buf off src) = length buf.
Proof. intros. unfold memcpy_at. rewrite !length_app, length_take, length_drop. lia. Qed.

(** ** Automation *)
Create HintDb btx.
#[export] Hint Resolve zlen_nonneg u8_bound u16_bound u32_bound u64_bound : btx.
#[export] Hint Resolve le_bytes_is_byte : btx.
