(* ===== verification/Sha256.v ===== *)
(** SHA-256 and the hash wrappers built on it.

    [crypto/sha256.cpp] (the portable [sha256::Transform], the buffering
    hasher [CSHA256]), [crypto/common.h] (byte order) and [hash.h]
    ([CHash256], [HashWriter]).  The reference is FIPS 180-4: the padded
    message, the 64-word schedule and the compression function.  The theorems
    show that [Transform], which keeps the schedule in sixteen rolling
    registers, is the FIPS compression function, and that a [CSHA256] fed by
    any sequence of [Write]s hashes the concatenation of what was written. *)

From Stdlib Require Import ZArith Lia.
From stdpp Require Import base list numbers tactics.
From S2P Require Import Prelude.

Open Scope Z_scope.

(** ** [crypto/common.h] *)
Definition ReadLE32 (p : list Z) : Z := le_word (take 4 p).
Definition ReadLE64 (p : list Z) : Z := le_word (take 8 p).
Definition WriteLE16 (x : Z) : list Z := le_bytes 2 x.
Definition WriteLE32 (x : Z) : list Z := le_bytes 4 x.
Definition WriteLE64 (x : Z) : list Z := le_bytes 8 x.
Definition ReadBE32 (p : list Z) : Z := le_word (reverse (take 4 p)).
Definition WriteBE32 (x : Z) : list Z := reverse (le_bytes 4 x).
Definition WriteBE64 (x : Z) : list Z := reverse (le_bytes 8 x).

(** ** The internal SHA-256 implementation (namespace [sha256]) *)
Module sha256.

Definition Ch (x y z : Z) : Z := Z.lxor z (Z.land x (Z.lxor y z)).
Definition Maj (x y z : Z) : Z := Z.lor (Z.land x y) (Z.land z (Z.lor x y)).

(** [x >> n | x << (32 - n)] on [uint32_t]. *)
Definition rotr (n : Z) (x : Z) : Z :=
  Z.lor (Z.shiftr x n) (u32 (Z.shiftl x (32 - n))).

Definition Sigma0 (x : Z) : Z := Z.lxor (Z.lxor (rotr 2 x) (rotr 13 x)) (rotr 22 x).
Definition Sigma1 (x : Z) : Z := Z.lxor (Z.lxor (rotr 6 x) (rotr 11 x)) (rotr 25 x).
Definition sigma0 (x : Z) : Z := Z.lxor (Z.lxor (rotr 7 x) (rotr 18 x)) (Z.shiftr x 3).
Definition sigma1 (x : Z) : Z := Z.lxor (Z.lxor (rotr 17 x) (rotr 19 x)) (Z.shiftr x 10).

(** The eight working variables (and the eight chaining words [s[0..7]]). *)
Record regs := Regs { ra : Z; rb : Z; rc : Z; rd : Z; re : Z; rf : Z; rg : Z; rh : Z }.

(** One round: the new values of the references [d] and [h]. *)
Definition Round (a b c d e f g h k : Z) : Z * Z :=
  let t1 := u32 (h + Sigma1 e + Ch e f g + k) in
  let t2 := u32 (Sigma0 a + Maj a b c) in
  (u32 (d + t1), u32 (t1 + t2)).

(** The calls [Round(a,b,...,h,k)], [Round(h,a,...,g,k)], ... pass the
    variables rotated by one place each time: the round followed by that
    renaming.  After 64 rounds the names are back in place. *)
Definition round_step (r : regs) (k : Z) : regs :=
  let '(d', h') := Round (ra r) (rb r) (rc r) (rd r) (re r) (rf r) (rg r) (rh r) k in
  Regs h' (ra r) (rb r) (rc r) d' (re r) (rf r) (rg r).

Definition Initialize : regs :=
  Regs 0x6a09e667 0xbb67ae85 0x3c6ef372 0xa54ff53a
       0x510e527f 0x9b05688c 0x1f83d9ab 0x5be0cd19.

(** The round constants of the unrolled calls, in order: a row per full turn
    of the eight state variables. *)
Definition K : list Z := Eval cbv in concat
  [[0x428a2f98; 0x71374491; 0xb5c0fbcf; 0xe9b5dba5; 0x3956c25b; 0x59f111f1; 0x923f82a4; 0xab1c5ed5];
   [0xd807aa98; 0x12835b01; 0x243185be; 0x550c7dc3; 0x72be5d74; 0x80deb1fe; 0x9bdc06a7; 0xc19bf174];
   [0xe49b69c1; 0xefbe4786; 0x0fc19dc6; 0x240ca1cc; 0x2de92c6f; 0x4a7484aa; 0x5cb0a9dc; 0x76f988da];
   [0x983e5152; 0xa831c66d; 0xb00327c8; 0xbf597fc7; 0xc6e00bf3; 0xd5a79147; 0x06ca6351; 0x14292967];
   [0x27b70a85; 0x2e1b2138; 0x4d2c6dfc; 0x53380d13; 0x650a7354; 0x766a0abb; 0x81c2c92e; 0x92722c85];
   [0xa2bfe8a1; 0xa81a664b; 0xc24b8b70; 0xc76c51a3; 0xd192e819; 0xd6990624; 0xf40e3585; 0x106aa070];
   [0x19a4c116; 0x1e376c08; 0x2748774c; 0x34b0bcb5; 0x391c0cb3; 0x4ed8aa4a; 0x5b9cca4f; 0x682e6ff3];
   [0x748f82ee; 0x78a5636f; 0x84c87814; 0x8cc70208; 0x90befffa; 0xa4506ceb; 0xbef9a3f7; 0xc67178f2]].

Definition kth (t : nat) : Z := nth t K 0.
Definition wth (w : list Z) (i : nat) : Z := nth i w 0.

(** The register [w<t mod 16>] as round [t] uses it: loaded from the chunk in
    the first sixteen rounds, then [w += sigma1(w14) + w9 + sigma0(w1)] with
    the register numbers relative to [t]. *)
Definition next_w (chunk : list Z) (w : list Z) (t : nat) : Z :=
  if (t <? 16)%nat then ReadBE32 (drop (4 * t) chunk)
  else u32 (wth w (t mod 16)
            + (sigma1 (wth w ((t + 14) mod 16)) + wth w ((t + 9) mod 16)
               + sigma0 (wth w ((t + 1) mod 16)))).

Definition transform_round (chunk : list Z) (acc : regs * list Z) (t : nat) : regs * list Z :=
  let '(r, w) := acc in
  let wt := next_w chunk w t in
  (round_step r (u32 (kth t + wt)), <[t mod 16 := wt]> w)%nat.

Definition add_regs (s r : regs) : regs :=
  Regs (u32 (ra s + ra r)) (u32 (rb s + rb r)) (u32 (rc s + rc r)) (u32 (rd s + rd r))
       (u32 (re s + re r)) (u32 (rf s + rf r)) (u32 (rg s + rg r)) (u32 (rh s + rh r)).

Definition transform_chunk (s : regs) (chunk : list Z) : regs :=
  add_regs s (fst (foldl (transform_round chunk) (s, replicate 16 0) (seq 0 64))).

(** [Transform(s, chunk, blocks)]: consecutive 64-byte chunks. *)
Fixpoint Transform (s : regs) (chunk : list Z) (blocks : nat) : regs :=
  match blocks with
  | O => s
  | S n => Transform (transform_chunk s chunk) (drop 64 chunk) n
  end.

End sha256.
Import sha256.

(** ** [CSHA256] *)
Record CSHA256 := mkSHA { sh_s : regs; sh_buf : list Z; sh_bytes : Z }.

(** The constructor; the buffer is uninitialised memory of 64 bytes, which no
    path reads before writing it. *)
Definition CSHA256_new : CSHA256 := mkSHA Initialize (replicate 64 0) 0.

Definition sha_Write (st : CSHA256) (data : list Z) : CSHA256 :=
  let bufsize := Z.to_nat (sh_bytes st mod 64) in
  let len := length data in
  let '(s, buf, bytes, data, bufsize) :=
    if negb (bufsize =? 0)%nat && (64 <=? bufsize + len)%nat then
      let buf := memcpy_at (sh_buf st) bufsize (take (64 - bufsize) data) in
      (Transform (sh_s st) buf 1, buf, u64 (sh_bytes st + Z.of_nat (64 - bufsize)),
       drop (64 - bufsize) data, 0%nat)
    else (sh_s st, sh_buf st, sh_bytes st, data, bufsize) in
  let '(s, bytes, data) :=
    if (64 <=? length data)%nat then
      let blocks := (length data / 64)%nat in
      (Transform s data blocks, u64 (bytes + Z.of_nat (64 * blocks)), drop (64 * blocks) data)
    else (s, bytes, data) in
  if (0 <? length data)%nat then
    mkSHA s (memcpy_at buf bufsize data) (u64 (bytes + Z.of_nat (length data)))
  else mkSHA s buf bytes.

Definition hash_bytes (s : regs) : list Z :=
  WriteBE32 (ra s) ++ WriteBE32 (rb s) ++ WriteBE32 (rc s) ++ WriteBE32 (rd s) ++
  WriteBE32 (re s) ++ WriteBE32 (rf s) ++ WriteBE32 (rg s) ++ WriteBE32 (rh s).

(** [static const unsigned char pad[64] = {0x80}]. *)
Definition pad_bytes : list Z := 128 :: replicate 63 0.

(** The hash, and the hasher as [Finalize] leaves it. *)
Definition sha_Finalize (st : CSHA256) : list Z * CSHA256 :=
  let sizedesc := WriteBE64 (u64 (Z.shiftl (sh_bytes st) 3)) in
  let st := sha_Write st (take (1 + ((119 - Z.to_nat (sh_bytes st mod 64)) mod 64)) pad_bytes)%nat in
  let st := sha_Write st sizedesc in
  (hash_bytes (sh_s st), st).

Definition sha_Reset (st : CSHA256) : CSHA256 := mkSHA Initialize (sh_buf st) 0.

(** ** [hash.h] *)
Definition CHash256_new : CSHA256 := CSHA256_new.
Definition CHash256_Write (st : CSHA256) (input : list Z) : CSHA256 := sha_Write st input.
Definition CHash256_Finalize (st : CSHA256) : list Z :=
  let '(buf, st) := sha_Finalize st in
  fst (sha_Finalize (sha_Write (sha_Reset st) buf)).

(** [HashWriter]: [operator<<] serialises its argument and calls [write]. *)
Definition HashWriter_new : CSHA256 := CSHA256_new.
Definition HashWriter_write (st : CSHA256) (src : list Z) : CSHA256 := sha_Write st src.
Definition HashWriter_GetHash (st : CSHA256) : list Z :=
  let '(r, st) := sha_Finalize st in
  fst (sha_Finalize (sha_Write (sha_Reset st) r)).
Definition HashWriter_GetSHA256 (st : CSHA256) : list Z := fst (sha_Finalize st).

(** ** FIPS 180-4 as the specification *)
Module fips.

(** W_t for t >= 16 from the words before it. *)
Definition next (ws : list Z) : Z :=
  let t := length ws in
  u32 (sigma1 (wth ws (t - 2)) + wth ws (t - 7) + sigma0 (wth ws (t - 15)) + wth ws (t - 16)).

Fixpoint extend (n : nat) (ws : list Z) : list Z :=
  match n with O => ws | S n' => extend n' (ws ++ [next ws]) end.

Definition block_words (chunk : list Z) : list Z :=
  (λ t, ReadBE32 (drop (4 * t) chunk)) <$> seq 0 16.

Definition schedule (chunk : list Z) : list Z := extend 48 (block_words chunk).

(** The 64 rounds on the precomputed schedule, then the feed-forward. *)
Definition compress (s : regs) (chunk : list Z) : regs :=
  let W := schedule chunk in
  add_regs s (foldl (λ r t, round_step r (u32 (kth t + wth W t))) s (seq 0 64)).

(** Section 5.1.1: append 0x80, zeros up to 56 mod 64, and the bit length. *)
Definition zeros (m : list Z) : nat := Z.to_nat ((55 - zlen m) mod 64).
Definition pad (m : list Z) : list Z :=
  m ++ 128 :: replicate (zeros m) 0 ++ WriteBE64 (u64 (8 * zlen m)).

Fixpoint compress_all (s : regs) (m : list Z) (n : nat) : regs :=
  match n with
  | O => s
  | S n' => compress_all (compress s m) (drop 64 m) n'
  end.

Definition sha256 (m : list Z) : list Z :=
  hash_bytes (compress_all Initialize (pad m) (length (pad m) / 64)).

End fips.

Definition sha256d (m : list Z) : list Z := fips.sha256 (fips.sha256 m).

(** *** The rolling schedule *)
Lemma length_extend n ws : length (fips.extend n ws) = (n + length ws)%nat.
Proof.
  revert ws. induction n as [|n IH]; intros ws; simpl; [done|].
  rewrite IH, length_app. simpl. lia.
Qed.

Lemma extend_prefix n ws i : (i < length ws)%nat → wth (fips.extend n ws) i = wth ws i.
Proof.
  revert ws. induction n as [|n IH]; intros ws Hi; simpl; [done|].
  rewrite IH by (rewrite length_app; simpl; lia). unfold wth. by rewrite app_nth1.
Qed.

Lemma extend_at n ws i :
  (16 ≤ length ws ≤ i)%nat → (i < n + length ws)%nat →
  let W := fips.extend n ws in
  wth W i = u32 (sigma1 (wth W (i - 2)) + wth W (i - 7) + sigma0 (wth W (i - 15)) + wth W (i - 16)).
Proof.
  revert ws. induction n as [|n IH]; intros ws Hw Hi; simpl; [lia|].
  destruct (decide (i = length ws)) as [->|Hne].
  - rewrite !extend_prefix by (rewrite length_app; simpl; lia).
    unfold wth at 1. rewrite app_nth2, Nat.sub_diag by lia. simpl. unfold fips.next, wth.
    by rewrite !app_nth1 by lia.
  - apply IH; rewrite length_app; simpl; lia.
Qed.

Lemma length_block_words chunk : length (fips.block_words chunk) = 16%nat.
Proof. done. Qed.

Lemma length_schedule chunk : length (fips.schedule chunk) = 64%nat.
Proof. unfold fips.schedule. by rewrite length_extend. Qed.

Lemma schedule_load chunk t :
  (t < 16)%nat → wth (fips.schedule chunk) t = ReadBE32 (drop (4 * t) chunk).
Proof.
  intros Ht. unfold fips.schedule. rewrite extend_prefix by (by rewrite length_block_words).
  unfold wth, fips.block_words. rewrite nth_lookup, list_lookup_fmap, lookup_seq_lt by done. done.
Qed.

Lemma schedule_next chunk t :
  (16 ≤ t < 64)%nat →
  let W := fips.schedule chunk in
  wth W t = u32 (sigma1 (wth W (t - 2)) + wth W (t - 7) + sigma0 (wth W (t - 15)) + wth W (t - 16)).
Proof. intros Ht. apply (extend_at 48); rewrite length_block_words; lia. Qed.

#[local] Opaque fips.schedule.

Lemma mod16_shift t i j : (16 ≤ t)%nat → (i + j = 16)%nat → ((t + j) mod 16 = (t - i) mod 16)%nat.
Proof.
  intros. replace (t + j)%nat with ((t - i) + 1 * 16)%nat by lia. apply Nat.Div0.mod_add.
Qed.

(** After [t] rounds the registers hold the last sixteen schedule words and
    the working variables are those of the reference. *)
Definition roll_inv (chunk : list Z) (s : regs) (t : nat) (acc : regs * list Z) : Prop :=
  let W := fips.schedule chunk in
  fst acc = foldl (λ r t, round_step r (u32 (kth t + wth W t))) s (seq 0 t) ∧
  length (snd acc) = 16%nat ∧
  ∀ i, (i < t)%nat → (t ≤ i + 16)%nat → wth (snd acc) (i mod 16) = wth W i.

Lemma roll_next chunk s t acc :
  roll_inv chunk s t acc → (t < 64)%nat →
  next_w chunk (snd acc) t = wth (fips.schedule chunk) t.
Proof.
  intros (_ & _ & Hw) Ht. unfold next_w.
  destruct (Nat.ltb_spec t 16); [by rewrite schedule_load|].
  rewrite schedule_next by lia. f_equal.
  rewrite (mod16_shift t 2 14), (mod16_shift t 7 9), (mod16_shift t 15 1) by lia.
  replace (t mod 16)%nat with ((t - 16) mod 16)%nat.
  2: { rewrite <- (mod16_shift t 16 0) by lia. by rewrite Nat.add_0_r. }
  rewrite !Hw by lia. lia.
Qed.

Lemma roll_step chunk s t acc :
  roll_inv chunk s t acc → (t < 64)%nat →
  roll_inv chunk s (S t) (transform_round chunk acc t).
Proof.
  intros Hinv Ht. pose proof (roll_next _ _ _ _ Hinv Ht) as Hn.
  destruct Hinv as (Hr & Hl & Hw). destruct acc as [r w]. cbn [fst snd] in *.
  unfold roll_inv, transform_round. rewrite Hn. cbn [fst snd].
  rewrite seq_S, foldl_app. cbn [foldl]. rewrite Hr, length_insert.
  split_and!; [done..|]. intros i Hi Hi'. unfold wth.
  rewrite nth_lookup. destruct (decide (i = t)) as [->|Hne].
  - rewrite list_lookup_insert_eq; [done|]. rewrite Hl. by apply Nat.mod_upper_bound.
  - rewrite list_lookup_insert_ne, <- nth_lookup; [apply Hw; lia|].
    intros E. apply Hne.
    pose proof (Nat.div_mod_eq i 16). pose proof (Nat.div_mod_eq t 16).
    pose proof (Nat.mod_upper_bound i 16). lia.
Qed.

Lemma roll_all chunk s t :
  (t ≤ 64)%nat →
  roll_inv chunk s t (foldl (transform_round chunk) (s, replicate 16 0) (seq 0 t)).
Proof.
  induction t as [|t IH]; intros Ht.
  - unfold roll_inv. simpl. split_and!; [done..|]. lia.
  - rewrite seq_S, foldl_app. cbn [foldl]. apply roll_step; [|lia]. apply IH. lia.
Qed.

Lemma transform_chunk_fips s chunk : transform_chunk s chunk = fips.compress s chunk.
Proof.
  unfold transform_chunk, fips.compress.
  destruct (roll_all chunk s 64 ltac:(lia)) as [-> _]. reflexivity.
Qed.

Lemma Transform_compress_all s m n : Transform s m n = fips.compress_all s m n.
Proof.
  revert s m. induction n as [|n IH]; intros s m; simpl; [done|].
  by rewrite transform_chunk_fips, IH.
Qed.

#[local] Transparent fips.schedule.

(** *** Consecutive chunks *)
Lemma ReadBE32_prefix a b : (4 ≤ length a)%nat → ReadBE32 (a ++ b) = ReadBE32 a.
Proof. intros. unfold ReadBE32. by rewrite take_app_le. Qed.

Lemma block_words_prefix a b :
  (64 ≤ length a)%nat → fips.block_words (a ++ b) = fips.block_words a.
Proof.
  intros Ha. unfold fips.block_words. apply list_fmap_ext. intros i t Ht.
  apply lookup_seq in Ht as [-> Ht].
  rewrite drop_app_le by lia. apply ReadBE32_prefix. rewrite length_drop. lia.
Qed.

Lemma compress_prefix s a b :
  (64 ≤ length a)%nat → fips.compress s (a ++ b) = fips.compress s a.
Proof. intros. unfold fips.compress, fips.schedule. by rewrite block_words_prefix. Qed.

#[local] Opaque fips.schedule fips.compress transform_chunk.

Lemma compress_all_app s a b n k :
  length a = (64 * n)%nat →
  fips.compress_all s (a ++ b) (n + k) = fips.compress_all (fips.compress_all s a n) b k.
Proof.
  revert s a. induction n as [|n IH]; intros s a Ha; simpl.
  - by rewrite (nil_length_inv a) by lia.
  - rewrite compress_prefix, drop_app_le by lia. apply IH. rewrite length_drop. lia.
Qed.

Lemma compress_all_prefix s a b n :
  length a = (64 * n)%nat → fips.compress_all s (a ++ b) n = fips.compress_all s a n.
Proof.
  intros. rewrite <- (Nat.add_0_r n) at 1. by rewrite compress_all_app.
Qed.

(** *** What a hasher stands for

    [hashing st full rest]: the hasher has compressed the whole blocks [full]
    and buffers [rest]. *)
Record hashing (st : CSHA256) (full rest : list Z) : Prop := {
  h_full : length full = (64 * (length full / 64))%nat;
  h_rest : (length rest < 64)%nat;
  h_state : sh_s st = fips.compress_all Initialize full (length full / 64);
  h_bytes : sh_bytes st = (zlen full + zlen rest) mod 2 ^ 64;
  h_len : length (sh_buf st) = 64%nat;
  h_buf : take (length rest) (sh_buf st) = rest
}.

(** A hasher that has been given the message [m]. *)
Definition represents (st : CSHA256) (m : list Z) : Prop :=
  ∃ full rest, m = full ++ rest ∧ hashing st full rest.

Lemma hashing_bufsize st full rest :
  hashing st full rest → Z.to_nat (sh_bytes st mod 64) = length rest.
Proof.
  intros [Hf Hr _ Hb _ _]. rewrite Hb. unfold zlen.
  replace (2 ^ 64) with (64 * 2 ^ 58) by done.
  rewrite Z.rem_mul_r, Z.mul_comm, Z.mod_add, Z.mod_mod by lia.
  rewrite Hf. rewrite Nat2Z.inj_mul.
  rewrite Z.add_comm, Z.mul_comm, Z.mod_add, Z.mod_small by lia. lia.
Qed.

Lemma u64_add_mod a b : u64 (a mod 2 ^ 64 + b) = (a + b) mod 2 ^ 64.
Proof. rewrite u64_mod. by rewrite Zplus_mod_idemp_l. Qed.

Lemma whole_blocks k n : k = (64 * n)%nat → k = (64 * (k / 64))%nat ∧ (k / 64 = n)%nat.
Proof. intros ->. rewrite (Nat.mul_comm 64 n), Nat.div_mul by lia. lia. Qed.

(** Appending whole blocks to [full]. *)
Lemma full_app full extra n :
  length full = (64 * (length full / 64))%nat → length extra = (64 * n)%nat →
  length (full ++ extra) = (64 * (length (full ++ extra) / 64))%nat ∧
  fips.compress_all Initialize (full ++ extra) (length (full ++ extra) / 64)
    = fips.compress_all (fips.compress_all Initialize full (length full / 64)) extra n.
Proof.
  intros Hf He.
  destruct (whole_blocks (length (full ++ extra)) (length full / 64 + n)) as [H1 H2].
  { rewrite length_app. lia. }
  split; [done|]. rewrite H2.
  rewrite (compress_all_app Initialize full extra (length full / 64) n) by done. done.
Qed.

(** Step 1 of [Write]: the buffer is completed and compressed. *)
Lemma hashing_flush st full rest d :
  hashing st full rest → (0 < length rest)%nat → (64 ≤ length rest + length d)%nat →
  let k := (64 - length rest)%nat in
  let buf := memcpy_at (sh_buf st) (length rest) (take k d) in
  hashing (mkSHA (Transform (sh_s st) buf 1) buf (u64 (sh_bytes st + Z.of_nat k)))
          (full ++ rest ++ take k d) [].
Proof.
  intros [Hf Hr Hs Hb Hl Hbuf] Hpos Hge k buf.
  assert (length (take k d) = k) as Hk by (rewrite length_take; lia).
  assert (buf = rest ++ take k d) as Hbf.
  { unfold buf, memcpy_at. rewrite Hbuf, Hk, drop_ge, app_nil_r by lia. done. }
  assert (length (rest ++ take k d) = (64 * 1)%nat) as Hex by (rewrite length_app; lia).
  destruct (full_app full _ 1 Hf Hex) as [H1 H2].
  split; cbn [sh_s sh_bytes sh_buf length take].
  - exact H1.
  - lia.
  - rewrite H2, <- Hs, Hbf, Transform_compress_all. reflexivity.
  - rewrite Hb, u64_add_mod. f_equal. unfold zlen. rewrite !length_app. simpl. lia.
  - rewrite Hbf. lia.
  - reflexivity.
Qed.

(** Step 2: whole blocks straight from the input. *)
Lemma hashing_blocks st full d :
  hashing st full [] →
  let n := (length d / 64)%nat in
  hashing (mkSHA (Transform (sh_s st) d n) (sh_buf st) (u64 (sh_bytes st + Z.of_nat (64 * n))))
          (full ++ take (64 * n) d) [].
Proof.
  intros [Hf Hr Hs Hb Hl Hbuf] n.
  assert (64 * n ≤ length d)%nat as Hn by (apply Nat.Div0.mul_div_le).
  assert (length (take (64 * n) d) = (64 * n)%nat) as Hk by (rewrite length_take; lia).
  destruct (full_app full _ n Hf Hk) as [H1 H2].
  split; cbn [sh_s sh_bytes sh_buf length take].
  - exact H1.
  - lia.
  - rewrite H2, <- Hs, Transform_compress_all.
    rewrite <- (take_drop (64 * n) d) at 1. apply compress_all_prefix, Hk.
  - rewrite Hb, u64_add_mod. f_equal. unfold zlen. rewrite length_app, Hk. simpl. lia.
  - exact Hl.
  - reflexivity.
Qed.

(** Step 3: the remainder goes to the buffer. *)
Lemma hashing_tail st full rest d :
  hashing st full rest → (length rest + length d < 64)%nat →
  hashing (mkSHA (sh_s st) (memcpy_at (sh_buf st) (length rest) d)
                 (u64 (sh_bytes st + Z.of_nat (length d))))
          full (rest ++ d).
Proof.
  intros [Hf Hr Hs Hb Hl Hbuf] Hlt.
  split; cbn [sh_s sh_bytes sh_buf].
  - exact Hf.
  - rewrite length_app. lia.
  - exact Hs.
  - rewrite Hb, u64_add_mod. f_equal. unfold zlen. rewrite length_app. lia.
  - rewrite length_memcpy_at by lia. exact Hl.
  - unfold memcpy_at. rewrite Hbuf, app_assoc. apply take_app_length.
Qed.

(** The two later steps of [Write], shared by both branches of the first. *)
Definition write_rest (st : CSHA256) (bufsize : nat) (data : list Z) : CSHA256 :=
  let '(s, bytes, data) :=
    if (64 <=? length data)%nat then
      let blocks := (length data / 64)%nat in
      (Transform (sh_s st) data blocks, u64 (sh_bytes st + Z.of_nat (64 * blocks)),
       drop (64 * blocks) data)
    else (sh_s st, sh_bytes st, data) in
  if (0 <? length data)%nat then
    mkSHA s (memcpy_at (sh_buf st) bufsize data) (u64 (bytes + Z.of_nat (length data)))
  else mkSHA s (sh_buf st) bytes.

Lemma write_rest_tail st full rest d :
  hashing st full rest → (length rest + length d < 64)%nat →
  represents (write_rest st (length rest) d) (full ++ rest ++ d).
Proof.
  intros H Hlt. unfold write_rest. rewrite (proj2 (Nat.leb_gt 64 _)) by lia.
  destruct (Nat.ltb_spec 0 (length d)) as [Hd|Hd].
  - exists full, (rest ++ d). split; [reflexivity|]. by apply hashing_tail.
  - rewrite (nil_length_inv d), app_nil_r by lia. exists full, rest.
    split; [reflexivity|]. destruct st. exact H.
Qed.

Lemma write_rest_blocks st full d :
  hashing st full [] → represents (write_rest st 0 d) (full ++ d).
Proof.
  intros H. destruct (decide (64 ≤ length d)%nat) as [Hge|Hlt].
  2: { apply (write_rest_tail st full [] d H). simpl. lia. }
  pose proof (hashing_blocks st full d H) as Hb. cbv zeta in Hb.
  set (n := (length d / 64)%nat) in *.
  pose proof (Nat.div_mod_eq (length d) 64) as Hdm. fold n in Hdm.
  pose proof (Nat.mod_upper_bound (length d) 64 ltac:(lia)).
  assert (length (drop (64 * n) d) < 64)%nat as Hshort by (rewrite length_drop; lia).
  pose proof (write_rest_tail _ _ [] (drop (64 * n) d) Hb Hshort) as Ht.
  simpl app in Ht. rewrite <- app_assoc, take_drop in Ht.
  unfold write_rest in Ht |- *. cbn [sh_s sh_bytes sh_buf length] in Ht.
  rewrite (proj2 (Nat.leb_gt 64 _)) in Ht by lia.
  rewrite (proj2 (Nat.leb_le 64 _) Hge). cbv zeta. fold n. exact Ht.
Qed.

Lemma sha_Write_represents st m d :
  represents st m → represents (sha_Write st d) (m ++ d).
Proof.
  intros (full & rest & -> & H). unfold sha_Write.
  rewrite (hashing_bufsize _ _ _ H).
  destruct (negb (length rest =? 0)%nat && (64 <=? length rest + length d)%nat) eqn:E.
  - apply andb_true_iff in E as [E1 E2].
    apply negb_true_iff, Nat.eqb_neq in E1. apply Nat.leb_le in E2.
    pose proof (write_rest_blocks _ _ (drop (64 - length rest) d)
      (hashing_flush _ _ _ d H ltac:(lia) E2)) as Hw.
    rewrite <- !app_assoc, take_drop in Hw. rewrite <- app_assoc. exact Hw.
  - rewrite <- app_assoc. apply andb_false_iff in E as [E|E].
    + apply negb_false_iff, Nat.eqb_eq in E.
      rewrite (nil_length_inv rest E) in *. exact (write_rest_blocks _ _ d H).
    + apply Nat.leb_gt in E. exact (write_rest_tail _ _ _ d H E).
Qed.

Lemma represents_new : represents CSHA256_new [].
Proof.
  exists [], []. split; [reflexivity|].
  split; cbn; try reflexivity; lia.
Qed.

Lemma represents_buf st m : represents st m → length (sh_buf st) = 64%nat.
Proof. intros (full & rest & _ & H). apply (h_len _ _ _ H). Qed.

Lemma sha_Reset_represents st m : represents st m → represents (sha_Reset st) [].
Proof.
  intros H. exists [], []. split; [reflexivity|].
  split; cbn; try reflexivity; try lia. by apply represents_buf in H.
Qed.

(** *** Padding and the digest *)
Lemma represents_bytes st m : represents st m → sh_bytes st = zlen m mod 2 ^ 64.
Proof. intros (full & rest & -> & H). rewrite (h_bytes _ _ _ H). by rewrite zlen_app. Qed.

Lemma zeros_bufsize st m :
  represents st m → ((119 - Z.to_nat (sh_bytes st mod 64)) mod 64)%nat = fips.zeros m.
Proof.
  intros H. rewrite (represents_bytes _ _ H). unfold fips.zeros.
  replace (zlen m mod 2 ^ 64 mod 64) with (zlen m mod 64).
  2: { replace (2 ^ 64) with (64 * 2 ^ 58) by done.
       by rewrite Z.rem_mul_r, (Z.mul_comm 64 (_ mod _)), Z.mod_add, Z.mod_mod by lia. }
  pose proof (Z.mod_pos_bound (zlen m) 64 ltac:(lia)).
  apply Nat2Z.inj. rewrite Nat2Z.inj_mod, Nat2Z.inj_sub, Z2Nat.id, Z2Nat.id by (try apply Z.mod_pos_bound; lia).
  change (Z.of_nat 119) with 119. change (Z.of_nat 64) with 64. replace (119 - zlen m mod 64) with (55 - zlen m mod 64 + 1 * 64) by lia.
  rewrite Z.mod_add by lia. apply Zminus_mod_idemp_r.
Qed.

Lemma pad_take k : (k < 64)%nat → take (1 + k) pad_bytes = 128 :: replicate k 0.
Proof.
  intros. unfold pad_bytes. change (1 + k)%nat with (S k). rewrite firstn_cons, take_replicate.
  by rewrite Nat.min_l by lia.
Qed.

Lemma zeros_lt m : (fips.zeros m < 64)%nat.
Proof. unfold fips.zeros. pose proof (Z.mod_pos_bound (55 - zlen m) 64). lia. Qed.

Lemma length_WriteBE64 x : length (WriteBE64 x) = 8%nat.
Proof. unfold WriteBE64. by rewrite length_reverse, length_le_bytes. Qed.

Lemma length_pad m : ∃ n, length (fips.pad m) = (64 * n)%nat.
Proof.
  unfold fips.pad. rewrite length_app, length_cons, length_app, length_replicate, length_WriteBE64.
  unfold fips.zeros. pose proof (Z.mod_pos_bound (55 - zlen m) 64 ltac:(lia)).
  pose proof (Z.div_mod (55 - zlen m) 64 ltac:(lia)).
  exists (Z.to_nat (1 - (55 - zlen m) / 64)). unfold zlen in *. lia.
Qed.

Lemma shift_bitlen x : u64 (Z.shiftl (x mod 2 ^ 64) 3) = u64 (8 * x).
Proof.
  rewrite !u64_mod, Z.shiftl_mul_pow2 by lia. rewrite Zmult_mod_idemp_l. f_equal. lia.
Qed.

Lemma represents_whole st m n :
  represents st m → length m = (64 * n)%nat →
  sh_s st = fips.compress_all Initialize m (length m / 64).
Proof.
  intros (full & rest & -> & H) Hn. pose proof (h_full _ _ _ H). pose proof (h_rest _ _ _ H).
  rewrite length_app in Hn.
  rewrite (nil_length_inv rest), app_nil_r by lia. exact (h_state _ _ _ H).
Qed.

Lemma sha_Finalize_padded st m :
  represents st m → represents (snd (sha_Finalize st)) (fips.pad m) ∧
  fst (sha_Finalize st) = hash_bytes (sh_s (snd (sha_Finalize st))).
Proof.
  intros H. unfold sha_Finalize. cbv zeta. cbn [fst snd]. split; [|reflexivity].
  rewrite (zeros_bufsize _ _ H), pad_take by apply zeros_lt.
  rewrite (represents_bytes _ _ H), shift_bitlen.
  unfold fips.pad. rewrite app_comm_cons, app_assoc.
  by apply sha_Write_represents, sha_Write_represents.
Qed.

Lemma sha_Finalize_fips st m : represents st m → fst (sha_Finalize st) = fips.sha256 m.
Proof.
  intros H. destruct (sha_Finalize_padded _ _ H) as [Hr ->].
  destruct (length_pad m) as [n Hn]. unfold fips.sha256.
  by rewrite (represents_whole _ _ _ Hr Hn).
Qed.

(** Feeding a hasher a sequence of pieces. *)
Definition sha_writes (st : CSHA256) (ds : list (list Z)) : CSHA256 := foldl sha_Write st ds.

Lemma sha_writes_represents st m ds :
  represents st m → represents (sha_writes st ds) (m ++ concat ds).
Proof.
  revert st m. induction ds as [|d ds IH]; intros st m H; cbn [sha_writes foldl concat].
  - by rewrite app_nil_r.
  - rewrite app_assoc. by apply IH, sha_Write_represents.
Qed.

Lemma length_hash_bytes s : length (hash_bytes s) = 32%nat.
Proof.
  unfold hash_bytes, WriteBE32. by rewrite !length_app, !length_reverse, !length_le_bytes.
Qed.

Lemma hash_bytes_is_byte s : Forall is_byte (hash_bytes s).
Proof.
  unfold hash_bytes, WriteBE32. rewrite !Forall_app, !Forall_reverse.
  split_and!; apply le_bytes_is_byte.
Qed.

Lemma sha256_length m : length (fips.sha256 m) = 32%nat.
Proof. apply length_hash_bytes. Qed.

Lemma sha256_is_byte m : Forall is_byte (fips.sha256 m).
Proof. apply hash_bytes_is_byte. Qed.

Lemma CHash256_Finalize_fips st m : represents st m → CHash256_Finalize st = sha256d m.
Proof.
  intros H. unfold CHash256_Finalize. destruct (sha_Finalize st) as [buf st'] eqn:E.
  pose proof (sha_Finalize_padded _ _ H) as [Hr _]. pose proof (sha_Finalize_fips _ _ H) as Hd.
  rewrite E in Hr, Hd. cbn [fst snd] in *. rewrite Hd.
  apply sha_Finalize_fips. apply (sha_Write_represents _ []), (sha_Reset_represents _ _ Hr).
Qed.

Lemma HashWriter_GetHash_fips st m : represents st m → HashWriter_GetHash st = sha256d m.
Proof. exact (CHash256_Finalize_fips st m). Qed.

#[export] Hint Resolve represents_new sha_Write_represents : btx.

(** Hashing a digest with a second hasher. *)
Lemma sha_Finalize_twice st m :
  represents st m →
  fst (sha_Finalize (sha_Write CSHA256_new (fst (sha_Finalize st)))) = sha256d m.
Proof.
  intros H. rewrite (sha_Finalize_fips _ _ H). apply sha_Finalize_fips.
  apply (sha_Write_represents _ []), represents_new.
Qed.

(** ** Properties *)

(** C40: hashing is independent of how the message is cut: feeding a fresh
    hasher any sequence of pieces and finalizing gives the FIPS 180-4 digest
    of their concatenation, and the double hash of [HashWriter] is that digest
    hashed again. *)
Theorem incremental_hashing_fips (ds : list (list Z)) :
  fst (sha_Finalize (foldl sha_Write CSHA256_new ds)) = fips.sha256 (concat ds) ∧
  HashWriter_GetHash (foldl HashWriter_write HashWriter_new ds) = fips.sha256 (fips.sha256 (concat ds)) ∧
  length (fips.sha256 (concat ds)) = 32%nat ∧ Forall is_byte (fips.sha256 (concat ds)).
Proof.
  pose proof (sha_writes_represents CSHA256_new [] ds represents_new) as Hr. cbn [app] in Hr.
  split; [exact (sha_Finalize_fips _ _ Hr)|]. split; [exact (HashWriter_GetHash_fips _ _ Hr)|].
  split; [apply sha256_length|apply sha256_is_byte].
Qed.
