(* ===== verification/Field.v ===== *)
(** The prime field GF(2^31 - 1) of the MatMul proof of work.

    [matmul/field.cpp]: the Mersenne reduction, the field operations, the two
    dot-product kernels (portable and NEON) and the hash-based sampler.
    Elements are [uint32_t] values; every operation keeps the machine widths
    of the source, and the theorems relate them to arithmetic modulo
    [MODULUS]. *)

From Stdlib Require Import ZArith Lia Znumtheory String.
From stdpp Require Import base list numbers tactics.
From S2P Require Import Prelude Sha256.

Open Scope Z_scope.

(** The build and host the code runs on: the properties below hold for every
    one, so all nodes compute the same values. *)
Class Platform := {
  (** [__ARM_NEON] is defined. *)
  arm_neon : bool;
  (** [__APPLE__] is defined. *)
  apple : bool;
  (** [std::thread::hardware_concurrency()]. *)
  hardware_concurrency : Z;
  (** [BTX_MATMUL_BLOCKED_MULTIPLY_THREADS], when set to a number. *)
  blocked_multiply_threads : option Z;
  (** The first character of [BTX_MATMUL_NOISE_PARALLEL], when set (0 for the
      empty string). *)
  noise_parallel : option Z;
  (** The thread-local [g_solve_worker_limit]; 0 is no limit. *)
  solve_worker_limit : Z
}.

(** [solver_runtime.cpp] *)
Definition ClampSolveWorkerThreads `{Platform} (worker_count : Z) : Z :=
  if solve_worker_limit =? 0 then worker_count
  else Z.max 1 (Z.min worker_count solve_worker_limit).

Module field.

Definition MODULUS : Z := 0x7FFFFFFF.

(** A canonical element: what the code stores in matrices and vectors. *)
Definition canonical (x : Z) : Prop := 0 ≤ x < MODULUS.

Definition reduce64 (x : Z) : Z :=
  let fold1 := u64 (Z.land x MODULUS + Z.shiftr x 31) in
  let lo := u32 (Z.land fold1 MODULUS) in
  let hi := u32 (Z.shiftr fold1 31) in
  let result := u32 (lo + hi) in
  let ge_mask := u32 (- bool_to_Z (MODULUS <=? result)) in
  u32 (result - Z.land MODULUS ge_mask).

(** [ScalarDot(a, b, len)] on the memory at [a] and [b]. *)
Definition REDUCE_INTERVAL : Z := 4.

Definition scalar_dot_step (a b : list Z) (i : Z) (st : Z * Z) : result (Z * Z) :=
  let '(acc, pending) := st in
  x ← vget a i; y ← vget b i;
  let acc := u64 (acc + u64 (x * y)) in
  let pending := u32 (pending + 1) in
  Ok (if pending =? REDUCE_INTERVAL then (reduce64 acc, 0) else (acc, pending)).

Definition ScalarDot (a b : list Z) (len : Z) : result Z :=
  '(acc, _) ← for_range 0 len (scalar_dot_step a b) (0, 0);
  Ok (reduce64 acc).

Definition add (a b : Z) : result Z :=
  _ ← assert_ ((a <? MODULUS) && (b <? MODULUS));
  let s := u32 (a + b) in
  Ok (if MODULUS <=? s then u32 (s - MODULUS) else s).

Definition sub (a b : Z) : result Z :=
  _ ← assert_ ((a <? MODULUS) && (b <? MODULUS));
  Ok (if b <=? a then a - b else u32 (u32 (a + MODULUS) - b)).

Definition mul (a b : Z) : result Z :=
  _ ← assert_ ((a <? MODULUS) && (b <? MODULUS));
  Ok (reduce64 (u64 (a * b))).

Definition neg (a : Z) : Z := if a =? 0 then 0 else u32 (MODULUS - a).

Definition from_uint32 (x : Z) : Z := reduce64 x.

(** [inv]: square-and-multiply on the exponent [MODULUS - 2], whose 31 bits
    bound the iterations of the loop. *)
Fixpoint inv_loop (fuel : nat) (exp result_ base : Z) : result Z :=
  if exp <=? 0 then Ok result_ else
  match fuel with
  | O => Err EFuel
  | S fuel =>
      r ← (if negb (Z.land exp 1 =? 0) then mul result_ base else Ok result_);
      let exp := Z.shiftr exp 1 in
      b ← (if 0 <? exp then mul base base else Ok base);
      inv_loop fuel exp r b
  end.

Definition inv (a : Z) : result Z :=
  _ ← assert_ (negb (a =? 0));
  inv_loop 31 (u32 (MODULUS - 2)) 1 a.

(** [NeonDot]: four products per iteration, then the scalar tail.  The four
    lanes of the two widening multiplies are the four 64-bit products. *)
Definition neon_step (a b : list Z) (i acc : Z) : result Z :=
  a0 ← vget a i; b0 ← vget b i;
  a1 ← vget a (i + 1); b1 ← vget b (i + 1);
  a2 ← vget a (i + 2); b2 ← vget b (i + 2);
  a3 ← vget a (i + 3); b3 ← vget b (i + 3);
  let acc := u64 (acc + u64 (a0 * b0)) in
  let acc := u64 (acc + u64 (a1 * b1)) in
  let acc := u64 (acc + u64 (a2 * b2)) in
  let acc := u64 (acc + u64 (a3 * b3)) in
  Ok (reduce64 acc).

Fixpoint neon_loop (fuel : nat) (a b : list Z) (len i acc : Z) : result (Z * Z) :=
  if u32 (i + 4) <=? len then
    match fuel with
    | O => Err EFuel
    | S fuel =>
        acc ← neon_step a b i acc;
        neon_loop fuel a b len (u32 (i + 4)) acc
    end
  else Ok (i, acc).

Definition NeonDot (a b : list Z) (len : Z) : result Z :=
  '(i, acc) ← neon_loop (S (Z.to_nat len)) a b len 0 0;
  t ← ScalarDot (drop (Z.to_nat i) a) (drop (Z.to_nat i) b) (u32 (len - i));
  add (reduce64 acc) t.

(** The vectors of [NeonDotSelfTest] and its comparison. *)
Definition selftest_a : list Z := ztab 37 (λ i, (i * 2654435761) mod MODULUS).
Definition selftest_b : list Z :=
  ztab 37 (λ i, (MODULUS - 1 - (i * 40503) mod MODULUS) mod MODULUS).
Definition NeonDotSelfTest : result bool :=
  neon ← NeonDot selftest_a selftest_b 37;
  scalar ← ScalarDot selftest_a selftest_b 37;
  Ok (neon =? scalar).

Definition dot `{Platform} (a b : list Z) (len : Z) : result Z :=
  if arm_neon then
    neon_trusted ← NeonDotSelfTest;
    if (neon_trusted : bool) then NeonDot a b len else ScalarDot a b len
  else ScalarDot a b len.

(** [from_oracle]: SHA-256 of seed, index and (from the second try on) the
    retry counter, masked to 31 bits; 256 tries, then a tagged fallback. *)
Definition oracle_hash (seed_bytes : list Z) (index retry : Z) : list Z :=
  let hasher := sha_Write CSHA256_new seed_bytes in
  let hasher := sha_Write hasher (WriteLE32 index) in
  let hasher := if 0 <? retry then sha_Write hasher (WriteLE32 retry) else hasher in
  fst (sha_Finalize hasher).

(** ["oracle-fallback"] without its terminator. *)
Definition fallback_tag : list Z :=
  [111; 114; 97; 99; 108; 101; 45; 102; 97; 108; 108; 98; 97; 99; 107].

Fixpoint oracle_loop (tries : nat) (seed_bytes : list Z) (index retry : Z) : option Z :=
  match tries with
  | O => None
  | S tries =>
      let candidate := Z.land (ReadLE32 (oracle_hash seed_bytes index retry)) MODULUS in
      if candidate <? MODULUS then Some candidate
      else oracle_loop tries seed_bytes index (retry + 1)
  end.

Definition from_oracle (seed : list Z) (index : Z) : Z :=
  let seed_bytes := reverse seed in
  match oracle_loop 256 seed_bytes index 0 with
  | Some c => c
  | None =>
      let hasher := sha_Write CSHA256_new seed_bytes in
      let hasher := sha_Write hasher (WriteLE32 index) in
      let hasher := sha_Write hasher fallback_tag in
      ReadLE32 (fst (sha_Finalize hasher)) mod MODULUS
  end.

End field.
Import field.

Declare Scope btx_scope.
Notation "x ≡p y" := (cong MODULUS x y) (at level 70) : btx_scope.
Open Scope btx_scope.

(** ** The Mersenne reduction *)
Lemma MODULUS_ones : MODULUS = Z.ones 31.
Proof. done. Qed.

Lemma reduce64_mod x : 0 ≤ x < 2 ^ 64 → reduce64 x = x mod MODULUS.
Proof.
  intros Hx. unfold reduce64.
  rewrite !(land_mask _ 31 MODULUS), !Z.shiftr_div_pow2 by done.
  set (lo1 := x mod 2 ^ 31). set (hi1 := x / 2 ^ 31).
  assert (x = 2 ^ 31 * hi1 + lo1) as Hxe by (apply Z.div_mod; done).
  assert (0 ≤ lo1 < 2 ^ 31) by (by apply Z.mod_pos_bound).
  assert (0 ≤ hi1 < 2 ^ 33).
  { split; [apply Z.div_pos; lia|]. apply Z.div_lt_upper_bound; lia. }
  rewrite (u64_small (lo1 + hi1)) by lia.
  set (f := lo1 + hi1). set (lo := f mod 2 ^ 31). set (hi := f / 2 ^ 31).
  assert (f = 2 ^ 31 * hi + lo) as Hfe by (apply Z.div_mod; done).
  assert (0 ≤ lo < 2 ^ 31) by (by apply Z.mod_pos_bound).
  assert (0 ≤ hi ≤ 4) by (subst hi; divmod_lia).
  rewrite (u32_small lo), (u32_small hi), (u32_small (lo + hi)) by lia.
  assert (lo + hi < 2 * MODULUS) by (unfold MODULUS; lia).
  assert (x = MODULUS * (hi1 + hi) + (lo + hi)) as Hq.
  { unfold MODULUS. lia. }
  destruct (Z.leb_spec MODULUS (lo + hi)); simpl bool_to_Z.
  - change (u32 (- (1))) with (Z.ones 32). rewrite Z.land_ones by lia.
    rewrite (Z.mod_small MODULUS) by done. rewrite u32_small by (unfold MODULUS in *; lia).
    apply Z.mod_unique with (hi1 + hi + 1); lia.
  - change (u32 (- 0)) with 0. rewrite Z.land_0_r, Z.sub_0_r, u32_small by lia.
    apply Z.mod_unique with (hi1 + hi); lia.
Qed.

Lemma reduce64_canonical x : 0 ≤ x < 2 ^ 64 → canonical (reduce64 x).
Proof. intros. rewrite reduce64_mod by done. by apply Z.mod_pos_bound. Qed.

Lemma canonical_u32 x : canonical x → 0 ≤ x < 2 ^ 32.
Proof. unfold canonical, MODULUS. lia. Qed.

Lemma canonical_mod x : canonical (x mod MODULUS).
Proof. by apply Z.mod_pos_bound. Qed.

Lemma mod_canonical x : canonical x → x mod MODULUS = x.
Proof. apply Z.mod_small. Qed.

Lemma canonical_cong x y : canonical x → x ≡p y → x = y mod MODULUS.
Proof. intros Hx H. rewrite <- H. by rewrite mod_canonical. Qed.

Lemma canonical_product x y : canonical x → canonical y → 0 ≤ x * y ≤ (MODULUS - 1) * (MODULUS - 1).
Proof. unfold canonical. nia. Qed.

(** ** The field operations are arithmetic modulo [MODULUS] *)
Lemma in_field a b : canonical a → canonical b → ((a <? MODULUS) && (b <? MODULUS)) = true.
Proof. intros [_ Ha] [_ Hb]. by rewrite (proj2 (Z.ltb_lt _ _) Ha), (proj2 (Z.ltb_lt _ _) Hb). Qed.

Lemma add_mod a b : canonical a → canonical b → add a b = Ok ((a + b) mod MODULUS).
Proof.
  intros Ha Hb. unfold add. rewrite in_field by done. cbn. f_equal.
  unfold canonical, MODULUS in *. rewrite (u32_small (a + b)) by lia.
  destruct (Z.leb_spec 0x7FFFFFFF (a + b)).
  - rewrite u32_small by lia. apply Z.mod_unique with 1; lia.
  - symmetry. apply Z.mod_small. lia.
Qed.

Lemma sub_mod a b : canonical a → canonical b → sub a b = Ok ((a - b) mod MODULUS).
Proof.
  intros Ha Hb. unfold sub. rewrite in_field by done. cbn. f_equal.
  unfold canonical, MODULUS in *.
  destruct (Z.leb_spec b a).
  - symmetry. apply Z.mod_small. lia.
  - rewrite (u32_small (a + _)), u32_small by lia. apply Z.mod_unique with (-1); lia.
Qed.

Lemma mul_mod a b : canonical a → canonical b → mul a b = Ok ((a * b) mod MODULUS).
Proof.
  intros Ha Hb. unfold mul. rewrite in_field by done. cbn. f_equal.
  pose proof (canonical_product a b Ha Hb) as Hp. unfold MODULUS in Hp.
  rewrite u64_small by lia. apply reduce64_mod. lia.
Qed.

Lemma neg_mod a : canonical a → neg a = (- a) mod MODULUS.
Proof.
  intros Ha. unfold neg. destruct (Z.eqb_spec a 0) as [->|Hne]; [done|].
  unfold canonical, MODULUS in *. rewrite u32_small by lia. apply Z.mod_unique with (-1); lia.
Qed.

(** An operation applied to a non-canonical operand stops the process. *)
Lemma add_assert a b : MODULUS ≤ a ∨ MODULUS ≤ b → add a b = Err EAssert.
Proof.
  intros H. unfold add.
  replace ((a <? MODULUS) && (b <? MODULUS)) with false; [done|].
  symmetry. apply andb_false_iff. rewrite !Z.ltb_ge. done.
Qed.

(** ** Dot products *)
Definition canon_list (l : list Z) : Prop := Forall canonical l.

Lemma canon_znth l i : canon_list l → canonical (znth l i).
Proof.
  intros H. unfold znth. rewrite nth_lookup. destruct (l !! Z.to_nat i) eqn:E; simpl.
  - by apply (Forall_lookup_1 _ _ _ _ H E).
  - done.
Qed.

Lemma canon_drop l n : canon_list l → canon_list (drop n l).
Proof. apply Forall_drop. Qed.

Lemma znth_drop l (i : nat) j : 0 ≤ j → znth (drop i l) j = znth l (Z.of_nat i + j).
Proof.
  intros. unfold znth. rewrite !nth_lookup, lookup_drop. do 2 f_equal. lia.
Qed.

(** The mathematical dot product. *)
Definition zdot (a b : list Z) (len : Z) : Z := zsum len (λ i, znth a i * znth b i).

(** The accumulator after a few unreduced products. *)
Definition dot_inv (a b : list Z) (i : Z) (st : Z * Z) : Prop :=
  let '(acc, pending) := st in
  acc ≡p zdot a b i ∧ 0 ≤ pending < 4 ∧
  0 ≤ acc ≤ (MODULUS - 1) + pending * ((MODULUS - 1) * (MODULUS - 1)).

Lemma scalar_dot_step_ok a b i st :
  canon_list a → canon_list b → 0 ≤ i < zlen a → i < zlen b →
  dot_inv a b i st → ∃ st', scalar_dot_step a b i st = Ok st' ∧ dot_inv a b (i + 1) st'.
Proof.
  intros Ha Hb Hi Hi'. destruct st as [acc pending]. intros (Hc & Hp & Hacc).
  unfold scalar_dot_step. rewrite !vget_Ok by lia. cbn.
  pose proof (canonical_product _ _ (canon_znth a i Ha) (canon_znth b i Hb)) as Hxy.
  assert (acc + znth a i * znth b i < 2 ^ 64).
  { unfold MODULUS in *. assert (pending * ((0x7FFFFFFF - 1) * (0x7FFFFFFF - 1)) ≤ 3 * ((0x7FFFFFFF - 1) * (0x7FFFFFFF - 1))) by nia. lia. }
  rewrite (u64_small (_ * _)), (u64_small (acc + _)), (u32_small (pending + 1)) by (unfold MODULUS in *; lia).
  assert (acc + znth a i * znth b i ≡p zdot a b (i + 1)) as Hc'.
  { unfold zdot. rewrite zsum_succ by lia. by rewrite Hc. }
  destruct (Z.eqb_spec (pending + 1) REDUCE_INTERVAL) as [E|E]; eexists; split; try done; unfold REDUCE_INTERVAL in E.
  - assert (0 ≤ acc + znth a i * znth b i < 2 ^ 64) as Hr by (unfold MODULUS in *; lia).
    pose proof (reduce64_canonical _ Hr) as Hcan.
    destruct Hcan. split_and!; [|lia..].
    rewrite reduce64_mod by done. by rewrite (cong_mod MODULUS).
  - split_and!; [done|unfold MODULUS in *; lia..].
Qed.

Lemma ScalarDot_ok a b len :
  canon_list a → canon_list b → 0 ≤ len ≤ zlen a → len ≤ zlen b →
  ScalarDot a b len = Ok (zdot a b len mod MODULUS).
Proof.
  intros Ha Hb Hl Hl'. unfold ScalarDot.
  destruct (for_range_inv (dot_inv a b) (scalar_dot_step a b) 0 len (0, 0)) as ([acc p] & -> & Hinv).
  - lia.
  - split_and!; [done|unfold MODULUS; lia..].
  - intros i st Hi. apply scalar_dot_step_ok; [done..| |]; lia.
  - destruct Hinv as (Hc & Hp & Hacc). cbn. f_equal.
    rewrite reduce64_mod; [by rewrite Hc|].
    unfold MODULUS in *.
    assert (p * ((0x7FFFFFFF - 1) * (0x7FFFFFFF - 1)) ≤ 3 * ((0x7FFFFFFF - 1) * (0x7FFFFFFF - 1))) by nia. lia.
Qed.

Lemma neon_step_ok a b i acc :
  canon_list a → canon_list b → 0 ≤ i → i + 4 ≤ zlen a → i + 4 ≤ zlen b →
  canonical acc → acc ≡p zdot a b i →
  ∃ acc', neon_step a b i acc = Ok acc' ∧ canonical acc' ∧ acc' ≡p zdot a b (i + 4).
Proof.
  intros Ha Hb Hi Hla Hlb Hacc Hc. unfold neon_step. rewrite !vget_Ok by lia. cbn.
  pose proof (canonical_product _ _ (canon_znth a i Ha) (canon_znth b i Hb)) as H0.
  pose proof (canonical_product _ _ (canon_znth a (i+1) Ha) (canon_znth b (i+1) Hb)) as H1.
  pose proof (canonical_product _ _ (canon_znth a (i+2) Ha) (canon_znth b (i+2) Hb)) as H2.
  pose proof (canonical_product _ _ (canon_znth a (i+3) Ha) (canon_znth b (i+3) Hb)) as H3.
  unfold canonical, MODULUS in Hacc, H0, H1, H2, H3.
  rewrite !(u64_small (_ * _)) by lia.
  rewrite (u64_small (acc + _)), (u64_small (_ + znth a (i+1) * _)),
    (u64_small (_ + znth a (i+2) * _)), (u64_small (_ + znth a (i+3) * _)) by lia.
  eexists; split; [done|]. split; [apply reduce64_canonical; lia|].
  rewrite reduce64_mod by lia. rewrite (cong_mod MODULUS), Hc. unfold zdot.
  replace (i + 4) with (i + 1 + 1 + 1 + 1) by lia. rewrite !zsum_succ by lia.
  by replace (i + 1 + 1 + 1) with (i + 3) by lia; replace (i + 1 + 1) with (i + 2) by lia.
Qed.

Lemma neon_loop_ok a b len fuel i acc :
  canon_list a → canon_list b → len ≤ zlen a → len ≤ zlen b → len < 2 ^ 32 - 4 →
  0 ≤ i ≤ len → len - i < Z.of_nat fuel → canonical acc → acc ≡p zdot a b i →
  ∃ i' acc', neon_loop fuel a b len i acc = Ok (i', acc') ∧ i ≤ i' ≤ len ∧
             canonical acc' ∧ acc' ≡p zdot a b i'.
Proof.
  intros Ha Hb Hla Hlb Hlen. revert i acc. induction fuel as [|fuel IH]; intros i acc Hi Hf Hacc Hc; [lia|].
  simpl. destruct (decide (i + 4 ≤ len)) as [Hle|Hgt].
  - rewrite (u32_small (i + 4)), (proj2 (Z.leb_le _ _) Hle) by lia.
    destruct (neon_step_ok a b i acc) as (acc' & -> & Hcan & Hc'); [done..|lia|lia|lia|done|done|].
    cbn. destruct (IH (i + 4) acc') as (i' & a' & E & Hi' & ?); [lia|lia|done|done|].
    exists i', a'. split; [done|]. split; [lia|done].
  - rewrite (proj2 (Z.leb_gt _ _)).
    + exists i, acc. split; [done|]. split; [lia|done].
    + rewrite u32_mod, Z.mod_small; lia.
Qed.

Lemma zdot_drop a b (i : nat) len :
  0 ≤ len → zdot a b (Z.of_nat i + len) = zdot a b (Z.of_nat i) + zdot (drop i a) (drop i b) len.
Proof.
  intros. unfold zdot. rewrite zsum_app by lia. f_equal. apply zsum_ext.
  intros j Hj. by rewrite !znth_drop by lia.
Qed.

Lemma NeonDot_ok a b len :
  canon_list a → canon_list b → 0 ≤ len ≤ zlen a → len ≤ zlen b → len < 2 ^ 32 - 4 →
  NeonDot a b len = Ok (zdot a b len mod MODULUS).
Proof.
  intros Ha Hb Hl Hl' Hlen. unfold NeonDot.
  destruct (neon_loop_ok a b len (S (Z.to_nat len)) 0 0) as (i & acc & -> & Hi & Hacc & Hc);
    [done..|lia|done|lia|lia|lia|done|done|].
  cbn. assert (zlen (drop (Z.to_nat i) a) = zlen a - i) as Hda.
  { unfold zlen. rewrite length_drop. unfold zlen in *. lia. }
  assert (zlen (drop (Z.to_nat i) b) = zlen b - i) as Hdb.
  { unfold zlen. rewrite length_drop. unfold zlen in *. lia. }
  rewrite u32_small by lia.
  rewrite ScalarDot_ok by (try apply canon_drop; auto; lia). cbn.
  rewrite reduce64_mod by (unfold canonical, MODULUS in *; lia).
  rewrite add_mod by apply canonical_mod. f_equal.
  rewrite Z.add_mod_idemp_l, Z.add_mod_idemp_r by done.
  replace len with (Z.of_nat (Z.to_nat i) + (len - i)) at 2 by lia.
  rewrite zdot_drop by lia. rewrite (Zplus_mod acc), (Zplus_mod (zdot a b _)).
  f_equal. f_equal. rewrite Z2Nat.id by lia. apply Hc.
Qed.

Lemma NeonDotSelfTest_passes : NeonDotSelfTest = Ok true.
Proof. vm_compute. reflexivity. Qed.

(** Whatever the platform, [dot] is the field dot product. *)
Lemma dot_ok `{Platform} a b len :
  canon_list a → canon_list b → 0 ≤ len ≤ zlen a → len ≤ zlen b → len < 2 ^ 32 - 4 →
  dot a b len = Ok (zdot a b len mod MODULUS).
Proof.
  intros. unfold dot. rewrite NeonDotSelfTest_passes. cbn.
  destruct arm_neon; [by apply NeonDot_ok|by apply ScalarDot_ok].
Qed.

(** ** Sampling *)
Lemma oracle_loop_canonical tries s i r c : oracle_loop tries s i r = Some c → canonical c.
Proof.
  revert r. induction tries as [|n IH]; intros r; cbn [oracle_loop]; [done|]. cbv zeta.
  destruct (Z.ltb_spec (Z.land (ReadLE32 (oracle_hash s i r)) MODULUS) MODULUS) as [Hlt|Hge].
  - intros [= <-]. split; [|done]. apply Z.land_nonneg. right. done.
  - apply IH.
Qed.

Lemma from_oracle_canonical seed i : canonical (from_oracle seed i).
Proof.
  unfold from_oracle. destruct (oracle_loop 256 (reverse seed) i 0) eqn:E.
  - by apply oracle_loop_canonical in E.
  - apply canonical_mod.
Qed.

#[export] Hint Resolve from_oracle_canonical canonical_mod canon_znth : btx.

(** ** Properties *)

(** On canonical vectors the scalar loop, the four-lane loop and the
    dispatcher of any platform all return the dot product in the field of
    [2^31 - 1] elements; no 64-bit accumulator overflows. *)
Theorem dot_backends_agree `{Platform} a b len :
  canon_list a → canon_list b → 0 ≤ len ≤ zlen a → len ≤ zlen b → len < 2 ^ 32 - 4 →
  ScalarDot a b len = Ok (zsum len (λ i, znth a i * znth b i) mod MODULUS) ∧
  NeonDot a b len = ScalarDot a b len ∧ dot a b len = ScalarDot a b len.
Proof.
  intros Ha Hb Hl Hl' Hs. rewrite NeonDot_ok, dot_ok, ScalarDot_ok by assumption. split; [reflexivity|]. split; reflexivity.
Qed.
