(* ===== verification/FieldInverse.v ===== *)
(** Multiplicative inverses in GF(2^31 - 1).

    [field::inv] raises its argument to the power [MODULUS - 2]; that this is
    the inverse rests on the primality of [2^31 - 1], checked here by trial
    division, and on Fermat's little theorem. *)

From Stdlib Require Import ZArith Lia Znumtheory Zmod.
From stdpp Require Import base list numbers tactics.
From S2P Require Import Prelude Field.
Import field.

Open Scope Z_scope.

(** ** [2^31 - 1] is prime *)
Fixpoint no_divisor (n : nat) (d p : Z) : bool :=
  match n with
  | O => true
  | S n' => negb (p mod d =? 0) && no_divisor n' (d + 1) p
  end.

Lemma no_divisor_spec n d p :
  no_divisor n d p = true → ∀ k, d ≤ k < d + Z.of_nat n → p mod k ≠ 0.
Proof.
  revert d. induction n as [|n IH]; intros d H k Hk; [lia|]. cbn [no_divisor] in H.
  apply andb_true_iff in H as [H1 H2]. apply negb_true_iff, Z.eqb_neq in H1.
  destruct (decide (k = d)) as [->|]; [done|]. apply (IH (d + 1) H2). lia.
Qed.

Lemma no_divisor_prime p n :
  1 < p → p < Z.of_nat n * Z.of_nat n → no_divisor n 2 p = true → prime p.
Proof.
  intros Hp Hn H. destruct (prime_dec p) as [|Hnp]; [done|exfalso].
  destruct (not_prime_divide p Hp Hnp) as (q & Hq & [k Hk]).
  assert (1 < k < p) by nia.
  assert (∀ x y, p = x * y → 1 < y → 1 < x → y ≤ x → False) as Hc.
  { intros x y E Hy Hx Hle. apply (no_divisor_spec n 2 p H y); [nia|].
    rewrite E. apply Z.mod_mul. lia. }
  destruct (decide (q ≤ k)); [apply (Hc k q); lia|apply (Hc q k); lia].
Qed.

Lemma MODULUS_prime : prime MODULUS.
Proof.
  apply (no_divisor_prime MODULUS (Z.to_nat 46342)); [done|done|].
  vm_compute. reflexivity.
Qed.

(** ** Square and multiply *)
Lemma cong_pow x y n : 0 ≤ n → x ≡p y → x ^ n ≡p y ^ n.
Proof.
  intros Hn Hxy. revert n Hn. apply Z_bound_ind; [done|].
  intros n Hn IH. rewrite !Z.pow_add_r, !Z.pow_1_r by lia. by rewrite IH, Hxy.
Qed.

Lemma inv_loop_ok fuel exp r b :
  0 ≤ exp < 2 ^ Z.of_nat fuel → canonical r → canonical b →
  inv_loop fuel exp r b = Ok ((r * b ^ exp) mod MODULUS).
Proof.
  revert exp r b. induction fuel as [|fuel IH]; intros exp r b He Hr Hb.
  - assert (exp = 0) as -> by (simpl in He; lia). cbn. f_equal.
    rewrite Z.mul_1_r. symmetry. by apply mod_canonical.
  - cbn [inv_loop]. destruct (Z.leb_spec exp 0).
    { assert (exp = 0) as -> by lia. rewrite Z.pow_0_r, Z.mul_1_r. by rewrite mod_canonical. }
    rewrite Z.shiftr_div_pow2 by done. change (2 ^ 1) with 2.
    rewrite (land_mask exp 1 1) by done. change (2 ^ 1) with 2.
    assert (exp = 2 * (exp / 2) + exp mod 2) as Hd by (apply Z.div_mod; done).
    pose proof (Z.mod_pos_bound exp 2 ltac:(lia)) as Hm.
    assert (0 ≤ exp / 2 < 2 ^ Z.of_nat fuel) as He'.
    { split; [apply Z.div_pos; lia|]. apply Z.div_lt_upper_bound; [done|].
      rewrite Nat2Z.inj_succ, Z.pow_succ_r in He by lia. lia. }
    set (e := exp / 2) in *.
    assert (∃ r', (if negb (exp mod 2 =? 0) then mul r b else Ok r) = Ok r' ∧ canonical r' ∧
      r' ≡p r * b ^ (exp mod 2)) as (r' & -> & Hr' & Hrc).
    { destruct (Z.eqb_spec (exp mod 2) 0) as [->|]; cbn [negb].
      - exists r. rewrite Z.pow_0_r, Z.mul_1_r. done.
      - rewrite mul_mod by done. eexists; split; [done|]. split; [apply canonical_mod|].
        replace (exp mod 2) with 1 by lia. rewrite Z.pow_1_r. apply cong_mod. }
    assert (∃ b', (if 0 <? e then mul b b else Ok b) = Ok b' ∧ canonical b' ∧
      b' ^ e ≡p b ^ (2 * e)) as (b' & -> & Hb' & Hbc).
    { destruct (Z.ltb_spec 0 e).
      - rewrite mul_mod by done. eexists; split; [done|]. split; [apply canonical_mod|].
        rewrite Z.pow_mul_r, Z.pow_2_r by lia. apply cong_pow; [lia|]. apply cong_mod.
      - assert (e = 0) as -> by lia. by exists b. }
    rewrite !bind_Ok, IH by done. f_equal. change (r' * b' ^ e ≡p r * b ^ exp).
    rewrite Hrc, Hbc. rewrite Hd at 2. rewrite Z.pow_add_r by lia.
    apply cong_eq. lia.
Qed.

Lemma inv_pow a : canonical a → a ≠ 0 → inv a = Ok (a ^ (MODULUS - 2) mod MODULUS).
Proof.
  intros Ha H0. unfold inv. rewrite (proj2 (Z.eqb_neq a 0) H0). cbn [negb assert_].
  rewrite bind_Ok, u32_small, inv_loop_ok by (done || unfold MODULUS; lia).
  by rewrite Z.mul_1_l.
Qed.

(** ** Fermat *)
Lemma fermat_MODULUS a : canonical a → a ≠ 0 → a * a ^ (MODULUS - 2) ≡p 1.
Proof.
  intros Ha H0. rewrite <- Z.pow_succ_r by done.
  assert (Zmod.of_Z MODULUS a ≠ Zmod.zero) as Hnz.
  { intros E. apply (f_equal Zmod.to_Z) in E.
    rewrite Zmod.to_Z_of_Z, Zmod.to_Z_0, mod_canonical in E by done. done. }
  pose proof (Zmod.fermat_nz _ Hnz (proj2 (prime_alt _) MODULUS_prime)) as HF.
  apply (f_equal Zmod.to_Z) in HF.
  rewrite Zmod.to_Z_pow_nonneg_r, Zmod.to_Z_of_Z in HF by done.
  unfold cong. rewrite (mod_canonical a) in HF by done. exact HF.
Qed.

Lemma inv_mul a : canonical a → a ≠ 0 → ∃ i, inv a = Ok i ∧ canonical i ∧ mul a i = Ok 1.
Proof.
  intros Ha H0. rewrite inv_pow by done. eexists; split; [done|].
  split; [apply canonical_mod|]. rewrite mul_mod by (done || apply canonical_mod).
  f_equal. rewrite Z.mul_mod_idemp_r by done. exact (fermat_MODULUS a Ha H0).
Qed.

(** ** Properties *)

(** [inv] terminates on every non-zero element with its multiplicative
    inverse, and fails the assertion on zero. *)
Theorem inverse_correct a :
  canonical a →
  if decide (a = 0) then inv a = Err EAssert
  else ∃ i, inv a = Ok i ∧ canonical i ∧ mul a i = Ok 1 ∧ ∀ j, canonical j → mul a j = Ok 1 → j = i.
Proof.
  intros Ha. destruct (decide (a = 0)) as [->|H0]; [reflexivity|].
  destruct (inv_mul a Ha H0) as (i & E & Hi & Em). exists i. split; [exact E|]. split; [exact Hi|]. split; [exact Em|].
  intros j Hj Ej. rewrite mul_mod in Em, Ej by assumption. injection Em as Em. injection Ej as Ej.
  rewrite <- (mod_canonical j Hj), <- (mod_canonical i Hi).
  replace j with (j * 1) by lia. rewrite <- Em. rewrite Z.mul_mod_idemp_r by done.
  replace (j * (a * i)) with (i * (a * j)) by lia. rewrite <- Z.mul_mod_idemp_r, Ej by done. by rewrite Z.mul_1_r.
Qed.
