(* ===== verification/Noise.v ===== *)
(** The low-rank noise of the MatMul proof of work.

    [matmul/noise.cpp]: the four noise factors are generated from seeds bound
    to [sigma] by a domain tag.  On Apple hosts the rows of one factor are
    filled by several threads; the result is shown not to depend on how many,
    nor on the order in which their spans run. *)

From Stdlib Require Import ZArith Lia String.
From stdpp Require Import base list numbers tactics.
From S2P Require Import Prelude Sha256 Field Matrix.
Import field.

Open Scope Z_scope.

Module noise.

(** The tags ["matmul_noise_EL_v1"] etc. as bytes. *)
Definition tag (x y : Z) : list Z :=
  [109; 97; 116; 109; 117; 108; 95; 110; 111; 105; 115; 101; 95; x; y; 95; 118; 49].
Definition TAG_EL : list Z := tag 69 76.
Definition TAG_ER : list Z := tag 69 82.
Definition TAG_FL : list Z := tag 70 76.
Definition TAG_FR : list Z := tag 70 82.

Record NoisePair := mkNoise { E_L : Matrix; E_R : Matrix; F_L : Matrix; F_R : Matrix }.

Definition ToCanonicalBytes (value : list Z) : list Z := reverse value.
Definition CanonicalBytesToUint256 (bytes : list Z) : list Z := reverse bytes.

Definition DeriveNoiseSeed (domain_tag sigma : list Z) : result (list Z) :=
  _ ← assert_ (zlen domain_tag =? 18);
  let hasher := sha_Write CSHA256_new domain_tag in
  let hasher := sha_Write hasher (ToCanonicalBytes sigma) in
  Ok (CanonicalBytesToUint256 (fst (sha_Finalize hasher))).

(** [ProbeNoiseGenerationProfile(rows, cols).worker_count]. *)
Definition noise_worker_count `{Platform} (rows cols : Z) : Z :=
  let hw_threads := Z.max 1 hardware_concurrency in
  ClampSolveWorkerThreads
    (if apple then
       match noise_parallel with
       | Some c =>
           if c =? 48 then 1
           else if negb (c =? 0) then Z.max 1 (Z.min rows hw_threads)
           else if hw_threads <=? 1 then 1
           else if rows <? 64 then 1
           else if rows * cols <? 32768 then 1
           else Z.min rows hw_threads
       | None =>
           if hw_threads <=? 1 then 1
           else if rows <? 64 then 1
           else if rows * cols <? 32768 then 1
           else Z.min rows hw_threads
       end
     else 1).

(** The rows per worker, rounded up to whole cache lines. *)
Definition noise_chunk (rows cols workers : Z) : Z :=
  let bytes_per_row := u32 (cols * 4) in
  let rows_per_cache_line := if 0 <? bytes_per_row then Z.max 1 (128 / bytes_per_row) else 1 in
  let raw_chunk := u32 (u32 (rows + workers) - 1) / workers in
  if 1 <? rows_per_cache_line
  then u32 (u32 (u32 (raw_chunk + rows_per_cache_line) - 1) / rows_per_cache_line * rows_per_cache_line)
  else raw_chunk.

(** The row spans handed to the workers, up to the first empty one. *)
Fixpoint noise_spans (n : nat) (worker chunk rows : Z) : list (Z * Z) :=
  match n with
  | O => []
  | S n =>
      let begin_ := u32 (worker * chunk) in
      let end_ := Z.min (u32 (begin_ + chunk)) rows in
      if end_ <=? begin_ then []
      else (begin_, end_) :: noise_spans n (worker + 1) chunk rows
  end.

(** [fill_rows(begin, end)]. *)
Definition fill_rows (seed : list Z) (cols : Z) (span : Z * Z) (out : Matrix) : result Matrix :=
  fill (fst span) 0 (snd span - fst span) cols
    (λ r c, Ok (from_oracle seed (u32 (u32 (fst span + r) * cols + c)))) out.

Definition FromSeedRect `{Platform} (seed : list Z) (rows cols : Z) : result Matrix :=
  _ ← assert_ (rows * cols <=? 2 ^ 32 - 1);
  let out := Matrix_new rows cols in
  let workers := noise_worker_count rows cols in
  if (workers <=? 1) || (rows <=? 1) then fill_rows seed cols (0, rows) out
  else mfold (fill_rows seed cols)
         (noise_spans (Z.to_nat workers) 0 (noise_chunk rows cols workers) rows) out.

Definition Generate `{Platform} (sigma : list Z) (n r : Z) : result NoisePair :=
  tag_el ← DeriveNoiseSeed TAG_EL sigma;
  tag_er ← DeriveNoiseSeed TAG_ER sigma;
  tag_fl ← DeriveNoiseSeed TAG_FL sigma;
  tag_fr ← DeriveNoiseSeed TAG_FR sigma;
  el ← FromSeedRect tag_el n r;
  er ← FromSeedRect tag_er r n;
  fl ← FromSeedRect tag_fl n r;
  fr ← FromSeedRect tag_fr r n;
  Ok (mkNoise el er fl fr).

End noise.
Import noise.

(** ** The rectangle is the same however its rows are divided *)
Definition seed_rect (seed : list Z) (rows cols : Z) : Matrix :=
  mat_of rows cols (λ i j, from_oracle seed (i * cols + j)).

(** Spans that stay inside the matrix and cover every row. *)
Definition covers (rows : Z) (spans : list (Z * Z)) : Prop :=
  (∀ sp, sp ∈ spans → 0 ≤ fst sp ≤ snd sp ∧ snd sp ≤ rows) ∧
  ∀ i, 0 ≤ i < rows → ∃ sp, sp ∈ spans ∧ fst sp ≤ i < snd sp.

Lemma fill_rows_ok seed rows cols b e out :
  rows * cols < 2 ^ 32 → 0 ≤ rows < 2 ^ 32 → 0 ≤ cols < 2 ^ 32 →
  0 ≤ b ≤ e → e ≤ rows → shape out rows cols →
  ∃ out', fill_rows seed cols (b, e) out = Ok out' ∧ shape out' rows cols ∧
    ∀ i j, 0 ≤ i < rows → 0 ≤ j < cols →
      mget out' i j = if decide (b ≤ i < e) then from_oracle seed (i * cols + j) else mget out i j.
Proof.
  intros Hrc HR HC Hb He Hs. unfold fill_rows. simpl.
  destruct (fill_ok rows cols out b 0 (e - b) cols
    (λ r c, Ok (from_oracle seed (u32 (u32 (b + r) * cols + c))))
    (λ r c, from_oracle seed ((b + r) * cols + c))) as (out' & -> & Hs' & H'); try lia; try done.
  { intros r c Hr Hc. rewrite (u32_small (b + r)) by lia.
    pose proof (index_range (b + r) c rows cols ltac:(lia) Hc). by rewrite u32_small by lia. }
  exists out'. split; [done|]. split; [done|]. intros i j Hi Hj. rewrite H' by done.
  repeat case_decide; try (exfalso; lia); try done. do 2 f_equal; lia.
Qed.

Lemma run_spans_ok seed rows cols spans :
  rows * cols < 2 ^ 32 → 0 ≤ rows < 2 ^ 32 → 0 ≤ cols < 2 ^ 32 → covers rows spans →
  mfold (fill_rows seed cols) spans (Matrix_new rows cols) = Ok (seed_rect seed rows cols).
Proof.
  intros Hrc HR HC [Hin Hcov].
  pose (I := λ (dn : list (Z * Z)) m, shape m rows cols ∧ ∀ i j, 0 ≤ i < rows → 0 ≤ j < cols →
    (∃ sp, sp ∈ dn ∧ fst sp ≤ i < snd sp) → mget m i j = from_oracle seed (i * cols + j)).
  destruct (mfold_inv I (fill_rows seed cols) spans (Matrix_new rows cols))
    as (m & -> & (E1 & E2 & E3) & Hm).
  - split.
    + rewrite Matrix_new_mat_of by lia. split_and!; try done. apply zlen_mat_of; lia.
    + intros i j _ _ (sp & Hsp & _). by apply not_elem_of_nil in Hsp.
  - intros dn [b e] m Hsp [Hs Hm]. destruct (Hin _ Hsp) as [Hb He]; simpl in *.
    destruct (fill_rows_ok seed rows cols b e m) as (m' & -> & Hs' & Hm'); [done..|].
    exists m'. split; [done|]. split; [done|]. intros i j Hi Hj (sp & Hsp' & Hi').
    rewrite Hm' by done. case_decide; [done|]. apply Hm; [done..|].
    apply elem_of_app in Hsp' as [?| ->%list_elem_of_singleton]; [by exists sp|done].
  - f_equal. apply mat_ext; rewrite ?E1, ?E2; simpl; try lia.
    + rewrite zlen_ztab; nia.
    + intros i j Hi Hj. unfold seed_rect. rewrite mget_mat_of by done. by apply Hm, Hcov.
Qed.

Lemma noise_worker_count_le `{Platform} rows cols : noise_worker_count rows cols ≤ Z.max 1 rows.
Proof.
  unfold noise_worker_count, ClampSolveWorkerThreads.
  repeat match goal with |- context [match ?x with _ => _ end] => destruct x end; lia.
Qed.

Lemma ceil_div a b : 0 < b → a ≤ b * ((a + b - 1) / b).
Proof. intros. pose proof (Z.div_mod (a + b - 1) b ltac:(lia)). pose proof (Z.mod_pos_bound (a + b - 1) b). lia. Qed.

Lemma ceil_div_le a b : 0 < b → 0 ≤ a → b * ((a + b - 1) / b) ≤ a + b - 1.
Proof. intros. pose proof (Z.mul_div_le (a + b - 1) b). lia. Qed.

Lemma noise_chunk_bounds rows cols workers :
  0 < workers ≤ rows → rows < 2 ^ 31 - 32 →
  let c := noise_chunk rows cols workers in rows ≤ workers * c ∧ 1 ≤ c ≤ rows + 31.
Proof.
  intros Hw HR c. subst c. unfold noise_chunk.
  rewrite (u32_small (rows + workers)), (u32_small (rows + workers - 1)) by lia.
  set (raw := (rows + workers - 1) / workers).
  pose proof (ceil_div rows workers ltac:(lia)) as Hraw. fold raw in Hraw.
  assert (1 ≤ raw) by nia.
  assert (raw ≤ rows).
  { pose proof (ceil_div_le rows workers ltac:(lia) ltac:(lia)) as Hle. fold raw in Hle. nia. }
  set (bpr := u32 (cols * 4)).
  assert (bpr mod 4 = 0) as Hb4.
  { subst bpr. rewrite u32_mod. replace (2 ^ 32) with (4 * 2 ^ 30) by done.
    rewrite Z.rem_mul_r by done. rewrite Z.mod_mul by done. rewrite Z.add_0_l, Z.mul_comm.
    by apply Z.mod_mul. }
  pose proof (u32_bound (cols * 4)) as Hbb. fold bpr in Hbb.
  assert (1 ≤ (if 0 <? bpr then Z.max 1 (128 / bpr) else 1) ≤ 32) as Hr.
  { destruct (Z.ltb_spec 0 bpr); [|lia]. assert (4 ≤ bpr) by divmod_lia.
    assert (128 / bpr ≤ 32) by (apply Z.div_le_upper_bound; lia). lia. }
  set (rp := if 0 <? bpr then Z.max 1 (128 / bpr) else 1) in *.
  destruct (Z.ltb_spec 1 rp); [|nia].
  rewrite (u32_small (raw + rp)), (u32_small (raw + rp - 1)) by lia.
  pose proof (ceil_div raw rp ltac:(lia)). pose proof (ceil_div_le raw rp ltac:(lia) ltac:(lia)).
  rewrite u32_small by lia. nia.
Qed.

Lemma noise_spans_inside n w c rows sp :
  sp ∈ noise_spans n w c rows → 0 ≤ fst sp ≤ snd sp ∧ snd sp ≤ rows.
Proof.
  revert w. induction n as [|n IH]; intros w; simpl; [by intros ?%not_elem_of_nil|].
  destruct (Z.leb_spec (Z.min (u32 (u32 (w * c) + c)) rows) (u32 (w * c))).
  - by intros ?%not_elem_of_nil.
  - intros [->|Hin]%elem_of_cons; [|by apply (IH (w + 1))].
    simpl. pose proof (u32_bound (w * c)). lia.
Qed.

Lemma noise_spans_cover n w c rows i :
  0 ≤ w → 1 ≤ c → rows + c < 2 ^ 32 → rows ≤ (w + Z.of_nat n) * c → w * c ≤ i < rows →
  ∃ sp, sp ∈ noise_spans n w c rows ∧ fst sp ≤ i < snd sp.
Proof.
  revert w. induction n as [|n IH]; intros w Hw Hc Hs Hn Hi; [exfalso; lia|]. cbn [noise_spans].
  assert (0 ≤ w * c) by nia.
  rewrite (u32_small (w * c)), (u32_small (w * c + c)) by lia. cbv zeta.
  rewrite (proj2 (Z.leb_gt _ _)) by lia.
  destruct (decide (i < Z.min (w * c + c) rows)).
  - eexists; split; [left|]. simpl. lia.
  - destruct (IH (w + 1)) as (sp & Hsp & ?); [lia..|nia|].
    exists sp. split; [by right|done].
Qed.

Lemma FromSeedRect_ok `{Platform} seed rows cols :
  rows * cols < 2 ^ 32 → 0 ≤ rows < 2 ^ 31 - 32 → 0 ≤ cols < 2 ^ 32 →
  FromSeedRect seed rows cols = Ok (seed_rect seed rows cols).
Proof.
  intros Hrc HR HC. unfold FromSeedRect. rewrite (proj2 (Z.leb_le (rows * cols) _)) by lia. cbn [assert_].
  rewrite bind_Ok. destruct (_ || _) eqn:E.
  - rewrite <- (run_spans_ok seed rows cols [(0, rows)]); [|lia..|].
    + simpl. by destruct (fill_rows _ _ _ _).
    + split.
      * intros sp ->%list_elem_of_singleton. simpl. lia.
      * intros i Hi. exists (0, rows). split; [by left|done].
  - apply orb_false_iff in E as [E1 E2]. apply Z.leb_gt in E1, E2.
    pose proof (noise_worker_count_le rows cols).
    set (w := noise_worker_count rows cols) in *.
    destruct (noise_chunk_bounds rows cols w) as [Hc1 Hc2]; [lia..|].
    apply run_spans_ok; [lia..|]. split.
    + intros sp. apply noise_spans_inside.
    + intros i Hi. apply noise_spans_cover; lia.
Qed.

Lemma wf_seed_rect seed rows cols :
  0 ≤ rows < 2 ^ 32 → 0 ≤ cols < 2 ^ 32 → wf (seed_rect seed rows cols).
Proof. intros. apply wf_mat_of; auto with btx. Qed.

(** The noise factors have the shapes the proof of work uses. *)
Record noise_ok (np : NoisePair) (n r : Z) : Prop := {
  n_el : wf (E_L np) ∧ m_rows (E_L np) = n ∧ m_cols (E_L np) = r;
  n_er : wf (E_R np) ∧ m_rows (E_R np) = r ∧ m_cols (E_R np) = n;
  n_fl : wf (F_L np) ∧ m_rows (F_L np) = n ∧ m_cols (F_L np) = r;
  n_fr : wf (F_R np) ∧ m_rows (F_R np) = r ∧ m_cols (F_R np) = n
}.

Definition noise_seed (domain_tag sigma : list Z) : list Z :=
  reverse (fips.sha256 (domain_tag ++ reverse sigma)).

Lemma DeriveNoiseSeed_ok domain_tag sigma :
  zlen domain_tag = 18 → DeriveNoiseSeed domain_tag sigma = Ok (noise_seed domain_tag sigma).
Proof.
  intros Ht. unfold DeriveNoiseSeed. rewrite Ht. cbn [assert_ Z.eqb Pos.eqb]. rewrite bind_Ok.
  unfold noise_seed, CanonicalBytesToUint256, ToCanonicalBytes. do 2 f_equal.
  apply sha_Finalize_fips. apply sha_Write_represents.
  apply (sha_Write_represents _ []), represents_new.
Qed.

Definition noise_pair (sigma : list Z) (n r : Z) : NoisePair :=
  mkNoise (seed_rect (noise_seed TAG_EL sigma) n r) (seed_rect (noise_seed TAG_ER sigma) r n)
          (seed_rect (noise_seed TAG_FL sigma) n r) (seed_rect (noise_seed TAG_FR sigma) r n).

Lemma Generate_ok `{Platform} sigma n r :
  n * r < 2 ^ 32 → 0 ≤ n < 2 ^ 31 - 32 → 0 ≤ r < 2 ^ 31 - 32 →
  Generate sigma n r = Ok (noise_pair sigma n r).
Proof.
  intros Hnr Hn Hr. unfold Generate. rewrite !DeriveNoiseSeed_ok by done.
  rewrite !bind_Ok, !FromSeedRect_ok by lia. done.
Qed.

Lemma noise_pair_ok sigma n r :
  0 ≤ n < 2 ^ 32 → 0 ≤ r < 2 ^ 32 → noise_ok (noise_pair sigma n r) n r.
Proof. intros. split; split_and!; try done; by apply wf_seed_rect. Qed.
