(* ===== verification/Transcript.v ===== *)
(** The transcript of a block-wise matrix product and its digests.

    [matmul/transcript.cpp]: the sigma-bound compression of a block to one
    field element, the canonical product that hashes the compression of every
    partial block, the verifier's replay of that hash from reusable clean
    block products, and the digest that commits to the final product only. *)

From Stdlib Require Import ZArith Lia String.
From stdpp Require Import base list numbers tactics.
From S2P Require Import Prelude Sha256 Field Matrix Noise.
Import field noise.

Open Scope Z_scope.

Module transcript.

(** ["matmul-compress-v1"] and ["matmul-product-digest-v3"]. *)
Definition COMPRESS_TAG : list Z :=
  [109; 97; 116; 109; 117; 108; 45; 99; 111; 109; 112; 114; 101; 115; 115; 45; 118; 49].
Definition PRODUCT_DIGEST_TAG : list Z :=
  [109; 97; 116; 109; 117; 108; 45; 112; 114; 111; 100; 117; 99; 116; 45; 100; 105; 103; 101; 115; 116; 45; 118; 51].

Definition ToCanonicalBytes (value : list Z) : list Z := reverse value.
Definition CanonicalBytesToUint256 (bytes : list Z) : list Z := reverse bytes.

Definition DeriveCompressionSeed (sigma : list Z) : list Z :=
  let hasher := sha_Write CSHA256_new COMPRESS_TAG in
  let hasher := sha_Write hasher (ToCanonicalBytes sigma) in
  CanonicalBytesToUint256 (fst (sha_Finalize hasher)).

Definition RowBlockAllCols (m : Matrix) (block_index block_rows : Z) : MatrixView :=
  mkView (drop (Z.to_nat (block_index * block_rows * m_cols m)) (m_data m))
    block_rows (m_cols m) (m_cols m).

Definition AllRowsColBlock (m : Matrix) (block_index block_cols : Z) : MatrixView :=
  mkView (drop (Z.to_nat (block_index * block_cols)) (m_data m))
    (m_rows m) block_cols (m_cols m).

Definition BlockProductIndex (i j ell blocks_per_axis : Z) : Z :=
  (i * blocks_per_axis + j) * blocks_per_axis + ell.

(** [acc = field::add(acc, field::mul(x, y))] *)
Definition mac (acc x y : Z) : result Z := p ← mul x y; add acc p.

(** [for (y = 0; y < n; ++y) acc = add(acc, mul(x(y), z(y)))] from 0. *)
Definition mac_loop (n : Z) (x z : Z → result Z) : result Z :=
  for_range 0 n (λ y acc, a ← x y; b ← z y; mac acc a b) 0.

(** The two-level loops that store one accumulated value per cell of a
    [rows] x [cols] scratch vector. *)
Definition weigh (rows cols : Z) (cell : Z → Z → result Z) : result (list Z) :=
  for_range 0 rows (λ x w,
    for_range 0 cols (λ u w, acc ← cell x u; vset w (x * cols + u) acc) w)
    (replicate (Z.to_nat (rows * cols)) 0).

(** [scalar = add(scalar, mul(x, y))] over a rectangle. *)
Definition scalar_loop (rows cols : Z) (term : Z → Z → result (Z * Z)) : result Z :=
  for_range 0 rows (λ t scalar,
    for_range 0 cols (λ u scalar, '(x, y) ← term t u; mac scalar x y) scalar) 0.

Definition CompressAfBlock (a_block f_l_block f_r_block : MatrixView) (v : list Z) : result Z :=
  let b := v_rows a_block in
  let r := v_cols f_l_block in
  weighted_v ← weigh b r (λ x u,
    mac_loop b (λ y, vget v (x * b + y)) (λ y, view_at f_r_block u y));
  scalar_loop b r (λ t u,
    acc ← mac_loop b (λ x, view_at a_block x t) (λ x, vget weighted_v (x * r + u));
    f ← view_at f_l_block t u; Ok (f, acc)).

Definition CompressEbBlock (e_l_block e_r_block b_block : MatrixView) (v : list Z) : result Z :=
  let b := v_rows e_l_block in
  let r := v_cols e_l_block in
  weighted_v ← weigh r b (λ u y,
    mac_loop b (λ x, view_at e_l_block x u) (λ x, vget v (x * b + y)));
  scalar_loop r b (λ u t,
    acc ← mac_loop b (λ y, vget weighted_v (u * b + y)) (λ y, view_at b_block t y);
    e ← view_at e_r_block u t; Ok (e, acc)).

Definition CompressEfBlock (e_l_block e_r_block f_l_block f_r_block : MatrixView) (v : list Z) : result Z :=
  let b := v_rows e_l_block in
  let r := v_cols e_l_block in
  weighted_v ← weigh r b (λ u y,
    mac_loop b (λ x, view_at e_l_block x u) (λ x, vget v (x * b + y)));
  weighted_fr ← weigh r r (λ u v_idx,
    mac_loop b (λ y, vget weighted_v (u * b + y)) (λ y, view_at f_r_block v_idx y));
  scalar_loop b r (λ t v_idx,
    acc ← mac_loop r (λ u, view_at e_r_block u t) (λ u, vget weighted_fr (u * r + v_idx));
    f ← view_at f_l_block t v_idx; Ok (acc, f)).

Definition DeriveCompressionVector (sigma : list Z) (b : Z) : result (list Z) :=
  _ ← throw_if (b =? 0) "block size b must be non-zero";
  let seed := DeriveCompressionSeed sigma in
  collect (b * b) (λ k, Ok (from_oracle seed (u32 k))).

(** The two overloads of [CompressBlock]: one dot product over a contiguous
    block, or one per row of a strided view. *)
Definition CompressBlock `{Platform} (block_bb : Matrix) (v : list Z) : result Z :=
  let len := m_rows block_bb * m_cols block_bb in
  _ ← throw_if (negb (len =? zlen v))
        "CompressBlock: dimension mismatch between block and compression vector";
  _ ← throw_if (2 ^ 32 - 1 <? len) "CompressBlock: block size exceeds uint32_t range";
  dot (m_data block_bb) v (u32 len).

Definition CompressBlockView `{Platform} (block_bb : MatrixView) (v : list Z) : result Z :=
  let len := v_rows block_bb * v_cols block_bb in
  _ ← throw_if (negb (len =? zlen v))
        "CompressBlock: dimension mismatch between block view and compression vector";
  for_range 0 (v_rows block_bb) (λ row acc,
    p ← row_ptr block_bb row;
    d ← dot p (drop (Z.to_nat (row * v_cols block_bb)) v) (v_cols block_bb);
    add acc d) 0.

(** [TranscriptHasher] *)
Record TranscriptHasher := mkTH { th_b : Z; th_hasher : CSHA256; th_compress_vec : list Z }.

Definition TranscriptHasher_new (sigma : list Z) (b : Z) : result TranscriptHasher :=
  v ← DeriveCompressionVector sigma b;
  Ok (mkTH b CSHA256_new v).

Definition AddIntermediateView `{Platform} (th : TranscriptHasher) (block_bb : MatrixView) :
    result TranscriptHasher :=
  _ ← assert_ (v_rows block_bb =? th_b th);
  _ ← assert_ (v_cols block_bb =? th_b th);
  compressed ← CompressBlockView block_bb (th_compress_vec th);
  Ok (mkTH (th_b th) (sha_Write (th_hasher th) (WriteLE32 compressed)) (th_compress_vec th)).

Definition AddIntermediate `{Platform} (th : TranscriptHasher) (block_bb : Matrix) :
    result TranscriptHasher :=
  AddIntermediateView th (mkView (m_data block_bb) (m_rows block_bb) (m_cols block_bb) (m_cols block_bb)).

Definition TranscriptHasher_Finalize (th : TranscriptHasher) : list Z :=
  let inner := fst (sha_Finalize (th_hasher th)) in
  fst (sha_Finalize (sha_Write CSHA256_new inner)).

Record CanonicalResult := mkCanonical { C_prime : Matrix; transcript_hash : list Z }.

(** The guards the block-wise products share. *)
Definition check_square (a b : Matrix) (msg : string) : result unit :=
  throw_if (negb (m_rows a =? m_cols a) || negb (m_rows b =? m_cols b) || negb (m_rows a =? m_rows b)) msg.
Definition check_block_size (n b : Z) (msg : string) : result unit :=
  throw_if ((b =? 0) || negb (n mod b =? 0)) msg.

(** The body of the innermost loop of [CanonicalMatMul]. *)
Definition canonical_step `{Platform} (A_prime B_prime : Matrix) (b i j ell : Z)
    (st : Matrix * TranscriptHasher) : result (Matrix * TranscriptHasher) :=
  let '(C_prime, hasher) := st in
  a_block ← block A_prime i ell b;
  b_block ← block B_prime ell j b;
  product ← Matrix_mul a_block b_block;
  c_block ← block C_prime i j b;
  c_block ← Matrix_add c_block product;
  C_prime ← set_block C_prime i j b c_block;
  hasher ← AddIntermediate hasher c_block;
  Ok (C_prime, hasher).

Definition CanonicalMatMul `{Platform} (A_prime B_prime : Matrix) (b : Z) (sigma : list Z) :
    result CanonicalResult :=
  _ ← check_square A_prime B_prime "canonical matmul requires square matrices of equal size";
  _ ← check_block_size (m_rows A_prime) b "invalid transcript block size";
  let n := m_rows A_prime in
  let N := n / b in
  hasher ← TranscriptHasher_new sigma b;
  '(C_prime, hasher) ←
    for_range 0 N (λ i st, for_range 0 N (λ j st, for_range 0 N (λ ell st,
      canonical_step A_prime B_prime b i j ell st) st) st) (Matrix_new n n, hasher);
  Ok (mkCanonical C_prime (TranscriptHasher_Finalize hasher)).

Definition PrecomputeCleanBlockProducts `{Platform} (A B : Matrix) (b : Z) : result (list Matrix) :=
  _ ← check_square A B "clean block products require square matrices of equal size";
  _ ← check_block_size (m_rows A) b "invalid transcript block size";
  let N := m_rows A / b in
  for_range 0 N (λ i out, for_range 0 N (λ j out, for_range 0 N (λ ell out,
    x ← block A i ell b;
    y ← block B ell j b;
    p ← Matrix_mul x y;
    Ok (out ++ [p])) out) out) [].

(** One iteration of the replay: the prefix and the hasher. *)
Definition replay_step `{Platform} (A B : Matrix) (clean : list Matrix) (np : NoisePair)
    (b N : Z) (v : list Z) (e_l_block f_r_block : MatrixView) (i j ell : Z)
    (st : Z * CSHA256) : result (Z * CSHA256) :=
  let '(compressed_prefix, hasher) := st in
  clean_block ← vget clean (BlockProductIndex i j ell N);
  clean_compressed ← CompressBlock clean_block v;
  a_block ← block_view A i ell b;
  b_block ← block_view B ell j b;
  let e_r_block := AllRowsColBlock (E_R np) ell b in
  let f_l_block := RowBlockAllCols (F_L np) ell b in
  af ← CompressAfBlock a_block f_l_block f_r_block v;
  eb ← CompressEbBlock e_l_block e_r_block b_block v;
  ef ← CompressEfBlock e_l_block e_r_block f_l_block f_r_block v;
  s1 ← add eb ef;
  s2 ← add af s1;
  s3 ← add clean_compressed s2;
  compressed_prefix ← add compressed_prefix s3;
  Ok (compressed_prefix, CHash256_Write hasher (WriteLE32 compressed_prefix)).

Definition noise_dims_ok (np : NoisePair) (n : Z) : bool :=
  (m_rows (E_L np) =? n) && (m_cols (E_L np) =? m_rows (E_R np)) &&
  (m_cols (E_R np) =? n) && (m_rows (F_L np) =? n) &&
  (m_cols (F_L np) =? m_rows (F_R np)) && (m_cols (F_R np) =? n).

Definition ReplayCanonicalHashWithReusableCleanProducts `{Platform} (A B : Matrix)
    (clean_block_products : list Matrix) (np : NoisePair) (b : Z) (sigma : list Z) : result (list Z) :=
  _ ← check_square A B "replay requires square matrices of equal size";
  _ ← check_block_size (m_rows A) b "invalid transcript block size";
  let n := m_rows A in
  let N := n / b in
  _ ← throw_if (negb (zlen clean_block_products =? N * N * N)) "clean block product count mismatch";
  _ ← throw_if (negb (noise_dims_ok np n)) "noise dimensions do not match matrix dimensions";
  compress_vec ← DeriveCompressionVector sigma b;
  hasher ← for_range 0 N (λ i hasher,
    let e_l_block := RowBlockAllCols (E_L np) i b in
    for_range 0 N (λ j hasher,
      let f_r_block := AllRowsColBlock (F_R np) j b in
      '(_, hasher) ← for_range 0 N (λ ell st,
        replay_step A B clean_block_products np b N compress_vec e_l_block f_r_block i j ell st)
        (0, hasher);
      Ok hasher) hasher) CHash256_new;
  Ok (CHash256_Finalize hasher).

(** The words as little-endian memory. *)
Definition word_bytes (words : list Z) : list Z := concat (WriteLE32 <$> words).

Definition HashMatrixWords (words : list Z) : list Z :=
  let hasher := CHash256_new in
  let hasher := match words with [] => hasher | _ => CHash256_Write hasher (word_bytes words) end in
  CHash256_Finalize hasher.

Definition FinalizeTranscriptDigestFromWords (words : list Z) : list Z := HashMatrixWords words.

Definition FinalizeProductCommittedDigestFromHash (c_prime_hash sigma : list Z) (dim b : Z) : result (list Z) :=
  _ ← throw_if ((dim =? 0) || (b =? 0)) "product-committed digest requires non-zero dimensions";
  _ ← throw_if (negb (dim mod b =? 0)) "product-committed digest requires dim divisible by b";
  let outer := sha_Write CSHA256_new PRODUCT_DIGEST_TAG in
  let outer := sha_Write outer sigma in
  let outer := sha_Write outer c_prime_hash in
  let outer := sha_Write outer (WriteLE32 dim) in
  let outer := sha_Write outer (WriteLE32 b) in
  let inner := fst (sha_Finalize outer) in
  Ok (fst (sha_Finalize (sha_Write CSHA256_new inner))).

Definition ComputeProductCommittedDigestFromWords (c_prime_words sigma : list Z) (dim b : Z) : result (list Z) :=
  _ ← throw_if ((dim =? 0) || (b =? 0) || negb (dim mod b =? 0))
        "product-committed digest word span requires valid dimensions";
  let blocks_per_axis := dim / b in
  _ ← throw_if (negb (zlen c_prime_words =? blocks_per_axis * blocks_per_axis))
        "product-committed digest word span size mismatch";
  FinalizeProductCommittedDigestFromHash (HashMatrixWords c_prime_words) sigma dim b.

(** The loops [for i, for j: push_back(word(i, j))]. *)
Definition push_blocks (N : Z) (word : Z → Z → result Z) : result (list Z) :=
  for_range 0 N (λ i out, for_range 0 N (λ j out, w ← word i j; Ok (out ++ [w])) out) [].

Definition ComputeProductCommittedDigest `{Platform} (C_prime : Matrix) (b : Z) (sigma : list Z) : result (list Z) :=
  _ ← throw_if (negb (m_rows C_prime =? m_cols C_prime)) "product-committed digest requires square C'";
  _ ← check_block_size (m_rows C_prime) b "product-committed digest requires valid transcript block size";
  compress_vec ← DeriveCompressionVector sigma b;
  compressed_blocks ← push_blocks (m_rows C_prime / b) (λ i j,
    v ← block_view C_prime i j b; CompressBlockView v compress_vec);
  ComputeProductCommittedDigestFromWords compressed_blocks sigma (m_rows C_prime) b.

Definition ComputeProductCommittedDigestFromPerturbed `{Platform} (A_prime B_prime : Matrix) (b : Z) (sigma : list Z) :
    result (list Z) :=
  _ ← check_square A_prime B_prime "product-committed digest requires square matrices of equal size";
  _ ← check_block_size (m_rows A_prime) b "product-committed digest requires valid transcript block size";
  let n := m_rows A_prime in
  let blocks_per_axis := n / b in
  compress_vec ← DeriveCompressionVector sigma b;
  compressed_blocks ← push_blocks blocks_per_axis (λ i j,
    for_range 0 blocks_per_axis (λ ell acc,
      x ← block A_prime i ell b;
      y ← block B_prime ell j b;
      product ← Matrix_mul x y;
      c ← CompressBlock product compress_vec;
      add acc c) 0);
  ComputeProductCommittedDigestFromWords compressed_blocks sigma n b.

End transcript.
Import transcript.

(** ** Accumulation loops *)
Lemma mac_ok acc x y :
  canonical acc → canonical x → canonical y → mac acc x y = Ok ((acc + x * y) mod MODULUS).
Proof.
  intros. unfold mac. rewrite mul_mod by done. cbn. rewrite add_mod by auto with btx.
  f_equal. by rewrite Z.add_mod_idemp_r.
Qed.

(** Terms evaluated without failure to canonical factors. *)
Definition yields (n : Z) (x : Z → result Z) (f : Z → Z) : Prop :=
  ∀ i, 0 ≤ i < n → x i = Ok (f i) ∧ canonical (f i).

Lemma mac_loop_ok n x z fx fz :
  0 ≤ n → yields n x fx → yields n z fz →
  mac_loop n x z = Ok (zsum n (λ y, fx y * fz y) mod MODULUS).
Proof.
  intros Hn Hx Hz. unfold mac_loop.
  destruct (for_range_sum (λ y, fx y * fz y) (λ y acc, a ← x y; b ← z y; mac acc a b)
    (λ s acc, acc = s mod MODULUS) n 0) as (s & -> & ->); [done..| |done].
  intros i s Hi ->. destruct (Hx i Hi) as [-> ?], (Hz i Hi) as [-> ?]. cbn.
  rewrite mac_ok by auto with btx. eexists; split; [done|]. by rewrite Z.add_mod_idemp_l.
Qed.

Lemma scalar_loop_ok R C term f g :
  0 ≤ R → 0 ≤ C →
  (∀ t u, 0 ≤ t < R → 0 ≤ u < C → term t u = Ok (f t u, g t u) ∧ canonical (f t u) ∧ canonical (g t u)) →
  scalar_loop R C term = Ok (zsum R (λ t, zsum C (λ u, f t u * g t u)) mod MODULUS).
Proof.
  intros HR HC Ht. unfold scalar_loop. rewrite for_nest by done.
  destruct (for_range_sum (λ k, f (k / C) (k mod C) * g (k / C) (k mod C))
    (λ k scalar, '(x, y) ← term (k / C) (k mod C); mac scalar x y)
    (λ s acc, acc = s mod MODULUS) (R * C) 0) as (s & -> & ->); [nia|done| |].
  - intros k s Hk ->. destruct (index_split k R C Hk HC) as (_ & ? & ?).
    destruct (Ht (k / C) (k mod C)) as (-> & ? & ?); [done..|]. cbn.
    rewrite mac_ok by auto with btx. eexists; split; [done|]. by rewrite Z.add_mod_idemp_l.
  - do 2 f_equal. rewrite zsum_blocks by done. apply zsum_ext. intros t Ht'.
    apply zsum_ext. intros u Hu. by rewrite index_div, index_mod.
Qed.

Lemma weigh_ok R C cell f :
  0 ≤ R → 0 ≤ C → (∀ x u, 0 ≤ x < R → 0 ≤ u < C → cell x u = Ok (f x u)) →
  weigh R C cell = Ok (ztab (R * C) (λ k, f (k / C) (k mod C))).
Proof.
  intros HR HC Hc. unfold weigh. rewrite for_nest by done.
  rewrite <- (for_assign (R * C) (λ k, cell (k / C) (k mod C)) _ (replicate (Z.to_nat (R * C)) 0)).
  - apply for_range_ext. intros k w Hk. apply bind_ext. intros v _. f_equal.
    symmetry. apply (index_split k R C Hk HC).
  - unfold zlen. rewrite length_replicate. nia.
  - intros k Hk. destruct (index_split k R C Hk HC) as (_ & ? & ?). by apply Hc.
Qed.

Lemma weigh_get R C (f : Z → Z → Z) x u :
  0 ≤ x < R → 0 ≤ u < C → vget (ztab (R * C) (λ k, f (k / C) (k mod C))) (x * C + u) = Ok (f x u).
Proof.
  intros Hx Hu. pose proof (index_range x u R C Hx Hu).
  rewrite vget_Ok by (rewrite zlen_ztab; lia). rewrite znth_ztab by done.
  by rewrite index_div, index_mod.
Qed.

(** ** The compression functional

    [v] weighs a [b] x [b] block given as a function. *)
Definition cfun (v : list Z) (b : Z) (f : Z → Z → Z) : Z :=
  zsum b (λ x, zsum b (λ y, f x y * znth v (x * b + y))).

Lemma cfun_ext v b f g :
  (∀ x y, 0 ≤ x < b → 0 ≤ y < b → f x y = g x y) → cfun v b f = cfun v b g.
Proof. intros H. apply zsum_ext. intros x Hx. apply zsum_ext. intros y Hy. by rewrite H. Qed.

Lemma cfun_cong v b f g :
  (∀ x y, 0 ≤ x < b → 0 ≤ y < b → f x y ≡p g x y) → cfun v b f ≡p cfun v b g.
Proof.
  intros H. apply cong_zsum. intros x Hx. apply cong_zsum. intros y Hy. by rewrite (H x y).
Qed.

Lemma cfun_add v b f g : cfun v b (λ x y, f x y + g x y) = cfun v b f + cfun v b g.
Proof.
  unfold cfun. rewrite <- zsum_add. apply zsum_ext. intros x _.
  rewrite <- zsum_add. apply zsum_ext. intros y _. lia.
Qed.

(** A compression vector for blocks of size [b]. *)
Definition cvec (v : list Z) (b : Z) : Prop := canon_list v ∧ zlen v = b * b ∧ 0 < b ∧ b * b < 2 ^ 32 - 4.

Lemma CompressBlock_ok `{Platform} m v b :
  wf m → m_rows m = b → m_cols m = b → cvec v b →
  CompressBlock m v = Ok (cfun v b (mget m) mod MODULUS).
Proof.
  intros Hm Er Ec (Hv & Hl & Hb & Hs). unfold CompressBlock. rewrite Er, Ec, Hl, Z.eqb_refl.
  rewrite (proj2 (Z.ltb_ge _ _)) by lia. cbn. rewrite u32_small by nia.
  pose proof (wf_len _ Hm) as Hlm. rewrite Er, Ec in Hlm.
  rewrite dot_ok by (try apply Hm; auto; lia). do 2 f_equal.
  unfold zdot, cfun. rewrite zsum_blocks by lia. apply zsum_ext. intros x Hx.
  apply zsum_ext. intros y Hy. unfold mget. by rewrite Ec.
Qed.

Lemma CompressBlockView_ok `{Platform} bv v b f :
  view_shows bv b b f → 0 ≤ v_stride bv → cvec v b →
  CompressBlockView bv v = Ok (cfun v b f mod MODULUS).
Proof.
  intros Hbv Hst (Hv & Hl & Hb & Hs). pose proof Hbv as (Er & Ec & _).
  unfold CompressBlockView. rewrite Er, Ec, Hl, Z.eqb_refl. cbn.
  destruct (for_range_sum (λ x, zsum b (λ y, f x y * znth v (x * b + y)))
    (λ row acc, p ← row_ptr bv row; d ← dot p (drop (Z.to_nat (row * b)) v) b; add acc d)
    (λ s acc, acc = s mod MODULUS) b 0) as (s & -> & ->); [lia|done| |done].
  intros i s Hi ->.
  destruct (row_ptr_ok bv b b f i Hbv Hst Hi ltac:(lia)) as (p & -> & Hp & Hlp & Hpf). cbn.
  specialize (Hlp Hb).
  rewrite dot_ok; [|done|by apply Forall_drop|lia| |nia].
  - cbn. rewrite add_mod by auto with btx. eexists; split; [done|].
    rewrite Z.add_mod_idemp_l, Z.add_mod_idemp_r by done. do 2 f_equal.
    unfold zdot. apply zsum_ext. intros y Hy. rewrite Hpf by done.
    f_equal. rewrite znth_drop by lia. f_equal. nia.
  - unfold zlen in *. rewrite length_drop. nia.
Qed.

(** ** The factored compressions

    Each computes the compression of a product of blocks without forming it. *)
Lemma view_row_yields v R C f i : view_shows v R C f → 0 ≤ i < R → yields C (view_at v i) (f i).
Proof.
  intros Hv Hi j Hj. split; [by apply (view_at_ok v R C)|].
  destruct Hv as (_ & _ & Hc & H). destruct (H i j Hi Hj) as [_ <-]. by apply canon_znth.
Qed.

Lemma view_col_yields v R C f j :
  view_shows v R C f → 0 ≤ j < C → yields R (λ i, view_at v i j) (λ i, f i j).
Proof. intros Hv Hj i Hi. by apply (view_row_yields v R C f i Hv). Qed.

Lemma cvec_row_yields v b x :
  cvec v b → 0 ≤ x < b → yields b (λ y, vget v (x * b + y)) (λ y, znth v (x * b + y)).
Proof.
  intros (Hv & Hl & Hb & _) Hx y Hy. pose proof (index_range x y b b Hx Hy).
  split; [apply vget_Ok; lia|by apply canon_znth].
Qed.

Lemma cvec_col_yields v b y :
  cvec v b → 0 ≤ y < b → yields b (λ x, vget v (x * b + y)) (λ x, znth v (x * b + y)).
Proof. intros Hc Hy x Hx. by apply (cvec_row_yields v b x). Qed.

Lemma weigh_row_yields R C f x :
  0 ≤ x < R → (∀ u, 0 ≤ u < C → canonical (f x u)) →
  yields C (λ u, vget (ztab (R * C) (λ k, f (k / C) (k mod C))) (x * C + u)) (f x).
Proof. intros Hx Hf u Hu. split; [by apply weigh_get|by apply Hf]. Qed.

Lemma weigh_col_yields R C f u :
  0 ≤ u < C → (∀ x, 0 ≤ x < R → canonical (f x u)) →
  yields R (λ x, vget (ztab (R * C) (λ k, f (k / C) (k mod C))) (x * C + u)) (λ x, f x u).
Proof. intros Hu Hf x Hx. split; [by apply weigh_get|by apply Hf]. Qed.

Lemma mod_of_cong x y : x ≡p y → @Ok Z (x mod MODULUS) = Ok (y mod MODULUS).
Proof. unfold cong. by intros ->. Qed.

Lemma CompressAfBlock_ok a fl fr v b r fa ffl ffr :
  0 ≤ r → cvec v b → view_shows a b b fa → view_shows fl b r ffl → view_shows fr r b ffr →
  CompressAfBlock a fl fr v =
    Ok (cfun v b (λ x y, zsum b (λ t, fa x t * zsum r (λ u, ffl t u * ffr u y))) mod MODULUS).
Proof.
  intros Hr Hv Ha Hl Hrr. pose proof Hv as (_ & _ & Hb & _).
  unfold CompressAfBlock. rewrite (proj1 Ha), (proj1 (proj2 Hl)).
  set (w := λ x u, zsum b (λ y, znth v (x * b + y) * ffr u y) mod MODULUS).
  rewrite (weigh_ok b r _ w).
  2-3: lia. 2: { intros x u Hx Hu. apply mac_loop_ok; [lia| |].
    - by apply cvec_row_yields.
    - by apply (view_row_yields fr r b). }
  rewrite bind_Ok.
  rewrite (scalar_loop_ok b r _ ffl (λ t u, zsum b (λ x, fa x t * w x u) mod MODULUS)).
  2-3: lia. 2: { intros t u Ht Hu.
    rewrite (mac_loop_ok b _ _ (λ x, fa x t) (λ x, w x u)).
    - destruct (view_row_yields fl b r ffl t Hl Ht u Hu) as [Efl ?]. cbn.
      rewrite Efl. cbn. split_and!; auto with btx.
    - lia.
    - by apply (view_col_yields a b b).
    - apply weigh_col_yields; [done|]. intros. apply canonical_mod. }
  apply mod_of_cong.
  transitivity (zsum b (λ t, zsum r (λ u, ffl t u * zsum b (λ x, fa x t * zsum b (λ y, znth v (x * b + y) * ffr u y))))).
  { apply cong_zsum. intros t _. apply cong_zsum. intros u _.
    rewrite (cong_mod MODULUS). f_equiv. apply cong_zsum. intros x _. unfold w. by rewrite (cong_mod MODULUS). }
  apply cong_eq. unfold cfun.
  transitivity (zsum b (λ t, zsum r (λ u, zsum b (λ x, zsum b (λ y,
    ffl t u * (fa x t * (znth v (x * b + y) * ffr u y))))))).
  { do 2 (apply zsum_ext; intros ? _). rewrite <- zsum_mul_l. apply zsum_ext. intros x _.
    rewrite <- !zsum_mul_l. done. }
  rewrite zsum_swap22. do 2 (apply zsum_ext; intros ? _).
  rewrite <- zsum_mul_r. apply zsum_ext. intros t _.
  rewrite <- zsum_mul_l, <- zsum_mul_r. apply zsum_ext. intros. lia.
Qed.

Lemma CompressEbBlock_ok el er bb v b r fel fer fb :
  0 ≤ r → cvec v b → view_shows el b r fel → view_shows er r b fer → view_shows bb b b fb →
  CompressEbBlock el er bb v =
    Ok (cfun v b (λ x y, zsum b (λ t, zsum r (λ u, fel x u * fer u t) * fb t y)) mod MODULUS).
Proof.
  intros Hr Hv Hl Hrr Hbb. pose proof Hv as (_ & _ & Hb & _).
  unfold CompressEbBlock. rewrite (proj1 Hl), (proj1 (proj2 Hl)).
  set (w := λ u y, zsum b (λ x, fel x u * znth v (x * b + y)) mod MODULUS).
  rewrite (weigh_ok r b _ w).
  2-3: lia. 2: { intros u y Hu Hy. apply (mac_loop_ok b _ _ (λ x, fel x u)); [lia| |].
    - by apply (view_col_yields el b r).
    - by apply cvec_col_yields. }
  rewrite bind_Ok.
  rewrite (scalar_loop_ok r b _ fer (λ u t, zsum b (λ y, w u y * fb t y) mod MODULUS)).
  2-3: lia. 2: { intros u t Hu Ht.
    rewrite (mac_loop_ok b _ _ (w u) (fb t)).
    - destruct (view_row_yields er r b fer u Hrr Hu t Ht) as [Ee ?]. cbn.
      rewrite Ee. cbn. split_and!; auto with btx.
    - lia.
    - apply weigh_row_yields; [done|]. intros. apply canonical_mod.
    - by apply (view_row_yields bb b b). }
  apply mod_of_cong.
  transitivity (zsum r (λ u, zsum b (λ t, fer u t * zsum b (λ y, zsum b (λ x, fel x u * znth v (x * b + y)) * fb t y)))).
  { apply cong_zsum. intros u _. apply cong_zsum. intros t _.
    rewrite (cong_mod MODULUS). f_equiv. apply cong_zsum. intros y _. unfold w. by rewrite (cong_mod MODULUS). }
  apply cong_eq. unfold cfun.
  transitivity (zsum r (λ u, zsum b (λ t, zsum b (λ x, zsum b (λ y,
    fer u t * (fel x u * znth v (x * b + y) * fb t y)))))).
  { do 2 (apply zsum_ext; intros ? _). rewrite zsum_swap, <- zsum_mul_l. apply zsum_ext. intros y _.
    by rewrite <- zsum_mul_r, <- zsum_mul_l. }
  rewrite zsum_swap22. do 2 (apply zsum_ext; intros ? _).
  rewrite zsum_swap, <- zsum_mul_r. apply zsum_ext. intros t _.
  rewrite <- !zsum_mul_r. apply zsum_ext. intros. lia.
Qed.

Lemma CompressEfBlock_ok el er fl fr v b r fel fer ffl ffr :
  0 ≤ r → cvec v b → view_shows el b r fel → view_shows er r b fer →
  view_shows fl b r ffl → view_shows fr r b ffr →
  CompressEfBlock el er fl fr v =
    Ok (cfun v b (λ x y, zsum b (λ t, zsum r (λ u, fel x u * fer u t) * zsum r (λ z, ffl t z * ffr z y)))
        mod MODULUS).
Proof.
  intros Hr Hv Hel Her Hfl Hfr. pose proof Hv as (_ & _ & Hb & _).
  unfold CompressEfBlock. rewrite (proj1 Hel), (proj1 (proj2 Hel)).
  set (w := λ u y, zsum b (λ x, fel x u * znth v (x * b + y)) mod MODULUS).
  set (wf := λ u z, zsum b (λ y, w u y * ffr z y) mod MODULUS).
  rewrite (weigh_ok r b _ w).
  2-3: lia. 2: { intros u y Hu Hy. apply (mac_loop_ok b _ _ (λ x, fel x u)); [lia| |].
    - by apply (view_col_yields el b r).
    - by apply cvec_col_yields. }
  rewrite bind_Ok. rewrite (weigh_ok r r _ wf).
  2-3: lia. 2: { intros u z Hu Hz. apply (mac_loop_ok b _ _ (w u) (ffr z)); [lia| |].
    - apply weigh_row_yields; [done|]. intros. apply canonical_mod.
    - by apply (view_row_yields fr r b). }
  rewrite bind_Ok.
  rewrite (scalar_loop_ok b r _ (λ t z, zsum r (λ u, fer u t * wf u z) mod MODULUS) ffl).
  2-3: lia. 2: { intros t z Ht Hz.
    rewrite (mac_loop_ok r _ _ (λ u, fer u t) (λ u, wf u z)).
    - destruct (view_row_yields fl b r ffl t Hfl Ht z Hz) as [Ee ?]. cbn.
      rewrite Ee. cbn. split_and!; auto with btx.
    - lia.
    - by apply (view_col_yields er r b).
    - apply weigh_col_yields; [done|]. intros. apply canonical_mod. }
  apply mod_of_cong.
  transitivity (zsum b (λ t, zsum r (λ z, zsum r (λ u, fer u t * zsum b (λ y,
    zsum b (λ x, fel x u * znth v (x * b + y)) * ffr z y)) * ffl t z))).
  { apply cong_zsum. intros t _. apply cong_zsum. intros z _.
    rewrite (cong_mod MODULUS). f_equiv. apply cong_zsum. intros u _.
    unfold wf. rewrite (cong_mod MODULUS). f_equiv. apply cong_zsum. intros y _.
    unfold w. by rewrite (cong_mod MODULUS). }
  apply cong_eq. unfold cfun.
  transitivity (zsum b (λ t, zsum r (λ z, zsum b (λ x, zsum b (λ y,
    zsum r (λ u, fer u t * fel x u) * (znth v (x * b + y) * ffr z y * ffl t z)))))).
  { do 2 (apply zsum_ext; intros ? _). rewrite (zsum_swap b b).
    erewrite (zsum_ext r) by (intros u _; rewrite <- zsum_mul_l; apply zsum_ext; intros y _;
      rewrite <- zsum_mul_r, <- zsum_mul_l; reflexivity).
    rewrite (zsum_swap r b), <- zsum_mul_r. apply zsum_ext. intros y _.
    rewrite (zsum_swap r b), <- zsum_mul_r. apply zsum_ext. intros x' _.
    rewrite <- !zsum_mul_r. apply zsum_ext. intros. lia. }
  rewrite zsum_swap22. do 2 (apply zsum_ext; intros ? _).
  rewrite <- zsum_mul_r. apply zsum_ext. intros t _.
  rewrite <- zsum_mul_l, <- zsum_mul_r. apply zsum_ext. intros z _.
  rewrite <- !zsum_mul_r. apply zsum_ext. intros. lia.
Qed.

(** ** The compression vector *)
Definition compress_vec (sigma : list Z) (b : Z) : list Z :=
  ztab (b * b) (from_oracle (DeriveCompressionSeed sigma)).

Lemma DeriveCompressionVector_ok sigma b :
  0 < b → b * b < 2 ^ 32 → DeriveCompressionVector sigma b = Ok (compress_vec sigma b).
Proof.
  intros Hb Hs. unfold DeriveCompressionVector. rewrite (proj2 (Z.eqb_neq b 0)) by lia.
  cbn [throw_if]. rewrite bind_Ok. apply collect_Ok; [nia|].
  intros i Hi. by rewrite u32_small by lia.
Qed.

Lemma cvec_compress_vec sigma b : 0 < b → b * b < 2 ^ 32 - 4 → cvec (compress_vec sigma b) b.
Proof.
  intros Hb Hs. unfold compress_vec. split_and!; try done.
  - apply Forall_znth. intros k Hk. rewrite zlen_ztab in Hk by nia.
    rewrite znth_ztab by done. auto with btx.
  - apply zlen_ztab. nia.
Qed.

(** ** Three nested block loops as one *)
Definition i_of (N q : Z) : Z := q / (N * N).
Definition j_of (N q : Z) : Z := q mod (N * N) / N.
Definition l_of (N q : Z) : Z := q mod (N * N) mod N.

Lemma for_nest3 {S : Type} (f : Z → Z → Z → S → result S) N s :
  0 ≤ N →
  for_range 0 N (λ i s, for_range 0 N (λ j s, for_range 0 N (f i j) s) s) s
    = for_range 0 (N * (N * N)) (λ q s, f (i_of N q) (j_of N q) (l_of N q) s) s.
Proof.
  intros HN.
  rewrite (for_range_ext _ (λ i s, for_range 0 (N * N) (λ p s, f i (p / N) (p mod N) s) s)).
  - by rewrite for_nest by nia.
  - intros i t _. by rewrite for_nest.
Qed.

Lemma index_triple N q :
  0 ≤ N → 0 ≤ q < N * (N * N) →
  q = (i_of N q * N + j_of N q) * N + l_of N q ∧
  0 ≤ i_of N q < N ∧ 0 ≤ j_of N q < N ∧ 0 ≤ l_of N q < N.
Proof.
  intros HN Hq. unfold i_of, j_of, l_of.
  destruct (index_split q N (N * N) Hq ltac:(nia)) as (E1 & H1 & H2).
  destruct (index_split (q mod (N * N)) N N H2 HN) as (E2 & H3 & H4).
  split_and!; lia.
Qed.

(** ** The canonical product *)
Section Canonical.
Context `{Platform} (A B : Matrix) (b N : Z) (v : list Z).
Hypothesis HA : wf A.
Hypothesis HB : wf B.
Hypothesis HAr : m_rows A = N * b.
Hypothesis HAc : m_cols A = N * b.
Hypothesis HBr : m_rows B = N * b.
Hypothesis HBc : m_cols B = N * b.
Hypothesis Hb : 0 < b.
Hypothesis HN : 0 ≤ N.
Hypothesis Hn : N * b < 2 ^ 32 - 4.
Hypothesis Hv : cvec v b.

Let n := N * b.

(** The entry [(x, y)] of the product over the first [K] inner indices. *)
Definition psum (K x y : Z) : Z := zsum K (λ k, mget A x k * mget B k y).

(** C' when block [(bi, bj)] has accumulated [K bi bj] inner indices. *)
Definition partial (K : Z → Z → Z) : Matrix :=
  mat_of n n (λ x y, psum (K (x / b) (y / b)) x y mod MODULUS).

Lemma n_small : 0 ≤ n < 2 ^ 32.
Proof. unfold n. lia. Qed.

Lemma wf_partial K : wf (partial K).
Proof. pose proof n_small. apply wf_mat_of; auto with btx. Qed.

Lemma block_in_n m i j : m_rows m = n → m_cols m = n → 0 ≤ i < N → 0 ≤ j < N → block_in m i j b.
Proof. unfold block_in, n. intros -> -> Hi Hj. split_and!; nia. Qed.

Lemma block_product i j ell :
  0 ≤ i < N → 0 ≤ j < N → 0 ≤ ell < N →
  ∃ a_block b_block,
    block A i ell b = Ok a_block ∧ block B ell j b = Ok b_block ∧
    Matrix_mul a_block b_block = Ok (mat_of b b (λ r c,
      zsum b (λ t, mget A (i * b + r) (ell * b + t) * mget B (ell * b + t) (j * b + c)) mod MODULUS)).
Proof.
  intros Hi Hj Hl. exists (mblock A i ell b), (mblock B ell j b).
  pose proof (block_in_n A i ell HAr HAc Hi Hl) as Hia.
  pose proof (block_in_n B ell j HBr HBc Hl Hj) as Hib.
  pose proof (block_bound _ _ _ _ HA Hia).
  split_and!; [by apply block_ok..|].
  rewrite Matrix_mul_ok; [|by auto with btx..|done|simpl; nia].
  f_equal. unfold mmul. simpl. apply mat_of_ext; [lia|]. intros r c Hr Hc.
  f_equal. apply zsum_ext. intros t Ht. unfold mblock. by rewrite !mget_mat_of.
Qed.

(** The word hashed after step [(i, j, ell)]. *)
Definition cword (i j ell : Z) : Z :=
  cfun v b (λ r c, psum ((ell + 1) * b) (i * b + r) (j * b + c)) mod MODULUS.

Lemma psum_block K i j ell r c :
  0 ≤ ell → K = ell * b →
  ((psum K (i * b + r) (j * b + c)) mod MODULUS +
   zsum b (λ t, mget A (i * b + r) (ell * b + t) * mget B (ell * b + t) (j * b + c)) mod MODULUS) mod MODULUS
    = psum ((ell + 1) * b) (i * b + r) (j * b + c) mod MODULUS.
Proof.
  intros Hl ->. rewrite <- Zplus_mod. f_equal. unfold psum.
  replace ((ell + 1) * b) with (ell * b + b) by lia. by rewrite zsum_app by nia.
Qed.

Lemma mget_partial_block K i j r c :
  0 ≤ i < N → 0 ≤ j < N → 0 ≤ r < b → 0 ≤ c < b →
  mget (partial K) (i * b + r) (j * b + c) = psum (K i j) (i * b + r) (j * b + c) mod MODULUS.
Proof.
  intros. unfold partial. rewrite mget_mat_of by (unfold n; nia). by rewrite !index_div.
Qed.

Lemma AddIntermediate_ok th m msg :
  wf m → m_rows m = b → m_cols m = b → th_b th = b → th_compress_vec th = v →
  represents (th_hasher th) msg →
  ∃ th', AddIntermediate th m = Ok th' ∧ th_b th' = b ∧ th_compress_vec th' = v ∧
    represents (th_hasher th') (msg ++ WriteLE32 (cfun v b (mget m) mod MODULUS)).
Proof.
  intros Hm Er Ec Hthb Hthv Hrep. unfold AddIntermediate, AddIntermediateView.
  cbn [v_rows v_cols]. rewrite Er, Ec, Hthb, Z.eqb_refl. cbn [assert_]. rewrite !bind_Ok.
  destruct (wf_cols _ Hm).
  pose proof (view_window m 0 0 b b Hm ltac:(lia) ltac:(lia) ltac:(lia) ltac:(lia) ltac:(lia) ltac:(lia)) as Hw.
  change (Z.to_nat (0 * m_cols m + 0)) with 0%nat in Hw. rewrite drop_0, Ec in Hw.
  rewrite Hthv, (CompressBlockView_ok _ v b (mget m)); [|exact Hw|simpl; lia|done].
  rewrite bind_Ok. eexists; split; [done|]. split_and!; [done..|]. by apply sha_Write_represents.
Qed.

Lemma canonical_step_ok i j ell K K' th msg :
  0 ≤ i < N → 0 ≤ j < N → 0 ≤ ell < N → K i j = ell * b →
  (∀ bi bj, 0 ≤ bi < N → 0 ≤ bj < N →
     K' bi bj = if decide (bi = i ∧ bj = j) then (ell + 1) * b else K bi bj) →
  th_b th = b → th_compress_vec th = v → represents (th_hasher th) msg →
  ∃ th', canonical_step A B b i j ell (partial K, th) = Ok (partial K', th') ∧
    th_b th' = b ∧ th_compress_vec th' = v ∧
    represents (th_hasher th') (msg ++ WriteLE32 (cword i j ell)).
Proof.
  intros Hi Hj Hl HK HK' Hthb Hthv Hrep. unfold canonical_step.
  destruct (block_product i j ell Hi Hj Hl) as (x & y & -> & -> & Hmul). rewrite !bind_Ok, Hmul.
  pose proof n_small. pose proof (wf_partial K) as HP.
  pose proof (block_in_n (partial K) i j eq_refl eq_refl Hi Hj) as Hin.
  pose proof (block_bound _ _ _ _ HP Hin) as Hbb.
  rewrite !bind_Ok, block_ok, bind_Ok by done.
  rewrite Matrix_add_ok; [|auto with btx|by apply wf_mat_of; auto with btx|done..].
  set (cb := madd _ _).
  assert (∀ r c, 0 ≤ r < b → 0 ≤ c < b →
    mget cb r c = psum ((ell + 1) * b) (i * b + r) (j * b + c) mod MODULUS) as Hcb.
  { intros r c Hr Hc. unfold cb, madd. simpl. rewrite !mget_mat_of by done.
    unfold mblock. rewrite mget_mat_of, mget_partial_block by done. rewrite HK. by apply psum_block; [lia|]. }
  assert (wf cb) as Hwcb by (unfold cb; auto with btx).
  rewrite bind_Ok, set_block_ok, bind_Ok by done.
  destruct (AddIntermediate_ok th cb msg Hwcb eq_refl eq_refl Hthb Hthv Hrep) as (th' & -> & H1 & H2 & H3).
  rewrite bind_Ok. exists th'. split_and!; [|done..|].
  - do 2 f_equal. unfold partial at 3. simpl. apply mat_of_ext; [lia|]. intros p q Hp Hq.
    assert (0 ≤ p / b < N ∧ 0 ≤ q / b < N) as [Hpb Hqb].
    { unfold n in *. split; (split; [apply Z.div_pos; lia|apply Z.div_lt_upper_bound; lia]). }
    pose proof (Z.div_mod p b ltac:(lia)). pose proof (Z.mod_pos_bound p b Hb).
    pose proof (Z.div_mod q b ltac:(lia)). pose proof (Z.mod_pos_bound q b Hb).
    rewrite HK' by done. destruct (decide (p / b = i ∧ q / b = j)) as [[Ei Ej]|Hne].
    + rewrite decide_True by nia. rewrite Hcb by nia.
      replace (i * b + (p - i * b)) with p by lia. by replace (j * b + (q - j * b)) with q by lia.
    + rewrite decide_False; [unfold partial; by rewrite mget_mat_of|].
      intros [Hx Hy]. apply Hne. split; [|]; symmetry; [apply (Z.div_unique p b i (p - i * b))|apply (Z.div_unique q b j (q - j * b))]; lia.
  - assert (cfun v b (mget cb) mod MODULUS = cword i j ell) as <-; [|done].
    apply cfun_cong. intros r c Hr Hc. rewrite Hcb by done. apply cong_mod.
Qed.

(** The inner indices block [(bi, bj)] has accumulated before step [q]. *)
Definition done_at (q bi bj : Z) : Z := b * Z.max 0 (Z.min N (q - (bi * N + bj) * N)).

Lemma done_at_here q : 0 ≤ q < N * (N * N) → done_at q (i_of N q) (j_of N q) = l_of N q * b.
Proof. intros Hq. destruct (index_triple N q HN Hq) as (E & _ & _ & Hl). unfold done_at. nia. Qed.

Lemma done_at_succ q bi bj :
  0 ≤ q < N * (N * N) → 0 ≤ bi < N → 0 ≤ bj < N →
  done_at (q + 1) bi bj =
    if decide (bi = i_of N q ∧ bj = j_of N q) then (l_of N q + 1) * b else done_at q bi bj.
Proof.
  intros Hq Hbi Hbj. destruct (index_triple N q HN Hq) as (E & Hi & Hj & Hl).
  unfold done_at. destruct (decide _) as [[-> ->]|Hne]; [nia|]. f_equal.
  assert (bi * N + bj ≠ i_of N q * N + j_of N q) as Hk.
  { intros Heq. apply Hne. by apply (index_inj bi bj _ _ N). }
  nia.
Qed.

(** The words of the transcript in hashing order. *)
Definition words (count : Z) : list Z :=
  ztab count (λ q, cword (i_of N q) (j_of N q) (l_of N q)).

Lemma word_bytes_snoc ws w : word_bytes (ws ++ [w]) = word_bytes ws ++ WriteLE32 w.
Proof. unfold word_bytes. rewrite fmap_app, concat_app. cbn [fmap list_fmap concat]. by rewrite app_nil_r. Qed.

Lemma canonical_loop_ok h :
  represents h [] →
  ∃ th, for_range 0 N (λ i st, for_range 0 N (λ j st, for_range 0 N (λ ell st,
    canonical_step A B b i j ell st) st) st) (partial (λ _ _, 0), mkTH b h v) =
      Ok (partial (λ _ _, n), th) ∧ represents (th_hasher th) (word_bytes (words (N * (N * N)))).
Proof.
  intros Hh. rewrite for_nest3 by done.
  set (I := λ q (st : Matrix * TranscriptHasher),
    fst st = partial (done_at q) ∧ th_b (snd st) = b ∧ th_compress_vec (snd st) = v ∧
    represents (th_hasher (snd st)) (word_bytes (words q))).
  destruct (for_range_inv I (λ q st, canonical_step A B b (i_of N q) (j_of N q) (l_of N q) st)
    0 (N * (N * N)) (partial (λ _ _, 0), mkTH b h v)) as ([m th] & -> & HI).
  - nia.
  - split_and!; [|done..]. cbn [fst]. unfold partial. apply mat_of_ext; [apply n_small|].
    intros x y Hx Hy. do 2 f_equal. unfold done_at.
    assert (0 ≤ x / b) by (apply Z.div_pos; lia). assert (0 ≤ y / b) by (apply Z.div_pos; lia). nia.
  - intros q [m th] Hq (Hm & H1 & H2 & H3). cbn [fst snd] in *. subst m.
    destruct (index_triple N q HN Hq) as (E & Hi & Hj & Hl).
    destruct (canonical_step_ok (i_of N q) (j_of N q) (l_of N q) (done_at q) (done_at (q + 1)) th
      _ Hi Hj Hl (done_at_here q Hq) (λ bi bj, done_at_succ q bi bj Hq) H1 H2 H3)
      as (th' & -> & H1' & H2' & H3').
    eexists; split; [done|]. split_and!; [done..|]. unfold words.
    by rewrite ztab_succ, word_bytes_snoc by lia.
  - destruct HI as (Hm & _ & _ & Hr). cbn [fst snd] in *. subst m. exists th. split; [|done].
    do 2 f_equal. unfold partial. apply mat_of_ext; [apply n_small|]. intros x y Hx Hy.
    do 2 f_equal. unfold done_at, n in *.
    assert (0 ≤ x / b < N) by (split; [apply Z.div_pos|apply Z.div_lt_upper_bound]; lia).
    assert (0 ≤ y / b < N) by (split; [apply Z.div_pos|apply Z.div_lt_upper_bound]; lia). nia.
Qed.

Lemma partial_full : partial (λ _ _, n) = mmul A B.
Proof. unfold partial, mmul, n. rewrite HAr, HAc, HBc. done. Qed.
End Canonical.

(** Square operands cut into [b] x [b] blocks. *)
Record blocked (A B : Matrix) (b : Z) : Prop := {
  bl_A : wf A;
  bl_B : wf B;
  bl_sqA : m_rows A = m_cols A;
  bl_sqB : m_rows B = m_cols B;
  bl_eq : m_rows A = m_rows B;
  bl_b : 0 < b;
  bl_div : m_rows A mod b = 0;
  bl_n : m_rows A < 2 ^ 32 - 4;
  bl_bb : b * b < 2 ^ 32 - 4
}.

Lemma blocked_dim A B b : blocked A B b → m_rows A = m_rows A / b * b.
Proof. intros [_ _ _ _ _ ? ? _ _]. pose proof (Z.div_mod (m_rows A) b ltac:(lia)). lia. Qed.

Lemma blocked_checks A B b msg1 msg2 :
  blocked A B b → check_square A B msg1 = Ok tt ∧ check_block_size (m_rows A) b msg2 = Ok tt.
Proof.
  intros [_ _ HA HB HE Hb Hd _ _]. unfold check_square, check_block_size.
  rewrite (proj2 (Z.eqb_eq (m_rows A) (m_cols A)) HA), (proj2 (Z.eqb_eq (m_rows B) (m_cols B)) HB),
    (proj2 (Z.eqb_eq (m_rows A) (m_rows B)) HE), (proj2 (Z.eqb_neq b 0)), Hd by lia.
  done.
Qed.

(** The transcript of a product: one word per block step. *)
Definition transcript_words (A B : Matrix) (b : Z) (sigma : list Z) : list Z :=
  let N := m_rows A / b in words A B b N (compress_vec sigma b) (N * (N * N)).

Lemma CanonicalMatMul_ok `{Platform} A B b sigma :
  blocked A B b →
  CanonicalMatMul A B b sigma
    = Ok (mkCanonical (mmul A B) (sha256d (word_bytes (transcript_words A B b sigma)))).
Proof.
  intros Hbl. unfold CanonicalMatMul.
  destruct (blocked_checks A B b "canonical matmul requires square matrices of equal size"
    "invalid transcript block size" Hbl) as [-> ->]. rewrite !bind_Ok.
  pose proof (blocked_dim _ _ _ Hbl) as Hdim. destruct Hbl as [HA HB HsA HsB HE Hb Hd Hn Hbb].
  unfold TranscriptHasher_new. rewrite DeriveCompressionVector_ok, !bind_Ok by lia.
  set (N := m_rows A / b) in *. pose proof (wf_rows _ HA).
  assert (0 ≤ N) by (apply Z.div_pos; lia).
  pose proof (cvec_compress_vec sigma b Hb Hbb) as Hv.
  destruct (canonical_loop_ok A B b N (compress_vec sigma b) HA HB ltac:(lia) ltac:(lia) ltac:(lia) ltac:(lia)
    Hb ltac:(lia) ltac:(lia) Hv CSHA256_new represents_new) as (th & Hloop & Hr).
  replace (Matrix_new (m_rows A) (m_rows A)) with (partial A B b N (λ _ _, 0)).
  - rewrite Hloop, bind_Ok, partial_full by lia. do 2 f_equal.
    unfold TranscriptHasher_Finalize, sha256d.
    rewrite (sha_Finalize_fips _ _ Hr). apply sha_Finalize_fips.
    apply (sha_Write_represents _ []), represents_new.
  - rewrite Matrix_new_mat_of by lia. unfold partial. rewrite Hdim. apply mat_of_ext; [lia|].
    intros. done.
Qed.

(** ** Properties *)

(** The blocked product with its transcript is total on square operands
    the block size divides; it returns the field product of the operands and
    the double SHA-256 of the compressed partial sums in loop order, on every
    platform. *)
Theorem canonical_matmul_product `{Platform} A B b sigma :
  blocked A B b →
  ∃ r, CanonicalMatMul A B b sigma = Ok r ∧ C_prime r = mmul A B ∧
       transcript_hash r = sha256d (word_bytes (transcript_words A B b sigma)).
Proof. intros Hb. eexists. split; [by apply CanonicalMatMul_ok|]. split; reflexivity. Qed.
