(* ===== verification/Replay.v ===== *)
(** The verifier's replay of the transcript and the product-committed digest.

    The factored compressions of [matmul/transcript.cpp] add up, word for word,
    to the transcript of the perturbed product, and the digest computed from
    the perturbed operands is the digest of their product. *)

From Stdlib Require Import ZArith Lia String.
From stdpp Require Import base list numbers tactics.
From S2P Require Import Prelude Sha256 Field Matrix Noise Transcript.
Import field noise transcript.

Open Scope Z_scope.

(** ** Clean block products *)
Definition clean_products (A B : Matrix) (b : Z) : list Matrix :=
  let N := m_rows A / b in
  ztab (N * (N * N)) (λ q, mmul (mblock A (i_of N q) (l_of N q) b) (mblock B (l_of N q) (j_of N q) b)).

Lemma blocked_in A B b i j :
  blocked A B b → 0 ≤ i < m_rows A / b → 0 ≤ j < m_rows A / b → block_in A i j b ∧ block_in B i j b.
Proof.
  intros Hbl Hi Hj. pose proof (blocked_dim _ _ _ Hbl) as Hd.
  destruct Hbl as [_ _ HsA HsB HE Hb _ _ _].
  unfold block_in. rewrite <- HsB, <- HE, <- HsA. split_and!; nia.
Qed.

Lemma blocked_nonneg A B b : blocked A B b → 0 ≤ m_rows A / b.
Proof. intros Hbl. pose proof (wf_rows _ (bl_A _ _ _ Hbl)). apply Z.div_pos; [lia|apply Hbl]. Qed.

Lemma block_mul_ok `{Platform} A B b i j ell :
  blocked A B b → 0 ≤ i < m_rows A / b → 0 ≤ j < m_rows A / b → 0 ≤ ell < m_rows A / b →
  block A i ell b = Ok (mblock A i ell b) ∧ block B ell j b = Ok (mblock B ell j b) ∧
  Matrix_mul (mblock A i ell b) (mblock B ell j b) = Ok (mmul (mblock A i ell b) (mblock B ell j b)) ∧
  wf (mmul (mblock A i ell b) (mblock B ell j b)).
Proof.
  intros Hbl Hi Hj Hl. destruct (blocked_in A B b i ell Hbl Hi Hl) as [Ha _].
  destruct (blocked_in A B b ell j Hbl Hl Hj) as [_ Hb].
  pose proof (block_bound _ _ _ _ (bl_A _ _ _ Hbl) Ha). destruct Hbl as [HA HB _ _ _ Hb0 _ _ Hbb].
  split_and!; [by apply block_ok..| |].
  - apply Matrix_mul_ok; auto with btx. simpl. nia.
  - auto with btx.
Qed.

(** Three nested loops that push one value per step. *)
Lemma push3_ok {T} N (f : Z → Z → Z → result T) g :
  0 ≤ N → (∀ i j l, 0 ≤ i < N → 0 ≤ j < N → 0 ≤ l < N → f i j l = Ok (g i j l)) →
  for_range 0 N (λ i out, for_range 0 N (λ j out, for_range 0 N (λ l out,
    x ← f i j l; Ok (out ++ [x])) out) out) []
    = Ok (ztab (N * (N * N)) (λ q, g (i_of N q) (j_of N q) (l_of N q))).
Proof.
  intros HN Hf. rewrite (for_nest3 (λ i j l out, x ← f i j l; Ok (out ++ [x]))) by done.
  apply (collect_Ok (N * (N * N)) (λ q, f (i_of N q) (j_of N q) (l_of N q))); [nia|].
  intros q Hq. destruct (index_triple N q HN Hq) as (_ & ? & ? & ?). by apply Hf.
Qed.

Lemma PrecomputeCleanBlockProducts_ok `{Platform} A B b :
  blocked A B b → PrecomputeCleanBlockProducts A B b = Ok (clean_products A B b).
Proof.
  intros Hbl. unfold PrecomputeCleanBlockProducts.
  destruct (blocked_checks A B b "clean block products require square matrices of equal size"
    "invalid transcript block size" Hbl) as [-> ->]. rewrite !bind_Ok.
  unfold clean_products. cbv zeta. rewrite <- (push3_ok (m_rows A / b) (λ i j ell, x ← block A i ell b; y ← block B ell j b; Matrix_mul x y)
    (λ i j ell, mmul (mblock A i ell b) (mblock B ell j b))).
  - do 3 (apply for_range_ext; intros ? ? ?).
    destruct (block A _ _ b); [|done]. cbn. by destruct (block B _ _ b).
  - by apply (blocked_nonneg A B).
  - intros i j l Hi Hj Hl. destruct (block_mul_ok A B b i j l Hbl Hi Hj Hl) as (-> & -> & Hm & _).
    by rewrite !bind_Ok.
Qed.

(** ** The transcript word of one block step *)
Definition block_term (A B : Matrix) (b i j ell x y : Z) : Z :=
  zsum b (λ t, mget A (i * b + x) (ell * b + t) * mget B (ell * b + t) (j * b + y)).

Lemma psum_blocks A B b l x y :
  0 < b → 0 ≤ l →
  psum A B (l * b) x y = zsum l (λ ell, zsum b (λ t, mget A x (ell * b + t) * mget B (ell * b + t) y)).
Proof. intros. unfold psum. apply zsum_blocks; lia. Qed.

Lemma cfun_psum A B b v i j ell :
  0 < b → 0 ≤ ell →
  cfun v b (λ x y, psum A B ((ell + 1) * b) (i * b + x) (j * b + y))
    = cfun v b (λ x y, psum A B (ell * b) (i * b + x) (j * b + y)) + cfun v b (block_term A B b i j ell).
Proof.
  intros Hb Hl. rewrite <- cfun_add. apply cfun_ext. intros x y _ _.
  rewrite !psum_blocks by lia. by rewrite zsum_succ.
Qed.

Lemma cfun_psum_sum A B b v i j n :
  0 < b → 0 ≤ n →
  cfun v b (λ x y, psum A B (n * b) (i * b + x) (j * b + y)) = zsum n (λ ell, cfun v b (block_term A B b i j ell)).
Proof.
  intros Hb Hn. revert n Hn. apply Z_bound_ind.
  - unfold cfun. rewrite (zsum_ext b _ (λ _, 0)), zsum_zero; [done|]. intros x _. apply zsum_zero.
  - intros n Hn IH. rewrite cfun_psum, IH, zsum_succ by done. done.
Qed.

(** Compressing the product of two blocks. *)
Lemma compress_product `{Platform} A B b v i j ell :
  blocked A B b → cvec v b →
  0 ≤ i < m_rows A / b → 0 ≤ j < m_rows A / b → 0 ≤ ell < m_rows A / b →
  CompressBlock (mmul (mblock A i ell b) (mblock B ell j b)) v
    = Ok (cfun v b (block_term A B b i j ell) mod MODULUS).
Proof.
  intros Hbl Hv Hi Hj Hl. destruct (block_mul_ok A B b i j ell Hbl Hi Hj Hl) as (_ & _ & _ & Hwf).
  rewrite (CompressBlock_ok _ v b) by done. apply mod_of_cong, cfun_cong. intros x y Hx Hy.
  unfold mmul. rewrite mget_mat_of by done. cbn [m_cols mblock mat_of].
  rewrite (cong_mod MODULUS). apply cong_eq. apply zsum_ext. intros t Ht.
  unfold mblock. by rewrite !mget_mat_of.
Qed.

(** A sum of products of sums, expanded. *)
Lemma zsum_binomial n (a e c f : Z → Z) :
  zsum n (λ t, (a t + e t) * (c t + f t)) =
  zsum n (λ t, a t * c t) + (zsum n (λ t, a t * f t) + (zsum n (λ t, e t * c t) + zsum n (λ t, e t * f t))).
Proof. rewrite <- !zsum_add. apply zsum_ext. intros. lia. Qed.

Lemma add4_mod p x1 x2 x3 x4 :
  (p + (x1 mod MODULUS + (x2 mod MODULUS + (x3 mod MODULUS + x4 mod MODULUS) mod MODULUS) mod MODULUS)
    mod MODULUS) mod MODULUS = (p + (x1 + (x2 + (x3 + x4)))) mod MODULUS.
Proof.
  change (p + (x1 mod MODULUS + (x2 mod MODULUS + (x3 mod MODULUS + x4 mod MODULUS)
    mod MODULUS) mod MODULUS) mod MODULUS ≡p p + (x1 + (x2 + (x3 + x4)))).
  by rewrite !(cong_mod MODULUS).
Qed.

(** The perturbed operand [A + L R]. *)
Definition perturb (A L R : Matrix) : Matrix := madd A (mmul L R).

Lemma mget_perturb A L R i j :
  m_rows L = m_rows A → m_cols R = m_cols A → 0 ≤ i < m_rows A → 0 ≤ j < m_cols A →
  mget (perturb A L R) i j ≡p mget A i j + zsum (m_cols L) (λ u, mget L i u * mget R u j).
Proof.
  intros EL ER Hi Hj. unfold perturb, madd. rewrite mget_mat_of by done.
  rewrite (cong_mod MODULUS). f_equiv. unfold mmul. rewrite mget_mat_of by lia. apply cong_mod.
Qed.

Section Replay.
Context `{Platform} (A B : Matrix) (np : NoisePair) (b r : Z) (v : list Z).
Hypothesis Hbl : blocked A B b.
Hypothesis Hnp : noise_ok np (m_rows A) r.
Hypothesis Hr : 0 ≤ r.
Hypothesis Hv : cvec v b.

Let N := m_rows A / b.
Let A' := perturb A (E_L np) (E_R np).
Let B' := perturb B (F_L np) (F_R np).

Lemma mget_A' i k :
  0 ≤ i < m_rows A → 0 ≤ k < m_rows A →
  mget A' i k ≡p mget A i k + zsum r (λ u, mget (E_L np) i u * mget (E_R np) u k).
Proof.
  intros Hi Hk. destruct Hnp as [(_ & H1 & <-) (_ & _ & H2) _ _]. pose proof (bl_sqA _ _ _ Hbl).
  apply mget_perturb; lia.
Qed.

Lemma mget_B' i k :
  0 ≤ i < m_rows A → 0 ≤ k < m_rows A →
  mget B' i k ≡p mget B i k + zsum r (λ u, mget (F_L np) i u * mget (F_R np) u k).
Proof.
  intros Hi Hk. destruct Hnp as [_ _ (_ & H1 & <-) (_ & _ & H2)].
  pose proof (bl_sqB _ _ _ Hbl). pose proof (bl_eq _ _ _ Hbl). apply mget_perturb; lia.
Qed.

(** The four factored compressions of a step add up to the compression of
    the perturbed block product. *)
Definition af_term (i j ell x y : Z) : Z :=
  zsum b (λ t, mget A (i * b + x) (ell * b + t) *
    zsum r (λ u, mget (F_L np) (ell * b + t) u * mget (F_R np) u (j * b + y))).
Definition eb_term (i j ell x y : Z) : Z :=
  zsum b (λ t, zsum r (λ u, mget (E_L np) (i * b + x) u * mget (E_R np) u (ell * b + t)) *
    mget B (ell * b + t) (j * b + y)).
Definition ef_term (i j ell x y : Z) : Z :=
  zsum b (λ t, zsum r (λ u, mget (E_L np) (i * b + x) u * mget (E_R np) u (ell * b + t)) *
    zsum r (λ u, mget (F_L np) (ell * b + t) u * mget (F_R np) u (j * b + y))).

Lemma block_coord i x : 0 ≤ i < N → 0 ≤ x < b → 0 ≤ i * b + x < m_rows A.
Proof. intros. rewrite (blocked_dim _ _ _ Hbl). fold N. apply index_range; lia. Qed.

Lemma block_term_split i j ell :
  0 ≤ i < N → 0 ≤ j < N → 0 ≤ ell < N →
  cfun v b (block_term A' B' b i j ell) ≡p
    cfun v b (block_term A B b i j ell) +
    (cfun v b (af_term i j ell) + (cfun v b (eb_term i j ell) + cfun v b (ef_term i j ell))).
Proof.
  intros Hi Hj Hl. rewrite <- !cfun_add. apply cfun_cong. intros x y Hx Hy.
  unfold block_term, af_term, eb_term, ef_term. rewrite <- zsum_binomial.
  apply cong_zsum. intros t Ht.
  pose proof (block_coord i x Hi Hx). pose proof (block_coord ell t Hl Ht). pose proof (block_coord j y Hj Hy).
  by rewrite mget_A', mget_B'.
Qed.

Lemma rows_view m i : wf m → m_rows m = m_rows A → m_cols m = r → 0 ≤ i < N →
  view_shows (RowBlockAllCols m i b) b r (λ x u, mget m (i * b + x) u).
Proof.
  intros Hm HR HC Hi. pose proof (bl_b _ _ _ Hbl). pose proof (blocked_dim _ _ _ Hbl) as Hd. fold N in Hd.
  pose proof (view_window m (i * b) 0 b r Hm ltac:(nia) ltac:(lia) ltac:(lia) ltac:(lia) ltac:(nia) ltac:(lia)) as Hw.
  unfold RowBlockAllCols. rewrite Z.add_0_r, HC in Hw. by rewrite HC.
Qed.

Lemma cols_view m j : wf m → m_rows m = r → m_cols m = m_rows A → 0 ≤ j < N →
  view_shows (AllRowsColBlock m j b) r b (λ u y, mget m u (j * b + y)).
Proof.
  intros Hm HR HC Hj. pose proof (bl_b _ _ _ Hbl). pose proof (blocked_dim _ _ _ Hbl) as Hd. fold N in Hd.
  pose proof (view_window m 0 (j * b) r b Hm ltac:(lia) ltac:(nia) ltac:(lia) ltac:(lia) ltac:(lia) ltac:(nia)) as Hw.
  unfold AllRowsColBlock. rewrite Z.mul_0_l, Z.add_0_l in Hw. by rewrite HR.
Qed.

(** The running prefix before step [ell] of block [(i, j)]. *)
Definition prefix (i j ell : Z) : Z :=
  cfun v b (λ x y, psum A' B' (ell * b) (i * b + x) (j * b + y)) mod MODULUS.

Lemma prefix_succ i j ell :
  0 ≤ i < N → 0 ≤ j < N → 0 ≤ ell < N →
  (prefix i j ell + (cfun v b (block_term A B b i j ell) +
    (cfun v b (af_term i j ell) + (cfun v b (eb_term i j ell) + cfun v b (ef_term i j ell))))) mod MODULUS
    = prefix i j (ell + 1).
Proof.
  intros Hi Hj Hl. unfold prefix at 2. rewrite cfun_psum by (try apply Hbl; lia).
  change (prefix i j ell + (cfun v b (block_term A B b i j ell) +
    (cfun v b (af_term i j ell) + (cfun v b (eb_term i j ell) + cfun v b (ef_term i j ell))))
    ≡p cfun v b (λ x y, psum A' B' (ell * b) (i * b + x) (j * b + y)) + cfun v b (block_term A' B' b i j ell)).
  rewrite (block_term_split i j ell) by done. unfold prefix. by rewrite (cong_mod MODULUS).
Qed.

Lemma clean_word i j ell :
  0 ≤ i < N → 0 ≤ j < N → 0 ≤ ell < N →
  ∃ m, vget (clean_products A B b) (BlockProductIndex i j ell N) = Ok m ∧
       CompressBlock m v = Ok (cfun v b (block_term A B b i j ell) mod MODULUS).
Proof.
  intros Hi Hj Hl. exists (mmul (mblock A i ell b) (mblock B ell j b)).
  destruct (block_mul_ok A B b i j ell Hbl Hi Hj Hl) as (_ & _ & _ & Hwf). split.
  - unfold clean_products, BlockProductIndex. fold N. cbv zeta.
    pose proof (index_range i j N N Hi Hj).
    pose proof (index_range (i * N + j) ell (N * N) N ltac:(lia) Hl).
    rewrite vget_ztab by lia. f_equal.
    replace ((i * N + j) * N + ell) with (i * (N * N) + (j * N + ell)) by lia.
    pose proof (index_range j ell N N Hj Hl).
    unfold i_of, j_of, l_of. by rewrite !index_div, !index_mod, index_div by lia.
  - by apply compress_product.
Qed.

Lemma replay_step_ok i j ell h msg :
  0 ≤ i < N → 0 ≤ j < N → 0 ≤ ell < N → represents h msg →
  ∃ h', replay_step A B (clean_products A B b) np b N v
      (RowBlockAllCols (E_L np) i b) (AllRowsColBlock (F_R np) j b) i j ell (prefix i j ell, h)
      = Ok (prefix i j (ell + 1), h') ∧ represents h' (msg ++ WriteLE32 (prefix i j (ell + 1))).
Proof.
  intros Hi Hj Hl Hh. unfold replay_step.
  destruct (clean_word i j ell Hi Hj Hl) as (m & -> & Hm). rewrite bind_Ok, Hm, bind_Ok.
  destruct (blocked_in A B b i ell Hbl Hi Hl) as [Ha _].
  destruct (blocked_in A B b ell j Hbl Hl Hj) as [_ Hb].
  destruct (block_view_ok A i ell b (bl_A _ _ _ Hbl) Ha) as (va & -> & _ & Hva).
  destruct (block_view_ok B ell j b (bl_B _ _ _ Hbl) Hb) as (vb & -> & _ & Hvb). rewrite !bind_Ok.
  destruct Hnp as [(We & Er & Ec) (Wr & Rr & Rc) (Wf & Fr & Fc) (Wg & Gr & Gc)].
  pose proof (rows_view _ i We Er Ec Hi) as Hel. pose proof (cols_view _ ell Wr Rr Rc Hl) as Her.
  pose proof (rows_view _ ell Wf Fr Fc Hl) as Hfl. pose proof (cols_view _ j Wg Gr Gc Hj) as Hfr.
  rewrite (CompressAfBlock_ok _ _ _ v b r _ _ _ Hr Hv Hva Hfl Hfr), bind_Ok.
  rewrite (CompressEbBlock_ok _ _ _ v b r _ _ _ Hr Hv Hel Her Hvb), bind_Ok.
  rewrite (CompressEfBlock_ok _ _ _ _ v b r _ _ _ _ Hr Hv Hel Her Hfl Hfr), bind_Ok.
  fold (af_term i j ell) (eb_term i j ell) (ef_term i j ell).
  rewrite !add_mod, !bind_Ok by auto with btx.
  rewrite add_mod, !bind_Ok by auto with btx.
  rewrite add_mod, !bind_Ok by auto with btx.
  rewrite add_mod, !bind_Ok by (unfold prefix; auto with btx).
  exists (CHash256_Write h (WriteLE32 (prefix i j (ell + 1)))).
  split; [|by apply sha_Write_represents].
  rewrite <- prefix_succ by done.
  by rewrite add4_mod.
Qed.

(** The words of the first [count] steps of the perturbed product. *)
Let ws (count : Z) : list Z := words A' B' b N v count.

Lemma ws_succ i j ell :
  0 ≤ i < N → 0 ≤ j < N → 0 ≤ ell < N →
  word_bytes (ws ((i * N + j) * N + (ell + 1)))
    = word_bytes (ws ((i * N + j) * N + ell)) ++ WriteLE32 (prefix i j (ell + 1)).
Proof.
  intros Hi Hj Hl. unfold ws, words. rewrite Z.add_assoc, ztab_succ by nia.
  rewrite word_bytes_snoc. do 2 f_equal.
  replace ((i * N + j) * N + ell) with (i * (N * N) + (j * N + ell)) by lia.
  pose proof (index_range j ell N N Hj Hl).
  unfold i_of, j_of, l_of. by rewrite !index_div, !index_mod, index_div by lia.
Qed.

Lemma prefix_0 i j : prefix i j 0 = 0.
Proof.
  unfold prefix. rewrite (cfun_ext v b _ (λ _ _, 0)) by done.
  unfold cfun. rewrite (zsum_ext b _ (λ _, 0)), zsum_zero; [done|]. intros x _. apply zsum_zero.
Qed.

Lemma replay_row_ok i j h :
  0 ≤ i < N → 0 ≤ j < N → represents h (word_bytes (ws ((i * N + j) * N))) →
  ∃ h', ('(_, h) ← for_range 0 N (λ ell st, replay_step A B (clean_products A B b) np b N v
      (RowBlockAllCols (E_L np) i b) (AllRowsColBlock (F_R np) j b) i j ell st) (0, h); Ok h) = Ok h' ∧
    represents h' (word_bytes (ws ((i * N + (j + 1)) * N))).
Proof.
  intros Hi Hj Hh.
  set (I := λ ell (st : Z * CSHA256), fst st = prefix i j ell ∧
    represents (snd st) (word_bytes (ws ((i * N + j) * N + ell)))).
  destruct (for_range_inv I (λ ell st, replay_step A B (clean_products A B b) np b N v
      (RowBlockAllCols (E_L np) i b) (AllRowsColBlock (F_R np) j b) i j ell st) 0 N (0, h))
    as ([p h'] & -> & [_ HI]).
  - lia.
  - split; cbn [fst snd]; [by rewrite prefix_0|by rewrite Z.add_0_r].
  - intros ell [p h'] Hl [Hp Hr']. cbn [fst snd] in *. subst p.
    destruct (replay_step_ok i j ell h' _ Hi Hj Hl Hr') as (h'' & -> & Hr'').
    eexists; split; [done|]. split; [done|]. cbn [snd]. by rewrite ws_succ.
  - rewrite bind_Ok. exists h'. split; [done|]. cbn [snd] in HI.
    by replace ((i * N + (j + 1)) * N) with ((i * N + j) * N + N) by lia.
Qed.

Lemma replay_loop_ok :
  ∃ h, for_range 0 N (λ i h, for_range 0 N (λ j h,
    '(_, h) ← for_range 0 N (λ ell st, replay_step A B (clean_products A B b) np b N v
      (RowBlockAllCols (E_L np) i b) (AllRowsColBlock (F_R np) j b) i j ell st) (0, h); Ok h) h)
    CHash256_new = Ok h ∧ represents h (word_bytes (ws (N * (N * N)))).
Proof.
  pose proof (blocked_nonneg _ _ _ Hbl) as HN. fold N in HN.
  destruct (for_range_inv (λ i h, represents h (word_bytes (ws ((i * N + 0) * N))))
    (λ i h, for_range 0 N (λ j h,
    '(_, h) ← for_range 0 N (λ ell st, replay_step A B (clean_products A B b) np b N v
      (RowBlockAllCols (E_L np) i b) (AllRowsColBlock (F_R np) j b) i j ell st) (0, h); Ok h) h)
    0 N CHash256_new) as (h & -> & Hh); [done|exact represents_new| |].
  - intros i h Hi Hh.
    destruct (for_range_inv (λ j h, represents h (word_bytes (ws ((i * N + j) * N)))) (λ j h,
      '(_, h) ← for_range 0 N (λ ell st, replay_step A B (clean_products A B b) np b N v
        (RowBlockAllCols (E_L np) i b) (AllRowsColBlock (F_R np) j b) i j ell st) (0, h); Ok h)
      0 N h) as (h' & -> & Hh'); [done|done| |].
    + intros j h0 Hj Hh0. by apply replay_row_ok.
    + exists h'. split; [done|]. by replace ((i + 1) * N + 0) with (i * N + N) by lia.
  - exists h. split; [done|]. by replace (N * (N * N)) with ((N * N + 0) * N) by lia.
Qed.
End Replay.

Lemma noise_dims_passed np n r : noise_ok np n r → noise_dims_ok np n = true.
Proof.
  intros [(_ & H1 & H2) (_ & H3 & H4) (_ & H5 & H6) (_ & H7 & H8)]. unfold noise_dims_ok.
  rewrite H1, H2, H3, H4, H5, H6, H7, H8, !Z.eqb_refl. done.
Qed.

(** The replay hashes exactly the words of the perturbed product. *)
Lemma replay_words `{Platform} A B np b r sigma :
  blocked A B b → noise_ok np (m_rows A) r → 0 ≤ r →
  ReplayCanonicalHashWithReusableCleanProducts A B (clean_products A B b) np b sigma
    = Ok (sha256d (word_bytes (words (perturb A (E_L np) (E_R np)) (perturb B (F_L np) (F_R np)) b
        (m_rows A / b) (compress_vec sigma b) (m_rows A / b * (m_rows A / b * (m_rows A / b)))))).
Proof.
  intros Hbl Hnp Hr. unfold ReplayCanonicalHashWithReusableCleanProducts.
  destruct (blocked_checks A B b "replay requires square matrices of equal size"
    "invalid transcript block size" Hbl) as [-> ->]. rewrite !bind_Ok.
  pose proof (blocked_nonneg _ _ _ Hbl) as HN.
  rewrite (noise_dims_passed _ _ _ Hnp). 
  rewrite (proj2 (Z.eqb_eq (zlen (clean_products A B b)) (m_rows A / b * (m_rows A / b) * (m_rows A / b))))
    by (unfold clean_products; cbv zeta; rewrite zlen_ztab; nia).
  cbn [negb throw_if]. rewrite !bind_Ok.
  pose proof Hbl as [_ _ _ _ _ Hb _ _ Hbb]. rewrite DeriveCompressionVector_ok, bind_Ok by lia.
  destruct (replay_loop_ok A B np b r (compress_vec sigma b) Hbl Hnp Hr (cvec_compress_vec _ _ Hb Hbb))
    as (h & Hloop & Hh).
  cbv zeta. rewrite Hloop, bind_Ok. by rewrite (CHash256_Finalize_fips _ _ Hh).
Qed.

(** Perturbing keeps the operands blocked. *)
Lemma blocked_perturb A B np b r :
  blocked A B b → noise_ok np (m_rows A) r →
  blocked (perturb A (E_L np) (E_R np)) (perturb B (F_L np) (F_R np)) b.
Proof. intros [HA HB H1 H2 H3 H4 H5 H6 H7] _. split; try done; by apply wf_madd. Qed.

Lemma replay_canonical `{Platform} A B np b r sigma clean res :
  blocked A B b → noise_ok np (m_rows A) r → 0 ≤ r →
  PrecomputeCleanBlockProducts A B b = Ok clean →
  CanonicalMatMul (perturb A (E_L np) (E_R np)) (perturb B (F_L np) (F_R np)) b sigma = Ok res →
  ReplayCanonicalHashWithReusableCleanProducts A B clean np b sigma = Ok (transcript_hash res).
Proof.
  intros Hbl Hnp Hr. rewrite PrecomputeCleanBlockProducts_ok by done. intros [= <-].
  rewrite CanonicalMatMul_ok by (by apply (blocked_perturb A B np b r)). intros [= <-].
  cbn [transcript_hash]. rewrite (replay_words A B np b r sigma) by done. done.
Qed.

(** ** The product-committed digest *)
Lemma push_blocks_ok N word g :
  0 ≤ N → (∀ i j, 0 ≤ i < N → 0 ≤ j < N → word i j = Ok (g i j)) →
  push_blocks N word = Ok (ztab (N * N) (λ k, g (k / N) (k mod N))).
Proof.
  intros HN Hw. unfold push_blocks. rewrite (for_nest (λ i j out, w ← word i j; Ok (out ++ [w]))) by done.
  apply (collect_Ok (N * N) (λ k, word (k / N) (k mod N))); [nia|].
  intros k Hk. destruct (index_split k N N Hk HN) as (_ & ? & ?). by apply Hw.
Qed.

(** The words of a product: the compression of each of its blocks. *)
Definition product_words (C : Matrix) (b : Z) (sigma : list Z) : list Z :=
  let N := m_rows C / b in
  ztab (N * N) (λ k, cfun (compress_vec sigma b) b (λ x y, mget C (k / N * b + x) (k mod N * b + y)) mod MODULUS).

Lemma HashMatrixWords_ok words : HashMatrixWords words = sha256d (word_bytes words).
Proof.
  unfold HashMatrixWords. destruct words as [|w words]; apply CHash256_Finalize_fips.
  - exact represents_new.
  - apply (sha_Write_represents _ []), represents_new.
Qed.

Lemma Ok_eq {T} (x y : T) : x = y → Ok x = Ok y.
Proof. by intros ->. Qed.

(** The committed digest of a list of words. *)
Definition committed_digest (ws sigma : list Z) (dim b : Z) : list Z :=
  sha256d (PRODUCT_DIGEST_TAG ++ sigma ++ sha256d (word_bytes ws) ++ WriteLE32 dim ++ WriteLE32 b).

Lemma digest_from_words_ok ws sigma dim b :
  0 < dim → 0 < b → dim mod b = 0 → zlen ws = dim / b * (dim / b) →
  ComputeProductCommittedDigestFromWords ws sigma dim b = Ok (committed_digest ws sigma dim b).
Proof.
  intros Hd Hb Hm Hl. unfold ComputeProductCommittedDigestFromWords, FinalizeProductCommittedDigestFromHash.
  rewrite Hm, Hl, Z.eqb_refl, (proj2 (Z.eqb_neq dim 0)), (proj2 (Z.eqb_neq b 0)) by lia.
  change (negb (0 =? 0)) with false.
  cbn [orb negb throw_if]. rewrite !bind_Ok. cbv zeta. rewrite Z.eqb_refl. cbn [negb throw_if]. rewrite bind_Ok.
  rewrite HashMatrixWords_ok. apply Ok_eq. apply sha_Finalize_twice.
  rewrite !app_assoc. do 4 apply sha_Write_represents. apply (sha_Write_represents _ []), represents_new.
Qed.

Definition square (C : Matrix) (b : Z) : Prop := blocked C C b ∧ 0 < m_rows C.

Lemma ComputeProductCommittedDigest_ok `{Platform} C b sigma :
  square C b →
  ComputeProductCommittedDigest C b sigma = Ok (committed_digest (product_words C b sigma) sigma (m_rows C) b).
Proof.
  intros [Hbl Hpos]. unfold ComputeProductCommittedDigest.
  destruct (blocked_checks C C b ""
    "product-committed digest requires valid transcript block size" Hbl) as [_ ->].
  pose proof Hbl as [HC _ Hsq _ _ Hb Hm _ Hbb]. rewrite (proj2 (Z.eqb_eq _ _) Hsq).
  cbn [negb throw_if]. rewrite !bind_Ok, DeriveCompressionVector_ok, bind_Ok by lia.
  pose proof (blocked_nonneg _ _ _ Hbl) as HN.
  rewrite (push_blocks_ok _ _ (λ i j, cfun (compress_vec sigma b) b (λ x y, mget C (i * b + x) (j * b + y)) mod MODULUS)).
  - rewrite bind_Ok. apply digest_from_words_ok; [done..|]. apply zlen_ztab. nia.
  - done.
  - intros i j Hi Hj. destruct (blocked_in C C b i j Hbl Hi Hj) as [Hin _].
    destruct (block_view_ok C i j b HC Hin) as (bv & -> & Hst & Hbv). rewrite bind_Ok.
    apply CompressBlockView_ok; [done| |by apply cvec_compress_vec].
    rewrite Hst. destruct (wf_cols _ HC). lia.
Qed.

Lemma product_digest_ok `{Platform} A B b sigma :
  blocked A B b → 0 < m_rows A →
  ComputeProductCommittedDigestFromPerturbed A B b sigma
    = Ok (committed_digest (product_words (mmul A B) b sigma) sigma (m_rows A) b).
Proof.
  intros Hbl Hpos. unfold ComputeProductCommittedDigestFromPerturbed.
  destruct (blocked_checks A B b "product-committed digest requires square matrices of equal size"
    "product-committed digest requires valid transcript block size" Hbl) as [-> ->].
  pose proof Hbl as [HA HB HsA HsB HE Hb Hm _ Hbb]. pose proof (blocked_nonneg _ _ _ Hbl) as HN.
  rewrite !bind_Ok, DeriveCompressionVector_ok, bind_Ok by lia.
  set (v := compress_vec sigma b). pose proof (cvec_compress_vec sigma b Hb Hbb) as Hv. fold v in Hv.
  rewrite (push_blocks_ok _ _ (λ i j, cfun v b (λ x y, mget (mmul A B) (i * b + x) (j * b + y)) mod MODULUS)).
  - rewrite bind_Ok. unfold product_words. cbn [m_rows mmul mat_of].
    apply digest_from_words_ok; [done..|]. apply zlen_ztab. nia.
  - done.
  - intros i j Hi Hj.
    destruct (for_range_sum (λ ell, cfun v b (block_term A B b i j ell))
      (λ ell acc, x ← block A i ell b; y ← block B ell j b; product ← Matrix_mul x y;
        c ← CompressBlock product v; add acc c)
      (λ s acc, acc = s mod MODULUS) (m_rows A / b) 0) as (s & -> & ->); [done|done| |].
    + intros ell s Hl ->. destruct (block_mul_ok A B b i j ell Hbl Hi Hj Hl) as (-> & -> & Hmul & Hwf).
      rewrite !bind_Ok, Hmul, bind_Ok, compress_product, bind_Ok by done.
      rewrite add_mod by auto with btx. eexists; split; [done|]. by rewrite <- Zplus_mod.
    + rewrite <- cfun_psum_sum by done. apply mod_of_cong, cfun_cong. intros x y Hx Hy.
      pose proof (blocked_dim _ _ _ Hbl) as Hd. set (N := m_rows A / b) in *.
      pose proof (index_range i x N b Hi Hx). pose proof (index_range j y N b Hj Hy).
      unfold mmul. rewrite mget_mat_of by lia. rewrite (cong_mod MODULUS). apply cong_eq.
      unfold psum. by rewrite <- Hd, HsA.
Qed.

(** Committing to the product costs the verifier no product: the digest
    computed block by block from the operands is the digest of the product. *)
Lemma product_digest_agree `{Platform} A B b sigma :
  blocked A B b → 0 < m_rows A →
  ComputeProductCommittedDigestFromPerturbed A B b sigma = ComputeProductCommittedDigest (mmul A B) b sigma.
Proof.
  intros Hbl Hpos. rewrite product_digest_ok by done.
  assert (square (mmul A B) b) as Hsq.
  { destruct Hbl as [HA HB HsA HsB HE Hb Hm Hn Hbb]. split; [|done]. split; try done; auto with btx.
    all: cbn [m_rows m_cols mmul mat_of]; congruence. }
  by rewrite ComputeProductCommittedDigest_ok.
Qed.

(** ** Properties *)

(** C31: replaying a nonce on the precomputed clean block products yields the
    transcript hash of the full product of the perturbed operands, for every
    noise pair of the right shape; and the product digest computed block by
    block from the operands is the digest of their product. *)
Theorem replay_equals_canonical `{Platform} A B np b r sigma :
  blocked A B b → noise_ok np (m_rows A) r → 0 ≤ r →
  ∃ clean res, PrecomputeCleanBlockProducts A B b = Ok clean ∧
    CanonicalMatMul (perturb A (E_L np) (E_R np)) (perturb B (F_L np) (F_R np)) b sigma = Ok res ∧
    ReplayCanonicalHashWithReusableCleanProducts A B clean np b sigma = Ok (transcript_hash res) ∧
    (0 < m_rows A → ComputeProductCommittedDigestFromPerturbed A B b sigma = ComputeProductCommittedDigest (mmul A B) b sigma).
Proof.
  intros Hb Hnp Hr. pose proof (PrecomputeCleanBlockProducts_ok A B b Hb) as E1.
  pose proof (CanonicalMatMul_ok _ _ b sigma (blocked_perturb A B np b r Hb Hnp)) as E2.
  eexists _, _. split; [exact E1|]. split; [exact E2|]. split; [exact (replay_canonical A B np b r sigma _ _ Hb Hnp Hr E1 E2)|].
  exact (product_digest_agree A B b sigma Hb).
Qed.
