(* ===== verification/Multiply.v ===== *)
(** The tiled, multi-threaded product.

    [MultiplyBlocked] of [matmul/matrix.cpp] splits the rows of the product
    into tiles, hands contiguous runs of tiles to worker threads and
    accumulates every cell in place.  Each worker is modelled by the sequence
    of in-place updates it performs, so that a run of the threads is an
    interleaving of those sequences. *)

From Stdlib Require Import ZArith Lia String.
From stdpp Require Import base list numbers tactics.
From S2P Require Import Prelude Sha256 Field Matrix.
Import field.

Open Scope Z_scope.

Module blocked.

Definition row_tile_count (rows tile_size : Z) : Z := u32 (u32 (rows + tile_size) - 1) / tile_size.

Definition kParallelMinMulOps : Z := 4000000.

Definition ResolveBlockedMultiplyWorkerCount `{Platform} (rows cols shared_dim tile_size : Z) : Z :=
  let row_tiles := row_tile_count rows tile_size in
  if row_tiles <=? 1 then 1
  else match blocked_multiply_threads with
  | Some parsed =>
      if parsed <=? 1 then 1
      else ClampSolveWorkerThreads (Z.min row_tiles (u32 (Z.min parsed (2 ^ 32 - 1))))
  | None =>
      let hw_threads := Z.max 1 hardware_concurrency in
      if hw_threads <=? 1 then 1
      else if u64 (u64 (rows * cols) * shared_dim) <? kParallelMinMulOps then 1
      else ClampSolveWorkerThreads (Z.min row_tiles hw_threads)
  end.

(** [for (kk = 0; kk < limit; kk += tile_size)] with
    [k_end = min(kk + tile_size, limit)]: the tiles visited. *)
Fixpoint tiles (fuel : nat) (kk limit tile_size : Z) : result (list (Z * Z)) :=
  match fuel with
  | O => Err EFuel
  | S fuel =>
      if kk <? limit then
        rest ← tiles fuel (u32 (kk + tile_size)) limit tile_size;
        Ok ((kk, Z.min (u32 (kk + tile_size)) limit) :: rest)
      else Ok []
  end.

(** [for (i = lo; i < hi; ++i)] *)
Definition range (lo hi : Z) : list Z := seqZ lo (hi - lo).

(** The in-place updates [(i, k, j)] of [process_row_tile_span] in program
    order. *)
Definition span_updates (lhs_rows lhs_cols rhs_cols tile_size : Z) (span : Z * Z) :
    result (list (Z * Z * Z)) :=
  k_tiles ← tiles (S (Z.to_nat lhs_cols)) 0 lhs_cols tile_size;
  j_tiles ← tiles (S (Z.to_nat rhs_cols)) 0 rhs_cols tile_size;
  Ok (range (fst span) (snd span) ≫= λ tile,
    let ii := u32 (tile * tile_size) in
    let i_end := Z.min (u32 (ii + tile_size)) lhs_rows in
    k_tiles ≫= λ '(kk, k_end),
    j_tiles ≫= λ '(jj, j_end),
    range ii i_end ≫= λ i,
    range kk k_end ≫= λ k,
    (λ j, (i, k, j)) <$> range jj j_end).

(** [out_data[out_idx] = add(out_data[out_idx], mul(a_ik, rhs_row[j]))] *)
Definition update (lhs rhs : Matrix) (u : Z * Z * Z) (out : list Z) : result (list Z) :=
  let '(i, k, j) := u in
  a_ik ← vget (m_data lhs) (i * m_cols lhs + k);
  b_kj ← vget (m_data rhs) (k * m_cols rhs + j);
  let out_idx := i * m_cols rhs + j in
  o ← vget out out_idx;
  p ← mul a_ik b_kj;
  s ← add o p;
  vset out out_idx s.

(** The tile spans handed to the workers. *)
Fixpoint worker_spans (n : nat) (worker tiles_per_worker row_tiles : Z) : list (Z * Z) :=
  match n with
  | O => []
  | S n =>
      let tile_begin := u32 (worker * tiles_per_worker) in
      if row_tiles <=? tile_begin then []
      else (tile_begin, Z.min (u32 (tile_begin + tiles_per_worker)) row_tiles)
             :: worker_spans n (worker + 1) tiles_per_worker row_tiles
  end.

(** One update sequence per thread. *)
Definition multiply_traces `{Platform} (lhs rhs : Matrix) (tile_size : Z) :
    result (list (list (Z * Z * Z))) :=
  _ ← throw_if (tile_size =? 0) "matrix multiply tile size must be non-zero";
  _ ← throw_if (negb (m_cols lhs =? m_rows rhs)) "matrix multiply dimension mismatch";
  let row_tiles := row_tile_count (m_rows lhs) tile_size in
  let worker_count := ResolveBlockedMultiplyWorkerCount (m_rows lhs) (m_cols rhs) (m_cols lhs) tile_size in
  let spans :=
    if worker_count <=? 1 then [(0, row_tiles)]
    else worker_spans (Z.to_nat worker_count) 0
           (u32 (u32 (row_tiles + worker_count) - 1) / worker_count) row_tiles in
  mfold (λ sp acc, t ← span_updates (m_rows lhs) (m_cols lhs) (m_cols rhs) tile_size sp; Ok (acc ++ [t]))
    spans [].

(** The product when the updates happen in the order [schedule]. *)
Definition multiply_scheduled (lhs rhs : Matrix) (schedule : list (Z * Z * Z)) : result Matrix :=
  out ← mfold (update lhs rhs) schedule (replicate (Z.to_nat (m_rows lhs * m_cols rhs)) 0);
  Ok (mkMatrix (m_rows lhs) (m_cols rhs) out).

(** The product when each thread runs to completion before the next. *)
Definition MultiplyBlocked `{Platform} (lhs rhs : Matrix) (tile_size : Z) : result Matrix :=
  traces ← multiply_traces lhs rhs tile_size;
  multiply_scheduled lhs rhs (concat traces).

End blocked.
Import blocked.

(** ** Sums over lists *)
Definition lsum {T} (F : T → Z) (l : list T) : Z := foldr (λ x s, F x + s) 0 l.

Lemma lsum_app {T} (F : T → Z) l1 l2 : lsum F (l1 ++ l2) = lsum F l1 + lsum F l2.
Proof. induction l1 as [|x l1 IH]; simpl; [done|]. rewrite IH. lia. Qed.

#[export] Instance lsum_Permutation {T} (F : T → Z) : Proper ((≡ₚ) ==> (=)) (lsum F).
Proof. intros l1 l2 H. induction H; simpl; lia. Qed.

Lemma lsum_ext {T} (F G : T → Z) l : (∀ x, x ∈ l → F x = G x) → lsum F l = lsum G l.
Proof.
  induction l as [|x l IH]; intros H; simpl; [done|].
  rewrite H by left. rewrite IH; [done|]. intros y Hy. apply H. by right.
Qed.

Lemma lsum_bind {A B} (F : B → Z) (g : A → list B) l :
  lsum F (l ≫= g) = lsum (λ x, lsum F (g x)) l.
Proof.
  induction l as [|x l IH]; [done|]. cbn [mbind list_bind]. rewrite lsum_app.
  simpl. by rewrite <- IH.
Qed.

Lemma lsum_fmap {A B} (F : B → Z) (g : A → B) l : lsum F (g <$> l) = lsum (λ x, F (g x)) l.
Proof. induction l as [|x l IH]; simpl; [done|]. f_equal. exact IH. Qed.

Lemma lsum_add {A} (F G : A → Z) l : lsum (λ x, F x + G x) l = lsum F l + lsum G l.
Proof. induction l as [|x l IH]; simpl; [done|]. rewrite IH. lia. Qed.

Lemma lsum_0 {A} (l : list A) : lsum (λ _, 0) l = 0.
Proof. induction l; simpl; lia. Qed.

Lemma lsum_swap {A B} (F : A → B → Z) l1 l2 :
  lsum (λ x, lsum (F x) l2) l1 = lsum (λ y, lsum (λ x, F x y) l1) l2.
Proof.
  induction l1 as [|x l1 IH]; simpl; [by rewrite lsum_0|]. by rewrite IH, lsum_add.
Qed.

(** The innermost sum moved outwards. *)
Lemma lsum3_swap {A B T} (F : T → A → B → Z) ks js rs :
  lsum (λ k, lsum (λ j, lsum (λ i, F i k j) rs) js) ks = lsum (λ i, lsum (λ k, lsum (F i k) js) ks) rs.
Proof.
  transitivity (lsum (λ k, lsum (λ i, lsum (F i k) js) rs) ks); [|apply lsum_swap].
  apply lsum_ext. intros k _. symmetry. apply lsum_swap.
Qed.

Lemma lsum_zsum F n : 0 ≤ n → lsum F (range 0 n) = zsum n F.
Proof.
  revert n. apply Z_bound_ind; [done|]. intros n Hn IH. rewrite zsum_succ, <- IH by done.
  unfold range. rewrite !Z.sub_0_r, seqZ_app, lsum_app by lia. simpl. by rewrite Z.add_0_r.
Qed.

Lemma range_split lo mid hi : lo ≤ mid ≤ hi → range lo hi = range lo mid ++ range mid hi.
Proof.
  intros. unfold range. replace (hi - lo) with ((mid - lo) + (hi - mid)) by lia.
  rewrite seqZ_app by lia. do 2 f_equal. lia.
Qed.

Lemma range_empty lo hi : hi ≤ lo → range lo hi = [].
Proof. intros. unfold range. apply seqZ_nil. lia. Qed.

Lemma elem_of_range x lo hi : x ∈ range lo hi ↔ lo ≤ x < hi.
Proof. unfold range. rewrite elem_of_seqZ. lia. Qed.

(** ** The updates of one span *)
Lemma tiles_ok fuel kk limit tile_size :
  0 < tile_size → 0 ≤ kk → limit + tile_size < 2 ^ 32 → Z.max 0 (limit - kk) < Z.of_nat fuel →
  ∃ ts, tiles fuel kk limit tile_size = Ok ts ∧
    (∀ g, lsum (λ '(s, e), lsum g (range s e)) ts = lsum g (range kk limit)) ∧
    ∀ s e, (s, e) ∈ ts → 0 ≤ s ∧ e ≤ limit.
Proof.
  intros Ht. revert kk. induction fuel as [|fuel IH]; intros kk Hk Hlim Hf; [lia|]. simpl.
  destruct (Z.ltb_spec kk limit) as [Hlt|Hge].
  - rewrite u32_small by lia.
    destruct (IH (kk + tile_size)) as (ts & -> & Hsum & Hin); [lia..|]. rewrite bind_Ok.
    eexists; split; [done|]. split.
    + intros g. simpl. rewrite Hsum.
      destruct (Z.min_spec (kk + tile_size) limit) as [[? ->]|[? ->]].
      * by rewrite (range_split kk (kk + tile_size) limit), lsum_app by lia.
      * rewrite (range_empty (kk + tile_size)) by lia. simpl. lia.
    + intros s e [[= -> ->]|He]%elem_of_cons; [lia|by apply Hin].
  - eexists; split; [done|]. split.
    + intros g. by rewrite range_empty.
    + intros s e He. by apply not_elem_of_nil in He.
Qed.

Lemma lsum_pairs {T} (F : Z → Z → list T) (G : T → Z) (ts : list (Z * Z)) :
  lsum G (ts ≫= λ '(s, e), F s e) = lsum (λ '(s, e), lsum G (F s e)) ts.
Proof. rewrite lsum_bind. apply lsum_ext. by intros [s e] _. Qed.

(** The rows of a run of tiles. *)
Definition tile_rows (rows tile_size : Z) (span : Z * Z) : list Z :=
  range (fst span * tile_size) (Z.min (snd span * tile_size) rows).

Lemma tile_rows_sum rows tile_size tb te g :
  0 < tile_size → 0 ≤ tb ≤ te → te * tile_size < rows + tile_size → rows + tile_size < 2 ^ 32 →
  lsum (λ tile, lsum g (range (u32 (tile * tile_size))
      (Z.min (u32 (u32 (tile * tile_size) + tile_size)) rows))) (range tb te)
    = lsum g (tile_rows rows tile_size (tb, te)).
Proof.
  intros Ht Hb He Hw. unfold tile_rows. cbn [fst snd].
  assert (∃ n, te = tb + n ∧ 0 ≤ n) as (n & -> & Hn) by (exists (te - tb); lia).
  revert Hb He. revert n Hn. apply (Z_bound_ind (λ n, 0 ≤ tb ≤ tb + n → (tb + n) * tile_size < rows + tile_size →
    lsum (λ tile, lsum g (range (u32 (tile * tile_size))
      (Z.min (u32 (u32 (tile * tile_size) + tile_size)) rows))) (range tb (tb + n))
    = lsum g (range (tb * tile_size) (Z.min ((tb + n) * tile_size) rows)))).
  - intros _ _. rewrite !range_empty by lia. done.
  - intros n Hn IH Hb He. rewrite (range_split tb (tb + n)), lsum_app, IH by nia.
    replace (range (tb + n) (tb + (n + 1))) with [tb + n]
      by (unfold range; by replace (tb + (n + 1) - (tb + n)) with 1 by lia).
    cbn [lsum foldr]. assert (0 ≤ (tb + n) * tile_size) by nia.
    rewrite (u32_small ((tb + n) * tile_size)), u32_small by nia.
    rewrite Z.add_0_r, (Z.min_l ((tb + n) * tile_size) rows) by nia. rewrite <- lsum_app, <- range_split by nia.
    do 2 f_equal. lia.
Qed.

Section Updates.
Context (lhs rhs : Matrix) (tile_size : Z).
Hypothesis Hl : wf lhs.
Hypothesis Hr : wf rhs.
Hypothesis Hdim : m_cols lhs = m_rows rhs.
Hypothesis Ht : 0 < tile_size.
Hypothesis Hrows : m_rows lhs + tile_size < 2 ^ 32.
Hypothesis Hcols : m_cols lhs + tile_size < 2 ^ 32.
Hypothesis Hrc : m_cols rhs + tile_size < 2 ^ 32.

Let R := m_rows lhs.
Let K := m_cols lhs.
Let C := m_cols rhs.

Lemma dims_nonneg : 0 ≤ R ∧ 0 ≤ K ∧ 0 ≤ C.
Proof. unfold R, K, C. pose proof (wf_rows _ Hl). pose proof (wf_cols _ Hl). pose proof (wf_cols _ Hr). lia. Qed.

(** A span performs every [(i, k, j)] of its rows exactly once, in some
    order. *)
Lemma span_updates_ok tb te :
  0 ≤ tb ≤ te → te * tile_size < R + tile_size →
  ∃ us, span_updates R K C tile_size (tb, te) = Ok us ∧
    (∀ F, lsum F us = lsum (λ i, lsum (λ k, lsum (λ j, F (i, k, j)) (range 0 C)) (range 0 K))
                        (tile_rows R tile_size (tb, te))) ∧
    ∀ i k j, (i, k, j) ∈ us → 0 ≤ i < R ∧ 0 ≤ k < K ∧ 0 ≤ j < C ∧ tb * tile_size ≤ i < te * tile_size.
Proof.
  intros Hb He. destruct dims_nonneg as (H1 & H2 & H3). unfold span_updates.
  destruct (tiles_ok (S (Z.to_nat K)) 0 K tile_size) as (kts & -> & Hks & Hki); [unfold K in *; lia..|].
  destruct (tiles_ok (S (Z.to_nat C)) 0 C tile_size) as (jts & -> & Hjs & Hji); [unfold C in *; lia..|].
  rewrite !bind_Ok. eexists; split; [done|]. cbn [fst snd]. split.
  - intros F. rewrite lsum_bind, <- tile_rows_sum by (unfold R in *; lia).
    apply lsum_ext. intros tile _. set (rs := range _ _).
    rewrite (lsum_pairs (λ kk k_end, jts ≫= λ '(jj, j_end), rs ≫= λ i, range kk k_end ≫= λ k,
      (λ j, (i, k, j)) <$> range jj j_end)).
    transitivity (lsum (λ '(kk, k_end), lsum (λ k, lsum (λ '(jj, j_end),
      lsum (λ j, lsum (λ i, F (i, k, j)) rs) (range jj j_end)) jts) (range kk k_end)) kts).
    + apply lsum_ext. intros [kk ke] _. rewrite lsum_pairs, lsum_swap. apply lsum_ext. intros [jj je] _.
      rewrite lsum_bind, (lsum3_swap (λ i k j, F (i, k, j))). apply lsum_ext. intros i _.
      rewrite lsum_bind. apply lsum_ext. intros k _. apply lsum_fmap.
    + rewrite Hks, <- (lsum3_swap (λ i k j, F (i, k, j))). apply lsum_ext. intros k _. apply Hjs.
  - intros i k j Hu. apply list_elem_of_bind in Hu as (tile & Hu & Htile).
    apply list_elem_of_bind in Hu as ([kk ke] & Hu & Hkk).
    apply list_elem_of_bind in Hu as ([jj je] & Hu & Hjj).
    apply list_elem_of_bind in Hu as (i' & Hu & Hi).
    apply list_elem_of_bind in Hu as (k' & Hu & Hk).
    apply list_elem_of_fmap in Hu as (j' & [= -> -> ->] & Hj).
    rewrite elem_of_range in Htile, Hi, Hk, Hj. apply Hki in Hkk. apply Hji in Hjj.
    assert (0 ≤ tile * tile_size) by nia. assert ((tile + 1) * tile_size ≤ te * tile_size) by nia.
    assert (tb * tile_size ≤ tile * tile_size) by nia.
    rewrite (u32_small (tile * tile_size)), u32_small in Hi by (unfold R in *; lia).
    lia.
Qed.

(** What the update [(i', k, j')] adds to cell [(i, j)]. *)
Definition contribution (i j : Z) (u : Z * Z * Z) : Z :=
  let '(i', k, j') := u in
  if decide (i' = i ∧ j' = j) then mget lhs i' k * mget rhs k j' else 0.

(** The output array after the updates [us] in any order. *)
Definition accumulated (us : list (Z * Z * Z)) (out : list Z) : Prop :=
  zlen out = R * C ∧ canon_list out ∧
  ∀ i j, 0 ≤ i < R → 0 ≤ j < C → znth out (i * C + j) = lsum (contribution i j) us mod MODULUS.

Lemma update_ok us u out :
  accumulated us out → (let '(i, k, j) := u in 0 ≤ i < R ∧ 0 ≤ k < K ∧ 0 ≤ j < C) →
  ∃ out', update lhs rhs u out = Ok out' ∧ accumulated (us ++ [u]) out'.
Proof.
  destruct u as [[i k] j]. intros (Hlen & Hcan & Hval) (Hi & Hk & Hj).
  pose proof (index_range i j R C Hi Hj). pose proof (index_range i k R K Hi Hk).
  pose proof (index_range k j K C Hk Hj). unfold update.
  pose proof (wf_len _ Hl) as Hll. pose proof (wf_len _ Hr) as Hrl. rewrite <- Hdim in Hrl.
  rewrite !vget_Ok by (unfold R, K, C in *; lia). rewrite !bind_Ok.
  fold (mget lhs i k) (mget rhs k j).
  rewrite mul_mod, bind_Ok by auto with btx.
  rewrite add_mod, bind_Ok by (auto using canon_znth with btx).
  rewrite vset_Ok by (unfold C in *; lia). eexists; split; [done|].
  split_and!.
  - by rewrite zlen_insert.
  - apply Forall_znth. intros q Hq. rewrite zlen_insert in Hq. rewrite znth_insert by (unfold C in *; lia).
    case_decide; [apply canonical_mod|by apply canon_znth].
  - intros i2 j2 Hi2 Hj2. pose proof (index_range i2 j2 R C Hi2 Hj2). fold C. rewrite znth_insert by lia.
    rewrite lsum_app. cbn [lsum foldr contribution]. rewrite Z.add_0_r.
    destruct (decide (i = i2 ∧ j = j2)) as [[<- <-]|Hne].
    + rewrite decide_True by done. rewrite Hval by done. by rewrite <- Zplus_mod.
    + rewrite decide_False, Hval; [f_equal; lia|done..|].
      intros E. apply Hne. by apply (index_inj i j i2 j2 C).
Qed.

(** Any order of a set of updates that covers every product once computes
    the product. *)
Lemma multiply_scheduled_ok sched :
  (∀ i k j, (i, k, j) ∈ sched → 0 ≤ i < R ∧ 0 ≤ k < K ∧ 0 ≤ j < C) →
  (∀ F, lsum F sched = lsum (λ i, lsum (λ k, lsum (λ j, F (i, k, j)) (range 0 C)) (range 0 K)) (range 0 R)) →
  multiply_scheduled lhs rhs sched = Ok (mmul lhs rhs).
Proof.
  intros Hin Hsum. destruct dims_nonneg as (H1 & H2 & H3). unfold multiply_scheduled. fold R C.
  destruct (mfold_inv accumulated (update lhs rhs) sched (replicate (Z.to_nat (R * C)) 0))
    as (out & -> & Hlen & Hcan & Hval).
  - split_and!.
    + unfold zlen. rewrite length_replicate. nia.
    + apply Forall_replicate. done.
    + intros i j Hi Hj. pose proof (index_range i j R C Hi Hj). by rewrite znth_replicate by lia.
  - intros dn [[i k] j] out Hu Hacc. apply update_ok; [done|]. by apply Hin.
  - rewrite bind_Ok. f_equal. apply mat_ext; cbn [m_rows m_cols m_data mmul mat_of]; try done.
    + rewrite zlen_ztab; unfold R, C in *; nia.
    + intros i j Hi Hj. unfold mmul. rewrite mget_mat_of by done. unfold mget at 1. cbn [m_cols m_data].
      rewrite Hval, Hsum by done. f_equal. rewrite lsum_zsum by done.
      transitivity (zsum R (λ i', if decide (i' = i) then zsum K (λ k, mget lhs i' k * mget rhs k j) else 0)).
      * apply zsum_ext. intros i' _. rewrite lsum_zsum by done. case_decide as Hd.
        -- apply zsum_ext. intros k _. rewrite lsum_zsum by done.
           rewrite <- (zsum_pick C (λ j', mget lhs i' k * mget rhs k j') j Hj). apply zsum_ext. intros j' _.
           unfold contribution. destruct (decide (j' = j)) as [->|Hn]; [by rewrite decide_True|].
           rewrite decide_False; [done|by intros [_ ?]].
        -- rewrite (zsum_ext K _ (λ _, 0)), zsum_zero; [done|]. intros k _.
           rewrite lsum_zsum, (zsum_ext C _ (λ _, 0)), zsum_zero; [done| |done]. intros j' _.
           unfold contribution. rewrite decide_False; [done|by intros [? _]].
      * apply zsum_pick. done.
Qed.

(** What the thread of a span does. *)
Definition span_trace (sp : Z * Z) (us : list (Z * Z * Z)) : Prop :=
  (∀ F, lsum F us = lsum (λ i, lsum (λ k, lsum (λ j, F (i, k, j)) (range 0 C)) (range 0 K))
                      (tile_rows R tile_size sp)) ∧
  ∀ i k j, (i, k, j) ∈ us →
    0 ≤ i < R ∧ 0 ≤ k < K ∧ 0 ≤ j < C ∧ fst sp * tile_size ≤ i < snd sp * tile_size.

Definition span_in (sp : Z * Z) : Prop :=
  0 ≤ fst sp ≤ snd sp ∧ snd sp * tile_size < R + tile_size.

Lemma traces_of_spans spans :
  Forall span_in spans →
  ∃ ts, mfold (λ sp acc, t ← span_updates R K C tile_size sp; Ok (acc ++ [t])) spans [] = Ok ts ∧
        Forall2 span_trace spans ts.
Proof.
  intros Hs. destruct (mfold_inv (λ dn ts, Forall2 span_trace dn ts)
    (λ sp acc, t ← span_updates R K C tile_size sp; Ok (acc ++ [t])) spans []) as (ts & E & H).
  - constructor.
  - intros dn [tb te] acc Hsp Hacc. destruct (proj1 (list.Forall_forall _ _) Hs _ Hsp) as [Hb He].
    destruct (span_updates_ok tb te Hb He) as (us & -> & H1 & H2). rewrite bind_Ok.
    eexists; split; [done|]. apply Forall2_app; [done|]. constructor; [by split|constructor].
  - by exists ts.
Qed.

Lemma traces_sum spans ts :
  Forall2 span_trace spans ts →
  ∀ F, lsum F (concat ts) =
    lsum (λ sp, lsum (λ i, lsum (λ k, lsum (λ j, F (i, k, j)) (range 0 C)) (range 0 K))
                  (tile_rows R tile_size sp)) spans.
Proof.
  intros H F. induction H as [|sp us spans ts [Hsum _] _ IH]; [done|].
  cbn [concat]. rewrite lsum_app, IH, Hsum. done.
Qed.

Lemma traces_in spans ts :
  Forall2 span_trace spans ts →
  ∀ i k j, (i, k, j) ∈ concat ts → 0 ≤ i < R ∧ 0 ≤ k < K ∧ 0 ≤ j < C.
Proof.
  intros H i k j. induction H as [|sp us spans ts [_ Hin] _ IH]; cbn [concat].
  - intros He. by apply not_elem_of_nil in He.
  - intros [He|He]%elem_of_app; [|by apply IH]. destruct (Hin i k j He) as (? & ? & ? & _). done.
Qed.
End Updates.

(** ** The spans of the workers *)

(** Consecutive spans from tile [lo] to tile [hi]. *)
Inductive chained : Z → Z → list (Z * Z) → Prop :=
  | chained_nil lo : chained lo lo []
  | chained_cons lo mid hi sps : lo ≤ mid → chained mid hi sps → chained lo hi ((lo, mid) :: sps).

Lemma chained_le lo hi sps : chained lo hi sps → lo ≤ hi.
Proof. induction 1; lia. Qed.

Lemma chained_in lo hi sps sp : chained lo hi sps → sp ∈ sps → lo ≤ fst sp ≤ snd sp ∧ snd sp ≤ hi.
Proof.
  induction 1 as [|lo mid hi sps Hle Hc IH]; intros Hin; [by apply not_elem_of_nil in Hin|].
  pose proof (chained_le _ _ _ Hc).
  apply elem_of_cons in Hin as [->|Hin]; cbn [fst snd]; [lia|]. specialize (IH Hin). lia.
Qed.

Lemma tile_rows_chained rows tile_size lo hi sps g :
  0 < tile_size → 0 ≤ lo → hi * tile_size < rows + tile_size → chained lo hi sps →
  lsum (λ sp, lsum g (tile_rows rows tile_size sp)) sps = lsum g (tile_rows rows tile_size (lo, hi)).
Proof.
  intros Ht Hlo Hhi Hc. induction Hc as [lo|lo mid hi sps Hle Hc IH].
  - unfold tile_rows. cbn [fst snd]. by rewrite range_empty by lia.
  - cbn [lsum foldr]. fold (lsum (λ sp, lsum g (tile_rows rows tile_size sp)) sps).
    pose proof (chained_le _ _ _ Hc). rewrite IH by lia. rewrite <- lsum_app. f_equal.
    unfold tile_rows. cbn [fst snd]. destruct (decide (mid = hi)) as [->|].
    + rewrite (range_empty (hi * tile_size)) by lia. apply app_nil_r.
    + assert ((mid + 1) * tile_size ≤ hi * tile_size) by nia.
      rewrite (Z.min_l (mid * tile_size)) by lia. rewrite <- range_split; [done|]. nia.
Qed.

Lemma worker_spans_chained n worker tpw row_tiles :
  0 ≤ worker → 0 < tpw → 0 ≤ row_tiles → (worker + Z.of_nat n) * tpw < 2 ^ 32 →
  row_tiles ≤ (worker + Z.of_nat n) * tpw →
  chained (Z.min (worker * tpw) row_tiles) row_tiles (worker_spans n worker tpw row_tiles).
Proof.
  intros Hw Ht Hr. revert worker Hw. induction n as [|n IH]; intros worker Hw Hb Hc; cbn [worker_spans].
  - rewrite Z.min_r by nia. constructor.
  - rewrite (u32_small (worker * tpw)) by nia. destruct (Z.leb_spec row_tiles (worker * tpw)).
    + rewrite Z.min_r by lia. constructor.
    + rewrite u32_small by nia. rewrite (Z.min_l (worker * tpw)) by lia. constructor; [lia|].
      replace (worker * tpw + tpw) with ((worker + 1) * tpw) by lia. apply IH; nia.
Qed.

(** Operands for which no tile index of the 32-bit loops wraps. *)
Record tileable (lhs rhs : Matrix) (tile_size : Z) : Prop := {
  t_lhs : wf lhs;
  t_rhs : wf rhs;
  t_dim : m_cols lhs = m_rows rhs;
  t_tile : 0 < tile_size;
  t_rows : m_rows lhs + tile_size < 2 ^ 32;
  t_half : m_rows lhs < 2 ^ 31;
  t_cols : m_cols lhs + tile_size < 2 ^ 32;
  t_rcols : m_cols rhs + tile_size < 2 ^ 32
}.

Lemma row_tile_count_ok rows tile_size :
  0 ≤ rows → 0 < tile_size → rows + tile_size < 2 ^ 32 →
  let t := row_tile_count rows tile_size in
  0 ≤ t ≤ rows ∧ t * tile_size < rows + tile_size ∧ rows ≤ t * tile_size.
Proof.
  intros Hr Ht Hw t. unfold t, row_tile_count. rewrite !u32_small by (rewrite ?u32_small; lia).
  pose proof (Z.div_mod (rows + tile_size - 1) tile_size ltac:(lia)).
  pose proof (Z.mod_pos_bound (rows + tile_size - 1) tile_size Ht).
  assert (0 ≤ (rows + tile_size - 1) / tile_size) by (apply Z.div_pos; lia). nia.
Qed.

Lemma worker_count_le `{Platform} rows cols shared tile_size :
  ResolveBlockedMultiplyWorkerCount rows cols shared tile_size ≤ Z.max 1 (row_tile_count rows tile_size).
Proof.
  unfold ResolveBlockedMultiplyWorkerCount, ClampSolveWorkerThreads.
  repeat match goal with |- context [match ?x with _ => _ end] => destruct x end; lia.
Qed.

(** The spans of a run: consecutive, from the first tile to the last. *)
Lemma multiply_traces_ok `{Platform} lhs rhs tile_size :
  tileable lhs rhs tile_size →
  ∃ spans ts, multiply_traces lhs rhs tile_size = Ok ts ∧
    chained 0 (row_tile_count (m_rows lhs) tile_size) spans ∧
    Forall2 (span_trace lhs rhs tile_size) spans ts.
Proof.
  intros [Hl Hr Hd Ht Hrw Hhalf Hc Hrc]. pose proof (wf_rows _ Hl).
  destruct (row_tile_count_ok (m_rows lhs) tile_size) as (HT0 & HT1 & HT2); [lia..|].
  unfold multiply_traces. rewrite (proj2 (Z.eqb_neq tile_size 0)), (proj2 (Z.eqb_eq _ _) Hd) by lia.
  cbn [negb throw_if]. rewrite !bind_Ok. cbv zeta.
  set (T := row_tile_count (m_rows lhs) tile_size) in *.
  pose proof (worker_count_le (m_rows lhs) (m_cols rhs) (m_cols lhs) tile_size) as Hle. fold T in Hle.
  set (wc := ResolveBlockedMultiplyWorkerCount _ _ _ _) in *.
  set (spans := if wc <=? 1 then _ else _).
  assert (chained 0 T spans) as Hch.
  { unfold spans. destruct (Z.leb_spec wc 1); [constructor; [lia|constructor]|].
    set (tpw := u32 (u32 (T + wc) - 1) / wc).
    assert (tpw = (T + wc - 1) / wc) as Etpw by (unfold tpw; by rewrite !u32_small by (rewrite ?u32_small; lia)).
    pose proof (Z.div_mod (T + wc - 1) wc ltac:(lia)). pose proof (Z.mod_pos_bound (T + wc - 1) wc ltac:(lia)).
    rewrite <- Etpw in *. pose proof (worker_spans_chained (Z.to_nat wc) 0 tpw T) as Hws.
    rewrite Z.min_l in Hws by lia. apply Hws; nia. }
  destruct (traces_of_spans lhs rhs tile_size Hl Hr Ht Hrw Hc Hrc spans) as (ts & E & HF).
  { apply list.Forall_forall. intros sp Hsp. destruct (chained_in _ _ _ _ Hch Hsp). split; [lia|nia]. }
  by exists spans, ts.
Qed.

(** Whatever the scheduler does with the threads, the result is the product. *)
Lemma multiply_any_schedule `{Platform} lhs rhs tile_size ts sched :
  tileable lhs rhs tile_size → multiply_traces lhs rhs tile_size = Ok ts → sched ≡ₚ concat ts →
  multiply_scheduled lhs rhs sched = Ok (mmul lhs rhs).
Proof.
  intros Htl E Hp. destruct (multiply_traces_ok lhs rhs tile_size Htl) as (spans & ts' & E' & Hch & HF).
  rewrite E in E'. injection E' as <-. destruct Htl as [Hl Hr Hd Ht Hrw Hhalf Hc Hrc].
  pose proof (wf_rows _ Hl). pose proof (wf_cols _ Hl). pose proof (wf_cols _ Hr).
  apply multiply_scheduled_ok; try done.
  - intros i k j Hin. rewrite Hp in Hin. by apply (traces_in lhs rhs tile_size spans ts).
  - intros F. rewrite Hp, (traces_sum lhs rhs tile_size spans ts HF).
    destruct (row_tile_count_ok (m_rows lhs) tile_size) as (HT0 & HT1 & HT2); [lia..|].
    rewrite (tile_rows_chained _ _ 0 _ spans _ Ht ltac:(lia) HT1 Hch).
    f_equal. unfold tile_rows. cbn [fst snd]. f_equal; lia.
Qed.

Lemma MultiplyBlocked_ok `{Platform} lhs rhs tile_size :
  tileable lhs rhs tile_size → MultiplyBlocked lhs rhs tile_size = Ok (mmul lhs rhs).
Proof.
  intros Htl. destruct (multiply_traces_ok lhs rhs tile_size Htl) as (spans & ts & E & _).
  unfold MultiplyBlocked. rewrite E, bind_Ok. by apply (multiply_any_schedule lhs rhs tile_size ts).
Qed.

(** No two threads write the same row. *)
Lemma chained_disjoint lo hi sps x y spx spy :
  chained lo hi sps → sps !! x = Some spx → sps !! y = Some spy → (x < y)%nat → snd spx ≤ fst spy.
Proof.
  intros Hc. revert x y. induction Hc as [|lo mid hi sps Hle Hc IH]; intros x y; [done|].
  destruct x as [|x], y as [|y]; simpl; intros Hx Hy Hlt; try lia.
  - injection Hx as <-. cbn [snd]. apply list_elem_of_lookup_2 in Hy. apply (chained_in _ _ _ _ Hc) in Hy. lia.
  - apply (IH x y); [done..|lia].
Qed.

Lemma threads_write_apart `{Platform} lhs rhs tile_size ts x y tx ty i k j i' k' j' :
  tileable lhs rhs tile_size → multiply_traces lhs rhs tile_size = Ok ts →
  ts !! x = Some tx → ts !! y = Some ty → x ≠ y → (i, k, j) ∈ tx → (i', k', j') ∈ ty → i ≠ i'.
Proof.
  intros Htl E Hx Hy Hxy Hi Hi'.
  destruct (multiply_traces_ok lhs rhs tile_size Htl) as (spans & ts' & E' & Hch & HF).
  rewrite E in E'. injection E' as <-. pose proof (t_tile _ _ _ Htl).
  destruct (Forall2_lookup_r _ _ _ _ _ HF Hx) as (spx & Hsx & _ & Hinx).
  destruct (Forall2_lookup_r _ _ _ _ _ HF Hy) as (spy & Hsy & _ & Hiny).
  destruct (Hinx _ _ _ Hi) as (_ & _ & _ & Hri). destruct (Hiny _ _ _ Hi') as (_ & _ & _ & Hri').
  destruct (decide (x < y)%nat) as [Hlt|Hge].
  - pose proof (chained_disjoint _ _ _ _ _ _ _ Hch Hsx Hsy Hlt). nia.
  - pose proof (chained_disjoint _ _ _ y x _ _ Hch Hsy Hsx ltac:(lia)). nia.
Qed.

(** ** Properties *)

(** C32: whatever the order in which the worker threads' element updates
    interleave, the blocked multiplication ends with the field product; no two
    workers ever write the same row; and the sequential order the code falls
    back to is one such order. *)
Theorem any_interleaving_multiplies `{Platform} lhs rhs tile_size :
  tileable lhs rhs tile_size →
  ∃ ts, multiply_traces lhs rhs tile_size = Ok ts ∧
    (∀ sched, sched ≡ₚ concat ts → multiply_scheduled lhs rhs sched = Ok (mmul lhs rhs)) ∧
    (∀ x y tx ty i k j i' k' j', ts !! x = Some tx → ts !! y = Some ty → x ≠ y → (i, k, j) ∈ tx → (i', k', j') ∈ ty → i ≠ i') ∧
    MultiplyBlocked lhs rhs tile_size = Ok (mmul lhs rhs).
Proof.
  intros Ht. destruct (multiply_traces_ok lhs rhs tile_size Ht) as (spans & ts & E & _). exists ts. split; [exact E|].
  split; [intros sched Hs; exact (multiply_any_schedule lhs rhs tile_size ts sched Ht E Hs)|].
  split; [|by apply MultiplyBlocked_ok]. intros x y tx ty i k j i' k' j'. exact (threads_write_apart lhs rhs tile_size ts x y tx ty i k j i' k' j' Ht E).
Qed.
