(* ===== verification/SharedCache.v ===== *)
(** Concurrent callers of the shared-matrix cache.

    [SharedFromSeed] of [matmul/matrix.cpp] takes the cache lock twice and
    generates the matrix between the two critical sections.  A thread is
    therefore a small state machine, and a run of the program an interleaving
    of critical sections. *)

From Stdlib Require Import ZArith Lia String.
From stdpp Require Import base list numbers tactics relations.
From S2P Require Import Prelude Sha256 Field Matrix.
Import field.

Open Scope Z_scope.

Module shared_cache.

(** Where one call of [SharedFromSeed(seed, n)] stands. *)
Inductive thread :=
  | Called (seed : list Z) (n : Z)                (* before the first section *)
  | Missed (seed : list Z) (n : Z)                (* generating *)
  | Returned (seed : list Z) (n : Z) (m : Matrix) (* with its result *).

Record system := mkSystem { cache : list FromSeedCacheEntry; threads : list thread }.

Inductive thread_step : list FromSeedCacheEntry → thread → list FromSeedCacheEntry → thread → Prop :=
  | step_hit c seed n m c' :
      shared_lookup seed n c = (Some m, c') → thread_step c (Called seed n) c' (Returned seed n m)
  | step_miss c seed n c' :
      shared_lookup seed n c = (None, c') → thread_step c (Called seed n) c' (Missed seed n)
  | step_publish c seed n m m' c' :
      FromSeed seed n = Ok m → shared_publish seed n m c = (m', c') →
      thread_step c (Missed seed n) c' (Returned seed n m').

Inductive step : system → system → Prop :=
  | step_thread c ts x t c' t' :
      ts !! x = Some t → thread_step c t c' t' → step (mkSystem c ts) (mkSystem c' (<[x := t']> ts)).

(** The key a thread was called with. *)
Definition key (t : thread) : list Z * Z :=
  match t with Called s n | Missed s n | Returned s n _ => (s, n) end.

(** A thread that has returned holds the matrix of its key. *)
Definition thread_ok (t : thread) : Prop :=
  match t with Returned seed n m => FromSeed seed n = Ok m | _ => True end.

Definition system_ok (s : system) : Prop := cache_ok (cache s) ∧ Forall thread_ok (threads s).

(** Critical sections a thread still has to run. *)
Definition pending (t : thread) : nat :=
  match t with Called _ _ => 2 | Missed _ _ => 1 | Returned _ _ _ => 0 end.
Definition total_pending (s : system) : nat := sum_list_with pending (threads s).

End shared_cache.
Import shared_cache.

Lemma cache_ok_empty : cache_ok [].
Proof. split; [constructor|constructor|simpl; lia]. Qed.

Lemma thread_step_ok c t c' t' :
  cache_ok c → thread_step c t c' t' → cache_ok c' ∧ thread_ok t' ∧ key t' = key t ∧ (pending t' < pending t)%nat.
Proof.
  intros Hc Hs. destruct Hs as [c seed n m c' E|c seed n c' E|c seed n m m' c' HF E]; simpl.
  - destruct (shared_lookup_ok seed n c Hc) as [H1 H2]. rewrite E in H1, H2. cbn [fst snd] in *.
    split_and!; [done|by apply H2|done|lia].
  - destruct (shared_lookup_ok seed n c Hc) as [H1 _]. rewrite E in H1. split_and!; [done..|lia].
  - destruct (shared_publish_ok seed n m c Hc HF) as [H1 H2]. rewrite E in H1, H2. cbn [fst snd] in *.
    subst m'. split_and!; [done..|lia].
Qed.

Lemma step_ok s s' :
  step s s' → system_ok s →
  system_ok s' ∧ (key <$> threads s') = (key <$> threads s) ∧ (total_pending s' < total_pending s)%nat.
Proof.
  intros Hs [Hc Ht]. destruct Hs as [c ts x t c' t' Hx Hst]. cbn [cache threads] in *.
  destruct (thread_step_ok c t c' t' Hc Hst) as (H1 & H2 & H3 & H4). split_and!.
  - split; [done|]. by apply Forall_insert.
  - rewrite list_fmap_insert, H3. apply list_insert_id. by rewrite list_lookup_fmap, Hx.
  - unfold total_pending. cbn [threads]. clear -Hx H4. revert x Hx.
    induction ts as [|u ts IH]; intros [|x] Hx; simpl in *; [done|done| |].
    + injection Hx as ->. lia.
    + specialize (IH x Hx). lia.
Qed.

Lemma steps_ok s s' :
  rtc step s s' → system_ok s → system_ok s' ∧ (key <$> threads s') = (key <$> threads s).
Proof.
  induction 1 as [s|s s1 s' Hstep _ IH]; intros Hok; [done|].
  destruct (step_ok _ _ Hstep Hok) as (H1 & H2 & _). destruct (IH H1) as [H3 H4]. by rewrite H4, H2.
Qed.

(** A thread that has not returned can run its next critical section. *)
Lemma thread_progress c t :
  (let '(seed, n) := key t in 0 ≤ n ∧ n * n < 2 ^ 32) → (0 < pending t)%nat → ∃ c' t', thread_step c t c' t'.
Proof.
  destruct t as [seed n|seed n|seed n m]; simpl; intros [Hn Hs] Hp; [| |lia].
  - destruct (shared_lookup seed n c) as [[m|] c'] eqn:E; [by eexists _, _; eapply step_hit|].
    by eexists _, _; eapply step_miss.
  - destruct (shared_publish seed n (seed_matrix seed n) c) as [m' c'] eqn:E.
    eexists _, _. eapply step_publish; [by apply FromSeed_ok|done].
Qed.

(** ** Properties *)

(** In every interleaving of concurrent [SharedFromSeed] calls, the cache
    stays within its capacity, never holds two entries for a key nor a matrix
    that is not its key's, and a call that has returned returned the matrix
    of its own key; every call that has not returned can take its next step,
    and each step brings the system closer to completion. *)
Theorem shared_cache_safe s s' :
  system_ok s → rtc step s s' →
  system_ok s' ∧ (key <$> threads s') = (key <$> threads s) ∧
  (∀ t, t ∈ threads s' → (let '(_, n) := key t in 0 ≤ n ∧ n * n < 2 ^ 32) → (0 < pending t)%nat →
     ∃ s'', step s' s'' ∧ (total_pending s'' < total_pending s')%nat).
Proof.
  intros Hs Hr. destruct (steps_ok s s' Hr Hs) as [Hok Hk]. split; [exact Hok|]. split; [exact Hk|].
  intros t Ht Hn Hp. destruct s' as [c ts]. cbn [threads cache] in *. apply list_elem_of_lookup in Ht as [x Hx].
  destruct (thread_progress c t) as (c' & t' & Hst); [by destruct (key t)|exact Hp|].
  assert (step (mkSystem c ts) (mkSystem c' (<[x := t']> ts))) as Hstep by (eapply step_thread; eassumption).
  eexists. split; [exact Hstep|]. by apply (step_ok _ _ Hstep Hok).
Qed.
