(* ===== verification/ArithUint256.v ===== *)
(** Fixed-width big integers.

    [arith_uint256.h] and [arith_uint256.cpp]: [base_uint<BITS>] stores 32-bit
    digits, least significant first.  The digits are kept as the source keeps
    them and every loop works digit by digit; the theorems relate the loops to
    arithmetic on the integer the digits denote, modulo 2^BITS. *)

From Stdlib Require Import ZArith Lia String.
From stdpp Require Import base list numbers tactics.
From S2P Require Import Prelude Sha256.

Open Scope Z_scope.

Module arith_uint256.

(** [uint32_t pn[WIDTH]] *)
Abbreviation base_uint := (list Z).

Definition WIDTH : nat := 8.

Definition zero (w : nat) : base_uint := replicate w 0.

(** [base_uint(uint64_t b)] and [operator=(uint64_t)] *)
Definition of_u64 (w : nat) (b : Z) : base_uint :=
  u32 b :: u32 (Z.shiftr b 32) :: replicate (w - 2) 0.

(** [operator~] *)
Definition bnot (a : base_uint) : base_uint := (λ x, u32 (Z.lnot x)) <$> a.

(** [operator++]: [while (i < WIDTH && ++pn[i] == 0) i++] *)
Fixpoint incr (a : base_uint) : base_uint :=
  match a with
  | [] => []
  | x :: a => let x := u32 (x + 1) in if x =? 0 then x :: incr a else x :: a
  end.

(** [operator--] *)
Fixpoint decr (a : base_uint) : base_uint :=
  match a with
  | [] => []
  | x :: a => let x := u32 (x - 1) in if x =? 2 ^ 32 - 1 then x :: decr a else x :: a
  end.

(** Unary [operator-] *)
Definition neg (a : base_uint) : base_uint := incr (bnot a).

Definition bxor (a b : base_uint) : base_uint := zip_with Z.lxor a b.
Definition band (a b : base_uint) : base_uint := zip_with Z.land a b.
Definition bor (a b : base_uint) : base_uint := zip_with Z.lor a b.

(** [operator+=] from the digit where the carry is [carry]. *)
Fixpoint add_loop (carry : Z) (a b : base_uint) : base_uint :=
  match a, b with
  | x :: a, y :: b =>
      let n := u64 (carry + x + y) in
      Z.land n 0xffffffff :: add_loop (Z.shiftr n 32) a b
  | _, _ => []
  end.
Definition add (a b : base_uint) : base_uint := add_loop 0 a b.
Definition sub (a b : base_uint) : base_uint := add a (neg b).

(** [operator+=(uint64_t)] and [operator-=(uint64_t)] *)
Definition add_u64 (a : base_uint) (b64 : Z) : base_uint := add a (of_u64 (length a) b64).
Definition sub_u64 (a : base_uint) (b64 : Z) : base_uint := add a (neg (of_u64 (length a) b64)).

(** [operator*=(uint32_t)] *)
Fixpoint mul32_loop (carry b32 : Z) (a : base_uint) : base_uint :=
  match a with
  | [] => []
  | x :: a =>
      let n := u64 (carry + b32 * x) in
      Z.land n 0xffffffff :: mul32_loop (Z.shiftr n 32) b32 a
  end.
Definition mul32 (a : base_uint) (b32 : Z) : base_uint := mul32_loop 0 b32 a.

(** [operator*=]: the inner loop runs over the digits of the accumulator from
    position [j] (a shorter and shorter suffix) against the digits of [b]. *)
Fixpoint mul_row (carry x : Z) (acc b : base_uint) : base_uint :=
  match acc, b with
  | a :: acc, y :: b =>
      let n := u64 (carry + a + x * y) in
      Z.land n 0xffffffff :: mul_row (Z.shiftr n 32) x acc b
  | _, _ => []
  end.
Fixpoint mul_loop (acc pn b : base_uint) : base_uint :=
  match pn with
  | [] => []
  | x :: pn =>
      match mul_row 0 x acc b with
      | [] => []
      | a :: acc => a :: mul_loop acc pn b
      end
  end.
Definition mul (pn b : base_uint) : base_uint := mul_loop (zero (length pn)) pn b.

(** [pn[i] |= v] *)
Definition or_at (i : nat) (v : Z) (pn : base_uint) : base_uint := alter (λ x, Z.lor x v) i pn.

(** [operator<<=] *)
Definition shl (a : base_uint) (shift : Z) : base_uint :=
  let w := length a in
  let k := Z.to_nat (shift / 32) in
  let shift := shift mod 32 in
  foldl (λ pn i,
    let pn := if (i + k + 1 <? w)%nat && negb (shift =? 0)
              then or_at (i + k + 1) (Z.shiftr (znth a (Z.of_nat i)) (32 - shift)) pn else pn in
    if (i + k <? w)%nat
    then or_at (i + k) (u32 (Z.shiftl (znth a (Z.of_nat i)) shift)) pn else pn)
    (zero w) (seq 0 w).

(** [operator>>=] *)
Definition shr (a : base_uint) (shift : Z) : base_uint :=
  let w := length a in
  let k := Z.to_nat (shift / 32) in
  let shift := shift mod 32 in
  foldl (λ pn i,
    let pn := if (k + 1 <=? i)%nat && negb (shift =? 0)
              then or_at (i - k - 1) (u32 (Z.shiftl (znth a (Z.of_nat i)) (32 - shift))) pn else pn in
    if (k <=? i)%nat
    then or_at (i - k) (Z.shiftr (znth a (Z.of_nat i)) shift) pn else pn)
    (zero w) (seq 0 w).

(** [CompareTo]: from the most significant digit down. *)
Fixpoint compare_loop (a b : base_uint) : Z :=
  match a, b with
  | x :: a, y :: b => if x <? y then -1 else if y <? x then 1 else compare_loop a b
  | _, _ => 0
  end.
Definition CompareTo (a b : base_uint) : Z := compare_loop (reverse a) (reverse b).
Definition leb (a b : base_uint) : bool := CompareTo a b <=? 0.
Definition ltb (a b : base_uint) : bool := CompareTo a b <? 0.
Definition geb (a b : base_uint) : bool := 0 <=? CompareTo a b.
Definition gtb (a b : base_uint) : bool := 0 <? CompareTo a b.

(** [EqualTo(uint64_t)] *)
Definition EqualTo (a : base_uint) (b : Z) : bool :=
  forallb (λ x, x =? 0) (drop 2 a) &&
  (znth a 1 =? Z.shiftr b 32) && (znth a 0 =? Z.land b 0xffffffff).

(** [bits()]: the highest set bit of one digit, then of the number. *)
Fixpoint digit_bits (x : Z) (nbits : nat) : Z :=
  match nbits with
  | O => 1
  | S n => if negb (Z.land x (Z.shiftl 1 (Z.of_nat nbits)) =? 0) then Z.of_nat nbits + 1 else digit_bits x n
  end.
Fixpoint bits_loop (rev_digits : base_uint) : Z :=
  match rev_digits with
  | [] => 0
  | x :: rest => if x =? 0 then bits_loop rest else 32 * zlen rest + digit_bits x 31
  end.
Definition bits (a : base_uint) : Z := bits_loop (reverse a).

Definition GetLow64 (a : base_uint) : Z := Z.lor (znth a 0) (Z.shiftl (znth a 1) 32).

(** The loop [while (shift >= 0)] of [operator/=], with [S shift] iterations
    left: the quotient digits, the running numerator and divisor. *)
Fixpoint div_loop (left : nat) (q num div : base_uint) : base_uint * base_uint :=
  match left with
  | O => (q, num)
  | S shift =>
      let '(num, q) :=
        if geb num div
        then (sub num div, or_at (shift / 32) (Z.shiftl 1 (Z.land (Z.of_nat shift) 31)) q)
        else (num, q) in
      div_loop shift q num (shr div 1)
  end.

(** [operator/=]: the quotient and the remainder left in [num]. *)
Definition divmod (a b : base_uint) : result (base_uint * base_uint) :=
  let num_bits := bits a in
  let div_bits := bits b in
  _ ← throw_if (div_bits =? 0) "Division by zero";
  if num_bits <? div_bits then Ok (zero (length a), a)
  else
    let shift := num_bits - div_bits in
    Ok (div_loop (S (Z.to_nat shift)) (zero (length a)) a (shl b shift)).
Definition div (a b : base_uint) : result base_uint := '(q, _) ← divmod a b; Ok q.

(** [SetCompact]: the value and the flags [fNegative] and [fOverflow]. *)
Definition SetCompact (nCompact : Z) : base_uint * bool * bool :=
  let nSize := Z.shiftr nCompact 24 in
  let nWord := Z.land nCompact 0x007fffff in
  let nWord' := if nSize <=? 3 then Z.shiftr nWord (8 * (3 - nSize)) else nWord in
  let v := if nSize <=? 3 then of_u64 WIDTH nWord'
           else shl (of_u64 WIDTH nWord) (8 * (nSize - 3)) in
  (v,
   negb (nWord' =? 0) && negb (Z.land nCompact 0x00800000 =? 0),
   negb (nWord' =? 0) && ((34 <? nSize) || ((0xff <? nWord') && (33 <? nSize)) || ((0xffff <? nWord') && (32 <? nSize)))).

Definition GetCompact (a : base_uint) (fNegative : bool) : result Z :=
  let nSize := (bits a + 7) / 8 in
  let nCompact :=
    if nSize <=? 3 then u32 (Z.shiftl (GetLow64 a) (8 * (3 - nSize)))
    else u32 (GetLow64 (shr a (8 * (nSize - 3)))) in
  let '(nCompact, nSize) :=
    if negb (Z.land nCompact 0x00800000 =? 0) then (Z.shiftr nCompact 8, nSize + 1) else (nCompact, nSize) in
  _ ← assert_ (Z.land nCompact (u32 (Z.lnot 0x007fffff)) =? 0);
  _ ← assert_ (nSize <? 256);
  let nCompact := Z.lor nCompact (u32 (Z.shiftl nSize 24)) in
  Ok (Z.lor nCompact (if fNegative && negb (Z.land nCompact 0x007fffff =? 0) then 0x00800000 else 0)).

Definition ArithToUint256 (a : base_uint) : list Z := concat (WriteLE32 <$> a).
Definition UintToArith256 (a : list Z) : base_uint :=
  (λ x, ReadLE32 (drop (x * 4) a)) <$> seq 0 WIDTH.

End arith_uint256.
Import arith_uint256.

(** ** The integer the digits denote *)
Definition is_digit (x : Z) : Prop := 0 ≤ x < 2 ^ 32.

Fixpoint val (a : list Z) : Z :=
  match a with [] => 0 | x :: a => x + 2 ^ 32 * val a end.

(** 2^BITS for [w] digits. *)
Definition modulus (w : nat) : Z := 2 ^ (32 * Z.of_nat w).

Lemma modulus_S w : modulus (S w) = 2 ^ 32 * modulus w.
Proof. unfold modulus. replace (32 * Z.of_nat (S w)) with (32 + 32 * Z.of_nat w) by lia. by rewrite Z.pow_add_r by lia. Qed.

Lemma modulus_pos w : 0 < modulus w.
Proof. unfold modulus. apply Z.pow_pos_nonneg; lia. Qed.

Lemma val_bound a : Forall is_digit a → 0 ≤ val a < modulus (length a).
Proof.
  induction 1 as [|x a Hx Ha IH]; simpl; [done|]. rewrite modulus_S. unfold is_digit in *. nia.
Qed.

Lemma val_mod a w : Forall is_digit a → length a = w → val a mod modulus w = val a.
Proof. intros Ha <-. apply Z.mod_small. by apply val_bound. Qed.

(** Equal digits from equal integers. *)
Lemma val_inj a b : Forall is_digit a → Forall is_digit b → length a = length b → val a = val b → a = b.
Proof.
  intros Ha. revert b. induction Ha as [|x a Hx Ha IH]; intros [|y b] Hb Hl; simpl in *; try done.
  apply Forall_cons_iff in Hb as [Hy Hb]. unfold is_digit in *. intros E.
  assert (x = y ∧ val a = val b) as [-> Hv] by lia. f_equal. apply IH; [done|lia|done].
Qed.

Lemma digit_split n :
  0 ≤ n < 2 ^ 64 → ∃ lo hi, Z.land n 0xffffffff = lo ∧ Z.shiftr n 32 = hi ∧
    n = lo + 2 ^ 32 * hi ∧ is_digit lo ∧ is_digit hi.
Proof.
  intros Hn. eexists _, _. split; [done|]. split; [done|].
  rewrite (land_mask n 32), Z.shiftr_div_pow2 by done. unfold is_digit.
  pose proof (Z.div_mod n (2 ^ 32)). pose proof (Z.mod_pos_bound n (2 ^ 32)). lia.
Qed.

(** ** Addition, negation, multiplication *)

(** [r] holds [x] modulo 2^BITS in [w] digits. *)
Definition holds (w : nat) (r : list Z) (x : Z) : Prop :=
  length r = w ∧ Forall is_digit r ∧ val r = x mod modulus w.

(** A lowest digit and the rest, from a congruence on the rest. *)
Lemma holds_cons w lo r x y :
  is_digit lo → holds w r y → (lo + 2 ^ 32 * y) mod modulus (S w) = x mod modulus (S w) → holds (S w) (lo :: r) x.
Proof.
  intros Hlo (Hl & Hd & Hv) E. split_and!; [by simpl; rewrite Hl|by constructor|].
  simpl. rewrite <- E, Hv, modulus_S. pose proof (modulus_pos w). unfold is_digit in Hlo.
  rewrite (Z.rem_mul_r (lo + 2 ^ 32 * y) (2 ^ 32) (modulus w)) by lia.
  rewrite (Z.mul_comm (2 ^ 32) y), Z.mod_add, Z.div_add, (Z.mod_small lo), (Z.div_small lo) by lia.
  rewrite Z.add_0_l. done.
Qed.

Lemma holds_val w a : length a = w → Forall is_digit a → holds w a (val a).
Proof. intros. split_and!; [done..|]. symmetry. by apply val_mod. Qed.

Lemma holds_eq w r x y : holds w r x → x mod modulus w = y mod modulus w → holds w r y.
Proof. intros (H1 & H2 & H3) E. split_and!; [done..|]. by rewrite H3. Qed.

Lemma holds_mod w r x : holds w r (x mod modulus w) ↔ holds w r x.
Proof. pose proof (modulus_pos w). unfold holds. by rewrite Z.mod_mod by lia. Qed.

Lemma add_loop_ok carry a b :
  Forall is_digit a → Forall is_digit b → length a = length b → 0 ≤ carry ≤ 1 →
  holds (length a) (add_loop carry a b) (carry + val a + val b).
Proof.
  intros Ha. revert carry b. induction Ha as [|x a Hx Ha IH]; intros carry b Hb Hl Hc.
  - destruct b; [|done]. split_and!; [done|constructor|]. by rewrite Z.mod_1_r.
  - destruct b as [|y b]; [done|]. apply Forall_cons_iff in Hb as [Hy Hb].
    cbn [add_loop]. unfold is_digit in Hx, Hy. rewrite u64_small by lia.
    destruct (digit_split (carry + x + y)) as (lo & hi & -> & -> & E & Hlo & Hhi); [lia|].
    cbn [length]. apply (holds_cons _ _ _ _ (hi + val a + val b)); [done| |].
    + apply IH; [done|by injection Hl|]. unfold is_digit in *. lia.
    + f_equal. cbn [val]. lia.
Qed.

Lemma incr_ok a : Forall is_digit a → holds (length a) (incr a) (val a + 1).
Proof.
  induction 1 as [|x a Hx Ha IH]; [split_and!; [done|constructor|by rewrite Z.mod_1_r]|].
  cbn [incr length]. unfold is_digit in Hx. destruct (decide (x = 2 ^ 32 - 1)) as [->|Hne].
  - change (u32 (2 ^ 32 - 1 + 1)) with 0. cbn [Z.eqb]. apply (holds_cons _ _ _ _ (val a + 1)); [by split|done|].
    f_equal. cbn [val]. lia.
  - rewrite u32_small, (proj2 (Z.eqb_neq _ _)) by lia.
    apply (holds_cons _ _ _ _ (val a)); [unfold is_digit; lia|by apply holds_val|]. f_equal. cbn [val]. lia.
Qed.

Lemma decr_ok a : Forall is_digit a → holds (length a) (decr a) (val a - 1).
Proof.
  induction 1 as [|x a Hx Ha IH]; [split_and!; [done|constructor|by rewrite Z.mod_1_r]|].
  cbn [decr length]. unfold is_digit in Hx. destruct (decide (x = 0)) as [->|Hne].
  - change (u32 (0 - 1)) with (2 ^ 32 - 1). rewrite Z.eqb_refl.
    apply (holds_cons _ _ _ _ (val a - 1)); [by split|done|]. f_equal. cbn [val]. lia.
  - rewrite u32_small, (proj2 (Z.eqb_neq _ _)) by lia.
    apply (holds_cons _ _ _ _ (val a)); [unfold is_digit; lia|by apply holds_val|]. f_equal. cbn [val]. lia.
Qed.

Lemma bnot_ok a : Forall is_digit a → Forall is_digit (bnot a) ∧ val (bnot a) = modulus (length a) - 1 - val a.
Proof.
  induction 1 as [|x a Hx Ha [IH1 IH2]]; [split; [constructor|done]|]. unfold is_digit in Hx.
  assert (u32 (Z.lnot x) = 2 ^ 32 - 1 - x) as E.
  { rewrite u32_mod. unfold Z.lnot. symmetry. apply (Z.mod_unique _ _ (-1)); lia. }
  cbn [bnot fmap list_fmap]. rewrite E. split.
  - constructor; [unfold is_digit; lia|done].
  - cbn [val length]. unfold bnot in IH2. rewrite modulus_S, IH2. lia.
Qed.

Lemma neg_ok a : Forall is_digit a → holds (length a) (neg a) (- val a).
Proof.
  intros Ha. destruct (bnot_ok a Ha) as [Hd Hv]. unfold neg.
  pose proof (incr_ok _ Hd) as Hi. replace (length (bnot a)) with (length a) in Hi by (unfold bnot; by rewrite length_fmap).
  eapply holds_eq; [exact Hi|]. rewrite Hv.
  replace (modulus (length a) - 1 - val a + 1) with (- val a + 1 * modulus (length a)) by lia.
  apply Z.mod_add. pose proof (modulus_pos (length a)). lia.
Qed.

Section Width.
Context (w : nat) (a b : list Z).
Hypothesis Ha : Forall is_digit a.
Hypothesis Hb : Forall is_digit b.
Hypothesis Hla : length a = w.
Hypothesis Hlb : length b = w.

Lemma add_holds : holds w (add a b) (val a + val b).
Proof. rewrite <- Hla. apply (add_loop_ok 0 a b); [done|done|congruence|lia]. Qed.

Lemma sub_holds : holds w (sub a b) (val a - val b).
Proof.
  destruct (neg_ok b Hb) as (H1 & H2 & H3). rewrite Hlb in *. unfold sub, add.
  rewrite <- Hla at 1. eapply holds_eq; [apply (add_loop_ok 0 a (neg b)); [done|done|congruence|lia]|].
  rewrite H3, Hla. pose proof (modulus_pos w). rewrite Z.add_mod_idemp_r by lia. done.
Qed.
End Width.

Lemma mul32_loop_ok carry b32 a :
  Forall is_digit a → is_digit b32 → is_digit carry →
  holds (length a) (mul32_loop carry b32 a) (carry + b32 * val a).
Proof.
  intros Ha Hb. unfold is_digit in Hb. revert carry.
  induction Ha as [|x a Hx Ha IH]; intros carry Hc; [split_and!; [done|constructor|by rewrite Z.mod_1_r]|].
  cbn [mul32_loop length]. unfold is_digit in Hx, Hc. rewrite u64_small by nia.
  destruct (digit_split (carry + b32 * x)) as (lo & hi & -> & -> & E & Hlo & Hhi); [nia|].
  apply (holds_cons _ _ _ _ (hi + b32 * val a)); [done|by apply IH|]. f_equal. cbn [val]. lia.
Qed.

Lemma mul32_holds a b32 : Forall is_digit a → is_digit b32 → holds (length a) (mul32 a b32) (val a * b32).
Proof.
  intros Ha Hb. eapply holds_eq; [by apply mul32_loop_ok|]. f_equal. lia.
Qed.

Lemma mul_row_ok carry x acc b :
  Forall is_digit acc → Forall is_digit b → is_digit x → is_digit carry → (length acc ≤ length b)%nat →
  holds (length acc) (mul_row carry x acc b) (carry + val acc + x * val b).
Proof.
  intros Hacc. revert carry b. induction Hacc as [|a acc Ha Hacc IH]; intros carry b Hb Hx Hc Hl.
  - split_and!; [done|constructor|by rewrite Z.mod_1_r].
  - destruct b as [|y b]; [simpl in Hl; lia|]. apply Forall_cons_iff in Hb as [Hy Hb].
    cbn [mul_row length]. unfold is_digit in Ha, Hx, Hc, Hy. rewrite u64_small by nia.
    destruct (digit_split (carry + a + x * y)) as (lo & hi & -> & -> & E & Hlo & Hhi); [nia|].
    apply (holds_cons _ _ _ _ (hi + val acc + x * val b)); [done|apply IH; simpl in *; auto; lia|].
    f_equal. cbn [val]. lia.
Qed.

Lemma mul_loop_ok acc pn b :
  Forall is_digit acc → Forall is_digit pn → Forall is_digit b →
  length acc = length pn → (length pn ≤ length b)%nat →
  holds (length pn) (mul_loop acc pn b) (val acc + val pn * val b).
Proof.
  intros Hacc Hpn Hb. revert acc Hacc. induction Hpn as [|x pn Hx Hpn IH]; intros acc Hacc Hl Hlb.
  - destruct acc; [|done]. split_and!; [done|constructor|by rewrite Z.mod_1_r].
  - cbn [mul_loop length].
    destruct (mul_row_ok 0 x acc b Hacc Hb Hx ltac:(split; lia) ltac:(simpl in *; lia)) as (R1 & R2 & R3).
    destruct (mul_row 0 x acc b) as [|r row]; [simpl in *; congruence|].
    apply Forall_cons_iff in R2 as [Hr Hrow]. simpl in Hl, R1.
    apply (holds_cons _ _ _ _ (val row + val pn * val b)); [done|apply IH; [done|lia|simpl in *; lia]|].
    rewrite Hl in R3. cbn [val] in R3.
    replace (r + 2 ^ 32 * (val row + val pn * val b)) with (r + 2 ^ 32 * val row + 2 ^ 32 * val pn * val b) by lia.
    rewrite R3, Z.add_mod_idemp_l by (pose proof (modulus_pos (S (length pn))); lia).
    f_equal. cbn [val]. lia.
Qed.

Lemma val_zero w : val (zero w) = 0.
Proof. unfold zero. induction w as [|w IH]; simpl; [done|]. lia. Qed.

Lemma zero_digits w : Forall is_digit (zero w).
Proof. apply Forall_replicate. by split. Qed.

Lemma mul_holds w a b :
  Forall is_digit a → Forall is_digit b → length a = w → length b = w → holds w (mul a b) (val a * val b).
Proof.
  intros Ha Hb <- Hl. unfold mul. eapply holds_eq.
  - apply mul_loop_ok; [apply zero_digits|done|done|unfold zero; by rewrite length_replicate|lia].
  - by rewrite val_zero.
Qed.

(** ** Bits *)
Lemma digit_testbit_high x n : is_digit x → 32 ≤ n → Z.testbit x n = false.
Proof.
  intros Hx Hn. unfold is_digit in Hx. destruct (decide (x = 0)) as [->|]; [apply Z.testbit_0_l|].
  apply Z.bits_above_log2; [lia|]. apply Z.log2_lt_pow2; [lia|].
  pose proof (Z.pow_le_mono_r 2 32 n). lia.
Qed.

Lemma testbit_cons x v n :
  is_digit x → 0 ≤ n → Z.testbit (x + 2 ^ 32 * v) n = if decide (n < 32) then Z.testbit x n else Z.testbit v (n - 32).
Proof.
  intros Hx Hn. rewrite Z.mul_comm. case_decide.
  - rewrite <- (Z.mod_pow2_bits_low (x + v * 2 ^ 32) 32) by lia. rewrite Z.mod_add by done.
    by rewrite Z.mod_pow2_bits_low by lia.
  - replace n with (n - 32 + 32) at 1 by lia. rewrite <- Z.shiftr_spec by lia.
    rewrite Z.shiftr_div_pow2, Z.div_add by lia. unfold is_digit in Hx. by rewrite Z.div_small by lia.
Qed.

(** Bit [n] of the number is bit [n mod 32] of digit [n / 32]. *)
Lemma testbit_val a n :
  Forall is_digit a → 0 ≤ n → Z.testbit (val a) n = Z.testbit (znth a (n / 32)) (n mod 32).
Proof.
  intros Ha. revert n. induction Ha as [|x a Hx Ha IH]; intros n Hn; cbn [val].
  - unfold znth. destruct (Z.to_nat (n / 32)); by rewrite !Z.testbit_0_l.
  - rewrite testbit_cons by done. case_decide.
    + by rewrite Z.div_small, Z.mod_small by lia.
    + rewrite IH by lia. replace (n / 32) with ((n - 32) / 32 + 1) by divmod_lia.
      replace ((n - 32) mod 32) with (n mod 32) by divmod_lia.
      assert (0 ≤ (n - 32) / 32) by (apply Z.div_pos; lia).
      unfold znth. by replace (Z.to_nat ((n - 32) / 32 + 1)) with (S (Z.to_nat ((n - 32) / 32))) by lia.
Qed.

Lemma znth_digit a i : Forall is_digit a → is_digit (znth a i).
Proof.
  intros Ha. destruct (decide (0 ≤ i < zlen a)); [by apply Forall_znth|].
  destruct (decide (i < 0)).
  - unfold znth. replace (Z.to_nat i) with 0%nat by lia. destruct Ha; simpl; [by split|done].
  - unfold znth, zlen in *. rewrite nth_overflow by lia. by split.
Qed.

(** Digits recovered from the bits of [x]. *)
Lemma val_of_bits a x :
  Forall is_digit a → 0 ≤ x →
  (∀ m t, 0 ≤ m < zlen a → 0 ≤ t < 32 → Z.testbit (znth a m) t = Z.testbit x (32 * m + t)) →
  val a = x mod modulus (length a).
Proof.
  intros Ha Hx H. apply Z.bits_inj'. intros n Hn. rewrite testbit_val by done.
  pose proof (Z.mod_pos_bound n 32). assert (0 ≤ n / 32) by (apply Z.div_pos; lia).
  unfold modulus. destruct (decide (n < 32 * zlen a)) as [Hlt|Hge]; unfold zlen in *.
  - rewrite Z.mod_pow2_bits_low by lia. rewrite H by divmod_lia. f_equal. divmod_lia.
  - rewrite Z.mod_pow2_bits_high by lia. unfold znth. rewrite nth_overflow; [apply Z.testbit_0_l|].
    assert (Z.of_nat (length a) ≤ n / 32) by divmod_lia. lia.
Qed.

Lemma or_at_length i v a : length (or_at i v a) = length a.
Proof. apply length_alter. Qed.

Lemma znth_or_at i v a m :
  (i < length a)%nat → 0 ≤ m → znth (or_at i v a) m = if decide (m = Z.of_nat i) then Z.lor (znth a m) v else znth a m.
Proof.
  intros Hi Hm. unfold znth, or_at. rewrite !nth_lookup. case_decide as Hd.
  - subst m. rewrite Nat2Z.id, list_lookup_alter_eq. destruct (lookup_lt_is_Some_2 a i Hi) as [x ->]. done.
  - rewrite list_lookup_alter_ne by lia. done.
Qed.

Lemma lor_digit x y : is_digit x → is_digit y → is_digit (Z.lor x y).
Proof.
  unfold is_digit. intros Hx Hy. split; [apply Z.lor_nonneg; lia|].
  destruct (decide (Z.lor x y = 0)) as [->|]; [done|].
  apply Z.log2_lt_pow2; [pose proof (proj2 (Z.lor_nonneg x y)); lia|]. rewrite Z.log2_lor by lia.
  apply Z.max_lub_lt.
  - destruct (decide (x = 0)) as [->|]; [done|]. apply Z.log2_lt_pow2; lia.
  - destruct (decide (y = 0)) as [->|]; [done|]. apply Z.log2_lt_pow2; lia.
Qed.

Lemma or_at_digits i v a : Forall is_digit a → is_digit v → Forall is_digit (or_at i v a).
Proof.
  intros Ha Hv. apply Forall_alter; [done|]. intros x _ Hx. by apply lor_digit.
Qed.

(** ** Shifts *)
Lemma foldl_seq_inv {S} (P : nat → S → Prop) (f : S → nat → S) n s :
  P O s → (∀ i s, (i < n)%nat → P i s → P (i + 1)%nat (f s i)) → P n (foldl f s (seq 0 n)).
Proof.
  intros H0 Hstep. induction n as [|n IH]; [done|].
  rewrite seq_S, foldl_app. simpl. replace (Datatypes.S n) with (n + 1)%nat by lia.
  apply Hstep; [lia|]. apply IH. intros i t Hi. apply Hstep. lia.
Qed.

Lemma testbit_u32_shl x s t :
  0 ≤ s → 0 ≤ t < 32 → Z.testbit (u32 (Z.shiftl x s)) t = if decide (s ≤ t) then Z.testbit x (t - s) else false.
Proof.
  intros Hs Ht. rewrite u32_mod, Z.mod_pow2_bits_low, Z.shiftl_spec by lia.
  case_decide; [done|]. apply Z.testbit_neg_r. lia.
Qed.

Lemma testbit_shr_digit x s t :
  is_digit x → 0 ≤ s → 0 ≤ t < 32 →
  Z.testbit (Z.shiftr x s) t = if decide (t + s < 32) then Z.testbit x (t + s) else false.
Proof.
  intros Hx Hs Ht. rewrite Z.shiftr_spec by lia. case_decide; [done|]. apply digit_testbit_high; [done|lia].
Qed.

Lemma shr_digit x s : is_digit x → 0 ≤ s → is_digit (Z.shiftr x s).
Proof.
  intros Hx Hs. unfold is_digit in *. rewrite Z.shiftr_div_pow2 by lia.
  assert (0 < 2 ^ s) by (apply Z.pow_pos_nonneg; lia).
  split; [apply Z.div_pos; lia|]. apply Z.div_lt_upper_bound; nia.
Qed.

(** A guarded [pn[j] |= v], bit by bit. *)
Lemma or_step (c : bool) j v pn w :
  length pn = w → Forall is_digit pn → is_digit v → (c = true → (j < w)%nat) →
  length (if c then or_at j v pn else pn) = w ∧ Forall is_digit (if c then or_at j v pn else pn) ∧
  ∀ m t, 0 ≤ m → 0 ≤ t < 32 →
    Z.testbit (znth (if c then or_at j v pn else pn) m) t =
    Z.testbit (znth pn m) t || (c && bool_decide (m = Z.of_nat j) && Z.testbit v t).
Proof.
  intros Hl Hd Hv Hj. destruct c.
  - specialize (Hj eq_refl). split_and!; [by rewrite or_at_length|by apply or_at_digits|].
    intros m t Hm Ht. rewrite znth_or_at by lia. case_decide as Hm'.
    + rewrite bool_decide_true by done. by rewrite Z.lor_spec.
    + rewrite bool_decide_false by done. cbn. by rewrite orb_false_r.
  - split_and!; [done..|]. intros. cbn. by rewrite orb_false_r.
Qed.

Section Shift.
Context (a : list Z) (shift : Z).
Hypothesis Ha : Forall is_digit a.
Hypothesis Hs : 0 ≤ shift.

Let k := shift / 32.
Let s := shift mod 32.

Lemma shift_parts : 0 ≤ k ∧ 0 ≤ s < 32 ∧ shift = 32 * k + s.
Proof. unfold k, s. pose proof (Z.mod_pos_bound shift 32). assert (0 ≤ shift / 32) by (apply Z.div_pos; lia). divmod_lia. Qed.

(** The bits of the result once the digits below [i] have been moved. *)
Definition shl_bit (i m t : Z) : bool :=
  if decide (s ≤ t) then (if decide (0 ≤ m - k < i) then Z.testbit (znth a (m - k)) (t - s) else false)
  else (if decide (0 ≤ m - k - 1 < i) then Z.testbit (znth a (m - k - 1)) (t + (32 - s)) else false).

Definition shr_bit (i m t : Z) : bool :=
  if decide (t + s < 32) then (if decide (m + k < i) then Z.testbit (znth a (m + k)) (t + s) else false)
  else (if decide (m + k + 1 < i) then Z.testbit (znth a (m + k + 1)) (t - (32 - s)) else false).

Lemma shl_digits :
  length (shl a shift) = length a ∧ Forall is_digit (shl a shift) ∧
  ∀ m t, 0 ≤ m < zlen a → 0 ≤ t < 32 → Z.testbit (znth (shl a shift) m) t = shl_bit (zlen a) m t.
Proof.
  destruct shift_parts as (Hk & Hs32 & _). unfold shl. fold k s.
  apply (foldl_seq_inv (λ i pn, length pn = length a ∧ Forall is_digit pn ∧
    ∀ m t, 0 ≤ m < zlen a → 0 ≤ t < 32 → Z.testbit (znth pn m) t = shl_bit (Z.of_nat i) m t)).
  - split_and!; [by unfold zero; rewrite length_replicate|apply zero_digits|].
    intros m t Hm Ht. unfold zero. unfold zlen in Hm. rewrite znth_replicate, Z.testbit_0_l by lia.
    unfold shl_bit. by repeat case_decide; try (exfalso; lia).
  - intros i pn Hi (Hl & Hd & Hb). pose proof (znth_digit a (Z.of_nat i) Ha) as Hx.
    set (x := znth a (Z.of_nat i)) in *. cbv zeta.
    destruct (or_step ((i + Z.to_nat k + 1 <? length a)%nat && negb (s =? 0)) (i + Z.to_nat k + 1)
      (Z.shiftr x (32 - s)) pn (length a) Hl Hd) as (Hl1 & Hd1 & Hb1).
    { apply shr_digit; [done|lia]. } { intros [E%Nat.ltb_lt _]%andb_true_iff. done. }
    set (pn1 := if _ && _ then _ else pn) in *.
    destruct (or_step (i + Z.to_nat k <? length a)%nat (i + Z.to_nat k)
      (u32 (Z.shiftl x s)) pn1 (length a) Hl1 Hd1) as (Hl2 & Hd2 & Hb2).
    { apply u32_bound. } { by intros E%Nat.ltb_lt. }
    split_and!; [done..|]. intros m t Hm Ht. rewrite Hb2, Hb1, Hb by lia.
    rewrite testbit_shr_digit, testbit_u32_shl by (done || lia). unfold shl_bit.
    replace (bool_decide (m = Z.of_nat (i + Z.to_nat k + 1))) with (bool_decide (m - k - 1 = Z.of_nat i))
      by (apply bool_decide_ext; lia).
    replace (bool_decide (m = Z.of_nat (i + Z.to_nat k))) with (bool_decide (m - k = Z.of_nat i))
      by (apply bool_decide_ext; lia).
    unfold zlen in Hm. destruct (decide (s ≤ t)) as [Hst|Hst].
    + rewrite (decide_False (P := t + (32 - s) < 32)) by lia. rewrite !andb_false_r, orb_false_r.
      destruct (decide (m - k = Z.of_nat i)) as [E|E].
      * rewrite bool_decide_true by done. rewrite (proj2 (Nat.ltb_lt _ _)) by lia.
        rewrite decide_False, decide_True by lia. by rewrite E.
      * rewrite bool_decide_false, andb_false_r, orb_false_r by done.
        repeat case_decide; try done; exfalso; lia.
    + rewrite (decide_True (P := t + (32 - s) < 32)) by lia. rewrite andb_false_r, orb_false_r.
      destruct (decide (m - k - 1 = Z.of_nat i)) as [E|E].
      * rewrite bool_decide_true by done. rewrite (proj2 (Nat.ltb_lt _ _)), (proj2 (Z.eqb_neq s 0)) by lia.
        rewrite decide_False, decide_True by lia. by rewrite E.
      * rewrite bool_decide_false, andb_false_r, orb_false_r by done.
        repeat case_decide; try done; exfalso; lia.
Qed.

Lemma shr_digits :
  length (shr a shift) = length a ∧ Forall is_digit (shr a shift) ∧
  ∀ m t, 0 ≤ m < zlen a → 0 ≤ t < 32 → Z.testbit (znth (shr a shift) m) t = shr_bit (zlen a) m t.
Proof.
  destruct shift_parts as (Hk & Hs32 & _). unfold shr. fold k s.
  apply (foldl_seq_inv (λ i pn, length pn = length a ∧ Forall is_digit pn ∧
    ∀ m t, 0 ≤ m < zlen a → 0 ≤ t < 32 → Z.testbit (znth pn m) t = shr_bit (Z.of_nat i) m t)).
  - split_and!; [by unfold zero; rewrite length_replicate|apply zero_digits|].
    intros m t Hm Ht. unfold zero. unfold zlen in Hm. rewrite znth_replicate, Z.testbit_0_l by lia.
    unfold shr_bit. by repeat case_decide; try (exfalso; lia).
  - intros i pn Hi (Hl & Hd & Hb). pose proof (znth_digit a (Z.of_nat i) Ha) as Hx.
    set (x := znth a (Z.of_nat i)) in *. cbv zeta.
    destruct (or_step ((Z.to_nat k + 1 <=? i)%nat && negb (s =? 0)) (i - Z.to_nat k - 1)
      (u32 (Z.shiftl x (32 - s))) pn (length a) Hl Hd) as (Hl1 & Hd1 & Hb1).
    { apply u32_bound. } { intros [E%Nat.leb_le _]%andb_true_iff. lia. }
    set (pn1 := if _ && _ then _ else pn) in *.
    destruct (or_step (Z.to_nat k <=? i)%nat (i - Z.to_nat k)
      (Z.shiftr x s) pn1 (length a) Hl1 Hd1) as (Hl2 & Hd2 & Hb2).
    { apply shr_digit; [done|lia]. } { intros E%Nat.leb_le. lia. }
    split_and!; [done..|]. intros m t Hm Ht. rewrite Hb2, Hb1, Hb by lia.
    rewrite testbit_shr_digit, testbit_u32_shl by (done || lia). unfold shr_bit. unfold zlen in Hm.
    destruct (decide (t + s < 32)) as [Hst|Hst].
    + rewrite (decide_False (P := 32 - s ≤ t)) by lia. rewrite andb_false_r, orb_false_r.
      destruct (decide (m + k = Z.of_nat i)) as [E|E].
      * rewrite (bool_decide_true (m = Z.of_nat (i - Z.to_nat k))) by lia. rewrite (proj2 (Nat.leb_le _ _)) by lia.
        rewrite decide_False, decide_True by lia. by rewrite E.
      * replace ((Z.to_nat k <=? i)%nat && bool_decide (m = Z.of_nat (i - Z.to_nat k))) with false.
        2: { symmetry. apply andb_false_iff. destruct (Nat.leb_spec (Z.to_nat k) i); [right|by left]. apply bool_decide_false. lia. }
        rewrite orb_false_r. repeat case_decide; try done; exfalso; lia.
    + rewrite (decide_True (P := 32 - s ≤ t)) by lia. rewrite !andb_false_r, orb_false_r.
      destruct (decide (m + k + 1 = Z.of_nat i)) as [E|E].
      * rewrite (bool_decide_true (m = Z.of_nat (i - Z.to_nat k - 1))) by lia.
        rewrite (proj2 (Nat.leb_le _ _)), (proj2 (Z.eqb_neq s 0)) by lia.
        rewrite decide_False, decide_True by lia. by rewrite E.
      * replace ((Z.to_nat k + 1 <=? i)%nat && negb (s =? 0) && bool_decide (m = Z.of_nat (i - Z.to_nat k - 1))) with false.
        2: { symmetry. destruct (Nat.leb_spec (Z.to_nat k + 1) i); [|done]. rewrite bool_decide_false by lia. apply andb_false_r. }
        rewrite orb_false_r. repeat case_decide; try done; exfalso; lia.
Qed.

Lemma shl_holds : holds (length a) (shl a shift) (val a * 2 ^ shift).
Proof.
  destruct shl_digits as (Hl & Hd & Hb). destruct shift_parts as (Hk & Hs32 & E).
  pose proof (val_bound a Ha) as Hva. assert (0 < 2 ^ shift) by (apply Z.pow_pos_nonneg; lia).
  split_and!; [done..|]. rewrite <- Hl at 1. apply val_of_bits; [done|nia|].
  intros m t Hm Ht. unfold zlen in Hm. rewrite Hl in Hm. rewrite Hb by done.
  rewrite <- Z.shiftl_mul_pow2, Z.shiftl_spec by lia. unfold shl_bit.
  destruct (decide (32 * m + t - shift < 0)) as [Hneg|Hpos].
  { rewrite (Z.testbit_neg_r (val a)) by done. repeat case_decide; try done; exfalso; lia. }
  rewrite (testbit_val a (32 * m + t - shift)) by (done || lia). case_decide as Hst.
  - replace ((32 * m + t - shift) / 32) with (m - k) by (apply (Z.div_unique _ _ _ (t - s)); lia).
    replace ((32 * m + t - shift) mod 32) with (t - s) by (apply (Z.mod_unique _ _ (m - k)); lia).
    by rewrite decide_True by (unfold zlen; lia).
  - replace ((32 * m + t - shift) / 32) with (m - k - 1) by (apply (Z.div_unique _ _ _ (t + (32 - s))); lia).
    replace ((32 * m + t - shift) mod 32) with (t + (32 - s)) by (apply (Z.mod_unique _ _ (m - k - 1)); lia).
    by rewrite decide_True by (unfold zlen; lia).
Qed.

Lemma shr_val : length (shr a shift) = length a ∧ Forall is_digit (shr a shift) ∧ val (shr a shift) = val a / 2 ^ shift.
Proof.
  destruct shr_digits as (Hl & Hd & Hb). destruct shift_parts as (Hk & Hs32 & E).
  pose proof (val_bound a Ha) as Hva. assert (0 < 2 ^ shift) by (apply Z.pow_pos_nonneg; lia).
  split_and!; [done..|]. assert (0 ≤ val a / 2 ^ shift) by (apply Z.div_pos; lia).
  assert (val a / 2 ^ shift ≤ val a) by (apply Z.div_le_upper_bound; nia).
  rewrite <- (Z.mod_small (val a / 2 ^ shift) (modulus (length a))) by lia.
  rewrite <- Hl at 1. apply val_of_bits; [done|lia|].
  intros m t Hm Ht. unfold zlen in Hm. rewrite Hl in Hm. rewrite Hb by done.
  rewrite <- Z.shiftr_div_pow2, Z.shiftr_spec, testbit_val by (done || lia). unfold shr_bit.
  assert (∀ q, Z.of_nat (length a) ≤ q → znth a q = 0) as Hover.
  { intros q Hq. unfold znth. apply nth_overflow. lia. }
  case_decide as Hst.
  - replace ((32 * m + t + shift) / 32) with (m + k) by (apply (Z.div_unique _ _ _ (t + s)); lia).
    replace ((32 * m + t + shift) mod 32) with (t + s) by (apply (Z.mod_unique _ _ (m + k)); lia).
    case_decide; [done|]. by rewrite Hover, Z.testbit_0_l by (unfold zlen in *; lia).
  - replace ((32 * m + t + shift) / 32) with (m + k + 1) by (apply (Z.div_unique _ _ _ (t - (32 - s))); lia).
    replace ((32 * m + t + shift) mod 32) with (t - (32 - s)) by (apply (Z.mod_unique _ _ (m + k + 1)); lia).
    case_decide; [done|]. by rewrite Hover, Z.testbit_0_l by (unfold zlen in *; lia).
Qed.
End Shift.

(** ** Comparison and bit length *)
Lemma compare_app a b x y :
  Forall is_digit a → Forall is_digit b → length a = length b → is_digit x → is_digit y →
  (val (a ++ [x]) ?= val (b ++ [y])) = match x ?= y with Eq => val a ?= val b | c => c end.
Proof.
  intros Ha Hb Hl Hx Hy.
  assert (∀ l z, val (l ++ [z]) = val l + modulus (length l) * z) as Happ.
  { induction l as [|u l IH]; intros z; cbn [app val length].
    - change (modulus 0) with 1. lia.
    - rewrite IH, modulus_S. lia. }
  rewrite !Happ, <- Hl. pose proof (val_bound a Ha) as Hva. pose proof (val_bound b Hb) as Hvb.
  rewrite <- Hl in Hvb. destruct (Z.compare_spec x y) as [->|Hlt|Hgt].
  - destruct (Z.compare_spec (val a) (val b)); [apply Z.compare_eq_iff; lia|apply Z.compare_lt_iff; lia|apply Z.compare_gt_iff; lia].
  - apply Z.compare_lt_iff. nia.
  - apply Z.compare_gt_iff. nia.
Qed.

(** [CompareTo] is the numeric order. *)
Lemma CompareTo_val a b :
  Forall is_digit a → Forall is_digit b → length a = length b →
  CompareTo a b = match val a ?= val b with Lt => -1 | Eq => 0 | Gt => 1 end.
Proof.
  intros Ha Hb. revert b Hb. induction a as [|x a IH] using rev_ind; intros b Hb Hl.
  - destruct b; [done|done].
  - destruct b as [|y b _] using rev_ind; [rewrite length_app in Hl; simpl in Hl; lia|].
    rewrite !length_app in Hl. simpl in Hl. apply Forall_app in Ha as [Ha [Hx _]%Forall_cons_iff].
    apply Forall_app in Hb as [Hb [Hy _]%Forall_cons_iff]. rewrite compare_app by (done || lia).
    unfold CompareTo. rewrite !reverse_app. cbn [reverse rev_append app compare_loop].
    fold (CompareTo a b). destruct (Z.compare_spec x y) as [->|Hlt|Hgt].
    + rewrite Z.ltb_irrefl. apply IH; [done..|lia].
    + by rewrite (proj2 (Z.ltb_lt x y)) by lia.
    + rewrite (proj2 (Z.ltb_ge x y)), (proj2 (Z.ltb_lt y x)) by lia. done.
Qed.

Section Compare.
Context (a b : list Z).
Hypothesis Ha : Forall is_digit a.
Hypothesis Hb : Forall is_digit b.
Hypothesis Hl : length a = length b.

Lemma leb_val : leb a b = (val a <=? val b).
Proof. unfold leb. rewrite CompareTo_val by done. unfold Z.leb. by destruct (val a ?= val b). Qed.
Lemma ltb_val : ltb a b = (val a <? val b).
Proof. unfold ltb. rewrite CompareTo_val by done. unfold Z.ltb. by destruct (val a ?= val b). Qed.
Lemma geb_val : geb a b = (val b <=? val a).
Proof.
  unfold geb. rewrite CompareTo_val, (Z.compare_antisym (val b)) by done. unfold Z.leb.
  by destruct (val b ?= val a).
Qed.
Lemma gtb_val : gtb a b = (val b <? val a).
Proof.
  unfold gtb. rewrite CompareTo_val, (Z.compare_antisym (val b)) by done. unfold Z.ltb.
  by destruct (val b ?= val a).
Qed.
End Compare.

Lemma digit_bits_log2 x n : 0 < x < 2 ^ (Z.of_nat n + 1) → digit_bits x n = Z.log2 x + 1.
Proof.
  induction n as [|n IH]; intros Hx.
  - simpl in *. assert (x = 1) as -> by lia. done.
  - cbn [digit_bits]. rewrite Z.shiftl_1_l.
    assert (Z.land x (2 ^ Z.of_nat (S n)) = if Z.testbit x (Z.of_nat (S n)) then 2 ^ Z.of_nat (S n) else 0) as ->.
    { apply Z.bits_inj'. intros m Hm. rewrite Z.land_spec, Z.pow2_bits_eqb by lia.
      destruct (Z.eqb_spec (Z.of_nat (S n)) m) as [<-|Hne].
      - destruct (Z.testbit x _); [by rewrite Z.pow2_bits_true by lia|by rewrite Z.testbit_0_l].
      - rewrite andb_false_r. destruct (Z.testbit x (Z.of_nat (S n))); [by rewrite Z.pow2_bits_false|by rewrite Z.testbit_0_l]. }
    destruct (Z.testbit x (Z.of_nat (S n))) eqn:E.
    + rewrite (proj2 (Z.eqb_neq _ 0)) by (apply Z.pow_nonzero; lia). cbn [negb]. f_equal.
      symmetry. apply Z.log2_unique; [lia|]. split; [|rewrite <- Z.add_1_r; apply Hx].
      destruct (Z.le_gt_cases (2 ^ Z.of_nat (S n)) x) as [|Hlt]; [done|exfalso].
      rewrite Z.bits_above_log2 in E; [done|lia|]. apply Z.log2_lt_pow2; lia.
    + cbn [Z.eqb negb]. apply IH. split; [lia|].
      replace (Z.of_nat n + 1) with (Z.of_nat (S n)) by lia.
      destruct (Z.le_gt_cases (2 ^ Z.of_nat (S n)) x) as [Hle|]; [exfalso|done].
      assert (Z.log2 x = Z.of_nat (S n)) as Hlog.
      { apply Z.log2_unique; [lia|]. split; [done|]. rewrite <- Z.add_1_r. apply Hx. }
      rewrite <- Hlog, Z.bit_log2 in E by lia. done.
Qed.

(** [bits()]: the position of the highest set bit plus one. *)
Definition bit_length (x : Z) : Z := if decide (x = 0) then 0 else Z.log2 x + 1.

Lemma val_snoc l z : val (l ++ [z]) = val l + modulus (length l) * z.
Proof.
  induction l as [|u l IH]; cbn [app val length].
  - change (modulus 0) with 1. lia.
  - rewrite IH, modulus_S. lia.
Qed.

Lemma bits_val a : Forall is_digit a → bits a = bit_length (val a).
Proof.
  unfold bits. induction a as [|x a IH] using rev_ind; intros Ha; [done|].
  apply Forall_app in Ha as [Ha [Hx _]%Forall_cons_iff]. rewrite reverse_app.
  cbn [reverse rev_append app bits_loop]. rewrite val_snoc. destruct (Z.eqb_spec x 0) as [->|Hne].
  - change (rev_append a []) with (reverse a). by rewrite Z.mul_0_r, Z.add_0_r, IH.
  - change (rev_append a []) with (reverse a). unfold is_digit in Hx.
    rewrite digit_bits_log2 by (simpl; lia). unfold zlen. rewrite length_reverse.
    pose proof (val_bound a Ha) as Hv. pose proof (modulus_pos (length a)).
    unfold bit_length. rewrite decide_False by nia.
    rewrite Z.add_assoc. f_equal. symmetry. apply Z.log2_unique; [pose proof (Z.log2_nonneg x); lia|].
    destruct (Z.log2_spec x) as [Hlo Hhi]; [lia|]. pose proof (Z.log2_nonneg x).
    rewrite <- Z.add_succ_r, !Z.pow_add_r by lia. fold (modulus (length a)). split; nia.
Qed.

Lemma or_at_val i v a :
  Forall is_digit a → (i < length a)%nat → is_digit v →
  Forall is_digit (or_at i v a) ∧ val (or_at i v a) = Z.lor (val a) (v * 2 ^ (32 * Z.of_nat i)).
Proof.
  intros Ha Hi Hv. pose proof (or_at_digits i v a Ha Hv) as Hd. split; [done|].
  apply Z.bits_inj'. intros n Hn. rewrite Z.lor_spec, !testbit_val by done.
  assert (0 ≤ n / 32) by (apply Z.div_pos; lia). pose proof (Z.mod_pos_bound n 32 ltac:(lia)).
  rewrite <- Z.shiftl_mul_pow2, Z.shiftl_spec by lia. rewrite znth_or_at by done. case_decide as E.
  - rewrite Z.lor_spec. do 2 f_equal. divmod_lia.
  - replace (Z.testbit v (n - 32 * Z.of_nat i)) with false; [by rewrite orb_false_r|]. symmetry.
    destruct (decide (n < 32 * Z.of_nat i)); [apply Z.testbit_neg_r; lia|].
    apply digit_testbit_high; [done|divmod_lia].
Qed.

Lemma lor_pow2 q n : 0 ≤ n → q mod 2 ^ (n + 1) = 0 → Z.lor q (2 ^ n) = q + 2 ^ n.
Proof.
  intros Hn Hq. pose proof (Z.add_lor_land q (2 ^ n)) as E.
  assert (Z.land q (2 ^ n) = 0) as Hz; [|lia]. apply Z.bits_inj'. intros m Hm.
  rewrite Z.land_spec, Z.testbit_0_l, Z.pow2_bits_eqb by lia.
  destruct (Z.eqb_spec n m) as [<-|]; [|by rewrite andb_false_r].
  rewrite <- (Z.mod_pow2_bits_low q (n + 1)) by lia. by rewrite Hq, Z.testbit_0_l.
Qed.

(** ** Division *)
Lemma set_bit_ok w q sh :
  length q = w → Forall is_digit q → (sh < 32 * w)%nat → val q mod 2 ^ (Z.of_nat sh + 1) = 0 →
  let q' := or_at (sh / 32) (Z.shiftl 1 (Z.land (Z.of_nat sh) 31)) q in
  length q' = w ∧ Forall is_digit q' ∧ val q' = val q + 2 ^ Z.of_nat sh.
Proof.
  intros Hl Hd Hsh Hm q'. unfold q'. rewrite (land_mask _ 5), Z.shiftl_1_l by done. change (2 ^ 5) with 32.
  pose proof (Z.mod_pos_bound (Z.of_nat sh) 32 ltac:(lia)).
  assert (0 ≤ 2 ^ (Z.of_nat sh mod 32) < 2 ^ 32) by (split; [apply Z.pow_nonneg; lia|apply Z.pow_lt_mono_r; lia]).
  destruct (or_at_val (sh / 32) (2 ^ (Z.of_nat sh mod 32)) q) as [H1 H2]; [done| |done|].
  { rewrite Hl. apply Nat.Div0.div_lt_upper_bound. lia. }
  split_and!; [by rewrite or_at_length|done|]. rewrite H2, <- Z.pow_add_r by lia.
  replace (Z.of_nat sh mod 32 + 32 * Z.of_nat (sh / 32)) with (Z.of_nat sh).
  - apply lor_pow2; [lia|done].
  - rewrite Nat2Z.inj_div. change (Z.of_nat 32) with 32. pose proof (Z.div_mod (Z.of_nat sh) 32). lia.
Qed.

Lemma div_loop_ok w d left q num div :
  0 < d → (left ≤ 32 * w)%nat →
  length q = w → Forall is_digit q → val q mod 2 ^ Z.of_nat left = 0 →
  length num = w → Forall is_digit num → val num < d * 2 ^ Z.of_nat left →
  length div = w → Forall is_digit div → ((0 < left)%nat → val div = d * 2 ^ (Z.of_nat left - 1)) →
  let '(q', r) := div_loop left q num div in
  length q' = w ∧ Forall is_digit q' ∧ val q' = val q + val num / d ∧
  length r = w ∧ Forall is_digit r ∧ val r = val num mod d.
Proof.
  intros Hd. revert q num div. induction left as [|sh IH];
    intros q num div Hle Hlq Hdq Hq Hln Hdn Hnum Hldiv Hddiv Hdiv.
  - simpl in *. pose proof (val_bound num Hdn). rewrite Z.div_small, Z.mod_small by lia.
    split_and!; try done. lia.
  - cbn [div_loop]. specialize (Hdiv ltac:(lia)). replace (Z.of_nat (S sh) - 1) with (Z.of_nat sh) in Hdiv by lia.
    replace (Z.of_nat (S sh)) with (Z.of_nat sh + 1) in Hq, Hnum by lia.
    rewrite Z.pow_add_r in Hnum by lia. set (P := 2 ^ Z.of_nat sh) in *.
    assert (0 < P) by (apply Z.pow_pos_nonneg; lia).
    destruct (shr_val div 1 Hddiv ltac:(lia)) as (Hls & Hds & Hvs). rewrite Hldiv in Hls.
    assert ((0 < sh)%nat → val (shr div 1) = d * 2 ^ (Z.of_nat sh - 1)) as Hvs'.
    { intros Hsh. rewrite Hvs, Hdiv. unfold P. replace (Z.of_nat sh) with (Z.of_nat sh - 1 + 1) at 1 by lia.
      rewrite Z.pow_add_r, Z.mul_assoc by lia. by apply Z.div_mul. }
    rewrite geb_val by congruence. pose proof (val_bound num Hdn) as Hvn. destruct (Z.leb_spec (val div) (val num)) as [Hge|Hlt].
    + destruct (sub_holds w num div Hdn Hddiv Hln Hldiv) as (Hl1 & Hd1 & Hv1).
      rewrite Z.mod_small in Hv1 by (rewrite Hln in Hvn; nia).
      destruct (set_bit_ok w q sh Hlq Hdq ltac:(lia) Hq) as (Hl2 & Hd2 & Hv2).
      cbv zeta in Hl2, Hd2, Hv2. set (q' := or_at _ _ q) in *.
      specialize (IH q' (sub num div) (shr div 1)). destruct (div_loop sh q' (sub num div) (shr div 1)) as [q2 r2].
      destruct IH as (I1 & I2 & I3 & I4 & I5 & I6); [lia|done|done| |done|done|nia|done|done|done|].
      { rewrite Hv2. fold P. replace (2 ^ (Z.of_nat sh + 1)) with (P * 2) in Hq by (unfold P; by rewrite Z.pow_add_r by lia).
        apply Z.mod_divide in Hq as [z Hz]; [|lia]. rewrite Hz.
        replace (z * (P * 2) + P) with ((2 * z + 1) * P) by lia. apply Z.mod_mul. lia. }
      split_and!; try done.
      * rewrite I3, Hv2, Hv1, Hdiv. fold P.
        replace (val num - d * P) with (val num + (- P) * d) by lia. rewrite Z.div_add by lia. lia.
      * rewrite I6, Hv1, Hdiv. replace (val num - d * P) with (val num + (- P) * d) by lia. apply Z.mod_add. lia.
    + specialize (IH q num (shr div 1)). destruct (div_loop sh q num (shr div 1)) as [q2 r2].
      apply IH; try done; try lia.
      replace (2 ^ (Z.of_nat sh + 1)) with (P * 2) in Hq by (unfold P; by rewrite Z.pow_add_r by lia).
      fold P. apply Z.mod_divide in Hq as [z Hz]; [|lia]. rewrite Hz, Z.mul_assoc, (Z.mul_comm (z * P)), Z.mul_assoc.
      rewrite Z.mod_mul by lia. done.
Qed.

Lemma bit_length_spec x : 0 < x → 2 ^ (bit_length x - 1) ≤ x < 2 ^ bit_length x.
Proof.
  intros Hx. unfold bit_length. rewrite decide_False by lia.
  replace (Z.log2 x + 1 - 1) with (Z.log2 x) by lia. rewrite Z.add_1_r. by apply Z.log2_spec.
Qed.

Lemma bit_length_nonneg x : 0 ≤ bit_length x.
Proof. unfold bit_length. case_decide; [lia|]. pose proof (Z.log2_nonneg x). lia. Qed.

Lemma bit_length_pos x : 0 < x → 0 < bit_length x.
Proof. intros Hx. unfold bit_length. rewrite decide_False by lia. pose proof (Z.log2_nonneg x). lia. Qed.

Lemma bit_length_le x n : 0 ≤ x < 2 ^ n → 0 ≤ n → bit_length x ≤ n.
Proof.
  intros Hx Hn. unfold bit_length. case_decide; [done|].
  pose proof (proj1 (Z.log2_lt_pow2 x n ltac:(lia)) ltac:(lia)). lia.
Qed.

Lemma divmod_ok w a b :
  Forall is_digit a → Forall is_digit b → length a = w → length b = w → val b ≠ 0 →
  ∃ q r, divmod a b = Ok (q, r) ∧
    length q = w ∧ Forall is_digit q ∧ val q = val a / val b ∧
    length r = w ∧ Forall is_digit r ∧ val r = val a mod val b.
Proof.
  intros Ha Hb Hla Hlb Hne. pose proof (val_bound a Ha) as Hva. pose proof (val_bound b Hb) as Hvb.
  unfold divmod. rewrite !bits_val by done. pose proof (bit_length_spec (val b) ltac:(lia)) as Hbb.
  pose proof (bit_length_nonneg (val a)). pose proof (bit_length_pos (val b) ltac:(lia)).
  rewrite (proj2 (Z.eqb_neq _ 0)).
  2: lia.
  cbn [throw_if]. rewrite bind_Ok. rewrite Hla, Hlb in *. unfold modulus in Hva.
  pose proof (bit_length_le (val a) (32 * Z.of_nat w) Hva ltac:(lia)) as Hna.
  destruct (Z.ltb_spec (bit_length (val a)) (bit_length (val b))) as [Hlt|Hge].
  - assert (val a < val b) as Hsm.
    { destruct (decide (val a = 0)); [lia|]. pose proof (bit_length_spec (val a) ltac:(lia)).
      pose proof (Z.pow_le_mono_r 2 (bit_length (val a)) (bit_length (val b) - 1)). lia. }
    eexists _, _. split; [done|]. rewrite Z.div_small, Z.mod_small by lia.
    split_and!; try done; [by unfold zero; rewrite length_replicate|apply zero_digits|apply val_zero].
  - set (sh := bit_length (val a) - bit_length (val b)) in *.
    assert (0 < val a) as Hpa.
    { destruct (decide (val a = 0)) as [E|]; [|lia]. unfold sh in *. rewrite E in Hge. change (bit_length 0) with 0 in Hge. lia. }
    pose proof (bit_length_spec (val a) Hpa) as Hba.
    destruct (shl_holds b sh Hb ltac:(lia)) as (Hl1 & Hd1 & Hv1). rewrite Hlb in *.
    assert (0 < 2 ^ sh) by (apply Z.pow_pos_nonneg; lia).
    assert (2 ^ bit_length (val a) = 2 ^ bit_length (val b) * 2 ^ sh) as Hpow.
    { rewrite <- Z.pow_add_r by lia. f_equal. lia. }
    assert (2 ^ bit_length (val a) ≤ modulus w) by (apply Z.pow_le_mono_r; lia).
    assert (2 ^ bit_length (val b) = 2 ^ (bit_length (val b) - 1) * 2) as Hpb.
    { rewrite <- (Z.pow_add_r 2 _ 1) by lia. f_equal. lia. }
    rewrite Z.mod_small in Hv1 by nia.
    pose proof (div_loop_ok w (val b) (S (Z.to_nat sh)) (zero w) a (shl b sh)) as HL.
    destruct (div_loop (S (Z.to_nat sh)) (zero w) a (shl b sh)) as [q r].
    destruct HL as (I1 & I2 & I3 & I4 & I5 & I6); try done.
    + lia.
    + lia.
    + unfold zero. by rewrite length_replicate.
    + apply zero_digits.
    + by rewrite val_zero, Z.mod_0_l by (apply Z.pow_nonzero; lia).
    + replace (Z.of_nat (S (Z.to_nat sh))) with (sh + 1) by lia. rewrite Z.pow_add_r by lia. nia.
    + intros _. rewrite Hv1. do 2 f_equal. lia.
    + exists q, r. rewrite val_zero, Z.add_0_l in I3. split_and!; done.
Qed.

Lemma div_zero a b : Forall is_digit b → val b = 0 → div a b = Err (ERuntime "Division by zero").
Proof. intros Hb E. unfold div, divmod. rewrite (bits_val b Hb), E. done. Qed.

(** ** 256-bit numbers, bytes and the compact format *)
Definition is_arith (a : list Z) : Prop := length a = WIDTH ∧ Forall is_digit a.

Lemma is_arith_bound a : is_arith a → 0 ≤ val a < 2 ^ 256.
Proof. intros [Hl Hd]. pose proof (val_bound a Hd) as Hv. by rewrite Hl in Hv. Qed.

Lemma is_arith_inj a b : is_arith a → is_arith b → val a = val b → a = b.
Proof. intros [Hla Ha] [Hlb Hb] E. by apply val_inj; [..|congruence|]. Qed.

Lemma le_word_app l1 l2 : le_word (l1 ++ l2) = le_word l1 + 2 ^ (8 * zlen l1) * le_word l2.
Proof.
  unfold zlen. induction l1 as [|x l1 IH]; cbn [app le_word length]; [simpl; lia|].
  rewrite IH. replace (8 * Z.of_nat (S (length l1))) with (8 + 8 * Z.of_nat (length l1)) by lia.
  rewrite Z.pow_add_r by lia. lia.
Qed.

(** The digits read from [4 w] bytes hold their little-endian value. *)
Lemma digits_of_bytes w l :
  length l = (4 * w)%nat → Forall is_byte l →
  Forall is_digit ((λ x, ReadLE32 (drop (x * 4) l)) <$> seq 0 w) ∧
  val ((λ x, ReadLE32 (drop (x * 4) l)) <$> seq 0 w) = le_word l.
Proof.
  revert l. induction w as [|w IH]; intros l Hl Hb; [by destruct l|].
  rewrite <- (take_drop 4 l), <- cons_seq, <- fmap_S_seq. cbn [fmap list_fmap].
  rewrite <- list_fmap_compose. set (hd := take 4 l). set (tl := drop 4 l).
  assert (length hd = 4%nat) as Hh by (unfold hd; rewrite length_take; lia).
  assert (ReadLE32 (drop (0 * 4) (hd ++ tl)) = le_word hd) as ->.
  { unfold ReadLE32. change (0 * 4)%nat with 0%nat. by rewrite drop_0, take_app_length' by done. }
  assert (Forall is_byte hd) as Hbh by (by apply Forall_take).
  pose proof (le_word_bound hd Hbh) as Hbd. unfold zlen in Hbd. rewrite Hh in Hbd.
  rewrite (list_fmap_ext _ (λ x, ReadLE32 (drop (x * 4) tl)) (seq 0 w)).
  2: { intros i x _. unfold compose. do 1 f_equal. cbn [Nat.mul]. rewrite drop_app. rewrite Hh.
       rewrite drop_ge by lia. cbn [app]. f_equal. lia. }
  destruct (IH tl) as [I1 I2].
  { unfold tl. rewrite length_drop. lia. } { by apply Forall_drop. }
  split; [by constructor|]. cbn [val]. rewrite I2, le_word_app. unfold zlen. rewrite Hh. done.
Qed.

Lemma UintToArith256_ok l :
  length l = 32%nat → Forall is_byte l → is_arith (UintToArith256 l) ∧ val (UintToArith256 l) = le_word l.
Proof.
  intros Hl Hb. destruct (digits_of_bytes WIDTH l Hl Hb) as [H1 H2]. split; [|done]. split; [done|done].
Qed.

Lemma bytes_of_digits a :
  Forall is_digit a →
  length (ArithToUint256 a) = (4 * length a)%nat ∧ Forall is_byte (ArithToUint256 a) ∧ le_word (ArithToUint256 a) = val a.
Proof.
  unfold ArithToUint256. induction 1 as [|x a Hx Ha (I1 & I2 & I3)]; [split_and!; constructor|].
  rewrite fmap_cons. cbn [concat]. rewrite length_app, le_word_app. unfold zlen.
  assert (length (WriteLE32 x) = 4%nat) as -> by apply length_le_bytes.
  assert (le_word (WriteLE32 x) = x) as ->.
  { unfold WriteLE32. rewrite le_word_le_bytes. by apply Z.mod_small. }
  split_and!; [cbn [length]; lia|apply Forall_app; split; [apply le_bytes_is_byte|done]|].
  rewrite I3. done.
Qed.

Lemma ArithToUint256_ok a :
  is_arith a → length (ArithToUint256 a) = 32%nat ∧ Forall is_byte (ArithToUint256 a) ∧ le_word (ArithToUint256 a) = val a.
Proof. intros [Hl Hd]. destruct (bytes_of_digits a Hd) as (H1 & H2 & H3). rewrite Hl in H1. done. Qed.

Lemma le_word_inj l1 l2 :
  Forall is_byte l1 → Forall is_byte l2 → length l1 = length l2 → le_word l1 = le_word l2 → l1 = l2.
Proof. intros H1 H2 Hl E. by rewrite <- (le_bytes_le_word l1), <- (le_bytes_le_word l2), E, Hl. Qed.

Lemma arith_roundtrip a : is_arith a → UintToArith256 (ArithToUint256 a) = a.
Proof.
  intros Ha. destruct (ArithToUint256_ok a Ha) as (H1 & H2 & H3).
  destruct (UintToArith256_ok _ H1 H2) as [H4 H5]. apply is_arith_inj; [done..|]. by rewrite H5, H3.
Qed.

Lemma uint256_roundtrip l :
  length l = 32%nat → Forall is_byte l → ArithToUint256 (UintToArith256 l) = l.
Proof.
  intros Hl Hb. destruct (UintToArith256_ok l Hl Hb) as [H1 H2].
  destruct (ArithToUint256_ok _ H1) as (H3 & H4 & H5). apply le_word_inj; [done..|congruence|congruence].
Qed.

Lemma of_u64_ok b : 0 ≤ b < 2 ^ 64 → is_arith (of_u64 WIDTH b) ∧ val (of_u64 WIDTH b) = b.
Proof.
  intros Hb. unfold of_u64, WIDTH. rewrite Z.shiftr_div_pow2 by lia. split.
  - split; [done|]. repeat constructor; try apply u32_bound; done.
  - cbn [val replicate Nat.sub]. rewrite !u32_mod, (Z.mod_small (b / 2 ^ 32)).
    + pose proof (Z.div_mod b (2 ^ 32)). lia.
    + split; [apply Z.div_pos; lia|]. apply Z.div_lt_upper_bound; lia.
Qed.

Lemma shl_arith a n : is_arith a → 0 ≤ n → is_arith (shl a n) ∧ val (shl a n) = (val a * 2 ^ n) mod 2 ^ 256.
Proof.
  intros [Hl Hd] Hn. destruct (shl_holds a n Hd Hn) as (H1 & H2 & H3). rewrite Hl in *. done.
Qed.

Lemma shr_arith a n : is_arith a → 0 ≤ n → is_arith (shr a n) ∧ val (shr a n) = val a / 2 ^ n.
Proof. intros [Hl Hd] Hn. destruct (shr_val a n Hd Hn) as (H1 & H2 & H3). rewrite Hl in *. done. Qed.

Lemma GetLow64_ok a : is_arith a → GetLow64 a = val a mod 2 ^ 64.
Proof.
  intros [Hl Hd]. destruct a as [|x [|y a]]; [done..|].
  apply Forall_cons_iff in Hd as [Hx Hd]. apply Forall_cons_iff in Hd as [Hy Hd].
  unfold GetLow64. cbn [val]. change (znth (x :: y :: a) 0) with x. change (znth (x :: y :: a) 1) with y.
  unfold is_digit in *. rewrite Z.shiftl_mul_pow2 by lia.
  replace (Z.lor x (y * 2 ^ 32)) with (x + y * 2 ^ 32).
  - replace (x + 2 ^ 32 * (y + 2 ^ 32 * val a)) with (x + y * 2 ^ 32 + val a * 2 ^ 64) by lia.
    rewrite Z.mod_add, Z.mod_small by lia. done.
  - pose proof (Z.add_lor_land x (y * 2 ^ 32)) as E. assert (Z.land x (y * 2 ^ 32) = 0); [|lia].
    apply Z.bits_inj'. intros n Hn. rewrite Z.land_spec, Z.testbit_0_l.
    destruct (decide (n < 32)); [rewrite Z.mul_pow2_bits_low by lia; apply andb_false_r|].
    by rewrite digit_testbit_high by (unfold is_digit; lia).
Qed.

(** ** The operators on 256-bit numbers, as integers *)
Lemma mul_arith a b : is_arith a → is_arith b → is_arith (mul a b) ∧ val (mul a b) = (val a * val b) mod 2 ^ 256.
Proof. intros [Hl Hd] [Hl' Hd']. destruct (mul_holds WIDTH a b) as (H1 & H2 & H3); done. Qed.

Lemma mul32_arith a f : is_arith a → 0 ≤ f < 2 ^ 32 → is_arith (mul32 a f) ∧ val (mul32 a f) = (val a * f) mod 2 ^ 256.
Proof. intros [Hl Hd] Hf. destruct (mul32_holds a f Hd Hf) as (H1 & H2 & H3). rewrite Hl in *. done. Qed.

Lemma add_arith a b : is_arith a → is_arith b → is_arith (add a b) ∧ val (add a b) = (val a + val b) mod 2 ^ 256.
Proof. intros [Hl Hd] [Hl' Hd']. destruct (add_holds WIDTH a b) as (H1 & H2 & H3); done. Qed.

Lemma sub_arith a b : is_arith a → is_arith b → is_arith (sub a b) ∧ val (sub a b) = (val a - val b) mod 2 ^ 256.
Proof. intros [Hl Hd] [Hl' Hd']. destruct (sub_holds WIDTH a b) as (H1 & H2 & H3); done. Qed.

Lemma div_arith a b : is_arith a → is_arith b → val b ≠ 0 →
  ∃ q, div a b = Ok q ∧ is_arith q ∧ val q = val a / val b.
Proof.
  intros [Hl Hd] [Hl' Hd'] Hn. destruct (divmod_ok WIDTH a b Hd Hd' Hl Hl' Hn) as (q & r & E & H1 & H2 & H3 & _).
  exists q. unfold div. rewrite E, bind_Ok. done.
Qed.

Lemma bnot_arith a : is_arith a → is_arith (bnot a) ∧ val (bnot a) = 2 ^ 256 - 1 - val a.
Proof.
  intros [Hl Hd]. destruct (bnot_ok a Hd) as [H1 H2]. rewrite Hl in H2. split; [|done].
  split; [|done]. unfold bnot. by rewrite length_fmap.
Qed.

Lemma zero_arith : is_arith (zero WIDTH) ∧ val (zero WIDTH) = 0.
Proof. split; [split; [done|apply zero_digits]|apply val_zero]. Qed.

Lemma forallb_zero_val l : Forall is_digit l → forallb (λ x, x =? 0) l = (val l =? 0).
Proof.
  induction 1 as [|x l Hx Hl IH]; [done|]. cbn [forallb val]. rewrite IH.
  pose proof (val_bound l Hl). unfold is_digit in Hx.
  destruct (Z.eqb_spec x 0), (Z.eqb_spec (val l) 0), (Z.eqb_spec (x + 2 ^ 32 * val l) 0); try done; lia.
Qed.

Lemma EqualTo_val a b : is_arith a → 0 ≤ b < 2 ^ 64 → EqualTo a b = (val a =? b).
Proof.
  intros [Hl Hd] Hb. destruct a as [|x [|y a]]; [done..|].
  apply Forall_cons_iff in Hd as [Hx Hd]. apply Forall_cons_iff in Hd as [Hy Hd].
  unfold EqualTo. change (znth (x :: y :: a) 0) with x. change (znth (x :: y :: a) 1) with y.
  change (drop 2 (x :: y :: a)) with a. rewrite forallb_zero_val by done. cbn [val].
  rewrite Z.shiftr_div_pow2, (land_mask b 32) by done. pose proof (val_bound a Hd). unfold is_digit in *.
  pose proof (Z.div_mod b (2 ^ 32) ltac:(lia)). pose proof (Z.mod_pos_bound b (2 ^ 32) ltac:(lia)).
  assert (0 ≤ b / 2 ^ 32 < 2 ^ 32) by (split; [apply Z.div_pos|apply Z.div_lt_upper_bound]; lia).
  destruct (Z.eqb_spec (val a) 0), (Z.eqb_spec y (b / 2 ^ 32)), (Z.eqb_spec x (b mod 2 ^ 32)),
    (Z.eqb_spec (x + 2 ^ 32 * (y + 2 ^ 32 * val a)) b); try done; exfalso; lia.
Qed.

Section CompareArith.
Context (a b : list Z).
Hypothesis Ha : is_arith a.
Hypothesis Hb : is_arith b.

Lemma leb_arith : leb a b = (val a <=? val b).
Proof. apply leb_val; [apply Ha|apply Hb|destruct Ha, Hb; congruence]. Qed.
Lemma ltb_arith : ltb a b = (val a <? val b).
Proof. apply ltb_val; [apply Ha|apply Hb|destruct Ha, Hb; congruence]. Qed.
Lemma gtb_arith : gtb a b = (val b <? val a).
Proof. apply gtb_val; [apply Ha|apply Hb|destruct Ha, Hb; congruence]. Qed.
End CompareArith.

Lemma bor_arith a b : is_arith a → is_arith b → is_arith (bor a b) ∧ val (bor a b) = Z.lor (val a) (val b).
Proof.
  intros [Hla Hda] [Hlb Hdb]. assert (is_arith (bor a b)) as Hr.
  { split; [unfold bor; rewrite length_zip_with; lia|]. unfold bor. clear Hla Hlb. revert b Hdb.
    induction Hda as [|x a Hx Ha IH]; intros b Hdb; [constructor|]. destruct Hdb as [|y b Hy Hb]; constructor; [by apply lor_digit|by apply IH]. }
  split; [done|]. apply Z.bits_inj'. intros n Hn. rewrite Z.lor_spec, !testbit_val by (done || apply Hr).
  assert (0 ≤ n / 32) by (apply Z.div_pos; lia). rewrite <- Z.lor_spec. f_equal. unfold znth, bor. clear Hr Hda Hdb.
  set (i := Z.to_nat (n / 32)). clearbody i. assert (length a = length b) as E by congruence. clear Hla Hlb. revert b i E.
  induction a as [|x a IH]; intros [|y b] [|i] E; simplify_eq/=; auto.
Qed.

(** ** Properties *)

(** The 256-bit integers implement arithmetic modulo [2^256] exactly:
    sums, differences and products wrap, quotients are floors, division by
    zero throws, comparison is comparison of values, and conversion to and
    from 32 bytes loses nothing. *)
Theorem arith_refines_integers a b :
  is_arith a → is_arith b →
  (is_arith (add a b) ∧ val (add a b) = (val a + val b) mod 2 ^ 256) ∧
  (is_arith (sub a b) ∧ val (sub a b) = (val a - val b) mod 2 ^ 256) ∧
  (is_arith (mul a b) ∧ val (mul a b) = (val a * val b) mod 2 ^ 256) ∧
  (if decide (val b = 0) then div a b = Err (ERuntime "Division by zero")
   else ∃ q, div a b = Ok q ∧ is_arith q ∧ val q = val a / val b) ∧
  leb a b = (val a <=? val b) ∧ UintToArith256 (ArithToUint256 a) = a.
Proof.
  intros Ha Hb. split; [by apply add_arith|]. split; [by apply sub_arith|]. split; [by apply mul_arith|]. split.
  { destruct (decide (val b = 0)) as [E|E]; [apply div_zero; [apply Hb|exact E]|by apply div_arith]. }
  split; [by apply leb_arith|by apply arith_roundtrip].
Qed.
