(* ===== verification/Compact.v ===== *)
(** The compact encoding of difficulty targets.

    [SetCompact] and [GetCompact] of [arith_uint256.cpp]: a byte length and a
    23-bit mantissa with a sign bit. *)

From Stdlib Require Import ZArith Lia String.
From stdpp Require Import base list numbers tactics.
From S2P Require Import Prelude Sha256 ArithUint256.
Import arith_uint256.

Open Scope Z_scope.

(** The number a compact encoding stands for. *)
Definition compact_size (c : Z) : Z := c / 2 ^ 24.
Definition compact_mantissa (c : Z) : Z := c mod 2 ^ 23.
Definition compact_value (c : Z) : Z :=
  if decide (compact_size c ≤ 3) then compact_mantissa c / 2 ^ (8 * (3 - compact_size c))
  else compact_mantissa c * 2 ^ (8 * (compact_size c - 3)).
(** The sign bit of a non-zero number. *)
Definition compact_negative (c : Z) : bool :=
  bool_decide (compact_value c ≠ 0) && Z.testbit c 23.

Lemma land_pow2_eqb x n : 0 ≤ n → (Z.land x (2 ^ n) =? 0) = negb (Z.testbit x n).
Proof.
  intros Hn. assert (Z.land x (2 ^ n) = if Z.testbit x n then 2 ^ n else 0) as ->.
  { apply Z.bits_inj'. intros m Hm. rewrite Z.land_spec, Z.pow2_bits_eqb by lia.
    destruct (Z.eqb_spec n m) as [<-|Hne].
    - destruct (Z.testbit x n); [by rewrite Z.pow2_bits_true by lia|by rewrite Z.testbit_0_l].
    - rewrite andb_false_r. destruct (Z.testbit x n); [by rewrite Z.pow2_bits_false|by rewrite Z.testbit_0_l]. }
  destruct (Z.testbit x n); [|done]. apply Z.eqb_neq, Z.pow_nonzero; lia.
Qed.

Lemma pow2_pos n : 0 ≤ n → 0 < 2 ^ n.
Proof. intros. apply Z.pow_pos_nonneg; lia. Qed.

Lemma pow2_split a b : 0 ≤ a → 0 ≤ b → 2 ^ (a + b) = 2 ^ a * 2 ^ b.
Proof. intros. by apply Z.pow_add_r. Qed.

(** The overflow flag is exact. *)
Lemma compact_overflow_exact m n :
  0 < m < 2 ^ 23 → 3 < n < 256 →
  (34 <? n) || ((0xff <? m) && (33 <? n)) || ((0xffff <? m) && (32 <? n)) = true
    ↔ 2 ^ 256 ≤ m * 2 ^ (8 * (n - 3)).
Proof.
  intros Hm Hn. rewrite !orb_true_iff, !andb_true_iff, !Z.ltb_lt.
  destruct (decide (n ≤ 32)).
  - pose proof (Z.pow_le_mono_r 2 (8 * (n - 3)) 232). pose proof (pow2_pos (8 * (n - 3)) ltac:(lia)).
    change (2 ^ 232) with (2 ^ 231 * 2) in *. change (2 ^ 256) with (2 ^ 231 * 2 * 2 ^ 24). nia.
  - destruct (decide (34 < n)).
    + pose proof (Z.pow_le_mono_r 2 256 (8 * (n - 3))). nia.
    + assert (n = 33 ∨ n = 34) as [->| ->] by lia; cbn [Z.sub Z.mul Z.add Z.opp Z.pos_sub]; simpl (_ - _); lia.
Qed.

Lemma SetCompact_ok c :
  0 ≤ c < 2 ^ 32 →
  ∃ v, SetCompact c = (v, compact_negative c, bool_decide (2 ^ 256 ≤ compact_value c)) ∧
       is_arith v ∧ val v = compact_value c mod 2 ^ 256.
Proof.
  intros Hc. unfold SetCompact. rewrite Z.shiftr_div_pow2, (land_mask c 23) by done.
  fold (compact_size c) (compact_mantissa c).
  pose proof (Z.mod_pos_bound c (2 ^ 23) ltac:(lia)) as Hm. fold (compact_mantissa c) in Hm.
  assert (0 ≤ compact_size c < 256) as Hsz.
  { unfold compact_size. split; [apply Z.div_pos; lia|apply Z.div_lt_upper_bound; lia]. }
  change 0x00800000 with (2 ^ 23). rewrite land_pow2_eqb, negb_involutive by lia.
  unfold compact_negative, compact_value.
  destruct (Z.leb_spec (compact_size c) 3) as [Hs|Hs].
  - rewrite !decide_True by done. rewrite Z.shiftr_div_pow2 by lia.
    pose proof (pow2_pos (8 * (3 - compact_size c)) ltac:(lia)).
    assert (0 ≤ compact_mantissa c / 2 ^ (8 * (3 - compact_size c)) < 2 ^ 23) as Hv.
    { split; [apply Z.div_pos; lia|]. apply Z.div_lt_upper_bound; nia. }
    set (m := compact_mantissa c / _) in *. destruct (of_u64_ok m) as [Ha Hval]; [lia|].
    eexists. split; [|split; [exact Ha|by rewrite Hval, Z.mod_small by lia]].
    rewrite (bool_decide_false (2 ^ 256 ≤ m)) by lia.
    rewrite (proj2 (Z.ltb_ge 34 _)), (proj2 (Z.ltb_ge 33 _)), (proj2 (Z.ltb_ge 32 _)), !andb_false_r by lia.
    do 3 f_equal. destruct (Z.eqb_spec m 0); [by rewrite bool_decide_false by lia|by rewrite bool_decide_true].
  - rewrite !decide_False by lia. set (m := compact_mantissa c) in *. set (n := compact_size c) in *.
    pose proof (pow2_pos (8 * (n - 3)) ltac:(lia)).
    destruct (of_u64_ok m) as [Ha Hval]; [lia|].
    destruct (shl_arith _ (8 * (n - 3)) Ha ltac:(lia)) as [Hb Hval'].
    eexists. split; [|split; [exact Hb|by rewrite Hval', Hval]].
    destruct (Z.eqb_spec m 0) as [->|Hne].
    + cbn [negb andb]. by rewrite !bool_decide_false by lia.
    + rewrite (bool_decide_true (_ ≠ 0)) by nia. cbn [negb andb]. f_equal.
      apply eq_iff_eq_true. rewrite bool_decide_eq_true. apply compact_overflow_exact; lia.
Qed.

(** ** Encoding *)

(** The number of bytes and the mantissa [GetCompact] uses for [x]. *)
Definition byte_length (x : Z) : Z := (bit_length x + 7) / 8.
Definition scaled (x n : Z) : Z :=
  if decide (n ≤ 3) then x * 2 ^ (8 * (3 - n)) else x / 2 ^ (8 * (n - 3)).
Definition encode_size (x : Z) : Z :=
  byte_length x + (if decide (2 ^ 23 ≤ scaled x (byte_length x)) then 1 else 0).
Definition encode_mantissa (x : Z) : Z :=
  scaled x (byte_length x) / (if decide (2 ^ 23 ≤ scaled x (byte_length x)) then 256 else 1).

Lemma byte_length_spec x :
  0 ≤ x < 2 ^ 256 →
  0 ≤ byte_length x ≤ 32 ∧ x < 2 ^ (8 * byte_length x) ∧ (0 < x → 0 < byte_length x ∧ 2 ^ (8 * (byte_length x - 1)) ≤ x).
Proof.
  intros Hx. pose proof (bit_length_nonneg x). pose proof (bit_length_le x 256 Hx ltac:(lia)).
  assert (0 ≤ byte_length x ≤ 32 ∧ bit_length x ≤ 8 * byte_length x ≤ bit_length x + 7) as [Hb Hr]
    by (unfold byte_length; divmod_lia).
  split; [done|]. destruct (decide (x = 0)) as [->|Hne].
  - split; [apply pow2_pos; lia|lia].
  - pose proof (bit_length_spec x ltac:(lia)). pose proof (bit_length_pos x ltac:(lia)).
    pose proof (Z.pow_le_mono_r 2 (bit_length x) (8 * byte_length x)).
    pose proof (Z.pow_le_mono_r 2 (8 * (byte_length x - 1)) (bit_length x - 1)). lia.
Qed.

Lemma scaled_bound x :
  0 ≤ x < 2 ^ 256 → 0 ≤ scaled x (byte_length x) < 2 ^ 24 ∧ (0 < x → 2 ^ 16 ≤ scaled x (byte_length x)).
Proof.
  intros Hx. destruct (byte_length_spec x Hx) as (Hb & Hlt & Hge). unfold scaled.
  set (n := byte_length x) in *. case_decide.
  - pose proof (pow2_pos (8 * (3 - n)) ltac:(lia)). assert (2 ^ 24 = 2 ^ (8 * n) * 2 ^ (8 * (3 - n))) as E.
    { rewrite <- pow2_split by lia. f_equal. lia. }
    split; [nia|]. intros Hpos. destruct (Hge Hpos). change (2 ^ 16) with (2 ^ (16 + 0)).
    assert (2 ^ (16 + 0) = 2 ^ (8 * (n - 1)) * 2 ^ (8 * (3 - n))) as ->; [|nia].
    rewrite <- pow2_split by lia. f_equal. lia.
  - pose proof (pow2_pos (8 * (n - 3)) ltac:(lia)).
    assert (2 ^ (8 * n) = 2 ^ (8 * (n - 3)) * 2 ^ 24) as E1 by (rewrite <- pow2_split by lia; f_equal; lia).
    assert (2 ^ (8 * (n - 1)) = 2 ^ (8 * (n - 3)) * 2 ^ 16) as E2 by (rewrite <- pow2_split by lia; f_equal; lia).
    split.
    + split; [apply Z.div_pos; lia|]. apply Z.div_lt_upper_bound; lia.
    + intros Hpos. destruct (Hge Hpos). apply Z.div_le_lower_bound; lia.
Qed.

Lemma encode_bound x :
  0 ≤ x < 2 ^ 256 → 0 ≤ encode_mantissa x < 2 ^ 23 ∧ 0 ≤ encode_size x ≤ 33 ∧ (0 < x → 2 ^ 15 ≤ encode_mantissa x).
Proof.
  intros Hx. destruct (scaled_bound x Hx) as [Hs Hp]. destruct (byte_length_spec x Hx) as (Hb & _).
  unfold encode_mantissa, encode_size. case_decide.
  - split; [divmod_lia|]. split; [lia|]. intros. divmod_lia.
  - rewrite Z.div_1_r. lia.
Qed.

Lemma testbit_23 m : 0 ≤ m < 2 ^ 24 → Z.testbit m 23 = bool_decide (2 ^ 23 ≤ m).
Proof.
  intros Hm. destruct (decide (2 ^ 23 ≤ m)) as [Hle|Hlt].
  - rewrite bool_decide_true by done. rewrite <- (Z.bit_log2 m) by lia. f_equal.
    symmetry. apply Z.log2_unique; lia.
  - rewrite bool_decide_false by done. destruct (decide (m = 0)) as [->|]; [apply Z.testbit_0_l|].
    apply Z.bits_above_log2; [lia|]. apply Z.log2_lt_pow2; lia.
Qed.

Lemma lor_high m n k : 0 ≤ k → 0 ≤ m < 2 ^ k → 0 ≤ n → Z.lor m (n * 2 ^ k) = m + n * 2 ^ k.
Proof.
  intros Hk Hm Hn. pose proof (Z.add_lor_land m (n * 2 ^ k)) as E. assert (Z.land m (n * 2 ^ k) = 0); [|lia].
  apply Z.bits_inj'. intros i Hi. rewrite Z.land_spec, Z.testbit_0_l.
  destruct (decide (i < k)); [rewrite Z.mul_pow2_bits_low by lia; apply andb_false_r|].
  rewrite <- (Z.mod_small m (2 ^ k)) by done. by rewrite Z.mod_pow2_bits_high by lia.
Qed.

Lemma GetCompact_ok a :
  is_arith a → GetCompact a false = Ok (encode_mantissa (val a) + encode_size (val a) * 2 ^ 24).
Proof.
  intros Ha. pose proof (is_arith_bound a Ha) as Hx. destruct (scaled_bound _ Hx) as [Hs _].
  destruct (byte_length_spec _ Hx) as (Hb & Hlt & _). destruct (encode_bound _ Hx) as (Hm & Hz & _).
  unfold GetCompact. rewrite bits_val by apply Ha. fold (byte_length (val a)).
  assert ((if byte_length (val a) <=? 3 then u32 (Z.shiftl (GetLow64 a) (8 * (3 - byte_length (val a))))
    else u32 (GetLow64 (shr a (8 * (byte_length (val a) - 3))))) = scaled (val a) (byte_length (val a))) as ->.
  { unfold scaled in *. destruct (Z.leb_spec (byte_length (val a)) 3).
    - rewrite decide_True in * by done. rewrite GetLow64_ok, Z.shiftl_mul_pow2 by (done || lia).
      rewrite (Z.mod_small (val a)); [by rewrite u32_small by lia|].
      pose proof (Z.pow_le_mono_r 2 (8 * byte_length (val a)) 24). lia.
    - rewrite decide_False in * by lia. destruct (shr_arith a (8 * (byte_length (val a) - 3)) Ha ltac:(lia)) as [Hb' Hv'].
      rewrite GetLow64_ok, Hv', (Z.mod_small (_ / _)), u32_small by (done || lia). done. }
  change 0x00800000 with (2 ^ 23). rewrite land_pow2_eqb, negb_involutive, testbit_23 by lia.
  unfold encode_mantissa, encode_size in *.
  set (s := scaled (val a) (byte_length (val a))) in *. set (n := byte_length (val a)) in *.
  assert (∀ m z, 0 ≤ m < 2 ^ 23 → 0 ≤ z ≤ 33 →
    (_ ← assert_ (Z.land m (u32 (Z.lnot 8388607)) =? 0); _ ← assert_ (z <? 256);
     Ok (Z.lor (Z.lor m (u32 (Z.shiftl z 24))) (if false && negb (Z.land (Z.lor m (u32 (Z.shiftl z 24))) 8388607 =? 0) then 2 ^ 23 else 0)))
    = Ok (m + z * 2 ^ 24)) as Hfin.
  { intros m z Hm' Hz'. assert (Z.land m (u32 (Z.lnot 8388607)) = 0) as ->.
    { apply Z.bits_inj'. intros i Hi. rewrite Z.land_spec, Z.testbit_0_l.
      destruct (decide (i < 23)).
      - change (u32 (Z.lnot 8388607)) with (511 * 2 ^ 23). rewrite Z.mul_pow2_bits_low by lia. apply andb_false_r.
      - rewrite <- (Z.mod_small m (2 ^ 23)) by done. by rewrite Z.mod_pow2_bits_high by lia. }
    cbn [Z.eqb assert_]. rewrite bind_Ok, (proj2 (Z.ltb_lt z 256)) by lia. cbn [assert_ andb]. rewrite bind_Ok, Z.lor_0_r.
    rewrite Z.shiftl_mul_pow2, u32_small by lia. by rewrite lor_high by lia. }
  destruct (decide (2 ^ 23 ≤ s)) as [Hbig|Hbig].
  - rewrite bool_decide_true, Z.shiftr_div_pow2 by (done || lia). by apply Hfin.
  - rewrite bool_decide_false by done. rewrite Z.div_1_r, Z.add_0_r in *. by apply Hfin.
Qed.

(** ** Decoding an encoding *)

(** The bytes an encoding of [x] drops. *)
Definition dropped_bytes (x : Z) : Z := Z.max 0 (encode_size x - 3).
(** [x] with its low bytes cleared: what survives the compact format. *)
Definition truncated (x : Z) : Z := x - x mod 2 ^ (8 * dropped_bytes x).

Lemma encode_decode x :
  0 ≤ x < 2 ^ 256 → compact_value (encode_mantissa x + encode_size x * 2 ^ 24) = truncated x.
Proof.
  intros Hx. destruct (encode_bound x Hx) as (Hm & Hz & Hp). destruct (byte_length_spec x Hx) as (Hb & Hlt & Hge).
  unfold compact_value. set (c := encode_mantissa x + encode_size x * 2 ^ 24).
  assert (compact_size c = encode_size x) as -> by (unfold compact_size, c; rewrite Z.div_add, Z.div_small; lia).
  assert (compact_mantissa c = encode_mantissa x) as ->.
  { unfold compact_mantissa, c. replace (encode_size x * 2 ^ 24) with (encode_size x * 2 * 2 ^ 23) by lia.
    by rewrite Z.mod_add, Z.mod_small by lia. }
  unfold truncated, dropped_bytes, encode_mantissa, encode_size, scaled in *. clear c.
  set (n := byte_length x) in *. destruct (decide (n ≤ 3)) as [Hn|Hn].
  - pose proof (pow2_pos (8 * (3 - n)) ltac:(lia)). destruct (decide (2 ^ 23 ≤ x * 2 ^ (8 * (3 - n)))) as [Hbig|Hbig].
    + assert (n = 1 ∨ n = 2 ∨ n = 3) as Hn3.
      { assert (n ≠ 0); [|lia]. intros E. rewrite E in *. simpl in *. lia. }
      destruct Hn3 as [E|[E|E]]; rewrite E in *; [rewrite decide_True by lia..|rewrite decide_False by lia];
        repeat match goal with |- context [Z.max ?a ?b] => let z := eval compute in (Z.max a b) in change (Z.max a b) with z end;
        repeat match goal with |- context [2 ^ ?e] => let z := eval compute in (2 ^ e) in change (2 ^ e) with z end;
        rewrite ?Z.mod_1_r; divmod_lia.
    + rewrite Z.div_1_r, Z.add_0_r, decide_True by done. rewrite Z.div_mul by lia.
      rewrite Z.max_l by lia. simpl. rewrite Z.mod_1_r. lia.
  - pose proof (pow2_pos (8 * (n - 3)) ltac:(lia)). destruct (decide (2 ^ 23 ≤ x / 2 ^ (8 * (n - 3)))) as [Hbig|Hbig].
    + rewrite decide_False by lia. rewrite Z.max_r by lia.
      replace (8 * (n + 1 - 3)) with (8 * (n - 3) + 8) by lia. rewrite pow2_split by lia.
      change (2 ^ 8) with 256. rewrite Z.div_div by lia.
      pose proof (Z.div_mod x (2 ^ (8 * (n - 3)) * 256) ltac:(lia)). lia.
    + rewrite Z.add_0_r, Z.div_1_r, decide_False, Z.max_r by lia.
      pose proof (Z.div_mod x (2 ^ (8 * (n - 3))) ltac:(lia)). lia.
Qed.

(** What is dropped is less than one part in 2^15. *)
Lemma truncated_close x : 0 ≤ x < 2 ^ 256 → 0 ≤ truncated x ≤ x ∧ (x - truncated x) * 2 ^ 15 ≤ x.
Proof.
  intros Hx. unfold truncated. assert (0 ≤ dropped_bytes x) by (unfold dropped_bytes; lia).
  pose proof (pow2_pos (8 * dropped_bytes x) ltac:(lia)) as HP. set (P := 2 ^ (8 * dropped_bytes x)) in *.
  pose proof (Z.mod_pos_bound x P HP). pose proof (Z.div_mod x P ltac:(lia)).
  destruct (decide (x = 0)) as [->|Hne]; [rewrite Z.mod_0_l by lia; lia|].
  assert (P = 1 ∨ 2 ^ 15 * P ≤ x) as [E|Hb]; [|rewrite E, Z.mod_1_r; lia|nia].
  destruct (encode_bound x Hx) as (_ & _ & Hp). specialize (Hp ltac:(lia)).
  unfold P, dropped_bytes, encode_size, encode_mantissa, scaled in *.
  set (n := byte_length x) in *. destruct (decide (n ≤ 3)) as [Hn|Hn].
  - destruct (decide (2 ^ 23 ≤ _)) as [Hbig|Hbig]; [|left; rewrite Z.max_l by lia; done].
    destruct (decide (n = 3)) as [E|]; [right|left; rewrite Z.max_l by lia; done]. rewrite E in *.
    change (2 ^ (8 * Z.max 0 (3 + 1 - 3))) with 256. change (2 ^ (8 * (3 - 3))) with 1 in Hbig. lia.
  - right. rewrite Z.max_r in * by (destruct (decide (2 ^ 23 ≤ _)); lia).
    pose proof (pow2_pos (8 * (n - 3)) ltac:(lia)).
    destruct (decide (2 ^ 23 ≤ _)) as [Hbig|Hbig].
    + replace (8 * (n + 1 - 3)) with (8 * (n - 3) + 8) by lia. rewrite pow2_split by lia. change (2 ^ 8) with 256.
      pose proof (Z.div_mod x (2 ^ (8 * (n - 3))) ltac:(lia)). pose proof (Z.mod_pos_bound x (2 ^ (8 * (n - 3))) ltac:(lia)). nia.
    + replace (n + 0 - 3) with (n - 3) by lia. rewrite Z.div_1_r in Hp.
      pose proof (Z.div_mod x (2 ^ (8 * (n - 3))) ltac:(lia)). pose proof (Z.mod_pos_bound x (2 ^ (8 * (n - 3))) ltac:(lia)). nia.
Qed.

Lemma compact_roundtrip a c :
  is_arith a → GetCompact a false = Ok c →
  ∃ v, SetCompact c = (v, false, false) ∧ is_arith v ∧ val v = truncated (val a).
Proof.
  intros Ha. rewrite GetCompact_ok by done. intros [= <-]. pose proof (is_arith_bound a Ha) as Hx.
  destruct (encode_bound _ Hx) as (Hm & Hz & _). pose proof (encode_decode _ Hx) as E.
  set (c := encode_mantissa (val a) + encode_size (val a) * 2 ^ 24) in *.
  destruct (SetCompact_ok c) as (v & Hv & Hav & Hval); [unfold c; lia|].
  destruct (truncated_close _ Hx) as [Ht _]. exists v. rewrite Hv. split_and!; [|done|by rewrite Hval, E, Z.mod_small by lia].
  rewrite (bool_decide_false (2 ^ 256 ≤ _)) by lia. do 2 f_equal.
  unfold compact_negative. replace (Z.testbit c 23) with false; [apply andb_false_r|]. symmetry.
  rewrite <- (Z.mod_pow2_bits_low c 24) by lia. unfold c. rewrite Z.mod_add, Z.mod_small by lia.
  rewrite testbit_23 by lia. apply bool_decide_false. lia.
Qed.

(** ** Rounding to the compact format is monotone *)
Lemma encode_size_bounds x :
  0 < x < 2 ^ 256 → 2 ^ (8 * encode_size x - 9) ≤ x < 2 ^ (8 * encode_size x - 1).
Proof.
  intros Hx. destruct (byte_length_spec x ltac:(lia)) as (Hbl & Hub & Hlb). destruct (Hlb ltac:(lia)) as [Hpos Hge]. clear Hlb.
  unfold encode_size. set (n := byte_length x) in *. unfold scaled.
  destruct (decide (n ≤ 3)) as [H3|H3].
  - pose proof (pow2_pos (8 * (3 - n)) ltac:(lia)) as Hp.
    assert (2 ^ 23 = 2 ^ (8 * n - 1) * 2 ^ (8 * (3 - n))) as E by (rewrite <- pow2_split by lia; f_equal; lia).
    destruct (decide (2 ^ 23 ≤ x * 2 ^ (8 * (3 - n)))) as [Hs|Hs].
    + split; [replace (8 * (n + 1) - 9) with (8 * n - 1) by lia; nia|]. pose proof (Z.pow_le_mono_r 2 (8 * n) (8 * (n + 1) - 1) ltac:(lia) ltac:(lia)). lia.
    + rewrite Z.add_0_r. split; [|nia]. destruct (decide (n = 1)) as [->|]; [simpl; lia|].
      pose proof (Z.pow_le_mono_r 2 (8 * n - 9) (8 * (n - 1)) ltac:(lia) ltac:(lia)). lia.
  - pose proof (pow2_pos (8 * (n - 3)) ltac:(lia)) as Hp.
    assert (2 ^ (8 * n - 1) = 2 ^ 23 * 2 ^ (8 * (n - 3))) as E by (rewrite <- pow2_split by lia; f_equal; lia).
    pose proof (Z.div_mod x (2 ^ (8 * (n - 3))) ltac:(lia)). pose proof (Z.mod_pos_bound x (2 ^ (8 * (n - 3))) Hp).
    destruct (decide (2 ^ 23 ≤ x / 2 ^ (8 * (n - 3)))) as [Hs|Hs].
    + split; [replace (8 * (n + 1) - 9) with (8 * n - 1) by lia; nia|]. pose proof (Z.pow_le_mono_r 2 (8 * n) (8 * (n + 1) - 1) ltac:(lia) ltac:(lia)). lia.
    + rewrite Z.add_0_r. split; [|nia]. pose proof (Z.pow_le_mono_r 2 (8 * n - 9) (8 * (n - 1)) ltac:(lia) ltac:(lia)). lia.
Qed.

Lemma truncated_floor x : truncated x = 2 ^ (8 * dropped_bytes x) * (x / 2 ^ (8 * dropped_bytes x)).
Proof.
  unfold truncated. pose proof (pow2_pos (8 * dropped_bytes x)) as Hp. unfold dropped_bytes in *.
  specialize (Hp ltac:(lia)). pose proof (Z.div_mod x (2 ^ (8 * Z.max 0 (encode_size x - 3))) ltac:(lia)). lia.
Qed.

Lemma truncated_mono x y : 0 ≤ x ≤ y → y < 2 ^ 256 → truncated x ≤ truncated y.
Proof.
  intros Hxy Hy. pose proof (truncated_close y ltac:(lia)) as [Hy0 _]. pose proof (truncated_close x ltac:(lia)) as [Hx0 _].
  destruct (decide (x = 0)) as [->|Hx]; [lia|].
  pose proof (encode_size_bounds x ltac:(lia)) as Hbx. pose proof (encode_size_bounds y ltac:(lia)) as Hby.
  destruct (decide (dropped_bytes x = dropped_bytes y)) as [E|E].
  - rewrite (truncated_floor x), (truncated_floor y), E. pose proof (pow2_pos (8 * dropped_bytes y)) as Hp.
    specialize (Hp ltac:(unfold dropped_bytes; lia)). apply Z.mul_le_mono_nonneg_l; [lia|]. apply Z.div_le_mono; lia.
  - assert (encode_size x < encode_size y) as Hlt.
    { destruct (decide (encode_size x < encode_size y)); [done|]. exfalso.
      assert (encode_size y < encode_size x) by (unfold dropped_bytes in E; lia).
      pose proof (encode_bound y ltac:(lia)) as (_ & Hsz & _). destruct (decide (encode_size y = 0)) as [E0|].
      { rewrite E0 in Hby. simpl in Hby. lia. }
      pose proof (Z.pow_le_mono_r 2 (8 * encode_size y - 1) (8 * encode_size x - 9) ltac:(lia) ltac:(lia)). lia. }
    unfold dropped_bytes in E. assert (3 < encode_size y) by lia.
    rewrite (truncated_floor y). replace (dropped_bytes y) with (encode_size y - 3) by (unfold dropped_bytes; lia).
    pose proof (pow2_pos (8 * (encode_size y - 3)) ltac:(lia)) as Hp. set (m := 2 ^ (8 * (encode_size y - 3))) in *.
    assert (2 ^ (8 * encode_size y - 9) = 2 ^ 15 * m) as Em by (unfold m; rewrite <- pow2_split by lia; f_equal; lia).
    assert (2 ^ 15 ≤ y / m) by (apply Z.div_le_lower_bound; lia).
    pose proof (encode_bound x ltac:(lia)) as (_ & Hsx & _).
    destruct (decide (encode_size x = 0)) as [E0|]; [rewrite E0 in Hbx; simpl in Hbx; lia|].
    pose proof (Z.pow_le_mono_r 2 (8 * encode_size x - 1) (8 * encode_size y - 9) ltac:(lia) ltac:(lia)). nia.
Qed.

(** ** Properties *)

(** Encoding a 256-bit target as compact bits is total and decoding
    gives back a target, neither negative nor overflowing, that is at most the
    original and loses less than one part in [2^15]; encoding is monotone. *)
Theorem compact_bits_roundtrip a b :
  is_arith a → is_arith b →
  ∃ c d v w, GetCompact a false = Ok c ∧ SetCompact c = (v, false, false) ∧ is_arith v ∧
    0 ≤ val v ≤ val a ∧ (val a - val v) * 2 ^ 15 ≤ val a ∧
    GetCompact b false = Ok d ∧ SetCompact d = (w, false, false) ∧ (val a ≤ val b → val v ≤ val w).
Proof.
  intros Ha Hb. pose proof (GetCompact_ok a Ha) as Ea. pose proof (GetCompact_ok b Hb) as Eb.
  destruct (compact_roundtrip a _ Ha Ea) as (v & Ev & Hv & Vv). destruct (compact_roundtrip b _ Hb Eb) as (w & Ew & Hw & Vw).
  pose proof (is_arith_bound _ Ha). pose proof (is_arith_bound _ Hb).
  eexists _, _, v, w. split; [exact Ea|]. split; [exact Ev|]. split; [exact Hv|]. rewrite Vv, Vw.
  destruct (truncated_close (val a)) as [H1 H2]; [lia|]. split; [lia|]. split; [exact H2|]. split; [exact Eb|]. split; [exact Ew|].
  intros Hle. apply truncated_mono; lia.
Qed.
