(* ===== verification/Freivalds.v ===== *)
(** Probabilistic verification of a matrix product.

    [matmul/freivalds.cpp]: the challenge bound to all three matrices, the
    derived random vectors and the verification loop with its accounting. *)

From Stdlib Require Import ZArith Lia String Znumtheory.
From stdpp Require Import base list numbers tactics.
From S2P Require Import Prelude Sha256 Field FieldInverse Matrix.
Import field.

Open Scope Z_scope.

Module freivalds.

Definition FREIVALDS_DOMAIN_TAG : Z := 0xF4.
Definition FREIVALDS_MATRIX_A_TAG : Z := 0xA1.
Definition FREIVALDS_MATRIX_B_TAG : Z := 0xB2.
Definition FREIVALDS_MATRIX_C_TAG : Z := 0xC3.

Definition SaturatingAdd (lhs rhs : Z) : Z :=
  if 2 ^ 64 - 1 - lhs <? rhs then 2 ^ 64 - 1 else u64 (lhs + rhs).

(** [hasher << tag; << rows; << cols; << data[i] ...] *)
Definition HashMatrix (hasher : CSHA256) (matrix_tag : Z) (m : Matrix) : CSHA256 :=
  let hasher := HashWriter_write hasher [matrix_tag] in
  let hasher := HashWriter_write hasher (WriteLE32 (m_rows m)) in
  let hasher := HashWriter_write hasher (WriteLE32 (m_cols m)) in
  let elements := Z.to_nat (m_rows m * m_cols m) in
  foldl (λ h v, HashWriter_write h (WriteLE32 v)) hasher (take elements (m_data m)).

Definition DeriveChallengeSeed (A B C : Matrix) (sigma : list Z) : list Z :=
  let h := HashWriter_write HashWriter_new [FREIVALDS_DOMAIN_TAG] in
  let h := HashWriter_write h sigma in
  let h := HashMatrix h FREIVALDS_MATRIX_A_TAG A in
  let h := HashMatrix h FREIVALDS_MATRIX_B_TAG B in
  let h := HashMatrix h FREIVALDS_MATRIX_C_TAG C in
  HashWriter_GetSHA256 h.

Definition DeriveRandomVector (sigma : list Z) (round n : Z) : list Z :=
  let h := HashWriter_write HashWriter_new [FREIVALDS_DOMAIN_TAG] in
  let h := HashWriter_write h sigma in
  let h := HashWriter_write h (WriteLE32 round) in
  let h := HashWriter_write h (WriteLE32 n) in
  let round_seed := HashWriter_GetSHA256 h in
  ztab n (λ i, from_oracle round_seed i).

Definition MatVecMul `{Platform} (m : Matrix) (v : list Z) : result (list Z) :=
  if negb (m_cols m =? zlen v) then Ok []
  else collect (m_rows m) (λ row, dot (drop (Z.to_nat (row * m_cols m)) (m_data m)) v (m_cols m)).

Record VerifyResult := mkVerify { passed : bool; rounds_executed : Z; ops_performed : Z }.

(** One round: [None] to go on, [Some] of the result to return it. *)
Definition verify_round `{Platform} (A B C : Matrix) (challenge_seed : list Z) (per_round_ops round : Z)
    (st : VerifyResult) : result (bool * VerifyResult) :=
  let random_vector := DeriveRandomVector challenge_seed round (m_cols C) in
  y ← MatVecMul B random_vector;
  if bool_decide (y = []) then Ok (false, st) else
  z ← MatVecMul A y;
  if bool_decide (z = []) then Ok (false, st) else
  w ← MatVecMul C random_vector;
  if bool_decide (w = []) then Ok (false, st) else
  let st := mkVerify (passed st) (u32 (rounds_executed st + 1)) (SaturatingAdd (ops_performed st) per_round_ops) in
  Ok (bool_decide (z = w), st).

(** The rounds [round .. round + rounds_left - 1]. *)
Fixpoint verify_loop `{Platform} (A B C : Matrix) (challenge_seed : list Z) (per_round_ops : Z)
    (rounds_left : nat) (round : Z) (st : VerifyResult) : result VerifyResult :=
  match rounds_left with
  | O => Ok (mkVerify true (rounds_executed st) (ops_performed st))
  | S rounds_left =>
      match verify_round A B C challenge_seed per_round_ops round st with
      | Err e => Err e
      | Ok (true, st) => verify_loop A B C challenge_seed per_round_ops rounds_left (round + 1) st
      | Ok (false, st) => Ok st
      end
  end.

Definition Verify `{Platform} (A B C : Matrix) (sigma : list Z) (num_rounds : Z) : result VerifyResult :=
  let result := mkVerify false 0 0 in
  if negb (m_cols A =? m_rows B) then Ok result
  else if negb (m_rows A =? m_rows C) then Ok result
  else if negb (m_cols B =? m_cols C) then Ok result
  else if num_rounds =? 0 then Ok (mkVerify true 0 0)
  else
    let per_round_ops := u64 (u64 (m_rows B * m_cols B + m_rows A * m_cols A) + m_rows C * m_cols C) in
    verify_loop A B C (DeriveChallengeSeed A B C sigma) per_round_ops (Z.to_nat num_rounds) 0 result.

End freivalds.
Import freivalds.

(** ** Matrix-vector products *)
Definition mvec (m : Matrix) (f : Z → Z) (i : Z) : Z := zsum (m_cols m) (λ k, mget m i k * f k) mod MODULUS.

Lemma MatVecMul_ok `{Platform} m v :
  wf m → canon_list v → zlen v = m_cols m → m_cols m < 2 ^ 32 - 4 →
  MatVecMul m v = Ok (ztab (m_rows m) (mvec m (znth v))).
Proof.
  intros Hm Hv Hl Hs. unfold MatVecMul. rewrite (proj2 (Z.eqb_eq (m_cols m) (zlen v))) by done. cbn [negb].
  pose proof (wf_rows _ Hm). pose proof (wf_cols _ Hm). pose proof (wf_len _ Hm) as Hlen.
  apply collect_Ok; [lia|]. intros i Hi.
  rewrite dot_ok; [|by apply Forall_drop, Hm|done| |lia|nia].
  - unfold zdot, mvec. do 2 f_equal. apply zsum_ext. intros k Hk. unfold mget. f_equal.
    rewrite znth_drop by lia. f_equal. nia.
  - unfold zlen in *. rewrite length_drop. nia.
Qed.

Lemma mvec_canonical m f i : canonical (mvec m f i).
Proof. apply canonical_mod. Qed.
#[export] Hint Resolve mvec_canonical : btx.

Lemma canon_ztab n f : 0 ≤ n → (∀ i, canonical (f i)) → canon_list (ztab n f).
Proof.
  intros Hn Hf. apply Forall_znth. intros i Hi. rewrite zlen_ztab in Hi by done. by rewrite znth_ztab.
Qed.

Lemma random_vector_ok sigma round n :
  0 ≤ n → canon_list (DeriveRandomVector sigma round n) ∧ zlen (DeriveRandomVector sigma round n) = n.
Proof.
  intros Hn. unfold DeriveRandomVector. cbv zeta. split; [|by apply zlen_ztab].
  apply canon_ztab; [done|]. intros. auto with btx.
Qed.

(** The matrices fit together and no dimension is zero. *)
Record conformant (A B C : Matrix) : Prop := {
  f_A : wf A; f_B : wf B; f_C : wf C;
  f_inner : m_cols A = m_rows B;
  f_rows : m_rows A = m_rows C;
  f_cols : m_cols B = m_cols C;
  f_pos : 0 < m_rows A ∧ 0 < m_cols A ∧ 0 < m_cols B;
  f_small : m_cols A < 2 ^ 32 - 4 ∧ m_cols B < 2 ^ 32 - 4
}.

(** The equation [A (B r) = C r] that a round checks. *)
Definition round_holds (A B C : Matrix) (r : list Z) : Prop :=
  ∀ i, 0 ≤ i < m_rows A → mvec A (mvec B (znth r)) i = mvec C (znth r) i.

Lemma ztab_nil {T} n (f : Z → T) : 0 < n → bool_decide (ztab n f = []) = false.
Proof.
  intros Hn. apply bool_decide_false. intros E. apply (f_equal length) in E.
  rewrite length_ztab in E. simpl in E. lia.
Qed.

Definition round_vector (A B C : Matrix) (seed : list Z) (round : Z) : list Z :=
  DeriveRandomVector seed round (m_cols C).

(** The state after a round that was carried out. *)
Definition counted (ops : Z) (st : VerifyResult) : VerifyResult :=
  mkVerify (passed st) (u32 (rounds_executed st + 1)) (SaturatingAdd (ops_performed st) ops).

Lemma verify_round_ok `{Platform} A B C seed ops round st :
  conformant A B C →
  ∃ ok, verify_round A B C seed ops round st = Ok (ok, counted ops st) ∧
        (ok = true ↔ round_holds A B C (round_vector A B C seed round)).
Proof.
  intros [HA HB HC Hi Hr Hc (Hp1 & Hp2 & Hp3) [Hs1 Hs2]]. unfold verify_round, round_vector. cbv zeta.
  destruct (random_vector_ok seed round (m_cols C)) as [Hrv Hrl]; [lia|].
  set (r := DeriveRandomVector seed round (m_cols C)) in *.
  pose proof (wf_rows _ HA). pose proof (wf_rows _ HB). pose proof (wf_rows _ HC).
  rewrite (MatVecMul_ok B) by (done || lia). rewrite bind_Ok, ztab_nil by lia.
  rewrite (MatVecMul_ok A); [|done|apply canon_ztab; [lia|auto with btx]|rewrite zlen_ztab; lia|done].
  rewrite bind_Ok, ztab_nil by lia. rewrite (MatVecMul_ok C), bind_Ok, ztab_nil by (done || lia).
  eexists. split; [done|]. rewrite bool_decide_eq_true. unfold round_holds.
  assert (∀ i, mvec A (znth (ztab (m_rows B) (mvec B (znth r)))) i = mvec A (mvec B (znth r)) i) as Hy.
  { intros i. unfold mvec at 1 3. f_equal. apply zsum_ext. intros k Hk. by rewrite znth_ztab by lia. }
  split.
  - intros E i Hi'. apply (f_equal (λ l, znth l i)) in E. rewrite !znth_ztab in E by lia. by rewrite <- Hy.
  - intros Hh. rewrite <- Hr. apply ztab_ext. intros i Hi'. by rewrite Hy, Hh.
Qed.

(** The loop stops at the first failing round. *)
Lemma verify_loop_ok `{Platform} A B C seed ops n round st :
  conformant A B C →
  ∃ res, verify_loop A B C seed ops n round st = Ok res ∧
    (((∀ k, 0 ≤ k < Z.of_nat n → round_holds A B C (round_vector A B C seed (round + k))) ∧
      ∃ st', st' = Nat.iter n (counted ops) st ∧ res = mkVerify true (rounds_executed st') (ops_performed st')) ∨
     ∃ k, (k < n)%nat ∧ ¬ round_holds A B C (round_vector A B C seed (round + Z.of_nat k)) ∧
       res = Nat.iter (S k) (counted ops) st).
Proof.
  intros Hc. revert round st. induction n as [|n IH]; intros round st; cbn [verify_loop].
  - eexists; split; [done|]. left. split; [lia|]. by eexists.
  - destruct (verify_round_ok A B C seed ops round st Hc) as (ok & -> & Hok). destruct ok.
    + destruct (IH (round + 1) (counted ops st)) as (res & -> & HI). exists res. split; [done|].
      destruct HI as [[Hall (st' & -> & ->)]|(k & Hk & Hn & ->)].
      * left. split.
        -- intros k Hk. destruct (decide (k = 0)) as [->|]; [rewrite Z.add_0_r; by apply Hok|].
           replace (round + k) with (round + 1 + (k - 1)) by lia. apply Hall. lia.
        -- eexists. split; [done|]. by rewrite Nat.iter_succ_r.
      * right. exists (S k). split; [lia|]. split; [by replace (round + Z.of_nat (S k)) with (round + 1 + Z.of_nat k) by lia|].
        by rewrite (Nat.iter_succ_r (S k)).
    + eexists; split; [done|]. right. exists 0%nat. split; [lia|]. rewrite Z.add_0_r.
      split; [intros Hh; by apply Hok in Hh|done].
Qed.

Lemma iter_counted ops n st :
  0 ≤ rounds_executed st → rounds_executed st + Z.of_nat n < 2 ^ 32 →
  rounds_executed (Nat.iter n (counted ops) st) = rounds_executed st + Z.of_nat n ∧
  passed (Nat.iter n (counted ops) st) = passed st.
Proof.
  intros H0 Hb. induction n as [|n IH]; [cbn; split; [lia|done]|]. rewrite Nat.iter_succ. cbn [counted rounds_executed passed].
  destruct IH as [IH1 IH2]; [lia|]. rewrite IH1, u32_small by lia. split; [lia|done].
Qed.

(** The verdict on conforming matrices. *)
Lemma Verify_ok `{Platform} A B C sigma num_rounds :
  conformant A B C → 0 < num_rounds < 2 ^ 32 →
  ∃ res, Verify A B C sigma num_rounds = Ok res ∧
    (passed res = true ↔ ∀ k, 0 ≤ k < num_rounds →
       round_holds A B C (round_vector A B C (DeriveChallengeSeed A B C sigma) k)) ∧
    1 ≤ rounds_executed res ≤ num_rounds ∧
    (passed res = true → rounds_executed res = num_rounds) ∧
    (passed res = false → ¬ round_holds A B C (round_vector A B C (DeriveChallengeSeed A B C sigma) (rounds_executed res - 1))).
Proof.
  intros Hc Hn. pose proof Hc as [_ _ _ H1 H2 H3 _ _]. unfold Verify.
  rewrite (proj2 (Z.eqb_eq _ _) H1), (proj2 (Z.eqb_eq _ _) H2), (proj2 (Z.eqb_eq _ _) H3), (proj2 (Z.eqb_neq num_rounds 0)) by lia.
  cbn [negb]. cbv zeta. set (seed := DeriveChallengeSeed A B C sigma). set (ops := u64 _).
  destruct (verify_loop_ok A B C seed ops (Z.to_nat num_rounds) 0 (mkVerify false 0 0) Hc) as (res & -> & HI).
  exists res. split; [done|]. destruct HI as [[Hall (st' & -> & ->)]|(k & Hk & Hneg & ->)]; cbn [passed rounds_executed].
  - destruct (iter_counted ops (Z.to_nat num_rounds) (mkVerify false 0 0)) as [-> _]; cbn [rounds_executed]; [lia..|].
    split; [|split; [lia|split; [lia|done]]]. split; [|done]. intros _ k Hk. apply (Hall k). lia.
  - destruct (iter_counted ops (S k) (mkVerify false 0 0)) as [-> ->]; cbn [rounds_executed passed]; [lia..|].
    split; [|split; [lia|split; [done|]]].
    + split; [done|]. intros Hall. exfalso. apply Hneg, Hall. lia.
    + intros _. by replace (0 + Z.of_nat (S k) - 1) with (0 + Z.of_nat k) by lia.
Qed.

(** ** Completeness and the counting bound *)
Lemma mvec_product A B f i :
  m_cols A = m_rows B → 0 ≤ i < m_rows A →
  mvec A (mvec B f) i ≡p zsum (m_cols B) (λ k, zsum (m_cols A) (λ t, mget A i t * mget B t k) * f k).
Proof.
  intros Hi Hr. unfold mvec. rewrite (cong_mod MODULUS).
  transitivity (zsum (m_cols A) (λ t, mget A i t * zsum (m_cols B) (λ k, mget B t k * f k))).
  { apply cong_zsum. intros t _. by rewrite (cong_mod MODULUS). }
  apply cong_eq.
  erewrite (zsum_ext (m_cols A)) by (intros t _; rewrite <- zsum_mul_l; reflexivity).
  rewrite zsum_swap. apply zsum_ext. intros k _. rewrite <- zsum_mul_r. apply zsum_ext. intros. lia.
Qed.

Lemma product_passes A B C r : conformant A B C → C = mmul A B → round_holds A B C r.
Proof.
  intros [HA HB HC Hi Hr Hc _ _] -> i Hir. apply (cong_canonical MODULUS); [|apply mvec_canonical..].
  rewrite mvec_product by done. unfold mvec. rewrite (cong_mod MODULUS). apply cong_zsum. intros k Hk.
  unfold mmul at 1. rewrite mget_mat_of by done. by rewrite (cong_mod MODULUS).
Qed.

(** A wrong product has an entry that differs. *)
Lemma wrong_entry A B C :
  conformant A B C → C ≠ mmul A B →
  ∃ i j, 0 ≤ i < m_rows A ∧ 0 ≤ j < m_cols B ∧ mget C i j ≠ mget (mmul A B) i j.
Proof.
  intros [HA HB HC Hi Hr Hc _ _] Hne. pose proof (wf_rows _ HA). pose proof (wf_cols _ HB). pose proof (wf_cols _ HC).
  destruct (decide (Exists (λ q, mget C (q / m_cols B) (q mod m_cols B) ≠ mget (mmul A B) (q / m_cols B) (q mod m_cols B))
    (ztab (m_rows A * m_cols B) (λ q, q)))) as [He|Hn].
  - apply list.Exists_exists in He as (q & Hq & Hd).
    unfold ztab in Hq. apply list_elem_of_fmap in Hq as (t & -> & [_ Ht]%elem_of_seq).
    destruct (index_split (Z.of_nat t) (m_rows A) (m_cols B)) as (_ & ? & ?); [lia..|]. eauto.
  - exfalso. apply Hne. apply mat_ext; [lia|by cbn|by cbn|apply HC| |].
    + cbn [m_data m_rows m_cols mmul mat_of]. apply zlen_ztab. nia.
    + intros i j Hi' Hj'. rewrite <- Hr in Hi'. rewrite <- Hc in Hj'.
      apply not_Exists_Forall in Hn; [|apply _]. rewrite list.Forall_forall in Hn.
      pose proof (index_range i j _ _ Hi' Hj').
      assert (i * m_cols B + j ∈ ztab (m_rows A * m_cols B) (λ q, q)) as Hmem.
      { unfold ztab. apply list_elem_of_fmap. exists (Z.to_nat (i * m_cols B + j)).
        split; [lia|]. apply elem_of_seq. lia. }
      apply Hn in Hmem. unfold compose in Hmem. rewrite index_div, index_mod in Hmem by lia.
      destruct (decide (mget C i j = mget (mmul A B) i j)); done.
Qed.

(** For a wrong product some coordinate [j] of the challenge vector has at most
    one passing value, whatever the others are: at most one vector in
    [MODULUS] passes. *)
Lemma freivalds_one_in_p A B C :
  conformant A B C → C ≠ mmul A B →
  ∃ j, 0 ≤ j < m_cols B ∧
    ∀ r r', canon_list r → canon_list r' → zlen r = m_cols B → zlen r' = m_cols B →
      (∀ k, 0 ≤ k < m_cols B → k ≠ j → znth r k = znth r' k) →
      round_holds A B C r → round_holds A B C r' → r = r'.
Proof.
  intros Hconf Hne. destruct (wrong_entry A B C Hconf Hne) as (i & j & Hi & Hj & Hd).
  pose proof Hconf as [HA HB HC Hin Hr Hc _ _].
  exists j. split; [done|]. intros r r' Hcr Hcr' Hl Hl' Hsame Hh Hh'.
  set (d := λ k, zsum (m_cols A) (λ t, mget A i t * mget B t k) - mget C i k).
  assert (∀ s, round_holds A B C s → zsum (m_cols B) (λ k, d k * znth s k) ≡p 0) as Hz.
  { intros s Hs. specialize (Hs i Hi).
    assert (mvec A (mvec B (znth s)) i - mvec C (znth s) i ≡p 0) as E by (rewrite Hs; apply cong_eq; lia).
    rewrite <- E, mvec_product by done. unfold mvec. rewrite (cong_mod MODULUS), <- Hc. apply cong_eq.
    rewrite <- (Z.mul_1_l (zsum (m_cols B) (λ k, mget C i k * znth s k))) at 1.
    unfold d. rewrite <- Z.add_opp_r, <- Z.mul_opp_l, <- zsum_mul_l, <- zsum_add. apply zsum_ext. intros. lia. }
  assert (d j * (znth r j - znth r' j) ≡p 0) as Hdj.
  { assert (zsum (m_cols B) (λ k, d k * znth r k) - zsum (m_cols B) (λ k, d k * znth r' k) ≡p 0) as E
      by (rewrite (Hz r), (Hz r') by done; done).
    rewrite <- E. apply cong_eq.
    rewrite <- (zsum_pick (m_cols B) (λ k, d k * (znth r k - znth r' k)) j Hj), <- zsum_sub.
    apply zsum_ext. intros k Hk. case_decide; [lia|]. rewrite Hsame by done. lia. }
  assert (d j mod MODULUS ≠ 0) as Hdn.
  { intros E. apply Hd. apply (cong_canonical MODULUS); [|by apply mget_canonical|apply mget_canonical; auto with btx].
    unfold mmul. rewrite mget_mat_of by done. rewrite (cong_mod MODULUS).
    assert (d j ≡p 0) as Hdj0 by (unfold cong; by rewrite E).
    symmetry. unfold d in Hdj0. rewrite <- (Z.add_0_r (mget C i j)), <- Hdj0. apply cong_eq. lia. }
  assert (znth r j = znth r' j) as Hrj.
  { apply (cong_canonical MODULUS); [|by apply canon_znth..]. unfold cong in Hdj.
    apply Z.mod_divide in Hdj; [|done]. destruct (prime_mult _ MODULUS_prime _ _ Hdj) as [Hdv|Hdv].
    - apply Z.mod_divide in Hdv; done.
    - rewrite <- (Z.add_0_r (znth r' j)). assert (znth r j - znth r' j ≡p 0) as E.
      { apply Z.mod_divide in Hdv; [|done]. done. }
      rewrite <- E. apply cong_eq. lia. }
  apply znth_ext; [lia|]. intros k Hk. destruct (decide (k = j)) as [->|]; [done|]. apply Hsame; lia.
Qed.

(** ** Properties *)

(** On conforming matrices verification returns, accepts exactly when
    every round's equation [A (B r) = C r] holds for the vector derived from
    the challenge, always accepts a correct product, and on rejection the
    last executed round is a failing one. *)
Theorem freivalds_verdict `{Platform} A B C sigma num_rounds :
  conformant A B C → 0 < num_rounds < 2 ^ 32 →
  ∃ res, Verify A B C sigma num_rounds = Ok res ∧
    (passed res = true ↔ ∀ k, 0 ≤ k < num_rounds →
       round_holds A B C (round_vector A B C (DeriveChallengeSeed A B C sigma) k)) ∧
    (C = mmul A B → passed res = true ∧ rounds_executed res = num_rounds) ∧
    (passed res = false → 1 ≤ rounds_executed res ≤ num_rounds ∧
       ¬ round_holds A B C (round_vector A B C (DeriveChallengeSeed A B C sigma) (rounds_executed res - 1))).
Proof.
  intros Hc Hn. destruct (Verify_ok A B C sigma num_rounds Hc Hn) as (res & E & Hp & Hr & Hfull & Hrej).
  exists res. split; [exact E|]. split; [exact Hp|]. split; [|auto].
  intros HC. assert (passed res = true) as Hpass by (apply Hp; intros k _; by apply product_passes). auto.
Qed.

