(* ===== verification/LowRank.v ===== *)
(** Low-rank products and removal of the noise.

    [LowRankProduct] and [Denoise] of [matmul/matmul_pow.cpp]: the scalar
    product with its operation count, the split-16 product on a double
    precision BLAS, the guard that falls back to the scalar path, and the
    recovery of the clean product. *)

From Stdlib Require Import ZArith Lia String.
From stdpp Require Import base list numbers tactics.
From S2P Require Import Prelude Sha256 Field Matrix Noise Transcript Replay.
Import field noise.

Open Scope Z_scope.

(** The Accelerate build: [cblas_dgemm] followed by [std::llround] on matrices
    of integers given row by row. *)
Class Blas := {
  (** [BTX_HAVE_ACCELERATE] is defined. *)
  have_accelerate : bool;
  (** The first character of [BTX_MATMUL_AMX_EXPERIMENT], when set. *)
  amx_experiment : option Z;
  (** [dgemm m n k a b]: the rounded entries of the product. *)
  dgemm : Z → Z → Z → list Z → list Z → list Z
}.

(** The documented behaviour of IEEE double precision: integer sums below 2^53
    are exact. *)
Class ExactBlas `{Blas} : Prop :=
  dgemm_exact : ∀ m n k a b,
    0 ≤ m → 0 ≤ n → 0 ≤ k → zlen a = m * k → zlen b = k * n →
    (∀ i, 0 ≤ znth a i) → (∀ i, 0 ≤ znth b i) →
    (∀ i j, 0 ≤ i < m → 0 ≤ j < n → zsum k (λ t, znth a (i * k + t) * znth b (t * n + j)) < 2 ^ 53) →
    dgemm m n k a b = ztab (m * n) (λ q, zsum k (λ t, znth a (q / n * k + t) * znth b (t * n + q mod n))).

Module lowrank.

(** [BuildLowRankProductProfile(...).accelerate_active] *)
Definition accelerate_active `{Blas} (rows inner_dim cols : Z) : bool :=
  if have_accelerate then
    let force_disable := match amx_experiment with Some c => c =? 48 | None => false end in
    if force_disable then false
    else if (rows =? 0) || (inner_dim =? 0) || (cols =? 0) then false
    else if 16 <? inner_dim then false
    else true
  else false.

(** One cell of the scalar product and the operations it counts. *)
Definition scalar_cell (lhs rhs : Matrix) (i j : Z) (ops : Z) : result (Z * Z) :=
  for_range 0 (m_cols lhs) (λ k '(acc, ops),
    a ← at_ lhs i k; b ← at_ rhs k j;
    p ← mul a b; acc ← add acc p;
    Ok (acc, u64 (ops + 1))) (0, ops).

Definition LowRankProductScalar (lhs rhs : Matrix) (op_count : Z) : result (Matrix * Z) :=
  _ ← assert_ (m_cols lhs =? m_rows rhs);
  for_range 0 (m_rows lhs) (λ i st, for_range 0 (m_cols rhs) (λ j '(out, ops),
    '(acc, ops) ← scalar_cell lhs rhs i j ops;
    out ← at_set out i j acc;
    Ok (out, ops)) st) (Matrix_new (m_rows lhs) (m_cols rhs), op_count).

(** [for (iter = 0; iter < 8 && value > kModulus; ++iter)] *)
Fixpoint reduce128_loop (iters : nat) (value : Z) : Z :=
  match iters with
  | O => value
  | S iters =>
      if MODULUS <? value then reduce128_loop iters (u128 (Z.land value MODULUS + Z.shiftr value 31)) else value
  end.
Definition ReduceMersenne128 (value : Z) : Z :=
  let value := reduce128_loop 8 value in
  if value =? MODULUS then 0 else u32 value.

(** [value & 0xffff] and [value >> 16] of every entry. *)
Definition lo16 (m : Matrix) : list Z := (λ v, Z.land v 0xffff) <$> m_data m.
Definition hi16 (m : Matrix) : list Z := (λ v, Z.shiftr v 16) <$> m_data m.

Definition split16_cell (ll_raw lh_raw hl_raw hh_raw : Z) : Z :=
  let ll := u64 (Z.max ll_raw 0) in
  let lh := u64 (Z.max lh_raw 0) in
  let hl := u64 (Z.max hl_raw 0) in
  let hh := u64 (Z.max hh_raw 0) in
  let total := u128 (ll + Z.shiftl (u64 (lh + hl)) 16 + Z.shiftl hh 32) in
  ReduceMersenne128 total.

Definition LowRankProductAccelerateSplit16 `{Blas} (lhs rhs : Matrix) (op_count : Z) : result (Matrix * Z) :=
  let m := m_rows lhs in
  let k := m_cols lhs in
  let n := m_cols rhs in
  let c_ll := dgemm m n k (lo16 lhs) (lo16 rhs) in
  let c_lh := dgemm m n k (lo16 lhs) (hi16 rhs) in
  let c_hl := dgemm m n k (hi16 lhs) (lo16 rhs) in
  let c_hh := dgemm m n k (hi16 lhs) (hi16 rhs) in
  for_range 0 m (λ row st, for_range 0 n (λ col '(out, ops),
    let idx := row * n + col in
    ll ← vget c_ll idx; lh ← vget c_lh idx; hl ← vget c_hl idx; hh ← vget c_hh idx;
    out ← at_set out row col (split16_cell ll lh hl hh);
    Ok (out, u64 (ops + k))) st) (Matrix_new m n, op_count).

(** [LowRankProduct] with the counter and the global [g_accelerate_disabled]. *)
Definition LowRankProduct `{Blas} (lhs rhs : Matrix) (st : Z * bool) : result (Matrix * (Z * bool)) :=
  let '(op_count, disabled) := st in
  _ ← assert_ (m_cols lhs =? m_rows rhs);
  if accelerate_active (m_rows lhs) (m_cols lhs) (m_cols rhs) && negb disabled then
    '(r, ops) ← LowRankProductAccelerateSplit16 lhs rhs op_count;
    '(scalar_check, _) ← scalar_cell lhs rhs 0 0 0;
    r00 ← at_ r 0 0;
    if negb (r00 =? scalar_check) then
      '(out, ops) ← LowRankProductScalar lhs rhs ops; Ok (out, (ops, true))
    else Ok (r, (ops, disabled))
  else
    '(out, ops) ← LowRankProductScalar lhs rhs op_count; Ok (out, (ops, disabled)).

Definition denoise_asserts (C_noisy A B : Matrix) (np : NoisePair) : result unit :=
  _ ← assert_ (m_rows C_noisy =? m_cols C_noisy);
  _ ← assert_ (m_rows A =? m_cols A);
  _ ← assert_ (m_rows B =? m_cols B);
  _ ← assert_ (m_rows C_noisy =? m_rows A);
  _ ← assert_ (m_cols C_noisy =? m_cols B);
  _ ← assert_ (m_rows (E_L np) =? m_rows C_noisy);
  _ ← assert_ (m_cols (E_R np) =? m_cols C_noisy);
  _ ← assert_ (m_cols (E_L np) =? m_rows (E_R np));
  _ ← assert_ (m_rows (F_L np) =? m_rows C_noisy);
  _ ← assert_ (m_cols (F_R np) =? m_cols C_noisy);
  assert_ (m_cols (F_L np) =? m_rows (F_R np)).

(** The seven products of [Denoise], threading the counter and the flag. *)
Definition denoise_terms `{Blas} (A B : Matrix) (np : NoisePair) (st : Z * bool) :
    result (Matrix * Matrix * Matrix * (Z * bool)) :=
  '(af_left, st) ← LowRankProduct A (F_L np) st;
  '(af, st) ← LowRankProduct af_left (F_R np) st;
  '(eb_right, st) ← LowRankProduct (E_R np) B st;
  '(eb, st) ← LowRankProduct (E_L np) eb_right st;
  '(ef_mid, st) ← LowRankProduct (E_R np) (F_L np) st;
  '(ef_left, st) ← LowRankProduct (E_L np) ef_mid st;
  '(ef, st) ← LowRankProduct ef_left (F_R np) st;
  Ok (af, eb, ef, st).

Definition Denoise `{Blas} (C_noisy A B : Matrix) (np : NoisePair) (disabled : bool) : result (Matrix * bool) :=
  _ ← denoise_asserts C_noisy A B np;
  '(af, eb, ef, st) ← denoise_terms A B np (0, disabled);
  x ← Matrix_sub C_noisy af;
  x ← Matrix_sub x eb;
  x ← Matrix_sub x ef;
  Ok (x, snd st).

Definition DenoiseOpsForTest `{Blas} (C_noisy A B : Matrix) (np : NoisePair) (disabled : bool) : result Z :=
  '(_, _, _, st) ← denoise_terms A B np (0, disabled);
  Ok (fst st).

End lowrank.
Import lowrank.

(** ** Filling a matrix while counting *)
Lemma u64_add_assoc a b c : u64 (u64 (a + b) + c) = u64 (a + (b + c)).
Proof. rewrite !u64_mod. rewrite Z.add_mod_idemp_l by done. f_equal. lia. Qed.

Lemma fill_count_ok R C K (body : Z → Z → Matrix * Z → result (Matrix * Z)) f ops :
  0 ≤ R → 0 ≤ C → 0 ≤ ops < 2 ^ 64 →
  (∀ i j out o, 0 ≤ i < R → 0 ≤ j < C → 0 ≤ o < 2 ^ 64 →
     body i j (out, o) = (out ← at_set out i j (f i j); Ok (out, u64 (o + K)))) →
  for_range 0 R (λ i st, for_range 0 C (body i) st) (Matrix_new R C, ops)
    = Ok (mat_of R C f, u64 (ops + R * C * K)).
Proof.
  intros HR HC Ho Hbody. rewrite for_nest by done.
  pose (I := λ q (st : Matrix * Z), shape (fst st) R C ∧ snd st = u64 (ops + q * K) ∧
    ∀ i j, 0 ≤ i < R → 0 ≤ j < C → i * C + j < q → mget (fst st) i j = f i j).
  destruct (for_range_inv I (λ q st, body (q / C) (q mod C) st) 0 (R * C) (Matrix_new R C, ops))
    as ([m o] & -> & (E1 & E2 & E3) & Hops & Hm).
  - nia.
  - split; [|split]; cbn [fst snd].
    + rewrite Matrix_new_mat_of by done. split; [done|split; [done|]]. by apply zlen_mat_of.
    + rewrite u64_small; lia.
    + intros i j Hi Hj Hlt. nia.
  - intros q [m o] Hq (Hs & Hops & Hm). cbn [fst snd] in *.
    destruct (index_split q R C Hq HC) as (Eq & Hi & Hj). rewrite Hbody by (try done; rewrite Hops; apply u64_bound).
    destruct (at_set_ok m R C (q / C) (q mod C) (f (q / C) (q mod C)) Hs Hi Hj) as (m' & -> & Hs' & Hm').
    rewrite bind_Ok. eexists; split; [done|]. split; [|split]; cbn [fst snd]; [done| |].
    + rewrite Hops, u64_add_assoc. f_equal. lia.
    + intros i j Hi' Hj' Hlt. rewrite Hm' by done. case_decide as Hd; [by destruct Hd as [<- <-]|].
      apply Hm; [done..|]. destruct (decide (i * C + j = q)) as [E|]; [|lia].
      exfalso. apply Hd. rewrite <- E, index_div, index_mod by done. done.
  - cbn [fst snd] in *. rewrite Hops. do 2 f_equal. apply mat_ext; rewrite ?E1, ?E2; cbn [m_rows m_cols m_data mat_of]; try lia.
    + rewrite zlen_ztab; nia.
    + intros i j Hi Hj. rewrite mget_mat_of by done. apply Hm; [done..|]. apply index_range; done.
Qed.

Lemma scalar_cell_ok lhs rhs i j ops :
  wf lhs → wf rhs → m_cols lhs = m_rows rhs → 0 ≤ i < m_rows lhs → 0 ≤ j < m_cols rhs → 0 ≤ ops < 2 ^ 64 →
  scalar_cell lhs rhs i j ops
    = Ok (zsum (m_cols lhs) (λ k, mget lhs i k * mget rhs k j) mod MODULUS, u64 (ops + m_cols lhs)).
Proof.
  intros Hl Hr Hd Hi Hj Ho. unfold scalar_cell.
  destruct (for_range_inv (λ k st, st = (zsum k (λ k, mget lhs i k * mget rhs k j) mod MODULUS, u64 (ops + k)))
    (λ k '(acc, ops), a ← at_ lhs i k; b ← at_ rhs k j; p ← mul a b; acc ← add acc p; Ok (acc, u64 (ops + 1)))
    0 (m_cols lhs) (0, ops)) as (st & -> & ->); [apply Hl| | |done].
  - rewrite Z.add_0_r, u64_small by done. done.
  - intros k st Hk ->. rewrite (at_ok lhs), bind_Ok by (try apply Hl; lia). rewrite (at_ok rhs), bind_Ok by (try apply Hr; lia).
    rewrite mul_mod, bind_Ok by auto with btx. rewrite add_mod, bind_Ok by auto with btx.
    eexists; split; [done|]. rewrite <- Zplus_mod, zsum_succ, u64_add_assoc by lia. done.
Qed.

Lemma LowRankProductScalar_ok lhs rhs ops :
  wf lhs → wf rhs → m_cols lhs = m_rows rhs → 0 ≤ ops < 2 ^ 64 →
  LowRankProductScalar lhs rhs ops = Ok (mmul lhs rhs, u64 (ops + m_rows lhs * m_cols rhs * m_cols lhs)).
Proof.
  intros Hl Hr Hd Ho. unfold LowRankProductScalar. rewrite (proj2 (Z.eqb_eq _ _) Hd). cbn [assert_]. rewrite bind_Ok.
  pose proof (wf_rows _ Hl). pose proof (wf_cols _ Hr).
  rewrite (fill_count_ok (m_rows lhs) (m_cols rhs) (m_cols lhs)
    (λ i j '(out, ops), '(acc, ops) ← scalar_cell lhs rhs i j ops; out ← at_set out i j acc; Ok (out, ops))
    (λ i j, zsum (m_cols lhs) (λ k, mget lhs i k * mget rhs k j) mod MODULUS)); [done|lia|lia|done|].
  intros i j out o Hi Hj Hob. by rewrite scalar_cell_ok.
Qed.

(** ** The 128-bit Mersenne reduction *)
Lemma reduce128_step n B v :
  (∀ x, 0 ≤ x ≤ B → reduce128_loop n x ≡p x ∧ 0 ≤ reduce128_loop n x ≤ MODULUS) →
  0 ≤ v < 2 ^ 128 → v ≤ MODULUS ∨ v mod 2 ^ 31 + v / 2 ^ 31 ≤ B →
  reduce128_loop (S n) v ≡p v ∧ 0 ≤ reduce128_loop (S n) v ≤ MODULUS.
Proof.
  intros Hn Hv Hb. cbn [reduce128_loop]. destruct (Z.ltb_spec MODULUS v) as [Hlt|Hle]; [|split; [done|lia]].
  rewrite (land_mask v 31), Z.shiftr_div_pow2 by done.
  pose proof (Z.mod_pos_bound v (2 ^ 31) ltac:(lia)). pose proof (Z.div_mod v (2 ^ 31) ltac:(lia)).
  assert (0 ≤ v / 2 ^ 31 < 2 ^ 97) by (split; [apply Z.div_pos|apply Z.div_lt_upper_bound]; lia).
  rewrite u128_small by lia. destruct (Hn (v mod 2 ^ 31 + v / 2 ^ 31)) as [Hc Hr]; [lia|]. split; [|done].
  rewrite Hc. unfold cong. rewrite <- (Z.mod_add (v mod 2 ^ 31 + v / 2 ^ 31) (v / 2 ^ 31) MODULUS) by done.
  f_equal. unfold MODULUS. lia.
Qed.

Lemma ReduceMersenne128_ok v : 0 ≤ v < 2 ^ 128 → ReduceMersenne128 v = v mod MODULUS.
Proof.
  intros Hv. unfold ReduceMersenne128.
  assert (reduce128_loop 8 v ≡p v ∧ 0 ≤ reduce128_loop 8 v ≤ MODULUS) as [Hc Hr].
  { assert (∀ n x, 0 ≤ x ≤ MODULUS → reduce128_loop n x ≡p x ∧ 0 ≤ reduce128_loop n x ≤ MODULUS) as H0.
    { intros n x Hx. destruct n as [|n]; cbn [reduce128_loop]; [split; [done|lia]|].
      rewrite (proj2 (Z.ltb_ge MODULUS x)) by lia. split; [done|lia]. }
    assert (∀ x, 0 ≤ x ≤ 2 ^ 32 - 2 → reduce128_loop 4 x ≡p x ∧ 0 ≤ reduce128_loop 4 x ≤ MODULUS) as H1.
    { intros x Hx. apply (reduce128_step 3 MODULUS); [apply H0|lia|]. unfold MODULUS. divmod_lia. }
    assert (∀ x, 0 ≤ x ≤ 2 ^ 62 - 1 → reduce128_loop 5 x ≡p x ∧ 0 ≤ reduce128_loop 5 x ≤ MODULUS) as H2.
    { intros x Hx. apply (reduce128_step 4 (2 ^ 32 - 2)); [apply H1|lia|]. right. divmod_lia. }
    assert (∀ x, 0 ≤ x ≤ 2 ^ 92 - 1 → reduce128_loop 6 x ≡p x ∧ 0 ≤ reduce128_loop 6 x ≤ MODULUS) as H3.
    { intros x Hx. apply (reduce128_step 5 (2 ^ 62 - 1)); [apply H2|lia|]. right. divmod_lia. }
    assert (∀ x, 0 ≤ x ≤ 2 ^ 122 - 1 → reduce128_loop 7 x ≡p x ∧ 0 ≤ reduce128_loop 7 x ≤ MODULUS) as H4.
    { intros x Hx. apply (reduce128_step 6 (2 ^ 92 - 1)); [apply H3|lia|]. right. divmod_lia. }
    apply (reduce128_step 7 (2 ^ 122 - 1)); [apply H4|lia|]. right. divmod_lia. }
  unfold cong in Hc. rewrite <- Hc. destruct (Z.eqb_spec (reduce128_loop 8 v) MODULUS) as [->|Hne]; [done|].
  unfold MODULUS in *. rewrite u32_small, Z.mod_small by lia. done.
Qed.

(** ** The split product *)
Lemma split_digits v : 0 ≤ v < 2 ^ 32 → ∃ lo hi,
  Z.land v 0xffff = lo ∧ Z.shiftr v 16 = hi ∧ v = lo + 2 ^ 16 * hi ∧ 0 ≤ lo < 2 ^ 16 ∧ 0 ≤ hi < 2 ^ 16.
Proof.
  intros Hv. eexists _, _. split; [done|]. split; [done|]. rewrite (land_mask v 16), Z.shiftr_div_pow2 by done.
  divmod_lia.
Qed.

(** A list of 16-bit halves indexed like the matrix. *)
Lemma znth_fmap (g : Z → Z) l i : g 0 = 0 → znth (g <$> l) i = g (znth l i).
Proof.
  intros Hg. unfold znth. rewrite !nth_lookup, list_lookup_fmap. destruct (l !! Z.to_nat i); cbn; done.
Qed.

Section Split16.
Context `{Blas} `{!ExactBlas} (lhs rhs : Matrix).
Hypothesis Hl : wf lhs.
Hypothesis Hr : wf rhs.
Hypothesis Hd : m_cols lhs = m_rows rhs.
Hypothesis Hk : m_cols lhs ≤ 16.

(** A half of the entries of a matrix. *)
Definition is_half (g : Z → Z) : Prop := g 0 = 0 ∧ ∀ v, canonical v → 0 ≤ g v < 2 ^ 16.

Lemma lo_half : is_half (λ v, Z.land v 0xffff).
Proof. split; [done|]. intros v Hv. destruct (split_digits v) as (lo & hi & -> & _ & _ & ? & _); [unfold canonical, MODULUS in *; lia|done]. Qed.
Lemma hi_half : is_half (λ v, Z.shiftr v 16).
Proof. split; [done|]. intros v Hv. destruct (split_digits v) as (lo & hi & _ & -> & _ & _ & ?); [unfold canonical, MODULUS in *; lia|done]. Qed.

Definition half_sum (g h : Z → Z) (i j : Z) : Z :=
  zsum (m_cols lhs) (λ t, g (mget lhs i t) * h (mget rhs t j)).

Lemma half_sum_bound g h i j : is_half g → is_half h → 0 ≤ half_sum g h i j ≤ 2 ^ 36.
Proof.
  intros [_ Hg] [_ Hh]. pose proof (wf_cols _ Hl). unfold half_sum. split.
  - apply zsum_nonneg. intros t _. pose proof (Hg _ (mget_canonical lhs i t Hl)).
    pose proof (Hh _ (mget_canonical rhs t j Hr)). nia.
  - assert (Z.abs (zsum (m_cols lhs) (λ t, g (mget lhs i t) * h (mget rhs t j))) ≤ m_cols lhs * 2 ^ 32) as Hb; [|lia].
    apply zsum_abs_bound; [lia|]. intros t _. pose proof (Hg _ (mget_canonical lhs i t Hl)).
    pose proof (Hh _ (mget_canonical rhs t j Hr)). nia.
Qed.

Lemma dgemm_half g h :
  is_half g → is_half h →
  dgemm (m_rows lhs) (m_cols rhs) (m_cols lhs) (g <$> m_data lhs) (h <$> m_data rhs)
    = ztab (m_rows lhs * m_cols rhs) (λ q, half_sum g h (q / m_cols rhs) (q mod m_cols rhs)).
Proof.
  intros Hg Hh. pose proof (wf_rows _ Hl). pose proof (wf_cols _ Hl). pose proof (wf_cols _ Hr).
  assert (∀ i j, zsum (m_cols lhs) (λ t, znth (g <$> m_data lhs) (i * m_cols lhs + t) *
    znth (h <$> m_data rhs) (t * m_cols rhs + j)) = half_sum g h i j) as E.
  { intros i j. unfold half_sum, mget. apply zsum_ext. intros t _. by rewrite !znth_fmap by (apply Hg || apply Hh). }
  rewrite dgemm_exact; [apply ztab_ext; intros q _; apply E|lia|lia|lia| | | | |].
  - unfold zlen. rewrite length_fmap. apply (wf_len _ Hl).
  - unfold zlen. rewrite length_fmap, Hd. apply (wf_len _ Hr).
  - intros i. rewrite znth_fmap by apply Hg. apply Hg. apply canon_znth, Hl.
  - intros i. rewrite znth_fmap by apply Hh. apply Hh. apply canon_znth, Hr.
  - intros i j _ _. rewrite E. pose proof (half_sum_bound g h i j Hg Hh). lia.
Qed.

Lemma split16_cell_ok i j :
  split16_cell (half_sum (λ v, Z.land v 0xffff) (λ v, Z.land v 0xffff) i j)
    (half_sum (λ v, Z.land v 0xffff) (λ v, Z.shiftr v 16) i j)
    (half_sum (λ v, Z.shiftr v 16) (λ v, Z.land v 0xffff) i j)
    (half_sum (λ v, Z.shiftr v 16) (λ v, Z.shiftr v 16) i j)
  = zsum (m_cols lhs) (λ t, mget lhs i t * mget rhs t j) mod MODULUS.
Proof.
  pose proof (half_sum_bound _ _ i j lo_half lo_half) as B1. pose proof (half_sum_bound _ _ i j lo_half hi_half) as B2.
  pose proof (half_sum_bound _ _ i j hi_half lo_half) as B3. pose proof (half_sum_bound _ _ i j hi_half hi_half) as B4.
  unfold split16_cell. rewrite !Z.max_l by lia. rewrite !Z.shiftl_mul_pow2 by lia.
  rewrite (u64_small (half_sum _ _ i j)) by lia. rewrite !u64_small by (rewrite ?u64_small; lia).
  rewrite u128_small by lia. rewrite ReduceMersenne128_ok by lia. f_equal.
  unfold half_sum. rewrite <- zsum_add, <- !zsum_mul_r, <- !zsum_add. apply zsum_ext. intros t _.
  destruct (split_digits (mget lhs i t)) as (a & b & -> & -> & -> & _); [pose proof (mget_canonical lhs i t Hl); unfold canonical, MODULUS in *; lia|].
  destruct (split_digits (mget rhs t j)) as (c & d & -> & -> & -> & _); [pose proof (mget_canonical rhs t j Hr); unfold canonical, MODULUS in *; lia|].
  lia.
Qed.

Lemma LowRankProductAccelerateSplit16_ok ops :
  0 ≤ ops < 2 ^ 64 →
  LowRankProductAccelerateSplit16 lhs rhs ops = Ok (mmul lhs rhs, u64 (ops + m_rows lhs * m_cols rhs * m_cols lhs)).
Proof.
  intros Ho. pose proof (wf_rows _ Hl). pose proof (wf_cols _ Hr).
  unfold LowRankProductAccelerateSplit16, lo16, hi16. cbv zeta.
  rewrite !dgemm_half by (apply lo_half || apply hi_half).
  apply (fill_count_ok (m_rows lhs) (m_cols rhs) (m_cols lhs) _
    (λ i j, zsum (m_cols lhs) (λ k, mget lhs i k * mget rhs k j) mod MODULUS)); [lia|lia|done|].
  intros i j out o Hi Hj _. pose proof (index_range i j _ _ Hi Hj).
  rewrite !vget_ztab, !bind_Ok by done. by rewrite !index_div, !index_mod, split16_cell_ok by done.
Qed.
End Split16.

(** ** [LowRankProduct] and [Denoise] *)

(** The fast path never disagrees with the scalar path, so the fallback is
    never taken. *)
Lemma LowRankProduct_ok `{Blas} `{!ExactBlas} lhs rhs ops disabled :
  wf lhs → wf rhs → m_cols lhs = m_rows rhs → 0 ≤ ops < 2 ^ 64 →
  LowRankProduct lhs rhs (ops, disabled)
    = Ok (mmul lhs rhs, (u64 (ops + m_rows lhs * m_cols rhs * m_cols lhs), disabled)).
Proof.
  intros Hl Hr Hd Ho. unfold LowRankProduct. rewrite (proj2 (Z.eqb_eq _ _) Hd). cbn [assert_]. rewrite bind_Ok.
  destruct (accelerate_active _ _ _ && negb disabled) eqn:E.
  - apply andb_true_iff in E as [E _]. unfold accelerate_active in E.
    destruct have_accelerate; [|done]. destruct (match amx_experiment with Some c => c =? 48 | None => false end); [done|].
    destruct ((m_rows lhs =? 0) || (m_cols lhs =? 0) || (m_cols rhs =? 0)) eqn:E0; [done|].
    apply orb_false_iff in E0 as [[E1%Z.eqb_neq E2%Z.eqb_neq]%orb_false_iff E3%Z.eqb_neq].
    destruct (Z.ltb_spec 16 (m_cols lhs)) as [|H16]; [done|].
    pose proof (wf_rows _ Hl). pose proof (wf_cols _ Hl). pose proof (wf_cols _ Hr).
    rewrite LowRankProductAccelerateSplit16_ok, bind_Ok by done.
    rewrite scalar_cell_ok, bind_Ok by (done || lia).
    assert (wf (mmul lhs rhs)) as Hw by auto with btx.
    rewrite at_ok, bind_Ok; [|apply Hw|cbn [m_rows mmul mat_of]; lia|cbn [m_cols mmul mat_of]; lia].
    unfold mmul at 1. rewrite mget_mat_of by lia. by rewrite Z.eqb_refl.
  - rewrite LowRankProductScalar_ok, bind_Ok by done. done.
Qed.

Lemma mmul_assoc a b c :
  m_cols a = m_rows b → 0 ≤ m_cols c →
  mmul (mmul a b) c = mmul a (mmul b c).
Proof.
  intros Hab Hc. unfold mmul at 1 3. cbn [m_rows m_cols mmul mat_of]. apply mat_of_ext; [done|].
  intros i j Hi Hj.
  change (zsum (m_cols b) (λ k, mget (mmul a b) i k * mget c k j) ≡p zsum (m_cols a) (λ k, mget a i k * mget (mmul b c) k j)).
  transitivity (zsum (m_cols b) (λ k, zsum (m_cols a) (λ t, mget a i t * mget b t k) * mget c k j)).
  { apply cong_zsum. intros k Hk. unfold mmul. rewrite mget_mat_of by done. by rewrite (cong_mod MODULUS). }
  transitivity (zsum (m_cols a) (λ t, mget a i t * zsum (m_cols b) (λ k, mget b t k * mget c k j))).
  2: { apply cong_zsum. intros t Ht. unfold mmul. rewrite mget_mat_of by lia. by rewrite (cong_mod MODULUS). }
  apply cong_eq.
  erewrite (zsum_ext (m_cols b)) by (intros k _; rewrite <- zsum_mul_r; reflexivity).
  rewrite zsum_swap. apply zsum_ext. intros t _. rewrite <- zsum_mul_l. apply zsum_ext. intros. lia.
Qed.

(** Operands and noise of the shapes the proof of work uses. *)
Record denoisable (A B : Matrix) (np : NoisePair) (n r : Z) : Prop := {
  d_A : wf A ∧ m_rows A = n ∧ m_cols A = n;
  d_B : wf B ∧ m_rows B = n ∧ m_cols B = n;
  d_np : noise_ok np n r
}.

Lemma denoise_terms_ok `{Blas} `{!ExactBlas} A B np n r disabled :
  denoisable A B np n r →
  denoise_terms A B np (0, disabled) =
    Ok (mmul A (mmul (F_L np) (F_R np)), mmul (mmul (E_L np) (E_R np)) B,
        mmul (mmul (E_L np) (E_R np)) (mmul (F_L np) (F_R np)),
        (u64 (5 * (n * n * r) + 2 * (n * r * r)), disabled)).
Proof.
  intros [(HA & Ar & Ac) (HB & Br & Bc) [(He & Er & Ec) (Hf & Fr & Fc) (Hg & Gr & Gc) (Hh & Hr & Hc)]].
  pose proof (wf_rows _ HA). pose proof (wf_cols _ He). unfold denoise_terms.
  assert (∀ a b : Matrix, wf a → wf b → wf (mmul a b)) as Hw by auto with btx.
  repeat (rewrite LowRankProduct_ok, bind_Ok;
    [|repeat first [assumption | apply Hw] | repeat first [assumption | apply Hw]
     |cbn [m_rows m_cols mmul mat_of]; congruence | apply u64_bound || lia]).
  cbn [m_rows m_cols mmul mat_of]. rewrite !u64_add_assoc.
  fold (mmul A (F_L np)) (mmul (E_R np) B) (mmul (E_R np) (F_L np)).
  rewrite (mmul_assoc A (F_L np) (F_R np)), <- (mmul_assoc (E_L np) (E_R np) B),
    <- (mmul_assoc (E_L np) (E_R np) (F_L np)), (mmul_assoc (mmul (E_L np) (E_R np)) (F_L np) (F_R np))
    by (cbn [m_rows m_cols mmul mat_of]; congruence || lia).
  do 3 f_equal. f_equal. rewrite ?Ar, ?Ac, ?Br, ?Bc, ?Er, ?Ec, ?Fr, ?Fc, ?Gr, ?Gc, ?Hr, ?Hc. lia.
Qed.

Lemma denoise_asserts_ok C A B np n r :
  denoisable A B np n r → m_rows C = n → m_cols C = n → denoise_asserts C A B np = Ok tt.
Proof.
  intros [(_ & Ar & Ac) (_ & Br & Bc) [(_ & Er & Ec) (_ & Fr & Fc) (_ & Gr & Gc) (_ & Hr & Hc)]] Cr Cc.
  unfold denoise_asserts. rewrite Cr, Cc, Ar, Ac, Br, Bc, Er, Ec, Fr, Fc, Gr, Gc, Hr, Hc, !Z.eqb_refl. done.
Qed.

(** Subtracting the three noise terms leaves the clean product. *)
Lemma denoise_entry a e c f k x :
  x ≡p zsum k (λ t, (a t + e t) * (c t + f t)) →
  (((x - zsum k (λ t, a t * f t)) - zsum k (λ t, e t * c t)) - zsum k (λ t, e t * f t)) ≡p zsum k (λ t, a t * c t).
Proof. intros ->. apply cong_eq. rewrite zsum_binomial. lia. Qed.

Lemma Denoise_ok `{Blas} `{!ExactBlas} A B np n r disabled :
  denoisable A B np n r →
  Denoise (mmul (perturb A (E_L np) (E_R np)) (perturb B (F_L np) (F_R np))) A B np disabled
    = Ok (mmul A B, disabled).
Proof.
  intros Hden. pose proof Hden as [(HA & Ar & Ac) (HB & Br & Bc) [(He & Er & Ec) (Hf & Fr & Fc) (Hg & Gr & Gc) (Hh & Hr & Hc)]].
  set (C := mmul _ _). assert (wf (perturb A (E_L np) (E_R np))) as HwA by (by apply wf_madd).
  assert (wf (perturb B (F_L np) (F_R np))) as HwB by (by apply wf_madd).
  assert (wf C) as HwC by (unfold C; auto with btx).
  assert (m_rows C = n) as Cr by done. assert (m_cols C = n) as Cc by done.
  unfold Denoise. rewrite (denoise_asserts_ok C A B np n r), bind_Ok by done.
  rewrite (denoise_terms_ok A B np n r), bind_Ok by done.
  set (E := mmul (E_L np) (E_R np)). set (F := mmul (F_L np) (F_R np)).
  assert (wf E) as HwE by (unfold E; auto with btx). assert (wf F) as HwF by (unfold F; auto with btx).
  assert (m_rows E = n ∧ m_cols E = n ∧ m_rows F = n ∧ m_cols F = n) as (E1 & E2 & F1 & F2) by done.
  rewrite Matrix_sub_ok, bind_Ok; [|done|auto with btx|cbn [m_rows m_cols mmul mat_of]; congruence..].
  rewrite Matrix_sub_ok, bind_Ok; [|auto with btx|auto with btx|cbn [m_rows m_cols mmul msub mat_of]; congruence..].
  rewrite Matrix_sub_ok, bind_Ok; [|auto with btx|auto with btx|cbn [m_rows m_cols mmul msub mat_of]; congruence..].
  do 2 f_equal. unfold msub at 1. cbn [m_rows m_cols msub mat_of]. rewrite Cr, Cc. unfold mmul at 4. rewrite Ar, Bc.
  pose proof (wf_cols _ HA). apply mat_of_ext; [lia|]. intros i j Hi Hj.
  unfold msub. rewrite !mget_mat_of by (cbn [m_rows m_cols mat_of]; lia). unfold mmul at 1 2 3. rewrite !mget_mat_of by (cbn [m_rows m_cols mat_of]; lia).
  rewrite E2, Ac.
  match goal with |- ?x mod MODULUS = ?y mod MODULUS => change (x ≡p y) end. rewrite !(cong_mod MODULUS).
  apply (denoise_entry (λ t, mget A i t) (λ t, mget E i t) (λ t, mget B t j) (λ t, mget F t j)).
  unfold C, mmul. rewrite mget_mat_of by (cbn [m_rows m_cols perturb madd mat_of]; lia). rewrite (cong_mod MODULUS).
  cbn [m_cols perturb madd mat_of]. rewrite Ac. apply cong_zsum. intros t Ht.
  unfold perturb, madd. rewrite !mget_mat_of by lia. by rewrite !(cong_mod MODULUS).
Qed.

(** ** Properties *)

(** Removing the noise from the product of the perturbed operands gives
    the product of the clean ones, through the scalar routine and through the
    split 16-bit routine alike, as long as the BLAS product is exact below
    [2^53]; the fallback that disables the fast routine is never taken. *)
Theorem denoise_exact `{Blas} `{!ExactBlas} A B np n r disabled :
  denoisable A B np n r →
  Denoise (mmul (perturb A (E_L np) (E_R np)) (perturb B (F_L np) (F_R np))) A B np disabled = Ok (mmul A B, disabled).
Proof. exact (Denoise_ok A B np n r disabled). Qed.
