(* ===== verification/MatMulPow.v ===== *)
(** The MatMul proof of work.

    [matmul/matmul_pow.cpp] and [matmul/solver_runtime.cpp]: the header hash
    and sigma, the solver's search loop with its budget of tries and time, and
    the verifier. *)

From Stdlib Require Import ZArith Lia String.
From stdpp Require Import base list numbers tactics.
From S2P Require Import Prelude Sha256 Field Matrix Noise Transcript Replay ArithUint256.
Import field noise transcript arith_uint256.

Open Scope Z_scope.

Module matmul_pow.

Record PowConfig := mkConfig { cfg_n : Z; cfg_b : Z; cfg_r : Z; cfg_target : list Z }.

Record PowState := mkState {
  ps_version : Z; ps_previous_block_hash : list Z; ps_merkle_root : list Z;
  ps_time : Z; ps_bits : Z; ps_seed_a : list Z; ps_seed_b : list Z;
  ps_nonce : Z; ps_matmul_dim : Z; ps_digest : list Z
}.

(** [CBlockHeader], without the unused [mix_hash]. *)
Record CBlockHeader := mkHeader {
  h_nVersion : Z; h_hashPrevBlock : list Z; h_hashMerkleRoot : list Z; h_nTime : Z; h_nBits : Z;
  h_nNonce64 : Z; h_nNonce : Z; h_matmul_dim : Z; h_seed_a : list Z; h_seed_b : list Z;
  h_matmul_digest : list Z
}.

Definition IsValidConfig (config : PowConfig) : bool :=
  if (cfg_n config =? 0) || (cfg_b config =? 0) || (cfg_r config =? 0) then false
  else if negb (cfg_n config mod cfg_b config =? 0) then false
  else if cfg_n config <? cfg_r config then false
  else true.

Definition ComputeMatMulHeaderHash (header : CBlockHeader) : list Z :=
  let hasher := sha_Write CSHA256_new (WriteLE32 (u32 (h_nVersion header))) in
  let hasher := sha_Write hasher (h_hashPrevBlock header) in
  let hasher := sha_Write hasher (h_hashMerkleRoot header) in
  let hasher := sha_Write hasher (WriteLE32 (h_nTime header)) in
  let hasher := sha_Write hasher (WriteLE32 (h_nBits header)) in
  let hasher := sha_Write hasher (WriteLE64 (h_nNonce64 header)) in
  let hasher := sha_Write hasher (WriteLE16 (h_matmul_dim header)) in
  let hasher := sha_Write hasher (h_seed_a header) in
  let hasher := sha_Write hasher (h_seed_b header) in
  fst (sha_Finalize hasher).

Definition DeriveSigma (header : CBlockHeader) : list Z :=
  fst (sha_Finalize (sha_Write CSHA256_new (ComputeMatMulHeaderHash header))).

Definition BuildHeaderFromPowState (state : PowState) : CBlockHeader :=
  mkHeader (ps_version state) (ps_previous_block_hash state) (ps_merkle_root state)
    (ps_time state) (ps_bits state) (ps_nonce state) (u32 (ps_nonce state))
    (ps_matmul_dim state) (ps_seed_a state) (ps_seed_b state) (replicate 32 0).

Definition DeriveSigmaFromState (state : PowState) : list Z := DeriveSigma (BuildHeaderFromPowState state).

Definition VerifyCommitment (state : PowState) (config : PowConfig) : bool :=
  if negb (IsValidConfig config) then false
  else if negb (ps_matmul_dim state =? cfg_n config) then false
  else leb (UintToArith256 (ps_digest state)) (cfg_target config).

(** The transcript hash of one attempt, from the clean operands. *)
Definition attempt `{Platform} (A B : Matrix) (state : PowState) (config : PowConfig) : result (list Z) :=
  let sigma := DeriveSigmaFromState state in
  np ← Generate sigma (cfg_n config) (cfg_r config);
  E ← Matrix_mul (E_L np) (E_R np);
  F ← Matrix_mul (F_L np) (F_R np);
  A_prime ← Matrix_add A E;
  B_prime ← Matrix_add B F;
  r ← CanonicalMatMul A_prime B_prime (cfg_b config) sigma;
  Ok (transcript_hash r).

(** [SolveRuntimeOptions] and the thread-local state it sets. *)
Record SolveRuntimeOptions := mkOptions { time_budget_ms : Z; max_worker_threads : Z }.
Record SolveRuntime := mkRuntime { rt_worker_limit : Z; rt_has_deadline : bool; rt_deadline_us : Z }.

(** [ScopedSolveRuntime(options)] at time [now]; the destructor puts the
    previous record back. *)
Definition ScopedSolveRuntime (options : SolveRuntimeOptions) (now : Z) : SolveRuntime :=
  if 0 <? time_budget_ms options
  then mkRuntime (max_worker_threads options) true (s64 (now + s64 (s64 (time_budget_ms options) * 1000)))
  else mkRuntime (max_worker_threads options) false 0.

Definition SolveTimeBudgetExpired (rt : SolveRuntime) (now : Z) : bool :=
  rt_has_deadline rt && (rt_deadline_us rt <=? now).

(** The platform seen while a worker limit is in force. *)
Definition with_worker_limit (P : Platform) (limit : Z) : Platform :=
  {| arm_neon := @arm_neon P; apple := @apple P; hardware_concurrency := @hardware_concurrency P;
     blocked_multiply_threads := @blocked_multiply_threads P; noise_parallel := @noise_parallel P;
     solve_worker_limit := limit |}.

Definition set_nonce (state : PowState) (nonce : Z) : PowState :=
  mkState (ps_version state) (ps_previous_block_hash state) (ps_merkle_root state) (ps_time state)
    (ps_bits state) (ps_seed_a state) (ps_seed_b state) nonce (ps_matmul_dim state) (ps_digest state).
Definition set_digest (state : PowState) (digest : list Z) : PowState :=
  mkState (ps_version state) (ps_previous_block_hash state) (ps_merkle_root state) (ps_time state)
    (ps_bits state) (ps_seed_a state) (ps_seed_b state) (ps_nonce state) (ps_matmul_dim state) digest.

(** [while (max_tries > 0)], with [max_tries] as the recursion argument and
    [clock i] the time read by the [i]-th check: the verdict, the state and
    the tries left. *)
Fixpoint solve_loop `{Platform} (A B : Matrix) (config : PowConfig) (rt : SolveRuntime) (clock : nat → Z)
    (max_tries : nat) (state : PowState) : result (bool * PowState * nat) :=
  match max_tries with
  | O => Ok (false, state, O)
  | S tries =>
      if SolveTimeBudgetExpired rt (clock O) then Ok (false, state, S tries)
      else
        h ← attempt A B state config;
        if leb (UintToArith256 h) (cfg_target config) then Ok (true, set_digest state h, tries)
        else if ps_nonce state =? 2 ^ 64 - 1 then Ok (false, state, tries)
        else solve_loop A B config rt (λ i, clock (S i)) tries (set_nonce state (u64 (ps_nonce state + 1)))
  end.

(** [Solve]: [now] is the time at which the budget starts. *)
Definition Solve `{P : Platform} (state : PowState) (config : PowConfig) (max_tries : nat)
    (options : SolveRuntimeOptions) (now : Z) (clock : nat → Z) : result (bool * PowState * nat) :=
  if negb (IsValidConfig config) then Ok (false, state, max_tries)
  else if (max_tries =? 0)%nat then Ok (false, state, max_tries)
  else if negb (ps_matmul_dim state =? cfg_n config) then Ok (false, state, max_tries)
  else
    let rt := ScopedSolveRuntime options now in
    A ← FromSeed (ps_seed_a state) (cfg_n config);
    B ← FromSeed (ps_seed_b state) (cfg_n config);
    @solve_loop (with_worker_limit P (rt_worker_limit rt)) A B config rt clock max_tries state.

Definition Verify `{Platform} (state : PowState) (config : PowConfig) : result bool :=
  if negb (VerifyCommitment state config) then Ok false
  else
    A ← FromSeed (ps_seed_a state) (cfg_n config);
    B ← FromSeed (ps_seed_b state) (cfg_n config);
    h ← attempt A B state config;
    Ok (bool_decide (h = ps_digest state)).

End matmul_pow.
Import matmul_pow.

(** ** The hash an honest party computes *)
Definition header_bytes (h : CBlockHeader) : list Z :=
  WriteLE32 (u32 (h_nVersion h)) ++ h_hashPrevBlock h ++ h_hashMerkleRoot h ++ WriteLE32 (h_nTime h) ++
  WriteLE32 (h_nBits h) ++ WriteLE64 (h_nNonce64 h) ++ WriteLE16 (h_matmul_dim h) ++ h_seed_a h ++ h_seed_b h.

Lemma DeriveSigma_ok h : DeriveSigma h = sha256d (header_bytes h).
Proof.
  unfold DeriveSigma, ComputeMatMulHeaderHash. cbv zeta. apply sha_Finalize_twice.
  unfold header_bytes. rewrite !app_assoc. do 8 apply sha_Write_represents.
  apply (sha_Write_represents _ []), represents_new.
Qed.

(** The hash of a state under a configuration: no platform, no threads, no
    caches. *)
Definition pow_hash (state : PowState) (config : PowConfig) : list Z :=
  let n := cfg_n config in
  let sigma := DeriveSigmaFromState state in
  let np := noise_pair sigma n (cfg_r config) in
  let A := perturb (seed_matrix (ps_seed_a state) n) (E_L np) (E_R np) in
  let B := perturb (seed_matrix (ps_seed_b state) n) (F_L np) (F_R np) in
  sha256d (word_bytes (transcript_words A B (cfg_b config) sigma)).

(** A configuration that passes [IsValidConfig] for a 16-bit dimension. *)
Record config_ok (config : PowConfig) : Prop := {
  co_n : 0 < cfg_n config < 2 ^ 16;
  co_b : 0 < cfg_b config;
  co_div : cfg_n config mod cfg_b config = 0;
  co_r : 0 < cfg_r config ≤ cfg_n config
}.

Lemma IsValidConfig_spec config :
  0 ≤ cfg_n config < 2 ^ 16 → 0 ≤ cfg_b config → 0 ≤ cfg_r config → IsValidConfig config = true → config_ok config.
Proof.
  intros Hn Hb Hr. unfold IsValidConfig. destruct (_ || _) eqn:E; [done|].
  apply orb_false_iff in E as [[E1%Z.eqb_neq E2%Z.eqb_neq]%orb_false_iff E3%Z.eqb_neq].
  destruct (Z.eqb_spec (cfg_n config mod cfg_b config) 0); [|done]. cbn [negb].
  destruct (Z.ltb_spec (cfg_n config) (cfg_r config)); [done|]. intros _. split; lia.
Qed.

Lemma block_le_dim n b : 0 < n → 0 < b → n mod b = 0 → b ≤ n.
Proof. intros Hn Hb Hm. apply Z.divide_pos_le; [done|]. by apply Z.mod_divide; [lia|]. Qed.

Lemma seed_blocked sa sb config :
  config_ok config → blocked (seed_matrix sa (cfg_n config)) (seed_matrix sb (cfg_n config)) (cfg_b config).
Proof.
  intros [Hn Hb Hd Hr]. pose proof (block_le_dim _ _ (proj1 Hn) Hb Hd).
  pose proof (wf_seed_matrix sa (cfg_n config) ltac:(lia)). pose proof (wf_seed_matrix sb (cfg_n config) ltac:(lia)).
  split; try done; cbn [m_rows seed_matrix mat_of]; nia.
Qed.

(** The transcript of the operands perturbed by a noise pair. *)
Lemma perturbed_transcript `{Platform} A B np b r sigma :
  blocked A B b → noise_ok np (m_rows A) r → r ≤ m_rows A →
  (E ← Matrix_mul (E_L np) (E_R np);
   F ← Matrix_mul (F_L np) (F_R np);
   A_prime ← Matrix_add A E;
   B_prime ← Matrix_add B F;
   res ← CanonicalMatMul A_prime B_prime b sigma;
   Ok (transcript_hash res))
  = Ok (sha256d (word_bytes (transcript_words (perturb A (E_L np) (E_R np)) (perturb B (F_L np) (F_R np)) b sigma))).
Proof.
  intros Hbl Hnp Hr. pose proof Hnp as [(He & Er & Ec) (Hf & Fr & Fc) (Hg & Gr & Gc) (Hh & Hr' & Hc')].
  pose proof Hbl as [HA HB HsA HsB HE Hb Hd Hn Hbb].
  rewrite (Matrix_mul_ok (E_L np)), bind_Ok by (assumption || lia).
  rewrite (Matrix_mul_ok (F_L np)), bind_Ok by (assumption || lia).
  rewrite (Matrix_add_ok A), bind_Ok; [|assumption|auto with btx|cbn [m_rows m_cols mmul mat_of]; lia..].
  rewrite (Matrix_add_ok B), bind_Ok; [|assumption|auto with btx|cbn [m_rows m_cols mmul mat_of]; lia..].
  fold (perturb A (E_L np) (E_R np)) (perturb B (F_L np) (F_R np)).
  rewrite CanonicalMatMul_ok, bind_Ok; [reflexivity|]. by apply (blocked_perturb _ _ np _ r).
Qed.

Lemma attempt_ok `{Platform} state config :
  config_ok config →
  attempt (seed_matrix (ps_seed_a state) (cfg_n config)) (seed_matrix (ps_seed_b state) (cfg_n config)) state config
    = Ok (pow_hash state config).
Proof.
  intros Hc. pose proof Hc as [Hn Hb Hd Hr]. unfold attempt. cbv zeta.
  rewrite Generate_ok, bind_Ok by nia.
  apply (perturbed_transcript _ _ _ _ (cfg_r config)).
  - by apply seed_blocked.
  - apply noise_pair_ok; cbn [m_rows seed_matrix mat_of]; lia.
  - apply Hr.
Qed.

(** ** The verifier *)
Definition meets (h : list Z) (config : PowConfig) : Prop := le_word h ≤ val (cfg_target config).

#[export] Instance meets_dec h config : Decision (meets h config).
Proof. unfold meets. apply _. Defined.

Lemma pow_hash_bytes state config :
  length (pow_hash state config) = 32%nat ∧ Forall is_byte (pow_hash state config).
Proof. unfold pow_hash, sha256d. cbv zeta. split; [apply sha256_length|apply sha256_is_byte]. Qed.

Lemma pow_hash_set_digest state d config : pow_hash (set_digest state d) config = pow_hash state config.
Proof. reflexivity. Qed.

#[local] Opaque pow_hash.

Lemma leb_meets h config :
  length h = 32%nat → Forall is_byte h → is_arith (cfg_target config) →
  leb (UintToArith256 h) (cfg_target config) = bool_decide (meets h config).
Proof.
  intros Hl Hb [Htl Htd]. destruct (UintToArith256_ok h Hl Hb) as [[Hal Had] Hv].
  rewrite leb_val by (done || congruence). rewrite Hv. unfold meets.
  apply eq_iff_eq_true. by rewrite bool_decide_eq_true, Z.leb_le.
Qed.

(** A state as the node holds it: a 16-bit dimension, a 32-byte digest. *)
Record state_ok (state : PowState) : Prop := {
  so_dim : 0 ≤ ps_matmul_dim state < 2 ^ 16;
  so_digest : length (ps_digest state) = 32%nat;
  so_bytes : Forall is_byte (ps_digest state);
  so_nonce : 0 ≤ ps_nonce state < 2 ^ 64
}.

(** A configuration as the node holds it. *)
Record config_typed (config : PowConfig) : Prop := {
  ct_b : 0 ≤ cfg_b config;
  ct_r : 0 ≤ cfg_r config;
  ct_target : is_arith (cfg_target config)
}.

(** The condition consensus puts on a block. *)
Definition valid_pow (state : PowState) (config : PowConfig) : Prop :=
  IsValidConfig config = true ∧ ps_matmul_dim state = cfg_n config ∧
  meets (ps_digest state) config ∧ ps_digest state = pow_hash state config.

#[export] Instance valid_pow_dec state config : Decision (valid_pow state config).
Proof. unfold valid_pow. apply _. Defined.

Lemma seed_matrices_ok seed config :
  config_ok config → FromSeed seed (cfg_n config) = Ok (seed_matrix seed (cfg_n config)).
Proof. intros [Hn _ _ _]. apply FromSeed_ok; nia. Qed.

Lemma Verify_valid `{Platform} state config :
  state_ok state → config_typed config → Verify state config = Ok (bool_decide (valid_pow state config)).
Proof.
  intros [Hd Hdl Hdb _] [Hb Hr Ht]. unfold Verify, VerifyCommitment.
  destruct (IsValidConfig config) eqn:Ev; cbn [negb].
  2: { rewrite bool_decide_false; [done|]. intros (E & _). congruence. }
  destruct (Z.eqb_spec (ps_matmul_dim state) (cfg_n config)) as [En|En]; cbn [negb].
  2: { rewrite bool_decide_false; [done|]. by intros (_ & E & _). }
  rewrite leb_meets by done. case_bool_decide as Hm; cbn [negb].
  2: { rewrite bool_decide_false; [done|]. by intros (_ & _ & E & _). }
  assert (config_ok config) as Hc by (apply IsValidConfig_spec; [lia|done..]).
  rewrite !seed_matrices_ok, !bind_Ok, attempt_ok, bind_Ok by done. f_equal.
  apply bool_decide_ext. unfold valid_pow. split.
  - intros E. split; [exact Ev|split; [exact En|split; [exact Hm|symmetry; exact E]]].
  - intros (_ & _ & _ & E). symmetry. exact E.
Qed.

(** ** The solver *)

(** The state at the [k]-th try. *)
Definition at_try (state : PowState) (k : Z) : PowState := set_nonce state (ps_nonce state + k).

Lemma at_try_0 state : at_try state 0 = state.
Proof. unfold at_try. rewrite Z.add_0_r. by destruct state. Qed.

Lemma at_try_succ state k : at_try (at_try state 1) k = at_try state (1 + k).
Proof. unfold at_try, set_nonce. cbn. f_equal. lia. Qed.

(** A run of the loop: it stops at the first try that meets the target, or
    after the last nonce, the last try or the deadline. *)
Definition solve_outcome (config : PowConfig) (rt : SolveRuntime) (clock : nat → Z) (tries : nat)
    (state : PowState) (res : bool * PowState * nat) : Prop :=
  ∃ k : nat, (k ≤ tries)%nat ∧ ps_nonce state + Z.of_nat k < 2 ^ 64 ∧
    (∀ m : nat, (m < k)%nat → ¬ meets (pow_hash (at_try state (Z.of_nat m)) config) config) ∧
    let s := at_try state (Z.of_nat k) in
    ( (* success at try k *)
      ((k < tries)%nat ∧ meets (pow_hash s config) config ∧
         res = (true, set_digest s (pow_hash s config), (tries - k - 1)%nat))
      (* the deadline passed before try k *)
    ∨ ((k < tries)%nat ∧ SolveTimeBudgetExpired rt (clock k) = true ∧ res = (false, s, (tries - k)%nat))
      (* every try failed *)
    ∨ (k = tries ∧ res = (false, s, O))
      (* the nonce space ended *)
    ∨ ((k < tries)%nat ∧ ¬ meets (pow_hash s config) config ∧ ps_nonce s = 2 ^ 64 - 1 ∧
         res = (false, s, (tries - k - 1)%nat))).

Lemma solve_loop_ok `{Platform} config rt tries : ∀ clock state,
  config_ok config → is_arith (cfg_target config) → 0 ≤ ps_nonce state < 2 ^ 64 →
  ∃ res, solve_loop (seed_matrix (ps_seed_a state) (cfg_n config)) (seed_matrix (ps_seed_b state) (cfg_n config))
           config rt clock tries state = Ok res ∧
         solve_outcome config rt clock tries state res.
Proof.
  induction tries as [|tries IH]; intros clock state Hc Ht Hn; cbn [solve_loop].
  - eexists; split; [done|]. exists O. split; [done|]. split; [lia|]. split; [lia|]. cbv zeta.
    change (Z.of_nat 0) with 0. rewrite at_try_0. right. right. left. done.
  - destruct (SolveTimeBudgetExpired rt (clock O)) eqn:Et.
    { eexists; split; [done|]. exists O. split; [lia|]. split; [lia|]. split; [lia|]. cbv zeta.
      change (Z.of_nat 0) with 0. rewrite at_try_0. right. left. split_and!; [lia|done|done]. }
    rewrite attempt_ok, bind_Ok by done. destruct (pow_hash_bytes state config) as [Hl Hb].
    rewrite leb_meets by done. case_bool_decide as Hm.
    { eexists; split; [done|]. exists O. split; [lia|]. split; [lia|]. split; [lia|]. cbv zeta.
      change (Z.of_nat 0) with 0. rewrite at_try_0. left. split_and!; [lia|done|]. do 2 f_equal. lia. }
    destruct (Z.eqb_spec (ps_nonce state) (2 ^ 64 - 1)) as [Em|Em].
    { eexists; split; [done|]. exists O. split; [lia|]. split; [lia|]. split; [lia|]. cbv zeta.
      change (Z.of_nat 0) with 0. rewrite at_try_0. right. right. right. split_and!; [lia|done|done|]. do 2 f_equal. lia. }
    rewrite u64_small by lia. fold (at_try state 1).
    destruct (IH (λ i, clock (S i)) (at_try state 1) Hc Ht) as (res & E & Ho); [cbn; lia|].
    exists res. split; [exact E|]. destruct Ho as (k & Hk & Hnon & Hfail & Hres). exists (S k). split; [lia|].
    split; [cbn [at_try set_nonce ps_nonce] in Hnon; lia|].
    assert (∀ m : nat, at_try (at_try state 1) (Z.of_nat m) = at_try state (Z.of_nat (S m))) as Hshift.
    { intros m. rewrite at_try_succ. f_equal. lia. }
    split.
    + intros [|m] Hlt; [change (Z.of_nat 0) with 0; by rewrite at_try_0|]. rewrite <- Hshift. apply Hfail. lia.
    + cbv zeta in *. rewrite Hshift in Hres. replace (S tries - S k)%nat with (tries - k)%nat by lia.
      destruct Hres as [(? & ? & ->)|[(? & ? & ->)|[(-> & ->)|(? & ? & ? & ->)]]].
      * left. split_and!; [lia|done|done].
      * right. left. split_and!; [lia|done|done].
      * right. right. left. done.
      * right. right. right. split_and!; [lia|done|done|done].
Qed.

(** [Solve] under its preconditions runs the loop on the seed matrices. *)
Lemma Solve_runs `{Platform} state config tries options now clock :
  state_ok state → config_typed config → IsValidConfig config = true →
  ps_matmul_dim state = cfg_n config → (0 < tries)%nat →
  ∃ res, Solve state config tries options now clock = Ok res ∧
         solve_outcome config (ScopedSolveRuntime options now) clock tries state res.
Proof.
  intros [Hd _ _ Hn] [Hb Hr Ht] Hv Hdim Hpos. unfold Solve.
  rewrite Hv, (proj2 (Nat.eqb_neq tries 0)), (proj2 (Z.eqb_eq _ _) Hdim) by lia. cbn [negb]. cbv zeta.
  assert (config_ok config) as Hc by (apply IsValidConfig_spec; [lia|done..]).
  rewrite !seed_matrices_ok, !bind_Ok by done. by apply solve_loop_ok.
Qed.

(** A solution the solver reports is one the verifier accepts. *)
Lemma solve_outcome_valid config rt clock tries state s' left :
  IsValidConfig config = true → ps_matmul_dim state = cfg_n config →
  solve_outcome config rt clock tries state (true, s', left) → valid_pow s' config ∧ (left < tries)%nat.
Proof.
  intros Hv Hd (k & Hk & _ & _ & [(Hlt & Hm & E)|[(_ & _ & E)|[(_ & E)|(_ & _ & _ & E)]]]); try discriminate E.
  injection E as E1 E2. subst s' left. split; [|lia]. unfold valid_pow. rewrite pow_hash_set_digest.
  split; [exact Hv|split; [exact Hd|split; [exact Hm|reflexivity]]].
Qed.

Lemma solve_state_ok config s : state_ok s → state_ok (set_digest s (pow_hash s config)).
Proof.
  intros [H1 _ _ H4]. destruct (pow_hash_bytes s config). split; [exact H1|assumption|assumption|exact H4].
Qed.

(** Invalid requests are refused without touching the state. *)
Lemma Solve_refuses `{Platform} state config tries options now clock :
  IsValidConfig config = false ∨ tries = O ∨ ps_matmul_dim state ≠ cfg_n config →
  Solve state config tries options now clock = Ok (false, state, tries).
Proof.
  intros Hcase. unfold Solve. destruct (IsValidConfig config) eqn:E; cbn [negb]; [|done].
  destruct tries as [|tries]; [done|]. cbn [Nat.eqb].
  destruct (Z.eqb_spec (ps_matmul_dim state) (cfg_n config)); [|done]. by destruct Hcase as [?|[?|?]].
Qed.

(** ** Properties *)

(** C1: the verifier returns on every typed input and accepts exactly the
    states whose digest is the transcript hash of the perturbed product and
    meets the target, under a configuration that is valid and of the state's
    dimension; platform, threads and caches do not matter. *)
Theorem verify_decides `{Platform} state config :
  state_ok state → config_typed config →
  Verify state config = Ok (bool_decide (valid_pow state config)).
Proof. exact (Verify_valid state config). Qed.

(** C8: on a valid request the solver returns; it tries consecutive nonces and
    stops at the first one that meets the target, at the deadline, after the
    last try or at the end of the nonce space; what it reports as solved, the
    verifier accepts. *)
Theorem solve_outcome_verifies `{Platform} state config tries options now clock :
  state_ok state → config_typed config → IsValidConfig config = true →
  ps_matmul_dim state = cfg_n config → (0 < tries)%nat →
  ∃ ok s left, Solve state config tries options now clock = Ok (ok, s, left) ∧ (left ≤ tries)%nat ∧
    solve_outcome config (ScopedSolveRuntime options now) clock tries state (ok, s, left) ∧
    (ok = true → Verify s config = Ok true).
Proof.
  intros Hs Hc Hv Hd Hpos. destruct (Solve_runs state config tries options now clock Hs Hc Hv Hd Hpos) as ([[ok s] left] & E & Ho).
  exists ok, s, left. split; [exact E|]. split.
  { destruct Ho as (k & _ & _ & _ & [(_ & _ & Eq)|[(_ & _ & Eq)|[(_ & Eq)|(_ & _ & _ & Eq)]]]); injection Eq; intros; lia. }
  split; [exact Ho|]. intros ->. pose proof Ho as (k & Hk & Hnon & _ & [(Hlt & Hm & Eq)|[(_ & _ & Eq)|[(_ & Eq)|(_ & _ & _ & Eq)]]]); try discriminate Eq.
  injection Eq as E1 _. destruct (solve_outcome_valid _ _ _ _ _ _ _ Hv Hd Ho) as [Hval _].
  rewrite Verify_valid; [by rewrite bool_decide_true| |exact Hc]. subst s. apply solve_state_ok.
  destruct Hs as [H1 H2 H3 H4]. split; [exact H1|exact H2|exact H3|]. cbn [at_try set_nonce ps_nonce]. lia.
Qed.
