(* ===== verification/Params.v ===== *)
(** Consensus parameters.

    The fields of [Consensus::Params] that difficulty adjustment and chain
    selection read, and the height predicates of [consensus/params.h] over
    them. A height of [INT32_MAX] is the disabled sentinel. *)

From Stdlib Require Import ZArith Lia.
From stdpp Require Import base list numbers tactics.
From S2P Require Import Prelude.

Open Scope Z_scope.

Definition INT32_MAX : Z := 2 ^ 31 - 1.
Definition INT64_MAX : Z := 2 ^ 63 - 1.
Definition UINT32_MAX : Z := 2 ^ 32 - 1.

Module Consensus.

Record Params := mkParams {
  powLimit : list Z;
  powLimitUpgrade : list Z;
  hashGenesisBlock : list Z;
  fPowAllowMinDifficultyBlocks : bool;
  fPowNoRetargeting : bool;
  enforce_BIP94 : bool;
  fMatMulPOW : bool;
  fKAWPOW : bool;
  nKAWPOWHeight : Z;
  nPowTargetSpacing : Z;
  nPowTargetTimespan : Z;
  nPowTargetSpacingFastMs : Z;
  nPowTargetSpacingNormal : Z;
  nFastMineHeight : Z;
  nFastMineDifficultyScale : Z;
  nDgwWindowAlignmentHeight : Z;
  nDgwAsymmetricClampHeight : Z;
  nDgwEasingBoostHeight : Z;
  nDgwSlewGuardHeight : Z;
  nMatMulAsertHeight : Z;
  nMatMulAsertHalfLife : Z;
  nMatMulAsertBootstrapFactor : Z;
  nMatMulAsertRetuneHeight : Z;
  nMatMulAsertRetuneHardeningFactor : Z;
  nMatMulAsertRetune2Height : Z;
  nMatMulAsertRetune2TargetNum : Z;
  nMatMulAsertRetune2TargetDen : Z;
  nMatMulAsertHalfLifeUpgradeHeight : Z;
  nMatMulAsertHalfLifeUpgrade : Z;
  nMatMulPowLimitUpgradeHeight : Z;
  nMatMulStallRecoveryHeight : Z;
  nMatMulStallRecoveryAsertNum : Z;
  nMatMulStallRecoveryAsertDen : Z;
  nMatMulMaxBlockTimeAdvance : Z;
  nMatMulAsertClampedMinInterval : Z;
  nMatMulMaxFutureMtpDriftHeight : Z;
  nMatMulMaxFutureMtpDrift : Z;
  nMatMulV4Height : Z;
  nMatMulV4AsertRescaleNum : Z;
  nMatMulV4AsertRescaleDen : Z;
  nMatMulV4Dimension : Z;
  nMatMulV4TranscriptBlockSize : Z;
  nMatMulBMX4CHeight : Z;
  nMatMulBMX4CAsertRescaleNum : Z;
  nMatMulBMX4CAsertRescaleDen : Z;
  nMatMulDRLTHeight : Z;
  nMatMulDRLTAsertRescaleNum : Z;
  nMatMulDRLTAsertRescaleDen : Z;
  nMatMulRCHeight : Z;
  nMatMulRCProfile : Z;
  nMatMulRCAsertRescaleNum : Z;
  nMatMulRCAsertRescaleDen : Z;
  fMatMulRCUseToyDims : bool;
  nMatMulRCCoupledHeight : Z;
  nMatMulRCCoupledAsertRescaleNum : Z;
  nMatMulRCCoupledAsertRescaleDen : Z;
  fMatMulRCCoupledUseToyDims : bool;
  fMatMulLTSealAsPoW : bool;
  nMatMulHeaderPoWDiscountBits : Z;
  nMatMulPreHashEpsilonBits : Z;
  nMatMulPreHashEpsilonBitsUpgradeHeight : Z;
  nMatMulPreHashEpsilonBitsUpgrade : Z;
  nMatMulDimension : Z;
  nMatMulMinDimension : Z;
  nMatMulMaxDimension : Z;
  nMatMulTranscriptBlockSize : Z;
  nMatMulNoiseRank : Z;
  nMatMulNonceSeedHeight : Z;
  nMatMulParentMtpSeedHeight : Z;
  fMatMulFreivaldsEnabled : bool;
  nMatMulFreivaldsRounds : Z;
  nMatMulFreivaldsBindingHeight : Z;
  nMatMulProductDigestHeight : Z;
  fMatMulRequireProductPayload : bool;
}.

(** C++ integer division by zero is undefined; the model makes it an error. *)
Definition DifficultyAdjustmentInterval (params : Params) : result Z :=
  if nPowTargetSpacing params =? 0 then Err EBounds
  else Ok (s64 (Z.quot (nPowTargetTimespan params) (nPowTargetSpacing params))).

Definition IsMatMulV4Active (params : Params) (height : Z) : bool :=
  (0 <=? height) && negb (nMatMulV4Height params =? INT32_MAX) && (nMatMulV4Height params <=? height).

Definition IsBMX4CActive (params : Params) (height : Z) : bool :=
  IsMatMulV4Active params height && negb (nMatMulBMX4CHeight params =? INT32_MAX) && (nMatMulBMX4CHeight params <=? height).

Definition IsDRLTActive (params : Params) (height : Z) : bool :=
  IsBMX4CActive params height && negb (nMatMulDRLTHeight params =? INT32_MAX) && (nMatMulDRLTHeight params <=? height).

Definition IsMatMulRCActive (params : Params) (height : Z) : bool :=
  IsMatMulV4Active params height && negb (nMatMulRCHeight params =? INT32_MAX) && (nMatMulRCHeight params <=? height).

Definition IsMatMulRCProfile1Active (params : Params) (height : Z) : bool :=
  IsMatMulRCActive params height && (nMatMulRCProfile params =? 1).

Definition IsMatMulRCCoupledActive (params : Params) (height : Z) : bool :=
  IsMatMulRCActive params height && negb (nMatMulRCCoupledHeight params =? INT32_MAX) && (nMatMulRCCoupledHeight params <=? height).

Definition IsMatMulTrustedReplayAttestationActive (params : Params) (height : Z) : bool :=
  IsMatMulRCProfile1Active params height && negb (IsMatMulRCCoupledActive params height).

Definition IsMatMulRCFamilyActive (params : Params) (height : Z) : bool :=
  IsMatMulRCCoupledActive params height || IsMatMulRCActive params height.

Definition IsMatMulLTSealAsPoWActive (params : Params) (height : Z) : bool :=
  IsDRLTActive params height && fMatMulLTSealAsPoW params.

Definition IsMatMulHeaderPoWEnabled (params : Params) : bool :=
  negb (nMatMulHeaderPoWDiscountBits params =? UINT32_MAX).

Definition MATMUL_HEADER_POW_MAX_DISCOUNT_BITS : Z := 255.

Definition IsMatMulHeaderPoWDiscountValid (params : Params) : bool :=
  (nMatMulHeaderPoWDiscountBits params <=? MATMUL_HEADER_POW_MAX_DISCOUNT_BITS)
  || (nMatMulHeaderPoWDiscountBits params =? UINT32_MAX).

Definition IsMatMulV47EpochAActivationTuple (params : Params) : bool :=
  let disabled := INT32_MAX in
  negb (nMatMulV4Height params =? disabled) &&
  (nMatMulBMX4CHeight params =? nMatMulV4Height params) &&
  (nMatMulRCHeight params =? nMatMulV4Height params) &&
  (nMatMulDRLTHeight params =? disabled) &&
  (nMatMulRCCoupledHeight params =? disabled) &&
  (nMatMulRCProfile params =? 1) &&
  negb (fMatMulRCUseToyDims params) &&
  negb (fMatMulRCCoupledUseToyDims params) &&
  negb (fMatMulLTSealAsPoW params) &&
  negb (IsMatMulHeaderPoWEnabled params) &&
  (nMatMulV4AsertRescaleNum params =? nMatMulV4AsertRescaleDen params) &&
  (nMatMulBMX4CAsertRescaleNum params =? nMatMulBMX4CAsertRescaleDen params).

Definition IsMatMulPreHashEpsilonBitsUpgradeActive (params : Params) (height : Z) : bool :=
  (0 <=? height) && negb (nMatMulPreHashEpsilonBitsUpgradeHeight params =? INT32_MAX)
  && (nMatMulPreHashEpsilonBitsUpgradeHeight params <=? height).

Definition GetMatMulPreHashEpsilonBitsForHeight (params : Params) (height : Z) : Z :=
  if IsMatMulPreHashEpsilonBitsUpgradeActive params height
  then nMatMulPreHashEpsilonBitsUpgrade params else nMatMulPreHashEpsilonBits params.

Definition IsMatMulMaxFutureMtpDriftActive (params : Params) (height : Z) : bool :=
  fMatMulPOW params && (0 <=? height) && negb (nMatMulMaxFutureMtpDriftHeight params =? INT32_MAX)
  && (nMatMulMaxFutureMtpDriftHeight params <=? height) && (0 <? nMatMulMaxFutureMtpDrift params).

Definition IsMatMulStallRecoveryActive (params : Params) (height : Z) : bool :=
  fMatMulPOW params && (0 <=? height) && negb (nMatMulStallRecoveryHeight params =? INT32_MAX)
  && (nMatMulStallRecoveryHeight params <=? height).

Definition MatMulFutureBlockTimeLimit (params : Params) (prev_median_time_past : Z) : option Z :=
  if negb (fMatMulPOW params) || (nMatMulMaxFutureMtpDriftHeight params =? INT32_MAX)
     || (nMatMulMaxFutureMtpDrift params <=? 0) then None
  else if s64 (INT64_MAX - nMatMulMaxFutureMtpDrift params) <? prev_median_time_past then Some INT64_MAX
  else Some (s64 (prev_median_time_past + nMatMulMaxFutureMtpDrift params)).

Definition MaxMatMulFutureBlockTime (params : Params) (height prev_median_time_past : Z) : option Z :=
  if negb (IsMatMulMaxFutureMtpDriftActive params height) then None
  else MatMulFutureBlockTimeLimit params prev_median_time_past.

Definition MaxMatMulParentTimeAdvance (params : Params) (height prev_block_time : Z) : option Z :=
  if negb (IsMatMulStallRecoveryActive params height) || (nMatMulMaxBlockTimeAdvance params <=? 0) then None
  else if s64 (INT64_MAX - nMatMulMaxBlockTimeAdvance params) <? prev_block_time then Some INT64_MAX
  else Some (s64 (prev_block_time + nMatMulMaxBlockTimeAdvance params)).

Definition MaxMatMulAllowedBlockTime (params : Params) (height prev_block_time prev_median_time_past : Z) : option Z :=
  let mtp_cap := MaxMatMulFutureBlockTime params height prev_median_time_past in
  let parent_cap := MaxMatMulParentTimeAdvance params height prev_block_time in
  match mtp_cap, parent_cap with
  | None, _ => parent_cap
  | _, None => mtp_cap
  | Some m, Some p => Some (if m <? p then m else p)
  end.

Definition MatMulAsertClampedMinIntervalSeconds (params : Params) : Z :=
  if 0 <? nMatMulAsertClampedMinInterval params then nMatMulAsertClampedMinInterval params
  else nPowTargetSpacing params.

Definition IsMatMulNonceSeedActive (params : Params) (height : Z) : bool :=
  fMatMulPOW params && (0 <=? height) && negb (nMatMulNonceSeedHeight params =? INT32_MAX)
    && (nMatMulNonceSeedHeight params <=? height).

Definition IsMatMulParentMtpSeedActive (params : Params) (height : Z) : bool :=
  fMatMulPOW params && (0 <=? height) && negb (nMatMulParentMtpSeedHeight params =? INT32_MAX)
    && (nMatMulParentMtpSeedHeight params <=? height).

Definition IsMatMulFreivaldsBindingActive (params : Params) (height : Z) : bool :=
  fMatMulFreivaldsEnabled params && (0 <=? height) && negb (nMatMulFreivaldsBindingHeight params =? INT32_MAX)
    && (nMatMulFreivaldsBindingHeight params <=? height).

Definition IsMatMulProductDigestActive (params : Params) (height : Z) : bool :=
  fMatMulFreivaldsEnabled params && (0 <=? height) && negb (nMatMulProductDigestHeight params =? INT32_MAX)
    && (nMatMulProductDigestHeight params <=? height).

Definition IsMatMulProductPayloadRequired (params : Params) (height : Z) : bool :=
  fMatMulFreivaldsEnabled params && (fMatMulRequireProductPayload params || IsMatMulProductDigestActive params height).

End Consensus.

(** The same switch, read and used at the pow layer. *)
Definition IsDisabledHeight (h : Z) : bool := h =? INT32_MAX.
