(* ===== verification/Difficulty.v ===== *)
(** Difficulty arithmetic.

    The target arithmetic of [pow.cpp]: saturating shifts and products, the
    exact rescale by a ratio of timespans, clamping to the proof-of-work limit,
    the ASERT exponential, and the conversion between compact bits and
    targets. *)

From Stdlib Require Import ZArith Lia String.
From stdpp Require Import base list numbers tactics.
From S2P Require Import Prelude Sha256 ArithUint256 Compact Params.
Import arith_uint256 Consensus.

Open Scope Z_scope.

(** [__int128], the width of the ASERT exponent arithmetic. *)
Definition s128 : Z → Z := to_signed 128.

Module difficulty.

Definition max_uint : list Z := bnot (zero WIDTH).

Definition SaturatingLeftShift256 (v : list Z) (shift : Z) : list Z :=
  if (shift =? 0) || bool_decide (v = of_u64 WIDTH 0) then v
  else if 256 <=? shift then (if bool_decide (v = of_u64 WIDTH 0) then of_u64 WIDTH 0 else max_uint)
  else
    let mask := shr max_uint shift in
    if gtb v mask then max_uint else shl v shift.

Definition EstimatePreHashGateSpacing (pre_hash_target : list Z) : result Z :=
  if bool_decide (pre_hash_target = of_u64 WIDTH 0) then Ok (2 ^ 64 - 1)
  else
    quotient ← div max_uint pre_hash_target;
    if 63 <? bits quotient then Ok (2 ^ 64 - 1)
    else Ok (Z.max 1 (u64 (GetLow64 quotient + 1))).

Definition ClampRetargetResult (target pow_limit : list Z) : list Z :=
  let target := if EqualTo target 0 then of_u64 WIDTH 1 else target in
  if gtb target pow_limit then pow_limit else target.

Definition SaturatingMultiplyByUint32 (value : list Z) (factor : Z) : result (list Z) :=
  if EqualTo value 0 || (factor =? 0) then Ok (of_u64 WIDTH 0)
  else
    q ← div max_uint (of_u64 WIDTH factor);
    if gtb value q then Ok max_uint else Ok (mul32 value factor).

(** The clamp of a timespan to [1, UINT32_MAX]. *)
Definition clamp_timespan (t : Z) : Z :=
  let t := if t <=? 0 then 1 else t in
  if 2 ^ 32 - 1 <? t then 2 ^ 32 - 1 else t.

Definition ScaleTargetByTimespan (target : list Z) (actual_timespan target_timespan : Z) : result (list Z) :=
  let actual_u := u32 (clamp_timespan actual_timespan) in
  let target_u := u32 (clamp_timespan target_timespan) in
  quotient ← div target (of_u64 WIDTH target_u);
  let remainder := sub target (mul32 quotient target_u) in
  q ← div max_uint (of_u64 WIDTH actual_u);
  if gtb quotient q then Ok max_uint
  else
    let scaled := mul32 quotient actual_u in
    let remainder := mul32 remainder actual_u in
    remainder ← div remainder (of_u64 WIDTH target_u);
    if gtb scaled (sub max_uint remainder) then Ok max_uint
    else Ok (add scaled remainder).

(** The reduced ratio, or [None] for [false]. *)
Definition ReduceRescaleRatioToU64 (num den : Z) : option (Z * Z) :=
  if (num <=? 0) || (den <=? 0) then None
  else let g := Z.gcd num den in Some (u64 (Z.quot num g), u64 (Z.quot den g)).

Definition ReduceRescaleRatioToU32 (num den : Z) : option (Z * Z) :=
  if (num <=? 0) || (den <=? 0) then None
  else
    let g := Z.gcd num den in
    let rn := Z.quot num g in
    let rd := Z.quot den g in
    if (2 ^ 32 - 1 <? rn) || (2 ^ 32 - 1 <? rd) then None else Some (u32 rn, u32 rd).

Definition MatMulAsertFailClosedBits : result Z := GetCompact (of_u64 WIDTH 1) false.

Definition NORMAL_SLEW_GUARD_SHIFT : Z := 2.

(** [slew_guard_height] is [params.nDgwSlewGuardHeight]. *)
Definition ApplyDgwSlewGuard (candidate_target parent_target : list Z) (next_height slew_guard_height : Z) : list Z :=
  if next_height <? slew_guard_height then candidate_target
  else
    let max_ease_target := SaturatingLeftShift256 parent_target NORMAL_SLEW_GUARD_SHIFT in
    let candidate_target := if gtb candidate_target max_ease_target then max_ease_target else candidate_target in
    let min_harden_target := shr parent_target NORMAL_SLEW_GUARD_SHIFT in
    let min_harden_target := if EqualTo min_harden_target 0 then of_u64 WIDTH 1 else min_harden_target in
    if ltb candidate_target min_harden_target then min_harden_target else candidate_target.

Definition WARMUP_RESTART_GAP_THRESHOLD_MULTIPLIER : Z := 2.
Definition WARMUP_RESTART_GAP_DAMPING_DIVISOR : Z := 2.

Definition DampenWarmupTimespanForRestartGap (observed_timespan target_timespan : Z) : result Z :=
  _ ← assert_ (0 <? target_timespan);
  let threshold :=
    if Z.quot (2 ^ 63 - 1) WARMUP_RESTART_GAP_THRESHOLD_MULTIPLIER <? target_timespan then 2 ^ 63 - 1
    else s64 (target_timespan * WARMUP_RESTART_GAP_THRESHOLD_MULTIPLIER) in
  if observed_timespan <=? threshold then Ok observed_timespan
  else
    let excess := s64 (observed_timespan - target_timespan) in
    Ok (s64 (target_timespan + Z.quot excess WARMUP_RESTART_GAP_DAMPING_DIVISOR)).

(** ** ASERT *)
Definition ASERT_RADIX_BITS : Z := 16.
Definition ASERT_POLY_COEFF_1 : Z := 195766423245049.
Definition ASERT_POLY_COEFF_2 : Z := 971821376.
Definition ASERT_POLY_COEFF_3 : Z := 5127.

(** [exponent_q] clamped to [int64_t]. *)
Definition asert_exponent (time_diff height_diff half_life target_spacing : Z) : Z :=
  let ideal_delta := s128 (target_spacing * s64 (height_diff + 1)) in
  let exponent_input := s128 (time_diff - ideal_delta) in
  let exponent_scaled := s128 (Z.shiftl exponent_input ASERT_RADIX_BITS) in
  let exponent_q := Z.quot exponent_scaled half_life in
  if 2 ^ 63 - 1 <? exponent_q then 2 ^ 63 - 1
  else if exponent_q <? - 2 ^ 63 then - 2 ^ 63
  else exponent_q.

(** The fixed-point approximation of [2^(frac / 2^16)]. *)
Definition asert_factor (frac : Z) : Z :=
  let poly := ASERT_POLY_COEFF_1 * frac + ASERT_POLY_COEFF_2 * frac * frac
              + ASERT_POLY_COEFF_3 * frac * frac * frac + Z.shiftl 1 47 in
  u32 (Z.shiftl 1 ASERT_RADIX_BITS + u32 (Z.shiftr poly 48)).

(** The scaled anchor before the final clamp. *)
Definition asert_shift (anchor_target : list Z) (factor net_shift : Z) : result (list Z) :=
  if net_shift <=? -256 then Ok (of_u64 WIDTH 0)
  else if net_shift <? 0 then
    let right_shift := u32 (- net_shift) in
    q ← div max_uint (of_u64 WIDTH factor);
    if gtb anchor_target q
    then SaturatingMultiplyByUint32 (shr anchor_target right_shift) factor
    else t ← SaturatingMultiplyByUint32 anchor_target factor; Ok (shr t right_shift)
  else if 256 <=? net_shift then Ok max_uint
  else
    t ← SaturatingMultiplyByUint32 anchor_target factor;
    if 0 <? net_shift then Ok (SaturatingLeftShift256 t (u32 net_shift)) else Ok t.

(** [target_spacing] is [params.nPowTargetSpacing]. *)
Definition CalculateMatMulAsertTarget (anchor_target : list Z)
    (time_diff height_diff half_life target_spacing : Z) (pow_limit : list Z) : result (list Z) :=
  if EqualTo anchor_target 0 || gtb anchor_target pow_limit then Ok pow_limit
  else if height_diff <? 0 then Ok (of_u64 WIDTH 1)
  else if (half_life <=? 0) || (target_spacing <=? 0) then Ok (of_u64 WIDTH 1)
  else
    let exponent := asert_exponent time_diff height_diff half_life target_spacing in
    let shifts := Z.shiftr exponent ASERT_RADIX_BITS in
    let frac := Z.land (u32 exponent) (Z.shiftl 1 ASERT_RADIX_BITS - 1) in
    let factor := asert_factor frac in
    let net_shift := shifts - ASERT_RADIX_BITS in
    next_target ← asert_shift anchor_target factor net_shift;
    let next_target := if EqualTo next_target 0 then of_u64 WIDTH 1 else next_target in
    Ok (ClampRetargetResult next_target pow_limit).

(** ** Compact bits against a limit *)
Definition DeriveTarget (nBits : Z) (pow_limit : list Z) : option (list Z) :=
  let '(bnTarget, fNegative, fOverflow) := SetCompact nBits in
  if fNegative || EqualTo bnTarget 0 || fOverflow || gtb bnTarget (UintToArith256 pow_limit) then None
  else Some bnTarget.

Definition CheckProofOfWorkImpl (hash : list Z) (nBits : Z) (pow_limit : list Z) : bool :=
  match DeriveTarget nBits pow_limit with
  | None => false
  | Some bnTarget => negb (gtb (UintToArith256 hash) bnTarget)
  end.

Definition DeriveMatMulHeaderPoWGateTarget (nBits discount_bits : Z) (pow_limit : list Z) : option (list Z) :=
  if discount_bits =? UINT32_MAX then None
  else if MATMUL_HEADER_POW_MAX_DISCOUNT_BITS <? discount_bits then None
  else match DeriveTarget nBits pow_limit with
  | None => None
  | Some block_target =>
      let limit := UintToArith256 pow_limit in
      if negb (discount_bits =? 0) then
        if negb (bool_decide (shr block_target (256 - discount_bits) = of_u64 WIDTH 0)) then Some limit
        else
          let gate_target := shl block_target discount_bits in
          if gtb gate_target limit then Some limit else Some gate_target
      else Some block_target
  end.

End difficulty.
Import difficulty.

(** ** Saturating arithmetic *)
Definition MAX : Z := 2 ^ 256 - 1.

(** A computation that yields the number [x]. *)
Definition denotes (m : result (list Z)) (x : Z) : Prop := ∃ r, m = Ok r ∧ is_arith r ∧ val r = x.

Lemma max_uint_ok : is_arith max_uint ∧ val max_uint = MAX.
Proof. destruct zero_arith as [H1 H2]. destruct (bnot_arith _ H1) as [H3 H4]. rewrite H2 in H4. done. Qed.

Lemma of_u64_eq_iff v : is_arith v → bool_decide (v = of_u64 WIDTH 0) = (val v =? 0).
Proof.
  intros Hv. destruct (of_u64_ok 0 ltac:(lia)) as [H0 E0]. destruct (Z.eqb_spec (val v) 0) as [E|E].
  - apply bool_decide_true. apply is_arith_inj; [done..|lia].
  - apply bool_decide_false. intros ->. lia.
Qed.

Lemma SaturatingLeftShift256_ok v s :
  is_arith v → 0 ≤ s →
  is_arith (SaturatingLeftShift256 v s) ∧ val (SaturatingLeftShift256 v s) = Z.min (val v * 2 ^ s) MAX.
Proof.
  intros Hv Hs. pose proof (is_arith_bound v Hv) as Hb. destruct max_uint_ok as [Hm Em].
  pose proof (pow2_pos s Hs) as Hp. unfold SaturatingLeftShift256. rewrite of_u64_eq_iff by done.
  destruct (Z.eqb_spec s 0) as [->|Hs0]; cbn [orb].
  { split; [done|]. unfold MAX. rewrite Z.pow_0_r. lia. }
  destruct (Z.eqb_spec (val v) 0) as [E|E].
  { split; [done|]. unfold MAX. lia. }
  destruct (Z.leb_spec 256 s).
  { split; [done|]. pose proof (Z.pow_le_mono_r 2 256 s). unfold MAX in *. nia. }
  destruct (shr_arith max_uint s Hm Hs) as [Hsm Es]. rewrite gtb_arith by done. rewrite Es, Em.
  assert (2 ^ 256 = 2 ^ (256 - s) * 2 ^ s) as Hpow by (rewrite <- pow2_split by lia; f_equal; lia).
  assert (MAX / 2 ^ s = 2 ^ (256 - s) - 1) as ->.
  { unfold MAX. symmetry. apply (Z.div_unique _ _ _ (2 ^ s - 1)); lia. }
  destruct (Z.ltb_spec (2 ^ (256 - s) - 1) (val v)).
  - split; [done|]. unfold MAX in *. nia.
  - destruct (shl_arith v s Hv Hs) as [H1 H2]. split; [done|]. rewrite H2. unfold MAX. rewrite Z.mod_small by nia. nia.
Qed.

Lemma ClampRetargetResult_ok t limit :
  is_arith t → is_arith limit → 0 < val limit →
  is_arith (ClampRetargetResult t limit) ∧ val (ClampRetargetResult t limit) = Z.max 1 (Z.min (val t) (val limit)).
Proof.
  intros Ht Hl Hpos. unfold ClampRetargetResult. rewrite EqualTo_val by (done || lia).
  destruct (of_u64_ok 1 ltac:(lia)) as [H1 E1]. pose proof (is_arith_bound t Ht).
  destruct (Z.eqb_spec (val t) 0) as [E|E]; rewrite gtb_arith by done.
  - rewrite E1. destruct (Z.ltb_spec (val limit) 1); [lia|]. split; [done|lia].
  - destruct (Z.ltb_spec (val limit) (val t)); (split; [done|lia]).
Qed.

Lemma SaturatingMultiplyByUint32_ok v f :
  is_arith v → 0 ≤ f < 2 ^ 32 → denotes (SaturatingMultiplyByUint32 v f) (Z.min (val v * f) MAX).
Proof.
  intros Hv Hf. unfold SaturatingMultiplyByUint32. rewrite EqualTo_val by (done || lia).
  pose proof (is_arith_bound v Hv). destruct max_uint_ok as [Hm Em].
  destruct (Z.eqb_spec (val v) 0) as [E|E]; cbn [orb].
  { destruct (of_u64_ok 0 ltac:(lia)) as [H0 E0]. eexists. split; [done|]. unfold MAX. split; [done|lia]. }
  destruct (Z.eqb_spec f 0) as [->|Ef].
  { destruct (of_u64_ok 0 ltac:(lia)) as [H0 E0]. eexists. split; [done|]. unfold MAX. split; [done|lia]. }
  destruct (of_u64_ok f ltac:(lia)) as [Hof Eof].
  destruct (div_arith max_uint (of_u64 WIDTH f) Hm Hof) as (q & -> & Hq & Eq); [lia|]. rewrite bind_Ok, gtb_arith by done.
  rewrite Eq, Em, Eof. pose proof (Z.div_mod MAX f ltac:(lia)). pose proof (Z.mod_pos_bound MAX f ltac:(lia)).
  destruct (Z.ltb_spec (MAX / f) (val v)).
  - eexists. split; [done|]. split; [done|]. rewrite Z.min_r by nia. done.
  - destruct (mul32_arith v f Hv Hf) as [Hx1 Hx2]. eexists. split; [done|]. split; [done|].
    rewrite Hx2. unfold MAX in *. rewrite Z.mod_small by nia. rewrite Z.min_l by nia. done.
Qed.

(** ** Scaling by a ratio *)
Lemma clamp_timespan_ok t : 1 ≤ clamp_timespan t < 2 ^ 32 ∧ (1 ≤ t < 2 ^ 32 → clamp_timespan t = t).
Proof.
  unfold clamp_timespan. destruct (Z.leb_spec t 0).
  - destruct (Z.ltb_spec (2 ^ 32 - 1) 1); lia.
  - destruct (Z.ltb_spec (2 ^ 32 - 1) t); lia.
Qed.

Lemma scale_split t a b : 0 ≤ t → 0 < b → t * a / b = t / b * a + (t mod b) * a / b.
Proof.
  intros Ht Hb. rewrite (Z.div_mod t b) at 1 by lia.
  replace ((b * (t / b) + t mod b) * a) with ((t mod b) * a + (t / b * a) * b) by lia.
  rewrite Z.div_add by lia. lia.
Qed.

(** The quotient [target * actual / target_timespan], rounded down and
    saturated, with no intermediate overflow. *)
Lemma ScaleTargetByTimespan_ok t act tgt :
  is_arith t →
  denotes (ScaleTargetByTimespan t act tgt)
    (Z.min (val t * clamp_timespan act / clamp_timespan tgt) MAX).
Proof.
  intros Ht. pose proof (is_arith_bound t Ht) as Hb. destruct max_uint_ok as [Hm Em].
  destruct (clamp_timespan_ok act) as [Ha _]. destruct (clamp_timespan_ok tgt) as [Hg _].
  unfold ScaleTargetByTimespan. set (a := clamp_timespan act) in *. set (b := clamp_timespan tgt) in *.
  rewrite !(u32_small a), !(u32_small b) by lia.
  destruct (of_u64_ok a ltac:(lia)) as [Hoa Eoa]. destruct (of_u64_ok b ltac:(lia)) as [Hob Eob].
  destruct (div_arith t _ Ht Hob) as (q & -> & Hq & Eq); [lia|]. rewrite bind_Ok. rewrite Eob in Eq.
  destruct (div_arith max_uint _ Hm Hoa) as (qm & -> & Hqm & Eqm); [lia|]. rewrite bind_Ok. rewrite Em, Eoa in Eqm.
  pose proof (Z.div_mod (val t) b ltac:(lia)). pose proof (Z.mod_pos_bound (val t) b ltac:(lia)).
  assert (0 ≤ val t / b) by (apply Z.div_pos; lia).
  destruct (mul32_arith q b Hq ltac:(lia)) as [Hqb Eqb]. rewrite Z.mod_small in Eqb by nia.
  destruct (sub_arith t _ Ht Hqb) as [Hrem Erem]. rewrite Z.mod_small in Erem by nia.
  assert (val (sub t (mul32 q b)) = val t mod b) as Erem' by lia.
  rewrite gtb_arith, Eqm, Eq by done. rewrite (scale_split (val t) a b) by lia.
  pose proof (Z.div_mod MAX a ltac:(lia)). pose proof (Z.mod_pos_bound MAX a ltac:(lia)).
  assert (0 ≤ val t mod b * a / b < a) as Hlow.
  { split; [apply Z.div_pos; nia|]. apply Z.div_lt_upper_bound; nia. }
  destruct (Z.ltb_spec (MAX / a) (val t / b)).
  { eexists. split; [done|]. split; [done|]. rewrite Em, Z.min_r by nia. done. }
  destruct (mul32_arith q a Hq ltac:(lia)) as [Hqa Eqa]. rewrite Eq, Z.mod_small in Eqa by (unfold MAX in *; nia).
  destruct (mul32_arith _ a Hrem ltac:(lia)) as [Hra Era]. rewrite Erem', Z.mod_small in Era by nia.
  destruct (div_arith _ _ Hra Hob) as (r & -> & Hr & Er); [lia|]. rewrite bind_Ok. rewrite Era, Eob in Er.
  destruct (sub_arith max_uint r Hm Hr) as [Hs Es]. rewrite Em, Er, Z.mod_small in Es by (unfold MAX; lia).
  rewrite gtb_arith, Es, Eqa by done.
  destruct (Z.ltb_spec (MAX - val t mod b * a / b) (val t / b * a)).
  - eexists. split; [done|]. split; [done|]. rewrite Em, Z.min_r by lia. done.
  - destruct (add_arith _ r Hqa Hr) as [Hx1 Hx2]. eexists. split; [done|]. split; [done|].
    rewrite Hx2, Eqa, Er. unfold MAX in *. rewrite Z.mod_small by lia. lia.
Qed.

Lemma EstimatePreHashGateSpacing_ok t :
  is_arith t →
  EstimatePreHashGateSpacing t = Ok
    (if decide (val t ≠ 0 ∧ MAX / val t < 2 ^ 63) then MAX / val t + 1 else 2 ^ 64 - 1).
Proof.
  intros Ht. unfold EstimatePreHashGateSpacing. rewrite of_u64_eq_iff by done.
  pose proof (is_arith_bound t Ht). destruct max_uint_ok as [Hm Em].
  destruct (Z.eqb_spec (val t) 0) as [E|E]; [by rewrite decide_False by lia|].
  destruct (div_arith max_uint t Hm Ht E) as (q & -> & Hq & Eq). rewrite bind_Ok. rewrite Em in Eq.
  rewrite bits_val by apply Hq. rewrite Eq. assert (0 < MAX / val t) as Hpos.
  { apply Z.div_str_pos. unfold MAX. lia. }
  pose proof (bit_length_spec _ Hpos) as Hbl. pose proof (bit_length_pos _ Hpos).
  destruct (Z.ltb_spec 63 (bit_length (MAX / val t))) as [Hlt|Hge].
  - rewrite decide_False; [done|]. intros [_ Hc].
    pose proof (Z.pow_le_mono_r 2 63 (bit_length (MAX / val t) - 1)). lia.
  - pose proof (Z.pow_le_mono_r 2 (bit_length (MAX / val t)) 63).
    rewrite decide_True by lia. rewrite GetLow64_ok, Eq, Z.mod_small by (done || lia).
    rewrite u64_small by lia. f_equal. lia.
Qed.

(** The parent target bounds the next one by a factor of four both ways. *)
Lemma ApplyDgwSlewGuard_ok c p h guard :
  is_arith c → is_arith p →
  let r := ApplyDgwSlewGuard c p h guard in
  is_arith r ∧
  val r = if decide (h < guard) then val c
          else Z.max (Z.max 1 (val p / 4)) (Z.min (val c) (Z.min (val p * 4) MAX)).
Proof.
  intros Hc Hp r. unfold r, ApplyDgwSlewGuard. destruct (Z.ltb_spec h guard); [by rewrite decide_True by lia|].
  rewrite decide_False by lia. destruct (SaturatingLeftShift256_ok p NORMAL_SLEW_GUARD_SHIFT Hp ltac:(done)) as [Hs Es].
  destruct (shr_arith p NORMAL_SLEW_GUARD_SHIFT Hp ltac:(done)) as [Hr Er]. change (2 ^ NORMAL_SLEW_GUARD_SHIFT) with 4 in *.
  rewrite EqualTo_val by (done || lia). rewrite gtb_arith by done. rewrite Es, Er.
  pose proof (is_arith_bound p Hp). assert (0 ≤ val p / 4) by (apply Z.div_pos; lia).
  destruct (of_u64_ok 1 ltac:(lia)) as [Hone E1].
  set (m := if val p / 4 =? 0 then of_u64 WIDTH 1 else shr p NORMAL_SLEW_GUARD_SHIFT).
  assert (is_arith m ∧ val m = Z.max 1 (val p / 4)) as [Hm Em].
  { unfold m. destruct (Z.eqb_spec (val p / 4) 0); (split; [done|lia]). }
  set (c' := if Z.min (val p * 4) MAX <? val c then _ else c).
  assert (is_arith c' ∧ val c' = Z.min (val c) (Z.min (val p * 4) MAX)) as [Hc' Ec'].
  { unfold c'. destruct (Z.ltb_spec (Z.min (val p * 4) MAX) (val c)); (split; [done|lia]). }
  rewrite ltb_arith by done. destruct (Z.ltb_spec (val c') (val m)); (split; [done|lia]).
Qed.

Lemma ReduceRescaleRatioToU32_ok num den :
  num < 2 ^ 63 → den < 2 ^ 63 →
  match ReduceRescaleRatioToU32 num den with
  | Some (n, d) => 0 < n < 2 ^ 32 ∧ 0 < d < 2 ^ 32 ∧ num * d = n * den ∧ Z.gcd n d = 1
  | None => num ≤ 0 ∨ den ≤ 0 ∨ 2 ^ 32 ≤ num / Z.gcd num den ∨ 2 ^ 32 ≤ den / Z.gcd num den
  end.
Proof.
  intros Hn Hd. unfold ReduceRescaleRatioToU32.
  destruct (Z.leb_spec num 0); [cbn; lia|]. destruct (Z.leb_spec den 0); [cbn; lia|]. cbn [orb].
  set (g := Z.gcd num den). assert (0 < g) as Hg.
  { pose proof (Z.gcd_nonneg num den). assert (g ≠ 0); [|lia]. unfold g. intros E. apply Z.gcd_eq_0_l in E. lia. }
  rewrite !Z.quot_div_nonneg by lia.
  destruct (Z.gcd_divide_l num den) as [x Hx]. destruct (Z.gcd_divide_r num den) as [y Hy]. fold g in Hx, Hy.
  assert (num / g = x) as Ex by (rewrite Hx; apply Z.div_mul; lia).
  assert (den / g = y) as Ey by (rewrite Hy; apply Z.div_mul; lia).
  rewrite Ex, Ey. destruct (Z.ltb_spec (2 ^ 32 - 1) x); [cbn; lia|]. destruct (Z.ltb_spec (2 ^ 32 - 1) y); [cbn; lia|].
  cbn [orb]. rewrite !u32_small by nia. split_and!; try nia.
  assert (Z.gcd (num / g) (den / g) = 1) as E1 by (apply Z.gcd_div_gcd; lia). by rewrite Ex, Ey in E1.
Qed.

Lemma ReduceRescaleRatioToU64_ok num den :
  num < 2 ^ 63 → den < 2 ^ 63 →
  match ReduceRescaleRatioToU64 num den with
  | Some (n, d) => 0 < n < 2 ^ 64 ∧ 0 < d < 2 ^ 64 ∧ num * d = n * den ∧ Z.gcd n d = 1
  | None => num ≤ 0 ∨ den ≤ 0
  end.
Proof.
  intros Hn Hd. unfold ReduceRescaleRatioToU64.
  destruct (Z.leb_spec num 0); [cbn; lia|]. destruct (Z.leb_spec den 0); [cbn; lia|]. cbn [orb].
  set (g := Z.gcd num den). assert (0 < g) as Hg.
  { pose proof (Z.gcd_nonneg num den). assert (g ≠ 0); [|lia]. unfold g. intros E. apply Z.gcd_eq_0_l in E. lia. }
  rewrite !Z.quot_div_nonneg by lia.
  destruct (Z.gcd_divide_l num den) as [x Hx]. destruct (Z.gcd_divide_r num den) as [y Hy]. fold g in Hx, Hy.
  assert (num / g = x) as Ex by (rewrite Hx; apply Z.div_mul; lia).
  assert (den / g = y) as Ey by (rewrite Hy; apply Z.div_mul; lia).
  rewrite Ex, Ey, !u64_small by nia. split_and!; try nia.
  assert (Z.gcd (num / g) (den / g) = 1) as E1 by (apply Z.gcd_div_gcd; lia). by rewrite Ex, Ey in E1.
Qed.

(** ** The ASERT exponential *)
Lemma asert_factor_val frac :
  0 ≤ frac < 2 ^ 16 →
  asert_factor frac = 2 ^ 16 + (ASERT_POLY_COEFF_1 * frac + ASERT_POLY_COEFF_2 * frac * frac
     + ASERT_POLY_COEFF_3 * frac * frac * frac + 2 ^ 47) / 2 ^ 48 ∧
  2 ^ 16 ≤ asert_factor frac ≤ 2 ^ 17.
Proof.
  intros Hf. unfold asert_factor, ASERT_RADIX_BITS, ASERT_POLY_COEFF_1, ASERT_POLY_COEFF_2, ASERT_POLY_COEFF_3.
  rewrite !Z.shiftl_1_l, Z.shiftr_div_pow2 by lia.
  set (poly := 195766423245049 * frac + 971821376 * frac * frac + 5127 * frac * frac * frac + 2 ^ 47).
  assert (0 ≤ poly < 2 ^ 64) as Hp.
  { unfold poly. assert (frac * frac ≤ 65535 * 65535) by nia. assert (frac * frac * frac ≤ 65535 * 65535 * 65535) by nia. nia. }
  assert (0 ≤ poly / 2 ^ 48 < 2 ^ 16) by (split; [apply Z.div_pos|apply Z.div_lt_upper_bound]; lia).
  rewrite (u32_small (poly / 2 ^ 48)), u32_small by lia. lia.
Qed.

Lemma asert_factor_mono f f' : 0 ≤ f ≤ f' → f' < 2 ^ 16 → asert_factor f ≤ asert_factor f'.
Proof.
  intros Hf Hf'. rewrite (proj1 (asert_factor_val f ltac:(lia))), (proj1 (asert_factor_val f' ltac:(lia))).
  apply Z.add_le_mono_l. apply Z.div_le_mono; [lia|].
  unfold ASERT_POLY_COEFF_1, ASERT_POLY_COEFF_2, ASERT_POLY_COEFF_3.
  assert (f * f ≤ f' * f') by nia. assert (f * f * f ≤ f' * f' * f') by nia. nia.
Qed.

(** [anchor * 2^(e / 2^16)] in the fixed-point approximation. *)
Definition asert_value (anchor e : Z) : Z :=
  let f := asert_factor (e mod 2 ^ 16) in
  let s := e / 2 ^ 16 - 16 in
  if decide (s < 0) then anchor * f / 2 ^ (- s) else Z.min (anchor * f * 2 ^ s) MAX.

Lemma asert_shift_ok a f s :
  is_arith a → 0 < val a → 2 ^ 16 ≤ f ≤ 2 ^ 17 → val a * f ≤ MAX →
  denotes (asert_shift a f s) (if decide (s < 0) then val a * f / 2 ^ (- s) else Z.min (val a * f * 2 ^ s) MAX).
Proof.
  intros Ha Hpos Hf Hov. unfold asert_shift. destruct max_uint_ok as [Hm Em].
  destruct (SaturatingMultiplyByUint32_ok a f Ha ltac:(lia)) as (t & Et & Ht & Vt). rewrite Z.min_l in Vt by done.
  destruct (Z.leb_spec s (-256)).
  { destruct (of_u64_ok 0 ltac:(lia)) as [H0 E0]. eexists. split; [done|]. split; [done|].
    rewrite decide_True by lia. rewrite E0. symmetry. apply Z.div_small.
    pose proof (Z.pow_le_mono_r 2 256 (- s)). unfold MAX in *. nia. }
  destruct (Z.ltb_spec s 0).
  - rewrite u32_small by lia. destruct (of_u64_ok f ltac:(lia)) as [Hof Eof].
    destruct (div_arith max_uint _ Hm Hof) as (q & -> & Hq & Eq); [lia|]. rewrite bind_Ok, gtb_arith by done.
    rewrite Eq, Em, Eof. assert (val a ≤ MAX / f) by (apply Z.div_le_lower_bound; lia).
    rewrite (proj2 (Z.ltb_ge _ _)) by lia. rewrite Et, bind_Ok.
    destruct (shr_arith t (- s) Ht ltac:(lia)) as [Hsh Esh]. eexists. split; [done|]. split; [done|].
    rewrite decide_True by done. by rewrite Esh, Vt.
  - rewrite decide_False by lia. pose proof (pow2_pos s ltac:(lia)). destruct (Z.leb_spec 256 s).
    + eexists. split; [done|]. split; [done|]. rewrite Em. pose proof (Z.pow_le_mono_r 2 256 s). unfold MAX in *. nia.
    + rewrite Et, bind_Ok. destruct (Z.ltb_spec 0 s).
      * rewrite u32_small by lia. destruct (SaturatingLeftShift256_ok t s Ht ltac:(lia)) as [Hx1 Hx2].
        eexists. split; [done|]. split; [done|]. by rewrite Hx2, Vt.
      * assert (s = 0) as -> by lia. eexists. split; [done|]. split; [done|]. rewrite Z.pow_0_r. lia.
Qed.

(** *** The exponent *)
Record asert_input (time_diff height_diff half_life spacing : Z) : Prop := mkAsertInput {
  ai_time : - 2 ^ 63 ≤ time_diff < 2 ^ 63;
  ai_height : 0 ≤ height_diff < 2 ^ 32;
  ai_half_life : 0 < half_life < 2 ^ 63;
  ai_spacing : 0 < spacing < 2 ^ 63;
}.

(** The elapsed time in units of [2^-16] half-lives, relative to schedule. *)
Definition schedule_error (time_diff height_diff half_life spacing : Z) : Z :=
  Z.quot ((time_diff - spacing * (height_diff + 1)) * 2 ^ 16) half_life.

Definition clamp64 (x : Z) : Z := Z.max (- 2 ^ 63) (Z.min x (2 ^ 63 - 1)).

Lemma asert_exponent_ok t h l s :
  asert_input t h l s → asert_exponent t h l s = clamp64 (schedule_error t h l s).
Proof.
  intros [Ht Hh Hl Hs]. unfold asert_exponent, s64, s128, schedule_error, ASERT_RADIX_BITS, clamp64.
  rewrite (to_signed_small 64), (to_signed_small 128 (s * _)) by nia.
  rewrite (to_signed_small 128 (t - _)) by nia. rewrite Z.shiftl_mul_pow2 by lia.
  rewrite (to_signed_small 128) by nia. set (q := Z.quot _ l). clearbody q.
  destruct (Z.ltb_spec (2 ^ 63 - 1) q); [lia|]. destruct (Z.ltb_spec q (- 2 ^ 63)); lia.
Qed.

Lemma schedule_error_mono t t' h l s : 0 < l → t ≤ t' → schedule_error t h l s ≤ schedule_error t' h l s.
Proof. intros Hl Ht. unfold schedule_error. apply Z.quot_le_mono; lia. Qed.

Lemma schedule_error_half_lives n h l s : 0 < l → schedule_error (s * (h + 1) + n * l) h l s = n * 2 ^ 16.
Proof.
  intros Hl. unfold schedule_error. replace ((s * (h + 1) + n * l - s * (h + 1)) * 2 ^ 16) with (n * 2 ^ 16 * l) by ring.
  apply Z.quot_mul. lia.
Qed.

(** *** The scaled anchor *)
Lemma div_le_both a b d d' : 0 ≤ a ≤ b → 0 < d' ≤ d → a / d ≤ b / d'.
Proof. intros Ha Hd. etransitivity; [apply (Z.div_le_mono a b d); lia|]. apply Z.div_le_compat_l; lia. Qed.

Lemma factor_bounds e : 2 ^ 16 ≤ asert_factor (e mod 2 ^ 16) ≤ 2 ^ 17.
Proof. apply asert_factor_val. apply Z.mod_pos_bound. lia. Qed.

Lemma asert_value_step a e :
  0 ≤ a → a * 2 ^ 17 ≤ MAX →
  let s := e / 2 ^ 16 - 16 in
  asert_value a e ≤ if decide (s < 0) then a * 2 ^ 17 / 2 ^ (- s) else Z.min (a * 2 ^ 17 * 2 ^ s) MAX.
Proof.
  intros Ha Hov s. unfold asert_value. fold s. pose proof (factor_bounds e). destruct (decide (s < 0)).
  - apply Z.div_le_mono; [apply pow2_pos; lia|nia].
  - pose proof (pow2_pos s ltac:(lia)). assert (a * asert_factor (e mod 2 ^ 16) * 2 ^ s ≤ a * 2 ^ 17 * 2 ^ s) by nia. lia.
Qed.

Lemma asert_value_mono a e e' : 0 ≤ a → a * 2 ^ 17 ≤ MAX → e ≤ e' → asert_value a e ≤ asert_value a e'.
Proof.
  intros Ha Hov He. assert (e / 2 ^ 16 ≤ e' / 2 ^ 16) as Hq by (apply Z.div_le_mono; lia).
  pose proof (factor_bounds e') as Hf'. destruct (decide (e / 2 ^ 16 = e' / 2 ^ 16)) as [E|E].
  - pose proof (Z.div_mod e (2 ^ 16) ltac:(lia)). pose proof (Z.div_mod e' (2 ^ 16) ltac:(lia)).
    pose proof (Z.mod_pos_bound e (2 ^ 16) ltac:(lia)). pose proof (Z.mod_pos_bound e' (2 ^ 16) ltac:(lia)).
    pose proof (asert_factor_mono (e mod 2 ^ 16) (e' mod 2 ^ 16) ltac:(lia) ltac:(lia)).
    pose proof (factor_bounds e). unfold asert_value. rewrite <- E. set (s := e / 2 ^ 16 - 16).
    destruct (decide (s < 0)); [apply Z.div_le_mono; [apply pow2_pos; lia|nia]|].
    apply Z.min_le_compat_r, Z.mul_le_mono_nonneg_r; [|nia]. pose proof (pow2_pos s ltac:(lia)). lia.
  - etransitivity; [by apply asert_value_step|]. unfold asert_value.
    set (s := e / 2 ^ 16 - 16). set (s' := e' / 2 ^ 16 - 16). set (f' := asert_factor _) in *.
    assert (s < s') by lia. destruct (decide (s < 0)), (decide (s' < 0)); try lia.
    + replace (2 ^ (- s)) with (2 * 2 ^ (- s - 1)) by (rewrite <- Z.pow_succ_r by lia; f_equal; lia).
      replace (a * 2 ^ 17) with (2 * (a * 2 ^ 16)) by lia. rewrite Z.div_mul_cancel_l by (pose proof (pow2_pos (- s - 1) ltac:(lia)); lia).
      apply div_le_both; [nia|]. split; [apply pow2_pos; lia|]. apply Z.pow_le_mono_r; lia.
    + assert (a * 2 ^ 17 / 2 ^ (- s) ≤ a * 2 ^ 16) as H1.
      { replace (a * 2 ^ 16) with (a * 2 ^ 17 / 2) by (replace (a * 2 ^ 17) with (a * 2 ^ 16 * 2) by lia; apply Z.div_mul; lia).
        apply div_le_both; [lia|]. pose proof (Z.pow_le_mono_r 2 1 (- s) ltac:(lia) ltac:(lia)). lia. }
      pose proof (pow2_pos s' ltac:(lia)). assert (a * 2 ^ 16 ≤ a * f' * 2 ^ s').
      { rewrite <- Z.mul_assoc. apply Z.mul_le_mono_nonneg_l; nia. }
      etransitivity; [exact H1|]. apply Z.min_glb; lia.
    + pose proof (pow2_pos s ltac:(lia)). assert (2 * 2 ^ s ≤ 2 ^ s').
      { rewrite <- Z.pow_succ_r by lia. apply Z.pow_le_mono_r; lia. }
      assert (a * 2 ^ 17 * 2 ^ s ≤ a * f' * 2 ^ s'); [|lia].
      replace (a * 2 ^ 17 * 2 ^ s) with (a * 2 ^ 16 * (2 * 2 ^ s)) by lia. apply Z.mul_le_mono_nonneg; nia.
Qed.

Lemma asert_factor_0 : asert_factor 0 = 2 ^ 16.
Proof. reflexivity. Qed.

(** A whole number of half-lives scales by an exact power of two. *)
Lemma asert_value_pow2 a n :
  0 ≤ a → a * 2 ^ 17 ≤ MAX →
  asert_value a (n * 2 ^ 16) = if decide (n < 0) then a / 2 ^ (- n) else Z.min (a * 2 ^ n) MAX.
Proof.
  intros Ha Hov. unfold asert_value. rewrite Z.mod_mul, Z.div_mul by lia. rewrite asert_factor_0.
  destruct (decide (n - 16 < 0)).
  - replace (2 ^ (- (n - 16))) with (2 ^ (16 - n)) by (f_equal; lia). destruct (decide (n < 0)).
    + replace (16 - n) with (16 + - n) by lia. rewrite pow2_split by lia. rewrite (Z.mul_comm a).
      apply Z.div_mul_cancel_l; [|lia]. pose proof (pow2_pos (- n) ltac:(lia)). lia.
    + assert (2 ^ 16 = 2 ^ n * 2 ^ (16 - n)) as -> by (rewrite <- pow2_split by lia; f_equal; lia).
      rewrite Z.mul_assoc, Z.div_mul by (pose proof (pow2_pos (16 - n) ltac:(lia)); lia).
      pose proof (Z.pow_le_mono_r 2 n 16 ltac:(lia) ltac:(lia)). rewrite Z.min_l; [done|]. nia.
  - rewrite decide_False by lia. f_equal. rewrite <- Z.mul_assoc, <- pow2_split by lia. do 2 f_equal. lia.
Qed.

Lemma asert_value_nonneg a e : 0 ≤ a → 0 ≤ asert_value a e.
Proof.
  intros Ha. unfold asert_value. pose proof (factor_bounds e). destruct (decide (e / 2 ^ 16 - 16 < 0)).
  - apply Z.div_pos; [nia|]. apply pow2_pos. lia.
  - pose proof (pow2_pos (e / 2 ^ 16 - 16) ltac:(lia)). unfold MAX. apply Z.min_glb; nia.
Qed.

(** *** The next target *)
Definition to_limit (x limit : Z) : Z := Z.max 1 (Z.min x limit).

Lemma to_limit_bounds x limit : 0 < limit → 1 ≤ to_limit x limit ≤ limit.
Proof. unfold to_limit. lia. Qed.

Lemma asert_shift_total a f s :
  is_arith a → 2 ^ 16 ≤ f ≤ 2 ^ 17 → ∃ r, asert_shift a f s = Ok r ∧ is_arith r.
Proof.
  intros Ha Hf. unfold asert_shift. destruct max_uint_ok as [Hm Em].
  assert (∀ b, is_arith b → ∃ r, SaturatingMultiplyByUint32 b f = Ok r ∧ is_arith r) as Hmul.
  { intros b Hb. destruct (SaturatingMultiplyByUint32_ok b f Hb ltac:(lia)) as (t & ? & ? & ?). eauto. }
  destruct (Z.leb_spec s (-256)). { eexists. split; [done|]. by apply of_u64_ok. }
  destruct (Z.ltb_spec s 0).
  - rewrite u32_small by lia. destruct (of_u64_ok f ltac:(lia)) as [Hof Eof].
    destruct (div_arith max_uint _ Hm Hof) as (q & -> & Hq & Eq); [lia|]. rewrite bind_Ok.
    destruct (gtb a q); [apply Hmul, shr_arith; (done || lia)|].
    destruct (Hmul a Ha) as (t & -> & Ht). rewrite bind_Ok. eexists. split; [done|]. apply shr_arith; (done || lia).
  - destruct (Z.leb_spec 256 s); [eauto|]. destruct (Hmul a Ha) as (t & -> & Ht). rewrite bind_Ok.
    destruct (Z.ltb_spec 0 s); [|eauto]. rewrite u32_small by lia. eexists. split; [done|].
    apply SaturatingLeftShift256_ok; (done || lia).
Qed.

Lemma frac_mod e : Z.land (u32 e) (Z.shiftl 1 ASERT_RADIX_BITS - 1) = e mod 2 ^ 16.
Proof.
  unfold ASERT_RADIX_BITS. rewrite (land_mask (u32 e) 16) by (reflexivity || lia). rewrite u32_mod.
  apply Z.mod_mod_divide. by exists (2 ^ 16).
Qed.

Section target.
Context (a : list Z) (limit : list Z) (t h l s : Z).
Hypothesis Ha : is_arith a.
Hypothesis Hlimit : is_arith limit.
Hypothesis Hpos : 0 < val limit.
Hypothesis Hin : asert_input t h l s.

(** Every branch yields a target inside the limit. *)
Lemma CalculateMatMulAsertTarget_range :
  ∃ r, CalculateMatMulAsertTarget a t h l s limit = Ok r ∧ is_arith r ∧ 1 ≤ val r ≤ val limit.
Proof.
  unfold CalculateMatMulAsertTarget. destruct (EqualTo a 0 || gtb a limit); [eauto with lia|].
  destruct (of_u64_ok 1 ltac:(lia)) as [Hone E1].
  destruct (h <? 0); [eexists; split; [done|]; rewrite E1; split; [done|lia]|].
  destruct ((l <=? 0) || (s <=? 0)); [eexists; split; [done|]; rewrite E1; split; [done|lia]|].
  rewrite asert_exponent_ok by done. rewrite frac_mod. unfold ASERT_RADIX_BITS. rewrite Z.shiftr_div_pow2 by lia.
  set (x := schedule_error t h l s).
  destruct (asert_shift_total a (asert_factor (clamp64 x mod 2 ^ 16)) (clamp64 x / 2 ^ 16 - 16) Ha (factor_bounds _)) as (r & -> & Hr).
  rewrite bind_Ok. eexists. split; [done|]. set (r' := if EqualTo r 0 then of_u64 WIDTH 1 else r).
  assert (is_arith r') as Hr' by (unfold r'; by case_match).
  destruct (ClampRetargetResult_ok r' limit Hr' Hlimit Hpos) as [? ->]. split; [done|]. lia.
Qed.

Hypothesis Hanchor : 0 < val a ≤ val limit.
Hypothesis Hroom : val a * 2 ^ 17 ≤ MAX.

(** With room for the factor the target is the clamped exponential. *)
Lemma CalculateMatMulAsertTarget_ok :
  denotes (CalculateMatMulAsertTarget a t h l s limit)
    (to_limit (asert_value (val a) (clamp64 (schedule_error t h l s))) (val limit)).
Proof.
  unfold CalculateMatMulAsertTarget. rewrite EqualTo_val, gtb_arith by (done || lia).
  rewrite (proj2 (Z.eqb_neq _ _)), (proj2 (Z.ltb_ge _ _)) by lia. cbn [orb].
  destruct Hin as [Ht Hh Hl Hs]. rewrite (proj2 (Z.ltb_ge h 0)), (proj2 (Z.leb_gt l 0)), (proj2 (Z.leb_gt s 0)) by lia.
  cbn [orb]. rewrite asert_exponent_ok by done. rewrite frac_mod. unfold ASERT_RADIX_BITS. rewrite Z.shiftr_div_pow2 by lia.
  set (x := schedule_error t h l s).
  assert (∃ r, asert_shift a (asert_factor (clamp64 x mod 2 ^ 16)) (clamp64 x / 2 ^ 16 - 16) = Ok r ∧
    is_arith r ∧ val r = asert_value (val a) (clamp64 x)) as (r & -> & Hr & Er).
  { apply asert_shift_ok; [done|lia|apply factor_bounds|]. pose proof (factor_bounds (clamp64 x)). nia. }
  rewrite bind_Ok. eexists. split; [done|]. rewrite EqualTo_val by (done || lia). destruct (of_u64_ok 1 ltac:(lia)) as [Hone E1].
  set (r' := if val r =? 0 then of_u64 WIDTH 1 else r). pose proof (asert_value_nonneg (val a) (clamp64 x) ltac:(lia)).
  assert (is_arith r' ∧ val r' = Z.max 1 (val r)) as [Hr' Er'].
  { unfold r'. destruct (Z.eqb_spec (val r) 0); (split; [done|lia]). }
  destruct (ClampRetargetResult_ok r' limit Hr' Hlimit Hpos) as [? ->]. split; [done|].
  rewrite Er', Er. unfold to_limit. lia.
Qed.
End target.

(** ** Compact bits against a limit *)

(** The bits denote a usable target: positive and within the limit. *)
Definition bits_valid (nBits limit : Z) : Prop :=
  compact_negative nBits = false ∧ 0 < compact_value nBits ≤ limit.

#[export] Instance bits_valid_dec nBits limit : Decision (bits_valid nBits limit).
Proof. apply and_dec; apply _. Defined.

(** A 256-bit value stored as 32 little-endian bytes. *)
Definition is_uint256 (l : list Z) : Prop := length l = 32%nat ∧ Forall is_byte l.

Lemma UintToArith256_val l : is_uint256 l → is_arith (UintToArith256 l) ∧ val (UintToArith256 l) = le_word l.
Proof. intros []. by apply UintToArith256_ok. Qed.

Lemma compact_value_nonneg c : 0 ≤ compact_value c.
Proof.
  unfold compact_value, compact_mantissa. pose proof (Z.mod_pos_bound c (2 ^ 23) ltac:(lia)).
  destruct (decide _); [apply Z.div_pos; [lia|apply pow2_pos; lia]|].
  pose proof (pow2_pos (8 * (compact_size c - 3)) ltac:(lia)). nia.
Qed.

Lemma DeriveTarget_ok nBits limit :
  0 ≤ nBits < 2 ^ 32 → is_uint256 limit →
  if decide (bits_valid nBits (le_word limit))
  then ∃ t, DeriveTarget nBits limit = Some t ∧ is_arith t ∧ val t = compact_value nBits
  else DeriveTarget nBits limit = None.
Proof.
  intros Hb Hl. unfold DeriveTarget. destruct (SetCompact_ok nBits Hb) as (v & -> & Hv & Ev).
  destruct (UintToArith256_val limit Hl) as [Hu Eu]. rewrite EqualTo_val, gtb_arith by (done || lia). rewrite Eu.
  pose proof (is_arith_bound _ Hu). pose proof (is_arith_bound _ Hv). rewrite Eu in *.
  destruct (compact_negative nBits) eqn:En; cbn [orb].
  { rewrite decide_False; [done|]. unfold bits_valid. intros [? _]. congruence. }
  pose proof (compact_value_nonneg nBits) as Hc.
  destruct (decide (2 ^ 256 ≤ compact_value nBits)) as [Ho|Ho].
  - rewrite (bool_decide_true (2 ^ 256 ≤ _)) by done. rewrite orb_true_r. cbn [orb].
    rewrite decide_False; [done|]. unfold bits_valid. lia.
  - rewrite (bool_decide_false (2 ^ 256 ≤ _)) by done. rewrite Z.mod_small in Ev by lia. rewrite Ev.
    destruct (Z.eqb_spec (compact_value nBits) 0); cbn [orb].
    { rewrite decide_False; [done|]. unfold bits_valid. lia. }
    destruct (Z.ltb_spec (le_word limit) (compact_value nBits)).
    { rewrite decide_False; [done|]. unfold bits_valid. lia. }
    rewrite decide_True by (unfold bits_valid; auto with lia). eauto.
Qed.

Lemma DeriveTarget_Some nBits limit t :
  0 ≤ nBits < 2 ^ 32 → is_uint256 limit → DeriveTarget nBits limit = Some t →
  is_arith t ∧ val t = compact_value nBits ∧ bits_valid nBits (le_word limit).
Proof.
  intros Hb Hl E. pose proof (DeriveTarget_ok nBits limit Hb Hl) as H. destruct (decide _); [|congruence].
  destruct H as (t' & E' & ? & ?). by simplify_eq.
Qed.

Lemma CheckProofOfWorkImpl_ok hash nBits limit :
  is_uint256 hash → 0 ≤ nBits < 2 ^ 32 → is_uint256 limit →
  CheckProofOfWorkImpl hash nBits limit =
  bool_decide (bits_valid nBits (le_word limit) ∧ le_word hash ≤ compact_value nBits).
Proof.
  intros Hh Hb Hl. unfold CheckProofOfWorkImpl. pose proof (DeriveTarget_ok nBits limit Hb Hl) as H.
  destruct (decide _) as [Hv|Hv].
  - destruct H as (t & -> & Ht & Et). destruct (UintToArith256_val hash Hh) as [Hu Eu].
    rewrite gtb_arith, Et, Eu by done. destruct (Z.ltb_spec (compact_value nBits) (le_word hash)); symmetry.
    + apply bool_decide_false. lia.
    + by apply bool_decide_true.
  - rewrite H. symmetry. apply bool_decide_false. tauto.
Qed.

Lemma DeriveMatMulHeaderPoWGateTarget_ok nBits d limit :
  0 ≤ nBits < 2 ^ 32 → 0 ≤ d < 2 ^ 32 → is_uint256 limit →
  if decide (d ≤ MATMUL_HEADER_POW_MAX_DISCOUNT_BITS ∧ bits_valid nBits (le_word limit))
  then ∃ t, DeriveMatMulHeaderPoWGateTarget nBits d limit = Some t ∧ is_arith t ∧
            val t = Z.min (compact_value nBits * 2 ^ d) (le_word limit)
  else DeriveMatMulHeaderPoWGateTarget nBits d limit = None.
Proof.
  intros Hb Hd Hl. unfold DeriveMatMulHeaderPoWGateTarget, MATMUL_HEADER_POW_MAX_DISCOUNT_BITS, UINT32_MAX.
  destruct (Z.eqb_spec d (2 ^ 32 - 1)); [by rewrite decide_False by lia|].
  destruct (Z.ltb_spec 255 d); [by rewrite decide_False by lia|].
  pose proof (DeriveTarget_ok nBits limit Hb Hl) as H'. destruct (decide (bits_valid nBits (le_word limit))) as [Hv|Hv].
  2: { rewrite H'. by rewrite decide_False by tauto. }
  rewrite decide_True by done. destruct H' as (t & -> & Ht & Et). destruct (UintToArith256_val limit Hl) as [Hu Eu].
  pose proof (is_arith_bound _ Hu). destruct Hv as [_ Hv]. rewrite Eu in *.
  destruct (Z.eqb_spec d 0) as [->|Hd0]; cbn [negb].
  { eexists. split; [done|]. split; [done|]. rewrite Z.pow_0_r. lia. }
  destruct (shr_arith t (256 - d) Ht ltac:(lia)) as [Hs Es]. rewrite of_u64_eq_iff, Es, Et by done.
  assert (2 ^ 256 = 2 ^ (256 - d) * 2 ^ d) as Hpow by (rewrite <- pow2_split by lia; f_equal; lia).
  pose proof (pow2_pos d ltac:(lia)). pose proof (pow2_pos (256 - d) ltac:(lia)) as Hp.
  pose proof (Z.div_mod (compact_value nBits) (2 ^ (256 - d)) ltac:(lia)).
  pose proof (Z.mod_pos_bound (compact_value nBits) (2 ^ (256 - d)) Hp).
  destruct (Z.eqb_spec (compact_value nBits / 2 ^ (256 - d)) 0) as [E|E]; cbn [negb].
  - destruct (shl_arith t d Ht ltac:(lia)) as [Hx1 Hx2]. rewrite Et, Z.mod_small in Hx2 by nia.
    rewrite gtb_arith, Hx2, Eu by done.
    destruct (Z.ltb_spec (le_word limit) (compact_value nBits * 2 ^ d)); eexists; (split; [done|]; split; [done|lia]).
  - eexists. split; [done|]. split; [done|]. rewrite Eu, Z.min_r; [done|].
    assert (1 ≤ compact_value nBits / 2 ^ (256 - d)).
    { assert (0 ≤ compact_value nBits / 2 ^ (256 - d)) by (apply Z.div_pos; lia). lia. }
    nia.
Qed.

(** Encoding a target within the limit yields valid bits for it. *)
Lemma GetCompact_valid a limit :
  is_arith a → 1 ≤ val a ≤ limit →
  ∃ c, GetCompact a false = Ok c ∧ 0 ≤ c < 2 ^ 32 ∧ bits_valid c limit ∧ compact_value c = truncated (val a).
Proof.
  intros Ha Hv. pose proof (is_arith_bound _ Ha) as Hb. eexists. split; [by apply GetCompact_ok|].
  destruct (encode_bound (val a) Hb) as (Hm & Hs & Hm'). set (c := encode_mantissa _ + _).
  assert (0 ≤ c < 2 ^ 32) as Hc by (unfold c; lia). split; [done|].
  assert (compact_value c = truncated (val a)) as Ec by (by apply encode_decode).
  destruct (truncated_close (val a) Hb) as [Ht1 Ht2]. split; [|done].
  destruct (compact_roundtrip a c Ha ltac:(by rewrite GetCompact_ok)) as (v & E & _ & _).
  destruct (SetCompact_ok c Hc) as (v' & E' & _ & _). split; [congruence|]. rewrite Ec. lia.
Qed.

(** ** Properties *)

(** With room for the fixed-point factor, a chain exactly [n] half-lives
    behind (or, for negative [n], ahead of) schedule has its target multiplied
    (divided) by exactly [2^n], clamped to [1 .. limit]. *)
Theorem asert_doubles_per_half_life a limit n h l s :
  is_arith a → is_arith limit → 0 < val a ≤ val limit → val a * 2 ^ 17 ≤ MAX →
  asert_input (s * (h + 1) + n * l) h l s → Z.abs n < 2 ^ 40 →
  denotes (CalculateMatMulAsertTarget a (s * (h + 1) + n * l) h l s limit)
    (to_limit (if decide (n < 0) then val a / 2 ^ (- n) else Z.min (val a * 2 ^ n) MAX) (val limit)).
Proof.
  intros Ha Hl Hv Hroom Hin Hn. pose proof (CalculateMatMulAsertTarget_ok a limit _ h l s Ha Hl ltac:(lia) Hin Hv Hroom) as H.
  rewrite schedule_error_half_lives in H by apply Hin. unfold clamp64 in H.
  rewrite Z.min_l, Z.max_r, asert_value_pow2 in H by lia. exact H.
Qed.

(** The later the last block, the easier the next target; the target is
    always in [1 .. limit], for every input of the right width, even where the
    fixed-point product does not fit. *)
Theorem asert_target_monotone a limit t t' h l s :
  is_arith a → is_arith limit → 0 < val limit → asert_input t h l s → asert_input t' h l s →
  ∃ r r', CalculateMatMulAsertTarget a t h l s limit = Ok r ∧ CalculateMatMulAsertTarget a t' h l s limit = Ok r' ∧
    1 ≤ val r ≤ val limit ∧ 1 ≤ val r' ≤ val limit ∧
    (0 < val a ≤ val limit → val a * 2 ^ 17 ≤ MAX → t ≤ t' → val r ≤ val r').
Proof.
  intros Ha Hl Hpos H1 H2.
  destruct (CalculateMatMulAsertTarget_range a limit t h l s Ha Hl Hpos H1) as (r & E & _ & Hr).
  destruct (CalculateMatMulAsertTarget_range a limit t' h l s Ha Hl Hpos H2) as (r' & E' & _ & Hr').
  exists r, r'. split; [exact E|]. split; [exact E'|]. split; [exact Hr|]. split; [exact Hr'|]. intros Hv Hroom Ht.
  destruct (CalculateMatMulAsertTarget_ok a limit t h l s Ha Hl Hpos H1 Hv Hroom) as (x & Ex & _ & Vx).
  destruct (CalculateMatMulAsertTarget_ok a limit t' h l s Ha Hl Hpos H2 Hv Hroom) as (y & Ey & _ & Vy).
  assert (r = x) as -> by congruence. assert (r' = y) as -> by congruence. rewrite Vx, Vy.
  pose proof (schedule_error_mono t t' h l s (proj1 (ai_half_life _ _ _ _ H1)) Ht) as Hse.
  assert (clamp64 (schedule_error t h l s) ≤ clamp64 (schedule_error t' h l s)) as Hc by (unfold clamp64; lia).
  pose proof (asert_value_mono (val a) _ _ ltac:(lia) Hroom Hc). unfold to_limit. lia.
Qed.
