(* ===== verification/BlockIndex.v ===== *)
(** The block index.

    [chain.h] and [chain.cpp]: the tree of block index entries linked by
    [pprev], the skip list over it, ancestor lookup, the median time past, the
    last common ancestor, the active chain [CChain] and block locators.

    Entries live in the map from block hash to entry that the block manager
    owns ([BlockMap]); a [CBlockIndex*] is the hash of the entry it points to,
    and [None] is [nullptr]. *)

From Stdlib Require Import ZArith Lia.
From stdpp Require Import base list numbers gmap sorting tactics.
From S2P Require Import Prelude.

Open Scope Z_scope.

Record CBlockIndex := mkIndex {
  pprev : option (list Z);
  pskip : option (list Z);
  nHeight : Z;
  nChainWork : list Z;
  nAuthenticatedChainWork : list Z;
  nStatus : Z;
  nTime : Z;
  nBits : Z;
  nTimeMax : Z;
  nMatMulClampedAsertCreditKey : Z;
  nMatMulClampedAsertCredit : Z;
}.

Abbreviation BlockMap := (gmap (list Z) CBlockIndex).

#[export] Instance CBlockIndex_eq_dec : EqDecision CBlockIndex.
Proof. solve_decision. Defined.

Module block_index.

(** Reading through a pointer; a dangling one is undefined behaviour. *)
Definition deref (σ : BlockMap) (p : list Z) : result CBlockIndex :=
  match σ !! p with Some b => Ok b | None => Err EBounds end.

Definition set_pskip (b : CBlockIndex) (k : option (list Z)) : CBlockIndex :=
  mkIndex (pprev b) k (nHeight b) (nChainWork b) (nAuthenticatedChainWork b) (nStatus b) (nTime b) (nBits b)
    (nTimeMax b) (nMatMulClampedAsertCreditKey b) (nMatMulClampedAsertCredit b).

Definition GetBlockTime (b : CBlockIndex) : Z := nTime b.

Definition InvertLowestOne (n : Z) : Z := Z.land n (n - 1).

Definition GetSkipHeight (height : Z) : Z :=
  if height <? 2 then 0
  else if negb (Z.land height 1 =? 0) then InvertLowestOne (InvertLowestOne (height - 1)) + 1
  else InvertLowestOne height.

Fixpoint ancestor_walk (fuel : nat) (σ : BlockMap) (height : Z) (pindexWalk : list Z) (heightWalk : Z)
    : result (option (list Z)) :=
  if height <? heightWalk then
    match fuel with
    | O => Err EFuel
    | S fuel =>
        b ← deref σ pindexWalk;
        let heightSkip := GetSkipHeight heightWalk in
        let heightSkipPrev := GetSkipHeight (heightWalk - 1) in
        let follow := (heightSkip =? height)
          || ((height <? heightSkip) && negb ((heightSkipPrev <? heightSkip - 2) && (height <=? heightSkipPrev))) in
        match pskip b with
        | Some k =>
            if follow then ancestor_walk fuel σ height k heightSkip
            else match pprev b with
                 | None => Ok None
                 | Some q => ancestor_walk fuel σ height q (heightWalk - 1)
                 end
        | None => match pprev b with
                  | None => Ok None
                  | Some q => ancestor_walk fuel σ height q (heightWalk - 1)
                  end
        end
    end
  else Ok (Some pindexWalk).

Definition GetAncestor (σ : BlockMap) (p : list Z) (height : Z) : result (option (list Z)) :=
  b ← deref σ p;
  if (nHeight b <? height) || (height <? 0) then Ok None
  else ancestor_walk (Z.to_nat (nHeight b - height)) σ height p (nHeight b).

Definition BuildSkip (σ : BlockMap) (p : list Z) : result BlockMap :=
  b ← deref σ p;
  match pprev b with
  | None => Ok σ
  | Some q => k ← GetAncestor σ q (GetSkipHeight (nHeight b)); Ok (<[p := set_pskip b k]> σ)
  end.

(** ** Median time past *)
Definition nMedianTimeSpan : nat := 11.

Fixpoint past_times (σ : BlockMap) (i : nat) (pindex : option (list Z)) : result (list Z) :=
  match i, pindex with
  | S i, Some p =>
      b ← deref σ p;
      older ← past_times σ i (pprev b);
      Ok (older ++ [GetBlockTime b])
  | _, _ => Ok []
  end.

Definition median (l : list Z) : result Z := vget (merge_sort Z.le l) (zlen l / 2).

Definition GetMedianTimePast (σ : BlockMap) (p : list Z) : result Z :=
  times ← past_times σ nMedianTimeSpan (Some p); median times.

(** ** Last common ancestor *)
Fixpoint meet (fuel : nat) (σ : BlockMap) (pa pb : option (list Z)) : result (option (list Z) * option (list Z)) :=
  match pa, pb with
  | Some a, Some b =>
      if decide (a = b) then Ok (pa, pb)
      else match fuel with
           | O => Err EFuel
           | S fuel => ba ← deref σ a; bb ← deref σ b; meet fuel σ (pprev ba) (pprev bb)
           end
  | _, _ => Ok (pa, pb)
  end.

Definition LastCommonAncestor (σ : BlockMap) (pa pb : list Z) : result (option (list Z)) :=
  a ← deref σ pa;
  b ← deref σ pb;
  qa ← (if nHeight b <? nHeight a then GetAncestor σ pa (nHeight b) else Ok (Some pa));
  qb ← (if nHeight b <? nHeight a then Ok (Some pb)
        else if nHeight a <? nHeight b then GetAncestor σ pb (nHeight a) else Ok (Some pb));
  m ← meet (S (Z.to_nat (Z.min (nHeight a) (nHeight b)))) σ qa qb;
  _ ← assert_ (bool_decide (m.1 = m.2));
  Ok m.1.

(** ** The active chain: [vChain], with null entries while it is rebuilt *)
Definition at_height (vChain : list (option (list Z))) (height : Z) : option (list Z) :=
  if height <? 0 then None
  else if zlen vChain <=? height then None
  else default None (vChain !! Z.to_nat height).

Definition Tip (vChain : list (option (list Z))) : option (list Z) :=
  if 0 <? zlen vChain then default None (vChain !! Z.to_nat (zlen vChain - 1)) else None.

Definition Height (vChain : list (option (list Z))) : Z :=
  if zlen vChain =? 0 then -1
  else if 2 ^ 31 - 1 <? zlen vChain - 1 then 2 ^ 31 - 1 else zlen vChain - 1.

Definition Contains (σ : BlockMap) (vChain : list (option (list Z))) (pindex : option (list Z)) : result bool :=
  match pindex with
  | None => Ok false
  | Some p => b ← deref σ p; Ok (bool_decide (at_height vChain (nHeight b) = Some p))
  end.

Definition Next (σ : BlockMap) (vChain : list (option (list Z))) (pindex : list Z) : result (option (list Z)) :=
  inside ← Contains σ vChain (Some pindex);
  b ← deref σ pindex;
  if negb inside || (nHeight b =? 2 ^ 31 - 1) then Ok None
  else if zlen vChain <=? nHeight b + 1 then Ok None
  else Ok (default None (vChain !! Z.to_nat (nHeight b + 1))).

Definition resize (n : nat) (vChain : list (option (list Z))) : list (option (list Z)) :=
  take n vChain ++ replicate (n - length vChain) None.

Fixpoint set_tip_walk (fuel : nat) (σ : BlockMap) (pindex : option (list Z)) (vChain : list (option (list Z)))
    : result (list (option (list Z))) :=
  match pindex with
  | None => Ok vChain
  | Some p =>
      b ← deref σ p;
      cur ← vget vChain (nHeight b);
      if decide (cur = Some p) then Ok vChain
      else match fuel with
           | O => Err EFuel
           | S fuel => v ← vset vChain (nHeight b) (Some p); set_tip_walk fuel σ (pprev b) v
           end
  end.

Definition SetTip (σ : BlockMap) (vChain : list (option (list Z))) (block : list Z) : result (list (option (list Z))) :=
  b ← deref σ block;
  if nHeight b <? 0 then Ok []
  else set_tip_walk (S (Z.to_nat (nHeight b))) σ (Some block) (resize (Z.to_nat (nHeight b + 1)) vChain).

Fixpoint find_fork_walk (fuel : nat) (σ : BlockMap) (vChain : list (option (list Z))) (pindex : option (list Z))
    : result (option (list Z)) :=
  match pindex with
  | None => Ok None
  | Some p =>
      inside ← Contains σ vChain (Some p);
      if (inside : bool) then Ok (Some p)
      else match fuel with
           | O => Err EFuel
           | S fuel => b ← deref σ p; find_fork_walk fuel σ vChain (pprev b)
           end
  end.

Definition FindFork (σ : BlockMap) (vChain : list (option (list Z))) (pindex : option (list Z)) : result (option (list Z)) :=
  match pindex with
  | None => Ok None
  | Some p =>
      b ← deref σ p;
      start ← (if Height vChain <? nHeight b then GetAncestor σ p (Height vChain) else Ok (Some p));
      find_fork_walk (S (Z.to_nat (nHeight b))) σ vChain start
  end.

(** ** Locators *)
Fixpoint locator_walk (fuel : nat) (σ : BlockMap) (index : option (list Z)) (step : Z) (have : list (list Z))
    : result (list (list Z)) :=
  match index with
  | None => Ok have
  | Some p =>
      match fuel with
      | O => Err EFuel
      | S fuel =>
          b ← deref σ p;
          let have := have ++ [p] in
          if nHeight b =? 0 then Ok have
          else
            let height := Z.max (s32 (nHeight b - step)) 0 in
            index ← GetAncestor σ p height;
            locator_walk fuel σ index (if 10 <? zlen have then s32 (step * 2) else step) have
      end
  end.

Definition LocatorEntries (σ : BlockMap) (index : option (list Z)) : result (list (list Z)) :=
  match index with
  | None => Ok []
  | Some p => b ← deref σ p; locator_walk (S (Z.to_nat (nHeight b))) σ index 1 []
  end.

End block_index.
Import block_index.

(** ** Skip heights *)
Lemma land_le_r n m : 0 ≤ m → Z.land n m ≤ m.
Proof.
  intros Hm. assert (m - Z.land n m = Z.ldiff m (Z.land n m)) as E.
  { apply Z.sub_nocarry_ldiff. apply Z.bits_inj'. intros i Hi. rewrite Z.ldiff_spec, Z.land_spec, Z.bits_0.
    by destruct (Z.testbit n i), (Z.testbit m i). }
  assert (0 ≤ Z.ldiff m (Z.land n m)) by (apply Z.ldiff_nonneg; left; lia). lia.
Qed.

Lemma InvertLowestOne_bounds n : 0 < n → 0 ≤ InvertLowestOne n < n.
Proof.
  intros Hn. unfold InvertLowestOne. pose proof (land_le_r n (n - 1) ltac:(lia)) as Hle.
  assert (0 ≤ Z.land n (n - 1)) by (apply Z.land_nonneg; left; lia). lia.
Qed.

Lemma GetSkipHeight_bounds h : 0 < h → 0 ≤ GetSkipHeight h < h.
Proof.
  intros Hh. unfold GetSkipHeight. destruct (Z.ltb_spec h 2); [lia|].
  destruct (negb _); [|by apply InvertLowestOne_bounds].
  pose proof (InvertLowestOne_bounds (h - 1) ltac:(lia)) as Hi.
  destruct (decide (InvertLowestOne (h - 1) = 0)) as [->|]; [change (InvertLowestOne 0) with 0; lia|].
  pose proof (InvertLowestOne_bounds (InvertLowestOne (h - 1)) ltac:(lia)). lia.
Qed.

(** ** The tree of [pprev] links *)

(** [n] steps back along [pprev]: the reference for every ancestor walk. *)
Fixpoint back (σ : BlockMap) (n : nat) (p : list Z) : option (list Z) :=
  match n with
  | O => Some p
  | S n => b ← σ !! p; q ← pprev b; back σ n q
  end.

(** The ancestor of [p] at [height]. *)
Definition ancestor (σ : BlockMap) (p : list Z) (height : Z) : option (list Z) :=
  b ← σ !! p;
  if decide (0 ≤ height ≤ nHeight b) then back σ (Z.to_nat (nHeight b - height)) p else None.

(** Heights count [pprev] links from a genesis entry, and [pskip] points at the
    ancestor at the skip height. *)
Record linked (σ : BlockMap) : Prop := mkLinked {
  lk_height p b : σ !! p = Some b → 0 ≤ nHeight b < 2 ^ 31;
  lk_genesis p b : σ !! p = Some b → pprev b = None → nHeight b = 0;
  lk_prev p b q : σ !! p = Some b → pprev b = Some q → ∃ c, σ !! q = Some c ∧ nHeight b = nHeight c + 1;
  lk_skip p b k : σ !! p = Some b → pskip b = Some k →
    0 < nHeight b ∧ back σ (Z.to_nat (nHeight b - GetSkipHeight (nHeight b))) p = Some k;
}.

Lemma deref_Ok σ p b : σ !! p = Some b → deref σ p = Ok b.
Proof. unfold deref. by intros ->. Qed.

Lemma back_add σ n m p : back σ (n + m) p = back σ n p ≫= back σ m.
Proof.
  revert p. induction n as [|n IH]; intros p; [done|]. simpl. destruct (σ !! p) as [b|]; [|done]. simpl.
  destruct (pprev b); [apply IH|done].
Qed.

Lemma back_ext σ σ' n p : (∀ q, pprev <$> σ !! q = pprev <$> σ' !! q) → back σ n p = back σ' n p.
Proof.
  intros H. revert p. induction n as [|n IH]; intros p; [done|]. simpl. pose proof (H p) as Hp.
  destruct (σ !! p) as [b|], (σ' !! p) as [b'|]; simplify_eq/=; [|done]. rewrite Hp. destruct (pprev b'); [apply IH|done].
Qed.

Lemma back_mono σ σ' n p q : σ ⊆ σ' → back σ n p = Some q → back σ' n p = Some q.
Proof.
  intros Hs. revert p. induction n as [|n IH]; intros p; [done|]. simpl.
  destruct (σ !! p) as [b|] eqn:E; [|done]. simpl. rewrite (lookup_weaken _ _ _ _ E Hs). simpl.
  destruct (pprev b); [apply IH|done].
Qed.

Section linked.
Context (σ : BlockMap).
Hypothesis Hl : linked σ.

Lemma prev_exists p b : σ !! p = Some b → 0 < nHeight b →
  ∃ q c, pprev b = Some q ∧ σ !! q = Some c ∧ nHeight c = nHeight b - 1.
Proof.
  intros Hp Hpos. destruct (pprev b) as [q|] eqn:E.
  - destruct (lk_prev σ Hl p b q Hp E) as (c & Hc & Eh). exists q, c. repeat split; [done|lia].
  - pose proof (lk_genesis σ Hl p b Hp E). lia.
Qed.

Lemma prev_height p b q : σ !! p = Some b → pprev b = Some q → 0 < nHeight b.
Proof. intros Hp E. destruct (lk_prev σ Hl p b q Hp E) as (c & Hc & Eh). pose proof (lk_height σ Hl q c Hc). lia. Qed.

Lemma back_some n p b : σ !! p = Some b → Z.of_nat n ≤ nHeight b →
  ∃ q c, back σ n p = Some q ∧ σ !! q = Some c ∧ nHeight c = nHeight b - Z.of_nat n.
Proof.
  revert p b. induction n as [|n IH]; intros p b Hp Hn; [exists p, b; repeat split; [done|lia]|].
  destruct (prev_exists p b Hp ltac:(lia)) as (q & c & Eq & Hc & Eh).
  destruct (IH q c Hc ltac:(lia)) as (r & d & Er & Hd & Ed). exists r, d. simpl. rewrite Hp. simpl. rewrite Eq. simpl.
  repeat split; [done|done|lia].
Qed.

Lemma back_step p b q n : σ !! p = Some b → pprev b = Some q → back σ (S n) p = back σ n q.
Proof. intros Hp E. simpl. rewrite Hp. simpl. by rewrite E. Qed.

Lemma ancestor_some p b h : σ !! p = Some b → 0 ≤ h ≤ nHeight b →
  ∃ q c, ancestor σ p h = Some q ∧ σ !! q = Some c ∧ nHeight c = h.
Proof.
  intros Hp Hh. unfold ancestor. rewrite Hp. simpl. rewrite decide_True by done.
  destruct (back_some (Z.to_nat (nHeight b - h)) p b Hp ltac:(lia)) as (q & c & ? & ? & ?). exists q, c. repeat split; [done..|lia].
Qed.

Lemma ancestor_self p b : σ !! p = Some b → ancestor σ p (nHeight b) = Some p.
Proof.
  intros Hp. pose proof (lk_height σ Hl p b Hp). unfold ancestor. rewrite Hp. simpl. rewrite decide_True by lia.
  by rewrite Z.sub_diag.
Qed.

Lemma ancestor_prev p b q h : σ !! p = Some b → pprev b = Some q → h < nHeight b → ancestor σ p h = ancestor σ q h.
Proof.
  intros Hp E Hh. destruct (lk_prev σ Hl p b q Hp E) as (c & Hc & Eh). unfold ancestor. rewrite Hp, Hc. simpl.
  destruct (decide (0 ≤ h)); [|by rewrite !decide_False by lia]. rewrite !decide_True by lia.
  replace (Z.to_nat (nHeight b - h)) with (S (Z.to_nat (nHeight c - h))) by lia. by rewrite (back_step p b q).
Qed.

(** Ancestors of an ancestor. *)
Lemma ancestor_trans p q h h' : ancestor σ p h = Some q → h' ≤ h → ancestor σ q h' = ancestor σ p h'.
Proof.
  unfold ancestor. destruct (σ !! p) as [b|] eqn:Hp; [|done]. simpl. destruct (decide _) as [Hh|]; [|done]. intros Hq Hle.
  destruct (back_some (Z.to_nat (nHeight b - h)) p b Hp ltac:(lia)) as (q' & c & Eq & Hc & Ec).
  rewrite Hq in Eq. simplify_eq. rewrite Hc. simpl. destruct (decide (0 ≤ h')); [|by rewrite !decide_False by lia].
  rewrite !decide_True by lia.
  replace (Z.to_nat (nHeight b - h')) with (Z.to_nat (nHeight b - h) + Z.to_nat (nHeight c - h'))%nat by lia.
  rewrite back_add, Hq. done.
Qed.

Lemma pskip_ancestor p b k : σ !! p = Some b → pskip b = Some k →
  0 < nHeight b ∧ ancestor σ p (GetSkipHeight (nHeight b)) = Some k.
Proof.
  intros Hp Hk. destruct (lk_skip σ Hl p b k Hp Hk) as [Hpos Hb]. split; [done|].
  unfold ancestor. rewrite Hp. simpl. pose proof (GetSkipHeight_bounds _ Hpos). by rewrite decide_True by lia.
Qed.

Lemma ancestor_lookup p h q : ancestor σ p h = Some q → ∃ c, σ !! q = Some c ∧ nHeight c = h.
Proof.
  unfold ancestor. destruct (σ !! p) as [b|] eqn:Hp; [|done]. simpl. destruct (decide _); [|done]. intros Hq.
  destruct (back_some (Z.to_nat (nHeight b - h)) p b Hp ltac:(lia)) as (q' & c & Eq & Hc & Ec). simplify_eq. exists c. split; [done|lia].
Qed.

(** The skip list walk finds what stepping through [pprev] finds. *)
Lemma ancestor_walk_ok fuel p b h :
  σ !! p = Some b → 0 ≤ h ≤ nHeight b → nHeight b - h ≤ Z.of_nat fuel →
  ancestor_walk fuel σ h p (nHeight b) = Ok (ancestor σ p h).
Proof.
  revert p b. induction fuel as [|fuel IH]; intros p b Hp Hh Hf; simpl.
  { assert (h = nHeight b) as -> by lia. rewrite Z.ltb_irrefl. by rewrite (ancestor_self p b). }
  destruct (Z.ltb_spec h (nHeight b)) as [Hlt|].
  2: { assert (h = nHeight b) as -> by lia. by rewrite (ancestor_self p b). }
  rewrite (deref_Ok _ _ _ Hp), bind_Ok. destruct (prev_exists p b Hp ltac:(lia)) as (q & c & Eq & Hc & Ec).
  assert (ancestor_walk fuel σ h q (nHeight b - 1) = Ok (ancestor σ p h)) as Hprev.
  { rewrite (ancestor_prev p b q) by (done || lia). rewrite <- Ec. apply IH; [done|lia..]. }
  rewrite Eq. destruct (pskip b) as [k|] eqn:Ek; [|done]. destruct (_ || _) eqn:Hfollow; [|done].
  destruct (pskip_ancestor p b k Hp Ek) as [_ Ha]. destruct (ancestor_lookup _ _ _ Ha) as (d & Hd & Ed).
  pose proof (GetSkipHeight_bounds (nHeight b) ltac:(lia)). assert (h ≤ GetSkipHeight (nHeight b)) by lia.
  rewrite <- (ancestor_trans p k (GetSkipHeight (nHeight b)) h) by done. rewrite <- Ed. apply IH; [done|lia..].
Qed.

Lemma GetAncestor_ok p b h : σ !! p = Some b → GetAncestor σ p h = Ok (ancestor σ p h).
Proof.
  intros Hp. unfold GetAncestor. rewrite (deref_Ok _ _ _ Hp), bind_Ok.
  destruct (Z.ltb_spec (nHeight b) h); cbn [orb].
  { f_equal. unfold ancestor. rewrite Hp. simpl. by rewrite decide_False by lia. }
  destruct (Z.ltb_spec h 0). { f_equal. unfold ancestor. rewrite Hp. simpl. by rewrite decide_False by lia. }
  apply ancestor_walk_ok; [done|lia..].
Qed.
End linked.

(** ** Building the skip list *)

(** Two maps with the same heights and [pprev] links. *)
Definition same_tree (σ σ' : BlockMap) : Prop :=
  ∀ p, (λ b, (nHeight b, pprev b)) <$> σ !! p = (λ b, (nHeight b, pprev b)) <$> σ' !! p.

Lemma same_tree_back σ σ' n p : same_tree σ σ' → back σ n p = back σ' n p.
Proof.
  intros H. apply back_ext. intros q. specialize (H q).
  destruct (σ !! q), (σ' !! q); simplify_eq/=; congruence.
Qed.

Lemma same_tree_lookup σ σ' p b : same_tree σ σ' → σ !! p = Some b →
  ∃ b', σ' !! p = Some b' ∧ nHeight b' = nHeight b ∧ pprev b' = pprev b.
Proof. intros H Hp. specialize (H p). rewrite Hp in H. destruct (σ' !! p) as [b'|]; simplify_eq/=. eauto. Qed.

Lemma same_tree_ancestor σ σ' p h : same_tree σ σ' → ancestor σ p h = ancestor σ' p h.
Proof.
  intros H. unfold ancestor. pose proof (H p) as Hp.
  destruct (σ !! p) as [b|], (σ' !! p) as [b'|]; simpl in Hp; try discriminate; [|done].
  injection Hp as Eh _. simpl. rewrite Eh. by erewrite same_tree_back.
Qed.

(** Installing a correct skip pointer, or none, keeps the index linked. *)
Lemma linked_set_pskip σ p b k :
  linked σ → σ !! p = Some b →
  (∀ x, k = Some x → 0 < nHeight b ∧ ancestor σ p (GetSkipHeight (nHeight b)) = Some x) →
  same_tree σ (<[p := set_pskip b k]> σ) ∧ linked (<[p := set_pskip b k]> σ).
Proof.
  intros Hl Hp Hk. assert (same_tree σ (<[p := set_pskip b k]> σ)) as Hs.
  { intros q. destruct (decide (q = p)) as [->|]; [by rewrite lookup_insert_eq, Hp|by rewrite lookup_insert_ne]. }
  split; [done|].
  assert (∀ q c, <[p := set_pskip b k]> σ !! q = Some c → ∃ c', σ !! q = Some c' ∧ nHeight c' = nHeight c ∧ pprev c' = pprev c) as Hold.
  { intros q c Hq. eapply same_tree_lookup; [|done]. intros x. by rewrite (Hs x). }
  constructor.
  - intros q c Hq. destruct (Hold q c Hq) as (c' & Hc & <- & _). by apply (lk_height σ Hl q c').
  - intros q c Hq. destruct (Hold q c Hq) as (c' & Hc & <- & <-). by apply (lk_genesis σ Hl q c').
  - intros q c r Hq. destruct (Hold q c Hq) as (c' & Hc & <- & <-). intros Er.
    destruct (lk_prev σ Hl q c' r Hc Er) as (d & Hd & Ed). destruct (same_tree_lookup _ _ _ _ Hs Hd) as (d' & Hd' & Eh & _).
    exists d'. by rewrite Eh.
  - intros q c x Hq. rewrite <- (same_tree_back σ) by done. destruct (decide (q = p)) as [->|].
    + rewrite lookup_insert_eq in Hq. simplify_eq/=. intros Ex. destruct (Hk x Ex) as [Hpos Ha]. split; [done|].
      unfold ancestor in Ha. rewrite Hp in Ha. simpl in Ha. case_decide; [done|]. pose proof (GetSkipHeight_bounds _ Hpos). lia.
    + rewrite lookup_insert_ne in Hq by done. by apply (lk_skip σ Hl q c x).
Qed.

Lemma set_pskip_id b : set_pskip b (pskip b) = b.
Proof. by destruct b. Qed.

Lemma BuildSkip_ok σ p b :
  linked σ → σ !! p = Some b → pskip b = None →
  let k := if decide (0 < nHeight b) then ancestor σ p (GetSkipHeight (nHeight b)) else None in
  BuildSkip σ p = Ok (<[p := set_pskip b k]> σ) ∧ linked (<[p := set_pskip b k]> σ).
Proof.
  intros Hl Hp Hnone k. unfold BuildSkip. rewrite (deref_Ok _ _ _ Hp), bind_Ok. destruct (pprev b) as [q|] eqn:Eq.
  - pose proof (prev_height σ Hl p b q Hp Eq) as Hpos. destruct (lk_prev σ Hl p b q Hp Eq) as (c & Hc & Ec).
    pose proof (GetSkipHeight_bounds _ Hpos) as Hs. rewrite (GetAncestor_ok σ Hl q c) by done. rewrite bind_Ok.
    rewrite <- (ancestor_prev σ Hl p b q) by (done || lia). unfold k. rewrite decide_True by done. split; [done|].
    by apply linked_set_pskip.
  - pose proof (lk_genesis σ Hl p b Hp Eq). unfold k. rewrite decide_False by lia.
    rewrite <- Hnone, set_pskip_id, insert_id by done. done.
Qed.

(** Only heights and links matter. *)
Lemma linked_same σ σ' :
  (∀ p, (λ b, (nHeight b, pprev b, pskip b)) <$> σ !! p = (λ b, (nHeight b, pprev b, pskip b)) <$> σ' !! p) →
  linked σ → linked σ'.
Proof.
  intros H Hl. assert (same_tree σ σ') as Hs.
  { intros p. specialize (H p). destruct (σ !! p), (σ' !! p); simplify_eq/=; congruence. }
  assert (∀ q c, σ' !! q = Some c → ∃ c', σ !! q = Some c' ∧ nHeight c' = nHeight c ∧ pprev c' = pprev c ∧ pskip c' = pskip c) as Hold.
  { intros q c Hq. specialize (H q). rewrite Hq in H. destruct (σ !! q) as [c'|]; simplify_eq/=. eauto. }
  constructor.
  - intros q c Hq. destruct (Hold q c Hq) as (c' & Hc & <- & _). by apply (lk_height σ Hl q c').
  - intros q c Hq. destruct (Hold q c Hq) as (c' & Hc & <- & <- & _). by apply (lk_genesis σ Hl q c').
  - intros q c r Hq. destruct (Hold q c Hq) as (c' & Hc & <- & <- & _). intros Er.
    destruct (lk_prev σ Hl q c' r Hc Er) as (d & Hd & Ed). destruct (same_tree_lookup _ _ _ _ Hs Hd) as (d' & Hd' & Eh & _).
    exists d'. by rewrite Eh.
  - intros q c x Hq. destruct (Hold q c Hq) as (c' & Hc & <- & _ & <-). rewrite <- (same_tree_back σ) by done.
    by apply (lk_skip σ Hl q c' x).
Qed.

(** A fresh entry below a present parent, or a fresh genesis. *)
Lemma linked_insert σ p b :
  linked σ → σ !! p = None → pskip b = None →
  (pprev b = None ∧ nHeight b = 0 ∨
   ∃ q c, pprev b = Some q ∧ σ !! q = Some c ∧ nHeight b = nHeight c + 1 ∧ nHeight b < 2 ^ 31) →
  linked (<[p := b]> σ).
Proof.
  intros Hl Hp Hsk Hb. assert (σ ⊆ <[p := b]> σ) as Hsub by (by apply insert_subseteq).
  constructor.
  - intros q c [[<- <-]|[Hne Hq]]%lookup_insert_Some; [|by apply (lk_height σ Hl q c)].
    destruct Hb as [[_ ->]|(q & c & _ & Hc & Eh & Hlt)]; [lia|]. pose proof (lk_height σ Hl q c Hc). lia.
  - intros q c [[<- <-]|[Hne Hq]]%lookup_insert_Some; [|by apply (lk_genesis σ Hl q c)]. intros E.
    destruct Hb as [[_ ->]|(q & c & Eq & _)]; [done|congruence].
  - intros q c r [[<- <-]|[Hne Hq]]%lookup_insert_Some Er.
    + destruct Hb as [[E _]|(q & c & Eq & Hc & Eh & _)]; [congruence|]. simplify_eq. exists c. split; [|done].
      by apply (lookup_weaken _ _ _ _ Hc Hsub).
    + destruct (lk_prev σ Hl q c r Hq Er) as (d & Hd & Ed). exists d. split; [|done]. by apply (lookup_weaken _ _ _ _ Hd Hsub).
  - intros q c k [[<- <-]|[Hne Hq]]%lookup_insert_Some Ek; [congruence|].
    destruct (lk_skip σ Hl q c k Hq Ek) as [Hpos Hb']. split; [done|]. by apply (back_mono σ).
Qed.

(** ** Counting, and the median *)
Definition count_lt (x : Z) (l : list Z) : nat := length (filter (λ y, y < x) l).
Definition count_le (x : Z) (l : list Z) : nat := length (filter (λ y, y ≤ x) l).

Lemma count_lt_perm x l k : l ≡ₚ k → count_lt x l = count_lt x k.
Proof. intros E. unfold count_lt. by rewrite E. Qed.

Lemma count_le_perm x l k : l ≡ₚ k → count_le x l = count_le x k.
Proof. intros E. unfold count_le. by rewrite E. Qed.

Lemma count_le_lt x y l : x < y → (count_le x l ≤ count_lt y l)%nat.
Proof.
  intros Hxy. unfold count_le, count_lt. induction l as [|a l IH]; [done|]. rewrite !filter_cons.
  destruct (decide (a ≤ x)), (decide (a < y)); simpl; lia.
Qed.

Lemma sorted_counts l k x :
  StronglySorted Z.le l → l !! k = Some x → (count_lt x l ≤ k)%nat ∧ (k < count_le x l)%nat.
Proof.
  intros Hs. revert k. induction Hs as [|a l Hs IH Ha]; intros k Hk; [done|]. unfold count_lt, count_le. rewrite !filter_cons.
  destruct k as [|k]; simpl in Hk.
  - simplify_eq. rewrite (decide_False (P := x < x)), (decide_True (P := x ≤ x)) by lia. split; [|simpl; lia].
    assert (filter (λ y, y < x) l = []) as ->; [|done]. rewrite list.Forall_forall in Ha.
    destruct (filter (λ y, y < x) l) as [|z zs] eqn:E; [done|]. assert (z ∈ filter (λ y, y < x) l) as Hz by (rewrite E; apply list_elem_of_here).
    apply list_elem_of_filter in Hz as [Hz1 Hz2]. specialize (Ha z Hz2). lia.
  - destruct (IH k Hk) as [IH1 IH2]. unfold count_lt, count_le in IH1, IH2. rewrite list.Forall_forall in Ha.
    assert (a ≤ x) by (apply Ha, list_elem_of_lookup; eauto). rewrite (decide_True (P := a ≤ x)) by done.
    destruct (decide (a < x)); simpl; lia.
Qed.

Lemma median_counts l m :
  median l = Ok m → m ∈ l ∧ (count_lt m l ≤ length l / 2)%nat ∧ (length l / 2 < count_le m l)%nat.
Proof.
  unfold median, vget. destruct (merge_sort Z.le l !! Z.to_nat (zlen l / 2)) as [x|] eqn:E; [|by case_match].
  case_match; [|done]. intros ?. simplify_eq. pose proof (merge_sort_Permutation Z.le l) as Hp.
  assert (Z.to_nat (zlen l / 2) = (length l / 2)%nat) as Ei by (unfold zlen; rewrite Z2Nat.inj_div by lia; by rewrite Nat2Z.id).
  rewrite Ei in E. destruct (sorted_counts _ _ _ (StronglySorted_merge_sort Z.le l) E) as [Hc1 Hc2].
  rewrite (count_lt_perm _ _ _ Hp) in Hc1. rewrite (count_le_perm _ _ _ Hp) in Hc2. split; [|done].
  rewrite <- Hp. by eapply list_elem_of_lookup_2.
Qed.

Lemma median_total l : l ≠ [] → ∃ m, median l = Ok m.
Proof.
  intros Hne. unfold median, vget. pose proof (merge_sort_Permutation Z.le l) as Hp. apply Permutation_length in Hp.
  assert (0 < zlen l) by (unfold zlen; destruct l; [done|simpl; lia]).
  pose proof (Z.div_lt (zlen l) 2 ltac:(lia) ltac:(lia)). assert (0 ≤ zlen l / 2) by (apply Z.div_pos; lia).
  destruct (merge_sort Z.le l !! Z.to_nat (zlen l / 2)) as [x|] eqn:E.
  - exists x. by rewrite bool_decide_true.
  - apply lookup_ge_None in E. unfold zlen in *. lia.
Qed.

(** ** Median time past *)
Section median_time.
Context (σ : BlockMap).
Hypothesis Hl : linked σ.

Definition present (q : option (list Z)) : Prop := match q with Some p => is_Some (σ !! p) | None => True end.

Lemma present_prev p b : σ !! p = Some b → present (pprev b).
Proof. intros Hp. destruct (pprev b) as [q|] eqn:E; [|done]. destruct (lk_prev σ Hl p b q Hp E) as (c & Hc & _). by exists c. Qed.

Lemma past_times_total i q : present q → ∃ w, past_times σ i q = Ok w.
Proof.
  revert q. induction i as [|i IH]; intros [p|] Hq; [by exists []..| |by exists []].
  destruct Hq as [b Hp]. simpl. rewrite (deref_Ok _ _ _ Hp), bind_Ok.
  destruct (IH (pprev b) (present_prev p b Hp)) as [w ->]. rewrite bind_Ok. eauto.
Qed.

(** A longer window adds at most one, oldest, time. *)
Lemma past_times_longer i q w w' :
  present q → past_times σ i q = Ok w → past_times σ (S i) q = Ok w' → w' = w ∨ ∃ x, w' = x :: w.
Proof.
  revert q w w'. induction i as [|i IH]; intros [p|] w w' Hq Hw Hw'; simpl in Hw, Hw'; simplify_eq; [| auto | | auto].
  - destruct Hq as [b Hp]. rewrite (deref_Ok _ _ _ Hp), bind_Ok in Hw'. destruct (pprev b); simplify_eq/=; eauto.
  - destruct Hq as [b Hp]. rewrite (deref_Ok _ _ _ Hp), bind_Ok in Hw, Hw'. pose proof (present_prev p b Hp) as Hq.
    destruct (past_times_total i _ Hq) as [v Hv]. rewrite Hv, bind_Ok in Hw.
    destruct (past_times_total (S i) _ Hq) as [v' Hv']. change (past_times σ (S i) (pprev b)) with (past_times σ (S i) (pprev b)) in *.
    simpl in Hv'. rewrite Hv', bind_Ok in Hw'. simplify_eq. destruct (IH _ v v' Hq Hv Hv') as [->|[x ->]]; [auto|].
    right. by exists x.
Qed.

Lemma GetMedianTimePast_total p b : σ !! p = Some b → ∃ m, GetMedianTimePast σ p = Ok m.
Proof.
  intros Hp. unfold GetMedianTimePast, nMedianTimeSpan. change 11%nat with (S 10). simpl.
  rewrite (deref_Ok _ _ _ Hp), bind_Ok. destruct (past_times_total 10 _ (present_prev p b Hp)) as [w Hw].
  simpl in Hw. rewrite Hw, !bind_Ok. apply median_total. by destruct w.
Qed.

(** A block later than its parent's median time cannot lower the median. *)
Lemma median_step p b q m m' :
  σ !! p = Some b → pprev b = Some q → GetMedianTimePast σ q = Ok m → m < nTime b →
  GetMedianTimePast σ p = Ok m' → m ≤ m'.
Proof.
  intros Hp Hq Hm Hrule Hm'. unfold GetMedianTimePast in Hm, Hm'. pose proof (present_prev p b Hp) as Hpres. rewrite Hq in Hpres.
  destruct (past_times_total 10 _ Hpres) as [w Hw]. destruct (past_times_total 11 _ Hpres) as [w' Hw'].
  assert (past_times σ 11 (Some p) = Ok (w ++ [nTime b])) as Hwin.
  { change (past_times σ 11 (Some p)) with (b0 ← deref σ p; older ← past_times σ 10 (pprev b0); Ok (older ++ [GetBlockTime b0])).
    rewrite (deref_Ok _ _ _ Hp), bind_Ok, Hq, Hw. done. }
  unfold nMedianTimeSpan in *. rewrite Hwin, bind_Ok in Hm'. rewrite Hw', bind_Ok in Hm.
  destruct (median_counts _ _ Hm) as (_ & Hlt & _). destruct (median_counts _ _ Hm') as (_ & _ & Hle).
  destruct (decide (m ≤ m')); [done|]. exfalso. pose proof (count_le_lt m' m (w ++ [nTime b]) ltac:(lia)).
  assert (count_lt m (w ++ [nTime b]) = count_lt m w) as Hnew.
  { unfold count_lt. rewrite list.filter_app, length_app, filter_cons, decide_False by lia. simpl. lia. }
  assert (count_lt m w ≤ count_lt m w' ∧ length w' ≤ S (length w))%nat as [Hc Hlen].
  { destruct (past_times_longer 10 _ w w' Hpres Hw Hw') as [->|[x ->]]; [lia|].
    unfold count_lt. rewrite filter_cons. case_decide; simpl; lia. }
  rewrite length_app in Hle. cbn [length] in Hle.
  pose proof (Nat.Div0.div_le_mono (length w') (length w + 1) 2 ltac:(lia)). lia.
Qed.

(** The contextual rule on block times. *)
Definition times_follow_median : Prop :=
  ∀ p b q m, σ !! p = Some b → pprev b = Some q → GetMedianTimePast σ q = Ok m → m < nTime b.

Lemma median_monotone n p b q m m' :
  times_follow_median → σ !! p = Some b → back σ n p = Some q →
  GetMedianTimePast σ q = Ok m → GetMedianTimePast σ p = Ok m' → m ≤ m'.
Proof.
  intros Hrule. revert p b m'. induction n as [|n IH]; intros p b m' Hp Hq Hm Hm'; [simplify_eq/=; rewrite Hm in Hm'; simplify_eq; lia|].
  simpl in Hq. rewrite Hp in Hq. simpl in Hq. destruct (pprev b) as [r|] eqn:Er; [|done]. simpl in Hq.
  destruct (lk_prev σ Hl p b r Hp Er) as (c & Hc & _). destruct (GetMedianTimePast_total r c Hc) as [mr Hmr].
  pose proof (IH r c mr Hc Hq Hm Hmr). pose proof (median_step p b r mr m' Hp Er Hmr (Hrule p b r mr Hp Er Hmr) Hm'). lia.
Qed.
End median_time.

(** ** Last common ancestor *)

(** The highest common ancestor of [a] and [b], or none at all. *)
Definition is_fork_point (σ : BlockMap) (a b : list Z) (top : Z) (r : option (list Z)) : Prop :=
  match r with
  | Some c => ∃ h, h ≤ top ∧ ancestor σ a h = Some c ∧ ancestor σ b h = Some c ∧
                   ∀ h', h < h' ≤ top → ancestor σ a h' ≠ ancestor σ b h'
  | None => ∀ h', 0 ≤ h' ≤ top → ancestor σ a h' ≠ ancestor σ b h'
  end.

Section meet.
Context (σ : BlockMap).
Hypothesis Hl : linked σ.

Lemma meet_ok fuel a b ba bb :
  σ !! a = Some ba → σ !! b = Some bb → nHeight ba = nHeight bb → nHeight ba < Z.of_nat fuel →
  ∃ r, meet fuel σ (Some a) (Some b) = Ok (r, r) ∧ is_fork_point σ a b (nHeight ba) r.
Proof.
  revert a b ba bb. induction fuel as [|fuel IH]; intros a b ba bb Ha Hb Hh Hf;
    pose proof (lk_height σ Hl a ba Ha) as Hbound; [lia|].
  pose proof (ancestor_self σ Hl a ba Ha) as Hsa. pose proof (ancestor_self σ Hl b bb Hb) as Hsb. rewrite <- Hh in Hsb.
  cbn [meet]. destruct (decide (a = b)) as [->|Hne].
  { exists (Some b). split; [done|]. exists (nHeight ba). split_and!; [lia|done..|]. lia. }
  rewrite (deref_Ok _ _ _ Ha), bind_Ok, (deref_Ok _ _ _ Hb), bind_Ok.
  destruct (decide (nHeight ba = 0)) as [E0|E0].
  { assert (pprev ba = None ∧ pprev bb = None) as [-> ->].
    { split; [destruct (pprev ba) eqn:E; [pose proof (prev_height σ Hl _ _ _ Ha E)|]
             |destruct (pprev bb) eqn:E; [pose proof (prev_height σ Hl _ _ _ Hb E)|]]; (done || lia). }
    exists None. split; [by destruct fuel|]. intros h' Hh'. assert (h' = nHeight ba) as -> by lia. congruence. }
  destruct (prev_exists σ Hl a ba Ha ltac:(lia)) as (qa & ca & Ea & Hca & Eha).
  destruct (prev_exists σ Hl b bb Hb ltac:(lia)) as (qb & cb & Eb & Hcb & Ehb). rewrite Ea, Eb.
  destruct (IH qa qb ca cb Hca Hcb ltac:(lia) ltac:(lia)) as (r & -> & Hr). exists r. split; [done|].
  assert (∀ h', h' < nHeight ba → ancestor σ a h' = ancestor σ qa h' ∧ ancestor σ b h' = ancestor σ qb h') as Hstep.
  { intros h' Hh'. split; [by apply (ancestor_prev σ Hl a ba)|apply (ancestor_prev σ Hl b bb); [done..|lia]]. }
  assert (∀ h', h' ≤ nHeight ba → (h' ≤ nHeight ca → ancestor σ qa h' ≠ ancestor σ qb h') → ancestor σ a h' ≠ ancestor σ b h') as Hup.
  { intros h' Hle Hlow. destruct (decide (h' = nHeight ba)) as [->|]; [congruence|].
    destruct (Hstep h' ltac:(lia)) as [-> ->]. apply Hlow. lia. }
  destruct r as [c|]; simpl in Hr |- *.
  - destruct Hr as (h & Hle & Hc1 & Hc2 & Hmax). exists h. destruct (Hstep h ltac:(lia)) as [-> ->].
    split_and!; [lia|done..|]. intros h' Hh'. apply Hup; [lia|]. intros. apply Hmax. lia.
  - intros h' Hh'. apply Hup; [lia|]. intros. apply Hr. lia.
Qed.

Lemma LastCommonAncestor_ok pa pb a b :
  σ !! pa = Some a → σ !! pb = Some b →
  ∃ r, LastCommonAncestor σ pa pb = Ok r ∧ is_fork_point σ pa pb (Z.min (nHeight a) (nHeight b)) r.
Proof.
  intros Ha Hb. unfold LastCommonAncestor. rewrite (deref_Ok _ _ _ Ha), bind_Ok, (deref_Ok _ _ _ Hb), bind_Ok.
  pose proof (lk_height σ Hl pa a Ha). pose proof (lk_height σ Hl pb b Hb). set (t := Z.min (nHeight a) (nHeight b)).
  destruct (ancestor_some σ Hl pa a t Ha ltac:(lia)) as (qa & ca & Ea & Hca & Eha).
  destruct (ancestor_some σ Hl pb b t Hb ltac:(lia)) as (qb & cb & Eb & Hcb & Ehb).
  assert ((if nHeight b <? nHeight a then GetAncestor σ pa (nHeight b) else Ok (Some pa)) = Ok (Some qa)) as ->.
  { destruct (Z.ltb_spec (nHeight b) (nHeight a)).
    - rewrite (GetAncestor_ok σ Hl pa a) by done. rewrite <- Ea. do 2 f_equal. lia.
    - rewrite <- Ea. replace t with (nHeight a) by lia. by rewrite (ancestor_self σ Hl pa a). }
  rewrite bind_Ok.
  assert ((if nHeight b <? nHeight a then Ok (Some pb)
           else if nHeight a <? nHeight b then GetAncestor σ pb (nHeight a) else Ok (Some pb)) = Ok (Some qb)) as ->.
  { destruct (Z.ltb_spec (nHeight b) (nHeight a)); [|destruct (Z.ltb_spec (nHeight a) (nHeight b))].
    - rewrite <- Eb. replace t with (nHeight b) by lia. by rewrite (ancestor_self σ Hl pb b).
    - rewrite (GetAncestor_ok σ Hl pb b) by done. rewrite <- Eb. do 2 f_equal. lia.
    - rewrite <- Eb. replace t with (nHeight b) by lia. by rewrite (ancestor_self σ Hl pb b). }
  rewrite bind_Ok. destruct (meet_ok (S (Z.to_nat t)) qa qb ca cb Hca Hcb ltac:(lia) ltac:(lia)) as (r & -> & Hr).
  rewrite bind_Ok. cbn [fst snd]. rewrite assert_true by (by apply bool_decide_true). rewrite bind_Ok. exists r. split; [done|].
  rewrite Eha in Hr.
  assert (∀ h, h ≤ t → ancestor σ qa h = ancestor σ pa h ∧ ancestor σ qb h = ancestor σ pb h) as Htr.
  { intros h Hh. split; by eapply ancestor_trans. }
  destruct r as [c|]; simpl in Hr |- *.
  - destruct Hr as (h & Hle & Hc1 & Hc2 & Hmax). destruct (Htr h Hle) as [E1 E2]. exists h. rewrite <- E1, <- E2.
    split_and!; [done..|]. intros h' Hh'. destruct (Htr h' ltac:(lia)) as [<- <-]. by apply Hmax.
  - intros h' Hh'. destruct (Htr h' ltac:(lia)) as [<- <-]. by apply Hr.
Qed.
End meet.

(** ** The active chain *)

(** [v] lists the ancestors of [tip] by height. *)
Definition chain_of (σ : BlockMap) (v : list (option (list Z))) (tip : list Z) : Prop :=
  ∃ b, σ !! tip = Some b ∧ zlen v = nHeight b + 1 ∧
       ∀ i, 0 ≤ i ≤ nHeight b → v !! Z.to_nat i = Some (ancestor σ tip i).

Definition chain_ok (σ : BlockMap) (v : list (option (list Z))) : Prop := v = [] ∨ ∃ tip, chain_of σ v tip.

Section chain.
Context (σ : BlockMap).
Hypothesis Hl : linked σ.

(** What a slot of a resized chain can hold: nothing, or an entry whose whole
    ancestry fills the slots below. *)
Definition old_slots (v : list (option (list Z))) : Prop :=
  ∀ j q, 0 ≤ j → v !! Z.to_nat j = Some (Some q) → ∀ i, 0 ≤ i ≤ j → v !! Z.to_nat i = Some (ancestor σ q i).

Lemma resize_slots n v : chain_ok σ v → old_slots (resize n v).
Proof.
  intros Hv j q Hj Hq i Hi. unfold resize in *. destruct (decide (Z.to_nat j < length (take n v)))%nat as [Hlt|Hge].
  - rewrite lookup_app_l in Hq by lia. rewrite lookup_app_l by lia. rewrite length_take in Hlt.
    rewrite lookup_take_lt in Hq by lia. rewrite lookup_take_lt by lia.
    destruct Hv as [->|(tip & b & Hb & Hlen & Hall)]; [done|]. unfold zlen in Hlen.
    rewrite Hall in Hq by lia. rewrite Hall by lia. injection Hq as Hq. f_equal. symmetry.
    apply (ancestor_trans σ Hl tip q j i Hq). lia.
  - rewrite lookup_app_r in Hq by lia. apply lookup_replicate in Hq as [? _]. done.
Qed.

Lemma length_resize n v : length (resize n v) = n.
Proof. unfold resize. rewrite length_app, length_take, length_replicate. lia. Qed.

Lemma set_tip_walk_ok fuel T b j q v :
  σ !! T = Some b → 0 ≤ j ≤ nHeight b → ancestor σ T j = Some q → zlen v = nHeight b + 1 → j < Z.of_nat fuel →
  (∀ i, j < i ≤ nHeight b → v !! Z.to_nat i = Some (ancestor σ T i)) →
  (∀ x, v !! Z.to_nat j = Some (Some x) → ∀ i, 0 ≤ i ≤ j → v !! Z.to_nat i = Some (ancestor σ x i)) →
  old_slots (take (Z.to_nat j) v) →
  ∃ v', set_tip_walk fuel σ (Some q) v = Ok v' ∧ chain_of σ v' T.
Proof.
  intros HT. revert j q v. induction fuel as [|fuel IH]; intros j q v Hj Hq Hlen Hf Habove Hslot Hold; [lia|].
  destruct (ancestor_lookup σ Hl T j q Hq) as (c & Hc & Ec). cbn [set_tip_walk].
  rewrite (deref_Ok _ _ _ Hc), bind_Ok, Ec. unfold vget. rewrite bool_decide_true by lia.
  assert (Z.to_nat j < length v)%nat as Hlt by (unfold zlen in Hlen; lia).
  destruct (lookup_lt_is_Some_2 v _ Hlt) as [cur Hcur]. rewrite Hcur, bind_Ok. destruct (decide (cur = Some q)) as [->|Hne].
  { exists v. split; [done|]. exists b. split_and!; [done..|]. intros i Hi. destruct (decide (j < i)); [apply Habove; lia|].
    rewrite (Hslot q Hcur i) by lia. f_equal. apply (ancestor_trans σ Hl T q j i Hq). lia. }
  unfold vset. rewrite bool_decide_true by lia. rewrite bind_Ok.
  assert (∀ i, 0 ≤ i → i ≠ j → <[Z.to_nat j := Some q]> v !! Z.to_nat i = v !! Z.to_nat i) as Hother.
  { intros i Hi Hij. apply list_lookup_insert_ne. lia. }
  assert (<[Z.to_nat j := Some q]> v !! Z.to_nat j = Some (Some q)) as Hself by (by apply list_lookup_insert_eq).
  assert (∀ i, j ≤ i ≤ nHeight b → <[Z.to_nat j := Some q]> v !! Z.to_nat i = Some (ancestor σ T i)) as Habove'.
  { intros i Hi. destruct (decide (i = j)) as [->|]; [by rewrite Hself, Hq|]. rewrite Hother by lia. apply Habove. lia. }
  destruct (pprev c) as [r|] eqn:Er.
  - destruct (lk_prev σ Hl q c r Hc Er) as (d & Hd & Ed). pose proof (lk_height σ Hl r d Hd).
    assert (∀ i, 0 ≤ i ≤ j - 1 → take (Z.to_nat j) v !! Z.to_nat i = <[Z.to_nat j := Some q]> v !! Z.to_nat i) as Htake.
    { intros i Hi. rewrite lookup_take_lt by lia. symmetry. apply Hother; lia. }
    apply (IH (j - 1) r); [lia| |by rewrite zlen_insert|lia|intros; apply Habove'; lia| |].
    + rewrite <- (ancestor_trans σ Hl T q j (j - 1) Hq) by lia. rewrite (ancestor_prev σ Hl q c r) by (done || lia).
      replace (j - 1) with (nHeight d) by lia. by apply ancestor_self.
    + intros x Hx i Hi. rewrite <- Htake in Hx |- * by lia. apply (Hold (j - 1)); [lia|done|lia].
    + intros i x Hi Hx k Hk. rewrite take_insert_ge in Hx |- * by lia.
      assert (i < j - 1). { apply lookup_lt_Some in Hx. rewrite length_take in Hx. lia. }
      rewrite lookup_take_lt in Hx |- * by lia.
      specialize (Hold i x Hi). rewrite lookup_take_lt in Hold by lia. specialize (Hold Hx k Hk).
      by rewrite lookup_take_lt in Hold by lia.
  - pose proof (lk_genesis σ Hl q c Hc Er). exists (<[Z.to_nat j := Some q]> v). split; [by destruct fuel|].
    exists b. split_and!; [done|by rewrite zlen_insert|]. intros i Hi. apply Habove'. lia.
Qed.

(** Whatever branch the chain held before, it becomes the branch of the tip. *)
Lemma SetTip_ok v T b : chain_ok σ v → σ !! T = Some b → ∃ v', SetTip σ v T = Ok v' ∧ chain_of σ v' T.
Proof.
  intros Hv HT. pose proof (lk_height σ Hl T b HT). unfold SetTip. rewrite (deref_Ok _ _ _ HT), bind_Ok.
  destruct (Z.ltb_spec (nHeight b) 0); [lia|]. pose proof (resize_slots (Z.to_nat (nHeight b + 1)) v Hv) as Hslots.
  apply (set_tip_walk_ok _ T b (nHeight b)); [done|lia|by apply ancestor_self|unfold zlen; rewrite length_resize; lia|lia|lia| |].
  - intros x Hx i Hi. by apply (Hslots (nHeight b)).
  - intros i x Hi Hx k Hk. assert (i < nHeight b) by (apply lookup_lt_Some in Hx; rewrite length_take in Hx; lia).
    rewrite lookup_take_lt in Hx |- * by lia. by apply (Hslots i).
Qed.

Lemma at_height_chain v T i b : chain_of σ v T → σ !! T = Some b → 0 ≤ i ≤ nHeight b → at_height v i = ancestor σ T i.
Proof.
  intros (b' & Hb & Hlen & Hall) HT Hi. rewrite HT in Hb. injection Hb as <-. unfold at_height.
  destruct (Z.ltb_spec i 0); [lia|]. destruct (Z.leb_spec (zlen v) i); [lia|]. by rewrite Hall.
Qed.

Lemma at_height_above v T i b : chain_of σ v T → σ !! T = Some b → nHeight b < i → at_height v i = None.
Proof.
  intros (b' & Hb & Hlen & Hall) HT Hi. rewrite HT in Hb. injection Hb as <-. unfold at_height. pose proof (lk_height σ Hl T b HT).
  destruct (Z.ltb_spec i 0); [lia|]. destruct (Z.leb_spec (zlen v) i); [done|lia].
Qed.

(** Membership is being an ancestor of the tip. *)
Lemma Contains_ok v T p b : chain_of σ v T → σ !! p = Some b →
  Contains σ v (Some p) = Ok (bool_decide (ancestor σ T (nHeight b) = Some p)).
Proof.
  intros Hv Hp. unfold Contains. rewrite (deref_Ok _ _ _ Hp), bind_Ok. do 2 f_equal.
  destruct Hv as (t & HT & Hlen & Hall). pose proof (lk_height σ Hl p b Hp).
  destruct (decide (nHeight b ≤ nHeight t)).
  - rewrite (at_height_chain v T _ t); [|by exists t|done|lia]. done.
  - rewrite (at_height_above v T _ t); [|by exists t|done|lia]. apply bool_decide_ext.
    unfold ancestor. rewrite HT. simpl. rewrite decide_False by lia. done.
Qed.
End chain.

(** ** Fork of a branch from the active chain *)
Section fork.
Context (σ : BlockMap) (v : list (option (list Z))) (T : list Z) (t : CBlockIndex).
Hypothesis Hl : linked σ.
Hypothesis Hv : chain_of σ v T.
Hypothesis HT : σ !! T = Some t.

Lemma ancestor_none_above p b h : σ !! p = Some b → nHeight b < h → ancestor σ p h = None.
Proof. intros Hp Hh. unfold ancestor. rewrite Hp. simpl. by rewrite decide_False by lia. Qed.

Lemma find_fork_walk_ok fuel p b :
  σ !! p = Some b → nHeight b ≤ nHeight t → nHeight b < Z.of_nat fuel →
  ∃ r, find_fork_walk fuel σ v (Some p) = Ok r ∧ is_fork_point σ T p (nHeight b) r.
Proof.
  revert p b. induction fuel as [|fuel IH]; intros p b Hp Hle Hf; pose proof (lk_height σ Hl p b Hp); [lia|].
  cbn [find_fork_walk]. rewrite (Contains_ok σ Hl v T p b) by done. rewrite bind_Ok.
  pose proof (ancestor_self σ Hl p b Hp) as Hself.
  destruct (bool_decide _) eqn:E.
  { apply bool_decide_eq_true in E. exists (Some p). split; [done|]. exists (nHeight b). split_and!; [lia|done..|lia]. }
  apply bool_decide_eq_false in E. rewrite (deref_Ok _ _ _ Hp), bind_Ok. destruct (pprev b) as [q|] eqn:Eq.
  - destruct (lk_prev σ Hl p b q Hp Eq) as (c & Hc & Ec). destruct (IH q c Hc ltac:(lia) ltac:(lia)) as (r & -> & Hr).
    exists r. split; [done|].
    assert (∀ h, h ≤ nHeight c → ancestor σ p h = ancestor σ q h) as Hlow.
    { intros h Hh. apply (ancestor_prev σ Hl p b q h Hp Eq). lia. }
    assert (∀ h, nHeight c < h ≤ nHeight b → ancestor σ T h ≠ ancestor σ p h) as Htop.
    { intros h Hh. assert (h = nHeight b) as -> by lia. congruence. }
    destruct r as [d|]; simpl in Hr |- *.
    + destruct Hr as (h & Hh & H1 & H2 & Hmax). exists h. rewrite Hlow by lia. split_and!; [lia|done..|].
      intros h' Hh'. destruct (decide (h' ≤ nHeight c)); [rewrite Hlow by lia; apply Hmax; lia|apply Htop; lia].
    + intros h' Hh'. destruct (decide (h' ≤ nHeight c)); [rewrite Hlow by lia; apply Hr; lia|apply Htop; lia].
  - pose proof (lk_genesis σ Hl p b Hp Eq). exists None. split; [by destruct fuel|].
    intros h' Hh'. assert (h' = nHeight b) as -> by lia. congruence.
Qed.

Lemma Height_chain : Height v = nHeight t.
Proof.
  destruct Hv as (t' & HT' & Hlen & _). rewrite HT in HT'. injection HT' as <-.
  pose proof (lk_height σ Hl T t HT). unfold Height. rewrite Hlen.
  destruct (Z.eqb_spec (nHeight t + 1) 0); [lia|]. destruct (Z.ltb_spec (2 ^ 31 - 1) (nHeight t + 1 - 1)); lia.
Qed.

(** The highest block of the active chain that is an ancestor of [p]. *)
Lemma FindFork_ok p b :
  σ !! p = Some b →
  ∃ r, FindFork σ v (Some p) = Ok r ∧ is_fork_point σ T p (Z.min (nHeight t) (nHeight b)) r.
Proof.
  intros Hp. pose proof (lk_height σ Hl p b Hp). pose proof (lk_height σ Hl T t HT). unfold FindFork.
  rewrite (deref_Ok _ _ _ Hp), bind_Ok, Height_chain.
  destruct (Z.ltb_spec (nHeight t) (nHeight b)).
  - rewrite (GetAncestor_ok σ Hl p b) by done. destruct (ancestor_some σ Hl p b (nHeight t) Hp ltac:(lia)) as (q & c & Eq & Hc & Ec).
    rewrite Eq, bind_Ok. destruct (find_fork_walk_ok (S (Z.to_nat (nHeight b))) q c Hc ltac:(lia) ltac:(lia)) as (r & -> & Hr).
    exists r. split; [done|]. replace (Z.min (nHeight t) (nHeight b)) with (nHeight c) by lia.
    assert (∀ h, h ≤ nHeight c → ancestor σ p h = ancestor σ q h) as Hlow.
    { intros h Hh. symmetry. apply (ancestor_trans σ Hl p q (nHeight t) h Eq). lia. }
    destruct r as [d|]; simpl in Hr |- *.
    + destruct Hr as (h & Hh & H1' & H2' & Hmax). exists h. rewrite Hlow by lia. split_and!; [lia|done..|].
      intros h' Hh'. rewrite Hlow by lia. by apply Hmax.
    + intros h' Hh'. rewrite Hlow by lia. by apply Hr.
  - rewrite bind_Ok. replace (Z.min (nHeight t) (nHeight b)) with (nHeight b) by lia.
    apply find_fork_walk_ok; [done|lia..].
Qed.
End fork.

(** ** Locators *)

(** Ancestors of [p], highest first, ending at a genesis entry. *)
Inductive locator (σ : BlockMap) : list Z → list (list Z) → Prop :=
| locator_genesis p b : σ !! p = Some b → nHeight b = 0 → locator σ p [p]
| locator_step p b h q l :
    σ !! p = Some b → 0 ≤ h < nHeight b → ancestor σ p h = Some q → locator σ q l → locator σ p (p :: l).

Lemma locator_walk_ok σ fuel p b step have H0 :
  linked σ → σ !! p = Some b → nHeight b < Z.of_nat fuel → nHeight b ≤ H0 < 2 ^ 31 → 0 < step →
  (0 < nHeight b → step + nHeight b ≤ H0 + 1) →
  ∃ l, locator_walk fuel σ (Some p) step have = Ok (have ++ l) ∧ locator σ p l.
Proof.
  intros Hl. revert p b step have. induction fuel as [|fuel IH]; intros p b step have Hp Hf HH Hstep Hinv;
    pose proof (lk_height σ Hl p b Hp); [lia|].
  cbn [locator_walk]. rewrite (deref_Ok _ _ _ Hp), bind_Ok. destruct (Z.eqb_spec (nHeight b) 0) as [E|E].
  { exists [p]. split; [done|]. by apply locator_genesis with b. }
  rewrite (GetAncestor_ok σ Hl p b) by done. set (h := Z.max (s32 (nHeight b - step)) 0).
  assert (h = Z.max (nHeight b - step) 0) as Eh by (unfold h, s32; rewrite to_signed_small by lia; lia).
  destruct (ancestor_some σ Hl p b h Hp ltac:(lia)) as (q & c & Eq & Hc & Ec). rewrite Eq, bind_Ok.
  set (step' := if 10 <? zlen (have ++ [p]) then s32 (step * 2) else step).
  assert ((0 < nHeight c → 0 < step' ∧ step' + nHeight c ≤ H0 + 1)) as Hinv'.
  { intros Hpos. assert (s32 (step * 2) = step * 2) by (unfold s32; apply to_signed_small; lia). unfold step'.
    destruct (10 <? zlen (have ++ [p])); lia. }
  destruct (decide (nHeight c = 0)) as [E0|E0].
  - exists [p; q]. destruct fuel as [|fuel]; [lia|]. cbn [locator_walk].
    rewrite (deref_Ok _ _ _ Hc), bind_Ok, E0, Z.eqb_refl, <- app_assoc. split; [done|].
    apply locator_step with b h q; [done|lia|done|]. by apply locator_genesis with c.
  - destruct (Hinv' ltac:(lia)) as [Hs' Hi']. destruct (IH q c step' (have ++ [p]) Hc ltac:(lia) ltac:(lia) Hs' ltac:(auto)) as (l & -> & Hloc).
    exists (p :: l). rewrite <- app_assoc. split; [done|]. by apply locator_step with b h q; [|lia|..].
Qed.

Lemma LocatorEntries_ok σ p b :
  linked σ → σ !! p = Some b → ∃ l, LocatorEntries σ (Some p) = Ok l ∧ locator σ p l.
Proof.
  intros Hl Hp. pose proof (lk_height σ Hl p b Hp). unfold LocatorEntries. rewrite (deref_Ok _ _ _ Hp), bind_Ok.
  destruct (locator_walk_ok σ (S (Z.to_nat (nHeight b))) p b 1 [] (nHeight b) Hl Hp) as (l & E & Hloc); [lia..|]. eauto.
Qed.

(** Every entry of a locator is an ancestor of its first. *)
Lemma locator_ancestors σ p l : linked σ → locator σ p l → ∀ q, q ∈ l → ∃ h, ancestor σ p h = Some q.
Proof.
  intros Hl Hloc. induction Hloc as [p b Hp E|p b h q l Hp Hh Hq Hloc IH]; intros x Hx.
  - apply list_elem_of_singleton in Hx as ->. eexists. by apply (ancestor_self σ Hl p b).
  - apply elem_of_cons in Hx as [->|Hx]; [eexists; by apply (ancestor_self σ Hl p b)|].
    destruct (IH x Hx) as [k Hk]. exists k. destruct (decide (k ≤ h)); [by rewrite <- (ancestor_trans σ Hl p q h k Hq)|].
    exfalso. destruct (ancestor_lookup σ Hl p h q Hq) as (c & Hc & Ec). rewrite (ancestor_none_above σ q c k) in Hk by (done || lia). done.
Qed.

(** ** Properties *)

(** Looking an ancestor up through the skip list follows the same path
    as walking [pprev] one entry at a time, at every height, and building the
    skip pointer of a new entry keeps the index consistent. *)
Theorem get_ancestor_walks_pprev σ p b :
  linked σ → σ !! p = Some b →
  (∀ h, GetAncestor σ p h =
        Ok (if decide (0 ≤ h ≤ nHeight b) then back σ (Z.to_nat (nHeight b - h)) p else None)) ∧
  (pskip b = None → ∃ σ', BuildSkip σ p = Ok σ' ∧ linked σ').
Proof.
  intros Hl Hp. split.
  - intros h. rewrite (GetAncestor_ok σ Hl p b h Hp). unfold ancestor. rewrite Hp. reflexivity.
  - intros Hs. destruct (BuildSkip_ok σ p b Hl Hp Hs) as [E H]. eauto.
Qed.

Lemma back_present σ n p b q : linked σ → σ !! p = Some b → back σ n p = Some q → is_Some (σ !! q).
Proof.
  intros Hl. revert p b. induction n as [|n IH]; intros p b Hp Hb; cbn in Hb; [simplify_eq; eauto|].
  rewrite Hp in Hb. cbn in Hb. destruct (pprev b) as [r|] eqn:E; [|done]. destruct (lk_prev σ Hl p b r Hp E) as (c & Hc & _). by apply (IH r c).
Qed.

(** The median time past is total and never decreases from an ancestor
    to a descendant, when every block is later than its parent's median time
    past; it is the middle of the times it is taken from. *)
Theorem median_time_past_monotone σ n p b q :
  linked σ → times_follow_median σ → σ !! p = Some b → back σ n p = Some q →
  ∃ m m' w, GetMedianTimePast σ q = Ok m ∧ GetMedianTimePast σ p = Ok m' ∧ m ≤ m' ∧
    past_times σ nMedianTimeSpan (Some p) = Ok w ∧ m' ∈ w ∧
    (count_lt m' w ≤ length w / 2)%nat ∧ (length w / 2 < count_le m' w)%nat.
Proof.
  intros Hl Htf Hp Hb. destruct (back_present σ n p b q Hl Hp Hb) as [c Hc].
  destruct (GetMedianTimePast_total σ Hl q c Hc) as [m Em]. destruct (GetMedianTimePast_total σ Hl p b Hp) as [m' Em'].
  destruct (past_times_total σ Hl nMedianTimeSpan (Some p)) as [w Ew]; [by exists b|].
  exists m, m', w. split; [exact Em|]. split; [exact Em'|]. split; [exact (median_monotone σ Hl n p b q m m' Htf Hp Hb Em Em')|].
  split; [exact Ew|]. apply median_counts. unfold GetMedianTimePast in Em'. rewrite Ew, bind_Ok in Em'. exact Em'.
Qed.

(** The last common ancestor terminates on any two entries and returns
    their highest common ancestor, or nothing when their trees are disjoint;
    [FindFork] against the active chain returns the same for its tip. *)
Theorem last_common_ancestor_highest σ pa pb a b v :
  linked σ → σ !! pa = Some a → σ !! pb = Some b → chain_of σ v pa →
  (∃ r, LastCommonAncestor σ pa pb = Ok r ∧ is_fork_point σ pa pb (Z.min (nHeight a) (nHeight b)) r) ∧
  (∃ r, FindFork σ v (Some pb) = Ok r ∧ is_fork_point σ pa pb (Z.min (nHeight a) (nHeight b)) r).
Proof.
  intros Hl Ha Hb Hv. split; [exact (LastCommonAncestor_ok σ Hl pa pb a b Ha Hb)|].
  exact (FindFork_ok σ v pa a Hl Hv Ha pb b Hb).
Qed.

(** Setting the tip turns any well-formed active chain into the chain of
    the new tip: one entry per height, the ancestor of the tip at that height. *)
Theorem set_tip_rebuilds_chain σ v T b :
  linked σ → chain_ok σ v → σ !! T = Some b →
  ∃ v', SetTip σ v T = Ok v' ∧ zlen v' = nHeight b + 1 ∧ at_height v' (nHeight b) = Some T ∧
    ∀ i, 0 ≤ i ≤ nHeight b → at_height v' i = ancestor σ T i.
Proof.
  intros Hl Hv Hb. destruct (SetTip_ok σ Hl v T b Hv Hb) as (v' & E & Hch). exists v'. split; [exact E|].
  destruct Hch as (b' & Hb' & Hlen & Hat). assert (b' = b) as -> by congruence. split; [exact Hlen|].
  assert (∀ i, 0 ≤ i ≤ nHeight b → at_height v' i = ancestor σ T i) as Hall.
  { intros i Hi. unfold at_height. rewrite (proj2 (Z.ltb_ge i 0)), (proj2 (Z.leb_gt _ _)) by lia. by rewrite Hat. }
  pose proof (lk_height σ Hl T b Hb). split; [|exact Hall]. rewrite Hall by lia. by apply (ancestor_self σ Hl T b).
Qed.

(** Building a locator terminates; its entries are ancestors of the
    block, the block first and a genesis entry last, with strictly decreasing
    heights. *)
Theorem locator_descends σ p b :
  linked σ → σ !! p = Some b →
  ∃ l, LocatorEntries σ (Some p) = Ok l ∧ locator σ p l ∧ ∀ q, q ∈ l → ∃ h, ancestor σ p h = Some q.
Proof.
  intros Hl Hp. destruct (LocatorEntries_ok σ p b Hl Hp) as (l & E & Hloc). exists l. split; [exact E|]. split; [exact Hloc|].
  exact (locator_ancestors σ p l Hl Hloc).
Qed.
