(* ===== verification/ChainWork.v ===== *)
(** Chain work and header preference.

    The work accounting of [chain.cpp] and the insertion of a header into the
    block index ([BlockManager::AddToBlockIndex]): the proof of a block, the
    authenticated part of the accumulated work, the trust-adjusted work that
    ranks header chains, and the order it induces. *)

From Stdlib Require Import ZArith Lia.
From stdpp Require Import base list numbers gmap tactics.
From S2P Require Import Prelude ArithUint256 Compact Params BlockIndex Difficulty.
Import arith_uint256 Consensus block_index.

Open Scope Z_scope.

Module chain_work.

Definition BLOCK_VALID_TREE : Z := 2.
Definition BLOCK_VALID_TRANSACTIONS : Z := 3.
Definition BLOCK_VALID_MASK : Z := 7.
Definition BLOCK_HAVE_DATA : Z := 8.
Definition BLOCK_FAILED_MASK : Z := 96.
Definition BLOCK_EXACT_REPLAY_VERIFIED : Z := 256.
Definition BLOCK_TRUSTED_REPLAY_ATTESTED : Z := 512.

Definition TRUST_ADJUSTED_WORK_ALLOWANCE_BLOCKS : Z := 6.

Definition GetBlockProof (block : CBlockIndex) : result (list Z) :=
  let '(bnTarget, fNegative, fOverflow) := SetCompact (nBits block) in
  if fNegative || fOverflow || EqualTo bnTarget 0 then Ok (of_u64 WIDTH 0)
  else
    q ← div (bnot bnTarget) (add bnTarget (of_u64 WIDTH 1));
    Ok (add q (of_u64 WIDTH 1)).

Definition IsBlockAuthenticated (σ : BlockMap) (block : CBlockIndex) (params : Params) : result bool :=
  if negb (IsMatMulV4Active params (nHeight block)) then Ok true
  else if negb (Z.land (nStatus block) BLOCK_FAILED_MASK =? 0) then Ok false
  else if Z.land (nStatus block) BLOCK_VALID_MASK <? BLOCK_VALID_TRANSACTIONS then Ok false
  else if IsMatMulTrustedReplayAttestationActive params (nHeight block) &&
          (Z.land (nStatus block) (Z.lor BLOCK_EXACT_REPLAY_VERIFIED BLOCK_TRUSTED_REPLAY_ATTESTED) =? 0)
  then Ok false
  else match pprev block with
       | None => Ok true
       | Some q => prev ← deref σ q; Ok (bool_decide (nAuthenticatedChainWork prev = nChainWork prev))
       end.

Definition GetBlockAuthenticatedProof (σ : BlockMap) (block : CBlockIndex) (params : Params) : result (list Z) :=
  auth ← IsBlockAuthenticated σ block params;
  if (auth : bool) then GetBlockProof block else Ok (zero WIDTH).

Definition set_auth (b : CBlockIndex) (w : list Z) : CBlockIndex :=
  mkIndex (pprev b) (pskip b) (nHeight b) (nChainWork b) w (nStatus b) (nTime b) (nBits b)
    (nTimeMax b) (nMatMulClampedAsertCreditKey b) (nMatMulClampedAsertCredit b).

Definition UpdateAuthenticatedChainWork (σ : BlockMap) (p : list Z) (params : Params) : result BlockMap :=
  b ← deref σ p;
  base ← (match pprev b with
          | Some q => prev ← deref σ q; Ok (nAuthenticatedChainWork prev)
          | None => Ok (zero WIDTH)
          end);
  proof ← GetBlockAuthenticatedProof σ b params;
  Ok (<[p := set_auth b (add base proof)]> σ).

Definition std_min (a b : list Z) : list Z := if ltb b a then b else a.

Definition unauthenticated (block : CBlockIndex) : list Z :=
  sub (nChainWork block) (std_min (nChainWork block) (nAuthenticatedChainWork block)).

Definition GetTrustAdjustedChainWork (block : CBlockIndex) (unauth_allowance_blocks : Z) : result (list Z) :=
  let unauth := unauthenticated block in
  proof ← GetBlockProof block;
  let allowance := mul32 proof unauth_allowance_blocks in
  Ok (add (nAuthenticatedChainWork block) (std_min unauth allowance)).

(** [base_blob] order: [memcmp]. *)
Fixpoint blob_lt (a b : list Z) : bool :=
  match a, b with
  | x :: a, y :: b => if x =? y then blob_lt a b else x <? y
  | _, _ => false
  end.

Definition PreferTrustAdjustedHeader (σ : BlockMap) (current candidate : list Z) (unauth_allowance_blocks : Z) : result bool :=
  cur ← deref σ current;
  cand ← deref σ candidate;
  current_adjusted ← GetTrustAdjustedChainWork cur unauth_allowance_blocks;
  candidate_adjusted ← GetTrustAdjustedChainWork cand unauth_allowance_blocks;
  if negb (bool_decide (current_adjusted = candidate_adjusted)) then Ok (ltb current_adjusted candidate_adjusted)
  else
    let current_has_unauth := ltb (nAuthenticatedChainWork cur) (nChainWork cur) in
    let candidate_has_unauth := ltb (nAuthenticatedChainWork cand) (nChainWork cand) in
    if negb current_has_unauth && negb candidate_has_unauth then Ok false
    else if negb (bool_decide (nAuthenticatedChainWork cur = nAuthenticatedChainWork cand))
    then Ok (ltb (nAuthenticatedChainWork cur) (nAuthenticatedChainWork cand))
    else
      let current_unauth := unauthenticated cur in
      let candidate_unauth := unauthenticated cand in
      if negb (bool_decide (current_unauth = candidate_unauth)) then Ok (ltb candidate_unauth current_unauth)
      else if negb (nHeight cur =? nHeight cand) then Ok (nHeight cand <? nHeight cur)
      else Ok (blob_lt candidate current).

(** ** Inserting a header *)
Record BlockManager := mkManager {
  m_block_index : BlockMap;
  m_block_children : gmap (list Z) (list (list Z));
  m_dirty_blockindex : gset (list Z);
  best_header : option (list Z);
}.

(** The header fields the index keeps; [h_hash] is [GetHash()]. *)
Record Header := mkHeader { h_hash : list Z; h_prev : list Z; h_time : Z; h_bits : Z }.

Definition NextBlockHeightOrLimit (current_height : Z) : Z :=
  if current_height =? INT32_MAX then INT32_MAX else current_height + 1.

Definition RaiseValidity (b : CBlockIndex) (nUpTo : Z) : result CBlockIndex :=
  _ ← assert_ (Z.land nUpTo (Z.lnot BLOCK_VALID_MASK) =? 0);
  if negb (Z.land (nStatus b) BLOCK_FAILED_MASK =? 0) then Ok b
  else if Z.land (nStatus b) BLOCK_VALID_MASK <? nUpTo then
    Ok (mkIndex (pprev b) (pskip b) (nHeight b) (nChainWork b) (nAuthenticatedChainWork b)
          (Z.lor (Z.land (nStatus b) (Z.lnot BLOCK_VALID_MASK)) nUpTo) (nTime b) (nBits b) (nTimeMax b)
          (nMatMulClampedAsertCreditKey b) (nMatMulClampedAsertCredit b))
  else Ok b.

(** The entry a header constructs, before it is linked. *)
Definition CBlockIndex_of (block : Header) : CBlockIndex :=
  mkIndex None None 0 (zero WIDTH) (zero WIDTH) 0 (h_time block) (h_bits block) 0 0 0.

Definition link (σ : BlockMap) (pnew : list Z) (q : list Z) (prev b : CBlockIndex) : result BlockMap :=
  let b := mkIndex (Some q) (pskip b) (NextBlockHeightOrLimit (nHeight prev)) (nChainWork b) (nAuthenticatedChainWork b)
             (nStatus b) (nTime b) (nBits b) (nTimeMax b) (nMatMulClampedAsertCreditKey b) (nMatMulClampedAsertCredit b) in
  BuildSkip (<[pnew := b]> σ) pnew.

Definition set_work (σ : BlockMap) (pnew : list Z) : result BlockMap :=
  b ← deref σ pnew;
  proof ← GetBlockProof b;
  '(tmax, work) ← (match pprev b with
                   | Some q => prev ← deref σ q; Ok (Z.max (nTimeMax prev) (nTime b), add (nChainWork prev) proof)
                   | None => Ok (nTime b, add (of_u64 WIDTH 0) proof)
                   end);
  Ok (<[pnew := mkIndex (pprev b) (pskip b) (nHeight b) work (nAuthenticatedChainWork b) (nStatus b) (nTime b) (nBits b)
                  tmax (nMatMulClampedAsertCreditKey b) (nMatMulClampedAsertCredit b)]> σ).

Definition AddToBlockIndex (m : BlockManager) (params : Params) (block : Header) : result BlockManager :=
  let pnew := h_hash block in
  match m_block_index m !! pnew with
  | Some _ => Ok m
  | None =>
      let b := CBlockIndex_of block in
      let σ := <[pnew := b]> (m_block_index m) in
      '(σ, children) ← (match σ !! h_prev block with
                        | Some prev =>
                            let q := h_prev block in
                            let kids := default [] (m_block_children m !! q) in
                            σ ← link σ pnew q prev b; Ok (σ, <[q := kids ++ [pnew]]> (m_block_children m))
                        | None => Ok (σ, m_block_children m)
                        end);
      σ ← set_work σ pnew;
      σ ← UpdateAuthenticatedChainWork σ pnew params;
      b ← deref σ pnew;
      b ← RaiseValidity b BLOCK_VALID_TREE;
      let σ := <[pnew := b]> σ in
      best ← (match best_header m with
              | None => Ok (Some pnew)
              | Some h =>
                  better ← PreferTrustAdjustedHeader σ h pnew TRUST_ADJUSTED_WORK_ALLOWANCE_BLOCKS;
                  Ok (if (better : bool) then Some pnew else Some h)
              end);
      Ok (mkManager σ children ({[pnew]} ∪ m_dirty_blockindex m) best)
  end.

(** ** Propagating a promotion to descendants

    [for_each_child] is the adjacency the block manager keeps; [on_updated] is
    a notification. *)
Fixpoint update_children (σ : BlockMap) (params : Params) (kids : list (list Z)) : result BlockMap :=
  match kids with
  | [] => Ok σ
  | c :: kids => σ ← UpdateAuthenticatedChainWork σ c params; update_children σ params kids
  end.

Fixpoint propagate (fuel : nat) (σ : BlockMap) (params : Params) (children : list Z → list (list Z)) (queue : list (list Z))
    : result BlockMap :=
  match queue with
  | [] => Ok σ
  | parent :: queue =>
      match fuel with
      | O => Err EFuel
      | S fuel =>
          σ ← update_children σ params (children parent);
          propagate fuel σ params children (queue ++ children parent)
      end
  end.

Definition PropagateAuthenticatedChainWorkDescendants (σ : BlockMap) (root : list Z) (params : Params)
    (children : list Z → list (list Z)) : result BlockMap :=
  propagate (size σ) σ params children [root].

End chain_work.
Import chain_work.

(** ** The proof of a block *)
Definition block_work (bits : Z) : Z :=
  if decide (bits_valid bits MAX) then 2 ^ 256 / (compact_value bits + 1) else 0.

Lemma compact_value_room c : compact_value c < 2 ^ 256 → compact_value c + 1 < 2 ^ 256.
Proof.
  unfold compact_value. pose proof (Z.mod_pos_bound c (2 ^ 23) ltac:(lia)) as Hm. unfold compact_mantissa.
  destruct (decide (compact_size c ≤ 3)) as [Hs|Hs]; intros Hlt.
  - assert (c mod 2 ^ 23 / 2 ^ (8 * (3 - compact_size c)) ≤ c mod 2 ^ 23); [|lia].
    pose proof (pow2_pos (8 * (3 - compact_size c)) ltac:(lia)). apply Z.div_le_upper_bound; [lia|]. nia.
  - replace (8 * (compact_size c - 3)) with (8 + (8 * (compact_size c - 4))) in * by lia.
    rewrite pow2_split in * by lia. replace (2 ^ 256) with (2 ^ 8 * 2 ^ 248) in * by lia. nia.
Qed.

Lemma block_work_bounds bits : 0 ≤ block_work bits ≤ 2 ^ 255.
Proof.
  unfold block_work. destruct (decide _) as [[_ Hv]|]; [|lia].
  split; [apply Z.div_pos; lia|]. apply Z.div_le_upper_bound; lia.
Qed.

Lemma block_work_pos bits : bits_valid bits MAX → 0 < block_work bits.
Proof.
  intros Hv. unfold block_work. rewrite decide_True by done. destruct Hv as [_ Hv]. unfold MAX in Hv. apply Z.div_str_pos. lia.
Qed.

Lemma inverse_work t : 0 < t < 2 ^ 256 → (2 ^ 256 - 1 - t) / (t + 1) + 1 = 2 ^ 256 / (t + 1).
Proof.
  intros Ht. replace (2 ^ 256) with ((2 ^ 256 - 1 - t) + 1 * (t + 1)) at 2 by lia. rewrite Z.div_add by lia. lia.
Qed.

Lemma GetBlockProof_ok b : 0 ≤ nBits b < 2 ^ 32 → denotes (GetBlockProof b) (block_work (nBits b)).
Proof.
  intros Hb. unfold GetBlockProof, block_work. destruct (SetCompact_ok (nBits b) Hb) as (v & -> & Hv & Ev).
  destruct (of_u64_ok 0 ltac:(lia)) as [H0 E0]. destruct (of_u64_ok 1 ltac:(lia)) as [H1 E1].
  rewrite EqualTo_val by (done || lia).
  destruct (decide (bits_valid (nBits b) MAX)) as [Hval|Hval].
  - destruct Hval as [Hneg Hval]. unfold MAX in Hval. rewrite Hneg. rewrite bool_decide_false by lia. cbn [orb].
    rewrite Z.mod_small in Ev by lia. rewrite Ev. rewrite (proj2 (Z.eqb_neq _ _)) by lia.
    pose proof (compact_value_room (nBits b) ltac:(lia)) as Hroom.
    destruct (bnot_arith v Hv) as [Hn En]. destruct (add_arith v _ Hv H1) as [Ha Ea]. rewrite Ev, E1, Z.mod_small in Ea by lia.
    destruct (div_arith _ _ Hn Ha) as (q & -> & Hq & Eq); [lia|]. rewrite bind_Ok. rewrite En, Ea, Ev in Eq.
    destruct (add_arith q _ Hq H1) as [Hs Es]. eexists. split; [done|]. split; [done|]. rewrite Es, E1, Eq, inverse_work by lia.
    apply Z.mod_small. split; [apply Z.div_pos; lia|]. apply Z.div_lt_upper_bound; lia.
  - assert (compact_negative (nBits b) || bool_decide (2 ^ 256 ≤ compact_value (nBits b)) || (val v =? 0) = true) as ->.
    { destruct (compact_negative (nBits b)) eqn:En; [done|]. cbn [orb].
      destruct (decide (2 ^ 256 ≤ compact_value (nBits b))); [by rewrite bool_decide_true|]. rewrite bool_decide_false by done.
      cbn [orb]. apply Z.eqb_eq. pose proof (is_arith_bound v Hv). destruct (decide (val v = 0)) as [|Hne]; [done|].
      exfalso. apply Hval. split; [done|]. unfold MAX. destruct (decide (0 < compact_value (nBits b))); [lia|].
      assert (compact_value (nBits b) = 0) as E; [|rewrite E, Z.mod_0_l in Ev by lia; lia].
      pose proof (compact_value_nonneg (nBits b)). lia. }
    eexists. split; [done|]. done.
Qed.

(** ** Typed entries *)
Record typed (b : CBlockIndex) : Prop := mkTyped {
  ty_work : is_arith (nChainWork b);
  ty_auth : is_arith (nAuthenticatedChainWork b);
  ty_bits : 0 ≤ nBits b < 2 ^ 32;
}.

Definition base_work (σ : BlockMap) (b : CBlockIndex) : Z :=
  match pprev b with Some q => match σ !! q with Some c => val (nChainWork c) | None => 0 end | None => 0 end.
Definition base_auth (σ : BlockMap) (b : CBlockIndex) : Z :=
  match pprev b with Some q => match σ !! q with Some c => val (nAuthenticatedChainWork c) | None => 0 end | None => 0 end.

(** The accumulated works follow their recurrences along [pprev]. *)
Record tree_ok (params : Params) (σ : BlockMap) : Prop := mkTree {
  tr_linked : linked σ;
  tr_typed p b : σ !! p = Some b → typed b;
  tr_work p b : σ !! p = Some b → val (nChainWork b) = base_work σ b + block_work (nBits b);
  tr_auth p b : σ !! p = Some b → ∃ a, IsBlockAuthenticated σ b params = Ok a ∧
    val (nAuthenticatedChainWork b) = base_auth σ b + if (a : bool) then block_work (nBits b) else 0;
}.

Section tree.
Context (params : Params) (σ : BlockMap).
Hypothesis Ht : tree_ok params σ.

(** Authenticated work never exceeds claimed work. *)
Lemma auth_le_work p b : σ !! p = Some b → 0 ≤ val (nAuthenticatedChainWork b) ≤ val (nChainWork b).
Proof.
  intros Hp. split; [apply is_arith_bound, (tr_typed _ _ Ht p b Hp)|].
  remember (Z.to_nat (nHeight b)) as n eqn:En. revert p b Hp En. induction n as [n IH] using lt_wf_ind. intros p b Hp ->.
  rewrite (tr_work _ _ Ht p b Hp). destruct (tr_auth _ _ Ht p b Hp) as (a & _ & ->).
  pose proof (block_work_bounds (nBits b)). assert (base_auth σ b ≤ base_work σ b); [|destruct a; lia].
  unfold base_auth, base_work. destruct (pprev b) as [q|] eqn:Eq; [|done].
  destruct (lk_prev σ (tr_linked _ _ Ht) p b q Hp Eq) as (c & Hc & Ec). rewrite Hc.
  pose proof (lk_height σ (tr_linked _ _ Ht) q c Hc). apply (IH (Z.to_nat (nHeight c)) ltac:(lia) q c Hc eq_refl).
Qed.

Lemma V4_upward h h' : IsMatMulV4Active params h = true → h ≤ h' → IsMatMulV4Active params h' = true.
Proof. unfold IsMatMulV4Active. intros H Hle. rewrite !andb_true_iff in H |- *. lia. Qed.

(** No work is authenticated past an unauthenticated block. *)
Lemma unauthenticated_suffix n p b d c :
  σ !! p = Some b → σ !! d = Some c → back σ n d = Some p →
  IsMatMulV4Active params (nHeight b) = true → val (nAuthenticatedChainWork b) < val (nChainWork b) →
  val (nAuthenticatedChainWork c) = val (nAuthenticatedChainWork b) ∧ val (nAuthenticatedChainWork c) < val (nChainWork c).
Proof.
  intros Hp. revert d c. induction n as [|n IH]; intros d c Hd Hback Hv4 Hlt; [simplify_eq/=; by simplify_eq|].
  simpl in Hback. rewrite Hd in Hback. simpl in Hback. destruct (pprev c) as [q|] eqn:Eq; [|done]. simpl in Hback.
  destruct (lk_prev σ (tr_linked _ _ Ht) d c q Hd Eq) as (e & He & Eh).
  destruct (IH q e He Hback Hv4 Hlt) as [IH1 IH2].
  assert (nHeight b ≤ nHeight c) as Hle.
  { clear -Hback He Hp Ht Eh. revert q e He Hback Eh. revert c. induction n as [|n IHn]; intros c q e He Hback Eh.
    - simplify_eq/=. simplify_eq. lia.
    - simpl in Hback. rewrite He in Hback. simpl in Hback. destruct (pprev e) as [r|] eqn:Er; [|done]. simpl in Hback.
      destruct (lk_prev σ (tr_linked _ _ Ht) q e r He Er) as (f & Hf & Ef). pose proof (IHn e r f Hf Hback Ef). lia. }
  destruct (tr_auth _ _ Ht d c Hd) as (a & Ea & Eauth). pose proof (tr_work _ _ Ht d c Hd) as Ework.
  assert (a = false) as ->.
  { unfold IsBlockAuthenticated in Ea. rewrite (V4_upward _ (nHeight c) Hv4 Hle) in Ea. cbn [negb] in Ea.
    destruct (negb (_ =? 0)); [congruence|]. destruct (_ <? _); [congruence|]. destruct (_ && _); [congruence|].
    rewrite Eq, (deref_Ok _ _ _ He), bind_Ok in Ea. injection Ea as <-. apply bool_decide_false. intros E. rewrite E in IH2. lia. }
  unfold base_auth, base_work in *. rewrite Eq, He in *. pose proof (block_work_bounds (nBits c)). lia.
Qed.
End tree.

(** ** Trust-adjusted work *)
Definition unauth_work (b : CBlockIndex) : Z := val (nChainWork b) - val (nAuthenticatedChainWork b).

Definition adjusted_work (b : CBlockIndex) (allow : Z) : Z :=
  val (nAuthenticatedChainWork b) + Z.min (unauth_work b) (block_work (nBits b) * allow).

Definition work_sound (b : CBlockIndex) : Prop :=
  typed b ∧ val (nAuthenticatedChainWork b) ≤ val (nChainWork b).

Lemma std_min_ok a b : is_arith a → is_arith b → is_arith (std_min a b) ∧ val (std_min a b) = Z.min (val a) (val b).
Proof. intros Ha Hb. unfold std_min. rewrite ltb_arith by done. destruct (Z.ltb_spec (val b) (val a)); (split; [done|lia]). Qed.

Lemma unauthenticated_ok b : work_sound b → is_arith (unauthenticated b) ∧ val (unauthenticated b) = unauth_work b.
Proof.
  intros [[Hw Ha Hb] Hle]. destruct (std_min_ok _ _ Hw Ha) as [Hm Em]. unfold unauthenticated, unauth_work.
  destruct (sub_arith _ _ Hw Hm) as [Hs Es]. split; [done|]. rewrite Es, Em.
  pose proof (is_arith_bound _ Hw). pose proof (is_arith_bound _ Ha). rewrite Z.mod_small by lia. lia.
Qed.

(** The allowance product stays below [2^256]. *)
Definition allowance_fits (b : CBlockIndex) (allow : Z) : Prop :=
  0 ≤ allow < 2 ^ 32 ∧ block_work (nBits b) * allow < 2 ^ 256.

Lemma GetTrustAdjustedChainWork_ok b allow :
  work_sound b → allowance_fits b allow → denotes (GetTrustAdjustedChainWork b allow) (adjusted_work b allow).
Proof.
  intros Hb [Hal Hfit]. destruct (unauthenticated_ok b Hb) as [Hu Eu]. destruct Hb as [[Hw Ha Hbits] Hle].
  unfold GetTrustAdjustedChainWork. destruct (GetBlockProof_ok b Hbits) as (pr & -> & Hpr & Epr). rewrite bind_Ok.
  pose proof (block_work_bounds (nBits b)). destruct (mul32_arith pr allow Hpr Hal) as [Hm Em]. rewrite Epr, Z.mod_small in Em by nia.
  destruct (std_min_ok _ _ Hu Hm) as [Hmin Emin]. destruct (add_arith _ _ Ha Hmin) as [Hs Es].
  eexists. split; [done|]. split; [done|]. rewrite Es, Emin, Eu, Em. unfold adjusted_work, unauth_work in *.
  pose proof (is_arith_bound _ Hw). pose proof (is_arith_bound _ Ha).
  assert (0 ≤ block_work (nBits b) * allow) by nia. apply Z.mod_small. lia.
Qed.

(** Ranked between the authenticated and the claimed work, and within the
    allowance of the former. *)
Lemma adjusted_work_bounds b allow :
  work_sound b → 0 ≤ allow →
  val (nAuthenticatedChainWork b) ≤ adjusted_work b allow ≤ val (nChainWork b) ∧
  adjusted_work b allow ≤ val (nAuthenticatedChainWork b) + block_work (nBits b) * allow.
Proof.
  intros [_ Hle] Hal. unfold adjusted_work, unauth_work. pose proof (block_work_bounds (nBits b)).
  assert (0 ≤ block_work (nBits b) * allow) by nia. lia.
Qed.

(** ** The preference order *)
Definition blob_less (a b : list Z) : Prop := blob_lt a b = true.

Lemma blob_lt_irrefl a : blob_lt a a = false.
Proof. induction a as [|x a IH]; [done|]. simpl. by rewrite Z.eqb_refl. Qed.

Lemma blob_lt_trans a b c : blob_less a b → blob_less b c → blob_less a c.
Proof.
  unfold blob_less. revert b c. induction a as [|x a IH]; intros [|y b] [|z c]; simpl; try done.
  destruct (Z.eqb_spec x y), (Z.eqb_spec y z), (Z.eqb_spec x z); subst; try lia; [apply IH|..]; intros; lia.
Qed.

Lemma blob_lt_total a b : length a = length b → blob_less a b ∨ a = b ∨ blob_less b a.
Proof.
  unfold blob_less. revert b. induction a as [|x a IH]; intros [|y b] Hlen; simplify_eq/=; [auto|].
  rewrite (Z.eqb_sym y x). destruct (Z.eqb_spec x y) as [->|]; [destruct (IH b Hlen) as [|[->|]]; auto|].
  destruct (Z.ltb_spec x y); [auto|]. right. right. apply Z.ltb_lt. lia.
Qed.

(** The header [y] with entry [b] outranks [x] with entry [a]. *)
Definition outranks (allow : Z) (x : list Z) (a : CBlockIndex) (y : list Z) (b : CBlockIndex) : Prop :=
  adjusted_work a allow < adjusted_work b allow ∨
  adjusted_work a allow = adjusted_work b allow ∧ (0 < unauth_work a ∨ 0 < unauth_work b) ∧
  (val (nAuthenticatedChainWork a) < val (nAuthenticatedChainWork b) ∨
   val (nAuthenticatedChainWork a) = val (nAuthenticatedChainWork b) ∧
   (unauth_work b < unauth_work a ∨
    unauth_work a = unauth_work b ∧
    (nHeight b < nHeight a ∨ nHeight a = nHeight b ∧ blob_less y x))).

(** [prefers x y]: the header [y] replaces [x]. *)
Definition prefers (σ : BlockMap) (allow : Z) (x y : list Z) : Prop :=
  match σ !! x, σ !! y with
  | Some a, Some b => outranks allow x a y b
  | _, _ => False
  end.

#[export] Instance prefers_dec σ allow x y : Decision (prefers σ allow x y).
Proof. unfold prefers, outranks, blob_less. destruct (σ !! x), (σ !! y); apply _. Defined.

Lemma arith_neq_val a b : is_arith a → is_arith b → negb (bool_decide (a = b)) = negb (val a =? val b).
Proof.
  intros Ha Hb. f_equal. destruct (Z.eqb_spec (val a) (val b)) as [E|E].
  - apply bool_decide_true. by apply is_arith_inj.
  - apply bool_decide_false. congruence.
Qed.

Definition rankable (σ : BlockMap) (allow : Z) : Prop :=
  ∀ p b, σ !! p = Some b → work_sound b ∧ allowance_fits b allow ∧ length p = 32%nat.

Lemma PreferTrustAdjustedHeader_ok σ allow x y a b :
  rankable σ allow → σ !! x = Some a → σ !! y = Some b →
  PreferTrustAdjustedHeader σ x y allow = Ok (bool_decide (prefers σ allow x y)).
Proof.
  intros Hr Hx Hy. unfold PreferTrustAdjustedHeader. rewrite (deref_Ok _ _ _ Hx), bind_Ok, (deref_Ok _ _ _ Hy), bind_Ok.
  destruct (Hr x a Hx) as (Ha & Hfa & _). destruct (Hr y b Hy) as (Hb & Hfb & _).
  destruct (GetTrustAdjustedChainWork_ok a allow Ha Hfa) as (wa & -> & Hwa & Ewa). rewrite bind_Ok.
  destruct (GetTrustAdjustedChainWork_ok b allow Hb Hfb) as (wb & -> & Hwb & Ewb). rewrite bind_Ok.
  destruct (unauthenticated_ok a Ha) as [Hua Eua]. destruct (unauthenticated_ok b Hb) as [Hub Eub].
  destruct Ha as [[Hca Haa _] Hlea]. destruct Hb as [[Hcb Hab _] Hleb].
  rewrite !arith_neq_val, !ltb_arith by done. rewrite Ewa, Ewb, Eua, Eub.
  assert (prefers σ allow x y ↔ outranks allow x a y b) as Hpr by (unfold prefers; by rewrite Hx, Hy).
  assert (∀ P : bool, (P = true ↔ outranks allow x a y b) → Ok P = Ok (bool_decide (prefers σ allow x y))) as Hdec.
  { intros P HP. f_equal. destruct P; symmetry; [apply bool_decide_true; tauto|apply bool_decide_false; intros H%Hpr%HP; done]. }
  clear Hpr. unfold outranks, blob_less, unauth_work in Hdec |- *.
  set (A := val (nAuthenticatedChainWork a)) in *. set (B := val (nAuthenticatedChainWork b)) in *.
  set (C := val (nChainWork a)) in *. set (D := val (nChainWork b)) in *.
  destruct (Z.eqb_spec (adjusted_work a allow) (adjusted_work b allow)) as [E|E]; cbn [negb]; [|apply Hdec; rewrite Z.ltb_lt; lia].
  destruct (Z.ltb_spec A C), (Z.ltb_spec B D); cbn [negb andb]; [| | |apply Hdec; lia].
  all: destruct (Z.eqb_spec A B); cbn [negb]; [|apply Hdec; rewrite Z.ltb_lt; lia].
  all: destruct (Z.eqb_spec (C - A) (D - B)); cbn [negb]; [|apply Hdec; rewrite Z.ltb_lt; lia].
  all: destruct (Z.eqb_spec (nHeight a) (nHeight b)); cbn [negb]; [|apply Hdec; rewrite Z.ltb_lt; lia].
  all: apply Hdec; split; intros; intuition lia.
Qed.

Section order.
Context (σ : BlockMap) (allow : Z).
Hypothesis Hr : rankable σ allow.

Lemma prefers_irrefl x : ¬ prefers σ allow x x.
Proof. unfold prefers, outranks, blob_less. destruct (σ !! x); [|tauto]. rewrite blob_lt_irrefl. intuition (lia || done). Qed.

Lemma adjusted_full b : adjusted_work b allow = val (nAuthenticatedChainWork b) + Z.min (unauth_work b) (block_work (nBits b) * allow).
Proof. done. Qed.

Lemma prefers_trans x y z : prefers σ allow x y → prefers σ allow y z → prefers σ allow x z.
Proof.
  unfold prefers, outranks. destruct (σ !! x) as [a|] eqn:Hx, (σ !! y) as [b|] eqn:Hy, (σ !! z) as [c|] eqn:Hz; try tauto.
  pose proof (blob_lt_trans z y x) as Hbt. unfold blob_less in *.
  destruct (Hr _ _ Hx) as ([_ Hla] & [Hal _] & _). destruct (Hr _ _ Hy) as ([_ Hlb] & _ & _). destruct (Hr _ _ Hz) as ([_ Hlc] & _ & _).
  pose proof (adjusted_full a). pose proof (adjusted_full b). pose proof (adjusted_full c).
  assert (0 ≤ unauth_work a ∧ 0 ≤ unauth_work b ∧ 0 ≤ unauth_work c) as (? & ? & ?) by (unfold unauth_work; lia).
  assert (0 ≤ block_work (nBits a) * allow ∧ 0 ≤ block_work (nBits b) * allow ∧ 0 ≤ block_work (nBits c) * allow) as (? & ? & ?).
  { pose proof (block_work_bounds (nBits a)). pose proof (block_work_bounds (nBits b)). pose proof (block_work_bounds (nBits c)). nia. }
  clear Hx Hy Hz Hla Hlb Hlc. destruct (blob_lt z y), (blob_lt y x), (blob_lt z x);
    try (exfalso; discriminate (Hbt eq_refl eq_refl)); clear Hbt; lia.
Qed.

Lemma prefers_split x y z : prefers σ allow x z → is_Some (σ !! y) → prefers σ allow x y ∨ prefers σ allow y z.
Proof.
  intros Hxz [b Hy]. revert Hxz. unfold prefers, outranks. rewrite Hy. destruct (σ !! x) as [a|] eqn:Hx, (σ !! z) as [c|] eqn:Hz; try tauto.
  destruct (Hr _ _ Hx) as ([_ Hla] & [Hal _] & Hlx). destruct (Hr _ _ Hy) as ([_ Hlb] & _ & Hly). destruct (Hr _ _ Hz) as ([_ Hlc] & _ & Hlz).
  assert (blob_less z x → blob_less y x ∨ blob_less z y) as Hbt.
  { intros Hzx. destruct (blob_lt_total y x ltac:(congruence)) as [|[->|]]; [auto..|]. right. by eapply blob_lt_trans. }
  unfold blob_less in *.
  pose proof (adjusted_full a). pose proof (adjusted_full b). pose proof (adjusted_full c).
  assert (0 ≤ unauth_work a ∧ 0 ≤ unauth_work b ∧ 0 ≤ unauth_work c) as (? & ? & ?) by (unfold unauth_work; lia).
  assert (0 ≤ block_work (nBits a) * allow ∧ 0 ≤ block_work (nBits b) * allow ∧ 0 ≤ block_work (nBits c) * allow) as (? & ? & ?).
  { pose proof (block_work_bounds (nBits a)). pose proof (block_work_bounds (nBits b)). pose proof (block_work_bounds (nBits c)). nia. }
  clear Hx Hy Hz Hla Hlb Hlc. destruct (blob_lt z y), (blob_lt y x), (blob_lt z x);
    try (exfalso; destruct Hbt; [done|discriminate|discriminate]); clear Hbt; lia.
Qed.
End order.

(** ** Inserting a header *)
Lemma deref_insert σ p b : deref (<[p := b]> σ) p = Ok b.
Proof. unfold deref. by rewrite lookup_insert_eq. Qed.

Lemma deref_insert_ne σ p q b : p ≠ q → deref (<[p := b]> σ) q = deref σ q.
Proof. intros. unfold deref. by rewrite lookup_insert_ne. Qed.

(** A computation that returns. *)
Definition returns {A} (m : result A) : Prop := ∃ r, m = Ok r.

Lemma adjusted_returns b allow : typed b → returns (GetTrustAdjustedChainWork b allow).
Proof.
  intros [_ _ Hb]. unfold GetTrustAdjustedChainWork. destruct (GetBlockProof_ok b Hb) as (pr & -> & _). rewrite bind_Ok. by eexists.
Qed.

Lemma prefer_returns σ allow x y a b :
  σ !! x = Some a → σ !! y = Some b → typed a → typed b → returns (PreferTrustAdjustedHeader σ x y allow).
Proof.
  intros Hx Hy Ha Hb. unfold PreferTrustAdjustedHeader. rewrite (deref_Ok _ _ _ Hx), bind_Ok, (deref_Ok _ _ _ Hy), bind_Ok.
  destruct (adjusted_returns a allow Ha) as [wa ->]. rewrite bind_Ok. destruct (adjusted_returns b allow Hb) as [wb ->].
  rewrite bind_Ok. repeat case_match; by eexists.
Qed.

(** The parent of a new entry, seen from the old map. *)
Definition parent_of (σ : BlockMap) (b : CBlockIndex) : option CBlockIndex := pprev b ≫= (σ !!.).

Lemma base_work_parent σ b : base_work σ b = match parent_of σ b with Some c => val (nChainWork c) | None => 0 end.
Proof. unfold base_work, parent_of. by destruct (pprev b). Qed.

Lemma base_auth_parent σ b : base_auth σ b = match parent_of σ b with Some c => val (nAuthenticatedChainWork c) | None => 0 end.
Proof. unfold base_auth, parent_of. by destruct (pprev b). Qed.

(** Extending the tree with one consistent entry. *)
Lemma tree_insert params σ p b a :
  tree_ok params σ → σ !! p = None → pprev b ≠ Some p → linked (<[p := b]> σ) → typed b →
  val (nChainWork b) = base_work σ b + block_work (nBits b) →
  IsBlockAuthenticated σ b params = Ok a →
  val (nAuthenticatedChainWork b) = base_auth σ b + (if (a : bool) then block_work (nBits b) else 0) →
  tree_ok params (<[p := b]> σ).
Proof.
  intros Ht Hp Hself Hl Hty Hw Ha Hau.
  assert (∀ c, pprev c ≠ Some p → parent_of (<[p := b]> σ) c = parent_of σ c ∧
    IsBlockAuthenticated (<[p := b]> σ) c params = IsBlockAuthenticated σ c params) as Hsame.
  { intros c Hc. unfold parent_of, IsBlockAuthenticated. destruct (pprev c) as [q|]; [|done]. simpl.
    rewrite lookup_insert_ne, deref_insert_ne by congruence. done. }
  assert (∀ q c, σ !! q = Some c → pprev c ≠ Some p) as Hold.
  { intros q c Hq E. destruct (lk_prev σ (tr_linked _ _ Ht) q c p Hq E) as (d & Hd & _). congruence. }
  constructor; [done|..].
  - intros q c [[<- <-]|[Hne Hq]]%lookup_insert_Some; [done|]. by apply (tr_typed _ _ Ht q c).
  - intros q c [[<- <-]|[Hne Hq]]%lookup_insert_Some.
    + rewrite base_work_parent in Hw |- *. by rewrite (proj1 (Hsame b Hself)).
    + rewrite base_work_parent, (proj1 (Hsame c (Hold q c Hq))), <- base_work_parent. by apply (tr_work _ _ Ht q c).
  - intros q c [[<- <-]|[Hne Hq]]%lookup_insert_Some.
    + exists a. rewrite base_auth_parent in Hau |- *. destruct (Hsame b Hself) as [-> ->]. done.
    + rewrite base_auth_parent. destruct (Hsame c (Hold q c Hq)) as [-> ->]. rewrite <- base_auth_parent. by apply (tr_auth _ _ Ht q c).
Qed.

Lemma authenticated_total params σ p b : tree_ok params σ → σ !! p = None → present σ (pprev b) → returns (IsBlockAuthenticated σ b params).
Proof.
  intros Ht Hp Hpres. unfold IsBlockAuthenticated. repeat (case_match; [by eexists|]).
  destruct (pprev b) as [q|]; [|by eexists]. destruct Hpres as [c Hc]. rewrite (deref_Ok _ _ _ Hc), bind_Ok. by eexists.
Qed.

(** A header that only reached [BLOCK_VALID_TREE] at a MatMul v4 height. *)
Lemma tree_header_unauthenticated params σ b :
  IsMatMulV4Active params (nHeight b) = true → nStatus b = BLOCK_VALID_TREE → IsBlockAuthenticated σ b params = Ok false.
Proof. intros Hv Hs. unfold IsBlockAuthenticated. rewrite Hv, Hs. reflexivity. Qed.

Section insertion.
Context (params : Params) (m : BlockManager) (block : Header).
Let σ := m_block_index m.
Let p := h_hash block.
Hypothesis Htree : tree_ok params σ.
Hypothesis Hfresh : σ !! p = None.
Hypothesis Hself : h_prev block ≠ p.
Hypothesis Hbits : 0 ≤ h_bits block < 2 ^ 32.
Hypothesis Hroom : ∀ c, σ !! h_prev block = Some c →
  nHeight c < INT32_MAX ∧ val (nChainWork c) + block_work (h_bits block) < 2 ^ 256.

(** The entry once it is linked to its parent. *)
Definition linked_entry : CBlockIndex :=
  match σ !! h_prev block with
  | Some c =>
      let b := mkIndex (Some (h_prev block)) None (nHeight c + 1) (zero WIDTH) (zero WIDTH) 0 (h_time block) (h_bits block) 0 0 0 in
      set_pskip b (ancestor (<[p := b]> σ) p (GetSkipHeight (nHeight c + 1)))
  | None => CBlockIndex_of block
  end.

Lemma link_ok :
  linked (<[p := linked_entry]> σ) ∧
  (match <[p := CBlockIndex_of block]> σ !! h_prev block with
   | Some prev => σ' ← link (<[p := CBlockIndex_of block]> σ) p (h_prev block) prev (CBlockIndex_of block);
                  Ok (σ', <[h_prev block := default [] (m_block_children m !! h_prev block) ++ [p]]> (m_block_children m))
   | None => Ok (<[p := CBlockIndex_of block]> σ, m_block_children m)
   end) = Ok (<[p := linked_entry]> σ,
              match σ !! h_prev block with
              | Some _ => <[h_prev block := default [] (m_block_children m !! h_prev block) ++ [p]]> (m_block_children m)
              | None => m_block_children m
              end).
Proof.
  rewrite lookup_insert_ne by done. unfold linked_entry. destruct (σ !! h_prev block) as [c|] eqn:Ec.
  - destruct (Hroom c eq_refl) as [Hh _]. unfold link, NextBlockHeightOrLimit. unfold INT32_MAX in *.
    rewrite (proj2 (Z.eqb_neq _ _)) by lia. rewrite insert_insert_eq. cbn [pskip nChainWork nAuthenticatedChainWork nStatus nTime nBits nTimeMax
      nMatMulClampedAsertCreditKey nMatMulClampedAsertCredit CBlockIndex_of].
    set (b := mkIndex (Some (h_prev block)) _ _ _ _ _ _ _ _ _ _).
    assert (linked (<[p := b]> σ)) as Hl.
    { apply linked_insert; [apply Htree|done|done|]. right. exists (h_prev block), c. cbn. split_and!; [done..|lia]. }
    pose proof (lk_height σ (tr_linked _ _ Htree) _ _ Ec).
    destruct (BuildSkip_ok _ p b Hl ltac:(apply lookup_insert_eq) eq_refl) as [-> Hl']. rewrite bind_Ok.
    rewrite decide_True in * by (cbn; lia). rewrite insert_insert_eq in *. done.
  - split; [|done]. apply linked_insert; [apply Htree|done|done|]. by left.
Qed.

Lemma entry_parent : pprev linked_entry ≠ Some p ∧ present σ (pprev linked_entry) ∧
  parent_of σ linked_entry = σ !! h_prev block ∧ nStatus linked_entry = 0 ∧ nBits linked_entry = h_bits block.
Proof.
  unfold linked_entry, parent_of. destruct (σ !! h_prev block) as [c|] eqn:Ec; cbn [set_pskip pprev nStatus nBits CBlockIndex_of].
  - rewrite <- Ec. split_and!; [congruence| |done..]. cbn. rewrite Ec. by eexists.
  - done.
Qed.

(** The final entry: its accumulated works and the tree status. *)
Definition new_entry (w a : list Z) (tmax : Z) : CBlockIndex :=
  mkIndex (pprev linked_entry) (pskip linked_entry) (nHeight linked_entry) w a BLOCK_VALID_TREE (nTime linked_entry)
    (nBits linked_entry) tmax (nMatMulClampedAsertCreditKey linked_entry) (nMatMulClampedAsertCredit linked_entry).

Lemma set_work_ok : ∃ w tmax,
  set_work (<[p := linked_entry]> σ) p =
    Ok (<[p := mkIndex (pprev linked_entry) (pskip linked_entry) (nHeight linked_entry) w (nAuthenticatedChainWork linked_entry)
           (nStatus linked_entry) (nTime linked_entry) (nBits linked_entry) tmax
           (nMatMulClampedAsertCreditKey linked_entry) (nMatMulClampedAsertCredit linked_entry)]> σ) ∧
  is_arith w ∧ val w = base_work σ linked_entry + block_work (h_bits block).
Proof.
  destruct entry_parent as (Hne & Hpres & Hpar & _ & Hb). unfold set_work. rewrite deref_insert, bind_Ok.
  destruct (GetBlockProof_ok linked_entry ltac:(by rewrite Hb)) as (pr & -> & Hpr & Epr). rewrite bind_Ok. rewrite Hb in Epr.
  rewrite base_work_parent, Hpar. pose proof (block_work_bounds (h_bits block)). unfold parent_of in Hpar.
  destruct (pprev linked_entry) as [q|] eqn:Eq; simpl in Hpar, Hpres.
  - destruct Hpres as [c Hc]. rewrite deref_insert_ne, (deref_Ok _ _ _ Hc), !bind_Ok by congruence. rewrite insert_insert_eq.
    rewrite Hc in Hpar. symmetry in Hpar. destruct (Hroom c Hpar) as [_ Hr]. pose proof (tr_typed _ _ Htree q c Hc) as [Hcw _ _].
    destruct (add_arith _ _ Hcw Hpr) as [Hs Es]. pose proof (is_arith_bound _ Hcw).
    eexists _, _. split; [done|]. split; [done|]. rewrite Hpar, Es, Epr. apply Z.mod_small. lia.
  - rewrite !bind_Ok, insert_insert_eq. destruct (of_u64_ok 0 ltac:(lia)) as [H0 E0]. destruct (add_arith _ _ H0 Hpr) as [Hs Es].
    eexists _, _. split; [done|]. split; [done|]. rewrite <- Hpar, Es, Epr, E0. apply Z.mod_small. lia.
Qed.

Lemma update_auth_ok e :
  pprev e = pprev linked_entry → nBits e = h_bits block → ∃ a w,
  IsBlockAuthenticated σ e params = Ok a ∧
  UpdateAuthenticatedChainWork (<[p := e]> σ) p params = Ok (<[p := set_auth e w]> σ) ∧
  is_arith w ∧ val w = base_auth σ e + if (a : bool) then block_work (h_bits block) else 0.
Proof.
  intros Hpp Hbt. destruct entry_parent as (Hne & Hpres & Hpar & _ & _). rewrite <- Hpp in Hne, Hpres.
  destruct (authenticated_total params σ p e Htree Hfresh Hpres) as [a Ha]. exists a.
  unfold UpdateAuthenticatedChainWork. rewrite deref_insert, bind_Ok.
  assert (IsBlockAuthenticated (<[p := e]> σ) e params = Ok a) as Ha'.
  { rewrite <- Ha. unfold IsBlockAuthenticated. destruct (pprev e) as [q|]; [|done]. by rewrite deref_insert_ne by congruence. }
  unfold GetBlockAuthenticatedProof. rewrite Ha', bind_Ok.
  assert (∃ pr, (if (a : bool) then GetBlockProof e else Ok (zero WIDTH)) = Ok pr ∧ is_arith pr ∧
    val pr = if a then block_work (h_bits block) else 0) as (pr & -> & Hpr & Epr).
  { rewrite <- Hbt. destruct a; [apply GetBlockProof_ok; by rewrite Hbt|]. destruct zero_arith as [Hz Ez]. eauto. }
  rewrite base_auth_parent. unfold parent_of in Hpar |- *. rewrite <- Hpp in Hpar. pose proof (block_work_bounds (h_bits block)).
  destruct (pprev e) as [q|] eqn:Eq; simpl in Hpar, Hpres |- *.
  - destruct Hpres as [c Hc]. rewrite deref_insert_ne, (deref_Ok _ _ _ Hc), !bind_Ok, insert_insert_eq by congruence.
    rewrite Hc in Hpar |- *. symmetry in Hpar. destruct (Hroom c Hpar) as [_ Hr].
    pose proof (tr_typed _ _ Htree q c Hc) as [_ Hca _]. pose proof (auth_le_work params σ Htree q c Hc).
    destruct (add_arith _ _ Hca Hpr) as [Hs Es]. eexists. split; [done|]. split; [done|]. split; [done|].
    rewrite Es, Epr. apply Z.mod_small. destruct a; lia.
  - rewrite insert_insert_eq. destruct zero_arith as [Hz Ez]. destruct (add_arith _ _ Hz Hpr) as [Hs Es].
    eexists. split; [done|]. split; [done|]. split; [done|]. rewrite Es, Epr, Ez. apply Z.mod_small. destruct a; lia.
Qed.

Hypothesis Hbest : ∀ h, best_header m = Some h → is_Some (σ !! h).

Lemma AddToBlockIndex_ok : ∃ b m',
  AddToBlockIndex m params block = Ok m' ∧ m_block_index m' = <[p := b]> σ ∧ tree_ok params (<[p := b]> σ) ∧
  pprev b = pprev linked_entry ∧ nBits b = h_bits block ∧ nStatus b = BLOCK_VALID_TREE ∧
  nHeight b = match σ !! h_prev block with Some c => nHeight c + 1 | None => 0 end.
Proof.
  destruct link_ok as [Hlinked Hlink]. destruct set_work_ok as (w & tmax & Hsw & Hw & Ew).
  destruct entry_parent as (Hne & Hpres & Hpar & Hst & Hb).
  unfold AddToBlockIndex. fold σ p. rewrite Hfresh. cbv zeta. rewrite Hlink, bind_Ok, Hsw, bind_Ok.
  match goal with |- context [UpdateAuthenticatedChainWork (<[_ := ?e]> _)] => set (e3 := e) end.
  destruct (update_auth_ok e3 eq_refl Hb) as (a & v & Ha & -> & Hv & Ev). rewrite bind_Ok, deref_insert, bind_Ok.
  assert (RaiseValidity (set_auth e3 v) BLOCK_VALID_TREE = Ok (new_entry w v tmax)) as ->.
  { unfold RaiseValidity, set_auth, new_entry, e3. cbn [nStatus pprev pskip nHeight nChainWork nAuthenticatedChainWork nTime nBits nTimeMax
      nMatMulClampedAsertCreditKey nMatMulClampedAsertCredit]. by rewrite Hst. }
  rewrite bind_Ok, insert_insert_eq.
  assert (tree_ok params (<[p := new_entry w v tmax]> σ)) as Ht'.
  { apply (tree_insert params σ p _ a); [done..| | | | |].
    - eapply linked_same; [|exact Hlinked]. intros q. destruct (decide (q = p)) as [->|];
        [by rewrite !lookup_insert_eq|by rewrite !lookup_insert_ne].
    - constructor; cbn; [done..|]. by rewrite Hb.
    - cbn [nChainWork new_entry nBits]. rewrite Ew, Hb. done.
    - rewrite <- Ha. unfold IsBlockAuthenticated. cbn [nHeight nStatus pprev new_entry]. unfold e3. cbn [nHeight nStatus pprev]. rewrite Hst.
      reflexivity.
    - cbn [nAuthenticatedChainWork new_entry nBits]. rewrite Ev, Hb. done. }
  assert (typed (new_entry w v tmax)) as Hty by (apply (tr_typed _ _ Ht' p), lookup_insert_eq).
  assert (nHeight (new_entry w v tmax) = match σ !! h_prev block with Some c => nHeight c + 1 | None => 0 end) as Hhe.
  { cbn [nHeight new_entry]. unfold linked_entry. by destruct (σ !! h_prev block). }
  destruct (best_header m) as [h|] eqn:Eh.
  - destruct (Hbest h eq_refl) as [c Hc]. assert (h ≠ p) by congruence.
    destruct (prefer_returns (<[p := new_entry w v tmax]> σ) TRUST_ADJUSTED_WORK_ALLOWANCE_BLOCKS h p c (new_entry w v tmax)) as [r ->];
      [by rewrite lookup_insert_ne|apply lookup_insert_eq|by apply (tr_typed _ _ Htree h)|done|].
    rewrite !bind_Ok. eexists _, _. split; [done|]. by split_and!.
  - rewrite bind_Ok. eexists _, _. split; [done|]. by split_and!.
Qed.
End insertion.

(** ** Propagation *)

(** Equal up to the authenticated work. *)
Definition same_but_auth (σ σ' : BlockMap) : Prop :=
  ∀ p, (λ b, set_auth b []) <$> σ !! p = (λ b, set_auth b []) <$> σ' !! p.

Record pre_ok (σ : BlockMap) : Prop := mkPre {
  pr_linked : linked σ;
  pr_typed p b : σ !! p = Some b → typed b;
  pr_work p b : σ !! p = Some b → val (nChainWork b) = base_work σ b + block_work (nBits b);
}.

(** The recurrence of the authenticated work at one entry. *)
Definition settled (params : Params) (σ : BlockMap) (b : CBlockIndex) : Prop :=
  ∃ a, IsBlockAuthenticated σ b params = Ok a ∧
    val (nAuthenticatedChainWork b) = base_auth σ b + if (a : bool) then block_work (nBits b) else 0.

Definition strict_desc (σ : BlockMap) (x r : list Z) : Prop := ∃ n, back σ (S n) x = Some r.

Lemma same_but_auth_lookup σ σ' p b : same_but_auth σ σ' → σ !! p = Some b →
  ∃ w, σ' !! p = Some (set_auth b w).
Proof.
  intros H Hp. specialize (H p). rewrite Hp in H. destruct (σ' !! p) as [b'|]; [|done]. exists (nAuthenticatedChainWork b').
  destruct b, b'. cbn in H. injection H. intros. subst. done.
Qed.

Lemma same_but_auth_sym σ σ' : same_but_auth σ σ' → same_but_auth σ' σ.
Proof. intros H p. by rewrite (H p). Qed.

Lemma same_but_auth_insert σ p b w : σ !! p = Some b → same_but_auth σ (<[p := set_auth b w]> σ).
Proof.
  intros Hp q. destruct (decide (q = p)) as [->|]; [by rewrite lookup_insert_eq, Hp|by rewrite lookup_insert_ne].
Qed.

Lemma same_but_auth_trans σ1 σ2 σ3 : same_but_auth σ1 σ2 → same_but_auth σ2 σ3 → same_but_auth σ1 σ3.
Proof. intros H1 H2 p. by rewrite (H1 p), (H2 p). Qed.

Lemma same_but_auth_back σ σ' n x : same_but_auth σ σ' → back σ n x = back σ' n x.
Proof.
  intros H. apply back_ext. intros q. specialize (H q). destruct (σ !! q) as [b|], (σ' !! q) as [b'|]; try done.
  destruct b, b'. cbn in H. injection H. intros. subst. done.
Qed.

Lemma pre_ok_same σ σ' : same_but_auth σ σ' → pre_ok σ → (∀ p b, σ' !! p = Some b → is_arith (nAuthenticatedChainWork b)) → pre_ok σ'.
Proof.
  intros Hs [Hl Hty Hw] Ha.
  assert (∀ p b', σ' !! p = Some b' → ∃ b w, σ !! p = Some b ∧ b' = set_auth b w) as Hold.
  { intros p b' Hp. destruct (same_but_auth_lookup _ _ _ _ (same_but_auth_sym _ _ Hs) Hp) as [w Hw']. eexists _, (nAuthenticatedChainWork b').
    split; [done|]. by destruct b'. }
  constructor.
  - eapply linked_same; [|done]. intros p. specialize (Hs p). destruct (σ !! p) as [b|], (σ' !! p) as [b'|]; try done.
    destruct b, b'. cbn in Hs. injection Hs. intros. subst. done.
  - intros p b' Hp. pose proof (Ha p b' Hp). destruct (Hold p b' Hp) as (b & w & Hb & ->). destruct (Hty p b Hb). by constructor.
  - intros p b' Hp. destruct (Hold p b' Hp) as (b & w & Hb & ->). rewrite base_work_parent. cbn [nChainWork nBits set_auth].
    rewrite (Hw p b Hb), base_work_parent. f_equal. unfold parent_of. cbn [pprev set_auth].
    destruct (pprev b) as [q|] eqn:Eq; [|done]. simpl. destruct (lk_prev σ Hl p b q Hb Eq) as (c & Hc & _).
    destruct (same_but_auth_lookup _ _ _ _ Hs Hc) as [v Hv]. by rewrite Hc, Hv.
Qed.

(** An entry's recurrence reads the entry and its parent only. *)
Lemma settled_local params σ σ' b :
  (∀ q, pprev b = Some q → σ' !! q = σ !! q) → settled params σ b → settled params σ' b.
Proof.
  intros H (a & Ha & Ev). exists a. rewrite base_auth_parent in *. unfold IsBlockAuthenticated, parent_of, deref in *.
  destruct (pprev b) as [q|]; [|done]. simpl in *. by rewrite (H q eq_refl).
Qed.

Lemma update_settles params σ p b q c :
  pre_ok σ → σ !! p = Some b → pprev b = Some q → σ !! q = Some c →
  val (nAuthenticatedChainWork c) ≤ val (nChainWork c) →
  ∃ w, UpdateAuthenticatedChainWork σ p params = Ok (<[p := set_auth b w]> σ) ∧ is_arith w ∧
    settled params (<[p := set_auth b w]> σ) (set_auth b w) ∧ val w ≤ val (nChainWork b).
Proof.
  intros [Hl Hty Hw] Hp Eq Hc Hle. assert (q ≠ p) as Hne.
  { intros ->. destruct (lk_prev σ Hl p b p Hp Eq) as (d & Hd & Ed). simplify_eq. lia. }
  assert (∃ a, IsBlockAuthenticated σ b params = Ok a) as [a Ha].
  { unfold IsBlockAuthenticated. repeat (case_match; [by eexists|]). rewrite Eq, (deref_Ok _ _ _ Hc), bind_Ok. by eexists. }
  destruct (Hty p b Hp) as [Hbw _ Hbb]. destruct (Hty q c Hc) as [Hcw Hca _].
  assert (∃ pr, (if (a : bool) then GetBlockProof b else Ok (zero WIDTH)) = Ok pr ∧ is_arith pr ∧
    val pr = if a then block_work (nBits b) else 0) as (pr & Epr' & Hpr & Epr).
  { destruct a; [by apply GetBlockProof_ok|]. destruct zero_arith as [Hz Ez]. eauto. }
  destruct (add_arith _ _ Hca Hpr) as [Hs Es]. exists (add (nAuthenticatedChainWork c) pr).
  pose proof (is_arith_bound _ Hca). pose proof (is_arith_bound _ Hbw). pose proof (block_work_bounds (nBits b)).
  pose proof (Hw p b Hp) as Ew. unfold base_work in Ew. rewrite Eq, Hc in Ew.
  rewrite Epr, Z.mod_small in Es by (destruct a; lia). split_and!; [|done| |].
  - unfold UpdateAuthenticatedChainWork, GetBlockAuthenticatedProof.
    rewrite (deref_Ok _ _ _ Hp), bind_Ok, Eq, (deref_Ok _ _ _ Hc), !bind_Ok, Ha, bind_Ok, Epr'. done.
  - apply (settled_local params σ); [intros r Er; cbn in Er; rewrite lookup_insert_ne; congruence|].
    exists a. split; [done|]. unfold base_auth. cbn [pprev set_auth nAuthenticatedChainWork nBits]. by rewrite Eq, Hc, Es.
  - rewrite Es. destruct a; lia.
Qed.

Lemma update_children_ok params σ kids q c :
  pre_ok σ → NoDup kids → q ∉ kids → σ !! q = Some c → val (nAuthenticatedChainWork c) ≤ val (nChainWork c) →
  (∀ k, k ∈ kids → ∃ b, σ !! k = Some b ∧ pprev b = Some q) →
  ∃ σ', update_children σ params kids = Ok σ' ∧ pre_ok σ' ∧ same_but_auth σ σ' ∧ (∀ x, x ∉ kids → σ' !! x = σ !! x) ∧
    ∀ k b, k ∈ kids → σ' !! k = Some b → settled params σ' b ∧ val (nAuthenticatedChainWork b) ≤ val (nChainWork b).
Proof.
  revert σ. induction kids as [|k kids IH]; intros σ Hpre Hnd Hq Hc Hle Hk.
  { exists σ. split_and!; [done..|]. intros k b Hin. by apply not_elem_of_nil in Hin. }
  apply list.NoDup_cons in Hnd as [Hnk Hnd]. apply not_elem_of_cons in Hq as [Hqk Hq].
  destruct (Hk k (list_elem_of_here _ _)) as (b & Hb & Eb).
  destruct (update_settles params σ k b q c Hpre Hb Eb Hc Hle) as (w & Hup & Hw & Hset & Hwle).
  cbn [update_children]. rewrite Hup, bind_Ok. set (σ1 := <[k := set_auth b w]> σ) in *.
  assert (same_but_auth σ σ1) as Hs1 by (by apply same_but_auth_insert).
  assert (pre_ok σ1) as Hpre1.
  { apply (pre_ok_same σ); [done..|]. intros p d [[<- <-]|[_ Hd]]%lookup_insert_Some; [done|]. apply (pr_typed _ Hpre p d Hd). }
  destruct (IH σ1 Hpre1 Hnd Hq) as (σ' & -> & Hpre' & Hs' & Hout & Hin); [by unfold σ1; rewrite lookup_insert_ne|done| |].
  { intros k' Hk'. destruct (Hk k') as (b' & Hb' & Eb'); [by apply list_elem_of_further|]. exists b'.
    split; [|done]. unfold σ1. rewrite lookup_insert_ne; [done|]. intros ->. done. }
  exists σ'. split_and!; [done|done|by eapply same_but_auth_trans|..].
  - intros x [Hxk Hx]%not_elem_of_cons. rewrite (Hout x Hx). unfold σ1. by rewrite lookup_insert_ne.
  - intros k' b' [->|Hk']%elem_of_cons Hb'; [|by apply (Hin k' b')].
    rewrite (Hout k Hnk) in Hb'. unfold σ1 in Hb'. rewrite lookup_insert_eq in Hb'. simplify_eq. split; [|done].
    apply (settled_local params σ1); [|done]. intros r Er. cbn in Er. apply Hout. congruence.
Qed.

(** Membership in concatenations of lists. *)
Ltac mem := repeat first [rewrite elem_of_app in * | rewrite elem_of_cons in * | rewrite list_elem_of_singleton in *]; tauto.

Section propagate.
Context (params : Params) (children : list Z → list (list Z)) (root : list Z).

(** The adjacency lists every child once. *)
Record adjacency (σ : BlockMap) : Prop := mkAdj {
  ad_iff p k : k ∈ children p ↔ ∃ b, σ !! k = Some b ∧ pprev b = Some p;
  ad_nodup p : NoDup (children p);
}.

(** Loop invariant: [done] have been expanded, [queue] waits to be. *)
Record progress (σ : BlockMap) (done queue : list (list Z)) : Prop := mkProgress {
  pg_pre : pre_ok σ;
  pg_adj : adjacency σ;
  pg_nodup : NoDup (done ++ queue);
  pg_in x : x ∈ done ++ queue → is_Some (σ !! x);
  pg_parent x b : x ∈ done ++ queue → σ !! x = Some b →
    x = root ∨ ∃ q, pprev b = Some q ∧ q ∈ done;
  pg_height x b r : x ∈ done ++ queue → σ !! x = Some b → σ !! root = Some r → nHeight r ≤ nHeight b;
  pg_root : is_Some (σ !! root);
  pg_queue x b : x ∈ queue → σ !! x = Some b → settled params σ b ∧ val (nAuthenticatedChainWork b) ≤ val (nChainWork b);
  pg_rest x b : σ !! x = Some b → settled params σ b ∨ ∃ q, q ∈ queue ∧ strict_desc σ x q;
}.

Lemma adjacency_same σ σ' : same_but_auth σ σ' → adjacency σ → adjacency σ'.
Proof.
  intros Hs [Hiff Hnd]. constructor; [|done]. intros p k. rewrite Hiff. split; intros (b & Hb & Eb).
  - destruct (same_but_auth_lookup _ _ _ _ Hs Hb) as [w Hw]. eexists. by split.
  - destruct (same_but_auth_lookup _ _ _ _ (same_but_auth_sym _ _ Hs) Hb) as [w Hw]. eexists. by split.
Qed.

(** A strict descendant of [p] is a child of [p] or below one. *)
Lemma strict_desc_child σ x p : adjacency σ → strict_desc σ x p → x ∈ children p ∨ ∃ k, k ∈ children p ∧ strict_desc σ x k.
Proof.
  intros Hadj [n Hn]. replace (S n) with (n + 1)%nat in Hn by lia. rewrite back_add in Hn.
  destruct (back σ n x) as [k|] eqn:Ek; [|done]. simpl in Hn. destruct (σ !! k) as [b|] eqn:Hb; [|done]. simpl in Hn.
  destruct (pprev b) as [q|] eqn:Eq; simplify_eq/=. assert (k ∈ children p) as Hk by (apply (ad_iff _ Hadj); eauto).
  destruct n as [|n]; simpl in Ek; [left; by simplify_eq|]. right. exists k. split; [done|]. by exists n.
Qed.

Lemma fresh_children σ done p queue k :
  progress σ done (p :: queue) → k ∈ children p → k ∉ done ++ p :: queue.
Proof.
  intros Hpg Hk Hin. apply (ad_iff _ (pg_adj _ _ _ Hpg)) in Hk as (b & Hb & Eb).
  destruct (pg_parent _ _ _ Hpg k b Hin Hb) as [->|(q & Eq & Hq)].
  - destruct (lk_prev _ (pr_linked _ (pg_pre _ _ _ Hpg)) root b p Hb Eb) as (c & Hc & Ec).
    assert (p ∈ done ++ p :: queue) as Hp by (apply elem_of_app; right; apply list_elem_of_here).
    pose proof (pg_height _ _ _ Hpg p c b Hp Hc Hb). lia.
  - rewrite Eb in Eq. simplify_eq. pose proof (pg_nodup _ _ _ Hpg) as Hnd.
    apply list.NoDup_app in Hnd as (_ & Hdis & _). apply (Hdis q Hq). apply list_elem_of_here.
Qed.

Lemma progress_step σ done p queue :
  progress σ done (p :: queue) →
  ∃ σ', update_children σ params (children p) = Ok σ' ∧ same_but_auth σ σ' ∧ progress σ' (done ++ [p]) (queue ++ children p).
Proof.
  intros Hpg. pose proof (fresh_children σ done p queue) as Hfresh. pose proof Hpg as [Hpre Hadj Hnd Hin Hpar Hht Hroot Hq Hrest].
  assert (p ∈ done ++ p :: queue) as Hp by (apply elem_of_app; right; apply list_elem_of_here).
  destruct (Hin p Hp) as [c Hc]. destruct (Hq p c (list_elem_of_here _ _) Hc) as [Hset Hle].
  destruct (update_children_ok params σ (children p) p c) as (σ' & -> & Hpre' & Hs & Hout & Hkids); [done|apply Hadj| |done..| |].
  { intros Hself. by apply (Hfresh p Hpg Hself). }
  { intros k Hk. by apply (ad_iff _ Hadj). }
  exists σ'. split; [done|]. split; [done|].
  assert (∀ x b', σ' !! x = Some b' → ∃ b, σ !! x = Some b ∧ pprev b = pprev b' ∧ nHeight b = nHeight b') as Hold.
  { intros x b' Hb'. destruct (same_but_auth_lookup _ _ _ _ (same_but_auth_sym _ _ Hs) Hb') as [w Hw]. eexists. split; [exact Hw|done]. }
  assert (∀ x, x ∈ (done ++ [p]) ++ queue ++ children p ↔ x ∈ done ++ p :: queue ∨ x ∈ children p) as Hmem.
  { intros x. rewrite !elem_of_app, !elem_of_cons, elem_of_nil. tauto. }
  constructor.
  - done.
  - by eapply adjacency_same.
  - replace ((done ++ [p]) ++ queue ++ children p) with ((done ++ p :: queue) ++ children p) by (by rewrite <- !app_assoc).
    apply list.NoDup_app. split_and!; [done| |apply Hadj]. intros x Hx Hk. by apply (Hfresh x Hpg Hk).
  - intros x [Hx|Hx]%Hmem.
    + destruct (Hin x Hx) as [b Hb]. destruct (same_but_auth_lookup _ _ _ _ Hs Hb) as [w ->]. by eexists.
    + apply (ad_iff _ Hadj) in Hx as (b & Hb & _). destruct (same_but_auth_lookup _ _ _ _ Hs Hb) as [w ->]. by eexists.
  - intros x b' Hx Hb'. destruct (Hold x b' Hb') as (b & Hb & <- & _). apply Hmem in Hx as [Hx|Hx].
    + destruct (Hpar x b Hx Hb) as [|(q & Eq & Hqd)]; [by left|]. right. exists q. split; [done|mem].
    + apply (ad_iff _ Hadj) in Hx as (b1 & Hb1 & Eb1). simplify_eq. right. exists p. split; [done|mem].
  - intros x b' r' Hx Hb' Hr'. destruct (Hold x b' Hb') as (b & Hb & _ & <-). destruct (Hold root r' Hr') as (r & Hr & _ & <-).
    apply Hmem in Hx as [Hx|Hx]; [by apply (Hht x b r)|].
    apply (ad_iff _ Hadj) in Hx as (b1 & Hb1 & Eb1). rewrite Hb in Hb1. injection Hb1 as <-.
    destruct (lk_prev σ (pr_linked _ Hpre) x b p Hb Eb1) as (d & Hd & Ed). pose proof (Hht p d r Hp Hd Hr). lia.
  - destruct Hroot as [r Hr]. destruct (same_but_auth_lookup _ _ _ _ Hs Hr) as [w ->]. by eexists.
  - intros x b' Hx Hb'. apply elem_of_app in Hx as [Hx|Hx]; [|by apply (Hkids x b')].
    assert (x ∈ done ++ p :: queue) as Hxin by mem.
    assert (x ∉ children p) as Hnk by (intros Hk; by apply (Hfresh x Hpg Hk)). rewrite (Hout x Hnk) in Hb'.
    destruct (Hq x b' (list_elem_of_further _ _ _ Hx) Hb') as [Hsx Hlx]. split; [|done].
    apply (settled_local params σ); [|done]. intros q Eq. apply Hout. intros Hqk.
    destruct (Hpar x b' Hxin Hb') as [->|(q' & Eq' & Hq')].
    + apply (ad_iff _ Hadj) in Hqk as (d & Hd & Ed). destruct (lk_prev σ (pr_linked _ Hpre) root b' q Hb' Eq) as (d' & Hd' & Eh).
      rewrite Hd in Hd'. injection Hd' as <-. destruct (lk_prev σ (pr_linked _ Hpre) q d p Hd Ed) as (e & He & Ee). pose proof (Hht p e b' Hp He Hb'). lia.
    + rewrite Eq in Eq'. simplify_eq. apply (Hfresh q' Hpg Hqk). mem.
  - intros x b' Hb'. assert (∀ q, strict_desc σ x q → strict_desc σ' x q) as Hsd.
    { intros q [n Hn]. exists n. by rewrite <- (same_but_auth_back σ). }
    destruct (decide (x ∈ children p)) as [Hk|Hk]; [left; by apply (Hkids x b')|].
    rewrite (Hout x Hk) in Hb'. destruct (Hrest x b' Hb') as [Hsx|(q & Hqin & Hd)].
    + destruct (pprev b') as [q|] eqn:Eq.
      * destruct (decide (q ∈ children p)) as [Hqk|Hqk].
        { right. exists q. split; [mem|]. apply Hsd. exists O. simpl. rewrite Hb'. simpl. by rewrite Eq. }
        left. apply (settled_local params σ); [|done]. intros r Er. apply Hout. congruence.
      * left. apply (settled_local params σ); [|done]. intros r Er. congruence.
    + apply elem_of_cons in Hqin as [->|Hqin]; [|right; exists q; split; [mem|by apply Hsd]].
      destruct (strict_desc_child σ x p Hadj Hd) as [|(k & Hkin & Hdk)]; [done|]. right. exists k. split; [mem|by apply Hsd].
Qed.

Lemma progress_size σ done queue : progress σ done queue → (length done + length queue ≤ size σ)%nat.
Proof.
  intros Hpg. rewrite <- length_app, <- (size_dom (D := gset (list Z))).
  rewrite <- (size_list_to_set (C := gset (list Z)) (done ++ queue)) by apply Hpg.
  apply subseteq_size. intros x Hx. apply elem_of_list_to_set in Hx. apply elem_of_dom. by apply Hpg.
Qed.

Lemma same_but_auth_size σ σ' : same_but_auth σ σ' → size σ' = size σ.
Proof.
  intros Hs. rewrite <- !(size_dom (D := gset (list Z))). f_equal. apply set_eq. intros x. rewrite !elem_of_dom. specialize (Hs x).
  destruct (σ !! x), (σ' !! x); simplify_eq/=; split; intros [? ?]; by try eexists.
Qed.

Lemma progress_done σ done : progress σ done [] → tree_ok params σ.
Proof.
  intros Hpg. destruct (pg_pre _ _ _ Hpg). constructor; [done..|]. intros x b Hb.
  destruct (pg_rest _ _ _ Hpg x b Hb) as [|(q & Hq & _)]; [done|]. by apply not_elem_of_nil in Hq.
Qed.

Lemma propagate_ok fuel σ done queue :
  progress σ done queue → (size σ ≤ fuel + length done)%nat →
  ∃ σ', propagate fuel σ params children queue = Ok σ' ∧ same_but_auth σ σ' ∧ tree_ok params σ'.
Proof.
  revert σ done queue. induction fuel as [|fuel IH]; intros σ done [|p queue] Hpg Hf.
  1, 3: exists σ; split; [done|]; split; [done|]; by eapply progress_done.
  { pose proof (progress_size _ _ _ Hpg) as Hsize. cbn [length] in Hsize. lia. }
  destruct (progress_step σ done p queue Hpg) as (σ1 & Hup & Hs & Hpg1). cbn [propagate]. rewrite Hup, bind_Ok.
  destruct (IH σ1 (done ++ [p]) (queue ++ children p) Hpg1) as (σ' & -> & Hs' & Ht').
  - rewrite length_app, (same_but_auth_size σ σ1) by done. cbn [length]. lia.
  - exists σ'. split; [done|]. split; [by eapply same_but_auth_trans|done].
Qed.

Lemma Propagate_ok σ r :
  pre_ok σ → adjacency σ → σ !! root = Some r → val (nAuthenticatedChainWork r) ≤ val (nChainWork r) →
  (∀ x b, σ !! x = Some b → settled params σ b ∨ strict_desc σ x root) → settled params σ r →
  ∃ σ', PropagateAuthenticatedChainWorkDescendants σ root params children = Ok σ' ∧ same_but_auth σ σ' ∧ tree_ok params σ'.
Proof.
  intros Hpre Hadj Hr Hle Hrest Hset. apply (propagate_ok _ _ []); [|simpl; lia].
  assert (∀ x, x ∈ [] ++ [root] → x = root) as Hone by (intros x; rewrite app_nil_l; by intros ->%list_elem_of_singleton). constructor.
  - done.
  - done.
  - apply NoDup_singleton.
  - intros x ->%Hone. by eexists.
  - intros x b ->%Hone _. by left.
  - intros x b r' ->%Hone Hb Hr'. simplify_eq. lia.
  - by eexists.
  - intros x b ->%Hone Hb. by simplify_eq.
  - intros x b Hb. destruct (Hrest x b Hb) as [|Hd]; [by left|]. right. exists root. split; [apply list_elem_of_here|done].
Qed.
End propagate.

(** ** Properties *)

(** Adding a fresh header keeps the index a well-formed tree: heights,
    skip pointers, the accumulated work and the authenticated part of it all
    follow their recurrences in the result; adding a known header changes
    nothing. *)
Theorem add_to_block_index_preserves params m block :
  tree_ok params (m_block_index m) → h_prev block ≠ h_hash block → 0 ≤ h_bits block < 2 ^ 32 →
  (∀ c, m_block_index m !! h_prev block = Some c →
     nHeight c < INT32_MAX ∧ val (nChainWork c) + block_work (h_bits block) < 2 ^ 256) →
  (∀ h, best_header m = Some h → is_Some (m_block_index m !! h)) →
  match m_block_index m !! h_hash block with
  | Some _ => AddToBlockIndex m params block = Ok m
  | None => ∃ b m', AddToBlockIndex m params block = Ok m' ∧ m_block_index m' = <[h_hash block := b]> (m_block_index m) ∧
      tree_ok params (m_block_index m') ∧ nBits b = h_bits block ∧ nStatus b = BLOCK_VALID_TREE ∧
      nHeight b = match m_block_index m !! h_prev block with Some c => nHeight c + 1 | None => 0 end
  end.
Proof.
  intros Ht Hs Hb Hroom Hbest. destruct (m_block_index m !! h_hash block) as [b|] eqn:E.
  - unfold AddToBlockIndex. by rewrite E.
  - destruct (AddToBlockIndex_ok params m block Ht E Hs Hb Hroom Hbest) as (b & m' & E1 & E2 & Ht' & _ & E3 & E4 & E5).
    eexists _, m'. split; [exact E1|]. rewrite E2. auto 10.
Qed.

(** C36: after the authentication of a block changes, the breadth-first
    propagation terminates, touches nothing but authenticated work, and
    restores the recurrence at every entry of the index. *)
Theorem propagation_restores_recurrence params children root σ r :
  pre_ok σ → adjacency children σ → σ !! root = Some r →
  val (nAuthenticatedChainWork r) ≤ val (nChainWork r) →
  (∀ x b, σ !! x = Some b → settled params σ b ∨ strict_desc σ x root) → settled params σ r →
  ∃ σ', PropagateAuthenticatedChainWorkDescendants σ root params children = Ok σ' ∧ same_but_auth σ σ' ∧ tree_ok params σ'.
Proof. exact (Propagate_ok params children root σ r). Qed.

(** The comparison of header chains is decided by the code exactly as
    specified, and is a strict weak order: irreflexive, transitive, and with
    transitive incomparability, so the best header does not depend on the
    order in which headers are compared. *)
Theorem header_preference_order σ allow :
  rankable σ allow →
  (∀ x y a b, σ !! x = Some a → σ !! y = Some b →
     PreferTrustAdjustedHeader σ x y allow = Ok (bool_decide (prefers σ allow x y))) ∧
  (∀ x, ¬ prefers σ allow x x) ∧
  (∀ x y z, prefers σ allow x y → prefers σ allow y z → prefers σ allow x z) ∧
  (∀ x y z, prefers σ allow x z → is_Some (σ !! y) → prefers σ allow x y ∨ prefers σ allow y z).
Proof.
  intros Hr. split; [intros x y a b; exact (PreferTrustAdjustedHeader_ok σ allow x y a b Hr)|].
  split; [exact (prefers_irrefl σ allow)|]. split; [exact (prefers_trans σ allow Hr)|exact (prefers_split σ allow Hr)].
Qed.

(** Work that is not authenticated cannot be bought with headers: on top
    of a version-4 block with unauthenticated work, no descendant gains any
    authenticated work, and its ranking work exceeds the authenticated part by
    at most the allowance. *)
Theorem forged_suffix_gains_nothing params σ n p b d c allow :
  tree_ok params σ → σ !! p = Some b → σ !! d = Some c → back σ n d = Some p →
  IsMatMulV4Active params (nHeight b) = true → val (nAuthenticatedChainWork b) < val (nChainWork b) → 0 ≤ allow →
  val (nAuthenticatedChainWork c) = val (nAuthenticatedChainWork b) ∧
  adjusted_work c allow ≤ val (nAuthenticatedChainWork b) + block_work (nBits c) * allow ∧
  (allowance_fits c allow → denotes (GetTrustAdjustedChainWork c allow) (adjusted_work c allow)).
Proof.
  intros Ht Hp Hd Hb Hv Hlt Hal. destruct (unauthenticated_suffix params σ Ht n p b d c Hp Hd Hb Hv Hlt) as [E _].
  assert (work_sound c) as Hs by (split; [by apply (tr_typed _ _ Ht d)|apply (auth_le_work params σ Ht d c Hd)]).
  split; [exact E|]. split; [rewrite <- E; apply (adjusted_work_bounds c allow Hs Hal)|].
  by apply GetTrustAdjustedChainWork_ok.
Qed.
