(* ===== verification/AsertParams.v ===== *)
(** The ASERT schedule.

    The part of [pow.cpp] that depends on the chain parameters alone:
    validation of the schedule ([ValidateMatMulAsertParams]), the height the
    current target is anchored at, and the proof-of-work limit in force. *)

From Stdlib Require Import ZArith Lia.
From stdpp Require Import base list numbers tactics.
From S2P Require Import Prelude ArithUint256 Compact Params Difficulty.
Import arith_uint256 Consensus difficulty.

Open Scope Z_scope.

Module asert_params.

(** A sequence of early [return false]. *)
Definition none (l : list bool) : bool := forallb negb l.

Definition enabled (h : Z) : bool := negb (IsDisabledHeight h).

Definition reducible (num den : Z) : bool := bool_decide (is_Some (ReduceRescaleRatioToU32 num den)).

Definition IsMatMulAsertHalfLifeUpgradeConfigured (params : Params) : bool :=
  negb (IsDisabledHeight (nMatMulAsertHalfLifeUpgradeHeight params)).
Definition IsMatMulPowLimitUpgradeConfigured (params : Params) : bool :=
  negb (IsDisabledHeight (nMatMulPowLimitUpgradeHeight params)).

Definition validate_scalars (params : Params) : bool :=
  none [nMatMulAsertHalfLife params <=? 0;
        nPowTargetSpacing params <=? 0;
        nMatMulAsertBootstrapFactor params =? 0;
        nMatMulAsertRetuneHardeningFactor params =? 0;
        (nMatMulAsertRetune2TargetNum params =? 0) || (nMatMulAsertRetune2TargetDen params =? 0);
        (nMatMulStallRecoveryAsertNum params =? 0) || (nMatMulStallRecoveryAsertDen params =? 0);
        negb (reducible (nMatMulStallRecoveryAsertNum params) (nMatMulStallRecoveryAsertDen params));
        nMatMulMaxBlockTimeAdvance params <? 0;
        nMatMulAsertClampedMinInterval params <? 0].

Definition validate_stall_recovery (params : Params) : bool :=
  let h := nMatMulStallRecoveryHeight params in
  let collides other := negb (IsDisabledHeight other) && (other =? h) in
  if negb (IsDisabledHeight h) then
    none [h <? nMatMulAsertHeight params;
          collides (nMatMulAsertHeight params) ||
          collides (nMatMulAsertRetuneHeight params) ||
          collides (nMatMulAsertRetune2Height params) ||
          collides (nMatMulV4Height params) ||
          collides (nMatMulBMX4CHeight params) ||
          collides (nMatMulDRLTHeight params) ||
          collides (nMatMulRCHeight params) ||
          collides (nMatMulRCCoupledHeight params) ||
          collides (nMatMulPowLimitUpgradeHeight params) ||
          collides (nMatMulAsertHalfLifeUpgradeHeight params)]
  else true.

Definition inert (num den : Z) : bool := num =? den.

Definition both (h k : Z) : bool := enabled h && enabled k.

Definition validate_v4_bmx4c_drlt (params : Params) : bool :=
  let asert := nMatMulAsertHeight params in
  let v4 := nMatMulV4Height params in
  let bmx4c := nMatMulBMX4CHeight params in
  let drlt := nMatMulDRLTHeight params in
  none [negb (reducible (nMatMulV4AsertRescaleNum params) (nMatMulV4AsertRescaleDen params));
        enabled v4 && (v4 <? asert);
        negb (reducible (nMatMulBMX4CAsertRescaleNum params) (nMatMulBMX4CAsertRescaleDen params));
        enabled bmx4c && (bmx4c <? asert);
        negb (reducible (nMatMulDRLTAsertRescaleNum params) (nMatMulDRLTAsertRescaleDen params));
        enabled drlt && (drlt <? asert);
        both drlt bmx4c && (drlt <? bmx4c);
        both drlt bmx4c && (drlt =? bmx4c)
          && negb (inert (nMatMulDRLTAsertRescaleNum params) (nMatMulDRLTAsertRescaleDen params))].

Definition validate_rc (params : Params) : bool :=
  let asert := nMatMulAsertHeight params in
  let drlt := nMatMulDRLTHeight params in
  let rc := nMatMulRCHeight params in
  let coupled := nMatMulRCCoupledHeight params in
  let reduced :=
    if IsMatMulV47EpochAActivationTuple params
    then bool_decide (is_Some (ReduceRescaleRatioToU64 (nMatMulRCAsertRescaleNum params) (nMatMulRCAsertRescaleDen params)))
    else reducible (nMatMulRCAsertRescaleNum params) (nMatMulRCAsertRescaleDen params) in
  none [negb reduced;
        enabled rc && (rc <? asert);
        both rc drlt && (rc <? drlt);
        both rc drlt && (rc =? drlt)
          && negb (inert (nMatMulDRLTAsertRescaleNum params) (nMatMulDRLTAsertRescaleDen params));
        negb (reducible (nMatMulRCCoupledAsertRescaleNum params) (nMatMulRCCoupledAsertRescaleDen params));
        enabled coupled && (coupled <? asert);
        both coupled rc && (coupled <? rc);
        both coupled rc && (coupled =? rc)
          && negb (inert (nMatMulRCCoupledAsertRescaleNum params) (nMatMulRCCoupledAsertRescaleDen params))].

Definition validate_unified (params : Params) : bool :=
  let v4 := nMatMulV4Height params in
  let bmx4c := nMatMulBMX4CHeight params in
  let rc := nMatMulRCHeight params in
  none [both bmx4c v4 && (bmx4c <? v4);
        both bmx4c v4 && (bmx4c =? v4) && negb (inert (nMatMulV4AsertRescaleNum params) (nMatMulV4AsertRescaleDen params));
        both rc bmx4c && (rc =? bmx4c) && negb (inert (nMatMulBMX4CAsertRescaleNum params) (nMatMulBMX4CAsertRescaleDen params));
        both rc v4 && (rc =? v4) && negb (inert (nMatMulV4AsertRescaleNum params) (nMatMulV4AsertRescaleDen params))].

Definition shadowed_by_earlier (params : Params) (h : Z) : bool :=
  (enabled (nMatMulAsertHeight params) && (h =? nMatMulAsertHeight params)) ||
  (enabled (nMatMulAsertRetuneHeight params) && (h =? nMatMulAsertRetuneHeight params)) ||
  (enabled (nMatMulAsertRetune2Height params) && (h =? nMatMulAsertRetune2Height params)) ||
  (enabled (nMatMulPowLimitUpgradeHeight params) && (h =? nMatMulPowLimitUpgradeHeight params)) ||
  (enabled (nMatMulStallRecoveryHeight params) && (h =? nMatMulStallRecoveryHeight params)).

Definition validate_shadowing (params : Params) : bool :=
  let v4 := nMatMulV4Height params in
  let bmx4c := nMatMulBMX4CHeight params in
  let drlt := nMatMulDRLTHeight params in
  let rc := nMatMulRCHeight params in
  let coupled := nMatMulRCCoupledHeight params in
  let at_ h k := enabled k && (h =? k) in
  none [enabled v4 && negb (inert (nMatMulV4AsertRescaleNum params) (nMatMulV4AsertRescaleDen params))
          && (shadowed_by_earlier params v4 || at_ v4 rc);
        enabled bmx4c && negb (inert (nMatMulBMX4CAsertRescaleNum params) (nMatMulBMX4CAsertRescaleDen params))
          && (shadowed_by_earlier params bmx4c || at_ bmx4c rc);
        enabled drlt && negb (inert (nMatMulDRLTAsertRescaleNum params) (nMatMulDRLTAsertRescaleDen params))
          && (shadowed_by_earlier params drlt || at_ drlt v4 || at_ drlt bmx4c || at_ drlt rc);
        enabled rc && negb (inert (nMatMulRCAsertRescaleNum params) (nMatMulRCAsertRescaleDen params))
          && shadowed_by_earlier params rc;
        enabled coupled && negb (inert (nMatMulRCCoupledAsertRescaleNum params) (nMatMulRCCoupledAsertRescaleDen params))
          && (shadowed_by_earlier params coupled || at_ coupled v4 || at_ coupled bmx4c || at_ coupled drlt || at_ coupled rc)].

Definition validate_retunes (params : Params) : bool :=
  let asert := nMatMulAsertHeight params in
  let retune := nMatMulAsertRetuneHeight params in
  let retune2 := nMatMulAsertRetune2Height params in
  let retune_enabled := negb (IsDisabledHeight retune) in
  let retune2_enabled := negb (IsDisabledHeight retune2) in
  let retune_non_inert := retune_enabled && (1 <? nMatMulAsertRetuneHardeningFactor params) in
  let retune2_non_inert := retune2_enabled
    && negb (nMatMulAsertRetune2TargetNum params =? nMatMulAsertRetune2TargetDen params) in
  none [retune_enabled && (retune <? asert);
        retune2_enabled && (retune2 <? asert);
        retune_enabled && retune2_enabled && (retune2 <? retune);
        retune_non_inert && (retune =? asert);
        retune2_non_inert && (retune2 =? asert);
        retune2_non_inert && retune_enabled && (retune2 =? retune)].

Definition validate_pow_limit_upgrade (params : Params) : result bool :=
  if IsMatMulPowLimitUpgradeConfigured params then
    let h := nMatMulPowLimitUpgradeHeight params in
    let strictly_after other := IsDisabledHeight other || (other <? h) in
    let historical := UintToArith256 (powLimit params) in
    let upgraded := UintToArith256 (powLimitUpgrade params) in
    if negb (none [h <=? nMatMulAsertHeight params;
                   negb (strictly_after (nMatMulAsertRetuneHeight params)) ||
                   negb (strictly_after (nMatMulAsertRetune2Height params)) ||
                   negb (strictly_after (nMatMulV4Height params)) ||
                   negb (strictly_after (nMatMulBMX4CHeight params)) ||
                   negb (strictly_after (nMatMulDRLTHeight params)) ||
                   negb (strictly_after (nMatMulRCHeight params)) ||
                   negb (strictly_after (nMatMulRCCoupledHeight params));
                   EqualTo upgraded 0 || geb upgraded historical]) then Ok false
    else
      c ← GetCompact upgraded false;
      let '(decoded, negative, overflow) := SetCompact c in
      Ok (negb (negative || overflow || EqualTo decoded 0))
  else Ok true.

Definition validate_half_life_upgrade (params : Params) : bool :=
  if IsMatMulAsertHalfLifeUpgradeConfigured params then
    let anchor := nMatMulAsertHeight params in
    let anchor := if enabled (nMatMulAsertRetuneHeight params) then Z.max anchor (nMatMulAsertRetuneHeight params) else anchor in
    let anchor := if enabled (nMatMulAsertRetune2Height params) then Z.max anchor (nMatMulAsertRetune2Height params) else anchor in
    let anchor := if IsMatMulPowLimitUpgradeConfigured params then Z.max anchor (nMatMulPowLimitUpgradeHeight params) else anchor in
    none [nMatMulAsertHalfLifeUpgrade params <=? 0; nMatMulAsertHalfLifeUpgradeHeight params <=? anchor]
  else true.

(** [next_height] only labels the log lines. *)
Definition ValidateMatMulAsertParams (params : Params) (next_height : Z) : result bool :=
  if negb (validate_scalars params && validate_stall_recovery params && validate_v4_bmx4c_drlt params && validate_rc params
           && validate_unified params && validate_shadowing params && validate_retunes params) then Ok false
  else
    limit_ok ← validate_pow_limit_upgrade params;
    if negb limit_ok then Ok false else Ok (validate_half_life_upgrade params).

(** ** Anchors. [tip_height] is [pindexLast->nHeight], [None] for a null tip. *)
Definition reanchor (tip h anchor : Z) : Z :=
  if negb (IsDisabledHeight h) && (h <=? tip) && (anchor <? h) then h else anchor.

Definition LatestMatMulAsertPreUpgradeAnchorHeight (tip_height : option Z) (params : Params) : Z :=
  let anchor := nMatMulAsertHeight params in
  match tip_height with
  | None => anchor
  | Some tip =>
      let anchor :=
        if (nMatMulAsertHeight params <=? nMatMulAsertRetune2Height params) && (nMatMulAsertRetune2Height params <=? tip)
        then nMatMulAsertRetune2Height params
        else if (nMatMulAsertHeight params <=? nMatMulAsertRetuneHeight params) && (nMatMulAsertRetuneHeight params <=? tip)
        then nMatMulAsertRetuneHeight params
        else anchor in
      let anchor := reanchor tip (nMatMulV4Height params) anchor in
      let anchor := reanchor tip (nMatMulBMX4CHeight params) anchor in
      let anchor := reanchor tip (nMatMulDRLTHeight params) anchor in
      let anchor := reanchor tip (nMatMulRCHeight params) anchor in
      let anchor := reanchor tip (nMatMulRCCoupledHeight params) anchor in
      let anchor := reanchor tip (nMatMulPowLimitUpgradeHeight params) anchor in
      reanchor tip (nMatMulStallRecoveryHeight params) anchor
  end.

Record MatMulAsertHalfLifeInfo := mkHalfLifeInfo {
  current_half_life_s : Z;
  current_anchor_height : Z;
  upgrade_configured : bool;
  upgrade_active : bool;
  upgrade_height : Z;
  upgrade_half_life_s : Z;
}.

Definition ResolveMatMulAsertHalfLifeInfo (tip_height : option Z) (params : Params) : MatMulAsertHalfLifeInfo :=
  let half_life := nMatMulAsertHalfLife params in
  let anchor := LatestMatMulAsertPreUpgradeAnchorHeight tip_height params in
  let configured := IsMatMulAsertHalfLifeUpgradeConfigured params in
  let height := if configured then nMatMulAsertHalfLifeUpgradeHeight params else -1 in
  let upgraded := if configured then nMatMulAsertHalfLifeUpgrade params else nMatMulAsertHalfLife params in
  let passed := match tip_height with Some tip => nMatMulAsertHalfLifeUpgradeHeight params <=? tip | None => false end in
  if configured && passed
  then mkHalfLifeInfo (nMatMulAsertHalfLifeUpgrade params) (Z.max anchor (nMatMulAsertHalfLifeUpgradeHeight params))
         configured true height upgraded
  else mkHalfLifeInfo half_life anchor configured false height upgraded.

Definition MatMulAsertPowLimitForNextHeight (params : Params) (next_height : Z) : list Z :=
  let historical := UintToArith256 (powLimit params) in
  if (next_height <? 0) || IsDisabledHeight (nMatMulPowLimitUpgradeHeight params)
     || (next_height <? nMatMulPowLimitUpgradeHeight params) then historical
  else
    let upgraded := UintToArith256 (powLimitUpgrade params) in
    if EqualTo upgraded 0 || geb upgraded historical then historical else upgraded.

End asert_params.
Import asert_params.

(** ** The limit in force *)
Record limits_ok (params : Params) : Prop := mkLimits {
  lim_historical : is_uint256 (powLimit params);
  lim_upgrade : is_uint256 (powLimitUpgrade params);
  lim_pos : 0 < le_word (powLimit params);
}.

Lemma MatMulAsertPowLimit_ok params h :
  limits_ok params →
  let l := MatMulAsertPowLimitForNextHeight params h in is_arith l ∧ 0 < val l ≤ le_word (powLimit params).
Proof.
  intros [Hh Hu Hpos] l. unfold l, MatMulAsertPowLimitForNextHeight.
  destruct (UintToArith256_val _ Hh) as [Hah Eh]. destruct (UintToArith256_val _ Hu) as [Hau Eu].
  destruct (_ || _ || _); [by rewrite Eh|]. rewrite EqualTo_val by (done || lia).
  rewrite geb_val by (apply Hau || apply Hah || (rewrite (proj1 Hau), (proj1 Hah); done)).
  pose proof (is_arith_bound _ Hau). destruct (Z.eqb_spec (val (UintToArith256 (powLimitUpgrade params))) 0); cbn [orb]; [by rewrite Eh|].
  destruct (Z.leb_spec (val (UintToArith256 (powLimit params))) (val (UintToArith256 (powLimitUpgrade params)))); [by rewrite Eh|].
  split; [done|]. lia.
Qed.

(** ** What validation establishes *)
Lemma none_cons b l : none (b :: l) = negb b && none l.
Proof. done. Qed.

(** Heights at which ASERT starts over from a fixed target. *)
Definition fork_heights (params : Params) : list Z :=
  [nMatMulAsertHeight params; nMatMulAsertRetuneHeight params; nMatMulAsertRetune2Height params; nMatMulV4Height params;
   nMatMulBMX4CHeight params; nMatMulDRLTHeight params; nMatMulRCHeight params; nMatMulRCCoupledHeight params;
   nMatMulPowLimitUpgradeHeight params; nMatMulStallRecoveryHeight params; nMatMulAsertHalfLifeUpgradeHeight params].

Ltac unfold_validation :=
  unfold validate_scalars, validate_stall_recovery, validate_v4_bmx4c_drlt, validate_rc, validate_unified, validate_shadowing,
    validate_retunes, validate_half_life_upgrade, shadowed_by_earlier, both, enabled, inert, IsMatMulAsertHalfLifeUpgradeConfigured,
    IsMatMulPowLimitUpgradeConfigured, IsDisabledHeight in *; cbv zeta in *; rewrite ?none_cons in *; cbn [none forallb] in *.

Lemma validated_parts params h :
  ValidateMatMulAsertParams params h = Ok true →
  validate_scalars params = true ∧ validate_stall_recovery params = true ∧ validate_v4_bmx4c_drlt params = true ∧
  validate_rc params = true ∧ validate_unified params = true ∧ validate_shadowing params = true ∧
  validate_retunes params = true ∧ validate_pow_limit_upgrade params = Ok true ∧ validate_half_life_upgrade params = true.
Proof.
  unfold ValidateMatMulAsertParams. destruct (negb _) eqn:E; [done|]. apply negb_false_iff in E. rewrite !andb_true_iff in E.
  intros (b & Hb & Hv)%bind_Ok_inv. destruct b; [|done]. simplify_eq/=. rewrite Hv. tauto.
Qed.

Lemma pow_limit_upgrade_heights params :
  validate_pow_limit_upgrade params = Ok true → nMatMulPowLimitUpgradeHeight params ≠ INT32_MAX →
  nMatMulAsertHeight params < nMatMulPowLimitUpgradeHeight params ∧
  ∀ h, h ∈ [nMatMulAsertRetuneHeight params; nMatMulAsertRetune2Height params; nMatMulV4Height params;
            nMatMulBMX4CHeight params; nMatMulDRLTHeight params; nMatMulRCHeight params; nMatMulRCCoupledHeight params] →
    h ≠ INT32_MAX → h < nMatMulPowLimitUpgradeHeight params.
Proof.
  unfold validate_pow_limit_upgrade, IsMatMulPowLimitUpgradeConfigured, IsDisabledHeight. intros H Hne.
  rewrite (proj2 (Z.eqb_neq _ _)) in H by done. cbn [negb] in H. destruct (negb (none _)) eqn:E; [done|]. clear H.
  rewrite !none_cons in E. cbn [none forallb] in E. apply negb_false_iff in E. rewrite !andb_true_iff in E. destruct E as (E1 & E2 & _).
  cbv beta in E2. split; [lia|]. intros h Hh Hen.
  repeat (apply elem_of_cons in Hh as [->|Hh]; [lia|]). by apply not_elem_of_nil in Hh.
Qed.

(** Orderings between the configured heights. *)
Record schedule (params : Params) : Prop := mkSchedule {
  sc_half_life : 0 < nMatMulAsertHalfLife params;
  sc_half_life_up : nMatMulAsertHalfLifeUpgradeHeight params ≠ INT32_MAX → 0 < nMatMulAsertHalfLifeUpgrade params;
  sc_spacing : 0 < nPowTargetSpacing params;
  sc_after h : h ∈ fork_heights params → h ≠ INT32_MAX → nMatMulAsertHeight params ≤ h;
  sc_retunes : nMatMulAsertRetuneHeight params ≠ INT32_MAX → nMatMulAsertRetune2Height params ≠ INT32_MAX →
    nMatMulAsertRetuneHeight params ≤ nMatMulAsertRetune2Height params;
}.

Lemma validated_schedule params h : ValidateMatMulAsertParams params h = Ok true → schedule params.
Proof.
  intros (Hs & Hst & Hv & Hrc & _ & _ & Hre & Hpl & Hhl)%validated_parts. constructor.
  - unfold_validation. lia.
  - intros Hne. clear -Hhl Hne. unfold_validation. rewrite (proj2 (Z.eqb_neq _ _)) in Hhl by done. cbn [negb] in Hhl. lia.
  - unfold_validation. lia.
  - intros k Hk Hen. unfold fork_heights in Hk.
    apply elem_of_cons in Hk as [->|Hk]; [lia|].
    do 2 (apply elem_of_cons in Hk as [->|Hk]; [clear -Hre Hen; unfold_validation; lia|]).
    do 3 (apply elem_of_cons in Hk as [->|Hk]; [clear -Hv Hen; unfold_validation; lia|]).
    do 2 (apply elem_of_cons in Hk as [->|Hk]; [clear -Hrc Hen; unfold_validation; lia|]).
    apply elem_of_cons in Hk as [->|Hk]; [pose proof (pow_limit_upgrade_heights params Hpl Hen) as [? _]; lia|].
    apply elem_of_cons in Hk as [->|Hk].
    { clear -Hst Hen. unfold_validation. rewrite (proj2 (Z.eqb_neq _ _)) in Hst by done. cbn [negb] in Hst. lia. }
    apply list_elem_of_singleton in Hk as ->.
    clear -Hhl Hen. unfold_validation. rewrite (proj2 (Z.eqb_neq _ _)) in Hhl by done. cbn [negb] in Hhl. repeat case_match; lia.
  - intros ? ?. clear -Hre H H0. unfold_validation. lia.
Qed.

(** ** Anchors *)
Lemma reanchor_max tip h a : tip < INT32_MAX → reanchor tip h a = if decide (h ≤ tip) then Z.max a h else a.
Proof.
  intros Ht. unfold reanchor, IsDisabledHeight. destruct (decide (h ≤ tip)).
  - rewrite (proj2 (Z.eqb_neq _ _)), (proj2 (Z.leb_le _ _)) by lia. cbn [negb andb]. destruct (Z.ltb_spec a h); lia.
  - rewrite (proj2 (Z.leb_gt _ _)) by lia. by rewrite andb_false_r.
Qed.

Definition latest (tip : Z) (hs : list Z) (a : Z) : Z := foldl (λ a h, if decide (h ≤ tip) then Z.max a h else a) a hs.

Lemma latest_spec tip hs a :
  a ≤ tip → latest tip hs a ∈ a :: hs ∧ a ≤ latest tip hs a ≤ tip ∧ ∀ h, h ∈ hs → h ≤ tip → h ≤ latest tip hs a.
Proof.
  unfold latest. revert a. induction hs as [|h hs IH]; intros a Ha; simpl.
  { split_and!; [apply list_elem_of_here|lia..|]. intros h Hh. by apply not_elem_of_nil in Hh. }
  set (a' := if decide (h ≤ tip) then Z.max a h else a). assert (a ≤ a' ≤ tip ∧ (h ≤ tip → h ≤ a') ∧ (a' = a ∨ a' = h)) as (Hb & Hh & Hc).
  { unfold a'. case_decide; lia. }
  destruct (IH a' ltac:(lia)) as (IH1 & IH2 & IH3). rewrite !elem_of_cons in IH1 |- *. split_and!; [|lia..|].
  - destruct IH1 as [E|E]; [rewrite E|]; rewrite elem_of_cons; tauto.
  - intros k [->|Hk]%elem_of_cons Hle; [pose proof (Hh Hle); lia|by apply IH3].
Qed.

Lemma retune_anchor params tip :
  schedule params → nMatMulAsertHeight params ≤ tip < INT32_MAX →
  (if (nMatMulAsertHeight params <=? nMatMulAsertRetune2Height params) && (nMatMulAsertRetune2Height params <=? tip)
   then nMatMulAsertRetune2Height params
   else if (nMatMulAsertHeight params <=? nMatMulAsertRetuneHeight params) && (nMatMulAsertRetuneHeight params <=? tip)
   then nMatMulAsertRetuneHeight params else nMatMulAsertHeight params)
  = latest tip [nMatMulAsertRetuneHeight params; nMatMulAsertRetune2Height params] (nMatMulAsertHeight params).
Proof.
  intros Hsc Htip. pose proof (sc_retunes _ Hsc) as Hre.
  pose proof (sc_after _ Hsc (nMatMulAsertRetuneHeight params) ltac:(unfold fork_heights; rewrite !elem_of_cons; tauto)) as Hi1.
  pose proof (sc_after _ Hsc (nMatMulAsertRetune2Height params) ltac:(unfold fork_heights; rewrite !elem_of_cons; tauto)) as Hi2.
  unfold latest. simpl. set (h0 := nMatMulAsertHeight params) in *. set (h1 := nMatMulAsertRetuneHeight params) in *.
  set (h2 := nMatMulAsertRetune2Height params) in *. clearbody h0 h1 h2. clear Hsc.
  destruct (Z.leb_spec h0 h2), (Z.leb_spec h2 tip), (Z.leb_spec h0 h1), (Z.leb_spec h1 tip); cbn [andb];
    repeat case_decide; lia.
Qed.

(** The anchor is the latest starting height the tip has reached. *)
Lemma anchor_latest params tip :
  schedule params → nMatMulAsertHeight params ≤ tip < INT32_MAX →
  current_anchor_height (ResolveMatMulAsertHalfLifeInfo (Some tip) params) =
  latest tip (tail (fork_heights params)) (nMatMulAsertHeight params).
Proof.
  intros Hsc Htip. unfold ResolveMatMulAsertHalfLifeInfo, LatestMatMulAsertPreUpgradeAnchorHeight. rewrite retune_anchor by done.
  rewrite !reanchor_max by lia. set (b := latest tip [_; _] _).
  change (latest tip (tail (fork_heights params)) (nMatMulAsertHeight params)) with
    (latest tip (drop 3 (fork_heights params)) b). clearbody b. unfold latest. simpl.
  unfold IsMatMulAsertHalfLifeUpgradeConfigured, IsDisabledHeight.
  set (h := nMatMulAsertHalfLifeUpgradeHeight params). destruct (decide (h ≤ tip)) as [Hd|Hd].
  - rewrite (proj2 (Z.eqb_neq h _)), (proj2 (Z.leb_le h _)) by lia. done.
  - rewrite (proj2 (Z.leb_gt h _)), andb_false_r by lia. done.
Qed.

Lemma anchor_bounds params tip :
  schedule params → nMatMulAsertHeight params ≤ tip < INT32_MAX →
  let a := current_anchor_height (ResolveMatMulAsertHalfLifeInfo (Some tip) params) in
  a ∈ fork_heights params ∧ nMatMulAsertHeight params ≤ a ≤ tip ∧ ∀ h, h ∈ fork_heights params → h ≤ tip → h ≤ a.
Proof.
  intros Hsc Htip a. unfold a. rewrite anchor_latest by done.
  destruct (latest_spec tip (tail (fork_heights params)) (nMatMulAsertHeight params) ltac:(lia)) as (H1 & H2 & H3).
  change (nMatMulAsertHeight params :: tail (fork_heights params)) with (fork_heights params) in H1. split_and!; [done|lia..|].
  intros h Hh Hle. change (fork_heights params) with (nMatMulAsertHeight params :: tail (fork_heights params)) in Hh.
  apply elem_of_cons in Hh as [->|Hh]; [lia|by apply H3].
Qed.

(** Between two forks the anchor does not move. *)
Lemma anchor_stable params tip tip' :
  schedule params → nMatMulAsertHeight params ≤ tip → tip' < INT32_MAX →
  current_anchor_height (ResolveMatMulAsertHalfLifeInfo (Some tip') params) ≤ tip ≤ tip' →
  current_anchor_height (ResolveMatMulAsertHalfLifeInfo (Some tip) params) =
  current_anchor_height (ResolveMatMulAsertHalfLifeInfo (Some tip') params).
Proof.
  intros Hsc Hlo Hhi Ha. destruct (anchor_bounds params tip Hsc ltac:(lia)) as (I1 & B1 & M1).
  destruct (anchor_bounds params tip' Hsc ltac:(lia)) as (I2 & B2 & M2). pose proof (M1 _ I2 ltac:(lia)). pose proof (M2 _ I1 ltac:(lia)). lia.
Qed.

Lemma half_life_pos params tip : schedule params → 0 < current_half_life_s (ResolveMatMulAsertHalfLifeInfo tip params).
Proof.
  intros Hsc. pose proof (sc_half_life _ Hsc). pose proof (sc_half_life_up _ Hsc) as Hu.
  unfold ResolveMatMulAsertHalfLifeInfo, IsMatMulAsertHalfLifeUpgradeConfigured, IsDisabledHeight.
  destruct (Z.eqb_spec (nMatMulAsertHalfLifeUpgradeHeight params) INT32_MAX); cbn [negb andb current_half_life_s]; [done|].
  case_match; cbn [current_half_life_s]; [by apply Hu|done].
Qed.

(** ** Properties *)

(** For a schedule that passes validation, the height the target is
    anchored at is the latest configured fork the tip has reached, and it does
    not move between forks. *)
Theorem anchor_is_latest_fork params next tip :
  ValidateMatMulAsertParams params next = Ok true → nMatMulAsertHeight params ≤ tip < INT32_MAX →
  let anchor t := current_anchor_height (ResolveMatMulAsertHalfLifeInfo (Some t) params) in
  anchor tip ∈ fork_heights params ∧ nMatMulAsertHeight params ≤ anchor tip ≤ tip ∧
  (∀ h, h ∈ fork_heights params → h ≤ tip → h ≤ anchor tip) ∧
  (∀ t, nMatMulAsertHeight params ≤ t → anchor tip ≤ t ≤ tip → anchor t = anchor tip).
Proof.
  intros Hv Ht anchor. pose proof (validated_schedule params next Hv) as Hs.
  destruct (anchor_bounds params tip Hs Ht) as (H1 & H2 & H3). split; [exact H1|]. split; [exact H2|]. split; [exact H3|].
  intros t Hlo Hr. exact (anchor_stable params t tip Hs Hlo (proj2 Ht) Hr).
Qed.
