(* ===== verification/Credit.v ===== *)
(** Time credit for clamped blocks.

    [MatMulAsertClampedTimeCredit] of [pow.cpp]: the seconds credited to blocks
    whose timestamp was held back by the block time cap, summed from the ASERT
    anchor to the tip. The sum is memoised in the block index under a key that
    mixes the block time and the schedule, so the function reads and writes the
    shared index. *)

From Stdlib Require Import ZArith Lia.
From stdpp Require Import base list numbers gmap tactics.
From S2P Require Import Prelude Params BlockIndex.
Import Consensus block_index.

Open Scope Z_scope.

Module credit.

Definition GOLDEN : Z := 0x9e3779b97f4a7c15.

Definition mix (key v : Z) : Z :=
  Z.lxor key (u64 (u64 (u64 (v + GOLDEN) + u64 (Z.shiftl key 6)) + Z.shiftr key 2)).

Definition ClampedAsertCreditCacheKey (block : CBlockIndex) (recovery_height max_advance min_interval : Z) : Z :=
  let key := GOLDEN in
  let key := mix key (u32 recovery_height) in
  let key := mix key (u64 max_advance) in
  let key := mix key (u64 min_interval) in
  let key := mix key (nTime block) in
  let key := mix key (u32 (nHeight block)) in
  if key =? 0 then 1 else key.

Definition key_for (params : Params) (block : CBlockIndex) : Z :=
  ClampedAsertCreditCacheKey block (nMatMulStallRecoveryHeight params) (nMatMulMaxBlockTimeAdvance params)
    (MatMulAsertClampedMinIntervalSeconds params).

Fixpoint collect_uncached (fuel : nat) (σ : BlockMap) (params : Params) (anchor : list Z) (pindex : option (list Z))
    (uncached : list (list Z)) : result (list (list Z) * Z) :=
  match pindex with
  | None => Ok (uncached, 0)
  | Some p =>
      if decide (p = anchor) then Ok (uncached, 0)
      else
        b ← deref σ p;
        if negb (nMatMulStallRecoveryHeight params <=? nHeight b) then Ok (uncached, 0)
        else if nMatMulClampedAsertCreditKey b =? key_for params b then Ok (uncached, nMatMulClampedAsertCredit b)
        else match fuel with
             | O => Err EFuel
             | S fuel => collect_uncached fuel σ params anchor (pprev b) (uncached ++ [p])
             end
  end.

Definition sat_add (credit extra : Z) : Z :=
  if s64 (INT64_MAX - extra) <? credit then INT64_MAX else s64 (credit + extra).

(** The credit of one block, given its parent and the parent's median time. *)
Definition add_block_credit (params : Params) (block prev : CBlockIndex) (mtp credit : Z) : Z :=
  let min_interval := MatMulAsertClampedMinIntervalSeconds params in
  match MaxMatMulAllowedBlockTime params (nHeight block) (GetBlockTime prev) mtp with
  | Some max_time =>
      if max_time <=? GetBlockTime block then
        let actual := s64 (GetBlockTime block - GetBlockTime prev) in
        let actual := if actual <? 0 then 0 else actual in
        if actual <? min_interval then sat_add credit (s64 (min_interval - actual)) else credit
      else credit
  | None => credit
  end.

Definition set_credit (b : CBlockIndex) (credit key : Z) : CBlockIndex :=
  mkIndex (pprev b) (pskip b) (nHeight b) (nChainWork b) (nAuthenticatedChainWork b) (nStatus b) (nTime b) (nBits b)
    (nTimeMax b) key credit.

Fixpoint fill (σ : BlockMap) (params : Params) (blocks : list (list Z)) (credit : Z) : result (Z * BlockMap) :=
  match blocks with
  | [] => Ok (credit, σ)
  | p :: blocks =>
      b ← deref σ p;
      match pprev b with
      | None => Ok (credit, σ)
      | Some q =>
          prev ← deref σ q;
          mtp ← GetMedianTimePast σ q;
          let credit := add_block_credit params b prev mtp credit in
          let σ := <[p := set_credit b credit (key_for params b)]> σ in
          if credit =? INT64_MAX then Ok (credit, σ) else fill σ params blocks credit
      end
  end.

Definition MatMulAsertClampedTimeCredit (σ : BlockMap) (pindexLast anchor : list Z) (params : Params) : result (Z * BlockMap) :=
  b ← deref σ pindexLast;
  if negb (IsMatMulStallRecoveryActive params (nHeight b)) then Ok (0, σ)
  else if MatMulAsertClampedMinIntervalSeconds params <=? 0 then Ok (0, σ)
  else
    '(uncached, credit) ← collect_uncached (S (Z.to_nat (nHeight b))) σ params anchor (Some pindexLast) [];
    fill σ params (rev uncached) credit.

End credit.
Import credit.

(** ** The sum without a cache *)
Definition credit_step (σ : BlockMap) (params : Params) (b : CBlockIndex) (q : list Z) (credit : Z) : Z :=
  match σ !! q, GetMedianTimePast σ q with
  | Some prev, Ok mtp => add_block_credit params b prev mtp credit
  | _, _ => credit
  end.

(** The credit of the [n] blocks that end at [p]. *)
Fixpoint credit_ref (σ : BlockMap) (params : Params) (n : nat) (p : list Z) : Z :=
  match n with
  | O => 0
  | S n =>
      match σ !! p with
      | Some b => match pprev b with Some q => credit_step σ params b q (credit_ref σ params n q) | None => 0 end
      | None => 0
      end
  end.

(** ** Cache entries do not matter to what is computed *)
Definition same_but_cache (σ σ' : BlockMap) : Prop :=
  ∀ p, (λ b, set_credit b 0 0) <$> σ !! p = (λ b, set_credit b 0 0) <$> σ' !! p.

Lemma set_credit_inj b b' : set_credit b 0 0 = set_credit b' 0 0 →
  pprev b = pprev b' ∧ pskip b = pskip b' ∧ nHeight b = nHeight b' ∧ nTime b = nTime b' ∧ nBits b = nBits b'.
Proof. destruct b, b'. unfold set_credit. cbn. intros H. injection H. intros. subst. done. Qed.

Lemma same_but_cache_lookup σ σ' p b : same_but_cache σ σ' → σ !! p = Some b →
  ∃ b', σ' !! p = Some b' ∧ set_credit b 0 0 = set_credit b' 0 0.
Proof. intros H Hp. specialize (H p). rewrite Hp in H. destruct (σ' !! p) as [b'|]; [|done]. apply (inj Some) in H. eauto. Qed.

Lemma same_but_cache_refl σ : same_but_cache σ σ.
Proof. done. Qed.

Lemma same_but_cache_trans σ1 σ2 σ3 : same_but_cache σ1 σ2 → same_but_cache σ2 σ3 → same_but_cache σ1 σ3.
Proof. intros H1 H2 p. by rewrite (H1 p), (H2 p). Qed.

Lemma same_but_cache_sym σ σ' : same_but_cache σ σ' → same_but_cache σ' σ.
Proof. intros H p. by rewrite (H p). Qed.

Lemma same_but_cache_insert σ p b c k : σ !! p = Some b → same_but_cache σ (<[p := set_credit b c k]> σ).
Proof.
  intros Hp q. destruct (decide (q = p)) as [->|]; [by rewrite lookup_insert_eq, Hp|by rewrite lookup_insert_ne].
Qed.

Lemma linked_same_cache σ σ' : same_but_cache σ σ' → linked σ → linked σ'.
Proof.
  intros H. apply linked_same. intros p. specialize (H p). destruct (σ !! p) as [b|], (σ' !! p) as [b'|]; try done.
  apply (inj Some) in H. apply set_credit_inj in H. simpl. destruct H as (-> & -> & -> & _). done.
Qed.

Lemma deref_same_cache σ σ' p : same_but_cache σ σ' →
  (∃ b b', deref σ p = Ok b ∧ deref σ' p = Ok b' ∧ pprev b = pprev b' ∧ nTime b = nTime b') ∨
  (deref σ p = Err EBounds ∧ deref σ' p = Err EBounds).
Proof.
  intros H. specialize (H p). unfold deref. destruct (σ !! p) as [b|], (σ' !! p) as [b'|]; try done; [|by right].
  apply (inj Some) in H. apply set_credit_inj in H. left. exists b, b'. tauto.
Qed.

Lemma past_times_same σ σ' i q : same_but_cache σ σ' → past_times σ i q = past_times σ' i q.
Proof.
  intros H. revert q. induction i as [|i IH]; intros [p|]; [done..| |done]. simpl. unfold GetBlockTime.
  destruct (deref_same_cache σ σ' p H) as [(b & b' & -> & -> & E & Et)|[-> ->]]; [|done]. rewrite !bind_Ok, E, Et, IH. done.
Qed.

Lemma median_same σ σ' p : same_but_cache σ σ' → GetMedianTimePast σ p = GetMedianTimePast σ' p.
Proof. intros H. unfold GetMedianTimePast. by rewrite (past_times_same σ σ'). Qed.

Lemma add_block_credit_same params b b' prev prev' mtp c :
  set_credit b 0 0 = set_credit b' 0 0 → set_credit prev 0 0 = set_credit prev' 0 0 →
  add_block_credit params b prev mtp c = add_block_credit params b' prev' mtp c.
Proof.
  intros (E1 & E2 & E3 & E4 & E5)%set_credit_inj (F1 & F2 & F3 & F4 & F5)%set_credit_inj.
  unfold add_block_credit, GetBlockTime. by rewrite E3, E4, F4.
Qed.

Lemma credit_ref_same σ σ' params n p : same_but_cache σ σ' → credit_ref σ params n p = credit_ref σ' params n p.
Proof.
  intros H. revert p. induction n as [|n IH]; intros p; [done|]. simpl. pose proof (H p) as Hp.
  destruct (σ !! p) as [b|], (σ' !! p) as [b'|]; try done. apply (inj Some) in Hp.
  destruct (set_credit_inj b b' Hp) as (-> & _). destruct (pprev b') as [q|]; [|done]. rewrite <- IH. unfold credit_step.
  rewrite <- (median_same σ σ') by done. pose proof (H q) as Hq. destruct (σ !! q) as [c|], (σ' !! q) as [c'|]; try done.
  apply (inj Some) in Hq. destruct (GetMedianTimePast σ q); [|done]. by apply add_block_credit_same.
Qed.

(** ** The memo is transparent *)
Lemma key_for_nonzero params b : key_for params b ≠ 0.
Proof. unfold key_for, ClampedAsertCreditCacheKey. cbv zeta. case_match; lia. Qed.

Lemma key_for_same params b b' : set_credit b 0 0 = set_credit b' 0 0 → key_for params b = key_for params b'.
Proof.
  intros (_ & _ & E3 & E4 & _)%set_credit_inj. unfold key_for, ClampedAsertCreditCacheKey. by rewrite E3, E4.
Qed.

(** Every entry whose key matches holds the sum from the anchor of its height;
    [anc] gives that anchor's height. *)
Definition cache_ok (params : Params) (anc : Z → Z) (σ : BlockMap) : Prop :=
  ∀ p b, σ !! p = Some b → nMatMulClampedAsertCreditKey b = key_for params b →
    nMatMulClampedAsertCredit b = credit_ref σ params (Z.to_nat (nHeight b - anc (nHeight b))) p.

(** A path from [r] (exclusive) up to [top]. *)
Inductive path_up (σ : BlockMap) : list Z → list (list Z) → list Z → Prop :=
| path_nil p : path_up σ p [] p
| path_cons r x b l top : σ !! x = Some b → pprev b = Some r → path_up σ x l top → path_up σ r (x :: l) top.

Section memo.
Context (params : Params) (anc : Z → Z) (A top_height : Z).
Hypothesis Hstable : ∀ h, A < h ≤ top_height → anc h = A.

Lemma sat_add_bound c e : 0 ≤ c ≤ INT64_MAX → 0 ≤ e ≤ INT64_MAX → sat_add c e = Z.min (c + e) INT64_MAX.
Proof.
  intros Hc He. unfold sat_add, s64, INT64_MAX in *. rewrite (to_signed_small 64 (_ - e)) by lia.
  destruct (Z.ltb_spec (2 ^ 63 - 1 - e) c); [lia|]. rewrite to_signed_small by lia. lia.
Qed.

Hypothesis Hmin : 0 < MatMulAsertClampedMinIntervalSeconds params ≤ INT64_MAX.

Definition times_typed (σ : BlockMap) : Prop := ∀ p b, σ !! p = Some b → 0 ≤ nTime b < 2 ^ 32.

Lemma block_credit_extra b prev mtp : 0 ≤ nTime b < 2 ^ 32 → 0 ≤ nTime prev < 2 ^ 32 →
  ∃ e, 0 ≤ e ≤ MatMulAsertClampedMinIntervalSeconds params ∧
    ∀ c, 0 ≤ c ≤ INT64_MAX → add_block_credit params b prev mtp c = Z.min (c + e) INT64_MAX.
Proof.
  intros Hb Hp. unfold add_block_credit, GetBlockTime, s64. set (m := MatMulAsertClampedMinIntervalSeconds params) in *.
  assert (∀ c, 0 ≤ c ≤ INT64_MAX → c = Z.min (c + 0) INT64_MAX) as H0 by lia.
  destruct (MaxMatMulAllowedBlockTime _ _ _ _) as [mt|]; [|exists 0; split; [lia|done]].
  destruct (mt <=? nTime b); [|exists 0; split; [lia|done]].
  rewrite (to_signed_small 64 (nTime b - nTime prev)) by lia.
  set (act := if nTime b - nTime prev <? 0 then 0 else nTime b - nTime prev).
  assert (0 ≤ act) by (unfold act; destruct (Z.ltb_spec (nTime b - nTime prev) 0); lia). clearbody act.
  destruct (Z.ltb_spec act m); [|exists 0; split; [lia|done]].
  exists (m - act). split; [lia|]. intros c Hc. unfold INT64_MAX in *. rewrite to_signed_small by lia. apply sat_add_bound; unfold INT64_MAX; lia.
Qed.

Lemma credit_step_bound σ b q c : times_typed σ → 0 ≤ nTime b < 2 ^ 32 → 0 ≤ c ≤ INT64_MAX →
  c ≤ credit_step σ params b q c ≤ INT64_MAX.
Proof.
  intros Ht Hb Hc. unfold credit_step. destruct (σ !! q) as [prev|] eqn:Hq; [|lia]. destruct (GetMedianTimePast σ q); [|lia].
  destruct (block_credit_extra b prev a Hb (Ht q prev Hq)) as (e & He & ->); [|done]. lia.
Qed.

Lemma credit_ref_bound σ n p : times_typed σ → 0 ≤ credit_ref σ params n p ≤ INT64_MAX.
Proof.
  intros Ht. revert p. induction n as [|n IH]; intros p; simpl; [unfold INT64_MAX; lia|].
  destruct (σ !! p) as [b|] eqn:Hp; [|unfold INT64_MAX; lia]. destruct (pprev b) as [q|]; [|unfold INT64_MAX; lia].
  specialize (IH q). pose proof (credit_step_bound σ b q _ Ht (Ht p b Hp) IH). lia.
Qed.

Lemma path_up_same σ σ' r l top : same_but_cache σ σ' → path_up σ r l top → path_up σ' r l top.
Proof.
  intros Hs Hp. induction Hp as [|r x b l top Hx Eb Hp IH]; [constructor|].
  destruct (same_but_cache_lookup _ _ _ _ Hs Hx) as (b' & Hb' & E). apply set_credit_inj in E as (E & _).
  apply path_cons with b'; [done|by rewrite <- E|done].
Qed.

Lemma times_typed_same σ σ' : same_but_cache σ σ' → times_typed σ → times_typed σ'.
Proof.
  intros Hs Ht p b' Hp. destruct (same_but_cache_lookup _ _ _ _ (same_but_cache_sym _ _ Hs) Hp) as (b & Hb & E).
  apply set_credit_inj in E as (_ & _ & _ & -> & _). by apply (Ht p).
Qed.

Lemma credit_ref_child σ x b r br :
  linked σ → σ !! x = Some b → pprev b = Some r → σ !! r = Some br → A ≤ nHeight br →
  credit_ref σ params (Z.to_nat (nHeight b - A)) x =
  credit_step σ params b r (credit_ref σ params (Z.to_nat (nHeight br - A)) r).
Proof.
  intros Hl Hx Eb Hr HA. destruct (lk_prev σ Hl x b r Hx Eb) as (c & Hc & Ec). rewrite Hr in Hc. injection Hc as <-.
  replace (Z.to_nat (nHeight b - A)) with (S (Z.to_nat (nHeight br - A))) by lia. simpl. by rewrite Hx, Eb.
Qed.

(** The sum does not decrease along a path. *)
Lemma path_credit_le σ r l top br bt :
  linked σ → times_typed σ → path_up σ r l top → σ !! r = Some br → σ !! top = Some bt → A ≤ nHeight br →
  credit_ref σ params (Z.to_nat (nHeight br - A)) r ≤ credit_ref σ params (Z.to_nat (nHeight bt - A)) top.
Proof.
  intros Hl Ht Hp. revert br. induction Hp as [p|r x b l top Hx Eb Hp IH]; intros br Hr Htop HA; [by simplify_eq|].
  destruct (lk_prev σ Hl x b r Hx Eb) as (c & Hc & Ec). rewrite Hr in Hc. injection Hc as <-.
  etransitivity; [|apply (IH b Hx Htop); lia]. rewrite (credit_ref_child σ x b r br) by done.
  apply (credit_step_bound σ b r); [done|by apply (Ht x)|by apply credit_ref_bound].
Qed.

Lemma path_height_le σ r l top br bt :
  linked σ → path_up σ r l top → σ !! r = Some br → σ !! top = Some bt → nHeight br ≤ nHeight bt.
Proof.
  intros Hl Hp. revert br. induction Hp as [p|r x b l top Hx Eb Hp IH]; intros br Hr Htop; [by simplify_eq|].
  destruct (lk_prev σ Hl x b r Hx Eb) as (c & Hc & Ec). rewrite Hr in Hc. injection Hc as <-. pose proof (IH b Hx Htop). lia.
Qed.

Lemma cache_ok_insert σ x b c :
  cache_ok params anc σ → σ !! x = Some b → A < nHeight b ≤ top_height → c = credit_ref σ params (Z.to_nat (nHeight b - A)) x →
  cache_ok params anc (<[x := set_credit b c (key_for params b)]> σ).
Proof.
  intros Hc Hx Hb Ec p d Hp Hk. rewrite <- (credit_ref_same σ) by (by apply same_but_cache_insert).
  apply lookup_insert_Some in Hp as [[<- <-]|[_ Hp]]; [|by apply (Hc p d)]. cbn [nHeight set_credit nMatMulClampedAsertCredit].
  by rewrite Hstable.
Qed.

Lemma credit_fill_ok σ r blocks top br bt :
  linked σ → times_typed σ → cache_ok params anc σ → path_up σ r blocks top →
  σ !! r = Some br → σ !! top = Some bt → A ≤ nHeight br → nHeight bt ≤ top_height →
  ∃ σ', fill σ params blocks (credit_ref σ params (Z.to_nat (nHeight br - A)) r) =
          Ok (credit_ref σ params (Z.to_nat (nHeight bt - A)) top, σ') ∧ same_but_cache σ σ' ∧ cache_ok params anc σ'.
Proof.
  revert σ r br bt. induction blocks as [|x blocks IH]; intros σ r br bt Hl Ht Hc Hp Hr Htop HA Hlim; inversion Hp as [|? ? b0 ? ? Hx Eb Hpath]; subst.
  { rewrite Hr in Htop. injection Htop as <-. by exists σ. }
  cbn [fill]. rewrite (deref_Ok _ _ _ Hx), bind_Ok, Eb, (deref_Ok _ _ _ Hr), bind_Ok.
  destruct (GetMedianTimePast_total σ Hl r br Hr) as [mtp Hm]. rewrite Hm, bind_Ok.
  pose proof (credit_ref_child σ x b0 r br Hl Hx Eb Hr HA) as Hchild. unfold credit_step in Hchild. rewrite Hr, Hm in Hchild.
  rewrite <- Hchild. set (c := credit_ref σ params (Z.to_nat (nHeight b0 - A)) x) in *.
  set (σ1 := <[x := set_credit b0 c (key_for params b0)]> σ).
  assert (same_but_cache σ σ1) as Hs by (by apply same_but_cache_insert).
  destruct (lk_prev σ Hl x b0 r Hx Eb) as (br' & Hr' & Eh). rewrite Hr in Hr'. injection Hr' as <-.
  pose proof (path_height_le σ x blocks top b0 bt Hl Hpath Hx Htop).
  assert (cache_ok params anc σ1) as Hc1 by (apply cache_ok_insert; [done..|lia|done]).
  destruct (Z.eqb_spec c INT64_MAX) as [Emax|_].
  - exists σ1. split; [|done]. do 2 f_equal.
    pose proof (path_credit_le σ x blocks top b0 bt Hl Ht Hpath Hx Htop ltac:(lia)).
    pose proof (credit_ref_bound σ (Z.to_nat (nHeight bt - A)) top Ht). lia.
  - destruct (same_but_cache_lookup _ _ _ _ Hs Htop) as (bt' & Htop' & Et).
    destruct (IH σ1 x (set_credit b0 c (key_for params b0)) bt') as (σ' & Hfill & Hs' & Hc').
    + by apply (linked_same_cache σ).
    + by apply (times_typed_same σ).
    + done.
    + by apply (path_up_same σ).
    + apply lookup_insert_eq.
    + done.
    + cbn. lia.
    + apply set_credit_inj in Et as (_ & _ & <- & _). done.
    + cbn [nHeight set_credit] in Hfill. rewrite <- (credit_ref_same σ σ1) in Hfill by done. fold c in Hfill.
      exists σ'. rewrite Hfill, <- (credit_ref_same σ σ1) by done. apply set_credit_inj in Et as (_ & _ & -> & _).
      split_and!; [done| |done]. by eapply same_but_cache_trans.
Qed.

Lemma collect_ok σ anchor fuel p b top acc :
  linked σ → cache_ok params anc σ → σ !! p = Some b → nHeight b ≤ top_height → ancestor σ p A = Some anchor →
  nMatMulStallRecoveryHeight params ≤ A → nHeight b - A < Z.of_nat fuel → path_up σ p (rev acc) top →
  ∃ l r br, collect_uncached fuel σ params anchor (Some p) acc = Ok (l, credit_ref σ params (Z.to_nat (nHeight br - A)) r) ∧
    path_up σ r (rev l) top ∧ σ !! r = Some br ∧ A ≤ nHeight br.
Proof.
  intros Hl Hc. revert p b acc. induction fuel as [|fuel IH]; intros p b acc Hp Hlim Ha Hrec Hf Hpath.
  { exfalso. unfold ancestor in Ha. rewrite Hp in Ha. simpl in Ha. case_decide; [lia|done]. }
  assert (0 ≤ A ≤ nHeight b) as HA. { unfold ancestor in Ha. rewrite Hp in Ha. simpl in Ha. by case_decide. }
  cbn [collect_uncached]. destruct (decide (p = anchor)) as [->|Hne].
  { destruct (ancestor_lookup σ Hl anchor A anchor Ha) as (b' & Hb' & Eh). rewrite Hp in Hb'. injection Hb' as <-.
    exists acc, anchor, b. rewrite Eh, Z.sub_diag. split_and!; [done..|lia]. }
  assert (A < nHeight b) as HA'.
  { destruct (decide (A = nHeight b)) as [->|]; [|lia]. rewrite (ancestor_self σ Hl p b Hp) in Ha. congruence. }
  rewrite (deref_Ok _ _ _ Hp), bind_Ok. rewrite (proj2 (Z.leb_le _ _)) by lia. cbn [negb].
  destruct (Z.eqb_spec (nMatMulClampedAsertCreditKey b) (key_for params b)) as [Ek|_].
  { exists acc, p, b. rewrite (Hc p b Hp Ek), Hstable by lia. split_and!; [done..|lia]. }
  destruct (prev_exists σ Hl p b Hp ltac:(lia)) as (q & c & Eq & Hq & Eh). rewrite Eq.
  apply (IH q c); [done|lia|by rewrite <- (ancestor_prev σ Hl p b q)|done|lia|].
  rewrite rev_app_distr. simpl. by apply path_cons with b.
Qed.

(** The memoised walk returns the plain sum and leaves a sound cache. *)
Lemma MatMulAsertClampedTimeCredit_ok σ p b anchor :
  linked σ → times_typed σ → cache_ok params anc σ → σ !! p = Some b → nHeight b = top_height → ancestor σ p A = Some anchor →
  nMatMulStallRecoveryHeight params ≤ A → IsMatMulStallRecoveryActive params (nHeight b) = true →
  ∃ σ', MatMulAsertClampedTimeCredit σ p anchor params = Ok (credit_ref σ params (Z.to_nat (nHeight b - A)) p, σ') ∧
    same_but_cache σ σ' ∧ cache_ok params anc σ'.
Proof.
  intros Hl Ht Hc Hp Htop Ha Hrec Hact. unfold MatMulAsertClampedTimeCredit. rewrite (deref_Ok _ _ _ Hp), bind_Ok, Hact. cbn [negb].
  rewrite (proj2 (Z.leb_gt _ _)) by lia. pose proof (lk_height σ Hl p b Hp).
  assert (0 ≤ A) as HA. { unfold ancestor in Ha. rewrite Hp in Ha. simpl in Ha. case_decide; [lia|done]. }
  destruct (collect_ok σ anchor (S (Z.to_nat (nHeight b))) p b p [] Hl Hc Hp ltac:(lia) Ha Hrec ltac:(lia) (path_nil σ p)) as (l & r & br & -> & Hpath & Hr & HAr).
  rewrite bind_Ok. apply (credit_fill_ok σ r (rev l) p br b); (done || lia).
Qed.
End memo.

(** ** Properties *)

(** Caching the time credit on the index changes no result: the returned
    credit is the uncached sum over the blocks since the anchor, the index is
    changed in nothing but the cache, and the cache stays sound. *)
Theorem credit_cache_transparent params anc A σ p b anchor :
  (∀ h, A < h ≤ nHeight b → anc h = A) → 0 < MatMulAsertClampedMinIntervalSeconds params ≤ INT64_MAX →
  linked σ → times_typed σ → cache_ok params anc σ → σ !! p = Some b → ancestor σ p A = Some anchor →
  nMatMulStallRecoveryHeight params ≤ A → IsMatMulStallRecoveryActive params (nHeight b) = true →
  ∃ σ', MatMulAsertClampedTimeCredit σ p anchor params = Ok (credit_ref σ params (Z.to_nat (nHeight b - A)) p, σ') ∧
    same_but_cache σ σ' ∧ cache_ok params anc σ' ∧ 0 ≤ credit_ref σ params (Z.to_nat (nHeight b - A)) p ≤ INT64_MAX.
Proof.
  intros Hst Hmin Hl Ht Hc Hp Ha Hs Hact.
  destruct (MatMulAsertClampedTimeCredit_ok params anc A (nHeight b) Hst Hmin σ p b anchor Hl Ht Hc Hp eq_refl Ha Hs Hact) as (σ' & E & H1 & H2).
  exists σ'. split; [exact E|]. split; [exact H1|]. split; [exact H2|]. by apply credit_ref_bound.
Qed.
