(* ===== verification/Asert.v ===== *)
(** MatMul difficulty adjustment.

    [MatMulAsert] of [pow.cpp] and what it dispatches to: the fixed bootstrap
    target before ASERT, the one-time rescales at the fork heights, the
    transition to the single-gate work unit (exact arithmetic on Boost's
    [cpp_int]), and the ASERT exponential from the current anchor. *)

From Stdlib Require Import ZArith Lia.
From stdpp Require Import base list numbers gmap tactics.
From S2P Require Import Prelude ArithUint256 Compact Params BlockIndex Difficulty AsertParams Credit.
Import arith_uint256 Consensus difficulty asert_params block_index credit.

Open Scope Z_scope.

(** ** Arbitrary-precision integers

    The operations of [boost::multiprecision::cpp_int] that the transition
    uses, and the arithmetic they are documented to perform on non-negative
    values. *)
Class CppInt (T : Type) := {
  cpp_of_u64 : Z → T;
  cpp_shl : T → Z → T;
  cpp_shr : T → Z → T;
  cpp_add : T → T → T;
  cpp_mul : T → T → T;
  cpp_div : T → T → T;
  cpp_and : T → T → T;
  cpp_gtb : T → T → bool;
  cpp_eqb : T → T → bool;
  cpp_to_u32 : T → Z;
}.

Class CppIntLaws (T : Type) `{CppInt T} := {
  wide : T → Z;
  wide_of_u64 x : 0 ≤ x < 2 ^ 64 → wide (cpp_of_u64 x) = x;
  wide_shl a n : 0 ≤ wide a → 0 ≤ n → wide (cpp_shl a n) = wide a * 2 ^ n;
  wide_shr a n : 0 ≤ wide a → 0 ≤ n → wide (cpp_shr a n) = wide a / 2 ^ n;
  wide_add a b : 0 ≤ wide a → 0 ≤ wide b → wide (cpp_add a b) = wide a + wide b;
  wide_mul a b : 0 ≤ wide a → 0 ≤ wide b → wide (cpp_mul a b) = wide a * wide b;
  wide_div a b : 0 ≤ wide a → 0 < wide b → wide (cpp_div a b) = wide a / wide b;
  wide_and a b : 0 ≤ wide a → 0 ≤ wide b → wide (cpp_and a b) = Z.land (wide a) (wide b);
  wide_gtb a b : 0 ≤ wide a → 0 ≤ wide b → cpp_gtb a b = (wide b <? wide a);
  wide_eqb a b : 0 ≤ wide a → 0 ≤ wide b → cpp_eqb a b = (wide a =? wide b);
  wide_to_u32 a : 0 ≤ wide a < 2 ^ 32 → cpp_to_u32 a = wide a;
}.

Module asert.

Section wide.
Context {T : Type} `{CppInt T}.

Definition GetUint64 (l : list Z) (pos : Z) : Z := le_word (slice (Z.to_nat (pos * 8)) 8 l).

Definition to_wide (value : list Z) : T :=
  let encoded := ArithToUint256 value in
  foldl (λ acc limb, cpp_add (cpp_shl acc 64) (cpp_of_u64 (GetUint64 encoded limb))) (cpp_of_u64 0) [3; 2; 1; 0].

Definition from_wide (value : T) : list Z :=
  (foldl (λ '(narrowed, value) limb,
      let word := cpp_to_u32 (cpp_and value (cpp_of_u64 (2 ^ 32 - 1))) in
      (bor narrowed (shl (of_u64 WIDTH word) (limb * 32)), cpp_shr value 32))
    (of_u64 WIDTH 0, value) [0; 1; 2; 3; 4; 5; 6; 7]).1.

Definition DeriveMatMulEpochATransitionTarget (parent_target : list Z)
    (pre_hash_epsilon_bits attempt_rate_num attempt_rate_den : Z) (pow_limit : list Z) : option (list Z) :=
  if EqualTo parent_target 0 || (attempt_rate_num =? 0) || (attempt_rate_den =? 0) || EqualTo pow_limit 0 then None
  else
    let pre_hash_target := SaturatingLeftShift256 parent_target pre_hash_epsilon_bits in
    let numerator := cpp_mul (cpp_mul (to_wide parent_target) (to_wide pre_hash_target)) (cpp_of_u64 attempt_rate_num) in
    let denominator := cpp_shl (cpp_of_u64 attempt_rate_den) 256 in
    let target := cpp_div numerator denominator in
    let wide_limit := to_wide pow_limit in
    let target := if cpp_gtb target wide_limit then wide_limit else target in
    let target := if cpp_eqb target (cpp_of_u64 0) then cpp_of_u64 1 else target in
    Some (from_wide target).
End wide.

(** ** The bootstrap phase *)
Fixpoint genesis_walk (fuel : nat) (σ : BlockMap) (cursor : list Z) (remaining_steps : Z) : result (option (list Z)) :=
  b ← deref σ cursor;
  if 0 <? nHeight b then
    match pprev b with
    | None => Ok None
    | Some prev =>
        pb ← deref σ prev;
        if nHeight b <=? nHeight pb then Ok None
        else if remaining_steps - 1 <? 0 then Ok None
        else match fuel with
             | O => Err EFuel
             | S fuel => genesis_walk fuel σ prev (remaining_steps - 1)
             end
    end
  else if negb (nHeight b =? 0) then Ok None
  else match pprev b with Some _ => Ok None | None => Ok (Some cursor) end.

Definition FindGenesisBlockIndex (σ : BlockMap) (tip : option (list Z)) : result (option (list Z)) :=
  match tip with
  | None => Ok None
  | Some p =>
      b ← deref σ p;
      if nHeight b <? 0 then Ok None else genesis_walk (Z.to_nat (nHeight b)) σ p (nHeight b)
  end.

Definition target_of (bits : Z) : list Z := (SetCompact bits).1.1.

Definition FastMineBootstrapBits (genesis : CBlockIndex) (params : Params) : result Z :=
  let pow_limit := UintToArith256 (powLimit params) in
  let bootstrap_target := target_of (nBits genesis) in
  let scale := Z.max (nFastMineDifficultyScale params) 1 in
  bootstrap_target ←
    (if 1 <? scale then
       max_without_overflow ← div pow_limit (of_u64 WIDTH scale);
       Ok (if gtb bootstrap_target max_without_overflow then pow_limit else mul32 bootstrap_target scale)
     else Ok bootstrap_target);
  GetCompact (ClampRetargetResult bootstrap_target pow_limit) false.

(** ** One-time adjustments at fork heights *)
Definition clamped_bits (target pow_limit : list Z) : result Z := GetCompact (ClampRetargetResult target pow_limit) false.

(** The rescale shared by the profile forks. *)
Definition rescale_bits (parent_target : list Z) (num den : Z) (pow_limit : list Z) : result Z :=
  match ReduceRescaleRatioToU32 num den with
  | None => MatMulAsertFailClosedBits
  | Some (rn, rd) => t ← ScaleTargetByTimespan parent_target rn rd; clamped_bits t pow_limit
  end.

Definition one_shot_retune (params : Params) (next_height : Z) (parent_target pow_limit : list Z) : option (result Z) :=
  if next_height =? nMatMulAsertHeight params then Some (
    let bootstrap_factor := nMatMulAsertBootstrapFactor params in
    t ← (if 1 <? bootstrap_factor then SaturatingMultiplyByUint32 parent_target bootstrap_factor else Ok parent_target);
    clamped_bits t pow_limit)
  else if next_height =? nMatMulAsertRetuneHeight params then Some (
    let factor := nMatMulAsertRetuneHardeningFactor params in
    t ← (if 1 <? factor then div parent_target (of_u64 WIDTH factor) else Ok parent_target);
    clamped_bits t pow_limit)
  else if next_height =? nMatMulAsertRetune2Height params then Some (
    t ← ScaleTargetByTimespan parent_target (nMatMulAsertRetune2TargetNum params) (nMatMulAsertRetune2TargetDen params);
    clamped_bits t pow_limit)
  else None.

Section one_shot.
Context {T : Type} `{CppInt T}.

Definition rc_bits (params : Params) (next_height : Z) (parent_target pow_limit : list Z) : result Z :=
  let num := nMatMulRCAsertRescaleNum params in
  let den := nMatMulRCAsertRescaleDen params in
  if IsMatMulV47EpochAActivationTuple params then
    match ReduceRescaleRatioToU64 num den with
    | None => MatMulAsertFailClosedBits
    | Some (rn, rd) =>
        match DeriveMatMulEpochATransitionTarget parent_target
                (GetMatMulPreHashEpsilonBitsForHeight params (next_height - 1)) rn rd pow_limit with
        | None => MatMulAsertFailClosedBits
        | Some rc_target => clamped_bits rc_target pow_limit
        end
    end
  else rescale_bits parent_target num den pow_limit.

Definition one_shot_profile (params : Params) (next_height : Z) (parent_target pow_limit : list Z) : option (result Z) :=
  let at_ h := next_height =? h in
  let v4 := nMatMulV4Height params in
  let bmx4c := nMatMulBMX4CHeight params in
  let drlt := nMatMulDRLTHeight params in
  let rc := nMatMulRCHeight params in
  let coupled := nMatMulRCCoupledHeight params in
  if at_ v4 && negb (at_ bmx4c) && negb (at_ rc)
  then Some (rescale_bits parent_target (nMatMulV4AsertRescaleNum params) (nMatMulV4AsertRescaleDen params) pow_limit)
  else if at_ bmx4c && negb (at_ rc)
  then Some (rescale_bits parent_target (nMatMulBMX4CAsertRescaleNum params) (nMatMulBMX4CAsertRescaleDen params) pow_limit)
  else if at_ drlt && negb (at_ bmx4c) && negb (at_ rc)
  then Some (rescale_bits parent_target (nMatMulDRLTAsertRescaleNum params) (nMatMulDRLTAsertRescaleDen params) pow_limit)
  else if at_ rc then Some (rc_bits params next_height parent_target pow_limit)
  else if at_ coupled && negb (at_ rc)
  then Some (rescale_bits parent_target (nMatMulRCCoupledAsertRescaleNum params) (nMatMulRCCoupledAsertRescaleDen params) pow_limit)
  else if negb (IsDisabledHeight (nMatMulPowLimitUpgradeHeight params)) && at_ (nMatMulPowLimitUpgradeHeight params)
  then Some (clamped_bits parent_target pow_limit)
  else if at_ (nMatMulAsertHalfLifeUpgradeHeight params) then Some (clamped_bits parent_target pow_limit)
  else if negb (IsDisabledHeight (nMatMulStallRecoveryHeight params)) && at_ (nMatMulStallRecoveryHeight params)
  then Some (rescale_bits parent_target (nMatMulStallRecoveryAsertNum params) (nMatMulStallRecoveryAsertDen params) pow_limit)
  else None.

Definition one_shot (params : Params) (next_height : Z) (parent_target pow_limit : list Z) : option (result Z) :=
  match one_shot_retune params next_height parent_target pow_limit with
  | Some r => Some r
  | None => one_shot_profile params next_height parent_target pow_limit
  end.

(** ** From the anchor *)
Definition asert_time (time_diff clamped_credit : Z) : Z :=
  if 0 <? clamped_credit then
    if s64 (INT64_MAX - clamped_credit) <? time_diff then INT64_MAX else s64 (time_diff + clamped_credit)
  else time_diff.

Definition asert_from_anchor (σ : BlockMap) (pindexLast : list Z) (params : Params) (pow_limit : list Z) : result (Z * BlockMap) :=
  last ← deref σ pindexLast;
  let info := ResolveMatMulAsertHalfLifeInfo (Some (nHeight last)) params in
  let anchor_height := current_anchor_height info in
  if (anchor_height <? 0) || (nHeight last <? anchor_height) then c ← GetCompact pow_limit false; Ok (c, σ)
  else
    anchor ← GetAncestor σ pindexLast anchor_height;
    match anchor with
    | None => c ← MatMulAsertFailClosedBits; Ok (c, σ)
    | Some anchor =>
        a ← deref σ anchor;
        let anchor_target := target_of (nBits a) in
        if EqualTo anchor_target 0 || gtb anchor_target pow_limit then c ← MatMulAsertFailClosedBits; Ok (c, σ)
        else
          let time_diff := s64 (GetBlockTime last - GetBlockTime a) in
          '(clamped_credit, σ) ← MatMulAsertClampedTimeCredit σ pindexLast anchor params;
          let asert_time_diff := asert_time time_diff clamped_credit in
          let height_diff := nHeight last - nHeight a in
          next_target ← CalculateMatMulAsertTarget anchor_target asert_time_diff height_diff
                          (current_half_life_s info) (nPowTargetSpacing params) pow_limit;
          c ← GetCompact next_target false;
          Ok (c, σ)
    end.

Definition MatMulAsert (σ : BlockMap) (pindexLast : list Z) (params : Params) : result (Z * BlockMap) :=
  last ← deref σ pindexLast;
  let next_height := nHeight last + 1 in
  if (next_height <? 0) || (INT32_MAX <? next_height) then
    c ← GetCompact (UintToArith256 (powLimit params)) false; Ok (c, σ)
  else
    let pow_limit := MatMulAsertPowLimitForNextHeight params next_height in
    if next_height <? nMatMulAsertHeight params then
      genesis ← FindGenesisBlockIndex σ (Some pindexLast);
      match genesis with
      | None => c ← GetCompact pow_limit false; Ok (c, σ)
      | Some g => g ← deref σ g; c ← FastMineBootstrapBits g params; Ok (c, σ)
      end
    else
      valid ← ValidateMatMulAsertParams params next_height;
      if negb valid then c ← MatMulAsertFailClosedBits; Ok (c, σ)
      else match one_shot params next_height (target_of (nBits last)) pow_limit with
           | Some r => c ← r; Ok (c, σ)
           | None => asert_from_anchor σ pindexLast params pow_limit
           end.
End one_shot.

End asert.
Import asert.

(** The integers themselves satisfy the laws. *)
#[export] Instance cpp_int_Z : CppInt Z := {|
  cpp_of_u64 x := x; cpp_shl := Z.shiftl; cpp_shr := Z.shiftr; cpp_add := Z.add; cpp_mul := Z.mul; cpp_div := Z.quot;
  cpp_and := Z.land; cpp_gtb a b := b <? a; cpp_eqb := Z.eqb; cpp_to_u32 x := u32 x
|}.

#[export] Instance cpp_int_Z_laws : CppIntLaws Z.
Proof.
  refine {| wide x := x |}; try done; cbn; intros.
  - by apply Z.shiftl_mul_pow2.
  - by apply Z.shiftr_div_pow2.
  - apply Z.quot_div_nonneg; lia.
  - by apply u32_small.
Defined.

(** ** Wide conversions *)
Lemma GetUint64_bound l i : is_uint256 l → 0 ≤ GetUint64 l i < 2 ^ 64.
Proof.
  intros [Hlen Hb]. unfold GetUint64. set (s := slice _ _ _).
  assert (Forall is_byte s) as Hs by (unfold s, slice; by apply Forall_take, Forall_drop).
  pose proof (le_word_bound s Hs) as H. assert (zlen s ≤ 8) as Hz by (unfold s, slice, zlen; rewrite length_take; lia).
  pose proof (Z.pow_le_mono_r 2 (8 * zlen s) 64 ltac:(lia) ltac:(lia)). lia.
Qed.

Lemma le_word_split n l : (n ≤ length l)%nat → le_word l = le_word (take n l) + 2 ^ (8 * Z.of_nat n) * le_word (drop n l).
Proof.
  intros Hn. rewrite <- (take_drop n l) at 1. rewrite le_word_app. unfold zlen. rewrite length_take, Nat.min_l by lia. done.
Qed.

Lemma uint256_limbs l : is_uint256 l →
  le_word l = GetUint64 l 0 + 2 ^ 64 * GetUint64 l 1 + 2 ^ 128 * GetUint64 l 2 + 2 ^ 192 * GetUint64 l 3.
Proof.
  intros [Hlen _]. unfold GetUint64, slice. change (Z.to_nat (0 * 8)) with 0%nat. change (Z.to_nat (1 * 8)) with 8%nat.
  change (Z.to_nat (2 * 8)) with 16%nat. change (Z.to_nat (3 * 8)) with 24%nat. rewrite drop_0.
  rewrite (le_word_split 8 l) by lia. rewrite (le_word_split 8 (drop 8 l)) by (rewrite length_drop; lia).
  rewrite !drop_drop. rewrite (le_word_split 8 (drop (8 + 8) l)) by (rewrite length_drop; lia). rewrite !drop_drop.
  change (8 + 8)%nat with 16%nat. change (16 + 8)%nat with 24%nat.
  rewrite (take_ge (drop 24 l)) by (rewrite length_drop; lia).
  replace (8 * Z.of_nat 8) with 64 by lia. lia.
Qed.

Section wide_ok.
Context {T : Type} `{CppIntLaws T}.

Lemma to_wide_ok v : is_arith v → wide (to_wide v) = val v.
Proof.
  intros Hv. destruct (ArithToUint256_ok v Hv) as (Hl & Hb & Ev). assert (is_uint256 (ArithToUint256 v)) as Hu by done.
  rewrite <- Ev, (uint256_limbs _ Hu). unfold to_wide. cbn [foldl]. set (e := ArithToUint256 v) in *.
  pose proof (GetUint64_bound e 0 Hu). pose proof (GetUint64_bound e 1 Hu). pose proof (GetUint64_bound e 2 Hu). pose proof (GetUint64_bound e 3 Hu).
  assert (∀ (acc : T) x, 0 ≤ wide acc → 0 ≤ x < 2 ^ 64 → wide (cpp_add (cpp_shl acc 64) (cpp_of_u64 x)) = wide acc * 2 ^ 64 + x) as Hstep.
  { intros acc x Ha Hx. rewrite wide_add, wide_shl, wide_of_u64; [done|lia..|rewrite wide_shl by lia; lia|rewrite wide_of_u64 by lia; lia]. }
  assert (wide (cpp_of_u64 0 : T) = 0) as Hw0 by (by apply wide_of_u64).
  pose proof (Hstep (cpp_of_u64 0) (GetUint64 e 3) ltac:(rewrite Hw0; lia) ltac:(lia)) as S3. rewrite Hw0 in S3.
  pose proof (Hstep _ (GetUint64 e 2) ltac:(rewrite S3; lia) ltac:(lia)) as S2. rewrite S3 in S2.
  pose proof (Hstep _ (GetUint64 e 1) ltac:(rewrite S2; lia) ltac:(lia)) as S1. rewrite S2 in S1.
  rewrite (Hstep _ (GetUint64 e 0) ltac:(rewrite S1; lia) ltac:(lia)), S1. lia.
Qed.

(** The limbs written so far, and what remains. *)
Lemma from_wide_step (n : Z) narrowed (value : T) x :
  0 ≤ n < 8 → is_arith narrowed → val narrowed = x mod 2 ^ (32 * n) → 0 ≤ x < 2 ^ 256 → wide value = x / 2 ^ (32 * n) →
  let word := cpp_to_u32 (cpp_and value (cpp_of_u64 (2 ^ 32 - 1))) in
  is_arith (bor narrowed (shl (of_u64 WIDTH word) (n * 32))) ∧
  val (bor narrowed (shl (of_u64 WIDTH word) (n * 32))) = x mod 2 ^ (32 * (n + 1)) ∧
  wide (cpp_shr value 32) = x / 2 ^ (32 * (n + 1)).
Proof.
  intros Hn Hnar Ev Hx Ew word. pose proof (pow2_pos (32 * n) ltac:(lia)) as Hp.
  assert (0 ≤ wide value) as Hw by (rewrite Ew; apply Z.div_pos; lia).
  assert (2 ^ (32 * (n + 1)) = 2 ^ (32 * n) * 2 ^ 32) as Hpow by (rewrite <- pow2_split by lia; f_equal; lia).
  assert (word = (x / 2 ^ (32 * n)) mod 2 ^ 32) as Eword.
  { assert (wide (cpp_of_u64 (2 ^ 32 - 1) : T) = 2 ^ 32 - 1) as Wm by (by apply wide_of_u64).
    assert (wide (cpp_and value (cpp_of_u64 (2 ^ 32 - 1))) = (x / 2 ^ (32 * n)) mod 2 ^ 32) as Wa.
    { rewrite wide_and, Wm, Ew by (rewrite ?Wm; lia). by apply (land_mask _ 32). }
    unfold word. rewrite <- Wa. apply wide_to_u32. rewrite Wa. by apply Z.mod_pos_bound. }
  pose proof (Z.mod_pos_bound (x / 2 ^ (32 * n)) (2 ^ 32) ltac:(lia)) as Hwb. rewrite <- Eword in Hwb.
  destruct (of_u64_ok word ltac:(lia)) as [Ho Eo]. destruct (shl_arith _ (n * 32) Ho ltac:(lia)) as [Hs Es].
  destruct (bor_arith _ _ Hnar Hs) as [Hb Eb]. split; [done|]. rewrite wide_shr, Ew by lia. split.
  - rewrite Eb, Ev, Es, Eo. replace (n * 32) with (32 * n) by lia.
    assert (2 ^ (32 * (n + 1)) ≤ 2 ^ 256) by (apply Z.pow_le_mono_r; lia).
    rewrite (Z.mod_small (word * _)) by nia. rewrite lor_high; [|lia|by apply Z.mod_pos_bound|lia].
    rewrite Hpow, Z.rem_mul_r by lia. rewrite <- Eword. lia.
  - rewrite Z.div_div by lia. f_equal. lia.
Qed.

Lemma from_wide_ok (t : T) : 0 ≤ wide t < 2 ^ 256 → is_arith (from_wide t) ∧ val (from_wide t) = wide t.
Proof.
  intros Ht. unfold from_wide. cbn [foldl]. destruct (of_u64_ok 0 ltac:(lia)) as [H0' E0].
  assert (val (of_u64 WIDTH 0) = wide t mod 2 ^ (32 * 0)) as E0' by (rewrite E0, Z.mul_0_r, Z.pow_0_r, Z.mod_1_r; done).
  assert (wide t = wide t / 2 ^ (32 * 0)) as W0 by (rewrite Z.mul_0_r, Z.pow_0_r, Z.div_1_r; done).
  destruct (from_wide_step 0 _ t _ ltac:(lia) H0' E0' Ht W0) as (A1 & V1 & W1).
  destruct (from_wide_step 1 _ _ _ ltac:(lia) A1 V1 Ht W1) as (A2 & V2 & W2).
  destruct (from_wide_step 2 _ _ _ ltac:(lia) A2 V2 Ht W2) as (A3 & V3 & W3).
  destruct (from_wide_step 3 _ _ _ ltac:(lia) A3 V3 Ht W3) as (A4 & V4 & W4).
  destruct (from_wide_step 4 _ _ _ ltac:(lia) A4 V4 Ht W4) as (A5 & V5 & W5).
  destruct (from_wide_step 5 _ _ _ ltac:(lia) A5 V5 Ht W5) as (A6 & V6 & W6).
  destruct (from_wide_step 6 _ _ _ ltac:(lia) A6 V6 Ht W6) as (A7 & V7 & W7).
  destruct (from_wide_step 7 _ _ _ ltac:(lia) A7 V7 Ht W7) as (A8 & V8 & _).
  cbn [fst]. split; [exact A8|]. etransitivity; [exact V8|]. apply Z.mod_small. exact Ht.
Qed.

(** The transition target, exactly: the parent target times the pre-hash
    target times the attempt-rate ratio, over [2^256]. *)
Lemma DeriveMatMulEpochATransitionTarget_ok p eps num den limit :
  is_arith p → is_arith limit → 0 < val p → 0 < val limit → 0 ≤ eps → 0 < num < 2 ^ 64 → 0 < den < 2 ^ 64 →
  ∃ t, DeriveMatMulEpochATransitionTarget p eps num den limit = Some t ∧ is_arith t ∧
    val t = to_limit (val p * Z.min (val p * 2 ^ eps) MAX * num / (den * 2 ^ 256)) (val limit).
Proof.
  intros Hp Hl Hpp Hpl Heps Hnum Hden. unfold DeriveMatMulEpochATransitionTarget.
  rewrite !EqualTo_val by (done || lia). rewrite !(proj2 (Z.eqb_neq _ _)) by lia. cbn [orb].
  destruct (SaturatingLeftShift256_ok p eps Hp Heps) as [Hs Es]. pose proof (is_arith_bound _ Hs). pose proof (is_arith_bound _ Hl).
  assert (wide (to_wide p : T) = val p) as W1 by (by apply to_wide_ok).
  assert (wide (to_wide (SaturatingLeftShift256 p eps) : T) = val (SaturatingLeftShift256 p eps)) as W2 by (by apply to_wide_ok).
  assert (wide (to_wide limit : T) = val limit) as W3 by (by apply to_wide_ok).
  set (numer := cpp_mul (cpp_mul (to_wide p) _) _). set (denom := cpp_shl _ 256).
  assert (wide numer = val p * Z.min (val p * 2 ^ eps) MAX * num) as Wn.
  { unfold numer. rewrite !wide_mul, W1, W2, wide_of_u64, Es by (rewrite ?wide_mul, ?wide_of_u64, ?W1, ?W2; nia). done. }
  assert (wide denom = den * 2 ^ 256) as Wd by (unfold denom; rewrite wide_shl, wide_of_u64 by (rewrite ?wide_of_u64; lia); done).
  assert (0 ≤ wide numer) as Hn0 by (rewrite Wn, <- Es; nia).
  assert (wide (cpp_div numer denom) = wide numer / wide denom) as Wq by (apply wide_div; lia).
  rewrite Wn, Wd in Wq. set (q := val p * Z.min _ MAX * num / (den * 2 ^ 256)) in *.
  assert (0 ≤ q) by (unfold q; apply Z.div_pos; [rewrite <- Wn; lia|lia]).
  set (t1 := if cpp_gtb (cpp_div numer denom) (to_wide limit) then _ else _).
  assert (wide t1 = Z.min q (val limit)) as Wt1.
  { unfold t1. rewrite wide_gtb, Wq, W3 by lia. destruct (Z.ltb_spec (val limit) q); lia. }
  set (t2 := if cpp_eqb t1 (cpp_of_u64 0) then _ else _).
  assert (wide t2 = to_limit q (val limit)) as Wt2.
  { unfold t2, to_limit. rewrite wide_eqb, Wt1, wide_of_u64 by (rewrite ?wide_of_u64; lia).
    destruct (Z.eqb_spec (Z.min q (val limit)) 0); [rewrite wide_of_u64 by lia|]; lia. }
  pose proof (to_limit_bounds q (val limit) Hpl). destruct (from_wide_ok t2 ltac:(lia)) as [Hf Ef].
  eexists. split; [done|]. split; [done|]. by rewrite Ef, Wt2.
Qed.
End wide_ok.

(** ** Typed inputs *)
Record params_typed (params : Params) : Prop := mkParamsTyped {
  pt_limits : limits_ok params;
  pt_scale : 0 ≤ nFastMineDifficultyScale params < 2 ^ 32;
  pt_factor : 0 ≤ nMatMulAsertBootstrapFactor params < 2 ^ 32;
  pt_hardening : 0 ≤ nMatMulAsertRetuneHardeningFactor params < 2 ^ 32;
  pt_half_life : nMatMulAsertHalfLife params < 2 ^ 63;
  pt_half_life_up : nMatMulAsertHalfLifeUpgrade params < 2 ^ 63;
  pt_spacing : nPowTargetSpacing params < 2 ^ 63;
  pt_interval : nMatMulAsertClampedMinInterval params < 2 ^ 63;
  pt_epsilon : 0 ≤ nMatMulPreHashEpsilonBits params ∧ 0 ≤ nMatMulPreHashEpsilonBitsUpgrade params;
  pt_ratios x : x ∈ [nMatMulV4AsertRescaleNum params; nMatMulV4AsertRescaleDen params; nMatMulBMX4CAsertRescaleNum params;
     nMatMulBMX4CAsertRescaleDen params; nMatMulDRLTAsertRescaleNum params; nMatMulDRLTAsertRescaleDen params;
     nMatMulRCAsertRescaleNum params; nMatMulRCAsertRescaleDen params; nMatMulRCCoupledAsertRescaleNum params;
     nMatMulRCCoupledAsertRescaleDen params; nMatMulStallRecoveryAsertNum params; nMatMulStallRecoveryAsertDen params] → x < 2 ^ 63;
}.

Record index_typed (σ : BlockMap) : Prop := mkIndexTyped {
  it_linked : linked σ;
  it_bits p b : σ !! p = Some b → 0 ≤ nBits b < 2 ^ 32;
  it_times : times_typed σ;
}.

(** A computation that emits compact bits denoting a target in [1, limit]. *)
Definition emits (m : result Z) (limit : Z) : Prop := ∃ c, m = Ok c ∧ 0 ≤ c < 2 ^ 32 ∧ bits_valid c limit.

Lemma emits_mono m l l' : l ≤ l' → emits m l → emits m l'.
Proof. intros Hl (c & E & Hc & Hn & Hv). exists c. split_and!; [done|lia..|]. split; [done|lia]. Qed.

Lemma target_of_ok bits : 0 ≤ bits < 2 ^ 32 → is_arith (target_of bits).
Proof. intros Hb. unfold target_of. destruct (SetCompact_ok bits Hb) as (v & -> & Hv & _). done. Qed.

Lemma target_of_val bits limit : 0 ≤ bits < 2 ^ 32 → bits_valid bits limit → limit < 2 ^ 256 →
  val (target_of bits) = compact_value bits.
Proof.
  intros Hb [_ Hv] Hl. unfold target_of. destruct (SetCompact_ok bits Hb) as (v & -> & _ & Ev). cbn [fst]. rewrite Ev.
  apply Z.mod_small. lia.
Qed.

Lemma clamped_bits_ok t limit :
  is_arith t → is_arith limit → 0 < val limit →
  ∃ c, clamped_bits t limit = Ok c ∧ 0 ≤ c < 2 ^ 32 ∧ bits_valid c (val limit) ∧
       compact_value c = truncated (to_limit (val t) (val limit)).
Proof.
  intros Ht Hl Hpos. unfold clamped_bits. destruct (ClampRetargetResult_ok t limit Ht Hl Hpos) as [Hc Ec].
  destruct (GetCompact_valid _ (val limit) Hc ltac:(rewrite Ec; lia)) as (c & E & Hb & Hv & Et). exists c. rewrite Ec in Et. done.
Qed.

Lemma clamped_bits_emits t limit : is_arith t → is_arith limit → 0 < val limit → emits (clamped_bits t limit) (val limit).
Proof. intros Ht Hl Hp. destruct (clamped_bits_ok t limit Ht Hl Hp) as (c & ? & ? & ? & _). by exists c. Qed.

(** Failing closed: the hardest target, [1]. *)
Lemma fail_closed_ok : MatMulAsertFailClosedBits = Ok 0x1010000.
Proof. vm_compute. reflexivity. Qed.

Lemma fail_closed_emits limit : 0 < limit → emits MatMulAsertFailClosedBits limit.
Proof.
  intros Hl. rewrite fail_closed_ok. exists 0x1010000. split; [done|]. split; [lia|]. split; [by vm_compute|].
  change (compact_value 0x1010000) with 1. lia.
Qed.

Section one_shot_ok.
Context {T : Type} `{CppIntLaws T}.
Context (params : Params) (next : Z) (parent limit : list Z).
Hypothesis Hty : params_typed params.
Hypothesis Hparent : is_arith parent.
Hypothesis Hlimit : is_arith limit.
Hypothesis Hpos : 0 < val limit.

Lemma rescale_emits num den : num < 2 ^ 63 → den < 2 ^ 63 → emits (rescale_bits parent num den limit) (val limit).
Proof.
  intros Hn Hd. unfold rescale_bits. destruct (ReduceRescaleRatioToU32 num den) as [[rn rd]|]; [|by apply fail_closed_emits].
  destruct (ScaleTargetByTimespan_ok parent rn rd Hparent) as (t & -> & Ht & _). rewrite bind_Ok. by apply clamped_bits_emits.
Qed.

(** A reducible rescale multiplies by the exact ratio. *)
Lemma rescale_exact num den n d :
  num < 2 ^ 63 → den < 2 ^ 63 → ReduceRescaleRatioToU32 num den = Some (n, d) →
  ∃ c, rescale_bits parent num den limit = Ok c ∧
    compact_value c = truncated (to_limit (val parent * num / den) (val limit)).
Proof.
  intros Hn Hd E. pose proof (ReduceRescaleRatioToU32_ok num den Hn Hd) as Hr. rewrite E in Hr.
  destruct Hr as (Hn' & Hd' & Heq & Hg). unfold rescale_bits. rewrite E.
  destruct (ScaleTargetByTimespan_ok parent n d Hparent) as (t & -> & Ht & Et). rewrite bind_Ok.
  rewrite (proj2 (clamp_timespan_ok n)), (proj2 (clamp_timespan_ok d)) in Et by lia.
  destruct (clamped_bits_ok t limit Ht Hlimit Hpos) as (c & Ec & _ & _ & Ev). exists c. split; [done|]. rewrite Ev, Et. f_equal.
  assert (0 < num ∧ 0 < den) as [Hn0 Hd0].
  { unfold ReduceRescaleRatioToU32 in E. destruct (Z.leb_spec num 0), (Z.leb_spec den 0); cbn [orb] in E; (done || lia). }
  assert (val parent * n / d = val parent * num / den) as ->.
  { rewrite <- (Z.div_mul_cancel_r (val parent * n) d den) by lia. rewrite <- (Z.div_mul_cancel_r (val parent * num) den d) by lia.
    rewrite <- !Z.mul_assoc, Heq. f_equal. lia. }
  pose proof (is_arith_bound _ Hlimit). unfold to_limit, MAX. lia.
Qed.

Lemma one_shot_retune_emits r : one_shot_retune params next parent limit = Some r → emits r (val limit).
Proof.
  unfold one_shot_retune. destruct Hty.
  destruct (next =? nMatMulAsertHeight params).
  { intros <-%(inj Some). destruct (1 <? nMatMulAsertBootstrapFactor params); [|rewrite bind_Ok; by apply clamped_bits_emits].
    destruct (SaturatingMultiplyByUint32_ok parent _ Hparent pt_factor0) as (t & -> & Ht & _). rewrite bind_Ok. by apply clamped_bits_emits. }
  destruct (next =? nMatMulAsertRetuneHeight params).
  { intros <-%(inj Some). destruct (Z.ltb_spec 1 (nMatMulAsertRetuneHardeningFactor params)); [|rewrite bind_Ok; by apply clamped_bits_emits].
    destruct (of_u64_ok (nMatMulAsertRetuneHardeningFactor params) ltac:(lia)) as [Ho Eo].
    destruct (div_arith parent _ Hparent Ho ltac:(lia)) as (t & -> & Ht & _). rewrite bind_Ok. by apply clamped_bits_emits. }
  destruct (next =? nMatMulAsertRetune2Height params); [|done]. intros <-%(inj Some).
  destruct (ScaleTargetByTimespan_ok parent (nMatMulAsertRetune2TargetNum params) (nMatMulAsertRetune2TargetDen params) Hparent) as (t & -> & Ht & _).
  rewrite bind_Ok. by apply clamped_bits_emits.
Qed.

Lemma rc_bits_emits : emits (rc_bits params next parent limit) (val limit).
Proof.
  unfold rc_bits. pose proof (pt_ratios _ Hty) as Hr.
  assert (nMatMulRCAsertRescaleNum params < 2 ^ 63 ∧ nMatMulRCAsertRescaleDen params < 2 ^ 63) as [Hn Hd].
  { split; apply Hr; rewrite !elem_of_cons; tauto. }
  destruct (IsMatMulV47EpochAActivationTuple params); [|by apply rescale_emits].
  pose proof (ReduceRescaleRatioToU64_ok _ _ Hn Hd) as Hu. destruct (ReduceRescaleRatioToU64 _ _) as [[n d]|]; [|by apply fail_closed_emits].
  destruct Hu as (Hn' & Hd' & _). set (eps := GetMatMulPreHashEpsilonBitsForHeight params (next - 1)).
  assert (0 ≤ eps) by (unfold eps, GetMatMulPreHashEpsilonBitsForHeight; destruct (pt_epsilon _ Hty); by case_match).
  pose proof (is_arith_bound _ Hparent). destruct (decide (val parent = 0)) as [E0|E0].
  - unfold DeriveMatMulEpochATransitionTarget. rewrite (EqualTo_val parent), E0 by (done || lia). by apply fail_closed_emits.
  - destruct (DeriveMatMulEpochATransitionTarget_ok parent eps n d limit) as (t & -> & Ht & _); [done|done|lia..|]. by apply clamped_bits_emits.
Qed.

Lemma one_shot_profile_emits r : one_shot_profile params next parent limit = Some r → emits r (val limit).
Proof.
  unfold one_shot_profile. pose proof (pt_ratios _ Hty) as Hr.
  repeat (case_match; [intros <-%(inj Some); first [by apply rc_bits_emits | by apply clamped_bits_emits
    | apply rescale_emits; apply Hr; rewrite !elem_of_cons; tauto]|]). done.
Qed.

Lemma one_shot_emits r : one_shot params next parent limit = Some r → emits r (val limit).
Proof.
  unfold one_shot. destruct (one_shot_retune _ _ _ _) eqn:E.
  - intros <-%(inj Some). by apply one_shot_retune_emits.
  - apply one_shot_profile_emits.
Qed.
End one_shot_ok.

(** ** The bootstrap target *)
Lemma genesis_walk_ok σ fuel p b :
  linked σ → σ !! p = Some b → nHeight b ≤ Z.of_nat fuel → genesis_walk fuel σ p (nHeight b) = Ok (ancestor σ p 0).
Proof.
  intros Hl. revert p b. induction fuel as [|fuel IH]; intros p b Hp Hf; pose proof (lk_height σ Hl p b Hp) as Hh;
    (destruct (decide (0 < nHeight b)) as [Hpos|Hz]; [|assert (nHeight b = 0) as E by lia]); [lia| | |].
  2: { destruct (prev_exists σ Hl p b Hp Hpos) as (q & c & Eq & Hc & Ec). cbn [genesis_walk].
       rewrite (deref_Ok _ _ _ Hp), bind_Ok, (proj2 (Z.ltb_lt _ _)), Eq, (deref_Ok _ _ _ Hc), bind_Ok by done.
       rewrite (proj2 (Z.leb_gt _ _)), (proj2 (Z.ltb_ge _ _)) by lia. rewrite <- Ec, (IH q c) by (done || lia).
       by rewrite (ancestor_prev σ Hl p b q). }
  all: cbn [genesis_walk]; rewrite (deref_Ok _ _ _ Hp), bind_Ok, <- (ancestor_self σ Hl p b Hp), E; cbn [Z.ltb Z.compare negb Z.eqb];
    destruct (pprev b) as [q|] eqn:Eq; [pose proof (prev_height σ Hl p b q Hp Eq); lia|];
    rewrite <- E; by rewrite (ancestor_self σ Hl p b Hp).
Qed.

Lemma FindGenesisBlockIndex_ok σ p b : linked σ → σ !! p = Some b → FindGenesisBlockIndex σ (Some p) = Ok (ancestor σ p 0).
Proof.
  intros Hl Hp. pose proof (lk_height σ Hl p b Hp). unfold FindGenesisBlockIndex. rewrite (deref_Ok _ _ _ Hp), bind_Ok.
  rewrite (proj2 (Z.ltb_ge _ _)) by lia. apply genesis_walk_ok; (done || lia).
Qed.

Lemma FastMineBootstrapBits_emits g params :
  params_typed params → 0 ≤ nBits g < 2 ^ 32 → emits (FastMineBootstrapBits g params) (le_word (powLimit params)).
Proof.
  intros Hty Hb. destruct (pt_limits _ Hty) as [Hh _ Hpos]. destruct (UintToArith256_val _ Hh) as [Hl El]. rewrite <- El in Hpos |- *.
  pose proof (target_of_ok _ Hb) as Ht. pose proof (pt_scale _ Hty). unfold FastMineBootstrapBits. cbv zeta.
  set (scale := Z.max (nFastMineDifficultyScale params) 1). destruct (Z.ltb_spec 1 scale); [|rewrite bind_Ok; by apply clamped_bits_emits].
  destruct (of_u64_ok scale ltac:(lia)) as [Ho Eo]. destruct (div_arith _ _ Hl Ho ltac:(lia)) as (q & -> & Hq & _). rewrite !bind_Ok.
  apply clamped_bits_emits; [|done..]. case_match; [done|]. apply mul32_arith; [done|lia].
Qed.

(** ** The retarget always yields usable bits *)
Definition anchor_at (params : Params) (h : Z) : Z := current_anchor_height (ResolveMatMulAsertHalfLifeInfo (Some h) params).

Lemma half_life_bound params tip : params_typed params → current_half_life_s (ResolveMatMulAsertHalfLifeInfo tip params) < 2 ^ 63.
Proof.
  intros Hty. unfold ResolveMatMulAsertHalfLifeInfo. case_match; cbn [current_half_life_s]; apply Hty.
Qed.

Lemma asert_time_bound t c : - 2 ^ 63 ≤ t < 2 ^ 63 → 0 ≤ c ≤ INT64_MAX → asert_time t c = Z.min (t + c) INT64_MAX.
Proof.
  intros Ht Hc. unfold asert_time, s64, INT64_MAX in *. destruct (Z.ltb_spec 0 c); [|lia].
  rewrite (to_signed_small 64 (2 ^ 63 - 1 - c)) by lia. destruct (Z.ltb_spec (2 ^ 63 - 1 - c) t); [lia|].
  rewrite to_signed_small by lia. lia.
Qed.

Section from_anchor.
Context (σ : BlockMap) (params : Params) (p : list Z) (b : CBlockIndex) (limit : list Z).
Hypothesis Hidx : index_typed σ.
Hypothesis Hty : params_typed params.
Hypothesis Hsc : schedule params.
Hypothesis Hp : σ !! p = Some b.
Hypothesis Hlimit : is_arith limit.
Hypothesis Hpos : 0 < val limit.
Hypothesis Htip : nMatMulAsertHeight params ≤ nHeight b < INT32_MAX.
Hypothesis Hasert : 0 ≤ nMatMulAsertHeight params.
Hypothesis Hcache : cache_ok params (anchor_at params) σ.

Let A := anchor_at params (nHeight b).

Lemma anchor_range : nMatMulAsertHeight params ≤ A ≤ nHeight b.
Proof. apply (anchor_bounds params (nHeight b) Hsc Htip). Qed.

Lemma anchor_const h : A < h ≤ nHeight b → anchor_at params h = A.
Proof. intros Hh. pose proof anchor_range. apply (anchor_stable params h (nHeight b) Hsc); [lia..|]. unfold A, anchor_at in *. lia. Qed.

Lemma interval_pos : 0 < MatMulAsertClampedMinIntervalSeconds params ≤ INT64_MAX.
Proof.
  pose proof (sc_spacing _ Hsc). pose proof (pt_spacing _ Hty). pose proof (pt_interval _ Hty).
  unfold MatMulAsertClampedMinIntervalSeconds, INT64_MAX. destruct (Z.ltb_spec 0 (nMatMulAsertClampedMinInterval params)); lia.
Qed.

(** The credit of the blocks since the anchor, when the cap is active. *)
Definition credit_since_anchor : Z :=
  if IsMatMulStallRecoveryActive params (nHeight b) then credit_ref σ params (Z.to_nat (nHeight b - A)) p else 0.

Lemma credit_since_anchor_bound : 0 ≤ credit_since_anchor ≤ INT64_MAX.
Proof.
  unfold credit_since_anchor. case_match; [|unfold INT64_MAX; lia]. apply credit_ref_bound; [apply interval_pos|apply Hidx].
Qed.

Lemma credit_ok anchor : ancestor σ p A = Some anchor →
  ∃ σ', MatMulAsertClampedTimeCredit σ p anchor params = Ok (credit_since_anchor, σ') ∧ same_but_cache σ σ' ∧ cache_ok params (anchor_at params) σ'.
Proof.
  intros Ha. unfold credit_since_anchor. destruct (IsMatMulStallRecoveryActive params (nHeight b)) eqn:Hact.
  - apply (MatMulAsertClampedTimeCredit_ok params (anchor_at params) A (nHeight b) anchor_const interval_pos);
      [apply Hidx|apply Hidx|done..| |done].
    apply (anchor_bounds params (nHeight b) Hsc Htip); [unfold fork_heights; rewrite !elem_of_cons; tauto|].
    unfold IsMatMulStallRecoveryActive in Hact. rewrite !andb_true_iff in Hact. lia.
  - exists σ. unfold MatMulAsertClampedTimeCredit. rewrite (deref_Ok _ _ _ Hp), bind_Ok, Hact. done.
Qed.

Definition anchor_input (a : CBlockIndex) : Z := Z.min (nTime b - nTime a + credit_since_anchor) INT64_MAX.

Lemma anchor_asert_input anchor a : σ !! anchor = Some a → nHeight a = A →
  asert_input (anchor_input a) (nHeight b - nHeight a)
    (current_half_life_s (ResolveMatMulAsertHalfLifeInfo (Some (nHeight b)) params)) (nPowTargetSpacing params).
Proof.
  intros Ha Eh. pose proof anchor_range. pose proof (it_times _ Hidx p b Hp). pose proof (it_times _ Hidx anchor a Ha).
  pose proof credit_since_anchor_bound. pose proof (lk_height _ (it_linked _ Hidx) p b Hp). unfold anchor_input, INT64_MAX in *.
  constructor; [lia|lia| |].
  - split; [by apply half_life_pos|by apply half_life_bound].
  - split; [apply Hsc|apply Hty].
Qed.

Lemma asert_from_anchor_ok :
  ∃ c σ', asert_from_anchor σ p params limit = Ok (c, σ') ∧ 0 ≤ c < 2 ^ 32 ∧ bits_valid c (val limit) ∧
    same_but_cache σ σ' ∧ cache_ok params (anchor_at params) σ' ∧
    ∃ anchor a, ancestor σ p A = Some anchor ∧ σ !! anchor = Some a ∧
      (bits_valid (nBits a) (val limit) → compact_value (nBits a) * 2 ^ 17 ≤ MAX →
       compact_value c = truncated (to_limit (asert_value (compact_value (nBits a))
         (clamp64 (schedule_error (anchor_input a) (nHeight b - A)
            (current_half_life_s (ResolveMatMulAsertHalfLifeInfo (Some (nHeight b)) params)) (nPowTargetSpacing params)))) (val limit))).
Proof.
  pose proof anchor_range as Har. pose proof (it_linked _ Hidx) as Hl.
  destruct (ancestor_some σ Hl p b A Hp ltac:(lia)) as (anchor & a & Ea & Ha & Eh).
  unfold asert_from_anchor. rewrite (deref_Ok _ _ _ Hp), bind_Ok. cbv zeta. fold (anchor_at params (nHeight b)). fold A.
  rewrite (proj2 (Z.ltb_ge _ _)), (proj2 (Z.ltb_ge _ _)) by lia. cbn [orb].
  rewrite (GetAncestor_ok σ Hl p b _ Hp), Ea, bind_Ok, (deref_Ok _ _ _ Ha), bind_Ok.
  pose proof (it_bits _ Hidx anchor a Ha) as Hba. pose proof (target_of_ok _ Hba) as Hta. pose proof (is_arith_bound _ Hlimit).
  rewrite EqualTo_val, gtb_arith by (done || lia).
  destruct (_ || _) eqn:Ebad.
  { destruct (fail_closed_emits (val limit) Hpos) as (c & E & Hc & Hv). rewrite E, bind_Ok. exists c, σ. split_and!; [done|lia..|done|done|done|].
    exists anchor, a. split_and!; [done..|]. intros Hva _. rewrite (target_of_val _ (val limit)) in Ebad by (done || lia).
    destruct Hva as [_ Hva]. lia. }
  destruct (credit_ok anchor Ea) as (σ' & -> & Hs & Hc'). rewrite bind_Ok.
  pose proof (it_times _ Hidx p b Hp). pose proof (it_times _ Hidx anchor a Ha). unfold GetBlockTime, s64.
  rewrite to_signed_small, asert_time_bound by (lia || apply credit_since_anchor_bound). fold (anchor_input a).
  pose proof (anchor_asert_input anchor a Ha Eh) as Hin.
  destruct (CalculateMatMulAsertTarget_range (target_of (nBits a)) limit _ _ _ _ Hta Hlimit Hpos Hin) as (t & Et & Ht & Hrange).
  rewrite Et, bind_Ok. destruct (GetCompact_valid t (val limit) Ht Hrange) as (c & Ec & Hcb & Hcv & Ecv). rewrite Ec, bind_Ok.
  exists c, σ'. split_and!; [done|lia..|done|done|done|]. exists anchor, a. split_and!; [done..|]. intros Hva Hroom.
  pose proof (target_of_val _ (val limit) Hba Hva ltac:(lia)) as Eval.
  destruct (CalculateMatMulAsertTarget_ok (target_of (nBits a)) limit _ _ _ _ Hta Hlimit Hpos Hin) as (t' & Et' & _ & Evt);
    [rewrite Eval; destruct Hva; lia|by rewrite Eval|].
  rewrite Et in Et'. injection Et' as <-. by rewrite Ecv, Evt, Eval, <- Eh.
Qed.
End from_anchor.

Lemma one_shot_at_activation {T} `{CppInt T} params parent limit :
  one_shot params (nMatMulAsertHeight params) parent limit ≠ None.
Proof. unfold one_shot, one_shot_retune. by rewrite Z.eqb_refl. Qed.

Section retarget.
Context {T : Type} `{CppIntLaws T}.
Context (σ : BlockMap) (params : Params) (p : list Z) (b : CBlockIndex).
Hypothesis Hidx : index_typed σ.
Hypothesis Hty : params_typed params.
Hypothesis Hp : σ !! p = Some b.
Hypothesis Hasert : 0 ≤ nMatMulAsertHeight params.
Hypothesis Hcache : cache_ok params (anchor_at params) σ.

(** The retarget returns bits of a target in [1, limit], and leaves the
    index unchanged up to a sound cache. *)
Definition retargets (m : result (Z * BlockMap)) (limit : Z) : Prop :=
  ∃ c σ', m = Ok (c, σ') ∧ 0 ≤ c < 2 ^ 32 ∧ bits_valid c limit ∧
    same_but_cache σ σ' ∧ cache_ok params (anchor_at params) σ'.

Lemma emits_retargets m limit : emits m limit → retargets (c ← m; Ok (c, σ)) limit.
Proof. intros (c & -> & Hc & Hv). rewrite bind_Ok. exists c, σ. done. Qed.

Lemma pow_limit_emits h :
  emits (GetCompact (MatMulAsertPowLimitForNextHeight params h) false) (le_word (powLimit params)).
Proof.
  destruct (MatMulAsertPowLimit_ok params h (pt_limits _ Hty)) as [Hl Hb].
  destruct (GetCompact_valid _ (le_word (powLimit params)) Hl ltac:(lia)) as (c & E & Hc & Hv & _). by exists c.
Qed.

Lemma validate_total h : ∃ v, ValidateMatMulAsertParams params h = Ok v.
Proof.
  unfold ValidateMatMulAsertParams, validate_pow_limit_upgrade. case_match; [by eexists|].
  destruct (UintToArith256_val _ (lim_upgrade _ (pt_limits _ Hty))) as [Hu _].
  repeat case_match; rewrite ?bind_Ok; try by eexists.
  all: rewrite GetCompact_ok, bind_Ok by done; repeat case_match; rewrite ?bind_Ok; repeat case_match; by eexists.
Qed.

Lemma MatMulAsert_ok : retargets (MatMulAsert σ p params) (le_word (powLimit params)).
Proof.
  pose proof (it_linked _ Hidx) as Hl. pose proof (lk_height σ Hl p b Hp) as Hh.
  unfold MatMulAsert. rewrite (deref_Ok _ _ _ Hp), bind_Ok. cbv zeta.
  rewrite (proj2 (Z.ltb_ge _ _)) by lia. cbn [orb]. destruct (Z.ltb_spec INT32_MAX (nHeight b + 1)) as [Hmax|Hmax].
  { apply emits_retargets. pose proof (pow_limit_emits (-1)) as He. exact He. }
  set (limit := MatMulAsertPowLimitForNextHeight params (nHeight b + 1)).
  destruct (MatMulAsertPowLimit_ok params (nHeight b + 1) (pt_limits _ Hty)) as [Hlim Hb]. fold limit in Hlim, Hb.
  destruct (Z.ltb_spec (nHeight b + 1) (nMatMulAsertHeight params)) as [Hlow|Hge].
  { rewrite (FindGenesisBlockIndex_ok σ p b Hl Hp), bind_Ok.
    destruct (ancestor_some σ Hl p b 0 Hp ltac:(lia)) as (g & gb & -> & Hg & _). rewrite (deref_Ok _ _ _ Hg), bind_Ok.
    apply emits_retargets, FastMineBootstrapBits_emits; [done|]. by apply (it_bits _ Hidx g). }
  destruct (validate_total (nHeight b + 1)) as [[] Hval]; rewrite Hval, bind_Ok; cbn [negb].
  2: { apply emits_retargets, fail_closed_emits. lia. }
  pose proof (it_bits _ Hidx p b Hp) as Hbits.
  destruct (one_shot params (nHeight b + 1) (target_of (nBits b)) limit) as [r|] eqn:Eshot.
  { apply emits_retargets. apply (emits_mono _ (val limit)); [lia|].
    eapply one_shot_emits; [done|by apply target_of_ok|done|lia|exact Eshot]. }
  assert (nMatMulAsertHeight params ≠ nHeight b + 1).
  { intros E. rewrite <- E in Eshot. by apply (one_shot_at_activation params _ limit) in Eshot. }
  destruct (asert_from_anchor_ok σ params p b limit Hidx Hty (validated_schedule _ _ Hval) Hp Hlim ltac:(lia)) as (c & σ' & E & Hc & Hv & Hs & Hck & _);
    [unfold INT32_MAX in *; lia|done..|].
  exists c, σ'. split_and!; [done|lia..| |done|done]. destruct Hv as [Hn Hv]. split; [done|]. lia.
Qed.
End retarget.

(** ** No configured rescale is skipped *)

(** The one-time profile rescales: height, ratio. *)
Definition profile_rescales (params : Params) : list (Z * (Z * Z)) :=
  [(nMatMulV4Height params, (nMatMulV4AsertRescaleNum params, nMatMulV4AsertRescaleDen params));
   (nMatMulBMX4CHeight params, (nMatMulBMX4CAsertRescaleNum params, nMatMulBMX4CAsertRescaleDen params));
   (nMatMulDRLTHeight params, (nMatMulDRLTAsertRescaleNum params, nMatMulDRLTAsertRescaleDen params));
   (nMatMulRCCoupledHeight params, (nMatMulRCCoupledAsertRescaleNum params, nMatMulRCCoupledAsertRescaleDen params));
   (nMatMulStallRecoveryHeight params, (nMatMulStallRecoveryAsertNum params, nMatMulStallRecoveryAsertDen params))].

(** Decides the height tests of the dispatch from facts in the context. *)
Ltac decide_heights :=
  repeat match goal with
  | |- context [?x =? ?y] => first [rewrite (proj2 (Z.eqb_neq x y)) by lia | rewrite (proj2 (Z.eqb_eq x y)) by lia]
  end; cbn [andb negb].

Lemma not_at h k : negb (k =? INT32_MAX) && (h =? k) = false → h ≠ INT32_MAX → h ≠ k.
Proof. intros E Hh ->. rewrite Z.eqb_refl, andb_true_r in E. apply negb_false_iff, Z.eqb_eq in E. done. Qed.

Lemma not_shadowed v n d s :
  negb (negb (v =? INT32_MAX) && negb (n =? d) && s) = true → v ≠ INT32_MAX → n ≠ d → s = false.
Proof. intros E Hv Hn. rewrite !(proj2 (Z.eqb_neq _ _)) in E by done. cbn [negb andb] in E. by apply negb_true_iff in E. Qed.

Ltac split_shadow H :=
  apply not_shadowed in H; [|assumption..]; rewrite ?orb_false_iff in H; decompose [and] H; clear H;
  split_and!; apply not_at; assumption.

Lemma one_shot_not_shadowed {T} `{CppInt T} params h num den parent limit :
  ValidateMatMulAsertParams params h = Ok true → h ≠ INT32_MAX →
  (h, (num, den)) ∈ profile_rescales params → num ≠ den →
  one_shot params h parent limit = Some (rescale_bits parent num den limit).
Proof.
  intros (_ & Hst & _ & _ & Hun & Hsh & _ & _ & _)%validated_parts Hen Hin Hne.
  unfold profile_rescales in Hin. unfold one_shot, one_shot_retune, one_shot_profile, IsDisabledHeight.
  apply elem_of_cons in Hin as [[= -> -> ->]|Hin].
  { assert (let v := nMatMulV4Height params in v ≠ nMatMulAsertHeight params ∧ v ≠ nMatMulAsertRetuneHeight params ∧
      v ≠ nMatMulAsertRetune2Height params ∧ v ≠ nMatMulRCHeight params) as (? & ? & ? & ?).
    { clear Hst Hun. unfold_validation. rewrite !andb_true_iff in Hsh. destruct Hsh as (Hx & _). split_shadow Hx. }
    assert (nMatMulV4Height params ≠ nMatMulBMX4CHeight params).
    { clear -Hun Hen Hne. intros E. unfold_validation. rewrite !andb_true_iff in Hun. destruct Hun as (_ & Hy & _).
      rewrite <- E, Z.eqb_refl, andb_true_r in Hy. rewrite !(proj2 (Z.eqb_neq _ _)) in Hy by assumption. done. }
    decide_heights. reflexivity. }
  apply elem_of_cons in Hin as [[= -> -> ->]|Hin].
  { assert (let v := nMatMulBMX4CHeight params in v ≠ nMatMulAsertHeight params ∧ v ≠ nMatMulAsertRetuneHeight params ∧
      v ≠ nMatMulAsertRetune2Height params ∧ v ≠ nMatMulRCHeight params) as (? & ? & ? & ?).
    { clear Hst Hun. unfold_validation. rewrite !andb_true_iff in Hsh. destruct Hsh as (_ & Hx & _). split_shadow Hx. }
    rewrite (Z.eqb_refl (nMatMulBMX4CHeight params)). cbn [negb]. rewrite !andb_false_r. cbn [andb]. decide_heights. reflexivity. }
  apply elem_of_cons in Hin as [[= -> -> ->]|Hin].
  { assert (let v := nMatMulDRLTHeight params in v ≠ nMatMulAsertHeight params ∧ v ≠ nMatMulAsertRetuneHeight params ∧
      v ≠ nMatMulAsertRetune2Height params ∧ v ≠ nMatMulV4Height params ∧ v ≠ nMatMulBMX4CHeight params ∧ v ≠ nMatMulRCHeight params) as (? & ? & ? & ? & ? & ?).
    { clear Hst Hun. unfold_validation. rewrite !andb_true_iff in Hsh. destruct Hsh as (_ & _ & Hx & _). split_shadow Hx. }
    decide_heights. reflexivity. }
  apply elem_of_cons in Hin as [[= -> -> ->]|Hin].
  { assert (let v := nMatMulRCCoupledHeight params in v ≠ nMatMulAsertHeight params ∧ v ≠ nMatMulAsertRetuneHeight params ∧
      v ≠ nMatMulAsertRetune2Height params ∧ v ≠ nMatMulV4Height params ∧ v ≠ nMatMulBMX4CHeight params ∧
      v ≠ nMatMulDRLTHeight params ∧ v ≠ nMatMulRCHeight params) as (? & ? & ? & ? & ? & ? & ?).
    { clear Hst Hun. unfold_validation. rewrite !andb_true_iff in Hsh. destruct Hsh as (_ & _ & _ & _ & Hx & _). split_shadow Hx. }
    decide_heights. reflexivity. }
  apply list_elem_of_singleton in Hin as [= -> -> ->].
  assert (let v := nMatMulStallRecoveryHeight params in v ≠ nMatMulAsertHeight params ∧ v ≠ nMatMulAsertRetuneHeight params ∧
      v ≠ nMatMulAsertRetune2Height params ∧ v ≠ nMatMulV4Height params ∧ v ≠ nMatMulBMX4CHeight params ∧
      v ≠ nMatMulDRLTHeight params ∧ v ≠ nMatMulRCHeight params ∧ v ≠ nMatMulRCCoupledHeight params ∧
      v ≠ nMatMulPowLimitUpgradeHeight params ∧ v ≠ nMatMulAsertHalfLifeUpgradeHeight params) as (? & ? & ? & ? & ? & ? & ? & ? & ? & ?).
  { clear Hsh Hun. unfold_validation. rewrite (proj2 (Z.eqb_neq (nMatMulStallRecoveryHeight params) INT32_MAX)) in Hst by exact Hen.
    cbn [negb] in Hst. rewrite !andb_true_iff in Hst. destruct Hst as (_ & Hx & _). apply negb_true_iff in Hx.
    rewrite ?orb_false_iff in Hx. decompose [and] Hx. clear Hx.
    split_and!; apply not_at; try assumption; rewrite (Z.eqb_sym (nMatMulStallRecoveryHeight params)); assumption. }
  decide_heights. rewrite ?andb_false_r. reflexivity.
Qed.

(** ** Properties *)

(** C33: on every consistent index and any parameters of the right width -
    valid or not - the MatMul retarget returns compact bits of a target in
    [1 .. powLimit], and leaves the index unchanged up to a sound cache. *)
Theorem matmul_asert_total {T} `{CppIntLaws T} σ params p b :
  index_typed σ → params_typed params → σ !! p = Some b → 0 ≤ nMatMulAsertHeight params →
  cache_ok params (anchor_at params) σ →
  ∃ c σ', MatMulAsert σ p params = Ok (c, σ') ∧ 0 ≤ c < 2 ^ 32 ∧ bits_valid c (le_word (powLimit params)) ∧
    same_but_cache σ σ' ∧ cache_ok params (anchor_at params) σ'.
Proof. intros H1 H2 H3 H4 H5. exact (MatMulAsert_ok σ params p b H1 H2 H3 H4 H5). Qed.


(** No configured rescale is silently skipped: for a schedule that
    passes validation, the retarget at the height of a version-4, BMX4C, DRLT,
    coupled or stall-recovery rescale that changes the target applies exactly
    that rescale to the parent's target. *)
Theorem no_rescale_skipped {T} `{CppInt T} params h num den parent limit :
  ValidateMatMulAsertParams params h = Ok true → h ≠ INT32_MAX →
  (h, (num, den)) ∈ profile_rescales params → num ≠ den →
  one_shot params h parent limit = Some (rescale_bits parent num den limit).
Proof. exact (one_shot_not_shadowed params h num den parent limit). Qed.
