(* ===== verification/Retarget.v ===== *)
(** Required work.

    The difficulty engines of [pow.cpp] around ASERT: Dark Gravity Wave (the
    KAWPOW-era engine and its MatMul variant), the interval retarget inherited
    from Bitcoin, the entry point [GetNextWorkRequired] that selects between
    them, and the header-sync check [PermittedDifficultyTransition]. *)

From Stdlib Require Import ZArith Lia.
From stdpp Require Import base list numbers gmap tactics.
From S2P Require Import Prelude ArithUint256 Compact Params BlockIndex Difficulty AsertParams Credit Asert.
Import arith_uint256 Consensus difficulty asert_params block_index credit asert.

Open Scope Z_scope.

Module retarget.

Definition DGW_PAST_BLOCKS : Z := 180.
Definition WARMUP_HARDENING_MIN_NUM : Z := 5.
Definition WARMUP_HARDENING_MIN_DEN : Z := 6.
Definition WARMUP_EASING_MAX_NUM : Z := 3.
Definition WARMUP_EASING_MAX_DEN : Z := 1.

(** [Some (pindex, average)] after the window; [None] when the chain ends
    before it, for which the engines return the limit. *)
Fixpoint dgw_window (n : nat) (nCountBlocks : Z) (σ : BlockMap) (pindex : list Z) (bnPastTargetAvg : list Z)
    : result (option (list Z * list Z)) :=
  match n with
  | O => Ok (Some (pindex, bnPastTargetAvg))
  | S n =>
      b ← deref σ pindex;
      let bnTarget := target_of (nBits b) in
      avg ← (if nCountBlocks =? 1 then Ok bnTarget
             else div (add (mul32 bnPastTargetAvg nCountBlocks) bnTarget) (of_u64 WIDTH (nCountBlocks + 1)));
      if negb (nCountBlocks =? DGW_PAST_BLOCKS) then
        match pprev b with
        | None => Ok None
        | Some q => dgw_window n (nCountBlocks + 1) σ q avg
        end
      else dgw_window n (nCountBlocks + 1) σ pindex avg
  end.

Definition DarkGravityWaveLegacy (σ : BlockMap) (pindexLast : list Z) (params : Params) : result Z :=
  last ← deref σ pindexLast;
  let bnPowLimit := UintToArith256 (powLimit params) in
  if nHeight last <? DGW_PAST_BLOCKS then GetCompact bnPowLimit false
  else
    window ← dgw_window (Z.to_nat DGW_PAST_BLOCKS) 1 σ pindexLast (zero WIDTH);
    match window with
    | None => GetCompact bnPowLimit false
    | Some (pindex, bnNew) =>
        first ← deref σ pindex;
        let nActualTimespan := s64 (GetBlockTime last - GetBlockTime first) in
        let nTargetTimespan := s64 (DGW_PAST_BLOCKS * nPowTargetSpacing params) in
        if nTargetTimespan <=? 0 then GetCompact bnPowLimit false
        else
          let nActualTimespan := if nActualTimespan <? Z.quot nTargetTimespan 3 then Z.quot nTargetTimespan 3 else nActualTimespan in
          let nActualTimespan := if s64 (nTargetTimespan * 3) <? nActualTimespan then s64 (nTargetTimespan * 3) else nActualTimespan in
          bnNew ← ScaleTargetByTimespan bnNew nActualTimespan nTargetTimespan;
          GetCompact (ClampRetargetResult bnNew bnPowLimit) false
    end.

Definition ExpectedDgwTimespan (height : Z) (params : Params) : Z :=
  let interval_count :=
    if (nDgwWindowAlignmentHeight params <=? height) && (1 <? DGW_PAST_BLOCKS) then DGW_PAST_BLOCKS - 1 else DGW_PAST_BLOCKS in
  if height <? nFastMineHeight params then Z.quot (s64 (interval_count * nPowTargetSpacingFastMs params)) 1000
  else s64 (interval_count * nPowTargetSpacingNormal params).

(** The clamp of the observed timespan to [min, max]. *)
Definition clamp_to (lo hi t : Z) : Z :=
  let t := if t <? lo then lo else t in
  if hi <? t then hi else t.

Definition dgw_warmup (σ : BlockMap) (last : CBlockIndex) (bootstrap_bits : Z) (params : Params) : result Z :=
  let bnNew := target_of (nBits last) in
  let nTargetTimespan := nPowTargetSpacingNormal params in
  nActualTimespan ← (match pprev last with
                     | Some q => prev ← deref σ q; Ok (s64 (GetBlockTime last - GetBlockTime prev))
                     | None => Ok (nPowTargetSpacingNormal params)
                     end);
  let min_timespan := Z.max 1 (Z.quot (s64 (nTargetTimespan * WARMUP_HARDENING_MIN_NUM)) WARMUP_HARDENING_MIN_DEN) in
  let max_timespan := Z.max min_timespan (Z.quot (s64 (nTargetTimespan * WARMUP_EASING_MAX_NUM)) WARMUP_EASING_MAX_DEN) in
  nActualTimespan ← DampenWarmupTimespanForRestartGap nActualTimespan nTargetTimespan;
  bnNew ← ScaleTargetByTimespan bnNew (clamp_to min_timespan max_timespan nActualTimespan) nTargetTimespan;
  let warmup_floor := target_of bootstrap_bits in
  let bnNew := if gtb bnNew warmup_floor then warmup_floor else bnNew in
  GetCompact (ClampRetargetResult bnNew (UintToArith256 (powLimit params))) false.

(** Numerators and denominators of the hardening and easing clamps. *)
Definition dgw_clamp_profile (next_height : Z) (params : Params) : (Z * Z) * (Z * Z) :=
  if nDgwAsymmetricClampHeight params <=? next_height
  then ((3, 4), if nDgwEasingBoostHeight params <=? next_height then (3, 1) else (2, 1))
  else ((2, 3), (3, 2)).

Definition dgw_normal (σ : BlockMap) (pindexLast : list Z) (next_height : Z) (params : Params) : result Z :=
  last ← deref σ pindexLast;
  let bnPowLimit := UintToArith256 (powLimit params) in
  window ← dgw_window (Z.to_nat DGW_PAST_BLOCKS) 1 σ pindexLast (zero WIDTH);
  match window with
  | None => GetCompact bnPowLimit false
  | Some (pindex, bnNew) =>
      first ← deref σ pindex;
      let nActualTimespan := s64 (GetBlockTime last - GetBlockTime first) in
      let nTargetTimespan := ExpectedDgwTimespan next_height params in
      if nTargetTimespan <=? 0 then GetCompact bnPowLimit false
      else
        let '((min_num, min_den), (max_num, max_den)) := dgw_clamp_profile next_height params in
        let min_timespan := Z.max 1 (Z.quot (s64 (nTargetTimespan * min_num)) min_den) in
        let max_timespan := Z.max min_timespan (Z.quot (s64 (nTargetTimespan * max_num)) max_den) in
        bnNew ← ScaleTargetByTimespan bnNew (clamp_to min_timespan max_timespan nActualTimespan) nTargetTimespan;
        let bnNew := ApplyDgwSlewGuard bnNew (target_of (nBits last)) next_height (nDgwSlewGuardHeight params) in
        GetCompact (ClampRetargetResult bnNew bnPowLimit) false
  end.

Definition DarkGravityWaveMatMul (σ : BlockMap) (pindexLast : list Z) (params : Params) : result Z :=
  last ← deref σ pindexLast;
  let bnPowLimit := UintToArith256 (powLimit params) in
  genesis ← FindGenesisBlockIndex σ (Some pindexLast);
  match genesis with
  | None => GetCompact bnPowLimit false
  | Some g =>
      let next_height := nHeight last + 1 in
      if (next_height <? 0) || (INT32_MAX <? next_height) then GetCompact bnPowLimit false
      else
        gb ← deref σ g;
        bootstrap_bits ← FastMineBootstrapBits gb params;
        if next_height <? nFastMineHeight params then Ok bootstrap_bits
        else if nHeight last <? DGW_PAST_BLOCKS then Ok bootstrap_bits
        else if (nFastMineHeight params <=? next_height) && (next_height <? nFastMineHeight params + 2 * DGW_PAST_BLOCKS) then
          if next_height =? nFastMineHeight params then Ok (nBits last)
          else dgw_warmup σ last bootstrap_bits params
        else dgw_normal σ pindexLast next_height params
  end.

(** ** The interval retarget *)
Definition CalculateNextWorkRequired (σ : BlockMap) (pindexLast : list Z) (nFirstBlockTime : Z) (params : Params) : result Z :=
  last ← deref σ pindexLast;
  if fPowNoRetargeting params then Ok (nBits last)
  else
    let timespan := nPowTargetTimespan params in
    let nActualTimespan := s64 (GetBlockTime last - nFirstBlockTime) in
    let nActualTimespan := if nActualTimespan <? Z.quot timespan 4 then Z.quot timespan 4 else nActualTimespan in
    let nActualTimespan := if s64 (timespan * 4) <? nActualTimespan then s64 (timespan * 4) else nActualTimespan in
    let bnPowLimit := UintToArith256 (powLimit params) in
    bits ← (if enforce_BIP94 params then
              interval ← DifficultyAdjustmentInterval params;
              let nHeightFirst := s32 (nHeight last - (interval - 1)) in
              first ← (if 0 <=? nHeightFirst then GetAncestor σ pindexLast nHeightFirst else Ok None);
              b ← deref σ (default pindexLast first);
              Ok (nBits b)
            else Ok (nBits last));
    bnNew ← div (mul32 (target_of bits) (u32 nActualTimespan)) (of_u64 WIDTH (u64 timespan));
    GetCompact (ClampRetargetResult bnNew bnPowLimit) false.

(** Back to the last block that does not use the minimum-difficulty rule. *)
Fixpoint last_regular (fuel : nat) (σ : BlockMap) (pindex : list Z) (interval nProofOfWorkLimit : Z) : result Z :=
  b ← deref σ pindex;
  match pprev b with
  | Some q =>
      if negb (Z.rem (nHeight b) interval =? 0) && (nBits b =? nProofOfWorkLimit) then
        match fuel with O => Err EFuel | S fuel => last_regular fuel σ q interval nProofOfWorkLimit end
      else Ok (nBits b)
  | None => Ok (nBits b)
  end.

Section next_work.
Context {T : Type} `{CppInt T}.

(** [block_time] is [pblock->GetBlockTime()]. *)
Definition GetNextWorkRequired (σ : BlockMap) (pindexLast : list Z) (block_time : Z) (params : Params) : result (Z * BlockMap) :=
  last ← deref σ pindexLast;
  nProofOfWorkLimit ← GetCompact (UintToArith256 (powLimit params)) false;
  let next_height := nHeight last + 1 in
  if (next_height <? 0) || (INT32_MAX <? next_height) then Ok (nProofOfWorkLimit, σ)
  else if fPowNoRetargeting params then Ok (nBits last, σ)
  else if fMatMulPOW params then MatMulAsert σ pindexLast params
  else if fKAWPOW params && (nKAWPOWHeight params <=? next_height) then
    c ← DarkGravityWaveLegacy σ pindexLast params; Ok (c, σ)
  else
    interval ← DifficultyAdjustmentInterval params;
    if interval =? 0 then Err EBounds
    else if negb (Z.rem next_height interval =? 0) then
      if fPowAllowMinDifficultyBlocks params then
        if s64 (GetBlockTime last + s64 (nPowTargetSpacing params * 2)) <? block_time then Ok (nProofOfWorkLimit, σ)
        else c ← last_regular (Z.to_nat (nHeight last)) σ pindexLast interval nProofOfWorkLimit; Ok (c, σ)
      else Ok (nBits last, σ)
    else
      let nHeightFirst := s32 (nHeight last - (interval - 1)) in
      _ ← assert_ (0 <=? nHeightFirst);
      first ← GetAncestor σ pindexLast nHeightFirst;
      match first with
      | None => Err EAssert
      | Some f =>
          fb ← deref σ f;
          c ← CalculateNextWorkRequired σ pindexLast (GetBlockTime fb) params; Ok (c, σ)
      end.
End next_work.

Definition EnforceTimewarpProtectionAtHeight (params : Params) (block_height : Z) : result bool :=
  if negb (enforce_BIP94 params) || (block_height <=? 0) then Ok false
  else if negb (fPowNoRetargeting params) && fMatMulPOW params then Ok true
  else if negb (fPowNoRetargeting params) && fKAWPOW params && (nKAWPOWHeight params <=? block_height) then Ok true
  else
    interval ← DifficultyAdjustmentInterval params;
    if interval =? 0 then Err EBounds else Ok (Z.rem block_height interval =? 0).

(** ** Header-sync bounds *)
Definition round_compact (t : list Z) : result (list Z) := c ← GetCompact t false; Ok (target_of c).

Definition permitted_matmul (params : Params) (old_nbits new_nbits : Z) : result bool :=
  match DeriveTarget old_nbits (powLimit params), DeriveTarget new_nbits (powLimit params) with
  | Some old_target, Some new_target =>
      let pow_limit := UintToArith256 (powLimit params) in
      q ← div pow_limit (of_u64 WIDTH 4);
      let easier_bound := if gtb old_target q then pow_limit else mul32 old_target 4 in
      max_new_target ← round_compact easier_bound;
      if gtb new_target max_new_target then Ok false
      else
        harder_bound ← div old_target (of_u64 WIDTH 4);
        let harder_bound := if EqualTo harder_bound 0 then of_u64 WIDTH 1 else harder_bound in
        min_new_target ← round_compact harder_bound;
        Ok (negb (ltb new_target min_new_target))
  | _, _ => Ok false
  end.

(** The old target scaled by [span / timespan], within the limit, rounded. *)
Definition scaled_bound (params : Params) (old_nbits span : Z) : result (list Z) :=
  let pow_limit := UintToArith256 (powLimit params) in
  t ← div (mul32 (target_of old_nbits) (u32 span)) (of_u64 WIDTH (u64 (nPowTargetTimespan params)));
  round_compact (if gtb t pow_limit then pow_limit else t).

Definition PermittedDifficultyTransition (params : Params) (height old_nbits new_nbits : Z) : result bool :=
  if fMatMulPOW params then permitted_matmul params old_nbits new_nbits
  else if fPowAllowMinDifficultyBlocks params then Ok true
  else
    interval ← DifficultyAdjustmentInterval params;
    if interval =? 0 then Err EBounds
    else if Z.rem height interval =? 0 then
      let smallest_timespan := Z.quot (nPowTargetTimespan params) 4 in
      let largest_timespan := s64 (nPowTargetTimespan params * 4) in
      let observed_new_target := target_of new_nbits in
      maximum_new_target ← scaled_bound params old_nbits largest_timespan;
      if ltb maximum_new_target observed_new_target then Ok false
      else
        minimum_new_target ← scaled_bound params old_nbits smallest_timespan;
        if gtb minimum_new_target observed_new_target then Ok false else Ok true
    else if negb (old_nbits =? new_nbits) then Ok false
    else Ok true.

End retarget.
Import retarget.

(** ** Dark Gravity Wave *)
Lemma historical_limit params : params_typed params →
  is_arith (UintToArith256 (powLimit params)) ∧ 0 < val (UintToArith256 (powLimit params)) ∧
  val (UintToArith256 (powLimit params)) = le_word (powLimit params).
Proof.
  intros Hty. destruct (pt_limits _ Hty) as [Hh _ Hpos]. destruct (UintToArith256_val _ Hh) as [Hl El]. by rewrite El.
Qed.

Lemma limit_emits params : params_typed params →
  emits (GetCompact (UintToArith256 (powLimit params)) false) (le_word (powLimit params)).
Proof.
  intros Hty. destruct (historical_limit params Hty) as (Hl & Hp & El).
  destruct (GetCompact_valid _ (le_word (powLimit params)) Hl ltac:(lia)) as (c & E & Hc & Hv & _). by exists c.
Qed.

Lemma clamped_emits params t : params_typed params → is_arith t →
  emits (GetCompact (ClampRetargetResult t (UintToArith256 (powLimit params))) false) (le_word (powLimit params)).
Proof.
  intros Hty Ht. destruct (historical_limit params Hty) as (Hl & Hp & <-). by apply clamped_bits_emits.
Qed.

Lemma scaled_emits params r act tgt : params_typed params → is_arith r →
  emits (t ← ScaleTargetByTimespan r act tgt; GetCompact (ClampRetargetResult t (UintToArith256 (powLimit params))) false)
    (le_word (powLimit params)).
Proof.
  intros Hty Hr. destruct (ScaleTargetByTimespan_ok r act tgt Hr) as (t & -> & Ht & _). rewrite bind_Ok. by apply clamped_emits.
Qed.

Lemma dgw_window_ok σ n p b avg :
  index_typed σ → σ !! p = Some b → is_arith avg → (n ≤ 180)%nat → Z.of_nat n - 1 ≤ nHeight b →
  ∃ q c r, dgw_window n (181 - Z.of_nat n) σ p avg = Ok (Some (q, r)) ∧ σ !! q = Some c ∧ is_arith r.
Proof.
  intros Hi. revert p b avg. induction n as [|n IH]; intros p b avg Hp Ha Hn Hh; [exists p, b, avg; done|].
  cbn [dgw_window]. rewrite (deref_Ok _ _ _ Hp), bind_Ok. pose proof (target_of_ok _ (it_bits _ Hi p b Hp)) as Ht.
  set (k := 181 - Z.of_nat (S n)).
  assert (∃ r, (if k =? 1 then Ok (target_of (nBits b))
    else div (add (mul32 avg k) (target_of (nBits b))) (of_u64 WIDTH (k + 1))) = Ok r ∧ is_arith r) as (r & -> & Hr).
  { destruct (k =? 1); [eauto|]. destruct (mul32_arith avg k Ha ltac:(lia)) as [Hm _]. destruct (add_arith _ _ Hm Ht) as [Hs _].
    destruct (of_u64_ok (k + 1) ltac:(lia)) as [Ho Eo]. destruct (div_arith _ _ Hs Ho ltac:(lia)) as (q & -> & Hq & _). eauto. }
  rewrite bind_Ok. unfold DGW_PAST_BLOCKS. replace (k + 1) with (181 - Z.of_nat n) by lia.
  destruct (Z.eqb_spec k 180) as [E|E]; cbn [negb].
  - apply (IH p b); [done..|lia|lia].
  - destruct (prev_exists σ (it_linked _ Hi) p b Hp ltac:(lia)) as (q & c & -> & Hq & Ec). apply (IH q c); [done..|lia|lia].
Qed.

Lemma DarkGravityWaveLegacy_emits σ p b params :
  index_typed σ → params_typed params → σ !! p = Some b →
  emits (DarkGravityWaveLegacy σ p params) (le_word (powLimit params)).
Proof.
  intros Hi Hty Hp. unfold DarkGravityWaveLegacy. rewrite (deref_Ok _ _ _ Hp), bind_Ok. cbv zeta. unfold DGW_PAST_BLOCKS.
  destruct (Z.ltb_spec (nHeight b) 180); [by apply limit_emits|].
  destruct (dgw_window_ok σ 180 p b (zero WIDTH) Hi Hp (proj1 zero_arith) ltac:(lia) ltac:(lia)) as (q & c & r & Hw & Hq & Hr).
  change (181 - Z.of_nat 180) with 1 in Hw. change (Z.to_nat 180) with 180%nat. rewrite Hw, bind_Ok, (deref_Ok _ _ _ Hq), bind_Ok.
  case_match; [by apply limit_emits|by apply scaled_emits].
Qed.

(** Every entry of the index claims a usable target. *)
Definition all_bits_valid (σ : BlockMap) (limit : Z) : Prop := ∀ p b, σ !! p = Some b → bits_valid (nBits b) limit.

Lemma dgw_warmup_emits σ p b bits params :
  index_typed σ → params_typed params → σ !! p = Some b → 0 ≤ bits < 2 ^ 32 → 0 < nPowTargetSpacingNormal params →
  emits (dgw_warmup σ b bits params) (le_word (powLimit params)).
Proof.
  intros Hi Hty Hp Hb Hpos. unfold dgw_warmup.
  assert (∃ t, (match pprev b with Some q => prev ← deref σ q; Ok (s64 (GetBlockTime b - GetBlockTime prev))
    | None => Ok (nPowTargetSpacingNormal params) end) = Ok t) as [t ->].
  { destruct (pprev b) as [q|] eqn:Eq; [|eauto]. destruct (lk_prev σ (it_linked _ Hi) p b q Hp Eq) as (c & Hc & _).
    rewrite (deref_Ok _ _ _ Hc), bind_Ok. eauto. }
  rewrite bind_Ok. cbv zeta. unfold DampenWarmupTimespanForRestartGap. rewrite assert_true, bind_Ok by lia.
  match goal with |- emits (mbind _ (if ?c then _ else _)) _ => destruct c end;
    rewrite bind_Ok;
    (match goal with |- emits (mbind _ (ScaleTargetByTimespan ?r ?x ?y)) _ =>
      destruct (ScaleTargetByTimespan_ok r x y (target_of_ok _ (it_bits _ Hi p b Hp))) as (u & -> & Hu & _) end);
    rewrite bind_Ok; apply clamped_emits; [done| |done|]; case_match; (done || by apply target_of_ok).
Qed.

Lemma slew_guard_arith c p h g : is_arith c → is_arith p → is_arith (ApplyDgwSlewGuard c p h g).
Proof. intros Hc Hp. by apply ApplyDgwSlewGuard_ok. Qed.

Lemma dgw_normal_emits σ p b h params :
  index_typed σ → params_typed params → σ !! p = Some b → 180 ≤ nHeight b →
  emits (dgw_normal σ p h params) (le_word (powLimit params)).
Proof.
  intros Hi Hty Hp Hh. unfold dgw_normal. rewrite (deref_Ok _ _ _ Hp), bind_Ok. cbv zeta.
  destruct (dgw_window_ok σ 180 p b (zero WIDTH) Hi Hp (proj1 zero_arith) ltac:(lia) ltac:(lia)) as (q & c & r & Hw & Hq & Hr).
  change (181 - Z.of_nat 180) with 1 in Hw. change (Z.to_nat DGW_PAST_BLOCKS) with 180%nat. rewrite Hw, bind_Ok, (deref_Ok _ _ _ Hq), bind_Ok.
  case_match; [by apply limit_emits|]. destruct (dgw_clamp_profile h params) as [[? ?] [? ?]].
  match goal with |- emits (mbind _ (ScaleTargetByTimespan ?r ?x ?y)) _ =>
      destruct (ScaleTargetByTimespan_ok r x y Hr) as (u & -> & Hu & _) end.
  rewrite bind_Ok. apply clamped_emits; [done|]. apply slew_guard_arith; [done|]. by apply target_of_ok, (it_bits _ Hi p b).
Qed.

Lemma DarkGravityWaveMatMul_emits σ p b params :
  index_typed σ → params_typed params → σ !! p = Some b → all_bits_valid σ (le_word (powLimit params)) →
  0 < nPowTargetSpacingNormal params →
  emits (DarkGravityWaveMatMul σ p params) (le_word (powLimit params)).
Proof.
  intros Hi Hty Hp Hall Hpos. unfold DarkGravityWaveMatMul. rewrite (deref_Ok _ _ _ Hp), bind_Ok. cbv zeta.
  rewrite (FindGenesisBlockIndex_ok σ p b (it_linked _ Hi) Hp), bind_Ok. pose proof (lk_height _ (it_linked _ Hi) p b Hp).
  destruct (ancestor_some σ (it_linked _ Hi) p b 0 Hp ltac:(lia)) as (g & gb & -> & Hg & _).
  case_match; [by apply limit_emits|]. rewrite (deref_Ok _ _ _ Hg), bind_Ok.
  destruct (FastMineBootstrapBits_emits gb params Hty (it_bits _ Hi g gb Hg)) as (c & -> & Hc & Hv). rewrite bind_Ok.
  case_match; [by exists c|]. destruct (Z.ltb_spec (nHeight b) DGW_PAST_BLOCKS); [by exists c|].
  case_match; [|by eapply dgw_normal_emits].
  case_match; [exists (nBits b); split; [done|]; split; [by apply (it_bits _ Hi p)|by apply (Hall p)]|].
  by apply (dgw_warmup_emits σ p).
Qed.

(** ** The interval retarget *)
Record interval_params (params : Params) : Prop := mkInterval {
  ip_spacing : 0 < nPowTargetSpacing params;
  ip_timespan : nPowTargetSpacing params ≤ nPowTargetTimespan params;
  ip_width : nPowTargetTimespan params * 4 < 2 ^ 32;
}.

Lemma interval_ok params : interval_params params →
  ∃ n, DifficultyAdjustmentInterval params = Ok n ∧ 0 < n < 2 ^ 31.
Proof.
  intros [Hs Ht Hw]. unfold DifficultyAdjustmentInterval. rewrite (proj2 (Z.eqb_neq _ _)) by lia.
  rewrite Z.quot_div_nonneg by lia. assert (0 < nPowTargetTimespan params / nPowTargetSpacing params < 2 ^ 31).
  { split; [apply Z.div_str_pos; lia|]. apply Z.div_lt_upper_bound; nia. }
  unfold s64. rewrite to_signed_small by lia. eauto.
Qed.

(** The observed timespan after the clamps. *)
Definition actual_timespan (params : Params) (t : Z) : Z :=
  Z.min (nPowTargetTimespan params * 4) (Z.max (nPowTargetTimespan params / 4) t).

Lemma calculate_clamp params t : interval_params params →
  (let t' := if t <? Z.quot (nPowTargetTimespan params) 4 then Z.quot (nPowTargetTimespan params) 4 else t in
   if s64 (nPowTargetTimespan params * 4) <? t' then s64 (nPowTargetTimespan params * 4) else t') = actual_timespan params t ∧
  0 ≤ actual_timespan params t < 2 ^ 32.
Proof.
  intros [Hs Ht Hw]. unfold actual_timespan, s64. rewrite to_signed_small, Z.quot_div_nonneg by lia.
  assert (0 ≤ nPowTargetTimespan params / 4) by (apply Z.div_pos; lia).
  assert (nPowTargetTimespan params / 4 ≤ nPowTargetTimespan params) by (apply Z.div_le_upper_bound; lia).
  cbv zeta. destruct (Z.ltb_spec t (nPowTargetTimespan params / 4)).
  - destruct (Z.ltb_spec (nPowTargetTimespan params * 4) (nPowTargetTimespan params / 4)); lia.
  - destruct (Z.ltb_spec (nPowTargetTimespan params * 4) t); lia.
Qed.

(** The scaled target, before clamping. *)
Lemma scale_div params bits span :
  interval_params params → 0 ≤ bits < 2 ^ 32 → 0 ≤ span < 2 ^ 32 →
  ∃ t, div (mul32 (target_of bits) (u32 span)) (of_u64 WIDTH (u64 (nPowTargetTimespan params))) = Ok t ∧ is_arith t ∧
    (val (target_of bits) * span < 2 ^ 256 → val t = val (target_of bits) * span / nPowTargetTimespan params).
Proof.
  intros [Hs Ht Hw] Hb Hsp. pose proof (target_of_ok _ Hb) as Ha. rewrite u32_small, u64_small by lia.
  destruct (mul32_arith _ span Ha Hsp) as [Hm Em]. destruct (of_u64_ok (nPowTargetTimespan params) ltac:(lia)) as [Ho Eo].
  destruct (div_arith _ _ Hm Ho ltac:(lia)) as (t & -> & Hta & Et). exists t. split_and!; [done..|]. intros Hfit.
  pose proof (is_arith_bound _ Ha). rewrite Et, Em, Eo, Z.mod_small by nia. done.
Qed.

Lemma CalculateNextWorkRequired_ok σ p b first params :
  index_typed σ → params_typed params → interval_params params → σ !! p = Some b →
  fPowNoRetargeting params = false → enforce_BIP94 params = false → 0 ≤ first < 2 ^ 32 →
  val (target_of (nBits b)) * (nPowTargetTimespan params * 4) < 2 ^ 256 →
  ∃ c, CalculateNextWorkRequired σ p first params = Ok c ∧ 0 ≤ c < 2 ^ 32 ∧ bits_valid c (le_word (powLimit params)) ∧
    compact_value c = truncated (to_limit (val (target_of (nBits b)) * actual_timespan params (nTime b - first) / nPowTargetTimespan params)
                                          (le_word (powLimit params))).
Proof.
  intros Hi Hty Hip Hp Hnr H94 Hf Hfit. unfold CalculateNextWorkRequired. rewrite (deref_Ok _ _ _ Hp), bind_Ok, Hnr, H94, bind_Ok. cbv zeta.
  pose proof (it_times _ Hi p b Hp) as Ht. unfold GetBlockTime. replace (s64 (nTime b - first)) with (nTime b - first) by (unfold s64; rewrite to_signed_small; lia).
  destruct (calculate_clamp params (nTime b - first) Hip) as [Eq Hact]. cbv zeta in Eq.
  match goal with |- context [u32 ?x] => replace x with (actual_timespan params (nTime b - first)) by (symmetry; exact Eq) end.
  destruct (scale_div params (nBits b) _ Hip (it_bits _ Hi p b Hp) Hact) as (t & -> & Hta & Et). rewrite bind_Ok.
  pose proof (is_arith_bound _ (target_of_ok _ (it_bits _ Hi p b Hp))).
  rewrite <- Et by (unfold actual_timespan in *; nia). destruct (historical_limit params Hty) as (Hl & Hpl & El). rewrite <- El.
  destruct (clamped_bits_ok t _ Hta Hl Hpl) as (c & Ec & Hc & Hv & Ecv). exists c. done.
Qed.

Lemma CalculateNextWorkRequired_emits σ p b first params :
  index_typed σ → params_typed params → interval_params params → σ !! p = Some b →
  all_bits_valid σ (le_word (powLimit params)) → 0 ≤ first < 2 ^ 32 →
  emits (CalculateNextWorkRequired σ p first params) (le_word (powLimit params)).
Proof.
  intros Hi Hty Hip Hp Hall Hf. unfold CalculateNextWorkRequired. rewrite (deref_Ok _ _ _ Hp), bind_Ok.
  case_match; [exists (nBits b); split; [done|]; split; [by apply (it_bits _ Hi p)|by apply (Hall p)]|]. cbv zeta.
  set (m := if enforce_BIP94 params then _ else _).
  assert (∃ bits, m = Ok bits ∧ 0 ≤ bits < 2 ^ 32) as (bits & -> & Hbits).
  { unfold m. case_match; [|eexists; split; [done|by apply (it_bits _ Hi p)]]. destruct (interval_ok params Hip) as (n & -> & Hn). rewrite bind_Ok.
    set (h := s32 _). destruct (Z.leb_spec 0 h).
    - rewrite (GetAncestor_ok σ (it_linked _ Hi) p b) by done. rewrite bind_Ok. destruct (ancestor σ p h) as [q|] eqn:Eq.
      + change (default p (Some q)) with q. destruct (ancestor_lookup σ (it_linked _ Hi) p h q Eq) as (c & Hc & _). rewrite (deref_Ok _ _ _ Hc), bind_Ok.
        eexists. split; [done|]. by apply (it_bits _ Hi q).
      + change (default p None) with p. rewrite (deref_Ok _ _ _ Hp), bind_Ok. eexists. split; [done|]. by apply (it_bits _ Hi p).
    - rewrite bind_Ok. change (default p None) with p. rewrite (deref_Ok _ _ _ Hp), bind_Ok. eexists. split; [done|]. by apply (it_bits _ Hi p). }
  rewrite bind_Ok. match goal with |- context [u32 ?x] => set (act := x) end.
  destruct (scale_div params bits (u32 act) Hip Hbits (u32_bound act)) as (t & E & Ht & _).
  rewrite (u32_small (u32 act)) in E by apply u32_bound. rewrite E, bind_Ok. by apply clamped_emits.
Qed.

Lemma last_regular_ok σ fuel p b n bits :
  linked σ → σ !! p = Some b → nHeight b ≤ Z.of_nat fuel →
  ∃ q c, last_regular fuel σ p n bits = Ok (nBits c) ∧ σ !! q = Some c.
Proof.
  intros Hl. revert p b. induction fuel as [|fuel IH]; intros p b Hp Hf; cbn [last_regular]; rewrite (deref_Ok _ _ _ Hp), bind_Ok;
    (destruct (pprev b) as [q|] eqn:Eq; [|eauto]); destruct (lk_prev σ Hl p b q Hp Eq) as (c & Hc & Ec);
    pose proof (lk_height σ Hl q c Hc); [lia|]. case_match; [|eauto]. apply (IH q c); [done|lia].
Qed.

Section next_work_ok.
Context {T : Type} `{CppIntLaws T}.
Context (σ : BlockMap) (params : Params) (p : list Z) (b : CBlockIndex) (block_time : Z).
Hypothesis Hidx : index_typed σ.
Hypothesis Hty : params_typed params.
Hypothesis Hip : interval_params params.
Hypothesis Hall : all_bits_valid σ (le_word (powLimit params)).
Hypothesis Hp : σ !! p = Some b.
Hypothesis Hasert : 0 ≤ nMatMulAsertHeight params.
Hypothesis Hcache : cache_ok params (anchor_at params) σ.

Let limit := le_word (powLimit params).

Lemma entry_emits q c : σ !! q = Some c → emits (Ok (nBits c)) limit.
Proof. intros Hq. exists (nBits c). split; [done|]. split; [by apply (it_bits _ Hidx q)|by apply (Hall q)]. Qed.

Lemma kept_retargets c : emits (Ok c) limit → retargets σ params (Ok (c, σ)) limit.
Proof. intros He. apply (emits_retargets σ params Hcache (Ok c)) in He. exact He. Qed.

(** The ancestor one interval back is reached when an interval ends. *)
Lemma interval_start n : 0 < n < 2 ^ 31 → nHeight b + 1 ≤ INT32_MAX → Z.rem (nHeight b + 1) n = 0 →
  let h := s32 (nHeight b - (n - 1)) in h = nHeight b - (n - 1) ∧ 0 ≤ h ≤ nHeight b.
Proof.
  intros Hn Hmax Hr h. pose proof (lk_height _ (it_linked _ Hidx) p b Hp). unfold INT32_MAX in *.
  assert (h = nHeight b - (n - 1)) as E by (unfold h, s32; apply to_signed_small; lia). split; [done|]. rewrite E.
  rewrite Z.rem_mod_nonneg in Hr by lia. apply Z.mod_divide in Hr as [k Hk]; [|lia].
  assert (0 < k) by nia. assert (1 * n ≤ k * n) by (apply Z.mul_le_mono_nonneg_r; lia). lia.
Qed.

Lemma GetNextWorkRequired_ok : retargets σ params (GetNextWorkRequired σ p block_time params) limit.
Proof.
  pose proof (lk_height _ (it_linked _ Hidx) p b Hp) as Hh. unfold GetNextWorkRequired. rewrite (deref_Ok _ _ _ Hp), bind_Ok.
  destruct (limit_emits params Hty) as (lb & Elb & Hlb). rewrite Elb, bind_Ok. cbv zeta.
  assert (emits (Ok lb) limit) as Hlim by (by exists lb).
  rewrite (proj2 (Z.ltb_ge (nHeight b + 1) 0)) by lia. cbn [orb]. destruct (Z.ltb_spec INT32_MAX (nHeight b + 1)); [by apply kept_retargets|].
  case_match; [by apply kept_retargets, (entry_emits p)|]. case_match; [by apply (MatMulAsert_ok σ params p b)|].
  case_match; [apply emits_retargets; [done|]; by apply (DarkGravityWaveLegacy_emits σ p b)|].
  destruct (interval_ok params Hip) as (n & -> & Hn). rewrite bind_Ok, (proj2 (Z.eqb_neq n 0)) by lia.
  destruct (Z.eqb_spec (Z.rem (nHeight b + 1) n) 0) as [Er|Er]; cbn [negb].
  - destruct (interval_start n Hn ltac:(lia) Er) as [Eh Hr]. set (h := s32 _) in *.
    rewrite assert_true, bind_Ok, (GetAncestor_ok σ (it_linked _ Hidx) p b) by (done || lia).
    destruct (ancestor_some σ (it_linked _ Hidx) p b h Hp Hr) as (f & fb & -> & Hf & _). rewrite bind_Ok, (deref_Ok _ _ _ Hf), bind_Ok.
    apply emits_retargets; [done|]. apply (CalculateNextWorkRequired_emits σ p b); [done..|]. by apply (it_times _ Hidx f).
  - case_match; [|by apply kept_retargets, (entry_emits p)]. case_match; [by apply kept_retargets|].
    destruct (last_regular_ok σ (Z.to_nat (nHeight b)) p b n lb (it_linked _ Hidx) Hp ltac:(lia)) as (q & c & -> & Hq).
    rewrite bind_Ok. by apply kept_retargets, (entry_emits q).
Qed.
End next_work_ok.

(** ** Permitted transitions *)
Lemma round_compact_ok t : is_arith t → ∃ r, round_compact t = Ok r ∧ is_arith r ∧ val r = truncated (val t).
Proof.
  intros Ht. unfold round_compact, target_of. rewrite GetCompact_ok, bind_Ok by done.
  destruct (compact_roundtrip t _ Ht (GetCompact_ok t Ht)) as (v & -> & Hv & Ev). eauto.
Qed.

Lemma scaled_bound_ok params bits span :
  params_typed params → interval_params params → 0 ≤ bits < 2 ^ 32 → 0 ≤ span < 2 ^ 32 →
  val (target_of bits) * span < 2 ^ 256 →
  ∃ r, scaled_bound params bits span = Ok r ∧ is_arith r ∧
    val r = truncated (Z.min (val (target_of bits) * span / nPowTargetTimespan params) (le_word (powLimit params))).
Proof.
  intros Hty Hip Hb Hs Hfit. unfold scaled_bound. destruct (scale_div params bits span Hip Hb Hs) as (t & -> & Ht & Et). rewrite bind_Ok.
  destruct (historical_limit params Hty) as (Hl & Hpl & El). rewrite gtb_arith, <- El, <- Et by done.
  set (u := if _ <? _ then _ else _). assert (is_arith u ∧ val u = Z.min (val t) (val (UintToArith256 (powLimit params)))) as [Hu Eu].
  { unfold u. destruct (Z.ltb_spec (val (UintToArith256 (powLimit params))) (val t)); (split; [done|lia]). }
  destruct (round_compact_ok u Hu) as (r & -> & Hr & Er). exists r. by rewrite Er, Eu.
Qed.

(** The interval retarget only emits transitions that header sync permits. *)
Lemma retarget_permitted σ p b first params height c :
  index_typed σ → params_typed params → interval_params params → σ !! p = Some b →
  fMatMulPOW params = false → fPowNoRetargeting params = false → enforce_BIP94 params = false → 0 ≤ first < 2 ^ 32 →
  bits_valid (nBits b) (le_word (powLimit params)) →
  val (target_of (nBits b)) * (nPowTargetTimespan params * 4) < 2 ^ 256 →
  (∀ n, DifficultyAdjustmentInterval params = Ok n → Z.rem height n = 0) →
  CalculateNextWorkRequired σ p first params = Ok c →
  PermittedDifficultyTransition params height (nBits b) c = Ok true.
Proof.
  intros Hi Hty Hip Hp Hmm Hnr H94 Hf Hval Hfit Hheight Hc.
  destruct (CalculateNextWorkRequired_ok σ p b first params Hi Hty Hip Hp Hnr H94 Hf Hfit) as (c' & Ec & Hcb & Hcv & Ecv).
  rewrite Hc in Ec. injection Ec as <-. unfold PermittedDifficultyTransition. rewrite Hmm. case_match; [done|].
  destruct (interval_ok params Hip) as (n & En & Hn). rewrite En, bind_Ok, (proj2 (Z.eqb_neq n 0)), (Hheight n En) by lia. cbn [Z.eqb]. cbv zeta.
  pose proof (it_bits _ Hi p b Hp) as Hbits. pose proof (pt_limits _ Hty) as [Hl256 _ Hlp].
  pose proof (le_word_bound _ (proj2 Hl256)) as Hlb. unfold zlen in Hlb. rewrite (proj1 Hl256) in Hlb. change (2 ^ (8 * Z.of_nat 32)) with (2 ^ 256) in Hlb.
  pose proof (target_of_val (nBits b) _ Hbits Hval ltac:(lia)) as Etb. destruct Hval as [_ Hval].
  set (T := nPowTargetTimespan params) in *. set (t := val (target_of (nBits b))) in *. set (L := le_word (powLimit params)) in *.
  destruct Hip as [Hs HT Hw]. assert (interval_params params) as Hip by done. fold T in HT, Hw.
  assert (0 ≤ T / 4 ≤ T) as HT4 by (split; [apply Z.div_pos; lia|apply Z.div_le_upper_bound; lia]).
  assert (s64 (T * 4) = T * 4) as -> by (unfold s64; apply to_signed_small; lia). rewrite Z.quot_div_nonneg by lia.
  destruct (scaled_bound_ok params (nBits b) (T * 4) Hty Hip Hbits ltac:(lia) Hfit) as (hi & -> & Hhi & Ehi). rewrite bind_Ok.
  destruct (scaled_bound_ok params (nBits b) (T / 4) Hty Hip Hbits ltac:(lia) ltac:(nia)) as (lo & Elo & Hlo & Evlo).
  fold t T L in Ehi, Evlo. pose proof (target_of_ok _ Hcb) as Hct. pose proof (target_of_val c _ Hcb Hcv ltac:(lia)) as Ect.
  rewrite ltb_arith, Ehi, Ect, Ecv by done. fold t. set (act := actual_timespan params (nTime b - first)) in *.
  assert (T / 4 ≤ act ≤ T * 4) as Hact by (unfold act, actual_timespan; fold T; lia).
  assert (t * (T * 4) / T = t * 4) as Emax by (replace (t * (T * 4)) with (t * 4 * T) by lia; apply Z.div_mul; lia).
  assert (t * (T / 4) / T ≤ t * act / T ≤ t * 4) as Hmid.
  { split; [apply Z.div_le_mono; nia|]. rewrite <- Emax. apply Z.div_le_mono; nia. }
  assert (0 ≤ t * (T / 4) / T) by (apply Z.div_pos; nia). rewrite Emax.
  rewrite (proj2 (Z.ltb_ge _ _)). 2: { apply truncated_mono; unfold to_limit; lia. }
  rewrite Elo, bind_Ok, gtb_arith, Ect, Ecv, Evlo by done. fold t act.
  rewrite (proj2 (Z.ltb_ge _ _)). 2: { apply truncated_mono; unfold to_limit; lia. }
  done.
Qed.

(** MatMul headers: both targets valid, and the new one within a factor of four
    of the old, rounded to the compact format. *)
Lemma permitted_matmul_ok params old new :
  params_typed params → 0 ≤ old < 2 ^ 32 → 0 ≤ new < 2 ^ 32 →
  let L := le_word (powLimit params) in
  permitted_matmul params old new = Ok (bool_decide (bits_valid old L ∧ bits_valid new L ∧
    truncated (Z.max 1 (compact_value old / 4)) ≤ compact_value new ≤ truncated (Z.min (compact_value old * 4) L))).
Proof.
  intros Hty Ho Hn L. unfold permitted_matmul. destruct (pt_limits _ Hty) as [Hl256 _ Hlp].
  destruct (historical_limit params Hty) as (Hl & Hpl & El).
  pose proof (DeriveTarget_ok old _ Ho Hl256) as Hdo. fold L in Hdo, El.
  destruct (decide (bits_valid old L)) as [Hvo|Hvo].
  2: { rewrite Hdo. f_equal. symmetry. apply bool_decide_false. tauto. }
  destruct Hdo as (ot & -> & Hot & Eot). pose proof (DeriveTarget_ok new _ Hn Hl256) as Hdn. fold L in Hdn.
  destruct (decide (bits_valid new L)) as [Hvn|Hvn].
  2: { rewrite Hdn. f_equal. symmetry. apply bool_decide_false. tauto. }
  destruct Hdn as (nt & -> & Hnt & Ent). destruct (of_u64_ok 4 ltac:(lia)) as [H4 E4].
  destruct (div_arith _ _ Hl H4 ltac:(lia)) as (q & -> & Hq & Eq). rewrite bind_Ok, gtb_arith, Eq, E4, Eot, El by done.
  pose proof (is_arith_bound _ Hl) as Hlb. rewrite El in Hlb. destruct Hvo as [Hno Hvo]. destruct Hvn as [Hnn Hvn].
  destruct (mul32_arith ot 4 Hot ltac:(lia)) as [Hm Em]. rewrite Eot in Em.
  pose proof (Z.div_mod L 4 ltac:(lia)). pose proof (Z.mod_pos_bound L 4 ltac:(lia)).
  set (e := if _ <? _ then _ else _). assert (is_arith e ∧ val e = Z.min (compact_value old * 4) L) as [He Ee].
  { unfold e. destruct (Z.ltb_spec (L / 4) (compact_value old)); (split; [done|]); [lia|]. rewrite Em, Z.mod_small by lia. lia. }
  destruct (round_compact_ok e He) as (mx & -> & Hmx & Emx). rewrite bind_Ok, gtb_arith, Emx, Ent, Ee by done.
  destruct (Z.ltb_spec (truncated (Z.min (compact_value old * 4) L)) (compact_value new)).
  { f_equal. symmetry. apply bool_decide_false. lia. }
  destruct (div_arith _ _ Hot H4 ltac:(lia)) as (hb & -> & Hhb & Ehb). rewrite bind_Ok, EqualTo_val, Ehb, E4, Eot by (done || lia).
  destruct (of_u64_ok 1 ltac:(lia)) as [H1' E1]. assert (0 ≤ compact_value old / 4) by (apply Z.div_pos; lia).
  set (g := if _ =? _ then _ else _). assert (is_arith g ∧ val g = Z.max 1 (compact_value old / 4)) as [Hg Eg].
  { unfold g. destruct (Z.eqb_spec (compact_value old / 4) 0); (split; [done|]); [lia|]. rewrite Ehb, E4, Eot. lia. }
  destruct (round_compact_ok g Hg) as (mn & -> & Hmn & Emn). rewrite bind_Ok, ltb_arith, Emn, Ent, Eg by done. f_equal.
  destruct (Z.ltb_spec (compact_value new) (truncated (Z.max 1 (compact_value old / 4)))); cbn [negb]; symmetry.
  - apply bool_decide_false. lia.
  - apply bool_decide_true. unfold bits_valid. split_and!; (assumption || lia).
Qed.

(** ** Properties *)

(** C35: the top-level retarget returns on every consistent index whose
    entries claim usable targets, for every chain type and every block time,
    with compact bits of a target in [1 .. powLimit]. *)
Theorem next_work_valid {T} `{CppIntLaws T} σ params p b block_time :
  index_typed σ → params_typed params → interval_params params → all_bits_valid σ (le_word (powLimit params)) →
  σ !! p = Some b → 0 ≤ nMatMulAsertHeight params → cache_ok params (anchor_at params) σ →
  ∃ c σ', GetNextWorkRequired σ p block_time params = Ok (c, σ') ∧ 0 ≤ c < 2 ^ 32 ∧ bits_valid c (le_word (powLimit params)) ∧
    same_but_cache σ σ' ∧ cache_ok params (anchor_at params) σ'.
Proof. intros H1 H2 H3 H4 H5 H6 H7. exact (GetNextWorkRequired_ok σ params p b block_time H1 H2 H3 H4 H5 H6 H7). Qed.

(** Header synchronisation never rejects an honest retarget: the bits
    the interval retarget computes at an adjustment height pass the permitted
    transition check against the old bits. *)
Theorem interval_retarget_permitted σ p b first params height :
  index_typed σ → params_typed params → interval_params params → σ !! p = Some b →
  fMatMulPOW params = false → fPowNoRetargeting params = false → enforce_BIP94 params = false → 0 ≤ first < 2 ^ 32 →
  bits_valid (nBits b) (le_word (powLimit params)) →
  val (target_of (nBits b)) * (nPowTargetTimespan params * 4) < 2 ^ 256 →
  (∀ n, DifficultyAdjustmentInterval params = Ok n → Z.rem height n = 0) →
  ∃ c, CalculateNextWorkRequired σ p first params = Ok c ∧
    compact_value c = truncated (to_limit
      (val (target_of (nBits b)) * actual_timespan params (nTime b - first) / nPowTargetTimespan params) (le_word (powLimit params))) ∧
    PermittedDifficultyTransition params height (nBits b) c = Ok true.
Proof.
  intros H1 H2 H3 H4 H5 H6 H7 H8 H9 H10 H11.
  destruct (CalculateNextWorkRequired_ok σ p b first params H1 H2 H3 H4 H6 H7 H8 H10) as (c & E & _ & _ & Ev).
  exists c. split; [exact E|]. split; [exact Ev|].
  exact (retarget_permitted σ p b first params height c H1 H2 H3 H4 H5 H6 H7 H8 H9 H10 H11 E).
Qed.
