(* ===== verification/VersionBits.v ===== *)
(** Soft-fork deployments.

    [versionbits.h] and [versionbits.cpp]: the states of a deployment, computed
    once per period along the chain and cached per deployment. The reference is
    the recursion over periods of BIP 9; it is compared with the cached walk on
    a linked block index. *)

From Stdlib Require Import ZArith Lia.
From stdpp Require Import base list numbers gmap sorting tactics.
From S2P Require Import Prelude BlockIndex.
Import block_index.

Open Scope Z_scope.

Inductive ThresholdState := DEFINED | STARTED | LOCKED_IN | ACTIVE | FAILED.

#[export] Instance ThresholdState_eq_dec : EqDecision ThresholdState.
Proof. solve_decision. Defined.

(** What [AbstractThresholdConditionChecker] leaves to its subclasses. *)
Class ThresholdConditionChecker := {
  BeginTime : Z;
  EndTime : Z;
  MinActivationHeight : Z;
  Period : Z;
  Threshold : Z;
  Condition : list Z → bool;
}.

Record BIP9Stats := mkStats { period : Z; threshold : Z; elapsed : Z; count : Z; possible : bool }.

Record BIP9Deployment := mkDeployment { bit : Z; nStartTime : Z; nTimeout : Z; min_activation_height : Z }.

Abbreviation ThresholdConditionCache := (gmap (option (list Z)) ThresholdState).

Module versionbits.

Definition ALWAYS_ACTIVE : Z := -1.
Definition NEVER_ACTIVE : Z := -2.
Definition INT_MAX : Z := 2 ^ 31 - 1.

Definition AlignedPeriodParentHeight (nHeight period : Z) : result Z :=
  let period_offset := Z.rem (nHeight + 1) period in
  let aligned_height := nHeight - period_offset in
  _ ← assert_ (-1 <=? aligned_height);
  _ ← assert_ (aligned_height <=? INT_MAX);
  Ok aligned_height.

Section checker.
Context `{ThresholdConditionChecker} (σ : BlockMap).

(** The walk back in steps of a period, to an entry whose state is known. *)
Fixpoint walk_back (fuel : nat) (pindexPrev : option (list Z)) (cache : ThresholdConditionCache) (vToCompute : list (list Z)) :
    result (option (list Z) * ThresholdConditionCache * list (list Z)) :=
  match cache !! pindexPrev with
  | Some _ => Ok (pindexPrev, cache, vToCompute)
  | None =>
      match pindexPrev with
      | None => Ok (None, <[None := DEFINED]> cache, vToCompute)
      | Some p =>
          mtp ← GetMedianTimePast σ p;
          if mtp <? BeginTime then Ok (Some p, <[Some p := DEFINED]> cache, vToCompute)
          else
            match fuel with
            | O => Err EFuel
            | S fuel =>
                b ← deref σ p;
                prev ← GetAncestor σ p (nHeight b - Period);
                walk_back fuel prev cache (p :: vToCompute)
            end
      end
  end.

Fixpoint count_signals (n : nat) (pindexCount : option (list Z)) (count : Z) : result Z :=
  match n, pindexCount with
  | O, _ => Ok count
  | S n, Some p => b ← deref σ p; count_signals n (pprev b) (if Condition p then count + 1 else count)
  | S _, None => Err EBounds
  end.

Definition next_state (state : ThresholdState) (p : list Z) : result ThresholdState :=
  match state with
  | DEFINED => mtp ← GetMedianTimePast σ p; Ok (if BeginTime <=? mtp then STARTED else DEFINED)
  | STARTED =>
      count ← count_signals (Z.to_nat Period) (Some p) 0;
      if Threshold <=? count then Ok LOCKED_IN
      else mtp ← GetMedianTimePast σ p; Ok (if EndTime <=? mtp then FAILED else STARTED)
  | LOCKED_IN => b ← deref σ p; Ok (if MinActivationHeight <=? nHeight b + 1 then ACTIVE else LOCKED_IN)
  | ACTIVE => Ok ACTIVE
  | FAILED => Ok FAILED
  end.

(** The walk forward; the entry pushed last comes first. *)
Fixpoint walk_forward (vToCompute : list (list Z)) (state : ThresholdState) (cache : ThresholdConditionCache) :
    result (ThresholdState * ThresholdConditionCache) :=
  match vToCompute with
  | [] => Ok (state, cache)
  | p :: vToCompute =>
      stateNext ← next_state state p;
      walk_forward vToCompute stateNext (<[Some p := stateNext]> cache)
  end.

(** The parent of the first block of the period that follows [pindexPrev]. *)
Definition align (pindexPrev : option (list Z)) : result (option (list Z)) :=
  match pindexPrev with
  | Some p => b ← deref σ p; h ← AlignedPeriodParentHeight (nHeight b) Period; GetAncestor σ p h
  | None => Ok None
  end.

Definition height_fuel (pindex : option (list Z)) : nat :=
  match pindex with Some p => match σ !! p with Some b => S (Z.to_nat (nHeight b)) | None => O end | None => O end.

Definition GetStateFor (pindexPrev : option (list Z)) (cache : ThresholdConditionCache) : result (ThresholdState * ThresholdConditionCache) :=
  if BeginTime =? ALWAYS_ACTIVE then Ok (ACTIVE, cache)
  else if BeginTime =? NEVER_ACTIVE then Ok (FAILED, cache)
  else
    pindexPrev ← align pindexPrev;
    '(pindexPrev, cache, vToCompute) ← walk_back (height_fuel pindexPrev) pindexPrev cache [];
    match cache !! pindexPrev with
    | None => Err EAssert
    | Some state => walk_forward vToCompute state cache
    end.

(** The blocks of the period up to [pindex], counted backwards; the flags of
    the signalling blocks are indexed by position in the period. *)
Fixpoint statistics_loop (blocks_in_period : nat) (currentIndex : option (list Z)) (elapsed count : Z) (signalling_blocks : list bool) :
    result (Z * Z * list bool) :=
  match blocks_in_period, currentIndex with
  | O, _ => Ok (elapsed, count, signalling_blocks)
  | S n, Some p =>
      b ← deref σ p;
      let '(count, signalling_blocks) :=
        if Condition p then (count + 1, <[n := true]> signalling_blocks) else (count, signalling_blocks) in
      statistics_loop n (pprev b) (elapsed + 1) count signalling_blocks
  | S _, None => Err EBounds
  end.

Definition GetStateStatisticsFor (pindex : option (list Z)) : result (BIP9Stats * list bool) :=
  match pindex with
  | None => Ok (mkStats Period Threshold 0 0 false, [])
  | Some p =>
      b ← deref σ p;
      let blocks_in_period := Z.to_nat (1 + Z.rem (nHeight b) Period) in
      '(elapsed, count, signalling_blocks) ← statistics_loop blocks_in_period (Some p) 0 0 (replicate blocks_in_period false);
      Ok (mkStats Period Threshold elapsed count (elapsed - count <=? Period - Threshold), signalling_blocks)
  end.

Fixpoint since_loop (fuel : nat) (initialState : ThresholdState) (pindexPrev : list Z) (previousPeriodParent : option (list Z))
    (cache : ThresholdConditionCache) : result (list Z * ThresholdConditionCache) :=
  match previousPeriodParent with
  | None => Ok (pindexPrev, cache)
  | Some q =>
      '(state, cache) ← GetStateFor (Some q) cache;
      if bool_decide (state = initialState) then
        match fuel with
        | O => Err EFuel
        | S fuel =>
            b ← deref σ q;
            prev ← GetAncestor σ q (nHeight b - Period);
            since_loop fuel initialState q prev cache
        end
      else Ok (pindexPrev, cache)
  end.

Definition GetStateSinceHeightFor (pindexPrev : option (list Z)) (cache : ThresholdConditionCache) : result (Z * ThresholdConditionCache) :=
  if (BeginTime =? ALWAYS_ACTIVE) || (BeginTime =? NEVER_ACTIVE) then Ok (0, cache)
  else
    '(initialState, cache) ← GetStateFor pindexPrev cache;
    if bool_decide (initialState = DEFINED) then Ok (0, cache)
    else
      aligned ← align pindexPrev;
      match aligned with
      | None => Err EAssert
      | Some p =>
          b ← deref σ p;
          previousPeriodParent ← GetAncestor σ p (nHeight b - Period);
          '(p, cache) ← since_loop (height_fuel (Some p)) initialState p previousPeriodParent cache;
          b ← deref σ p;
          Ok (if nHeight b =? INT_MAX then INT_MAX else nHeight b + 1, cache)
      end.

End checker.

(** ** Version bits *)
Definition VERSIONBITS_TOP_BITS : Z := 0x20000000.
Definition VERSIONBITS_TOP_MASK : Z := s32 0xE0000000.

Definition Mask (d : BIP9Deployment) : Z := u32 (Z.shiftl 1 (bit d)).

Definition version_signals (d : BIP9Deployment) (nVersion : Z) : bool :=
  (Z.land nVersion VERSIONBITS_TOP_MASK =? VERSIONBITS_TOP_BITS) && negb (Z.land (u32 nVersion) (Mask d) =? 0).

(** [nVersion] is the version field of each entry. *)
Definition VersionBitsConditionChecker (nMinerConfirmationWindow nRuleChangeActivationThreshold : Z) (nVersion : list Z → Z)
    (d : BIP9Deployment) : ThresholdConditionChecker := {|
  BeginTime := nStartTime d;
  EndTime := nTimeout d;
  MinActivationHeight := min_activation_height d;
  Period := s32 nMinerConfirmationWindow;
  Threshold := s32 nRuleChangeActivationThreshold;
  Condition p := version_signals d (nVersion p);
|}.

(** One deployment of the loop of [ComputeBlockVersion]; [m_caches] has a
    cache for each. *)
Fixpoint compute_version (σ : BlockMap) (nMinerConfirmationWindow nRuleChangeActivationThreshold : Z) (entry_version : list Z → Z)
    (pindexPrev : option (list Z)) (vDeployments : list BIP9Deployment) (m_caches : list ThresholdConditionCache) (nVersion : Z) :
    result (Z * list ThresholdConditionCache) :=
  match vDeployments, m_caches with
  | [], _ => Ok (nVersion, [])
  | d :: vDeployments, cache :: m_caches =>
      let checker := VersionBitsConditionChecker nMinerConfirmationWindow nRuleChangeActivationThreshold entry_version d in
      '(state, cache) ← @GetStateFor checker σ pindexPrev cache;
      let nVersion := if bool_decide (state = LOCKED_IN ∨ state = STARTED) then s32 (Z.lor (u32 nVersion) (Mask d)) else nVersion in
      '(nVersion, m_caches) ← compute_version σ nMinerConfirmationWindow nRuleChangeActivationThreshold entry_version pindexPrev vDeployments m_caches nVersion;
      Ok (nVersion, cache :: m_caches)
  | _ :: _, [] => Err EBounds
  end.

Definition ComputeBlockVersion (σ : BlockMap) (nMinerConfirmationWindow nRuleChangeActivationThreshold : Z) (entry_version : list Z → Z)
    (vDeployments : list BIP9Deployment) (pindexPrev : option (list Z)) (m_caches : list ThresholdConditionCache) :
    result (Z * list ThresholdConditionCache) :=
  compute_version σ nMinerConfirmationWindow nRuleChangeActivationThreshold entry_version pindexPrev vDeployments m_caches VERSIONBITS_TOP_BITS.

End versionbits.
Import versionbits.

(** ** The reference: one transition per period *)
Section reference.
Context `{ThresholdConditionChecker} (σ : BlockMap).

(** The last [n] blocks of the chain that ends with [p]. *)
Fixpoint last_blocks (n : nat) (p : option (list Z)) : list (list Z) :=
  match n, p with
  | S n, Some p => p :: last_blocks n (σ !! p ≫= pprev)
  | _, _ => []
  end.

(** Signalling blocks among the [Period] blocks that end with [p]. *)
Definition signals (p : list Z) : Z := zlen (filter (λ q, Condition q = true) (last_blocks (Z.to_nat Period) (Some p))).

Definition transition (state : ThresholdState) (p : list Z) (state' : ThresholdState) : Prop :=
  ∃ b mtp, σ !! p = Some b ∧ GetMedianTimePast σ p = Ok mtp ∧
  match state with
  | DEFINED => state' = if decide (BeginTime ≤ mtp) then STARTED else DEFINED
  | STARTED => state' = if decide (Threshold ≤ signals p) then LOCKED_IN else if decide (EndTime ≤ mtp) then FAILED else STARTED
  | LOCKED_IN => state' = if decide (MinActivationHeight ≤ nHeight b + 1) then ACTIVE else LOCKED_IN
  | ACTIVE => state' = ACTIVE
  | FAILED => state' = FAILED
  end.

(** The state of the period whose first block has the parent [p]. *)
Inductive bip9 : option (list Z) → ThresholdState → Prop :=
| bip9_genesis : bip9 None DEFINED
| bip9_period p b state state' :
    σ !! p = Some b → (nHeight b + 1) mod Period = 0 → bip9 (ancestor σ p (nHeight b - Period)) state →
    transition state p state' → bip9 (Some p) state'.

Lemma transition_fun state p s s' : transition state p s → transition state p s' → s = s'.
Proof.
  intros (b & m & Hb & Hm & Hs) (b' & m' & Hb' & Hm' & Hs'). assert (b' = b) as -> by congruence. assert (m' = m) as -> by congruence.
  destruct state; congruence.
Qed.

Lemma bip9_fun q s s' : bip9 q s → bip9 q s' → s = s'.
Proof.
  intros Hs. revert s'. induction Hs as [|p b s0 s Hp _ _ IH Ht]; intros s' Hs'; inversion Hs' as [|p' b' s0' s1 Hp' _ Hs0' Ht']; simplify_eq; [done|].
  rewrite <- (IH s0') in Ht' by done. by apply (transition_fun s0 p).
Qed.

Definition cache_sound (cache : ThresholdConditionCache) : Prop := ∀ q s, cache !! q = Some s → bip9 q s.

Lemma cache_sound_insert cache q s : cache_sound cache → bip9 q s → cache_sound (<[q := s]> cache).
Proof. intros Hc Hq q' s'. rewrite lookup_insert. case_decide; [subst; by intros [= <-]|apply Hc]. Qed.

(** Keys of the cache: no block, or the last block of a period. *)
Definition boundary (q : option (list Z)) : Prop :=
  match q with Some p => ∃ b, σ !! p = Some b ∧ (nHeight b + 1) mod Period = 0 | None => True end.

(** The boundaries from [r] to [q], the nearest to [r] first. *)
Inductive periods (r : option (list Z)) : list (list Z) → option (list Z) → Prop :=
| periods_nil : periods r [] r
| periods_snoc l q p b :
    periods r l q → σ !! p = Some b → (nHeight b + 1) mod Period = 0 → ancestor σ p (nHeight b - Period) = q → periods r (l ++ [p]) (Some p).

End reference.

Section correctness.
Context `{ThresholdConditionChecker} (σ : BlockMap).
Hypothesis Hl : linked σ.
Hypothesis Htimes : times_follow_median σ.
Hypothesis Hperiod : 0 < Period.

Lemma boundary_prev p b : σ !! p = Some b → (nHeight b + 1) mod Period = 0 → boundary σ (ancestor σ p (nHeight b - Period)).
Proof.
  intros Hp Hm. destruct (ancestor σ p _) as [q|] eqn:E; [|done]. destruct (ancestor_lookup σ Hl _ _ _ E) as (c & Hc & Eh).
  exists c. split; [done|]. rewrite Eh. replace (nHeight b - Period + 1) with (nHeight b + 1 + (-1) * Period) by lia. by rewrite Z_mod_plus_full.
Qed.

Lemma ancestor_back p b h q : σ !! p = Some b → ancestor σ p h = Some q → ∃ n, back σ n p = Some q.
Proof. intros Hp. unfold ancestor. rewrite Hp. cbn. destruct (decide _); [eauto|done]. Qed.

(** Before the start time every period is [DEFINED]. *)
Lemma early_defined p b mtp : σ !! p = Some b → (nHeight b + 1) mod Period = 0 → GetMedianTimePast σ p = Ok mtp → mtp < BeginTime →
  bip9 σ (Some p) DEFINED.
Proof.
  remember (Z.to_nat (nHeight b)) as n eqn:En. revert p b mtp En. induction n as [n IH] using lt_wf_ind. intros p b mtp En Hp Hm Em Hlt.
  apply (bip9_period σ p b DEFINED); [done|done| |].
  - destruct (ancestor σ p (nHeight b - Period)) as [q|] eqn:E; [|constructor].
    destruct (ancestor_lookup σ Hl _ _ _ E) as (c & Hc & Eh). destruct (GetMedianTimePast_total σ Hl q c Hc) as [mq Eq].
    destruct (ancestor_back p b _ q Hp E) as [k Hk]. pose proof (median_monotone σ Hl k p b q mq mtp Htimes Hp Hk Eq Em).
    pose proof (boundary_prev p b Hp Hm) as Hb. rewrite E in Hb. destruct Hb as (c' & Hc' & Hmc). assert (c' = c) as -> by congruence.
    pose proof (lk_height σ Hl q c Hc). pose proof (lk_height σ Hl p b Hp). apply (IH (Z.to_nat (nHeight c)) ltac:(lia) q c mq); [done..|lia].
  - exists b, mtp. split; [done|]. split; [done|]. by rewrite decide_False by lia.
Qed.

Lemma walk_back_ok fuel : ∀ q cache vtc,
  boundary σ q → (match q with Some p => ∃ b, σ !! p = Some b ∧ nHeight b < Z.of_nat fuel | None => True end) → cache_sound σ cache →
  ∃ r cache' l s, walk_back σ fuel q cache vtc = Ok (r, cache', l ++ vtc) ∧ cache' !! r = Some s ∧ cache_sound σ cache' ∧ periods σ r l q.
Proof.
  induction fuel as [|fuel IH]; intros q cache vtc Hq Hf Hc.
  all: cbn [walk_back]; destruct (cache !! q) as [s|] eqn:E; [exists q, cache, [], s; split_and!; [done..|constructor]|].
  all: destruct q as [p|]; [|exists None, (<[None := DEFINED]> cache), [], DEFINED; split_and!;
    [done|by rewrite lookup_insert_eq|apply cache_sound_insert; [done|constructor]|constructor]].
  { destruct Hf as (b & Hb & ?). pose proof (lk_height σ Hl p b Hb). lia. }
  destruct Hf as (b & Hb & Hfuel). destruct Hq as (b' & Hb' & Hm). assert (b' = b) as -> by congruence.
  destruct (GetMedianTimePast_total σ Hl p b Hb) as [mtp Em]. rewrite Em, bind_Ok. destruct (Z.ltb_spec mtp BeginTime) as [Hlt|Hge].
  - eexists (Some p), _, [], DEFINED. split_and!; [done|by rewrite lookup_insert_eq| |constructor].
    apply cache_sound_insert; [done|]. by apply (early_defined p b mtp).
  - rewrite (deref_Ok _ _ _ Hb), bind_Ok, (GetAncestor_ok σ Hl p b _ Hb), bind_Ok.
    destruct (IH (ancestor σ p (nHeight b - Period)) cache (p :: vtc)) as (r & cache' & l & s & E' & Es & Hs & Hl').
    + by apply boundary_prev.
    + destruct (ancestor σ p _) as [q|] eqn:Ea; [|done]. destruct (ancestor_lookup σ Hl _ _ _ Ea) as (c & Hc' & Eh). exists c. split; [done|lia].
    + done.
    + exists r, cache', (l ++ [p]), s. split_and!; [by rewrite E', <- app_assoc|done|done|]. by apply (periods_snoc σ r l (ancestor σ p (nHeight b - Period)) p b).
Qed.

Lemma count_signals_ok n : ∀ p b acc, σ !! p = Some b → Z.of_nat n ≤ nHeight b + 1 →
  count_signals σ n (Some p) acc = Ok (acc + zlen (filter (λ q, Condition q = true) (last_blocks σ n (Some p)))).
Proof.
  induction n as [|n IH]; intros p b acc Hp Hn; [cbn; f_equal; unfold zlen; cbn; lia|]. cbn [count_signals last_blocks].
  rewrite (deref_Ok _ _ _ Hp), bind_Ok, Hp. cbn [mbind option_bind]. set (acc' := if Condition p then acc + 1 else acc).
  assert (count_signals σ n (pprev b) acc' = Ok (acc' + zlen (filter (λ q, Condition q = true) (last_blocks σ n (pprev b))))) as ->.
  { destruct n as [|n]; [cbn; f_equal; unfold zlen; cbn; lia|]. destruct (prev_exists σ Hl p b Hp ltac:(lia)) as (q & c & Eq & Hc & Eh).
    rewrite Eq. apply (IH q c acc' Hc). lia. }
  f_equal. unfold acc', zlen. rewrite filter_cons. destruct (Condition p); [rewrite decide_True by done|rewrite decide_False by done]; cbn [length]; lia.
Qed.

Lemma next_state_ok state p b : σ !! p = Some b → (nHeight b + 1) mod Period = 0 → ∃ s', next_state σ state p = Ok s' ∧ transition σ state p s'.
Proof.
  intros Hp Hm. destruct (GetMedianTimePast_total σ Hl p b Hp) as [mtp Em]. pose proof (lk_height σ Hl p b Hp) as Hh.
  assert (Period ≤ nHeight b + 1) as Hle.
  { apply Z.mod_divide in Hm as [k Hk]; [|lia]. assert (1 ≤ k) by nia. nia. }
  destruct state; cbn [next_state].
  - rewrite Em, bind_Ok. eexists. split; [done|]. exists b, mtp. split; [done|]. split; [done|]. by destruct (Z.leb_spec BeginTime mtp); case_decide; (done || lia).
  - rewrite (count_signals_ok _ p b 0 Hp) by lia. rewrite bind_Ok, Z.add_0_l. fold (signals σ p). rewrite Em.
    destruct (Z.leb_spec Threshold (signals σ p)); [|rewrite bind_Ok]; (eexists; split; [done|]; exists b, mtp; split; [done|]; split; [done|]).
    + by rewrite decide_True.
    + rewrite decide_False by lia. by destruct (Z.leb_spec EndTime mtp); case_decide; (done || lia).
  - rewrite (deref_Ok _ _ _ Hp), bind_Ok. eexists. split; [done|]. exists b, mtp. split; [done|]. split; [done|].
    by destruct (Z.leb_spec MinActivationHeight (nHeight b + 1)); case_decide; (done || lia).
  - exists ACTIVE. split; [done|]. by exists b, mtp.
  - exists FAILED. split; [done|]. by exists b, mtp.
Qed.

Lemma walk_forward_app l1 l2 state cache :
  walk_forward σ (l1 ++ l2) state cache = ('(s, c) ← walk_forward σ l1 state cache; walk_forward σ l2 s c).
Proof. revert state cache. induction l1 as [|p l1 IH]; intros state cache; [done|]. cbn. destruct (next_state σ state p); cbn; [apply IH|done]. Qed.

Lemma walk_forward_ok r l q s cache : periods σ r l q → bip9 σ r s → cache_sound σ cache →
  ∃ s' cache', walk_forward σ l s cache = Ok (s', cache') ∧ bip9 σ q s' ∧ cache_sound σ cache'.
Proof.
  intros Hper Hr Hc. induction Hper as [|l q p b Hper IH Hp Hm Ha]; [by exists s, cache|].
  destruct IH as (s1 & c1 & E1 & Hb1 & Hc1). destruct (next_state_ok s1 p b Hp Hm) as (s2 & E2 & Ht).
  assert (bip9 σ (Some p) s2) as Hb2 by (apply (bip9_period σ p b s1); [done|done|by rewrite Ha|done]).
  exists s2, (<[Some p := s2]> c1). rewrite walk_forward_app, E1, bind_Ok. cbn. rewrite E2. split; [done|]. split; [done|]. by apply cache_sound_insert.
Qed.

(** The parent of the first block of the period after [q]. *)
Definition period_parent (q : option (list Z)) : option (list Z) :=
  match q with
  | Some p => b ← σ !! p; ancestor σ p (nHeight b - (nHeight b + 1) mod Period)
  | None => None
  end.

Definition known (q : option (list Z)) : Prop := match q with Some p => is_Some (σ !! p) | None => True end.

Lemma align_ok q : known q → align σ q = Ok (period_parent q) ∧ boundary σ (period_parent q).
Proof.
  intros Hq. destruct q as [p|]; [|done]. destruct Hq as [b Hp]. cbn. rewrite (deref_Ok _ _ _ Hp), bind_Ok, Hp. cbn.
  pose proof (lk_height σ Hl p b Hp) as Hh. unfold AlignedPeriodParentHeight, INT_MAX. rewrite Z.rem_mod_nonneg by lia.
  pose proof (Z.mod_pos_bound (nHeight b + 1) Period Hperiod). pose proof (Z.mod_le (nHeight b + 1) Period ltac:(lia) Hperiod).
  rewrite assert_true, bind_Ok, assert_true, !bind_Ok by lia. rewrite (GetAncestor_ok σ Hl p b _ Hp). split; [done|].
  destruct (ancestor σ p _) as [q|] eqn:E; [|done]. destruct (ancestor_lookup σ Hl _ _ _ E) as (c & Hc & Eh). exists c. split; [done|]. rewrite Eh.
  replace (nHeight b - (nHeight b + 1) mod Period + 1) with (nHeight b + 1 - (nHeight b + 1) mod Period) by lia.
  rewrite Zminus_mod_idemp_r, Z.sub_diag. by apply Z.mod_0_l; lia.
Qed.

Lemma GetStateFor_ok q cache : BeginTime ≠ ALWAYS_ACTIVE → BeginTime ≠ NEVER_ACTIVE → known q → cache_sound σ cache →
  ∃ s cache', GetStateFor σ q cache = Ok (s, cache') ∧ bip9 σ (period_parent q) s ∧ cache_sound σ cache'.
Proof.
  intros H1 H2 Hq Hc. unfold GetStateFor. rewrite (proj2 (Z.eqb_neq _ _) H1), (proj2 (Z.eqb_neq _ _) H2).
  destruct (align_ok q Hq) as [-> Hb]. rewrite bind_Ok.
  destruct (walk_back_ok (height_fuel σ (period_parent q)) (period_parent q) cache [] Hb) as (r & c1 & l & s & -> & Es & Hs & Hper); [|done|].
  - destruct (period_parent q) as [p|]; [|done]. destruct Hb as (b & Hp & _). exists b. split; [done|]. cbn. rewrite Hp.
    pose proof (lk_height σ Hl p b Hp). lia.
  - rewrite bind_Ok, app_nil_r, Es. by apply (walk_forward_ok r l (period_parent q) s c1 Hper (Hs r s Es) Hs).
Qed.

Lemma period_parent_boundary p b : σ !! p = Some b → (nHeight b + 1) mod Period = 0 → period_parent (Some p) = Some p.
Proof. intros Hp Hm. cbn. rewrite Hp. cbn. rewrite Hm, Z.sub_0_r. by apply (ancestor_self σ Hl p b). Qed.

Lemma since_loop_ok s fuel : s ≠ DEFINED → BeginTime ≠ ALWAYS_ACTIVE → BeginTime ≠ NEVER_ACTIVE → ∀ p b cache,
  σ !! p = Some b → (nHeight b + 1) mod Period = 0 → nHeight b < Z.of_nat fuel → bip9 σ (Some p) s → cache_sound σ cache →
  ∃ p0 b0 l s0 cache', since_loop σ fuel s p (ancestor σ p (nHeight b - Period)) cache = Ok (p0, cache') ∧ cache_sound σ cache' ∧
    σ !! p0 = Some b0 ∧ periods σ (Some p0) l (Some p) ∧ (∀ q, q ∈ p0 :: l → bip9 σ (Some q) s) ∧
    bip9 σ (ancestor σ p0 (nHeight b0 - Period)) s0 ∧ s0 ≠ s.
Proof.
  intros Hs H1 H2. induction fuel as [|fuel IH]; intros p b cache Hp Hm Hf Hb Hc; pose proof (lk_height σ Hl p b Hp); [lia|]. cbn [since_loop].
  assert (∀ s0 c, bip9 σ (ancestor σ p (nHeight b - Period)) s0 → s0 ≠ s → cache_sound σ c →
    ∃ p0 b0 l s0 cache', Ok (p, c) = Ok (p0, cache') ∧ cache_sound σ cache' ∧ σ !! p0 = Some b0 ∧ periods σ (Some p0) l (Some p) ∧
      (∀ q, q ∈ p0 :: l → bip9 σ (Some q) s) ∧ bip9 σ (ancestor σ p0 (nHeight b0 - Period)) s0 ∧ s0 ≠ s) as Hstop.
  { intros s0 c Hs0 Hne Hc0. exists p, b, [], s0, c. split_and!; try done; [constructor|]. by intros q ->%list_elem_of_singleton. }
  destruct (ancestor σ p (nHeight b - Period)) as [q|] eqn:Ea; [|apply (Hstop DEFINED); [constructor|done|done]].
  destruct (ancestor_lookup σ Hl _ _ _ Ea) as (c & Hq & Eh). pose proof (boundary_prev p b Hp Hm) as Hbq. rewrite Ea in Hbq.
  destruct Hbq as (c' & Hq' & Hmq). assert (c' = c) as -> by congruence.
  destruct (GetStateFor_ok (Some q) cache H1 H2 ltac:(by exists c) Hc) as (s1 & c1 & -> & Hb1 & Hc1). rewrite bind_Ok.
  rewrite (period_parent_boundary q c Hq Hmq) in Hb1. case_bool_decide as Heq; [subst s1|by apply (Hstop s1)].
  rewrite (deref_Ok _ _ _ Hq), bind_Ok, (GetAncestor_ok σ Hl q c _ Hq), bind_Ok.
  destruct (IH q c c1 Hq Hmq ltac:(lia) Hb1 Hc1) as (p0 & b0 & l & s0 & cache' & -> & Hc' & Hp0 & Hper & Hall & Hs0 & Hne).
  exists p0, b0, (l ++ [p]), s0, cache'. split_and!; try done; [by apply (periods_snoc σ (Some p0) l (Some q) p b)|].
  intros q'. rewrite app_comm_cons, elem_of_app, list_elem_of_singleton. intros [Hi| ->]; [by apply Hall|done].
Qed.

(** *** States only move forward *)
Definition leads (s s' : ThresholdState) : bool :=
  match s, s' with
  | DEFINED, _ => true
  | STARTED, DEFINED => false
  | STARTED, _ => true
  | LOCKED_IN, LOCKED_IN | LOCKED_IN, ACTIVE | ACTIVE, ACTIVE | FAILED, FAILED => true
  | _, _ => false
  end.

Lemma leads_trans s1 s2 s3 : leads s1 s2 = true → leads s2 s3 = true → leads s1 s3 = true.
Proof. by destruct s1, s2, s3. Qed.

Lemma transition_leads s p s' : transition σ s p s' → leads s s' = true.
Proof. intros (b & m & _ & _ & Hs). destruct s; subst; repeat case_decide; done. Qed.

Lemma periods_lead r l q s s' : periods σ r l q → bip9 σ r s → bip9 σ q s' → leads s s' = true.
Proof.
  intros Hper Hr. revert s'. induction Hper as [|l q p b Hper IH Hp Hm Ha]; intros s' Hq; [rewrite (bip9_fun σ r s s' Hr Hq); by destruct s'|].
  inversion Hq as [|p' b' s0 s1 Hp' Hm' Hs0 Ht]; subst. assert (b' = b) as -> by congruence.
  apply (leads_trans s s0); [by apply IH|by apply (transition_leads s0 p)].
Qed.

End correctness.

(** ** The version of a new block *)
Section block_version.
Context (σ : BlockMap) (window threshold_ : Z) (entry_version : list Z → Z).
Hypothesis Hl : linked σ.
Hypothesis Htimes : times_follow_median σ.
Hypothesis Hwindow : 0 < s32 window.

Abbreviation checker d := (VersionBitsConditionChecker window threshold_ entry_version d).

(** The state of a deployment after [q], special start times included. *)
Definition deployment_state (d : BIP9Deployment) (q : option (list Z)) (s : ThresholdState) : Prop :=
  if decide (nStartTime d = ALWAYS_ACTIVE) then s = ACTIVE
  else if decide (nStartTime d = NEVER_ACTIVE) then s = FAILED
  else @bip9 (checker d) σ (@period_parent (checker d) σ q) s.

Definition signalling (d : BIP9Deployment) (q : option (list Z)) : Prop := deployment_state d q STARTED ∨ deployment_state d q LOCKED_IN.

Lemma deployment_state_fun d q s s' : deployment_state d q s → deployment_state d q s' → s = s'.
Proof.
  unfold deployment_state. case_decide; [congruence|]. case_decide; [congruence|]. apply (@bip9_fun (checker d) σ).
Qed.

Lemma State_ok d q cache : known σ q → @cache_sound (checker d) σ cache →
  ∃ s cache', @GetStateFor (checker d) σ q cache = Ok (s, cache') ∧ deployment_state d q s ∧ @cache_sound (checker d) σ cache'.
Proof.
  intros Hq Hc. unfold deployment_state. destruct (decide (nStartTime d = ALWAYS_ACTIVE)) as [E|N1]; [|destruct (decide (nStartTime d = NEVER_ACTIVE)) as [E|N2]].
  - exists ACTIVE, cache. unfold GetStateFor. cbn [BeginTime VersionBitsConditionChecker]. by rewrite E, Z.eqb_refl.
  - exists FAILED, cache. unfold GetStateFor. cbn [BeginTime VersionBitsConditionChecker]. by rewrite E.
  - by apply (@GetStateFor_ok (checker d) σ Hl Htimes Hwindow q cache).
Qed.

Lemma s32_small x : 0 ≤ x < 2 ^ 31 → s32 x = x.
Proof. intros Hx. apply to_signed_small; lia. Qed.

Lemma Mask_pow d : 0 ≤ bit d < 29 → Mask d = 2 ^ bit d.
Proof.
  intros Hb. unfold Mask. rewrite Z.shiftl_1_l. apply u32_small. pose proof (Z.pow_lt_mono_r 2 (bit d) 32 ltac:(lia) ltac:(lia) ltac:(lia)).
  pose proof (Z.pow_pos_nonneg 2 (bit d)). lia.
Qed.

Lemma lor_bound v k n : 0 ≤ v < 2 ^ n → 0 ≤ k < n → 0 ≤ Z.lor v (2 ^ k) < 2 ^ n.
Proof.
  intros Hv Hk. assert (0 ≤ Z.lor v (2 ^ k)) as H0 by (apply Z.lor_nonneg; pose proof (Z.pow_nonneg 2 k); lia). split; [done|].
  destruct (Z.eq_dec (Z.lor v (2 ^ k)) 0) as [->|Hn0]; [lia|]. apply Z.log2_lt_pow2; [lia|]. rewrite Z.log2_lor by (try lia; apply Z.pow_nonneg; lia).
  rewrite Z.log2_pow2 by lia. destruct (Z.eq_dec v 0) as [->|]; [cbn; lia|]. pose proof (proj1 (Z.log2_lt_pow2 v n ltac:(lia)) ltac:(lia)). lia.
Qed.

Lemma compute_version_ok q ds : known σ q → Forall (λ d, 0 ≤ bit d < 29) ds → ∀ caches v,
  length caches = length ds → (∀ i d cache, ds !! i = Some d → caches !! i = Some cache → @cache_sound (checker d) σ cache) → 0 ≤ v < 2 ^ 30 →
  ∃ v' caches', compute_version σ window threshold_ entry_version q ds caches v = Ok (v', caches') ∧ 0 ≤ v' < 2 ^ 30 ∧
    (∀ k, 0 ≤ k → Z.testbit v' k = true ↔ Z.testbit v k = true ∨ ∃ d, d ∈ ds ∧ bit d = k ∧ signalling d q) ∧
    length caches' = length ds ∧ (∀ i d cache, ds !! i = Some d → caches' !! i = Some cache → @cache_sound (checker d) σ cache).
Proof.
  intros Hq. induction 1 as [|d ds Hb _ IH]; intros caches v Hlen Hc Hv.
  { exists v, []. split; [by destruct caches|]. split; [done|]. split; [|done]. intros k _. split; [by left|]. intros [?|(d & Hd & _)]; [done|]. by apply not_elem_of_nil in Hd. }
  destruct caches as [|cache caches]; [done|]. cbn [compute_version].
  destruct (State_ok d q cache Hq (Hc 0%nat d cache eq_refl eq_refl)) as (s & cache' & -> & Hs & Hc'). rewrite bind_Ok.
  set (v1 := if bool_decide _ then _ else v).
  assert (0 ≤ v1 < 2 ^ 30 ∧ ∀ k, 0 ≤ k → Z.testbit v1 k = true ↔ Z.testbit v k = true ∨ bit d = k ∧ signalling d q) as [Hv1 Hbits].
  { unfold v1, signalling. case_bool_decide as Hd.
    - rewrite (u32_small v), Mask_pow by lia. pose proof (lor_bound v (bit d) 30 Hv ltac:(lia)). rewrite s32_small by lia. split; [done|].
      intros k Hk. rewrite Z.lor_spec, orb_true_iff, Z.pow2_bits_eqb by lia. rewrite Z.eqb_eq.
      split; (intros [?|?]; [by left|right]); [|tauto]. split; [done|]. destruct Hd as [-> | ->]; tauto.
    - split; [done|]. intros k Hk. split; [by left|]. intros [?|[_ [Hx|Hx]]]; [done|..]; exfalso; apply Hd;
        [right|left]; by apply (deployment_state_fun d q). }
  destruct (IH caches v1 ltac:(cbn in Hlen; lia) (λ i, Hc (S i)) Hv1) as (v' & caches' & -> & Hv' & Hb' & Hl' & Hc2). rewrite bind_Ok.
  exists v', (cache' :: caches'). split; [done|]. split; [done|]. split; [|split; [cbn; lia|]].
  - intros k Hk. rewrite (Hb' k Hk), (Hbits k Hk). setoid_rewrite elem_of_cons. split.
    + intros [[?|[? ?]]|(d' & ? & ? & ?)]; [by left|right; exists d; tauto|right; exists d'; tauto].
    + intros [?|(d' & [-> |?] & ? & ?)]; [tauto|left; right; tauto|right; exists d'; tauto].
  - intros [|i] d' cache0 Hd Hcache; cbn in Hd, Hcache; [by simplify_eq|by apply (Hc2 i)].
Qed.

End block_version.

(** ** Properties *)

(** C38: with any cache that earlier queries may have left, the state of a
    deployment after any block is the one the period-by-period rules of BIP 9
    give, the walk terminates, the cache stays correct for later queries, and
    the state is one the earlier periods of the chain lead to.
    The shortcut for periods before the start time is right because median
    times do not decrease. *)
Theorem versionbits_state_correct `{ThresholdConditionChecker} σ q cache :
  linked σ → times_follow_median σ → 0 < Period → BeginTime ≠ ALWAYS_ACTIVE → BeginTime ≠ NEVER_ACTIVE → known σ q → cache_sound σ cache →
  ∃ s cache', GetStateFor σ q cache = Ok (s, cache') ∧ bip9 σ (period_parent σ q) s ∧ (∀ s', bip9 σ (period_parent σ q) s' → s' = s) ∧
    cache_sound σ cache' ∧ (∀ r l s0, periods σ r l (period_parent σ q) → bip9 σ r s0 → leads s0 s = true).
Proof.
  intros Hl Ht Hp H1 H2 Hq Hc. destruct (GetStateFor_ok σ Hl Ht Hp q cache H1 H2 Hq Hc) as (s & c' & E & Hs & Hc').
  exists s, c'. split; [done|]. split; [done|]. split; [|split; [done|]].
  - intros s' Hs'. by apply (bip9_fun σ (period_parent σ q)).
  - intros r l s0 Hr Hs0. by apply (periods_lead σ r l (period_parent σ q)).
Qed.

(** The height since which a state holds is the first block of the run of
    periods with that state: every period from there to the queried one has
    it, the period before has another one, from which the state machine leads
    forward; states that have not started since genesis report 0. *)
Theorem versionbits_since_height `{ThresholdConditionChecker} σ q cache :
  linked σ → times_follow_median σ → 0 < Period → BeginTime ≠ ALWAYS_ACTIVE → BeginTime ≠ NEVER_ACTIVE → known σ q → cache_sound σ cache →
  ∃ height cache' s, GetStateSinceHeightFor σ q cache = Ok (height, cache') ∧ cache_sound σ cache' ∧ bip9 σ (period_parent σ q) s ∧
    if decide (s = DEFINED) then height = 0
    else ∃ p0 b0 l s0, σ !! p0 = Some b0 ∧ height = Z.min (nHeight b0 + 1) INT_MAX ∧ periods σ (Some p0) l (period_parent σ q) ∧
      (∀ p, p ∈ p0 :: l → bip9 σ (Some p) s) ∧ bip9 σ (ancestor σ p0 (nHeight b0 - Period)) s0 ∧ s0 ≠ s ∧ leads s0 s = true.
Proof.
  intros Hl Ht Hper H1 H2 Hq Hc. unfold GetStateSinceHeightFor. rewrite (proj2 (Z.eqb_neq _ _) H1), (proj2 (Z.eqb_neq _ _) H2). cbn [orb].
  destruct (GetStateFor_ok σ Hl Ht Hper q cache H1 H2 Hq Hc) as (s & c1 & -> & Hs & Hc1). rewrite bind_Ok.
  case_bool_decide as Hd; [exists 0, c1, s; split; [done|]; split; [done|]; split; [done|]; by rewrite decide_True|].
  destruct (align_ok σ Hl Hper q Hq) as [-> Hb]. rewrite bind_Ok.
  destruct (period_parent σ q) as [p|]; [|by inversion Hs]. destruct Hb as (b & Hp & Hm).
  rewrite (deref_Ok _ _ _ Hp), bind_Ok, (GetAncestor_ok σ Hl p b _ Hp), bind_Ok.
  destruct (since_loop_ok σ Hl Ht Hper s (height_fuel σ (Some p)) Hd H1 H2 p b c1 Hp Hm) as (p0 & b0 & l & s0 & c' & -> & Hc' & Hp0 & Hl' & Hall & Hs0 & Hne); [|done|done|].
  { cbn. rewrite Hp. pose proof (lk_height σ Hl p b Hp). lia. }
  rewrite bind_Ok, (deref_Ok _ _ _ Hp0), bind_Ok. eexists _, c', s. split; [done|]. split; [done|]. split; [done|]. rewrite decide_False by done.
  exists p0, b0, l, s0. pose proof (lk_height σ Hl p0 b0 Hp0). split_and!; try done.
  - unfold INT_MAX. destruct (Z.eqb_spec (nHeight b0) (2 ^ 31 - 1)); lia.
  - pose proof (Hall p0 ltac:(by left)) as Hb0. inversion Hb0 as [|p' b' s1 s2 Hp' Hm' Hs1 Htr]; subst. assert (b' = b0) as -> by congruence.
    rewrite (bip9_fun σ _ s0 s1 Hs0 Hs1). by apply (transition_leads σ s1 p0).
Qed.

(** A block template signals for exactly the deployments that are started
    or locked in after its parent, read back the way the condition of a
    deployment reads a block's version, when deployments use distinct bits
    below 29. *)
Theorem block_version_signals σ window threshold_ entry_version ds q caches :
  linked σ → times_follow_median σ → 0 < s32 window → known σ q → Forall (λ d, 0 ≤ bit d < 29) ds → NoDup (bit <$> ds) →
  length caches = length ds →
  (∀ i d cache, ds !! i = Some d → caches !! i = Some cache → @cache_sound (VersionBitsConditionChecker window threshold_ entry_version d) σ cache) →
  ∃ v caches', ComputeBlockVersion σ window threshold_ entry_version ds q caches = Ok (v, caches') ∧
    ∀ d, d ∈ ds → version_signals d v = true ↔ signalling σ window threshold_ entry_version d q.
Proof.
  intros Hl Ht Hw Hq Hb Hnd Hlen Hc.
  destruct (compute_version_ok σ window threshold_ entry_version Hl Ht Hw q ds Hq Hb caches VERSIONBITS_TOP_BITS Hlen Hc) as (v & caches' & E & Hv & Hbits & _).
  { unfold VERSIONBITS_TOP_BITS. lia. }
  exists v, caches'. split; [exact E|]. intros d Hd. pose proof (proj1 (list.Forall_forall _ _) Hb d Hd) as Hbd. cbv beta in Hbd.
  assert (Z.land v VERSIONBITS_TOP_MASK = VERSIONBITS_TOP_BITS) as Htop.
  { apply Z.bits_inj'. intros k Hk. rewrite Z.land_spec. change VERSIONBITS_TOP_MASK with (Z.lnot (Z.ones 29)). change VERSIONBITS_TOP_BITS with (2 ^ 29).
    rewrite Z.lnot_spec by done. rewrite Z.pow2_bits_eqb by lia. destruct (Z.lt_ge_cases k 29).
    - rewrite Z.ones_spec_low by lia. rewrite andb_false_r. symmetry. apply Z.eqb_neq. lia.
    - rewrite Z.ones_spec_high by lia. rewrite andb_true_r. destruct (Z.eqb_spec 29 k) as [<-|]; [apply Hbits; [lia|]; left; reflexivity|].
      destruct (Z.eq_dec v 0) as [->|]; [by rewrite Z.testbit_0_l|]. apply Z.bits_above_log2; [lia|]. pose proof (proj1 (Z.log2_lt_pow2 v 30 ltac:(lia)) ltac:(lia)). lia. }
  unfold version_signals. rewrite Htop, Z.eqb_refl, (u32_small v), (Mask_pow d) by lia. cbn [andb]. rewrite negb_true_iff, Z.eqb_neq.
  assert (Z.land v (2 ^ bit d) ≠ 0 ↔ Z.testbit v (bit d) = true) as ->.
  { rewrite Z.land_comm, <- Z.shiftl_1_l. split.
    - intros Hne. destruct (Z.testbit v (bit d)) eqn:E0; [done|]. exfalso. apply Hne. apply Z.bits_inj'. intros k Hk.
      rewrite Z.land_spec, Z.shiftl_1_l, Z.pow2_bits_eqb, Z.testbit_0_l by lia. destruct (Z.eqb_spec (bit d) k); [subst; by rewrite E0|done].
    - intros E0 Hz. assert (Z.testbit (Z.land (Z.shiftl 1 (bit d)) v) (bit d) = false) as Hf by (by rewrite Hz, Z.testbit_0_l).
      rewrite Z.land_spec, E0, Z.shiftl_1_l, Z.pow2_bits_true in Hf by lia. done. }
  rewrite (Hbits (bit d) ltac:(lia)). split; [|intros Hs; right; by exists d]. intros [Htb|(d' & Hd' & Ebit & Hs)].
  - change VERSIONBITS_TOP_BITS with (2 ^ 29) in Htb. rewrite Z.pow2_bits_eqb in Htb by lia. apply Z.eqb_eq in Htb. lia.
  - assert (d' = d) as ->; [|done]. apply list_elem_of_lookup in Hd as [i Hi], Hd' as [j Hj].
    assert (i = j) as ->; [|congruence]. apply (NoDup_lookup (bit <$> ds) i j (bit d)); [done|by rewrite list_lookup_fmap, Hi|by rewrite list_lookup_fmap, Hj; cbn; rewrite Ebit].
Qed.
