(* ===== verification/Header.v ===== *)
(** Block headers.

    [primitives/block.h] and [primitives/block.cpp]: the header's wire format
    and identity; the parts of [serialize.h] and [streams.h] they use; and the
    seeds [pow.cpp] pins in a header ([SetDeterministicMatMulSeeds]). *)

From Stdlib Require Import ZArith Lia String Ascii.
From stdpp Require Import base list numbers tactics.
From S2P Require Import Prelude Sha256 Params MatMulPow.
Import matmul_pow Consensus.

Open Scope Z_scope.

Module block_header.

(** ** Streams. A stream is the bytes not yet read. *)
Definition read (n : nat) (s : list Z) : result (list Z * list Z) :=
  if (n =? 0)%nat then Ok ([], s)
  else _ ← throw_if (length s <? n)%nat "DataStream::read(): end of data"; Ok (take n s, drop n s).

Definition ser_readdata (n : nat) (s : list Z) : result (Z * list Z) :=
  '(b, s) ← read n s; Ok (le_word b, s).

Definition MAX_SIZE : Z := 0x02000000.

Definition WriteCompactSize (nSize : Z) : list Z :=
  if nSize <? 253 then [u8 nSize]
  else if nSize <=? 2 ^ 16 - 1 then [253] ++ WriteLE16 nSize
  else if nSize <=? 2 ^ 32 - 1 then [254] ++ WriteLE32 nSize
  else [255] ++ WriteLE64 nSize.

Definition ReadCompactSize (range_check : bool) (s : list Z) : result (Z * list Z) :=
  '(chSize, s) ← ser_readdata 1 s;
  '(nSizeRet, s) ←
    (if chSize <? 253 then Ok (chSize, s)
     else if chSize =? 253 then
       '(v, s) ← ser_readdata 2 s; _ ← throw_if (v <? 253) "non-canonical ReadCompactSize()"; Ok (v, s)
     else if chSize =? 254 then
       '(v, s) ← ser_readdata 4 s; _ ← throw_if (v <? 0x10000) "non-canonical ReadCompactSize()"; Ok (v, s)
     else
       '(v, s) ← ser_readdata 8 s; _ ← throw_if (v <? 0x100000000) "non-canonical ReadCompactSize()"; Ok (v, s));
  _ ← throw_if (range_check && (MAX_SIZE <? nSizeRet)) "ReadCompactSize(): size too large";
  Ok (nSizeRet, s).

(** ** The header on the wire: 182 bytes, without [nNonce]. *)
Definition header_fields (h : CBlockHeader) : list (list Z) :=
  [WriteLE32 (u32 (h_nVersion h)); h_hashPrevBlock h; h_hashMerkleRoot h; WriteLE32 (h_nTime h); WriteLE32 (h_nBits h);
   WriteLE64 (h_nNonce64 h); h_matmul_digest h; WriteLE16 (h_matmul_dim h); h_seed_a h; h_seed_b h].

Definition Serialize (s : list Z) (h : CBlockHeader) : list Z := foldl app s (header_fields h).

Definition Unserialize (s : list Z) : result (CBlockHeader * list Z) :=
  '(nVersion, s) ← ser_readdata 4 s;
  '(hashPrevBlock, s) ← read 32 s;
  '(hashMerkleRoot, s) ← read 32 s;
  '(nTime, s) ← ser_readdata 4 s;
  '(nBits, s) ← ser_readdata 4 s;
  '(nNonce64, s) ← ser_readdata 8 s;
  '(matmul_digest, s) ← read 32 s;
  '(matmul_dim, s) ← ser_readdata 2 s;
  '(seed_a, s) ← read 32 s;
  '(seed_b, s) ← read 32 s;
  Ok (mkHeader (s32 nVersion) hashPrevBlock hashMerkleRoot nTime nBits nNonce64 0 matmul_dim seed_a seed_b matmul_digest, s).

(** ** Identity *)
Definition GetHash (h : CBlockHeader) : list Z :=
  HashWriter_GetHash (foldl HashWriter_write HashWriter_new (header_fields h)).

(** ** Seeds *)

(** A [std::string] on the wire: its length, then its characters. *)
Definition chars (s : string) : list Z := (λ c, Z.of_nat (nat_of_ascii c)) <$> list_ascii_of_string s.
Definition ser_string (s : string) : list (list Z) := [WriteCompactSize (zlen (chars s)); chars s].

Definition DeterministicMatMulSeed (prev_block_hash : list Z) (height which : Z) (nonce : option Z) : list Z :=
  let hw := foldl HashWriter_write HashWriter_new [prev_block_hash; WriteLE32 height; [u8 which]] in
  let hw := match nonce with Some nonce => HashWriter_write hw (WriteLE64 nonce) | None => hw end in
  HashWriter_GetSHA256 hw.

Definition DeterministicMatMulSeedV2 (block : CBlockHeader) (height which : Z) : list Z :=
  HashWriter_GetSHA256 (foldl HashWriter_write HashWriter_new
    (ser_string "BTX_MATMUL_SEED_V2" ++
     [h_hashPrevBlock block; WriteLE32 height; WriteLE32 (u32 (h_nVersion block)); h_hashMerkleRoot block;
      WriteLE32 (h_nTime block); WriteLE32 (h_nBits block); WriteLE64 (h_nNonce64 block);
      WriteLE16 (h_matmul_dim block); [u8 which]])).

Definition DeterministicMatMulSeedV3 (block : CBlockHeader) (height parent_median_time_past which : Z) : list Z :=
  HashWriter_GetSHA256 (foldl HashWriter_write HashWriter_new
    (ser_string "BTX_MATMUL_SEED_V3" ++
     [h_hashPrevBlock block; WriteLE64 (u64 parent_median_time_past); WriteLE32 height;
      WriteLE32 (u32 (h_nVersion block)); h_hashMerkleRoot block;
      WriteLE32 (h_nTime block); WriteLE32 (h_nBits block); WriteLE64 (h_nNonce64 block);
      WriteLE16 (h_matmul_dim block); [u8 which]])).

Definition set_seeds (h : CBlockHeader) (a b : list Z) : CBlockHeader :=
  mkHeader (h_nVersion h) (h_hashPrevBlock h) (h_hashMerkleRoot h) (h_nTime h) (h_nBits h) (h_nNonce64 h) (h_nNonce h)
    (h_matmul_dim h) a b (h_matmul_digest h).

Definition null256 : list Z := replicate 32 0.

(** The verdict and the header with its seed fields set. *)
Definition SetDeterministicMatMulSeeds (block : CBlockHeader) (params : Params) (block_height : Z)
    (parent_median_time_past : option Z) : bool * CBlockHeader :=
  let v3 mtp := set_seeds block (DeterministicMatMulSeedV3 block (u32 block_height) mtp 0)
                  (DeterministicMatMulSeedV3 block (u32 block_height) mtp 1) in
  if block_height <? 0 then (true, set_seeds block null256 null256)
  else if IsMatMulV4Active params block_height then
    match parent_median_time_past with
    | None => (false, set_seeds block null256 null256)
    | Some mtp => (true, v3 mtp)
    end
  else if IsMatMulParentMtpSeedActive params block_height then
    match parent_median_time_past with
    | None => (false, set_seeds block null256 null256)
    | Some mtp => (true, v3 mtp)
    end
  else if IsMatMulNonceSeedActive params block_height then
    (true, set_seeds block (DeterministicMatMulSeedV2 block (u32 block_height) 0)
             (DeterministicMatMulSeedV2 block (u32 block_height) 1))
  else
    (true, set_seeds block (DeterministicMatMulSeed (h_hashPrevBlock block) (u32 block_height) 0 None)
             (DeterministicMatMulSeed (h_hashPrevBlock block) (u32 block_height) 1 None)).

End block_header.
Import block_header.

(** ** Reading back what was written *)
Lemma read_app n b s : length b = n → read n (b ++ s) = Ok (b, s).
Proof.
  intros <-. unfold read. destruct (Nat.eqb_spec (length b) 0) as [E|E].
  { by destruct b. }
  rewrite (proj2 (Nat.ltb_ge (length (b ++ s)) (length b))) by (rewrite length_app; lia).
  cbn [throw_if]. by rewrite bind_Ok, take_app_length, drop_app_length.
Qed.

Lemma ser_readdata_app n x s :
  0 ≤ x < 2 ^ (8 * Z.of_nat n) → ser_readdata n (le_bytes n x ++ s) = Ok (x, s).
Proof.
  intros Hx. unfold ser_readdata. rewrite read_app, bind_Ok by apply length_le_bytes.
  by rewrite le_word_le_bytes, Z.mod_small.
Qed.

Lemma read_inv n s b s' : read n s = Ok (b, s') → s = b ++ s' ∧ length b = n.
Proof.
  unfold read. destruct (Nat.eqb_spec n 0) as [->|]; [by intros [= <- <-]|].
  destruct (Nat.ltb_spec (length s) n); cbn [throw_if]; [done|]. rewrite bind_Ok. intros [= <- <-].
  rewrite take_drop, length_take. split; [done|lia].
Qed.

Lemma ser_readdata_inv n s x s' :
  Forall is_byte s → ser_readdata n s = Ok (x, s') → s = le_bytes n x ++ s' ∧ 0 ≤ x < 2 ^ (8 * Z.of_nat n).
Proof.
  intros Hs E. unfold ser_readdata in E. apply bind_Ok_inv in E as ([b s1] & E & [= <- <-]).
  apply read_inv in E as [-> Hl]. apply Forall_app in Hs as [Hb _].
  pose proof (le_word_bound b Hb) as Hw. unfold zlen in Hw. rewrite Hl in Hw. split; [|done].
  by rewrite <- Hl, le_bytes_le_word.
Qed.

(** ** Sizes *)
Lemma le_bytes_1 x : 0 ≤ x < 256 → le_bytes 1 x = [x].
Proof.
  intros Hx. pose proof (le_bytes_le_word [x]) as E. cbn [length le_word] in E.
  rewrite Z.mul_0_r, Z.add_0_r in E. apply E. repeat constructor; unfold is_byte; lia.
Qed.

Lemma ser_readdata_8 x s : 0 ≤ x < 256 → ser_readdata 1 (x :: s) = Ok (x, s).
Proof. intros Hx. rewrite <- (ser_readdata_app 1 x s) by done. by rewrite le_bytes_1. Qed.

Lemma compact_size_roundtrip_aux n check s :
  0 ≤ n < 2 ^ 64 → (check = true → n ≤ MAX_SIZE) → ReadCompactSize check (WriteCompactSize n ++ s) = Ok (n, s).
Proof.
  intros Hn Hc. unfold ReadCompactSize, WriteCompactSize.
  assert (check && (MAX_SIZE <? n) = false) as Hcheck.
  { destruct check; [|done]. destruct (Z.ltb_spec MAX_SIZE n); [|done]. specialize (Hc eq_refl). lia. }
  destruct (Z.ltb_spec n 253).
  { cbn [app]. rewrite u8_small, ser_readdata_8, bind_Ok, (proj2 (Z.ltb_lt n 253)), bind_Ok, Hcheck by lia. done. }
  destruct (Z.leb_spec n (2 ^ 16 - 1)).
  { cbn [app]. rewrite ser_readdata_8, bind_Ok by lia. cbn [Z.ltb Z.eqb Z.compare Pos.compare Pos.compare_cont Pos.eqb].
    unfold WriteLE16. rewrite ser_readdata_app, bind_Ok, (proj2 (Z.ltb_ge n 253)) by lia. cbn [throw_if].
    by rewrite !bind_Ok, Hcheck. }
  destruct (Z.leb_spec n (2 ^ 32 - 1)).
  { cbn [app]. rewrite ser_readdata_8, bind_Ok by lia. cbn [Z.ltb Z.eqb Z.compare Pos.compare Pos.compare_cont Pos.eqb].
    unfold WriteLE32. rewrite ser_readdata_app, bind_Ok, (proj2 (Z.ltb_ge n 0x10000)) by lia. cbn [throw_if].
    by rewrite !bind_Ok, Hcheck. }
  cbn [app]. rewrite ser_readdata_8, bind_Ok by lia. cbn [Z.ltb Z.eqb Z.compare Pos.compare Pos.compare_cont Pos.eqb].
  unfold WriteLE64. rewrite ser_readdata_app, bind_Ok, (proj2 (Z.ltb_ge n 0x100000000)) by lia. cbn [throw_if].
  by rewrite !bind_Ok, Hcheck.
Qed.

(** A size is read only in its shortest form. *)
Lemma compact_size_canonical check s n s' :
  Forall is_byte s → ReadCompactSize check s = Ok (n, s') →
  s = WriteCompactSize n ++ s' ∧ 0 ≤ n < 2 ^ 64 ∧ (check = true → n ≤ MAX_SIZE).
Proof.
  intros Hs E. unfold ReadCompactSize in E. apply bind_Ok_inv in E as ([c s1] & E1 & E).
  apply ser_readdata_inv in E1 as [-> Hc]; [|done]. rewrite le_bytes_1 in * by lia.
  apply Forall_app in Hs as [_ Hs]. apply bind_Ok_inv in E as ([v s2] & E & E').
  apply bind_Ok_inv in E' as (u & Eu & [= <- <-]).
  assert (check = true → v ≤ MAX_SIZE) as Hmax.
  { intros ->. unfold throw_if in Eu. destruct (Z.ltb_spec MAX_SIZE v); [done|lia]. }
  clear Eu. cut ([c] ++ s1 = WriteCompactSize v ++ s2 ∧ 0 ≤ v < 2 ^ 64); [tauto|].
  assert (∀ k lo, Forall is_byte s1 →
    ('(v, s) ← ser_readdata k s1; _ ← throw_if (v <? lo) "non-canonical ReadCompactSize()"; Ok (v, s)) = Ok (v, s2) →
    s1 = le_bytes k v ++ s2 ∧ lo ≤ v < 2 ^ (8 * Z.of_nat k)) as Hread.
  { intros k lo Hb Er. apply bind_Ok_inv in Er as ([w s3] & Er & Et). apply bind_Ok_inv in Et as (u' & Et & [= <- <-]).
    apply ser_readdata_inv in Er as [-> Hw]; [|done]. split; [done|].
    unfold throw_if in Et. destruct (Z.ltb_spec w lo); [done|lia]. }
  unfold WriteCompactSize. destruct (Z.ltb_spec c 253).
  { injection E as <- <-. rewrite (proj2 (Z.ltb_lt c 253)), u8_small by lia. split; [done|lia]. }
  destruct (Z.eqb_spec c 253) as [->|].
  { apply Hread in E as [-> Hv]; [|done]. cbn [Z.of_nat] in Hv.
    rewrite (proj2 (Z.ltb_ge v 253)), (proj2 (Z.leb_le v (2 ^ 16 - 1))) by lia. split; [done|lia]. }
  destruct (Z.eqb_spec c 254) as [->|].
  { apply Hread in E as [-> Hv]; [|done].
    rewrite (proj2 (Z.ltb_ge v 253)), (proj2 (Z.leb_gt v (2 ^ 16 - 1))), (proj2 (Z.leb_le v (2 ^ 32 - 1))) by lia. split; [done|lia]. }
  apply Hread in E as [-> Hv]; [|done]. replace c with 255 by lia.
  rewrite (proj2 (Z.ltb_ge v 253)), (proj2 (Z.leb_gt v (2 ^ 16 - 1))), (proj2 (Z.leb_gt v (2 ^ 32 - 1))) by lia. split; [done|lia].
Qed.

(** ** The header *)

(** A header whose fields have their C++ types. *)
Record header_typed (h : CBlockHeader) : Prop := mkHeaderTyped {
  ht_version : - 2 ^ 31 ≤ h_nVersion h < 2 ^ 31;
  ht_prev : length (h_hashPrevBlock h) = 32%nat ∧ Forall is_byte (h_hashPrevBlock h);
  ht_merkle : length (h_hashMerkleRoot h) = 32%nat ∧ Forall is_byte (h_hashMerkleRoot h);
  ht_time : 0 ≤ h_nTime h < 2 ^ 32;
  ht_bits : 0 ≤ h_nBits h < 2 ^ 32;
  ht_nonce64 : 0 ≤ h_nNonce64 h < 2 ^ 64;
  ht_nonce : 0 ≤ h_nNonce h < 2 ^ 32;
  ht_dim : 0 ≤ h_matmul_dim h < 2 ^ 16;
  ht_seed_a : length (h_seed_a h) = 32%nat ∧ Forall is_byte (h_seed_a h);
  ht_seed_b : length (h_seed_b h) = 32%nat ∧ Forall is_byte (h_seed_b h);
  ht_digest : length (h_matmul_digest h) = 32%nat ∧ Forall is_byte (h_matmul_digest h)
}.

(** The 182 bytes of a header. *)
Definition wire (h : CBlockHeader) : list Z := concat (header_fields h).

(** The header without the field that is not on the wire. *)
Definition drop_nonce (h : CBlockHeader) : CBlockHeader :=
  mkHeader (h_nVersion h) (h_hashPrevBlock h) (h_hashMerkleRoot h) (h_nTime h) (h_nBits h) (h_nNonce64 h) 0
    (h_matmul_dim h) (h_seed_a h) (h_seed_b h) (h_matmul_digest h).

Lemma foldl_app_concat {A} (l : list A) ls : foldl app l ls = l ++ concat ls.
Proof.
  revert l. induction ls as [|x ls IH]; intros l; cbn [foldl concat]; [by rewrite app_nil_r|].
  by rewrite IH, <- app_assoc.
Qed.

Lemma Serialize_wire s h : Serialize s h = s ++ wire h.
Proof. apply foldl_app_concat. Qed.

(** [hw << a << b << ...] *)
Lemma hash_parts ds : represents (foldl HashWriter_write HashWriter_new ds) (concat ds).
Proof. exact (sha_writes_represents CSHA256_new [] ds represents_new). Qed.

Lemma GetHash_wire h : GetHash h = sha256d (wire h).
Proof. exact (HashWriter_GetHash_fips _ _ (hash_parts (header_fields h))). Qed.

Lemma length_wire h : header_typed h → length (wire h) = 182%nat.
Proof.
  intros [_ [H1 _] [H2 _] _ _ _ _ _ [H3 _] [H4 _] [H5 _]]. unfold wire, header_fields, WriteLE16, WriteLE32, WriteLE64.
  cbn [concat]. rewrite !length_app, !length_le_bytes, H1, H2, H3, H4, H5. reflexivity.
Qed.

Lemma Unserialize_wire h s : header_typed h → Unserialize (wire h ++ s) = Ok (drop_nonce h, s).
Proof.
  intros [Hv [Hp _] [Hm _] Ht Hb Hn _ Hd [Ha _] [Hs _] [Hg _]].
  unfold Unserialize, wire, header_fields, WriteLE16, WriteLE32, WriteLE64. cbn [concat]. rewrite <- !app_assoc.
  rewrite (ser_readdata_app 4 _ _ (u32_bound _)), bind_Ok.
  rewrite (read_app _ _ _ Hp), bind_Ok, (read_app _ _ _ Hm), bind_Ok.
  rewrite (ser_readdata_app 4 _ _ Ht), bind_Ok, (ser_readdata_app 4 _ _ Hb), bind_Ok, (ser_readdata_app 8 _ _ Hn), bind_Ok.
  rewrite (read_app _ _ _ Hg), bind_Ok, (ser_readdata_app 2 _ _ Hd), bind_Ok.
  rewrite (read_app _ _ _ Ha), bind_Ok, (read_app _ _ _ Hs), bind_Ok. cbn [app]. do 2 f_equal. unfold drop_nonce. f_equal.
  rewrite u32_mod. unfold s32, to_signed. rewrite Z.mod_mod by lia. by apply to_signed_small.
Qed.

Lemma s32_u32 x : 0 ≤ x < 2 ^ 32 → u32 (s32 x) = x ∧ - 2 ^ 31 ≤ s32 x < 2 ^ 31.
Proof.
  intros Hx. rewrite u32_mod. unfold s32, to_signed. rewrite (Z.mod_small x) by lia. cbv zeta.
  destruct (Z.ltb_spec x (2 ^ (32 - 1))).
  - rewrite Z.mod_small by lia. lia.
  - split; [|lia]. symmetry. apply (Z.mod_unique _ _ (-1)); lia.
Qed.

(** Reading consumes exactly what writing would have produced. *)
Lemma Unserialize_inv s h s' :
  Forall is_byte s → Unserialize s = Ok (h, s') → s = wire h ++ s' ∧ header_typed h ∧ h_nNonce h = 0.
Proof.
  intros Hs E. unfold Unserialize in E.
  repeat match type of E with
  | (ser_readdata ?n ?t ≫= _) = _ =>
      let x := fresh "x" in let t' := fresh "t" in let H1 := fresh "H" in let H2 := fresh "Hb" in
      apply bind_Ok_inv in E as ([x t'] & H1 & E); apply ser_readdata_inv in H1 as [-> H2]; [|assumption];
      apply Forall_app in Hs as [_ Hs]
  | (read ?n ?t ≫= _) = _ =>
      let x := fresh "x" in let t' := fresh "t" in let H1 := fresh "H" in let H2 := fresh "Hb" in let H3 := fresh "Hl" in
      apply bind_Ok_inv in E as ([x t'] & H1 & E); apply read_inv in H1 as [-> H2];
      apply Forall_app in Hs as [H3 Hs]
  end.
  destruct (s32_u32 _ Hb) as [Hv1 Hv2]. injection E as <- <-. split; [|split; [|reflexivity]].
  - unfold wire, header_fields, WriteLE16, WriteLE32, WriteLE64. cbn [concat h_nVersion h_hashPrevBlock h_hashMerkleRoot
      h_nTime h_nBits h_nNonce64 h_matmul_digest h_matmul_dim h_seed_a h_seed_b]. rewrite <- !app_assoc, Hv1. reflexivity.
  - split; cbn [h_nVersion h_hashPrevBlock h_hashMerkleRoot h_nTime h_nBits h_nNonce64 h_nNonce h_matmul_digest
      h_matmul_dim h_seed_a h_seed_b]; first [assumption | split; assumption | lia].
Qed.

(** ** Seeds *)

(** The seeds are a function of the other fields, so setting them again
    changes nothing. *)
Lemma set_seeds_twice h a b a' b' : set_seeds (set_seeds h a b) a' b' = set_seeds h a' b'.
Proof. reflexivity. Qed.

Lemma seeds_stable block params height mtp a b :
  SetDeterministicMatMulSeeds (set_seeds block a b) params height mtp = SetDeterministicMatMulSeeds block params height mtp.
Proof. reflexivity. Qed.

Lemma seeds_only block params height mtp :
  ∃ ok a b, SetDeterministicMatMulSeeds block params height mtp = (ok, set_seeds block a b).
Proof.
  unfold SetDeterministicMatMulSeeds. cbv zeta.
  destruct (height <? 0), (IsMatMulV4Active params height), (IsMatMulParentMtpSeedActive params height),
    (IsMatMulNonceSeedActive params height), mtp; eauto.
Qed.

(** What validation recomputes from a pinned header is the header itself. *)
Lemma seeds_idempotent block params height mtp ok h :
  SetDeterministicMatMulSeeds block params height mtp = (ok, h) → SetDeterministicMatMulSeeds h params height mtp = (ok, h).
Proof.
  intros E. destruct (seeds_only block params height mtp) as (ok' & a & b & E').
  assert (h = set_seeds block a b) as -> by congruence. by rewrite seeds_stable.
Qed.

(** The preimage of a pinned seed. *)
Definition seed_preimage (tag : string) (block : CBlockHeader) (extra : list Z) (height which : Z) : list Z :=
  concat (ser_string tag) ++ h_hashPrevBlock block ++ extra ++ WriteLE32 height ++ WriteLE32 (u32 (h_nVersion block)) ++
  h_hashMerkleRoot block ++ WriteLE32 (h_nTime block) ++ WriteLE32 (h_nBits block) ++ WriteLE64 (h_nNonce64 block) ++
  WriteLE16 (h_matmul_dim block) ++ [u8 which].

Lemma DeterministicMatMulSeedV3_ok block height mtp which :
  DeterministicMatMulSeedV3 block height mtp which =
  fips.sha256 (seed_preimage "BTX_MATMUL_SEED_V3" block (WriteLE64 (u64 mtp)) height which).
Proof.
  unfold DeterministicMatMulSeedV3, seed_preimage. etransitivity; [apply sha_Finalize_fips, hash_parts|].
  f_equal.
Qed.

(** Headers with the same preimage agree on every field it covers. *)
Lemma seed_preimage_inj tag b b' e e' height height' which which' :
  header_typed b → header_typed b' → length e = length e' → 0 ≤ height < 2 ^ 32 → 0 ≤ height' < 2 ^ 32 →
  seed_preimage tag b e height which = seed_preimage tag b' e' height' which' →
  h_hashPrevBlock b = h_hashPrevBlock b' ∧ e = e' ∧ height = height' ∧ h_nVersion b = h_nVersion b' ∧
  h_hashMerkleRoot b = h_hashMerkleRoot b' ∧ h_nTime b = h_nTime b' ∧ h_nBits b = h_nBits b' ∧
  h_nNonce64 b = h_nNonce64 b' ∧ h_matmul_dim b = h_matmul_dim b' ∧ u8 which = u8 which'.
Proof.
  intros [Hv [Hp _] [Hm _] Ht Hb Hn _ Hd _ _ _] [Hv' [Hp' _] [Hm' _] Ht' Hb' Hn' _ Hd' _ _ _] He Hh Hh' E.
  assert (∀ n x y, 0 ≤ x < 2 ^ (8 * Z.of_nat n) → 0 ≤ y < 2 ^ (8 * Z.of_nat n) → le_bytes n x = le_bytes n y → x = y) as Hinj.
  { intros n x y Hx Hy Exy. apply (f_equal le_word) in Exy. rewrite !le_word_le_bytes, !Z.mod_small in Exy; assumption. }
  unfold seed_preimage, WriteLE16, WriteLE32, WriteLE64 in E. apply app_inv_head in E.
  repeat match type of E with
  | ?x ++ _ = ?y ++ _ =>
      let Hx := fresh "Ex" in
      apply app_inj_1 in E as [Hx E]; [|rewrite ?length_le_bytes; congruence]
  end.
  injection E as E. split_and!; try assumption.
  - by apply (Hinj 4%nat).
  - apply (Hinj 4%nat) in Ex2; [|apply u32_bound..].
    rewrite <- (to_signed_small 32 (h_nVersion b)), <- (to_signed_small 32 (h_nVersion b')) by (assumption || lia).
    unfold to_signed. by rewrite <- !u32_mod, Ex2.
  - by apply (Hinj 4%nat).
  - by apply (Hinj 4%nat).
  - by apply (Hinj 8%nat).
  - by apply (Hinj 2%nat).
Qed.

(** ** Properties *)

(** A header written to the 182-byte wire format reads back unchanged
    but for [nNonce], which is not on the wire; its identity is the double
    SHA-256 of those bytes. *)
Theorem header_wire_roundtrip h s rest :
  header_typed h →
  ∃ bytes, Serialize s h = s ++ bytes ∧ length bytes = 182%nat ∧
    Unserialize (bytes ++ rest) = Ok (drop_nonce h, rest) ∧ GetHash h = sha256d bytes.
Proof.
  intros Hh. exists (wire h). split; [apply Serialize_wire|]. split; [by apply length_wire|].
  split; [by apply Unserialize_wire|apply GetHash_wire].
Qed.

(** Reading is unambiguous: when a header or a compact size is read from
    a byte stream, the consumed bytes are exactly its encoding - there is no
    second encoding - and the header has fields of the right widths. *)
Theorem parse_unambiguous s :
  Forall is_byte s →
  (∀ h rest, Unserialize s = Ok (h, rest) → s = Serialize [] h ++ rest ∧ header_typed h ∧ h_nNonce h = 0) ∧
  (∀ check n rest, ReadCompactSize check s = Ok (n, rest) →
     s = WriteCompactSize n ++ rest ∧ (∀ t, ReadCompactSize check (WriteCompactSize n ++ t) = Ok (n, t))).
Proof.
  intros Hs. split.
  - intros h rest E. rewrite Serialize_wire. exact (Unserialize_inv s h rest Hs E).
  - intros check n rest E. destruct (compact_size_canonical check s n rest Hs E) as (E' & Hn & Hc). split; [exact E'|].
    intros t. by apply compact_size_roundtrip_aux.
Qed.

(** Validation can recompute the seeds of a header from the header
    itself: setting the seeds again, from a header whose seed fields hold
    anything, reproduces them; and two version-3 seeds with the same preimage
    come from headers that agree on every field but the seeds and digest. *)
Theorem seeds_recomputable block params height mtp ok h a b :
  SetDeterministicMatMulSeeds block params height mtp = (ok, h) →
  SetDeterministicMatMulSeeds h params height mtp = (ok, h) ∧
  SetDeterministicMatMulSeeds (set_seeds h a b) params height mtp = (ok, h) ∧
  (∀ x y t t' g g' w w', header_typed x → header_typed y → 0 ≤ g < 2 ^ 32 → 0 ≤ g' < 2 ^ 32 →
     seed_preimage "BTX_MATMUL_SEED_V3" x (WriteLE64 (u64 t)) g w = seed_preimage "BTX_MATMUL_SEED_V3" y (WriteLE64 (u64 t')) g' w' →
     h_hashPrevBlock x = h_hashPrevBlock y ∧ g = g' ∧ h_hashMerkleRoot x = h_hashMerkleRoot y ∧
     h_nNonce64 x = h_nNonce64 y ∧ h_nTime x = h_nTime y ∧ u8 w = u8 w').
Proof.
  intros E. pose proof (seeds_idempotent block params height mtp ok h E) as E'. split; [exact E'|].
  split; [by rewrite seeds_stable|]. intros x y t t' g g' w w' Hx Hy Hg Hg' Ep.
  destruct (seed_preimage_inj _ _ _ _ _ _ _ _ _ Hx Hy ltac:(unfold WriteLE64; by rewrite !length_le_bytes) Hg Hg' Ep)
    as (H1 & _ & H2 & _ & H3 & H4 & _ & H5 & _ & H6). auto 10.
Qed.
