(* ===== verification/HeaderPow.v ===== *)
(** Proof-of-work checks on headers and blocks.

    [pow.cpp] from [CheckMatMulProofOfWork_Phase1] to
    [CheckMatMulProofOfWork_ProductCommitted], with the header-spam throttle,
    the pre-hash gate, the payload checks and the payload a miner attaches
    ([PopulateFreivaldsPayload]).  The runtime counters the checks update
    ([RegisterMatMulValidationRuntimeSample]) are statistics and left out. *)

From Stdlib Require Import ZArith Lia String.
From stdpp Require Import base list numbers tactics.
From S2P Require Import Prelude Sha256 Field Matrix Noise Transcript Replay Multiply SharedCache ArithUint256 Compact Freivalds MatMulPow Params Difficulty Header.
Import field noise transcript blocked arith_uint256 freivalds matmul_pow Consensus difficulty block_header.

Open Scope Z_scope.

Module header_pow.

(** [CBlock]: the header and the payload vectors. *)
Record CBlock := mkBlock {
  header : CBlockHeader;
  matrix_a_data : list Z;
  matrix_b_data : list Z;
  matrix_c_data : list Z
}.

Definition IsNull (h : list Z) : bool := forallb (Z.eqb 0) h.

Definition CheckMatMulProofOfWork_Phase1 (block : CBlockHeader) (params : Params) : bool :=
  if IsNull (h_hashPrevBlock block) then bool_decide (GetHash block = hashGenesisBlock params)
  else
    let dim := h_matmul_dim block in
    let v4_configured := negb (nMatMulV4Height params =? INT32_MAX) in
    let matches_v4_dim := v4_configured && (dim =? nMatMulV4Dimension params) in
    let dims_ok :=
      if matches_v4_dim then
        if nMatMulV4TranscriptBlockSize params =? 0 then false
        else dim mod nMatMulV4TranscriptBlockSize params =? 0
      else
        if nMatMulTranscriptBlockSize params =? 0 then false
        else if negb (dim =? nMatMulDimension params) then false
        else if dim <? nMatMulMinDimension params then false
        else if nMatMulMaxDimension params <? dim then false
        else if negb (dim mod nMatMulTranscriptBlockSize params =? 0) then false
        else negb ((nMatMulNoiseRank params =? 0) || (dim <? nMatMulNoiseRank params)) in
    if negb dims_ok then false
    else if IsNull (h_seed_a block) || IsNull (h_seed_b block) then false
    else match DeriveTarget (h_nBits block) (powLimit params) with
         | None => false
         | Some bnTarget => negb (gtb (UintToArith256 (h_matmul_digest block)) bnTarget)
         end.

(** ** The header-spam throttle *)
Definition CheckMatMulHeaderSpamGate (block : CBlockHeader) (params : Params) : bool :=
  if negb (IsMatMulHeaderPoWEnabled params) then true
  else match DeriveMatMulHeaderPoWGateTarget (h_nBits block) (nMatMulHeaderPoWDiscountBits params) (powLimit params) with
  | None => false
  | Some gate_target =>
      let hw := HashWriter_write (HashWriter_write HashWriter_new (GetHash block)) (WriteLE32 (h_nNonce block)) in
      leb (UintToArith256 (HashWriter_GetHash hw)) gate_target
  end.

Definition set_nNonce (h : CBlockHeader) (n : Z) : CBlockHeader :=
  mkHeader (h_nVersion h) (h_hashPrevBlock h) (h_hashMerkleRoot h) (h_nTime h) (h_nBits h) (h_nNonce64 h) n
    (h_matmul_dim h) (h_seed_a h) (h_seed_b h) (h_matmul_digest h).

(** [while (max_tries > 0)]: the verdict, the header and the tries left. *)
Fixpoint grind_loop (max_tries : nat) (block : CBlockHeader) (params : Params) : bool * CBlockHeader * nat :=
  match max_tries with
  | O => (CheckMatMulHeaderSpamGate block params, block, O)
  | S tries =>
      if CheckMatMulHeaderSpamGate block params then (true, block, S tries)
      else if h_nNonce block =? UINT32_MAX then (false, block, S tries)
      else grind_loop tries (set_nNonce block (u32 (h_nNonce block + 1))) params
  end.

Definition GrindMatMulHeaderSpamNonce (block : CBlockHeader) (params : Params) (max_tries : nat) :
    bool * CBlockHeader * nat :=
  if negb (IsMatMulHeaderPoWEnabled params) then (true, block, max_tries) else grind_loop max_tries block params.

(** ** The pre-hash gate *)
Definition CheckMatMulPreHashGate (block : CBlockHeader) (params : Params) (block_height : Z) : bool :=
  let pre_hash_epsilon_bits := GetMatMulPreHashEpsilonBitsForHeight params block_height in
  if pre_hash_epsilon_bits =? 0 then true
  else match DeriveTarget (h_nBits block) (powLimit params) with
  | None => false
  | Some bnTarget =>
      leb (UintToArith256 (DeriveSigma block)) (SaturatingLeftShift256 bnTarget pre_hash_epsilon_bits)
  end.

(** ** Full verification *)

(** A', B' and sigma, rebuilt from the header through the shared cache. *)
Definition perturbed_operands `{Platform} (block : CBlockHeader) (params : Params) (cache : list FromSeedCacheEntry) :
    result (Matrix * Matrix * list Z * list FromSeedCacheEntry) :=
  let n := h_matmul_dim block in
  '(A, cache) ← SharedFromSeed (h_seed_a block) n cache;
  '(B, cache) ← SharedFromSeed (h_seed_b block) n cache;
  let sigma := DeriveSigma block in
  np ← Generate sigma n (nMatMulNoiseRank params);
  E ← Matrix_mul (E_L np) (E_R np);
  A_prime ← Matrix_add A E;
  F ← Matrix_mul (F_L np) (F_R np);
  B_prime ← Matrix_add B F;
  Ok (A_prime, B_prime, sigma, cache).

Definition rank_invalid (block : CBlockHeader) (params : Params) : bool :=
  (nMatMulNoiseRank params =? 0) || (h_matmul_dim block <? nMatMulNoiseRank params).

Definition block_size_invalid (block : CBlockHeader) (params : Params) : bool :=
  (nMatMulTranscriptBlockSize params =? 0) || negb (h_matmul_dim block mod nMatMulTranscriptBlockSize params =? 0).

(** The verdict, and the cache the check leaves behind. *)
Definition CheckMatMulProofOfWork_Phase2 `{Platform} (block : CBlockHeader) (params : Params) (block_height : Z)
    (cache : list FromSeedCacheEntry) : result (bool * list FromSeedCacheEntry) :=
  if negb (CheckMatMulProofOfWork_Phase1 block params) then Ok (false, cache)
  else if rank_invalid block params then Ok (false, cache)
  else if block_size_invalid block params then Ok (false, cache)
  else if negb (CheckMatMulPreHashGate block params block_height) then Ok (false, cache)
  else
    '(A_prime, B_prime, sigma, cache) ← perturbed_operands block params cache;
    transcript ← CanonicalMatMul A_prime B_prime (nMatMulTranscriptBlockSize params) sigma;
    Ok (bool_decide (transcript_hash transcript = h_matmul_digest block), cache).

(** ** Payloads *)
Definition MATMUL_V2_ABS_MAX_DIM : Z := 2048.
Definition MATMUL_V2_MAX_PAYLOAD_WORDS : Z := MATMUL_V2_ABS_MAX_DIM * MATMUL_V2_ABS_MAX_DIM.

Definition HasMatMulV2Payload (block : CBlock) : bool :=
  negb (bool_decide (matrix_a_data block = [])) || negb (bool_decide (matrix_b_data block = [])).

(** The square payload a block may carry, in words. *)
Definition payload_words (block : CBlock) (params : Params) : option Z :=
  let n := h_matmul_dim (header block) in
  if n =? 0 then None
  else if n <? nMatMulMinDimension params then None
  else if nMatMulMaxDimension params <? n then None
  else if (2 ^ 64 - 1) / n <? n then None
  else if MATMUL_V2_MAX_PAYLOAD_WORDS <? u64 (n * n) then None
  else Some (u64 (n * n)).

Definition IsMatMulV2PayloadSizeValid (block : CBlock) (params : Params) : bool :=
  match payload_words block params with
  | None => false
  | Some expected_words =>
      (zlen (matrix_a_data block) =? zlen (matrix_b_data block)) && (zlen (matrix_a_data block) =? expected_words)
  end.

Definition HasMatMulFreivaldsPayload (block : CBlock) : bool := negb (bool_decide (matrix_c_data block = [])).

Definition IsMatMulFreivaldsPayloadSizeValid (block : CBlock) (params : Params) : bool :=
  match payload_words block params with
  | None => false
  | Some expected_words => zlen (matrix_c_data block) =? expected_words
  end.

Definition ShouldIncludeMatMulFreivaldsPayloadForMining (block_height : Z) (params : Params) : bool :=
  if IsMatMulLTSealAsPoWActive params block_height then false
  else if IsMatMulRCCoupledActive params block_height || IsMatMulRCActive params block_height then false
  else if IsMatMulV4Active params block_height then true
  else if negb (fMatMulFreivaldsEnabled params) then false
  else if IsMatMulProductPayloadRequired params block_height then true
  else IsMatMulFreivaldsBindingActive params block_height.

(** The loop that copies the payload [data] into an [n] x [n] matrix and
    rejects a word that is not a canonical field element. *)
Definition read_payload (n : Z) (data : list Z) : result (option Matrix) :=
  for_range 0 n (λ row st, for_range 0 n (λ col st,
    match st with
    | None => Ok None
    | Some C =>
        v ← vget data (row * n + col);
        if MODULUS <=? v then Ok None else C ← at_set C row col v; Ok (Some C)
    end) st) (Some (Matrix_new n n)).

(** The same for the pair of a version-2 payload, with its bounds check. *)
Definition read_payload_pair (n : Z) (a b : list Z) : result (option (Matrix * Matrix)) :=
  for_range 0 n (λ row st, for_range 0 n (λ col st,
    match st with
    | None => Ok None
    | Some (A, B) =>
        let idx := row * n + col in
        if (zlen a <=? idx) || (zlen b <=? idx) then Ok None
        else
          x ← vget a idx;
          y ← vget b idx;
          if (MODULUS <=? x) || (MODULUS <=? y) then Ok None
          else A ← at_set A row col x; B ← at_set B row col y; Ok (Some (A, B))
    end) st) (Some (Matrix_new n n, Matrix_new n n)).

Definition CheckMatMulProofOfWork_Phase2WithPayload `{Platform} (block : CBlock) (params : Params) (block_height : Z) :
    result bool :=
  let hdr := header block in
  if negb (CheckMatMulProofOfWork_Phase1 hdr params) then Ok false
  else if negb (IsMatMulV2PayloadSizeValid block params) then Ok false
  else if h_matmul_dim hdr <? nMatMulMinDimension params then Ok false
  else if nMatMulMaxDimension params <? h_matmul_dim hdr then Ok false
  else if rank_invalid hdr params then Ok false
  else if block_size_invalid hdr params then Ok false
  else if negb (CheckMatMulPreHashGate hdr params block_height) then Ok false
  else
    let n := h_matmul_dim hdr in
    AB ← read_payload_pair n (matrix_a_data block) (matrix_b_data block);
    match AB with
    | None => Ok false
    | Some (A, B) =>
        let sigma := DeriveSigma hdr in
        np ← Generate sigma n (nMatMulNoiseRank params);
        E ← Matrix_mul (E_L np) (E_R np);
        A_prime ← Matrix_add A E;
        F ← Matrix_mul (F_L np) (F_R np);
        B_prime ← Matrix_add B F;
        transcript ← CanonicalMatMul A_prime B_prime (nMatMulTranscriptBlockSize params) sigma;
        Ok (bool_decide (transcript_hash transcript = h_matmul_digest hdr))
    end.

Definition CheckMatMulProofOfWork_Freivalds `{Platform} (block : CBlock) (params : Params) (block_height : Z)
    (cache : list FromSeedCacheEntry) : result (bool * list FromSeedCacheEntry) :=
  let hdr := header block in
  if negb (fMatMulFreivaldsEnabled params) then Ok (false, cache)
  else if negb (CheckMatMulProofOfWork_Phase1 hdr params) then Ok (false, cache)
  else if negb (IsMatMulFreivaldsPayloadSizeValid block params) then Ok (false, cache)
  else if nMatMulFreivaldsRounds params =? 0 then Ok (false, cache)
  else if rank_invalid hdr params then Ok (false, cache)
  else if negb (CheckMatMulPreHashGate hdr params block_height) then Ok (false, cache)
  else
    '(A_prime, B_prime, sigma, cache) ← perturbed_operands hdr params cache;
    C ← read_payload (h_matmul_dim hdr) (matrix_c_data block);
    match C with
    | None => Ok (false, cache)
    | Some C_prime =>
        fv_result ← freivalds.Verify A_prime B_prime C_prime sigma (nMatMulFreivaldsRounds params);
        if negb (passed fv_result) then Ok (false, cache)
        else if IsMatMulProductDigestActive params block_height then
          expected_digest ← ComputeProductCommittedDigest C_prime (nMatMulTranscriptBlockSize params) sigma;
          Ok (bool_decide (expected_digest = h_matmul_digest hdr), cache)
        else if IsMatMulFreivaldsBindingActive params block_height || HasMatMulFreivaldsPayload block then
          CheckMatMulProofOfWork_Phase2 hdr params block_height cache
        else Ok (true, cache)
    end.

Definition CheckMatMulProofOfWork_ProductCommitted `{Platform} (block : CBlock) (params : Params) (block_height : Z)
    (cache : list FromSeedCacheEntry) : result (bool * list FromSeedCacheEntry) :=
  let hdr := header block in
  if negb (fMatMulFreivaldsEnabled params) then Ok (false, cache)
  else if negb (IsMatMulProductDigestActive params block_height) then Ok (false, cache)
  else if negb (CheckMatMulProofOfWork_Phase1 hdr params) then Ok (false, cache)
  else if negb (IsMatMulFreivaldsPayloadSizeValid block params) then Ok (false, cache)
  else if nMatMulFreivaldsRounds params =? 0 then Ok (false, cache)
  else if rank_invalid hdr params then Ok (false, cache)
  else if negb (CheckMatMulPreHashGate hdr params block_height) then Ok (false, cache)
  else
    '(A_prime, B_prime, sigma, cache) ← perturbed_operands hdr params cache;
    C ← read_payload (h_matmul_dim hdr) (matrix_c_data block);
    match C with
    | None => Ok (false, cache)
    | Some C_prime =>
        expected_digest ← ComputeProductCommittedDigest C_prime (nMatMulTranscriptBlockSize params) sigma;
        if negb (bool_decide (expected_digest = h_matmul_digest hdr)) then Ok (false, cache)
        else
          fv_result ← freivalds.Verify A_prime B_prime C_prime sigma (nMatMulFreivaldsRounds params);
          Ok (passed fv_result, cache)
    end.

(** ** The payload a miner attaches *)
Definition SetFreivaldsPayloadFromProduct (C_prime : Matrix) : result (list Z) :=
  let rows := m_rows C_prime in
  let cols := m_cols C_prime in
  if (rows =? 0) || negb (rows =? cols) then Ok []
  else
    for_range 0 rows (λ row out, for_range 0 cols (λ col out,
      v ← at_ C_prime row col; vset out (row * cols + col) v) out) (replicate (Z.to_nat (rows * cols)) 0).

Definition set_c_data (block : CBlock) (c : list Z) : CBlock :=
  mkBlock (header block) (matrix_a_data block) (matrix_b_data block) c.

Definition PopulateFreivaldsPayload `{Platform} (block : CBlock) (params : Params) (cache : list FromSeedCacheEntry) :
    result (CBlock * list FromSeedCacheEntry) :=
  let hdr := header block in
  if negb (fMatMulFreivaldsEnabled params) then Ok (block, cache)
  else if (h_matmul_dim hdr =? 0) || IsNull (h_seed_a hdr) || IsNull (h_seed_b hdr) then Ok (block, cache)
  else if rank_invalid hdr params then Ok (block, cache)
  else
    '(A_prime, B_prime, _, cache) ← perturbed_operands hdr params cache;
    C_prime ← MultiplyBlocked A_prime B_prime (Z.max 1 (nMatMulTranscriptBlockSize params));
    c ← SetFreivaldsPayloadFromProduct C_prime;
    Ok (set_c_data block c, cache).

End header_pow.
Import header_pow.

(** ** Rebuilding the operands *)

(** Header and parameters have their C++ types. *)
Record pow_typed (h : CBlockHeader) (params : Params) : Prop := mkPowTyped {
  pt_header : header_typed h;
  pt_limit : is_uint256 (powLimit params);
  pt_block : 0 ≤ nMatMulTranscriptBlockSize params < 2 ^ 32;
  pt_rank : 0 ≤ nMatMulNoiseRank params < 2 ^ 32;
  pt_rounds : 0 ≤ nMatMulFreivaldsRounds params < 2 ^ 32;
  pt_discount : 0 ≤ nMatMulHeaderPoWDiscountBits params < 2 ^ 32;
  pt_epsilon : 0 ≤ nMatMulPreHashEpsilonBits params < 2 ^ 32 ∧ 0 ≤ nMatMulPreHashEpsilonBitsUpgrade params < 2 ^ 32
}.

Definition operand_A (h : CBlockHeader) (params : Params) : Matrix :=
  let np := noise_pair (DeriveSigma h) (h_matmul_dim h) (nMatMulNoiseRank params) in
  perturb (seed_matrix (h_seed_a h) (h_matmul_dim h)) (E_L np) (E_R np).
Definition operand_B (h : CBlockHeader) (params : Params) : Matrix :=
  let np := noise_pair (DeriveSigma h) (h_matmul_dim h) (nMatMulNoiseRank params) in
  perturb (seed_matrix (h_seed_b h) (h_matmul_dim h)) (F_L np) (F_R np).

Lemma SharedFromSeed_ok seed n cache :
  cache_ok cache → 0 ≤ n → n * n < 2 ^ 32 →
  ∃ cache', SharedFromSeed seed n cache = Ok (seed_matrix seed n, cache') ∧ cache_ok cache'.
Proof.
  intros Hc Hn Hs. pose proof (FromSeed_ok seed n Hn Hs) as HF. unfold SharedFromSeed.
  destruct (shared_lookup_ok seed n cache Hc) as [Hc' Hm]. destruct (shared_lookup seed n cache) as [[m|] c'] eqn:E; cbn [fst snd] in *.
  - specialize (Hm m eq_refl). assert (m = seed_matrix seed n) as -> by congruence. eauto.
  - rewrite HF, bind_Ok. destruct (shared_publish_ok seed n (seed_matrix seed n) c' Hc' HF) as [H1 H2].
    destruct (shared_publish seed n (seed_matrix seed n) c') as [m c'']. cbn [fst snd] in *. subst m. eauto.
Qed.

(** Adding the low-rank noise to a clean operand. *)
Lemma perturb_ok `{Platform} A L R n r :
  wf A → m_rows A = n → m_cols A = n → wf L → m_rows L = n → m_cols L = r → wf R → m_rows R = r → m_cols R = n →
  r < 2 ^ 32 - 4 → (E ← Matrix_mul L R; Matrix_add A E) = Ok (perturb A L R).
Proof.
  intros HA A1 A2 HL L1 L2 HR R1 R2 Hr. rewrite (Matrix_mul_ok L), bind_Ok by (assumption || lia).
  rewrite (Matrix_add_ok A); [reflexivity|assumption|auto with btx|cbn [m_rows m_cols mmul mat_of]; lia..].
Qed.

Lemma perturbed_operands_ok `{Platform} h params cache :
  cache_ok cache → 0 ≤ h_matmul_dim h < 2 ^ 16 → 0 ≤ nMatMulNoiseRank params ≤ h_matmul_dim h →
  ∃ cache', perturbed_operands h params cache = Ok (operand_A h params, operand_B h params, DeriveSigma h, cache') ∧ cache_ok cache'.
Proof.
  intros Hc Hn Hr. unfold perturbed_operands, operand_A, operand_B. cbv zeta. set (n := h_matmul_dim h) in *.
  destruct (SharedFromSeed_ok (h_seed_a h) n cache Hc ltac:(lia) ltac:(nia)) as (c1 & -> & Hc1). rewrite bind_Ok.
  destruct (SharedFromSeed_ok (h_seed_b h) n c1 Hc1 ltac:(lia) ltac:(nia)) as (c2 & -> & Hc2). rewrite bind_Ok.
  rewrite Generate_ok, bind_Ok by nia. set (np := noise_pair _ _ _).
  destruct (noise_pair_ok (DeriveSigma h) n (nMatMulNoiseRank params)) as [(He & E1 & E2) (Hf & F1 & F2) (Hg & G1 & G2) (Hk & K1 & K2)]; [lia..|].
  fold np in He, E1, E2, Hf, F1, F2, Hg, G1, G2, Hk, K1, K2.
  pose proof (perturb_ok (seed_matrix (h_seed_a h) n) (E_L np) (E_R np) n (nMatMulNoiseRank params)
    (wf_seed_matrix _ n ltac:(lia)) eq_refl eq_refl He E1 E2 Hf F1 F2 ltac:(lia)) as HA.
  pose proof (perturb_ok (seed_matrix (h_seed_b h) n) (F_L np) (F_R np) n (nMatMulNoiseRank params)
    (wf_seed_matrix _ n ltac:(lia)) eq_refl eq_refl Hg G1 G2 Hk K1 K2 ltac:(lia)) as HB.
  apply bind_Ok_inv in HA as (E & -> & HA). apply bind_Ok_inv in HB as (F & HF & HB).
  rewrite bind_Ok, HA, bind_Ok, HF, bind_Ok, HB, bind_Ok. eauto.
Qed.

(** ** The checks as predicates *)
Definition is_null (l : list Z) : Prop := Forall (λ x, x = 0) l.

Lemma IsNull_spec l : IsNull l = true ↔ is_null l.
Proof.
  unfold IsNull, is_null. rewrite forallb_forall, list.Forall_forall. setoid_rewrite list_elem_of_In.
  split; intros H x Hx; specialize (H x Hx); [by apply Z.eqb_eq in H|by apply Z.eqb_eq].
Qed.

(** The network accepts the dimension, as a version-4 or as a legacy one. *)
Definition dims_valid (h : CBlockHeader) (params : Params) : Prop :=
  let dim := h_matmul_dim h in
  if decide (nMatMulV4Height params ≠ INT32_MAX ∧ dim = nMatMulV4Dimension params)
  then nMatMulV4TranscriptBlockSize params ≠ 0 ∧ dim mod nMatMulV4TranscriptBlockSize params = 0
  else nMatMulTranscriptBlockSize params ≠ 0 ∧ dim = nMatMulDimension params ∧
       nMatMulMinDimension params ≤ dim ≤ nMatMulMaxDimension params ∧
       dim mod nMatMulTranscriptBlockSize params = 0 ∧ nMatMulNoiseRank params ≠ 0 ∧ nMatMulNoiseRank params ≤ dim.

(** The header claims enough work: its bits are usable and its digest meets
    the target they denote. *)
Definition claims_work (h : CBlockHeader) (params : Params) : Prop :=
  bits_valid (h_nBits h) (le_word (powLimit params)) ∧ le_word (h_matmul_digest h) ≤ compact_value (h_nBits h).

Definition phase1_valid (h : CBlockHeader) (params : Params) : Prop :=
  if decide (is_null (h_hashPrevBlock h)) then GetHash h = hashGenesisBlock params
  else dims_valid h params ∧ ¬ is_null (h_seed_a h) ∧ ¬ is_null (h_seed_b h) ∧ claims_work h params.

#[local] Ltac bool_spec :=
  repeat match goal with
  | |- context [Z.eqb ?a ?b] => destruct (Z.eqb_spec a b)
  | |- context [Z.ltb ?a ?b] => destruct (Z.ltb_spec a b)
  end; cbn [negb orb andb]; try (split; [done|lia]); try (split; [lia|done]).

Lemma dims_spec h params :
  (if negb (nMatMulV4Height params =? INT32_MAX) && (h_matmul_dim h =? nMatMulV4Dimension params) then
     if nMatMulV4TranscriptBlockSize params =? 0 then false
     else h_matmul_dim h mod nMatMulV4TranscriptBlockSize params =? 0
   else
     if nMatMulTranscriptBlockSize params =? 0 then false
     else if negb (h_matmul_dim h =? nMatMulDimension params) then false
     else if h_matmul_dim h <? nMatMulMinDimension params then false
     else if nMatMulMaxDimension params <? h_matmul_dim h then false
     else if negb (h_matmul_dim h mod nMatMulTranscriptBlockSize params =? 0) then false
     else negb ((nMatMulNoiseRank params =? 0) || (h_matmul_dim h <? nMatMulNoiseRank params))) = true
  ↔ dims_valid h params.
Proof.
  unfold dims_valid. cbv zeta.
  destruct (decide _) as [[H1 H2]|Hn].
  - rewrite (proj2 (Z.eqb_neq _ _) H1), (proj2 (Z.eqb_eq _ _) H2). cbn [negb andb]. bool_spec.
  - assert (negb (nMatMulV4Height params =? INT32_MAX) && (h_matmul_dim h =? nMatMulV4Dimension params) = false) as ->.
    { destruct (Z.eqb_spec (nMatMulV4Height params) INT32_MAX), (Z.eqb_spec (h_matmul_dim h) (nMatMulV4Dimension params));
        try done. tauto. }
    generalize (h_matmul_dim h mod nMatMulTranscriptBlockSize params). intros m. bool_spec.
Qed.

Lemma claims_work_spec h params :
  pow_typed h params →
  match DeriveTarget (h_nBits h) (powLimit params) with
  | None => false
  | Some bnTarget => negb (gtb (UintToArith256 (h_matmul_digest h)) bnTarget)
  end = true ↔ claims_work h params.
Proof.
  intros [Hh Hl _ _ _ _ _]. fold (CheckProofOfWorkImpl (h_matmul_digest h) (h_nBits h) (powLimit params)).
  rewrite CheckProofOfWorkImpl_ok; [apply bool_decide_eq_true|apply Hh|apply Hh|exact Hl].
Qed.

Lemma Phase1_ok h params :
  pow_typed h params → CheckMatMulProofOfWork_Phase1 h params = true ↔ phase1_valid h params.
Proof.
  intros Ht. unfold CheckMatMulProofOfWork_Phase1, phase1_valid.
  destruct (decide (is_null (h_hashPrevBlock h))) as [Hn|Hn].
  { rewrite (proj2 (IsNull_spec _) Hn). apply bool_decide_eq_true. }
  destruct (IsNull (h_hashPrevBlock h)) eqn:E; [by apply IsNull_spec in E|]. cbv zeta.
  rewrite <- dims_spec, <- claims_work_spec, <- !IsNull_spec by done.
  generalize (match DeriveTarget (h_nBits h) (powLimit params) with
    | Some bnTarget => negb (gtb (UintToArith256 (h_matmul_digest h)) bnTarget) | None => false end). intros w.
  match goal with |- context [negb ?d] => generalize d end. intros d.
  destruct d, (IsNull (h_seed_a h)), (IsNull (h_seed_b h)), w; cbn [negb orb]; clear; intuition (discriminate || auto).
Qed.

(** Sigma passes the pre-hash lottery of the height. *)
Definition prehash_valid (h : CBlockHeader) (params : Params) (height : Z) : Prop :=
  let eps := GetMatMulPreHashEpsilonBitsForHeight params height in
  eps = 0 ∨ (bits_valid (h_nBits h) (le_word (powLimit params)) ∧
             le_word (DeriveSigma h) ≤ compact_value (h_nBits h) * 2 ^ eps).

Lemma DeriveSigma_uint256 h : is_uint256 (DeriveSigma h).
Proof. rewrite DeriveSigma_ok. unfold sha256d. split; [apply sha256_length|apply sha256_is_byte]. Qed.

Lemma le_word_uint256 l : is_uint256 l → 0 ≤ le_word l ≤ MAX.
Proof.
  intros [Hl Hb]. pose proof (le_word_bound l Hb) as H. unfold zlen in H. rewrite Hl in H.
  unfold MAX. change (8 * Z.of_nat 32) with 256 in H. lia.
Qed.

Lemma epsilon_typed h params height :
  pow_typed h params → 0 ≤ GetMatMulPreHashEpsilonBitsForHeight params height < 2 ^ 32.
Proof. intros [_ _ _ _ _ _ [H1 H2]]. unfold GetMatMulPreHashEpsilonBitsForHeight. by destruct (IsMatMulPreHashEpsilonBitsUpgradeActive _ _). Qed.

Lemma PreHashGate_ok h params height :
  pow_typed h params → CheckMatMulPreHashGate h params height = true ↔ prehash_valid h params height.
Proof.
  intros Ht. pose proof (epsilon_typed _ _ height Ht) as He. destruct Ht as [Hh Hl _ _ _ _ _].
  unfold CheckMatMulPreHashGate, prehash_valid. cbv zeta. set (eps := GetMatMulPreHashEpsilonBitsForHeight _ _) in *.
  destruct (Z.eqb_spec eps 0) as [E|E]; [tauto|]. pose proof (DeriveTarget_ok (h_nBits h) (powLimit params) (ht_bits _ Hh) Hl) as Hd.
  destruct (decide _) as [Hv|Hv]; [|rewrite Hd; split; [done|tauto]].
  destruct Hd as (t & -> & Hat & Ev). destruct (SaturatingLeftShift256_ok t eps Hat ltac:(lia)) as [Hs Es].
  destruct (UintToArith256_val _ (DeriveSigma_uint256 h)) as [Hu Eu].
  destruct Hs as [Hsl Hsd], Hu as [Hul Hud]. rewrite leb_val by (assumption || congruence). rewrite Eu, Es, Ev, Z.leb_le.
  pose proof (le_word_uint256 _ (DeriveSigma_uint256 h)). split; [intros; right; split; [done|lia]|].
  intros [E0|[_ Hle]]; [contradiction|]. apply Z.min_glb; [exact Hle|]. apply (le_word_uint256 _ (DeriveSigma_uint256 h)).
Qed.

(** ** Transcript verification *)
Definition transcript_digest (h : CBlockHeader) (params : Params) : list Z :=
  sha256d (word_bytes (transcript_words (operand_A h params) (operand_B h params) (nMatMulTranscriptBlockSize params) (DeriveSigma h))).

(** Rank and block size fit the dimension. *)
Definition shape_valid (h : CBlockHeader) (params : Params) : Prop :=
  0 < nMatMulNoiseRank params ≤ h_matmul_dim h ∧
  0 < nMatMulTranscriptBlockSize params ∧ h_matmul_dim h mod nMatMulTranscriptBlockSize params = 0.

Lemma operand_facts h params :
  0 ≤ h_matmul_dim h < 2 ^ 16 →
  wf (operand_A h params) ∧ m_rows (operand_A h params) = h_matmul_dim h ∧ m_cols (operand_A h params) = h_matmul_dim h ∧
  wf (operand_B h params) ∧ m_rows (operand_B h params) = h_matmul_dim h ∧ m_cols (operand_B h params) = h_matmul_dim h.
Proof.
  intros Hn. assert (0 ≤ h_matmul_dim h < 2 ^ 32) by lia.
  split_and!; try reflexivity; apply wf_madd, wf_seed_matrix; assumption.
Qed.

Lemma operands_blocked h params :
  0 ≤ h_matmul_dim h < 2 ^ 16 → shape_valid h params →
  blocked (operand_A h params) (operand_B h params) (nMatMulTranscriptBlockSize params).
Proof.
  intros Hn ([Hr0 Hr] & Hb & Hm). destruct (operand_facts h params Hn) as (HA & A1 & A2 & HB & B1 & B2).
  assert (0 < h_matmul_dim h) as Hpos by lia. pose proof (block_le_dim _ _ Hpos Hb Hm). split; try assumption; rewrite ?A1, ?A2, ?B1, ?B2; try done; try lia; nia.
Qed.

Lemma CanonicalMatMul_header `{Platform} h params :
  0 ≤ h_matmul_dim h < 2 ^ 16 → shape_valid h params →
  CanonicalMatMul (operand_A h params) (operand_B h params) (nMatMulTranscriptBlockSize params) (DeriveSigma h)
  = Ok (mkCanonical (mmul (operand_A h params) (operand_B h params)) (transcript_digest h params)).
Proof. intros Hn Hs. apply CanonicalMatMul_ok, operands_blocked; assumption. Qed.

(** The condition a block must meet at a height that verifies transcripts. *)
Definition phase2_valid (h : CBlockHeader) (params : Params) (height : Z) : Prop :=
  phase1_valid h params ∧ shape_valid h params ∧ prehash_valid h params height ∧
  h_matmul_digest h = transcript_digest h params.

#[local] Opaque transcript_digest operand_A operand_B DeriveSigma.

Lemma rank_invalid_spec h params :
  pow_typed h params → rank_invalid h params = false ↔ 0 < nMatMulNoiseRank params ≤ h_matmul_dim h.
Proof.
  intros [_ _ _ Hr _ _ _]. unfold rank_invalid. rewrite orb_false_iff, Z.eqb_neq, Z.ltb_ge. lia.
Qed.

Lemma block_size_invalid_spec h params :
  pow_typed h params → block_size_invalid h params = false ↔
  0 < nMatMulTranscriptBlockSize params ∧ h_matmul_dim h mod nMatMulTranscriptBlockSize params = 0.
Proof.
  intros [_ _ Hb _ _ _ _]. unfold block_size_invalid. rewrite orb_false_iff, Z.eqb_neq, negb_false_iff, Z.eqb_eq. lia.
Qed.

(** A run of a check: it returns, keeps the cache good and decides [P]. *)
Definition decides (m : result (bool * list FromSeedCacheEntry)) (P : Prop) : Prop :=
  ∃ ok cache, m = Ok (ok, cache) ∧ cache_ok cache ∧ (ok = true ↔ P).

Lemma decides_false cache (P : Prop) : cache_ok cache → ¬ P → decides (Ok (false, cache)) P.
Proof. intros Hc HP. exists false, cache. split; [reflexivity|]. split; [assumption|]. split; [discriminate|intros H; contradiction]. Qed.

Lemma Phase2_ok `{Platform} h params height cache :
  pow_typed h params → cache_ok cache →
  decides (CheckMatMulProofOfWork_Phase2 h params height cache) (phase2_valid h params height).
Proof.
  intros Ht Hc. unfold CheckMatMulProofOfWork_Phase2. pose proof (ht_dim _ (pt_header _ _ Ht)) as Hdim.
  destruct (CheckMatMulProofOfWork_Phase1 h params) eqn:E1; cbn [negb].
  2: { apply decides_false; [assumption|]. intros (H1 & _). apply (Phase1_ok _ _ Ht) in H1. congruence. }
  apply (Phase1_ok _ _ Ht) in E1. destruct (rank_invalid h params) eqn:E2.
  { apply decides_false; [assumption|]. intros (_ & (H1 & _) & _). apply (rank_invalid_spec _ _ Ht) in H1. congruence. }
  apply (rank_invalid_spec _ _ Ht) in E2. destruct (block_size_invalid h params) eqn:E3.
  { apply decides_false; [assumption|]. intros (_ & (_ & H1) & _). apply (block_size_invalid_spec _ _ Ht) in H1. congruence. }
  apply (block_size_invalid_spec _ _ Ht) in E3. destruct (CheckMatMulPreHashGate h params height) eqn:E4; cbn [negb].
  2: { apply decides_false; [assumption|]. intros (_ & _ & H1 & _). apply (PreHashGate_ok _ _ _ Ht) in H1. congruence. }
  apply (PreHashGate_ok _ _ _ Ht) in E4.
  destruct (perturbed_operands_ok h params cache Hc Hdim ltac:(lia)) as (cache' & -> & Hc'). rewrite bind_Ok.
  rewrite CanonicalMatMul_header, bind_Ok by (try assumption; split; assumption). cbn [transcript_hash].
  eexists _, _. split; [reflexivity|]. split; [assumption|]. rewrite bool_decide_eq_true. split.
  - intros E. split; [assumption|]. split; [split; assumption|]. split; [assumption|]. symmetry. exact E.
  - intros (_ & _ & _ & E). symmetry. exact E.
Qed.

(** This is the verdict of [matmul_pow::Verify] on the same data. *)
Definition state_of (h : CBlockHeader) : PowState :=
  mkState (h_nVersion h) (h_hashPrevBlock h) (h_hashMerkleRoot h) (h_nTime h) (h_nBits h) (h_seed_a h) (h_seed_b h)
    (h_nNonce64 h) (h_matmul_dim h) (h_matmul_digest h).
Definition config_of (h : CBlockHeader) (params : Params) (target : list Z) : PowConfig :=
  mkConfig (h_matmul_dim h) (nMatMulTranscriptBlockSize params) (nMatMulNoiseRank params) target.

#[local] Transparent transcript_digest operand_A operand_B.
Lemma pow_hash_header h params target : pow_hash (state_of h) (config_of h params target) = transcript_digest h params.
Proof.
  assert (DeriveSigmaFromState (state_of h) = DeriveSigma h) as E by (unfold DeriveSigmaFromState; by rewrite !DeriveSigma_ok).
  unfold pow_hash, transcript_digest, operand_A, operand_B. cbv zeta. rewrite E. reflexivity.
Qed.
#[local] Opaque transcript_digest operand_A operand_B.

Lemma phase2_valid_pow h params height target :
  is_arith target → val target = compact_value (h_nBits h) → ¬ is_null (h_hashPrevBlock h) →
  phase2_valid h params height → valid_pow (state_of h) (config_of h params target).
Proof.
  intros Hat Ev Hn (H1 & ([Hr0 Hr] & Hb & Hm) & _ & E). unfold phase1_valid in H1. rewrite decide_False in H1 by assumption.
  destruct H1 as (_ & _ & _ & _ & Hw). split; [|split; [reflexivity|split]].
  - unfold IsValidConfig. cbn [cfg_n cfg_b cfg_r config_of]. rewrite Hm.
    rewrite !(proj2 (Z.eqb_neq _ 0)), (proj2 (Z.ltb_ge _ _) Hr) by lia. reflexivity.
  - unfold meets. cbn [cfg_target config_of ps_digest state_of]. rewrite Ev. exact Hw.
  - rewrite pow_hash_header. exact E.
Qed.

(** ** Payloads *)

(** The matrix after the first [k] words were copied. *)
Definition partial (n : Z) (data : list Z) (k : Z) : Matrix :=
  mkMatrix n n (take (Z.to_nat k) data ++ replicate (Z.to_nat (n * n - k)) 0).

Lemma partial_0 n data : partial n data 0 = Matrix_new n n.
Proof. unfold partial, Matrix_new. by rewrite Z.sub_0_r. Qed.

Lemma partial_dims n data : zlen data = n * n → partial n data (n * n) = mkMatrix n n data.
Proof.
  intros Hl. unfold partial. rewrite Z.sub_diag. cbn [Z.to_nat replicate]. rewrite app_nil_r, take_ge; [reflexivity|].
  unfold zlen in Hl. lia.
Qed.

Lemma partial_step n data k :
  zlen data = n * n → 0 ≤ n → 0 ≤ k < n * n →
  at_set (partial n data k) (k / n) (k mod n) (znth data k) = Ok (partial n data (k + 1)).
Proof.
  intros Hl Hn Hk. destruct (index_split k n n Hk Hn) as (E & Hi & Hj). unfold at_set, partial. cbn [m_rows m_cols m_data].
  rewrite (proj2 (Z.ltb_lt _ _) (proj2 Hi)), (proj2 (Z.ltb_lt _ _) (proj2 Hj)). cbn [assert_]. rewrite !bind_Ok, <- E.
  unfold zlen in Hl. rewrite vset_Ok by (unfold zlen; rewrite length_app, length_take, length_replicate; lia).
  rewrite bind_Ok. do 2 f_equal. rewrite insert_app_r_alt; rewrite length_take; [|lia].
  replace (Z.to_nat k - _)%nat with 0%nat by lia.
  replace (Z.to_nat (n * n - k)) with (S (Z.to_nat (n * n - (k + 1)))) by lia. cbn [replicate].
  replace (Z.to_nat (k + 1)) with (S (Z.to_nat k)) by lia.
  rewrite (take_S_r _ _ (znth data k)), <- app_assoc; [reflexivity|].
  rewrite (znth_lookup data (Z.to_nat k)) by lia. by rewrite Z2Nat.id by lia.
Qed.

Lemma read_payload_ok n data :
  0 ≤ n → zlen data = n * n → Forall (λ x, 0 ≤ x) data →
  ∃ r, read_payload n data = Ok r ∧
       match r with Some C => C = mkMatrix n n data ∧ canon_list data | None => ¬ canon_list data end.
Proof.
  intros Hn Hl Hp. unfold read_payload. rewrite (for_nest (λ row col st, match st with
    | None => Ok None
    | Some C => v ← vget data (row * n + col); if MODULUS <=? v then Ok None else C ← at_set C row col v; Ok (Some C) end)) by done.
  pose (I := λ k (st : option Matrix), match st with
    | Some C => C = partial n data k ∧ ∀ i, 0 ≤ i < k → canonical (znth data i) | None => ¬ canon_list data end).
  match goal with |- context [for_range 0 (n * n) ?f ?s] => destruct (for_range_inv I f 0 (n * n) s) as (st & -> & Hst) end.
  - nia.
  - split; [by rewrite partial_0|lia].
  - intros k [C|] Hk HI; [|by exists None]. destruct HI as [-> Hcan].
    destruct (index_split k n n Hk Hn) as (E & _ & _). rewrite <- E, vget_Ok, bind_Ok by lia.
    assert (0 ≤ znth data k) by (apply (proj1 (Forall_znth _ _) Hp); lia).
    destruct (Z.leb_spec MODULUS (znth data k)) as [Hge|Hlt].
    + exists None. split; [reflexivity|]. intros Hc. apply (canon_znth _ k) in Hc. unfold canonical in Hc. lia.
    + rewrite partial_step, bind_Ok by assumption. eexists. split; [reflexivity|]. split; [reflexivity|].
      intros i Hi. destruct (decide (i = k)) as [->|]; [split; lia|apply Hcan; lia].
  - exists st. split; [reflexivity|]. destruct st as [C|]; [|exact Hst]. destruct Hst as [-> Hcan].
    rewrite partial_dims by assumption. split; [reflexivity|]. apply Forall_znth. rewrite Hl. exact Hcan.
Qed.

Lemma read_payload_pair_ok n a b :
  0 ≤ n → zlen a = n * n → zlen b = n * n → Forall (λ x, 0 ≤ x) a → Forall (λ x, 0 ≤ x) b →
  ∃ r, read_payload_pair n a b = Ok r ∧
       match r with
       | Some (A, B) => A = mkMatrix n n a ∧ B = mkMatrix n n b ∧ canon_list a ∧ canon_list b
       | None => ¬ (canon_list a ∧ canon_list b)
       end.
Proof.
  intros Hn Hla Hlb Hpa Hpb. unfold read_payload_pair. rewrite (for_nest (λ row col st, match st with
    | None => Ok None
    | Some (A, B) => let idx := row * n + col in
        if (zlen a <=? idx) || (zlen b <=? idx) then Ok None
        else x ← vget a idx; y ← vget b idx;
          if (MODULUS <=? x) || (MODULUS <=? y) then Ok None
          else A ← at_set A row col x; B ← at_set B row col y; Ok (Some (A, B)) end)) by done.
  pose (I := λ k (st : option (Matrix * Matrix)), match st with
    | Some (A, B) => A = partial n a k ∧ B = partial n b k ∧
        ∀ i, 0 ≤ i < k → canonical (znth a i) ∧ canonical (znth b i)
    | None => ¬ (canon_list a ∧ canon_list b) end).
  match goal with |- context [for_range 0 (n * n) ?f ?s] => destruct (for_range_inv I f 0 (n * n) s) as (st & -> & Hst) end.
  - nia.
  - split; [by rewrite partial_0|]. split; [by rewrite partial_0|lia].
  - intros k [[A B]|] Hk HI; [|by exists None]. destruct HI as (-> & -> & Hcan).
    destruct (index_split k n n Hk Hn) as (E & _ & _). cbv zeta. rewrite <- E.
    rewrite (proj2 (Z.leb_gt (zlen a) k)), (proj2 (Z.leb_gt (zlen b) k)) by lia. cbn [orb].
    rewrite (vget_Ok a), bind_Ok, (vget_Ok b), bind_Ok by lia.
    assert (0 ≤ znth a k ∧ 0 ≤ znth b k) as [Hka Hkb].
    { split; [apply (proj1 (Forall_znth _ _) Hpa)|apply (proj1 (Forall_znth _ _) Hpb)]; lia. }
    destruct (Z.leb_spec MODULUS (znth a k)) as [Hge|Hlt]; cbn [orb];
      [|destruct (Z.leb_spec MODULUS (znth b k)) as [Hge'|Hlt']].
    + exists None. split; [reflexivity|]. intros [Hc _]. apply (canon_znth _ k) in Hc. unfold canonical in Hc. lia.
    + exists None. split; [reflexivity|]. intros [_ Hc]. apply (canon_znth _ k) in Hc. unfold canonical in Hc. lia.
    + rewrite (partial_step n a), bind_Ok, (partial_step n b), bind_Ok by assumption.
      eexists. split; [reflexivity|]. split; [reflexivity|]. split; [reflexivity|].
      intros i Hi. destruct (decide (i = k)) as [->|]; [split; split; lia|apply Hcan; lia].
  - exists st. split; [reflexivity|]. destruct st as [[A B]|]; [|exact Hst]. destruct Hst as (-> & -> & Hcan).
    rewrite !partial_dims by assumption. split; [reflexivity|]. split; [reflexivity|].
    split; apply Forall_znth; [rewrite Hla|rewrite Hlb]; intros i Hi; by apply Hcan.
Qed.

(** A payload of one word per entry, at a dimension the network allows. *)
Definition payload_fits (block : CBlock) (params : Params) (data : list Z) : Prop :=
  let n := h_matmul_dim (header block) in
  0 < n ≤ MATMUL_V2_ABS_MAX_DIM ∧ nMatMulMinDimension params ≤ n ≤ nMatMulMaxDimension params ∧ zlen data = n * n.

Lemma payload_words_ok block params :
  0 ≤ h_matmul_dim (header block) < 2 ^ 16 →
  match payload_words block params with
  | Some w => w = h_matmul_dim (header block) * h_matmul_dim (header block) ∧ 0 < h_matmul_dim (header block) ≤ MATMUL_V2_ABS_MAX_DIM ∧
              nMatMulMinDimension params ≤ h_matmul_dim (header block) ≤ nMatMulMaxDimension params
  | None => ∀ data, ¬ payload_fits block params data
  end.
Proof.
  intros Hn. unfold payload_words, payload_fits, MATMUL_V2_MAX_PAYLOAD_WORDS, MATMUL_V2_ABS_MAX_DIM. cbv zeta.
  set (n := h_matmul_dim (header block)) in *.
  destruct (Z.eqb_spec n 0); [lia|]. destruct (Z.ltb_spec n (nMatMulMinDimension params)); [lia|].
  destruct (Z.ltb_spec (nMatMulMaxDimension params) n); [lia|].
  assert (n ≤ (2 ^ 64 - 1) / n) by (apply Z.div_le_lower_bound; nia).
  rewrite (proj2 (Z.ltb_ge _ _)) by assumption. rewrite u64_small by nia.
  destruct (Z.ltb_spec (2048 * 2048) (n * n)); [intros data; nia|]. split; [reflexivity|]. nia.
Qed.

Lemma FreivaldsPayloadSize_ok block params :
  0 ≤ h_matmul_dim (header block) < 2 ^ 16 →
  IsMatMulFreivaldsPayloadSizeValid block params = true ↔ payload_fits block params (matrix_c_data block).
Proof.
  intros Hn. pose proof (payload_words_ok block params Hn) as Hw. unfold IsMatMulFreivaldsPayloadSizeValid.
  destruct (payload_words block params) as [w|].
  - destruct Hw as (-> & H1 & H2). rewrite Z.eqb_eq. unfold payload_fits. tauto.
  - split; [discriminate|]. intros Hf. by apply Hw in Hf.
Qed.

Lemma V2PayloadSize_ok block params :
  0 ≤ h_matmul_dim (header block) < 2 ^ 16 →
  IsMatMulV2PayloadSizeValid block params = true ↔
  payload_fits block params (matrix_a_data block) ∧ payload_fits block params (matrix_b_data block).
Proof.
  intros Hn. pose proof (payload_words_ok block params Hn) as Hw. unfold IsMatMulV2PayloadSizeValid.
  destruct (payload_words block params) as [w|].
  - destruct Hw as (-> & H1 & H2). rewrite andb_true_iff, !Z.eqb_eq. unfold payload_fits.
    split; [intros [-> ->]; tauto|]. intros [(_ & _ & ->) (_ & _ & ->)]. tauto.
  - split; [discriminate|]. intros [Hf _]. by apply Hw in Hf.
Qed.

(** ** Product verification *)

(** The claimed product. *)
Definition claimed (block : CBlock) : Matrix :=
  mkMatrix (h_matmul_dim (header block)) (h_matmul_dim (header block)) (matrix_c_data block).

(** Every Freivalds round on the claimed product holds. *)
Definition rounds_hold (block : CBlock) (params : Params) : Prop :=
  let A := operand_A (header block) params in
  let B := operand_B (header block) params in
  ∀ k, 0 ≤ k < nMatMulFreivaldsRounds params →
    round_holds A B (claimed block)
      (round_vector A B (claimed block) (DeriveChallengeSeed A B (claimed block) (DeriveSigma (header block))) k).

Definition committed (block : CBlock) (params : Params) : list Z :=
  let sigma := DeriveSigma (header block) in
  let b := nMatMulTranscriptBlockSize params in
  committed_digest (product_words (claimed block) b sigma) sigma (h_matmul_dim (header block)) b.

(** The part the two product checks share. *)
Definition product_gates (block : CBlock) (params : Params) (height : Z) : Prop :=
  fMatMulFreivaldsEnabled params = true ∧ phase1_valid (header block) params ∧
  payload_fits block params (matrix_c_data block) ∧ nMatMulFreivaldsRounds params ≠ 0 ∧
  0 < nMatMulNoiseRank params ≤ h_matmul_dim (header block) ∧ prehash_valid (header block) params height ∧
  canon_list (matrix_c_data block) ∧ rounds_hold block params.

Definition product_valid (block : CBlock) (params : Params) (height : Z) : Prop :=
  IsMatMulProductDigestActive params height = true ∧ product_gates block params height ∧
  h_matmul_digest (header block) = committed block params.

(** A block as the node holds it, at a dimension the block size divides. *)
Record block_typed (block : CBlock) (params : Params) : Prop := mkBlockTyped {
  bt_pow : pow_typed (header block) params;
  bt_words : Forall (λ x, 0 ≤ x < 2 ^ 32) (matrix_a_data block) ∧ Forall (λ x, 0 ≤ x < 2 ^ 32) (matrix_b_data block) ∧
             Forall (λ x, 0 ≤ x < 2 ^ 32) (matrix_c_data block);
  bt_blocks : 0 < nMatMulTranscriptBlockSize params ∧ h_matmul_dim (header block) mod nMatMulTranscriptBlockSize params = 0
}.

Lemma words_nonneg l : Forall (λ x, 0 ≤ x < 2 ^ 32) l → Forall (λ x, 0 ≤ x) l.
Proof. apply Forall_impl. lia. Qed.

Section product.
Context `{Platform} (block : CBlock) (params : Params) (height : Z) (cache : list FromSeedCacheEntry).
Hypothesis (Ht : block_typed block params) (Hc : cache_ok cache).

Let hdr := header block.
Let A := operand_A hdr params.
Let B := operand_B hdr params.

Lemma dim_typed : 0 ≤ h_matmul_dim hdr < 2 ^ 16.
Proof. apply Ht. Qed.

Lemma claimed_facts :
  payload_fits block params (matrix_c_data block) → canon_list (matrix_c_data block) →
  0 < nMatMulNoiseRank params ≤ h_matmul_dim hdr →
  conformant A B (claimed block) ∧ square (claimed block) (nMatMulTranscriptBlockSize params).
Proof.
  intros ([Hn0 Hn1] & _ & Hl) Hcan Hr. pose proof dim_typed as Hdim. fold hdr in Hn0, Hn1, Hl.
  destruct (operand_facts hdr params Hdim) as (HA & A1 & A2 & HB & B1 & B2). fold A B in HA, A1, A2, HB, B1, B2.
  assert (wf (claimed block)) as HC by (split; cbn [claimed m_rows m_cols m_data]; fold hdr; (assumption || lia)).
  destruct (bt_blocks _ _ Ht) as [Hb Hm]. fold hdr in Hm. pose proof (block_le_dim _ _ Hn0 Hb Hm).
  split.
  - split; [exact HA|exact HB|exact HC|..]; rewrite ?A1, ?A2, ?B1, ?B2; cbn [claimed m_rows m_cols]; fold hdr; lia.
  - split; [|exact Hn0]. split; [exact HC|exact HC|..]; cbn [claimed m_rows m_cols]; fold hdr;
      [lia|lia|lia|exact Hb|exact Hm|lia|nia].
Qed.

(** The common prefix of the two checks. *)
Lemma operands_and_payload :
  payload_fits block params (matrix_c_data block) → 0 < nMatMulNoiseRank params ≤ h_matmul_dim hdr →
  ∃ cache' r, perturbed_operands hdr params cache = Ok (A, B, DeriveSigma hdr, cache') ∧ cache_ok cache' ∧
    read_payload (h_matmul_dim hdr) (matrix_c_data block) = Ok r ∧
    match r with Some C => C = claimed block ∧ canon_list (matrix_c_data block) | None => ¬ canon_list (matrix_c_data block) end.
Proof.
  intros (Hn & _ & Hl) Hr. destruct (perturbed_operands_ok hdr params cache Hc dim_typed ltac:(lia)) as (c' & E1 & Hc').
  destruct (read_payload_ok (h_matmul_dim hdr) (matrix_c_data block)) as (r & E2 & Hres).
  - apply dim_typed.
  - exact Hl.
  - apply words_nonneg. apply Ht.
  - exists c', r. split; [exact E1|]. split; [exact Hc'|]. split; [exact E2|]. exact Hres.
Qed.

Lemma Verify_rounds :
  conformant A B (claimed block) → nMatMulFreivaldsRounds params ≠ 0 →
  ∃ res, freivalds.Verify A B (claimed block) (DeriveSigma hdr) (nMatMulFreivaldsRounds params) = Ok res ∧
         (passed res = true ↔ rounds_hold block params).
Proof.
  intros Hcf Hk. pose proof (pt_rounds _ _ (bt_pow _ _ Ht)) as Hkt.
  destruct (Verify_ok A B (claimed block) (DeriveSigma hdr) (nMatMulFreivaldsRounds params) Hcf ltac:(lia)) as (res & E & Hp & _).
  exists res. split; [exact E|exact Hp].
Qed.

(** Both checks reject unless the gates hold, and go on otherwise. *)
Lemma gates_pass (P : Prop) (m : result (bool * list FromSeedCacheEntry)) :
  (P → phase1_valid hdr params ∧ payload_fits block params (matrix_c_data block) ∧ nMatMulFreivaldsRounds params ≠ 0 ∧
       0 < nMatMulNoiseRank params ≤ h_matmul_dim hdr ∧ prehash_valid hdr params height) →
  (phase1_valid hdr params → payload_fits block params (matrix_c_data block) → nMatMulFreivaldsRounds params ≠ 0 →
   0 < nMatMulNoiseRank params ≤ h_matmul_dim hdr → prehash_valid hdr params height → decides m P) →
  decides
    (if negb (CheckMatMulProofOfWork_Phase1 hdr params) then Ok (false, cache)
     else if negb (IsMatMulFreivaldsPayloadSizeValid block params) then Ok (false, cache)
     else if nMatMulFreivaldsRounds params =? 0 then Ok (false, cache)
     else if rank_invalid hdr params then Ok (false, cache)
     else if negb (CheckMatMulPreHashGate hdr params height) then Ok (false, cache)
     else m) P.
Proof.
  intros Hneed Hgo. pose proof (bt_pow _ _ Ht) as Hp. fold hdr in Hp.
  destruct (CheckMatMulProofOfWork_Phase1 hdr params) eqn:E1; cbn [negb].
  2: { apply decides_false; [exact Hc|]. intros HP. destruct (Hneed HP) as (H1 & _).
       apply (Phase1_ok _ _ Hp) in H1. congruence. }
  destruct (IsMatMulFreivaldsPayloadSizeValid block params) eqn:E2; cbn [negb].
  2: { apply decides_false; [exact Hc|]. intros HP. destruct (Hneed HP) as (_ & H1 & _).
       apply (FreivaldsPayloadSize_ok _ _ dim_typed) in H1. congruence. }
  destruct (Z.eqb_spec (nMatMulFreivaldsRounds params) 0) as [E3|E3].
  { apply decides_false; [exact Hc|]. intros HP. by destruct (Hneed HP) as (_ & _ & H1 & _). }
  destruct (rank_invalid hdr params) eqn:E4.
  { apply decides_false; [exact Hc|]. intros HP. destruct (Hneed HP) as (_ & _ & _ & H1 & _).
    apply (rank_invalid_spec _ _ Hp) in H1. congruence. }
  destruct (CheckMatMulPreHashGate hdr params height) eqn:E5; cbn [negb].
  2: { apply decides_false; [exact Hc|]. intros HP. destruct (Hneed HP) as (_ & _ & _ & _ & H1).
       apply (PreHashGate_ok _ _ _ Hp) in H1. congruence. }
  apply Hgo; [by apply (Phase1_ok _ _ Hp)|by apply (FreivaldsPayloadSize_ok _ _ dim_typed)|exact E3
    |by apply (rank_invalid_spec _ _ Hp)|by apply (PreHashGate_ok _ _ _ Hp)].
Qed.

Lemma digest_claimed :
  square (claimed block) (nMatMulTranscriptBlockSize params) →
  ComputeProductCommittedDigest (claimed block) (nMatMulTranscriptBlockSize params) (DeriveSigma hdr)
  = Ok (committed block params).
Proof. intros Hs. rewrite ComputeProductCommittedDigest_ok by exact Hs. reflexivity. Qed.

Lemma ProductCommitted_ok :
  decides (CheckMatMulProofOfWork_ProductCommitted block params height cache) (product_valid block params height).
Proof.
  unfold CheckMatMulProofOfWork_ProductCommitted. cbv zeta. fold hdr.
  destruct (fMatMulFreivaldsEnabled params) eqn:Ef; cbn [negb].
  2: { apply decides_false; [exact Hc|]. intros (_ & (H1 & _) & _). congruence. }
  destruct (IsMatMulProductDigestActive params height) eqn:Ea; cbn [negb].
  2: { apply decides_false; [exact Hc|]. intros (H1 & _). congruence. }
  apply gates_pass.
  { intros (_ & (_ & H1 & H2 & H3 & H4 & H5 & _) & _). split_and!; assumption || apply H4. }
  intros H1 H2 H3 H4 H5. destruct (operands_and_payload H2 H4) as (c' & r & -> & Hc' & -> & Hr). rewrite !bind_Ok.
  destruct r as [C|].
  2: { apply decides_false; [exact Hc'|]. intros (_ & (_ & _ & _ & _ & _ & _ & Hcan & _) & _). contradiction. }
  destruct Hr as [-> Hcan]. destruct (claimed_facts H2 Hcan H4) as [Hcf Hsq]. rewrite digest_claimed, bind_Ok by exact Hsq.
  case_bool_decide as Hd; cbn [negb].
  2: { apply decides_false; [exact Hc'|]. intros (_ & _ & E). symmetry in E. contradiction. }
  destruct (Verify_rounds Hcf H3) as (res & -> & Hres). rewrite bind_Ok.
  exists (passed res), c'. split; [reflexivity|]. split; [exact Hc'|]. rewrite Hres. split.
  - intros Hrd. split; [exact Ea|]. split; [|symmetry; exact Hd]. unfold product_gates. auto 10.
  - intros (_ & (_ & _ & _ & _ & _ & _ & _ & Hrd) & _). exact Hrd.
Qed.

(** The Freivalds check: with the product digest it is [product_valid],
    before it the transcript is verified as well. *)
Definition freivalds_valid : Prop :=
  product_gates block params height ∧
  if IsMatMulProductDigestActive params height then h_matmul_digest hdr = committed block params
  else phase2_valid hdr params height.

Lemma payload_nonempty : payload_fits block params (matrix_c_data block) → HasMatMulFreivaldsPayload block = true.
Proof.
  intros ([Hn _] & _ & Hl). unfold HasMatMulFreivaldsPayload. rewrite bool_decide_false; [reflexivity|].
  intros E. rewrite E in Hl. unfold zlen in Hl. cbn [length Z.of_nat] in Hl. nia.
Qed.

Lemma Freivalds_check_ok :
  decides (CheckMatMulProofOfWork_Freivalds block params height cache) freivalds_valid.
Proof.
  unfold CheckMatMulProofOfWork_Freivalds. cbv zeta. fold hdr.
  destruct (fMatMulFreivaldsEnabled params) eqn:Ef; cbn [negb].
  2: { apply decides_false; [exact Hc|]. intros ((H1 & _) & _). congruence. }
  apply gates_pass.
  { intros ((_ & H1 & H2 & H3 & H4 & H5 & _) & _). split_and!; assumption || apply H4. }
  intros H1 H2 H3 H4 H5. destruct (operands_and_payload H2 H4) as (c' & r & -> & Hc' & -> & Hr). rewrite !bind_Ok.
  destruct r as [C|].
  2: { apply decides_false; [exact Hc'|]. intros ((_ & _ & _ & _ & _ & _ & Hcan & _) & _). contradiction. }
  destruct Hr as [-> Hcan]. destruct (claimed_facts H2 Hcan H4) as [Hcf Hsq].
  destruct (Verify_rounds Hcf H3) as (res & -> & Hres). rewrite bind_Ok.
  destruct (passed res) eqn:Ep; cbn [negb].
  2: { apply decides_false; [exact Hc'|]. intros ((_ & _ & _ & _ & _ & _ & _ & Hrd) & _).
       apply Hres in Hrd. discriminate Hrd. }
  assert (product_gates block params height) as Hg by (unfold product_gates; pose proof (proj1 Hres eq_refl); auto 10).
  unfold freivalds_valid. destruct (IsMatMulProductDigestActive params height).
  - rewrite digest_claimed, bind_Ok by exact Hsq. eexists _, c'. split; [reflexivity|]. split; [exact Hc'|].
    rewrite bool_decide_eq_true. split; [intros E; split; [exact Hg|symmetry; exact E]|intros [_ E]; symmetry; exact E].
  - rewrite payload_nonempty, orb_true_r by exact H2.
    destruct (Phase2_ok hdr params height c' (bt_pow _ _ Ht) Hc') as (ok & c'' & E & Hc'' & Hok).
    exists ok, c''. split; [exact E|]. split; [exact Hc''|]. rewrite Hok. tauto.
Qed.
End product.

(** ** The version-2 payload *)

(** The operands the block brings, with the noise sigma prescribes. *)
Definition payload_digest (block : CBlock) (params : Params) : list Z :=
  let h := header block in
  let n := h_matmul_dim h in
  let np := noise_pair (DeriveSigma h) n (nMatMulNoiseRank params) in
  sha256d (word_bytes (transcript_words
    (perturb (mkMatrix n n (matrix_a_data block)) (E_L np) (E_R np))
    (perturb (mkMatrix n n (matrix_b_data block)) (F_L np) (F_R np))
    (nMatMulTranscriptBlockSize params) (DeriveSigma h))).

Definition v2_valid (block : CBlock) (params : Params) (height : Z) : Prop :=
  let h := header block in
  phase1_valid h params ∧ payload_fits block params (matrix_a_data block) ∧ payload_fits block params (matrix_b_data block) ∧
  shape_valid h params ∧ prehash_valid h params height ∧
  canon_list (matrix_a_data block) ∧ canon_list (matrix_b_data block) ∧ h_matmul_digest h = payload_digest block params.

(** Verification of operands that are given, not generated. *)
Lemma noisy_transcript `{Platform} A B n r b sigma digest :
  wf A → m_rows A = n → m_cols A = n → wf B → m_rows B = n → m_cols B = n →
  0 < n < 2 ^ 16 → 0 ≤ r ≤ n → 0 < b → n mod b = 0 →
  (np ← Generate sigma n r;
   E ← Matrix_mul (E_L np) (E_R np);
   A_prime ← Matrix_add A E;
   F ← Matrix_mul (F_L np) (F_R np);
   B_prime ← Matrix_add B F;
   transcript ← CanonicalMatMul A_prime B_prime b sigma;
   Ok (bool_decide (transcript_hash transcript = digest)))
  = Ok (bool_decide (sha256d (word_bytes (transcript_words
      (perturb A (E_L (noise_pair sigma n r)) (E_R (noise_pair sigma n r)))
      (perturb B (F_L (noise_pair sigma n r)) (F_R (noise_pair sigma n r))) b sigma)) = digest)).
Proof.
  intros HA A1 A2 HB B1 B2 Hn Hr Hb Hm. rewrite Generate_ok, bind_Ok by nia.
  pose proof (noise_pair_ok sigma n r ltac:(lia) ltac:(lia)) as Hnp. set (np := noise_pair sigma n r) in *. clearbody np.
  destruct Hnp as [(He & E1 & E2) (Hf & F1 & F2) (Hg & G1 & G2) (Hk & K1 & K2)].
  pose proof (perturb_ok A (E_L np) (E_R np) n r HA A1 A2 He E1 E2 Hf F1 F2 ltac:(lia)) as PA.
  pose proof (perturb_ok B (F_L np) (F_R np) n r HB B1 B2 Hg G1 G2 Hk K1 K2 ltac:(lia)) as PB.
  apply bind_Ok_inv in PA as (E & -> & PA). apply bind_Ok_inv in PB as (F & EF & PB).
  rewrite bind_Ok, PA, bind_Ok, EF, bind_Ok, PB, bind_Ok. pose proof (block_le_dim _ _ (proj1 Hn) Hb Hm).
  rewrite CanonicalMatMul_ok, bind_Ok; [cbn [transcript_hash]; reflexivity|].
  split; [by apply wf_madd|by apply wf_madd|..]; cbn [perturb madd mat_of m_rows m_cols]; rewrite ?A1, ?A2, ?B1, ?B2;
    [reflexivity|reflexivity|reflexivity|exact Hb|exact Hm|lia|nia].
Qed.

Lemma payload_matrix_wf n data : 0 ≤ n < 2 ^ 16 → zlen data = n * n → canon_list data → wf (mkMatrix n n data).
Proof. intros Hn Hl Hc. split; cbn [m_rows m_cols m_data]; (exact Hl || exact Hc || lia). Qed.

Lemma Phase2WithPayload_ok `{Platform} block params height :
  block_typed block params →
  ∃ ok, CheckMatMulProofOfWork_Phase2WithPayload block params height = Ok ok ∧ (ok = true ↔ v2_valid block params height).
Proof.
  intros Ht. pose proof (bt_pow _ _ Ht) as Hp. pose proof (ht_dim _ (pt_header _ _ Hp)) as Hdim.
  unfold CheckMatMulProofOfWork_Phase2WithPayload. cbv zeta.
  destruct (CheckMatMulProofOfWork_Phase1 (header block) params) eqn:E1; cbn [negb].
  2: { exists false. split; [reflexivity|]. split; [discriminate|]. intros (H1 & _). apply (Phase1_ok _ _ Hp) in H1. congruence. }
  apply (Phase1_ok _ _ Hp) in E1. destruct (IsMatMulV2PayloadSizeValid block params) eqn:E2; cbn [negb].
  2: { exists false. split; [reflexivity|]. split; [discriminate|]. intros (_ & H1 & H2 & _).
       pose proof (proj2 (V2PayloadSize_ok block params Hdim) (conj H1 H2)). congruence. }
  apply (V2PayloadSize_ok _ _ Hdim) in E2 as [Ea Eb].
  pose proof Ea as (Hn & Hmm & Hla). pose proof (proj2 (proj2 Eb)) as Hlb. destruct (bt_blocks _ _ Ht) as [Hbs Hbm].
  rewrite (proj2 (Z.ltb_ge _ _) (proj1 Hmm)), (proj2 (Z.ltb_ge _ _) (proj2 Hmm)).
  destruct (rank_invalid (header block) params) eqn:E3.
  { exists false. split; [reflexivity|]. split; [discriminate|]. intros (_ & _ & _ & (H1 & _) & _).
    apply (rank_invalid_spec _ _ Hp) in H1. congruence. }
  apply (rank_invalid_spec _ _ Hp) in E3.
  rewrite (proj2 (block_size_invalid_spec _ _ Hp) (bt_blocks _ _ Ht)).
  destruct (CheckMatMulPreHashGate (header block) params height) eqn:E4; cbn [negb].
  2: { exists false. split; [reflexivity|]. split; [discriminate|]. intros (_ & _ & _ & _ & H1 & _).
       apply (PreHashGate_ok _ _ _ Hp) in H1. congruence. }
  apply (PreHashGate_ok _ _ _ Hp) in E4. assert (shape_valid (header block) params) as Hs by (split; [exact E3|apply Ht]).
  destruct (read_payload_pair_ok (h_matmul_dim (header block)) (matrix_a_data block) (matrix_b_data block)) as (r & -> & Hr).
  { apply Hdim. } { exact Hla. } { apply Eb. } { apply words_nonneg, Ht. } { apply words_nonneg, Ht. }
  rewrite bind_Ok. destruct r as [[A B]|].
  2: { exists false. split; [reflexivity|]. split; [discriminate|]. intros (_ & _ & _ & _ & _ & H1 & H2 & _). tauto. }
  destruct Hr as (-> & -> & Hca & Hcb). eexists. split.
  { apply noisy_transcript; [by apply payload_matrix_wf|reflexivity|reflexivity|by apply payload_matrix_wf|reflexivity|reflexivity
      |lia|lia|exact Hbs|exact Hbm]. }
  fold (payload_digest block params). rewrite bool_decide_eq_true. unfold v2_valid. split.
  - intros E. symmetry in E. auto 10.
  - intros (_ & _ & _ & _ & _ & _ & _ & E). symmetry. exact E.
Qed.

(** ** The payload a miner attaches *)
Lemma SetFreivaldsPayload_ok m :
  wf m → m_rows m = m_cols m → 0 < m_rows m → SetFreivaldsPayloadFromProduct m = Ok (m_data m).
Proof.
  intros Hm Hsq Hpos. unfold SetFreivaldsPayloadFromProduct. cbv zeta.
  rewrite (proj2 (Z.eqb_neq _ _)), (proj2 (Z.eqb_eq _ _) Hsq) by lia. cbn [orb negb].
  rewrite (for_nest (λ row col out, v ← at_ m row col; vset out (row * m_cols m + col) v)) by lia.
  rewrite (for_range_ext _ (λ k w, v ← at_ m (k / m_cols m) (k mod m_cols m); vset w k v)).
  2: { intros k w Hk. destruct (index_split k (m_rows m) (m_cols m)) as (E & _ & _); [lia..|]. by rewrite <- E. }
  rewrite (for_assign _ _ (λ k, mget m (k / m_cols m) (k mod m_cols m))).
  - f_equal. exact (f_equal m_data (mat_of_mget m Hm)).
  - unfold zlen. rewrite length_replicate. nia.
  - intros k Hk. destruct (index_split k (m_rows m) (m_cols m)) as (_ & Hi & Hj); [lia..|]. apply at_ok; [apply Hm|done..].
Qed.

Definition product (h : CBlockHeader) (params : Params) : Matrix := mmul (operand_A h params) (operand_B h params).

Lemma Populate_ok `{Platform} block params cache :
  block_typed block params → cache_ok cache → fMatMulFreivaldsEnabled params = true →
  0 < nMatMulNoiseRank params ≤ h_matmul_dim (header block) →
  ¬ is_null (h_seed_a (header block)) → ¬ is_null (h_seed_b (header block)) →
  ∃ cache', PopulateFreivaldsPayload block params cache
            = Ok (set_c_data block (m_data (product (header block) params)), cache') ∧ cache_ok cache'.
Proof.
  intros Ht Hc Hf Hr Ha Hb. pose proof (bt_pow _ _ Ht) as Hp. pose proof (ht_dim _ (pt_header _ _ Hp)) as Hdim.
  unfold PopulateFreivaldsPayload. cbv zeta. rewrite Hf, (proj2 (rank_invalid_spec _ _ Hp) Hr). cbn [negb].
  rewrite (proj2 (Z.eqb_neq _ _)) by lia.
  destruct (IsNull (h_seed_a (header block))) eqn:Ea; [by apply IsNull_spec in Ea|].
  destruct (IsNull (h_seed_b (header block))) eqn:Eb; [by apply IsNull_spec in Eb|]. cbn [orb].
  destruct (perturbed_operands_ok (header block) params cache Hc Hdim ltac:(lia)) as (c' & -> & Hc'). rewrite bind_Ok.
  destruct (operand_facts (header block) params Hdim) as (HA & A1 & A2 & HB & B1 & B2).
  destruct (bt_blocks _ _ Ht) as [Hbs Hm]. assert (0 < h_matmul_dim (header block)) as Hpos by lia.
  pose proof (block_le_dim _ _ Hpos Hbs Hm). rewrite Z.max_r by lia.
  rewrite MultiplyBlocked_ok, bind_Ok.
  2: { split; [exact HA|exact HB|..]; rewrite ?A1, ?A2, ?B1, ?B2; lia. }
  fold (product (header block) params). assert (wf (product (header block) params)) as Hw by (apply wf_mmul; assumption).
  rewrite (SetFreivaldsPayload_ok _ Hw), bind_Ok; [exists c'; split; [reflexivity|exact Hc']|..].
  - change (m_rows (operand_A (header block) params) = m_cols (operand_B (header block) params)). lia.
  - change (0 < m_rows (operand_A (header block) params)). lia.
Qed.

Section honest.
Context `{Platform} (block : CBlock) (params : Params) (height : Z) (cache : list FromSeedCacheEntry).
Hypothesis (Ht : block_typed block params) (Hc : cache_ok cache).
Let hdr := header block.
Let mined := set_c_data block (m_data (product hdr params)).

Lemma product_facts :
  wf (product hdr params) ∧ m_rows (product hdr params) = h_matmul_dim hdr ∧ m_cols (product hdr params) = h_matmul_dim hdr.
Proof.
  pose proof (ht_dim _ (pt_header _ _ (bt_pow _ _ Ht))) as Hdim. fold hdr in Hdim.
  destruct (operand_facts hdr params Hdim) as (HA & A1 & A2 & HB & B1 & B2).
  split; [apply wf_mmul; assumption|]. split; [exact A1|exact B2].
Qed.

Lemma claimed_mined : claimed mined = product hdr params.
Proof.
  destruct product_facts as (Hw & R & C). unfold claimed, mined. cbn [header set_c_data matrix_c_data]. fold hdr.
  rewrite <- R at 1. rewrite <- C. by destruct (product hdr params).
Qed.

Lemma mined_typed : block_typed mined params.
Proof.
  destruct Ht as [Hp (H1 & H2 & _) Hb]. destruct product_facts as (Hw & _).
  split; [exact Hp| |exact Hb]. split; [exact H1|]. split; [exact H2|]. cbn [mined set_c_data matrix_c_data].
  exact (list.Forall_impl canonical _ _ (wf_canon _ Hw) canonical_u32).
Qed.

Lemma mined_fits :
  payload_fits block params (m_data (product hdr params)) ↔
  0 < h_matmul_dim hdr ≤ MATMUL_V2_ABS_MAX_DIM ∧ nMatMulMinDimension params ≤ h_matmul_dim hdr ≤ nMatMulMaxDimension params.
Proof.
  destruct product_facts as (Hw & R & C). unfold payload_fits. cbv zeta. fold hdr. rewrite (wf_len _ Hw), R, C. tauto.
Qed.

(** The rounds hold on the true product, whatever the challenge. *)
Lemma mined_rounds :
  payload_fits mined params (matrix_c_data mined) → 0 < nMatMulNoiseRank params ≤ h_matmul_dim hdr → rounds_hold mined params.
Proof.
  intros Hfit Hr. destruct product_facts as (Hw & _).
  destruct (claimed_facts mined params mined_typed Hfit (wf_canon _ Hw) Hr) as [Hcf _].
  intros k Hk. apply product_passes; [exact Hcf|]. exact claimed_mined.
Qed.

Lemma mined_accepted :
  fMatMulFreivaldsEnabled params = true → IsMatMulProductDigestActive params height = true →
  ¬ is_null (h_hashPrevBlock hdr) → phase1_valid hdr params →
  0 < h_matmul_dim hdr ≤ MATMUL_V2_ABS_MAX_DIM → nMatMulMinDimension params ≤ h_matmul_dim hdr ≤ nMatMulMaxDimension params →
  0 < nMatMulNoiseRank params ≤ h_matmul_dim hdr → nMatMulFreivaldsRounds params ≠ 0 → prehash_valid hdr params height →
  ComputeProductCommittedDigestFromPerturbed (operand_A hdr params) (operand_B hdr params)
    (nMatMulTranscriptBlockSize params) (DeriveSigma hdr) = Ok (h_matmul_digest hdr) →
  ∃ c1 c2, PopulateFreivaldsPayload block params cache = Ok (mined, c1) ∧
           CheckMatMulProofOfWork_ProductCommitted mined params height c1 = Ok (true, c2).
Proof.
  intros Hf Hact Hnn H1 Hn Hmm Hr Hk H5 Hd. pose proof H1 as Hseeds. unfold phase1_valid in Hseeds.
  rewrite decide_False in Hseeds by exact Hnn. destruct Hseeds as (_ & Ha & Hb & _).
  destruct (Populate_ok block params cache Ht Hc Hf Hr Ha Hb) as (c1 & E1 & Hc1).
  destruct (ProductCommitted_ok mined params height c1 mined_typed Hc1) as (ok & c2 & E2 & _ & Hok).
  exists c1, c2. split; [exact E1|]. rewrite E2. do 2 f_equal. apply Hok.
  assert (payload_fits mined params (matrix_c_data mined)) as Hfit by (apply mined_fits; tauto).
  destruct product_facts as (Hw & R & _).
  split; [exact Hact|]. split.
  - split; [exact Hf|]. split; [exact H1|]. split; [exact Hfit|]. split; [exact Hk|]. split; [exact Hr|]. split; [exact H5|].
    split; [exact (wf_canon _ Hw)|]. by apply mined_rounds.
  - rewrite product_digest_ok in Hd; [injection Hd as Hd|apply operands_blocked|].
    + unfold committed. cbv zeta. rewrite claimed_mined. change (header mined) with hdr. rewrite <- Hd, <- R. reflexivity.
    + apply Ht.
    + split; [exact Hr|apply Ht].
    + rewrite <- R in Hn. apply Hn.
Qed.
End honest.

(** ** The header-spam throttle *)

(** The gate as a predicate on the 256-bit hash of identity and nonce. *)
Definition spam_valid (h : CBlockHeader) (params : Params) : Prop :=
  nMatMulHeaderPoWDiscountBits params = UINT32_MAX ∨
  (nMatMulHeaderPoWDiscountBits params ≤ MATMUL_HEADER_POW_MAX_DISCOUNT_BITS ∧
   bits_valid (h_nBits h) (le_word (powLimit params)) ∧
   le_word (sha256d (GetHash h ++ WriteLE32 (h_nNonce h))) ≤
     Z.min (compact_value (h_nBits h) * 2 ^ nMatMulHeaderPoWDiscountBits params) (le_word (powLimit params))).

#[local] Opaque GetHash.

Lemma spam_hash h :
  HashWriter_GetHash (HashWriter_write (HashWriter_write HashWriter_new (GetHash h)) (WriteLE32 (h_nNonce h)))
  = sha256d (GetHash h ++ WriteLE32 (h_nNonce h)).
Proof.
  generalize (GetHash h) (WriteLE32 (h_nNonce h)). intros a b. apply HashWriter_GetHash_fips.
  apply sha_Write_represents. apply (sha_Write_represents _ []), represents_new.
Qed.

Lemma SpamGate_ok h params :
  pow_typed h params → CheckMatMulHeaderSpamGate h params = true ↔ spam_valid h params.
Proof.
  intros [Hh Hl _ _ _ Hd _]. unfold CheckMatMulHeaderSpamGate, spam_valid, IsMatMulHeaderPoWEnabled.
  set (d := nMatMulHeaderPoWDiscountBits params) in *. destruct (Z.eqb_spec d UINT32_MAX) as [E|E]; cbn [negb]; [tauto|].
  pose proof (DeriveMatMulHeaderPoWGateTarget_ok (h_nBits h) d (powLimit params) (ht_bits _ Hh) Hd Hl) as Hg.
  destruct (decide _) as [[Hd255 Hv]|Hno].
  2: { rewrite Hg. split; [discriminate|]. intros [?|(? & ? & _)]; [contradiction|]. tauto. }
  destruct Hg as (t & -> & [Hl1 Hl2] & Ev). cbv zeta. rewrite spam_hash.
  assert (is_uint256 (sha256d (GetHash h ++ WriteLE32 (h_nNonce h)))) as Hu
    by (unfold sha256d; split; [apply sha256_length|apply sha256_is_byte]).
  destruct (UintToArith256_val _ Hu) as [[Hu1 Hu2] Eu].
  rewrite leb_val by (assumption || congruence). rewrite Eu, Ev, Z.leb_le. tauto.
Qed.

(** The [k]-th header the grinder tries: only the nonce off the wire moves,
    so the block's identity stays. *)
Definition nth_try (h : CBlockHeader) (k : Z) : CBlockHeader := set_nNonce h (h_nNonce h + k).

Lemma nth_try_0 h : nth_try h 0 = h.
Proof. unfold nth_try, set_nNonce. rewrite Z.add_0_r. by destruct h. Qed.

Lemma nth_try_succ h k : nth_try (nth_try h 1) k = nth_try h (k + 1).
Proof. unfold nth_try, set_nNonce. cbn. f_equal. lia. Qed.

#[local] Transparent GetHash.
Lemma nth_try_GetHash h k : GetHash (nth_try h k) = GetHash h.
Proof. reflexivity. Qed.
#[local] Opaque GetHash.

Lemma grind_loop_ok params tries : ∀ h,
  0 ≤ h_nNonce h < 2 ^ 32 →
  ∃ k : nat, (k ≤ tries)%nat ∧ h_nNonce h + Z.of_nat k < 2 ^ 32 ∧
    (∀ j : nat, (j < k)%nat → CheckMatMulHeaderSpamGate (nth_try h (Z.of_nat j)) params = false) ∧
    let h' := nth_try h (Z.of_nat k) in
    grind_loop tries h params = (CheckMatMulHeaderSpamGate h' params, h', (tries - k)%nat) ∧
    (CheckMatMulHeaderSpamGate h' params = false → k = tries ∨ h_nNonce h' = UINT32_MAX).
Proof.
  induction tries as [|tries IH]; intros h Hn; cbn [grind_loop].
  - exists O. change (Z.of_nat 0) with 0. rewrite nth_try_0. split; [lia|]. split; [lia|]. split; [lia|]. split; [reflexivity|]. tauto.
  - destruct (CheckMatMulHeaderSpamGate h params) eqn:E.
    { exists O. change (Z.of_nat 0) with 0. rewrite nth_try_0, E. split; [lia|]. split; [lia|]. split; [lia|]. split; [reflexivity|discriminate]. }
    destruct (Z.eqb_spec (h_nNonce h) UINT32_MAX) as [Em|Em].
    { exists O. change (Z.of_nat 0) with 0. rewrite nth_try_0, E. split; [lia|]. split; [lia|]. split; [lia|]. split; [reflexivity|tauto]. }
    unfold UINT32_MAX in Em. rewrite u32_small by lia. fold (nth_try h 1).
    destruct (IH (nth_try h 1)) as (k & Hk & Hlt & Hfail & Hres); [cbn; lia|].
    assert (∀ j : nat, nth_try (nth_try h 1) (Z.of_nat j) = nth_try h (Z.of_nat (S j))) as Hshift.
    { intros j. rewrite nth_try_succ. f_equal. lia. }
    exists (S k). split; [lia|]. split; [cbn in Hlt; lia|]. split.
    + intros [|j] Hj; [change (Z.of_nat 0) with 0; by rewrite nth_try_0|]. rewrite <- Hshift. apply Hfail. lia.
    + cbv zeta in *. rewrite Hshift in Hres. destruct Hres as [-> Hres]. split; [reflexivity|].
      intros Hf. destruct (Hres Hf) as [->|]; [by left|by right].
Qed.

(** ** Properties *)



(** The Freivalds check never accepts a payload on its own: before the
    product digest activates, an accepted block also passes full transcript
    verification, at every height and whatever the binding height is. *)
Theorem freivalds_check_binds `{Platform} block params height cache :
  block_typed block params → cache_ok cache →
  decides (CheckMatMulProofOfWork_Freivalds block params height cache) (freivalds_valid block params height) ∧
  (IsMatMulProductDigestActive params height = false → freivalds_valid block params height →
   phase2_valid (header block) params height).
Proof.
  intros Ht Hc. split; [exact (Freivalds_check_ok block params height cache Ht Hc)|]. unfold freivalds_valid. intros ->. tauto.
Qed.

(** A block mined honestly is accepted: if its digest commits to the
    product of its operands, then attaching the payload with the blocked
    multiplication yields a block the product check accepts. *)
Theorem mined_block_accepted `{Platform} block params height cache :
  block_typed block params → cache_ok cache → fMatMulFreivaldsEnabled params = true →
  IsMatMulProductDigestActive params height = true → ¬ is_null (h_hashPrevBlock (header block)) →
  phase1_valid (header block) params → 0 < h_matmul_dim (header block) ≤ MATMUL_V2_ABS_MAX_DIM →
  nMatMulMinDimension params ≤ h_matmul_dim (header block) ≤ nMatMulMaxDimension params →
  0 < nMatMulNoiseRank params ≤ h_matmul_dim (header block) → nMatMulFreivaldsRounds params ≠ 0 →
  prehash_valid (header block) params height →
  ComputeProductCommittedDigestFromPerturbed (operand_A (header block) params) (operand_B (header block) params)
    (nMatMulTranscriptBlockSize params) (DeriveSigma (header block)) = Ok (h_matmul_digest (header block)) →
  ∃ mined c1 c2, PopulateFreivaldsPayload block params cache = Ok (mined, c1) ∧ header mined = header block ∧
    CheckMatMulProofOfWork_ProductCommitted mined params height c1 = Ok (true, c2).
Proof.
  intros H1 H2 H3 H4 H5 H6 H7 H8 H9 H10 H11 H12.
  destruct (mined_accepted block params height cache H1 H2 H3 H4 H5 H6 H7 H8 H9 H10 H11 H12) as (c1 & c2 & E1 & E2).
  eexists _, c1, c2. split; [exact E1|]. split; [reflexivity|exact E2].
Qed.

(** Grinding the header throttle terminates within its tries; it moves
    only the nonce that is not part of the block's identity, stops at the
    first nonce that passes, and fails only when the tries or the nonces run
    out. *)
Theorem grind_outcome h params tries :
  pow_typed h params → IsMatMulHeaderPoWEnabled params = true →
  ∃ k : nat, (k ≤ tries)%nat ∧
    let h' := nth_try h (Z.of_nat k) in
    GrindMatMulHeaderSpamNonce h params tries = (CheckMatMulHeaderSpamGate h' params, h', (tries - k)%nat) ∧
    GetHash h' = GetHash h ∧
    (∀ j : nat, (j < k)%nat → ¬ spam_valid (nth_try h (Z.of_nat j)) params) ∧
    (CheckMatMulHeaderSpamGate h' params = true ↔ spam_valid h' params) ∧
    (¬ spam_valid h' params → k = tries ∨ h_nNonce h' = UINT32_MAX).
Proof.
  intros Ht He. destruct (grind_loop_ok params tries h (ht_nonce _ (pt_header _ _ Ht))) as (k & Hk & Hlt & Hfail & Hres).
  assert (∀ j : nat, (j ≤ k)%nat → CheckMatMulHeaderSpamGate (nth_try h (Z.of_nat j)) params = true ↔ spam_valid (nth_try h (Z.of_nat j)) params) as Hspec.
  { intros j Hj. apply SpamGate_ok. destruct Ht as [Hh H2 H3 H4 H5 H6 H7].
    split; [|exact H2|exact H3|exact H4|exact H5|exact H6|exact H7]. destruct Hh as [A1 A2 A3 A4 A5 A6 A7 A8 A9 A10 A11].
    split; try assumption. cbn [nth_try set_nNonce h_nNonce]. lia. }
  exists k. split; [exact Hk|]. cbv zeta in *. destruct Hres as [E Hstop]. unfold GrindMatMulHeaderSpamNonce. rewrite He. cbn [negb].
  split; [exact E|]. split; [apply nth_try_GetHash|]. split; [|split; [apply Hspec; lia|]].
  - intros j Hj Hv. apply Hspec in Hv; [|lia]. rewrite Hfail in Hv by exact Hj. discriminate.
  - intros Hn. apply Hstop. destruct (CheckMatMulHeaderSpamGate _ params) eqn:Eg; [|reflexivity].
    destruct Hn. by apply Hspec in Eg.
Qed.
