(* ===== verification/HeaderSync.v ===== *)
(** Synchronising headers with a peer.

    [headerssync.h] and [headerssync.cpp]: a peer's chain of headers is
    downloaded twice. In the first phase only its work is added up, and one
    salted bit per period of headers is kept; when the work suffices, the
    headers are downloaded again, checked against the bits, and released to
    the block index in order. Entries that stand for the peer's headers are
    kept in a window so that [GetNextWorkRequired] can be asked about them.

    A pointer to an entry of the window is a name that no hash has, its phase
    and its height; the entries live in one map with the block index. The
    field [mix_hash] of a header, which is not sent, is left out. *)

From Stdlib Require Import ZArith Lia.
From stdpp Require Import base list numbers gmap tactics.
From S2P Require Import Prelude Sha256 ArithUint256 Compact Params MatMulPow BlockIndex ChainWork AsertParams Credit Asert Retarget Header HeaderPow.
Import arith_uint256 Consensus matmul_pow block_index chain_work asert_params asert retarget block_header header_pow.

Open Scope Z_scope.

Module header_sync.

(** ** The salted bit: SipHash of a hash *)
Definition rotl64 (x n : Z) : Z := Z.lor (u64 (Z.shiftl x n)) (Z.shiftr x (64 - n)).

Definition SIPROUND (v : Z * Z * Z * Z) : Z * Z * Z * Z :=
  let '(v0, v1, v2, v3) := v in
  let v0 := u64 (v0 + v1) in let v1 := Z.lxor (rotl64 v1 13) v0 in
  let v0 := rotl64 v0 32 in
  let v2 := u64 (v2 + v3) in let v3 := Z.lxor (rotl64 v3 16) v2 in
  let v0 := u64 (v0 + v3) in let v3 := Z.lxor (rotl64 v3 21) v0 in
  let v2 := u64 (v2 + v1) in let v1 := Z.lxor (rotl64 v1 17) v2 in
  let v2 := rotl64 v2 32 in
  (v0, v1, v2, v3).

(** One word: mixed in before and after two rounds. *)
Definition sip_word (v : Z * Z * Z * Z) (d : Z) : Z * Z * Z * Z :=
  let '(v0, v1, v2, v3) := v in
  let '(v0, v1, v2, v3) := SIPROUND (SIPROUND (v0, v1, v2, Z.lxor v3 d)) in
  (Z.lxor v0 d, v1, v2, v3).

Definition SipHashUint256 (k0 k1 : Z) (val : list Z) : Z :=
  let v := (Z.lxor 0x736f6d6570736575 k0, Z.lxor 0x646f72616e646f6d k1, Z.lxor 0x6c7967656e657261 k0, Z.lxor 0x7465646279746573 k1) in
  let v := foldl sip_word v [GetUint64 val 0; GetUint64 val 1; GetUint64 val 2; GetUint64 val 3; Z.shiftl 4 59] in
  let '(v0, v1, v2, v3) := v in
  let '(v0, v1, v2, v3) := SIPROUND (SIPROUND (SIPROUND (SIPROUND (v0, v1, Z.lxor v2 0xff, v3)))) in
  Z.lxor (Z.lxor (Z.lxor v0 v1) v2) v3.

(** ** Headers without their parent *)
Record CompressedHeader := mkCompressed {
  c_nVersion : Z; c_hashMerkleRoot : list Z; c_nTime : Z; c_nBits : Z; c_nNonce : Z; c_nNonce64 : Z; c_matmul_digest : list Z;
  c_matmul_dim : Z; c_seed_a : list Z; c_seed_b : list Z;
}.

Definition CompressedHeader_of (header : CBlockHeader) : CompressedHeader :=
  mkCompressed (h_nVersion header) (h_hashMerkleRoot header) (h_nTime header) (h_nBits header) (h_nNonce header) (h_nNonce64 header)
    (h_matmul_digest header) (h_matmul_dim header) (h_seed_a header) (h_seed_b header).

Definition GetFullHeader (c : CompressedHeader) (hash_prev_block : list Z) : CBlockHeader :=
  matmul_pow.mkHeader (c_nVersion c) hash_prev_block (c_hashMerkleRoot c) (c_nTime c) (c_nBits c) (c_nNonce64 c) (c_nNonce c)
    (c_matmul_dim c) (c_seed_a c) (c_seed_b c) (c_matmul_digest c).

(** ** State *)
Definition HEADER_COMMITMENT_PERIOD : Z := 350.
Definition REDOWNLOAD_BUFFER_SIZE : Z := 7924.
Definition MATMUL_SYNTHETIC_INDEX_WINDOW : Z := 180.
Definition MAX_FUTURE_BLOCK_TIME : Z := 2 * 60 * 60.

Inductive State := PRESYNC | REDOWNLOAD | FINAL.

#[export] Instance State_eq_dec : EqDecision State.
Proof. solve_decision. Defined.

(** The members that the constructor fixes. *)
Record SyncConfig := mkSyncConfig {
  m_commit_offset : Z;
  m_consensus_params : Params;
  m_chain_start : list Z;
  m_minimum_required_work : list Z;
  m_hasher : Z * Z;
  m_max_commitments : Z;
}.

(** [m_index] is the memory behind the pointers. *)
Record HeadersSyncState := mkSync {
  m_index : BlockMap;
  m_current_chain_work : list Z;
  m_header_commitments : list bool;
  m_last_header_received : CBlockHeader;
  m_current_height : Z;
  m_presync_last_index : option (list Z);
  m_presync_index_window : list (list Z);
  m_redownloaded_headers : list CompressedHeader;
  m_redownload_buffer_last_height : Z;
  m_redownload_buffer_last_hash : list Z;
  m_redownload_buffer_first_prev_hash : list Z;
  m_redownload_chain_work : list Z;
  m_redownload_last_index : option (list Z);
  m_redownload_index_window : list (list Z);
  m_process_all_remaining_headers : bool;
  m_download_state : State;
}.

Record ProcessingResult := mkProcessing { pow_validated_headers : list CBlockHeader; success : bool; request_more : bool }.

(** [CBlockIndex(header)]. *)
Definition index_of (h : CBlockHeader) : CBlockIndex :=
  CBlockIndex_of (chain_work.mkHeader (GetHash h) (h_hashPrevBlock h) (h_nTime h) (h_nBits h)).

(** ** Construction *)

(** [now] is the clock in seconds, [offset] and the key of the hasher are
    random. *)
Definition max_commitments (now median_time_past : Z) : Z :=
  let seconds_since_chain_start := now - median_time_past in
  let bounded := Z.max (- MAX_FUTURE_BLOCK_TIME) (Z.min seconds_since_chain_start (INT64_MAX - MAX_FUTURE_BLOCK_TIME)) in
  let possible_chain_seconds := u64 (bounded + MAX_FUTURE_BLOCK_TIME) in
  let max_possible_blocks := if (2 ^ 64 - 1) / 6 <? possible_chain_seconds then 2 ^ 64 - 1 else possible_chain_seconds * 6 in
  max_possible_blocks / HEADER_COMMITMENT_PERIOD.

(** [start_header] is what [chain_start->GetBlockHeader()] returns. *)
Definition HeadersSyncState_new (σ : BlockMap) (params : Params) (chain_start : list Z) (start_header : CBlockHeader)
    (minimum_required_work : list Z) (offset : Z) (hasher : Z * Z) (now : Z) : result (SyncConfig * HeadersSyncState) :=
  b ← deref σ chain_start;
  mtp ← GetMedianTimePast σ chain_start;
  Ok (mkSyncConfig offset params chain_start minimum_required_work hasher (max_commitments now mtp),
      mkSync σ (nChainWork b) [] start_header (nHeight b) (Some chain_start) [] [] 0 null256 null256 (zero WIDTH) (Some chain_start) [] false PRESYNC).

(** [SetNull] of a header. *)
Definition null_header : CBlockHeader := matmul_pow.mkHeader 0 null256 null256 0 0 0 0 0 null256 null256 null256.

(** [window.clear()] frees the entries. *)
Definition clear_window (σ : BlockMap) (window : list (list Z)) : BlockMap := foldr delete σ window.

Definition Finalize (s : HeadersSyncState) : HeadersSyncState :=
  mkSync (clear_window (clear_window (m_index s) (m_presync_index_window s)) (m_redownload_index_window s)) (m_current_chain_work s) [] null_header 0 None [] [] (m_redownload_buffer_last_height s) null256 null256
    (m_redownload_chain_work s) None [] false FINAL.

Section Sync.
Context {T : Type} `{CppInt T} (k : SyncConfig).

Definition params : Params := m_consensus_params k.

(** The bit of a header. *)
Definition commitment_of (h : CBlockHeader) : bool :=
  negb (Z.land (SipHashUint256 (fst (m_hasher k)) (snd (m_hasher k)) (GetHash h)) 1 =? 0).

Definition committed (height : Z) : bool := height mod HEADER_COMMITMENT_PERIOD =? m_commit_offset k.

(** ** The window of entries *)
Definition MatMulRequiredSyntheticFloor (previous : CBlockIndex) : option Z :=
  if negb (fMatMulPOW params) then None else
  let next_height := nHeight previous + 1 in
  if next_height <=? nMatMulAsertHeight params then None else
  let anchor_height := current_anchor_height (ResolveMatMulAsertHalfLifeInfo (Some (nHeight previous)) params) in
  if (nHeight previous <? anchor_height) || (anchor_height <? 0) then None else Some anchor_height.

Definition IsRepresentableBlockIndexHeight (height : Z) : bool := (0 <=? height) && (height <=? INT32_MAX).

Definition synthetic (redownload_phase : bool) (height : Z) : list Z := [if redownload_phase then -2 else -1; height].

Definition set_pprev (b : CBlockIndex) (p : option (list Z)) : CBlockIndex :=
  mkIndex p (pskip b) (nHeight b) (nChainWork b) (nAuthenticatedChainWork b) (nStatus b) (nTime b) (nBits b) (nTimeMax b)
    (nMatMulClampedAsertCreditKey b) (nMatMulClampedAsertCredit b).

(** The loop that drops the oldest entries. *)
Fixpoint trim_window (σ : BlockMap) (retained_floor : option Z) (window : list (list Z)) : result (BlockMap * list (list Z)) :=
  if zlen window <=? MATMUL_SYNTHETIC_INDEX_WINDOW then Ok (σ, window) else
  match window with
  | oldest :: (second :: _) as rest =>
      o ← deref σ oldest;
      if match retained_floor with Some f => f <=? nHeight o | None => false end then Ok (σ, window) else
      b ← deref σ second;
      trim_window (delete oldest (<[second := set_pprev b (pprev o)]> σ)) retained_floor rest
  | _ => Ok (σ, window)
  end.

Definition AdvanceSyntheticIndexWindow (σ : BlockMap) (header : CBlockHeader) (next_height : Z) (redownload_phase : bool)
    (last_index : list Z) (window : list (list Z)) : result (BlockMap * list Z * list (list Z)) :=
  let p := synthetic redownload_phase next_height in
  let h := index_of header in
  let synthesized := mkIndex (Some last_index) (pskip h) next_height (nChainWork h) (nAuthenticatedChainWork h) (nStatus h) (nTime h)
                       (nBits h) (nTimeMax h) (nMatMulClampedAsertCreditKey h) (nMatMulClampedAsertCredit h) in
  '(σ, window) ← trim_window (<[p := synthesized]> σ) (MatMulRequiredSyntheticFloor synthesized) (window ++ [p]);
  Ok (σ, p, window).

(** The memory, whose entries [GetNextWorkRequired] may have annotated, and
    the new entry and window when the header is in order. *)
Definition ValidateAndAdvanceMatMulDifficulty (σ : BlockMap) (header : CBlockHeader) (next_height : Z) (redownload_phase : bool)
    (previous : option (list Z)) (window : list (list Z)) : result (BlockMap * option (list Z * list (list Z))) :=
  if negb (IsRepresentableBlockIndexHeight next_height) then Ok (σ, None) else
  match previous with
  | None => Ok (σ, None)
  | Some previous =>
      '(expected_nbits, σ) ← GetNextWorkRequired (T:=T) σ previous (h_nTime header) params;
      if negb (h_nBits header =? expected_nbits) then Ok (σ, None) else
      if IsMatMulV4Active params next_height && IsMatMulHeaderPoWEnabled params && negb (CheckMatMulHeaderSpamGate header params) then Ok (σ, None) else
      '(σ, p, window) ← AdvanceSyntheticIndexWindow σ header next_height redownload_phase previous window;
      Ok (σ, Some (p, window))
  end.

(** The check of a header's target that both phases make: the new entry and
    window, or nothing when the header is refused. *)
Definition check_difficulty (σ : BlockMap) (header : CBlockHeader) (next_height : Z) (previous_nBits : result Z)
    (redownload_phase : bool) (previous : option (list Z)) (window : list (list Z)) : result (BlockMap * option (option (list Z) * list (list Z))) :=
  if fMatMulPOW params then
    '(σ, r) ← ValidateAndAdvanceMatMulDifficulty σ header next_height redownload_phase previous window;
    Ok (σ, match r with Some (p, w) => Some (Some p, w) | None => None end)
  else
    bits ← previous_nBits;
    ok ← PermittedDifficultyTransition params next_height bits (h_nBits header);
    Ok (σ, if (ok : bool) then Some (previous, window) else None).

(** ** The first phase *)
Definition with_index (s : HeadersSyncState) (σ : BlockMap) : HeadersSyncState :=
  mkSync σ (m_current_chain_work s) (m_header_commitments s) (m_last_header_received s) (m_current_height s) (m_presync_last_index s)
    (m_presync_index_window s) (m_redownloaded_headers s) (m_redownload_buffer_last_height s) (m_redownload_buffer_last_hash s)
    (m_redownload_buffer_first_prev_hash s) (m_redownload_chain_work s) (m_redownload_last_index s) (m_redownload_index_window s)
    (m_process_all_remaining_headers s) (m_download_state s).

Definition ValidateAndProcessSingleHeader (s : HeadersSyncState) (current : CBlockHeader) : result (bool * HeadersSyncState) :=
  if negb (bool_decide (m_download_state s = PRESYNC)) then Ok (false, s) else
  if m_current_height s =? INT64_MAX then Ok (false, s) else
  let next_height := m_current_height s + 1 in
  if negb (IsRepresentableBlockIndexHeight next_height) then Ok (false, s) else
  '(σ, r) ← check_difficulty (m_index s) current next_height (Ok (h_nBits (m_last_header_received s))) false (m_presync_last_index s)
              (m_presync_index_window s);
  match r with
  | None => Ok (false, with_index s σ)
  | Some (last_index, window) =>
      let commitments := m_header_commitments s ++ (if committed next_height then [commitment_of current] else []) in
      let s := mkSync σ (m_current_chain_work s) commitments (m_last_header_received s) (m_current_height s) last_index window
                 (m_redownloaded_headers s) (m_redownload_buffer_last_height s) (m_redownload_buffer_last_hash s)
                 (m_redownload_buffer_first_prev_hash s) (m_redownload_chain_work s) (m_redownload_last_index s)
                 (m_redownload_index_window s) (m_process_all_remaining_headers s) (m_download_state s) in
      if committed next_height && (m_max_commitments k <? zlen commitments) then Ok (false, s) else
      proof ← GetBlockProof (index_of current);
      Ok (true, mkSync σ (add (m_current_chain_work s) proof) commitments current next_height last_index window
                  (m_redownloaded_headers s) (m_redownload_buffer_last_height s) (m_redownload_buffer_last_hash s)
                  (m_redownload_buffer_first_prev_hash s) (m_redownload_chain_work s) (m_redownload_last_index s)
                  (m_redownload_index_window s) (m_process_all_remaining_headers s) (m_download_state s))
  end.

(** A loop over headers that stops at the first one that is refused. *)
Fixpoint all_headers (f : HeadersSyncState → CBlockHeader → result (bool * HeadersSyncState)) (headers : list CBlockHeader)
    (s : HeadersSyncState) : result (bool * HeadersSyncState) :=
  match headers with
  | [] => Ok (true, s)
  | hdr :: headers =>
      '(ok, s) ← f s hdr;
      if (ok : bool) then all_headers f headers s else Ok (false, s)
  end.

(** The switch to the second phase. *)
Definition start_redownload (s : HeadersSyncState) : result HeadersSyncState :=
  b ← deref (m_index s) (m_chain_start k);
  Ok (mkSync (clear_window (m_index s) (m_redownload_index_window s)) (m_current_chain_work s) (m_header_commitments s)
        (m_last_header_received s) (m_current_height s) (m_presync_last_index s) (m_presync_index_window s) [] (nHeight b) (m_chain_start k)
        (m_chain_start k) (nChainWork b) (Some (m_chain_start k)) [] (m_process_all_remaining_headers s) REDOWNLOAD).

Definition ValidateAndStoreHeadersCommitments (s : HeadersSyncState) (headers : list CBlockHeader) : result (bool * HeadersSyncState) :=
  match headers with
  | [] => Ok (true, s)
  | first :: _ =>
      if negb (bool_decide (m_download_state s = PRESYNC)) then Ok (false, s) else
      if negb (bool_decide (h_hashPrevBlock first = GetHash (m_last_header_received s))) then Ok (false, s) else
      '(ok, s) ← all_headers ValidateAndProcessSingleHeader headers s;
      if negb ok then Ok (false, s) else
      if geb (m_current_chain_work s) (m_minimum_required_work k) then s ← start_redownload s; Ok (true, s) else Ok (true, s)
  end.

(** ** The second phase *)
Definition ValidateAndStoreRedownloadedHeader (s : HeadersSyncState) (header : CBlockHeader) : result (bool * HeadersSyncState) :=
  if negb (bool_decide (m_download_state s = REDOWNLOAD)) then Ok (false, s) else
  if m_redownload_buffer_last_height s =? INT64_MAX then Ok (false, s) else
  let next_height := m_redownload_buffer_last_height s + 1 in
  if negb (IsRepresentableBlockIndexHeight next_height) then Ok (false, s) else
  if negb (bool_decide (h_hashPrevBlock header = m_redownload_buffer_last_hash s)) then Ok (false, s) else
  let previous_nBits :=
    match list.last (m_redownloaded_headers s) with
    | Some c => Ok (c_nBits c)
    | None => b ← deref (m_index s) (m_chain_start k); Ok (nBits b)
    end in
  '(σ, r) ← check_difficulty (m_index s) header next_height previous_nBits true (m_redownload_last_index s) (m_redownload_index_window s);
  match r with
  | None => Ok (false, with_index s σ)
  | Some (last_index, window) =>
      proof ← GetBlockProof (index_of header);
      let work := add (m_redownload_chain_work s) proof in
      let process_all := m_process_all_remaining_headers s || geb work (m_minimum_required_work k) in
      let check := negb process_all && committed next_height in
      let step commitments headers height hash :=
        mkSync σ (m_current_chain_work s) commitments (m_last_header_received s) (m_current_height s) (m_presync_last_index s)
          (m_presync_index_window s) headers height hash (m_redownload_buffer_first_prev_hash s) work last_index window process_all
          (m_download_state s) in
      let refuse commitments :=
        Ok (false, step commitments (m_redownloaded_headers s) (m_redownload_buffer_last_height s) (m_redownload_buffer_last_hash s)) in
      let accept commitments :=
        Ok (true, step commitments (m_redownloaded_headers s ++ [CompressedHeader_of header]) next_height (GetHash header)) in
      if check then
        match m_header_commitments s with
        | [] => refuse []
        | expected_commitment :: commitments =>
            if Bool.eqb (commitment_of header) expected_commitment then accept commitments else refuse commitments
        end
      else accept (m_header_commitments s)
  end.

(** The loop of [PopHeadersReadyForAcceptance]: the headers it returns, those
    it leaves and the hash that the first of these follows. *)
Fixpoint pop_ready (process_all : bool) (headers : list CompressedHeader) (first_prev_hash : list Z) :
    list CBlockHeader * list CompressedHeader * list Z :=
  match headers with
  | [] => ([], [], first_prev_hash)
  | c :: rest =>
      if (REDOWNLOAD_BUFFER_SIZE <? zlen headers) || process_all then
        let full := GetFullHeader c first_prev_hash in
        let '(ret, remaining, prev) := pop_ready process_all rest (GetHash full) in
        (full :: ret, remaining, prev)
      else ([], headers, first_prev_hash)
  end.

Definition PopHeadersReadyForAcceptance (s : HeadersSyncState) : list CBlockHeader * HeadersSyncState :=
  if negb (bool_decide (m_download_state s = REDOWNLOAD)) then ([], s) else
  let '(ret, headers, prev) := pop_ready (m_process_all_remaining_headers s) (m_redownloaded_headers s) (m_redownload_buffer_first_prev_hash s) in
  (ret, mkSync (m_index s) (m_current_chain_work s) (m_header_commitments s) (m_last_header_received s) (m_current_height s)
          (m_presync_last_index s) (m_presync_index_window s) headers (m_redownload_buffer_last_height s) (m_redownload_buffer_last_hash s)
          prev (m_redownload_chain_work s) (m_redownload_last_index s) (m_redownload_index_window s) (m_process_all_remaining_headers s)
          (m_download_state s)).

(** ** One message *)
Definition finish (r : ProcessingResult) (s : HeadersSyncState) : ProcessingResult * HeadersSyncState :=
  (r, if success r && request_more r then s else Finalize s).

Definition ProcessNextHeaders (s : HeadersSyncState) (received_headers : list CBlockHeader) (full_headers_message : bool) :
    result (ProcessingResult * HeadersSyncState) :=
  match received_headers, m_download_state s with
  | [], _ | _, FINAL => Ok (mkProcessing [] false false, s)
  | _, PRESYNC =>
      '(ok, s) ← ValidateAndStoreHeadersCommitments s received_headers;
      let more := ok && (full_headers_message || bool_decide (m_download_state s = REDOWNLOAD)) in
      Ok (finish (mkProcessing [] ok more) s)
  | _, REDOWNLOAD =>
      '(ok, s) ← all_headers ValidateAndStoreRedownloadedHeader received_headers s;
      if negb ok then Ok (finish (mkProcessing [] false false) s) else
      let '(ready, s) := PopHeadersReadyForAcceptance s in
      let complete := (zlen (m_redownloaded_headers s) =? 0) && m_process_all_remaining_headers s in
      Ok (finish (mkProcessing ready true (negb complete && full_headers_message)) s)
  end.

Definition NextHeadersRequestLocator (s : HeadersSyncState) : result (list (list Z)) :=
  match m_download_state s with
  | FINAL => Ok []
  | PRESYNC => l ← LocatorEntries (m_index s) (Some (m_chain_start k)); Ok (GetHash (m_last_header_received s) :: l)
  | REDOWNLOAD => l ← LocatorEntries (m_index s) (Some (m_chain_start k)); Ok (m_redownload_buffer_last_hash s :: l)
  end.

End Sync.
End header_sync.
