(* ===== verification/HeaderSyncWindow.v ===== *)
(** The window of entries that stand for a peer's headers.

    The entries are consecutive, each follows the one before it and carries its
    header's time and bits, and none that the retarget may ask for is dropped:
    [AdvanceSyntheticIndexWindow] keeps the window back to the anchor. *)

From Stdlib Require Import ZArith Lia.
From stdpp Require Import base list numbers gmap tactics.
From S2P Require Import Prelude Sha256 ArithUint256 Compact Params MatMulPow BlockIndex ChainWork AsertParams Credit Asert Retarget Header HeaderPow.
From S2P Require Import HeaderSync.
Import arith_uint256 Consensus matmul_pow block_index chain_work asert_params credit asert retarget block_header header_pow header_sync.

Open Scope Z_scope.

Module header_sync_window.

(** ** The block index is only annotated *)
#[local] Hint Resolve same_but_cache_refl : core.

Lemma fill_same params blocks : ∀ σ c r σ', fill σ params blocks c = Ok (r, σ') → same_but_cache σ σ'.
Proof.
  induction blocks as [|p blocks IH]; intros σ c r σ'; cbn [fill]; [intros [= _ <-]; auto|].
  intros (b & Hb & E)%bind_Ok_inv. unfold deref in Hb. destruct (σ !! p) as [b0|] eqn:Hp; [|done]. injection Hb as ->.
  destruct (pprev b) as [q|]; [|injection E as _ <-; auto].
  apply bind_Ok_inv in E as (prev & _ & E). apply bind_Ok_inv in E as (mtp & _ & E). cbv zeta in E.
  eapply same_but_cache_trans; [by apply same_but_cache_insert|]. case_match; [injection E as _ <-; auto|by eapply IH].
Qed.

Lemma clamped_credit_same σ p a params r σ' : MatMulAsertClampedTimeCredit σ p a params = Ok (r, σ') → same_but_cache σ σ'.
Proof.
  unfold MatMulAsertClampedTimeCredit. intros (b & _ & E)%bind_Ok_inv. case_match; [injection E as _ <-; auto|]. case_match; [injection E as _ <-; auto|].
  apply bind_Ok_inv in E as ([u c] & _ & E). by eapply fill_same.
Qed.

Section Same.
Context {T : Type} `{CppInt T}.

(** A computation that leaves the index as it is. *)
Lemma pure_same (m : result Z) (σ : BlockMap) r σ' : (c ← m; Ok (c, σ)) = Ok (r, σ') → same_but_cache σ σ'.
Proof. intros (c & _ & [= _ <-])%bind_Ok_inv. apply same_but_cache_refl. Qed.

Lemma asert_from_anchor_same σ p params limit r σ' : asert_from_anchor σ p params limit = Ok (r, σ') → same_but_cache σ σ'.
Proof.
  unfold asert_from_anchor. intros (last & _ & E)%bind_Ok_inv. cbv zeta in E. case_match; [by eapply pure_same|].
  apply bind_Ok_inv in E as ([a|] & _ & E); [|by eapply pure_same]. apply bind_Ok_inv in E as (ab & _ & E).
  case_match; [by eapply pure_same|]. apply bind_Ok_inv in E as ([c σ1] & E1 & E). apply bind_Ok_inv in E as (t & _ & E).
  apply clamped_credit_same in E1. eapply same_but_cache_trans; [exact E1|by eapply pure_same].
Qed.

Lemma MatMulAsert_same σ p params r σ' : MatMulAsert (T:=T) σ p params = Ok (r, σ') → same_but_cache σ σ'.
Proof.
  unfold MatMulAsert. intros (last & _ & E)%bind_Ok_inv. cbv zeta in E. case_match; [by eapply pure_same|]. case_match.
  - apply bind_Ok_inv in E as ([g|] & _ & E); [|by eapply pure_same]. apply bind_Ok_inv in E as (gb & _ & E). by eapply pure_same.
  - apply bind_Ok_inv in E as (v & _ & E). case_match; [by eapply pure_same|]. destruct (one_shot _ _ _ _); [by eapply pure_same|].
    by eapply asert_from_anchor_same.
Qed.

Lemma GetNextWorkRequired_same σ p t params r σ' : GetNextWorkRequired (T:=T) σ p t params = Ok (r, σ') → same_but_cache σ σ'.
Proof.
  unfold GetNextWorkRequired. intros (last & _ & E)%bind_Ok_inv. apply bind_Ok_inv in E as (limit & _ & E). cbv zeta in E.
  case_match; [injection E as _ <-; auto|]. case_match; [injection E as _ <-; auto|]. case_match; [by eapply MatMulAsert_same|].
  case_match; [by eapply pure_same|]. apply bind_Ok_inv in E as (interval & _ & E). case_match; [done|]. case_match.
  - case_match; [|injection E as _ <-; auto]. case_match; [injection E as _ <-; auto|by eapply pure_same].
  - apply bind_Ok_inv in E as (u & _ & E). apply bind_Ok_inv in E as ([f|] & _ & E); [|done]. apply bind_Ok_inv in E as (fb & _ & E).
    by eapply pure_same.
Qed.
End Same.


(** ** The window *)
Section Window.
Context (k : SyncConfig) (h0 : Z) (phase : bool).

Notation cs := (m_chain_start k).
Notation name := (synthetic phase).

Lemma name_inj i j : name i = name j → i = j.
Proof. unfold synthetic. by intros [= ->]. Qed.

(** What the entry at height [i] of a window that starts at [lo] holds. *)
Definition entry_ok (L : list CBlockHeader) (lo i : Z) (b : CBlockIndex) : Prop :=
  nHeight b = i ∧ pskip b = None ∧ pprev b = Some (if decide (lo < i) then name (i - 1) else cs) ∧
  ∃ h, L !! Z.to_nat (i - h0 - 1) = Some h ∧ nTime b = h_nTime h ∧ nBits b = h_nBits h.

(** Consecutive entries for the heights from [lo] to [tip]. *)
Definition entries (σ : BlockMap) (L : list CBlockHeader) (lo tip : Z) : Prop :=
  ∀ i, lo ≤ i ≤ tip → ∃ b, σ !! name i = Some b ∧ entry_ok L lo i b.

Definition heights (lo tip : Z) : list (list Z) := name <$> seqZ lo (tip + 1 - lo).

Lemma heights_cons lo tip : lo ≤ tip → heights lo tip = name lo :: heights (lo + 1) tip.
Proof.
  intros Hle. unfold heights. rewrite seqZ_cons by lia. cbn [fmap list_fmap]. do 3 f_equal; lia.
Qed.

Lemma heights_snoc lo tip : lo ≤ tip + 1 → heights lo tip ++ [name (tip + 1)] = heights lo (tip + 1).
Proof.
  intros Hle. unfold heights. replace (tip + 1 + 1 - lo) with (tip + 1 - lo + 1) by lia. rewrite (seqZ_app _ (tip + 1 - lo) 1) by lia.
  rewrite fmap_app. f_equal. rewrite seqZ_cons by lia. cbn. do 2 f_equal. lia.
Qed.

Lemma heights_length lo tip : lo ≤ tip + 1 → zlen (heights lo tip) = tip + 1 - lo.
Proof. intros Hle. unfold heights, zlen. rewrite length_fmap, length_seqZ. lia. Qed.

Lemma entries_same σ σ' L lo tip : same_but_cache σ σ' → entries σ L lo tip → entries σ' L lo tip.
Proof.
  intros Hs He i Hi. destruct (He i Hi) as (b & Hb & Hok). destruct (same_but_cache_lookup _ _ _ _ Hs Hb) as (b' & Hb' & E).
  exists b'. split; [done|]. unfold entry_ok in *. destruct b, b'. cbn in *. by injection E as -> -> -> -> -> -> -> -> ->.
Qed.

(** Dropping the oldest entry. *)
Lemma entries_drop σ L lo tip o b :
  lo < tip → entries σ L lo tip → σ !! name lo = Some o → σ !! name (lo + 1) = Some b →
  entries (delete (name lo) (<[name (lo + 1) := set_pprev b (pprev o)]> σ)) L (lo + 1) tip.
Proof.
  intros Hlt He Ho Hb i Hi. rewrite lookup_delete_ne by (intros E%name_inj; lia).
  destruct (He lo ltac:(lia)) as (o' & Ho' & (_ & _ & Hp & _)). rewrite Ho in Ho'. injection Ho' as <-.
  rewrite decide_False in Hp by lia. destruct (He i ltac:(lia)) as (c & Hc & (H1 & H2 & H3 & H4)). rewrite decide_True in H3 by lia.
  destruct (decide (i = lo + 1)) as [->|Hne].
  - rewrite lookup_insert_eq. rewrite Hb in Hc. injection Hc as <-. eexists. split; [done|]. unfold entry_ok. rewrite decide_False by lia.
    by destruct b.
  - rewrite lookup_insert_ne by (intros E%name_inj; lia). exists c. split; [done|]. unfold entry_ok. by rewrite decide_True by lia.
Qed.

(** The loop drops no entry at or above the floor, and no more than it has
    to. *)
Lemma trim_ok σ L floor n : ∀ lo tip σ' w,
  n = Z.to_nat (tip - lo) → lo ≤ tip → entries σ L lo tip → trim_window σ floor (heights lo tip) = Ok (σ', w) →
  ∃ lo', lo ≤ lo' ≤ tip ∧ w = heights lo' tip ∧ entries σ' L lo' tip ∧ match floor with Some f => lo' ≤ Z.max lo f | None => True end ∧
    (lo' = lo ∨ MATMUL_SYNTHETIC_INDEX_WINDOW ≤ tip + 1 - lo').
Proof.
  revert σ. induction n as [|n IH]; intros σ lo tip σ' w Hn Hle He; rewrite (heights_cons lo) by done.
  - assert (lo = tip) as -> by lia. unfold heights at 1. rewrite seqZ_nil by lia. cbn [trim_window fmap list_fmap].
    assert (Hdone : ∃ lo', tip ≤ lo' ≤ tip ∧ [name tip] = heights lo' tip ∧ entries σ L lo' tip ∧
      match floor with Some f => lo' ≤ Z.max tip f | None => True end ∧ (lo' = tip ∨ MATMUL_SYNTHETIC_INDEX_WINDOW ≤ tip + 1 - lo')).
    { exists tip. rewrite heights_cons by lia. unfold heights. rewrite seqZ_nil by lia. split; [lia|]. split; [done|]. split; [done|]. split; [destruct floor; [lia|done]|by left]. }
    case_match; intros [= <- <-]; exact Hdone.
  - cbn [trim_window]. assert (Hstay : ∃ lo', lo ≤ lo' ≤ tip ∧ heights lo tip = heights lo' tip ∧ entries σ L lo' tip ∧
      match floor with Some f => lo' ≤ Z.max lo f | None => True end ∧ (lo' = lo ∨ MATMUL_SYNTHETIC_INDEX_WINDOW ≤ tip + 1 - lo')).
    { exists lo. split; [lia|]. split; [done|]. split; [done|]. split; [destruct floor; [lia|done]|by left]. }
    rewrite (heights_cons lo) in Hstay by done. destruct (_ <=? _) eqn:Hlen; [intros [= <- <-]; exact Hstay|].
    rewrite <-(heights_cons lo) in Hlen by done. rewrite heights_length in Hlen by lia. apply Z.leb_gt in Hlen.
    rewrite (heights_cons (lo + 1)) in Hstay |- * by lia.
    destruct (He lo ltac:(lia)) as (o & Ho & Hok). destruct (He (lo + 1) ltac:(lia)) as (b & Hb & _). unfold deref. rewrite Ho, Hb. cbn [mbind result_bind].
    rewrite (proj1 Hok). destruct (match floor with Some f => f <=? lo | None => false end) eqn:Hf; [intros [= <- <-]; exact Hstay|].
    rewrite <-heights_cons by lia. intros E. apply IH in E as (lo' & H1 & H2 & H3 & H4 & H5); [|lia|lia|apply entries_drop; [lia|done..]].
    exists lo'. split; [lia|]. split; [done|]. split; [done|]. split; [destruct floor; [apply Z.leb_gt in Hf; lia|done]|].
    right. destruct H5 as [->|]; [lia|done].
Qed.

(** ** The window and the anchor *)

(** The window for the headers [L] up to height [tip]: it reaches back to the
    chain's start or to the anchor of the retarget. *)
Definition window_ok (σ : BlockMap) (tip : Z) (last : option (list Z)) (window : list (list Z)) (L : list CBlockHeader) : Prop :=
  ∃ lo, h0 < lo ≤ tip + 1 ∧ (lo = tip + 1 → tip = h0) ∧ window = heights lo tip ∧
    last = Some (if decide (lo ≤ tip) then name tip else cs) ∧ entries σ L lo tip ∧
    (schedule (params k) → 0 ≤ nMatMulAsertHeight (params k) ≤ tip → tip < INT32_MAX → lo ≤ Z.max (h0 + 1) (anchor_at (params k) tip)).

Lemma window_start σ : window_ok σ h0 (Some cs) [] [].
Proof.
  exists (h0 + 1). split; [lia|]. split; [done|]. split; [unfold heights; by rewrite seqZ_nil by lia|]. rewrite decide_False by lia.
  split; [done|]. split; [intros i; lia|lia].
Qed.

(** The floor is the anchor. *)
Lemma floor_anchor b :
  fMatMulPOW (params k) = true → schedule (params k) → 0 ≤ nMatMulAsertHeight (params k) ≤ nHeight b → nHeight b < INT32_MAX →
  MatMulRequiredSyntheticFloor k b = Some (anchor_at (params k) (nHeight b)).
Proof.
  intros Hm Hs H0 H1. unfold MatMulRequiredSyntheticFloor. rewrite Hm. cbn [negb]. cbv zeta. rewrite (proj2 (Z.leb_gt _ _)) by lia.
  destruct (anchor_bounds (params k) (nHeight b) Hs ltac:(lia)) as (_ & Hb & _). fold (anchor_at (params k) (nHeight b)) in Hb |- *.
  rewrite !(proj2 (Z.ltb_ge _ _)) by lia. done.
Qed.

Lemma anchor_later tip :
  schedule (params k) → nMatMulAsertHeight (params k) ≤ tip + 1 < INT32_MAX →
  tip < nMatMulAsertHeight (params k) ∧ anchor_at (params k) (tip + 1) = tip + 1 ∨
  nMatMulAsertHeight (params k) ≤ tip ∧ anchor_at (params k) tip ≤ anchor_at (params k) (tip + 1).
Proof.
  intros Hs H1. destruct (anchor_bounds (params k) (tip + 1) Hs ltac:(lia)) as (_ & B2 & M2). unfold anchor_at.
  destruct (decide (tip < nMatMulAsertHeight (params k))) as [Hlt|Hge]; [left; lia|right]. split; [lia|].
  destruct (anchor_bounds (params k) tip Hs ltac:(lia)) as (I1 & B1 & _). apply M2; [done|lia].
Qed.

Lemma entries_add σ L lo tip h b :
  zlen L = tip - h0 → h0 < lo ≤ tip + 1 → entries σ L lo tip → entry_ok (L ++ [h]) lo (tip + 1) b →
  entries (<[name (tip + 1) := b]> σ) (L ++ [h]) lo (tip + 1).
Proof.
  intros HL Hlo He Hok i Hi. destruct (decide (i = tip + 1)) as [->|Hne]; [rewrite lookup_insert_eq; by exists b|].
  rewrite lookup_insert_ne by (intros E%name_inj; lia). destruct (He i ltac:(lia)) as (c & Hc & (H1 & H2 & H3 & g & Hg & H4)).
  exists c. split; [done|]. repeat (split; [done|]). exists g. split; [|done]. apply lookup_app_l_Some. done.
Qed.

Lemma check_difficulty_window {T} `{CppInt T} σ h bits tip last window L σ' last' w' :
  fMatMulPOW (params k) = true → zlen L = tip - h0 → window_ok σ tip last window L →
  check_difficulty (T:=T) k σ h (tip + 1) bits phase last window = Ok (σ', Some (last', w')) → window_ok σ' (tip + 1) last' w' (L ++ [h]).
Proof.
  intros Hm HL (lo & Hlo & Hemp & -> & -> & He & Hanchor). unfold check_difficulty. rewrite Hm.
  intros ([σ1 [[p w]|]] & E1 & E)%bind_Ok_inv; [|done]. injection E as <- <- <-. unfold ValidateAndAdvanceMatMulDifficulty in E1.
  case_match; [done|]. apply bind_Ok_inv in E1 as ([e σ2] & Hs%GetNextWorkRequired_same & E1).
  case_match; [done|]. case_match; [done|]. apply bind_Ok_inv in E1 as ([[σ3 p'] w'] & E3 & [= <- <- <-]). unfold AdvanceSyntheticIndexWindow in E3.
  apply bind_Ok_inv in E3 as ([σ4 w4] & E4 & [= <- <- <-]). rewrite heights_snoc in E4 by lia. set (b := mkIndex _ _ _ _ _ _ _ _ _ _ _) in E4.
  apply (trim_ok _ (L ++ [h]) _ _ _ _ _ _ eq_refl) in E4 as (lo' & Hb1 & -> & Hb3 & Hb4 & _); [|lia|].
  - exists lo'. split; [lia|]. split; [lia|]. split; [done|]. rewrite decide_True by lia. split; [done|]. split; [done|].
    intros Hsc Hah Hmax. rewrite floor_anchor in Hb4 by (cbn [nHeight b]; done || lia). cbn [nHeight b] in Hb4.
    destruct (anchor_later tip Hsc ltac:(lia)) as [[? Ha]|[? Ha]]; [lia|]. specialize (Hanchor Hsc ltac:(lia) ltac:(lia)). lia.
  - apply entries_add; [done|done|by eapply entries_same|]. repeat split.
    + cbn [pprev b]. do 2 f_equal. destruct (decide (lo ≤ tip)), (decide (lo < tip + 1)); try lia; [by rewrite Z.add_simpl_r|done].
    + exists h. split; [|done]. rewrite lookup_app_r by (unfold zlen in HL; lia). replace (_ - _)%nat with 0%nat by (unfold zlen in HL; lia). done.
Qed.

(** The retarget finds the anchor: the walk of [GetAncestor] through the
    window. *)
Lemma window_walk σ L lo tip target n : ∀ i,
  n = Z.to_nat (i - target) → lo ≤ target ≤ i → i ≤ tip → entries σ L lo tip → ancestor_walk n σ target (name i) i = Ok (Some (name target)).
Proof.
  induction n as [|n IH]; intros i Hn H1 H2 He; cbn [ancestor_walk].
  - assert (i = target) as -> by lia. by rewrite Z.ltb_irrefl.
  - rewrite (proj2 (Z.ltb_lt _ _)) by lia. destruct (He i ltac:(lia)) as (b & Hb & (_ & Hsk & Hp & _)). unfold deref. rewrite Hb.
    cbn [mbind result_bind]. rewrite Hsk, Hp, decide_True by lia. apply IH; [lia..|done].
Qed.

Lemma window_ancestor σ L lo tip target :
  lo ≤ target ≤ tip → 0 ≤ target → entries σ L lo tip → GetAncestor σ (name tip) target = Ok (Some (name target)).
Proof.
  intros H1 H2 He. unfold GetAncestor. destruct (He tip ltac:(lia)) as (b & Hb & (Hh & _)). unfold deref. rewrite Hb. cbn [mbind result_bind].
  rewrite Hh, !(proj2 (Z.ltb_ge _ _)) by lia. by eapply window_walk; [| | |exact He]; lia.
Qed.

Lemma window_finds_anchor σ tip last window L :
  window_ok σ tip last window L → schedule (params k) → 0 ≤ nMatMulAsertHeight (params k) ≤ tip → tip < INT32_MAX →
  let a := anchor_at (params k) tip in
  a ≤ h0 ∧ window = heights (h0 + 1) tip ∨
  h0 < a ∧ ∃ p b h, last = Some p ∧ GetAncestor σ p a = Ok (Some (name a)) ∧ σ !! name a = Some b ∧
    L !! Z.to_nat (a - h0 - 1) = Some h ∧ nHeight b = a ∧ nTime b = h_nTime h ∧ nBits b = h_nBits h.
Proof.
  intros (lo & Hlo & Hemp & -> & -> & He & Ha) Hs H0 Hmax a. specialize (Ha Hs H0 Hmax). fold a in Ha.
  destruct (anchor_bounds (params k) tip Hs ltac:(lia)) as (_ & B & _). fold (anchor_at (params k) tip) in B. fold a in B.
  destruct (decide (a ≤ h0)) as [Hle|Hgt]; [left; split; [done|]; do 2 f_equal; lia|right]. split; [lia|].
  rewrite decide_True by lia. destruct (He a ltac:(lia)) as (b & Hb & (H1 & _ & _ & h & H2 & H3 & H4)). exists (name tip), b, h.
  split; [done|]. split; [by eapply window_ancestor; [| |exact He]; lia|done].
Qed.
End Window.
End header_sync_window.
