(* ===== verification/HeaderSyncLaws.v ===== *)
(** What header synchronisation guarantees.

    The invariant of [HeadersSyncState] over all messages of a peer: what was
    downloaded first and again, and what was released. *)

From Stdlib Require Import ZArith Lia.
From stdpp Require Import base list numbers gmap tactics.
From S2P Require Import Prelude Sha256 ArithUint256 Compact Params MatMulPow BlockIndex ChainWork AsertParams Credit Asert Retarget Header HeaderPow.
From S2P Require Import HeaderSync HeaderSyncWindow.
Import arith_uint256 Consensus matmul_pow block_index chain_work asert_params credit asert retarget block_header header_pow header_sync header_sync_window.

Open Scope Z_scope.

Module header_sync_laws.

(** ** Chains of headers *)
Fixpoint chained (prev : list Z) (l : list CBlockHeader) : Prop :=
  match l with
  | [] => True
  | h :: l => h_hashPrevBlock h = prev ∧ chained (GetHash h) l
  end.

Fixpoint last_hash (prev : list Z) (l : list CBlockHeader) : list Z :=
  match l with
  | [] => prev
  | h :: l => last_hash (GetHash h) l
  end.

Lemma chained_app l1 : ∀ prev l2, chained prev (l1 ++ l2) ↔ chained prev l1 ∧ chained (last_hash prev l1) l2.
Proof. induction l1 as [|h l1 IH]; intros prev l2; cbn [chained last_hash app]; [tauto|]. rewrite IH. tauto. Qed.

Lemma last_hash_app l1 : ∀ prev l2, last_hash prev (l1 ++ l2) = last_hash (last_hash prev l1) l2.
Proof. induction l1 as [|h l1 IH]; intros prev l2; cbn [last_hash app]; [done|apply IH]. Qed.

(** A header is its compressed form and its parent's hash. *)
Lemma full_header h : GetFullHeader (CompressedHeader_of h) (h_hashPrevBlock h) = h.
Proof. by destruct h. Qed.

(** The work of a chain from [w] on, as the code adds it. *)
Definition add_work (w : list Z) (h : CBlockHeader) : list Z := match GetBlockProof (index_of h) with Ok proof => add w proof | Err _ => w end.
Definition work_of (w : list Z) (l : list CBlockHeader) : list Z := foldl add_work w l.

Lemma work_of_snoc w l h proof : GetBlockProof (index_of h) = Ok proof → work_of w (l ++ [h]) = add (work_of w l) proof.
Proof. intros E. unfold work_of. rewrite foldl_app. cbn [foldl]. unfold add_work at 1. by rewrite E. Qed.

Section Sync.
Context {T : Type} `{CppInt T} (k : SyncConfig).

(** The bits of a chain whose parent is at [height]. *)
Fixpoint bits_of (height : Z) (l : list CBlockHeader) : list bool :=
  match l with
  | [] => []
  | h :: l => (if committed k (height + 1) then [commitment_of k h] else []) ++ bits_of (height + 1) l
  end.

Lemma bits_of_app l1 : ∀ height l2, bits_of height (l1 ++ l2) = bits_of height l1 ++ bits_of (height + zlen l1) l2.
Proof.
  induction l1 as [|h l1 IH]; intros height l2; cbn [bits_of app].
  - f_equal. unfold zlen. cbn [length]. lia.
  - rewrite IH, app_assoc. do 2 f_equal. unfold zlen. cbn [length]. lia.
Qed.

(** ** Memory *)
Definition names (window : list (list Z)) : Prop := Forall (λ p, length p = 2%nat) window.

(** The entries with a hash keep everything but their annotations. *)
Definition keeps (σ σ' : BlockMap) : Prop :=
  ∀ p, length p = 32%nat → (λ b, set_credit b 0 0) <$> σ !! p = (λ b, set_credit b 0 0) <$> σ' !! p.

Lemma keeps_refl σ : keeps σ σ.
Proof. done. Qed.
Lemma keeps_trans σ1 σ2 σ3 : keeps σ1 σ2 → keeps σ2 σ3 → keeps σ1 σ3.
Proof. intros H1 H2 p Hp. by rewrite H1, H2. Qed.
Lemma keeps_same σ σ' : same_but_cache σ σ' → keeps σ σ'.
Proof. intros Hs p _. apply Hs. Qed.
Lemma keeps_insert σ p b : length p = 2%nat → keeps σ (<[p := b]> σ).
Proof. intros Hp q Hq. rewrite lookup_insert_ne; [done|]. intros ->. lia. Qed.
Lemma keeps_delete σ p : length p = 2%nat → keeps σ (delete p σ).
Proof. intros Hp q Hq. rewrite lookup_delete_ne; [done|]. intros ->. lia. Qed.
Lemma keeps_clear σ window : names window → keeps σ (clear_window σ window).
Proof.
  unfold clear_window. induction 1 as [|p w Hp _ IH]; [apply keeps_refl|]. cbn. eapply keeps_trans; [exact IH|by apply keeps_delete].
Qed.

Lemma trim_keeps floor window : ∀ σ σ' w, names window → trim_window σ floor window = Ok (σ', w) → keeps σ σ' ∧ names w.
Proof.
  induction window as [|o rest IH]; intros σ σ' w Hn; cbn [trim_window].
  { case_match; intros [= <- <-]; split; try done; apply keeps_refl. }
  case_match; [intros [= <- <-]; split; [apply keeps_refl|done]|].
  destruct rest as [|q rest]; [intros [= <- <-]; split; [apply keeps_refl|done]|].
  intros (ob & _ & E)%bind_Ok_inv. case_match; [injection E as <- <-; split; [apply keeps_refl|done]|].
  apply bind_Ok_inv in E as (qb & _ & E). inversion Hn as [|? ? Ho Hn']; subst. inversion Hn' as [|? ? Hq Hn'']; subst.
  apply IH in E as [Hk Hw]; [|done]. split; [|done]. eapply keeps_trans; [|exact Hk].
  eapply keeps_trans; [by apply keeps_insert|by apply keeps_delete].
Qed.

Lemma check_difficulty_keeps σ h height bits phase prev window σ' r :
  names window → check_difficulty (T:=T) k σ h height bits phase prev window = Ok (σ', r) →
  keeps σ σ' ∧ match r with Some (_, w) => names w | None => True end.
Proof.
  intros Hn. unfold check_difficulty. case_match.
  - intros ([σ1 r1] & E1 & [= <- <-])%bind_Ok_inv. unfold ValidateAndAdvanceMatMulDifficulty in E1.
    case_match; [injection E1 as <- <-; split; [apply keeps_refl|done]|].
    destruct prev as [prev|]; [|injection E1 as <- <-; split; [apply keeps_refl|done]].
    apply bind_Ok_inv in E1 as ([e σ2] & Hs%GetNextWorkRequired_same%keeps_same & E1).
    case_match; [injection E1 as <- <-; by split|]. case_match; [injection E1 as <- <-; by split|].
    apply bind_Ok_inv in E1 as ([[σ3 p] w] & E3 & [= <- <-]). unfold AdvanceSyntheticIndexWindow in E3.
    apply bind_Ok_inv in E3 as ([σ4 w4] & E4 & [= <- <- <-]). apply trim_keeps in E4 as [Hk Hw].
    + split; [|done]. eapply keeps_trans; [exact Hs|]. eapply keeps_trans; [|exact Hk]. by apply keeps_insert.
    + apply list.Forall_app. split; [done|]. by constructor.
  - intros (b & _ & E)%bind_Ok_inv. apply bind_Ok_inv in E as (ok & _ & [= <- <-]). split; [apply keeps_refl|]. by destruct ok.
Qed.

(** ** What a peer has sent *)

(** The chain starts at the entry [b0] of the block index [σ0]. *)
Context (σ0 : BlockMap) (b0 : CBlockIndex) (Hb0 : σ0 !! m_chain_start k = Some b0) (Hstart : length (m_chain_start k) = 32%nat).

Notation h0 := (nHeight b0).
Notation w0 := (nChainWork b0).
Notation enough w := (geb w (m_minimum_required_work k) = true).

Lemma start_kept σ : keeps σ0 σ → ∃ b, σ !! m_chain_start k = Some b ∧ nHeight b = h0 ∧ nChainWork b = w0 ∧ nBits b = nBits b0.
Proof.
  intros Hk. specialize (Hk _ Hstart). rewrite Hb0 in Hk. destruct (σ !! m_chain_start k) as [b|]; [|done].
  exists b. destruct b, b0. injection Hk as -> -> -> -> -> -> -> -> ->. done.
Qed.

Definition mem_ok (s : HeadersSyncState) : Prop :=
  keeps σ0 (m_index s) ∧ names (m_presync_index_window s) ∧ names (m_redownload_index_window s).

Definition proven (h : CBlockHeader) : Prop := ∃ proof, GetBlockProof (index_of h) = Ok proof.

(** After the headers [P] of the first phase. *)
Record presync_ok (s : HeadersSyncState) (P : list CBlockHeader) : Prop := {
  pre_state : m_download_state s = PRESYNC;
  pre_mem : mem_ok s;
  pre_bits : m_header_commitments s = bits_of h0 P;
  pre_height : m_current_height s = h0 + zlen P;
  pre_work : m_current_chain_work s = work_of w0 P;
  pre_bound : zlen (m_header_commitments s) ≤ m_max_commitments k;
  pre_proven : Forall proven P;
  pre_range : P = [] ∨ IsRepresentableBlockIndexHeight (h0 + zlen P) = true;
  pre_rest : m_redownloaded_headers s = [] ∧ m_process_all_remaining_headers s = false;
  pre_window : fMatMulPOW (params k) = true →
    window_ok k h0 false (m_index s) (m_current_height s) (m_presync_last_index s) (m_presync_index_window s) P;
}.

(** The headers [R] of the second phase follow the bits of [P] until their
    work suffices: [all] tells whether it does. *)
Definition follows (P R : list CBlockHeader) (bits : list bool) (all : bool) : Prop :=
  if all then ∃ R1 h R2, R = R1 ++ h :: R2 ∧ bits_of h0 R1 `prefix_of` bits_of h0 P ∧ enough (work_of w0 (R1 ++ [h]))
  else bits_of h0 P = bits_of h0 R ++ bits.

(** After the headers [P] of the first phase and [R] of the second, of which
    [rel] are released and [buf] are not. *)
Record redownload_ok (s : HeadersSyncState) (P R rel buf : list CBlockHeader) : Prop := {
  red_state : m_download_state s = REDOWNLOAD;
  red_mem : mem_ok s;
  red_presync : enough (work_of w0 P) ∧ Forall proven P ∧ (P = [] ∨ IsRepresentableBlockIndexHeight (h0 + zlen P) = true);
  red_split : R = rel ++ buf;
  red_chained : chained (m_chain_start k) R;
  red_buffer : m_redownloaded_headers s = map CompressedHeader_of buf;
  red_first : m_redownload_buffer_first_prev_hash s = last_hash (m_chain_start k) rel;
  red_last : m_redownload_buffer_last_hash s = last_hash (m_chain_start k) R;
  red_height : m_redownload_buffer_last_height s = h0 + zlen R;
  red_work : m_redownload_chain_work s = work_of w0 R;
  red_bound : zlen (m_header_commitments s) ≤ m_max_commitments k;
  red_follows : follows P R (m_header_commitments s) (m_process_all_remaining_headers s);
  red_enough : R ≠ [] → enough (work_of w0 R) → m_process_all_remaining_headers s = true;
  red_window : fMatMulPOW (params k) = true →
    window_ok k h0 true (m_index s) (m_redownload_buffer_last_height s) (m_redownload_last_index s) (m_redownload_index_window s) R;
}.

(** *** One header of the first phase *)
#[local] Opaque commitment_of GetHash check_difficulty GetBlockProof bits_of work_of.

Lemma presync_header s P h ok s' :
  presync_ok s P → ValidateAndProcessSingleHeader (T:=T) k s h = Ok (ok, s') →
  (ok = true ∧ presync_ok s' (P ++ [h])) ∨ (ok = false ∧ mem_ok s').
Proof.
  intros I. pose proof I as [Hst [Hk [Hn1 Hn2]] Hbits Hh Hw Hbd Hpr Hrg Hrest Hwin]. unfold ValidateAndProcessSingleHeader.
  destruct (bool_decide _) eqn:Hd; cbn [negb]; [|intros [= <- <-]; by right].
  destruct (m_current_height s =? INT64_MAX); [intros [= <- <-]; by right|]. cbv zeta.
  destruct (IsRepresentableBlockIndexHeight (m_current_height s + 1)) eqn:Hrep; cbn [negb]; [|intros [= <- <-]; by right].
  intros ([σ r] & Hcheck & E)%bind_Ok_inv. pose proof Hcheck as [Hk' Hn]%check_difficulty_keeps; [|done].
  assert (keeps σ0 σ) by (by eapply keeps_trans). destruct r as [[li w]|]; [|injection E as <- <-; by right].
  destruct (_ && _) eqn:Hmax in E; [injection E as <- <-; by right|].
  apply bind_Ok_inv in E as (proof & Hproof & E). injection E as <- <-. left. split; [done|].
  assert (Hz : h0 + zlen (P ++ [h]) = m_current_height s + 1) by (rewrite Hh, zlen_app; unfold zlen; cbn [length]; lia).
  assert (Hb : m_header_commitments s ++ (if committed k (m_current_height s + 1) then [commitment_of k h] else []) = bits_of h0 (P ++ [h])).
  { rewrite bits_of_app, <-Hbits, <-Hh. cbn [bits_of]. by rewrite app_nil_r. }
  constructor; cbn [m_download_state m_index m_presync_index_window m_redownload_index_window m_header_commitments m_current_height
    m_current_chain_work m_redownloaded_headers m_process_all_remaining_headers]; try done.
  - by rewrite (work_of_snoc _ _ _ _ Hproof), Hw.
  - destruct (committed _ _); [cbn [andb] in Hmax; by apply Z.ltb_ge in Hmax|by rewrite app_nil_r].
  - apply list.Forall_app. split; [done|]. constructor; [|done]. by eexists.
  - right. by rewrite Hz.
  - intros Hm. eapply check_difficulty_window; [done| |by apply Hwin|exact Hcheck]. lia.
Qed.

(** A loop over headers: an invariant [I] of the headers seen. *)
Lemma all_headers_inv (f : HeadersSyncState → CBlockHeader → result (bool * HeadersSyncState)) (I : HeadersSyncState → list CBlockHeader → Prop) :
  (∀ s P h ok s', I s P → f s h = Ok (ok, s') → (ok = true ∧ I s' (P ++ [h])) ∨ (ok = false ∧ mem_ok s')) →
  ∀ headers s P ok s', I s P → all_headers f headers s = Ok (ok, s') → (ok = true ∧ I s' (P ++ headers)) ∨ (ok = false ∧ mem_ok s').
Proof.
  intros Hf headers. induction headers as [|h headers IH]; intros s P ok s' HI; cbn [all_headers].
  - intros [= <- <-]. left. by rewrite app_nil_r.
  - intros ([ok1 s1] & E1 & E)%bind_Ok_inv. destruct (Hf _ _ _ _ _ HI E1) as [[-> HI1]|[-> Hm]].
    + apply (IH s1 (P ++ [h])) in E; [|done]. by rewrite <-app_assoc in E.
    + injection E as <- <-. by right.
Qed.

(** *** One header of the second phase *)
Lemma follows_step P R bits all h bits' all' :
  follows P R bits all →
  all' = all || geb (work_of w0 (R ++ [h])) (m_minimum_required_work k) →
  (all' = false → bits = bits_of (h0 + zlen R) [h] ++ bits') → follows P (R ++ [h]) bits' all'.
Proof.
  intros Hf -> Hbits. destruct all; cbn [orb] in *.
  - destruct Hf as (R1 & h1 & R2 & -> & Hp & Hw). exists R1, h1, (R2 ++ [h]). split; [by rewrite <-app_assoc|done].
  - unfold follows in Hf. destruct (geb _ _) eqn:Hw; unfold follows.
    + exists R, h, []. split; [done|]. split; [|done]. rewrite Hf. by exists bits.
    + by rewrite bits_of_app, <-app_assoc, <-Hbits.
Qed.

Lemma redownload_header P rel s R h ok s' :
  (∃ buf, redownload_ok s P R rel buf) → ValidateAndStoreRedownloadedHeader (T:=T) k s h = Ok (ok, s') →
  (ok = true ∧ ∃ buf, redownload_ok s' P (R ++ [h]) rel buf) ∨ (ok = false ∧ mem_ok s').
Proof.
  intros (buf & [Hst [Hk [Hn1 Hn2]] Hpre Hsplit Hch Hbuf Hfirst Hlast Hh Hw Hbd Hfol Henough Hwin]). unfold ValidateAndStoreRedownloadedHeader.
  destruct (bool_decide (m_download_state s = REDOWNLOAD)); cbn [negb]; [|intros [= <- <-]; by right].
  destruct (m_redownload_buffer_last_height s =? INT64_MAX); [intros [= <- <-]; by right|]. cbv zeta.
  destruct (IsRepresentableBlockIndexHeight (m_redownload_buffer_last_height s + 1)); cbn [negb]; [|intros [= <- <-]; by right].
  destruct (bool_decide (h_hashPrevBlock h = _)) eqn:Hprev; cbn [negb]; [apply bool_decide_eq_true in Hprev|intros [= <- <-]; by right].
  intros ([σ r] & Hcheck & E)%bind_Ok_inv. pose proof Hcheck as [Hk' Hn]%check_difficulty_keeps; [|done].
  assert (keeps σ0 σ) by (by eapply keeps_trans). destruct r as [[li w]|]; [|injection E as <- <-; by right].
  apply bind_Ok_inv in E as (proof & Hproof & E). pose proof (work_of_snoc w0 R h proof Hproof) as Hwork. rewrite <-Hw in Hwork.
  set (all := m_process_all_remaining_headers s || _) in E.
  assert (Hall : all = m_process_all_remaining_headers s || geb (work_of w0 (R ++ [h])) (m_minimum_required_work k)) by (by rewrite Hwork).
  assert (Hgo : ∀ bits', zlen bits' ≤ zlen (m_header_commitments s) →
    (all = false → m_header_commitments s = bits_of (h0 + zlen R) [h] ++ bits') →
    redownload_ok (mkSync σ (m_current_chain_work s) bits' (m_last_header_received s) (m_current_height s) (m_presync_last_index s)
      (m_presync_index_window s) (m_redownloaded_headers s ++ [CompressedHeader_of h]) (m_redownload_buffer_last_height s + 1) (GetHash h)
      (m_redownload_buffer_first_prev_hash s) (add (m_redownload_chain_work s) proof) li w all (m_download_state s)) P (R ++ [h]) rel (buf ++ [h])).
  { intros bits' Hle Hbits. constructor; cbn; try done.
    - rewrite Hsplit. by rewrite app_assoc.
    - apply chained_app. split; [done|]. split; [by rewrite Hprev|done].
    - by rewrite Hbuf, map_app.
    - by rewrite last_hash_app.
    - rewrite Hh, zlen_app. unfold zlen. cbn [length]. lia.
    - lia.
    - by eapply follows_step.
    - intros _ He. rewrite Hall, He. apply orb_true_r.
    - intros Hm. eapply check_difficulty_window; [done| |by apply Hwin|exact Hcheck]. lia. }
  clearbody all. destruct all eqn:Ha; cbn [negb andb] in E.
  { injection E as <- <-. left. split; [done|]. eexists. by apply Hgo. }
  assert (Hone : bits_of (h0 + zlen R) [h] = if committed k (m_redownload_buffer_last_height s + 1) then [commitment_of k h] else []).
  { rewrite Hh. cbn [bits_of]. by rewrite app_nil_r. }
  rewrite Hone in Hgo. destruct (committed _ _).
  - destruct (m_header_commitments s) as [|e bits'] eqn:Hc; [injection E as <- <-; by right|].
    destruct (Bool.eqb_spec (commitment_of k h) e) as [<-|_]; [|injection E as <- <-; by right].
    injection E as <- <-. left. split; [done|]. eexists. apply Hgo; [unfold zlen; cbn [length]; lia|done].
  - injection E as <- <-. left. split; [done|]. eexists. by apply Hgo.
Qed.

(** *** Release *)
Lemma pop_ready_split all buf : ∀ prev ret rest prev',
  chained prev buf → pop_ready all (map CompressedHeader_of buf) prev = (ret, rest, prev') →
  ∃ buf', buf = ret ++ buf' ∧ rest = map CompressedHeader_of buf' ∧ prev' = last_hash prev ret ∧
    zlen buf' ≤ REDOWNLOAD_BUFFER_SIZE ∧ (if all then buf' = [] else ret = [] ∨ zlen buf' = REDOWNLOAD_BUFFER_SIZE).
Proof.
  induction buf as [|h buf IH]; intros prev ret rest prev'; cbn [map pop_ready].
  { intros _ [= <- <- <-]. exists []. repeat split; [done|]. destruct all; auto. }
  intros [Hp Hc]. change (?c :: map _ buf) with (map CompressedHeader_of (h :: buf)).
  replace (zlen (map CompressedHeader_of (h :: buf))) with (zlen (h :: buf)) by (unfold zlen; by rewrite length_map).
  destruct (_ || _) eqn:Hgo.
  - rewrite <-Hp, full_header. destruct (pop_ready _ _ _) as [[ret1 rest1] prev1] eqn:E1. intros [= <- <- <-].
    apply (IH _ _ _ _ Hc) in E1 as (buf' & -> & -> & -> & Hle & Hall). exists buf'. repeat split; [done|].
    destruct all; [done|]. right. destruct Hall as [->|]; [|done]. rewrite orb_false_r in Hgo. apply Z.ltb_lt in Hgo.
    unfold zlen in *. cbn [length app] in Hgo. lia.
  - intros [= <- <- <-]. apply orb_false_iff in Hgo as [Hlt ->]. apply Z.ltb_ge in Hlt. exists (h :: buf). repeat split; [done|]. by left.
Qed.

(** *** Between two messages *)

(** What may be said of released headers. *)
Definition sound (P R rel : list CBlockHeader) : Prop :=
  rel = [] ∨
  enough (work_of w0 P) ∧ chained (m_chain_start k) R ∧ rel `prefix_of` R ∧
  (bits_of h0 R `prefix_of` bits_of h0 P ∧ zlen rel + REDOWNLOAD_BUFFER_SIZE ≤ zlen R ∨
   ∃ R1 h R2, R = R1 ++ h :: R2 ∧ bits_of h0 R1 `prefix_of` bits_of h0 P ∧ enough (work_of w0 (R1 ++ [h]))).

(** Nothing is kept. *)
Definition final_ok (s : HeadersSyncState) : Prop :=
  m_header_commitments s = [] ∧ m_redownloaded_headers s = [] ∧ m_presync_index_window s = [] ∧ m_redownload_index_window s = [] ∧
  m_presync_last_index s = None ∧ m_redownload_last_index s = None.

Definition between (s : HeadersSyncState) (P R rel : list CBlockHeader) : Prop :=
  match m_download_state s with
  | PRESYNC => presync_ok s P ∧ R = [] ∧ rel = []
  | REDOWNLOAD => m_process_all_remaining_headers s = false ∧
                  ∃ buf, redownload_ok s P R rel buf ∧ zlen buf ≤ REDOWNLOAD_BUFFER_SIZE ∧ (rel = [] ∨ zlen buf = REDOWNLOAD_BUFFER_SIZE)
  | FINAL => final_ok s ∧ sound P R rel
  end.

Lemma Finalize_between s P R rel : sound P R rel → between (Finalize s) P R rel.
Proof. intros Hs. unfold between. cbn. by split. Qed.

Lemma between_sound s P R rel : between s P R rel → sound P R rel.
Proof.
  unfold between. destruct (m_download_state s) eqn:Hst.
  - intros (_ & _ & ->). by left.
  - intros (Hall & buf & [_ _ (Hw & _) -> Hch _ _ _ _ _ _ Hfol _ _] & _ & [->|Hlen]); [by left|right].
    rewrite Hall in Hfol. unfold follows in Hfol. split; [done|]. split; [done|]. split; [by eexists|left].
    split; [rewrite Hfol; by eexists|]. rewrite zlen_app. lia.
  - by intros [_ Hs].
Qed.

(** The headers of a message that count for a phase. *)
Definition counted (phase : State) (s : HeadersSyncState) (r : ProcessingResult) (hs : list CBlockHeader) : list CBlockHeader :=
  if bool_decide (m_download_state s = phase) && success r then hs else [].

Lemma presync_message s P hs ok s' :
  presync_ok s P → ValidateAndStoreHeadersCommitments (T:=T) k s hs = Ok (ok, s') → ok = true → between s' (P ++ hs) [] [].
Proof.
  intros HI. unfold ValidateAndStoreHeadersCommitments. destruct hs as [|h hs].
  { intros [= <- <-] _. rewrite app_nil_r. unfold between. by rewrite (pre_state _ _ HI). }
  destruct (bool_decide (m_download_state s = PRESYNC)); cbn [negb]; [|by intros [= <- <-]].
  destruct (bool_decide (h_hashPrevBlock h = _)); cbn [negb]; [|by intros [= <- <-]].
  intros ([ok1 s1] & E1 & E)%bind_Ok_inv ->. apply (all_headers_inv _ _ presync_header _ _ _ _ _ HI) in E1 as [[-> HI1]|[-> _]]; [|done].
  cbn [negb] in E. destruct (geb _ _) eqn:Hw.
  - apply bind_Ok_inv in E as (s2 & E2 & [= <-]). unfold start_redownload in E2. destruct HI1 as [Hst [Hk [Hn1 Hn2]] Hbits Hh Hwk Hbd Hpr Hrg [_ Hall] _].
    destruct (start_kept _ Hk) as (b & Hb & Hhb & Hwb & _). unfold deref in E2. rewrite Hb in E2. cbn in E2. injection E2 as <-.
    unfold between. cbn [m_download_state m_process_all_remaining_headers]. split; [done|]. exists []. split; [|split; [done|by left]].
    constructor; cbn; try done.
    + split; [|by split; [|constructor]]. eapply keeps_trans; [exact Hk|by apply keeps_clear].
    + by rewrite <-Hwk.
    + rewrite Hhb. unfold zlen. cbn [length]. lia.
    + by rewrite Hall, Hbits.
    + intros _. rewrite Hhb. apply window_start.
  - injection E as <-. unfold between. by rewrite (pre_state _ _ HI1).
Qed.

(** Release after a message of the second phase. *)
Lemma pop_message s P R rel buf ready s' :
  redownload_ok s P R rel buf → (rel = [] ∨ REDOWNLOAD_BUFFER_SIZE ≤ zlen buf) → PopHeadersReadyForAcceptance s = (ready, s') →
  m_process_all_remaining_headers s' = m_process_all_remaining_headers s ∧
  ∃ buf', redownload_ok s' P R (rel ++ ready) buf' ∧ zlen buf' ≤ REDOWNLOAD_BUFFER_SIZE ∧
    (if m_process_all_remaining_headers s then buf' = [] else rel ++ ready = [] ∨ zlen buf' = REDOWNLOAD_BUFFER_SIZE).
Proof.
  intros [Hst Hm Hpre Hsplit Hch Hbuf Hfirst Hlast Hh Hw Hbd Hfol Henough Hwin] Hrel. unfold PopHeadersReadyForAcceptance. rewrite Hst, bool_decide_eq_true_2 by done.
  cbn [negb]. destruct (pop_ready _ _ _) as [[ret rest] prev] eqn:E. intros [= <- <-]. split; [done|].
  assert (Hc : chained (last_hash (m_chain_start k) rel) buf) by (rewrite Hsplit in Hch; by apply chained_app in Hch as [_ ?]).
  rewrite Hbuf, Hfirst in E. apply (pop_ready_split _ _ _ _ _ _ Hc) in E as (buf' & -> & -> & -> & Hle & Hall). exists buf'. split; [|split; [done|]].
  - constructor; cbn; try done; [by rewrite Hsplit, app_assoc|by rewrite last_hash_app].
  - destruct (m_process_all_remaining_headers s); [done|]. destruct Hall as [->|]; [|by right]. rewrite app_nil_r. destruct Hrel as [->|Hrel]; [by left|].
    right. cbn [app] in Hrel. lia.
Qed.

Lemma redownload_grow P rel s R hs ok s' :
  (∃ buf, redownload_ok s P R rel buf ∧ (rel = [] ∨ REDOWNLOAD_BUFFER_SIZE ≤ zlen buf)) →
  all_headers (ValidateAndStoreRedownloadedHeader (T:=T) k) hs s = Ok (ok, s') → ok = true →
  ∃ buf, redownload_ok s' P (R ++ hs) rel buf ∧ (rel = [] ∨ REDOWNLOAD_BUFFER_SIZE ≤ zlen buf).
Proof.
  intros (buf & HI & Hrel) E ->. assert (HI' : ∃ buf, redownload_ok s P R rel buf) by (by exists buf).
  apply (all_headers_inv _ _ (redownload_header P rel) _ _ _ _ _ HI') in E as [[_ (buf' & HI1)]|[? _]]; [|done].
  exists buf'. split; [done|]. destruct Hrel as [|Hrel]; [by left|right]. pose proof (red_split _ _ _ _ _ HI) as E1.
  pose proof (red_split _ _ _ _ _ HI1) as E2. rewrite E1, <-app_assoc in E2. apply app_inv_head in E2 as <-. rewrite zlen_app.
  pose proof (zlen_nonneg hs). lia.
Qed.

Lemma message_between s P R rel hs full r s' :
  between s P R rel → ProcessNextHeaders (T:=T) k s hs full = Ok (r, s') →
  between s' (P ++ counted PRESYNC s r hs) (R ++ counted REDOWNLOAD s r hs) (rel ++ pow_validated_headers r).
Proof.
  intros HI. unfold ProcessNextHeaders, counted. destruct hs as [|h hs].
  { intros [= <- <-]. cbn. by rewrite !andb_false_r, !app_nil_r. }
  pose proof (between_sound _ _ _ _ HI) as Hs. unfold between in HI. destruct (m_download_state s) eqn:Hst.
  - destruct HI as (HI & -> & ->). intros ([ok s1] & E1 & E)%bind_Ok_inv. unfold finish in E. cbn [success request_more] in E.
    injection E as <- <-. cbn [success pow_validated_headers app andb]. destruct ok; cbn [andb].
    + pose proof (presync_message _ _ _ _ _ HI E1 eq_refl) as HB. change (if bool_decide (PRESYNC = PRESYNC) then h :: hs else []) with (h :: hs).
      case_match; [done|]. apply Finalize_between. by left.
    + change (if bool_decide (PRESYNC = REDOWNLOAD) && false then h :: hs else []) with (@nil CBlockHeader). apply Finalize_between. by left.
  - destruct HI as (Hall & buf & HI & Hle & Hlen). intros ([ok s1] & E1 & E)%bind_Ok_inv. destruct ok; cbn [negb] in E.
    + apply (redownload_grow P rel _ R) in E1 as (buf1 & HI1 & Hrel); [|by exists buf; split; [|destruct Hlen; [left|right; lia]]|done].
      destruct (PopHeadersReadyForAcceptance s1) as [ready s2] eqn:Hpop. unfold finish in E. cbn [success request_more andb] in E.
      injection E as <- <-. cbn [success pow_validated_headers]. rewrite (bool_decide_eq_false_2 (REDOWNLOAD = PRESYNC)) by done.
      rewrite (bool_decide_eq_true_2 (REDOWNLOAD = REDOWNLOAD)) by done. cbn [andb]. rewrite app_nil_r.
      destruct (pop_message _ _ _ _ _ _ _ HI1 Hrel Hpop) as (Hall2 & buf2 & HI2 & Hle2 & Hend). rewrite <-Hall2 in Hend.
      destruct (m_process_all_remaining_headers s2) eqn:Ha.
      * subst buf2. rewrite (red_buffer _ _ _ _ _ HI2). cbn [map zlen length Z.of_nat Z.eqb andb negb]. apply Finalize_between. right.
        destruct HI2 as [_ _ (Hw & _) -> Hch _ _ _ _ _ _ Hfol _ _]. rewrite app_nil_r in *. rewrite Ha in Hfol.
        split; [done|]. split; [done|]. split; [done|by right].
      * assert (HB : between s2 P (R ++ h :: hs) (rel ++ ready)) by (unfold between; rewrite (red_state _ _ _ _ _ HI2); split; [done|by exists buf2]).
        case_match; [done|]. apply Finalize_between. by eapply between_sound.
    + injection E as <- <-. cbn [success pow_validated_headers]. rewrite !andb_false_r, !app_nil_r. by apply Finalize_between.
  - intros [= <- <-]. cbn [success pow_validated_headers]. rewrite !andb_false_r, !app_nil_r. unfold between. by rewrite Hst.
Qed.

(** *** A peer that sends the same headers again *)

(** The targets of the headers are in order. *)
Fixpoint targets_ok (σ : BlockMap) (height : Z) (bits : result Z) (last_index : option (list Z)) (window : list (list Z))
    (hs : list CBlockHeader) : bool :=
  match hs with
  | [] => true
  | h :: hs =>
      match check_difficulty (T:=T) k σ h (height + 1) bits true last_index window with
      | Ok (σ, Some (last_index, window)) => targets_ok σ (height + 1) (Ok (h_nBits h)) last_index window hs
      | _ => false
      end
  end.

Definition previous_bits (s : HeadersSyncState) : result Z :=
  match list.last (m_redownloaded_headers s) with
  | Some c => Ok (c_nBits c)
  | None => b ← deref (m_index s) (m_chain_start k); Ok (nBits b)
  end.

Definition targets_follow (s : HeadersSyncState) (hs : list CBlockHeader) : bool :=
  targets_ok (m_index s) (m_redownload_buffer_last_height s) (previous_bits s) (m_redownload_last_index s) (m_redownload_index_window s) hs.

Lemma same_header s P R rel buf h hs :
  0 ≤ h0 → redownload_ok s P R rel buf → R ++ h :: hs `prefix_of` P → h_hashPrevBlock h = last_hash (m_chain_start k) R →
  targets_follow s (h :: hs) = true →
  ∃ s', ValidateAndStoreRedownloadedHeader (T:=T) k s h = Ok (true, s') ∧ targets_follow s' hs = true.
Proof.
  intros H0 [Hst _ (_ & Hpr & Hrg) _ _ _ _ Hlast Hh _ _ Hfol _ _] [Q HP] Hprev Ht. unfold ValidateAndStoreRedownloadedHeader.
  rewrite Hst, bool_decide_eq_true_2 by done. cbn [negb].
  assert (Hlen : IsRepresentableBlockIndexHeight (h0 + zlen P) = true) by (destruct Hrg as [->|]; [by destruct R|done]).
  assert (Hz : zlen P = zlen R + 1 + zlen hs + zlen Q) by (rewrite HP, !zlen_app; unfold zlen; cbn [length]; lia).
  pose proof (zlen_nonneg R). pose proof (zlen_nonneg hs). pose proof (zlen_nonneg Q).
  unfold IsRepresentableBlockIndexHeight in *. rewrite Hz in Hlen. unfold INT32_MAX, INT64_MAX in *. cbv zeta.
  apply andb_true_iff in Hlen as [_ Hlen%Z.leb_le].
  rewrite (proj2 (Z.eqb_neq _ _)) by lia. rewrite (proj2 (andb_true_iff _ _)) by (split; apply Z.leb_le; lia). cbn [negb].
  rewrite (bool_decide_eq_true_2 (h_hashPrevBlock h = _)) by congruence. cbn [negb].
  unfold targets_follow in Ht. cbn [targets_ok] in Ht. change (match list.last _ with Some _ => _ | None => _ end) with (previous_bits s).
  destruct (check_difficulty _ _ _ _ _ _ _ _) as [[σ [[li w]|]]|]; [|done|done]. cbn [mbind result_bind].
  assert (Hp : proven h) by (rewrite HP in Hpr; apply list.Forall_app in Hpr as [Hpr _]; apply list.Forall_app in Hpr as [_ Hpr]; by inversion Hpr).
  destruct Hp as [proof ->]. cbn [mbind result_bind].
  assert (Hnext : ∀ c b hgt hash all, targets_follow (mkSync σ (m_current_chain_work s) c (m_last_header_received s) (m_current_height s)
      (m_presync_last_index s) (m_presync_index_window s) (m_redownloaded_headers s ++ [CompressedHeader_of h]) (m_redownload_buffer_last_height s + 1) hash
      hgt b li w all REDOWNLOAD) hs = true).
  { intros. unfold targets_follow, previous_bits. cbn. by rewrite list.last_snoc. }
  unfold follows in Hfol. destruct (m_process_all_remaining_headers s) eqn:Ha; cbn [orb negb andb].
  { eexists. split; [done|apply Hnext]. }
  destruct (geb _ _); cbn [negb andb]; [eexists; split; [done|apply Hnext]|]. rewrite HP, <-app_assoc, bits_of_app in Hfol. cbn [app bits_of] in Hfol.
  apply app_inv_head in Hfol. rewrite <-Hh in Hfol. destruct (committed _ _).
  - rewrite <-Hfol. cbn [app]. destruct (Bool.eqb_spec (commitment_of k h) (commitment_of k h)) as [_|[]]; [|done].
    eexists. split; [done|apply Hnext].
  - eexists. split; [done|apply Hnext].
Qed.

Lemma same_headers P rel hs : ∀ s R,
  0 ≤ h0 → (∃ buf, redownload_ok s P R rel buf) → R ++ hs `prefix_of` P → chained (last_hash (m_chain_start k) R) hs →
  targets_follow s hs = true → ∃ s', all_headers (ValidateAndStoreRedownloadedHeader (T:=T) k) hs s = Ok (true, s').
Proof.
  induction hs as [|h hs IH]; intros s R H0 HI Hp Hc Ht; cbn [all_headers]; [by eexists|]. destruct Hc as [Hprev Hc], HI as [buf HI].
  destruct (same_header _ _ _ _ _ _ _ H0 HI Hp Hprev Ht) as (s1 & E1 & Ht1). rewrite E1. cbn [mbind result_bind].
  destruct (redownload_header P rel s R h true s1) as [[_ HI1]|[? _]]; [by exists buf|done| |done].
  apply (IH s1 (R ++ [h])); [done|done|by rewrite <-app_assoc|by rewrite last_hash_app|done].
Qed.

Lemma same_message s P R rel hs full :
  0 ≤ h0 → between s P R rel → m_download_state s = REDOWNLOAD → hs ≠ [] → R ++ hs `prefix_of` P →
  chained (last_hash (m_chain_start k) R) hs → targets_follow s hs = true →
  ∃ r s', ProcessNextHeaders (T:=T) k s hs full = Ok (r, s') ∧ success r = true ∧
    (request_more r = full ∨ rel ++ pow_validated_headers r = R ++ hs ∧ request_more r = false) ∧
    (R ++ hs = P → rel ++ pow_validated_headers r = P ∧ request_more r = false).
Proof.
  intros H0 HI Hst Hne Hp Hc Ht. unfold between in HI. rewrite Hst in HI. destruct HI as (_ & buf & HI & _ & Hlen).
  destruct (same_headers P rel hs s R H0 (ex_intro _ buf HI) Hp Hc Ht) as [s1 E1]. unfold ProcessNextHeaders. rewrite Hst.
  destruct hs as [|h hs]; [done|]. rewrite E1. cbn [mbind result_bind negb].
  apply (redownload_grow P rel _ R) in E1 as (buf1 & HI1 & Hrel); [|by exists buf; split; [|destruct Hlen; [left|right; lia]]|done].
  destruct (PopHeadersReadyForAcceptance s1) as [ready s2] eqn:Hpop.
  destruct (pop_message _ _ _ _ _ _ _ HI1 Hrel Hpop) as (Hall & buf2 & HI2 & _ & Hend). rewrite <-Hall in Hend.
  eexists _, _. split; [done|]. split; [done|]. cbn [request_more pow_validated_headers]. rewrite (red_buffer _ _ _ _ _ HI2).
  pose proof (red_split _ _ _ _ _ HI2) as Hsplit. destruct (m_process_all_remaining_headers s2) eqn:Ha.
  - subst buf2. rewrite app_nil_r in Hsplit. rewrite <-Hsplit. split; [by right|]. by intros <-.
  - rewrite andb_false_r. split; [by left|]. intros <-. pose proof (red_enough _ _ _ _ _ HI2) as He. rewrite Ha in He.
    discriminate He; [by destruct R|apply (red_presync _ _ _ _ _ HI2)].
Qed.

(** *** Sessions *)

(** The states a session reaches, with the headers of the messages that
    counted for each phase and the headers that were released. *)
Inductive session (s0 : HeadersSyncState) : HeadersSyncState → list CBlockHeader → list CBlockHeader → list CBlockHeader → Prop :=
  | session_start : session s0 s0 [] [] []
  | session_message s P R rel hs full r s' :
      session s0 s P R rel → ProcessNextHeaders (T:=T) k s hs full = Ok (r, s') →
      session s0 s' (P ++ counted PRESYNC s r hs) (R ++ counted REDOWNLOAD s r hs) (rel ++ pow_validated_headers r).

Lemma session_between s0 s P R rel : between s0 [] [] [] → session s0 s P R rel → between s P R rel.
Proof. intros Hi. induction 1; [done|by eapply message_between]. Qed.
End Sync.

Lemma max_commitments_bound now mtp :
  0 ≤ max_commitments now mtp ∧ 350 * max_commitments now mtp ≤ Z.max 0 (6 * (now - mtp + 7200)).
Proof.
  unfold max_commitments, MAX_FUTURE_BLOCK_TIME, HEADER_COMMITMENT_PERIOD, INT64_MAX. cbv zeta.
  rewrite (u64_small (_ + _)) by lia. set (t := Z.max _ _). assert (Ht : - (2 * 60 * 60) ≤ t ≤ Z.max (- (2 * 60 * 60)) (now - mtp)) by lia. clearbody t.
  change (2 ^ 64 - 1) with 18446744073709551615. destruct (Z.ltb_spec (18446744073709551615 / 6) (t + 2 * 60 * 60));
    Z.to_euclidean_division_equations; lia.
Qed.

Lemma new_between σ params cs hdr minw off key now k s0 b0 :
  σ !! cs = Some b0 → HeadersSyncState_new σ params cs hdr minw off key now = Ok (k, s0) → m_chain_start k = cs ∧ between k σ b0 s0 [] [] [].
Proof.
  intros Hb. unfold HeadersSyncState_new, deref. rewrite Hb. cbn [mbind result_bind]. intros (mtp & _ & [= <- <-])%bind_Ok_inv.
  split; [done|]. split; [|done]. destruct (max_commitments_bound now mtp). constructor; cbn [m_download_state m_index m_presync_index_window m_redownload_index_window m_header_commitments m_current_height
    m_current_chain_work m_redownloaded_headers m_process_all_remaining_headers m_max_commitments]; try done.
  - split; [apply keeps_refl|by split; constructor].
  - unfold zlen. cbn [length]. lia.
  - by left.
  - intros _. apply window_start.
Qed.

(** What the constructor fixes. *)
Lemma new_config σ params cs hdr minw off key now k s0 mtp :
  HeadersSyncState_new σ params cs hdr minw off key now = Ok (k, s0) → GetMedianTimePast σ cs = Ok mtp →
  k = mkSyncConfig off params cs minw key (max_commitments now mtp).
Proof.
  unfold HeadersSyncState_new. intros (b & _ & E)%bind_Ok_inv Hm. apply bind_Ok_inv in E as (mtp' & Hm' & [= <- _]). congruence.
Qed.

Lemma new_fixed σ params cs hdr minw off key now k s0 :
  HeadersSyncState_new σ params cs hdr minw off key now = Ok (k, s0) → m_minimum_required_work k = minw ∧ m_consensus_params k = params.
Proof.
  intros Hnew. pose proof Hnew as (b & _ & (mtp & Hm & _)%bind_Ok_inv)%bind_Ok_inv. by rewrite (new_config _ _ _ _ _ _ _ _ _ _ _ Hnew Hm).
Qed.

Lemma between_bounded k σ b0 s P R rel :
  0 ≤ m_max_commitments k → between k σ b0 s P R rel →
  zlen (m_header_commitments s) ≤ m_max_commitments k ∧ zlen (m_redownloaded_headers s) ≤ REDOWNLOAD_BUFFER_SIZE ∧
  (m_download_state s = FINAL → final_ok s).
Proof.
  intros H0. unfold between. destruct (m_download_state s) eqn:Hst.
  - intros (HI & _ & _). split; [apply HI|]. by rewrite (proj1 (pre_rest _ _ _ _ _ HI)).
  - intros (_ & buf & HI & Hle & _). split; [apply HI|]. rewrite (red_buffer _ _ _ _ _ _ _ _ HI). unfold zlen in *. by rewrite length_map.
  - intros (HF & _). pose proof HF as (-> & -> & _). done.
Qed.

End header_sync_laws.
