(* ===== verification/Coins.v ===== *)
(** The cache of unspent coins.

    [coins.h], [coins.cpp] and the coin database of [txdb.cpp]: a coin, the
    cache entries with their dirty and fresh flags, [CCoinsViewCache] over a
    base view, and the batches a flush writes. A view is a stack of caches over
    the database; reading through it may fill every cache on the way. The
    reference is the map from outpoints to unspent coins that the stack shows.

    The heap usage counter of a cache is memory accounting that no decision
    below reads, and is left out; the database itself ([CDBWrapper]) is the
    map its keys show, with atomic batches. *)

From Stdlib Require Import ZArith Lia String.
From stdpp Require Import base list numbers gmap tactics.
From S2P Require Import Prelude.

Open Scope Z_scope.

Abbreviation COutPoint := (list Z * Z)%type.

Record CTxOut := mkTxOut { nValue : Z; scriptPubKey : list Z }.
Record Coin := mkCoin { out : CTxOut; fCoinBase : bool; coin_nHeight : Z }.

#[export] Instance CTxOut_eq_dec : EqDecision CTxOut.
Proof. solve_decision. Defined.
#[export] Instance Coin_eq_dec : EqDecision Coin.
Proof. solve_decision. Defined.

Module coins.

Definition IsSpent (c : Coin) : bool := nValue (out c) =? -1.

(** The default coin, also the result of [Clear]. *)
Definition coinEmpty : Coin := mkCoin (mkTxOut (-1) []) false 0.

Definition OP_RETURN : Z := 0x6a.
Definition MAX_SCRIPT_SIZE : Z := 10000.

Definition IsUnspendable (script : list Z) : bool :=
  match script with
  | b :: _ => (b =? OP_RETURN) || (MAX_SCRIPT_SIZE <? zlen script)
  | [] => false
  end.

(** ** Entries *)
Record CCoinsCacheEntry := mkEntry { coin : Coin; IsDirty : bool; IsFresh : bool }.

(** [m_flagged] is the linked list behind [m_sentinel]. *)
Record CCoinsViewCache := mkCache {
  hashBlock : list Z;
  m_flagged : list COutPoint;
  cacheCoins : gmap COutPoint CCoinsCacheEntry;
  m_dirty_count : Z;
}.

Definition has_flags (e : CCoinsCacheEntry) : bool := IsDirty e || IsFresh e.

Definition AddFlags (dirty fresh : bool) (o : COutPoint) (e : CCoinsCacheEntry) (linked : list COutPoint) :
    CCoinsCacheEntry * list COutPoint :=
  (mkEntry (coin e) (IsDirty e || dirty) (IsFresh e || fresh), if has_flags e then linked else linked ++ [o]).

Definition SetDirty := AddFlags true false.
Definition SetFresh := AddFlags false true.

Definition SetClean (o : COutPoint) (e : CCoinsCacheEntry) (linked : list COutPoint) : CCoinsCacheEntry * list COutPoint :=
  (mkEntry (coin e) false false, if has_flags e then filter (.≠ o) linked else linked).

(** Erasing an entry runs its destructor, which unlinks it. *)
Definition erase (o : COutPoint) (c : CCoinsViewCache) : CCoinsViewCache :=
  match cacheCoins c !! o with
  | Some e => mkCache (hashBlock c) (SetClean o e (m_flagged c)).2 (delete o (cacheCoins c)) (m_dirty_count c)
  | None => c
  end.

Definition set_dirty_count (c : CCoinsViewCache) (n : Z) : CCoinsViewCache :=
  mkCache (hashBlock c) (m_flagged c) (cacheCoins c) n.

(** ** The database *)
Record CCoinsViewDB := mkDB {
  db_coins : gmap COutPoint Coin;
  db_best_block : option (list Z);
  db_head_blocks : option (list (list Z));
}.

Inductive db_op :=
| EraseCoin (o : COutPoint)
| WriteCoin (o : COutPoint) (c : Coin)
| EraseBestBlock
| WriteBestBlock (h : list Z)
| EraseHeadBlocks
| WriteHeadBlocks (hs : list (list Z)).

Definition apply_op (db : CCoinsViewDB) (op : db_op) : CCoinsViewDB :=
  match op with
  | EraseCoin o => mkDB (delete o (db_coins db)) (db_best_block db) (db_head_blocks db)
  | WriteCoin o c => mkDB (<[o := c]> (db_coins db)) (db_best_block db) (db_head_blocks db)
  | EraseBestBlock => mkDB (db_coins db) None (db_head_blocks db)
  | WriteBestBlock h => mkDB (db_coins db) (Some h) (db_head_blocks db)
  | EraseHeadBlocks => mkDB (db_coins db) (db_best_block db) None
  | WriteHeadBlocks hs => mkDB (db_coins db) (db_best_block db) (Some hs)
  end.

(** [WriteBatch] is atomic. *)
Definition WriteBatch (db : CCoinsViewDB) (batch : list db_op) : CCoinsViewDB := foldl apply_op db batch.

Definition null_hash : list Z := replicate 32 0.

Definition db_GetBestBlock (db : CCoinsViewDB) : list Z := default null_hash (db_best_block db).
Definition db_GetHeadBlocks (db : CCoinsViewDB) : list (list Z) := default [] (db_head_blocks db).

Definition db_GetCoin (db : CCoinsViewDB) (o : COutPoint) : result (option Coin) :=
  match db_coins db !! o with
  | Some c => _ ← assert_ (negb (IsSpent c)); Ok (Some c)
  | None => Ok None
  end.

(** ** Reading through a stack of caches *)
Inductive CCoinsView :=
| ViewDB (db : CCoinsViewDB)
| ViewCache (c : CCoinsViewCache) (base : CCoinsView).

Fixpoint PeekCoin (v : CCoinsView) (o : COutPoint) : result (option Coin) :=
  match v with
  | ViewDB db => db_GetCoin db o
  | ViewCache c base =>
      match cacheCoins c !! o with
      | Some e => Ok (if IsSpent (coin e) then None else Some (coin e))
      | None => PeekCoin base o
      end
  end.

(** [FetchCoin] of a cache whose base answers a miss with [get]. *)
Definition fetch (c : CCoinsViewCache) (base : CCoinsView) (get : COutPoint → result (option Coin * CCoinsView)) (o : COutPoint) :
    result (option CCoinsCacheEntry * CCoinsViewCache * CCoinsView) :=
  match cacheCoins c !! o with
  | Some e => Ok (Some e, c, base)
  | None =>
      '(r, base) ← get o;
      match r with
      | Some coin =>
          let e := mkEntry coin false false in
          let '(e, linked) := if IsSpent coin then SetFresh o e (m_flagged c) else (e, m_flagged c) in
          Ok (Some e, mkCache (hashBlock c) linked (<[o := e]> (cacheCoins c)) (m_dirty_count c), base)
      | None => Ok (None, c, base)
      end
  end.

Fixpoint GetCoin (v : CCoinsView) (o : COutPoint) : result (option Coin * CCoinsView) :=
  match v with
  | ViewDB db => r ← db_GetCoin db o; Ok (r, v)
  | ViewCache c base =>
      '(it, c, base) ← fetch c base (GetCoin base) o;
      Ok (match it with Some e => if IsSpent (coin e) then None else Some (coin e) | None => None end, ViewCache c base)
  end.

Definition FetchCoin (c : CCoinsViewCache) (base : CCoinsView) (o : COutPoint) :=
  fetch c base (GetCoin base) o.

Definition AccessCoin (c : CCoinsViewCache) (base : CCoinsView) (o : COutPoint) : result (Coin * CCoinsViewCache * CCoinsView) :=
  '(it, c, base) ← FetchCoin c base o;
  Ok (match it with Some e => coin e | None => coinEmpty end, c, base).

Definition HaveCoin (c : CCoinsViewCache) (base : CCoinsView) (o : COutPoint) : result (bool * CCoinsViewCache * CCoinsView) :=
  '(it, c, base) ← FetchCoin c base o;
  Ok (match it with Some e => negb (IsSpent (coin e)) | None => false end, c, base).

Definition HaveCoinInCache (c : CCoinsViewCache) (o : COutPoint) : bool :=
  match cacheCoins c !! o with Some e => negb (IsSpent (coin e)) | None => false end.

Fixpoint GetBestBlock (v : CCoinsView) : list Z * CCoinsView :=
  match v with
  | ViewDB db => (db_GetBestBlock db, v)
  | ViewCache c base =>
      if bool_decide (hashBlock c = null_hash) then
        let '(h, base) := GetBestBlock base in
        (h, ViewCache (mkCache h (m_flagged c) (cacheCoins c) (m_dirty_count c)) base)
      else (hashBlock c, v)
  end.

Definition SetBestBlock (c : CCoinsViewCache) (h : list Z) : CCoinsViewCache :=
  mkCache h (m_flagged c) (cacheCoins c) (m_dirty_count c).

(** ** Changing coins *)
Definition AddCoin (c : CCoinsViewCache) (o : COutPoint) (new : Coin) (possible_overwrite : bool) : result CCoinsViewCache :=
  _ ← assert_ (negb (IsSpent new));
  if IsUnspendable (scriptPubKey (out new)) then Ok c
  else
    let '(e, inserted) := match cacheCoins c !! o with Some e => (e, false) | None => (mkEntry coinEmpty false false, true) end in
    _ ← throw_if (negb possible_overwrite && negb (IsSpent (coin e)))
          "Attempted to overwrite an unspent coin (when possible_overwrite is false)";
    let fresh := negb possible_overwrite && negb (IsDirty e) in
    let count := if (inserted : bool) then m_dirty_count c else u64 (m_dirty_count c - bool_to_Z (IsDirty e)) in
    let '(e, linked) := SetDirty o (mkEntry new (IsDirty e) (IsFresh e)) (m_flagged c) in
    let count := u64 (count + 1) in
    let '(e, linked) := if fresh then SetFresh o e linked else (e, linked) in
    Ok (mkCache (hashBlock c) linked (<[o := e]> (cacheCoins c)) count).

Definition EmplaceCoinInternalDANGER (c : CCoinsViewCache) (o : COutPoint) (new : Coin) : CCoinsViewCache :=
  match cacheCoins c !! o with
  | Some _ => c
  | None =>
      let '(e, linked) := SetDirty o (mkEntry new false false) (m_flagged c) in
      mkCache (hashBlock c) linked (<[o := e]> (cacheCoins c)) (u64 (m_dirty_count c + 1))
  end.

(** The result, and the coin that is moved out. *)
Definition SpendCoin (c : CCoinsViewCache) (base : CCoinsView) (o : COutPoint) :
    result (bool * option Coin * CCoinsViewCache * CCoinsView) :=
  '(it, c, base) ← FetchCoin c base o;
  match it with
  | None => Ok (false, None, c, base)
  | Some e =>
      let c := set_dirty_count c (u64 (m_dirty_count c - bool_to_Z (IsDirty e))) in
      if IsFresh e then Ok (true, Some (coin e), erase o c, base)
      else
        let '(e', linked) := SetDirty o e (m_flagged c) in
        let e' := mkEntry coinEmpty (IsDirty e') (IsFresh e') in
        Ok (true, Some (coin e), mkCache (hashBlock c) linked (<[o := e']> (cacheCoins c)) (u64 (m_dirty_count c + 1)), base)
  end.

Definition Uncache (c : CCoinsViewCache) (o : COutPoint) : CCoinsViewCache :=
  match cacheCoins c !! o with
  | Some e => if negb (IsDirty e) && negb (IsFresh e) then erase o c else c
  | None => c
  end.

Definition Reset (c : CCoinsViewCache) : CCoinsViewCache := mkCache null_hash [] ∅ 0.

(** ** Writing a cache to its base *)

(** The cursor after the entry at [o]: [will_erase] distinguishes a flush from
    a sync. *)
Definition NextAndMaybeErase (will_erase : bool) (o : COutPoint) (e : CCoinsCacheEntry) (child : CCoinsViewCache) : CCoinsViewCache :=
  let child := set_dirty_count child (u64 (m_dirty_count child - bool_to_Z (IsDirty e))) in
  if will_erase then child
  else if IsSpent (coin e) then erase o child
  else
    let '(e, linked) := SetClean o e (m_flagged child) in
    mkCache (hashBlock child) linked (<[o := e]> (cacheCoins child)) (m_dirty_count child).

(** One entry of the child, merged into the cache below it. *)
Definition batch_entry (o : COutPoint) (e : CCoinsCacheEntry) (us : CCoinsViewCache) : result CCoinsViewCache :=
  if negb (IsDirty e) then Ok us
  else match cacheCoins us !! o with
  | None =>
      if IsFresh e && IsSpent (coin e) then Ok us
      else
        let '(e', linked) := SetDirty o (mkEntry (coin e) false false) (m_flagged us) in
        let '(e', linked) := if IsFresh e then SetFresh o e' linked else (e', linked) in
        Ok (mkCache (hashBlock us) linked (<[o := e']> (cacheCoins us)) (u64 (m_dirty_count us + 1)))
  | Some eu =>
      _ ← throw_if (IsFresh e && negb (IsSpent (coin eu))) "FRESH flag misapplied to coin that exists in parent cache";
      if IsFresh eu && IsSpent (coin e) then
        Ok (erase o (set_dirty_count us (u64 (m_dirty_count us - bool_to_Z (IsDirty eu)))))
      else
        let eu := mkEntry (coin e) (IsDirty eu) (IsFresh eu) in
        if negb (IsDirty eu) then
          let '(eu, linked) := SetDirty o eu (m_flagged us) in
          Ok (mkCache (hashBlock us) linked (<[o := eu]> (cacheCoins us)) (u64 (m_dirty_count us + 1)))
        else Ok (mkCache (hashBlock us) (m_flagged us) (<[o := eu]> (cacheCoins us)) (m_dirty_count us))
  end.

(** The entry the cursor points at. *)
Definition cursor_entry (child : CCoinsViewCache) (o : COutPoint) : result CCoinsCacheEntry :=
  match cacheCoins child !! o with Some e => Ok e | None => Err EBounds end.

Fixpoint batch_loop (entries : list COutPoint) (will_erase : bool) (child us : CCoinsViewCache) :
    result (CCoinsViewCache * CCoinsViewCache) :=
  match entries with
  | [] => Ok (child, us)
  | o :: entries =>
      e ← cursor_entry child o;
      us ← batch_entry o e us;
      batch_loop entries will_erase (NextAndMaybeErase will_erase o e child) us
  end.

(** The database loop: [full] decides from the batch so far whether a partial
    batch is written; [written] are the states after each partial batch. *)
Fixpoint db_loop (full : list db_op → bool) (entries : list COutPoint) (will_erase : bool) (child : CCoinsViewCache)
    (batch : list db_op) (db : CCoinsViewDB) (written : list CCoinsViewDB) :
    result (CCoinsViewCache * list db_op * CCoinsViewDB * list CCoinsViewDB) :=
  match entries with
  | [] => Ok (child, batch, db, written)
  | o :: entries =>
      e ← cursor_entry child o;
      let batch := if IsDirty e then batch ++ [if IsSpent (coin e) then EraseCoin o else WriteCoin o (coin e)] else batch in
      let child := NextAndMaybeErase will_erase o e child in
      if full batch then
        let db := WriteBatch db batch in db_loop full entries will_erase child [] db (written ++ [db])
      else db_loop full entries will_erase child batch db written
  end.

(** [old_tip]: the best block, or the second head of an interrupted write. *)
Definition db_old_tip (db : CCoinsViewDB) (hash : list Z) : result (list Z) :=
  let old_tip := db_GetBestBlock db in
  if bool_decide (old_tip = null_hash) then
    match db_GetHeadBlocks db with
    | [h0; h1] => _ ← assert_ (bool_decide (h0 = hash)); Ok h1
    | _ => Ok old_tip
    end
  else Ok old_tip.

Definition db_BatchWrite (full : list db_op → bool) (db : CCoinsViewDB) (child : CCoinsViewCache) (will_erase : bool) (hash : list Z) :
    result (CCoinsViewDB * list CCoinsViewDB * CCoinsViewCache) :=
  _ ← assert_ (negb (bool_decide (hash = null_hash)));
  old_tip ← db_old_tip db hash;
  '(child, batch, db, written) ← db_loop full (m_flagged child) will_erase child
     [EraseBestBlock; WriteHeadBlocks [hash; old_tip]] db [];
  let db := WriteBatch db (batch ++ [EraseHeadBlocks; WriteBestBlock hash]) in
  Ok (db, written ++ [db], child).

Definition BatchWrite (full : list db_op → bool) (v : CCoinsView) (child : CCoinsViewCache) (will_erase : bool) (hash : list Z) :
    result (CCoinsView * CCoinsViewCache) :=
  match v with
  | ViewDB db =>
      '(db, _, child) ← db_BatchWrite full db child will_erase hash;
      Ok (ViewDB db, child)
  | ViewCache us base =>
      '(child, us) ← batch_loop (m_flagged child) will_erase child us;
      Ok (ViewCache (SetBestBlock us hash) base, child)
  end.

Definition Flush (full : list db_op → bool) (c : CCoinsViewCache) (base : CCoinsView) : result (CCoinsViewCache * CCoinsView) :=
  '(base, c) ← BatchWrite full base c true (hashBlock c);
  _ ← assert_ (m_dirty_count c =? 0);
  Ok (mkCache (hashBlock c) [] ∅ (m_dirty_count c), base).

Definition Sync (full : list db_op → bool) (c : CCoinsViewCache) (base : CCoinsView) : result (CCoinsViewCache * CCoinsView) :=
  '(base, c) ← BatchWrite full base c false (hashBlock c);
  _ ← assert_ (m_dirty_count c =? 0);
  _ ← throw_if (negb (bool_decide (m_flagged c = []))) "Not all unspent flagged entries were cleared";
  Ok (c, base).

(** ** The self-check *)
Definition attr (e : CCoinsCacheEntry) : Z :=
  Z.lor (Z.lor (if IsDirty e then 1 else 0) (if IsFresh e then 2 else 0)) (if IsSpent (coin e) then 4 else 0).

Definition count_entries (P : CCoinsCacheEntry → bool) (m : gmap COutPoint CCoinsCacheEntry) : Z :=
  Z.of_nat (size (filter (λ p, P p.2 = true) m)).

Definition SanityCheck (c : CCoinsViewCache) : result unit :=
  _ ← assert_ (forallb (λ p, negb (attr p.2 =? 2) && negb (attr p.2 =? 4) && negb (attr p.2 =? 7)) (map_to_list (cacheCoins c)));
  _ ← assert_ (forallb (λ o, match cacheCoins c !! o with Some e => has_flags e | None => false end) (m_flagged c));
  _ ← assert_ (zlen (m_flagged c) =? count_entries has_flags (cacheCoins c));
  assert_ (count_entries IsDirty (cacheCoins c) =? m_dirty_count c).

End coins.
Import coins.

(** ** What a view shows *)
Definition show (e : CCoinsCacheEntry) : option Coin := if IsSpent (coin e) then None else Some (coin e).

Fixpoint utxo (v : CCoinsView) (o : COutPoint) : option Coin :=
  match v with
  | ViewDB db => db_coins db !! o
  | ViewCache c base => match cacheCoins c !! o with Some e => show e | None => utxo base o end
  end.

(** A fresh entry hides nothing below it and is an unwritten coin; a clean
    entry repeats what is below it. *)
Definition entry_ok (e : CCoinsCacheEntry) (below : option Coin) : Prop :=
  (IsFresh e = true → below = None ∧ IsDirty e = true ∧ IsSpent (coin e) = false) ∧
  (IsDirty e = false → below = Some (coin e) ∧ IsSpent (coin e) = false).

Record cache_ok (c : CCoinsViewCache) (below : COutPoint → option Coin) : Prop := mkCacheOk {
  ck_link o : o ∈ m_flagged c ↔ ∃ e, cacheCoins c !! o = Some e ∧ has_flags e = true;
  ck_nodup : NoDup (m_flagged c);
  ck_count : m_dirty_count c = count_entries IsDirty (cacheCoins c);
  ck_entry o e : cacheCoins c !! o = Some e → entry_ok e (below o);
}.

Fixpoint view_ok (v : CCoinsView) : Prop :=
  match v with
  | ViewDB db => ∀ o c, db_coins db !! o = Some c → IsSpent c = false
  | ViewCache c base => cache_ok c (utxo base) ∧ view_ok base
  end.

(** The entry counters stay below the width of [size_t]. *)
Definition room (n : nat) (c : CCoinsViewCache) : Prop := Z.of_nat (size (cacheCoins c) + n) < 2 ^ 64.

(** ** Counting *)
Definition counted (P : CCoinsCacheEntry → bool) (e : option CCoinsCacheEntry) : Z :=
  match e with Some e => bool_to_Z (P e) | None => 0 end.

Lemma count_entries_delete P m o : count_entries P (delete o m) = count_entries P m - counted P (m !! o).
Proof.
  unfold count_entries. rewrite map_filter_delete, map_size_delete, map_lookup_filter.
  destruct (m !! o) as [e|] eqn:E; cbn; [|lia]. destruct (P e) eqn:Pe; cbn.
  - rewrite option_guard_True by done. cbn. assert (size (filter (λ p, P p.2 = true) m) ≠ 0)%nat; [|lia].
    apply map_size_ne_0_lookup. exists o, e. by apply map_lookup_filter_Some.
  - rewrite option_guard_False by (cbn; congruence). cbn. lia.
Qed.

Lemma count_entries_insert P m o e : count_entries P (<[o := e]> m) = count_entries P m - counted P (m !! o) + bool_to_Z (P e).
Proof.
  rewrite <- count_entries_delete. unfold count_entries. rewrite <- insert_delete_eq. destruct (P e) eqn:Pe; cbn [bool_to_Z].
  - rewrite map_filter_insert_True, map_size_insert_None by (try done; rewrite map_lookup_filter_None; left; apply lookup_delete_eq). lia.
  - rewrite map_filter_insert_False by (cbn; congruence). rewrite delete_delete_eq. lia.
Qed.

Lemma count_entries_bound P m : 0 ≤ count_entries P m ≤ Z.of_nat (size m).
Proof. unfold count_entries. pose proof (map_size_filter (λ p : COutPoint * CCoinsCacheEntry, P p.2 = true) m). lia. Qed.

Lemma count_entries_absent P m o : counted P (m !! o) = 0 → is_Some (m !! o) → count_entries P m + 1 ≤ Z.of_nat (size m).
Proof.
  intros H0 [e He]. pose proof (count_entries_delete P m o) as Hd. pose proof (count_entries_bound P (delete o m)) as Hb.
  rewrite map_size_delete, He in Hb. assert (size m ≠ 0)%nat by (apply map_size_ne_0_lookup; eauto). cbn in Hb. lia.
Qed.

(** ** Updating one entry *)
Definition relink (o : COutPoint) (was now : bool) (linked : list COutPoint) : list COutPoint :=
  match was, now with
  | true, true | false, false => linked
  | true, false => filter (.≠ o) linked
  | false, true => linked ++ [o]
  end.

Definition flags_at (c : CCoinsViewCache) (o : COutPoint) : bool :=
  match cacheCoins c !! o with Some e => has_flags e | None => false end.

Lemma elem_relink o was now linked o' : (o ∈ linked ↔ was = true) →
  o' ∈ relink o was now linked ↔ if decide (o' = o) then now = true else o' ∈ linked.
Proof.
  intros Hw. destruct was, now; cbn; [| | |].
  - case_decide; subst; tauto.
  - rewrite list_elem_of_filter. case_decide; subst; intuition congruence.
  - rewrite elem_of_app, list_elem_of_singleton. case_decide; subst; intuition congruence.
  - case_decide; subst; [|done]. intuition congruence.
Qed.

Lemma NoDup_relink o was now linked : (o ∈ linked ↔ was = true) → NoDup linked → NoDup (relink o was now linked).
Proof.
  intros Hw Hn. destruct was, now; cbn; [done|by apply list.NoDup_filter| |done].
  apply list.NoDup_app. split; [done|]. split; [|apply list.NoDup_singleton]. intros x Hx ->%list_elem_of_singleton. apply Hw in Hx. done.
Qed.

Lemma flags_linked c below o : cache_ok c below → o ∈ m_flagged c ↔ flags_at c o = true.
Proof.
  intros Hc. rewrite (ck_link _ _ Hc). unfold flags_at. destruct (cacheCoins c !! o) as [e|]; split;
    [by intros (? & [= <-] & ?)|eauto|by intros (? & ? & _)|done].
Qed.

Lemma cache_ok_put c below o e h n :
  cache_ok c below → entry_ok e (below o) → n = m_dirty_count c - counted IsDirty (cacheCoins c !! o) + bool_to_Z (IsDirty e) →
  cache_ok (mkCache h (relink o (flags_at c o) (has_flags e) (m_flagged c)) (<[o := e]> (cacheCoins c)) n) below.
Proof.
  intros Hc He ->. pose proof (flags_linked c below o Hc) as Hw. split; cbn.
  - intros o'. rewrite elem_relink by done. case_decide as Hd; [subst o'|].
    + rewrite lookup_insert_eq. split; [eauto|by intros (? & [= <-] & ?)].
    + rewrite lookup_insert_ne by done. apply (ck_link _ _ Hc).
  - apply NoDup_relink; [done|apply (ck_nodup _ _ Hc)].
  - rewrite count_entries_insert, (ck_count _ _ Hc). done.
  - intros o' e'. destruct (decide (o' = o)) as [->|Hd]; [rewrite lookup_insert_eq; by intros [= <-]|].
    rewrite lookup_insert_ne by done. apply (ck_entry _ _ Hc).
Qed.

Lemma cache_ok_delete c below o h n :
  cache_ok c below → n = m_dirty_count c - counted IsDirty (cacheCoins c !! o) →
  cache_ok (mkCache h (relink o (flags_at c o) false (m_flagged c)) (delete o (cacheCoins c)) n) below.
Proof.
  intros Hc ->. pose proof (flags_linked c below o Hc) as Hw. split; cbn.
  - intros o'. rewrite elem_relink by done. case_decide as Hd; [subst o'|].
    + rewrite lookup_delete_eq. split; [done|by intros (? & ? & _)].
    + rewrite lookup_delete_ne by done. apply (ck_link _ _ Hc).
  - apply NoDup_relink; [done|apply (ck_nodup _ _ Hc)].
  - rewrite count_entries_delete, (ck_count _ _ Hc). done.
  - intros o' e'. destruct (decide (o' = o)) as [->|Hd]; [by rewrite lookup_delete_eq|].
    rewrite lookup_delete_ne by done. apply (ck_entry _ _ Hc).
Qed.

Lemma utxo_put h l m n base o e o' :
  utxo (ViewCache (mkCache h l (<[o := e]> m) n) base) o' =
  if decide (o' = o) then show e else match m !! o' with Some e => show e | None => utxo base o' end.
Proof. cbn. case_decide; subst; [by rewrite lookup_insert_eq|by rewrite lookup_insert_ne by done]. Qed.

Lemma utxo_delete h l m n base o o' :
  utxo (ViewCache (mkCache h l (delete o m) n) base) o' =
  if decide (o' = o) then utxo base o else match m !! o' with Some e => show e | None => utxo base o' end.
Proof. cbn. case_decide; subst; [by rewrite lookup_delete_eq|by rewrite lookup_delete_ne by done]. Qed.

(** A clean entry shows what is below it. *)
Lemma show_clean e below : entry_ok e below → IsDirty e = false → show e = below.
Proof. intros [_ H] Hd. destruct (H Hd) as [-> Hs]. unfold show. by rewrite Hs. Qed.

Lemma SetClean_relink o e l : (SetClean o e l).2 = relink o (has_flags e) false l.
Proof. cbn. by destruct (has_flags e). Qed.

(** ** Reads *)
Lemma cache_ok_ext c f g : (∀ o, f o = g o) → cache_ok c f → cache_ok c g.
Proof. intros E [H1 H2 H3 H4]. split; [done..|]. intros o e He. rewrite <- E. by apply H4. Qed.

Lemma utxo_unspent v o c : view_ok v → utxo v o = Some c → IsSpent c = false.
Proof.
  revert o c. induction v as [db|k base IH]; cbn; [eauto|]. intros o c [_ Hb]. destruct (cacheCoins k !! o) as [e|]; [|by apply IH].
  unfold show. destruct (IsSpent (coin e)) eqn:Es; [done|]. by intros [= <-].
Qed.

Lemma PeekCoin_ok v o : view_ok v → PeekCoin v o = Ok (utxo v o).
Proof.
  induction v as [db|k base IH]; cbn; intros Hv.
  - unfold db_GetCoin. destruct (db_coins db !! o) as [c|] eqn:E; [|done]. by rewrite (Hv o c E).
  - destruct (cacheCoins k !! o); [done|]. apply IH, Hv.
Qed.

(** [v'] shows the same coins as [v]. *)
Definition same_coins (v v' : CCoinsView) : Prop := ∀ o, utxo v' o = utxo v o.

(** Outpoints of the topmost cache. *)
Definition top_dom (v : CCoinsView) : gset COutPoint := match v with ViewCache c _ => dom (cacheCoins c) | ViewDB _ => ∅ end.

(** [v'] is [v] with caches filled by a read of [o]. *)
Definition filled (o : COutPoint) (v v' : CCoinsView) : Prop :=
  same_coins v v' ∧ top_dom v' ⊆ {[o]} ∪ top_dom v ∧ match v with ViewDB _ => v' = v | ViewCache _ _ => ∃ c b, v' = ViewCache c b end.

Lemma filled_refl o v : filled o v v.
Proof. split; [by intros ?|]. split; [set_solver|]. destruct v; eauto. Qed.

Lemma size_add (o : COutPoint) (X : gset COutPoint) : (size ({[o]} ∪ X) ≤ S (size X))%nat.
Proof. rewrite size_union_alt, size_singleton. assert (X ∖ {[o]} ⊆ X) as Hs by set_solver. apply subseteq_size in Hs. lia. Qed.

(** [c'] is [c] with at most an entry for [o] added. *)
Definition grown (o : COutPoint) (c c' : CCoinsViewCache) : Prop :=
  dom (cacheCoins c') ⊆ {[o]} ∪ dom (cacheCoins c) ∧ hashBlock c' = hashBlock c.

Lemma grown_refl o c : grown o c c.
Proof. split; [set_solver|done]. Qed.

Lemma grown_size o c c' : grown o c c' → (size (cacheCoins c') ≤ S (size (cacheCoins c)))%nat.
Proof.
  intros [Hd _]. rewrite <- !(size_dom (D := gset COutPoint)). etrans; [by apply subseteq_size|]. apply size_add.
Qed.

Lemma grown_insert o c c' e l n : grown o c c' → grown o c (mkCache (hashBlock c') l (<[o := e]> (cacheCoins c')) n).
Proof. intros [Hd Hh]. split; [|exact Hh]. cbn [cacheCoins]. rewrite dom_insert. set_solver. Qed.

Lemma grown_put o c e l n : grown o c (mkCache (hashBlock c) l (<[o := e]> (cacheCoins c)) n).
Proof. apply grown_insert, grown_refl. Qed.

Lemma grown_erase o c c' n : grown o c c' → grown o c (erase o (set_dirty_count c' n)).
Proof.
  intros [Hd Hh]. unfold erase. cbn [cacheCoins set_dirty_count]. destruct (cacheCoins c' !! o); [|by split]. split; [|exact Hh].
  cbn [cacheCoins]. rewrite dom_delete. set_solver.
Qed.

Lemma fetch_ok c base get o base' :
  view_ok (ViewCache c base) → get o = Ok (utxo base o, base') → view_ok base' → filled o base base' →
  ∃ it c' b', fetch c base get o = Ok (it, c', b') ∧ cacheCoins c' !! o = it ∧ view_ok (ViewCache c' b') ∧
    same_coins (ViewCache c base) (ViewCache c' b') ∧ filled o base b' ∧
    grown o c c' ∧
    from_option show None it = utxo (ViewCache c base) o.
Proof.
  intros [Hc Hb] Hg Hb' Hfl. pose proof (proj1 Hfl) as Hs. unfold fetch. destruct (cacheCoins c !! o) as [e|] eqn:E.
  - exists (Some e), c, base. split; [done|]. split; [done|]. split; [done|]. split; [by intros ?|]. split; [apply filled_refl|].
    split; [apply grown_refl|]. cbn. by rewrite E.
  - rewrite Hg, bind_Ok. destruct (utxo base o) as [k|] eqn:Eu.
    + assert (IsSpent k = false) as Hk by exact (utxo_unspent base o k Hb Eu). rewrite Hk.
      set (e := mkEntry k false false). exists (Some e). eexists _, base'. split; [done|]. cbn [cacheCoins].
      split; [by rewrite lookup_insert_eq|].
      assert (relink o (flags_at c o) (has_flags e) (m_flagged c) = m_flagged c) as El by (unfold flags_at; by rewrite E).
      split; [split; [|done]|].
      * rewrite <- El. apply cache_ok_put; [by apply (cache_ok_ext _ (utxo base))|rewrite Hs, Eu; by split|]. rewrite E. cbn. lia.
      * split; [|split; [done|split; [apply grown_put|]]].
        -- intros o'. rewrite utxo_put. cbn [utxo]. case_decide; [subst; rewrite E, Eu; unfold show, e; cbn [coin]; by rewrite Hk|].
           destruct (cacheCoins c !! o'); [done|]. by apply Hs.
        -- cbn. rewrite E, Eu. unfold show, e. cbn [coin]. by rewrite Hk.
    + exists None, c, base'. split; [done|]. split; [done|].
      split; [split; [by apply (cache_ok_ext _ (utxo base))|done]|]. split; [|split; [done|split; [apply grown_refl|]]].
      * intros o'. cbn. destruct (cacheCoins c !! o'); [done|]. apply Hs.
      * cbn. by rewrite E, Eu.
Qed.

Lemma GetCoin_ok v o : view_ok v → ∃ v', GetCoin v o = Ok (utxo v o, v') ∧ view_ok v' ∧ filled o v v'.
Proof.
  induction v as [db|c base IH]; intros Hv.
  - exists (ViewDB db). split; [|split; [done|apply filled_refl]]. pose proof (PeekCoin_ok (ViewDB db) o Hv) as E. cbn in *. by rewrite E.
  - destruct (IH (proj2 Hv)) as (base' & Eg & Hb' & Hs).
    destruct (fetch_ok c base (GetCoin base) o base' Hv Eg Hb' Hs) as (it & c' & b' & E & _ & Hv' & Hs' & _ & Hg & Hshow).
    exists (ViewCache c' b'). cbn [GetCoin]. rewrite E, bind_Ok, <- Hshow. split; [by destruct it|]. split; [done|].
    split; [exact Hs'|]. split; [apply Hg|]. eauto.
Qed.

Lemma FetchCoin_ok c base o : view_ok (ViewCache c base) →
  ∃ it c' b', FetchCoin c base o = Ok (it, c', b') ∧ cacheCoins c' !! o = it ∧ view_ok (ViewCache c' b') ∧
    same_coins (ViewCache c base) (ViewCache c' b') ∧ filled o base b' ∧
    grown o c c' ∧
    from_option show None it = utxo (ViewCache c base) o.
Proof.
  intros Hv. destruct (GetCoin_ok base o (proj2 Hv)) as (base' & Eg & Hb' & Hs). by apply (fetch_ok c base (GetCoin base) o base').
Qed.

Lemma HaveCoin_ok c base o : view_ok (ViewCache c base) →
  ∃ c' b', HaveCoin c base o = Ok (bool_decide (is_Some (utxo (ViewCache c base) o)), c', b') ∧ view_ok (ViewCache c' b') ∧
    same_coins (ViewCache c base) (ViewCache c' b') ∧ filled o base b' ∧ grown o c c'.
Proof.
  intros Hv. destruct (FetchCoin_ok c base o Hv) as (it & c' & b' & E & _ & Hv' & Hs & Hf & Hg & Hshow).
  exists c', b'. unfold HaveCoin. rewrite E, bind_Ok, <- Hshow. split; [|done]. do 3 f_equal.
  destruct it as [e|]; cbn; [unfold show; destruct (IsSpent (coin e))|]; cbn; reflexivity.
Qed.

Lemma AccessCoin_ok c base o : view_ok (ViewCache c base) →
  ∃ k c' b', AccessCoin c base o = Ok (k, c', b') ∧ (if IsSpent k then None else Some k) = utxo (ViewCache c base) o ∧
    view_ok (ViewCache c' b') ∧ same_coins (ViewCache c base) (ViewCache c' b') ∧ filled o base b' ∧ grown o c c'.
Proof.
  intros Hv. destruct (FetchCoin_ok c base o Hv) as (it & c' & b' & E & _ & Hv' & Hs & Hf & Hg & Hshow).
  eexists _, c', b'. unfold AccessCoin. rewrite E, bind_Ok, <- Hshow. split; [done|]. split; [|done]. by destruct it.
Qed.

(** ** Changes *)
Lemma counted_bound P e : 0 ≤ counted P e ≤ 1.
Proof. destruct e as [e|]; cbn; [destruct (P e); cbn|]; lia. Qed.

Lemma AddFlags_dirty o e l : SetDirty o e l = (mkEntry (coin e) true (IsFresh e), relink o (has_flags e) true l).
Proof. unfold SetDirty, AddFlags. rewrite orb_true_r, orb_false_r. by destruct (has_flags e). Qed.

Lemma AddFlags_fresh o e l : IsDirty e = true → SetFresh o e l = (mkEntry (coin e) true true, l).
Proof. intros Hd. unfold SetFresh, AddFlags, has_flags. by rewrite Hd, orb_true_r. Qed.

Lemma count_room c below n : cache_ok c below → room n c → 0 ≤ m_dirty_count c < 2 ^ 64 - Z.of_nat n.
Proof. intros Hc Hr. rewrite (ck_count _ _ Hc). pose proof (count_entries_bound IsDirty (cacheCoins c)). unfold room in Hr. lia. Qed.

Lemma counted_le c below o : cache_ok c below → counted IsDirty (cacheCoins c !! o) ≤ m_dirty_count c.
Proof.
  intros Hc. rewrite (ck_count _ _ Hc). pose proof (count_entries_delete IsDirty (cacheCoins c) o).
  pose proof (count_entries_bound IsDirty (delete o (cacheCoins c))). lia.
Qed.

(** Replacing the coin of an entry, dirty from then on. *)
Lemma put_dirty c base o e n :
  view_ok (ViewCache c base) → room 1 c → entry_ok e (utxo base o) → IsDirty e = true →
  n = u64 (u64 (m_dirty_count c - counted IsDirty (cacheCoins c !! o)) + 1) →
  let c' := mkCache (hashBlock c) (relink o (flags_at c o) true (m_flagged c)) (<[o := e]> (cacheCoins c)) n in
  view_ok (ViewCache c' base) ∧
  ∀ o', utxo (ViewCache c' base) o' = if decide (o' = o) then show e else utxo (ViewCache c base) o'.
Proof.
  intros [Hc Hb] Hr He Hd Hn c'. pose proof (count_room _ _ _ Hc Hr). pose proof (counted_le _ _ o Hc).
  pose proof (counted_bound IsDirty (cacheCoins c !! o)). rewrite (u64_small (_ - _)), u64_small in Hn by lia.
  split; [split; [|done]|intros o'; apply utxo_put].
  assert (has_flags e = true) as Hf by (unfold has_flags; by rewrite Hd). unfold c'. rewrite <- Hf.
  apply cache_ok_put; [done..|]. rewrite Hd. cbn. lia.
Qed.

Lemma AddCoin_ok c base o new po :
  view_ok (ViewCache c base) → room 1 c → IsSpent new = false → IsUnspendable (scriptPubKey (out new)) = false →
  (po = false → utxo (ViewCache c base) o = None) →
  ∃ c', AddCoin c o new po = Ok c' ∧ view_ok (ViewCache c' base) ∧ grown o c c' ∧
    ∀ o', utxo (ViewCache c' base) o' = if decide (o' = o) then Some new else utxo (ViewCache c base) o'.
Proof.
  intros Hv Hr Hs Hu Hpo. unfold AddCoin. rewrite Hs, Hu. cbn [negb]. rewrite assert_true, bind_Ok by done.
  pose proof (proj1 Hv) as Hc. destruct (cacheCoins c !! o) as [e|] eqn:E.
  - pose proof (ck_entry _ _ Hc o e E) as [Hfr Hcl]. cbn in Hpo. rewrite E in Hpo.
    assert (negb po && negb (IsSpent (coin e)) = false) as ->.
    { destruct po; [done|]. specialize (Hpo eq_refl). unfold show in Hpo. by destruct (IsSpent (coin e)). }
    rewrite throw_if_false, bind_Ok by done. rewrite AddFlags_dirty. cbn [coin IsFresh].
    assert (negb po && negb (IsDirty e) = false) as ->.
    { destruct po; [done|]. specialize (Hpo eq_refl). destruct (IsDirty e) eqn:Ed; [done|]. destruct (Hcl eq_refl) as [_ Hsp].
      unfold show in Hpo. by rewrite Hsp in Hpo. }
    eexists. split; [reflexivity|]. assert (has_flags (mkEntry new (IsDirty e) (IsFresh e)) = flags_at c o) as -> by (unfold flags_at; by rewrite E).
    destruct (put_dirty c base o (mkEntry new true (IsFresh e)) (u64 (u64 (m_dirty_count c - bool_to_Z (IsDirty e)) + 1))) as [H1 H2];
      [done|done|split; [|done]; intros Hf; by destruct (Hfr Hf)|done|by rewrite E|]. split; [exact H1|]. split; [apply grown_put|]. intros o'. rewrite (H2 o'). unfold show. cbn [coin]. by rewrite Hs.
  - rewrite throw_if_false, bind_Ok by (cbn; by rewrite andb_false_r). rewrite AddFlags_dirty. cbn [coin IsFresh IsDirty negb]. rewrite andb_true_r.
    set (e' := mkEntry new true (negb po)).
    assert (∀ l, (if negb po then SetFresh o (mkEntry new true false) l else (mkEntry new true false, l)) = (e', l)) as Ef.
    { intros l. unfold e'. destruct po; [done|]. cbn [negb]. by apply AddFlags_fresh. }
    change (has_flags {| coin := new; IsDirty := false; IsFresh := false |}) with false. rewrite Ef.
    pose proof (count_room _ _ _ Hc Hr).
    eexists. split; [reflexivity|]. destruct (put_dirty c base o e' (u64 (m_dirty_count c + 1))) as [H1 H2]; [done|done| |done| |].
    + split; [|done]. cbn in Hpo. rewrite E in Hpo. destruct po; [done|]. intros _. by rewrite (Hpo eq_refl).
    + rewrite E. cbn [counted]. rewrite Z.sub_0_r, (u64_small (m_dirty_count c)) by lia. done.
    + unfold flags_at in H1, H2. rewrite E in H1, H2. split; [exact H1|]. split; [apply grown_put|]. intros o'. rewrite (H2 o'). unfold show, e'. cbn [coin]. by rewrite Hs.
Qed.

(** Without [possible_overwrite], a coin that is already there is refused. *)
Lemma AddCoin_throws c o e new :
  cacheCoins c !! o = Some e → IsSpent (coin e) = false → IsSpent new = false → IsUnspendable (scriptPubKey (out new)) = false →
  AddCoin c o new false = Err (ERuntime "Attempted to overwrite an unspent coin (when possible_overwrite is false)").
Proof. intros E He Hs Hu. unfold AddCoin. rewrite Hs, Hu, E. cbn [negb]. rewrite assert_true, bind_Ok by done. by rewrite He. Qed.

Lemma erase_ok c base o e n :
  view_ok (ViewCache c base) → cacheCoins c !! o = Some e → utxo base o = None → n = m_dirty_count c - bool_to_Z (IsDirty e) →
  view_ok (ViewCache (erase o (set_dirty_count c n)) base) ∧
  ∀ o', utxo (ViewCache (erase o (set_dirty_count c n)) base) o' = if decide (o' = o) then None else utxo (ViewCache c base) o'.
Proof.
  intros [Hc Hb] E Hu ->. unfold erase, set_dirty_count. cbn [cacheCoins hashBlock m_flagged m_dirty_count]. rewrite E, SetClean_relink.
  assert (flags_at c o = has_flags e) as <- by (unfold flags_at; by rewrite E). split.
  - split; [|done]. apply cache_ok_delete; [done|]. by rewrite E.
  - intros o'. rewrite utxo_delete, Hu. by case_decide.
Qed.

Lemma SpendCoin_ok c base o :
  view_ok (ViewCache c base) → room 2 c →
  ∃ ok moved c' b', SpendCoin c base o = Ok (ok, moved, c', b') ∧ view_ok (ViewCache c' b') ∧ filled o base b' ∧ grown o c c' ∧
    (∀ o', utxo (ViewCache c' b') o' = if decide (o' = o) then None else utxo (ViewCache c base) o') ∧
    (moved ≫= λ k, if IsSpent k then None else Some k) = utxo (ViewCache c base) o ∧ ok = bool_decide (is_Some moved).
Proof.
  intros Hv Hr. destruct (FetchCoin_ok c base o Hv) as (it & c' & b' & E & El & Hv' & Hs & Hsb & Hg & Hshow). pose proof (grown_size _ _ _ Hg).
  unfold SpendCoin. rewrite E, bind_Ok, <- Hshow. destruct it as [e|].
  - pose proof (proj1 Hv') as Hc'. assert (room 1 c') as Hr' by (unfold room in *; lia).
    pose proof (count_room _ _ _ Hc' Hr'). pose proof (counted_le _ _ o Hc') as Hcl. rewrite El in Hcl. cbn [counted] in Hcl.
    assert (0 ≤ bool_to_Z (IsDirty e) ≤ 1) as Hd by (destruct (IsDirty e); cbn; lia).
    destruct (ck_entry _ _ Hc' o e El) as [Hfr _]. destruct (IsFresh e) eqn:Ef.
    + destruct (Hfr eq_refl) as (Hno & _ & _). rewrite u64_small by lia.
      destruct (erase_ok c' b' o e _ Hv' El Hno eq_refl) as [H1 H2]. eexists _, _, _, b'. split; [reflexivity|]. split; [exact H1|].
      split; [exact Hsb|]. split; [|split; [|done]].
      * by apply grown_erase.
      * intros o'. rewrite (H2 o'). case_decide; [done|apply Hs].
    + rewrite AddFlags_dirty, Ef. cbn [IsDirty IsFresh]. eexists _, _, _, b'. split; [reflexivity|].
      destruct (put_dirty c' b' o (mkEntry coinEmpty true false) (u64 (u64 (m_dirty_count c' - bool_to_Z (IsDirty e)) + 1))) as [H1 H2];
        [done|done|split; cbn; congruence|done|by rewrite El|].
      unfold flags_at in H1, H2. rewrite El in H1, H2. split; [exact H1|]. split; [exact Hsb|]. split; [|split; [|done]].
      * by apply (grown_insert o c c').
      * intros o'. etrans; [exact (H2 o')|]. case_decide; [done|apply Hs].
  - eexists _, _, c', b'. split; [reflexivity|]. split; [done|]. split; [done|]. split; [exact Hg|]. split; [|done].
    intros o'. case_decide; [subst|apply Hs]. rewrite Hs, <- Hshow. done.
Qed.

(** ** Merging a child into the cache below it *)
Lemma batch_entry_ok us base o e :
  view_ok (ViewCache us base) → room 1 us → entry_ok e (utxo (ViewCache us base) o) →
  ∃ us', batch_entry o e us = Ok us' ∧ view_ok (ViewCache us' base) ∧ grown o us us' ∧
    ∀ o', utxo (ViewCache us' base) o' = if decide (o' = o) then show e else utxo (ViewCache us base) o'.
Proof.
  intros Hv Hr He. unfold batch_entry. destruct (IsDirty e) eqn:Ed; cbn [negb].
  2:{ exists us. split; [done|]. split; [done|]. split; [apply grown_refl|]. intros o'. case_decide; [subst|done]. symmetry. by apply show_clean. }
  destruct He as [Hfr _]. pose proof (proj1 Hv) as Hc. pose proof (count_room _ _ _ Hc Hr) as Hn. pose proof (counted_le _ _ o Hc) as Hle.
  cbn [utxo] in Hfr. destruct (cacheCoins us !! o) as [eu|] eqn:E.
  - destruct (ck_entry _ _ Hc o eu E) as [Hfu Hcu]. cbn [counted] in Hle.
    assert (0 ≤ bool_to_Z (IsDirty eu) ≤ 1) as Hd by (destruct (IsDirty eu); cbn; lia).
    assert (IsFresh e && negb (IsSpent (coin eu)) = false) as ->.
    { destruct (IsFresh e); [|done]. destruct (Hfr eq_refl) as [Hsh _]. unfold show in Hsh. by destruct (IsSpent (coin eu)). }
    rewrite throw_if_false, bind_Ok by done. destruct (IsFresh eu && IsSpent (coin e)) eqn:Eb.
    + apply andb_true_iff in Eb as [Efu Esp]. destruct (Hfu Efu) as (Hno & _). rewrite u64_small by lia.
      destruct (erase_ok us base o eu _ Hv E Hno eq_refl) as [H1 H2]. eexists. split; [done|]. split; [exact H1|].
      split; [apply grown_erase, grown_refl|].
      intros o'. rewrite (H2 o'). case_decide; [|done]. unfold show. by rewrite Esp.
    + set (e' := mkEntry (coin e) true (IsFresh eu)).
      assert (entry_ok e' (utxo base o)) as He'.
      { split; [|done]. cbn. intros Efu. rewrite Efu in Eb. by destruct (Hfu Efu). }
      destruct (put_dirty us base o e' (u64 (u64 (m_dirty_count us - bool_to_Z (IsDirty eu)) + 1)) Hv Hr He' eq_refl) as [H1 H2]; [by rewrite E|].
      unfold flags_at in H1, H2. rewrite E in H1, H2. cbn [IsDirty]. destruct (IsDirty eu) eqn:Edu; cbn [negb bool_to_Z] in *.
      * eexists. split; [reflexivity|]. unfold has_flags in H1, H2. rewrite Edu in H1, H2. cbn [orb relink] in H1, H2.
        rewrite (u64_small (_ - 1)), u64_small in H1, H2 by lia. rewrite Z.sub_add in H1, H2.
        split; [exact H1|]. split; [apply grown_put|exact H2].
      * rewrite AddFlags_dirty. cbn [coin IsFresh]. rewrite Z.sub_0_r, (u64_small (m_dirty_count us)) in H1, H2 by lia.
        eexists. split; [reflexivity|]. unfold has_flags in *. cbn [IsDirty IsFresh] in *. rewrite Edu in H1, H2.
        split; [exact H1|]. split; [apply grown_put|exact H2].
  - destruct (IsFresh e && IsSpent (coin e)) eqn:Eb.
    { apply andb_true_iff in Eb as [Ef Esp]. destruct (Hfr Ef) as (_ & _ & ?). congruence. }
    rewrite AddFlags_dirty. cbn [coin IsFresh]. set (e' := mkEntry (coin e) true (IsFresh e)).
    assert (∀ l, (if IsFresh e then SetFresh o (mkEntry (coin e) true false) l else (mkEntry (coin e) true false, l)) = (e', l)) as Ef.
    { intros l. unfold e'. destruct (IsFresh e); [exact (AddFlags_fresh o (mkEntry (coin e) true false) l eq_refl)|done]. }
    rewrite Ef. assert (entry_ok e' (utxo base o)) as He' by (split; [intros Hf; by destruct (Hfr Hf) as (? & _ & ?)|done]).
    destruct (put_dirty us base o e' (u64 (m_dirty_count us + 1)) Hv Hr He' eq_refl) as [H1 H2].
    { rewrite E. cbn [counted]. by rewrite Z.sub_0_r, (u64_small (m_dirty_count us)) by lia. }
    unfold flags_at in H1, H2. rewrite E in H1, H2. eexists. split; [reflexivity|]. split; [exact H1|]. split; [apply grown_put|exact H2].
Qed.

(** The child after the cursor has passed [entries]. *)
Fixpoint passed (will_erase : bool) (entries : list COutPoint) (child : CCoinsViewCache) : CCoinsViewCache :=
  match entries with
  | [] => child
  | o :: entries =>
      passed will_erase entries
        (match cacheCoins child !! o with Some e => NextAndMaybeErase will_erase o e child | None => child end)
  end.

Lemma Next_other will_erase o e child o' : o' ≠ o →
  cacheCoins (NextAndMaybeErase will_erase o e child) !! o' = cacheCoins child !! o'.
Proof.
  intros Hne. unfold NextAndMaybeErase. destruct will_erase; [done|]. destruct (IsSpent (coin e)).
  - unfold erase. cbn [cacheCoins set_dirty_count]. destruct (cacheCoins child !! o); cbn; [by rewrite lookup_delete_ne by done|done].
  - cbn. by rewrite lookup_insert_ne by done.
Qed.

Lemma batch_loop_ok (entries : list COutPoint) (will_erase : bool) (child us : CCoinsViewCache) (base : CCoinsView) (X : gset COutPoint) :
  NoDup entries → view_ok (ViewCache us base) → Z.of_nat (size X + 1) < 2 ^ 64 → dom (cacheCoins us) ⊆ X → (∀ o, o ∈ entries → o ∈ X) →
  (∀ o, o ∈ entries → ∃ e, cacheCoins child !! o = Some e ∧ entry_ok e (utxo (ViewCache us base) o)) →
  ∃ us', batch_loop entries will_erase child us = Ok (passed will_erase entries child, us') ∧ view_ok (ViewCache us' base) ∧
    dom (cacheCoins us') ⊆ X ∧ ∀ o, utxo (ViewCache us' base) o =
      if decide (o ∈ entries) then from_option show None (cacheCoins child !! o) else utxo (ViewCache us base) o.
Proof.
  revert child us. induction entries as [|o entries IH]; intros child us Hnd Hv Hx Hus Hent Hall; cbn [batch_loop passed].
  - exists us. split; [done|]. split; [done|]. split; [done|]. intros o. rewrite decide_False; [done|]. apply not_elem_of_nil.
  - apply list.NoDup_cons in Hnd as [Hno Hnd]. destruct (Hall o) as (e & E & He); [by left|]. unfold cursor_entry. rewrite E, bind_Ok.
    assert (room 1 us) as Hr.
    { unfold room. rewrite <- (size_dom (D := gset COutPoint)). apply subseteq_size in Hus. lia. }
    destruct (batch_entry_ok us base o e Hv Hr He) as (us1 & -> & Hv1 & [Hd1 _] & Hu1). rewrite bind_Ok.
    pose proof (Hent o ltac:(by left)) as Hox.
    destruct (IH (NextAndMaybeErase will_erase o e child) us1 Hnd Hv1 Hx) as (us' & -> & Hv' & Hd' & Hu').
    { clear -Hd1 Hox Hus. set_solver. }
    { intros o' Ho'. apply Hent. by right. }
    { intros o' Ho'. assert (o' ≠ o) as Hne by (by intros ->). destruct (Hall o') as (e' & E' & He'); [by right|]. exists e'.
      rewrite Next_other by done. split; [done|]. rewrite Hu1, decide_False by done. exact He'. }
    exists us'. split; [done|]. split; [done|]. split; [done|]. intros o'. rewrite Hu'. destruct (decide (o' ∈ entries)) as [Hi|Hi].
    + rewrite decide_True by (by right). rewrite Next_other by (by intros ->). done.
    + rewrite Hu1. destruct (decide (o' = o)) as [->|Hne]; [rewrite decide_True by left; by rewrite E|].
      rewrite decide_False; [done|]. rewrite elem_of_cons. tauto.
Qed.

(** ** The child under the cursor *)
Definition without (entries : list COutPoint) (m : gmap COutPoint CCoinsCacheEntry) : gmap COutPoint CCoinsCacheEntry :=
  foldl (λ m o, delete o m) m entries.

Lemma lookup_without entries m o : without entries m !! o = if decide (o ∈ entries) then None else m !! o.
Proof.
  revert m. induction entries as [|a entries IH]; intros m; [rewrite decide_False by apply not_elem_of_nil; done|].
  change (without (a :: entries) m) with (without entries (delete a m)). rewrite IH. destruct (decide (o ∈ entries)); [by rewrite decide_True by (by right)|].
  destruct (decide (o = a)) as [->|]; [rewrite lookup_delete_eq, decide_True by left; done|].
  rewrite lookup_delete_ne, decide_False by (done || (rewrite elem_of_cons; tauto)). done.
Qed.

Lemma Next_count will_erase o e child :
  m_dirty_count (NextAndMaybeErase will_erase o e child) = u64 (m_dirty_count child - bool_to_Z (IsDirty e)).
Proof.
  unfold NextAndMaybeErase. destruct will_erase; [done|]. destruct (IsSpent (coin e)); [|done]. unfold erase. by destruct (_ !! o).
Qed.

Lemma passed_count will_erase entries child m :
  NoDup entries → (∀ o, o ∈ entries → is_Some (m !! o) ∧ m !! o = cacheCoins child !! o) →
  m_dirty_count child = count_entries IsDirty m → Z.of_nat (size m) < 2 ^ 64 →
  m_dirty_count (passed will_erase entries child) = count_entries IsDirty (without entries m).
Proof.
  revert child m. induction entries as [|o entries IH]; intros child m Hnd Hin Hc Hsz; [done|]. cbn [passed].
  change (without (o :: entries) m) with (without entries (delete o m)).
  apply list.NoDup_cons in Hnd as [Hno Hnd]. destruct (Hin o ltac:(by left)) as [[e He] Ee]. rewrite <- Ee, He.
  apply IH; [done| | |rewrite map_size_delete, He; lia].
  - intros o' Ho'. assert (o' ≠ o) by (by intros ->). rewrite lookup_delete_ne, Next_other by done. apply Hin. by right.
  - rewrite Next_count, count_entries_delete, He, Hc. cbn [counted]. apply u64_small.
    pose proof (count_entries_bound IsDirty (delete o m)) as Hb. rewrite count_entries_delete, He in Hb. cbn [counted] in Hb.
    rewrite map_size_delete, He in Hb. lia.
Qed.

(** Nothing dirty is left once the cursor has passed every flagged entry. *)
Lemma passed_all_count will_erase c below : cache_ok c below → room 0 c →
  m_dirty_count (passed will_erase (m_flagged c) c) = 0.
Proof.
  intros Hc Hr. rewrite (passed_count _ _ _ (cacheCoins c)); [|apply (ck_nodup _ _ Hc)| |apply (ck_count _ _ Hc)|unfold room in Hr; lia].
  - unfold count_entries. replace (filter _ _) with (∅ : gmap COutPoint CCoinsCacheEntry); [done|]. symmetry.
    apply map_empty. intros o. apply map_lookup_filter_None. right. intros e. rewrite lookup_without.
    destruct (decide (o ∈ m_flagged c)) as [|Hn]; [done|]. intros E Hd. cbn in Hd. apply Hn, (ck_link _ _ Hc).
    exists e. split; [done|]. unfold has_flags. by rewrite Hd.
  - intros o Ho. apply (ck_link _ _ Hc) in Ho as (e & -> & _). eauto.
Qed.

Lemma passed_flush entries c : cacheCoins (passed true entries c) = cacheCoins c ∧ hashBlock (passed true entries c) = hashBlock c.
Proof.
  revert c. induction entries as [|o entries IH]; intros c; [done|]. cbn [passed]. destruct (cacheCoins c !! o); [|apply IH].
  destruct (IH (NextAndMaybeErase true o c0 c)) as [-> ->]. done.
Qed.

(** After a sync, an entry is either untouched or clean. *)
Definition synced (e : CCoinsCacheEntry) : option CCoinsCacheEntry :=
  if IsSpent (coin e) then None else Some (mkEntry (coin e) false false).

Lemma Next_sync o e child : cacheCoins child !! o = Some e →
  cacheCoins (NextAndMaybeErase false o e child) !! o = synced e ∧
  m_flagged (NextAndMaybeErase false o e child) = relink o (has_flags e) false (m_flagged child) ∧
  hashBlock (NextAndMaybeErase false o e child) = hashBlock child.
Proof.
  intros E. unfold NextAndMaybeErase, synced, erase. cbn [set_dirty_count cacheCoins m_flagged hashBlock]. rewrite E.
  destruct (IsSpent (coin e)); cbn [cacheCoins m_flagged hashBlock].
  - rewrite lookup_delete_eq, SetClean_relink. done.
  - cbn. rewrite lookup_insert_eq. split; [done|]. split; [by destruct (has_flags e)|done].
Qed.

Lemma passed_sync entries c :
  NoDup entries → (∀ o, o ∈ entries → ∃ e, cacheCoins c !! o = Some e ∧ has_flags e = true) →
  (∀ o, cacheCoins (passed false entries c) !! o = if decide (o ∈ entries) then cacheCoins c !! o ≫= synced else cacheCoins c !! o) ∧
  (∀ o, o ∈ m_flagged (passed false entries c) ↔ o ∈ m_flagged c ∧ o ∉ entries) ∧ hashBlock (passed false entries c) = hashBlock c.
Proof.
  revert c. induction entries as [|o entries IH]; intros c Hnd Hall.
  - cbn. split; [intros o; by rewrite decide_False by apply not_elem_of_nil|]. split; [|done].
    intros o. pose proof (not_elem_of_nil o). tauto.
  - apply list.NoDup_cons in Hnd as [Hno Hnd]. destruct (Hall o ltac:(by left)) as (e & E & Hf). cbn [passed]. rewrite E.
    destruct (Next_sync o e c E) as (H1 & H2 & H3).
    destruct (IH (NextAndMaybeErase false o e c) Hnd) as (H4 & H5 & H6).
    { intros o' Ho'. rewrite Next_other by (by intros ->). apply Hall. by right. }
    split; [|split; [|by rewrite H6]].
    + intros o'. rewrite H4. destruct (decide (o' = o)) as [->|Hne].
      * rewrite decide_False, decide_True, H1, E by (done || by left). done.
      * rewrite Next_other by done. destruct (decide (o' ∈ entries)); [by rewrite decide_True by (by right)|].
        rewrite decide_False; [done|]. rewrite elem_of_cons. tauto.
    + intros o'. rewrite H5, H2, Hf. cbn [relink]. rewrite list_elem_of_filter, not_elem_of_cons. tauto.
Qed.

(** ** Database batches *)

(** A state a crash may leave while the database moves from the coins [old] to
    [new]: the heads mark the transition, every coin is old or new. *)
Definition in_transition (heads : list (list Z)) (old new : COutPoint → option Coin) (db : CCoinsViewDB) : Prop :=
  db_best_block db = None ∧ db_head_blocks db = Some heads ∧ ∀ o, db_coins db !! o = old o ∨ db_coins db !! o = new o.

Definition coin_op (o : COutPoint) (e : CCoinsCacheEntry) : list db_op :=
  if IsDirty e then [if IsSpent (coin e) then EraseCoin o else WriteCoin o (coin e)] else [].

Lemma WriteBatch_app db b b' : WriteBatch db (b ++ b') = WriteBatch (WriteBatch db b) b'.
Proof. apply foldl_app. Qed.

Lemma coin_op_ok db o e : let db' := WriteBatch db (coin_op o e) in
  db_best_block db' = db_best_block db ∧ db_head_blocks db' = db_head_blocks db ∧
  ∀ o', db_coins db' !! o' = if decide (o' = o ∧ IsDirty e = true) then show e else db_coins db !! o'.
Proof.
  unfold coin_op, show, WriteBatch. destruct (IsDirty e); [destruct (IsSpent (coin e))|]; cbn; (split; [done|split; [done|]]); intros o';
    destruct (decide (o' = o)) as [->|Hne].
  - by rewrite lookup_delete_eq, decide_True.
  - by rewrite lookup_delete_ne, decide_False by (try (intros [? ?]); congruence).
  - by rewrite lookup_insert_eq, decide_True.
  - by rewrite lookup_insert_ne, decide_False by (try (intros [? ?]); congruence).
  - by rewrite decide_False by (try (intros [? ?]); congruence).
  - by rewrite decide_False by (try (intros [? ?]); congruence).
Qed.

Section database.
Context (full : list db_op → bool) (will_erase : bool) (heads : list (list Z)) (old new : COutPoint → option Coin).

Lemma db_loop_ok entries child batch db written :
  NoDup entries →
  (∀ o, o ∈ entries → ∃ e, cacheCoins child !! o = Some e ∧ (IsDirty e = true → show e = new o)) →
  in_transition heads old new (WriteBatch db batch) → Forall (in_transition heads old new) written →
  ∃ batch' db' written', db_loop full entries will_erase child batch db written = Ok (passed will_erase entries child, batch', db', written') ∧
    in_transition heads old new (WriteBatch db' batch') ∧ Forall (in_transition heads old new) written' ∧
    ∀ o, db_coins (WriteBatch db' batch') !! o =
      if decide (o ∈ entries ∧ counted IsDirty (cacheCoins child !! o) = 1) then new o else db_coins (WriteBatch db batch) !! o.
Proof using Type.
  revert child batch db written. induction entries as [|o entries IH]; intros child batch db written Hnd Hall Ht Hw; cbn [db_loop passed].
  - exists batch, db, written. split; [done|]. split; [done|]. split; [done|]. intros o. rewrite decide_False; [done|]. intros [Hi _].
    by apply not_elem_of_nil in Hi.
  - apply list.NoDup_cons in Hnd as [Hno Hnd]. destruct (Hall o ltac:(by left)) as (e & E & Hnew). unfold cursor_entry. rewrite E, bind_Ok.
    assert ((if IsDirty e then batch ++ [if IsSpent (coin e) then EraseCoin o else WriteCoin o (coin e)] else batch) = batch ++ coin_op o e) as ->.
    { unfold coin_op. destruct (IsDirty e); [done|]. by rewrite app_nil_r. }
    destruct (coin_op_ok (WriteBatch db batch) o e) as (Hb1 & Hh1 & Hc1). rewrite <- WriteBatch_app in Hb1, Hh1, Hc1.
    assert (in_transition heads old new (WriteBatch db (batch ++ coin_op o e))) as Ht1.
    { destruct Ht as (Hb & Hh & Hc). split; [by rewrite Hb1|]. split; [by rewrite Hh1|]. intros o'. rewrite Hc1.
      destruct (decide (o' = o ∧ IsDirty e = true)) as [[-> Hd]|]; [right; by apply Hnew|apply Hc]. }
    assert (∀ o', o' ∈ entries → ∃ e', cacheCoins (NextAndMaybeErase will_erase o e child) !! o' = Some e' ∧ (IsDirty e' = true → show e' = new o')) as Hall'.
    { intros o' Ho'. rewrite Next_other by (by intros ->). apply Hall. by right. }
    assert (∀ o', db_coins (WriteBatch db (batch ++ coin_op o e)) !! o' =
              if decide (o' = o ∧ IsDirty e = true) then new o' else db_coins (WriteBatch db batch) !! o') as Hc2.
    { intros o'. rewrite Hc1. destruct (decide (o' = o ∧ IsDirty e = true)) as [[-> Hd]|]; [by apply Hnew|done]. }
    assert (∀ (X : gmap COutPoint Coin), (∀ o', X !! o' = if decide (o' ∈ entries ∧ counted IsDirty (cacheCoins (NextAndMaybeErase will_erase o e child) !! o') = 1)
              then new o' else db_coins (WriteBatch db (batch ++ coin_op o e)) !! o') →
            ∀ o', X !! o' = if decide (o' ∈ o :: entries ∧ counted IsDirty (cacheCoins child !! o') = 1) then new o' else db_coins (WriteBatch db batch) !! o') as Hfin.
    { intros X HX o'. rewrite HX, Hc2. destruct (decide (o' = o)) as [->|Hne].
      - rewrite decide_False by tauto. apply decide_ext. rewrite E, elem_of_cons. cbn [counted]. destruct (IsDirty e); cbn [bool_to_Z]; intuition (congruence || lia).
      - rewrite (decide_False (P := o' = o ∧ _)) by tauto. rewrite Next_other by done. apply decide_ext. rewrite elem_of_cons. tauto. }
    destruct (full (batch ++ coin_op o e)).
    + destruct (IH (NextAndMaybeErase will_erase o e child) [] (WriteBatch db (batch ++ coin_op o e))
        (written ++ [WriteBatch db (batch ++ coin_op o e)]) Hnd Hall' Ht1) as (b' & db' & w' & -> & H1 & H2 & H3).
      { apply Forall_app. split; [done|]. by apply Forall_singleton. }
      exists b', db', w'. split; [done|]. split; [done|]. split; [done|]. apply Hfin, H3.
    + destruct (IH (NextAndMaybeErase will_erase o e child) (batch ++ coin_op o e) db written Hnd Hall' Ht1 Hw) as (b' & db' & w' & -> & H1 & H2 & H3).
      exists b', db', w'. split; [done|]. split; [done|]. split; [done|]. apply Hfin, H3.
Qed.

End database.

(** The database takes a batch for [hash]: it has a tip, or is resuming an
    interrupted write of the same block. *)
Definition db_writable (db : CCoinsViewDB) (hash : list Z) : Prop :=
  hash ≠ null_hash ∧ (db_GetBestBlock db = null_hash → ∀ h0 h1, db_GetHeadBlocks db = [h0; h1] → h0 = hash).

Lemma db_old_tip_ok db hash : db_writable db hash → ∃ old_tip, db_old_tip db hash = Ok old_tip.
Proof.
  intros [_ Hr]. unfold db_old_tip. case_bool_decide as Hb; [|by eexists]. specialize (Hr Hb).
  destruct (db_GetHeadBlocks db) as [|h0 [|h1 [|]]]; try (by eexists). rewrite (Hr h0 h1 eq_refl), bool_decide_true by done. by eexists.
Qed.

Lemma db_BatchWrite_ok full db c will_erase hash :
  view_ok (ViewCache c (ViewDB db)) → db_writable db hash →
  ∃ db' states old_tip, db_BatchWrite full db c will_erase hash = Ok (db', states ++ [db'], passed will_erase (m_flagged c) c) ∧
    db_old_tip db hash = Ok old_tip ∧
    db_best_block db' = Some hash ∧ db_head_blocks db' = None ∧ (∀ o, db_coins db' !! o = utxo (ViewCache c (ViewDB db)) o) ∧
    Forall (in_transition [hash; old_tip] (λ o, db_coins db !! o) (utxo (ViewCache c (ViewDB db)))) states.
Proof.
  intros [Hc Hb] Hw. destruct (db_old_tip_ok db hash Hw) as [old_tip Eo]. unfold db_BatchWrite.
  rewrite bool_decide_false by apply Hw. cbn [negb]. rewrite assert_true, bind_Ok, Eo, bind_Ok by done.
  set (new := utxo (ViewCache c (ViewDB db))). set (old := λ o, db_coins db !! o).
  assert (∀ o, o ∈ m_flagged c → ∃ e, cacheCoins c !! o = Some e ∧ (IsDirty e = true → show e = new o)) as Hall.
  { intros o Ho. apply (ck_link _ _ Hc) in Ho as (e & E & _). exists e. split; [done|]. intros _. unfold new. cbn. by rewrite E. }
  destruct (db_loop_ok full will_erase [hash; old_tip] old new (m_flagged c) c [EraseBestBlock; WriteHeadBlocks [hash; old_tip]] db []
    (ck_nodup _ _ Hc) Hall) as (b' & db' & w' & -> & (Hb1 & Hh1 & _) & Hw' & Hcoins); [by split; [|split; [|left]]|done|]. rewrite bind_Ok.
  eexists _, w', old_tip. split; [reflexivity|]. split; [done|]. rewrite WriteBatch_app.
  set (s := WriteBatch db' b') in *. cbn. split; [done|]. split; [done|]. split; [|done].
  intros o. rewrite Hcoins. case_decide as Hd; [done|]. cbn. destruct (cacheCoins c !! o) as [e|] eqn:E; [|done].
  symmetry. apply show_clean; [by apply (ck_entry _ _ Hc)|]. destruct (IsDirty e) eqn:Ed; [|done]. exfalso. apply Hd. cbn [counted]. rewrite Ed.
  split; [|done]. apply (ck_link _ _ Hc). exists e. split; [done|]. unfold has_flags. by rewrite Ed.
Qed.

(** ** Flush and sync *)
Lemma empty_cache_ok h below : cache_ok (mkCache h [] ∅ 0) below.
Proof.
  split; cbn.
  - intros o. rewrite lookup_empty. split; [by intros ?%not_elem_of_nil|by intros (? & ? & _)].
  - apply base.NoDup_nil_2.
  - unfold count_entries. by rewrite map_filter_empty, map_size_empty.
  - intros o e. by rewrite lookup_empty.
Qed.

Definition base_accepts (base : CCoinsView) (c : CCoinsViewCache) : Prop :=
  match base with
  | ViewDB db => db_writable db (hashBlock c)
  | ViewCache us _ => Z.of_nat (size (dom (cacheCoins us) ∪ dom (cacheCoins c)) + 1) < 2 ^ 64
  end.

Lemma cache_ok_hash c h below : cache_ok c below → cache_ok (SetBestBlock c h) below.
Proof. intros [H1 H2 H3 H4]. by split. Qed.

(** Entries the cursor does not visit are clean. *)
Lemma utxo_unflagged c base o : view_ok (ViewCache c base) → o ∉ m_flagged c → utxo (ViewCache c base) o = utxo base o.
Proof.
  intros [Hc _] Ho. cbn. destruct (cacheCoins c !! o) as [e|] eqn:E; [|done]. apply show_clean; [by apply (ck_entry _ _ Hc)|].
  destruct (IsDirty e) eqn:Ed; [|done]. exfalso. apply Ho, (ck_link _ _ Hc). exists e. split; [done|]. unfold has_flags. by rewrite Ed.
Qed.

(** [base'] is [base] after [c] was written to it. *)
Definition written (base base' : CCoinsView) (c : CCoinsViewCache) : Prop :=
  top_dom base' ⊆ top_dom base ∪ dom (cacheCoins c) ∧
  match base with
  | ViewDB _ => ∃ db', base' = ViewDB db' ∧ db_best_block db' = Some (hashBlock c) ∧ db_head_blocks db' = None
  | ViewCache _ _ => ∃ us b, base' = ViewCache us b
  end.

Lemma BatchWrite_ok full base c will_erase :
  view_ok (ViewCache c base) → base_accepts base c →
  ∃ base', BatchWrite full base c will_erase (hashBlock c) = Ok (base', passed will_erase (m_flagged c) c) ∧ view_ok base' ∧
    same_coins (ViewCache c base) base' ∧ written base base' c.
Proof.
  intros Hv Ha. unfold BatchWrite. destruct base as [db|us base].
  - destruct (db_BatchWrite_ok full db c will_erase (hashBlock c) Hv Ha) as (db' & states & old_tip & -> & _ & Hbest & Hheads & Hco & _). rewrite bind_Ok.
    exists (ViewDB db'). split; [done|]. split; [|split; [exact Hco|split; [set_solver|eauto]]]. intros o k Hk. rewrite Hco in Hk. exact (utxo_unspent _ o k Hv Hk).
  - pose proof Hv as [Hc [Hu Hb]].
    destruct (batch_loop_ok (m_flagged c) will_erase c us base _ (ck_nodup _ _ Hc) (conj Hu Hb) Ha) as (us' & -> & [Hu' _] & Hd' & Hco).
    { apply union_subseteq_l. }
    { intros o Ho. apply (ck_link _ _ Hc) in Ho as (e & E & _). apply elem_of_union_r, elem_of_dom. eauto. }
    { intros o Ho. apply (ck_link _ _ Hc) in Ho as (e & E & _). exists e. split; [done|]. by apply (ck_entry _ _ Hc). }
    rewrite bind_Ok. eexists. split; [reflexivity|]. split; [split; [by apply cache_ok_hash|done]|]. split; [|split; [exact Hd'|eauto]].
    intros o. change (utxo (ViewCache (SetBestBlock us' (hashBlock c)) base) o) with (utxo (ViewCache us' base) o). rewrite Hco.
    case_decide as Hd; [|symmetry; by apply utxo_unflagged]. apply (ck_link _ _ Hc) in Hd as (e & E & _).
    change (utxo (ViewCache c (ViewCache us base)) o) with (match cacheCoins c !! o with Some e => show e | None => utxo (ViewCache us base) o end).
    by rewrite E.
Qed.

Lemma Flush_ok full c base :
  view_ok (ViewCache c base) → base_accepts base c → room 0 c →
  ∃ base', Flush full c base = Ok (mkCache (hashBlock c) [] ∅ 0, base') ∧ view_ok (ViewCache (mkCache (hashBlock c) [] ∅ 0) base') ∧
    same_coins (ViewCache c base) base' ∧ written base base' c.
Proof.
  intros Hv Ha Hr. destruct (BatchWrite_ok full base c true Hv Ha) as (base' & E & Hb' & Hco & Hw). unfold Flush. rewrite E, bind_Ok.
  rewrite (passed_all_count true c _ (proj1 Hv) Hr), assert_true, bind_Ok, (proj2 (passed_flush _ c)) by done.
  exists base'. split; [done|]. split; [split; [apply empty_cache_ok|done]|split; [exact Hco|exact Hw]].
Qed.

Lemma Sync_ok full c base :
  view_ok (ViewCache c base) → base_accepts base c → room 0 c →
  ∃ c' base', Sync full c base = Ok (c', base') ∧ view_ok (ViewCache c' base') ∧ same_coins (ViewCache c base) base' ∧
    same_coins (ViewCache c base) (ViewCache c' base') ∧ m_flagged c' = [] ∧ written base base' c ∧ dom (cacheCoins c') ⊆ dom (cacheCoins c) ∧ hashBlock c' = hashBlock c.
Proof.
  intros Hv Ha Hr. destruct (BatchWrite_ok full base c false Hv Ha) as (base' & E & Hb' & Hco & Hw). unfold Sync. rewrite E, bind_Ok.
  pose proof (proj1 Hv) as Hc. pose proof (passed_all_count false c _ Hc Hr) as Hn. rewrite Hn, assert_true, bind_Ok by done.
  destruct (passed_sync (m_flagged c) c (ck_nodup _ _ Hc) (λ o, proj1 (ck_link _ _ Hc o))) as (Hm & Hf & Hh).
  set (c' := passed false (m_flagged c) c) in *.
  assert (m_flagged c' = []) as Hnil.
  { destruct (m_flagged c') as [|o l]; [done|]. destruct (proj1 (Hf o) ltac:(by left)) as [H1 H2]. contradiction. }
  rewrite bool_decide_true, throw_if_false, bind_Ok by done.
  assert (∀ o e, cacheCoins c' !! o = Some e → IsDirty e = false ∧ IsFresh e = false ∧ IsSpent (coin e) = false ∧ utxo (ViewCache c base) o = Some (coin e)) as Hclean.
  { intros o e. rewrite Hm. cbn [utxo]. destruct (cacheCoins c !! o) as [e0|] eqn:E0; [|by case_decide]. unfold synced, show. case_decide as Hd; cbn.
    - destruct (IsSpent (coin e0)) eqn:Es; [done|]. intros [= <-]. done.
    - intros [= <-]. destruct (ck_entry _ _ Hc o e0 E0) as [_ Hcl]. assert (has_flags e0 = false) as Hfl.
      { destruct (has_flags e0) eqn:Ef; [|done]. exfalso. apply Hd, (ck_link _ _ Hc). eauto. }
      apply orb_false_iff in Hfl as [Hd0 Hf0]. destruct (Hcl Hd0) as [_ Hs]. by rewrite Hs. }
  exists c', base'. split; [done|]. split; [split; [split|done]|split; [exact Hco|split; [|split; [done|split; [exact Hw|split; [|exact Hh]]]]]].
  - intros o. rewrite Hnil. split; [by intros ?%not_elem_of_nil|]. intros (e & He & Hfl). destruct (Hclean o e He) as (H1 & H2 & _).
    unfold has_flags in Hfl. by rewrite H1, H2 in Hfl.
  - rewrite Hnil. apply base.NoDup_nil_2.
  - rewrite Hn. unfold count_entries. replace (filter _ _) with (∅ : gmap COutPoint CCoinsCacheEntry); [done|]. symmetry.
    apply map_empty. intros o. apply map_lookup_filter_None. right. intros e He. destruct (Hclean o e He) as [H1 _]. cbn. congruence.
  - intros o e He. destruct (Hclean o e He) as (H1 & H2 & H3 & H4). split; [congruence|]. intros _. by rewrite Hco.
  - intros o. change (utxo (ViewCache c' base') o) with (match cacheCoins c' !! o with Some e => show e | None => utxo base' o end).
    destruct (cacheCoins c' !! o) as [e|] eqn:Ee; [|apply Hco]. destruct (Hclean o e Ee) as (_ & _ & H3 & ->). unfold show. by rewrite H3.
  - intros o. rewrite !elem_of_dom. intros [e He]. rewrite Hm in He. destruct (cacheCoins c !! o); [eauto|by case_decide].
Qed.

(** ** The self-check *)
Lemma SanityCheck_ok c below : cache_ok c below → SanityCheck c = Ok tt.
Proof.
  intros Hc. unfold SanityCheck. rewrite !assert_true; [done|..].
  - apply forallb_forall. intros [o e] Ho. apply list_elem_of_In, elem_of_map_to_list in Ho. destruct (ck_entry _ _ Hc o e Ho) as [H1 H2]. cbn.
    unfold attr. destruct (IsDirty e), (IsFresh e), (IsSpent (coin e)); cbn; try done; exfalso.
    all: first [destruct (H1 eq_refl) as (_ & ? & ?); congruence|destruct (H2 eq_refl) as (_ & ?); congruence].
  - apply forallb_forall. intros o Ho. apply list_elem_of_In, (ck_link _ _ Hc) in Ho as (e & -> & Hf). by rewrite Hf.
  - apply Z.eqb_eq. unfold zlen, count_entries. f_equal.
    rewrite <- (size_list_to_set (C := gset COutPoint) (m_flagged c)) by apply (ck_nodup _ _ Hc).
    rewrite <- (size_dom (D := gset COutPoint)). f_equal. apply set_eq. intros o. rewrite elem_of_list_to_set, (ck_link _ _ Hc), elem_of_dom.
    rewrite map_lookup_filter. destruct (cacheCoins c !! o) as [e|]; cbn.
    + case_guard; cbn; split; [eauto|eauto|by intros (? & [= <-] & ?)|by intros [? ?]].
    + split; [by intros (? & ? & _)|by intros [? ?]].
  - rewrite (ck_count _ _ Hc). apply Z.eqb_refl.
Qed.

Lemma Uncache_ok c base o : view_ok (ViewCache c base) →
  view_ok (ViewCache (Uncache c o) base) ∧ same_coins (ViewCache c base) (ViewCache (Uncache c o) base) ∧ grown o c (Uncache c o).
Proof.
  intros Hv. pose proof (grown_refl o c) as Hg. unfold Uncache. destruct (cacheCoins c !! o) as [e|] eqn:E; [|by split; [|split; [intros ?|]]].
  destruct (negb (IsDirty e) && negb (IsFresh e)) eqn:Eb; [|by split; [|split; [intros ?|]]]. apply andb_true_iff in Eb as [Hd%negb_true_iff Hf%negb_true_iff].
  pose proof Hv as [Hc Hb]. destruct (ck_entry _ _ Hc o e E) as [_ Hcl]. destruct (Hcl Hd) as [Hbelow Hs].
  assert (flags_at c o = has_flags e) as Efl by (unfold flags_at; by rewrite E).
  assert (erase o c = mkCache (hashBlock c) (relink o (flags_at c o) false (m_flagged c)) (delete o (cacheCoins c)) (m_dirty_count c)) as ->.
  { unfold erase. by rewrite E, SetClean_relink, Efl. }
  split; [split; [|done]|split].
  - apply cache_ok_delete; [done|]. rewrite E. cbn [counted]. rewrite Hd. cbn. lia.
  - intros o'. rewrite utxo_delete. case_decide as Hx; [|done]. rewrite Hx. cbn [utxo]. rewrite E. symmetry. apply show_clean; [|done]. by apply (ck_entry _ _ Hc).
  - split; [|done]. cbn [cacheCoins]. rewrite dom_delete. clear. set_solver.
Qed.
