(* ===== verification/CoinsRun.v ===== *)
(** Runs of operations on the coin cache.

    The operations a validating node performs on its topmost cache of coins,
    the same operations on a map of unspent coins with a tip, and the
    refinement between the two; the states a crash can leave in the coin
    database. *)

From Stdlib Require Import ZArith Lia String.
From stdpp Require Import base list numbers gmap tactics.
From S2P Require Import Prelude Coins.
Import coins.

Open Scope Z_scope.

(** ** Runs

    The operations a validating node performs on its topmost cache, and the
    same operations on a tip and a map of unspent coins. *)
Inductive operation :=
| OpGet (o : COutPoint)
| OpHave (o : COutPoint)
| OpTip
| OpAdd (o : COutPoint) (k : Coin) (possible_overwrite : bool)
| OpSpend (o : COutPoint)
| OpSetTip (h : list Z)
| OpUncache (o : COutPoint)
| OpFlush
| OpSync.

Inductive answer := NoAnswer | IsThere (b : bool) | TheCoin (k : option Coin) | TheTip (h : list Z).

Definition split_view (v : CCoinsView) (c : CCoinsViewCache) (base : CCoinsView) : CCoinsViewCache * CCoinsView :=
  match v with ViewCache c base => (c, base) | ViewDB _ => (c, base) end.

Definition perform (full : list db_op → bool) (op : operation) (c : CCoinsViewCache) (base : CCoinsView) :
    result (answer * CCoinsViewCache * CCoinsView) :=
  match op with
  | OpGet o => '(k, c, base) ← AccessCoin c base o; Ok (TheCoin (if IsSpent k then None else Some k), c, base)
  | OpHave o => '(b, c, base) ← HaveCoin c base o; Ok (IsThere b, c, base)
  | OpTip => let '(h, v) := GetBestBlock (ViewCache c base) in let '(c, base) := split_view v c base in Ok (TheTip h, c, base)
  | OpAdd o k po => c ← AddCoin c o k po; Ok (NoAnswer, c, base)
  | OpSpend o => '(_, moved, c, base) ← SpendCoin c base o; Ok (TheCoin (moved ≫= λ k, if IsSpent k then None else Some k), c, base)
  | OpSetTip h => Ok (NoAnswer, SetBestBlock c h, base)
  | OpUncache o => Ok (NoAnswer, Uncache c o, base)
  | OpFlush => '(c, base) ← Flush full c base; Ok (NoAnswer, c, base)
  | OpSync => '(c, base) ← Sync full c base; Ok (NoAnswer, c, base)
  end.

Fixpoint perform_all (full : list db_op → bool) (ops : list operation) (c : CCoinsViewCache) (base : CCoinsView) :
    result (list answer * CCoinsViewCache * CCoinsView) :=
  match ops with
  | [] => Ok ([], c, base)
  | op :: ops =>
      '(a, c, base) ← perform full op c base;
      _ ← SanityCheck c;
      '(l, c, base) ← perform_all full ops c base;
      Ok (a :: l, c, base)
  end.

(** *** The reference *)
Record ledger := mkLedger { tip : list Z; unspent : COutPoint → option Coin }.

Definition put (m : COutPoint → option Coin) (o : COutPoint) (k : option Coin) : COutPoint → option Coin :=
  λ o', if decide (o' = o) then k else m o'.

Definition spec_step (op : operation) (s : ledger) : answer * ledger :=
  match op with
  | OpGet o => (TheCoin (unspent s o), s)
  | OpHave o => (IsThere (bool_decide (is_Some (unspent s o))), s)
  | OpTip => (TheTip (tip s), s)
  | OpAdd o k _ => (NoAnswer, if IsUnspendable (scriptPubKey (out k)) then s else mkLedger (tip s) (put (unspent s) o (Some k)))
  | OpSpend o => (TheCoin (unspent s o), mkLedger (tip s) (put (unspent s) o None))
  | OpSetTip h => (NoAnswer, mkLedger h (unspent s))
  | OpUncache _ | OpFlush | OpSync => (NoAnswer, s)
  end.

(** Callers add unspent coins, claim that nothing is overwritten only when
    nothing is, and set the hash of a block as the tip. *)
Definition permitted (op : operation) (s : ledger) : Prop :=
  match op with
  | OpAdd o k po => IsSpent k = false ∧ (po = false → unspent s o = None)
  | OpSetTip h => h ≠ null_hash
  | _ => True
  end.

Fixpoint spec_run (ops : list operation) (s : ledger) : list answer * ledger :=
  match ops with
  | [] => ([], s)
  | op :: ops => let '(a, s) := spec_step op s in let '(l, s) := spec_run ops s in (a :: l, s)
  end.

Fixpoint all_permitted (ops : list operation) (s : ledger) : Prop :=
  match ops with
  | [] => True
  | op :: ops => permitted op s ∧ all_permitted ops (spec_step op s).2
  end.

(** *** Space and tip *)
Definition outpoint_of (op : operation) : gset COutPoint :=
  match op with OpGet o | OpHave o | OpAdd o _ _ | OpSpend o | OpUncache o => {[o]} | OpTip | OpSetTip _ | OpFlush | OpSync => ∅ end.

Definition touched (c : CCoinsViewCache) (base : CCoinsView) : gset COutPoint := dom (cacheCoins c) ∪ top_dom base.

(** The database is not in the middle of a write. *)
Definition idle (base : CCoinsView) : Prop :=
  match base with ViewDB db => db_GetBestBlock db = null_hash → db_GetHeadBlocks db = [] | ViewCache _ _ => True end.

(** Room for the outpoints [X]. Without [w], also a tip to write and a database
    that accepts it; with [w], the base is that database and is only read. *)
Record ready (w : option CCoinsViewDB) (X : gset COutPoint) (c : CCoinsViewCache) (base : CCoinsView) : Prop := mkReady {
  rd_small : Z.of_nat (size X + 2) < 2 ^ 64;
  rd_touched : touched c base ⊆ X;
  rd_tip : w = None → hashBlock c ≠ null_hash;
  rd_idle : w = None → idle base;
  rd_base db : w = Some db → base = ViewDB db;
}.

Lemma ready_room w X c base n : ready w X c base → (n ≤ 2)%nat → room n c.
Proof.
  intros [Hs Ht _ _ _] Hn. unfold room. rewrite <- (size_dom (D := gset COutPoint)).
  assert (dom (cacheCoins c) ⊆ X) as Hd%subseteq_size by (unfold touched in Ht; clear -Ht; set_solver). lia.
Qed.

Lemma ready_accepts X c base : ready None X c base → base_accepts base c.
Proof.
  intros [Hs Ht Htip Hid _]. unfold base_accepts. destruct base as [db|us b].
  - split; [by apply Htip|]. intros Hn h0 h1 Hh. rewrite (Hid eq_refl Hn) in Hh. done.
  - assert (dom (cacheCoins us) ∪ dom (cacheCoins c) ⊆ X) as Hd%subseteq_size by (unfold touched in Ht; cbn in Ht; clear -Ht; set_solver). lia.
Qed.

Lemma ready_filled w X c base o c' base' : ready w X c base → o ∈ X → grown o c c' → filled o base base' → ready w X c' base'.
Proof.
  intros [Hs Ht Htip Hid Hdb] Ho [Hc Hh] (_ & Hf & Hb). split; [done| |rewrite Hh; exact Htip| |].
  - unfold touched in *. clear -Ht Ho Hc Hf. set_solver.
  - intros Hw. specialize (Hid Hw). destruct base; [by subst|]. by destruct Hb as (? & ? & ->).
  - intros db Hw. by rewrite (Hdb db Hw) in Hb.
Qed.

Lemma ready_written w X c base c' base' : w = None → ready w X c base → dom (cacheCoins c') ⊆ dom (cacheCoins c) → hashBlock c' = hashBlock c →
  written base base' c → ready w X c' base'.
Proof.
  intros Hn [Hs Ht Htip Hid _] Hc Hh [Hd Hb]. split; [done| |rewrite Hh; exact Htip| |congruence].
  - unfold touched in *. clear -Ht Hc Hd. set_solver.
  - intros Hw. specialize (Hid Hw). specialize (Htip Hw). destruct base; [|by destruct Hb as (? & ? & ->)]. destruct Hb as (db' & -> & E & _). cbn. unfold db_GetBestBlock. by rewrite E.
Qed.

(** *** One operation *)
Record represents (c : CCoinsViewCache) (base : CCoinsView) (s : ledger) : Prop := mkRepresents {
  rp_tip : hashBlock c = tip s;
  rp_coins o : utxo (ViewCache c base) o = unspent s o;
}.

(** Ledgers are equal when they have the same tip and the same coins. *)
#[export] Instance ledger_equiv : Equiv ledger := λ s s', tip s = tip s' ∧ ∀ o, unspent s o = unspent s' o.

#[export] Instance ledger_equivalence : Equivalence (≡@{ledger}).
Proof.
  split; [by intros s; split|intros s s' [Ht H]; by split|]. intros s s' s'' [H1 H2] [H3 H4]. split; [congruence|]. intros o. by rewrite H2.
Qed.

(** A consistent stack of views that shows [s] and has room for the outpoints [X]. *)
Record good (w : option CCoinsViewDB) (X : gset COutPoint) (s : ledger) (c : CCoinsViewCache) (base : CCoinsView) : Prop := mkGood {
  gd_view : view_ok (ViewCache c base);
  gd_rep : represents c base s;
  gd_ready : ready w X c base;
}.

#[export] Instance good_proper w X : Proper ((≡) ==> eq ==> eq ==> iff) (good w X).
Proof.
  intros s s' [Ht Ho] ? c -> ? base ->. split; intros [Hv [H1 H2] Hx]; (split; [done| |done]); split; try congruence; intros o; by rewrite H2, Ho.
Qed.

(** [r] returns [a] and views that show [s]. *)
Definition returns {A : Type} (w : option CCoinsViewDB) (X : gset COutPoint) (s : ledger) (a : A) (r : result (A * CCoinsViewCache * CCoinsView)) : Prop :=
  ∃ c' base', r = Ok (a, c', base') ∧ good w X s c' base'.

Section step.
Context (full : list db_op → bool) (w : option CCoinsViewDB) (X : gset COutPoint) (s : ledger) (c : CCoinsViewCache) (base : CCoinsView).
Hypothesis Hg : good w X s c base.

Lemma good_filled o c' base' : o ∈ X → view_ok (ViewCache c' base') → same_coins (ViewCache c base) (ViewCache c' base') →
  grown o c c' → filled o base base' → good w X s c' base'.
Proof.
  intros Ho Hv Hs Hgr Hf. destruct Hg as [_ Hr Hx]. split; [done| |by apply (ready_filled w X c base o)].
  split; [rewrite (proj2 Hgr); apply Hr|]. intros o'. rewrite Hs. apply Hr.
Qed.

Lemma good_changed o c' base' k : o ∈ X → view_ok (ViewCache c' base') →
  (∀ o', utxo (ViewCache c' base') o' = if decide (o' = o) then k else utxo (ViewCache c base) o') →
  grown o c c' → filled o base base' → good w X (mkLedger (tip s) (put (unspent s) o k)) c' base'.
Proof.
  intros Ho Hv Hco Hgr Hf. destruct Hg as [_ Hr Hx]. split; [done| |by apply (ready_filled w X c base o)].
  split; [cbn; rewrite (proj2 Hgr); apply Hr|]. intros o'. rewrite Hco. cbn. unfold put. case_decide; [done|]. apply Hr.
Qed.

Lemma access_good o : o ∈ X → ∃ k, returns w X s k (AccessCoin c base o) ∧ (if IsSpent k then None else Some k) = unspent s o.
Proof.
  intros Ho. destruct (AccessCoin_ok c base o (gd_view _ _ _ _ _ Hg)) as (k & c' & b' & E & Hk & Hv & Hs & Hf & Hgr).
  exists k. split; [|rewrite Hk; apply Hg]. exists c', b'. split; [done|]. by apply (good_filled o).
Qed.

Lemma have_good o : o ∈ X → returns w X s (bool_decide (is_Some (unspent s o))) (HaveCoin c base o).
Proof.
  intros Ho. destruct (HaveCoin_ok c base o (gd_view _ _ _ _ _ Hg)) as (c' & b' & E & Hv & Hs & Hf & Hgr).
  exists c', b'. rewrite (rp_coins _ _ _ (gd_rep _ _ _ _ _ Hg)) in E. split; [done|]. by apply (good_filled o).
Qed.

Lemma uncache_good o : o ∈ X → good w X s (Uncache c o) base.
Proof.
  intros Ho. destruct (Uncache_ok c base o (gd_view _ _ _ _ _ Hg)) as (Hv & Hs & Hgr). apply (good_filled o); [done..|apply filled_refl].
Qed.

Lemma add_good o k po : IsSpent k = false → (IsUnspendable (scriptPubKey (out k)) = false → po = false → unspent s o = None) → o ∈ X →
  ∃ c', AddCoin c o k po = Ok c' ∧
    good w X (if IsUnspendable (scriptPubKey (out k)) then s else mkLedger (tip s) (put (unspent s) o (Some k))) c' base.
Proof.
  intros Hk Hpo Ho. destruct (IsUnspendable (scriptPubKey (out k))) eqn:Eu.
  - exists c. unfold AddCoin. rewrite Hk, Eu. cbn [negb]. by rewrite assert_true, bind_Ok by done.
  - destruct (AddCoin_ok c base o k po (gd_view _ _ _ _ _ Hg)) as (c' & E & Hv & Hgr & Hco);
      [by apply (ready_room w X c base); [apply Hg|lia]|done|done|rewrite (rp_coins _ _ _ (gd_rep _ _ _ _ _ Hg)); by apply Hpo|].
    exists c'. split; [done|]. apply (good_changed o); [done..|apply filled_refl].
Qed.

Lemma spend_good o : o ∈ X →
  ∃ ok moved c' b', SpendCoin c base o = Ok (ok, moved, c', b') ∧ good w X (mkLedger (tip s) (put (unspent s) o None)) c' b' ∧
    (moved ≫= λ k, if IsSpent k then None else Some k) = unspent s o ∧ ok = bool_decide (is_Some moved).
Proof.
  intros Ho. destruct (SpendCoin_ok c base o (gd_view _ _ _ _ _ Hg)) as (ok & moved & c' & b' & E & Hv & Hf & Hgr & Hco & Hm & Hok);
    [by apply (ready_room w X c base); [apply Hg|lia]|].
  exists ok, moved, c', b'. split; [done|]. split; [by apply (good_changed o)|]. split; [rewrite Hm; apply Hg|done].
Qed.

(** Spending a coin the ledger has moves that coin out. *)
Lemma spend_present o k : o ∈ X → unspent s o = Some k →
  ∃ c' b', SpendCoin c base o = Ok (true, Some k, c', b') ∧ good w X (mkLedger (tip s) (put (unspent s) o None)) c' b'.
Proof.
  intros Ho Hk. destruct (spend_good o Ho) as (ok & moved & c' & b' & E & Hg' & Hm & ->). exists c', b'. rewrite Hk in Hm.
  destruct moved as [k'|]; [|done]. cbn in Hm. destruct (IsSpent k'); [done|]. injection Hm as ->. by split.
Qed.

Lemma set_tip_good h : (w = None → h ≠ null_hash) → good w X (mkLedger h (unspent s)) (SetBestBlock c h) base.
Proof.
  intros Hh. destruct Hg as [[Hc Hb] [H1 H2] [H3 H4 H5 H6 H7]]. split; [split; [by apply cache_ok_hash|done]|by split|by split].
Qed.

Lemma flush_good : w = None → ∃ c' base', Flush full c base = Ok (c', base') ∧ good w X s c' base'.
Proof.
  intros Hw1. destruct Hg as [Hv Hr Hx]. pose proof Hx as Hx'. rewrite Hw1 in Hx'. pose proof (ready_accepts X c base Hx') as Ha. pose proof (ready_room w X c base 0 Hx ltac:(lia)) as H0.
  destruct (Flush_ok full c base Hv Ha H0) as (base' & E & Hv' & Hs & Hw). eexists _, base'. split; [done|]. split; [done| |].
  - split; [apply Hr|]. intros o. cbn [utxo cacheCoins]. rewrite lookup_empty, Hs. apply Hr.
  - apply (ready_written w X c base); [done|done|cbn; rewrite dom_empty_L; clear; set_solver|done|done].
Qed.

Lemma sync_good : w = None → ∃ c' base', Sync full c base = Ok (c', base') ∧ good w X s c' base'.
Proof.
  intros Hw1. destruct Hg as [Hv Hr Hx]. pose proof Hx as Hx'. rewrite Hw1 in Hx'. pose proof (ready_accepts X c base Hx') as Ha. pose proof (ready_room w X c base 0 Hx ltac:(lia)) as H0.
  destruct (Sync_ok full c base Hv Ha H0) as (c' & base' & E & Hv' & _ & Hs & _ & Hw & Hd & Hh). exists c', base'. split; [done|].
  split; [done| |by apply (ready_written w X c base)]. split; [rewrite Hh; apply Hr|]. intros o. rewrite Hs. apply Hr.
Qed.

Lemma perform_good op : w = None → permitted op s → outpoint_of op ⊆ X → returns w X (spec_step op s).2 (spec_step op s).1 (perform full op c base).
Proof.
  intros Hw1 Hp Ho. assert (∀ o, {[o]} ⊆ X → o ∈ X) as Hin by (clear; set_solver).
  destruct op as [o|o| |o k po|o|h|o| |]; cbn [perform spec_step fst snd outpoint_of] in *.
  - destruct (access_good o (Hin o Ho)) as (k & (c' & b' & -> & Hg') & <-). rewrite bind_Ok. by exists c', b'.
  - destruct (have_good o (Hin o Ho)) as (c' & b' & -> & Hg'). rewrite bind_Ok. by exists c', b'.
  - cbn [GetBestBlock]. rewrite bool_decide_false by by apply Hg. cbn. exists c, base. by rewrite (rp_tip _ _ _ (gd_rep _ _ _ _ _ Hg)).
  - destruct (add_good o k po (proj1 Hp) (λ _, proj2 Hp) (Hin o Ho)) as (c' & -> & Hg'). rewrite bind_Ok. by exists c', base.
  - destruct (spend_good o (Hin o Ho)) as (ok & moved & c' & b' & -> & Hg' & <- & _). rewrite bind_Ok. by exists c', b'.
  - exists (SetBestBlock c h), base. split; [done|]. apply set_tip_good. by intros _.
  - exists (Uncache c o), base. split; [done|]. apply uncache_good, Hin, Ho.
  - destruct (flush_good Hw1) as (c' & b' & -> & Hg'). rewrite bind_Ok. by exists c', b'.
  - destruct (sync_good Hw1) as (c' & b' & -> & Hg'). rewrite bind_Ok. by exists c', b'.
Qed.

End step.

(** *** Sequences of operations *)
Definition outpoints_of (ops : list operation) : gset COutPoint := ⋃ (outpoint_of <$> ops).

Lemma perform_all_good full X ops : ∀ c base s,
  good None X s c base → outpoints_of ops ⊆ X → all_permitted ops s → returns None X (spec_run ops s).2 (spec_run ops s).1 (perform_all full ops c base).
Proof.
  induction ops as [|op ops IH]; intros c base s Hg Ho Hp; [by exists c, base|].
  unfold outpoints_of in Ho. cbn in Ho. apply union_subseteq in Ho as [Ho1 Ho2]. destruct Hp as [Hp1 Hp2]. cbn [perform_all spec_run].
  destruct (perform_good full None X s c base Hg op eq_refl Hp1 Ho1) as (c1 & b1 & -> & Hg1). rewrite bind_Ok.
  rewrite (SanityCheck_ok c1 _ (proj1 (gd_view _ _ _ _ _ Hg1))), bind_Ok.
  destruct (IH c1 b1 _ Hg1 Ho2 Hp2) as (c' & b' & -> & H'). rewrite bind_Ok. exists c', b'.
  destruct (spec_step op s) as [a s1]. cbn [fst snd] in *. by destruct (spec_run ops s1).
Qed.

(** ** Properties *)


(** Writing a cache to the coin database ends with the new tip and
    exactly the coins the cache showed. Every earlier state a crash can leave
    has no best block, the new and the old tip as its heads, and for each
    outpoint either the old or the new coin. *)
Theorem coins_db_write_crash_safe full db c will_erase hash :
  view_ok (ViewCache c (ViewDB db)) → db_writable db hash →
  ∃ db' states child old_tip, db_BatchWrite full db c will_erase hash = Ok (db', states ++ [db'], child) ∧
    db_old_tip db hash = Ok old_tip ∧ db_GetBestBlock db' = hash ∧ db_GetHeadBlocks db' = [] ∧
    (∀ o, db_GetCoin db' o = PeekCoin (ViewCache c (ViewDB db)) o) ∧
    ∀ mid, mid ∈ states → db_GetBestBlock mid = null_hash ∧ db_GetHeadBlocks mid = [hash; old_tip] ∧
      ∀ o, db_GetCoin mid o = db_GetCoin db o ∨ db_GetCoin mid o = PeekCoin (ViewCache c (ViewDB db)) o.
Proof.
  intros Hv Hw. destruct (db_BatchWrite_ok full db c will_erase hash Hv Hw) as (db' & states & old_tip & E & Eo & Hb & Hh & Hco & Hmid).
  exists db', states, (passed will_erase (m_flagged c) c), old_tip. split; [done|]. split; [done|]. unfold db_GetBestBlock, db_GetHeadBlocks.
  rewrite Hb, Hh. split; [done|]. split; [done|].
  assert (∀ d o, db_coins d !! o = utxo (ViewCache c (ViewDB db)) o → db_GetCoin d o = PeekCoin (ViewCache c (ViewDB db)) o) as Hget.
  { intros d o Ed. rewrite (PeekCoin_ok _ o Hv). unfold db_GetCoin. rewrite Ed. destruct (utxo _ o) as [k|] eqn:Eu; [|done].
    by rewrite (utxo_unspent _ o k Hv Eu). }
  split; [intros o; apply Hget, Hco|]. intros mid Hm. rewrite list.Forall_forall in Hmid. destruct (Hmid mid Hm) as (-> & -> & Hc).
  split; [done|]. split; [done|]. intros o. destruct (Hc o) as [Ho|Ho]; [left; unfold db_GetCoin; by rewrite Ho|right; by apply Hget].
Qed.

(** ** A small coin database *)
Definition toy_coin (v : Z) : Coin := mkCoin (mkTxOut v [118; 169]) false 7.
Definition toy_out (k : Z) : COutPoint := (replicate 32 k, 0).
Definition toy_coins_db : CCoinsViewDB := mkDB {[toy_out 1 := toy_coin 50]} (Some (replicate 32 9)) None.
Definition toy_cache : CCoinsViewCache := mkCache (replicate 32 8) [] ∅ 0.

Lemma toy_db_ok : view_ok (ViewDB toy_coins_db).
Proof. intros o k Hk. cbn [toy_coins_db db_coins] in Hk. apply lookup_singleton_Some in Hk as [_ <-]. reflexivity. Qed.

(** A block that spends a coin of the database and creates two, flushed. *)
Definition toy_ops : list operation :=
  [OpGet (toy_out 1); OpSpend (toy_out 1); OpAdd (toy_out 2) (toy_coin 20) false; OpAdd (toy_out 3) (toy_coin 30) false;
   OpSpend (toy_out 3); OpSetTip (replicate 32 10); OpSync; OpHave (toy_out 2); OpSpend (toy_out 2); OpFlush; OpHave (toy_out 2); OpTip].


Definition toy_new : CCoinsCacheEntry := mkEntry (toy_coin 20) true true.
Definition toy_dirty : CCoinsViewCache := mkCache (replicate 32 8) [toy_out 2] (<[toy_out 2 := toy_new]> ∅) 1.

Lemma toy_dirty_ok : view_ok (ViewCache toy_dirty (ViewDB toy_coins_db)).
Proof.
  split; [|apply toy_db_ok]. apply (cache_ok_put toy_cache _ (toy_out 2) toy_new); [apply empty_cache_ok| |reflexivity].
  split; [intros _; split; [vm_compute; reflexivity|done]|done].
Qed.

Lemma coins_db_write_crash_safe_witness :
  ∃ db' mid child, db_BatchWrite (λ _, true) toy_coins_db toy_dirty true (replicate 32 8) = Ok (db', [mid; db'], child) ∧
    db_GetBestBlock db' = replicate 32 8 ∧ db_GetHeadBlocks mid = [replicate 32 8; replicate 32 9].
Proof.
  destruct (coins_db_write_crash_safe (λ _, true) toy_coins_db toy_dirty true (replicate 32 8)) as (db' & states & child & tip & E & Eo & Hb & _ & _ & Hm).
  - apply toy_dirty_ok.
  - split; [vm_compute; discriminate|]. intros H. exfalso. vm_compute in H. discriminate H.
  - assert (∃ mid, states = [mid]) as [mid ->].
    { assert (match db_BatchWrite (λ _, true) toy_coins_db toy_dirty true (replicate 32 8) with Ok (_, l, _) => length l | Err _ => 0%nat end = 2%nat) as Hl
        by (vm_compute; reflexivity).
      rewrite E, length_app in Hl. destruct states as [|mid [|]]; cbn in Hl; [lia|eauto|lia]. }
    exists db', mid, child. split; [exact E|]. split; [exact Hb|]. destruct (Hm mid ltac:(by left)) as (_ & -> & _).
    assert (db_old_tip toy_coins_db (replicate 32 8) = Ok (replicate 32 9)) as Et by (vm_compute; reflexivity). congruence.
Defined.
