(* ===== verification/BlockUndo.v ===== *)
(** Blocks on the coin set.

    How a block changes the coins: [AddCoins], [AccessByTxid] and [HaveInputs] of
    [coins.cpp], [UpdateCoins], the transaction loop of [ConnectBlock],
    [ApplyTxInUndo], the coin part of [DisconnectBlock] and of
    [RollforwardBlock] of [validation.cpp]. The shielded state of a block is
    not modelled: [DisconnectBlock] is the function with
    [apply_shielded_state] false.

    Every one of them is a sequence of writes to the map of unspent coins; the
    lemmas below give that sequence. *)

From Stdlib Require Import ZArith Lia String.
From stdpp Require Import base list numbers gmap tactics.
From S2P Require Import Prelude Coins CoinsRun.
Import coins.

Open Scope Z_scope.

(** A transaction: its identifier, the outpoints it spends, its outputs. *)
Record CTransaction := mkTx { tx_hash : list Z; vin : list COutPoint; vout : list CTxOut }.

Inductive DisconnectResult := DISCONNECT_OK | DISCONNECT_UNCLEAN | DISCONNECT_FAILED.

#[export] Instance DisconnectResult_eq_dec : EqDecision DisconnectResult.
Proof. solve_decision. Defined.

Module block_undo.

Definition NULL_INDEX : Z := 0xffffffff.

Definition outpoint_IsNull (o : COutPoint) : bool := bool_decide (o.1 = null_hash) && (o.2 =? NULL_INDEX).

Definition IsCoinBase (tx : CTransaction) : bool :=
  match vin tx with [prevout] => outpoint_IsNull prevout | _ => false end.

(** The outputs with their outpoints, as the loops over [vout] form them. *)
Definition outputs (tx : CTransaction) : list (COutPoint * CTxOut) :=
  imap (λ i o, ((tx_hash tx, u32 (Z.of_nat i)), o)) (vout tx).

(** [Coin] keeps the height in a bit field of 31 bits. *)
Definition make_coin (o : CTxOut) (nHeightIn : Z) (fCoinBaseIn : bool) : Coin := mkCoin o fCoinBaseIn (Z.land nHeightIn 0x7fffffff).

(** ** Adding and finding coins *)
Definition AddCoins (c : CCoinsViewCache) (base : CCoinsView) (tx : CTransaction) (nHeight : Z) (check_for_overwrite : bool) :
    result (unit * CCoinsViewCache * CCoinsView) :=
  let fCoinbase := IsCoinBase tx in
  mfold (λ '(o, txout) '(_, c, base),
    '(overwrite, c, base) ← (if check_for_overwrite then HaveCoin c base o else Ok (fCoinbase, c, base));
    c ← AddCoin c o (make_coin txout nHeight fCoinbase) overwrite;
    Ok (tt, c, base)) (outputs tx) (tt, c, base).

Definition MAX_BLOCK_WEIGHT : Z := 24000000.
Definition WITNESS_SCALE_FACTOR : Z := 1.

(** An empty output serializes to an amount and an empty script. *)
Definition MIN_TRANSACTION_OUTPUT_WEIGHT : Z := WITNESS_SCALE_FACTOR * (8 + 1).
Definition MAX_OUTPUTS_PER_BLOCK : Z := MAX_BLOCK_WEIGHT / MIN_TRANSACTION_OUTPUT_WEIGHT.

Fixpoint access_loop (fuel : nat) (n : Z) (c : CCoinsViewCache) (base : CCoinsView) (txid : list Z) :
    result (Coin * CCoinsViewCache * CCoinsView) :=
  match fuel with
  | O => Ok (coinEmpty, c, base)
  | S fuel =>
      '(alternate, c, base) ← AccessCoin c base (txid, n);
      if negb (IsSpent alternate) then Ok (alternate, c, base) else access_loop fuel (u32 (n + 1)) c base txid
  end.

Definition AccessByTxid (c : CCoinsViewCache) (base : CCoinsView) (txid : list Z) : result (Coin * CCoinsViewCache * CCoinsView) :=
  access_loop (Z.to_nat MAX_OUTPUTS_PER_BLOCK) 0 c base txid.

Fixpoint have_all (prevouts : list COutPoint) (c : CCoinsViewCache) (base : CCoinsView) : result (bool * CCoinsViewCache * CCoinsView) :=
  match prevouts with
  | [] => Ok (true, c, base)
  | o :: prevouts =>
      '(found, c, base) ← HaveCoin c base o;
      if (found : bool) then have_all prevouts c base else Ok (false, c, base)
  end.

Definition HaveInputs (c : CCoinsViewCache) (base : CCoinsView) (tx : CTransaction) : result (bool * CCoinsViewCache * CCoinsView) :=
  if IsCoinBase tx then Ok (true, c, base) else have_all (vin tx) c base.

(** ** Connecting *)

(** Spends the inputs; the coins moved out are the undo data. *)
Definition UpdateCoins (tx : CTransaction) (c : CCoinsViewCache) (base : CCoinsView) (nHeight : Z) :
    result (list Coin * CCoinsViewCache * CCoinsView) :=
  '(vprevout, c, base) ←
    (if IsCoinBase tx then Ok ([], c, base)
     else mfold (λ o '(vprevout, c, base),
            '(is_spent, moved, c, base) ← SpendCoin c base o;
            _ ← assert_ is_spent;
            Ok (vprevout ++ [default coinEmpty moved], c, base)) (vin tx) ([], c, base));
  '(_, c, base) ← AddCoins c base tx nHeight false;
  Ok (vprevout, c, base).

(** The loop of [ConnectBlock]; the first transaction leaves no undo data. *)
Definition connect_txs (vtx : list CTransaction) (c : CCoinsViewCache) (base : CCoinsView) (nHeight : Z) :
    result (list (list Coin) * CCoinsViewCache * CCoinsView) :=
  mfold (λ '(i, tx) '(vtxundo, c, base),
    '(txundo, c, base) ← UpdateCoins tx c base nHeight;
    Ok (if (0 <? i)%nat then vtxundo ++ [txundo] else vtxundo, c, base)) (imap pair vtx) ([], c, base).

(** ** Disconnecting *)
Definition ApplyTxInUndo (undo : Coin) (c : CCoinsViewCache) (base : CCoinsView) (o : COutPoint) :
    result (DisconnectResult * CCoinsViewCache * CCoinsView) :=
  '(found, c, base) ← HaveCoin c base o;
  let fClean := negb found in
  '(undo, c, base) ←
    (if coin_nHeight undo =? 0 then
       '(alternate, c, base) ← AccessByTxid c base o.1;
       Ok (if negb (IsSpent alternate) then Some (mkCoin (out undo) (fCoinBase alternate) (coin_nHeight alternate)) else None, c, base)
     else Ok (Some undo, c, base));
  match undo with
  | None => Ok (DISCONNECT_FAILED, c, base)
  | Some undo =>
      c ← AddCoin c o undo (negb fClean);
      Ok (if fClean then DISCONNECT_OK else DISCONNECT_UNCLEAN, c, base)
  end.

Definition disconnect_outputs (tx : CTransaction) (nHeight : Z) (is_bip30_exception : bool)
    (fClean : bool) (c : CCoinsViewCache) (base : CCoinsView) : result (bool * CCoinsViewCache * CCoinsView) :=
  let is_coinbase := IsCoinBase tx in
  mfold (λ '(o, txout) '(fClean, c, base),
    if IsUnspendable (scriptPubKey txout) then Ok (fClean, c, base)
    else
      '(is_spent, moved, c, base) ← SpendCoin c base o;
      let coin := default coinEmpty moved in
      let mismatch := negb is_spent || negb (bool_decide (txout = out coin)) || negb (nHeight =? coin_nHeight coin)
                        || negb (Bool.eqb is_coinbase (fCoinBase coin)) in
      Ok (if mismatch && negb is_bip30_exception then false else fClean, c, base)) (outputs tx) (fClean, c, base).

(** The loop over the inputs from the last; [None] is a failure. *)
Fixpoint restore_inputs (j : nat) (tx : CTransaction) (vprevout : list Coin) (fClean : bool) (c : CCoinsViewCache) (base : CCoinsView) :
    result (option bool * CCoinsViewCache * CCoinsView) :=
  match j with
  | O => Ok (Some fClean, c, base)
  | S j =>
      o ← vget (vin tx) (Z.of_nat j);
      undo ← vget vprevout (Z.of_nat j);
      '(res, c, base) ← ApplyTxInUndo undo c base o;
      if bool_decide (res = DISCONNECT_FAILED) then Ok (None, c, base)
      else restore_inputs j tx vprevout (fClean && negb (bool_decide (res = DISCONNECT_UNCLEAN))) c base
  end.

Fixpoint disconnect_txs (tx_pos : nat) (vtx : list CTransaction) (vtxundo : list (list Coin)) (nHeight : Z) (fEnforceBIP30 : bool)
    (fClean : bool) (c : CCoinsViewCache) (base : CCoinsView) : result (option bool * CCoinsViewCache * CCoinsView) :=
  match tx_pos with
  | O => Ok (Some fClean, c, base)
  | S tx_index =>
      tx ← vget vtx (Z.of_nat tx_index);
      '(fClean, c, base) ← disconnect_outputs tx nHeight (IsCoinBase tx && negb fEnforceBIP30) fClean c base;
      '(fClean, c, base) ←
        (if (0 <? tx_index)%nat then
           txundo ← vget vtxundo (Z.of_nat tx_index - 1);
           if negb (zlen txundo =? zlen (vin tx)) then Ok (None, c, base)
           else restore_inputs (length (vin tx)) tx txundo fClean c base
         else Ok (Some fClean, c, base));
      match fClean with
      | None => Ok (None, c, base)
      | Some fClean => disconnect_txs tx_index vtx vtxundo nHeight fEnforceBIP30 fClean c base
      end
  end.

(** The two blocks whose coinbase a later one duplicates. *)
Definition bip30_hash_91722 : list Z := le_bytes 32 0x00000000000271a2dc26e7667f8419f2e15416dc6955e5a6c6cdf3f2574dd08e.
Definition bip30_hash_91812 : list Z := le_bytes 32 0x00000000000af0aed4792b1acee3d966af36cf5def14935db8de83d6f9306f2f.

Definition enforce_bip30 (nHeight : Z) (hash : list Z) : bool :=
  negb ((nHeight =? 91722) && bool_decide (hash = bip30_hash_91722) || (nHeight =? 91812) && bool_decide (hash = bip30_hash_91812)).

(** [undo] is what reading the undo file gave. *)
Definition DisconnectBlock (undo : option (list (list Coin))) (vtx : list CTransaction) (nHeight : Z) (hash prev_hash : list Z)
    (c : CCoinsViewCache) (base : CCoinsView) : result (DisconnectResult * CCoinsViewCache * CCoinsView) :=
  match undo with
  | None => Ok (DISCONNECT_FAILED, c, base)
  | Some vtxundo =>
      if negb (u64 (zlen vtxundo + 1) =? zlen vtx) then Ok (DISCONNECT_FAILED, c, base)
      else
        '(fClean, c, base) ← disconnect_txs (length vtx) vtx vtxundo nHeight (enforce_bip30 nHeight hash) true c base;
        match fClean with
        | None => Ok (DISCONNECT_FAILED, c, base)
        | Some fClean => Ok (if (fClean : bool) then DISCONNECT_OK else DISCONNECT_UNCLEAN, SetBestBlock c prev_hash, base)
        end
  end.

(** ** Rolling forward *)
Definition rollforward_tx (nHeight : Z) (tx : CTransaction) (c : CCoinsViewCache) (base : CCoinsView) :
    result (unit * CCoinsViewCache * CCoinsView) :=
  '(_, c, base) ←
    (if IsCoinBase tx then Ok (tt, c, base)
     else mfold (λ o '(_, c, base), '(_, _, c, base) ← SpendCoin c base o; Ok (tt, c, base)) (vin tx) (tt, c, base));
  AddCoins c base tx nHeight true.

Definition rollforward_coins (vtx : list CTransaction) (nHeight : Z) (c : CCoinsViewCache) (base : CCoinsView) :
    result (unit * CCoinsViewCache * CCoinsView) :=
  mfold (λ tx '(_, c, base), rollforward_tx nHeight tx c base) vtx (tt, c, base).

End block_undo.
Import block_undo.

(** ** Writes to the coin map *)
Abbreviation coin_write := (COutPoint * option Coin)%type.

Definition write1 (s : ledger) (w : coin_write) : ledger := mkLedger (tip s) (put (unspent s) w.1 w.2).
Definition apply_writes (s : ledger) (ws : list coin_write) : ledger := foldl write1 s ws.

Lemma apply_writes_app s ws ws' : apply_writes s (ws ++ ws') = apply_writes (apply_writes s ws) ws'.
Proof. apply foldl_app. Qed.

Lemma apply_tip s ws : tip (apply_writes s ws) = tip s.
Proof. revert s. induction ws as [|w ws IH]; intros s; [done|]. cbn. by rewrite IH. Qed.

(** The last write to an outpoint counts. *)
Lemma apply_lookup s ws o : unspent (apply_writes s ws) o = default (unspent s o) ((list_to_map (reverse ws) : gmap COutPoint (option Coin)) !! o).
Proof.
  induction ws as [|w ws IH] using rev_ind; [done|]. rewrite apply_writes_app, reverse_app. cbn. unfold put. destruct w as [o' k]. cbn.
  case_decide as Hd; [subst; by rewrite lookup_insert_eq|]. by rewrite lookup_insert_ne by done.
Qed.

Lemma apply_other s ws o : o ∉ ws.*1 → unspent (apply_writes s ws) o = unspent s o.
Proof.
  intros Ho. rewrite apply_lookup. rewrite (not_elem_of_list_to_map_1 (reverse ws)); [done|]. by rewrite fmap_reverse, elem_of_reverse.
Qed.

(** Writes erase the difference between two ledgers. *)
Lemma apply_agree s s' ws o : o ∈ ws.*1 ∨ unspent s o = unspent s' o → unspent (apply_writes s ws) o = unspent (apply_writes s' ws) o.
Proof.
  intros Ho. rewrite !apply_lookup. destruct (_ !! o) as [k|] eqn:E; [done|]. cbn. destruct Ho as [Ho|Ho]; [|done].
  apply not_elem_of_list_to_map_2 in E. rewrite fmap_reverse, elem_of_reverse in E. contradiction.
Qed.

#[export] Instance apply_writes_proper : Proper ((≡) ==> eq ==> (≡)) apply_writes.
Proof. intros s s' [Ht Ho] ? ws ->. split; [by rewrite !apply_tip|]. intros o. apply apply_agree. right. apply Ho. Qed.

(** Without a repeated outpoint every write counts. *)
Lemma apply_in s ws o k : NoDup ws.*1 → (o, k) ∈ ws → unspent (apply_writes s ws) o = k.
Proof.
  intros Hn Hin. rewrite apply_lookup. rewrite (elem_of_list_to_map_1 (reverse ws) o k); [done| |by apply elem_of_reverse].
  rewrite fmap_reverse. by rewrite reverse_Permutation.
Qed.

Definition spends (os : list COutPoint) : list coin_write := (λ o, (o, None)) <$> os.
Definition adds (l : list (COutPoint * Coin)) : list coin_write := (λ p, (p.1, Some p.2)) <$> l.

Lemma spends_keys os : (spends os).*1 = os.
Proof. unfold spends. rewrite <- list_fmap_compose. apply list_fmap_id. Qed.

Lemma adds_keys l : (adds l).*1 = l.*1.
Proof. unfold adds. by rewrite <- list_fmap_compose. Qed.

Lemma apply_spends s os o : unspent (apply_writes s (spends os)) o = if decide (o ∈ os) then None else unspent s o.
Proof.
  case_decide as Hd; [|apply apply_other; by rewrite spends_keys]. revert s. induction os as [|a os IH]; intros s; [by apply not_elem_of_nil in Hd|].
  cbn. destruct (decide (o ∈ os)) as [Hi|Hi]; [by apply IH|]. apply elem_of_cons in Hd as [->|]; [|done].
  fold (apply_writes (write1 s (a, None)) (spends os)). rewrite apply_other by (by rewrite spends_keys). cbn. unfold put. by rewrite decide_True.
Qed.

(** ** What a block writes *)
Definition spendable (p : COutPoint * CTxOut) : Prop := IsUnspendable (scriptPubKey p.2) = false.

Definition created_of (h : Z) (cb : bool) (l : list (COutPoint * CTxOut)) : list (COutPoint * Coin) :=
  (λ p, (p.1, make_coin p.2 h cb)) <$> filter spendable l.

Definition created (h : Z) (tx : CTransaction) : list (COutPoint * Coin) := created_of h (IsCoinBase tx) (outputs tx).

Definition tx_writes (h : Z) (tx : CTransaction) : list coin_write :=
  (if IsCoinBase tx then [] else spends (vin tx)) ++ adds (created h tx).

Definition block_writes (h : Z) (vtx : list CTransaction) : list coin_write := concat (tx_writes h <$> vtx).

Definition undo_writes (h : Z) (first : bool) (tx : CTransaction) (undo : list Coin) : list coin_write :=
  spends (created h tx).*1 ++ (if first then [] else reverse (adds (zip (vin tx) undo))).

Fixpoint block_undo_writes (h : Z) (n : nat) (vtx : list CTransaction) (vtxundo : list (list Coin)) : list coin_write :=
  match n with
  | O => []
  | S i =>
      match vtx !! i with
      | Some tx => undo_writes h (bool_decide (i = 0%nat)) tx (default [] (vtxundo !! (i - 1)%nat)) ++ block_undo_writes h i vtx vtxundo
      | None => []
      end
  end.

(** The outpoints a transaction names. *)
Definition tx_outpoints (tx : CTransaction) : gset COutPoint := list_to_set (vin tx ++ (outputs tx).*1).

Definition block_outpoints (vtx : list CTransaction) : gset COutPoint := ⋃ (tx_outpoints <$> vtx).

Definition outs_ok (tx : CTransaction) : Prop := Forall (λ o, nValue o ≠ -1) (vout tx) ∧ zlen (vout tx) ≤ 2 ^ 32.

Lemma block_outpoints_in vtx tx : tx ∈ vtx → tx_outpoints tx ⊆ block_outpoints vtx.
Proof.
  intros Hin. unfold block_outpoints. apply list_elem_of_split in Hin as (l1 & l2 & ->). rewrite fmap_app, union_list_app. cbn. set_solver.
Qed.

Lemma outputs_NoDup tx : outs_ok tx → NoDup (outputs tx).*1.
Proof.
  intros [_ Hl]. unfold outputs. rewrite fmap_imap. apply NoDup_alt. intros i j o Hi Hj. rewrite list_lookup_imap in Hi, Hj.
  destruct (vout tx !! i) eqn:Ei; [|done]. destruct (vout tx !! j) eqn:Ej; [|done]. cbn in Hi, Hj.
  apply lookup_lt_Some in Ei, Ej. unfold zlen in Hl. rewrite <- Hj in Hi. injection Hi as Hi. rewrite !u32_small in Hi by lia. lia.
Qed.

Lemma created_keys h cb l : (created_of h cb l).*1 = (filter spendable l).*1.
Proof. unfold created_of. by rewrite <- list_fmap_compose. Qed.

Lemma created_NoDup h tx : outs_ok tx → NoDup (created h tx).*1.
Proof.
  intros Ho. unfold created. rewrite created_keys. apply (sublist_NoDup _ (outputs tx).*1); [by apply outputs_NoDup|].
  apply fmap_sublist, sublist_filter.
Qed.

Lemma created_sub h tx o : o ∈ (created h tx).*1 → o ∈ (outputs tx).*1.
Proof. unfold created. rewrite created_keys. rewrite !list_elem_of_fmap. intros (p & -> & [_ Hp]%list_elem_of_filter). eauto. Qed.

(** ** The operations as writes *)

(** A coin that can be put back: unspent, spendable, with its height. *)
Definition restorable (k : Coin) : Prop :=
  IsSpent k = false ∧ IsUnspendable (scriptPubKey (out k)) = false ∧ coin_nHeight k ≠ 0.

Lemma make_coin_unspent o h cb : nValue o ≠ -1 → IsSpent (make_coin o h cb) = false.
Proof. intros H. by apply Z.eqb_neq. Qed.

Section operations.
Context (w : option CCoinsViewDB) (X : gset COutPoint).

Lemma add_list_good l h cb check s c base :
  good w X s c base → (∀ p, p ∈ l → p.1 ∈ X ∧ nValue p.2 ≠ -1) →
  (check = false → cb = false → NoDup l.*1 ∧ ∀ p, p ∈ l → spendable p → unspent s p.1 = None) →
  returns w X (apply_writes s (adds (created_of h cb l))) tt
    (mfold (λ '(o, txout) '(_, c, base),
       '(overwrite, c, base) ← (if check then HaveCoin c base o else Ok (cb, c, base));
       c ← AddCoin c o (make_coin txout h cb) overwrite; Ok (tt, c, base)) l (tt, c, base)).
Proof.
  revert s c base. induction l as [|[o txout] l IH]; intros s c base Hg Hin Hnew; [by exists c, base|]. cbn [mfold].
  destruct (Hin (o, txout) ltac:(by left)) as [Ho Hval]. cbn [fst snd] in Ho, Hval.
  assert (∃ po c1 b1, (if check then HaveCoin c base o else Ok (cb, c, base)) = Ok (po, c1, b1) ∧ good w X s c1 b1 ∧
    (spendable (o, txout) → po = false → unspent s o = None)) as (po & c1 & b1 & -> & Hg1 & Hpo).
  { destruct check.
    - destruct (have_good w X s c base Hg o Ho) as (c1 & b1 & -> & Hg1). eexists _, c1, b1. split; [done|]. split; [done|].
      intros _. case_bool_decide as Hs; [done|]. intros _. by apply eq_None_not_Some.
    - exists cb, c, base. split; [done|]. split; [done|]. intros Hsp ->. destruct (Hnew eq_refl eq_refl) as [_ Hn].
      by apply (Hn (o, txout)); [left|]. }
  rewrite bind_Ok. destruct (add_good w X s c1 b1 Hg1 o (make_coin txout h cb) po (make_coin_unspent _ _ _ Hval) Hpo Ho) as (c2 & -> & Hg2).
  rewrite bind_Ok, bind_Ok. cbn [out make_coin] in Hg2. unfold created_of.
  assert (∀ s', (cb = false → check = false → ∀ p, p ∈ l → unspent s' p.1 = unspent s p.1) → good w X s' c2 b1 →
    returns w X (apply_writes s' (adds (created_of h cb l))) tt
      (mfold (λ '(o, txout) '(_, c, base), '(overwrite, c, base) ← (if check then HaveCoin c base o else Ok (cb, c, base));
         c ← AddCoin c o (make_coin txout h cb) overwrite; Ok (tt, c, base)) l (tt, c2, b1))) as Hrest.
  { intros s' Hs' Hg'. apply IH; [done|intros p Hp; apply Hin; by right|]. intros Hch Hcb. destruct (Hnew Hch Hcb) as [Hnd Hn].
    cbn in Hnd. apply list.NoDup_cons in Hnd as [_ Hnd]. split; [done|]. intros p Hp Hsp. rewrite (Hs' Hcb Hch p Hp). apply Hn; [by right|done]. }
  destruct (IsUnspendable (scriptPubKey txout)) eqn:Eu.
  - rewrite filter_cons_False by (unfold spendable; cbn; congruence). by apply Hrest.
  - rewrite filter_cons_True by done. cbn. apply Hrest; [|done]. intros Hcb Hch p Hp. cbn. unfold put. rewrite decide_False; [done|].
    destruct (Hnew Hch Hcb) as [Hnd _]. cbn in Hnd. apply list.NoDup_cons in Hnd as [Hni _]. intros Heq. apply Hni. rewrite <- Heq.
    by apply list_elem_of_fmap_2.
Qed.

Lemma outputs_values tx p : outs_ok tx → p ∈ outputs tx → nValue p.2 ≠ -1.
Proof.
  intros [Hv _] Hp. unfold outputs in Hp. apply elem_of_lookup_imap in Hp as (i & txout & -> & Hi). rewrite list.Forall_forall in Hv.
  apply Hv. by apply list_elem_of_lookup_2 in Hi.
Qed.

Lemma tx_outpoints_out tx p : tx_outpoints tx ⊆ X → p ∈ outputs tx → p.1 ∈ X.
Proof.
  intros HX Hp. apply HX. unfold tx_outpoints. apply elem_of_list_to_set, elem_of_app. right. by apply list_elem_of_fmap_2.
Qed.

Lemma tx_outpoints_in tx o : tx_outpoints tx ⊆ X → o ∈ vin tx → o ∈ X.
Proof. intros HX Ho. apply HX. unfold tx_outpoints. apply elem_of_list_to_set, elem_of_app. by left. Qed.

(** No output of [tx] is in the coin set yet. *)
Definition new_outputs (s : ledger) (tx : CTransaction) : Prop := ∀ p, p ∈ outputs tx → spendable p → unspent s p.1 = None.

Lemma AddCoins_good tx h check s c base :
  good w X s c base → outs_ok tx → tx_outpoints tx ⊆ X → (check = false → IsCoinBase tx = false → new_outputs s tx) →
  returns w X (apply_writes s (adds (created h tx))) tt (AddCoins c base tx h check).
Proof.
  intros Hg Ho HX Hnew. apply add_list_good; [done| |].
  - intros p Hp. split; [by apply (tx_outpoints_out tx)|by apply (outputs_values tx)].
  - intros Hch Hcb. split; [by apply outputs_NoDup|by apply Hnew].
Qed.

Definition undo_of (s : ledger) (os : list COutPoint) : list Coin := (λ o, default coinEmpty (unspent s o)) <$> os.

Lemma spend_list_good os s c base acc :
  good w X s c base → (∀ o, o ∈ os → o ∈ X ∧ is_Some (unspent s o)) → NoDup os →
  returns w X (apply_writes s (spends os)) (acc ++ undo_of s os)
    (mfold (λ o '(vprevout, c, base),
       '(is_spent, moved, c, base) ← SpendCoin c base o;
       _ ← assert_ is_spent; Ok (vprevout ++ [default coinEmpty moved], c, base)) os (acc, c, base)).
Proof.
  revert s c base acc. induction os as [|o os IH]; intros s c base acc Hg Hin Hnd; [exists c, base; by rewrite app_nil_r|]. cbn [mfold].
  apply list.NoDup_cons in Hnd as [Hno Hnd]. destruct (Hin o ltac:(by left)) as [Ho [k Hk]].
  destruct (spend_present w X s c base Hg o k Ho Hk) as (c1 & b1 & -> & Hg1). rewrite bind_Ok, assert_true, bind_Ok, bind_Ok by done.
  assert (∀ o', o' ∈ os → unspent (write1 s (o, None)) o' = unspent s o') as Hsame.
  { intros o' Ho'. cbn. unfold put. rewrite decide_False; [done|]. by intros ->. }
  destruct (IH (write1 s (o, None)) c1 b1 (acc ++ [k]) Hg1) as (c' & b' & E & Hg').
  - intros o' Ho'. rewrite Hsame by done. apply Hin. by right.
  - done.
  - exists c', b'. cbn in E |- *. rewrite E. split; [|done]. rewrite <- app_assoc, Hk. cbn. do 5 f_equal.
    apply list_fmap_ext. intros i o' Hi. by rewrite Hsame by (by apply list_elem_of_lookup_2 in Hi).
Qed.

Lemma respend_list_good os s c base :
  good w X s c base → (∀ o, o ∈ os → o ∈ X) →
  returns w X (apply_writes s (spends os)) tt
    (mfold (λ o '(_, c, base), '(_, _, c, base) ← SpendCoin c base o; Ok (tt, c, base)) os (tt, c, base)).
Proof.
  revert s c base. induction os as [|o os IH]; intros s c base Hg Hin; [by exists c, base|]. cbn [mfold].
  destruct (spend_good w X s c base Hg o ltac:(apply Hin; by left)) as (ok & moved & c1 & b1 & -> & Hg1 & _). rewrite bind_Ok, bind_Ok.
  apply (IH (write1 s (o, None)) c1 b1 Hg1). intros o' Ho'. apply Hin. by right.
Qed.

(** What the checks before [UpdateCoins] establish: the inputs are distinct
    coins of the set, the outputs are new. *)
Definition tx_ok (s : ledger) (first : bool) (tx : CTransaction) : Prop :=
  IsCoinBase tx = first ∧ outs_ok tx ∧ new_outputs s tx ∧
  (first = false → NoDup (vin tx) ∧ ∀ o, o ∈ vin tx → is_Some (unspent s o)).

Lemma spends_new os s tx : new_outputs s tx → new_outputs (apply_writes s (spends os)) tx.
Proof. intros Hn p Hp Hs. rewrite apply_spends. case_decide; [done|]. by apply Hn. Qed.

Lemma UpdateCoins_good tx h first s c base :
  good w X s c base → tx_ok s first tx → tx_outpoints tx ⊆ X →
  returns w X (apply_writes s (tx_writes h tx)) (if first then [] else undo_of s (vin tx)) (UpdateCoins tx c base h).
Proof.
  intros Hg (<- & Ho & Hnew & Hin) HX. unfold UpdateCoins, tx_writes. destruct (IsCoinBase tx) eqn:Ecb.
  - rewrite bind_Ok. destruct (AddCoins_good tx h false s c base Hg Ho HX (λ _ _, Hnew)) as (c' & b' & -> & Hg'). rewrite bind_Ok. by exists c', b'.
  - destruct (Hin eq_refl) as [Hnd Hall].
    destruct (spend_list_good (vin tx) s c base [] Hg) as (c1 & b1 & -> & Hg1); [|done|].
    { intros o Hi. split; [by apply (tx_outpoints_in tx)|by apply Hall]. }
    rewrite bind_Ok. destruct (AddCoins_good tx h false _ c1 b1 Hg1 Ho HX (λ _ _, spends_new (vin tx) s tx Hnew)) as (c' & b' & -> & Hg').
    rewrite bind_Ok. exists c', b'. by rewrite apply_writes_app.
Qed.

Lemma rollforward_tx_good tx h s c base :
  good w X s c base → outs_ok tx → tx_outpoints tx ⊆ X → returns w X (apply_writes s (tx_writes h tx)) tt (rollforward_tx h tx c base).
Proof.
  intros Hg Ho HX. unfold rollforward_tx, tx_writes. rewrite apply_writes_app.
  assert (∃ c1 b1, (if IsCoinBase tx then Ok (tt, c, base)
      else mfold (λ o '(_, c, base), '(_, _, c, base) ← SpendCoin c base o; Ok (tt, c, base)) (vin tx) (tt, c, base)) = Ok (tt, c1, b1) ∧
    good w X (apply_writes s (if IsCoinBase tx then [] else spends (vin tx))) c1 b1) as (c1 & b1 & -> & Hg1).
  { destruct (IsCoinBase tx); [by exists c, base|].
    destruct (respend_list_good (vin tx) s c base Hg) as (c1 & b1 & -> & Hg1); [|by exists c1, b1]. intros o Hi. by apply (tx_outpoints_in tx). }
  rewrite bind_Ok. by apply (AddCoins_good tx h true _ c1 b1 Hg1 Ho HX).
Qed.

Lemma rollforward_coins_good vtx h s c base :
  good w X s c base → Forall outs_ok vtx → block_outpoints vtx ⊆ X →
  returns w X (apply_writes s (block_writes h vtx)) tt (rollforward_coins vtx h c base).
Proof.
  unfold rollforward_coins. revert s c base. induction vtx as [|tx vtx IH]; intros s c base Hg Ho HX; [by exists c, base|]. cbn [mfold].
  apply list.Forall_cons in Ho as [Ho1 Ho2]. unfold block_outpoints in HX. cbn in HX. apply union_subseteq in HX as [HX1 HX2].
  destruct (rollforward_tx_good tx h s c base Hg Ho1 HX1) as (c1 & b1 & -> & Hg1). rewrite bind_Ok.
  destruct (IH _ c1 b1 Hg1 Ho2 HX2) as (c' & b' & E & Hg'). exists c', b'. split; [done|].
  unfold block_writes. cbn. by rewrite apply_writes_app.
Qed.

Lemma ApplyTxInUndo_good k s c base o : good w X s c base → o ∈ X → restorable k →
  ∃ res, returns w X (write1 s (o, Some k)) res (ApplyTxInUndo k c base o) ∧ res ≠ DISCONNECT_FAILED ∧ (unspent s o = None → res = DISCONNECT_OK).
Proof.
  intros Hg Ho (Hs & Hu & Hh). unfold ApplyTxInUndo. destruct (have_good w X s c base Hg o Ho) as (c1 & b1 & -> & Hg1). rewrite bind_Ok.
  rewrite (proj2 (Z.eqb_neq _ _) Hh), bind_Ok.
  destruct (add_good w X s c1 b1 Hg1 o k (negb (negb (bool_decide (is_Some (unspent s o))))) Hs) as (c2 & -> & Hg2); [|done|].
  { intros _. rewrite negb_involutive. case_bool_decide as Hx; [done|]. intros _. by apply eq_None_not_Some. }
  rewrite bind_Ok. rewrite Hu in Hg2. eexists. split; [exists c2, b1; by split|]. split; [by destruct (bool_decide _)|].
  intros Hn. rewrite bool_decide_false; [done|]. rewrite Hn. by intros [? ?].
Qed.

Lemma vget_nat {A} (l : list A) (i : nat) x : l !! i = Some x → vget l (Z.of_nat i) = Ok x.
Proof. intros E. unfold vget. rewrite bool_decide_true by lia. by rewrite Nat2Z.id, E. Qed.

Lemma restore_inputs_good tx undo j : ∀ fClean s c base,
  (j ≤ length (vin tx))%nat → length undo = length (vin tx) → Forall restorable undo → good w X s c base → tx_outpoints tx ⊆ X →
  ∃ b, returns w X (apply_writes s (reverse (adds (zip (take j (vin tx)) (take j undo))))) (Some b) (restore_inputs j tx undo fClean c base) ∧
    (NoDup (vin tx) → (∀ o, o ∈ take j (vin tx) → unspent s o = None) → b = fClean).
Proof.
  induction j as [|j IH]; intros fClean s c base Hj Hl Hr Hg HX; [exists fClean; split; [by exists c, base|done]|].
  destruct (lookup_lt_is_Some_2 (vin tx) j ltac:(lia)) as [o Eo]. destruct (lookup_lt_is_Some_2 undo j ltac:(lia)) as [k Ek].
  cbn [restore_inputs]. rewrite (vget_nat _ _ _ Eo), bind_Ok, (vget_nat _ _ _ Ek), bind_Ok.
  assert (restorable k) as Hk by (rewrite list.Forall_forall in Hr; apply Hr; by apply list_elem_of_lookup_2 in Ek).
  destruct (ApplyTxInUndo_good k s c base o Hg) as (res & (c1 & b1 & -> & Hg1) & Hnf & Hok); [|done|].
  { apply (tx_outpoints_in tx); [done|]. by apply list_elem_of_lookup_2 in Eo. }
  rewrite bind_Ok, bool_decide_false by done.
  set (f := fClean && _). destruct (IH f _ c1 b1 ltac:(lia) Hl Hr Hg1 HX) as (b & (c' & b' & E & Hg') & Hb).
  exists b. split.
  - exists c', b'. split; [done|]. rewrite (take_S_r _ _ _ Eo), (take_S_r _ _ _ Ek).
    rewrite zip_with_app by (rewrite !length_take; lia). unfold adds. rewrite fmap_app, reverse_app. exact Hg'.
  - intros Hnd Hnone. rewrite (take_S_r _ _ _ Eo) in Hnone. unfold f in Hb. rewrite Hok, andb_true_r in Hb by (apply Hnone, elem_of_app; right; by left).
    apply Hb; [done|]. intros o' Ho'. cbn. unfold put. rewrite decide_False; [apply Hnone, elem_of_app; by left|]. intros ->.
    apply list_elem_of_lookup in Ho' as [i Hi]. apply lookup_take_Some in Hi as [Hi Hlt]. pose proof (NoDup_lookup _ _ _ _ Hnd Eo Hi). lia.
Qed.

Lemma disconnect_list_good l h cb exc : ∀ fClean s c base,
  good w X s c base → (∀ p, p ∈ l → p.1 ∈ X) →
  ∃ b, returns w X (apply_writes s (spends (created_of h cb l).*1)) b
    (mfold (λ '(o, txout) '(fClean, c, base),
       if IsUnspendable (scriptPubKey txout) then Ok (fClean, c, base)
       else
         '(is_spent, moved, c, base) ← SpendCoin c base o;
         let coin := default coinEmpty moved in
         let mismatch := negb is_spent || negb (bool_decide (txout = out coin)) || negb (h =? coin_nHeight coin)
                           || negb (Bool.eqb cb (fCoinBase coin)) in
         Ok (if mismatch && negb exc then false else fClean, c, base)) l (fClean, c, base)) ∧
    (NoDup l.*1 → 0 ≤ h < 2 ^ 31 → (∀ p, p ∈ created_of h cb l → unspent s p.1 = Some p.2) → b = fClean).
Proof.
  induction l as [|[o txout] l IH]; intros fClean s c base Hg Hin; [exists fClean; split; [by exists c, base|done]|]. cbn [mfold].
  assert (∀ p, p ∈ l → p.1 ∈ X) as Hin' by (intros p Hp; apply Hin; by right).
  destruct (IsUnspendable (scriptPubKey txout)) eqn:Eu.
  - rewrite bind_Ok. unfold created_of. rewrite filter_cons_False by (unfold spendable; cbn; congruence).
    destruct (IH fClean s c base Hg Hin') as (b & Hret & Hb). exists b. split; [done|]. intros [_ Hnd]%list.NoDup_cons. by apply Hb.
  - destruct (spend_good w X s c base Hg o (Hin (o, txout) ltac:(by left))) as (ok & moved & c1 & b1 & -> & Hg1 & Hm & ->). rewrite bind_Ok, bind_Ok.
    set (f := if _ && _ then false else fClean). unfold created_of. rewrite filter_cons_True by done.
    destruct (IH f _ c1 b1 Hg1 Hin') as (b & Hret & Hb). exists b. split; [exact Hret|].
    intros Hnd Hh Hall. cbn in Hnd. apply list.NoDup_cons in Hnd as [Hno Hnd]. cbn in Hall.
    assert (f = fClean) as Ef.
    { unfold f. specialize (Hall (o, make_coin txout h cb) ltac:(by left)). cbn in Hall. rewrite Hall in Hm. destruct moved as [k|]; [|done].
      cbn in Hm. destruct (IsSpent k); [done|]. injection Hm as ->. cbn. rewrite bool_decide_true by done.
      rewrite (land_mask h 31 2147483647 ltac:(lia) eq_refl), Z.mod_small by lia.
      by rewrite Z.eqb_refl, Bool.eqb_reflx. }
    rewrite Ef in Hb. apply Hb; [done|done|]. intros p Hp. cbn. unfold put. rewrite decide_False; [apply Hall; by right|]. intros Heq. apply Hno. rewrite <- Heq.
    unfold created_of in Hp. apply list_elem_of_fmap in Hp as (q & -> & [_ Hq]%list_elem_of_filter). cbn. by apply list_elem_of_fmap_2.
Qed.

Lemma disconnect_outputs_good tx h exc fClean s c base :
  good w X s c base → tx_outpoints tx ⊆ X →
  ∃ b, returns w X (apply_writes s (spends (created h tx).*1)) b (disconnect_outputs tx h exc fClean c base) ∧
    (outs_ok tx → 0 ≤ h < 2 ^ 31 → (∀ p, p ∈ created h tx → unspent s p.1 = Some p.2) → b = fClean).
Proof.
  intros Hg HX. destruct (disconnect_list_good (outputs tx) h (IsCoinBase tx) exc fClean s c base Hg) as (b & Hret & Hb).
  { intros p Hp. by apply (tx_outpoints_out tx). }
  exists b. split; [done|]. intros Ho. apply Hb. by apply outputs_NoDup.
Qed.

(** The undo data fits the block. *)
Definition undo_fits (vtx : list CTransaction) (vtxundo : list (list Coin)) : Prop :=
  ∀ i tx, vtx !! S i = Some tx → ∃ u, vtxundo !! i = Some u ∧ length u = length (vin tx) ∧ Forall restorable u.

(** Disconnecting [tx] from [s] finds what connecting it left. *)
Definition tx_clean (h : Z) (first : bool) (s : ledger) (tx : CTransaction) : Prop :=
  outs_ok tx ∧ (∀ p, p ∈ created h tx → unspent s p.1 = Some p.2) ∧
  (first = false → NoDup (vin tx) ∧ ∀ o, o ∈ vin tx → unspent s o = None ∨ o ∈ (created h tx).*1).

Fixpoint block_clean (h : Z) (n : nat) (vtx : list CTransaction) (vtxundo : list (list Coin)) (s : ledger) : Prop :=
  match n with
  | O => True
  | S i => ∀ tx, vtx !! i = Some tx →
      tx_clean h (bool_decide (i = 0%nat)) s tx ∧
      block_clean h i vtx vtxundo (apply_writes s (undo_writes h (bool_decide (i = 0%nat)) tx (default [] (vtxundo !! (i - 1)%nat))))
  end.

Lemma disconnect_txs_good vtx vtxundo h enf n : ∀ fClean s c base,
  good w X s c base → (n ≤ length vtx)%nat → block_outpoints vtx ⊆ X → undo_fits vtx vtxundo →
  ∃ b, returns w X (apply_writes s (block_undo_writes h n vtx vtxundo)) (Some b) (disconnect_txs n vtx vtxundo h enf fClean c base) ∧
    (0 ≤ h < 2 ^ 31 → block_clean h n vtx vtxundo s → b = fClean).
Proof.
  induction n as [|i IH]; intros fClean s c base Hg Hn HX Hfit; [exists fClean; split; [by exists c, base|done]|].
  destruct (lookup_lt_is_Some_2 vtx i ltac:(lia)) as [tx Etx]. cbn [disconnect_txs block_undo_writes block_clean]. rewrite (vget_nat _ _ _ Etx), bind_Ok, Etx.
  assert (tx_outpoints tx ⊆ X) as HXt by (etrans; [apply block_outpoints_in; by apply list_elem_of_lookup_2 in Etx|done]).
  destruct (disconnect_outputs_good tx h (IsCoinBase tx && negb enf) fClean s c base Hg HXt) as (f1 & (c1 & b1 & -> & Hg1) & Hf1). rewrite bind_Ok.
  set (undo := default [] (vtxundo !! (i - 1)%nat)).
  assert (∃ f2 c2 b2, (if (0 <? i)%nat then txundo ← vget vtxundo (Z.of_nat i - 1);
        if negb (zlen txundo =? zlen (vin tx)) then Ok (None, c1, b1) else restore_inputs (length (vin tx)) tx txundo f1 c1 b1
      else Ok (Some f1, c1, b1)) = Ok (Some f2, c2, b2) ∧ good w X (apply_writes s (undo_writes h (bool_decide (i = 0%nat)) tx undo)) c2 b2 ∧
      (0 ≤ h < 2 ^ 31 → tx_clean h (bool_decide (i = 0%nat)) s tx → f2 = fClean)) as (f2 & c2 & b2 & -> & Hg2 & Hf2).
  { unfold undo_writes, undo. destruct i as [|i]; cbn [Nat.ltb Nat.leb].
    - exists f1, c1, b1. split; [done|]. rewrite bool_decide_true, app_nil_r by done. split; [done|]. intros Hh (Ho & Hc & _). by apply Hf1.
    - destruct (Hfit i tx Etx) as (u & Eu & Hul & Hur). replace (Z.of_nat (S i) - 1) with (Z.of_nat i) by lia.
      rewrite (vget_nat _ _ _ Eu), bind_Ok. unfold zlen. rewrite Hul, Z.eqb_refl. cbn [negb].
      replace (S i - 1)%nat with i by lia. rewrite Eu, bool_decide_false by done. cbn [default].
      destruct (restore_inputs_good tx u (length (vin tx)) f1 _ c1 b1 ltac:(lia) Hul Hur Hg1 HXt) as (f2 & (c2 & b2 & E & Hg2) & Hf2).
      rewrite !take_ge in Hg2 by lia. exists f2, c2, b2. split; [done|]. split; [by rewrite apply_writes_app|].
      intros Hh (Ho & Hc & Hin). destruct (Hin eq_refl) as [Hnd Hnone]. rewrite Hf2; [by apply Hf1|done|]. intros o Hi. rewrite take_ge in Hi by lia.
      rewrite apply_spends. case_decide; [done|]. by destruct (Hnone o Hi). }
  rewrite bind_Ok. destruct (IH f2 _ c2 b2 Hg2 ltac:(lia) HX Hfit) as (b & (c' & b' & E & Hg') & Hb). exists b. split.
  - exists c', b'. split; [done|]. by rewrite apply_writes_app.
  - intros Hh Hcl. destruct (Hcl tx eq_refl) as [Hc1 Hc2]. rewrite (Hb Hh Hc2). by apply Hf2.
Qed.

Lemma DisconnectBlock_good vtx vtxundo h hash prev s c base :
  good w X s c base → block_outpoints vtx ⊆ X → undo_fits vtx vtxundo → length vtx = S (length vtxundo) → zlen vtx < 2 ^ 64 → (w = None → prev ≠ null_hash) →
  ∃ res, returns w X (mkLedger prev (unspent (apply_writes s (block_undo_writes h (length vtx) vtx vtxundo)))) res
      (DisconnectBlock (Some vtxundo) vtx h hash prev c base) ∧
    res ≠ DISCONNECT_FAILED ∧ (0 ≤ h < 2 ^ 31 → block_clean h (length vtx) vtx vtxundo s → res = DISCONNECT_OK).
Proof.
  intros Hg HX Hfit Hl Hlen Hprev. unfold DisconnectBlock. replace (u64 (zlen vtxundo + 1)) with (zlen vtx) by (unfold zlen in *; rewrite u64_small; lia).
  rewrite Z.eqb_refl. cbn [negb].
  destruct (disconnect_txs_good vtx vtxundo h (enforce_bip30 h hash) (length vtx) true s c base Hg ltac:(lia) HX Hfit) as (b & (c1 & b1 & -> & Hg1) & Hb).
  rewrite bind_Ok. eexists. split; [exists (SetBestBlock c1 prev), b1; split; [done|by apply set_tip_good]|].
  split; [by destruct b|]. intros Hh Hcl. by rewrite (Hb Hh Hcl).
Qed.

End operations.

(** ** Connecting a block *)
Fixpoint txs_ok (h : Z) (first : bool) (s : ledger) (vtx : list CTransaction) : Prop :=
  match vtx with
  | [] => True
  | tx :: vtx => tx_ok s first tx ∧ txs_ok h false (apply_writes s (tx_writes h tx)) vtx
  end.

(** The undo data of a block connected to [s]. *)
Fixpoint block_undo_data (h : Z) (first : bool) (s : ledger) (vtx : list CTransaction) : list (list Coin) :=
  match vtx with
  | [] => []
  | tx :: vtx => (if first then [] else [undo_of s (vin tx)]) ++ block_undo_data h false (apply_writes s (tx_writes h tx)) vtx
  end.

Lemma connect_txs_good w X h vtx s c base :
  good w X s c base → txs_ok h true s vtx → block_outpoints vtx ⊆ X →
  returns w X (apply_writes s (block_writes h vtx)) (block_undo_data h true s vtx) (connect_txs vtx c base h).
Proof.
  unfold connect_txs. intros Hg Hok HX.
  assert (∀ vtx k acc s c base, good w X s c base → txs_ok h (bool_decide (k = 0%nat)) s vtx → block_outpoints vtx ⊆ X →
    returns w X (apply_writes s (block_writes h vtx)) (acc ++ block_undo_data h (bool_decide (k = 0%nat)) s vtx)
      (mfold (λ '(i, tx) '(vtxundo, c, base), '(txundo, c, base) ← UpdateCoins tx c base h;
         Ok (if (0 <? i)%nat then vtxundo ++ [txundo] else vtxundo, c, base)) (imap (λ i tx, ((k + i)%nat, tx)) vtx) (acc, c, base))) as Hgen.
  { clear. induction vtx as [|tx vtx IH]; intros k acc s c base Hg Hok HX; [exists c, base; by rewrite app_nil_r|].
    destruct Hok as [Hok1 Hok2]. unfold block_outpoints in HX. cbn in HX. apply union_subseteq in HX as [HX1 HX2].
    rewrite imap_cons. cbn [mfold]. rewrite Nat.add_0_r.
    destruct (UpdateCoins_good w X tx h _ s c base Hg Hok1 HX1) as (c1 & b1 & -> & Hg1). rewrite bind_Ok, bind_Ok.
    rewrite (imap_ext _ (λ i tx, ((S k + i)%nat, tx)) vtx) by (intros; cbn; f_equal; lia).
    destruct (IH (S k) (if (0 <? k)%nat then acc ++ [if bool_decide (k = 0%nat) then [] else undo_of s (vin tx)] else acc) _ c1 b1 Hg1) as (c' & b' & E & Hg').
    { by rewrite bool_decide_false. }
    { done. }
    exists c', b'. rewrite E. split; [|unfold block_writes; cbn; by rewrite apply_writes_app]. do 3 f_equal. cbn.
    rewrite (bool_decide_false (S k = 0%nat)) by done. destruct k; [by rewrite bool_decide_true|].
    rewrite bool_decide_false by done. cbn. by rewrite <- app_assoc. }
  apply (Hgen vtx 0%nat []); [done|by rewrite bool_decide_true|done].
Qed.

(** The state before the transaction at [i]. *)
Definition state_at (h : Z) (s : ledger) (vtx : list CTransaction) (i : nat) : ledger := apply_writes s (block_writes h (take i vtx)).

Lemma state_at_S h s vtx i tx : vtx !! i = Some tx → state_at h s vtx (S i) = apply_writes (state_at h s vtx i) (tx_writes h tx).
Proof.
  intros E. unfold state_at, block_writes. rewrite (take_S_r _ _ _ E), fmap_app, concat_app. cbn. by rewrite app_nil_r, apply_writes_app.
Qed.

Lemma state_at_cons h s tx vtx i : state_at h s (tx :: vtx) (S i) = state_at h (apply_writes s (tx_writes h tx)) vtx i.
Proof. unfold state_at, block_writes. cbn. apply apply_writes_app. Qed.

Lemma txs_ok_lookup h first s vtx i tx : txs_ok h first s vtx → vtx !! i = Some tx →
  tx_ok (state_at h s vtx i) (first && bool_decide (i = 0%nat)) tx.
Proof.
  revert first s i. induction vtx as [|t vtx IH]; intros first s i Hok Hi; [done|]. destruct Hok as [H1 H2]. destruct i as [|i].
  - injection Hi as ->. by rewrite bool_decide_true, andb_true_r.
  - rewrite state_at_cons. specialize (IH false _ i H2 Hi). rewrite (bool_decide_false (S i = 0%nat)), andb_false_r by done. exact IH.
Qed.

Lemma block_undo_data_lookup h s vtx i tx : vtx !! i = Some tx →
  block_undo_data h false s vtx !! i = Some (undo_of (state_at h s vtx i) (vin tx)).
Proof.
  revert s i. induction vtx as [|t vtx IH]; intros s i Hi; [done|]. destruct i as [|i]; [by injection Hi as ->|].
  rewrite state_at_cons. exact (IH _ i Hi).
Qed.

Lemma block_undo_data_first h s vtx i tx : vtx !! S i = Some tx →
  block_undo_data h true s vtx !! i = Some (undo_of (state_at h s vtx (S i)) (vin tx)).
Proof. destruct vtx as [|t vtx]; [done|]. intros Hi. cbn [block_undo_data app]. rewrite state_at_cons. by apply block_undo_data_lookup. Qed.

Lemma block_undo_data_length h first s vtx : length (block_undo_data h first s vtx) = (if first then length vtx - 1 else length vtx)%nat.
Proof.
  revert first s. induction vtx as [|t vtx IH]; intros first s; [by destruct first|]. cbn. rewrite length_app, IH. destruct first; cbn; lia.
Qed.

(** *** Coins that can be put back *)
Definition all_restorable (s : ledger) : Prop := ∀ o k, unspent s o = Some k → restorable k.

Lemma all_restorable_writes s ws : (∀ o k, (o, Some k) ∈ ws → restorable k) → all_restorable s → all_restorable (apply_writes s ws).
Proof.
  revert s. induction ws as [|[o k] ws IH]; intros s Hws Hs; [done|]. cbn. apply IH; [intros o' k' H; apply (Hws o'); by right|].
  intros o' k'. cbn. unfold put. case_decide; [|apply Hs]. intros ->. apply (Hws o). by left.
Qed.

Lemma tx_writes_restorable h tx s : outs_ok tx → 0 < h < 2 ^ 31 → all_restorable s → all_restorable (apply_writes s (tx_writes h tx)).
Proof.
  intros Ho Hh. apply all_restorable_writes. intros o k Hin. unfold tx_writes in Hin. apply elem_of_app in Hin as [Hin|Hin].
  - destruct (IsCoinBase tx); [by apply not_elem_of_nil in Hin|]. by apply list_elem_of_fmap in Hin as (? & ? & _).
  - apply list_elem_of_fmap in Hin as ([o' k'] & [= -> ->] & Hin). apply list_elem_of_fmap in Hin as (p & [= -> ->] & [Hsp Hp]%list_elem_of_filter).
    split; [|split; [done|]]; cbn.
    + apply make_coin_unspent. by apply (outputs_values tx).
    + rewrite (land_mask h 31 2147483647 ltac:(lia) eq_refl), Z.mod_small by lia. lia.
Qed.

Lemma state_at_restorable h s vtx i : txs_ok h true s vtx → 0 < h < 2 ^ 31 → all_restorable s → (i ≤ length vtx)%nat →
  all_restorable (state_at h s vtx i).
Proof.
  intros Hok Hh Hs. induction i as [|i IH]; intros Hi; [done|]. destruct (lookup_lt_is_Some_2 vtx i ltac:(lia)) as [tx E].
  rewrite (state_at_S _ _ _ _ _ E). apply tx_writes_restorable; [|done|apply IH; lia]. by destruct (txs_ok_lookup _ _ _ _ _ _ Hok E) as (_ & ? & _).
Qed.

Lemma undo_data_fits h s vtx : txs_ok h true s vtx → 0 < h < 2 ^ 31 → all_restorable s → undo_fits vtx (block_undo_data h true s vtx).
Proof.
  intros Hok Hh Hs i tx Hi. eexists. split; [by apply block_undo_data_first|]. unfold undo_of. rewrite length_fmap. split; [done|].
  apply list.Forall_forall. intros k Hk. apply list_elem_of_fmap in Hk as (o & -> & Ho).
  pose proof (txs_ok_lookup _ _ _ _ _ _ Hok Hi) as (_ & _ & _ & Hin). rewrite bool_decide_false in Hin by done. destruct (Hin eq_refl) as [_ Hall].
  destruct (Hall o Ho) as [k' Ek]. rewrite Ek. cbn. apply (state_at_restorable h s vtx (S i) Hok Hh Hs) in Ek; [done|].
  apply lookup_lt_Some in Hi. lia.
Qed.

(** ** Disconnecting what was connected *)
Lemma created_new h s tx o : new_outputs s tx → o ∈ (created h tx).*1 → unspent s o = None.
Proof.
  intros Hn Ho. unfold created in Ho. rewrite created_keys in Ho. apply list_elem_of_fmap in Ho as (p & -> & [Hsp Hp]%list_elem_of_filter).
  by apply Hn.
Qed.

Lemma adds_zip_keys (os : list COutPoint) (ks : list Coin) : length os = length ks → (reverse (adds (zip os ks))).*1 = reverse os.
Proof. intros Hl. rewrite fmap_reverse, adds_keys, fst_zip by lia. done. Qed.

Lemma undo_pairs s os o : o ∈ os → is_Some (unspent s o) → (o, unspent s o) ∈ reverse (adds (zip os (undo_of s os))).
Proof.
  intros Ho [k Ek]. rewrite elem_of_reverse. apply list_elem_of_fmap. exists (o, k). split; [cbn; by rewrite Ek|].
  apply list_elem_of_lookup in Ho as [i Hi]. apply list_elem_of_lookup. exists i. apply lookup_zip_with_Some. exists o, k. split; [done|]. split; [done|].
  unfold undo_of. rewrite list_lookup_fmap, Hi. cbn. by rewrite Ek.
Qed.

(** After connecting [tx] to [s]: its spendable outputs, no inputs, and the rest. *)
Lemma tx_writes_lookup h s tx o : outs_ok tx →
  unspent (apply_writes s (tx_writes h tx)) o =
    if decide (o ∈ (created h tx).*1) then unspent (apply_writes s (tx_writes h tx)) o
    else if decide (IsCoinBase tx = false ∧ o ∈ vin tx) then None else unspent s o.
Proof.
  intros Ho. case_decide as Hd; [done|]. unfold tx_writes. rewrite apply_writes_app, apply_other by (by rewrite adds_keys).
  destruct (IsCoinBase tx); [by rewrite decide_False by (by intros [? _])|]. rewrite apply_spends. repeat case_decide; tauto.
Qed.

Lemma connected_clean h s first tx : tx_ok s first tx → tx_clean h first (apply_writes s (tx_writes h tx)) tx.
Proof.
  intros (Hcb & Ho & Hnew & Hin). split; [done|]. split.
  - intros [o k] Hp. unfold tx_writes. rewrite apply_writes_app. apply apply_in; [by rewrite adds_keys; apply created_NoDup|].
    apply list_elem_of_fmap. by exists (o, k).
  - intros ->. destruct (Hin eq_refl) as [Hnd Hall]. split; [done|]. intros o Hi. rewrite tx_writes_lookup by done.
    destruct (decide (o ∈ (created h tx).*1)); [by right|]. left. by rewrite decide_True by done.
Qed.

Lemma undo_inverts_tx h s first tx : tx_ok s first tx →
  apply_writes (apply_writes s (tx_writes h tx)) (undo_writes h first tx (undo_of s (vin tx))) ≡ s.
Proof.
  intros (Hcb & Ho & Hnew & Hin). split; [by rewrite !apply_tip|]. intros o. unfold undo_writes. rewrite apply_writes_app.
  set (s1 := apply_writes s (tx_writes h tx)).
  assert ((first = false → o ∉ vin tx) → unspent (apply_writes s1 (spends (created h tx).*1)) o = unspent s o) as Hrest.
  { intros Hni. rewrite apply_spends. case_decide as Hd; [symmetry; by apply (created_new h s tx)|]. unfold s1.
    rewrite tx_writes_lookup, !decide_False by (try done; intros [Hf Hi]; rewrite Hcb in Hf; by apply Hni). done. }
  destruct first; [by apply Hrest|]. destruct (Hin eq_refl) as [Hnd Hall].
  assert (length (vin tx) = length (undo_of s (vin tx))) as Hl by (unfold undo_of; by rewrite length_fmap).
  destruct (decide (o ∈ vin tx)) as [Hi|Hi].
  - apply apply_in; [rewrite adds_zip_keys by done; by rewrite reverse_Permutation|]. apply undo_pairs; [done|]. by apply Hall.
  - rewrite apply_other by (rewrite adds_zip_keys by done; by rewrite elem_of_reverse). by apply Hrest.
Qed.

(** The same coins, whatever the tips. *)
Definition coins_eq (s s' : ledger) : Prop := ∀ o, unspent s o = unspent s' o.

#[export] Instance coins_eq_equivalence : Equivalence coins_eq.
Proof. split; [by intros s o|by intros s s' H o|]. intros s s' s'' H1 H2 o. by rewrite H1. Qed.

#[export] Instance equiv_coins_eq : subrelation (≡@{ledger}) coins_eq.
Proof. by intros s s' [_ H]. Qed.

#[export] Instance apply_writes_coins : Proper (coins_eq ==> eq ==> coins_eq) apply_writes.
Proof. intros s s' H ? ws -> o. apply apply_agree. right. apply H. Qed.

Lemma tx_clean_coins h first s s' tx : coins_eq s s' → tx_clean h first s tx → tx_clean h first s' tx.
Proof.
  intros Heq (H1 & H2 & H3). split; [done|]. split; [intros p Hp; rewrite <- Heq; by apply H2|].
  intros Hf. destruct (H3 Hf) as [H4 H5]. split; [done|]. intros o Ho. rewrite <- Heq. by apply H5.
Qed.

Lemma block_clean_coins h n vtx vtxundo s s' : coins_eq s s' → block_clean h n vtx vtxundo s → block_clean h n vtx vtxundo s'.
Proof.
  revert s s'. induction n as [|n IH]; intros s s' Heq; [done|]. cbn [block_clean]. intros H tx E. destruct (H tx E) as [H1 H2].
  split; [by apply (tx_clean_coins _ _ s)|]. eapply IH; [|exact H2]. by rewrite Heq.
Qed.

(** Undoing the first [n] transactions from the state after them. *)
Lemma undo_inverts_block h s vtx n : txs_ok h true s vtx → (n ≤ length vtx)%nat →
  block_clean h n vtx (block_undo_data h true s vtx) (state_at h s vtx n) ∧
  apply_writes (state_at h s vtx n) (block_undo_writes h n vtx (block_undo_data h true s vtx)) ≡ s.
Proof.
  intros Hok. induction n as [|i IH]; intros Hn; [done|]. destruct (IH ltac:(lia)) as [IH1 IH2].
  destruct (lookup_lt_is_Some_2 vtx i ltac:(lia)) as [tx Etx]. cbn [block_clean block_undo_writes]. rewrite Etx, (state_at_S _ _ _ _ _ Etx).
  pose proof (txs_ok_lookup _ _ _ _ _ _ Hok Etx) as Htx. cbn [andb] in Htx.
  assert (undo_writes h (bool_decide (i = 0%nat)) tx (default [] (block_undo_data h true s vtx !! (i - 1)%nat)) =
          undo_writes h (bool_decide (i = 0%nat)) tx (undo_of (state_at h s vtx i) (vin tx))) as Eu.
  { destruct i as [|i]; [unfold undo_writes; by rewrite bool_decide_true|]. replace (S i - 1)%nat with i by lia.
    by rewrite (block_undo_data_first _ _ _ _ _ Etx). }
  rewrite Eu. pose proof (undo_inverts_tx h _ _ tx Htx) as Hinv. split.
  - intros tx' [= <-]. split; [by apply connected_clean|]. rewrite Eu. eapply block_clean_coins; [|exact IH1]. by rewrite Hinv.
  - rewrite apply_writes_app, Hinv. exact IH2.
Qed.

Lemma block_writes_state h s vtx : apply_writes s (block_writes h vtx) = state_at h s vtx (length vtx).
Proof. unfold state_at. by rewrite take_ge. Qed.

(** Operations that change no coin. *)
Definition keeps_coins (X : gset COutPoint) (op : operation) : Prop :=
  match op with OpAdd _ _ _ | OpSpend _ | OpSetTip _ => False | _ => outpoint_of op ⊆ X end.

Lemma keeps_coins_run X ops s : Forall (keeps_coins X) ops → all_permitted ops s ∧ (spec_run ops s).2 = s ∧ outpoints_of ops ⊆ X.
Proof.
  unfold outpoints_of. induction 1 as [|op ops Hop _ (IH1 & IH2 & IH3)]; [done|]. cbn [fmap list_fmap union_list].
  assert (outpoint_of op ⊆ X ∧ permitted op s ∧ (spec_step op s).2 = s) as (H1 & H2 & H3) by (by destruct op).
  cbn [all_permitted spec_run]. destruct (spec_step op s) as [a s'] eqn:E. cbn in H3. subst s'. split; [done|].
  split; [by destruct (spec_run ops s)|]. by apply union_subseteq.
Qed.

(** ** Properties *)

