(* ===== verification/CrashReplay.v ===== *)
(** Recovery after an interrupted write.

    [Chainstate::ReplayBlocks] of [validation.cpp]: when the coin database was
    left between two tips, the blocks of the old branch are rolled back, those
    of the new branch rolled forward, and the result is flushed. The block and
    undo files are parameters; the shielded part of the two block functions is
    not modelled. *)

From Stdlib Require Import ZArith Lia String.
From stdpp Require Import base list numbers gmap tactics.
From S2P Require Import Prelude BlockIndex Coins CoinsRun BlockUndo.
Import block_index coins block_undo.

Open Scope Z_scope.

(** The block and undo files, by block hash. *)
Class BlockFiles := {
  ReadBlock : list Z → option (list CTransaction);
  ReadBlockUndo : list Z → option (list (list Coin));
}.

Module replay_blocks.

Section replay.
Context `{BlockFiles} (σ : BlockMap).

Fixpoint rollback (fuel : nat) (pindexOld pindexFork : option (list Z)) (c : CCoinsViewCache) (base : CCoinsView) :
    result (bool * CCoinsViewCache * CCoinsView) :=
  if bool_decide (pindexOld = pindexFork) then Ok (true, c, base)
  else
    match fuel, pindexOld with
    | S fuel, Some p =>
        b ← deref σ p;
        '(ok, c, base) ←
          (if 0 <? nHeight b then
             match ReadBlock p, pprev b with
             | None, _ => Ok (false, c, base)
             | Some vtx, Some prev =>
                 '(res, c, base) ← DisconnectBlock (ReadBlockUndo p) vtx (nHeight b) p prev c base;
                 Ok (negb (bool_decide (res = DISCONNECT_FAILED)), c, base)
             | Some _, None => Err EBounds
             end
           else Ok (true, c, base));
        if (ok : bool) then rollback fuel (pprev b) pindexFork c base else Ok (false, c, base)
    | S _, None => Err EBounds
    | O, _ => Err EFuel
    end.

Fixpoint roll_forward (n : nat) (height : Z) (pindexNew : list Z) (c : CCoinsViewCache) (base : CCoinsView) :
    result (bool * CCoinsViewCache * CCoinsView) :=
  match n with
  | O => Ok (true, c, base)
  | S n =>
      r ← GetAncestor σ pindexNew height;
      match r with
      | None => Err EAssert
      | Some pindex =>
          b ← deref σ pindex;
          match ReadBlock pindex with
          | None => Ok (false, c, base)
          | Some vtx =>
              '(_, c, base) ← rollforward_coins vtx (nHeight b) c base;
              roll_forward n (height + 1) pindexNew c base
          end
      end
  end.

(** The success flag and the database afterwards. *)
Definition ReplayBlocks (full : list db_op → bool) (db : CCoinsViewDB) : result (bool * CCoinsView) :=
  let cache := mkCache null_hash [] ∅ 0 in
  match db_GetHeadBlocks db with
  | [] => Ok (true, ViewDB db)
  | [head0; head1] =>
      match σ !! head0 with
      | None => Ok (false, ViewDB db)
      | Some new =>
          '(known, pindexOld, pindexFork) ←
            (if bool_decide (head1 = null_hash) then Ok (true, None, None)
             else match σ !! head1 with
                  | None => Ok (false, None, None)
                  | Some _ =>
                      fork ← LastCommonAncestor σ head1 head0;
                      _ ← assert_ (bool_decide (is_Some fork));
                      Ok (true, Some head1, fork)
                  end);
          if negb known then Ok (false, ViewDB db)
          else
            let fuel := match pindexOld with Some p => match σ !! p with Some b => S (Z.to_nat (nHeight b)) | None => O end | None => O end in
            '(rolled, cache, base) ← rollback fuel pindexOld pindexFork cache (ViewDB db);
            if negb rolled then Ok (false, base)
            else
              nForkHeight ← match pindexFork with Some f => b ← deref σ f; Ok (nHeight b) | None => Ok 0 end;
              '(rolled, cache, base) ← roll_forward (Z.to_nat (nHeight new - nForkHeight)) (nForkHeight + 1) head0 cache base;
              if negb rolled then Ok (false, base)
              else
                '(_, base) ← Flush full (SetBestBlock cache head0) base;
                Ok (true, base)
      end
  | _ => Ok (false, ViewDB db)
  end.

End replay.

End replay_blocks.
Import replay_blocks.

Section recovery.
Context `{BlockFiles} (σ : BlockMap) (Hl : linked σ).
(** The coins after each block, and the outpoints the blocks name. *)
Context (coins_after : list Z → COutPoint → option Coin) (X : gset COutPoint).

Definition ledger_of (p : list Z) : ledger := mkLedger p (coins_after p).

(** The files hold what connecting the block at [p] to its parent wrote. *)
Record stored (p : list Z) : Prop := mkStored {
  st_restorable : all_restorable (ledger_of p);
  st_block b q : σ !! p = Some b → pprev b = Some q →
    ∃ vtx, ReadBlock p = Some vtx ∧ ReadBlockUndo p = Some (block_undo_data (nHeight b) true (ledger_of q) vtx) ∧
      txs_ok (nHeight b) true (ledger_of q) vtx ∧ vtx ≠ [] ∧ zlen vtx < 2 ^ 64 ∧ block_outpoints vtx ⊆ X ∧
      coins_eq (ledger_of p) (apply_writes (ledger_of q) (block_writes (nHeight b) vtx));
}.

Definition chain_stored (tip : list Z) : Prop := ∀ n p, back σ n tip = Some p → stored p.

Lemma chain_stored_prev p b q : σ !! p = Some b → pprev b = Some q → chain_stored p → chain_stored q.
Proof. intros Hp Hq Hc n r Hr. apply (Hc (S n)). by rewrite (back_step σ p b q). Qed.

Lemma chain_stored_ancestor p h q : chain_stored p → ancestor σ p h = Some q → stored q.
Proof. intros Hc. unfold ancestor. destruct (σ !! p); [|done]. cbn. destruct (decide _); [|done]. apply Hc. Qed.

(** Every coin of [s] is that after [p] or that of [N]. *)
Definition mixed (N : COutPoint → option Coin) (p : list Z) (s : ledger) : Prop := ∀ o, unspent s o = coins_after p o ∨ unspent s o = N o.

Lemma mixed_undo N h p q vtx s : txs_ok h true (ledger_of q) vtx →
  coins_eq (ledger_of p) (apply_writes (ledger_of q) (block_writes h vtx)) → mixed N p s →
  mixed N q (apply_writes s (block_undo_writes h (length vtx) vtx (block_undo_data h true (ledger_of q) vtx))).
Proof.
  intros Hok Hp Hm o. set (U := block_undo_writes _ _ _ _).
  destruct (undo_inverts_block h (ledger_of q) vtx (length vtx) Hok ltac:(lia)) as [_ [_ Hinv]]. rewrite <- block_writes_state in Hinv. fold U in Hinv.
  specialize (Hinv o). destruct (decide (o ∈ U.*1)) as [Hi|Hi].
  - left. cbn in Hinv. rewrite <- Hinv. apply apply_agree. by left.
  - rewrite apply_other by done. rewrite apply_other in Hinv by done. rewrite <- (Hp o) in Hinv. cbn in Hinv. destruct (Hm o) as [-> | ->]; [left|right]; done.
Qed.

Lemma mixed_redo N h p q vtx s : coins_eq (ledger_of p) (apply_writes (ledger_of q) (block_writes h vtx)) → mixed N q s →
  mixed N p (apply_writes s (block_writes h vtx)).
Proof.
  intros Hp Hm o. specialize (Hp o). cbn in Hp. destruct (decide (o ∈ (block_writes h vtx).*1)) as [Hi|Hi].
  - left. rewrite Hp. apply apply_agree. by left.
  - rewrite apply_other by done. rewrite apply_other in Hp by done. cbn in Hp. rewrite Hp. apply Hm.
Qed.

Lemma txs_ok_outs h first s vtx : txs_ok h first s vtx → Forall outs_ok vtx.
Proof.
  intros Hok. apply list.Forall_forall. intros tx [i Hi]%list_elem_of_lookup. by destruct (txs_ok_lookup _ _ _ _ _ _ Hok Hi) as (_ & ? & _).
Qed.

Lemma good_coins w s s' c base : coins_eq s s' → tip s = tip s' → good w X s c base → good w X s' c base.
Proof. intros Hc Ht. by rewrite (good_proper w X s s' (conj Ht Hc) c c eq_refl base base eq_refl). Qed.

Lemma rollback_ok db N f hf fuel : ∀ p b s c base,
  σ !! p = Some b → nHeight b < Z.of_nat fuel → ancestor σ p hf = Some f → chain_stored p →
  good (Some db) X s c base → mixed N p s →
  ∃ s' c' base', rollback σ fuel (Some p) (Some f) c base = Ok (true, c', base') ∧ good (Some db) X s' c' base' ∧ mixed N f s'.
Proof.
  induction fuel as [|fuel IH]; intros p b s c base Hp Hf Ha Hc Hg Hm; [pose proof (lk_height σ Hl p b Hp); lia|]. cbn [rollback].
  case_bool_decide as Heq; [injection Heq as ->; by exists s, c, base|]. rewrite (deref_Ok _ _ _ Hp), bind_Ok.
  assert (hf < nHeight b) as Hlt.
  { unfold ancestor in Ha. rewrite Hp in Ha. cbn in Ha. case_decide; [|done]. destruct (decide (hf = nHeight b)) as [->|]; [|lia].
    rewrite Z.sub_diag in Ha. exfalso. apply Heq. exact Ha. }
  assert (0 ≤ hf) as H0 by (unfold ancestor in Ha; rewrite Hp in Ha; cbn in Ha; case_decide; [lia|done]).
  destruct (prev_exists σ Hl p b Hp ltac:(lia)) as (q & bq & Eq & Hq & Ehq). rewrite (proj2 (Z.ltb_lt _ _)) by lia. rewrite Eq.
  destruct (st_block p (Hc 0%nat p eq_refl) b q Hp Eq) as (vtx & -> & -> & Hok & Hne & Hlen & HX & Hco).
  pose proof (lk_height σ Hl p b Hp) as Hh. pose proof (chain_stored_prev p b q Hp Eq Hc) as Hcq.
  destruct (DisconnectBlock_good (Some db) X vtx (block_undo_data (nHeight b) true (ledger_of q) vtx) (nHeight b) p q s c base Hg HX)
    as (res & (c1 & b1 & -> & Hg1) & Hnf & _).
  - apply undo_data_fits; [done|lia|]. apply (st_restorable q (Hcq 0%nat q eq_refl)).
  - rewrite block_undo_data_length. destruct vtx; [done|]. cbn. lia.
  - done.
  - done.
  - rewrite bind_Ok, bind_Ok. rewrite bool_decide_false by done. cbn [negb].
    eapply (IH q bq); [done|lia|by rewrite <- (ancestor_prev σ Hl p b q hf)|done|exact Hg1|].
    intros o. apply (mixed_undo N (nHeight b) p q vtx s Hok Hco Hm o).
Qed.

Lemma roll_forward_ok db N T t n : ∀ a s c base,
  σ !! T = Some t → Z.of_nat n ≤ nHeight t → ancestor σ T (nHeight t - Z.of_nat n) = Some a → chain_stored T →
  good (Some db) X s c base → mixed N a s →
  ∃ s' c' base', roll_forward σ n (nHeight t - Z.of_nat n + 1) T c base = Ok (true, c', base') ∧ good (Some db) X s' c' base' ∧ mixed N T s'.
Proof.
  induction n as [|n IH]; intros a s c base HT Hn Ha Hc Hg Hm.
  { exists s, c, base. cbn in Ha |- *. rewrite Z.sub_0_r, (ancestor_self σ Hl T t HT) in Ha. injection Ha as ->. done. }
  cbn [roll_forward]. replace (nHeight t - Z.of_nat (S n) + 1) with (nHeight t - Z.of_nat n) by lia.
  rewrite (GetAncestor_ok σ Hl T t) by done. rewrite bind_Ok.
  destruct (ancestor_some σ Hl T t (nHeight t - Z.of_nat n) HT ltac:(lia)) as (x & bx & Ex & Hx & Ehx). rewrite Ex, (deref_Ok _ _ _ Hx), bind_Ok.
  destruct (prev_exists σ Hl x bx Hx ltac:(lia)) as (q & bq & Eq & Hq & Ehq).
  assert (q = a) as ->.
  { rewrite <- (ancestor_trans σ Hl T x (nHeight t - Z.of_nat n) _ Ex) in Ha by lia. rewrite (ancestor_prev σ Hl x bx q) in Ha by (done || lia).
    replace (nHeight t - Z.of_nat (S n)) with (nHeight bq) in Ha by lia. rewrite (ancestor_self σ Hl q bq Hq) in Ha. congruence. }
  destruct (st_block x (chain_stored_ancestor T _ x Hc Ex) bx a Hx Eq) as (vtx & -> & _ & Hok & _ & _ & HX & Hco).
  destruct (rollforward_coins_good (Some db) X vtx (nHeight bx) s c base Hg (txs_ok_outs _ _ _ _ Hok) HX) as (c1 & b1 & -> & Hg1). rewrite bind_Ok.
  eapply (IH x); [done|lia|done|done|exact Hg1|]. by apply (mixed_redo N (nHeight bx) x a vtx s Hco).
Qed.

(** What the database held before the interrupted write: the coins after the
    old tip, or those after the genesis block when there was no tip. *)
Definition old_state (old new : list Z) (old_coins : COutPoint → option Coin) : Prop :=
  (old ≠ null_hash ∧ is_Some (σ !! old) ∧ ancestor σ old 0 = ancestor σ new 0 ∧ chain_stored old ∧ ∀ o, old_coins o = coins_after old o) ∨
  (old = null_hash ∧ ∃ g, ancestor σ new 0 = Some g ∧ ∀ o, old_coins o = coins_after g o).

Lemma fork_point old new bo bn :
  σ !! old = Some bo → σ !! new = Some bn → ancestor σ old 0 = ancestor σ new 0 →
  ∃ f bf, LastCommonAncestor σ old new = Ok (Some f) ∧ σ !! f = Some bf ∧ nHeight bf ≤ nHeight bn ∧
    ancestor σ old (nHeight bf) = Some f ∧ ancestor σ new (nHeight bf) = Some f.
Proof.
  intros Ho Hn Hg. destruct (LastCommonAncestor_ok σ Hl old new bo bn Ho Hn) as (r & E & Hr).
  pose proof (lk_height σ Hl old bo Ho). pose proof (lk_height σ Hl new bn Hn). destruct r as [f|]; cbn in Hr.
  - destruct Hr as (h & Hle & Hh1 & Hh2 & _). destruct (ancestor_lookup σ Hl _ _ _ Hh1) as (bf & Hf & <-). exists f, bf. split_and!; try done. lia.
  - exfalso. apply (Hr 0); [lia|done].
Qed.

Lemma replay_tail full db s c base f bf new bn :
  σ !! new = Some bn → new ≠ null_hash → chain_stored new → σ !! f = Some bf → nHeight bf ≤ nHeight bn → ancestor σ new (nHeight bf) = Some f →
  (∀ h0 h1, db_GetHeadBlocks db = [h0; h1] → h0 = new) → good (Some db) X s c base → mixed (coins_after new) f s →
  ∃ c' base' c'' db', roll_forward σ (Z.to_nat (nHeight bn - nHeight bf)) (nHeight bf + 1) new c base = Ok (true, c', base') ∧
    Flush full (SetBestBlock c' new) base' = Ok (c'', ViewDB db') ∧ db_best_block db' = Some new ∧ db_head_blocks db' = None ∧
    ∀ o, db_coins db' !! o = coins_after new o.
Proof.
  intros Hn Hnull Hc Hf Hle Ha Hheads Hg Hm. pose proof (lk_height σ Hl f bf Hf).
  destruct (roll_forward_ok db (coins_after new) new bn (Z.to_nat (nHeight bn - nHeight bf)) f s c base Hn ltac:(lia)) as (s' & c' & b' & E & Hg' & Hm');
    [by replace (nHeight bn - _) with (nHeight bf) by lia|done..|].
  replace (nHeight bn - Z.of_nat _) with (nHeight bf) in E by lia. exists c', b'.
  pose proof (rd_base _ _ _ _ (gd_ready _ _ _ _ _ Hg') db eq_refl) as ->.
  destruct (set_tip_good (Some db) X s' c' (ViewDB db) Hg' new) as [Hv Hr Hx]; [done|].
  destruct (Flush_ok full (SetBestBlock c' new) (ViewDB db) Hv) as (b'' & EF & _ & Hco & _ & db' & -> & Hbest & Hhead).
  - split; [done|]. intros _. exact Hheads.
  - apply (ready_room (Some db) X _ (ViewDB db)); [done|lia].
  - eexists _, db'. split; [done|]. split; [exact EF|]. split; [done|]. split; [done|]. intros o.
    change (db_coins db' !! o) with (utxo (ViewDB db') o). rewrite Hco, (rp_coins _ _ _ Hr). cbn. by destruct (Hm' o).
Qed.

Lemma start_good db : Z.of_nat (size X + 2) < 2 ^ 64 → view_ok (ViewDB db) →
  good (Some db) X (mkLedger null_hash (λ o, db_coins db !! o)) (mkCache null_hash [] ∅ 0) (ViewDB db).
Proof.
  intros Hs Hv. split; [split; [apply empty_cache_ok|done]|split; [done|]; intros o; cbn; by rewrite lookup_empty|].
  split; [done|unfold touched; cbn; rewrite dom_empty_L; clear; set_solver|done|done|]. by intros db' [= ->].
Qed.

(** ** Properties *)


End recovery.
