(* ===== verification/Merkle.v ===== *)
(** Merkle trees of a block.

    [consensus/merkle.cpp]: the root with its duplicate check, and the
    constant-space computation of root and path; [SHA256D64] of
    [crypto/sha256.cpp] on the portable transform. The reference is the tree
    level by level. *)

From Stdlib Require Import ZArith Lia.
From stdpp Require Import base list numbers gmap tactics.
From S2P Require Import Prelude Sha256 Coins BlockUndo.
Import sha256 coins.

Open Scope Z_scope.

Abbreviation uint256 := (list Z).

Module merkle.

(** ** Hashing pairs *)
Definition padding1 : list Z := 0x80 :: replicate 61 0 ++ [2; 0].
Definition buffer2_tail : list Z := 0x80 :: replicate 29 0 ++ [1; 0].

Definition TransformD64Wrapper (input : list Z) : list Z :=
  let s := Transform Initialize input 1 in
  let s := Transform s padding1 1 in
  let buffer2 := hash_bytes s ++ buffer2_tail in
  hash_bytes (Transform Initialize buffer2 1).

(** No parallel transform available. *)
Fixpoint SHA256D64 (input : list Z) (blocks : nat) : list Z :=
  match blocks with
  | O => []
  | S blocks => TransformD64Wrapper (take 64 input) ++ SHA256D64 (drop 64 input) blocks
  end.

(** [Hash] of two hashes. *)
Definition Hash (in1 in2 : uint256) : uint256 := CHash256_Finalize (CHash256_Write (CHash256_Write CHash256_new in1) in2).

(** ** The root *)
Fixpoint has_equal_pair (hashes : list uint256) : bool :=
  match hashes with
  | a :: b :: hashes => bool_decide (a = b) || has_equal_pair hashes
  | _ => false
  end.

(** [n] hashes from a buffer of bytes. *)
Fixpoint read_hashes (n : nat) (bytes : list Z) : list uint256 :=
  match n with O => [] | S n => take 32 bytes :: read_hashes n (drop 32 bytes) end.

Fixpoint root_loop (fuel : nat) (hashes : list uint256) (mutation : bool) : result (list uint256 * bool) :=
  if (length hashes <=? 1)%nat then Ok (hashes, mutation)
  else
    match fuel with
    | O => Err EFuel
    | S fuel =>
        let mutation := mutation || has_equal_pair hashes in
        let hashes := if Nat.odd (length hashes) then hashes ++ [List.last hashes []] else hashes in
        let half := Nat.div2 (length hashes) in
        root_loop fuel (read_hashes half (SHA256D64 (concat hashes) half)) mutation
    end.

(** The root and whether the list was mutated. *)
Definition ComputeMerkleRoot (hashes : list uint256) : result (uint256 * bool) :=
  '(hashes, mutation) ← root_loop (length hashes) hashes false;
  Ok (match hashes with [] => null_hash | h :: _ => h end, mutation).

Definition BlockMerkleRoot (vtx : list CTransaction) : result (uint256 * bool) := ComputeMerkleRoot (tx_hash <$> vtx).

(** The witness hash of the coinbase counts as zero. *)
Definition BlockWitnessMerkleRoot (witness_hashes : list uint256) : result (uint256 * bool) :=
  match witness_hashes with
  | [] => Err EBounds
  | _ :: leaves => ComputeMerkleRoot (null_hash :: leaves)
  end.

(** ** Root and path in constant space *)
Record computation := mkComputation {
  inner : list uint256;
  matchlevel : Z;
  path : list uint256;
  mutated : bool;
}.

(** The steps over the zero bits of [count], then the store at [level]. *)
Fixpoint absorb (fuel : nat) (count level : Z) (h : uint256) (matchh : bool) (c : computation) : result computation :=
  if negb (Z.land count (u32 (Z.shiftl 1 level)) =? 0) then
    inner ← vset (inner c) level h;
    Ok (mkComputation inner (if matchh then level else matchlevel c) (path c) (mutated c))
  else
    match fuel with
    | O => Err EFuel
    | S fuel =>
        i ← vget (inner c) level;
        let '(path, matchh) :=
          if matchh then (path c ++ [i], true)
          else if matchlevel c =? level then (path c ++ [h], true)
          else (path c, false) in
        absorb fuel count (level + 1) (Hash i h) matchh
          (mkComputation (inner c) (matchlevel c) path (mutated c || bool_decide (i = h)))
    end.

Fixpoint absorb_leaves (leaves : list uint256) (count leaf_pos : Z) (c : computation) : result (computation * Z) :=
  match leaves with
  | [] => Ok (c, count)
  | h :: leaves =>
      let matchh := count =? leaf_pos in
      let count := u32 (count + 1) in
      c ← absorb 32 count 0 h matchh c;
      absorb_leaves leaves count leaf_pos c
  end.

Fixpoint lowest_level (fuel : nat) (count level : Z) : result Z :=
  if negb (Z.land count (u32 (Z.shiftl 1 level)) =? 0) then Ok level
  else match fuel with O => Err EFuel | S fuel => lowest_level fuel count (level + 1) end.

(** The propagation inside the sweep. *)
Fixpoint propagate_up (fuel : nat) (count level : Z) (h : uint256) (matchh : bool) (c : computation) :
    result (Z * uint256 * bool * computation) :=
  if negb (Z.land count (u32 (Z.shiftl 1 level)) =? 0) then Ok (level, h, matchh, c)
  else
    match fuel with
    | O => Err EFuel
    | S fuel =>
        i ← vget (inner c) level;
        let '(path, matchh) :=
          if matchh then (path c ++ [i], true)
          else if matchlevel c =? level then (path c ++ [h], true)
          else (path c, false) in
        propagate_up fuel count (level + 1) (Hash i h) matchh (mkComputation (inner c) (matchlevel c) path (mutated c))
    end.

Fixpoint sweep (fuel : nat) (count level : Z) (h : uint256) (matchh : bool) (c : computation) : result (uint256 * computation) :=
  if count =? u32 (Z.shiftl 1 level) then Ok (h, c)
  else
    match fuel with
    | O => Err EFuel
    | S fuel =>
        let c := if matchh then mkComputation (inner c) (matchlevel c) (path c ++ [h]) (mutated c) else c in
        let h := Hash h h in
        let count := u32 (count + u32 (Z.shiftl 1 level)) in
        '(level, h, matchh, c) ← propagate_up 32 count (level + 1) h matchh c;
        sweep fuel count level h matchh c
    end.

(** Root, mutation flag and path. *)
Definition MerkleComputation (leaves : list uint256) (leaf_pos : Z) : result (uint256 * bool * list uint256) :=
  if bool_decide (leaves = []) then Ok (null_hash, false, [])
  else
    '(c, count) ← absorb_leaves leaves 0 leaf_pos (mkComputation (replicate 32 null_hash) (-1) [] false);
    level ← lowest_level 32 count 0;
    h ← vget (inner c) level;
    '(h, c') ← sweep 32 count level h (matchlevel c =? level) c;
    Ok (h, mutated c', path c').

Definition ComputeMerklePath (leaves : list uint256) (position : Z) : result (list uint256) :=
  '(_, _, path) ← MerkleComputation leaves position; Ok path.

Definition TransactionMerklePath (vtx : list CTransaction) (position : Z) : result (list uint256) :=
  ComputeMerklePath (tx_hash <$> vtx) position.

End merkle.
Import merkle.

#[local] Opaque fips.schedule fips.compress transform_chunk.

(** ** Hashing a pair *)
Definition hash_pair (a b : uint256) : uint256 := sha256d (a ++ b).

Lemma sha256_64 m : length m = 64%nat → fips.sha256 m = hash_bytes (Transform (Transform Initialize m 1) padding1 1).
Proof.
  intros Hm. rewrite (Transform_compress_all (Transform Initialize m 1) padding1 1), (Transform_compress_all Initialize m 1). unfold fips.sha256.
  assert (fips.pad m = m ++ padding1) as ->.
  { unfold fips.pad, fips.zeros, zlen. rewrite Hm. f_equal. }
  rewrite length_app, Hm. change ((64 + length padding1) / 64)%nat with (1 + 1)%nat. by rewrite compress_all_app.
Qed.

Lemma sha256_32 m : length m = 32%nat → fips.sha256 m = hash_bytes (Transform Initialize (m ++ buffer2_tail) 1).
Proof.
  intros Hm. rewrite (Transform_compress_all Initialize (m ++ buffer2_tail) 1). unfold fips.sha256.
  assert (fips.pad m = m ++ buffer2_tail) as ->.
  { unfold fips.pad, fips.zeros, zlen. rewrite Hm. f_equal. }
  by rewrite length_app, Hm.
Qed.

Lemma TransformD64_ok a b : length a = 32%nat → length b = 32%nat → TransformD64Wrapper (a ++ b) = hash_pair a b.
Proof.
  intros Ha Hb. unfold TransformD64Wrapper, hash_pair, sha256d. rewrite (sha256_64 (a ++ b)) by (rewrite length_app; lia).
  by rewrite sha256_32 by apply length_hash_bytes.
Qed.

Lemma Hash_ok a b : Hash a b = hash_pair a b.
Proof.
  unfold Hash, hash_pair. apply CHash256_Finalize_fips. unfold CHash256_Write. apply sha_Write_represents.
  change a with ([] ++ a). apply sha_Write_represents, represents_new.
Qed.

#[local] Opaque TransformD64Wrapper Hash sha256d.

(** ** The tree, level by level *)
Fixpoint up (l : list uint256) : list uint256 :=
  match l with
  | a :: b :: l => hash_pair a b :: up l
  | [a] => [hash_pair a a]
  | [] => []
  end.

Fixpoint lev (d : nat) (l : list uint256) : list uint256 := match d with O => l | S d => lev d (up l) end.

Fixpoint mutated_below (d : nat) (l : list uint256) : bool :=
  match d with O => false | S d => has_equal_pair l || mutated_below d (up l) end.

Definition depth (l : list uint256) : nat := Nat.log2_up (length l).

Definition hashes_ok (l : list uint256) : Prop := Forall (λ h, length h = 32%nat) l.

Lemma length_up l : length (up l) = ((length l + 1) / 2)%nat.
Proof.
  induction l as [|a|a b l IH] using pair_ind; [done|done|]. cbn [up length]. rewrite IH.
  replace (S (S (length l)) + 1)%nat with (length l + 1 + 1 * 2)%nat by lia. rewrite Nat.div_add by lia. lia.
Qed.

Lemma hash_pair_length a b : length (hash_pair a b) = 32%nat.
Proof. apply sha256_length. Qed.

Lemma up_ok l : hashes_ok (up l).
Proof. induction l as [|a|a b l IH] using pair_ind; cbn; repeat constructor; try apply hash_pair_length; done. Qed.

Definition pad_odd (l : list uint256) : list uint256 := if Nat.odd (length l) then l ++ [List.last l []] else l.

Lemma pad_odd_cons a b l : pad_odd (a :: b :: l) = a :: b :: pad_odd l.
Proof.
  unfold pad_odd. change (Nat.odd (length (a :: b :: l))) with (Nat.odd (length l)).
  destruct (Nat.odd (length l)) eqn:E; [|done]. destruct l; [done|]. done.
Qed.

Lemma level_step l : hashes_ok l →
  let half := Nat.div2 (length (pad_odd l)) in read_hashes half (SHA256D64 (concat (pad_odd l)) half) = up l.
Proof.
  induction l as [|a|a b l IH] using pair_ind; intros Hl half.
  - done.
  - unfold hashes_ok in Hl. rewrite list.Forall_singleton in Hl. change (pad_odd [a]) with [a; a] in *. unfold half. cbn [length Nat.div2 concat SHA256D64 read_hashes up].
    rewrite (app_nil_r a), (take_ge (a ++ a)) by (rewrite length_app; lia). rewrite TransformD64_ok by done.
    by rewrite app_nil_r, take_ge by (rewrite hash_pair_length; lia).
  - apply list.Forall_cons in Hl as [Ha Hl]. apply list.Forall_cons in Hl as [Hb Hl]. cbv beta in Ha, Hb. unfold half. rewrite pad_odd_cons.
    cbn [length Nat.div2 concat SHA256D64 read_hashes up]. rewrite (app_assoc a b), (take_app_length' (a ++ b)) by (rewrite length_app; lia).
    rewrite (drop_app_length' (a ++ b)) by (rewrite length_app; lia). rewrite TransformD64_ok by done.
    rewrite take_app_length', drop_app_length' by (symmetry; apply hash_pair_length || apply hash_pair_length). f_equal. by apply IH.
Qed.

Lemma log2_up_half n : (2 ≤ n)%nat → Nat.log2_up n = S (Nat.log2_up ((n + 1) / 2)).
Proof.
  intros Hn. set (m := ((n + 1) / 2)%nat). assert (n ≤ 2 * m ∧ 2 * m ≤ n + 1)%nat as [H1 H2].
  { pose proof (Nat.div_mod_eq (n + 1) 2). pose proof (Nat.mod_upper_bound (n + 1) 2). unfold m. lia. }
  destruct (decide (m = 1)%nat) as [E|]; [rewrite E; by replace n with 2%nat by lia|].
  pose proof (Nat.log2_up_spec m ltac:(lia)) as [L1 L2]. apply Nat.log2_up_unique; [lia|]. cbn [Nat.pred]. rewrite Nat.pow_succ_r'.
  split; [|lia]. destruct (Nat.log2_up m) as [|k]; [cbn in *; lia|]. cbn [Nat.pred] in L1. rewrite Nat.pow_succ_r'. lia.
Qed.

Lemma depth_up l : (2 ≤ length l)%nat → depth l = S (depth (up l)).
Proof. intros Hl. unfold depth. rewrite length_up. by apply log2_up_half. Qed.

Lemma depth_small l : (length l ≤ 1)%nat → depth l = 0%nat.
Proof. intros Hl. unfold depth. by rewrite Nat.log2_up_eqn0. Qed.

Lemma root_loop_ok fuel : ∀ l m, hashes_ok l → (length l ≤ fuel)%nat ∨ (length l ≤ 1)%nat →
  root_loop fuel l m = Ok (lev (depth l) l, m || mutated_below (depth l) l).
Proof.
  induction fuel as [|fuel IH]; intros l m Hl Hf; cbn [root_loop]; destruct (Nat.leb_spec (length l) 1) as [H1|H1];
    try (rewrite depth_small by lia; cbn; by rewrite orb_false_r); [lia|].
  fold (pad_odd l). rewrite (level_step l Hl). rewrite IH.
  - rewrite (depth_up l) by lia. cbn [lev mutated_below]. by rewrite orb_assoc.
  - apply up_ok.
  - rewrite length_up. left. apply Nat.lt_succ_r, Nat.Div0.div_lt_upper_bound. lia.
Qed.

Lemma lev_length d : ∀ l, l ≠ [] → depth l = d → ∃ h, lev d l = [h].
Proof.
  induction d as [|d IH]; intros l Hl Hd; cbn [lev].
  - destruct l as [|a [|b l]]; [done|by exists a|]. rewrite depth_up in Hd by (cbn; lia). done.
  - destruct l as [|a [|b l]]; [done|done|]. apply IH; [by cbn|]. rewrite depth_up in Hd by (cbn; lia). by injection Hd.
Qed.

Lemma ComputeMerkleRoot_ok l : hashes_ok l → l ≠ [] →
  ∃ r, lev (depth l) l = [r] ∧ ComputeMerkleRoot l = Ok (r, mutated_below (depth l) l).
Proof.
  intros Hl Hne. destruct (lev_length (depth l) l Hne eq_refl) as [r Er]. exists r. split; [done|].
  unfold ComputeMerkleRoot. rewrite root_loop_ok by (auto with lia). by rewrite bind_Ok, Er.
Qed.

(** ** Roots bind their leaves *)
Definition collision : Prop := ∃ x y, x ≠ y ∧ sha256d x = sha256d y.

Lemma hash_pair_inj a b a' b' : length a = length a' → hash_pair a b = hash_pair a' b' → (a = a' ∧ b = b') ∨ collision.
Proof.
  intros Hl E. destruct (decide (a ++ b = a' ++ b')) as [Eq|Ne]; [left; by apply app_inj_1 in Eq|]. right. exists (a ++ b), (a' ++ b'). split; [exact Ne|exact E].
Qed.

Lemma cons_eq {A} (x y : A) l k : x :: l = y :: k → x = y ∧ l = k.
Proof. by intros [= -> ->]. Qed.

(** Equal levels have equal lists below them, unless one of them repeats its
    last pair. *)
Lemma up_inj l : ∀ l', hashes_ok l → hashes_ok l' → up l = up l' → has_equal_pair l = false → has_equal_pair l' = false → l = l' ∨ collision.
Proof.
  induction l as [|a|a b l IH] using pair_ind; intros l' Hl Hl' E Hm Hm'.
  - destruct l' as [|a' [|b' l']]; [by left|done|done].
  - unfold hashes_ok in Hl. rewrite list.Forall_singleton in Hl. destruct l' as [|a' [|b' [|c l']]]; [done| |..]; cbn in E.
    + apply list.Forall_cons in Hl' as [Hl' _]. apply cons_eq in E as [E _]. apply hash_pair_inj in E as [[-> _]|?]; [by left|by right|by rewrite Hl, Hl'].
    + apply list.Forall_cons in Hl' as [Hl' _]. apply cons_eq in E as [E _]. apply hash_pair_inj in E as [[-> <-]|?]; [|by right|by rewrite Hl, Hl'].
      cbn in Hm'. rewrite bool_decide_true in Hm' by done. done.
    + exfalso. apply cons_eq in E as [_ E]. destruct l'; discriminate E.
  - destruct l' as [|a' [|b' l']]; [done|..].
    + cbn in E. apply cons_eq in E as [E E2]. apply list.Forall_cons in Hl as [Hl _]. apply list.Forall_cons in Hl' as [Hl' _].
      assert (l = []) as -> by (destruct l as [|x [|y l]]; [reflexivity|discriminate E2|discriminate E2]).
      apply hash_pair_inj in E as [[-> ->]|?]; [|by right|by rewrite Hl, Hl']. cbn in Hm. by rewrite bool_decide_true in Hm.
    + apply list.Forall_cons in Hl as [Ha Hl]. apply list.Forall_cons in Hl as [_ Hl].
      apply list.Forall_cons in Hl' as [Ha' Hl']. apply list.Forall_cons in Hl' as [_ Hl']. cbn in E, Hm, Hm'. apply cons_eq in E as [E E2].
      apply orb_false_iff in Hm as [_ Hm]. apply orb_false_iff in Hm' as [_ Hm'].
      destruct (hash_pair_inj a b a' b' ltac:(by rewrite Ha, Ha') E) as [[-> ->]|?]; [|by right].
      destruct (IH l' Hl Hl' E2 Hm Hm') as [-> |?]; [by left|by right].
Qed.

Lemma lev_inj d : ∀ l l', hashes_ok l → hashes_ok l' → lev d l = lev d l' → mutated_below d l = false → mutated_below d l' = false → l = l' ∨ collision.
Proof.
  induction d as [|d IH]; intros l l' Hl Hl' E Hm Hm'; cbn in *; [by left|].
  apply orb_false_iff in Hm as [Hm1 Hm]. apply orb_false_iff in Hm' as [Hm1' Hm'].
  destruct (IH (up l) (up l') (up_ok l) (up_ok l') E Hm Hm') as [Eu|?]; [|by right]. by apply up_inj.
Qed.


(** ** The constant-space computation *)
Lemma lev_up d l : lev (S d) l = up (lev d l).
Proof. revert l. induction d as [|d IH]; intros l; [done|]. apply IH. Qed.

Lemma up_lookup l : ∀ i a, l !! (2 * i)%nat = Some a → up l !! i = Some (hash_pair a (default a (l !! S (2 * i)))).
Proof.
  induction l as [|x|x y l IH] using pair_ind; intros i a Ha; [done|..].
  - destruct i as [|i]; [by injection Ha as ->|]. by rewrite Nat.mul_succ_r, Nat.add_comm in Ha.
  - destruct i as [|i]; [by injection Ha as ->|]. replace (2 * S i)%nat with (S (S (2 * i))) in * by lia. exact (IH i a Ha).
Qed.

(** A test of one bit of a 32-bit word. *)
Lemma bit_test c d : (d < 32)%nat → (Z.land c (u32 (Z.shiftl 1 (Z.of_nat d))) =? 0) = negb (Z.odd (c / 2 ^ Z.of_nat d)).
Proof.
  intros Hd. rewrite Z.shiftl_1_l, u32_small.
  2: { pose proof (Z.pow_lt_mono_r 2 (Z.of_nat d) 32 ltac:(lia) ltac:(lia) ltac:(lia)). pose proof (Z.pow_pos_nonneg 2 (Z.of_nat d)). lia. }
  rewrite <- Z.shiftr_div_pow2, <- Z.bit0_odd, Z.shiftr_spec, Z.add_0_l by lia.
  assert (Z.land c (2 ^ Z.of_nat d) = if Z.testbit c (Z.of_nat d) then 2 ^ Z.of_nat d else 0) as ->.
  { apply Z.bits_inj'. intros k Hk. rewrite Z.land_spec, Z.pow2_bits_eqb by lia. destruct (Z.eqb_spec (Z.of_nat d) k) as [<-|Hne].
    - rewrite andb_true_r. destruct (Z.testbit c (Z.of_nat d)) eqn:E; [by rewrite Z.pow2_bits_true by lia|by rewrite Z.testbit_0_l].
    - rewrite andb_false_r. destruct (Z.testbit c (Z.of_nat d)); [by rewrite Z.pow2_bits_false by lia|by rewrite Z.testbit_0_l]. }
  pose proof (Z.pow_pos_nonneg 2 (Z.of_nat d) ltac:(lia) ltac:(lia)). destruct (Z.testbit c (Z.of_nat d)); cbn [negb]; [apply Z.eqb_neq; lia|done].
Qed.

Section computation.
Context (l : list uint256) (p : Z).
Let n := zlen l.
Hypothesis Hn : n ≤ 2 ^ 31.
Hypothesis Hp : 0 ≤ p < n.

Definition width (d : nat) : Z := zlen (lev d l).
Definition node (d : nat) (i : Z) (h : uint256) : Prop := 0 ≤ i ∧ lev d l !! Z.to_nat i = Some h.

Lemma width_S d : width (S d) = (width d + 1) / 2.
Proof. unfold width, zlen. rewrite lev_up, length_up, Nat2Z.inj_div, Nat2Z.inj_add. done. Qed.

Lemma width_bounds d : n ≤ width d * 2 ^ Z.of_nat d < n + 2 ^ Z.of_nat d.
Proof.
  induction d as [|d IH]; [unfold width, n; cbn; lia|]. rewrite width_S, Nat2Z.inj_succ, Z.pow_succ_r by lia.
  pose proof (Z.pow_pos_nonneg 2 (Z.of_nat d) ltac:(lia) ltac:(lia)). set (P := 2 ^ Z.of_nat d) in *. set (w := width d) in *.
  assert (w ≤ 2 * ((w + 1) / 2) ≤ w + 1) by divmod_lia. nia.
Qed.

Lemma node_bound d i h : node d i h → 0 ≤ i < width d.
Proof. intros [H0 Hi]. apply lookup_lt_Some in Hi. unfold width, zlen. lia. Qed.

Lemma node_exists d i : 0 ≤ i < width d → ∃ h, node d i h.
Proof. intros Hi. destruct (lookup_lt_is_Some_2 (lev d l) (Z.to_nat i)) as [h Hh]; [unfold width, zlen in Hi; lia|]. exists h. split; [lia|done]. Qed.

Lemma node_pair d i a b : node d (2 * i) a → node d (2 * i + 1) b → node (S d) i (hash_pair a b).
Proof.
  intros [H0 Ha] [_ Hb]. split; [lia|]. rewrite lev_up. replace (Z.to_nat (2 * i)) with (2 * Z.to_nat i)%nat in Ha by lia.
  replace (Z.to_nat (2 * i + 1)) with (S (2 * Z.to_nat i)) in Hb by lia. rewrite (up_lookup _ _ _ Ha), Hb. done.
Qed.

Lemma node_single d i a : node d (2 * i) a → width d ≤ 2 * i + 1 → node (S d) i (hash_pair a a).
Proof.
  intros [H0 Ha] Hw. split; [lia|]. rewrite lev_up. replace (Z.to_nat (2 * i)) with (2 * Z.to_nat i)%nat in Ha by lia.
  rewrite (up_lookup _ _ _ Ha), lookup_ge_None_2; [done|]. unfold width, zlen in Hw. lia.
Qed.

(** The sibling of the ancestor of [p] at a level; the last of an odd level is
    its own. *)
Definition sibling (d : nat) (h : uint256) : Prop :=
  let i := p / 2 ^ Z.of_nat d in
  node d (if Z.odd i then i - 1 else if i + 1 <? width d then i + 1 else i) h.

Definition siblings (path : list uint256) : Prop := ∀ d h, path !! d = Some h → sibling d h.

Lemma siblings_snoc path h : siblings path → sibling (length path) h → siblings (path ++ [h]).
Proof.
  intros Hs Hh d x. rewrite lookup_app. destruct (path !! d) as [y|] eqn:E; [intros [= <-]; by apply Hs|].
  apply lookup_ge_None in E. intros Hx. assert (d = length path) as ->; [|rewrite Nat.sub_diag in Hx; by injection Hx as <-].
  destruct (d - length path)%nat eqn:Ed; [lia|done].
Qed.

Lemma div_S x d : x / 2 ^ Z.of_nat (S d) = x / 2 ^ Z.of_nat d / 2.
Proof. rewrite Nat2Z.inj_succ, Z.pow_succ_r, Z.mul_comm, Z.div_div by lia. done. Qed.

(** The subtree over [p] is the last one at level [m] of the first [c] leaves. *)
Definition matched (c : Z) (m : nat) (path : list uint256) : Prop :=
  p / 2 ^ Z.of_nat m = c / 2 ^ Z.of_nat m - 1 ∧ length path = m ∧ siblings path.

(** The subtrees of the first [c] leaves, at the set bits of [c] from [d] up. *)
Definition inner_ok (c : Z) (d : nat) (inner : list uint256) : Prop :=
  length inner = 32%nat ∧ ∀ b, (d ≤ b)%nat → Z.odd (c / 2 ^ Z.of_nat b) = true → ∃ h, inner !! b = Some h ∧ node b (c / 2 ^ Z.of_nat b - 1) h.

(** Where the match is while [c] leaves are stored. *)
Definition stored_match (c : Z) (d : nat) (s : computation) : Prop :=
  if decide (p < c) then ∃ m, matchlevel s = Z.of_nat m ∧ (d ≤ m)%nat ∧ Z.odd (c / 2 ^ Z.of_nat m) = true ∧ matched c m (path s)
  else matchlevel s = -1 ∧ path s = [].
(** A multiple of [2 ^ d] and its predecessor. *)
Lemma pred_div c d : (c + 1) mod 2 ^ Z.of_nat d = 0 → c / 2 ^ Z.of_nat d = (c + 1) / 2 ^ Z.of_nat d - 1.
Proof.
  intros Hm. pose proof (Z.pow_pos_nonneg 2 (Z.of_nat d) ltac:(lia) ltac:(lia)) as HP. set (P := 2 ^ Z.of_nat d) in *.
  apply Z.div_exact in Hm; [|lia]. set (k := (c + 1) / P) in *. symmetry. apply (Z.div_unique c P (k - 1) (P - 1)); lia.
Qed.

Lemma pred_div_high c d b : (c + 1) mod 2 ^ Z.of_nat d = 0 → Z.odd ((c + 1) / 2 ^ Z.of_nat d) = true → (d < b)%nat →
  c / 2 ^ Z.of_nat b = (c + 1) / 2 ^ Z.of_nat b.
Proof.
  intros Hm Ho Hb. induction b as [|b IH]; [lia|]. rewrite !div_S. destruct (decide (b = d)) as [->|].
  - rewrite (pred_div c d Hm). rewrite Z.odd_spec in Ho. destruct Ho as [k ->].
    rewrite <- (Z.div_unique (2 * k + 1 - 1) 2 k 0), <- (Z.div_unique (2 * k + 1) 2 k 1); lia.
  - rewrite IH by lia. done.
Qed.

Lemma mod_S c d : c mod 2 ^ Z.of_nat d = 0 → Z.odd (c / 2 ^ Z.of_nat d) = false → c mod 2 ^ Z.of_nat (S d) = 0.
Proof.
  intros Hm Ho. pose proof (Z.pow_pos_nonneg 2 (Z.of_nat d) ltac:(lia) ltac:(lia)) as HP. apply Z.div_exact in Hm; [|lia].
  rewrite <- Z.negb_even, negb_false_iff, Z.even_spec in Ho. destruct Ho as [k Hk]. rewrite Nat2Z.inj_succ, Z.pow_succ_r by lia.
  rewrite Hm, Hk. replace (2 ^ Z.of_nat d * (2 * k)) with (k * (2 * 2 ^ Z.of_nat d)) by lia. apply Z_mod_mult.
Qed.

Lemma level_bound c d : 0 < c ≤ 2 ^ 31 → c mod 2 ^ Z.of_nat d = 0 → (d < 32)%nat ∧ 1 ≤ c / 2 ^ Z.of_nat d.
Proof.
  intros Hc Hm. pose proof (Z.pow_pos_nonneg 2 (Z.of_nat d) ltac:(lia) ltac:(lia)) as HP. apply Z.div_exact in Hm; [|lia].
  assert (1 ≤ c / 2 ^ Z.of_nat d) by nia. split; [|done]. assert (2 ^ Z.of_nat d ≤ 2 ^ 31) as Hle by nia.
  apply Z.pow_le_mono_r_iff in Hle; lia.
Qed.

(** The pair that is hashed at a zero bit, and the match that follows. *)
Lemma match_step (c : Z) (d : nat) (s : computation) (i h : uint256) (matchh : bool) :
  (c + 1) mod 2 ^ Z.of_nat d = 0 → Z.odd ((c + 1) / 2 ^ Z.of_nat d) = false → (c + 1) / 2 ^ Z.of_nat d ≤ width d →
  node d ((c + 1) / 2 ^ Z.of_nat d - 2) i → node d ((c + 1) / 2 ^ Z.of_nat d - 1) h →
  (if matchh then matched (c + 1) d (path s) else p ≠ c ∧ stored_match c d s) →
  let '(path', matchh') := if matchh then (path s ++ [i], true) else if matchlevel s =? Z.of_nat d then (path s ++ [h], true) else (path s, false) in
  if (matchh' : bool) then matched (c + 1) (S d) path'
  else p ≠ c ∧ stored_match c (S d) (mkComputation (inner s) (matchlevel s) path' (mutated s || bool_decide (i = h))).
Proof.
  intros Hm Ho Hw Hi Hh Hs. pose proof (pred_div c d Hm) as Hpd. unfold matched. rewrite !div_S. set (k := (c + 1) / 2 ^ Z.of_nat d) in *.
  rewrite <- Z.negb_even, negb_false_iff, Z.even_spec in Ho. destruct Ho as [j Hj]. rewrite Hj in *.
  assert (2 * j / 2 - 1 = j - 1) as -> by divmod_lia.
  destruct matchh.
  - destruct Hs as (Hpk & Hl & Hsib). fold k in Hpk. rewrite Hj in Hpk. rewrite Hpk. split; [divmod_lia|]. split; [rewrite length_app; cbn; lia|].
    apply siblings_snoc; [done|]. rewrite Hl. unfold sibling. rewrite Hpk. replace (2 * j - 1) with (1 + 2 * (j - 1)) by lia. rewrite Z.odd_add_mul_2.
    cbn [Z.odd]. by replace (1 + 2 * (j - 1) - 1) with (2 * j - 2) by lia.
  - destruct Hs as [Hne Hs]. unfold stored_match in *. cbn [matchlevel path]. destruct (decide (p < c)) as [Hlt|].
    2: { destruct Hs as [-> ->]. destruct (Z.eqb_spec (-1) (Z.of_nat d)); [lia|]. done. }
    destruct Hs as (m & -> & Hdm & Hodd & Hpm & Hl & Hsib). destruct (Z.eqb_spec (Z.of_nat m) (Z.of_nat d)) as [E|E].
    + apply Nat2Z.inj in E as ->. rewrite Hpd in Hpm. rewrite Hpm. split; [divmod_lia|]. split; [rewrite length_app; cbn; lia|].
      apply siblings_snoc; [done|]. rewrite Hl. unfold sibling. rewrite Hpm. replace (2 * j - 1 - 1) with (0 + 2 * (j - 1)) by lia. rewrite Z.odd_add_mul_2.
      cbn [Z.odd]. rewrite (proj2 (Z.ltb_lt _ _)) by lia. by replace (0 + 2 * (j - 1) + 1) with (2 * j - 1) by lia.
    + split; [done|]. exists m. split; [done|]. split; [lia|]. split; [done|]. by split.
Qed.

Lemma absorb_ok fuel : ∀ (c : Z) (d : nat) (h : uint256) (matchh : bool) (s : computation),
  0 ≤ c < n → (c + 1) mod 2 ^ Z.of_nat d = 0 → (32 ≤ fuel + d)%nat →
  node d ((c + 1) / 2 ^ Z.of_nat d - 1) h → inner_ok c d (inner s) →
  (if matchh then matched (c + 1) d (path s) else p ≠ c ∧ stored_match c d s) →
  ∃ s', absorb fuel (c + 1) (Z.of_nat d) h matchh s = Ok s' ∧ inner_ok (c + 1) 0 (inner s') ∧ stored_match (c + 1) 0 s'.
Proof.
  induction fuel as [|fuel IH]; intros c d h matchh s Hc Hm Hf Hh Hin Hs; destruct (level_bound (c + 1) d ltac:(lia) Hm) as [Hd Hk]; [lia|].
  cbn [absorb]. rewrite bit_test, negb_involutive by done. pose proof (node_bound _ _ _ Hh) as Hb.
  destruct (Z.odd ((c + 1) / 2 ^ Z.of_nat d)) eqn:Ho.
  - destruct Hin as [Hlen Hin]. rewrite vset_Ok by (unfold zlen; lia). rewrite bind_Ok. eexists. split; [done|]. cbn [inner]. rewrite Nat2Z.id. split.
    + split; [by rewrite length_insert|]. intros b _ Hob. destruct (decide (b = d)) as [->|Hne].
      { exists h. split; [by apply list_lookup_insert_eq; lia|done]. }
      destruct (decide (b < d)%nat) as [Hlt|].
      { exfalso. assert ((c + 1) / 2 ^ Z.of_nat b = 2 * ((c + 1) / 2 ^ Z.of_nat d * 2 ^ Z.of_nat (d - b - 1))) as E.
        { apply Z.div_exact in Hm; [|pose proof (Z.pow_pos_nonneg 2 (Z.of_nat d)); lia]. rewrite Hm at 1.
          replace (Z.of_nat d) with (1 + Z.of_nat (d - b - 1) + Z.of_nat b) at 1 by lia. rewrite !Z.pow_add_r by lia.
          rewrite <- Z.mul_assoc, (Z.mul_comm (2 ^ Z.of_nat b)), !Z.mul_assoc, Z.div_mul by (pose proof (Z.pow_pos_nonneg 2 (Z.of_nat b)); lia). lia. }
        rewrite E, Z.odd_mul in Hob. done. }
      rewrite list_lookup_insert_ne by lia. rewrite <- (pred_div_high c d b Hm Ho ltac:(lia)) in Hob |- *. apply Hin; [lia|done].
    + unfold stored_match. cbn [matchlevel path]. destruct matchh.
      * rewrite decide_True; [by exists d; split_and!; [|lia|..]|]. destruct Hs as (Hpd & _).
        pose proof (Z.pow_pos_nonneg 2 (Z.of_nat d) ltac:(lia) ltac:(lia)). apply Z.div_exact in Hm; [|lia].
        pose proof (Z.mul_succ_div_gt p (2 ^ Z.of_nat d) ltac:(lia)). nia.
      * destruct Hs as [Hne Hs]. unfold stored_match in Hs. destruct (decide (p < c)); [|by rewrite decide_False by lia]. rewrite decide_True by lia.
        destruct Hs as (m & -> & Hdm & Hodd & Hpm). assert (m ≠ d) as Hmd.
        { intros ->. rewrite (pred_div c d Hm) in Hodd. rewrite Z.odd_sub, Ho in Hodd. done. }
        assert (d < m)%nat as Hlt by lia. pose proof (pred_div_high c d m Hm Ho Hlt) as Hpd. unfold matched in *. rewrite Hpd in Hodd, Hpm. by exists m; split_and!; [|lia|..]; try apply Hpm.
  - destruct Hin as [Hlen Hin]. destruct (Hin d ltac:(lia)) as (i & Ei & Hi); [by rewrite (pred_div c d Hm), Z.odd_sub, Ho|].
    rewrite (vget_nat _ _ _ Ei), bind_Ok. rewrite (pred_div c d Hm) in Hi. replace (_ - 1 - 1) with ((c + 1) / 2 ^ Z.of_nat d - 2) in Hi by lia.
    pose proof (match_step c d s i h matchh Hm Ho ltac:(lia) Hi Hh Hs) as Hstep.
    assert (node (S d) ((c + 1) / 2 ^ Z.of_nat (S d) - 1) (Hash i h)) as Hnext.
    { rewrite Hash_ok, div_S. rewrite <- Z.negb_even, negb_false_iff, Z.even_spec in Ho. destruct Ho as [j Hj]. rewrite Hj in *.
      replace (2 * j / 2 - 1) with (j - 1) by divmod_lia. apply node_pair; [by replace (2 * (j - 1)) with (2 * j - 2) by lia|by replace (2 * (j - 1) + 1) with (2 * j - 1) by lia]. }
    replace (Z.of_nat d + 1) with (Z.of_nat (S d)) by lia. destruct (if matchh then _ else _) as [path' matchh'].
    apply IH; [done|by apply mod_S|lia|done| |exact Hstep]. split; [done|]. intros b Hb'. apply Hin. lia.
Qed.

Lemma absorb_leaves_ok k : ∀ c s, (k + c = length l)%nat → inner_ok (Z.of_nat c) 0 (inner s) → stored_match (Z.of_nat c) 0 s →
  ∃ s', absorb_leaves (drop c l) (Z.of_nat c) p s = Ok (s', n) ∧ inner_ok n 0 (inner s') ∧ stored_match n 0 s'.
Proof.
  induction k as [|k IH]; intros c s Hk Hin Hs.
  { rewrite drop_ge by lia. exists s. unfold n, zlen. by replace (length l) with c by lia. }
  destruct (lookup_lt_is_Some_2 l c ltac:(lia)) as [h Eh]. rewrite (drop_S _ _ _ Eh). cbn [absorb_leaves].
  assert (u32 (Z.of_nat c + 1) = Z.of_nat c + 1) as -> by (apply u32_small; unfold n, zlen in Hn; lia).
  destruct (absorb_ok 32 (Z.of_nat c) 0 h (Z.of_nat c =? p) s) as (s1 & E1 & Hin1 & Hs1).
  - unfold n, zlen. lia.
  - by rewrite Z.pow_0_r, Z.mod_1_r.
  - lia.
  - rewrite Z.pow_0_r, Z.div_1_r. split; [lia|]. replace (Z.to_nat (Z.of_nat c + 1 - 1)) with c by lia. exact Eh.
  - done.
  - destruct (Z.eqb_spec (Z.of_nat c) p) as [E|E]; [|by split]. unfold stored_match in Hs. rewrite decide_False in Hs by lia. destruct Hs as [_ ->].
    unfold matched. rewrite Z.pow_0_r, !Z.div_1_r. split; [lia|]. split; [done|]. intros d x. by rewrite lookup_nil.
  - change (Z.of_nat 0) with 0 in E1. rewrite E1, bind_Ok. replace (Z.of_nat c + 1) with (Z.of_nat (S c)) in * by lia. apply IH; [lia|done|done].
Qed.

Lemma lowest_level_ok fuel : ∀ d, n mod 2 ^ Z.of_nat d = 0 → 0 < n → (32 ≤ fuel + d)%nat →
  ∃ d', lowest_level fuel n (Z.of_nat d) = Ok (Z.of_nat d') ∧ n mod 2 ^ Z.of_nat d' = 0 ∧ Z.odd (n / 2 ^ Z.of_nat d') = true.
Proof.
  induction fuel as [|fuel IH]; intros d Hm H0 Hf; destruct (level_bound n d ltac:(lia) Hm) as [Hd _]; [lia|].
  cbn [lowest_level]. rewrite bit_test, negb_involutive by done. destruct (Z.odd (n / 2 ^ Z.of_nat d)) eqn:Ho; [by exists d|].
  replace (Z.of_nat d + 1) with (Z.of_nat (S d)) by lia. apply IH; [by apply mod_S|done|lia].
Qed.

(** Where the match is during the sweep at level [d]. *)
Definition swept (d lowest : nat) (matchh : bool) (s : computation) : Prop :=
  if matchh then p / 2 ^ Z.of_nat d = width d - 1 ∧ length (path s) = d ∧ siblings (path s)
  else ∃ m, matchlevel s = Z.of_nat m ∧ (lowest ≤ m)%nat ∧ Z.odd (n / 2 ^ Z.of_nat m) = true ∧ matched n m (path s).

Lemma width_ragged d : n mod 2 ^ Z.of_nat d ≠ 0 → width d = n / 2 ^ Z.of_nat d + 1.
Proof.
  intros Hm. pose proof (width_bounds d) as Hw. pose proof (Z.pow_pos_nonneg 2 (Z.of_nat d) ltac:(lia) ltac:(lia)) as HP.
  set (P := 2 ^ Z.of_nat d) in *. pose proof (Z.div_mod n P ltac:(lia)). pose proof (Z.mod_pos_bound n P HP). set (q := n / P) in *. nia.
Qed.

Lemma small_level d : 2 ^ Z.of_nat d < 2 * n → (d < 32)%nat.
Proof.
  intros H. assert (2 ^ Z.of_nat d < 2 ^ 32) as H' by lia. apply Z.pow_lt_mono_r_iff in H'; lia.
Qed.

Lemma count_div d : width d * 2 ^ Z.of_nat d / 2 ^ Z.of_nat d = width d.
Proof. apply Z.div_mul. pose proof (Z.pow_pos_nonneg 2 (Z.of_nat d)). lia. Qed.

Lemma ragged_S d : n mod 2 ^ Z.of_nat d ≠ 0 → n mod 2 ^ Z.of_nat (S d) ≠ 0.
Proof.
  intros Hm H. apply Hm. pose proof (Z.pow_pos_nonneg 2 (Z.of_nat d) ltac:(lia) ltac:(lia)).
  rewrite Nat2Z.inj_succ, Z.pow_succ_r in H by lia. apply Z.mod_divide in H as [k Hk]; [|lia]. apply Z.mod_divide; [lia|]. exists (k * 2). lia.
Qed.

Lemma propagate_up_ok count fuel : ∀ (d : nat) (h : uint256) (matchh : bool) (s : computation),
  count = width d * 2 ^ Z.of_nat d → n mod 2 ^ Z.of_nat d ≠ 0 → 2 ^ Z.of_nat d < 2 * n → (32 ≤ fuel + d)%nat →
  node d (width d - 1) h → inner_ok n 0 (inner s) → swept d d matchh s →
  ∃ d' h' matchh' s', propagate_up fuel count (Z.of_nat d) h matchh s = Ok (Z.of_nat d', h', matchh', s') ∧ (d ≤ d')%nat ∧
    count = width d' * 2 ^ Z.of_nat d' ∧ Z.odd (width d') = true ∧ 2 ^ Z.of_nat d' < 2 * n ∧ node d' (width d' - 1) h' ∧
    inner_ok n 0 (inner s') ∧ swept d' (S d') matchh' s'.
Proof.
  induction fuel as [|fuel IH]; intros d h matchh s Hc Hm Hd Hf Hh Hin Hs; pose proof (small_level d Hd) as Hd32; [lia|].
  cbn [propagate_up]. rewrite bit_test, negb_involutive by done. assert (count / 2 ^ Z.of_nat d = width d) as Ecd by (rewrite Hc; apply count_div). rewrite Ecd. clear Ecd.
  pose proof (width_ragged d Hm) as Hw. destruct (Z.odd (width d)) eqn:Ho.
  - exists d, h, matchh, s. split_and!; try done. unfold swept in *. destruct matchh; [done|]. destruct Hs as (m & Em & Hdm & Hom & Hmm).
    exists m. split_and!; try done. destruct (decide (m = d)) as [->|]; [|lia]. exfalso. rewrite Hw, Z.odd_add, Hom in Ho. done.
  - pose proof Hin as [Hlen Hin']. assert (Z.odd (n / 2 ^ Z.of_nat d) = true) as Hon by (rewrite Hw, Z.odd_add in Ho; by destruct (Z.odd (n / _))).
    destruct (Hin' d ltac:(lia) Hon) as (i & Ei & Hi). rewrite (vget_nat _ _ _ Ei), bind_Ok.
    rewrite <- Z.negb_even, negb_false_iff, Z.even_spec in Ho. destruct Ho as [j Hj].
    assert (width (S d) = j) as Hws by (rewrite width_S, Hj; divmod_lia).
    assert (node (S d) (width (S d) - 1) (Hash i h)) as Hnext.
    { rewrite Hash_ok, Hws. apply node_pair; [by replace (2 * (j - 1)) with (n / 2 ^ Z.of_nat d - 1) by lia|by replace (2 * (j - 1) + 1) with (width d - 1) by lia]. }
    assert (p / 2 ^ Z.of_nat d = width d - 1 → p / 2 ^ Z.of_nat (S d) = width (S d) - 1) as Hup1 by (rewrite div_S, Hws, Hj; intros ->; divmod_lia).
    assert (p / 2 ^ Z.of_nat d = n / 2 ^ Z.of_nat d - 1 → p / 2 ^ Z.of_nat (S d) = width (S d) - 1) as Hup2 by (rewrite div_S, Hws; intros ->; divmod_lia).
    assert (width (S d) * 2 ^ Z.of_nat (S d) = count) as Hcs by (rewrite Hws, Nat2Z.inj_succ, Z.pow_succ_r, Hc, Hj by lia; lia).
    pose proof (node_bound _ _ _ Hi) as Hib. pose proof (Z.pow_pos_nonneg 2 (Z.of_nat d) ltac:(lia) ltac:(lia)) as HP.
    replace (Z.of_nat d + 1) with (Z.of_nat (S d)) by lia.
    assert (∃ path' matchh', (if matchh then (path s ++ [i], true) else if matchlevel s =? Z.of_nat d then (path s ++ [h], true) else (path s, false)) = (path', matchh') ∧
      swept (S d) (S d) matchh' (mkComputation (inner s) (matchlevel s) path' (mutated s))) as (path' & matchh' & -> & Hs').
    { unfold swept in Hs. destruct matchh.
      - destruct Hs as (Hpd & Hl & Hsib). eexists _, true. split; [done|]. split; [by apply Hup1|]. cbn [path]. split; [rewrite length_app; cbn; lia|].
        apply siblings_snoc; [done|]. rewrite Hl. unfold sibling. rewrite Hpd. replace (Z.odd (width d - 1)) with true by (by rewrite Hj, Z.odd_sub, Z.odd_mul).
        by replace (width d - 1 - 1) with (n / 2 ^ Z.of_nat d - 1) by lia.
      - destruct Hs as (m & Em & Hdm & Hom & Hpm & Hl & Hsib). destruct (Z.eqb_spec (matchlevel s) (Z.of_nat d)) as [E|E].
        + assert (m = d) as -> by lia. eexists _, true. split; [done|]. split; [by apply Hup2|]. cbn [path]. split; [rewrite length_app; cbn; lia|].
          apply siblings_snoc; [done|]. rewrite Hl. unfold sibling. rewrite Hpm. replace (Z.odd (n / 2 ^ Z.of_nat d - 1)) with false by (by rewrite Z.odd_sub, Hon).
          rewrite (proj2 (Z.ltb_lt _ _)) by lia. by replace (n / 2 ^ Z.of_nat d - 1 + 1) with (width d - 1) by lia.
        + eexists _, false. split; [done|]. exists m. cbn [matchlevel path]. split_and!; try done. lia. }
    destruct (IH (S d) (Hash i h) matchh' (mkComputation (inner s) (matchlevel s) path' (mutated s))) as (d' & h' & mh' & s' & E & Hle & Hrest).
    + by rewrite Hcs.
    + by apply ragged_S.
    + rewrite Nat2Z.inj_succ, Z.pow_succ_r by lia. pose proof (Z.mul_div_le n (2 ^ Z.of_nat d) HP). destruct (Z.eq_dec (n / 2 ^ Z.of_nat d) 1) as [E1|]; [|nia].
      assert (n ≠ 2 ^ Z.of_nat d) by (intros E; apply Hm; rewrite E; apply Z_mod_same_full). nia.
    + lia.
    + done.
    + done.
    + done.
    + exists d', h', mh', s'. split; [exact E|]. split; [lia|exact Hrest].
Qed.

Lemma top_level d h : width d = 1 → 2 ^ Z.of_nat d < 2 * n → node d 0 h → depth l = d ∧ lev (depth l) l = [h].
Proof.
  intros Hw Hd [_ Hh]. assert (depth l = d) as Hdep.
  { pose proof (width_bounds d) as [Hb _]. rewrite Hw, Z.mul_1_l in Hb. unfold depth, n, zlen in *. destruct d as [|d].
    - replace (length l) with 1%nat; [done|]. assert (Z.of_nat (length l) ≤ 1) by exact Hb. lia.
    - rewrite Nat2Z.inj_succ, Z.pow_succ_r in Hd by lia. apply Nat.log2_up_unique; [lia|]. cbn [Nat.pred].
      split; [apply Nat2Z.inj_lt|apply Nat2Z.inj_le]; rewrite Nat2Z.inj_pow; change (Z.of_nat 2) with 2; lia. }
  split; [done|]. rewrite Hdep. unfold width, zlen in Hw. destruct (lev d l) as [|x [|y k]]; cbn in Hw; [lia| |lia]. by injection Hh as ->.
Qed.

Lemma sweep_ok fuel : ∀ (d : nat) (h : uint256) (matchh : bool) (s : computation),
  Z.odd (width d) = true → 2 ^ Z.of_nat d < 2 * n → (32 ≤ fuel + d)%nat → node d (width d - 1) h → inner_ok n 0 (inner s) → swept d (S d) matchh s →
  ∃ h' s', sweep fuel (width d * 2 ^ Z.of_nat d) (Z.of_nat d) h matchh s = Ok (h', s') ∧ lev (depth l) l = [h'] ∧
    length (path s') = depth l ∧ siblings (path s').
Proof.
  induction fuel as [|fuel IH]; intros d h matchh s Ho Hd Hf Hh Hin Hs; pose proof (small_level d Hd) as Hd32; [lia|].
  pose proof (Z.pow_pos_nonneg 2 (Z.of_nat d) ltac:(lia) ltac:(lia)) as HP. pose proof (width_bounds d) as Hwb. pose proof (node_bound _ _ _ Hh) as Hb.
  cbn [sweep]. rewrite Z.shiftl_1_l.
  assert (u32 (2 ^ Z.of_nat d) = 2 ^ Z.of_nat d) as Eu by (apply u32_small; pose proof (Z.pow_lt_mono_r 2 (Z.of_nat d) 32 ltac:(lia) ltac:(lia) ltac:(lia)); lia).
  rewrite Eu. destruct (Z.eqb_spec (width d * 2 ^ Z.of_nat d) (2 ^ Z.of_nat d)) as [E|E].
  - assert (width d = 1) as Hw by nia. rewrite Hw in Hh. destruct (top_level d h Hw Hd Hh) as [Hdep Htop]. exists h, s. split; [done|]. split; [done|].
    rewrite Hdep. unfold swept in Hs. destruct matchh; [by destruct Hs as (_ & ? & ?)|]. exfalso. destruct Hs as (m & _ & Hm & Hom & _).
    rewrite Z.div_small in Hom; [done|]. split; [lia|]. pose proof (Z.pow_lt_mono_r 2 (Z.of_nat d) (Z.of_nat m) ltac:(lia) ltac:(lia) ltac:(lia)). nia.
  - assert (1 < width d) as Hw1 by nia. rewrite Z.odd_spec in Ho. destruct Ho as [j Hj].
    assert (width (S d) = j + 1) as Hws by (rewrite width_S, Hj; divmod_lia).
    assert (2 ^ Z.of_nat (S d) = 2 * 2 ^ Z.of_nat d) as HPS by (rewrite Nat2Z.inj_succ, Z.pow_succ_r by lia; lia).
    assert (1 ≤ j) as Hj1 by lia. assert (2 ^ Z.of_nat (S d) < n) as Hsmall by (rewrite HPS; rewrite Hj in Hwb; nia).
    assert (u32 (width d * 2 ^ Z.of_nat d + 2 ^ Z.of_nat d) = width (S d) * 2 ^ Z.of_nat (S d)) as ->.
    { pose proof (width_bounds (S d)). rewrite u32_small; [rewrite Hws, HPS, Hj; lia|]. split; [lia|].
      replace (width d * 2 ^ Z.of_nat d + 2 ^ Z.of_nat d) with (width (S d) * 2 ^ Z.of_nat (S d)) by (rewrite Hws, HPS, Hj; lia). lia. }
    replace (Z.of_nat d + 1) with (Z.of_nat (S d)) by lia. set (s1 := if matchh then _ else s).
    destruct (propagate_up_ok (width (S d) * 2 ^ Z.of_nat (S d)) 32 (S d) (Hash h h) matchh s1) as (d' & h' & mh' & s' & -> & Hle & -> & Hodd & Hd' & Hh' & Hin' & Hs').
    + done.
    + intros Hm. apply Z.mod_divide in Hm as [k Hk]; [|lia]. rewrite HPS in Hk. rewrite Hk, Hj in Hwb.
      assert (2 * k ≤ 2 * j + 1) by nia. assert (2 * j + 1 < 2 * k + 1) by nia. lia.
    + lia.
    + lia.
    + rewrite Hash_ok, Hws. replace (j + 1 - 1) with j by lia. apply node_single; [by replace (2 * j) with (width d - 1) by lia|lia].
    + by unfold s1; destruct matchh.
    + unfold s1, swept in *. destruct matchh; [|done]. destruct Hs as (Hpd & Hl & Hsib). split; [rewrite div_S, Hpd, Hws, Hj; divmod_lia|].
      cbn [path]. split; [rewrite length_app; cbn; lia|]. apply siblings_snoc; [done|]. rewrite Hl. unfold sibling. rewrite Hpd, Hj.
      replace (2 * j + 1 - 1) with (0 + 2 * j) by lia. rewrite Z.odd_add_mul_2. cbn [Z.odd]. rewrite (proj2 (Z.ltb_ge _ _)) by lia.
      by replace (0 + 2 * j) with (width d - 1) by lia.
    + rewrite bind_Ok. apply IH; [done|done|lia|done|done|done].
Qed.

Lemma MerkleComputation_ok : ∃ root m path, MerkleComputation l p = Ok (root, m, path) ∧ lev (depth l) l = [root] ∧ length path = depth l ∧ siblings path.
Proof.
  unfold MerkleComputation. rewrite bool_decide_false by (intros E; subst l; unfold n, zlen in Hp; cbn in Hp; lia).
  destruct (absorb_leaves_ok (length l) 0 (mkComputation (replicate 32 null_hash) (-1) [] false) ltac:(lia)) as (s & E & Hin & Hs).
  - split; [done|]. intros b _ Hb. change (Z.of_nat 0) with 0 in Hb. rewrite Z.div_0_l in Hb by (pose proof (Z.pow_pos_nonneg 2 (Z.of_nat b)); lia). done.
  - unfold stored_match. rewrite decide_False by lia. done.
  - rewrite drop_0 in E. change (Z.of_nat 0) with 0 in E. rewrite E, bind_Ok.
    destruct (lowest_level_ok 32 0 ltac:(by rewrite Z.mod_1_r) ltac:(lia) ltac:(lia)) as (d & Ed & Hm & Ho). change (Z.of_nat 0) with 0 in Ed. rewrite Ed, bind_Ok.
    pose proof Hin as [_ Hin']. destruct (Hin' d ltac:(lia) Ho) as (h & Eh & Hh). rewrite (vget_nat _ _ _ Eh), bind_Ok.
    destruct (level_bound n d ltac:(lia) Hm) as [Hd Hk]. pose proof (Z.pow_pos_nonneg 2 (Z.of_nat d) ltac:(lia) ltac:(lia)) as HP.
    apply Z.div_exact in Hm as En; [|lia].
    assert (width d = n / 2 ^ Z.of_nat d) as Hw by (pose proof (width_bounds d); nia).
    destruct (sweep_ok 32 d h (matchlevel s =? Z.of_nat d) s) as (r & s' & Er & Htop & Hlen & Hsib).
    + by rewrite Hw.
    + nia.
    + lia.
    + by rewrite Hw.
    + done.
    + unfold stored_match in Hs. rewrite decide_True in Hs by lia. destruct Hs as (m & Em & _ & Hom & Hmm). unfold swept.
      destruct (Z.eqb_spec (matchlevel s) (Z.of_nat d)) as [E1|E1]; [assert (m = d) as -> by lia; destruct Hmm as (H1 & H2 & H3); rewrite Hw; done|].
      exists m. split_and!; try done. destruct (decide (m < d)%nat) as [Hlt|]; [|lia]. exfalso.
      rewrite En in Hom. replace (Z.of_nat d) with (1 + Z.of_nat (d - m - 1) + Z.of_nat m) in Hom at 1 by lia. rewrite !Z.pow_add_r in Hom by lia.
      rewrite <- Z.mul_assoc, (Z.mul_comm (2 ^ Z.of_nat m)), !Z.mul_assoc, Z.div_mul in Hom by (pose proof (Z.pow_pos_nonneg 2 (Z.of_nat m)); lia).
      rewrite <- Z.mul_assoc, Z.odd_mul in Hom. done.
    + assert (width d * 2 ^ Z.of_nat d = n) as Ewn by (rewrite Hw; lia). rewrite Ewn in Er. rewrite Er, bind_Ok. by exists r, (mutated s'), (path s').
Qed.

(** Hashing up along a path from the leaf at [i]. *)
Fixpoint climb (i : Z) (h : uint256) (path : list uint256) : uint256 :=
  match path with
  | [] => h
  | sib :: path => climb (i / 2) (if Z.odd i then hash_pair sib h else hash_pair h sib) path
  end.

Lemma climb_ok path : ∀ d h, siblings path → node d (p / 2 ^ Z.of_nat d) h → (d ≤ length path)%nat →
  node (length path) (p / 2 ^ Z.of_nat (length path)) (climb (p / 2 ^ Z.of_nat d) h (drop d path)).
Proof.
  intros d. remember (length path - d)%nat as k eqn:Ek. revert d Ek. induction k as [|k IH]; intros d Ek h Hs Hh Hd.
  { rewrite drop_ge by lia. cbn. by replace (length path) with d by lia. }
  destruct (lookup_lt_is_Some_2 path d ltac:(lia)) as [x Hx]. rewrite (drop_S _ _ _ Hx). cbn [climb]. rewrite <- div_S. apply IH; [lia|done| |lia].
  pose proof (Hs d x Hx) as Hsib. unfold sibling in Hsib. pose proof (node_bound _ _ _ Hh) as Hb. rewrite div_S. set (i := p / 2 ^ Z.of_nat d) in *.
  destruct (Z.odd i) eqn:Ho.
  - rewrite Z.odd_spec in Ho. destruct Ho as [j Hj]. replace (i / 2) with j by divmod_lia.
    apply node_pair; [by replace (2 * j) with (i - 1) by lia|by rewrite <- Hj].
  - rewrite <- Z.negb_even, negb_false_iff, Z.even_spec in Ho. destruct Ho as [j Hj]. replace (i / 2) with j by divmod_lia.
    destruct (Z.ltb_spec (i + 1) (width d)); [apply node_pair; [by rewrite <- Hj|by rewrite <- Hj]|].
    assert (x = h) as -> by (destruct Hsib as [_ E1], Hh as [_ E2]; congruence). apply node_single; [by rewrite <- Hj|lia].
Qed.

End computation.

(** The constant-space computation agrees with the level-by-level root,
    and the path it returns for any position has one hash per level and hashes
    up from that leaf to the root. *)
Theorem merkle_path_authenticates l p leaf :
  hashes_ok l → zlen l ≤ 2 ^ 31 → 0 ≤ p → l !! Z.to_nat p = Some leaf →
  ∃ root m m' path, MerkleComputation l p = Ok (root, m, path) ∧ ComputeMerklePath l p = Ok path ∧ ComputeMerkleRoot l = Ok (root, m') ∧
    length path = Nat.log2_up (length l) ∧ climb p leaf path = root.
Proof.
  intros Hl Hn H0 Hleaf. pose proof (lookup_lt_Some _ _ _ Hleaf) as Hlt.
  assert (0 ≤ p < zlen l) as Hp by (unfold zlen; lia).
  destruct (MerkleComputation_ok l p Hn Hp) as (root & m & path & E & Htop & Hlen & Hsib).
  destruct (ComputeMerkleRoot_ok l Hl ltac:(by intros ->)) as (r & Er & ER). rewrite Htop in Er. injection Er as <-.
  exists root, m, (mutated_below (depth l) l), path. split; [done|]. split; [unfold ComputeMerklePath; by rewrite E|]. split; [done|]. split; [done|].
  pose proof (climb_ok l p Hp path 0 leaf Hsib) as Hc. cbn [Z.of_nat] in Hc. rewrite Z.pow_0_r, Z.div_1_r, drop_0 in Hc.
  destruct (Hc (conj H0 Hleaf) ltac:(lia)) as [_ Hroot]. rewrite Hlen, Htop in Hroot.
  apply lookup_lt_Some in Hroot as Hlt1. cbn [length] in Hlt1. replace (Z.to_nat _) with 0%nat in Hroot by lia. change (Some root = Some (climb p leaf path)) in Hroot. apply (inj Some) in Hroot. by symmetry.
Qed.

(** ** Three leaves *)
Definition three_leaves : list uint256 := [replicate 32 1; replicate 32 2; replicate 32 3].

Lemma three_leaves_ok : hashes_ok three_leaves.
Proof. repeat constructor. Qed.


Lemma merkle_path_authenticates_witness :
  ∃ path root m, ComputeMerklePath three_leaves 2 = Ok path ∧ ComputeMerkleRoot three_leaves = Ok (root, m) ∧ climb 2 (replicate 32 3) path = root ∧ length path = 2%nat.
Proof.
  destruct (merkle_path_authenticates three_leaves 2 (replicate 32 3)) as (root & m & m' & path & _ & E & ER & Hl & Hc).
  - exact three_leaves_ok.
  - vm_compute. discriminate.
  - lia.
  - reflexivity.
  - exists path, root, m'. split; [exact E|]. split; [exact ER|]. split; [exact Hc|exact Hl].
Defined.
