(* ===== verification/ShieldedTree.v ===== *)
(** The commitment tree of the shielded pool: definitions.

    [shielded/merkle_tree.h] and [shielded/merkle_tree.cpp]: the frontier of
    an append-only tree of depth 32, the index of commitments by position (in
    memory, or in a database behind a cache of recent entries), and the
    witnesses that follow the tree as it grows. The frontier is related to the
    tree it stands for in [ShieldedFrontier]. *)

From Stdlib Require Import ZArith Lia String.
From stdpp Require Import base list gmap numbers tactics sorting.
From S2P Require Import Prelude Sha256 Header.
Import sha256 block_header.

Open Scope Z_scope.

Abbreviation uint256 := (list Z).

(** The database of the index: a store of byte strings ordered by key.
    [db_Put] is [None] when the write fails; [db_Seek] lists the entries an
    iterator visits from a key on. *)
Class LevelDB := {
  DB : Type;
  db_Put : DB → list Z → list Z → option DB;
  db_Get : DB → list Z → option (list Z);
  db_Seek : DB → list Z → list (list Z * list Z)
}.

(** Whether an attempt to lock the cache succeeds, which depends on the other
    threads. *)
Class CacheLock := owns_lock : list Z → bool.

Module shielded_tree.

Definition MERKLE_DEPTH : nat := 32.
Definition MERKLE_MAX_LEAVES : Z := Z.shiftl 1 (Z.of_nat MERKLE_DEPTH).
Definition FRONTIER_CHECKPOINT_INTERVAL : Z := 1024.
Definition MEM_INDEX_HARD_CAP : Z := 10000000.
Definition DB_COMMITMENT_POS : Z := 67.
Definition COMMITMENT_INDEX_DIGEST_TAG : string := "BTX_Shielded_Commitment_Index_V1".
Definition DEFAULT_COMMITMENT_INDEX_LRU_CAPACITY : Z := 262144.

(** ** Hashes *)
Definition EmptyLeafHash : uint256 := fst (sha_Finalize (sha_Write CSHA256_new (chars "BTX_Shielded_Empty_Leaf_V1"))).

Definition BranchHash (left right : uint256) : uint256 :=
  let tag_midstate := sha_Write CSHA256_new (chars "BTX_Shielded_Branch_V1") in
  fst (sha_Finalize (sha_Write (sha_Write tag_midstate left) right)).

Fixpoint empty_table (d : nat) : uint256 :=
  match d with
  | O => EmptyLeafHash
  | S d => let t := empty_table d in BranchHash t t
  end.

Definition EmptyRoot (depth : nat) : result uint256 :=
  if (MERKLE_DEPTH <? depth)%nat then Err (ERuntime "EmptyRoot: depth exceeds MERKLE_DEPTH") else Ok (empty_table depth).

(** [PathFiller::Next]: the hash and the queue that is left. *)
Definition Next (queue : list uint256) (depth : nat) : result (uint256 * list uint256) :=
  match queue with
  | h :: queue => Ok (h, queue)
  | [] => e ← EmptyRoot depth; Ok (e, [])
  end.

(** [*opt]: undefined behaviour when the optional is empty. *)
Definition opt_get {A} (o : option A) : result A := match o with Some a => Ok a | None => Err EBounds end.

(** ** The frontier *)
Record FrontierCheckpoint := mkFrontier {
  size_ : Z;
  left_ : option uint256;
  right_ : option uint256;
  parents_ : list (option uint256)
}.

Definition empty_frontier : FrontierCheckpoint := mkFrontier 0 None None [].

(** The loop over [parents_] of [Append]. *)
Fixpoint propagate_up (combined : uint256) (parents : list (option uint256)) : list (option uint256) :=
  match parents with
  | [] => [Some combined]
  | Some p :: parents => None :: propagate_up (BranchHash p combined) parents
  | None :: parents => Some combined :: parents
  end.

Definition append_frontier (f : FrontierCheckpoint) (commitment : uint256) : FrontierCheckpoint :=
  match left_ f, right_ f with
  | None, _ => mkFrontier (u64 (size_ f + 1)) (Some commitment) (right_ f) (parents_ f)
  | Some _, None => mkFrontier (u64 (size_ f + 1)) (left_ f) (Some commitment) (parents_ f)
  | Some l, Some r =>
      let combined := BranchHash l r in
      mkFrontier (u64 (size_ f + 1)) (Some commitment) None (propagate_up combined (parents_ f))
  end.

Fixpoint root_parents (parents : list (option uint256)) (d : nat) (current : uint256) (filler : list uint256) :
    result (nat * uint256 * list uint256) :=
  match parents with
  | [] => Ok (d, current, filler)
  | Some p :: parents => root_parents parents (S d) (BranchHash p current) filler
  | None :: parents => '(h, filler) ← Next filler d; root_parents parents (S d) (BranchHash current h) filler
  end.

Fixpoint root_rest (n : nat) (d : nat) (current : uint256) (filler : list uint256) : result uint256 :=
  match n with
  | O => Ok current
  | S n => '(h, filler) ← Next filler d; root_rest n (S d) (BranchHash current h) filler
  end.

Definition frontier_Root (f : FrontierCheckpoint) (depth : nat) (filler : list uint256) : result uint256 :=
  if size_ f =? 0 then EmptyRoot depth
  else
    l ← opt_get (left_ f);
    '(current, filler) ←
      match right_ f with
      | Some r => Ok (BranchHash l r, filler)
      | None => '(h, filler) ← Next filler 0; Ok (BranchHash l h, filler)
      end;
    '(d, current, filler) ← root_parents (parents_ f) 1 current filler;
    root_rest (depth - d) d current filler.

(** ** The database of commitments and its cache *)
Section index_store.
Context `{LevelDB} `{CacheLock}.

Record CommitmentIndexStore := mkStore {
  db : DB;
  max_lru_entries : Z;
  lru_order : list Z;
  lru_cache : gmap Z uint256
}.

Definition MakeKey (position : Z) : list Z := DB_COMMITMENT_POS :: WriteBE64 position.

Definition splice_front (position : Z) (order : list Z) : list Z := position :: filter (λ p, p ≠ position) order.

Definition TouchCache (s : CommitmentIndexStore) (position : Z) (commitment : uint256) : CommitmentIndexStore :=
  match lru_cache s !! position with
  | Some _ => mkStore (db s) (max_lru_entries s) (splice_front position (lru_order s)) (<[position := commitment]> (lru_cache s))
  | None =>
      let order := position :: lru_order s in
      let cache := <[position := commitment]> (lru_cache s) in
      if max_lru_entries s <? Z.of_nat (size cache) then
        let evict := List.last order 0 in
        mkStore (db s) (max_lru_entries s) (removelast order) (delete evict cache)
      else mkStore (db s) (max_lru_entries s) order cache
  end.

Definition store_new (opened : option DB) (lru_capacity : Z) (memory_only : bool) : result CommitmentIndexStore :=
  _ ← throw_if memory_only "Shielded commitment index memory_only mode unsupported";
  match opened with
  | None => Err (ERuntime "failed to open commitment index DB")
  | Some d => Ok (mkStore d (Z.max 1 lru_capacity) [] ∅)
  end.

Definition store_Write (s : CommitmentIndexStore) (position : Z) (commitment : uint256) : bool * CommitmentIndexStore :=
  match db_Put (db s) (MakeKey position) commitment with
  | None => (false, s)
  | Some d => (true, TouchCache (mkStore d (max_lru_entries s) (lru_order s) (lru_cache s)) position commitment)
  end.

Definition store_Read (s : CommitmentIndexStore) (position : Z) : option uint256 * CommitmentIndexStore :=
  match lru_cache s !! position with
  | Some result =>
      (Some result,
       if owns_lock (lru_order s)
       then mkStore (db s) (max_lru_entries s) (splice_front position (lru_order s)) (lru_cache s) else s)
  | None =>
      match db_Get (db s) (MakeKey position) with
      | None => (None, s)
      | Some value =>
          if negb (zlen value =? 32) then (None, s) else (Some value, TouchCache s position value)
      end
  end.

Definition store_Exists (s : CommitmentIndexStore) (position : Z) : bool :=
  match db_Get (db s) (MakeKey position) with Some _ => true | None => false end.

(** The entries the iterator gives while they are the expected ones. *)
Fixpoint scan (n : nat) (pos : Z) (entries : list (list Z * list Z)) : list uint256 :=
  match n, entries with
  | S n, (key, value) :: entries =>
      if negb (bool_decide (key = MakeKey pos)) then []
      else if negb (zlen value =? 32) then []
      else value :: scan n (u64 (pos + 1)) entries
  | _, _ => []
  end.

Fixpoint point_reads (d : DB) (n : nat) (pos : Z) : list uint256 :=
  match n with
  | O => []
  | S n =>
      match db_Get d (MakeKey pos) with
      | None => []
      | Some value => if negb (zlen value =? 32) then [] else value :: point_reads d n (u64 (pos + 1))
      end
  end.

Definition ReadRange (s : CommitmentIndexStore) (start end_ : Z) : list uint256 :=
  if end_ <=? start then []
  else
    let n := Z.to_nat (end_ - start) in
    let scanned := scan n start (db_Seek (db s) (MakeKey start)) in
    let pos := start + zlen scanned in
    scanned ++ point_reads (db s) (Z.to_nat (end_ - pos)) pos.

(** ** The tree and the stores of the process *)
Inductive IndexStorageMode := AUTO | MEMORY_ONLY | NO_INDEX.

Record ShieldedMerkleTree := mkTree {
  frontier : FrontierCheckpoint;
  commitment_index_mem_ : option (list uint256);
  commitment_index_store_ : option nat;
  commitment_index_enabled_ : bool;
  m_index_storage_mode_ : IndexStorageMode;
  frontier_checkpoints_ : option (list FrontierCheckpoint)
}.

(** The stores that were opened, and the one that is configured. *)
Record World := mkWorld {
  stores : list CommitmentIndexStore;
  s_commitment_store : option nat
}.

Definition tree_new (w : World) (mode : IndexStorageMode) : ShieldedMerkleTree :=
  match mode with
  | NO_INDEX => mkTree empty_frontier None None false NO_INDEX None
  | MEMORY_ONLY => mkTree empty_frontier (Some []) None true MEMORY_ONLY (Some [])
  | AUTO =>
      mkTree empty_frontier (match s_commitment_store w with Some _ => None | None => Some [] end)
        (s_commitment_store w) true AUTO (Some [])
  end.

Definition ConfigureCommitmentIndexStore (w : World) (opened : option DB) (lru_capacity : Z) (memory_only : bool) : bool * World :=
  match store_new opened (if lru_capacity =? 0 then DEFAULT_COMMITMENT_INDEX_LRU_CAPACITY else lru_capacity) memory_only with
  | Ok configured => (true, mkWorld (stores w ++ [configured]) (Some (length (stores w))))
  | Err _ => (false, w)
  end.

Definition ResetCommitmentIndexStore (w : World) : World := mkWorld (stores w) None.

Definition Size (t : ShieldedMerkleTree) : Z := size_ (frontier t).
Definition IsEmpty (t : ShieldedMerkleTree) : bool := Size t =? 0.

Definition get_store (w : World) (p : nat) : result CommitmentIndexStore := opt_get (stores w !! p).
Definition when {A} (b : bool) (o : option A) : option A := if b then o else None.
Definition set_store (w : World) (p : nat) (s : CommitmentIndexStore) : World := mkWorld (<[p := s]> (stores w)) (s_commitment_store w).

Definition set_mem (t : ShieldedMerkleTree) (mem : list uint256) : ShieldedMerkleTree :=
  mkTree (frontier t) (Some mem) (commitment_index_store_ t) (commitment_index_enabled_ t) (m_index_storage_mode_ t) (frontier_checkpoints_ t).
Definition set_frontier (t : ShieldedMerkleTree) (f : FrontierCheckpoint) : ShieldedMerkleTree :=
  mkTree f (commitment_index_mem_ t) (commitment_index_store_ t) (commitment_index_enabled_ t) (m_index_storage_mode_ t) (frontier_checkpoints_ t).
Definition set_checkpoints (t : ShieldedMerkleTree) (cps : list FrontierCheckpoint) : ShieldedMerkleTree :=
  mkTree (frontier t) (commitment_index_mem_ t) (commitment_index_store_ t) (commitment_index_enabled_ t) (m_index_storage_mode_ t) (Some cps).

Definition WriteCommitmentAt (t : ShieldedMerkleTree) (w : World) (position : Z) (commitment : uint256) :
    result (bool * ShieldedMerkleTree * World) :=
  if negb (commitment_index_enabled_ t) then Ok (true, t, w)
  else
    match commitment_index_store_ t, commitment_index_mem_ t with
    | Some p, _ =>
        s ← get_store w p;
        let '(ok, s) := store_Write s position commitment in
        Ok (ok, t, set_store w p s)
    | None, None => Ok (false, t, w)
    | None, Some mem =>
        if (MEM_INDEX_HARD_CAP <=? zlen mem) && (zlen mem <=? position) then Ok (false, t, w)
        else if position <? zlen mem then Ok (true, set_mem t (<[Z.to_nat position := commitment]> mem), w)
        else if negb (position =? zlen mem) then Ok (false, t, w)
        else Ok (true, set_mem t (mem ++ [commitment]), w)
    end.

Definition ReadCommitmentAt (t : ShieldedMerkleTree) (w : World) (position : Z) : result (option uint256 * World) :=
  if negb (commitment_index_enabled_ t) then Ok (None, w)
  else if Size t <=? position then Ok (None, w)
  else
    match commitment_index_store_ t, commitment_index_mem_ t with
    | Some p, _ =>
        s ← get_store w p;
        let '(c, s) := store_Read s position in
        Ok (c, set_store w p s)
    | None, None => Ok (None, w)
    | None, Some mem => if zlen mem <=? position then Ok (None, w) else Ok (mem !! Z.to_nat position, w)
    end.

Definition HasCommitmentAt (t : ShieldedMerkleTree) (w : World) (position : Z) : result bool :=
  if negb (commitment_index_enabled_ t) then Ok false
  else if Size t <=? position then Ok false
  else
    match commitment_index_store_ t with
    | Some p => s ← get_store w p; Ok (store_Exists s position)
    | None => Ok (match commitment_index_mem_ t with Some mem => position <? zlen mem | None => false end)
    end.

Definition MaybeRecordFrontierCheckpoint (t : ShieldedMerkleTree) : ShieldedMerkleTree :=
  match frontier_checkpoints_ t with
  | None => t
  | Some cps =>
      if (Size t =? 0) || negb (Size t mod FRONTIER_CHECKPOINT_INTERVAL =? 0) then t
      else
        match last cps with
        | Some cp => if size_ cp =? Size t then t else set_checkpoints t (cps ++ [frontier t])
        | None => set_checkpoints t (cps ++ [frontier t])
        end
  end.

Definition Append (t : ShieldedMerkleTree) (w : World) (commitment : uint256) : result (ShieldedMerkleTree * World) :=
  _ ← throw_if (MERKLE_MAX_LEAVES <=? Size t) "ShieldedMerkleTree: tree is full (2^32 leaves)";
  '(ok, t, w) ← WriteCommitmentAt t w (Size t) commitment;
  _ ← throw_if (negb ok) "ShieldedMerkleTree: failed to persist commitment index";
  Ok (MaybeRecordFrontierCheckpoint (set_frontier t (append_frontier (frontier t) commitment)), w).

Definition tree_Root (t : ShieldedMerkleTree) : result uint256 := frontier_Root (frontier t) MERKLE_DEPTH [].

Definition LastLeaf (t : ShieldedMerkleTree) : result uint256 :=
  _ ← throw_if (Size t =? 0) "ShieldedMerkleTree: tree is empty";
  match right_ (frontier t) with Some r => Ok r | None => opt_get (left_ (frontier t)) end.

Definition CommitmentAt (t : ShieldedMerkleTree) (w : World) (position : Z) : result (option uint256 * World) :=
  ReadCommitmentAt t w position.

Definition CommitmentIndexDigest (t : ShieldedMerkleTree) (w : World) : result (option uint256) :=
  if negb (commitment_index_enabled_ t) then Ok None
  else
    let hw := HashWriter_write (HashWriter_write HashWriter_new (chars COMMITMENT_INDEX_DIGEST_TAG)) (WriteLE64 (Size t)) in
    match commitment_index_store_ t, commitment_index_mem_ t with
    | Some p, _ =>
        s ← get_store w p;
        let commitments := ReadRange s 0 (Size t) in
        Ok (if negb (zlen commitments =? Size t) then None else Some (HashWriter_GetSHA256 (foldl HashWriter_write hw commitments)))
    | None, None => Ok None
    | None, Some mem =>
        Ok (if zlen mem <? Size t then None
            else Some (HashWriter_GetSHA256 (foldl HashWriter_write hw (take (Z.to_nat (Size t)) mem))))
    end.

Definition HasCommitmentIndex (t : ShieldedMerkleTree) (w : World) : result bool :=
  if negb (commitment_index_enabled_ t) then Ok false
  else if Size t =? 0 then Ok true
  else HasCommitmentAt t w (Size t - 1).

(** ** Truncation *)

(** [std::upper_bound]: the number of checkpoints of at most that size. *)
Fixpoint upper_bound (new_size : Z) (cps : list FrontierCheckpoint) : nat :=
  match cps with
  | cp :: cps => if new_size <? size_ cp then O else S (upper_bound new_size cps)
  | [] => O
  end.

Fixpoint copy_index (t : ShieldedMerkleTree) (w : World) (n : nat) (i : Z) (mem : list uint256) : result (option (list uint256) * World) :=
  match n with
  | O => Ok (Some mem, w)
  | S n =>
      '(commitment, w) ← ReadCommitmentAt t w i;
      match commitment with
      | None => Ok (None, w)
      | Some c => copy_index t w n (i + 1) (mem ++ [c])
      end
  end.

Fixpoint append_all (t : ShieldedMerkleTree) (w : World) (cs : list uint256) : result (ShieldedMerkleTree * World) :=
  match cs with
  | [] => Ok (t, w)
  | c :: cs => '(t, w) ← Append t w c; append_all t w cs
  end.

Fixpoint append_read (t : ShieldedMerkleTree) (rebuilt : ShieldedMerkleTree) (w : World) (n : nat) (i : Z) :
    result (option ShieldedMerkleTree * World) :=
  match n with
  | O => Ok (Some rebuilt, w)
  | S n =>
      '(commitment, w) ← ReadCommitmentAt t w i;
      match commitment with
      | None => Ok (None, w)
      | Some c => '(rebuilt, w) ← Append rebuilt w c; append_read t rebuilt w n (i + 1)
      end
  end.

(** The index of the rebuilt tree up to the checkpoint, or [None] where the
    code returns [false]. *)
Definition resume_index (t rebuilt : ShieldedMerkleTree) (w : World) (cp_size : Z) : result (option ShieldedMerkleTree * World) :=
  match commitment_index_mem_ rebuilt with
  | None => Ok (Some rebuilt, w)
  | Some mem =>
      match when (0 <? cp_size) (commitment_index_store_ t) with
      | Some p =>
          s ← get_store w p;
          let range := ReadRange s 0 cp_size in
          if negb (zlen range =? cp_size) then Ok (None, w) else Ok (Some (set_mem rebuilt range), w)
      | None =>
          '(copied, w) ← copy_index t w (Z.to_nat cp_size) 0 mem;
          match copied with Some mem => Ok (Some (set_mem rebuilt mem), w) | None => Ok (None, w) end
      end
  end.

(** The tree at the nearest checkpoint. *)
Definition resume_checkpoint (t : ShieldedMerkleTree) (w : World) (new_size : Z) : result (option ShieldedMerkleTree * World) :=
  let rebuilt := tree_new w (m_index_storage_mode_ t) in
  match frontier_checkpoints_ t with
  | Some cps =>
      let it := upper_bound new_size cps in
      if (FRONTIER_CHECKPOINT_INTERVAL <=? new_size) && negb (length cps =? 0)%nat && negb (it =? 0)%nat then
        cp ← opt_get (cps !! Nat.pred it);
        '(indexed, w) ← resume_index t (set_frontier rebuilt cp) w (size_ cp);
        match indexed with
        | None => Ok (None, w)
        | Some rebuilt =>
            _ ← opt_get (frontier_checkpoints_ rebuilt);
            Ok (Some (set_checkpoints rebuilt (take it cps)), w)
        end
      else Ok (Some rebuilt, w)
  | None => Ok (Some rebuilt, w)
  end.

(** The leaves from the checkpoint on. *)
Definition rebuild (t rebuilt : ShieldedMerkleTree) (w : World) (new_size : Z) : result (option ShieldedMerkleTree * World) :=
  let resume_from := Size rebuilt in
  match when (resume_from <? new_size) (commitment_index_store_ t) with
  | Some p =>
      s ← get_store w p;
      let range := ReadRange s resume_from new_size in
      if negb (zlen range =? new_size - resume_from) then Ok (None, w)
      else '(rebuilt, w) ← append_all rebuilt w range; Ok (Some rebuilt, w)
  | None => append_read t rebuilt w (Z.to_nat (new_size - resume_from)) resume_from
  end.

(** The result, the tree afterwards and the stores. *)
Definition Truncate (t : ShieldedMerkleTree) (w : World) (new_size : Z) : result (bool * ShieldedMerkleTree * World) :=
  if Size t <? new_size then Ok (false, t, w)
  else if new_size =? Size t then Ok (true, t, w)
  else
    has ← HasCommitmentIndex t w;
    if negb has then Ok (false, t, w)
    else
      '(resumed, w) ← resume_checkpoint t w new_size;
      match resumed with
      | None => Ok (false, t, w)
      | Some rebuilt =>
          '(rebuilt, w) ← rebuild t rebuilt w new_size;
          match rebuilt with
          | None => Ok (false, t, w)
          | Some rebuilt => Ok (true, rebuilt, w)
          end
      end.

Definition RemoveLast (t : ShieldedMerkleTree) (w : World) (count : Z) : result (bool * ShieldedMerkleTree * World) :=
  if Size t <? count then Ok (false, t, w) else Truncate t w (Size t - count).

Definition detached_commitments (t : ShieldedMerkleTree) (w : World) : result (option (list uint256)) :=
  if 0 <? Size t then
    has ← HasCommitmentIndex t w;
    if negb has then Ok None
    else
      match commitment_index_store_ t, commitment_index_mem_ t with
      | Some p, _ =>
          s ← get_store w p;
          let cs := ReadRange s 0 (Size t) in
          Ok (if negb (zlen cs =? Size t) then None else Some cs)
      | None, Some mem => Ok (if zlen mem <? Size t then None else Some (take (Z.to_nat (Size t)) mem))
      | None, None => Ok None
      end
  else Ok (Some []).

Definition DetachToMemoryOnly (t : ShieldedMerkleTree) (w : World) : result (bool * ShieldedMerkleTree) :=
  detached ← detached_commitments t w;
  match detached with
  | None => Ok (false, t)
  | Some cs => Ok (true, mkTree (frontier t) (Some cs) None true MEMORY_ONLY (frontier_checkpoints_ t))
  end.

Definition compatible_prefix (t : ShieldedMerkleTree) (w : World) (p : nat) : result bool :=
  if 0 <? Size t then
    s ← get_store w p;
    let persisted := ReadRange s 0 (Size t) in
    Ok ((zlen persisted =? Size t) && bool_decide (persisted = take (length persisted) (default [] (commitment_index_mem_ t))))
  else Ok true.

Definition AttachConfiguredCommitmentIndexStore (t : ShieldedMerkleTree) (w : World) : result (bool * ShieldedMerkleTree) :=
  let mem_covers := match commitment_index_mem_ t with Some mem => Size t <=? zlen mem | None => false end in
  let detached := mkTree (frontier t) (commitment_index_mem_ t) None true AUTO (frontier_checkpoints_ t) in
  match s_commitment_store w with
  | None => Ok ((Size t =? 0) || mem_covers, detached)
  | Some p =>
      if (0 <? Size t) && negb mem_covers then Ok (false, t)
      else
        compatible ← compatible_prefix t w p;
        if negb compatible then Ok (true, detached)
        else Ok (true, mkTree (frontier t) None (Some p) true AUTO (frontier_checkpoints_ t))
  end.

(** ** Witnesses *)
Record ShieldedMerkleWitness := mkWitness {
  tree_ : ShieldedMerkleTree;
  filled_ : list uint256;
  cursor_ : option ShieldedMerkleTree;
  cursor_depth_ : nat
}.

Definition drop_index (t : ShieldedMerkleTree) : ShieldedMerkleTree := mkTree (frontier t) None None false NO_INDEX None.

Definition witness_new (tree : ShieldedMerkleTree) : result ShieldedMerkleWitness :=
  _ ← throw_if (IsEmpty tree) "ShieldedMerkleWitness: cannot witness empty tree";
  Ok (mkWitness (drop_index tree) [] None 0).

Definition Witness (tree : ShieldedMerkleTree) : result ShieldedMerkleWitness := witness_new tree.

Fixpoint path_frontier (position : Z) (auth_path : list uint256) (depth : nat) : list (option uint256) * list uint256 :=
  match auth_path with
  | [] => ([], [])
  | h :: auth_path =>
      let '(parents, filled) := path_frontier position auth_path (S depth) in
      if Z.testbit position (Z.of_nat depth) then (Some h :: parents, filled) else (None :: parents, h :: filled)
  end.

(** [auth_path] is an array of 32 hashes. *)
Definition FromAuthPath (leaf : uint256) (position : Z) (auth_path : list uint256) : result ShieldedMerkleWitness :=
  _ ← throw_if (MERKLE_MAX_LEAVES <=? position) "ShieldedMerkleWitness::FromAuthPath: position overflow";
  h0 ← vget auth_path 0;
  let '(parents, filled) := path_frontier position (drop 1 auth_path) 1 in
  Ok (if Z.testbit position 0
      then mkWitness (mkTree (mkFrontier (position + 1) (Some h0) (Some leaf) parents) None None false NO_INDEX None) filled None 0
      else mkWitness (mkTree (mkFrontier (position + 1) (Some leaf) None parents) None None false NO_INDEX None) (h0 :: filled) None 0).

Definition Position (w : ShieldedMerkleWitness) : Z := u64 (Size (tree_ w) - 1).

Definition PartialPath (w : ShieldedMerkleWitness) : result (list uint256) :=
  match cursor_ w with
  | None => Ok (filled_ w)
  | Some c => r ← frontier_Root (frontier c) (cursor_depth_ w) []; Ok (filled_ w ++ [r])
  end.

Definition witness_Root (w : ShieldedMerkleWitness) : result uint256 :=
  filler ← PartialPath w; frontier_Root (frontier (tree_ w)) MERKLE_DEPTH filler.

Fixpoint path_parents (parents : list (option uint256)) (d : nat) (path filler : list uint256) : result (nat * list uint256 * list uint256) :=
  match parents with
  | [] => Ok (d, path, filler)
  | Some p :: parents => path ← vset path (Z.of_nat d) p; path_parents parents (S d) path filler
  | None :: parents =>
      '(h, filler) ← Next filler d; path ← vset path (Z.of_nat d) h; path_parents parents (S d) path filler
  end.

Fixpoint path_rest (n d : nat) (path filler : list uint256) : result (list uint256) :=
  match n with
  | O => Ok path
  | S n => '(h, filler) ← Next filler d; path ← vset path (Z.of_nat d) h; path_rest n (S d) path filler
  end.

Definition ComputePath (w : ShieldedMerkleWitness) : result (list uint256 * Z) :=
  filler ← PartialPath w;
  let f := frontier (tree_ w) in
  let auth_path := replicate MERKLE_DEPTH null256 in
  '(h, filler) ←
    match right_ f with
    | Some _ => l ← opt_get (left_ f); Ok (l, filler)
    | None => Next filler 0
    end;
  auth_path ← vset auth_path 0 h;
  '(d, auth_path, filler) ← path_parents (parents_ f) 1 auth_path filler;
  auth_path ← path_rest (MERKLE_DEPTH - d) d auth_path filler;
  Ok (auth_path, Position w).

Fixpoint climb (auth_path : list uint256) (pos : Z) (current : uint256) : uint256 :=
  match auth_path with
  | [] => current
  | h :: auth_path =>
      climb auth_path (Z.shiftr pos 1) (if Z.odd pos then BranchHash h current else BranchHash current h)
  end.

Definition Verify (w : ShieldedMerkleWitness) (leaf root : uint256) : result bool :=
  '(auth_path, pos) ← ComputePath w;
  Ok (bool_decide (climb auth_path pos leaf = root)).

Fixpoint next_parents (parents : list (option uint256)) (d skip : nat) : nat :=
  match parents with
  | [] => d + skip
  | Some _ :: parents => next_parents parents (S d) skip
  | None :: parents => match skip with S skip => next_parents parents (S d) skip | O => d end
  end.

Definition NextDepth (w : ShieldedMerkleWitness) (skip : nat) : nat :=
  let f := frontier (tree_ w) in
  match left_ f, skip with
  | None, O => O
  | _, _ =>
      let skip := match left_ f with None => Nat.pred skip | Some _ => skip end in
      match right_ f, skip with
      | None, O => O
      | None, S skip => next_parents (parents_ f) 1 skip
      | Some _, _ => next_parents (parents_ f) 1 skip
      end
  end.

Definition IncrementalUpdate (w : ShieldedMerkleWitness) (s : World) (new_leaf : uint256) : result (ShieldedMerkleWitness * World) :=
  let depth := NextDepth w (length (filled_ w)) in
  match cursor_ w with
  | Some c =>
      '(c, s) ← Append c s new_leaf;
      if Size c =? u64 (Z.shiftl 1 (Z.of_nat (cursor_depth_ w))) then
        r ← frontier_Root (frontier c) (cursor_depth_ w) [];
        Ok (mkWitness (tree_ w) (filled_ w ++ [r]) None 0, s)
      else Ok (mkWitness (tree_ w) (filled_ w) (Some c) (cursor_depth_ w), s)
  | None =>
      if (depth =? 0)%nat then Ok (mkWitness (tree_ w) (filled_ w ++ [new_leaf]) None (cursor_depth_ w), s)
      else
        '(c, s) ← Append (tree_new s NO_INDEX) s new_leaf;
        Ok (mkWitness (tree_ w) (filled_ w) (Some c) depth, s)
  end.

(** ** Witnesses of earlier leaves *)

(** A caught exception gives no witness; undefined behaviour is not caught. *)
Definition caught {A B} (r : result A) (k : A → result B) (handler : result B) : result B :=
  match r with Ok a => k a | Err (ERuntime _) => handler | Err e => Err e end.

Fixpoint prefix_loop (t prefix : ShieldedMerkleTree) (w : World) (n : nat) (i : Z) : result (option ShieldedMerkleTree * World) :=
  match n with
  | O => Ok (Some prefix, w)
  | S n =>
      '(commitment, w) ← CommitmentAt t w i;
      match commitment with
      | None => Ok (None, w)
      | Some c => caught (Append prefix w c) (λ '(prefix, w), prefix_loop t prefix w n (i + 1)) (Ok (None, w))
      end
  end.

Fixpoint update_loop (t : ShieldedMerkleTree) (wit : ShieldedMerkleWitness) (w : World) (n : nat) (i : Z) :
    result (option ShieldedMerkleWitness * World) :=
  match n with
  | O => Ok (Some wit, w)
  | S n =>
      '(commitment, w) ← CommitmentAt t w i;
      match commitment with
      | None => Ok (None, w)
      | Some c => caught (IncrementalUpdate wit w c) (λ '(wit, w), update_loop t wit w n (i + 1)) (Ok (None, w))
      end
  end.

Definition WitnessAt (t : ShieldedMerkleTree) (w : World) (position : Z) : result (option ShieldedMerkleWitness * World) :=
  has ← HasCommitmentIndex t w;
  if (Size t <=? position) || negb has then Ok (None, w)
  else
    '(prefix, w) ← prefix_loop t (tree_new w MEMORY_ONLY) w (Z.to_nat (position + 1)) 0;
    match prefix with
    | None => Ok (None, w)
    | Some prefix =>
        caught (witness_new prefix)
          (λ wit, update_loop t wit w (Z.to_nat (Size t - (position + 1))) (position + 1)) (Ok (None, w))
    end.

Definition cache_key (start : Z) (depth : nat) : Z := Z.lor (u64 (Z.shiftl start 6)) (Z.of_nat depth).

(** The memoised root of the subtree of height [depth] from leaf [start]. *)
Fixpoint subtree_root (t : ShieldedMerkleTree) (depth : nat) (start : Z) (cache : gmap Z uint256) (w : World) :
    result (option uint256 * gmap Z uint256 * World) :=
  if (MERKLE_DEPTH <? depth)%nat then Ok (None, cache, w)
  else if Size t <=? start then e ← EmptyRoot depth; Ok (Some e, cache, w)
  else
    let key := cache_key start depth in
    match cache !! key with
    | Some h => Ok (Some h, cache, w)
    | None =>
        match depth with
        | O =>
            '(commitment, w) ← CommitmentAt t w start;
            Ok (commitment, match commitment with Some c => <[key := c]> cache | None => cache end, w)
        | S depth =>
            let half_width := u64 (Z.shiftl 1 (Z.of_nat depth)) in
            '(lroot, cache, w) ← subtree_root t depth start cache w;
            match lroot with
            | None => Ok (None, cache, w)
            | Some lhash =>
                '(rroot, cache, w) ← subtree_root t depth (u64 (start + half_width)) cache w;
                match rroot with
                | None => Ok (None, cache, w)
                | Some rhash =>
                    let root := BranchHash lhash rhash in
                    Ok (Some root, (match cache !! key with None => <[key := root]> cache | Some _ => cache end), w)
                end
            end
        end
    end.

Definition sibling_start (position : Z) (depth : nat) : Z :=
  let width := u64 (Z.shiftl 1 (Z.of_nat depth)) in
  Z.land (Z.lxor position width) (u64 (Z.lnot (width - 1))).

Fixpoint siblings (t : ShieldedMerkleTree) (position : Z) (n depth : nat) (path : list uint256) (cache : gmap Z uint256) (w : World) :
    result (option (list uint256) * gmap Z uint256 * World) :=
  match n with
  | O => Ok (Some path, cache, w)
  | S n =>
      '(sibling, cache, w) ← subtree_root t depth (sibling_start position depth) cache w;
      match sibling with
      | None => Ok (None, cache, w)
      | Some h => siblings t position n (S depth) (path ++ [h]) cache w
      end
  end.

Fixpoint witnesses_loop (t : ShieldedMerkleTree) (current_root : uint256) (positions : list Z)
    (out : gmap Z ShieldedMerkleWitness) (cache : gmap Z uint256) (w : World) : result (gmap Z ShieldedMerkleWitness * World) :=
  match positions with
  | [] => Ok (out, w)
  | position :: positions =>
      '(leaf, w) ← CommitmentAt t w position;
      match leaf with
      | None => witnesses_loop t current_root positions out cache w
      | Some leaf =>
          '(auth_path, cache, w) ← siblings t position MERKLE_DEPTH 0 [] cache w;
          match auth_path with
          | None => witnesses_loop t current_root positions out cache w
          | Some auth_path =>
              let skip := witnesses_loop t current_root positions out cache w in
              caught (FromAuthPath leaf position auth_path)
                (λ witness, caught (Verify witness leaf current_root)
                   (λ ok, if (ok : bool) then
                            witnesses_loop t current_root positions
                              (match out !! position with None => <[position := witness]> out | Some _ => out end) cache w
                          else skip) skip) skip
          end
      end
  end.

(** [std::unique] on a sorted vector. *)
Fixpoint unique (l : list Z) : list Z :=
  match l with
  | a :: (b :: _) as l' => if a =? b then unique l' else a :: unique l'
  | _ => l
  end.

Definition WitnessesAt (t : ShieldedMerkleTree) (w : World) (positions : list Z) : result (gmap Z ShieldedMerkleWitness * World) :=
  has ← HasCommitmentIndex t w;
  if bool_decide (positions = []) || negb has then Ok (∅, w)
  else
    let unique_positions := unique (merge_sort Z.le (filter (λ p, p < Size t) positions)) in
    if bool_decide (unique_positions = []) then Ok (∅, w)
    else
      current_root ← tree_Root t;
      witnesses_loop t current_root unique_positions ∅ ∅ w.

End index_store.

End shielded_tree.
