(* ===== verification/ShieldedFrontier.v ===== *)
(** The frontier stands for the tree.

    The reference is the tree of depth 32 over the list of commitments, node by
    node, with empty leaves to the right. A frontier holds the left siblings
    on the path of the last leaf; appending keeps that, and the root computed
    from it, with the right siblings supplied by a filler, is the root of the
    tree. *)

From Stdlib Require Import ZArith Lia String.
From stdpp Require Import base list gmap numbers tactics.
From S2P Require Import Prelude Sha256 Header ShieldedTree.
Import sha256 block_header shielded_tree.

Open Scope Z_scope.

#[local] Opaque BranchHash EmptyLeafHash.

(** ** The reference tree: node [i] of level [d] over the leaves [l] *)
Fixpoint node (l : list uint256) (d : nat) (i : Z) : uint256 :=
  match d with
  | O => default EmptyLeafHash (l !! Z.to_nat i)
  | S d => BranchHash (node l d (2 * i)) (node l d (2 * i + 1))
  end.

Definition commitment_root (l : list uint256) : uint256 := node l MERKLE_DEPTH 0.

(** Level [d] of the path of position [p], and which side of its parent. *)
Abbreviation up p d := (p / 2 ^ Z.of_nat d).
Definition bit (p : Z) (d : nat) : bool := Z.odd (up p d).

Lemma pow2_S d : 2 ^ Z.of_nat (S d) = 2 * 2 ^ Z.of_nat d.
Proof. rewrite Nat2Z.inj_succ, Z.pow_succ_r by lia. done. Qed.

Lemma two_pow_pos d : 0 < 2 ^ Z.of_nat d.
Proof. lia. Qed.

Lemma up_S p d : up p (S d) = up p d / 2.
Proof. rewrite pow2_S, Z.mul_comm, Z.div_div by lia. done. Qed.

Lemma up_0 p : up p 0 = p.
Proof. apply Z.div_1_r. Qed.

Lemma up_nonneg p d : 0 ≤ p → 0 ≤ up p d.
Proof. intros. apply Z.div_pos; lia. Qed.

Lemma up_small p d : 0 ≤ p < 2 ^ Z.of_nat d → up p d = 0.
Proof. apply Z.div_small. Qed.

Lemma up_zero_inv p d : 0 ≤ p → up p d = 0 → p < 2 ^ Z.of_nat d.
Proof. intros Hp E. apply Z.div_small_iff in E; lia. Qed.

(** The node of level [d] on the path, from its bit. *)
Lemma up_bit p d : up p d = 2 * up p (S d) + bool_to_Z (bit p d).
Proof. rewrite up_S. unfold bit. pose proof (Zmod_odd (up p d)). pose proof (Z_div_mod_eq_full (up p d) 2). destruct (Z.odd (up p d)); cbn; lia. Qed.

Lemma bit_testbit p d : Z.testbit p (Z.of_nat d) = bit p d.
Proof. unfold bit. by rewrite Z.testbit_odd, Z.shiftr_div_pow2 by lia. Qed.

Lemma bit_zero p d : 0 ≤ p < 2 ^ Z.of_nat d → bit p d = false.
Proof. intros. unfold bit. by rewrite up_small. Qed.

(** A node depends only on the leaves below it. *)
Lemma node_congr l l' d : ∀ i i', 0 ≤ i → 0 ≤ i' →
  (∀ j, 0 ≤ j < 2 ^ Z.of_nat d → l !! Z.to_nat (i * 2 ^ Z.of_nat d + j) = l' !! Z.to_nat (i' * 2 ^ Z.of_nat d + j)) →
  node l d i = node l' d i'.
Proof.
  induction d as [|d IH]; intros i i' Hi Hi' H; cbn [node].
  - specialize (H 0 ltac:(lia)). rewrite !Z.mul_1_r, !Z.add_0_r in H. by rewrite H.
  - pose proof (two_pow_pos d). f_equal; apply IH; try lia; intros j Hj.
    + specialize (H j). rewrite pow2_S in H. replace (2 * i * 2 ^ Z.of_nat d + j) with (i * (2 * 2 ^ Z.of_nat d) + j) by lia.
      rewrite H by lia. f_equal. f_equal. lia.
    + specialize (H (2 ^ Z.of_nat d + j)). rewrite pow2_S in H.
      replace ((2 * i + 1) * 2 ^ Z.of_nat d + j) with (i * (2 * 2 ^ Z.of_nat d) + (2 ^ Z.of_nat d + j)) by lia.
      rewrite H by lia. f_equal. f_equal. lia.
Qed.

Lemma node_app l m d i : 0 ≤ i → (i + 1) * 2 ^ Z.of_nat d ≤ zlen l → node (l ++ m) d i = node l d i.
Proof.
  intros Hi Hl. pose proof (two_pow_pos d). apply node_congr; [done..|]. intros j Hj. apply lookup_app_l. unfold zlen in Hl. nia.
Qed.

Lemma node_nil d : ∀ i, node [] d i = empty_table d.
Proof. induction d as [|d IH]; intros i; cbn [node empty_table]; [by rewrite lookup_nil|]. by rewrite !IH. Qed.

Lemma node_empty l d i : 0 ≤ i → zlen l ≤ i * 2 ^ Z.of_nat d → node l d i = empty_table d.
Proof.
  intros Hi Hl. rewrite <- (node_nil d i). apply node_congr; [done..|]. intros j Hj. rewrite lookup_nil.
  apply lookup_ge_None. unfold zlen in Hl. lia.
Qed.

Lemma node_drop l k d i c : 0 ≤ i → 0 ≤ k → 0 ≤ c → k = c * 2 ^ Z.of_nat d →
  node (drop (Z.to_nat k) l) d i = node l d (c + i).
Proof.
  intros Hi Hk Hc E. pose proof (two_pow_pos d). apply node_congr; [lia..|]. intros j Hj. rewrite lookup_drop. f_equal.
  rewrite <- Z2Nat.inj_add by nia. f_equal. nia.
Qed.

(** The sibling on the path of [p] at level [d]. *)
Definition sib (l : list uint256) (p : Z) (d : nat) : uint256 := node l d (if bit p d then up p d - 1 else up p d + 1).

Lemma node_path l p d : node l (S d) (up p (S d)) =
  if bit p d then BranchHash (sib l p d) (node l d (up p d)) else BranchHash (node l d (up p d)) (sib l p d).
Proof.
  cbn [node]. unfold sib. rewrite (up_bit p d). destruct (bit p d); cbn [bool_to_Z]; rewrite ?Z.add_0_r; [|done].
  f_equal; f_equal; lia.
Qed.

(** ** What a frontier holds: the left siblings on the path of leaf [p] *)
Fixpoint slots (l : list uint256) (p : Z) (d n : nat) : list (option uint256) :=
  match n with
  | O => []
  | S n => (if bit p d then Some (sib l p d) else None) :: slots l p (S d) n
  end.

Record on_path (l : list uint256) (p : Z) (f : FrontierCheckpoint) : Prop := mkOnPath {
  op_pos : 0 ≤ p < zlen l;
  op_size : size_ f = p + 1;
  op_left : left_ f = Some (if bit p 0 then sib l p 0 else node l 0 p);
  op_right : right_ f = if bit p 0 then Some (node l 0 p) else None;
  op_parents : ∃ n, parents_ f = slots l p 1 n ∧ p < 2 ^ Z.of_nat (S n) ∧ (n < MERKLE_DEPTH)%nat
}.

Lemma slots_length l p n : ∀ d, length (slots l p d n) = n.
Proof. induction n as [|n IH]; intros d; cbn; [done|]. by rewrite IH. Qed.

(** The left siblings are complete, so later leaves do not change them. *)
Lemma left_sib_extend l m p d : 0 ≤ p < zlen l → bit p d = true → sib (l ++ m) p d = sib l p d.
Proof.
  intros Hp Hb. unfold sib. rewrite Hb. pose proof (two_pow_pos d). pose proof (up_bit p d) as Hu. rewrite Hb in Hu. cbn in Hu.
  pose proof (up_nonneg p (S d) ltac:(lia)). pose proof (Z.mul_div_le p (2 ^ Z.of_nat d)). apply node_app; nia.
Qed.

Lemma slots_ext l l' p p' n : ∀ d, (∀ i, (d ≤ i)%nat → bit p i = bit p' i) →
  (∀ i, (d ≤ i)%nat → bit p i = true → sib l p i = sib l' p' i) → slots l p d n = slots l' p' d n.
Proof.
  induction n as [|n IH]; intros d Hb Hs; cbn [slots]; [done|]. rewrite <- (Hb d ltac:(lia)). f_equal.
  - destruct (bit p d) eqn:E; [|done]. by rewrite (Hs d).
  - apply IH; intros; [apply Hb|apply Hs]; by lia || done.
Qed.

Lemma on_path_extend l m p f : on_path l p f → on_path (l ++ m) p f.
Proof.
  intros [Hp Hs Hl Hr (n & Hn & Hlt & Hd)]. pose proof (zlen_nonneg m).
  assert (node (l ++ m) 0 p = node l 0 p) as E0 by (apply node_app; cbn; lia).
  split; rewrite ?E0, ?zlen_app; [lia|done| |done|].
  - rewrite Hl. destruct (bit p 0) eqn:E; [|done]. by rewrite left_sib_extend.
  - exists n. split; [|done]. rewrite Hn. apply slots_ext; [done|]. intros. by rewrite left_sib_extend.
Qed.

(** ** Appending *)
Lemma bit_succ_above p i : bit p 0 = false → (0 < i)%nat → up (p + 1) i = up p i.
Proof.
  intros Hb Hi. destruct i as [|i]; [lia|]. clear Hi. induction i as [|i IH].
  - pose proof (up_bit p 0) as Hu. rewrite Hb, up_0 in Hu. cbn [bool_to_Z] in Hu.
    rewrite (up_S (p + 1)), up_0. rewrite Hu at 1. rewrite up_S, up_0 in *. Z.to_euclidean_division_equations; lia.
  - rewrite up_S, IH. by rewrite (up_S p (S i)).
Qed.

Lemma carry_up p d : p + 1 = (up p d + 1) * 2 ^ Z.of_nat d → up (p + 1) d = up p d + 1.
Proof. intros ->. apply Z.div_mul. lia. Qed.

Lemma carry_above p d i : p + 1 = (up p d + 1) * 2 ^ Z.of_nat d → bit p d = false → (d < i)%nat → up (p + 1) i = up p i.
Proof.
  intros E Hb Hi. destruct i as [|i]; [lia|]. assert (d ≤ i)%nat as H by lia. clear Hi. induction H as [|i H IH].
  - rewrite !up_S, carry_up by done. pose proof (up_bit p d) as Hu. rewrite Hb in Hu. cbn in Hu. rewrite Hu. Z.to_euclidean_division_equations; lia.
  - rewrite up_S, IH. by rewrite (up_S p (S i)).
Qed.

Lemma propagate_frontier_ok l c p n : p + 1 = zlen l → ∀ d,
  0 ≤ p → p + 1 = (up p d + 1) * 2 ^ Z.of_nat d → p < 2 ^ Z.of_nat (d + n) →
  ∃ n', propagate_up (node l d (up p d)) (slots l p d n) = slots (l ++ [c]) (p + 1) d n' ∧ p + 1 < 2 ^ Z.of_nat (d + n') ∧
    (n' = n ∨ (n' = S n ∧ 2 ^ Z.of_nat (d + n) ≤ p + 1)).
Proof.
  intros Hlen. induction n as [|n IH]; intros d Hp Hc Hlt; cbn [slots propagate_up].
  - rewrite Nat.add_0_r in Hlt. pose proof (up_small p d ltac:(lia)) as E. exists 1%nat.
    rewrite E in *. cbn [slots]. assert (up (p + 1) d = 1) as E1 by (rewrite carry_up by lia; lia).
    unfold bit. unfold sib, bit. rewrite E1. cbn. rewrite node_app by (rewrite <- ?Hlen; lia). split; [done|].
    rewrite Nat.add_1_r, pow2_S, Nat.add_0_r. lia.
  - assert (bit (p + 1) d = negb (bit p d)) as Hneg by (unfold bit; rewrite carry_up, Z.add_1_r, Z.odd_succ by done; by rewrite Z.negb_odd).
    pose proof (two_pow_pos d). destruct (bit p d) eqn:Hb; cbn [propagate_up].
    + pose proof (node_path l p d) as Hn. rewrite Hb in Hn. rewrite <- Hn.
      assert (p + 1 = (up p (S d) + 1) * 2 ^ Z.of_nat (S d)) as Hc'.
      { pose proof (up_bit p d) as Hu. rewrite Hb in Hu. cbn [bool_to_Z] in Hu. generalize dependent (up p (S d)). intros u Hn Hu. rewrite pow2_S. nia. }
      destruct (IH (S d) Hp Hc') as (n' & -> & Hlt' & Hn'); [by rewrite Nat.add_succ_l, <- Nat.add_succ_r|].
      exists (S n'). cbn [slots]. rewrite Hneg. split; [done|]. rewrite !Nat.add_succ_r, <- !Nat.add_succ_l. split; [done|].
      destruct Hn' as [->|[-> ?]]; auto.
    + exists (S n). cbn [slots]. rewrite Hneg. cbn [negb].
      assert (sib (l ++ [c]) (p + 1) d = node l d (up p d)) as ->.
      { unfold sib. rewrite Hneg. cbn [negb]. rewrite carry_up by done. rewrite Z.add_simpl_r. apply node_app; [by apply up_nonneg|lia]. }
      assert (∀ i, (S d ≤ i)%nat → up (p + 1) i = up p i) as Hab by (intros; apply (carry_above p d); [done..|lia]).
      split_and!; [| |by left].
      * f_equal. apply slots_ext; intros i Hi; [unfold bit; by rewrite Hab|]. intros Hbi.
        unfold sib, bit. rewrite Hab by lia. fold (bit p i). rewrite Hbi.
        pose proof (left_sib_extend l [c] p i ltac:(lia) Hbi) as E. unfold sib in E. by rewrite Hbi in E.
      * assert (up (p + 1) (d + S n) = 0) as E0 by (rewrite Hab by lia; by apply up_small).
        apply up_zero_inv; [lia|done].
Qed.

Lemma append_frontier_first c : on_path [c] 0 (append_frontier empty_frontier c).
Proof. split; [unfold zlen; cbn; lia|done..|]. exists 0%nat. split; [done|]. cbn. split; [lia|]. unfold MERKLE_DEPTH. lia. Qed.

Lemma append_frontier_ok l p f c : on_path l p f → p + 1 = zlen l → p + 1 < 2 ^ 32 →
  on_path (l ++ [c]) (p + 1) (append_frontier f c) ∧
  (length (parents_ (append_frontier f c)) = length (parents_ f) ∨ 2 ^ zlen (parents_ (append_frontier f c)) ≤ p + 1).
Proof.
  intros [Hp Hs Hl Hr (n & Hn & Hlt & Hd)] Hlen Hmax.
  assert (node (l ++ [c]) 0 (p + 1) = c) as Hc.
  { cbn. rewrite lookup_app_r by (unfold zlen in *; lia). by replace (Z.to_nat (p + 1) - length l)%nat with 0%nat by (unfold zlen in *; lia). }
  assert (bit (p + 1) 0 = negb (bit p 0)) as Hneg by (unfold bit; rewrite !up_0, Z.add_1_r, Z.odd_succ; by rewrite Z.negb_odd).
  assert (node (l ++ [c]) 0 p = node l 0 p) as E0 by (apply node_app; cbn; lia).
  unfold append_frontier. rewrite Hl, Hr. destruct (bit p 0) eqn:Hb.
  - pose proof (node_path l p 0) as Hnp. rewrite Hb, up_0 in Hnp. rewrite Hn, <- Hnp.
    destruct (propagate_frontier_ok l c p n Hlen 1) as (n' & E & Hlt' & Hn'); [lia| |done|].
    { pose proof (up_bit p 0) as Hu. rewrite Hb, up_0 in Hu. cbn in *. lia. }
    cbn [parents_]. unfold zlen. rewrite E, !slots_length. split; [|destruct Hn' as [->|[-> Hn']]; [by left|by right]].
    split; cbn [size_ left_ right_ parents_]; rewrite ?Hneg; cbn [negb]; [rewrite zlen_app; change (zlen [c]) with 1; lia|rewrite u64_small; lia|by rewrite Hc|done|].
    exists n'. split_and!; [done|done|].
    destruct Hn' as [->|[-> Hn']]; [done|]. change MERKLE_DEPTH with 32%nat. apply Nat2Z.inj_lt.
    apply (Z.pow_lt_mono_r_iff 2); [lia..|]. change (S n) with (1 + n)%nat. lia.
  - split; [|by left].
    split; cbn [size_ left_ right_ parents_]; rewrite ?Hneg; cbn [negb]; [rewrite zlen_app; change (zlen [c]) with 1; lia|rewrite u64_small; lia| |by rewrite Hc|].
    + f_equal. unfold sib. rewrite Hneg, up_0. cbn [negb]. rewrite Z.add_simpl_r. by rewrite E0.
    + exists n. rewrite Hn. split_and!; [|..|done].
      * apply slots_ext; intros i Hi; [unfold bit; by rewrite bit_succ_above|]. intros Hbi.
        unfold sib, bit. rewrite bit_succ_above by (done || lia). fold (bit p i). rewrite Hbi.
        pose proof (left_sib_extend l [c] p i ltac:(lia) Hbi) as E. unfold sib in E. by rewrite Hbi in E.
      * pose proof (bit_succ_above p (S n) Hb ltac:(lia)) as E. rewrite (up_small p) in E by lia.
        apply up_zero_inv; [lia|done].
Qed.

(** ** Roots and paths

    [feeds l p d n q]: the queue [q], then empty subtrees, supplies the right
    siblings of the levels from [d] to [d + n - 1]. *)
Fixpoint feeds (l : list uint256) (p : Z) (d n : nat) (q : list uint256) : Prop :=
  match n with
  | O => True
  | S n =>
      if bit p d then feeds l p (S d) n q
      else
        match q with
        | h :: q => h = sib l p d ∧ feeds l p (S d) n q
        | [] => empty_table d = sib l p d ∧ feeds l p (S d) n []
        end
  end.

Lemma Next_ok l p d n q : bit p d = false → (d ≤ MERKLE_DEPTH)%nat → feeds l p d (S n) q →
  ∃ q', Next q d = Ok (sib l p d, q') ∧ feeds l p (S d) n q'.
Proof.
  intros Hb Hd. cbn [feeds]. rewrite Hb. destruct q as [|h q]; intros [E H]; cbn [Next].
  - exists []. unfold EmptyRoot. destruct (Nat.ltb_spec MERKLE_DEPTH d); [lia|]. rewrite bind_Ok. by rewrite E.
  - exists q. by rewrite E.
Qed.

Lemma feeds_left l p d n q : bit p d = true → feeds l p d (S n) q → feeds l p (S d) n q.
Proof. cbn [feeds]. by intros ->. Qed.

Lemma root_parents_ok l p k n : ∀ d q, (d + n ≤ S MERKLE_DEPTH)%nat → feeds l p d (n + k) q →
  ∃ q', root_parents (slots l p d n) d (node l d (up p d)) q = Ok ((d + n)%nat, node l (d + n) (up p (d + n)), q') ∧
    feeds l p (d + n) k q'.
Proof.
  induction n as [|n IH]; intros d q Hd Hq; cbn [slots root_parents]; [rewrite Nat.add_0_r; by exists q|].
  replace (d + S n)%nat with (S d + n)%nat by lia. change (S n + k)%nat with (S (n + k)) in Hq.
  pose proof (node_path l p d) as Hn. destruct (bit p d) eqn:Hb; cbn [root_parents].
  - rewrite <- Hn. apply (IH (S d)); [lia|]. by apply feeds_left.
  - destruct (Next_ok l p d (n + k) q) as (q' & -> & Hq'); [done|lia|done|]. rewrite bind_Ok, <- Hn. apply (IH (S d)); [lia|done].
Qed.

Lemma root_rest_ok l p n : ∀ d q, (d + n ≤ S MERKLE_DEPTH)%nat → 0 ≤ p < 2 ^ Z.of_nat d → feeds l p d n q →
  root_rest n d (node l d (up p d)) q = Ok (node l (d + n) (up p (d + n))).
Proof.
  induction n as [|n IH]; intros d q Hd Hp Hq; cbn [root_rest]; [by rewrite Nat.add_0_r|].
  assert (bit p d = false) as Hb by by apply bit_zero. pose proof (node_path l p d) as Hn. rewrite Hb in Hn.
  destruct (Next_ok l p d n q) as (q' & -> & Hq'); [done|lia|done|]. rewrite bind_Ok, <- Hn.
  replace (d + S n)%nat with (S d + n)%nat by lia. apply IH; [lia|rewrite pow2_S; lia|done].
Qed.

Lemma frontier_Root_ok l p f depth q : on_path l p f → p < 2 ^ Z.of_nat depth → (depth ≤ MERKLE_DEPTH)%nat →
  (length (parents_ f) < depth)%nat → feeds l p 0 depth q →
  frontier_Root f depth q = Ok (node l depth 0).
Proof.
  intros [Hp Hs Hl Hr (n & Hn & Hlt & _)] Hd HD Hlen Hq. unfold frontier_Root.
  rewrite Hs. destruct (Z.eqb_spec (p + 1) 0); [lia|]. rewrite Hl, Hr. cbn [opt_get]. rewrite bind_Ok.
  rewrite Hn, slots_length in Hlen. destruct depth as [|depth]; [lia|].
  pose proof (node_path l p 0) as Hnp. rewrite up_0 in Hnp.
  assert (∃ q', (match (if bit p 0 then Some (node l 0 p) else None) with
      | Some r => Ok (BranchHash (if bit p 0 then sib l p 0 else node l 0 p) r, q)
      | None => '(h, filler) ← Next q 0; Ok (BranchHash (if bit p 0 then sib l p 0 else node l 0 p) h, filler)
      end) = Ok (node l 1 (up p 1), q') ∧ feeds l p 1 depth q') as (q' & -> & Hq').
  { destruct (bit p 0) eqn:Hb; rewrite Hnp.
    - exists q. split; [done|]. by apply feeds_left.
    - destruct (Next_ok l p 0 depth q) as (q' & -> & Hq'); [done|lia|done|]. by exists q'. }
  rewrite bind_Ok, Hn. destruct (root_parents_ok l p (depth - n) n 1 q') as (q'' & -> & Hq''); [lia|by replace (n + (depth - n))%nat with depth by lia|].
  rewrite bind_Ok. replace (S depth - (1 + n))%nat with (depth - n)%nat by lia.
  rewrite root_rest_ok; [|lia|change (1 + n)%nat with (S n); lia|done].
  replace (1 + n + (depth - n))%nat with (S depth) by lia. by rewrite (up_small p (S depth)) by lia.
Qed.

(** With no leaf after [p], the empty subtrees are the right siblings. *)
Lemma feeds_empty l p : p + 1 = zlen l → 0 ≤ p → ∀ n d, feeds l p d n [].
Proof.
  intros Hl Hp. induction n as [|n IH]; intros d; cbn [feeds]; [done|]. destruct (bit p d) eqn:Hb; [apply IH|]. split; [|apply IH].
  unfold sib. rewrite Hb. pose proof (up_nonneg p d Hp). pose proof (two_pow_pos d).
  rewrite node_empty; [done|lia|]. pose proof (Z.mul_succ_div_gt p (2 ^ Z.of_nat d)). lia.
Qed.

(** *** The authentication path *)
Definition auth (l : list uint256) (p : Z) (d n : nat) : list uint256 := sib l p <$> seq d n.

Lemma auth_snoc l p n : auth l p 0 (S n) = auth l p 0 n ++ [sib l p n].
Proof. unfold auth. by rewrite seq_S, fmap_app. Qed.

Definition path_upto (l : list uint256) (p : Z) (d : nat) (path : list uint256) : Prop :=
  ∃ rest, path = auth l p 0 d ++ rest ∧ length path = MERKLE_DEPTH.

Lemma auth_length l p d n : length (auth l p d n) = n.
Proof. unfold auth. by rewrite length_fmap, length_seq. Qed.

Lemma path_upto_set l p d path : path_upto l p d path → (d < MERKLE_DEPTH)%nat →
  ∃ path', vset path (Z.of_nat d) (sib l p d) = Ok path' ∧ path_upto l p (S d) path'.
Proof.
  intros (rest & -> & Hlen) Hd. rewrite length_app, auth_length in Hlen. destruct rest as [|r rest]; cbn in Hlen; [lia|].
  rewrite vset_Ok by (unfold zlen; rewrite length_app, auth_length; cbn; lia).
  eexists. split; [done|]. exists rest. rewrite auth_snoc, <- app_assoc, Nat2Z.id.
  rewrite insert_app_r_alt, auth_length, Nat.sub_diag by (rewrite auth_length; lia). cbn.
  split; [done|]. rewrite length_app, auth_length. cbn. lia.
Qed.

Lemma path_parents_ok l p k n : ∀ d q path, (d + n ≤ MERKLE_DEPTH)%nat → feeds l p d (n + k) q → path_upto l p d path →
  ∃ path' q', path_parents (slots l p d n) d path q = Ok ((d + n)%nat, path', q') ∧ path_upto l p (d + n) path' ∧ feeds l p (d + n) k q'.
Proof.
  induction n as [|n IH]; intros d q path Hd Hq Hpath; cbn [slots path_parents]; [rewrite Nat.add_0_r; by eauto|].
  replace (d + S n)%nat with (S d + n)%nat by lia. change (S n + k)%nat with (S (n + k)) in Hq.
  destruct (path_upto_set l p d path) as (path' & E & Hpath'); [done|lia|].
  destruct (bit p d) eqn:Hb; cbn [path_parents].
  - rewrite E, bind_Ok. apply (IH (S d)); [lia|by apply feeds_left|done].
  - destruct (Next_ok l p d (n + k) q) as (q' & -> & Hq'); [done|lia|done|]. rewrite bind_Ok, E, bind_Ok. by apply (IH (S d)); [lia|..].
Qed.

Lemma path_rest_ok l p n : ∀ d q path, (d + n = MERKLE_DEPTH)%nat → 0 ≤ p < 2 ^ Z.of_nat d → feeds l p d n q → path_upto l p d path →
  path_rest n d path q = Ok (auth l p 0 MERKLE_DEPTH).
Proof.
  induction n as [|n IH]; intros d q path Hd Hp Hq Hpath; cbn [path_rest].
  - rewrite Nat.add_0_r in Hd. subst d. destruct Hpath as (rest & -> & Hlen). rewrite length_app, auth_length in Hlen.
    destruct rest; [by rewrite app_nil_r|cbn [length] in Hlen; lia].
  - destruct (path_upto_set l p d path) as (path' & E & Hpath'); [done|lia|].
    destruct (Next_ok l p d n q) as (q' & -> & Hq'); [by apply bit_zero|lia|done|].
    rewrite bind_Ok, E, bind_Ok. apply IH; [lia|rewrite pow2_S; lia|done..].
Qed.

Lemma climb_path_ok l p n : ∀ d, climb (auth l p d n) (up p d) (node l d (up p d)) = node l (d + n) (up p (d + n)).
Proof.
  induction n as [|n IH]; intros d; [by rewrite Nat.add_0_r|].
  change (auth l p d (S n)) with (sib l p d :: auth l p (S d) n). cbn [climb].
  rewrite <- Z.div2_spec, Z.div2_div, <- up_S. fold (bit p d). rewrite <- node_path.
  rewrite IH. by replace (S d + n)%nat with (d + S n)%nat by lia.
Qed.

(** ** Frontiers that appending builds *)
Definition built (l : list uint256) (f : FrontierCheckpoint) : Prop :=
  (l = [] ∧ f = empty_frontier) ∨
  (on_path l (zlen l - 1) f ∧ (parents_ f = [] ∨ 2 ^ zlen (parents_ f) ≤ zlen l - 1)).

Lemma built_empty : built [] empty_frontier.
Proof. by left. Qed.

Lemma built_size l f : built l f → size_ f = zlen l.
Proof. intros [[-> ->]|[H _]]; [done|]. rewrite (op_size _ _ _ H). lia. Qed.

Lemma built_append l f c : built l f → zlen l < 2 ^ 32 → built (l ++ [c]) (append_frontier f c).
Proof.
  intros [[-> ->]|[H Hn]] Hl; right; [split; [apply append_frontier_first|by left]|].
  destruct (append_frontier_ok l (zlen l - 1) f c) as [H' Hn']; [done|lia..|]. rewrite zlen_app. change (zlen [c]) with 1.
  replace (zlen l - 1 + 1) with (zlen l + 1 - 1) in * by lia. split; [done|].
  destruct Hn' as [E|?]; [|by right]. destruct Hn as [Hn|Hn].
  - left. apply nil_length_inv. by rewrite E, Hn.
  - right. unfold zlen in *. rewrite E. lia.
Qed.

(** The fold of [append_frontier] over the leaves. *)
Lemma built_appends m : ∀ l f, built l f → zlen l + zlen m ≤ 2 ^ 32 → built (l ++ m) (foldl append_frontier f m).
Proof.
  induction m as [|c m IH]; intros l f Hb Hl; cbn [foldl]; [by rewrite app_nil_r|].
  rewrite cons_middle, app_assoc. change (c :: m) with ([c] ++ m) in Hl. rewrite zlen_app in Hl. change (zlen [c]) with 1 in Hl.
  pose proof (zlen_nonneg m). apply IH; [apply built_append; [done|lia]|]. rewrite zlen_app. change (zlen [c]) with 1. lia.
Qed.

Lemma built_Root l f depth : built l f → zlen l ≤ 2 ^ Z.of_nat depth → (0 < depth ≤ MERKLE_DEPTH)%nat →
  frontier_Root f depth [] = Ok (node l depth 0).
Proof.
  intros [[-> ->]|[H Hn]] Hl Hd.
  - unfold frontier_Root, EmptyRoot. cbn [size_ empty_frontier]. change (0 =? 0) with true. cbn iota.
    destruct (Nat.ltb_spec MERKLE_DEPTH depth); [lia|]. by rewrite node_nil.
  - pose proof (op_pos _ _ _ H). apply (frontier_Root_ok l (zlen l - 1)); [done|lia|lia| |apply feeds_empty; lia].
    destruct Hn as [->|Hn]; [cbn; lia|]. apply Nat2Z.inj_lt, (Z.pow_lt_mono_r_iff 2); [lia..|]. unfold zlen in *. lia.
Qed.

(** ** The hashes are FIPS 180-4 digests, so roots bind the leaves *)
Definition sha_collision : Prop := ∃ x y, x ≠ y ∧ fips.sha256 x = fips.sha256 y.

Lemma BranchHash_fips a b : BranchHash a b = fips.sha256 (chars "BTX_Shielded_Branch_V1" ++ a ++ b).
Proof.
  rewrite app_assoc. Transparent BranchHash. unfold BranchHash. Opaque BranchHash. apply sha_Finalize_fips.
  do 2 apply sha_Write_represents. change (chars "BTX_Shielded_Branch_V1") with ([] ++ chars "BTX_Shielded_Branch_V1") at 2.
  apply sha_Write_represents, represents_new.
Qed.

Lemma EmptyLeafHash_fips : EmptyLeafHash = fips.sha256 (chars "BTX_Shielded_Empty_Leaf_V1").
Proof.
  Transparent EmptyLeafHash. unfold EmptyLeafHash. Opaque EmptyLeafHash. apply sha_Finalize_fips.
  change (chars "BTX_Shielded_Empty_Leaf_V1") with ([] ++ chars "BTX_Shielded_Empty_Leaf_V1") at 2. apply sha_Write_represents, represents_new.
Qed.

Lemma BranchHash_length a b : length (BranchHash a b) = 32%nat.
Proof. rewrite BranchHash_fips. apply sha256_length. Qed.

Lemma BranchHash_inj a b a' b' : length a = length a' → BranchHash a b = BranchHash a' b' → (a = a' ∧ b = b') ∨ sha_collision.
Proof.
  rewrite !BranchHash_fips. intros Hl E.
  destruct (decide (a ++ b = a' ++ b')) as [E'|Hne]; [left; by apply app_inj_1|right].
  eexists _, _. split; [|exact E]. intros E'. by apply app_inv_head in E'.
Qed.

Definition hashes_ok (l : list uint256) : Prop := Forall (λ h, length h = 32%nat) l.

Lemma leaf_length l i : hashes_ok l → length (node l 0 i) = 32%nat.
Proof.
  intros Hl. cbn. destruct (l !! Z.to_nat i) as [h|] eqn:E; cbn; [|rewrite EmptyLeafHash_fips; apply sha256_length].
  by apply (Forall_lookup_1 _ _ _ _ Hl E).
Qed.

Lemma node_leaf l i : node l 0 i = default EmptyLeafHash (l !! Z.to_nat i).
Proof. done. Qed.

Lemma node_length l d i : hashes_ok l → length (node l d i) = 32%nat.
Proof. intros Hl. destruct d; [by apply leaf_length|apply BranchHash_length]. Qed.

Lemma node_inj l l' d : hashes_ok l → hashes_ok l' → ∀ i, 0 ≤ i → node l d i = node l' d i →
  (∀ j, i * 2 ^ Z.of_nat d ≤ j < (i + 1) * 2 ^ Z.of_nat d → node l 0 j = node l' 0 j) ∨ sha_collision.
Proof.
  intros Hl Hl'. induction d as [|d IH]; intros i Hi E.
  - left. intros j Hj. change (2 ^ Z.of_nat 0) with 1 in Hj. by replace j with i by lia.
  - cbn [node] in E. apply BranchHash_inj in E as [[E1 E2]|?]; [|by right|by rewrite !node_length].
    destruct (IH (2 * i) ltac:(lia) E1) as [H1|]; [|by right]. destruct (IH (2 * i + 1) ltac:(lia) E2) as [H2|]; [|by right].
    left. intros j Hj. rewrite pow2_S in Hj. destruct (decide (j < (2 * i + 1) * 2 ^ Z.of_nat d)); [apply H1|apply H2]; lia.
Qed.

(** Injectivity without evaluating the hashes inside. *)
Lemma Ok_inj {A} (a b : A) : Ok a = Ok b → a = b.
Proof. by intros [= ->]. Qed.

#[local] Opaque node.

Lemma commitment_root_inj l l' : hashes_ok l → hashes_ok l' → zlen l = zlen l' → zlen l ≤ 2 ^ 32 →
  commitment_root l = commitment_root l' → l = l' ∨ sha_collision.
Proof.
  intros Hl Hl' Hlen Hmax E. unfold commitment_root in E. destruct (node_inj l l' MERKLE_DEPTH Hl Hl' 0 ltac:(lia) E) as [E'|Hc]; [left; clear E; rename E' into E|right; exact Hc].
  apply list_eq_same_length with (length l); [by unfold zlen in Hlen; lia|done|]. intros i x y Hi Hx Hy.
  specialize (E (Z.of_nat i)). rewrite !node_leaf, Nat2Z.id, Hx, Hy in E. apply E. change (Z.of_nat MERKLE_DEPTH) with 32. unfold zlen in Hmax. lia.
Qed.

Lemma climb_inj path : ∀ pos h h', length h = 32%nat → length h' = 32%nat → climb path pos h = climb path pos h' → h = h' ∨ sha_collision.
Proof.
  induction path as [|x path IH]; intros pos h h' Hh Hh' E; cbn [climb] in E; [by left|].
  apply IH in E; [|by destruct (Z.odd pos); apply BranchHash_length..]. destruct E as [E|]; [|by right].
  destruct (Z.odd pos); apply BranchHash_inj in E; [| |..]; (lia || done || idtac); destruct E as [[? ?]|]; auto.
Qed.
