(* ===== verification/ShieldedWitness.v ===== *)
(** Witnesses follow the commitment tree.

    A witness made when a leaf was the last one, and updated with every leaf
    appended since, computes the root of the tree and the siblings of its leaf
    in the tree, and so verifies exactly its leaf. *)

From Stdlib Require Import ZArith Lia String.
From stdpp Require Import base list gmap numbers tactics.
From S2P Require Import Prelude Sha256 Header ShieldedTree ShieldedFrontier.
Import sha256 block_header shielded_tree.

Open Scope Z_scope.

#[local] Opaque BranchHash EmptyLeafHash.

(** The number of leaves before the right sibling of level [d]. *)
Definition bound (p : Z) (d : nat) : Z := (up p d + 1) * 2 ^ Z.of_nat d.

Lemma bound_S p d : bound p (S d) = if bit p d then bound p d else bound p d + 2 ^ Z.of_nat d.
Proof.
  unfold bound. pose proof (up_bit p d) as Hu. generalize dependent (up p (S d)). intros u Hu. rewrite pow2_S. destruct (bit p d); cbn in Hu; lia.
Qed.

Lemma bound_0 p : bound p 0 = p + 1.
Proof. unfold bound. rewrite up_0. cbn. lia. Qed.

Lemma bound_pos p d : 0 ≤ p → 0 < bound p d.
Proof. intros. unfold bound. pose proof (up_nonneg p d). pose proof (two_pow_pos d). nia. Qed.

Lemma bound_top p : 0 ≤ p → 2 ^ 32 ≤ bound p MERKLE_DEPTH.
Proof. intros Hp. unfold bound. pose proof (up_nonneg p MERKLE_DEPTH Hp). change (Z.of_nat MERKLE_DEPTH) with 32 in *. lia. Qed.

Lemma bound_mono p d e : (d ≤ e)%nat → bound p d ≤ bound p e.
Proof. induction 1 as [|e H IH]; [lia|]. rewrite bound_S. pose proof (two_pow_pos e). destruct (bit p e); lia. Qed.

Lemma bound_skip p d e : (d ≤ e)%nat → (∀ i, (d ≤ i < e)%nat → bit p i = true) → bound p e = bound p d.
Proof. induction 1 as [|e H IH]; intros Hb; [done|]. rewrite bound_S, (Hb e) by lia. apply IH. intros. apply Hb. lia. Qed.

(** The right siblings of the levels from [d]. *)
Fixpoint uncles (l : list uint256) (p : Z) (d n : nat) : list uint256 :=
  match n with
  | O => []
  | S n => (if bit p d then [] else [sib l p d]) ++ uncles l p (S d) n
  end.

Lemma uncles_snoc l p n : ∀ d, uncles l p d (S n) = uncles l p d n ++ (if bit p (d + n) then [] else [sib l p (d + n)]).
Proof.
  induction n as [|n IH]; intros d; [cbn; rewrite Nat.add_0_r; by rewrite app_nil_r|].
  cbn [uncles]. cbn [uncles] in IH. rewrite IH. replace (S d + n)%nat with (d + S n)%nat by lia. by rewrite app_assoc.
Qed.

Lemma uncles_skip l p d n m : (n ≤ m)%nat → (∀ i, (d + n ≤ i < d + m)%nat → bit p i = true) → uncles l p d m = uncles l p d n.
Proof.
  induction 1 as [|m H IH]; intros Hb; [done|]. rewrite uncles_snoc, Hb by lia. rewrite app_nil_r. apply IH. intros. apply Hb. lia.
Qed.

Lemma feeds_uncles l p q k : ∀ d n, feeds l p (d + k) n q → feeds l p d (k + n) (uncles l p d k ++ q).
Proof.
  induction k as [|k IH]; intros d n H; [by rewrite Nat.add_0_r in H|]. cbn [Nat.add feeds uncles].
  rewrite Nat.add_succ_r, <- Nat.add_succ_l in H. destruct (bit p d); [by apply IH|]. cbn. split; [done|]. by apply IH.
Qed.

(** Beyond the last leaf the right siblings are empty. *)
Lemma right_sib_empty l p d : 0 ≤ p → bit p d = false → zlen l ≤ bound p d → sib l p d = empty_table d.
Proof. intros Hp Hb Hl. unfold sib. rewrite Hb. apply node_empty; [pose proof (up_nonneg p d Hp); lia|done]. Qed.

Lemma feeds_beyond l p n : ∀ d, 0 ≤ p → zlen l ≤ bound p d → feeds l p d n [].
Proof.
  induction n as [|n IH]; intros d Hp Hl; cbn [feeds]; [done|].
  assert (feeds l p (S d) n []) by (apply IH; [done|]; pose proof (bound_mono p d (S d)); lia).
  destruct (bit p d) eqn:Hb; [done|]. split; [|done]. by rewrite right_sib_empty.
Qed.

(** A right sibling that is complete does not change. *)
Lemma right_sib_extend l m p d : 0 ≤ p → bit p d = false → bound p (S d) ≤ zlen l → sib (l ++ m) p d = sib l p d.
Proof.
  intros Hp Hb Hl. rewrite bound_S, Hb in Hl. unfold bound in Hl. unfold sib. rewrite Hb. pose proof (up_nonneg p d Hp). apply node_app; lia.
Qed.

Lemma uncles_extend l m p n : ∀ d, 0 ≤ p → bound p (d + n) ≤ zlen l → uncles (l ++ m) p d n = uncles l p d n.
Proof.
  induction n as [|n IH]; intros d Hp Hl; cbn [uncles]; [done|].
  rewrite Nat.add_succ_r, <- Nat.add_succ_l in Hl. rewrite IH by done. destruct (bit p d) eqn:Hb; [done|].
  rewrite right_sib_extend; [done..|]. pose proof (bound_mono p (S d) (S d + n)). lia.
Qed.

Lemma next_zero p : 0 ≤ p < 2 ^ 32 → ∀ d, (d ≤ MERKLE_DEPTH)%nat →
  ∃ D, (d ≤ D ≤ MERKLE_DEPTH)%nat ∧ bit p D = false ∧ ∀ i, (d ≤ i < D)%nat → bit p i = true.
Proof.
  intros Hp d Hd. remember (MERKLE_DEPTH - d)%nat as n eqn:Hn. revert d Hd Hn. induction n as [|n IH]; intros d Hd Hn.
  - exists d. replace d with MERKLE_DEPTH by lia. split_and!; [lia..| |lia]. by apply bit_zero.
  - destruct (bit p d) eqn:Hb; [|exists d; split_and!; by lia || done].
    destruct (IH (S d)) as (D & HD & Hz & Ho); [lia..|]. exists D. split_and!; [lia..|done|].
    intros i Hi. destruct (decide (i = d)) as [->|]; [done|]. apply Ho. lia.
Qed.

(** ** The invariant of a witness of leaf [p] in the tree of leaves [l]

    [D] is the level whose right sibling is being filled. *)
Record tracking (l : list uint256) (p : Z) (w : ShieldedMerkleWitness) (D : nat) : Prop := mkTracking {
  tr_tree : on_path l p (frontier (tree_ w));
  tr_max : zlen l ≤ 2 ^ 32;
  tr_depth : (D ≤ MERKLE_DEPTH)%nat;
  tr_bit : bit p D = false;
  tr_filled : filled_ w = uncles l p 0 D;
  tr_cursor :
    match cursor_ w with
    | None => zlen l = bound p D
    | Some c =>
        (0 < D)%nat ∧ cursor_depth_ w = D ∧ bound p D < zlen l < bound p D + 2 ^ Z.of_nat D ∧
        built (drop (Z.to_nat (bound p D)) l) (frontier c) ∧ commitment_index_enabled_ c = false ∧ frontier_checkpoints_ c = None
    end
}.

Section witnesses.
Context `{LevelDB} `{CacheLock}.

Lemma Append_unindexed t (w : World) c l : commitment_index_enabled_ t = false → frontier_checkpoints_ t = None →
  built l (frontier t) → zlen l < 2 ^ 32 → Append t w c = Ok (set_frontier t (append_frontier (frontier t) c), w).
Proof.
  intros He Hc Hb Hl. unfold Append, WriteCommitmentAt, Size. rewrite (built_size _ _ Hb).
  rewrite throw_if_false by (apply Z.leb_gt; done). rewrite bind_Ok, He. cbn [negb]. rewrite bind_Ok, throw_if_false, bind_Ok by done.
  unfold MaybeRecordFrontierCheckpoint. cbn [set_frontier frontier_checkpoints_]. by rewrite Hc.
Qed.

Lemma next_parents_ok l p n : ∀ d k, 0 ≤ p < 2 ^ Z.of_nat (d + n) → bit p (d + k) = false →
  next_parents (slots l p d n) d (length (uncles l p d k)) = (d + k)%nat.
Proof.
  induction n as [|n IH]; intros d k Hp Hz; cbn [slots next_parents].
  - rewrite Nat.add_0_r in Hp. f_equal. clear Hz. revert d Hp. induction k as [|k IHk]; intros d Hp; [done|]. cbn [uncles].
    rewrite bit_zero by done. cbn. f_equal. apply IHk. rewrite pow2_S. lia.
  - rewrite Nat.add_succ_r, <- Nat.add_succ_l in Hp. destruct k as [|k].
    + rewrite Nat.add_0_r in *. rewrite Hz. done.
    + rewrite Nat.add_succ_r, <- Nat.add_succ_l in Hz. cbn [uncles]. rewrite Nat.add_succ_r, <- Nat.add_succ_l.
      destruct (bit p d); cbn [app length]; by apply IH.
Qed.

Lemma NextDepth_ok l p w D : tracking l p w D → NextDepth w (length (filled_ w)) = D.
Proof.
  intros [[Hp _ Hl Hr (n & Hn & Hlt & _)] _ _ Hz Hf _]. unfold NextDepth. rewrite Hl, Hr, Hf, Hn.
  destruct D as [|D]; [by rewrite Hz|]. pose proof (next_parents_ok l p n 1 D ltac:(change (1 + n)%nat with (S n); lia) Hz) as E.
  cbn [uncles]. destruct (bit p 0) eqn:Hb; cbn [app length]; by rewrite E.
Qed.

(** The right siblings the witness supplies. *)
Lemma PartialPath_ok l p w D : tracking l p w D → ∃ q, PartialPath w = Ok q ∧ feeds l p 0 MERKLE_DEPTH q.
Proof.
  intros [[Hp _ _ _ _] Hmax HD Hz Hf Hc]. unfold PartialPath. destruct (cursor_ w) as [c|].
  - destruct Hc as (HD0 & -> & Hb & Hbuilt & _). assert (0 ≤ bound p D) by (unfold bound; pose proof (up_nonneg p D); pose proof (two_pow_pos D); nia).
    rewrite (built_Root _ _ D Hbuilt) by (unfold zlen in *; rewrite ?length_drop; lia). rewrite bind_Ok. eexists. split; [done|].
    assert (node (drop (Z.to_nat (bound p D)) l) D 0 = sib l p D) as ->.
    { unfold sib. rewrite Hz. rewrite (node_drop l (bound p D) D 0 (up p D + 1)); [f_equal; lia|lia|done|pose proof (up_nonneg p D); lia|done]. }
    assert (2 ^ 32 ≤ bound p MERKLE_DEPTH) as Htop by (apply bound_top; lia).
    rewrite Hf. destruct (decide (D = MERKLE_DEPTH)) as [->|]; [lia|].
    replace MERKLE_DEPTH with (D + S (MERKLE_DEPTH - S D))%nat by lia. apply feeds_uncles. cbn [Nat.add feeds]. rewrite Hz. split; [done|].
    apply feeds_beyond; [lia|]. rewrite bound_S, Hz. lia.
  - eexists. split; [done|]. rewrite Hf. replace MERKLE_DEPTH with (D + (MERKLE_DEPTH - D))%nat by lia.
    rewrite <- (app_nil_r (uncles l p 0 D)). apply feeds_uncles. apply feeds_beyond; cbn; lia.
Qed.

(** Moving on to the next right sibling once that of level [D] is complete. *)
Lemma tracking_next l p t D : on_path l p (frontier t) → zlen l ≤ 2 ^ 32 → (D < MERKLE_DEPTH)%nat → bit p D = false →
  zlen l = bound p D + 2 ^ Z.of_nat D →
  ∃ D', tracking l p (mkWitness t (uncles l p 0 D ++ [sib l p D]) None 0) D'.
Proof.
  intros Ht Hmax HD Hz Hl. pose proof (op_pos _ _ _ Ht).
  destruct (next_zero p ltac:(lia) (S D)) as (D' & HD' & Hz' & Ho); [lia|]. exists D'.
  split; cbn [tree_ filled_ cursor_ cursor_depth_]; [done..|lia|done| |].
  - rewrite (uncles_skip l p 0 (S D) D') by (lia || by apply Ho). rewrite uncles_snoc. cbn [Nat.add]. by rewrite Hz.
  - rewrite (bound_skip p (S D) D') by (lia || done). by rewrite bound_S, Hz.
Qed.

Lemma tracking_update l p w D s c : tracking l p w D → zlen l < 2 ^ 32 →
  ∃ w' D', IncrementalUpdate w s c = Ok (w', s) ∧ tracking (l ++ [c]) p w' D'.
Proof.
  intros Htr Hl. pose proof (NextDepth_ok _ _ _ _ Htr) as Hnd. destruct Htr as [Ht _ HD Hz Hf Hc].
  pose proof (op_pos _ _ _ Ht) as Hp. pose proof (bound_pos p D ltac:(lia)) as Hbp.
  assert (zlen (l ++ [c]) = zlen l + 1) as Hlen by (rewrite zlen_app; done).
  assert (uncles (l ++ [c]) p 0 D = uncles l p 0 D) as Hu.
  { apply uncles_extend; [lia|]. cbn [Nat.add]. destruct (cursor_ w); [destruct Hc as (_ & _ & ? & _)|]; lia. }
  assert (D < MERKLE_DEPTH)%nat as HD'.
  { destruct (decide (D = MERKLE_DEPTH)) as [->|]; [|lia]. exfalso.
    assert (2 ^ 32 ≤ bound p MERKLE_DEPTH) by (apply bound_top; lia).
    destruct (cursor_ w); [destruct Hc as (_ & _ & ? & _)|]; lia. }
  pose proof (on_path_extend l [c] p _ Ht) as Ht'.
  unfold IncrementalUpdate. rewrite Hnd. destruct (cursor_ w) as [k|] eqn:Ecur.
  - destruct Hc as (HD0 & Ecd & Hb & Hbuilt & Hen & Hcp).
    assert (zlen (drop (Z.to_nat (bound p D)) l) = zlen l - bound p D) as Hdl by (unfold zlen in *; rewrite length_drop; lia).
    rewrite (Append_unindexed k s c _ Hen Hcp Hbuilt) by lia. rewrite bind_Ok.
    pose proof (built_append _ _ c Hbuilt ltac:(lia)) as Hbuilt'.
    rewrite <- (drop_app_le l [c] (Z.to_nat (bound p D))) in Hbuilt' by (unfold zlen in *; lia).
    assert (zlen (drop (Z.to_nat (bound p D)) (l ++ [c])) = zlen l + 1 - bound p D) as Hdl' by (unfold zlen in *; rewrite length_drop; lia).
    unfold Size. cbn [set_frontier frontier]. rewrite (built_size _ _ Hbuilt'), Hdl', Ecd.
    assert (2 ^ Z.of_nat D ≤ 2 ^ 32) by (apply Z.pow_le_mono_r; unfold MERKLE_DEPTH in *; lia).
    rewrite Z.shiftl_1_l, u64_small by lia. destruct (Z.eqb_spec (zlen l + 1 - bound p D) (2 ^ Z.of_nat D)) as [E|E].
    + rewrite (built_Root _ _ D Hbuilt') by (rewrite ?Hdl'; lia). rewrite bind_Ok.
      assert (node (drop (Z.to_nat (bound p D)) (l ++ [c])) D 0 = sib (l ++ [c]) p D) as ->.
      { unfold sib. rewrite Hz. rewrite (node_drop (l ++ [c]) (bound p D) D 0 (up p D + 1)); [f_equal; lia|lia..|pose proof (up_nonneg p D); lia|done]. }
      rewrite Hf, <- Hu. destruct (tracking_next (l ++ [c]) p (tree_ w) D) as (D' & Htr'); [done|lia..|done|lia|]. eauto.
    + eexists _, D. split; [done|]. split; cbn [tree_ filled_ cursor_ cursor_depth_]; [done|lia|done|done|by rewrite Hf|].
      split_and!; [done|done|lia|lia|done..].
  - destruct D as [|D].
    + cbn [Nat.eqb]. cbn in Hf. rewrite Hf.
      destruct (tracking_next (l ++ [c]) p (tree_ w) 0) as (D' & Htr'); [done|lia|lia|done|cbn; lia|].
      assert (sib (l ++ [c]) p 0 = c) as Es.
      { unfold sib. rewrite Hz. cbn. rewrite bound_0 in Hc. rewrite up_0, lookup_app_r by (unfold zlen in *; lia).
        by replace (Z.to_nat (p + 1) - length l)%nat with 0%nat by (unfold zlen in *; lia). }
      rewrite Es in Htr'. cbn [uncles app] in Htr'. eexists _, D'. split; [done|]. destruct Htr'. by split.
    + cbn [Nat.eqb]. rewrite (Append_unindexed (tree_new s NO_INDEX) s c []) by (done || apply built_empty). rewrite bind_Ok.
      eexists _, (S D). split; [done|].
      split; cbn [tree_ filled_ cursor_ cursor_depth_]; [done|lia|done|done|by rewrite Hf|].
      pose proof (two_pow_pos D). rewrite (pow2_S D).
      split_and!; [lia|done|lia|lia| |done..].
      rewrite drop_app_le, drop_ge by (unfold zlen in *; lia). right. split; [apply append_frontier_first|by left].
Qed.

#[local] Opaque node.

(** A witness whose right siblings are supplied. *)
Definition supplied (l : list uint256) (p : Z) (w : ShieldedMerkleWitness) : Prop :=
  on_path l p (frontier (tree_ w)) ∧ zlen l ≤ 2 ^ 32 ∧ ∃ q, PartialPath w = Ok q ∧ feeds l p 0 MERKLE_DEPTH q.

Lemma tracking_supplied l p w D : tracking l p w D → supplied l p w.
Proof. intros Htr. split_and!; [apply Htr..|]. by apply (PartialPath_ok _ _ _ D). Qed.

Lemma witness_Root_ok l p w : supplied l p w → witness_Root w = Ok (commitment_root l).
Proof.
  intros (Ht & Hmax & q & Hq & Hf). unfold witness_Root. rewrite Hq, bind_Ok.
  pose proof (op_pos _ _ _ Ht). apply (frontier_Root_ok l p); [done| |done| |done].
  - change (Z.of_nat MERKLE_DEPTH) with 32. lia.
  - destruct (op_parents _ _ _ Ht) as (n & -> & _ & Hn). by rewrite slots_length.
Qed.

Lemma ComputePath_ok l p w : supplied l p w → ComputePath w = Ok (auth l p 0 MERKLE_DEPTH, p).
Proof.
  intros ([Hp Hs Hl Hr (n & Hn & Hlt & Hd)] & Hmax & q & Hq & Hf). unfold ComputePath. rewrite Hq, bind_Ok.
  assert (∃ q', (match right_ (frontier (tree_ w)) with
                 | Some _ => l0 ← opt_get (left_ (frontier (tree_ w))); Ok (l0, q) | None => Next q 0 end) = Ok (sib l p 0, q') ∧
                feeds l p 1 (n + (31 - n)) q') as (q' & -> & Hq').
  { replace (n + (31 - n))%nat with 31%nat by (unfold MERKLE_DEPTH in Hd; lia).
    rewrite Hl, Hr. destruct (bit p 0) eqn:Hb; cbn [opt_get].
    - exists q. split; [done|]. by apply feeds_left.
    - apply Next_ok; [done|unfold MERKLE_DEPTH; lia|done]. }
  rewrite bind_Ok. assert (path_upto l p 0 (replicate MERKLE_DEPTH null256)) as Hz by (eexists; split; [done|apply length_replicate]).
  destruct (path_upto_set l p 0 _ Hz) as (path & E & Hpath); [unfold MERKLE_DEPTH; lia|]. change (Z.of_nat 0) with 0 in E. rewrite E, bind_Ok, Hn.
  destruct (path_parents_ok l p (31 - n) n 1 q' path) as (path' & q'' & -> & Hpath' & Hq''); [lia|done|done|]. rewrite bind_Ok.
  rewrite (path_rest_ok l p); [|lia|change (1 + n)%nat with (S n); lia|by replace (MERKLE_DEPTH - (1 + n))%nat with (31 - n)%nat by (unfold MERKLE_DEPTH; lia)|done].
  rewrite bind_Ok. unfold Position, Size. rewrite Hs, u64_small by lia. f_equal. f_equal. lia.
Qed.

Lemma witness_Verify_ok l p w leaf root : supplied l p w →
  Verify w leaf root = Ok (bool_decide (climb (auth l p 0 MERKLE_DEPTH) p leaf = root)).
Proof. intros Htr. unfold Verify. by rewrite (ComputePath_ok _ _ _ Htr), bind_Ok. Qed.

Lemma climb_root l p : 0 ≤ p < 2 ^ 32 → climb (auth l p 0 MERKLE_DEPTH) p (node l 0 p) = commitment_root l.
Proof.
  intros Hp. pose proof (climb_path_ok l p MERKLE_DEPTH 0) as E. rewrite up_0 in E. rewrite E. cbn [Nat.add].
  rewrite (up_small p MERKLE_DEPTH) by (change (Z.of_nat MERKLE_DEPTH) with 32; lia). reflexivity.
Qed.

Lemma supplied_verifies l p w : supplied l p w → Verify w (node l 0 p) (commitment_root l) = Ok true.
Proof.
  intros Hs. rewrite (witness_Verify_ok _ _ _ _ _ Hs). pose proof Hs as (Hop & Hmax & _). pose proof (op_pos _ _ _ Hop).
  rewrite climb_root by lia. by rewrite bool_decide_true.
Qed.

Lemma supplied_position l p w : supplied l p w → Position w = p.
Proof. intros (Hop & Hmax & _). unfold Position, Size. pose proof (op_pos _ _ _ Hop). rewrite (op_size _ _ _ Hop), u64_small; lia. Qed.

(** ** Growing the tree and its witnesses *)
Lemma frontier_record t : frontier (MaybeRecordFrontierCheckpoint t) = frontier t.
Proof.
  unfold MaybeRecordFrontierCheckpoint. destruct (frontier_checkpoints_ t) as [cps|]; [|done].
  destruct (_ || _); [done|]. destruct (list.last cps); [|done]. by destruct (_ =? _).
Qed.

Lemma Append_frontier t s c t' s' : Append t s c = Ok (t', s') → frontier t' = append_frontier (frontier t) c.
Proof.
  unfold Append. intros (_ & _ & E)%bind_Ok_inv. apply bind_Ok_inv in E as ([[ok t1] s1] & Hw & E).
  apply bind_Ok_inv in E as (_ & _ & E). assert (frontier t1 = frontier t) as <-.
  { unfold WriteCommitmentAt in Hw. destruct (negb (commitment_index_enabled_ t)); [by simplify_eq|].
    destruct (commitment_index_store_ t) as [p|].
    - apply bind_Ok_inv in Hw as (st & _ & Hw). destruct (store_Write st (Size t) c). by simplify_eq.
    - destruct (commitment_index_mem_ t) as [mem|]; [|by simplify_eq].
      destruct (_ && _); [by simplify_eq|]. destruct (_ <? _); [by simplify_eq|]. destruct (negb _); by simplify_eq. }
  injection E as <- <-. apply frontier_record.
Qed.

Lemma Append_room t s c t' s' : Append t s c = Ok (t', s') → Size t < 2 ^ 32.
Proof. unfold Append, throw_if. destruct (Z.leb_spec MERKLE_MAX_LEAVES (Size t)) as [?|Hlt]; [done|]. intros _. exact Hlt. Qed.

Lemma append_all_built cs : ∀ t s l t' s', built l (frontier t) → append_all t s cs = Ok (t', s') →
  built (l ++ cs) (frontier t') ∧ (cs ≠ [] → zlen (l ++ cs) ≤ 2 ^ 32).
Proof.
  induction cs as [|c cs IH]; intros t s l t' s' Hb E; cbn [append_all] in E; [simplify_eq; by rewrite app_nil_r|].
  apply bind_Ok_inv in E as ([t1 s1] & E1 & E). pose proof (Append_room _ _ _ _ _ E1) as Hroom.
  unfold Size in Hroom. rewrite (built_size _ _ Hb) in Hroom. apply Append_frontier in E1.
  destruct (IH t1 s1 (l ++ [c]) t' s') as [Hb' Hmax]; [rewrite E1; by apply built_append|done|].
  rewrite <- app_assoc in *. split; [done|]. intros _. destruct cs as [|c' cs]; [|by apply Hmax]. cbn. rewrite zlen_app. change (zlen [c]) with 1. lia.
Qed.

Lemma append_all_app t s l m : append_all t s (l ++ m) = '(t, s) ← append_all t s l; append_all t s m.
Proof.
  revert t s. induction l as [|c l IH]; intros t s; cbn [append_all app]; [done|]. destruct (Append t s c) as [[t1 s1]|]; [|done].
  rewrite !bind_Ok. apply IH.
Qed.

(** One update per appended leaf, in order. *)
Fixpoint update_all (wit : ShieldedMerkleWitness) (s : World) (cs : list uint256) : result (ShieldedMerkleWitness * World) :=
  match cs with
  | [] => Ok (wit, s)
  | c :: cs => '(wit, s) ← IncrementalUpdate wit s c; update_all wit s cs
  end.

Lemma update_all_ok cs : ∀ l p w D s, tracking l p w D → zlen l + zlen cs ≤ 2 ^ 32 →
  ∃ w' D', update_all w s cs = Ok (w', s) ∧ tracking (l ++ cs) p w' D'.
Proof.
  induction cs as [|c cs IH]; intros l p w D s Htr Hl; cbn [update_all]; [rewrite app_nil_r; eauto|].
  change (c :: cs) with ([c] ++ cs) in *. rewrite zlen_app in Hl. change (zlen [c]) with 1 in Hl. pose proof (zlen_nonneg cs).
  destruct (tracking_update l p w D s c Htr) as (w1 & D1 & -> & Htr1); [lia|]. rewrite bind_Ok, app_assoc.
  apply (IH _ _ _ D1); [done|]. rewrite zlen_app. change (zlen [c]) with 1. lia.
Qed.

Lemma tracking_new l t : built l (frontier t) → l ≠ [] → zlen l ≤ 2 ^ 32 →
  ∃ w D, witness_new t = Ok w ∧ tracking l (zlen l - 1) w D.
Proof.
  intros [[-> _]|[Ht _]] Hne Hmax; [done|]. pose proof (op_pos _ _ _ Ht) as Hp. unfold witness_new, IsEmpty, Size.
  rewrite (op_size _ _ _ Ht). rewrite throw_if_false by (apply Z.eqb_neq; lia). rewrite bind_Ok.
  destruct (next_zero (zlen l - 1) ltac:(lia) 0) as (D & HD & Hz & Ho); [lia|]. eexists _, D. split; [done|].
  split; cbn [tree_ filled_ cursor_ drop_index frontier]; [done|done|lia|done| |].
  - by rewrite (uncles_skip l _ 0 0 D) by (lia || done).
  - rewrite (bound_skip _ 0 D) by (lia || done). rewrite bound_0. lia.
Qed.

Lemma grown_built mode s l t s' : append_all (tree_new s mode) s l = Ok (t, s') → built l (frontier t) ∧ zlen l ≤ 2 ^ 32.
Proof.
  intros E. assert (frontier (tree_new s mode) = empty_frontier) as Hf by by destruct mode.
  destruct (append_all_built l _ _ [] _ _ ltac:(rewrite Hf; apply built_empty) E) as [Hb Hm]. split; [done|].
  destruct l as [|c l]; [by cbn|by apply Hm].
Qed.

(** The root of a tree grown from an empty one, in any storage mode. *)
Lemma tree_root_ok mode s l t s' : append_all (tree_new s mode) s l = Ok (t, s') → tree_Root t = Ok (commitment_root l).
Proof.
  intros E. destruct (grown_built _ _ _ _ _ E) as [Hb Hm]. apply built_Root; [done|exact Hm|unfold MERKLE_DEPTH; lia].
Qed.



End witnesses.
