(* ===== verification/ShieldedIndex.v ===== *)
(** The index of commitments: positions, checkpoints and truncation.

    The database with its cache of recent entries answers as the database
    alone; a tree whose index is consistent with its leaves keeps it so under
    every operation, and truncating it gives the tree of the first leaves. *)

From Stdlib Require Import ZArith Lia String Sorted.
From stdpp Require Import base list gmap numbers tactics sorting.
From S2P Require Import Prelude Sha256 Header ShieldedTree ShieldedFrontier ShieldedWitness.
Import sha256 block_header shielded_tree.

Open Scope Z_scope.

#[local] Opaque BranchHash EmptyLeafHash node.

(** The documented behaviour of the database: a read returns the last write,
    and an iterator visits stored entries. *)
Class LevelDBLaws `{LevelDB} := {
  Get_Put d k v d' k' : db_Put d k v = Some d' → db_Get d' k' = if decide (k = k') then Some v else db_Get d k';
  Seek_sound d k k' v : (k', v) ∈ db_Seek d k → db_Get d k' = Some v
}.

(** Writes do not fail. *)
Definition reliable `{LevelDB} : Prop := ∀ d k v, is_Some (db_Put d k v).

Lemma WriteBE64_inj a b : 0 ≤ a < 2 ^ 64 → 0 ≤ b < 2 ^ 64 → WriteBE64 a = WriteBE64 b → a = b.
Proof.
  intros Ha Hb E. unfold WriteBE64 in E. apply (f_equal reverse) in E. rewrite !reverse_involutive in E.
  apply (f_equal le_word) in E. rewrite !le_word_le_bytes in E. change (8 * Z.of_nat 8) with 64 in E. by rewrite !Z.mod_small in E.
Qed.

Lemma MakeKey_inj a b : 0 ≤ a < 2 ^ 64 → 0 ≤ b < 2 ^ 64 → MakeKey a = MakeKey b → a = b.
Proof. intros Ha Hb E. apply (f_equal (drop 1)) in E. by apply WriteBE64_inj. Qed.

Section stores.
Context `{LevelDBLaws} `{CacheLock}.

(** ** The cache in front of the database *)
Definition lru_ok (s : CommitmentIndexStore) : Prop :=
  1 ≤ max_lru_entries s ∧ Z.of_nat (size (lru_cache s)) ≤ max_lru_entries s ∧
  NoDup (lru_order s) ∧ ∀ p, p ∈ lru_order s ↔ is_Some (lru_cache s !! p).

Definition entry_ok (s : CommitmentIndexStore) (p : Z) (c : uint256) : Prop :=
  0 ≤ p < 2 ^ 64 ∧ length c = 32%nat ∧ db_Get (db s) (MakeKey p) = Some c.

Record coherent (s : CommitmentIndexStore) : Prop := mkCoherent {
  co_lru : lru_ok s;
  co_entries p c : lru_cache s !! p = Some c → entry_ok s p c
}.

Lemma splice_front_NoDup p order : NoDup order → NoDup (splice_front p order).
Proof. intros Hn. unfold splice_front. constructor; [rewrite list_elem_of_filter; naive_solver|by apply list.NoDup_filter]. Qed.

Lemma elem_of_splice_front p order q : p ∈ order → (q ∈ splice_front p order ↔ q ∈ order).
Proof.
  intros Hp. unfold splice_front. rewrite elem_of_cons, list_elem_of_filter. destruct (decide (q = p)) as [->|]; naive_solver.
Qed.

Lemma TouchCache_lru s p c : lru_ok s → lru_ok (TouchCache s p c).
Proof.
  intros (Hm & Hs & Hn & Hd). unfold TouchCache. destruct (lru_cache s !! p) as [c0|] eqn:E.
  - split_and!; cbn; [done| |by apply splice_front_NoDup|].
    + by rewrite map_size_insert_Some by (by rewrite E).
    + intros q. rewrite elem_of_splice_front by (apply Hd; eauto). rewrite Hd.
      destruct (decide (p = q)) as [->|]; simplify_map_eq; [|done]. split; eauto.
  - assert (p ∉ lru_order s) as Hp by (rewrite Hd, E; by intros [? ?]).
    assert (size (<[p := c]> (lru_cache s)) = S (size (lru_cache s))) as Hsz by by rewrite map_size_insert_None.
    assert (∀ q, q ∈ p :: lru_order s ↔ is_Some (<[p := c]> (lru_cache s) !! q)) as Hd'.
    { intros q. rewrite elem_of_cons, Hd. destruct (decide (p = q)) as [->|]; simplify_map_eq; split; naive_solver. }
    assert (NoDup (p :: lru_order s)) as Hn' by by constructor.
    destruct (Z.ltb_spec (max_lru_entries s) (Z.of_nat (size (<[p := c]> (lru_cache s))))) as [Hlt|Hge]; [|split_and!; cbn [lru_order lru_cache max_lru_entries]; by lia || done].
    cbn [lru_order lru_cache max_lru_entries]. set (order := p :: lru_order s) in *. set (ev := List.last order 0).
    assert (order = removelast order ++ [ev]) as Eo by by apply app_removelast_last.
    assert (ev ∈ order) as Hev by (rewrite Eo; set_solver). apply Hd' in Hev as [ce Hce].
    split_and!; cbn [lru_order lru_cache max_lru_entries]; [done| | |].
    + rewrite map_size_delete_Some by eauto. lia.
    + rewrite Eo in Hn'. by apply list.NoDup_app in Hn' as (? & _ & _).
    + intros q. rewrite Eo in Hn'. apply list.NoDup_app in Hn' as (_ & Hni & _). rewrite lookup_delete_is_Some, <- Hd'. rewrite Eo at 2.
      rewrite elem_of_app, list_elem_of_singleton. specialize (Hni q). rewrite list_elem_of_singleton in Hni. naive_solver.
Qed.

Lemma TouchCache_db s p c : db (TouchCache s p c) = db s.
Proof. unfold TouchCache. destruct (lru_cache s !! p); [done|]. by destruct (_ <? _). Qed.

Lemma TouchCache_entries s p c q v : lru_cache (TouchCache s p c) !! q = Some v →
  (q = p ∧ v = c) ∨ (q ≠ p ∧ lru_cache s !! q = Some v).
Proof.
  unfold TouchCache. destruct (decide (q = p)) as [->|Hne].
  - destruct (lru_cache s !! p); [cbn; rewrite lookup_insert_eq; naive_solver|].
    destruct (_ <? _); cbn; [|rewrite lookup_insert_eq; naive_solver].
    rewrite lookup_delete_Some, lookup_insert_eq. naive_solver.
  - destruct (lru_cache s !! p); [cbn; rewrite lookup_insert_ne by done; naive_solver|].
    destruct (_ <? _); cbn; [|rewrite lookup_insert_ne by done; naive_solver].
    rewrite lookup_delete_Some, lookup_insert_ne by done. naive_solver.
Qed.

(** The entry of [p] may be stale before it is touched. *)
Lemma TouchCache_coherent s p c : lru_ok s → (∀ q v, q ≠ p → lru_cache s !! q = Some v → entry_ok s q v) → entry_ok s p c →
  coherent (TouchCache s p c).
Proof.
  intros Hl He Hp. split; [by apply TouchCache_lru|]. intros q v Hq. unfold entry_ok. rewrite TouchCache_db.
  apply TouchCache_entries in Hq as [[-> ->]|[Hne Hq]]; [done|]. by apply He.
Qed.

Lemma store_Read_ok s p c : coherent s → entry_ok s p c →
  ∃ s', store_Read s p = (Some c, s') ∧ coherent s' ∧ db s' = db s.
Proof.
  intros [Hl He] Hp. unfold store_Read. destruct (lru_cache s !! p) as [c0|] eqn:E.
  - pose proof (He _ _ E) as (_ & _ & Hg). destruct Hp as (_ & _ & Hg'). rewrite Hg' in Hg. simplify_eq.
    eexists. split; [done|]. destruct (owns_lock (lru_order s)); [|done]. split; [|done]. destruct Hl as (Hm & Hs & Hn & Hd).
    split; [|done]. split_and!; cbn; [done..|by apply splice_front_NoDup|].
    intros q. rewrite elem_of_splice_front by (apply Hd; eauto). apply Hd.
  - destruct Hp as (Hr & Hlen & Hg). rewrite Hg. unfold zlen. rewrite Hlen. cbn [negb Z.eqb Z.of_nat]. cbn.
    eexists. split; [done|]. rewrite TouchCache_db. split; [|done]. apply TouchCache_coherent; [done| |done]. intros. by apply He.
Qed.

Lemma store_Write_ok s p c : coherent s → 0 ≤ p < 2 ^ 64 → length c = 32%nat → ∀ s', store_Write s p c = (true, s') →
  coherent s' ∧ ∀ q v, 0 ≤ q < 2 ^ 64 → db_Get (db s') (MakeKey q) = Some v ↔ if decide (q = p) then v = c else db_Get (db s) (MakeKey q) = Some v.
Proof.
  intros [Hl He] Hp Hc s'. unfold store_Write. destruct (db_Put (db s) (MakeKey p) c) as [d|] eqn:E; [|done]. intros [= <-].
  assert (∀ q, 0 ≤ q < 2 ^ 64 → db_Get d (MakeKey q) = if decide (q = p) then Some c else db_Get (db s) (MakeKey q)) as Hg.
  { intros q Hq. rewrite (Get_Put _ _ _ _ (MakeKey q) E). destruct (decide (q = p)) as [->|Hne]; [by rewrite decide_True|].
    rewrite decide_False; [done|]. intros Ek. by apply MakeKey_inj in Ek; [subst|..]. }
  split.
  - apply TouchCache_coherent; [done| |].
    + intros q v Hne Hq. cbn in Hq. destruct (He _ _ Hq) as (? & ? & ?). unfold entry_ok. cbn. rewrite Hg, decide_False by done. done.
    + unfold entry_ok. cbn. by rewrite Hg, decide_True.
  - intros q v Hq. rewrite TouchCache_db. cbn. rewrite Hg by done. destruct (decide (q = p)); [|done]. naive_solver.
Qed.

(** ** Ranges *)
Definition holds (s : CommitmentIndexStore) (l : list uint256) : Prop :=
  ∀ i c, l !! i = Some c → entry_ok s (Z.of_nat i) c.

Lemma scan_prefix s l entries : holds s l → zlen l ≤ 2 ^ 32 → (∀ k v, (k, v) ∈ entries → db_Get (db s) k = Some v) →
  ∀ n i, (i + n ≤ length l)%nat → ∃ k, (k ≤ n)%nat ∧ scan n (Z.of_nat i) entries = take k (drop i l).
Proof.
  intros Hh Hmax He n. revert entries He. induction n as [|n IH]; intros entries He i Hi; [exists 0%nat; by rewrite take_0|].
  cbn [scan]. destruct entries as [|[k v] entries]; [exists 0%nat; by rewrite take_0; split; [lia|]|].
  case_bool_decide as Hk; [|exists 0%nat; rewrite take_0; split; [lia|done]]. cbn [negb]. subst k.
  destruct (lookup_lt_is_Some_2 l i ltac:(lia)) as [c Hc]. pose proof (Hh _ _ Hc) as (Hr & Hlen & Hg).
  rewrite (He (MakeKey (Z.of_nat i)) v) in Hg by set_solver. simplify_eq. unfold zlen at 1. rewrite Hlen. cbn [negb Z.eqb Z.of_nat]. cbn [Pos.eqb].
  change (negb (Z.of_nat 32 =? 32)) with false. cbn iota.
  destruct (IH entries ltac:(set_solver) (S i) ltac:(lia)) as (k & Hk & E).
  exists (S k). split; [lia|]. rewrite (drop_S l c i Hc). cbn [take]. f_equal. rewrite <- E. f_equal. unfold zlen in Hmax. rewrite u64_small; lia.
Qed.

Lemma point_reads_ok s l : holds s l → zlen l ≤ 2 ^ 32 → ∀ n i, (i + n ≤ length l)%nat →
  point_reads (db s) n (Z.of_nat i) = take n (drop i l).
Proof.
  intros Hh Hmax. induction n as [|n IH]; intros i Hi; [by rewrite take_0|]. cbn [point_reads].
  destruct (lookup_lt_is_Some_2 l i ltac:(lia)) as [c Hc]. pose proof (Hh _ _ Hc) as (Hr & Hlen & Hg). rewrite Hg.
  unfold zlen. rewrite Hlen. change (negb (Z.of_nat 32 =? 32)) with false. cbn iota. rewrite (drop_S l c i Hc). cbn [take]. f_equal.
  rewrite <- IH by lia. f_equal. unfold zlen in Hmax. rewrite u64_small; lia.
Qed.

Lemma ReadRange_ok s l a b : holds s l → zlen l ≤ 2 ^ 32 → 0 ≤ a ≤ b → b ≤ zlen l →
  ReadRange s a b = take (Z.to_nat (b - a)) (drop (Z.to_nat a) l).
Proof.
  intros Hh Hmax Ha Hb. unfold ReadRange. destruct (Z.leb_spec b a) as [?|Hlt]; [replace b with a by lia; by rewrite Z.sub_diag, take_0|].
  destruct (scan_prefix s l (db_Seek (db s) (MakeKey a)) Hh Hmax) with (n := Z.to_nat (b - a)) (i := Z.to_nat a) as (k & Hk & E).
  { intros. by eapply Seek_sound. } { unfold zlen in Hb. lia. } rewrite Z2Nat.id in E by lia. cbv zeta. rewrite E.
  assert (length (take k (drop (Z.to_nat a) l)) = k) as Hlen by (rewrite length_take, length_drop; unfold zlen in Hb; lia).
  replace (zlen (take k (drop (Z.to_nat a) l))) with (Z.of_nat k) by (unfold zlen; lia). replace (a + Z.of_nat k) with (Z.of_nat (Z.to_nat a + k)) by lia.
  rewrite (point_reads_ok s l) by (done || unfold zlen in Hb; lia).
  rewrite <- drop_drop. replace (Z.to_nat (b - Z.of_nat (Z.to_nat a + k))) with (Z.to_nat (b - a) - k)%nat by lia.
  rewrite take_take_drop. f_equal. lia.
Qed.

(** ** Trees whose index and checkpoints agree with their leaves *)
Definition checkpoint_ok (l : list uint256) (cp : FrontierCheckpoint) : Prop :=
  0 < size_ cp ≤ zlen l ∧ built (take (Z.to_nat (size_ cp)) l) cp.

Definition checkpoints_ok (l : list uint256) (cps : list FrontierCheckpoint) : Prop :=
  Forall (checkpoint_ok l) cps ∧ StronglySorted (λ a b, size_ a < size_ b) cps.

Definition index_ok (w : World) (t : ShieldedMerkleTree) (l : list uint256) : Prop :=
  match commitment_index_store_ t with
  | Some p => ∃ s, stores w !! p = Some s ∧ coherent s ∧ holds s l
  | None => commitment_index_mem_ t = Some l
  end.

Record indexed (w : World) (t : ShieldedMerkleTree) (l : list uint256) : Prop := mkIndexed {
  ix_built : built l (frontier t);
  ix_hashes : hashes_ok l;
  ix_max : zlen l ≤ 2 ^ 32;
  ix_enabled : commitment_index_enabled_ t = true;
  ix_index : index_ok w t l;
  ix_checkpoints : ∃ cps, frontier_checkpoints_ t = Some cps ∧ checkpoints_ok l cps
}.

(** Where [t] and the trees made in its mode keep their index. *)
Definition attached (w : World) (t : ShieldedMerkleTree) : Prop :=
  match m_index_storage_mode_ t with
  | AUTO => commitment_index_store_ t = s_commitment_store w ∧ (is_Some (commitment_index_store_ t) → commitment_index_mem_ t = None)
  | MEMORY_ONLY => commitment_index_store_ t = None
  | NO_INDEX => False
  end.

(** The next [n] writes cannot fail. *)
Definition room (t : ShieldedMerkleTree) (n : Z) : Prop :=
  reliable ∧ Size t + n ≤ 2 ^ 32 ∧ (commitment_index_store_ t = None → Size t + n ≤ MEM_INDEX_HARD_CAP).

(** What an operation leaves as it was. *)
Definition same_place (t t' : ShieldedMerkleTree) (w w' : World) : Prop :=
  m_index_storage_mode_ t' = m_index_storage_mode_ t ∧ commitment_index_store_ t' = commitment_index_store_ t ∧
  (commitment_index_mem_ t = None → commitment_index_mem_ t' = None) ∧
  s_commitment_store w' = s_commitment_store w ∧ (commitment_index_store_ t = None → w' = w).

Lemma same_place_refl t w : same_place t t w w.
Proof. done. Qed.

Lemma same_place_trans t t' t'' w w' w'' : same_place t t' w w' → same_place t' t'' w' w'' → same_place t t'' w w''.
Proof. unfold same_place. naive_solver congruence. Qed.

Lemma same_place_attached t t' w w' : same_place t t' w w' → attached w t → attached w' t'.
Proof.
  intros (Em & Es & En & Ew & _) Ha. unfold attached in *. rewrite Em, Es, Ew. destruct (m_index_storage_mode_ t); [|done..].
  destruct Ha as [-> Ha]. split; [done|]. intros. by apply En, Ha.
Qed.

Lemma indexed_size w t l : indexed w t l → Size t = zlen l.
Proof. intros []. by apply built_size. Qed.

Lemma checkpoint_extend l m cp : checkpoint_ok l cp → checkpoint_ok (l ++ m) cp.
Proof.
  intros [Hs Hb]. split; [rewrite zlen_app; pose proof (zlen_nonneg m); lia|]. rewrite take_app_le by (unfold zlen in Hs; lia). done.
Qed.

Lemma checkpoints_record l cps f : checkpoints_ok l cps → built l f → l ≠ [] →
  (∀ cp, list.last cps = Some cp → size_ cp < size_ f) → checkpoints_ok l (cps ++ [f]).
Proof.
  intros [Hc Hs] Hb Hne Hl. pose proof (built_size _ _ Hb) as Hsz. assert (0 < zlen l) by (destruct l; [done|unfold zlen; cbn; lia]). split.
  - apply Forall_app. split; [done|]. constructor; [|done]. split; [lia|]. rewrite take_ge by (unfold zlen in *; lia). done.
  - clear Hc. induction Hs as [|a cps Hs IH Ha]; cbn; [by repeat constructor|]. constructor.
    + apply IH. intros cp Hcp. apply Hl. by destruct cps.
    + apply Forall_app. split; [done|]. constructor; [|done]. destruct (list.last cps) as [cp|] eqn:E.
      * assert (size_ cp < size_ f) by (apply Hl; by destruct cps). rewrite last_lookup in E. rewrite Forall_lookup in Ha. specialize (Ha _ _ E). lia.
      * apply last_None in E as ->. by apply Hl.
Qed.

Lemma MaybeRecord_indexed w t l : indexed w t l → indexed w (MaybeRecordFrontierCheckpoint t) l.
Proof.
  intros Hi. pose proof (indexed_size _ _ _ Hi) as Hsz. destruct Hi as [Hb Hh Hm He Hx (cps & Ec & Hc)].
  unfold MaybeRecordFrontierCheckpoint. rewrite Ec.
  destruct (orb _ _) eqn:Eo; [split; eauto|]. apply orb_false_elim in Eo as [Eo _]. apply Z.eqb_neq in Eo.
  assert (l ≠ []) as Hne by (intros ->; done).
  assert (list.last cps = None ∨ (∃ cp, list.last cps = Some cp ∧ size_ cp = Size t) ∨ ∀ cp, list.last cps = Some cp → size_ cp < size_ (frontier t)) as Hl.
  { destruct (list.last cps) as [cp|] eqn:El; [right|by left]. destruct (decide (size_ cp = Size t)); [left; eauto|right].
    intros cp' [= <-]. destruct Hc as [Hc _]. rewrite Forall_lookup in Hc. rewrite last_lookup in El. destruct (Hc _ _ El) as [? _]. fold (Size t). lia. }
  destruct (list.last cps) as [cp|] eqn:El.
  - destruct (Z.eqb_spec (size_ cp) (Size t)) as [E|E]; [split; eauto|]. split; cbn; [done..|].
    eexists. split; [done|]. apply checkpoints_record; [done..|]. rewrite El. destruct Hl as [?|[(cp' & ? & ?)|?]]; [done|by simplify_eq|done].
  - split; cbn; [done..|]. eexists. split; [done|]. apply checkpoints_record; [done..|]. by rewrite El.
Qed.

Lemma MaybeRecord_place t w : same_place t (MaybeRecordFrontierCheckpoint t) w w.
Proof.
  unfold MaybeRecordFrontierCheckpoint. destruct (frontier_checkpoints_ t) as [cps|]; [|done]. destruct (orb _ _); [done|].
  destruct (list.last cps); [|done]. by destruct (_ =? _).
Qed.

(** ** Appending and reading *)
Lemma holds_write s s' l c : coherent s → holds s l → zlen l < 2 ^ 32 → length c = 32%nat →
  store_Write s (zlen l) c = (true, s') → coherent s' ∧ holds s' (l ++ [c]).
Proof.
  intros Hco Hh Hl Hc E. pose proof (zlen_nonneg l). destruct (store_Write_ok s (zlen l) c Hco ltac:(lia) Hc _ E) as [Hco' Hg]. split; [done|].
  intros i v Hi. apply lookup_app_Some in Hi as [Hi|[Hge Hi]].
  - destruct (Hh _ _ Hi) as (? & ? & Hd). split_and!; [lia..|done|]. apply Hg; [done|].
    apply lookup_lt_Some in Hi. rewrite decide_False by (unfold zlen; lia). done.
  - apply list_lookup_singleton_Some in Hi as [Hi <-]. assert (Z.of_nat i = zlen l) as Ei by (unfold zlen; lia).
    split_and!; [lia..|done|]. apply Hg; [lia|]. by rewrite decide_True.
Qed.

Lemma WriteCommitmentAt_ok w t l c : indexed w t l → length c = 32%nat → room t 1 →
  ∃ t' w', WriteCommitmentAt t w (Size t) c = Ok (true, t', w') ∧ index_ok w' t' (l ++ [c]) ∧ same_place t t' w w' ∧
    frontier t' = frontier t ∧ frontier_checkpoints_ t' = frontier_checkpoints_ t ∧ commitment_index_enabled_ t' = true.
Proof.
  intros Hi Hc (Hrel & Hmax & Hcap). pose proof (indexed_size _ _ _ Hi) as Hsz. destruct Hi as [_ _ _ He Hx _].
  unfold WriteCommitmentAt, index_ok in *. rewrite He. cbn [negb]. destruct (commitment_index_store_ t) as [p|] eqn:Es.
  - destruct Hx as (s & Ep & Hco & Hh). unfold get_store. rewrite Ep. cbn [opt_get]. rewrite bind_Ok.
    destruct (store_Write s (Size t) c) as [ok s'] eqn:Ew.
    assert (ok = true) as ->. { unfold store_Write in Ew. destruct (Hrel (db s) (MakeKey (Size t)) c) as [d Ed]. rewrite Ed in Ew. by simplify_eq. }
    rewrite Hsz in Ew. destruct (holds_write _ _ _ _ Hco Hh ltac:(lia) Hc Ew) as [Hco' Hh'].
    eexists t, _. split; [done|]. split; [|unfold same_place; split_and!; cbn; congruence || done]. rewrite Es. exists s'. cbn. split; [|done].
    by rewrite list_lookup_insert_eq by (by eapply lookup_lt_Some).
  - rewrite Hx, Hsz. specialize (Hcap eq_refl). destruct (Z.leb_spec MEM_INDEX_HARD_CAP (zlen l)); [lia|]. cbn [andb].
    rewrite Z.ltb_irrefl, Z.eqb_refl. cbn [negb]. eexists _, w. split; [done|]. cbn. rewrite Es. repeat split; by rewrite ?Hx.
Qed.

Lemma Append_indexed w t l c : indexed w t l → length c = 32%nat → room t 1 →
  ∃ t' w', Append t w c = Ok (t', w') ∧ indexed w' t' (l ++ [c]) ∧ same_place t t' w w'.
Proof.
  intros Hi Hc Hr. pose proof (indexed_size _ _ _ Hi) as Hsz. destruct (WriteCommitmentAt_ok _ _ _ _ Hi Hc Hr) as (t1 & w1 & E & Hx & Hp & Ef & Ecp & Een).
  destruct Hr as (_ & Hmax & _). destruct Hi as [Hb Hh Hm _ _ (cps & Ec & Hcs)].
  unfold Append. rewrite throw_if_false, bind_Ok, E, bind_Ok by (apply Z.leb_gt; change MERKLE_MAX_LEAVES with (2 ^ 32); lia).
  rewrite throw_if_false, bind_Ok by done. eexists _, w1. split; [done|]. split.
  - apply MaybeRecord_indexed. split; cbn.
    + rewrite Ef. apply built_append; [done|lia].
    + apply Forall_app. split; [done|]. by constructor.
    + rewrite zlen_app. change (zlen [c]) with 1. lia.
    + done.
    + done.
    + rewrite Ecp. exists cps. split; [done|]. destruct Hcs as [Hcs Hst]. split; [|done]. eapply Forall_impl; [exact Hcs|]. intros. by apply checkpoint_extend.
  - eapply same_place_trans; [exact Hp|]. eapply same_place_trans; [|apply MaybeRecord_place]. done.
Qed.

Lemma room_step t t' w w' n k : same_place t t' w w' → Size t' = Size t + k → room t (k + n) → room t' n.
Proof. intros (_ & Es & _ & _ & _) Esz (Hrel & Hmax & Hcap). unfold room. rewrite Es, Esz. split_and!; [done|lia|]. intros Hn. specialize (Hcap Hn). lia. Qed.

Lemma room_weaken t n m : 0 ≤ m ≤ n → room t n → room t m.
Proof. intros Hm (Hrel & Hmax & Hcap). split_and!; [done|lia|]. intros Hn. specialize (Hcap Hn). lia. Qed.

Lemma append_all_indexed cs : ∀ w t l, indexed w t l → hashes_ok cs → room t (zlen cs) →
  ∃ t' w', append_all t w cs = Ok (t', w') ∧ indexed w' t' (l ++ cs) ∧ same_place t t' w w'.
Proof.
  induction cs as [|c cs IH]; intros w t l Hi Hcs Hr; cbn [append_all]; [rewrite app_nil_r; eauto using same_place_refl|].
  inversion_clear Hcs as [|? ? Hc Hcs']. replace (zlen (c :: cs)) with (1 + zlen cs) in Hr by (unfold zlen; cbn; lia). pose proof (zlen_nonneg cs).
  destruct (Append_indexed w t l c Hi Hc) as (t1 & w1 & -> & Hi1 & Hp1); [by apply (room_weaken _ _ 1) in Hr; [|lia]|]. rewrite bind_Ok.
  destruct (IH w1 t1 (l ++ [c]) Hi1 Hcs') as (t2 & w2 & -> & Hi2 & Hp2).
  { apply (room_step t t1 w w1 _ 1); [done| |done]. rewrite (indexed_size _ _ _ Hi), (indexed_size _ _ _ Hi1), zlen_app. done. }
  exists t2, w2. rewrite <- app_assoc in Hi2. split_and!; [done..|]. by eapply same_place_trans.
Qed.

(** Reads only reorder the cache. *)
Definition reads (w w' : World) : Prop :=
  s_commitment_store w' = s_commitment_store w ∧ ∀ t l, indexed w t l → indexed w' t l.

Lemma reads_refl w : reads w w.
Proof. done. Qed.

Lemma reads_trans w w1 w2 : reads w w1 → reads w1 w2 → reads w w2.
Proof. intros [E1 R1] [E2 R2]. split; [congruence|auto]. Qed.

Lemma ReadCommitmentAt_ok w t l i c : indexed w t l → l !! Z.to_nat i = Some c → 0 ≤ i →
  ∃ w', ReadCommitmentAt t w i = Ok (Some c, w') ∧ reads w w' ∧ (commitment_index_store_ t = None → w' = w).
Proof.
  intros Hi Hc Hpos. pose proof (indexed_size _ _ _ Hi) as Hsz. destruct Hi as [_ _ _ He Hx _]. pose proof (lookup_lt_Some _ _ _ Hc) as Hlt.
  unfold ReadCommitmentAt, index_ok in *. rewrite He, Hsz. cbn [negb]. destruct (Z.leb_spec (zlen l) i) as [?|_]; [unfold zlen in *; lia|].
  destruct (commitment_index_store_ t) as [p|].
  - destruct Hx as (s & Ep & Hco & Hh). unfold get_store. rewrite Ep. cbn [opt_get]. rewrite bind_Ok.
    pose proof (Hh _ _ Hc) as Hent. rewrite Z2Nat.id in Hent by done. destruct (store_Read_ok _ _ _ Hco Hent) as (s' & -> & Hco' & Edb).
    eexists. split; [done|]. split; [|done]. split; [done|]. intros t' l' []. split; [done..| |done]. unfold index_ok in *.
    destruct (commitment_index_store_ t') as [p'|]; [|done]. destruct ix_index0 as (s0 & Ep0 & Hco0 & Hh0). cbn.
    destruct (decide (p = p')) as [<-|Hne].
    + rewrite list_lookup_insert_eq by by eapply lookup_lt_Some. simplify_eq. exists s'. split_and!; [done..|].
      intros j v Hj. destruct (Hh0 _ _ Hj) as (? & ? & ?). split_and!; [lia..|done|]. by rewrite Edb.
    + rewrite list_lookup_insert_ne by done. eauto.
  - rewrite Hx. destruct (Z.leb_spec (zlen l) i) as [?|_]; [unfold zlen in *; lia|]. rewrite Hc. by exists w.
Qed.

Lemma HasCommitmentIndex_ok w t l : indexed w t l → HasCommitmentIndex t w = Ok true.
Proof.
  intros Hi. pose proof (indexed_size _ _ _ Hi) as Hsz. destruct Hi as [_ _ _ He Hx _]. unfold HasCommitmentIndex, HasCommitmentAt, index_ok in *.
  rewrite He, Hsz. cbn [negb]. destruct (Z.eqb_spec (zlen l) 0) as [|Hne]; [done|]. pose proof (zlen_nonneg l).
  destruct (Z.leb_spec (zlen l) (zlen l - 1)) as [?|_]; [lia|]. destruct (commitment_index_store_ t) as [p|].
  - destruct Hx as (s & Ep & _ & Hh). unfold get_store. rewrite Ep. cbn [opt_get]. rewrite bind_Ok. unfold store_Exists.
    destruct (lookup_lt_is_Some_2 l (Z.to_nat (zlen l - 1))) as [c Hc]; [unfold zlen in *; lia|]. destruct (Hh _ _ Hc) as (_ & _ & Hg).
    rewrite Z2Nat.id in Hg by lia. by rewrite Hg.
  - rewrite Hx. destruct (Z.ltb_spec (zlen l - 1) (zlen l)); [done|lia].
Qed.

(** ** Truncation *)
Lemma upper_bound_le n cps : (upper_bound n cps ≤ length cps)%nat.
Proof. induction cps as [|cp cps IH]; cbn; [done|]. destruct (n <? size_ cp); lia. Qed.

Lemma upper_bound_size n cps i cp : cps !! i = Some cp → (i < upper_bound n cps)%nat → size_ cp ≤ n.
Proof.
  revert i. induction cps as [|c cps IH]; intros i Hi Hlt; cbn in *; [done|]. destruct (Z.ltb_spec n (size_ c)); [lia|].
  destruct i as [|i]; cbn in Hi; [by simplify_eq|]. apply (IH i); [done|lia].
Qed.

Lemma StronglySorted_lookup (cps : list FrontierCheckpoint) i j a b :
  StronglySorted (λ a b, size_ a < size_ b) cps → cps !! i = Some a → cps !! j = Some b → (i ≤ j)%nat → size_ a ≤ size_ b.
Proof.
  intros Hs. revert i j. induction Hs as [|c cps Hs IH Hc]; intros i j Hi Hj Hij; [done|].
  destruct i as [|i], j as [|j]; cbn in *; simplify_eq; [lia| |lia|apply (IH i j); done || lia].
  rewrite Forall_lookup in Hc. specialize (Hc _ _ Hj). cbn in Hc. lia.
Qed.

Lemma checkpoints_take l cps it cp : checkpoints_ok l cps → cps !! it = Some cp →
  checkpoints_ok (take (Z.to_nat (size_ cp)) l) (take (S it) cps).
Proof.
  intros [Hc Hs] Hit. pose proof Hc as Hc0. rewrite Forall_lookup in Hc0. destruct (Hc0 _ _ Hit) as [Hcp _]. split.
  - rewrite Forall_lookup. intros i a Ha. apply lookup_take_Some in Ha as [Ha Hi]. destruct (Hc0 _ _ Ha) as [Ha1 Hb].
    pose proof (StronglySorted_lookup _ i it _ _ Hs Ha Hit ltac:(lia)). split; [unfold zlen in *; rewrite length_take; lia|].
    rewrite take_take. by rewrite Nat.min_l by lia.
  - clear Hc Hc0 Hit Hcp. generalize (S it). induction Hs as [|c cps Hs IH Hc]; intros n; [by rewrite take_nil; constructor|].
    destruct n; cbn; [constructor|]. constructor; [apply IH|]. by apply Forall_take.
Qed.

Lemma holds_take s l n : holds s l → holds s (take n l).
Proof. intros Hh i c Hi. apply lookup_take_Some in Hi as [Hi _]. by apply Hh. Qed.

Lemma copy_index_ok l : ∀ n i w t mem, indexed w t l → (i + n ≤ length l)%nat →
  ∃ w', copy_index t w n (Z.of_nat i) mem = Ok (Some (mem ++ take n (drop i l)), w') ∧ reads w w' ∧ (commitment_index_store_ t = None → w' = w).
Proof.
  induction n as [|n IH]; intros i w t mem Hi Hn; cbn [copy_index]; [exists w; rewrite take_0, app_nil_r; done|].
  destruct (lookup_lt_is_Some_2 l i ltac:(lia)) as [c Hc].
  destruct (ReadCommitmentAt_ok w t l (Z.of_nat i) c) as (w1 & -> & Hr & Hn1); [done|by rewrite Nat2Z.id|lia|]. rewrite bind_Ok.
  replace (Z.of_nat i + 1) with (Z.of_nat (S i)) by lia. destruct (IH (S i) w1 t (mem ++ [c])) as (w2 & -> & Hr2 & Hn2); [by apply Hr|lia|].
  exists w2. split; [|split; [by eapply reads_trans|intros Hnone; rewrite Hn2 by done; by apply Hn1]]. rewrite (drop_S l c i Hc). cbn. by rewrite <- app_assoc.
Qed.

Lemma append_read_ok l t : ∀ n i w r, indexed w t l → indexed w r (take i l) → commitment_index_store_ r = None →
  (i + n ≤ length l)%nat → room r (Z.of_nat n) → commitment_index_store_ t = None →
  ∃ r', append_read t r w n (Z.of_nat i) = Ok (Some r', w) ∧ indexed w r' (take (i + n) l) ∧ same_place r r' w w.
Proof.
  induction n as [|n IH]; intros i w r Ht Hr Hs Hn Hroom Hts; cbn [append_read]; [exists r; by rewrite Nat.add_0_r|].
  destruct (lookup_lt_is_Some_2 l i ltac:(lia)) as [c Hc]. pose proof (ix_index _ _ _ Ht) as Hx. unfold index_ok in Hx. rewrite Hts in Hx.
  assert (ReadCommitmentAt t w (Z.of_nat i) = Ok (Some c, w)) as ->.
  { unfold ReadCommitmentAt. rewrite (ix_enabled _ _ _ Ht), (indexed_size _ _ _ Ht), Hts, Hx. cbn [negb].
    destruct (Z.leb_spec (zlen l) (Z.of_nat i)); [unfold zlen in *; lia|]. by rewrite Nat2Z.id, Hc. }
  rewrite bind_Ok. replace (Z.of_nat (S n)) with (1 + Z.of_nat n) in Hroom by lia.
  assert (length c = 32%nat) as Hlen by exact (Forall_lookup_1 _ _ _ _ (ix_hashes _ _ _ Ht) Hc).
  destruct (Append_indexed w r _ c Hr Hlen) as (r1 & w1 & -> & Hr1 & Hp1); [by apply (room_weaken _ _ 1) in Hroom; [|lia]|]. rewrite bind_Ok.
  pose proof Hp1 as (_ & Es & _ & _ & Ew). specialize (Ew Hs). subst w1.
  rewrite <- (take_S_r l i c Hc) in Hr1. replace (Z.of_nat i + 1) with (Z.of_nat (S i)) by lia.
  destruct (IH (S i) w r1) as (r2 & -> & Hr2 & Hp2); [done|done|congruence|lia| |done|].
  { apply (room_step r r1 w w _ 1); [done| |done]. rewrite (indexed_size _ _ _ Hr), (indexed_size _ _ _ Hr1). unfold zlen. rewrite !length_take. lia. }
  exists r2. rewrite Nat.add_succ_r, <- Nat.add_succ_l. split_and!; [done..|]. by eapply same_place_trans.
Qed.

Lemma tree_new_indexed w t l : indexed w t l → attached w t →
  indexed w (tree_new w (m_index_storage_mode_ t)) [] ∧ commitment_index_store_ (tree_new w (m_index_storage_mode_ t)) = commitment_index_store_ t ∧
  m_index_storage_mode_ (tree_new w (m_index_storage_mode_ t)) = m_index_storage_mode_ t ∧
  commitment_index_mem_ (tree_new w (m_index_storage_mode_ t)) = (match commitment_index_store_ t with Some _ => None | None => Some [] end).
Proof.
  intros [_ _ _ _ Hx _] Ha. unfold attached, index_ok in *.
  assert (checkpoints_ok [] []) by (split; constructor).
  destruct (m_index_storage_mode_ t); cbn; [|rewrite Ha; split; [|done]|done].
  - destruct Ha as [Ha _]. rewrite <- Ha. split; [|done]. split; [apply built_empty|constructor|done|done| |by eexists].
    unfold index_ok. cbn. destruct (commitment_index_store_ t) as [p|]; [|done]. destruct Hx as (s & Ep & Hco & _). by exists s.
  - split; [apply built_empty|constructor|done|done|done|by eexists].
Qed.

(** A rebuilt tree stands at [k] leaves and lives where [t] does. *)
Definition resumed (w : World) (t r : ShieldedMerkleTree) (l : list uint256) (k : Z) : Prop :=
  indexed w r (take (Z.to_nat k) l) ∧ 0 ≤ k ≤ zlen l ∧ commitment_index_store_ r = commitment_index_store_ t ∧
  m_index_storage_mode_ r = m_index_storage_mode_ t ∧ (is_Some (commitment_index_store_ t) → commitment_index_mem_ r = None).

Lemma resume_checkpoint_ok w t l n : indexed w t l → attached w t → 0 ≤ n ≤ zlen l →
  ∃ r w' k, resume_checkpoint t w n = Ok (Some r, w') ∧ reads w w' ∧ (commitment_index_store_ t = None → w' = w) ∧ resumed w' t r l k ∧ k ≤ n.
Proof.
  intros Hi Ha Hn. destruct (tree_new_indexed _ _ _ Hi Ha) as (Hnew & Est & Emd & Emem). unfold resume_checkpoint.
  assert (resumed w t (tree_new w (m_index_storage_mode_ t)) l 0) as H00.
  { split_and!; [done|lia|unfold zlen; lia|done|done|]. rewrite Emem. by intros [? ->]. }
  assert (reads w w) as Hrr by done.
  destruct (ix_checkpoints _ _ _ Hi) as (cps & Ec & Hcps). rewrite Ec. destruct (_ && _) eqn:Eb; [|by eexists _, w, 0; split_and!; [done..|lia]].
  apply andb_true_iff in Eb as [_ Eit]. apply negb_true_iff, Nat.eqb_neq in Eit. pose proof (upper_bound_le n cps).
  destruct (lookup_lt_is_Some_2 cps (Nat.pred (upper_bound n cps))) as [cp Hcp]; [lia|]. rewrite Hcp. cbn [opt_get]. rewrite bind_Ok.
  pose proof (upper_bound_size n cps _ _ Hcp ltac:(lia)) as Hle. destruct Hcps as [Hcs Hst]. pose proof (Forall_lookup_1 _ _ _ _ Hcs Hcp) as [Hsz Hb].
  set (rebuilt := tree_new w (m_index_storage_mode_ t)) in *.
  assert (checkpoints_ok (take (Z.to_nat (size_ cp)) l) (take (upper_bound n cps) cps)) as Hck.
  { replace (upper_bound n cps) with (S (Nat.pred (upper_bound n cps))) by lia. by apply checkpoints_take. }
  assert (∃ r w', resume_index t (set_frontier rebuilt cp) w (size_ cp) = Ok (Some r, w') ∧ (reads w w' ∧ (commitment_index_store_ t = None → w' = w)) ∧ frontier r = cp ∧
      commitment_index_enabled_ r = true ∧ frontier_checkpoints_ r = Some [] ∧ index_ok w' r (take (Z.to_nat (size_ cp)) l) ∧
      commitment_index_store_ r = commitment_index_store_ t ∧ m_index_storage_mode_ r = m_index_storage_mode_ t ∧
      (is_Some (commitment_index_store_ t) → commitment_index_mem_ r = None)) as (r & w' & Er & [Hrd Hnone] & Ef & Een & Ecp & Hx & Es & Em & Emm).
  { assert (commitment_index_enabled_ rebuilt = true ∧ frontier_checkpoints_ rebuilt = Some []) as [Een Ecp0].
    { unfold rebuilt, attached in *. by destruct (m_index_storage_mode_ t). }
    unfold resume_index. cbn [set_frontier commitment_index_mem_]. pose proof (ix_index _ _ _ Hi) as Hx. unfold index_ok in Hx.
    rewrite Emem. destruct (commitment_index_store_ t) as [p|] eqn:Ep.
    - eexists _, w. split; [done|]. split_and!; cbn; [done..| |congruence|congruence|done]. unfold index_ok. cbn. rewrite Est.
      destruct Hx as (s & ? & ? & ?). exists s. split_and!; [done..|]. by apply holds_take.
    - unfold when. destruct (0 <? size_ cp).
      all: destruct (copy_index_ok l (Z.to_nat (size_ cp)) 0 w t []) as (w' & E & Hrd & Hnone); [done|unfold zlen in *; lia|].
      all: change (Z.of_nat 0) with 0 in E; rewrite E, bind_Ok; eexists _, w'; split; [done|]; split_and!; cbn; try done; try (intros _; by apply Hnone).
      all: unfold index_ok; cbn; by rewrite Est. }
  rewrite Er, bind_Ok. rewrite Ecp. cbn [opt_get]. rewrite bind_Ok. eexists _, w', (size_ cp). split; [done|]. split; [done|]. split; [done|]. split; [|done].
  split_and!; cbn; [|lia|lia|done|done|done]. destruct Hi. split; cbn; [by rewrite Ef|by apply Forall_take| |done|done|by eexists].
  unfold zlen in *. rewrite length_take. lia.
Qed.

Lemma rebuild_ok w t r l k n : indexed w t l → resumed w t r l k → k ≤ n ≤ zlen l → room r (n - k) →
  ∃ r' w', rebuild t r w n = Ok (Some r', w') ∧ indexed w' r' (take (Z.to_nat n) l) ∧ same_place r r' w w'.
Proof.
  intros Ht (Hr & Hk & Es & _) Hn Hroom. unfold rebuild. rewrite (indexed_size _ _ _ Hr).
  replace (zlen (take (Z.to_nat k) l)) with k by (unfold zlen in *; rewrite length_take; lia). unfold when.
  destruct (Z.ltb_spec k n) as [Hlt|Hge].
  - destruct (commitment_index_store_ t) as [p|] eqn:Ep.
    + pose proof (ix_index _ _ _ Ht) as Hx. unfold index_ok in Hx. rewrite Ep in Hx. destruct Hx as (s & Hp & Hco & Hh).
      unfold get_store. rewrite Hp. cbn [opt_get]. rewrite bind_Ok. rewrite (ReadRange_ok s l) by (done || apply (ix_max _ _ _ Ht) || lia).
      set (cs := take (Z.to_nat (n - k)) (drop (Z.to_nat k) l)). assert (zlen cs = n - k) as Hlen by (unfold cs, zlen in *; rewrite length_take, length_drop; lia).
      rewrite Hlen, Z.eqb_refl. cbn [negb]. destruct (append_all_indexed cs w r _ Hr) as (r' & w' & -> & Hr' & Hp').
      { apply Forall_take, Forall_drop, Ht. } { by rewrite Hlen. }
      rewrite bind_Ok. exists r', w'. split; [done|]. split; [|done]. unfold cs in Hr'. rewrite take_take_drop in Hr'.
      by replace (Z.to_nat k + Z.to_nat (n - k))%nat with (Z.to_nat n) in Hr' by lia.
    + destruct (append_read_ok l t (Z.to_nat (n - k)) (Z.to_nat k) w r) as (r' & E & Hr' & Hp'); [done..|unfold zlen in *; lia|by rewrite Z2Nat.id by lia|done|].
      rewrite Z2Nat.id in E by lia. rewrite E. exists r', w. replace (Z.to_nat k + Z.to_nat (n - k))%nat with (Z.to_nat n) in Hr' by lia. done.
  - replace n with k by lia. rewrite Z.sub_diag. cbn. by exists r, w.
Qed.

Lemma Truncate_ok w t l n : indexed w t l → attached w t → 0 ≤ n ≤ zlen l → reliable → (commitment_index_store_ t = None → n ≤ MEM_INDEX_HARD_CAP) →
  ∃ t' w', Truncate t w n = Ok (true, t', w') ∧ indexed w' t' (take (Z.to_nat n) l) ∧ attached w' t' ∧
    m_index_storage_mode_ t' = m_index_storage_mode_ t ∧ commitment_index_store_ t' = commitment_index_store_ t ∧ (commitment_index_store_ t = None → w' = w).
Proof.
  intros Hi Ha Hn Hrel Hcap. unfold Truncate. rewrite (indexed_size _ _ _ Hi). destruct (Z.ltb_spec (zlen l) n); [lia|].
  destruct (Z.eqb_spec n (zlen l)) as [->|Hne]; [exists t, w; rewrite take_ge by (unfold zlen; lia); done|].
  rewrite (HasCommitmentIndex_ok _ _ _ Hi), bind_Ok. cbn [negb].
  destruct (resume_checkpoint_ok w t l n Hi Ha Hn) as (r & w1 & k & -> & [Ew Hrd] & Hn1 & Hres & Hk). rewrite bind_Ok.
  pose proof Hres as (Hr & Hk' & Es & Em & Emm). pose proof (ix_max _ _ _ Hi).
  destruct (rebuild_ok w1 t r l k n) as (t' & w' & -> & Hi' & Hp); [by apply Hrd|done|lia| |].
  { split_and!; [done|..]; rewrite (indexed_size _ _ _ Hr); replace (zlen (take (Z.to_nat k) l)) with k by (unfold zlen in *; rewrite length_take; lia); [lia|].
    rewrite Es. intros E. specialize (Hcap E). lia. }
  rewrite bind_Ok. exists t', w'. pose proof Hp as (Em' & Es' & _ & _ & Ew'). split_and!; [done..| |congruence|congruence|].
  2: { intros E. rewrite Ew' by congruence. by apply Hn1. }
  apply (same_place_attached r t' w1 w'); [done|].
  unfold attached in *. rewrite Em, Es, Ew. destruct (m_index_storage_mode_ t); [|done..]. destruct Ha as [Ha _]. by split.
Qed.

Lemma indexed_Root w t l : indexed w t l → tree_Root t = Ok (commitment_root l).
Proof.
  intros Ht. apply built_Root; [apply Ht| |unfold MERKLE_DEPTH; lia]. change (Z.of_nat MERKLE_DEPTH) with 32. apply Ht.
Qed.

Lemma indexed_read w t l i c : indexed w t l → l !! i = Some c → ∃ w', CommitmentAt t w (Z.of_nat i) = Ok (Some c, w') ∧ reads w w'.
Proof.
  intros Ht Hc. destruct (ReadCommitmentAt_ok w t l (Z.of_nat i) c Ht) as (w' & E & Hr & _); [by rewrite Nat2Z.id|lia|]. by exists w'.
Qed.

(** ** Detaching and attaching the index *)
Lemma Detach_ok w t l : indexed w t l → ∃ t', DetachToMemoryOnly t w = Ok (true, t') ∧ indexed w t' l ∧ attached w t' ∧
  m_index_storage_mode_ t' = MEMORY_ONLY ∧ commitment_index_store_ t' = None.
Proof.
  intros Hi. pose proof (indexed_size _ _ _ Hi) as Hsz. pose proof (HasCommitmentIndex_ok _ _ _ Hi) as Hhas. destruct Hi as [Hb Hh Hm He Hx Hc].
  assert (detached_commitments t w = Ok (Some l)) as E.
  { unfold detached_commitments. rewrite Hsz. pose proof (zlen_nonneg l).
    destruct (Z.ltb_spec 0 (zlen l)) as [_|Hz]; [|f_equal; f_equal; symmetry; apply nil_length_inv; unfold zlen in *; lia].
    rewrite Hhas, bind_Ok. cbn [negb]. unfold index_ok in Hx. destruct (commitment_index_store_ t) as [p|].
    - destruct Hx as (s & Ep & _ & Hs). unfold get_store. rewrite Ep. cbn [opt_get]. rewrite bind_Ok. cbv zeta.
      rewrite (ReadRange_ok s l) by (done || lia). cbn [drop]. rewrite Z.sub_0_r, drop_0, take_ge by (unfold zlen; lia). by rewrite Z.eqb_refl.
    - rewrite Hx, Z.ltb_irrefl. by rewrite take_ge by (unfold zlen; lia). }
  unfold DetachToMemoryOnly. rewrite E, bind_Ok. eexists. split; [done|]. split; [split; done|]. done.
Qed.

(** The configured store holds the leaves of [t]. *)
Definition compatible (w : World) (l : list uint256) : Prop :=
  match s_commitment_store w with Some p => ∃ s, stores w !! p = Some s ∧ coherent s ∧ holds s l | None => True end.

Lemma Attach_ok w t l : indexed w t l → commitment_index_store_ t = None → compatible w l →
  ∃ t', AttachConfiguredCommitmentIndexStore t w = Ok (true, t') ∧ indexed w t' l ∧ attached w t'.
Proof.
  intros Hi Hs Hcomp. pose proof (indexed_size _ _ _ Hi) as Hsz. destruct Hi as [Hb Hh Hm He Hx Hc].
  unfold index_ok in Hx. rewrite Hs in Hx. unfold AttachConfiguredCommitmentIndexStore, compatible in *. rewrite Hx, Hsz, Z.leb_refl.
  destruct (s_commitment_store w) as [p|] eqn:Ec.
  - destruct Hcomp as (s & Ep & Hco & Hh0). cbn [negb]. rewrite andb_false_r.
    assert (compatible_prefix t w p = Ok true) as E.
    { unfold compatible_prefix. rewrite Hx, Hsz. destruct (Z.ltb_spec 0 (zlen l)); [|done]. unfold get_store. rewrite Ep. cbn [opt_get]. rewrite bind_Ok. cbv zeta.
      rewrite (ReadRange_ok s l) by (done || lia). rewrite Z.sub_0_r. cbn [Z.to_nat]. rewrite drop_0, take_ge by (unfold zlen; lia).
      rewrite Z.eqb_refl. change (default [] (Some l)) with l. rewrite (take_ge l (length l)) by lia. by rewrite bool_decide_true. }
    rewrite E, bind_Ok. cbn [negb]. eexists. split; [done|]. split.
    + split; cbn; [done..| |done]. unfold index_ok. cbn. by exists s.
    + unfold attached. cbn. by rewrite Ec.
  - rewrite orb_true_r. eexists. split; [done|]. split; [split; done|]. unfold attached. cbn. by rewrite Ec; split; [|intros [? ?]].
Qed.

(** Operations on a private copy, and what they do to the list of leaves. *)
Inductive scratch_op := ScratchAppend (c : uint256) | ScratchTruncate (n : Z) | ScratchRemoveLast (n : Z).

Definition scratch_step (t : ShieldedMerkleTree) (w : World) (o : scratch_op) : result (ShieldedMerkleTree * World) :=
  match o with
  | ScratchAppend c => Append t w c
  | ScratchTruncate n => '(_, t, w) ← Truncate t w n; Ok (t, w)
  | ScratchRemoveLast n => '(_, t, w) ← RemoveLast t w n; Ok (t, w)
  end.

Fixpoint scratch_run (t : ShieldedMerkleTree) (w : World) (ops : list scratch_op) : result (ShieldedMerkleTree * World) :=
  match ops with
  | [] => Ok (t, w)
  | o :: ops => '(t, w) ← scratch_step t w o; scratch_run t w ops
  end.

Definition scratch_spec (l : list uint256) (o : scratch_op) : list uint256 :=
  match o with
  | ScratchAppend c => l ++ [c]
  | ScratchTruncate n => take (Z.to_nat n) l
  | ScratchRemoveLast n => if zlen l <? n then l else take (Z.to_nat (zlen l - n)) l
  end.

(** Arguments are in range and the leaves stay below the bound on memory. *)
Fixpoint scratch_fits (l : list uint256) (ops : list scratch_op) : Prop :=
  zlen l ≤ MEM_INDEX_HARD_CAP ∧
  match ops with
  | [] => True
  | o :: ops => match o with ScratchAppend c => length c = 32%nat | ScratchTruncate n | ScratchRemoveLast n => 0 ≤ n end ∧ scratch_fits (scratch_spec l o) ops
  end.

Definition private (w : World) (t : ShieldedMerkleTree) (l : list uint256) : Prop :=
  indexed w t l ∧ attached w t ∧ m_index_storage_mode_ t = MEMORY_ONLY ∧ commitment_index_store_ t = None.

Lemma Truncate_private w t l n : reliable → private w t l → 0 ≤ n → zlen l ≤ MEM_INDEX_HARD_CAP →
  ∃ b t', Truncate t w n = Ok (b, t', w) ∧ private w t' (take (Z.to_nat n) l).
Proof.
  intros Hrel (Hi & Ha & Hm & Hs) Hn Hcap. destruct (decide (n ≤ zlen l)) as [Hle|Hgt].
  - destruct (Truncate_ok w t l n Hi Ha ltac:(lia) Hrel) as (t' & w' & E & Hi' & Ha' & Em & Es & Ew); [intros; lia|].
    specialize (Ew Hs). subst w'. exists true, t'. split; [done|]. split_and!; [done..|congruence|congruence].
  - exists false, t. unfold Truncate. rewrite (indexed_size _ _ _ Hi). destruct (Z.ltb_spec (zlen l) n); [|lia].
    rewrite take_ge by (unfold zlen in *; lia). done.
Qed.

Lemma scratch_step_ok w t l o ops : reliable → private w t l → scratch_fits l (o :: ops) →
  ∃ t', scratch_step t w o = Ok (t', w) ∧ private w t' (scratch_spec l o).
Proof.
  intros Hrel Hp (Hcap & Ho & Hfits). destruct o as [c|n|n]; cbn [scratch_step scratch_spec] in *.
  - destruct Hp as (Hi & Ha & Hm & Hs). assert (zlen (l ++ [c]) ≤ MEM_INDEX_HARD_CAP) as Hcap' by (destruct ops; apply Hfits).
    rewrite zlen_app in Hcap'. change (zlen [c]) with 1 in Hcap'.
    destruct (Append_indexed w t l c Hi Ho) as (t' & w' & E & Hi' & Hpl).
    { split_and!; [done|..]; rewrite (indexed_size _ _ _ Hi); [unfold MEM_INDEX_HARD_CAP in *; lia|done]. }
    pose proof Hpl as (Em & Es & _ & _ & Ew). specialize (Ew Hs). subst w'. exists t'. split; [done|].
    split_and!; [done|by apply (same_place_attached t t' w w)|congruence|congruence].
  - destruct (Truncate_private w t l n Hrel Hp Ho Hcap) as (b & t' & E & Hp'). exists t'. by rewrite E, bind_Ok.
  - unfold RemoveLast. rewrite (indexed_size w t l) by apply Hp. destruct (Z.ltb_spec (zlen l) n); [exists t; by rewrite bind_Ok|].
    destruct (Truncate_private w t l (zlen l - n) Hrel Hp ltac:(lia) Hcap) as (b & t' & E & Hp'). exists t'. by rewrite E, bind_Ok.
Qed.

Lemma scratch_run_ok ops : reliable → ∀ w t l, private w t l → scratch_fits l ops →
  ∃ t', scratch_run t w ops = Ok (t', w) ∧ private w t' (foldl scratch_spec l ops).
Proof.
  intros Hrel. induction ops as [|o ops IH]; intros w t l Hp Hf; cbn [scratch_run foldl]; [by exists t|].
  destruct (scratch_step_ok w t l o ops Hrel Hp Hf) as (t1 & -> & Hp1). rewrite bind_Ok. apply IH; [done|]. by destruct Hf as (_ & _ & ?).
Qed.

End stores.

(** Truncation restores the earlier tree. Truncating a tree to a number of
    leaves it has gives, from the nearest checkpoint, a tree whose root, index
    and checkpoints are those of its first leaves; a larger number is refused
    and nothing changes. Appending the removed leaves again brings the root
    back. *)
Theorem shielded_truncate_restores `{LevelDBLaws} `{CacheLock} w t l n :
  indexed w t l → attached w t → reliable → (commitment_index_store_ t = None → zlen l ≤ MEM_INDEX_HARD_CAP) → 0 ≤ n →
  if n <=? zlen l then
    ∃ t' w', Truncate t w n = Ok (true, t', w') ∧ indexed w' t' (take (Z.to_nat n) l) ∧
      tree_Root t' = Ok (commitment_root (take (Z.to_nat n) l)) ∧
      (∀ i c, take (Z.to_nat n) l !! i = Some c → ∃ w'', CommitmentAt t' w' (Z.of_nat i) = Ok (Some c, w'') ∧ reads w' w'') ∧
      ∃ t'' w'', append_all t' w' (drop (Z.to_nat n) l) = Ok (t'', w'') ∧ indexed w'' t'' l ∧ tree_Root t'' = tree_Root t
  else Truncate t w n = Ok (false, t, w).
Proof.
  intros Hi Ha Hrel Hcap Hn. destruct (Z.leb_spec n (zlen l)) as [Hle|Hgt].
  - destruct (Truncate_ok w t l n Hi Ha ltac:(lia) Hrel) as (t' & w' & E & Hi' & Ha' & Em & Es & _); [intros Hs; specialize (Hcap Hs); lia|].
    exists t', w'. split_and!; [exact E|exact Hi'|exact (indexed_Root _ _ _ Hi')|intros i c; by apply indexed_read|].
    pose proof (ix_max _ _ _ Hi). assert (zlen (take (Z.to_nat n) l) + zlen (drop (Z.to_nat n) l) = zlen l) as Hz by by rewrite <- zlen_app, take_drop.
    destruct (append_all_indexed (drop (Z.to_nat n) l) w' t' _ Hi') as (t'' & w'' & E'' & Hi'' & _).
    { apply Forall_drop, Hi. } { split_and!; [exact Hrel|..]; rewrite (indexed_size _ _ _ Hi'), Hz; [done|]. rewrite Es. exact Hcap. }
    rewrite take_drop in Hi''. exists t'', w''. split_and!; [exact E''|exact Hi''|]. rewrite (indexed_Root _ _ _ Hi''). symmetry. exact (indexed_Root _ _ _ Hi).
  - unfold Truncate. rewrite (indexed_size _ _ _ Hi). destruct (Z.ltb_spec (zlen l) n); [done|lia].
Qed.

(** A detached tree is private. Detaching the index of a tree, whichever
    store holds it, and then running any appends, truncations and removals on
    the copy gives the tree of the list those operations describe and writes
    to no store; attaching it again where the configured store holds the
    leaves gives that tree back with the shared index. *)
Theorem shielded_detach_isolates `{LevelDBLaws} `{CacheLock} w t l ops :
  indexed w t l → reliable → scratch_fits l ops →
  ∃ t0 t1, DetachToMemoryOnly t w = Ok (true, t0) ∧ scratch_run t0 w ops = Ok (t1, w) ∧
    tree_Root t1 = Ok (commitment_root (foldl scratch_spec l ops)) ∧
    (compatible w (foldl scratch_spec l ops) →
     ∃ t2, AttachConfiguredCommitmentIndexStore t1 w = Ok (true, t2) ∧ indexed w t2 (foldl scratch_spec l ops) ∧ attached w t2).
Proof.
  intros Hi Hrel Hf. destruct (Detach_ok w t l Hi) as (t0 & E0 & Hi0 & Ha0 & Hm0 & Hs0).
  destruct (scratch_run_ok ops Hrel w t0 l) as (t1 & E1 & Hi1 & Ha1 & Hm1 & Hs1); [done|done|].
  exists t0, t1. split_and!; [exact E0|exact E1|exact (indexed_Root _ _ _ Hi1)|]. intros Hc. exact (Attach_ok w t1 _ Hi1 Hs1 Hc).
Qed.
