(* ===== verification/ShieldedLookup.v ===== *)
(** Witnesses of earlier leaves, rebuilt from the index.

    [WitnessAt] replays the leaves; [WitnessesAt] computes each sibling with a
    memoised recursion over the tree. Both give witnesses that verify against
    the current root. The cache of [WitnessesAt] maps the packed pair of a
    start and a height to the node there. *)

From Stdlib Require Import ZArith Lia String Sorted.
From stdpp Require Import base list gmap numbers tactics sorting.
From S2P Require Import Prelude Sha256 Compact Header ShieldedTree ShieldedFrontier ShieldedWitness ShieldedIndex.
Import sha256 block_header shielded_tree.

Open Scope Z_scope.

#[local] Opaque BranchHash EmptyLeafHash node.

(** ** The packed keys and the siblings *)
Lemma cache_key_sum start d : 0 ≤ start < 2 ^ 34 → (d ≤ MERKLE_DEPTH)%nat → cache_key start d = Z.of_nat d + start * 64.
Proof.
  intros Hs Hd. unfold cache_key. rewrite Z.shiftl_mul_pow2, u64_small by lia. rewrite Z.lor_comm. apply (lor_high (Z.of_nat d) start 6); unfold MERKLE_DEPTH in Hd; lia.
Qed.

Lemma cache_key_inj a d b e : 0 ≤ a < 2 ^ 34 → 0 ≤ b < 2 ^ 34 → (d ≤ MERKLE_DEPTH)%nat → (e ≤ MERKLE_DEPTH)%nat →
  cache_key a d = cache_key b e → a = b ∧ d = e.
Proof. intros Ha Hb Hd He. rewrite !cache_key_sum by done. unfold MERKLE_DEPTH in *. lia. Qed.

Lemma flip_bits x j : 0 ≤ j → Z.testbit (if Z.odd x then x - 1 else x + 1) j = xorb (Z.testbit x j) (j =? 0).
Proof.
  intros Hj. destruct (Z.eqb_spec j 0) as [->|Hne].
  - rewrite !Z.bit0_odd. destruct (Z.odd x) eqn:E; [rewrite Z.odd_sub, E|rewrite Z.odd_add, E]; done.
  - rewrite xorb_false_r. replace j with (Z.succ (Z.pred j)) by lia. set (k := Z.pred j). assert (0 ≤ k) by lia. clearbody k. rewrite <- !(Z.div2_bits _ k) by lia.
    replace ((if Z.odd x then x - 1 else x + 1) / 2) with (x / 2); [done|].
    pose proof (Zmod_odd x). destruct (Z.odd x); Z.to_euclidean_division_equations; lia.
Qed.

Lemma sibling_start_ok p d : 0 ≤ p < 2 ^ 32 → (d < MERKLE_DEPTH)%nat →
  sibling_start p d = (if bit p d then up p d - 1 else up p d + 1) * 2 ^ Z.of_nat d.
Proof.
  intros Hp Hd. unfold sibling_start. assert (2 ^ Z.of_nat d ≤ 2 ^ 31) by (apply Z.pow_le_mono_r; unfold MERKLE_DEPTH in Hd; lia). pose proof (two_pow_pos d).
  rewrite Z.shiftl_1_l, u64_small by lia. cbv zeta.
  assert (u64 (Z.lnot (2 ^ Z.of_nat d - 1)) = (2 ^ (64 - Z.of_nat d) - 1) * 2 ^ Z.of_nat d) as ->.
  { unfold Z.lnot. rewrite u64_mod, Z.mul_sub_distr_r, <- Z.pow_add_r by (unfold MERKLE_DEPTH in Hd; lia).
    replace (64 - Z.of_nat d + Z.of_nat d) with 64 by lia. symmetry. apply Z.mod_unique with (-1); lia. }
  apply Z.bits_inj'. intros k Hk. rewrite Z.land_spec, Z.lxor_spec, !Z.mul_pow2_bits by lia.
  destruct (Z.lt_ge_cases k (Z.of_nat d)) as [Hlt|Hge]; [rewrite !(Z.testbit_neg_r _ (k - _)) by lia; apply andb_false_r|].
  set (j := k - Z.of_nat d). replace k with (j + Z.of_nat d) by lia. rewrite Z.pow2_bits_eqb by lia. rewrite <- Z.div_pow2_bits by lia.
  assert (2 ^ (64 - Z.of_nat d) - 1 = Z.ones (64 - Z.of_nat d)) as -> by (rewrite Z.ones_equiv; lia).
  assert (0 ≤ up p d < 2 ^ (64 - Z.of_nat d)) as Hup.
  { split; [apply up_nonneg; lia|]. apply Z.div_lt_upper_bound; [lia|]. rewrite <- Z.pow_add_r by (unfold MERKLE_DEPTH in Hd; lia). replace (Z.of_nat d + (64 - Z.of_nat d)) with 64 by lia. lia. }
  rewrite Z.testbit_ones_nonneg by (unfold MERKLE_DEPTH in Hd; lia).
  assert (Z.testbit (if bit p d then up p d - 1 else up p d + 1) j = xorb (Z.testbit (up p d) j) (j =? 0)) as ->.
  { apply flip_bits. lia. }
  replace (Z.of_nat d =? j + Z.of_nat d) with (j =? 0) by (destruct (Z.eqb_spec j 0), (Z.eqb_spec (Z.of_nat d) (j + Z.of_nat d)); lia).
  destruct (Z.ltb_spec j (64 - Z.of_nat d)); [by rewrite andb_true_r|]. rewrite andb_false_r. symmetry.
  destruct (Z.eqb_spec j 0); [unfold MERKLE_DEPTH in Hd; lia|]. rewrite xorb_false_r. apply Z.bits_above_log2; [lia|].
  destruct (decide (up p d = 0)) as [->|]; [cbn; unfold MERKLE_DEPTH in Hd; lia|]. assert (Z.log2 (up p d) < 64 - Z.of_nat d); [|lia]. apply Z.log2_lt_pow2; lia.
Qed.

Section lookup.
Context `{LevelDBLaws} `{CacheLock} (l : list uint256).

(** ** The memoised recursion *)
Definition memo_ok (cache : gmap Z uint256) : Prop := ∀ key h, cache !! key = Some h →
  ∃ d i, (d ≤ MERKLE_DEPTH)%nat ∧ 0 ≤ i ∧ i * 2 ^ Z.of_nat d < 2 ^ 34 ∧ key = cache_key (i * 2 ^ Z.of_nat d) d ∧ h = node l d i.

Lemma memo_hit cache d i h : memo_ok cache → (d ≤ MERKLE_DEPTH)%nat → 0 ≤ i → i * 2 ^ Z.of_nat d < 2 ^ 34 →
  cache !! cache_key (i * 2 ^ Z.of_nat d) d = Some h → h = node l d i.
Proof.
  intros Hm Hd Hi Hs E. destruct (Hm _ _ E) as (e & j & He & Hj & Hs' & Ek & ->). pose proof (two_pow_pos d). pose proof (two_pow_pos e).
  apply cache_key_inj in Ek as [Ek <-]; [|nia..|done|done]. f_equal. nia.
Qed.

Lemma memo_insert cache d i : memo_ok cache → (d ≤ MERKLE_DEPTH)%nat → 0 ≤ i → i * 2 ^ Z.of_nat d < 2 ^ 34 →
  memo_ok (<[cache_key (i * 2 ^ Z.of_nat d) d := node l d i]> cache).
Proof.
  intros Hm Hd Hi Hs key h E. apply lookup_insert_Some in E as [[<- <-]|[_ E]]; [by exists d, i|]. by apply Hm.
Qed.

Lemma subtree_root_ok t : ∀ d i cache w, indexed w t l → memo_ok cache → (d ≤ MERKLE_DEPTH)%nat → 0 ≤ i → (i + 1) * 2 ^ Z.of_nat d ≤ 2 ^ 33 →
  ∃ cache' w', subtree_root t d (i * 2 ^ Z.of_nat d) cache w = Ok (Some (node l d i), cache', w') ∧ memo_ok cache' ∧ reads w w'.
Proof.
  intros d. induction d as [|d IH]; intros i cache w Ht Hm Hd Hi Hs; cbn [subtree_root]; rewrite (indexed_size _ _ _ Ht).
  all: match goal with |- context [(MERKLE_DEPTH <? ?d)%nat] => destruct (Nat.ltb_spec MERKLE_DEPTH d); [lia|] end.
  all: match goal with |- context [zlen l <=? ?x] => destruct (Z.leb_spec (zlen l) x) as [Hle|Hlt] end.
  1, 3: unfold EmptyRoot; rewrite (proj2 (Nat.ltb_ge _ _)) by lia; rewrite bind_Ok; exists cache, w; rewrite node_empty by done; done.
  - destruct (cache !! _) as [h|] eqn:Ec; [apply memo_hit in Ec; [|done..|lia]; subst h; by exists cache, w|].
    change (2 ^ Z.of_nat 0) with 1 in *. rewrite Z.mul_1_r in *.
    destruct (lookup_lt_is_Some_2 l (Z.to_nat i)) as [c Hc]; [unfold zlen in *; lia|].
    destruct (ReadCommitmentAt_ok w t l i c Ht Hc Hi) as (w' & E & Hr & _). unfold CommitmentAt. rewrite E, bind_Ok.
    assert (node l 0 i = c) as <- by (rewrite node_leaf; by rewrite Hc). eexists _, w'. split; [done|]. split; [|done].
    pose proof (memo_insert cache 0 i Hm) as Hins. change (2 ^ Z.of_nat 0) with 1 in Hins. rewrite Z.mul_1_r in Hins. apply Hins; lia.
  - pose proof (two_pow_pos d). pose proof (pow2_S d) as HpS.
    destruct (cache !! cache_key (i * 2 ^ Z.of_nat (S d)) (S d)) as [h|] eqn:Ec; [apply memo_hit in Ec; [|done..|lia]; subst h; by exists cache, w|].
    assert (2 ^ Z.of_nat (S d) ≤ 2 ^ 32) by (apply Z.pow_le_mono_r; unfold MERKLE_DEPTH in Hd; lia).
    rewrite Z.shiftl_1_l, (u64_small (2 ^ _)) by lia. replace (i * 2 ^ Z.of_nat (S d)) with ((2 * i) * 2 ^ Z.of_nat d) in * by nia.
    destruct (IH (2 * i) cache w) as (c1 & w1 & -> & Hm1 & Hr1); [done|done|lia..|]. rewrite bind_Ok.
    rewrite u64_small by nia. replace (2 * i * 2 ^ Z.of_nat d + 2 ^ Z.of_nat d) with ((2 * i + 1) * 2 ^ Z.of_nat d) by lia.
    destruct (IH (2 * i + 1) c1 w1) as (c2 & w2 & -> & Hm2 & Hr2); [by apply Hr1|done|lia..|]. rewrite bind_Ok.
    assert (BranchHash (node l d (2 * i)) (node l d (2 * i + 1)) = node l (S d) i) as -> by done.
    eexists _, w2. split; [done|]. split; [|destruct Hr1, Hr2; split; [congruence|auto]].
    destruct (c2 !! _); [done|]. replace (2 * i * 2 ^ Z.of_nat d) with (i * 2 ^ Z.of_nat (S d)) by nia. apply memo_insert; [done|done|done|nia].
Qed.

Lemma siblings_ok t p : 0 ≤ p < 2 ^ 32 → ∀ n d cache w, indexed w t l → memo_ok cache → (d + n = MERKLE_DEPTH)%nat →
  ∃ cache' w', siblings t p n d (auth l p 0 d) cache w = Ok (Some (auth l p 0 MERKLE_DEPTH), cache', w') ∧ memo_ok cache' ∧ reads w w'.
Proof.
  intros Hp. induction n as [|n IH]; intros d cache w Ht Hm Hd; cbn [siblings].
  - rewrite Nat.add_0_r in Hd. subst d. by exists cache, w.
  - rewrite sibling_start_ok by (done || lia). set (i := if bit p d then up p d - 1 else up p d + 1).
    assert (0 ≤ i ∧ (i + 1) * 2 ^ Z.of_nat d ≤ 2 ^ 33) as [Hi0 Hi1].
    { pose proof (up_bit p d) as Hu. pose proof (up_nonneg p (S d) ltac:(lia)). pose proof (two_pow_pos d). pose proof (Z.mul_div_le p (2 ^ Z.of_nat d)).
      assert (2 ^ Z.of_nat d ≤ 2 ^ 31) by (apply Z.pow_le_mono_r; unfold MERKLE_DEPTH in Hd; lia).
      unfold i. destruct (bit p d); cbn in Hu; nia. }
    destruct (subtree_root_ok t d i cache w) as (c1 & w1 & -> & Hm1 & Hr1); [done|done|lia|done|done|]. rewrite bind_Ok.
    change (node l d i) with (sib l p d). rewrite <- auth_snoc.
    destruct (IH (S d) c1 w1) as (c2 & w2 & -> & Hm2 & Hr2); [by apply Hr1|done|lia|]. exists c2, w2.
    split; [done|]. split; [done|]. destruct Hr1, Hr2. split; [congruence|auto].
Qed.

(** ** A path as a witness *)
Lemma path_frontier_ok p n : ∀ d, path_frontier p (auth l p d n) d = (slots l p d n, uncles l p d n).
Proof.
  induction n as [|n IH]; intros d; [done|]. change (auth l p d (S n)) with (sib l p d :: auth l p (S d) n). cbn [path_frontier slots uncles].
  rewrite IH, bit_testbit. by destruct (bit p d).
Qed.

Lemma FromAuthPath_ok p : 0 ≤ p < zlen l → zlen l ≤ 2 ^ 32 →
  ∃ w, FromAuthPath (node l 0 p) p (auth l p 0 MERKLE_DEPTH) = Ok w ∧ supplied l p w.
Proof.
  intros Hp Hmax. unfold FromAuthPath. rewrite throw_if_false, bind_Ok by (apply Z.leb_gt; change MERKLE_MAX_LEAVES with (2 ^ 32); lia).
  change (auth l p 0 MERKLE_DEPTH) with (sib l p 0 :: auth l p 1 31). change (drop 1 (sib l p 0 :: auth l p 1 31)) with (auth l p 1 31).
  change (vget (sib l p 0 :: auth l p 1 31) 0) with (Ok (sib l p 0)). rewrite bind_Ok, path_frontier_ok, (bit_testbit p 0 : Z.testbit p 0 = _).
  assert (∀ f, feeds l p 0 MERKLE_DEPTH (f ++ []) → feeds l p 0 MERKLE_DEPTH f) as Hnil by (intros f; by rewrite app_nil_r).
  pose proof (feeds_uncles l p [] 32 0 0 I) as Hf. change (32 + 0)%nat with MERKLE_DEPTH in Hf. apply Hnil in Hf. cbn [uncles] in Hf.
  assert (∃ n, slots l p 1 31 = slots l p 1 n ∧ p < 2 ^ Z.of_nat (S n) ∧ (n < MERKLE_DEPTH)%nat) as Hn.
  { exists 31%nat. split; [done|]. split; [change (2 ^ Z.of_nat 32) with (2 ^ 32); lia|unfold MERKLE_DEPTH; lia]. }
  destruct (bit p 0) eqn:Hb; eexists; (split; [reflexivity|]); (split_and!; [|done|eexists; split; [reflexivity|exact Hf]]).
  all: split; cbn [tree_ frontier size_ left_ right_ parents_]; rewrite ?Hb; done.
Qed.

(** The entries of [out] are witnesses of their positions. *)
Definition witnesses_ok (out : gmap Z ShieldedMerkleWitness) (positions : list Z) : Prop :=
  ∀ p, match out !! p with Some wit => p ∈ positions ∧ supplied l p wit | None => p ∉ positions end.

Lemma witnesses_ok_add out seen p wit : witnesses_ok out seen → supplied l p wit →
  witnesses_ok (match out !! p with None => <[p := wit]> out | Some _ => out end) (seen ++ [p]).
Proof.
  intros Ho Hs q. pose proof (Ho p) as Hp. specialize (Ho q). destruct (out !! p) as [wp|] eqn:Ep.
  - destruct (out !! q); [destruct Ho; split; [apply elem_of_app; by left|done]|].
    intros [?| ->%list_elem_of_singleton]%elem_of_app; [done|]. by apply Ho, Hp.
  - destruct (decide (p = q)) as [<-|Hne]; [rewrite lookup_insert_eq; split; [apply elem_of_app; right; by apply list_elem_of_singleton|done]|].
    rewrite lookup_insert_ne by done. destruct (out !! q); [destruct Ho; split; [apply elem_of_app; by left|done]|].
    by intros [?| ->%list_elem_of_singleton]%elem_of_app.
Qed.

Lemma witnesses_loop_ok t : ∀ positions out seen cache w, indexed w t l → memo_ok cache → witnesses_ok out seen →
  Forall (λ p, 0 ≤ p < zlen l) positions →
  ∃ out' w', witnesses_loop t (commitment_root l) positions out cache w = Ok (out', w') ∧ witnesses_ok out' (seen ++ positions) ∧ reads w w'.
Proof.
  induction positions as [|p positions IH]; intros out seen cache w Ht Hm Ho Hp; cbn [witnesses_loop]; [rewrite app_nil_r; eauto using reads_refl|].
  inversion_clear Hp as [|? ? Hp1 Hps]. pose proof (ix_max _ _ _ Ht) as Hmax.
  destruct (lookup_lt_is_Some_2 l (Z.to_nat p)) as [c Hc]; [unfold zlen in *; lia|].
  destruct (ReadCommitmentAt_ok w t l p c Ht Hc ltac:(lia)) as (w1 & E1 & Hr1 & _). unfold CommitmentAt. rewrite E1, bind_Ok.
  destruct (siblings_ok t p ltac:(lia) MERKLE_DEPTH 0 cache w1) as (cache' & w2 & E2 & Hm2 & Hr2); [by apply Hr1|done|lia|].
  change (auth l p 0 0) with (@nil uint256) in E2. rewrite E2, bind_Ok.
  assert (node l 0 p = c) as Hleaf by (rewrite node_leaf; by rewrite Hc).
  destruct (FromAuthPath_ok p Hp1 Hmax) as (wit & Ewit & Hsup). rewrite Hleaf in Ewit. rewrite Ewit. cbn [caught].
  pose proof (supplied_verifies l p wit Hsup) as Ev. rewrite Hleaf in Ev. rewrite Ev. cbn [caught].
  destruct (IH (match out !! p with None => <[p := wit]> out | Some _ => out end) (seen ++ [p]) cache' w2) as (out' & w' & -> & Ho' & Hr').
  - apply Hr2, Hr1, Ht.
  - done.
  - by apply witnesses_ok_add.
  - done.
  - exists out', w'. rewrite <- app_assoc in Ho'. split_and!; [done..|]. eapply reads_trans; [exact Hr1|]. by eapply reads_trans.
Qed.

Lemma elem_of_unique (x : Z) ps : x ∈ unique ps ↔ x ∈ ps.
Proof.
  induction ps as [|a ps IH]; [done|]. destruct ps as [|b ps]; [done|].
  change (unique (a :: b :: ps)) with (if a =? b then unique (b :: ps) else a :: unique (b :: ps)). destruct (Z.eqb_spec a b) as [->|]; set_solver.
Qed.

End lookup.

Lemma WitnessesAt_ok `{LevelDBLaws} `{CacheLock} w t l positions :
  indexed w t l → Forall (λ p, 0 ≤ p) positions →
  ∃ out w', WitnessesAt t w positions = Ok (out, w') ∧ reads w w' ∧
    (∀ p, is_Some (out !! p) ↔ p ∈ positions ∧ p < zlen l) ∧ ∀ p wit, out !! p = Some wit → supplied l p wit.
Proof.
  intros Ht Hpos. unfold WitnessesAt. rewrite (HasCommitmentIndex_ok _ _ _ Ht), bind_Ok. cbn [negb]. rewrite orb_false_r.
  case_bool_decide as Hnil; [subst; exists ∅, w; split_and!; [done..| |done]; intros p; rewrite lookup_empty; split; [by intros [? ?]|set_solver]|].
  rewrite (indexed_size _ _ _ Ht). set (ps := unique _).
  assert (∀ p, p ∈ ps ↔ p ∈ positions ∧ p < zlen l) as Hps by (intros p; unfold ps; rewrite elem_of_unique, (merge_sort_Permutation Z.le), list_elem_of_filter; naive_solver).
  assert (Forall (λ p, 0 ≤ p < zlen l) ps) as Hr.
  { rewrite Forall_forall in *. intros p Hp. apply Hps in Hp as [? ?]. split; [by apply Hpos|done]. }
  clearbody ps. case_bool_decide as Hnil2.
  { exists ∅, w. split_and!; [done..| |done]. intros p. rewrite lookup_empty, <- Hps, Hnil2. split; [by intros [? ?]|set_solver]. }
  rewrite (indexed_Root _ _ _ Ht), bind_Ok. destruct (witnesses_loop_ok l t ps ∅ [] ∅ w Ht) as (out & w' & -> & Ho & Hrd); [by intros ? ?|intros p; rewrite lookup_empty; set_solver|done|].
  exists out, w'. split_and!; [done..| |].
  - intros p. rewrite <- Hps. specialize (Ho p). destruct (out !! p); [by split; [intros; apply Ho|]|]. split; [by intros [? ?]|by intros ?].
  - intros p wit E. specialize (Ho p). rewrite E in Ho. apply Ho.
Qed.

(** ** Replaying the leaves *)
Section replay.
Context `{LevelDBLaws} `{CacheLock} (l : list uint256).

(** A read while other trees are consistent keeps them consistent, and so does
    an append to a tree in memory. *)
Lemma prefix_loop_ok t : reliable → ∀ n i w prefix, indexed w t l → indexed w prefix (take i l) → commitment_index_store_ prefix = None →
  (i + n ≤ length l)%nat → Z.of_nat (i + n) ≤ MEM_INDEX_HARD_CAP →
  ∃ prefix' w', prefix_loop t prefix w n (Z.of_nat i) = Ok (Some prefix', w') ∧ indexed w' prefix' (take (i + n) l) ∧ reads w w'.
Proof.
  intros Hrel. induction n as [|n IH]; intros i w prefix Ht Hp Hs Hn Hcap; cbn [prefix_loop]; [rewrite Nat.add_0_r; eauto using reads_refl|].
  destruct (lookup_lt_is_Some_2 l i ltac:(lia)) as [c Hc]. pose proof (ix_max _ _ _ Ht) as Hmax.
  destruct (ReadCommitmentAt_ok w t l (Z.of_nat i) c Ht) as (w1 & E1 & Hr1 & _); [by rewrite Nat2Z.id|lia|]. unfold CommitmentAt. rewrite E1, bind_Ok.
  assert (length c = 32%nat) as Hlen by exact (Forall_lookup_1 _ _ _ _ (ix_hashes _ _ _ Ht) Hc).
  assert (Size prefix = Z.of_nat i) as Hsz by (rewrite (indexed_size _ _ _ Hp); unfold zlen; rewrite length_take; lia).
  destruct (Append_indexed w1 prefix (take i l) c) as (p1 & w2 & -> & Hp1 & (_ & Es & _ & _ & Ew)); [by apply Hr1|done| |].
  { unfold room. rewrite Hsz, Hs. split_and!; [done|unfold zlen in *; lia|lia]. }
  specialize (Ew Hs). subst w2. cbn [caught]. rewrite <- (take_S_r l i c Hc) in Hp1. replace (Z.of_nat i + 1) with (Z.of_nat (S i)) by lia.
  destruct (IH (S i) w1 p1) as (p2 & w2 & -> & Hp2 & Hr2); [by apply Hr1|done|congruence|lia..|].
  exists p2, w2. rewrite Nat.add_succ_r, <- Nat.add_succ_l. split_and!; [done..|]. by eapply reads_trans.
Qed.

Lemma update_loop_ok t p : ∀ n i w wit D, indexed w t l → tracking (take i l) p wit D → (i + n = length l)%nat →
  ∃ wit' D' w', update_loop t wit w n (Z.of_nat i) = Ok (Some wit', w') ∧ tracking l p wit' D' ∧ reads w w'.
Proof.
  induction n as [|n IH]; intros i w wit D Ht Htr Hn; cbn [update_loop].
  - rewrite take_ge in Htr by lia. exists wit, D, w. split_and!; [done..|apply reads_refl].
  - destruct (lookup_lt_is_Some_2 l i ltac:(lia)) as [c Hc]. pose proof (ix_max _ _ _ Ht) as Hmax.
    destruct (ReadCommitmentAt_ok w t l (Z.of_nat i) c Ht) as (w1 & E1 & Hr1 & _); [by rewrite Nat2Z.id|lia|]. unfold CommitmentAt. rewrite E1, bind_Ok.
    destruct (tracking_update _ _ _ _ w1 c Htr) as (wit1 & D1 & -> & Htr1); [unfold zlen in *; rewrite length_take; lia|]. cbn [caught].
    rewrite <- (take_S_r l i c Hc) in Htr1. replace (Z.of_nat i + 1) with (Z.of_nat (S i)) by lia.
    destruct (IH (S i) w1 wit1 D1) as (wit2 & D2 & w2 & -> & Htr2 & Hr2); [by apply Hr1|done|lia|].
    exists wit2, D2, w2. split_and!; [done..|]. by eapply reads_trans.
Qed.

Lemma WitnessAt_ok w t p : indexed w t l → 0 ≤ p < zlen l → p < MEM_INDEX_HARD_CAP → reliable →
  ∃ wit D w', WitnessAt t w p = Ok (Some wit, w') ∧ tracking l p wit D ∧ reads w w'.
Proof.
  intros Ht Hp Hcap Hrel. unfold WitnessAt. rewrite (HasCommitmentIndex_ok _ _ _ Ht), bind_Ok, (indexed_size _ _ _ Ht).
  destruct (Z.leb_spec (zlen l) p); [lia|]. cbn [orb negb].
  assert (indexed w (tree_new w MEMORY_ONLY) (take 0 l)) as Hnew.
  { rewrite take_0. split; [apply built_empty|constructor|done|done|done|]. eexists. split; [done|]. split; constructor. }
  destruct (prefix_loop_ok t Hrel (Z.to_nat (p + 1)) 0 w (tree_new w MEMORY_ONLY)) as (prefix & w1 & E & Hpre & Hr1); [done|done|done|unfold zlen in *; lia|lia|].
  change (Z.of_nat 0) with 0 in E. rewrite E, bind_Ok. cbn [Nat.add] in Hpre.
  assert (zlen (take (Z.to_nat (p + 1)) l) = p + 1) as Hlen by (unfold zlen in *; rewrite length_take; lia).
  destruct (tracking_new _ _ (ix_built _ _ _ Hpre)) as (wit0 & D0 & -> & Htr0); [intros Hnil; rewrite Hnil in Hlen; unfold zlen in Hlen; cbn in Hlen; lia|apply Hpre|]. cbn [caught].
  rewrite Hlen, Z.add_simpl_r in Htr0. destruct (update_loop_ok t p (Z.to_nat (zlen l - (p + 1))) (Z.to_nat (p + 1)) w1 wit0 D0) as (wit & D & w2 & E2 & Htr & Hr2).
  { by apply Hr1. } { done. } { unfold zlen in *. lia. }
  rewrite Z2Nat.id in E2 by lia. rewrite E2. exists wit, D, w2. split_and!; [done..|]. by eapply reads_trans.
Qed.

End replay.

(** Rebuilding witnesses from the index. On a tree whose index agrees with
    its leaves, asking for any positions gives a witness for exactly the
    positions that exist; each stands at its position, has the root of the
    tree and verifies its leaf against it, however the positions are ordered
    or repeated, and replaying the leaves one by one gives a witness with the
    same path. The stores keep answering as before. *)
Theorem shielded_witnesses_at `{LevelDBLaws} `{CacheLock} w t l positions :
  indexed w t l → Forall (λ p, 0 ≤ p) positions → reliable → zlen l ≤ MEM_INDEX_HARD_CAP →
  ∃ out w' root, WitnessesAt t w positions = Ok (out, w') ∧ reads w w' ∧ tree_Root t = Ok root ∧
    (∀ p, is_Some (out !! p) ↔ p ∈ positions ∧ p < zlen l) ∧
    ∀ p wit, out !! p = Some wit →
      Position wit = p ∧ witness_Root wit = Ok root ∧
      (∃ leaf, l !! Z.to_nat p = Some leaf ∧ Verify wit leaf root = Ok true) ∧
      ∃ wit' w'', WitnessAt t w p = Ok (Some wit', w'') ∧ reads w w'' ∧ ComputePath wit' = ComputePath wit.
Proof.
  intros Ht Hpos Hrel Hcap. destruct (WitnessesAt_ok w t l positions Ht Hpos) as (out & w' & E & Hr & Hd & Hs).
  exists out, w', (commitment_root l). split_and!; [exact E|exact Hr|exact (indexed_Root _ _ _ Ht)|exact Hd|].
  intros p wit Ep. pose proof (Hs _ _ Ep) as Hsup. pose proof Hsup as (Hop & _). pose proof (op_pos _ _ _ Hop) as Hp.
  destruct (lookup_lt_is_Some_2 l (Z.to_nat p)) as [c Hc]; [unfold zlen in *; lia|].
  destruct (WitnessAt_ok l w t p Ht Hp ltac:(lia) Hrel) as (wit' & D & w2 & E2 & Htr & Hr2).
  split_and!; [exact (supplied_position l p wit Hsup)|exact (witness_Root_ok l p wit Hsup)| |].
  - exists c. split; [done|]. pose proof (supplied_verifies l p wit Hsup) as Ev. rewrite node_leaf, Hc in Ev. exact Ev.
  - exists wit', w2. split_and!; [exact E2|exact Hr2|].
    rewrite (ComputePath_ok _ _ _ Hsup). exact (ComputePath_ok _ _ _ (tracking_supplied _ _ _ _ Htr)).
Qed.
