(* ===== verification/ShieldedSerial.v ===== *)
(** The commitment tree and its witnesses on disk.

    [Serialize] and [Unserialize] of [ShieldedMerkleTree] and
    [ShieldedMerkleWitness] in [shielded/merkle_tree.h]. A frontier is written
    without its index; reading it attaches the configured store again. *)

From Stdlib Require Import ZArith Lia String.
From stdpp Require Import base list gmap numbers tactics.
From S2P Require Import Prelude Sha256 Header ShieldedTree ShieldedFrontier ShieldedWitness.
Import sha256 block_header shielded_tree.

Open Scope Z_scope.

Module shielded_serial.

Section serialization.
Context `{LevelDB} `{CacheLock}.

Definition SerializeOptHash (opt : option uint256) : list Z :=
  match opt with Some h => [1] ++ h | None => [0] end.

Definition DeserializeOptHash (s : list Z) : result (option uint256 * list Z) :=
  '(f, s) ← ser_readdata 1 s;
  if f =? 0 then Ok (None, s) else '(v, s) ← read 32 s; Ok (Some v, s).

Definition tree_Serialize (t : ShieldedMerkleTree) : list Z :=
  WriteLE64 (Size t) ++ SerializeOptHash (left_ (frontier t)) ++ SerializeOptHash (right_ (frontier t)) ++
  WriteCompactSize (zlen (parents_ (frontier t))) ++ concat (SerializeOptHash <$> parents_ (frontier t)).

Fixpoint read_parents (pc : nat) (s : list Z) : result (list (option uint256) * list Z) :=
  match pc with
  | O => Ok ([], s)
  | S pc => '(p, s) ← DeserializeOptHash s; '(ps, s) ← read_parents pc s; Ok (p :: ps, s)
  end.

(** The index of a tree that was read, by its storage mode. *)
Definition reattach (w : World) (mode : IndexStorageMode) (f : FrontierCheckpoint) : ShieldedMerkleTree :=
  match mode with
  | NO_INDEX => mkTree f None None false NO_INDEX None
  | _ =>
      let store := match mode with MEMORY_ONLY => None | _ => s_commitment_store w end in
      if size_ f =? 0 then mkTree f (match store with Some _ => None | None => Some [] end) store true mode (Some [])
      else mkTree f None store (match store with Some _ => true | None => false end) mode (Some [])
  end.

Definition tree_Unserialize (w : World) (mode : IndexStorageMode) (s : list Z) : result (ShieldedMerkleTree * list Z) :=
  '(size, s) ← ser_readdata 8 s;
  _ ← throw_if (MERKLE_MAX_LEAVES <? size) "ShieldedMerkleTree: size overflow";
  '(l, s) ← DeserializeOptHash s;
  '(r, s) ← DeserializeOptHash s;
  '(pc, s) ← ReadCompactSize true s;
  _ ← throw_if (Z.of_nat MERKLE_DEPTH <? pc) "ShieldedMerkleTree: parent_count > MERKLE_DEPTH";
  '(parents, s) ← read_parents (Z.to_nat pc) s;
  Ok (reattach w mode (mkFrontier size l r parents), s).

Definition witness_Serialize (wit : ShieldedMerkleWitness) : list Z :=
  tree_Serialize (tree_ wit) ++ WriteCompactSize (zlen (filled_ wit)) ++ concat (filled_ wit) ++
  match cursor_ wit with
  | Some c => [1] ++ tree_Serialize c ++ WriteCompactSize (Z.of_nat (cursor_depth_ wit))
  | None => [0]
  end.

Fixpoint read_filled (fc : nat) (s : list Z) : result (list uint256 * list Z) :=
  match fc with
  | O => Ok ([], s)
  | S fc => '(h, s) ← read 32 s; '(hs, s) ← read_filled fc s; Ok (h :: hs, s)
  end.

Definition witness_Unserialize (w : World) (s : list Z) : result (ShieldedMerkleWitness * list Z) :=
  '(tree, s) ← tree_Unserialize w NO_INDEX s;
  '(fc, s) ← ReadCompactSize true s;
  _ ← throw_if (Z.of_nat MERKLE_DEPTH <? fc) "ShieldedMerkleWitness: filled count overflow";
  '(filled, s) ← read_filled (Z.to_nat fc) s;
  '(has_cursor, s) ← ser_readdata 1 s;
  _ ← throw_if (1 <? has_cursor) "ShieldedMerkleWitness: invalid cursor flag";
  if has_cursor =? 0 then Ok (mkWitness tree filled None 0, s)
  else
    '(cursor, s) ← tree_Unserialize w NO_INDEX s;
    '(cd, s) ← ReadCompactSize true s;
    _ ← throw_if (Z.of_nat MERKLE_DEPTH <? cd) "ShieldedMerkleWitness: cursor depth overflow";
    Ok (mkWitness tree filled (Some cursor) (Z.to_nat cd), s).

End serialization.

End shielded_serial.
Import shielded_serial.

#[local] Opaque BranchHash EmptyLeafHash node.

(** ** Round trips *)
Definition opt_ok (o : option uint256) : Prop := match o with Some h => length h = 32%nat | None => True end.

Record frontier_typed (f : FrontierCheckpoint) : Prop := mkFrontierTyped {
  ft_size : 0 ≤ size_ f ≤ 2 ^ 32;
  ft_left : opt_ok (left_ f);
  ft_right : opt_ok (right_ f);
  ft_parents : Forall opt_ok (parents_ f);
  ft_count : (length (parents_ f) ≤ MERKLE_DEPTH)%nat
}.

Section round_trips.
Context `{LevelDB} `{CacheLock}.

Lemma DeserializeOptHash_app o s : opt_ok o → DeserializeOptHash (SerializeOptHash o ++ s) = Ok (o, s).
Proof.
  intros Ho. unfold DeserializeOptHash. destruct o as [h|]; cbn [SerializeOptHash app]; rewrite ser_readdata_8, bind_Ok by lia; [|done].
  cbn [Z.eqb]. by rewrite read_app, bind_Ok.
Qed.

Lemma read_parents_app ps s : Forall opt_ok ps → read_parents (length ps) (concat (SerializeOptHash <$> ps) ++ s) = Ok (ps, s).
Proof.
  induction 1 as [|p ps Hp Hps IH]; [done|]. cbn [length read_parents fmap list_fmap concat]. rewrite <- app_assoc.
  rewrite DeserializeOptHash_app, bind_Ok by done. change (list_fmap _ _ SerializeOptHash ps) with (SerializeOptHash <$> ps). by rewrite IH, bind_Ok.
Qed.

Lemma read_filled_app hs s : hashes_ok hs → read_filled (length hs) (concat hs ++ s) = Ok (hs, s).
Proof.
  induction 1 as [|h hs Hh Hhs IH]; [done|]. cbn [length read_filled concat]. rewrite <- app_assoc, read_app, bind_Ok by done. by rewrite IH, bind_Ok.
Qed.

Lemma small_count_app n s : 0 ≤ n ≤ 32 → ReadCompactSize true (WriteCompactSize n ++ s) = Ok (n, s).
Proof. intros Hn. apply compact_size_roundtrip_aux; [lia|]. intros _. unfold MAX_SIZE. lia. Qed.

Lemma tree_Unserialize_app w mode t s : frontier_typed (frontier t) →
  tree_Unserialize w mode (tree_Serialize t ++ s) = Ok (reattach w mode (frontier t), s).
Proof.
  intros [Hs Hl Hr Hp Hc]. unfold tree_Unserialize, tree_Serialize, WriteLE64, Size. rewrite <- !app_assoc.
  rewrite ser_readdata_app, bind_Ok by (change (8 * Z.of_nat 8) with 64; lia).
  rewrite throw_if_false, bind_Ok by (apply Z.ltb_ge; change MERKLE_MAX_LEAVES with (2 ^ 32); lia).
  rewrite !DeserializeOptHash_app, !bind_Ok by done. rewrite DeserializeOptHash_app, !bind_Ok by done.
  unfold MERKLE_DEPTH in *. rewrite small_count_app, bind_Ok by (unfold zlen; lia).
  rewrite throw_if_false, bind_Ok by (apply Z.ltb_ge; unfold zlen; lia). unfold zlen. rewrite Nat2Z.id, read_parents_app, bind_Ok by done.
  by destruct (frontier t).
Qed.

(** What is written of a witness. *)
Record witness_typed (wit : ShieldedMerkleWitness) : Prop := mkWitnessTyped {
  wt_tree : frontier_typed (frontier (tree_ wit));
  wt_filled : hashes_ok (filled_ wit);
  wt_count : (length (filled_ wit) ≤ MERKLE_DEPTH)%nat;
  wt_cursor : match cursor_ wit with Some c => frontier_typed (frontier c) ∧ (cursor_depth_ wit ≤ MERKLE_DEPTH)%nat | None => True end
}.

(** The witness read back: no index, and no depth without a cursor. *)
Definition reread (wit : ShieldedMerkleWitness) : ShieldedMerkleWitness :=
  mkWitness (drop_index (tree_ wit)) (filled_ wit) (drop_index <$> cursor_ wit) (match cursor_ wit with Some _ => cursor_depth_ wit | None => 0%nat end).

Lemma witness_Unserialize_app w wit s : witness_typed wit → witness_Unserialize w (witness_Serialize wit ++ s) = Ok (reread wit, s).
Proof.
  intros [Ht Hf Hc Hcur]. unfold witness_Unserialize, witness_Serialize. rewrite <- !app_assoc. rewrite tree_Unserialize_app, bind_Ok by done.
  unfold MERKLE_DEPTH in *. rewrite small_count_app, bind_Ok by (unfold zlen; lia). rewrite throw_if_false, bind_Ok by (apply Z.ltb_ge; unfold zlen; lia).
  unfold zlen. rewrite Nat2Z.id, read_filled_app, bind_Ok by done. unfold reread. destruct (cursor_ wit) as [c|].
  - destruct Hcur as [Hcf Hcd]. rewrite <- !app_assoc. cbn [app]. rewrite ser_readdata_8, bind_Ok by lia. rewrite throw_if_false, bind_Ok by done. cbn [Z.eqb].
    rewrite tree_Unserialize_app, bind_Ok by done. rewrite small_count_app, bind_Ok by lia. rewrite throw_if_false, bind_Ok by (apply Z.ltb_ge; lia).
    by rewrite Nat2Z.id.
  - cbn [app]. rewrite ser_readdata_8, bind_Ok by lia. by rewrite throw_if_false, bind_Ok by done.
Qed.

(** ** Witnesses that track a tree are written and read back *)
Lemma sib_length l p d : hashes_ok l → length (sib l p d) = 32%nat.
Proof. intros. unfold sib. by apply node_length. Qed.

Lemma slots_typed l p n : hashes_ok l → ∀ d, Forall opt_ok (slots l p d n).
Proof. intros Hl. induction n as [|n IH]; intros d; cbn [slots]; constructor; [|apply IH]. destruct (bit p d); cbn; [by apply sib_length|done]. Qed.

Lemma uncles_typed l p n : hashes_ok l → ∀ d, hashes_ok (uncles l p d n).
Proof. intros Hl. induction n as [|n IH]; intros d; cbn [uncles]; [constructor|]. apply Forall_app. split; [|apply IH]. destruct (bit p d); repeat constructor. by apply sib_length. Qed.

Lemma uncles_length l p n : ∀ d, (length (uncles l p d n) ≤ n)%nat.
Proof. induction n as [|n IH]; intros d; cbn [uncles]; [done|]. rewrite length_app. specialize (IH (S d)). destruct (bit p d); cbn; lia. Qed.

Lemma on_path_typed l p f : hashes_ok l → on_path l p f → zlen l ≤ 2 ^ 32 → frontier_typed f.
Proof.
  intros Hh [Hp Hs Hl Hr (n & Hn & _ & Hd)] Hmax. split; [lia|rewrite Hl|rewrite Hr|rewrite Hn; by apply slots_typed|rewrite Hn, slots_length; lia].
  - destruct (bit p 0); [by apply sib_length|by apply node_length].
  - destruct (bit p 0); [by apply node_length|done].
Qed.

Lemma tracking_typed l p wit D : hashes_ok l → tracking l p wit D → witness_typed wit.
Proof.
  intros Hh [Ht Hmax HD Hz Hf Hc]. split; [by apply (on_path_typed l p)|rewrite Hf; by apply uncles_typed|rewrite Hf; pose proof (uncles_length l p D 0); lia|].
  destruct (cursor_ wit) as [c|]; [|done]. destruct Hc as (HD0 & Ecd & Hb & Hbuilt & _). split; [|lia].
  destruct Hbuilt as [[Hnil Hf0]|[Hop _]]; [rewrite Hf0; by repeat split; cbn; try lia; constructor|].
  apply (on_path_typed _ _ _ ltac:(by apply Forall_drop) Hop). unfold zlen in *. rewrite length_drop. lia.
Qed.

Lemma tracking_reread l p wit D : tracking l p wit D → tracking l p (reread wit) D.
Proof.
  intros [Ht Hmax HD Hz Hf Hc]. split; cbn [reread tree_ filled_ cursor_ cursor_depth_]; [done..|]. destruct (cursor_ wit) as [c|]; [|done].
  destruct Hc as (? & ? & ? & ? & ? & ?). done.
Qed.

(** A witness that was written with more parents than the path has levels
    is accepted, and its path is written past the end of the array. *)
Theorem parsed_witness_overflows (w : World) :
  ∃ bytes wit, witness_Unserialize w bytes = Ok (wit, []) ∧ ComputePath wit = Err EBounds.
Proof.
  set (h := replicate 32 0). exists (witness_Serialize (mkWitness (mkTree (mkFrontier 2 (Some h) (Some h) (replicate 32 (Some h))) None None false NO_INDEX None) [] None 0)).
  eexists. split; [vm_compute; reflexivity|]. vm_compute. reflexivity.
Qed.

End round_trips.

(** A witness survives a restart. A witness of a leaf that was updated for
    a while, written, read back (whatever follows it on disk) and updated with
    the later leaves still verifies its leaf against the root of the whole
    tree; it is read back unchanged, without any index. *)
Theorem shielded_witness_restarts `{LevelDB} `{CacheLock} mode s s' l leaf m m' tree rest :
  append_all (tree_new s mode) s (l ++ [leaf]) = Ok (tree, s') → hashes_ok (l ++ leaf :: m ++ m') → zlen (l ++ leaf :: m ++ m') ≤ 2 ^ 32 →
  ∃ wit0 wit wit', Witness tree = Ok wit0 ∧ update_all wit0 s' m = Ok (wit, s') ∧
    witness_Unserialize s' (witness_Serialize wit ++ rest) = Ok (reread wit, rest) ∧
    update_all (reread wit) s' m' = Ok (wit', s') ∧ Position wit' = zlen l ∧
    witness_Root wit' = Ok (commitment_root (l ++ leaf :: m ++ m')) ∧
    Verify wit' leaf (commitment_root (l ++ leaf :: m ++ m')) = Ok true.
Proof.
  intros E Hh Hmax. assert (l ++ leaf :: m ++ m' = ((l ++ [leaf]) ++ m) ++ m') as Eapp by (by rewrite <- !app_assoc).
  destruct (grown_built _ _ _ _ _ E) as [Hb Hm]. destruct (tracking_new _ _ Hb) as (wit0 & D0 & E0 & Htr0); [by destruct l|exact Hm|].
  rewrite Eapp in Hh, Hmax. rewrite zlen_app in Hmax. pose proof (zlen_nonneg m'). apply Forall_app in Hh as [Hh _].
  destruct (update_all_ok m _ _ _ _ s' Htr0) as (wit & D & Eu & Htr); [rewrite zlen_app in Hmax; lia|].
  destruct (update_all_ok m' _ _ _ _ s' (tracking_reread _ _ _ _ Htr) Hmax) as (wit' & D' & Eu' & Htr'). rewrite <- Eapp in Htr'.
  rewrite (zlen_app l [leaf]) in Htr'. change (zlen [leaf]) with 1 in Htr'. rewrite Z.add_simpl_r in Htr'. pose proof (tracking_supplied _ _ _ _ Htr') as Hsup.
  exists wit0, wit, wit'. split_and!; [exact E0|exact Eu|exact (witness_Unserialize_app s' wit rest (tracking_typed _ _ _ _ Hh Htr))|exact Eu'| |exact (witness_Root_ok _ _ _ Hsup)|].
  - exact (supplied_position _ _ _ Hsup).
  - pose proof (supplied_verifies _ _ _ Hsup) as Ev. rewrite node_leaf in Ev. unfold zlen in Ev. rewrite Nat2Z.id, list_lookup_middle in Ev by done. exact Ev.
Qed.
