(* ===== verification/TxCheck.v ===== *)
(** Transactions and their checks.

    [consensus/amount.h], [util/overflow.h], [consensus/tx_check.cpp] and
    [consensus/tx_verify.cpp] (amounts, duplicate inputs, lock times and
    relative lock times, inputs against the coins), and the parts of
    [shielded/bundle.h] and [shielded/bundle.cpp] they call: the structure of a
    bundle and the value it moves out of the pool. Counting signature
    operations is not modelled. *)

From Stdlib Require Import ZArith Lia String.
From stdpp Require Import base list numbers gmap tactics lexico sorting.
From S2P Require Import Prelude BlockIndex Coins CoinsRun BlockUndo.
Import block_index coins block_undo.

Open Scope Z_scope.

Abbreviation uint256 := (list Z).

Module tx_check.

(** ** Amounts *)
Definition COIN : Z := 100000000.
Definition MAX_MONEY : Z := 21000000 * COIN.
Definition MoneyRange (v : Z) : bool := (0 <=? v) && (v <=? MAX_MONEY).
Definition MoneyRangeSigned (v : Z) : bool := (- MAX_MONEY <=? v) && (v <=? MAX_MONEY).

Definition INT64_MAX : Z := 2 ^ 63 - 1.
Definition INT64_MIN : Z := - 2 ^ 63.

Definition AdditionOverflow (i j : Z) : bool :=
  ((0 <? i) && (INT64_MAX - i <? j)) || ((i <? 0) && (j <? INT64_MIN - i)).
Definition CheckedAdd (i j : Z) : option Z := if AdditionOverflow i j then None else Some (i + j).

(** ** Shielded bundles *)
Record CShieldedInput := mkShieldedInput { nullifier : uint256; ring_positions : list Z }.
Record CShieldedOutput := mkShieldedOutput {
  note_commitment : uint256;
  aead_ciphertext : list Z;
  range_proof : list Z;
  merkle_anchor : uint256
}.

(** The payloads, with the fields consensus reads of them: the nullifiers of
    the spends, the commitments of the outputs, amounts. *)
Inductive V2Payload :=
| SendPayload (spends outputs : list uint256) (value_balance : Z)
| SpendPathRecoveryPayload (spends outputs : list uint256) (fee : Z)
| RecoveryExitPayload (value : Z)
| LifecyclePayload
| IngressBatchPayload (consumed_spends reserve_outputs : list uint256) (fee : Z)
| EgressBatchPayload (outputs : list uint256)
| RebalancePayload (reserve_deltas : list Z) (reserve_outputs : list uint256)
| SettlementAnchorPayload
| GenericPayload.

Record TransactionBundle := mkV2 { payload : V2Payload; proof_payload : list Z }.

Record CShieldedBundle := mkBundle {
  shielded_inputs : list CShieldedInput;
  shielded_outputs : list CShieldedOutput;
  view_grants : list (list Z);
  proof : list Z;
  v2_bundle : option TransactionBundle;
  value_balance : Z
}.

Definition no_bundle : CShieldedBundle := mkBundle [] [] [] [] None 0.

Definition is_empty {A} (l : list A) : bool := match l with [] => true | _ => false end.
Definition HasV2Bundle (b : CShieldedBundle) : bool := match v2_bundle b with Some _ => true | None => false end.

Definition bundle_IsEmpty (b : CShieldedBundle) : bool :=
  negb (HasV2Bundle b) && is_empty (shielded_inputs b) && is_empty (shielded_outputs b) && is_empty (view_grants b)
  && is_empty (proof b) && (value_balance b =? 0).

Definition HasLegacyDirectSpendData (b : CShieldedBundle) : bool :=
  negb (is_empty (shielded_inputs b)) || negb (is_empty (shielded_outputs b)) || negb (is_empty (view_grants b))
  || negb (is_empty (proof b)) || negb (value_balance b =? 0).

Definition GetV2ShieldedInputCount (b : TransactionBundle) : Z :=
  match payload b with
  | SendPayload spends _ _ | SpendPathRecoveryPayload spends _ _ | IngressBatchPayload spends _ _ => zlen spends
  | _ => 0
  end.

Definition GetV2ShieldedOutputCount (b : TransactionBundle) : Z :=
  match payload b with
  | SendPayload _ outs _ | SpendPathRecoveryPayload _ outs _ | IngressBatchPayload _ outs _ => zlen outs
  | EgressBatchPayload outs | RebalancePayload _ outs => zlen outs
  | _ => 0
  end.

Definition GetShieldedInputCount (b : CShieldedBundle) : Z :=
  match v2_bundle b with Some v2 => GetV2ShieldedInputCount v2 | None => zlen (shielded_inputs b) end.
Definition GetShieldedOutputCount (b : CShieldedBundle) : Z :=
  match v2_bundle b with Some v2 => GetV2ShieldedOutputCount v2 | None => zlen (shielded_outputs b) end.
Definition HasShieldedInputs (b : CShieldedBundle) : bool := negb (GetShieldedInputCount b =? 0).
Definition HasShieldedOutputs (b : CShieldedBundle) : bool := negb (GetShieldedOutputCount b =? 0).

Definition MAX_SHIELDED_SPENDS_PER_TX : Z := 16.
Definition MAX_SHIELDED_OUTPUTS_PER_TX : Z := 16.
Definition MAX_VIEW_GRANTS_PER_TX : Z := 8.
Definition MAX_VIEW_GRANT_ENCRYPTED_DATA_SIZE : Z := 512.
Definition MAX_SHIELDED_PROOF_BYTES : Z := 1536 * 1024.
Definition MAX_SHIELDED_TX_WEIGHT : Z := MAX_BLOCK_WEIGHT.
Definition MAX_AEAD_CIPHERTEXT_SIZE : Z := 2048.
Definition AEAD_EXPANSION : Z := 16.
Definition IsSupportedRingSize (n : Z) : bool := (8 <=? n) && (n <=? 32).

(** What a bundle of the second version is checked by and proves, and the
    serialized sizes of a transaction; none of it is modelled here. *)
Class ShieldedFormats (Tx : Type) := {
  v2_IsValid : TransactionBundle → bool;
  ParseV2IngressWitness : TransactionBundle → option Z;
  ParseSettlementWitness : TransactionBundle → option Z;
  GetTransactionWeight : Tx → Z;
  GetSerializeSize : Tx → Z
}.

(** [std::set::insert(...).second] over a list. *)
Fixpoint inserts_fresh (seen : list uint256) (l : list uint256) : bool :=
  match l with
  | [] => true
  | x :: l => if bool_decide (x ∈ seen) then false else inserts_fresh (x :: seen) l
  end.

Fixpoint inputs_structured (seen : list uint256) (ins : list CShieldedInput) : bool :=
  match ins with
  | [] => true
  | i :: ins =>
      if bool_decide (nullifier i = null_hash) then false
      else if negb (IsSupportedRingSize (zlen (ring_positions i))) then false
      else if bool_decide (nullifier i ∈ seen) then false
      else inputs_structured (nullifier i :: seen) ins
  end.

Fixpoint outputs_structured (seen : list uint256) (outs : list CShieldedOutput) : bool :=
  match outs with
  | [] => true
  | o :: outs =>
      if bool_decide (note_commitment o = null_hash) then false
      else if bool_decide (note_commitment o ∈ seen) then false
      else if bool_decide (merkle_anchor o = null_hash) then false
      else if MAX_AEAD_CIPHERTEXT_SIZE <? zlen (aead_ciphertext o) then false
      else if zlen (aead_ciphertext o) <? AEAD_EXPANSION then false
      else if negb (is_empty (range_proof o)) then false
      else outputs_structured (note_commitment o :: seen) outs
  end.

(** ** Transactions *)
Record CTxIn := mkTxIn { prevout : COutPoint; scriptSig : list Z; nSequence : Z }.

Record Transaction := mkTransaction {
  txid : uint256;
  version : Z;
  t_vin : list CTxIn;
  t_vout : list CTxOut;
  nLockTime : Z;
  shielded_bundle : CShieldedBundle
}.

(** What the coin set reads of a transaction. *)
Definition core (tx : Transaction) : CTransaction := mkTx (txid tx) (prevout <$> t_vin tx) (t_vout tx).

Definition HasShieldedBundle (tx : Transaction) : bool := negb (bundle_IsEmpty (shielded_bundle tx)).

(** Byte-wise order of hashes, then the index. *)
Definition outpoint_lt (a b : COutPoint) : Prop := lexico a b.
Definition outpoint_le (a b : COutPoint) : Prop := ¬ outpoint_lt b a.

#[export] Instance outpoint_lt_dec a b : Decision (outpoint_lt a b).
Proof. unfold outpoint_lt. destruct (trichotomyT lexico a b) as [[H|H]|H]; [by left|right..]; subst; intros H'. - by apply (irreflexivity lexico b). - apply (irreflexivity lexico a). by etrans. Defined.

#[export] Instance outpoint_le_dec : RelDecision outpoint_le.
Proof. intros a b. unfold outpoint_le. apply _. Defined.

(** [std::ranges::adjacent_find] of two equal neighbours. *)
Fixpoint adjacent_equal (l : list COutPoint) : bool :=
  match l with
  | a :: (b :: _) as l' => bool_decide (a = b) || adjacent_equal l'
  | _ => false
  end.

(** The scan for the null outpoint stops at the first hash that is not null. *)
Fixpoint null_scan (l : list COutPoint) : bool :=
  match l with
  | [] => false
  | o :: l => if negb (bool_decide (o.1 = null_hash)) then false else if outpoint_IsNull o then true else null_scan l
  end.

Section checks.
Context `{ShieldedFormats Transaction}.

Definition CheckStructure (b : CShieldedBundle) : bool :=
  if bundle_IsEmpty b then false
  else
    match v2_bundle b with
    | Some v2 => negb (HasLegacyDirectSpendData b) && v2_IsValid v2
    | None =>
        if MAX_SHIELDED_SPENDS_PER_TX <? zlen (shielded_inputs b) then false
        else if MAX_SHIELDED_OUTPUTS_PER_TX <? zlen (shielded_outputs b) then false
        else if MAX_VIEW_GRANTS_PER_TX <? zlen (view_grants b) then false
        else if MAX_SHIELDED_PROOF_BYTES <? zlen (proof b) then false
        else if negb (MoneyRangeSigned (value_balance b)) then false
        else if (0 <? value_balance b) && is_empty (shielded_inputs b) then false
        else if (value_balance b <? 0) && is_empty (shielded_outputs b) then false
        else if (value_balance b =? 0) && negb (eqb (is_empty (shielded_inputs b)) (is_empty (shielded_outputs b))) then false
        else if negb (inputs_structured [] (shielded_inputs b)) then false
        else if negb (outputs_structured [] (shielded_outputs b)) then false
        else if negb (forallb (λ g, (zlen g <=? MAX_VIEW_GRANT_ENCRYPTED_DATA_SIZE) && (AEAD_EXPANSION <=? zlen g)) (view_grants b)) then false
        else if is_empty (shielded_inputs b) then is_empty (proof b) else negb (is_empty (proof b))
    end.

Definition CheckedSumAllReserveDeltas (deltas : list Z) : option Z :=
  foldl (λ acc delta,
    net ← acc;
    if negb (MoneyRangeSigned delta) then None
    else next ← CheckedAdd net delta; if negb (MoneyRangeSigned next) then None else Some next) (Some 0) deltas.

(** Positive: the value that leaves the pool. *)
Definition TryGetShieldedStateValueBalance (b : CShieldedBundle) : option Z :=
  match v2_bundle b with
  | None => Some (value_balance b)
  | Some v2 =>
      match payload v2 with
      | SendPayload _ _ balance => Some balance
      | SpendPathRecoveryPayload _ _ fee => Some fee
      | RecoveryExitPayload value => Some value
      | LifecyclePayload => Some 0
      | IngressBatchPayload _ _ fee =>
          total_amount ← ParseV2IngressWitness v2;
          delta ← CheckedAdd total_amount fee;
          if negb (MoneyRange delta) then None else Some delta
      | EgressBatchPayload _ => total_amount ← ParseSettlementWitness v2; Some (- total_amount)
      | RebalancePayload deltas _ => net ← CheckedSumAllReserveDeltas deltas; Some (- net)
      | SettlementAnchorPayload | GenericPayload => Some 0
      end
  end.

(** The value a transaction takes out of the pool for its transparent side. *)
Definition GetShieldedTxValueBalance (b : CShieldedBundle) : Z :=
  match v2_bundle b with
  | None => value_balance b
  | Some v2 =>
      match payload v2 with
      | SendPayload _ _ balance => balance
      | SpendPathRecoveryPayload _ _ fee => fee
      | RecoveryExitPayload value => value
      | IngressBatchPayload _ _ fee => fee
      | _ => 0
      end
  end.

(** ** Checks without context. [None]: the transaction passes. *)
Fixpoint check_outputs (nValueOut : Z) (outs : list CTxOut) : option string :=
  match outs with
  | [] => None
  | o :: outs =>
      if nValue o <? 0 then Some "bad-txns-vout-negative"%string
      else if MAX_MONEY <? nValue o then Some "bad-txns-vout-toolarge"%string
      else
        let nValueOut := nValueOut + nValue o in
        if negb (MoneyRange nValueOut) then Some "bad-txns-txouttotal-toolarge"%string else check_outputs nValueOut outs
  end.

Definition check_inputs (tx : Transaction) : option string :=
  match t_vin tx with
  | [] => None
  | [i] =>
      if IsCoinBase (core tx) then
        if HasShieldedBundle tx then Some "bad-cb-shielded"%string
        else if (zlen (scriptSig i) <? 2) || (100 <? zlen (scriptSig i)) then Some "bad-cb-length"%string
        else None
      else None
  | [i; j] =>
      if bool_decide (prevout i = prevout j) then Some "bad-txns-inputs-duplicate"%string
      else if outpoint_IsNull (prevout i) || outpoint_IsNull (prevout j) then Some "bad-txns-prevout-null"%string
      else None
  | vin =>
      let sorted_prevouts := merge_sort outpoint_le (prevout <$> vin) in
      if adjacent_equal sorted_prevouts then Some "bad-txns-inputs-duplicate"%string
      else if null_scan sorted_prevouts then Some "bad-txns-prevout-null"%string
      else None
  end.

Definition check_bundle (tx : Transaction) : option string :=
  if HasShieldedBundle tx then
    if negb (CheckStructure (shielded_bundle tx)) then Some "bad-shielded-bundle"%string
    else if MAX_SHIELDED_TX_WEIGHT <? GetTransactionWeight tx then Some "bad-shielded-oversize"%string
    else if negb (inserts_fresh [] (nullifier <$> shielded_inputs (shielded_bundle tx))) then Some "bad-shielded-nullifier-duplicate"%string
    else None
  else None.

Definition CheckTransaction (tx : Transaction) : option string :=
  let has_shielded_inputs := HasShieldedBundle tx && HasShieldedInputs (shielded_bundle tx) in
  let has_shielded_outputs := HasShieldedBundle tx && HasShieldedOutputs (shielded_bundle tx) in
  let has_v2 := HasShieldedBundle tx && HasV2Bundle (shielded_bundle tx) in
  if is_empty (t_vin tx) && negb has_shielded_inputs && negb has_v2 then Some "bad-txns-vin-empty"%string
  else if is_empty (t_vout tx) && negb has_shielded_outputs && negb has_v2 then Some "bad-txns-vout-empty"%string
  else
    match check_bundle tx with
    | Some reason => Some reason
    | None =>
        if MAX_BLOCK_WEIGHT <? GetSerializeSize tx * WITNESS_SCALE_FACTOR then Some "bad-txns-oversize"%string
        else
          match check_outputs 0 (t_vout tx) with
          | Some reason => Some reason
          | None => check_inputs tx
          end
    end.

End checks.

(** ** Lock times *)
Definition LOCKTIME_THRESHOLD : Z := 500000000.
Definition SEQUENCE_FINAL : Z := 0xffffffff.
Definition SEQUENCE_LOCKTIME_DISABLE_FLAG : Z := Z.shiftl 1 31.
Definition SEQUENCE_LOCKTIME_TYPE_FLAG : Z := Z.shiftl 1 22.
Definition SEQUENCE_LOCKTIME_MASK : Z := 0xffff.
Definition SEQUENCE_LOCKTIME_GRANULARITY : Z := 9.
Definition LOCKTIME_VERIFY_SEQUENCE : Z := 1.

Definition IsFinalTx (tx : Transaction) (nBlockHeight nBlockTime : Z) : bool :=
  if nLockTime tx =? 0 then true
  else if nLockTime tx <? (if nLockTime tx <? LOCKTIME_THRESHOLD then nBlockHeight else nBlockTime) then true
  else forallb (λ i, nSequence i =? SEQUENCE_FINAL) (t_vin tx).

(** One input: the updated heights and the two bounds. *)
Definition sequence_lock_step (σ : BlockMap) (block : list Z) (i : CTxIn) (nCoinHeight : Z) (acc : list Z * Z * Z) :
    result (list Z * Z * Z) :=
  let '(prevHeights, nMinHeight, nMinTime) := acc in
  if negb (Z.land (nSequence i) SEQUENCE_LOCKTIME_DISABLE_FLAG =? 0) then Ok (prevHeights ++ [0], nMinHeight, nMinTime)
  else if negb (Z.land (nSequence i) SEQUENCE_LOCKTIME_TYPE_FLAG =? 0) then
    a ← GetAncestor σ block (Z.max (nCoinHeight - 1) 0);
    p ← (match a with Some p => Ok p | None => Err EAssert end);
    nCoinTime ← GetMedianTimePast σ p;
    Ok (prevHeights ++ [nCoinHeight], nMinHeight,
        Z.max nMinTime (nCoinTime + u32 (Z.shiftl (Z.land (nSequence i) SEQUENCE_LOCKTIME_MASK) SEQUENCE_LOCKTIME_GRANULARITY) - 1))
  else
    Ok (prevHeights ++ [nCoinHeight], Z.max nMinHeight (s32 (nCoinHeight + Z.land (nSequence i) SEQUENCE_LOCKTIME_MASK - 1)), nMinTime).

(** The heights as they are left, and the last invalid height and time. *)
Definition CalculateSequenceLocks (σ : BlockMap) (tx : Transaction) (flags : Z) (prevHeights : list Z) (block : list Z) :
    result (list Z * Z * Z) :=
  _ ← assert_ (zlen prevHeights =? zlen (t_vin tx));
  if negb ((2 <=? version tx) && negb (Z.land flags LOCKTIME_VERIFY_SEQUENCE =? 0)) then Ok (prevHeights, -1, -1)
  else mfold (λ '(i, h), sequence_lock_step σ block i h) (zip (t_vin tx) prevHeights) ([], -1, -1).

Definition EvaluateSequenceLocks (σ : BlockMap) (block : list Z) (lockPair : Z * Z) : result bool :=
  b ← deref σ block;
  match pprev b with
  | None => Ok true
  | Some q =>
      nBlockTime ← GetMedianTimePast σ q;
      Ok (negb ((nHeight b <=? lockPair.1) || (nBlockTime <=? lockPair.2)))
  end.

Definition SequenceLocks (σ : BlockMap) (tx : Transaction) (flags : Z) (prevHeights : list Z) (block : list Z) : result (list Z * bool) :=
  '(prevHeights, h, t) ← CalculateSequenceLocks σ tx flags prevHeights block;
  ok ← EvaluateSequenceLocks σ block (h, t);
  Ok (prevHeights, ok).

(** ** Inputs against the coins *)
Definition COINBASE_MATURITY : Z := 100.

Fixpoint sum_outputs (nValueOut : Z) (outs : list CTxOut) : result Z :=
  match outs with
  | [] => Ok nValueOut
  | o :: outs =>
      _ ← throw_if (negb (MoneyRange (nValue o)) || negb (MoneyRange (s64 (nValueOut + nValue o)))) "GetValueOut: value out of range";
      sum_outputs (nValueOut + nValue o) outs
  end.

Definition GetValueOut (tx : Transaction) : result Z :=
  v ← sum_outputs 0 (t_vout tx);
  _ ← assert_ (MoneyRange v);
  Ok v.

(** The sum of the inputs, or why they are refused. *)
Fixpoint sum_inputs (nSpendHeight nValueIn : Z) (ins : list CTxIn) (c : CCoinsViewCache) (base : CCoinsView) :
    result ((string + Z) * CCoinsViewCache * CCoinsView) :=
  match ins with
  | [] => Ok (inr nValueIn, c, base)
  | i :: ins =>
      '(coin, c, base) ← AccessCoin c base (prevout i);
      if IsSpent coin then Ok (inl "bad-txns-inputs-missingorspent"%string, c, base)
      else if fCoinBase coin && (s32 (nSpendHeight - coin_nHeight coin) <? COINBASE_MATURITY) then
        Ok (inl "bad-txns-premature-spend-of-coinbase"%string, c, base)
      else if negb (MoneyRange (nValue (out coin))) then Ok (inl "bad-txns-inputvalues-outofrange"%string, c, base)
      else
        match CheckedAdd nValueIn (nValue (out coin)) with
        | Some sum =>
            if negb (MoneyRange sum) then Ok (inl "bad-txns-inputvalues-outofrange"%string, c, base)
            else sum_inputs nSpendHeight sum ins c base
        | None => Ok (inl "bad-txns-inputvalues-outofrange"%string, c, base)
        end
  end.

(** The fee, or why the transaction is refused. *)
Definition CheckTxInputs (tx : Transaction) (c : CCoinsViewCache) (base : CCoinsView) (nSpendHeight : Z) :
    result ((string + Z) * CCoinsViewCache * CCoinsView) :=
  '(sum, c, base) ← sum_inputs nSpendHeight 0 (t_vin tx) c base;
  match sum with
  | inl reason => Ok (inl reason, c, base)
  | inr nValueIn =>
      let balance := if HasShieldedBundle tx then GetShieldedTxValueBalance (shielded_bundle tx) else 0 in
      if negb (MoneyRangeSigned balance) then Ok (inl "bad-shielded-valuebalance-outofrange"%string, c, base)
      else
        match CheckedAdd nValueIn balance with
        | Some adjusted =>
            if negb (MoneyRange adjusted) then Ok (inl "bad-shielded-adjusted-input-outofrange"%string, c, base)
            else
              value_out ← GetValueOut tx;
              if adjusted <? value_out then Ok (inl "bad-txns-in-belowout"%string, c, base)
              else
                let txfee_aux := adjusted - value_out in
                if negb (MoneyRange txfee_aux) then Ok (inl "bad-txns-fee-outofrange"%string, c, base)
                else Ok (inr txfee_aux, c, base)
        | None => Ok (inl "bad-shielded-adjusted-input-outofrange"%string, c, base)
        end
  end.

End tx_check.
