(* ===== verification/TxRules.v ===== *)
(** What the transaction checks decide.

    [CheckTransaction] sorts the spent outpoints and compares neighbours, and
    stops its search for the null outpoint early; here both are shown to decide
    the plain statements on the unsorted inputs. [SequenceLocks] folds one
    bound per kind of lock over the inputs; it decides that each input's own
    relative lock has passed. *)

From Stdlib Require Import ZArith Lia String.
From stdpp Require Import base list numbers gmap tactics lexico sorting.
From S2P Require Import Prelude BlockIndex Coins CoinsRun BlockUndo TxCheck.
Import block_index coins block_undo tx_check.

Open Scope Z_scope.

(** ** The order of outpoints *)
#[local] Instance outpoint_le_trans : Transitive outpoint_le.
Proof.
  intros a b c Hab Hbc Hca. unfold outpoint_le, outpoint_lt in *.
  destruct (trichotomyT lexico a b) as [[H|H]|H]; subst; [| done..].
  apply Hbc. by trans a.
Qed.

#[local] Instance outpoint_le_total : Total outpoint_le.
Proof.
  intros a b. unfold outpoint_le, outpoint_lt. destruct (trichotomyT lexico a b) as [[H|H]|H]; subst.
  - left. intros H'. apply (irreflexivity lexico a). by trans b.
  - left. apply (irreflexivity lexico).
  - right. intros H'. apply (irreflexivity lexico a). by trans b.
Qed.

Lemma outpoint_le_antisym a b : outpoint_le a b → outpoint_le b a → a = b.
Proof. unfold outpoint_le, outpoint_lt. intros Hab Hba. by destruct (trichotomyT lexico a b) as [[H|H]|H]. Qed.

Lemma adjacent_equal_spec l : StronglySorted outpoint_le l → adjacent_equal l = false ↔ NoDup l.
Proof.
  induction 1 as [|a l Hl IH Ha]; [split; [constructor | done]|].
  destruct l as [|b l]; [split; [intros _; apply list.NoDup_singleton | done]|].
  change (adjacent_equal (a :: b :: l)) with (bool_decide (a = b) || adjacent_equal (b :: l)).
  rewrite orb_false_iff, IH, bool_decide_eq_false. rewrite (list.NoDup_cons a (b :: l)).
  split; intros [Hab Hnd]; (split; [|done]).
  - intros Hin. apply Hab. apply elem_of_cons in Hin as [->|Hin]; [done|].
    apply outpoint_le_antisym; [by apply Forall_cons in Ha as [? _]|].
    apply StronglySorted_inv in Hl as [_ Hb]. by apply (proj1 (Forall_forall _ _) Hb).
  - intros ->. apply Hab. left.
Qed.

Definition is_hash (h : list Z) : Prop := length h = 32%nat ∧ Forall is_byte h.

Lemma zeros_least l : Forall is_byte l → ¬ lexico l (replicate (length l) 0).
Proof.
  induction 1 as [|x l Hx Hl IH]; [intros H; exact H|]. intros [H|[_ H]]; [|exact (IH H)].
  unfold lexico, Z_lexico, is_byte in *. simpl in H. lia.
Qed.

Lemma null_least h o : is_hash o.1 → o.1 ≠ null_hash → h.1 = null_hash → ¬ outpoint_le o h.
Proof.
  intros [Hlen Hb] Hne Hh Hle. apply Hle. left. rewrite Hh.
  destruct (trichotomyT lexico null_hash o.1) as [[H|H]|H]; [done | by symmetry in H |].
  exfalso. apply (zeros_least o.1 Hb). by rewrite Hlen.
Qed.

Lemma null_scan_spec l : StronglySorted outpoint_le l → Forall (λ o, is_hash o.1) l →
  null_scan l = false ↔ Forall (λ o, outpoint_IsNull o = false) l.
Proof.
  induction 1 as [|a l Hl IH Ha]; intros Hh; simpl; [done|]. apply Forall_cons in Hh as [Hha Hh].
  destruct (bool_decide (a.1 = null_hash)) eqn:E; simpl.
  - destruct (outpoint_IsNull a) eqn:En; [split; [done|]; intros [? _]%Forall_cons; congruence|].
    rewrite (IH Hh), Forall_cons. tauto.
  - split; [intros _|done]. apply bool_decide_eq_false in E. apply Forall_cons. split.
    { unfold outpoint_IsNull. by rewrite bool_decide_eq_false_2. }
    apply Forall_forall. intros o Ho. unfold outpoint_IsNull.
    destruct (decide (o.1 = null_hash)) as [Eo|Eo]; [|by rewrite bool_decide_eq_false_2].
    destruct (null_least o a Hha E Eo). by apply (proj1 (Forall_forall _ _) Ha).
Qed.

(** ** Checks without context *)
Definition out_total (outs : list CTxOut) : Z := foldr (λ o s, nValue o + s) 0 outs.

Lemma check_outputs_spec n outs : 0 ≤ n ≤ MAX_MONEY →
  check_outputs n outs = None ↔ Forall (λ o, 0 ≤ nValue o) outs ∧ n + out_total outs ≤ MAX_MONEY.
Proof.
  assert (∀ l, Forall (λ o, 0 ≤ nValue o) l → 0 ≤ out_total l) as Hpos.
  { induction 1; simpl; lia. }
  revert n. induction outs as [|o outs IH]; intros n Hn; simpl.
  { split; [|done]. intros _. split; [constructor | lia]. }
  rewrite Forall_cons. unfold MoneyRange.
  destruct (Z.ltb_spec (nValue o) 0); [split; [done | lia]|].
  destruct (Z.ltb_spec MAX_MONEY (nValue o)).
  { split; [done|]. intros [[_ Hf] Hs]. pose proof (Hpos _ Hf). lia. }
  destruct (Z.leb_spec 0 (n + nValue o)); [|lia].
  destruct (Z.leb_spec (n + nValue o) MAX_MONEY); simpl.
  - rewrite IH by lia. split; intros [Hf Hs]; (split; [|lia]); [done | apply Hf].
  - split; [done|]. intros [[_ Hf] Hs]. pose proof (Hpos _ Hf). lia.
Qed.

(** The inputs of a transaction that is not a coinbase are distinct and none of
    them is the null outpoint; a coinbase carries no bundle and a short script. *)
Definition inputs_rule (tx : Transaction) : Prop :=
  if IsCoinBase (core tx) then
    HasShieldedBundle tx = false ∧ Forall (λ i, 2 ≤ zlen (scriptSig i) ≤ 100) (t_vin tx)
  else NoDup (prevout <$> t_vin tx) ∧ Forall (λ i, outpoint_IsNull (prevout i) = false) (t_vin tx).

Lemma check_sorted_spec (ins : list CTxIn) :
  Forall (λ i, is_hash (prevout i).1) ins →
  (adjacent_equal (merge_sort outpoint_le (prevout <$> ins)) = false
   ∧ null_scan (merge_sort outpoint_le (prevout <$> ins)) = false)
  ↔ NoDup (prevout <$> ins) ∧ Forall (λ i, outpoint_IsNull (prevout i) = false) ins.
Proof.
  intros Hh. pose proof (merge_sort_Permutation outpoint_le (prevout <$> ins)) as Hp.
  pose proof (StronglySorted_merge_sort outpoint_le (prevout <$> ins)) as Hs.
  rewrite adjacent_equal_spec, null_scan_spec by (try done; rewrite Hp; by apply Forall_fmap).
  rewrite Hp, Forall_fmap. done.
Qed.

Lemma check_inputs_spec tx : Forall (λ i, is_hash (prevout i).1) (t_vin tx) →
  check_inputs tx = None ↔ inputs_rule tx.
Proof.
  intros Hh. unfold check_inputs, inputs_rule.
  destruct (t_vin tx) as [|i [|j [|k ins]]] eqn:Ev.
  - unfold IsCoinBase, core. rewrite Ev. simpl. split; [|done]. intros _. split; constructor.
  - destruct (IsCoinBase (core tx)) eqn:Ec.
    + destruct (HasShieldedBundle tx); [split; [done | by intros [? _]]|].
      rewrite Forall_singleton.
      destruct (Z.ltb_spec (zlen (scriptSig i)) 2), (Z.ltb_spec 100 (zlen (scriptSig i))); simpl; intuition (done || lia).
    + unfold IsCoinBase, core in Ec. rewrite Ev in Ec. simpl in Ec.
      split; [|done]. intros _. rewrite Forall_singleton. split; [apply list.NoDup_singleton | done].
  - unfold IsCoinBase, core. rewrite Ev. simpl.
    rewrite list.NoDup_cons, list_elem_of_singleton, !Forall_cons.
    destruct (decide (prevout i = prevout j)) as [E|E].
    { rewrite bool_decide_eq_true_2 by done. split; [done | by intros [[? _] _]]. }
    rewrite bool_decide_eq_false_2 by done.
    pose proof (list.NoDup_singleton (prevout j)). pose proof (Forall_nil (λ i, outpoint_IsNull (prevout i) = false)).
    destruct (outpoint_IsNull (prevout i)), (outpoint_IsNull (prevout j)); simpl; naive_solver.
  - unfold IsCoinBase, core. rewrite Ev. rewrite fmap_cons. rewrite fmap_cons. cbv beta iota.
    rewrite <- (check_sorted_spec (i :: j :: k :: ins)) by done. simpl.
    destruct (adjacent_equal _); [split; [done | by intros [? _]]|].
    destruct (null_scan _); [split; [done | by intros [_ ?]] | done].
Qed.

Lemma inserts_fresh_spec seen l : inserts_fresh seen l = true ↔ NoDup l ∧ (∀ x, x ∈ l → x ∉ seen).
Proof.
  revert seen. induction l as [|x l IH]; intros seen; simpl; [by split; [intros _; split; [constructor | set_solver]|]|].
  destruct (decide (x ∈ seen)) as [E|E].
  { rewrite bool_decide_eq_true_2 by done. split; [done | intros [_ H]; destruct (H x); [left | done]]. }
  rewrite bool_decide_eq_false_2 by done. rewrite IH, list.NoDup_cons. set_solver.
Qed.

Lemma inputs_structured_nodup seen ins : inputs_structured seen ins = true →
  inserts_fresh seen (nullifier <$> ins) = true.
Proof.
  revert seen. induction ins as [|i ins IH]; intros seen; simpl; [done|].
  destruct (bool_decide (nullifier i = null_hash)); [done|]. destruct (negb _); [done|].
  destruct (bool_decide (nullifier i ∈ seen)); [done|]. apply IH.
Qed.

Section rules.
Context `{ShieldedFormats Transaction}.

Lemma CheckStructure_nullifiers b : CheckStructure b = true → inserts_fresh [] (nullifier <$> shielded_inputs b) = true.
Proof.
  unfold CheckStructure. destruct (bundle_IsEmpty b); [done|]. destruct (v2_bundle b).
  - unfold HasLegacyDirectSpendData. by destruct (shielded_inputs b).
  - repeat (match goal with |- (if ?c then false else _) = true → _ => destruct c eqn:?; [done|] end).
    intros _. apply inputs_structured_nodup. by apply negb_false_iff.
Qed.

Definition sides_rule (tx : Transaction) : Prop :=
  let b := shielded_bundle tx in
  (t_vin tx ≠ [] ∨ HasShieldedBundle tx = true ∧ (HasShieldedInputs b = true ∨ HasV2Bundle b = true))
  ∧ (t_vout tx ≠ [] ∨ HasShieldedBundle tx = true ∧ (HasShieldedOutputs b = true ∨ HasV2Bundle b = true)).

Definition bundle_rule (tx : Transaction) : Prop :=
  HasShieldedBundle tx = true →
  CheckStructure (shielded_bundle tx) = true ∧ GetTransactionWeight tx ≤ MAX_SHIELDED_TX_WEIGHT
  ∧ NoDup (nullifier <$> shielded_inputs (shielded_bundle tx)).

Lemma check_bundle_spec tx : check_bundle tx = None ↔ bundle_rule tx.
Proof.
  unfold check_bundle, bundle_rule. destruct (HasShieldedBundle tx); [|by split].
  destruct (CheckStructure _) eqn:E; simpl; [|split; [done | by intros [? _]%(λ f, f eq_refl)]].
  destruct (Z.ltb_spec MAX_SHIELDED_TX_WEIGHT (GetTransactionWeight tx)).
  { split; [done|]. intros Hf. destruct (Hf eq_refl) as (_ & ? & _). lia. }
  rewrite (CheckStructure_nullifiers _ E). simpl. split; [|done]. intros _ _. split_and!; [done | lia|].
  by destruct (proj1 (inserts_fresh_spec _ _) (CheckStructure_nullifiers _ E)).
Qed.

Lemma sides_rule_spec tx :
  is_empty (t_vin tx) && negb (HasShieldedBundle tx && HasShieldedInputs (shielded_bundle tx))
    && negb (HasShieldedBundle tx && HasV2Bundle (shielded_bundle tx)) = false
  ∧ is_empty (t_vout tx) && negb (HasShieldedBundle tx && HasShieldedOutputs (shielded_bundle tx))
    && negb (HasShieldedBundle tx && HasV2Bundle (shielded_bundle tx)) = false
  ↔ sides_rule tx.
Proof.
  unfold sides_rule.
  destruct (HasShieldedBundle tx), (HasShieldedInputs _), (HasShieldedOutputs _), (HasV2Bundle _), (t_vin tx), (t_vout tx);
    simpl; intuition congruence.
Qed.

Lemma CheckTransaction_spec tx :
  Forall (λ i, is_hash (prevout i).1) (t_vin tx) →
  CheckTransaction tx = None ↔
  sides_rule tx ∧ bundle_rule tx
  ∧ GetSerializeSize tx * WITNESS_SCALE_FACTOR ≤ MAX_BLOCK_WEIGHT
  ∧ (Forall (λ o, 0 ≤ nValue o) (t_vout tx) ∧ out_total (t_vout tx) ≤ MAX_MONEY)
  ∧ inputs_rule tx.
Proof.
  intros Hh. rewrite <- sides_rule_spec, <- check_bundle_spec, <- check_inputs_spec by done.
  replace (out_total (t_vout tx)) with (0 + out_total (t_vout tx)) by lia.
  rewrite <- check_outputs_spec by (unfold MAX_MONEY, COIN; lia). unfold CheckTransaction.
  destruct (is_empty (t_vin tx) && _ && _); [by split; [|intros [[? _] _]]|].
  destruct (is_empty (t_vout tx) && _ && _); [by split; [|intros [[_ ?] _]]|].
  destruct (check_bundle tx); [by split; [|intros (_ & ? & _)]|].
  destruct (Z.ltb_spec MAX_BLOCK_WEIGHT (GetSerializeSize tx * WITNESS_SCALE_FACTOR)); [split; [done | lia]|].
  destruct (check_outputs 0 (t_vout tx)); [by split; [|intros (_ & _ & _ & ? & _)]|].
  split; [intros ?; split_and!; (done || lia) | by intros (_ & _ & _ & _ & ?)].
Qed.

(** C28: whatever a transaction holds, provided its outpoints carry 32-byte
    hashes, the context-free check accepts it exactly when: it has something on
    both sides; its bundle, if any, is well structured, within the weight limit
    and free of repeated nullifiers; it is within the size limit; no output is
    negative and the outputs together are within the money range; and its
    inputs are distinct and none of them is the null outpoint, or it is a
    coinbase without a bundle and with a script of 2 to 100 bytes. Sorting the
    inputs, comparing neighbours and stopping at the first hash that is not
    null lose nothing. *)
Theorem check_transaction_decides tx :
  Forall (λ i, is_hash (prevout i).1) (t_vin tx) →
  CheckTransaction tx = None ↔
  sides_rule tx ∧ bundle_rule tx
  ∧ GetSerializeSize tx * WITNESS_SCALE_FACTOR ≤ MAX_BLOCK_WEIGHT
  ∧ (Forall (λ o, 0 ≤ nValue o) (t_vout tx) ∧ out_total (t_vout tx) ≤ MAX_MONEY)
  ∧ inputs_rule tx.
Proof. apply CheckTransaction_spec. Qed.

End rules.

(** ** Relative lock times *)
Section locks.
Context (σ : BlockMap) (Hσ : linked σ) (p : list Z) (b : CBlockIndex) (Hp : σ !! p = Some b) (mp : Z).

(** BIP 68: the lock of an input that spends a coin of height [h]. *)
Definition lock_passed (i : CTxIn) (h : Z) : Prop :=
  Z.testbit (nSequence i) 31 = true ∨
  if Z.testbit (nSequence i) 22 then
    ∃ a m, ancestor σ p (Z.max (h - 1) 0) = Some a ∧ GetMedianTimePast σ a = Ok m ∧ m + 512 * (nSequence i mod 2 ^ 16) ≤ mp
  else h + nSequence i mod 2 ^ 16 ≤ nHeight b.

Lemma land_flag x n : 0 ≤ n → negb (Z.land x (Z.shiftl 1 n) =? 0) = Z.testbit x n.
Proof.
  intros Hn. destruct (Z.testbit x n) eqn:E; destruct (Z.eqb_spec (Z.land x (Z.shiftl 1 n)) 0) as [H0|H0]; try done.
  - apply (f_equal (λ y, Z.testbit y n)) in H0. rewrite Z.land_spec, Z.shiftl_spec, E, Z.sub_diag, Z.bits_0 in H0 by lia. done.
  - destruct H0. apply Z.bits_inj'. intros k Hk. rewrite Z.land_spec, Z.shiftl_spec, Z.bits_0 by lia.
    destruct (Z.eq_dec k n) as [->|Hne]; [by rewrite E|].
    replace (Z.testbit 1 (k - n)) with false; [by rewrite andb_false_r|].
    symmetry. destruct (Z.lt_ge_cases (k - n) 0); [by apply Z.testbit_neg_r | apply Z.bits_above_log2; simpl; lia].
Qed.

Lemma locktime_mask x : Z.land x SEQUENCE_LOCKTIME_MASK = x mod 2 ^ 16.
Proof. exact (Z.land_ones x 16 ltac:(lia)). Qed.

Lemma sequence_lock_step_ok i h hs mh mt : 0 ≤ h ≤ nHeight b → nHeight b + 2 ^ 16 < 2 ^ 31 →
  ∃ hs' mh' mt', sequence_lock_step σ p i h (hs, mh, mt) = Ok (hs', mh', mt')
  ∧ (mh' < nHeight b ∧ mt' < mp ↔ (mh < nHeight b ∧ mt < mp) ∧ lock_passed i h).
Proof.
  intros Hh Hb. unfold sequence_lock_step, lock_passed.
  unfold SEQUENCE_LOCKTIME_DISABLE_FLAG, SEQUENCE_LOCKTIME_TYPE_FLAG.
  rewrite (land_flag _ 31), (land_flag _ 22), locktime_mask by lia.
  destruct (Z.testbit (nSequence i) 31); [do 3 eexists; split; [done | tauto]|].
  pose proof (Z.mod_pos_bound (nSequence i) (2 ^ 16) ltac:(lia)) as Hm.
  destruct (Z.testbit (nSequence i) 22).
  - destruct (ancestor_some σ Hσ p b (Z.max (h - 1) 0) Hp ltac:(lia)) as (a & c & Ha & Hc & _).
    rewrite (GetAncestor_ok σ Hσ p b) by done. rewrite Ha. simpl.
    destruct (GetMedianTimePast_total σ Hσ a c Hc) as [m Hmt]. rewrite Hmt. simpl.
    do 3 eexists. split; [done|]. rewrite u32_small by (rewrite Z.shiftl_mul_pow2 by (unfold SEQUENCE_LOCKTIME_GRANULARITY; lia); unfold SEQUENCE_LOCKTIME_GRANULARITY; lia).
    rewrite Z.shiftl_mul_pow2 by (unfold SEQUENCE_LOCKTIME_GRANULARITY; lia). unfold SEQUENCE_LOCKTIME_GRANULARITY.
    split.
    + intros [? ?]. split; [lia|]. right. exists a, m. split_and!; [done | done | lia].
    + intros [[? ?] [?|(a' & m' & Ha' & Hm' & ?)]]; [done|]. simplify_eq. rewrite Hmt in Hm'. injection Hm' as <-. lia.
  - do 3 eexists. split; [done|]. unfold s32. rewrite to_signed_small by lia. split; [intros [? ?]; split; [lia | right; lia] | intros [[? ?] [?|?]]; [done | lia]].
Qed.

#[local] Arguments sequence_lock_step : simpl never.

Lemma sequence_locks_fold ins heights hs mh mt :
  length heights = length ins → Forall (λ h, 0 ≤ h ≤ nHeight b) heights → nHeight b + 2 ^ 16 < 2 ^ 31 →
  ∃ hs' mh' mt', mfold (λ '(i, h), sequence_lock_step σ p i h) (zip ins heights) (hs, mh, mt) = Ok (hs', mh', mt')
  ∧ (mh' < nHeight b ∧ mt' < mp ↔ (mh < nHeight b ∧ mt < mp) ∧ Forall2 lock_passed ins heights).
Proof.
  intros Hlen Hh Hb. revert heights Hlen Hh hs mh mt.
  induction ins as [|i ins IH]; intros [|h heights] Hlen Hh hs mh mt; try done; simpl.
  { do 3 eexists. split; [done|]. split; [intros ?; split; [done | constructor] | by intros [? _]]. }
  apply Forall_cons in Hh as [Hh0 Hh].
  destruct (sequence_lock_step_ok i h hs mh mt Hh0 Hb) as (hs' & mh' & mt' & -> & E). simpl.
  destruct (IH heights ltac:(simpl in Hlen; lia) Hh hs' mh' mt') as (hs2 & mh2 & mt2 & -> & E2).
  do 3 eexists. split; [done|]. rewrite E2, E, Forall2_cons. tauto.
Qed.

End locks.

(** C29: for a block with a predecessor whose median time past is [mp], and
    coins no higher than the block, the relative lock times of a transaction
    are computed without a fault, and they hold exactly when the rule does not
    apply (version below 2, or the flag off) or every input's own lock has
    passed: its disable bit is set, or the median time past of the block before
    the coin is at least 512 seconds times the low 16 bits behind [mp], or the
    coin is at least that many blocks old. *)
Theorem sequence_locks_decide σ tx flags heights p b q mp :
  linked σ → σ !! p = Some b → pprev b = Some q → GetMedianTimePast σ q = Ok mp → 0 ≤ mp →
  length heights = length (t_vin tx) → Forall (λ h, 0 ≤ h ≤ nHeight b) heights → nHeight b + 2 ^ 16 < 2 ^ 31 →
  ∃ heights' ok, SequenceLocks σ tx flags heights p = Ok (heights', ok)
  ∧ (ok = true ↔ (version tx < 2 ∨ Z.land flags LOCKTIME_VERIFY_SEQUENCE = 0) ∨ Forall2 (lock_passed σ p b mp) (t_vin tx) heights).
Proof.
  intros Hσ Hp Hq Hmp Hpos Hlen Hh Hb. pose proof (prev_height σ Hσ p b q Hp Hq) as Hb0.
  unfold SequenceLocks, CalculateSequenceLocks, EvaluateSequenceLocks.
  rewrite (deref_Ok σ p b Hp). unfold zlen. rewrite Hlen, Z.eqb_refl. simpl.
  assert (∀ mh mt, negb ((nHeight b <=? mh) || (mp <=? mt)) = true ↔ mh < nHeight b ∧ mt < mp) as Hev.
  { intros mh mt. destruct (Z.leb_spec (nHeight b) mh), (Z.leb_spec mp mt); simpl; split; try done; lia. }
  destruct (Z.leb_spec 2 (version tx)) as [Hv|Hv], (Z.eqb_spec (Z.land flags LOCKTIME_VERIFY_SEQUENCE) 0) as [Ef|Ef]; simpl.
  2: { destruct (sequence_locks_fold σ Hσ p b Hp mp (t_vin tx) heights [] (-1) (-1) Hlen Hh Hb) as (hs & mh & mt & -> & E).
    simpl. rewrite Hq, Hmp. simpl. do 2 eexists. split; [done|]. rewrite Hev, E.
    split; [by intros [_ ?]; right | intros [[?|?]|?]; [lia | done | split; [lia | done]]]. }
  all: rewrite Hq, Hmp; simpl; do 2 eexists; split; [reflexivity|]; rewrite Hev; split; [intros _; left; auto | lia].
Qed.
