(* ===== verification/Supply.v ===== *)
(** The issue of coins and the value in the shielded pool.

    [GetBlockSubsidy] and [GetBlockSubsidyForBlock] of [validation.cpp], the
    pool balance of [shielded/turnstile.cpp], the limit on the rate at which
    value leaves the pool of [shielded/unshield_velocity.cpp] and the parameters
    of [consensus/params.h] that switch it. The log of the limit, a [std::map]
    from heights, is a finite map; the loop over it runs over the entries in
    the order of their keys. *)

From Stdlib Require Import ZArith Lia.
From stdpp Require Import base list numbers gmap fin_maps tactics sorting.
From S2P Require Import Prelude BlockIndex Coins CoinsRun BlockUndo TxCheck.
Import block_index tx_check.

Open Scope Z_scope.

Module supply.

Record SupplyParams := mkSupply {
  nSubsidyHalvingInterval : Z;
  nInitialSubsidy : Z;
  nEmptyBlockSubsidyPenaltyHeight : Z;
  nEmptyBlockSubsidyStrictPenaltyHeight : Z;
  nEmptyBlockSubsidyPenaltyEndHeight : Z;
  nEmptyBlockSubsidyMaxHalvings : Z;
  nShieldedUnshieldVelocityActivationHeight : Z;
  nShieldedUnshieldVelocityWindowBlocks : Z;
  nShieldedUnshieldVelocityCapBps : Z;
  nShieldedUnshieldVelocityEndHeight : Z;
  nShieldedUnshieldVelocityMinCapHeight : Z;
  nShieldedUnshieldVelocityMinCap : Z
}.

Definition INT32_MAX : Z := 2 ^ 31 - 1.
Definition INT32_MIN : Z := - 2 ^ 31.

Definition IsShieldedUnshieldVelocityCapActive (P : SupplyParams) (height : Z) : bool :=
  negb (nShieldedUnshieldVelocityActivationHeight P =? INT32_MAX)
  && (nShieldedUnshieldVelocityActivationHeight P <=? height)
  && (height <? nShieldedUnshieldVelocityEndHeight P).

Definition ShieldedUnshieldVelocityMinCapForHeight (P : SupplyParams) (height : Z) : Z :=
  if negb (IsShieldedUnshieldVelocityCapActive P height) then 0
  else if height <? nShieldedUnshieldVelocityMinCapHeight P then 0
  else nShieldedUnshieldVelocityMinCap P.

(** ** Subsidy *)
Definition GetBlockSubsidy (nHeight : Z) (P : SupplyParams) : Z :=
  if nSubsidyHalvingInterval P <=? 0 then 0
  else
    let halvings := Z.quot nHeight (nSubsidyHalvingInterval P) in
    if 64 <=? halvings then 0 else Z.shiftr (nInitialSubsidy P) halvings.

(** The index keeps [nTx], the number of transactions, beside each block. *)
Fixpoint empty_ancestors (fuel : nat) (σ : BlockMap) (nTx : list Z → Z) (P : SupplyParams) (cursor : option (list Z)) (n : Z) : result Z :=
  match cursor with
  | None => Ok n
  | Some p =>
      b ← deref σ p;
      if negb (nTx p =? 1) || negb (u32 (n + 1) <? nEmptyBlockSubsidyMaxHalvings P) then Ok n
      else match fuel with
           | O => Err EFuel
           | S fuel => empty_ancestors fuel σ nTx P (pprev b) (u32 (n + 1))
           end
  end.

Definition GetBlockSubsidyForBlock (σ : BlockMap) (nTx : list Z → Z) (nHeight : Z) (vtx_size : Z) (pindexPrev : option (list Z))
    (P : SupplyParams) : result Z :=
  let base_subsidy := GetBlockSubsidy nHeight P in
  if (nHeight <? nEmptyBlockSubsidyPenaltyHeight P) || (nEmptyBlockSubsidyPenaltyEndHeight P <=? nHeight)
     || negb (vtx_size =? 1) || (base_subsidy <=? 0) || (nEmptyBlockSubsidyMaxHalvings P =? 0) then Ok base_subsidy
  else if nEmptyBlockSubsidyStrictPenaltyHeight P <=? nHeight then
    let follows_empty_block := match pindexPrev with Some p => nTx p =? 1 | None => false end in
    Ok (if follows_empty_block then Z.quot base_subsidy 4 else Z.quot base_subsidy 2)
  else
    consecutive_empty_ancestors ← empty_ancestors (Z.to_nat (nEmptyBlockSubsidyMaxHalvings P)) σ nTx P pindexPrev 0;
    let penalty_halvings := Z.min (u32 (consecutive_empty_ancestors + 1)) (nEmptyBlockSubsidyMaxHalvings P) in
    Ok (Z.shiftr base_subsidy penalty_halvings).

(** ** Turnstile. The new balance, or [None] where the call returns false. *)
Definition ApplyValueBalance (m_balance value_balance : Z) : option Z :=
  if negb (MoneyRangeSigned value_balance) then None
  else
    new_balance ← CheckedAdd m_balance (- value_balance);
    if negb (MoneyRange new_balance) || (new_balance <? 0) then None else Some new_balance.

Definition UndoValueBalance (m_balance value_balance : Z) : option Z :=
  if negb (MoneyRangeSigned value_balance) then None
  else
    new_balance ← CheckedAdd m_balance value_balance;
    if negb (MoneyRange new_balance) || (new_balance <? 0) then None else Some new_balance.

Definition SetBalance (balance : Z) : option Z :=
  if negb (MoneyRange balance) || (balance <? 0) then None else Some balance.

(** ** Velocity *)
Abbreviation ShieldedUnshieldVelocity := (gmap Z Z).

Definition WindowCap (pool_balance cap_bps min_cap : Z) : Z :=
  let floor := Z.max 0 min_cap in
  if (pool_balance <=? 0) || (cap_bps =? 0) then floor
  else
    let whole := s64 (Z.quot pool_balance 10000 * cap_bps) in
    let frac := Z.quot (s64 (Z.rem pool_balance 10000 * cap_bps)) 10000 in
    let cap := s64 (whole + frac) in
    let cap := if (cap <? 0) || (MAX_MONEY <? cap) then MAX_MONEY else cap in
    Z.max cap floor.

Definition RecordBlock (m_egress : ShieldedUnshieldVelocity) (height net_egress : Z) : ShieldedUnshieldVelocity :=
  <[height := if 0 <? net_egress then net_egress else 0]> m_egress.

Definition UndoBlock (m_egress : ShieldedUnshieldVelocity) (height : Z) : ShieldedUnshieldVelocity := delete height m_egress.

Definition key_le (a b : Z * Z) : Prop := a.1 ≤ b.1.

#[export] Instance key_le_dec : RelDecision key_le.
Proof. intros a b. unfold key_le. apply _. Defined.

(** The entries in the order of the map. *)
Definition entries (m_egress : ShieldedUnshieldVelocity) : list (Z * Z) :=
  merge_sort key_le (map_to_list m_egress).

Fixpoint window_loop (lower_exclusive : Z) (l : list (Z * Z)) (total : Z) : Z :=
  match l with
  | [] => total
  | (h, e) :: l =>
      if h <=? lower_exclusive then total
      else
        let total := s64 (total + e) in
        if MAX_MONEY <=? total then MAX_MONEY else window_loop lower_exclusive l total
  end.

Definition WindowTotal (m_egress : ShieldedUnshieldVelocity) (tip_height window_blocks : Z) : Z :=
  let low64 := tip_height - window_blocks in
  let lower_exclusive := if low64 <? INT32_MIN then INT32_MIN else s32 low64 in
  window_loop lower_exclusive (reverse (filter (λ p, p.1 ≤ tip_height) (entries m_egress))) 0.

Definition WithinCap (m_egress : ShieldedUnshieldVelocity) (tip_height pool_balance cap_bps window_blocks min_cap : Z) : bool :=
  WindowTotal m_egress tip_height window_blocks <=? WindowCap pool_balance cap_bps min_cap.

Definition Prune (m_egress : ShieldedUnshieldVelocity) (keep_from_height : Z) : ShieldedUnshieldVelocity :=
  filter (λ p, keep_from_height ≤ p.1) m_egress.

(** What connecting a block does to the log: [None] is a rejected block. *)
Definition velocity_connect (P : SupplyParams) (height pool_start pool_end : Z) (log : ShieldedUnshieldVelocity) :
    option ShieldedUnshieldVelocity :=
  let block_net_egress := if pool_end <? pool_start then pool_start - pool_end else 0 in
  let next_velocity := RecordBlock log height block_net_egress in
  let min_cap := ShieldedUnshieldVelocityMinCapForHeight P height in
  if negb (WithinCap next_velocity height pool_start (nShieldedUnshieldVelocityCapBps P) (nShieldedUnshieldVelocityWindowBlocks P) min_cap)
  then None
  else Some (Prune next_velocity (s32 (height - s32 (2 * s32 (nShieldedUnshieldVelocityWindowBlocks P))))).

End supply.
Import supply.

(** ** Subsidy *)
Definition subsidy_total (P : SupplyParams) (n : nat) : Z := foldr (λ h s, GetBlockSubsidy (Z.of_nat h) P + s) 0 (seq 0 n).

Lemma subsidy_total_S P n : subsidy_total P (S n) = subsidy_total P n + GetBlockSubsidy (Z.of_nat n) P.
Proof.
  unfold subsidy_total. rewrite seq_S, foldr_app. simpl.
  generalize (seq 0 n). intros l. induction l as [|x l IH]; simpl; [lia|]. rewrite IH. lia.
Qed.

Section subsidy.
Context (P : SupplyParams) (Hi : 0 < nSubsidyHalvingInterval P) (Hs : 0 ≤ nInitialSubsidy P).

Abbreviation I := (nSubsidyHalvingInterval P).
Abbreviation S0 := (nInitialSubsidy P).

Lemma subsidy_height h : 0 ≤ h → 0 ≤ GetBlockSubsidy h P ≤ S0 / 2 ^ (h / I).
Proof.
  intros Hh. unfold GetBlockSubsidy. destruct (Z.leb_spec I 0); [lia|].
  rewrite Z.quot_div_nonneg by lia. pose proof (Z.div_pos h I ltac:(lia) ltac:(lia)).
  pose proof (Z.div_pos S0 (2 ^ (h / I)) ltac:(lia) ltac:(lia)).
  destruct (Z.leb_spec 64 (h / I)); [lia|]. rewrite Z.shiftr_div_pow2 by lia. lia.
Qed.

(** What is left to issue after [n] blocks: the rest of the current era and all
    later ones, which together issue at most one more era of the same size. *)
Lemma subsidy_total_bound n :
  0 ≤ subsidy_total P n ≤ 2 * I * S0 - (2 * I - Z.of_nat n mod I) * (S0 / 2 ^ (Z.of_nat n / I)).
Proof.
  induction n as [|n IH]; [unfold subsidy_total; simpl; rewrite Z.div_0_l, Z.mod_0_l, Z.div_1_r by lia; lia|].
  rewrite subsidy_total_S. pose proof (subsidy_height (Z.of_nat n) ltac:(lia)) as Hg.
  pose proof (Z.mod_pos_bound (Z.of_nat n) I ltac:(lia)) as Hm. pose proof (Z.div_pos (Z.of_nat n) I ltac:(lia) ltac:(lia)) as Hd.
  set (q := Z.of_nat n / I) in *. set (r := Z.of_nat n mod I) in *.
  assert (Z.of_nat n = I * q + r) as Hn by (apply Z.div_mod; lia).
  destruct (Z.eq_dec (r + 1) I) as [Er|Er].
  - replace (Z.of_nat (S n)) with ((q + 1) * I) by lia. rewrite Z.div_mul, Z.mod_mul, Z.pow_add_r by lia.
    rewrite <- Z.div_div by lia. set (v := S0 / 2 ^ q) in *.
    pose proof (Z.div_pos S0 (2 ^ q) ltac:(lia) ltac:(lia)). fold v in H.
    pose proof (Z.mul_div_le v 2 ltac:(lia)). change (2 ^ 1) with 2. nia.
  - replace (Z.of_nat (S n)) with (r + 1 + q * I) by lia. rewrite Z.div_add, Z.mod_add, (Z.div_small (r + 1)), Z.mod_small by lia.
    rewrite Z.add_0_l. set (v := S0 / 2 ^ q) in *. nia.
Qed.

Lemma subsidy_total_le n : subsidy_total P n ≤ 2 * I * S0.
Proof.
  pose proof (subsidy_total_bound n) as Hb. pose proof (Z.mod_pos_bound (Z.of_nat n) I ltac:(lia)).
  pose proof (Z.div_pos (Z.of_nat n) I ltac:(lia) ltac:(lia)).
  pose proof (Z.div_pos S0 (2 ^ (Z.of_nat n / I)) ltac:(lia) ltac:(lia)). nia.
Qed.

(** The empty-block penalty only lowers a subsidy. *)
Lemma empty_ancestors_total σ nTx p n fuel :
  linked σ → present σ p → 0 ≤ n < nEmptyBlockSubsidyMaxHalvings P → nEmptyBlockSubsidyMaxHalvings P < 2 ^ 32 →
  nEmptyBlockSubsidyMaxHalvings P - n ≤ Z.of_nat fuel →
  ∃ m, empty_ancestors fuel σ nTx P p n = Ok m ∧ n ≤ m < nEmptyBlockSubsidyMaxHalvings P.
Proof.
  intros Hσ. revert p n. induction fuel as [|fuel IH]; intros [p|] n Hp Hn HM Hf; simpl; try lia; try (exists n; split; [done | lia]).
  destruct Hp as [b Hb]. rewrite (deref_Ok σ p b Hb). simpl. rewrite (u32_small (n + 1)) by lia.
  destruct (nTx p =? 1); simpl; [|exists n; split; [done | lia]].
  destruct (Z.ltb_spec (n + 1) (nEmptyBlockSubsidyMaxHalvings P)); simpl; [|exists n; split; [done | lia]].
  destruct (IH (pprev b) (n + 1)) as (m & -> & Hm); try lia; [by apply (present_prev σ Hσ p b) | exists m; split; [done | lia]].
Qed.

Lemma subsidy_for_block σ nTx h size prev :
  linked σ → present σ prev → 0 ≤ h → 0 ≤ nEmptyBlockSubsidyMaxHalvings P < 2 ^ 32 →
  ∃ v, GetBlockSubsidyForBlock σ nTx h size prev P = Ok v ∧ 0 ≤ v ≤ GetBlockSubsidy h P.
Proof.
  intros Hσ Hp Hh HM. unfold GetBlockSubsidyForBlock. pose proof (subsidy_height h Hh) as [Hg _].
  set (base := GetBlockSubsidy h P) in *.
  destruct (_ || (nEmptyBlockSubsidyMaxHalvings P =? 0)) eqn:E; [exists base; split; [done | lia]|].
  apply orb_false_iff in E as [_ E]. apply Z.eqb_neq in E.
  destruct (_ <=? h).
  { eexists. split; [done|]. rewrite !Z.quot_div_nonneg by lia.
    pose proof (Z.div_le_upper_bound base 4 base ltac:(lia) ltac:(lia)). pose proof (Z.div_pos base 4 Hg ltac:(lia)).
    pose proof (Z.div_le_upper_bound base 2 base ltac:(lia) ltac:(lia)). pose proof (Z.div_pos base 2 Hg ltac:(lia)).
    by destruct prev as [p|]; [destruct (nTx p =? 1)|]. }
  destruct (empty_ancestors_total σ nTx prev 0 (Z.to_nat (nEmptyBlockSubsidyMaxHalvings P)) Hσ Hp) as (m & -> & Hm); [lia..|].
  simpl. eexists. split; [done|]. rewrite u32_small by lia. rewrite Z.shiftr_div_pow2 by lia.
  assert (1 ≤ 2 ^ Z.min (m + 1) (nEmptyBlockSubsidyMaxHalvings P)) by (apply Z.lt_pred_le; simpl; lia).
  split; [apply Z.div_pos; lia | apply Z.div_le_upper_bound; nia].
Qed.
End subsidy.

(** ** Turnstile *)
Definition in_range (v : Z) : Prop := 0 ≤ v ≤ MAX_MONEY.

Lemma MoneyRange_spec v : MoneyRange v = true ↔ in_range v.
Proof. unfold MoneyRange, in_range. rewrite andb_true_iff, !Z.leb_le. done. Qed.

Lemma MoneyRangeSigned_spec v : MoneyRangeSigned v = true ↔ - MAX_MONEY ≤ v ≤ MAX_MONEY.
Proof. unfold MoneyRangeSigned. rewrite andb_true_iff, !Z.leb_le. done. Qed.

Lemma CheckedAdd_small a b : - 2 ^ 62 ≤ a < 2 ^ 62 → - 2 ^ 62 ≤ b < 2 ^ 62 → CheckedAdd a b = Some (a + b).
Proof.
  intros Ha Hb. unfold CheckedAdd, AdditionOverflow, INT64_MAX, INT64_MIN.
  destruct (Z.ltb_spec 0 a), (Z.ltb_spec (2 ^ 63 - 1 - a) b), (Z.ltb_spec a 0), (Z.ltb_spec b (- 2 ^ 63 - a)); simpl; (done || lia).
Qed.

Lemma ApplyValueBalance_spec p v p' : in_range p →
  ApplyValueBalance p v = Some p' ↔ p' = p - v ∧ - MAX_MONEY ≤ v ≤ MAX_MONEY ∧ in_range p'.
Proof.
  unfold ApplyValueBalance, in_range, MAX_MONEY, COIN. intros Hp.
  destruct (MoneyRangeSigned v) eqn:Es; simpl.
  2: { split; [done|]. intros (_ & Hv & _). apply MoneyRangeSigned_spec in Hv. congruence. }
  apply MoneyRangeSigned_spec in Es. unfold MAX_MONEY, COIN in Es. rewrite CheckedAdd_small by lia. simpl.
  destruct (MoneyRange (p + - v)) eqn:Em; simpl.
  - apply MoneyRange_spec in Em. unfold in_range, MAX_MONEY, COIN in Em.
    destruct (Z.ltb_spec (p + - v) 0); [lia|]. split; [intros [= <-]; lia | intros (-> & _); f_equal; lia].
  - split; [done|]. intros (-> & _ & Hr). assert (MoneyRange (p + - v) = true); [|congruence].
    apply MoneyRange_spec. unfold in_range, MAX_MONEY, COIN. lia.
Qed.

(** Undoing is applying the opposite. *)
Lemma UndoValueBalance_apply p v : UndoValueBalance p v = ApplyValueBalance p (- v).
Proof.
  unfold UndoValueBalance, ApplyValueBalance. rewrite Z.opp_involutive.
  replace (MoneyRangeSigned (- v)) with (MoneyRangeSigned v); [done|].
  apply eq_true_iff_eq. rewrite !MoneyRangeSigned_spec. lia.
Qed.

Lemma undo_apply p v p' : in_range p → ApplyValueBalance p v = Some p' → UndoValueBalance p' v = Some p.
Proof.
  intros Hp (-> & Hv & Hr)%ApplyValueBalance_spec; [|done]. rewrite UndoValueBalance_apply. apply ApplyValueBalance_spec; [done|].
  split_and!; (done || lia).
Qed.

(** ** Velocity *)
Definition egress_between (m : ShieldedUnshieldVelocity) (lo hi : Z) : Z :=
  foldr (λ p s, p.2 + s) 0 (filter (λ p, lo < p.1 ≤ hi) (map_to_list m)).

Definition log_ok (m : ShieldedUnshieldVelocity) : Prop := map_Forall (λ h e, 0 ≤ h ≤ INT32_MAX ∧ in_range e) m.

Lemma sum_perm (l k : list (Z * Z)) : l ≡ₚ k → foldr (λ p s, p.2 + s) 0 l = foldr (λ p s, p.2 + s) 0 k.
Proof. induction 1; simpl; lia. Qed.

Lemma filter_ext_in {A} (P Q : A → Prop) `{!∀ x, Decision (P x), !∀ x, Decision (Q x)} (l : list A) :
  Forall (λ x, P x ↔ Q x) l → filter P l = filter Q l.
Proof. induction 1 as [|x l Hx _ IH]; [done|]. rewrite !filter_cons, IH. by destruct (decide (P x)), (decide (Q x)); try tauto. Qed.

Lemma StronglySorted_snoc {A} (R : A → A → Prop) l x : StronglySorted R l → Forall (λ y, R y x) l → StronglySorted R (l ++ [x]).
Proof.
  induction 1 as [|a l Hl IH Ha]; intros Hx; simpl; [by repeat constructor|]. apply Forall_cons in Hx as [Hax Hx].
  constructor; [by apply IH|]. apply Forall_app. split; [done | by apply Forall_singleton].
Qed.

Lemma StronglySorted_reverse {A} (R : A → A → Prop) l : StronglySorted R l → StronglySorted (λ a b, R b a) (reverse l).
Proof.
  induction 1 as [|a l Hl IH Ha]; [constructor|]. rewrite reverse_cons. apply StronglySorted_snoc; [done | by apply Forall_reverse].
Qed.

Lemma Forall_filtered {A} (P Q : A → Prop) `{!∀ x, Decision (P x)} l : Forall Q l → Forall Q (filter P l).
Proof. rewrite !list.Forall_forall. intros Hl x [_ Hx]%list_elem_of_filter. auto. Qed.

Lemma StronglySorted_filter {A} (R : A → A → Prop) (P : A → Prop) `{!∀ x, Decision (P x)} l :
  StronglySorted R l → StronglySorted R (filter P l).
Proof.
  induction 1 as [|a l Hl IH Ha]; [constructor|]. rewrite filter_cons. case_decide; [constructor; [done | by apply Forall_filtered] | done].
Qed.

#[local] Instance key_le_trans : Transitive key_le.
Proof. intros a b c. unfold key_le. lia. Qed.
#[local] Instance key_le_total : Total key_le.
Proof. intros a b. unfold key_le. lia. Qed.

(** The loop stops at the first key below the window: on entries in descending
    order it has then seen them all. *)
Lemma window_loop_spec lo l t :
  StronglySorted (λ a b, key_le b a) l → Forall (λ p, in_range p.2) l → 0 ≤ t < MAX_MONEY →
  window_loop lo l t = Z.min MAX_MONEY (t + foldr (λ p s, p.2 + s) 0 (filter (λ p, lo < p.1) l)).
Proof.
  intros Hs. revert t. induction Hs as [|[h e] l Hl IH Hh]; intros t Hr Ht; simpl; [lia|].
  apply Forall_cons in Hr as [He Hr]. simpl in He. unfold in_range in He.
  assert (∀ k, Forall (λ p : Z * Z, in_range p.2) k → 0 ≤ foldr (λ p s, p.2 + s) 0 k) as Hpos.
  { induction 1 as [|x k Hx _ IHk]; simpl; [lia|]. unfold in_range in Hx. lia. }
  destruct (Z.leb_spec h lo).
  - rewrite filter_cons_False by (simpl; lia).
    replace (filter (λ p, lo < p.1) l) with (@nil (Z * Z)); [simpl; lia|].
    symmetry. clear -Hh H. induction Hh as [|x l Hx Hh IH]; [done|].
    rewrite filter_cons_False; [done|]. unfold key_le in Hx. simpl in Hx. lia.
  - rewrite filter_cons_True by (simpl; lia). simpl. unfold MAX_MONEY, COIN in *. unfold s64. rewrite to_signed_small by lia.
    pose proof (Hpos (filter (λ p, lo < p.1) l) ltac:(by apply Forall_filtered)).
    destruct (Z.leb_spec (21000000 * 100000000) (t + e)); [lia|]. rewrite IH by (done || lia). lia.
Qed.

Lemma WindowTotal_spec m tip w : log_ok m → 0 ≤ tip ≤ INT32_MAX → 0 ≤ w < 2 ^ 32 →
  WindowTotal m tip w = Z.min MAX_MONEY (egress_between m (tip - w) tip).
Proof.
  intros Hm Ht Hw. unfold WindowTotal, egress_between, entries.
  pose proof (merge_sort_Permutation key_le (map_to_list m)) as Hp.
  pose proof (StronglySorted_merge_sort key_le (map_to_list m)) as Hs.
  assert (Forall (λ p, 0 ≤ p.1 ∧ in_range p.2) (merge_sort key_le (map_to_list m))) as Hf.
  { rewrite Hp. apply map_Forall_to_list in Hm. eapply Forall_impl; [exact Hm|]. intros [h e]; simpl. tauto. }
  set (l := merge_sort key_le (map_to_list m)) in *. clearbody l.
  assert (∀ low, (if tip - w <? INT32_MIN then INT32_MIN else s32 (tip - w)) = low →
    ∀ h, 0 ≤ h → low < h ↔ tip - w < h) as Hlow.
  { intros low <- h Hh. unfold INT32_MIN, INT32_MAX in *. destruct (Z.ltb_spec (tip - w) (- 2 ^ 31)); [lia|].
    unfold s32. rewrite to_signed_small by lia. done. }
  destruct (_ <? INT32_MIN) eqn:E; specialize (Hlow _ eq_refl).
  all: rewrite window_loop_spec;
    [| by apply StronglySorted_reverse, StronglySorted_filter
     | apply Forall_reverse, Forall_filtered; eapply Forall_impl; [exact Hf | tauto] | unfold MAX_MONEY, COIN; lia].
  all: rewrite Z.add_0_l; f_equal; apply sum_perm; rewrite reverse_Permutation, list_filter_filter, <- Hp.
  all: rewrite (filter_ext_in _ (λ p, tip - w < p.1 ≤ tip)); [done|].
  all: eapply Forall_impl; [exact Hf|]; intros p [H0 _]; rewrite Hlow by done; tauto.
Qed.

(** A sum over entries as a sum over heights. *)
Definition egress_at (m : ShieldedUnshieldVelocity) (h : Z) : Z := default 0 (m !! h).

Lemma zsum_update n f k v : 0 ≤ n → zsum n (λ i, if decide (i = k) then v else f i) = zsum n f + (if decide (0 ≤ k < n) then v - f k else 0).
Proof.
  revert n. apply Z_bound_ind; [rewrite !zsum_0, decide_False by lia; lia|].
  intros n Hn IH. rewrite !zsum_succ, IH by lia.
  destruct (decide (0 ≤ k < n)), (decide (n = k)), (decide (0 ≤ k < n + 1)); subst; lia.
Qed.

Lemma egress_heights m lo hi : lo ≤ hi → egress_between m lo hi = zsum (hi - lo) (λ i, egress_at m (lo + 1 + i)).
Proof.
  intros Hle. unfold egress_between, egress_at. induction m as [|h e m Hh IH] using map_ind.
  { rewrite map_to_list_empty. simpl. rewrite (zsum_ext _ _ (λ _, 0)); [by rewrite zsum_zero | intros; by rewrite lookup_empty]. }
  rewrite (sum_perm _ (filter (λ p, lo < p.1 ≤ hi) ((h, e) :: map_to_list m))) by (by rewrite map_to_list_insert).
  rewrite (zsum_ext _ _ (λ i, if decide (i = h - lo - 1) then e else default 0 (m !! (lo + 1 + i)))).
  2: { intros i Hi. case_decide as E; [subst i; replace (lo + 1 + (h - lo - 1)) with h by lia; by rewrite lookup_insert_eq|].
       rewrite lookup_insert_ne by lia. done. }
  rewrite zsum_update by lia. replace (lo + 1 + (h - lo - 1)) with h by lia.
  rewrite Hh, filter_cons, <- IH. case_decide as E1; case_decide as E2; cbn [foldr fst snd from_option] in *; unfold id; lia.
Qed.

Lemma WindowCap_spec pool bps mincap : in_range pool → 0 ≤ bps ≤ 40000000 →
  WindowCap pool bps mincap = Z.max (Z.min MAX_MONEY (pool * bps / 10000)) (Z.max 0 mincap).
Proof.
  unfold in_range, WindowCap, MAX_MONEY, COIN. intros Hp Hb.
  destruct (Z.leb_spec pool 0); simpl; [replace pool with 0 by lia; change (0 * bps / 10000) with 0; lia|].
  destruct (Z.eqb_spec bps 0); [subst; rewrite Z.mul_0_r; change (0 / 10000) with 0; lia|].
  rewrite Z.quot_div_nonneg, Z.rem_mod_nonneg by lia.
  pose proof (Z.div_mod pool 10000 ltac:(lia)) as Hdm. pose proof (Z.mod_pos_bound pool 10000 ltac:(lia)) as Hr.
  set (q := pool / 10000) in *. set (r := pool mod 10000) in *. clearbody q r.
  assert (0 ≤ q ≤ 210000000000) by lia.
  assert (0 ≤ r * bps < 10000 * 40000000) by nia. assert (0 ≤ q * bps ≤ 210000000000 * 40000000) by nia.
  unfold s64. rewrite (to_signed_small 64 (r * bps)), (to_signed_small 64 (q * bps)) by lia.
  rewrite Z.quot_div_nonneg by lia. pose proof (Z.div_pos (r * bps) 10000 ltac:(lia) ltac:(lia)).
  pose proof (Z.div_lt_upper_bound (r * bps) 10000 40000000 ltac:(lia) ltac:(lia)).
  rewrite to_signed_small by lia.
  replace (pool * bps / 10000) with (q * bps + r * bps / 10000).
  2: { rewrite Hdm. replace ((10000 * q + r) * bps) with (r * bps + (q * bps) * 10000) by lia. rewrite Z.div_add by lia. lia. }
  set (x := q * bps + r * bps / 10000) in *.
  destruct (Z.ltb_spec x 0); [lia|]. simpl. destruct (Z.ltb_spec (21000000 * 100000000) x); lia.
Qed.

(** ** Chains of blocks under the limit *)

(** [pools h] is the balance of the pool before the block of height [h]. *)
Definition net_egress (pools : Z → Z) (h : Z) : Z := Z.max 0 (pools h - pools (h + 1)).

Fixpoint velocity_run (P : SupplyParams) (pools : Z → Z) (h : Z) (n : nat) (log : ShieldedUnshieldVelocity) :
    option ShieldedUnshieldVelocity :=
  match n with
  | O => Some log
  | S n => log ← velocity_run P pools h n log; velocity_connect P (h + Z.of_nat n) (pools (h + Z.of_nat n)) (pools (h + Z.of_nat n + 1)) log
  end.

Fixpoint velocity_undo (h : Z) (n : nat) (log : ShieldedUnshieldVelocity) : ShieldedUnshieldVelocity :=
  match n with
  | O => log
  | S n => velocity_undo h n (UndoBlock log (h + Z.of_nat n))
  end.

Section velocity.
Context (P : SupplyParams) (pools : Z → Z).
Abbreviation w := (nShieldedUnshieldVelocityWindowBlocks P).
Abbreviation bps := (nShieldedUnshieldVelocityCapBps P).
Context (Hw : 0 ≤ w < 2 ^ 29) (Hbps : 0 ≤ bps ≤ 40000000) (Hpools : ∀ h, in_range (pools h)).

Definition window_cap (h : Z) : Z :=
  Z.max (Z.min MAX_MONEY (pools h * bps / 10000)) (Z.max 0 (ShieldedUnshieldVelocityMinCapForHeight P h)).

Lemma net_egress_range h : in_range (net_egress pools h).
Proof. pose proof (Hpools h). pose proof (Hpools (h + 1)). unfold net_egress, in_range in *. lia. Qed.

Lemma log_ok_insert h log : 0 ≤ h < 2 ^ 30 → log_ok log → log_ok (<[h := net_egress pools h]> log).
Proof. intros Hh Hl. apply map_Forall_insert_2; [|done]. split; [unfold INT32_MAX; lia | apply net_egress_range]. Qed.

Lemma velocity_connect_spec h log log' : 0 ≤ h < 2 ^ 30 → log_ok log →
  velocity_connect P h (pools h) (pools (h + 1)) log = Some log' →
  Z.min MAX_MONEY (egress_between (<[h := net_egress pools h]> log) (h - w) h) ≤ window_cap h
  ∧ log' = filter (λ p, h - 2 * w ≤ p.1) (<[h := net_egress pools h]> log).
Proof.
  intros Hh Hl. unfold velocity_connect, WithinCap, RecordBlock, Prune, window_cap.
  replace (if 0 <? _ then _ else 0) with (net_egress pools h).
  2: { unfold net_egress. destruct (Z.ltb_spec (pools (h + 1)) (pools h)); [|simpl; lia]. destruct (Z.ltb_spec 0 (pools h - pools (h + 1))); lia. }
  assert (log_ok (<[h := net_egress pools h]> log)) as Hl'.
  { by apply log_ok_insert. }
  rewrite WindowTotal_spec, WindowCap_spec by first [done | apply Hpools | unfold INT32_MAX; lia]. unfold s32.
  rewrite (to_signed_small 32 w), (to_signed_small 32 (2 * w)), (to_signed_small 32 (h - 2 * w)) by lia.
  destruct (Z.leb_spec (Z.min MAX_MONEY (egress_between (<[h:=net_egress pools h]> log) (h - w) h)) 
    (Z.max (Z.min MAX_MONEY (pools h * bps / 10000)) (Z.max 0 (ShieldedUnshieldVelocityMinCapForHeight P h)))); simpl; [|done].
  intros [= <-]. done.
Qed.

Lemma log_ok_filter (F : Z * Z → Prop) `{!∀ p, Decision (F p)} log : log_ok log → log_ok (filter F log).
Proof. intros Hl h e [He _]%map_lookup_filter_Some. by apply Hl. Qed.

Lemma prune_lookup (log : ShieldedUnshieldVelocity) lo k :
  filter (λ p, lo ≤ p.1) log !! k = if decide (lo ≤ k) then log !! k else None.
Proof.
  rewrite map_lookup_filter. destruct (log !! k) as [e|]; simpl; [|by case_decide].
  case_decide; [by rewrite option_guard_True | by rewrite option_guard_False].
Qed.

(** What the log holds after [n] blocks from height [h]. *)
Lemma velocity_run_lookup h n log log' : 0 ≤ h → h + Z.of_nat n ≤ 2 ^ 30 → log_ok log →
  velocity_run P pools h n log = Some log' →
  log_ok log' ∧ ∀ k, log' !! k =
    if decide (h ≤ k < h + Z.of_nat n ∧ h + Z.of_nat n - 1 - 2 * w ≤ k) then Some (net_egress pools k)
    else if decide ((0 < n)%nat ∧ (k < h + Z.of_nat n - 1 - 2 * w ∨ h ≤ k < h + Z.of_nat n)) then None else log !! k.
Proof.
  intros Hh Hn Hl. revert log' Hn. induction n as [|n IH]; intros log' Hn; simpl.
  { intros [= <-]. split; [done|]. intros k. by rewrite !decide_False by lia. }
  destruct (velocity_run P pools h n log) as [log1|] eqn:E1; [|done]. simpl. intros E.
  destruct (IH log1 ltac:(lia) eq_refl) as [Hl1 Hk1]. apply velocity_connect_spec in E as [_ ->]; [|lia|done].
  split; [by apply log_ok_filter, log_ok_insert; [lia|]|]. intros k. rewrite prune_lookup.
  destruct (decide (k = h + Z.of_nat n)) as [->|Hne].
  { rewrite lookup_insert_eq. by rewrite !decide_True by lia. }
  rewrite lookup_insert_ne by done. rewrite Hk1. repeat case_decide; (lia || done).
Qed.

End velocity.

(** C30: take any chain of blocks connected under the limit on leaving the
    pool, from any well-formed log. For every [k] up to the window, the value
    that left the pool in the last [k] blocks, each counted net, is at most the
    cap computed from the pool before the last block: the configured fraction
    of it, or the configured floor. Dropping old entries does not matter.
    (Sums beyond the money supply are cut off there, as the code does.) *)
Theorem velocity_limits_egress P pools h n log log' k :
  0 ≤ nShieldedUnshieldVelocityWindowBlocks P < 2 ^ 29 → 0 ≤ nShieldedUnshieldVelocityCapBps P ≤ 40000000 →
  (∀ i, in_range (pools i)) → 0 ≤ h → h + Z.of_nat n < 2 ^ 30 → log_ok log →
  velocity_run P pools h (S n) log = Some log' →
  0 ≤ k ≤ nShieldedUnshieldVelocityWindowBlocks P → k ≤ Z.of_nat (S n) →
  Z.min MAX_MONEY (zsum k (λ i, net_egress pools (h + Z.of_nat (S n) - k + i))) ≤ window_cap P pools (h + Z.of_nat n).
Proof.
  intros Hw Hb Hp Hh Hn Hl Hrun Hk Hkn. simpl in Hrun.
  destruct (velocity_run P pools h n log) as [log1|] eqn:E1; [|done]. simpl in Hrun.
  destruct (velocity_run_lookup P pools Hw Hb Hp h n log log1 Hh ltac:(lia) Hl E1) as [Hl1 Hk1].
  destruct (velocity_connect_spec P pools Hw Hb Hp (h + Z.of_nat n) log1 log' ltac:(lia) Hl1 Hrun) as [Hle _].
  etrans; [|exact Hle]. apply Z.min_le_compat_l. set (tip := h + Z.of_nat n) in *.
  rewrite egress_heights by lia. set (w := nShieldedUnshieldVelocityWindowBlocks P) in *.
  replace (tip - (tip - w)) with ((w - k) + k) by lia. rewrite zsum_app by lia.
  rewrite (zsum_ext k (λ i, net_egress pools (h + Z.of_nat (S n) - k + i))
    (λ i, egress_at (<[tip:=net_egress pools tip]> log1) (tip - w + 1 + (w - k + i)))).
  - assert (0 ≤ zsum (w - k) (λ i, egress_at (<[tip:=net_egress pools tip]> log1) (tip - w + 1 + i))); [|lia].
    apply zsum_nonneg. intros i Hi. unfold egress_at. destruct (_ !! _) as [e|] eqn:Ee; simpl; [|lia].
    pose proof (log_ok_insert pools Hp tip log1 ltac:(lia) Hl1) as Hok.
    apply (Hok _ _) in Ee. unfold in_range in Ee. simpl in Ee. lia.
  - intros i Hi. unfold egress_at. replace (tip - w + 1 + (w - k + i)) with (h + Z.of_nat (S n) - k + i) by lia.
    destruct (decide (h + Z.of_nat (S n) - k + i = tip)) as [->|Hne]; [by rewrite lookup_insert_eq|].
    rewrite lookup_insert_ne, Hk1 by lia. by rewrite decide_True by lia.
Qed.

Lemma velocity_undo_lookup h n log k : velocity_undo h n log !! k = if decide (h ≤ k < h + Z.of_nat n) then None else log !! k.
Proof.
  revert log. induction n as [|n IH]; intros log; simpl; [by rewrite decide_False by lia|].
  rewrite IH. unfold UndoBlock. destruct (decide (k = h + Z.of_nat n)) as [->|Hne].
  - rewrite decide_False, lookup_delete_eq by lia. by rewrite decide_True by lia.
  - rewrite lookup_delete_ne by done. repeat case_decide; (lia || done).
Qed.

(** A reorganization of at most one window leaves no trace in the limit.
    Connecting [n] blocks and disconnecting them again restores every entry a
    window ending at the old tip or later can see, although connecting also
    drops old entries; so the window total at the old tip is what it was. *)
Theorem velocity_reorg_exact P pools h n log log' :
  0 ≤ nShieldedUnshieldVelocityWindowBlocks P < 2 ^ 29 → 0 ≤ nShieldedUnshieldVelocityCapBps P ≤ 40000000 →
  (∀ i, in_range (pools i)) → 0 < h → h + Z.of_nat n ≤ 2 ^ 30 → log_ok log → (∀ k, h ≤ k → log !! k = None) →
  velocity_run P pools h n log = Some log' → Z.of_nat n ≤ nShieldedUnshieldVelocityWindowBlocks P + 1 →
  let w := nShieldedUnshieldVelocityWindowBlocks P in
  let log2 := velocity_undo h n log' in
  (∀ k, h - w ≤ k → log2 !! k = log !! k) ∧ WindowTotal log2 (h - 1) w = WindowTotal log (h - 1) w.
Proof.
  intros Hw Hb Hp Hh Hn Hl Htop Hrun Hnw w log2.
  destruct (velocity_run_lookup P pools Hw Hb Hp h n log log' ltac:(lia) Hn Hl Hrun) as [Hl' Hk]. fold w in Hk, Hw, Hnw.
  assert (∀ k, h - w ≤ k → log2 !! k = log !! k) as Hsame.
  { intros k Hlo. unfold log2. rewrite velocity_undo_lookup, Hk. destruct (decide (h ≤ k < h + Z.of_nat n)); [by rewrite Htop by lia|].
    by rewrite !decide_False by lia. }
  split; [done|]. assert (log_ok log2) as Hl2.
  { intros k e He. unfold log2 in He. rewrite velocity_undo_lookup in He. case_decide; [done|]. by apply Hl'. }
  rewrite !WindowTotal_spec by (done || (unfold INT32_MAX; lia)). f_equal. rewrite !egress_heights by lia.
  apply zsum_ext. intros i Hi. unfold egress_at. by rewrite Hsame by lia.
Qed.
