(* ===== verification/Nullifiers.v ===== *)
(** The database of spent nullifiers.

    [NullifierSet] of [shielded/nullifier.h] and [shielded/nullifier.cpp]: four
    persistent sets (nullifiers, settlement anchors, netting manifests, claimed
    recovery exits), each behind a cache of members and a cache of absentees,
    both kept in two generations; the counter and the accumulator of the
    nullifiers; the pool balance and the egress log beside them.

    The database is a record with one field per key prefix. A batch is written
    whole or not at all; whether it is written is an argument. *)

From Stdlib Require Import ZArith Lia.
From stdpp Require Import base list numbers gmap fin_sets tactics.
From S2P Require Import Prelude BlockIndex Coins CoinsRun BlockUndo TxCheck Supply.
Import coins tx_check supply.

Open Scope Z_scope.

(** The accumulator [MuHash3072] of [crypto/muhash.cpp]. *)
Class MuHash := {
  Accumulator : Type;
  mu_equiv :: Equiv Accumulator;
  mu_empty : Accumulator;
  mu_Insert : uint256 → Accumulator → Accumulator;
  mu_Remove : uint256 → Accumulator → Accumulator;
  mu_Finalize : Accumulator → uint256
}.

(** It stands for a set: the order does not matter, removing undoes inserting,
    and equivalent accumulators have one digest. *)
Class MuHashLaws `{MuHash} := {
  mu_equivalence :: Equivalence (≡@{Accumulator});
  mu_insert_proper x :: Proper ((≡) ==> (≡)) (mu_Insert x);
  mu_remove_proper x :: Proper ((≡) ==> (≡)) (mu_Remove x);
  mu_finalize_proper :: Proper ((≡) ==> (=)) mu_Finalize;
  mu_insert_comm x y a : mu_Insert x (mu_Insert y a) ≡ mu_Insert y (mu_Insert x a);
  mu_remove_insert x a : mu_Remove x (mu_Insert x a) ≡ a;
}.

Module nullifier_set.

Definition NULLIFIER_CACHE_MAX_ENTRIES : Z := 2000000.

Abbreviation hashes := (gset uint256).

Definition IsNull (h : uint256) : bool := bool_decide (h = null_hash).

(** ** Two generations. A generation can be absent. *)
Record Generations := mkGen { current : option hashes; previous : option hashes }.

Definition holds (g : option hashes) (x : uint256) : bool := match g with Some s => bool_decide (x ∈ s) | None => false end.

Definition CacheContains (c : Generations) (x : uint256) : bool := holds (current c) x || holds (previous c) x.

Definition gen_size (s : hashes) : Z := Z.of_nat (size s).

Definition RotateCacheGeneration (c : Generations) (incoming_size : Z) : Generations :=
  let cur := default ∅ (current c) in
  if NULLIFIER_CACHE_MAX_ENTRIES <=? gen_size cur + incoming_size then mkGen (Some ∅) (Some cur)
  else mkGen (Some cur) (previous c).

Definition gen_insert (x : uint256) (c : Generations) : Generations := mkGen (Some ({[x]} ∪ default ∅ (current c))) (previous c).

Definition gen_erase (x : uint256) (c : Generations) : Generations :=
  mkGen ((λ s, s ∖ {[x]}) <$> current c) ((λ s, s ∖ {[x]}) <$> previous c).

Definition RememberMissInCache (c : Generations) (x : uint256) : Generations := gen_insert x (RotateCacheGeneration c 1).

(** ** A cached set: the members and the absentees seen lately *)
Record Cached := mkCached { hits : Generations; misses : Generations }.

Definition cached_new : Cached := mkCached (mkGen (Some ∅) None) (mkGen (Some ∅) None).

(** The look-up under the shared lock: [None] when the caches do not know. *)
Definition look (c : Cached) (x : uint256) : option bool :=
  if CacheContains (hits c) x then Some true else if CacheContains (misses c) x then Some false else None.

Definition note_miss (c : Cached) (x : uint256) : Cached :=
  if CacheContains (misses c) x then c else mkCached (hits c) (RememberMissInCache (misses c) x).

(** The step under the unique lock, after the database did not have [x]. *)
Definition settle (c : Cached) (x : uint256) : bool * Cached :=
  if CacheContains (hits c) x then (true, c) else (false, note_miss c x).

(** The whole look-up: the caches, the database, the caches again. *)
Definition contains (in_db : bool) (c : Cached) (x : uint256) : bool * Cached :=
  if IsNull x then (false, c)
  else match look c x with
       | Some b => (b, c)
       | None => if in_db then (true, c) else settle c x
       end.

Definition cache_inserted (c : Cached) (xs : list uint256) : Cached :=
  foldl (λ c x, mkCached (gen_insert x (hits c)) (gen_erase x (misses c)))
        (mkCached (RotateCacheGeneration (hits c) (zlen xs)) (misses c)) xs.

Definition cache_removed (c : Cached) (xs : list uint256) : Cached :=
  foldl (λ c x, note_miss (mkCached (gen_erase x (hits c)) (misses c)) x) c xs.

(** ** The database *)
Record ConfirmedSettlementAnchorState := mkAnchorState { anchor : uint256; a_created_height : Z }.
Record ConfirmedNettingManifestState := mkManifestState { manifest_id : uint256; m_created_height : Z; settlement_window : Z }.

Definition anchor_IsValid (a : ConfirmedSettlementAnchorState) : bool := negb (IsNull (anchor a)) && (0 <=? a_created_height a).
Definition manifest_IsValid (m : ConfirmedNettingManifestState) : bool :=
  negb (IsNull (manifest_id m)) && ((0 <=? m_created_height m) && (0 <? settlement_window m)).

Record NullifierDB := mkDB {
  db_nullifier : hashes;
  db_count : option Z;
  db_anchor : gmap uint256 (option ConfirmedSettlementAnchorState);   (** [None]: the one-byte marker *)
  db_manifest : gmap uint256 ConfirmedNettingManifestState;
  db_recovery : hashes;
  db_pool : option Z;
  db_velocity : option ShieldedUnshieldVelocity;
  db_accumulator : option uint256
}.

Section set.
Context `{MuHash}.

Record NullifierSet := mkSet {
  m_db : NullifierDB;
  nullifiers : Cached;
  anchors : Cached;
  manifests : Cached;
  recoveries : Cached;
  m_count : Z;
  m_nullifier_accumulator : Accumulator;
  m_accumulator_loaded : bool
}.

Definition set_db (s : NullifierSet) (d : NullifierDB) : NullifierSet :=
  mkSet d (nullifiers s) (anchors s) (manifests s) (recoveries s) (m_count s) (m_nullifier_accumulator s) (m_accumulator_loaded s).
Definition set_nullifiers (s : NullifierSet) (c : Cached) : NullifierSet :=
  mkSet (m_db s) c (anchors s) (manifests s) (recoveries s) (m_count s) (m_nullifier_accumulator s) (m_accumulator_loaded s).
Definition set_anchors (s : NullifierSet) (c : Cached) : NullifierSet :=
  mkSet (m_db s) (nullifiers s) c (manifests s) (recoveries s) (m_count s) (m_nullifier_accumulator s) (m_accumulator_loaded s).
Definition set_manifests (s : NullifierSet) (c : Cached) : NullifierSet :=
  mkSet (m_db s) (nullifiers s) (anchors s) c (recoveries s) (m_count s) (m_nullifier_accumulator s) (m_accumulator_loaded s).
Definition set_recoveries (s : NullifierSet) (c : Cached) : NullifierSet :=
  mkSet (m_db s) (nullifiers s) (anchors s) (manifests s) c (m_count s) (m_nullifier_accumulator s) (m_accumulator_loaded s).
Definition set_count (s : NullifierSet) (n : Z) : NullifierSet :=
  mkSet (m_db s) (nullifiers s) (anchors s) (manifests s) (recoveries s) n (m_nullifier_accumulator s) (m_accumulator_loaded s).
Definition set_accumulator (s : NullifierSet) (a : Accumulator) : NullifierSet :=
  mkSet (m_db s) (nullifiers s) (anchors s) (manifests s) (recoveries s) (m_count s) a true.

Definition put_nullifiers (d : NullifierDB) (n : hashes) (count : Z) : NullifierDB :=
  mkDB n (Some count) (db_anchor d) (db_manifest d) (db_recovery d) (db_pool d) (db_velocity d) (db_accumulator d).
Definition put_anchors (d : NullifierDB) (a : gmap uint256 (option ConfirmedSettlementAnchorState)) : NullifierDB :=
  mkDB (db_nullifier d) (db_count d) a (db_manifest d) (db_recovery d) (db_pool d) (db_velocity d) (db_accumulator d).
Definition put_manifests (d : NullifierDB) (m : gmap uint256 ConfirmedNettingManifestState) : NullifierDB :=
  mkDB (db_nullifier d) (db_count d) (db_anchor d) m (db_recovery d) (db_pool d) (db_velocity d) (db_accumulator d).
Definition put_recovery (d : NullifierDB) (r : hashes) : NullifierDB :=
  mkDB (db_nullifier d) (db_count d) (db_anchor d) (db_manifest d) r (db_pool d) (db_velocity d) (db_accumulator d).
Definition put_pool (d : NullifierDB) (b : Z) : NullifierDB :=
  mkDB (db_nullifier d) (db_count d) (db_anchor d) (db_manifest d) (db_recovery d) (Some b) (db_velocity d) (db_accumulator d).
Definition put_velocity (d : NullifierDB) (v : ShieldedUnshieldVelocity) : NullifierDB :=
  mkDB (db_nullifier d) (db_count d) (db_anchor d) (db_manifest d) (db_recovery d) (db_pool d) (Some v) (db_accumulator d).
Definition put_accumulator (d : NullifierDB) (u : uint256) : NullifierDB :=
  mkDB (db_nullifier d) (db_count d) (db_anchor d) (db_manifest d) (db_recovery d) (db_pool d) (db_velocity d) (Some u).

(** The scan counts the keys; the counter saturates. *)
Definition CountNullifiersSlow (d : NullifierDB) : Z := Z.min (Z.of_nat (size (db_nullifier d))) (2 ^ 64 - 1).

(** Opening the database. The result of writing a missing counter is ignored. *)
Definition set_new (written : bool) (d : NullifierDB) : NullifierSet :=
  let '(persisted_count, d) :=
    match db_count d with
    | Some n => (n, d)
    | None => (CountNullifiersSlow d, if written then put_nullifiers d (db_nullifier d) (CountNullifiersSlow d) else d)
    end in
  mkSet d cached_new cached_new cached_new cached_new persisted_count mu_empty false.

Definition EnsureNullifierAccumulatorLoaded (s : NullifierSet) : NullifierSet :=
  if m_accumulator_loaded s then s
  else set_accumulator s (foldl (λ acc x, mu_Insert x acc) mu_empty (elements (db_nullifier (m_db s)))).

(** ** Nullifiers *)
Definition Contains (s : NullifierSet) (nf : uint256) : bool * NullifierSet :=
  let '(b, c) := contains (bool_decide (nf ∈ db_nullifier (m_db s))) (nullifiers s) nf in (b, set_nullifiers s c).

(** The first loop: [None] when it has returned true, else what is to be looked up. *)
Fixpoint any_cached (c : Cached) (l : list uint256) (pending : list uint256) : option (list uint256) :=
  match l with
  | [] => Some pending
  | nf :: l =>
      if IsNull nf then None
      else if CacheContains (hits c) nf then None
      else any_cached c l (if CacheContains (misses c) nf then pending else pending ++ [nf])
  end.

Fixpoint any_settle (c : Cached) (l : list uint256) : bool * Cached :=
  match l with
  | [] => (false, c)
  | nf :: l => let '(b, c) := settle c nf in if (b : bool) then (true, c) else any_settle c l
  end.

Definition AnyExist (s : NullifierSet) (l : list uint256) : bool * NullifierSet :=
  match any_cached (nullifiers s) l [] with
  | None => (true, s)
  | Some pending =>
      if existsb (λ nf, bool_decide (nf ∈ db_nullifier (m_db s))) pending then (true, s)
      else let '(b, c) := any_settle (nullifiers s) l in (b, set_nullifiers s c)
  end.

(** The loop that counts what is new, and feeds the accumulator once each. *)
Fixpoint count_new (s : NullifierSet) (l : list uint256) (actually_new : Z) (accumulator_new : hashes) (acc : Accumulator) : Z * Accumulator :=
  match l with
  | [] => (actually_new, acc)
  | nf :: l =>
      if negb (CacheContains (hits (nullifiers s)) nf) && negb (bool_decide (nf ∈ db_nullifier (m_db s))) then
        if bool_decide (nf ∈ accumulator_new) then count_new s l (u64 (actually_new + 1)) accumulator_new acc
        else count_new s l (u64 (actually_new + 1)) ({[nf]} ∪ accumulator_new) (mu_Insert nf acc)
      else count_new s l actually_new accumulator_new acc
  end.

Definition Insert (written : bool) (s : NullifierSet) (l : list uint256) : bool * NullifierSet :=
  if existsb IsNull l then (false, s)
  else
    let s := EnsureNullifierAccumulatorLoaded s in
    let '(actually_new, acc) := count_new s l 0 ∅ (m_nullifier_accumulator s) in
    let s := set_accumulator s acc in
    let updated_count := u64 (m_count s + actually_new) in
    if negb written then (false, s)
    else
      let s := set_db s (put_nullifiers (m_db s) (list_to_set l ∪ db_nullifier (m_db s)) updated_count) in
      let s := set_nullifiers s (cache_inserted (nullifiers s) l) in
      (true, set_count s (u64 (m_count s + actually_new))).

Fixpoint count_removed (s : NullifierSet) (l : list uint256) (actually_removed : Z) (unique : hashes) (acc : Accumulator) : Z * Accumulator :=
  match l with
  | [] => (actually_removed, acc)
  | nf :: l =>
      if bool_decide (nf ∈ unique) then count_removed s l actually_removed unique acc
      else if CacheContains (hits (nullifiers s)) nf || bool_decide (nf ∈ db_nullifier (m_db s)) then
        count_removed s l (u64 (actually_removed + 1)) ({[nf]} ∪ unique) (mu_Remove nf acc)
      else count_removed s l actually_removed ({[nf]} ∪ unique) acc
  end.

Definition Remove (written : bool) (s : NullifierSet) (l : list uint256) : bool * NullifierSet :=
  if existsb IsNull l then (false, s)
  else
    let s := EnsureNullifierAccumulatorLoaded s in
    let '(actually_removed, acc) := count_removed s l 0 ∅ (m_nullifier_accumulator s) in
    let s := set_accumulator s acc in
    let updated_count := if m_count s <? actually_removed then 0 else m_count s - actually_removed in
    if negb written then (false, s)
    else
      let s := set_db s (put_nullifiers (m_db s) (db_nullifier (m_db s) ∖ list_to_set l) updated_count) in
      let s := set_nullifiers s (cache_removed (nullifiers s) l) in
      (true, set_count s (u64 (m_count s - actually_removed))).

Definition CountNullifiers (s : NullifierSet) : Z := m_count s.

(** ** Settlement anchors *)
Definition ContainsSettlementAnchor (s : NullifierSet) (a : uint256) : bool * NullifierSet :=
  let '(b, c) := contains (bool_decide (a ∈ dom (db_anchor (m_db s)))) (anchors s) a in (b, set_anchors s c).

Definition GetSettlementAnchorState (s : NullifierSet) (a : uint256) : option ConfirmedSettlementAnchorState :=
  if IsNull a then None
  else match db_anchor (m_db s) !! a with
       | Some (Some st) =>
           let st := if IsNull (anchor st) then mkAnchorState a (a_created_height st) else st in
           if bool_decide (anchor st = a) then Some st else None
       | Some None => Some (mkAnchorState a (-1))
       | None => None
       end.

Definition InsertSettlementAnchorDigests (written : bool) (s : NullifierSet) (l : list uint256) : bool * NullifierSet :=
  if existsb IsNull l then (false, s)
  else if negb written then (false, s)
  else
    let s := set_db s (put_anchors (m_db s) (foldl (λ d a, <[a := None]> d) (db_anchor (m_db s)) l)) in
    (true, set_anchors s (cache_inserted (anchors s) l)).

Definition InsertSettlementAnchors (written : bool) (s : NullifierSet) (l : list ConfirmedSettlementAnchorState) : bool * NullifierSet :=
  if negb (forallb anchor_IsValid l) then (false, s)
  else if negb written then (false, s)
  else
    let s := set_db s (put_anchors (m_db s) (foldl (λ d a, <[anchor a := Some a]> d) (db_anchor (m_db s)) l)) in
    (true, set_anchors s (cache_inserted (anchors s) (anchor <$> l))).

Definition RemoveSettlementAnchors (written : bool) (s : NullifierSet) (l : list uint256) : bool * NullifierSet :=
  if existsb IsNull l then (false, s)
  else if negb written then (false, s)
  else
    let s := set_db s (put_anchors (m_db s) (foldl (λ d a, delete a d) (db_anchor (m_db s)) l)) in
    (true, set_anchors s (cache_removed (anchors s) l)).

(** ** Netting manifests *)
Definition ContainsNettingManifest (s : NullifierSet) (m : uint256) : bool * NullifierSet :=
  let '(b, c) := contains (bool_decide (m ∈ dom (db_manifest (m_db s)))) (manifests s) m in (b, set_manifests s c).

Definition GetNettingManifestState (s : NullifierSet) (m : uint256) : option ConfirmedNettingManifestState * NullifierSet :=
  if IsNull m then (None, s)
  else if CacheContains (misses (manifests s)) m then (None, s)
  else
    match db_manifest (m_db s) !! m with
    | None => (None, set_manifests s (note_miss (manifests s) m))
    | Some st =>
        let st := if IsNull (manifest_id st) then mkManifestState m (m_created_height st) (settlement_window st) else st in
        if negb (bool_decide (manifest_id st = m)) || negb (manifest_IsValid st) then (None, set_manifests s (note_miss (manifests s) m))
        else (Some st, s)
    end.

Definition InsertNettingManifests (written : bool) (s : NullifierSet) (l : list ConfirmedNettingManifestState) : bool * NullifierSet :=
  if negb (forallb manifest_IsValid l) then (false, s)
  else if negb written then (false, s)
  else
    let s := set_db s (put_manifests (m_db s) (foldl (λ d m, <[manifest_id m := m]> d) (db_manifest (m_db s)) l)) in
    (true, set_manifests s (cache_inserted (manifests s) (manifest_id <$> l))).

Definition RemoveNettingManifests (written : bool) (s : NullifierSet) (l : list uint256) : bool * NullifierSet :=
  if existsb IsNull l then (false, s)
  else if negb written then (false, s)
  else
    let s := set_db s (put_manifests (m_db s) (foldl (λ d m, delete m d) (db_manifest (m_db s)) l)) in
    (true, set_manifests s (cache_removed (manifests s) l)).

(** ** Claimed recovery exits *)
Definition ContainsRecoveryExitCommitment (s : NullifierSet) (cm : uint256) : bool * NullifierSet :=
  let '(b, c) := contains (bool_decide (cm ∈ db_recovery (m_db s))) (recoveries s) cm in (b, set_recoveries s c).

Definition InsertRecoveryExitCommitments (written : bool) (s : NullifierSet) (l : list uint256) : bool * NullifierSet :=
  if is_empty l then (false, s)
  else if existsb IsNull l then (false, s)
  else if negb written then (false, s)
  else
    let s := set_db s (put_recovery (m_db s) (list_to_set l ∪ db_recovery (m_db s))) in
    (true, set_recoveries s (cache_inserted (recoveries s) l)).

Definition RemoveRecoveryExitCommitments (written : bool) (s : NullifierSet) (l : list uint256) : bool * NullifierSet :=
  if existsb IsNull l then (false, s)
  else if negb written then (false, s)
  else
    let s := set_db s (put_recovery (m_db s) (db_recovery (m_db s) ∖ list_to_set l)) in
    (true, set_recoveries s (cache_removed (recoveries s) l)).

(** ** Balance, log, accumulator *)
Definition ReadPoolBalance (s : NullifierSet) : option Z :=
  let balance := default 0 (db_pool (m_db s)) in if negb (MoneyRange balance) then None else Some balance.

Definition WritePoolBalance (written : bool) (s : NullifierSet) (balance : Z) : bool * NullifierSet :=
  if negb (MoneyRange balance) then (false, s)
  else if negb written then (false, s) else (true, set_db s (put_pool (m_db s) balance)).

Definition ReadUnshieldVelocity (s : NullifierSet) : ShieldedUnshieldVelocity := default ∅ (db_velocity (m_db s)).

Definition WriteUnshieldVelocity (written : bool) (s : NullifierSet) (v : ShieldedUnshieldVelocity) : bool * NullifierSet :=
  if negb written then (false, s) else (true, set_db s (put_velocity (m_db s) v)).

Definition NullifierAccumulatorDigest (s : NullifierSet) : uint256 * NullifierSet :=
  let s := EnsureNullifierAccumulatorLoaded s in (mu_Finalize (m_nullifier_accumulator s), s).

Definition PersistNullifierAccumulator (written : bool) (s : NullifierSet) : bool * NullifierSet :=
  let s := EnsureNullifierAccumulatorLoaded s in
  if negb written then (false, s) else (true, set_db s (put_accumulator (m_db s) (mu_Finalize (m_nullifier_accumulator s)))).

Definition ReadPersistedNullifierAccumulator (s : NullifierSet) : option uint256 := db_accumulator (m_db s).

End set.
End nullifier_set.
