(* ===== verification/NullifierLaws.v ===== *)
(** The nullifier database is the set it stores.

    Every answer of [NullifierSet], through two generations of caches of
    members and of absentees, is the answer of plain sets; the counter and the
    accumulator follow the set; and a look-up that runs beside the writers
    never leaves a wrong entry behind. *)

From Stdlib Require Import ZArith Lia.
From stdpp Require Import base list numbers gmap fin_sets tactics.
From S2P Require Import Prelude BlockIndex Coins CoinsRun BlockUndo TxCheck Supply Nullifiers.
Import coins tx_check supply nullifier_set.

Open Scope Z_scope.

(** ** Generations *)
Definition gen_set (c : Generations) : hashes := default ∅ (current c) ∪ default ∅ (previous c).

Lemma CacheContains_spec c x : CacheContains c x = bool_decide (x ∈ gen_set c).
Proof.
  unfold CacheContains, gen_set, nullifier_set.holds. destruct (current c) as [s|], (previous c) as [s'|]; simpl;
    rewrite ?orb_false_r; repeat case_bool_decide; set_solver.
Qed.

Lemma gen_rotate c n : gen_set (RotateCacheGeneration c n) ⊆ gen_set c.
Proof. unfold RotateCacheGeneration, gen_set. case_match; simpl; set_solver. Qed.

Lemma gen_insert_set x c : gen_set (gen_insert x c) = {[x]} ∪ gen_set c.
Proof. unfold gen_set. simpl. set_solver. Qed.

Lemma gen_erase_set x c : gen_set (gen_erase x c) = gen_set c ∖ {[x]}.
Proof. unfold gen_set, gen_erase. destruct (current c), (previous c); simpl; set_solver. Qed.

Lemma gen_remember c x : gen_set (RememberMissInCache c x) ⊆ {[x]} ∪ gen_set c.
Proof. unfold RememberMissInCache. rewrite gen_insert_set. pose proof (gen_rotate c 1). set_solver. Qed.

(** ** Cached sets *)

(** What the caches say of [S] is true. *)
Definition cached_ok (S : hashes) (c : Cached) : Prop := gen_set (hits c) ⊆ S ∧ gen_set (misses c) ## S.

Lemma cached_new_ok S : cached_ok S cached_new.
Proof. split; unfold gen_set; simpl; set_solver. Qed.

Lemma note_miss_ok S c x : cached_ok S c → x ∉ S → cached_ok S (note_miss c x).
Proof.
  intros [Hh Hm] Hx. unfold note_miss. case_match; [done|]. split; simpl; [done|]. pose proof (gen_remember (misses c) x). set_solver.
Qed.

Lemma settle_ok S c x : cached_ok S c → x ∉ S → ∃ c', settle c x = (false, c') ∧ cached_ok S c'.
Proof.
  intros Hc Hx. unfold settle. rewrite CacheContains_spec. rewrite bool_decide_eq_false_2 by (destruct Hc; set_solver).
  eexists. split; [done|]. by apply note_miss_ok.
Qed.

Lemma contains_ok S c x : cached_ok S c → null_hash ∉ S →
  ∃ c', contains (bool_decide (x ∈ S)) c x = (bool_decide (x ∈ S), c') ∧ cached_ok S c'.
Proof.
  intros Hc Hn. unfold contains, IsNull. case_bool_decide as E.
  { subst x. rewrite bool_decide_eq_false_2 by done. by exists c. }
  unfold look. rewrite !CacheContains_spec. destruct Hc as [Hh Hm].
  destruct (decide (x ∈ gen_set (hits c))).
  { rewrite !bool_decide_eq_true_2 by set_solver. exists c. by split. }
  rewrite (bool_decide_eq_false_2 (x ∈ gen_set (hits c))) by done.
  destruct (decide (x ∈ gen_set (misses c))).
  { rewrite (bool_decide_eq_true_2 (x ∈ gen_set (misses c))) by done. rewrite bool_decide_eq_false_2 by set_solver. exists c. by split. }
  rewrite (bool_decide_eq_false_2 (x ∈ gen_set (misses c))) by done.
  case_bool_decide as Ex; [exists c; by split|]. by apply settle_ok.
Qed.

Lemma cache_inserted_gen S c l : gen_set (hits c) ⊆ list_to_set l ∪ S → gen_set (misses c) ## S →
  cached_ok (list_to_set l ∪ S) (cache_inserted c l).
Proof.
  intros Hh Hm. unfold cache_inserted.
  assert (gen_set (RotateCacheGeneration (hits c) (zlen l)) ⊆ list_to_set l ∪ S) as Hr by (etrans; [apply gen_rotate | done]).
  clear Hh. set (d := mkCached (RotateCacheGeneration (hits c) (zlen l)) (misses c)).
  assert (gen_set (hits d) ⊆ list_to_set l ∪ S) as Hh by done. assert (gen_set (misses d) ## S) as Hm' by done. clearbody d. clear Hr Hm c.
  revert d S Hh Hm'. induction l as [|x l IH]; intros d S Hh Hm; simpl; [split; set_solver|].
  replace ({[x]} ∪ list_to_set l ∪ S) with (list_to_set l ∪ ({[x]} ∪ S)) by set_solver. apply IH; simpl.
  - rewrite gen_insert_set. simpl in Hh. set_solver.
  - rewrite gen_erase_set. set_solver.
Qed.

Lemma cache_inserted_ok S c l : cached_ok S c → cached_ok (list_to_set l ∪ S) (cache_inserted c l).
Proof. intros [Hh Hm]. apply cache_inserted_gen; set_solver. Qed.

Lemma cache_removed_gen S c l : gen_set (hits c) ⊆ S → gen_set (misses c) ## S ∖ list_to_set l →
  cached_ok (S ∖ list_to_set l) (cache_removed c l).
Proof.
  unfold cache_removed. revert c S. induction l as [|x k IH]; intros c S Hh Hm; simpl; [split; set_solver|].
  simpl in Hm. replace (S ∖ ({[x]} ∪ list_to_set k)) with (S ∖ {[x]} ∖ list_to_set k) in * by set_solver.
  assert (gen_set (hits (note_miss (mkCached (gen_erase x (hits c)) (misses c)) x)) ⊆ S ∖ {[x]}) as Hh'.
  { unfold note_miss. simpl. case_match; simpl; rewrite gen_erase_set; clear -Hh; set_solver. }
  apply IH; [done|]. unfold note_miss. simpl. case_match; simpl; [done|].
  pose proof (gen_remember (misses c) x) as Hr. clear -Hm Hr. set_solver.
Qed.

Lemma cache_removed_ok S c l : cached_ok S c → cached_ok (S ∖ list_to_set l) (cache_removed c l).
Proof. intros [Hh Hm]. apply cache_removed_gen; set_solver. Qed.

Lemma any_cached_spec S c l pending : cached_ok S c →
  match any_cached c l pending with
  | None => ∃ x, x ∈ l ∧ (x = null_hash ∨ x ∈ S)
  | Some p => p = pending ++ filter (λ x, x ∉ gen_set (misses c)) l ∧ ∀ x, x ∈ l → x ≠ null_hash
  end.
Proof.
  intros [Hh Hm]. revert pending. induction l as [|x l IH]; intros pending; simpl; [rewrite app_nil_r; split; [done | set_solver]|].
  unfold IsNull. case_bool_decide as E; [exists x; split; [left | by left]|].
  rewrite !CacheContains_spec. case_bool_decide as Eh; [exists x; split; [left | right; set_solver]|].
  specialize (IH (if bool_decide (x ∈ gen_set (misses c)) then pending else pending ++ [x])).
  destruct (any_cached c l _) as [p|].
  - destruct IH as [-> Hl]. split; [|set_solver]. rewrite filter_cons. case_bool_decide as Em.
    + by rewrite decide_False by tauto.
    + rewrite decide_True by done. by rewrite <- app_assoc.
  - destruct IH as (y & Hy & Hs). exists y. split; [by right | done].
Qed.

Lemma any_settle_ok S c l : cached_ok S c → (∀ x, x ∈ l → x ∉ S) → ∃ c', any_settle c l = (false, c') ∧ cached_ok S c'.
Proof.
  revert c. induction l as [|x l IH]; intros c Hc Hl; simpl; [by exists c|].
  destruct (settle_ok S c x Hc ltac:(set_solver)) as (c1 & -> & Hc1). apply IH; [done | set_solver].
Qed.

(** ** The set as a whole *)
Section laws.
Context `{MuHash}.

Record set_ok (s : NullifierSet) : Prop := mkSetOk {
  ok_nullifiers : cached_ok (db_nullifier (m_db s)) (nullifiers s);
  ok_anchors : cached_ok (dom (db_anchor (m_db s))) (anchors s);
  ok_manifests : cached_ok (dom (db_manifest (m_db s))) (manifests s);
  ok_recoveries : cached_ok (db_recovery (m_db s)) (recoveries s);
}.

(** No database holds the null hash, and a manifest is stored whole under its
    own identifier. *)
Record db_ok (d : NullifierDB) : Prop := mkDbOk {
  null_nullifier : null_hash ∉ db_nullifier d;
  null_anchor : null_hash ∉ dom (db_anchor d);
  null_manifest : null_hash ∉ dom (db_manifest d);
  null_recovery : null_hash ∉ db_recovery d;
  whole_manifest : map_Forall (λ k m, manifest_id m = k ∧ manifest_IsValid m = true) (db_manifest d);
}.

Lemma AnyExist_ok s l : set_ok s → db_ok (m_db s) →
  ∃ c, AnyExist s l = (existsb (λ x, IsNull x || bool_decide (x ∈ db_nullifier (m_db s))) l, set_nullifiers s c)
       ∧ cached_ok (db_nullifier (m_db s)) c.
Proof.
  intros [Hc _ _ _] [Hn _ _ _ _]. unfold AnyExist. pose proof (any_cached_spec _ _ l [] Hc) as Ha.
  set (S := db_nullifier (m_db s)) in *. set (c := nullifiers s) in *.
  assert (s = set_nullifiers s c) as Es by (by destruct s).
  destruct (any_cached c l []) as [p|].
  2: { exists c. split; [|done]. rewrite <- Es. f_equal. symmetry. apply existsb_exists. destruct Ha as (x & Hx & Hs).
       exists x. split; [by apply list_elem_of_In|]. apply orb_true_iff. unfold IsNull. rewrite !bool_decide_eq_true. tauto. }
  destruct Ha as [-> Hl]. rewrite app_nil_l. destruct (existsb _ _) eqn:Ep.
  - exists c. split; [|done]. rewrite <- Es. f_equal. symmetry. apply existsb_exists.
    apply existsb_exists in Ep as (x & Hx & Hs). apply list_elem_of_In, list_elem_of_filter in Hx as [_ Hx].
    exists x. split; [by apply list_elem_of_In | by rewrite Hs, orb_true_r].
  - assert (∀ x, x ∈ l → x ∉ S) as Hout.
    { intros x Hx Hs. destruct (decide (x ∈ gen_set (misses c))) as [Em|Em]; [destruct Hc; set_solver|].
      assert (existsb (λ nf, bool_decide (nf ∈ S)) (filter (λ x, x ∉ gen_set (misses c)) l) = true); [|congruence].
      apply existsb_exists. exists x. split; [|by apply bool_decide_eq_true]. apply list_elem_of_In, list_elem_of_filter. done. }
    destruct (any_settle_ok S c l Hc Hout) as (c' & -> & Hc'). exists c'. split; [|done]. f_equal. symmetry.
    apply not_true_iff_false. intros (x & Hx & Hs)%existsb_exists. apply list_elem_of_In in Hx.
    apply orb_true_iff in Hs. unfold IsNull in Hs. rewrite !bool_decide_eq_true in Hs. destruct Hs; [by apply (Hl x) | by apply (Hout x)].
Qed.

(** ** Histories *)
Inductive set_op :=
| OpContains (x : uint256)
| OpAnyExist (l : list uint256)
| OpInsert (written : bool) (l : list uint256)
| OpRemove (written : bool) (l : list uint256)
| OpContainsAnchor (x : uint256)
| OpAnchorState (x : uint256)
| OpInsertAnchorDigests (written : bool) (l : list uint256)
| OpInsertAnchors (written : bool) (l : list ConfirmedSettlementAnchorState)
| OpRemoveAnchors (written : bool) (l : list uint256)
| OpContainsManifest (x : uint256)
| OpManifestState (x : uint256)
| OpInsertManifests (written : bool) (l : list ConfirmedNettingManifestState)
| OpRemoveManifests (written : bool) (l : list uint256)
| OpContainsRecovery (x : uint256)
| OpInsertRecoveries (written : bool) (l : list uint256)
| OpRemoveRecoveries (written : bool) (l : list uint256)
| OpReadPool
| OpWritePool (written : bool) (balance : Z)
| OpReadVelocity
| OpWriteVelocity (written : bool) (v : ShieldedUnshieldVelocity)
| OpPersist (written : bool).

Inductive set_answer :=
| AnsBool (b : bool)
| AnsAnchor (a : option ConfirmedSettlementAnchorState)
| AnsManifest (m : option ConfirmedNettingManifestState)
| AnsAmount (v : option Z)
| AnsLog (v : ShieldedUnshieldVelocity).

Definition bool_op (r : bool * NullifierSet) : set_answer * NullifierSet := (AnsBool r.1, r.2).

Definition set_run1 (op : set_op) (s : NullifierSet) : set_answer * NullifierSet :=
  match op with
  | OpContains x => bool_op (Contains s x)
  | OpAnyExist l => bool_op (AnyExist s l)
  | OpInsert w l => bool_op (Insert w s l)
  | OpRemove w l => bool_op (Remove w s l)
  | OpContainsAnchor x => bool_op (ContainsSettlementAnchor s x)
  | OpAnchorState x => (AnsAnchor (GetSettlementAnchorState s x), s)
  | OpInsertAnchorDigests w l => bool_op (InsertSettlementAnchorDigests w s l)
  | OpInsertAnchors w l => bool_op (InsertSettlementAnchors w s l)
  | OpRemoveAnchors w l => bool_op (RemoveSettlementAnchors w s l)
  | OpContainsManifest x => bool_op (ContainsNettingManifest s x)
  | OpManifestState x => let r := GetNettingManifestState s x in (AnsManifest r.1, r.2)
  | OpInsertManifests w l => bool_op (InsertNettingManifests w s l)
  | OpRemoveManifests w l => bool_op (RemoveNettingManifests w s l)
  | OpContainsRecovery x => bool_op (ContainsRecoveryExitCommitment s x)
  | OpInsertRecoveries w l => bool_op (InsertRecoveryExitCommitments w s l)
  | OpRemoveRecoveries w l => bool_op (RemoveRecoveryExitCommitments w s l)
  | OpReadPool => (AnsAmount (ReadPoolBalance s), s)
  | OpWritePool w v => bool_op (WritePoolBalance w s v)
  | OpReadVelocity => (AnsLog (ReadUnshieldVelocity s), s)
  | OpWriteVelocity w v => bool_op (WriteUnshieldVelocity w s v)
  | OpPersist w => bool_op (PersistNullifierAccumulator w s)
  end.

Fixpoint set_run (ops : list set_op) (s : NullifierSet) : list set_answer * NullifierSet :=
  match ops with
  | [] => ([], s)
  | op :: ops => let '(a, s) := set_run1 op s in let '(l, s) := set_run ops s in (a :: l, s)
  end.

(** ** The specification: plain sets and maps *)
Record plain := mkPlain {
  p_nullifiers : hashes;
  p_anchors : gmap uint256 (option ConfirmedSettlementAnchorState);
  p_manifests : gmap uint256 ConfirmedNettingManifestState;
  p_recoveries : hashes;
  p_pool : option Z;
  p_velocity : option ShieldedUnshieldVelocity
}.

Definition plain_of (d : NullifierDB) : plain :=
  mkPlain (db_nullifier d) (db_anchor d) (db_manifest d) (db_recovery d) (db_pool d) (db_velocity d).

(** An update that is refused or not written answers false and changes nothing. *)
Definition update (ok : bool) (p p' : plain) : set_answer * plain := (AnsBool ok, if ok then p' else p).

Definition no_null (l : list uint256) : bool := forallb (λ x, negb (IsNull x)) l.

Definition spec_run1 (op : set_op) (p : plain) : set_answer * plain :=
  let '(mkPlain n a m r v e) := p in
  match op with
  | OpContains x => (AnsBool (bool_decide (x ∈ n)), p)
  | OpAnyExist l => (AnsBool (existsb (λ x, IsNull x || bool_decide (x ∈ n)) l), p)
  | OpInsert w l => update (no_null l && w) p (mkPlain (list_to_set l ∪ n) a m r v e)
  | OpRemove w l => update (no_null l && w) p (mkPlain (n ∖ list_to_set l) a m r v e)
  | OpContainsAnchor x => (AnsBool (bool_decide (is_Some (a !! x))), p)
  | OpAnchorState x =>
      (AnsAnchor (match a !! x with
                  | Some (Some st) => if IsNull (anchor st) then Some (mkAnchorState x (a_created_height st))
                                      else if bool_decide (anchor st = x) then Some st else None
                  | Some None => Some (mkAnchorState x (-1))
                  | None => None
                  end), p)
  | OpInsertAnchorDigests w l => update (no_null l && w) p (mkPlain n (foldl (λ d x, <[x := None]> d) a l) m r v e)
  | OpInsertAnchors w l => update (forallb anchor_IsValid l && w) p (mkPlain n (foldl (λ d x, <[anchor x := Some x]> d) a l) m r v e)
  | OpRemoveAnchors w l => update (no_null l && w) p (mkPlain n (foldl (λ d x, delete x d) a l) m r v e)
  | OpContainsManifest x => (AnsBool (bool_decide (is_Some (m !! x))), p)
  | OpManifestState x => (AnsManifest (m !! x), p)
  | OpInsertManifests w l => update (forallb manifest_IsValid l && w) p (mkPlain n a (foldl (λ d x, <[manifest_id x := x]> d) m l) r v e)
  | OpRemoveManifests w l => update (no_null l && w) p (mkPlain n a (foldl (λ d x, delete x d) m l) r v e)
  | OpContainsRecovery x => (AnsBool (bool_decide (x ∈ r)), p)
  | OpInsertRecoveries w l => update (negb (is_empty l) && no_null l && w) p (mkPlain n a m (list_to_set l ∪ r) v e)
  | OpRemoveRecoveries w l => update (no_null l && w) p (mkPlain n a m (r ∖ list_to_set l) v e)
  | OpReadPool => (AnsAmount (if MoneyRange (default 0 v) then Some (default 0 v) else None), p)
  | OpWritePool w b => update (MoneyRange b && w) p (mkPlain n a m r (Some b) e)
  | OpReadVelocity => (AnsLog (default ∅ e), p)
  | OpWriteVelocity w log => update w p (mkPlain n a m r v (Some log))
  | OpPersist w => (AnsBool w, p)
  end.

Fixpoint spec_run (ops : list set_op) (p : plain) : list set_answer * plain :=
  match ops with
  | [] => ([], p)
  | op :: ops => let '(a, p) := spec_run1 op p in let '(l, p) := spec_run ops p in (a :: l, p)
  end.

(** [s] stores [p] and its caches agree with it. *)
Definition stores (s : NullifierSet) (p : plain) : Prop := set_ok s ∧ db_ok (m_db s) ∧ plain_of (m_db s) = p.

Lemma no_null_spec l : existsb IsNull l = negb (no_null l).
Proof. unfold no_null. induction l as [|x l IH]; [done|]. simpl. rewrite IH. by destruct (IsNull x). Qed.

Lemma no_null_elem l x : no_null l = true → x ∈ l → x ≠ null_hash.
Proof. unfold no_null. rewrite forallb_forall. intros Hl Hx%list_elem_of_In ->. apply Hl in Hx. unfold IsNull in Hx. by rewrite bool_decide_eq_true_2 in Hx. Qed.

Definition refines1 (op : set_op) : Prop := ∀ s p, stores s p → ∃ s', set_run1 op s = ((spec_run1 op p).1, s') ∧ stores s' (spec_run1 op p).2.

Lemma stores_look s d1 : set_ok s → db_ok d1 → m_db s = d1 → stores s (plain_of d1).
Proof. intros ? ? <-. done. Qed.

Lemma dom_inserts {A B} (key : B → uint256) (val : B → A) (m : gmap uint256 A) (l : list B) :
  dom (foldl (λ d x, <[key x := val x]> d) m l) = list_to_set (key <$> l) ∪ dom m.
Proof. revert m. induction l as [|x l IH]; intros m; simpl; [set_solver|]. rewrite IH, dom_insert_L. set_solver. Qed.

Lemma dom_deletes {A} (m : gmap uint256 A) (l : list uint256) : dom (foldl (λ d x, delete x d) m l) = dom m ∖ list_to_set l.
Proof. revert m. induction l as [|x l IH]; intros m; simpl; [set_solver|]. rewrite IH, dom_delete_L. set_solver. Qed.

Lemma deletes_sub {A} (m : gmap uint256 A) (l : list uint256) : foldl (λ d x, delete x d) m l ⊆ m.
Proof. revert m. induction l as [|x l IH]; intros m; simpl; [done|]. etrans; [apply IH | apply delete_subseteq]. Qed.

Lemma inserts_whole (m : gmap uint256 ConfirmedNettingManifestState) l : map_Forall (λ k m, manifest_id m = k ∧ manifest_IsValid m = true) m → forallb manifest_IsValid l = true →
  map_Forall (λ k m, manifest_id m = k ∧ manifest_IsValid m = true) (foldl (λ d x, <[manifest_id x := x]> d) m l).
Proof.
  revert m. induction l as [|x l IH]; intros m Hm Hl; simpl in *; [done|]. apply andb_true_iff in Hl as [Hx Hl].
  apply IH; [|done]. by apply map_Forall_insert_2.
Qed.

Lemma valid_no_null {A} (key : A → uint256) (valid : A → bool) l :
  (∀ a, valid a = true → IsNull (key a) = false) → forallb valid l = true → no_null (key <$> l) = true.
Proof.
  intros Hv. rewrite forallb_forall. intros Hl. unfold no_null. apply forallb_forall. intros x Hx%list_elem_of_In.
  apply list_elem_of_fmap in Hx as (a & -> & Ha). rewrite Hv; [done|]. by apply Hl, list_elem_of_In.
Qed.

Lemma Ensure_db s : m_db (EnsureNullifierAccumulatorLoaded s) = m_db s.
Proof. unfold EnsureNullifierAccumulatorLoaded. by destruct (m_accumulator_loaded s). Qed.

Lemma Ensure_ok s : set_ok s → set_ok (EnsureNullifierAccumulatorLoaded s).
Proof. unfold EnsureNullifierAccumulatorLoaded. destruct (m_accumulator_loaded s); [done|]. by intros [? ? ? ?]. Qed.

Lemma null_list (l : list uint256) (S : hashes) : no_null l = true → null_hash ∉ S → null_hash ∉ (list_to_set l ∪ S).
Proof. intros Hl Hs [Hx|Hx]%elem_of_union; [|done]. apply elem_of_list_to_set in Hx. by apply (no_null_elem l _ Hl) in Hx. Qed.

Ltac open_stores := intros s p (Hs & Hd & <-); destruct (Hs) as [Hn Ha Hm Hr]; destruct (Hd) as [Hn0 Ha0 Hm0 Hr0 Hw0].

Ltac close_stores := split; [constructor; simpl; try done | split; [first [done | constructor; simpl; try done] | try done]].

Lemma refine_contains x : refines1 (OpContains x) ∧ refines1 (OpContainsAnchor x) ∧ refines1 (OpContainsManifest x) ∧ refines1 (OpContainsRecovery x).
Proof.
  split_and!; open_stores; simpl.
  - destruct (contains_ok _ _ x Hn Hn0) as (c & E & Hc). unfold Contains. rewrite E. eexists. split; [done|]. close_stores.
  - destruct (contains_ok _ _ x Ha Ha0) as (c & E & Hc). unfold ContainsSettlementAnchor. rewrite E.
    eexists. split; [unfold bool_op; simpl; by rewrite (bool_decide_ext _ _ (elem_of_dom (db_anchor (m_db s)) x)) | close_stores].
  - destruct (contains_ok _ _ x Hm Hm0) as (c & E & Hc). unfold ContainsNettingManifest. rewrite E.
    eexists. split; [unfold bool_op; simpl; by rewrite (bool_decide_ext _ _ (elem_of_dom (db_manifest (m_db s)) x)) | close_stores].
  - destruct (contains_ok _ _ x Hr Hr0) as (c & E & Hc). unfold ContainsRecoveryExitCommitment. rewrite E.
    eexists. split; [done|]. close_stores.
Qed.

Lemma refine_any l : refines1 (OpAnyExist l).
Proof.
  open_stores. simpl. destruct (AnyExist_ok s l Hs Hd) as (c & -> & Hc). eexists. split; [done|]. close_stores.
Qed.

Lemma refine_insert w l : refines1 (OpInsert w l).
Proof.
  open_stores. simpl. unfold Insert. rewrite no_null_spec. destruct (no_null l) eqn:El; simpl; [|by exists s].
  pose proof (Ensure_ok s Hs) as Hs1. pose proof (Ensure_db s) as Hd1. set (s1 := EnsureNullifierAccumulatorLoaded s) in *. clearbody s1.
  destruct (count_new s1 l 0 ∅ (m_nullifier_accumulator s1)) as [k acc]. destruct Hs1 as [Hn1 Ha1 Hm1 Hr1].
  destruct w; simpl; eexists; (split; [done|]).
  - split; [constructor; simpl; try done; by apply cache_inserted_ok|].
    split; simpl; [rewrite Hd1; constructor; simpl; try done; by apply null_list | by rewrite Hd1].
  - split; [by constructor|]. split; simpl; by rewrite Hd1.
Qed.

Lemma refine_remove w l : refines1 (OpRemove w l).
Proof.
  open_stores. simpl. unfold Remove. rewrite no_null_spec. destruct (no_null l) eqn:El; simpl; [|by exists s].
  pose proof (Ensure_ok s Hs) as Hs1. pose proof (Ensure_db s) as Hd1. set (s1 := EnsureNullifierAccumulatorLoaded s) in *. clearbody s1.
  destruct (count_removed s1 l 0 ∅ (m_nullifier_accumulator s1)) as [k acc]. destruct Hs1 as [Hn1 Ha1 Hm1 Hr1].
  destruct w; simpl; eexists; (split; [done|]).
  - split; [constructor; simpl; try done; by apply cache_removed_ok|].
    split; simpl; [rewrite Hd1; constructor; simpl; try done; set_solver | by rewrite Hd1].
  - split; [by constructor|]. split; simpl; by rewrite Hd1.
Qed.

Lemma refine_anchors w l la x :
  refines1 (OpAnchorState x) ∧ refines1 (OpInsertAnchorDigests w l) ∧ refines1 (OpInsertAnchors w la) ∧ refines1 (OpRemoveAnchors w l).
Proof.
  split_and!; open_stores; simpl.
  - exists s. split; [|done]. unfold GetSettlementAnchorState. f_equal. f_equal. unfold IsNull at 1. case_bool_decide as E.
    { subst x. apply not_elem_of_dom in Ha0. by rewrite Ha0. }
    destruct (db_anchor (m_db s) !! x) as [[st|]|]; try done. destruct (IsNull (anchor st)); [|done]. simpl. by rewrite bool_decide_eq_true_2.
  - unfold InsertSettlementAnchorDigests. rewrite no_null_spec. destruct (no_null l) eqn:El; simpl; [|by exists s].
    destruct w; simpl; eexists; (split; [done|]); [|done].
    pose proof (dom_inserts id (λ _, None) (db_anchor (m_db s)) l) as Ed. rewrite list_fmap_id in Ed. unfold id in Ed.
    close_stores; rewrite Ed; [by apply cache_inserted_ok | by apply null_list].
  - unfold InsertSettlementAnchors. destruct (forallb anchor_IsValid la) eqn:El; simpl; [|by exists s].
    destruct w; simpl; eexists; (split; [done|]); [|done].
    pose proof (dom_inserts anchor Some (db_anchor (m_db s)) la) as Ed.
    assert (no_null (anchor <$> la) = true) as El'.
    { apply (valid_no_null _ anchor_IsValid); [|done]. intros a. unfold anchor_IsValid. by destruct (IsNull (anchor a)). }
    close_stores; rewrite Ed; [by apply cache_inserted_ok | by apply null_list].
  - unfold RemoveSettlementAnchors. rewrite no_null_spec. destruct (no_null l) eqn:El; simpl; [|by exists s].
    destruct w; simpl; eexists; (split; [done|]); [|done].
    close_stores; rewrite dom_deletes; [by apply cache_removed_ok | set_solver].
Qed.

Lemma GetNettingManifestState_ok s x : set_ok s → db_ok (m_db s) →
  ∃ c, GetNettingManifestState s x = (db_manifest (m_db s) !! x, set_manifests s c) ∧ cached_ok (dom (db_manifest (m_db s))) c.
Proof.
  intros [_ _ Hm _] [_ _ Hm0 _ Hw0]. unfold GetNettingManifestState. set (c := manifests s) in *.
  assert (s = set_manifests s c) as Es by (by destruct s). unfold IsNull at 1. case_bool_decide as E.
  { subst x. exists c. split; [|done]. apply not_elem_of_dom in Hm0. by rewrite Hm0, <- Es. }
  rewrite CacheContains_spec. case_bool_decide as Ec.
  { exists c. split; [|done]. rewrite <- Es. f_equal. symmetry. apply not_elem_of_dom. destruct Hm; set_solver. }
  destruct (db_manifest (m_db s) !! x) as [st|] eqn:Ex; simpl.
  - destruct (Hw0 x st Ex) as [Hid Hv]. unfold IsNull. rewrite Hid, (bool_decide_eq_false_2 _ E), Hid, (bool_decide_eq_true_2 (x = x) eq_refl), Hv.
    exists c. by rewrite <- Es.
  - eexists. split; [done|]. apply note_miss_ok; [done|]. by apply not_elem_of_dom.
Qed.

Lemma refine_manifests w l lm x :
  refines1 (OpManifestState x) ∧ refines1 (OpInsertManifests w lm) ∧ refines1 (OpRemoveManifests w l).
Proof.
  split_and!; open_stores; simpl.
  - destruct (GetNettingManifestState_ok s x Hs Hd) as (c & -> & Hc). eexists. split; [done|]. close_stores.
  - unfold InsertNettingManifests. destruct (forallb manifest_IsValid lm) eqn:El; simpl; [|by exists s].
    destruct w; simpl; eexists; (split; [done|]); [|done].
    pose proof (dom_inserts manifest_id id (db_manifest (m_db s)) lm) as Ed. unfold id in Ed.
    assert (no_null (manifest_id <$> lm) = true) as El'.
    { apply (valid_no_null _ manifest_IsValid); [|done]. intros a. unfold manifest_IsValid. by destruct (IsNull (manifest_id a)). }
    close_stores; rewrite ?Ed; [by apply cache_inserted_ok | by apply null_list | by apply inserts_whole].
  - unfold RemoveNettingManifests. rewrite no_null_spec. destruct (no_null l) eqn:El; simpl; [|by exists s].
    destruct w; simpl; eexists; (split; [done|]); [|done].
    close_stores; rewrite ?dom_deletes; [by apply cache_removed_ok | set_solver|]. intros k m Hk. apply (Hw0 k). by apply (lookup_weaken _ _ _ _ Hk (deletes_sub _ l)).
Qed.

Lemma refine_recoveries w l : refines1 (OpInsertRecoveries w l) ∧ refines1 (OpRemoveRecoveries w l).
Proof.
  split; open_stores; simpl.
  - unfold InsertRecoveryExitCommitments. destruct (is_empty l); simpl; [by exists s|].
    rewrite no_null_spec. destruct (no_null l) eqn:El; simpl; [|by exists s].
    destruct w; simpl; eexists; (split; [done|]); [|done].
    close_stores; [by apply cache_inserted_ok | by apply null_list].
  - unfold RemoveRecoveryExitCommitments. rewrite no_null_spec. destruct (no_null l) eqn:El; simpl; [|by exists s].
    destruct w; simpl; eexists; (split; [done|]); [|done].
    close_stores; [by apply cache_removed_ok | set_solver].
Qed.

Lemma refine_values w b v : refines1 OpReadPool ∧ refines1 (OpWritePool w b) ∧ refines1 OpReadVelocity ∧ refines1 (OpWriteVelocity w v) ∧ refines1 (OpPersist w).
Proof.
  split_and!; open_stores; simpl.
  - exists s. split; [|done]. unfold ReadPoolBalance. by destruct (MoneyRange _).
  - unfold WritePoolBalance. destruct (MoneyRange b), w; simpl; eexists; (split; [done|]); close_stores.
  - by exists s.
  - unfold WriteUnshieldVelocity. destruct w; simpl; eexists; (split; [done|]); close_stores.
  - unfold PersistNullifierAccumulator. pose proof (Ensure_ok s Hs) as [Hn1 Ha1 Hm1 Hr1]. pose proof (Ensure_db s) as Hd1.
    destruct w; simpl; eexists; (split; [done|]); (split; [by constructor | split; simpl; rewrite Hd1; [by constructor | done]]).
Qed.

Lemma refine_op op : refines1 op.
Proof.
  destruct op; first
    [ apply refine_any | apply refine_insert | apply refine_remove
    | apply (refine_contains x) | apply (refine_anchors true [] [] x) | apply (refine_anchors written l [] [])
    | apply (refine_anchors written [] l []) | apply (refine_manifests true [] [] x) | apply (refine_manifests written [] l [])
    | apply (refine_manifests written l [] []) | apply (refine_recoveries written l)
    | apply (refine_values true 0 ∅) | apply (refine_values written balance ∅) | apply (refine_values written 0 v) | apply (refine_values written 0 ∅) ].
Qed.

Lemma set_new_stores w d : db_ok d → stores (set_new w d) (plain_of d).
Proof.
  intros Hd. unfold set_new. destruct (db_count d); [|destruct w]; (split; [constructor; apply cached_new_ok | split; [by destruct Hd | done]]).
Qed.

Lemma set_run_refines ops : ∀ s p, stores s p → ∃ s', set_run ops s = ((spec_run ops p).1, s') ∧ stores s' (spec_run ops p).2.
Proof.
  induction ops as [|op ops IH]; intros s p Hs; simpl; [by exists s|].
  destruct (refine_op op s p Hs) as (s1 & -> & Hs1). destruct (spec_run1 op p) as [a p1]. simpl in *.
  destruct (IH s1 p1 Hs1) as (s2 & -> & Hs2). destruct (spec_run ops p1) as [l p2]. simpl in *. by exists s2.
Qed.


(** ** The counter and the accumulator *)
Section counting.
Context `{!MuHashLaws}.

Definition acc_of (l : list uint256) : Accumulator := foldr mu_Insert mu_empty l.

Lemma acc_of_perm l k : l ≡ₚ k → acc_of l ≡ acc_of k.
Proof. induction 1 as [| | |]; simpl; [done | by f_equiv | apply mu_insert_comm | by etrans]. Qed.

Lemma acc_of_insert (x : uint256) (n : hashes) : x ∉ n → acc_of (elements ({[x]} ∪ n)) ≡ mu_Insert x (acc_of (elements n)).
Proof. intros Hx. apply (acc_of_perm _ (x :: elements n)). by apply elements_union_singleton. Qed.

Lemma acc_of_remove (x : uint256) (n : hashes) : x ∈ n → mu_Remove x (acc_of (elements n)) ≡ acc_of (elements (n ∖ {[x]})).
Proof.
  intros Hx. assert (n = {[x]} ∪ (n ∖ {[x]})) as E by (apply union_difference_L; set_solver).
  rewrite E at 1. rewrite acc_of_insert by set_solver. apply mu_remove_insert.
Qed.

Lemma Ensure_acc s : (m_accumulator_loaded s = true → m_nullifier_accumulator s ≡ acc_of (elements (db_nullifier (m_db s)))) →
  m_nullifier_accumulator (EnsureNullifierAccumulatorLoaded s) ≡ acc_of (elements (db_nullifier (m_db s))).
Proof.
  unfold EnsureNullifierAccumulatorLoaded. destruct (m_accumulator_loaded s); [auto|]. intros _. simpl.
  replace (foldl (λ acc x, mu_Insert x acc) mu_empty (elements (db_nullifier (m_db s))))
    with (acc_of (reverse (elements (db_nullifier (m_db s))))).
  - apply acc_of_perm. by rewrite reverse_Permutation.
  - unfold acc_of. generalize mu_empty. induction (elements _) as [|x l IH]; intros a; [done|]. by rewrite reverse_cons, foldr_app, IH.
Qed.

Definition counted (n : hashes) (s : NullifierSet) : Prop :=
  db_nullifier (m_db s) = n ∧ Z.of_nat (size n) < 2 ^ 64 ∧ m_count s = Z.of_nat (size n)
  ∧ (∀ c, db_count (m_db s) = Some c → c = Z.of_nat (size n))
  ∧ (m_accumulator_loaded s = true → m_nullifier_accumulator s ≡ acc_of (elements n)).

Lemma size_one_more (x : uint256) (n : hashes) : x ∉ n → Z.of_nat (size ({[x]} ∪ n)) = Z.of_nat (size n) + 1.
Proof. intros Hx. rewrite size_union, size_singleton by set_solver. lia. Qed.

(** The loop of [Insert] on distinct nullifiers, as it adds them one by one. *)
Lemma count_new_spec s l : ∀ k seen acc, cached_ok (db_nullifier (m_db s)) (nullifiers s) → NoDup l → (∀ x, x ∈ l → x ∉ seen) →
  k = Z.of_nat (size (seen ∪ db_nullifier (m_db s))) - Z.of_nat (size (db_nullifier (m_db s))) →
  acc ≡ acc_of (elements (seen ∪ db_nullifier (m_db s))) →
  Z.of_nat (size (list_to_set l ∪ (seen ∪ db_nullifier (m_db s)))) < 2 ^ 64 →
  ∃ k' acc', count_new s l k seen acc = (k', acc')
    ∧ k' = Z.of_nat (size (list_to_set l ∪ (seen ∪ db_nullifier (m_db s)))) - Z.of_nat (size (db_nullifier (m_db s)))
    ∧ acc' ≡ acc_of (elements (list_to_set l ∪ (seen ∪ db_nullifier (m_db s)))).
Proof.
  set (n := db_nullifier (m_db s)). induction l as [|x l IH]; intros k seen acc Hc Hl Hseen Hk Hacc Hsz; simpl.
  { exists k, acc. replace (∅ ∪ (seen ∪ n)) with (seen ∪ n) by set_solver. done. }
  apply list.NoDup_cons in Hl as [Hx Hl]. rewrite CacheContains_spec. fold n. rewrite list_to_set_cons in Hsz.
  replace ({[x]} ∪ list_to_set l ∪ (seen ∪ n)) with (list_to_set l ∪ ({[x]} ∪ seen ∪ n)) in * by set_solver.
  assert (∀ y, y ∈ l → y ∉ {[x]} ∪ seen) as Hseen' by set_solver.
  assert (x ∉ seen) as Hxs by (apply Hseen; left).
  destruct (decide (x ∈ n)) as [Hn|Hn].
  - rewrite (bool_decide_eq_true_2 (x ∈ n)) by done. rewrite andb_false_r.
    assert ({[x]} ∪ seen ∪ n = seen ∪ n) as E by set_solver. rewrite E in *.
    apply IH; [done | done | intros y Hy; apply Hseen; by right | done | done | done].
  - rewrite (bool_decide_eq_false_2 (x ∈ n)), (bool_decide_eq_false_2 (x ∈ gen_set _)), (bool_decide_eq_false_2 (x ∈ seen))
      by (destruct Hc; set_solver). simpl.
    assert ({[x]} ∪ seen ∪ n = {[x]} ∪ (seen ∪ n)) as E by set_solver.
    assert (Z.of_nat (size ({[x]} ∪ seen ∪ n)) = Z.of_nat (size (seen ∪ n)) + 1) as Es by (rewrite E; apply size_one_more; set_solver).
    assert (size ({[x]} ∪ seen ∪ n) ≤ size (list_to_set l ∪ ({[x]} ∪ seen ∪ n)))%nat by (apply subseteq_size; set_solver).
    assert (size n ≤ size (seen ∪ n))%nat by (apply subseteq_size; set_solver).
    rewrite u64_small by lia. apply IH; try done; [lia|]. rewrite Hacc, E. symmetry. apply acc_of_insert. set_solver.
Qed.


(** The loop of [Remove], which skips repetitions. *)
Lemma count_removed_spec s l : ∀ k unique acc, cached_ok (db_nullifier (m_db s)) (nullifiers s) →
  k = Z.of_nat (size (db_nullifier (m_db s))) - Z.of_nat (size (db_nullifier (m_db s) ∖ unique)) →
  acc ≡ acc_of (elements (db_nullifier (m_db s) ∖ unique)) → Z.of_nat (size (db_nullifier (m_db s))) < 2 ^ 64 →
  ∃ k' acc', count_removed s l k unique acc = (k', acc')
    ∧ k' = Z.of_nat (size (db_nullifier (m_db s))) - Z.of_nat (size (db_nullifier (m_db s) ∖ (list_to_set l ∪ unique)))
    ∧ acc' ≡ acc_of (elements (db_nullifier (m_db s) ∖ (list_to_set l ∪ unique))).
Proof.
  set (n := db_nullifier (m_db s)). induction l as [|x l IH]; intros k unique acc Hc Hk Hacc Hsz; cbn [count_removed].
  { exists k, acc. replace (list_to_set [] ∪ unique) with unique by set_solver. done. }
  rewrite list_to_set_cons, CacheContains_spec. fold n.
  replace ({[x]} ∪ list_to_set l ∪ unique) with (list_to_set l ∪ ({[x]} ∪ unique)) by set_solver.
  destruct (decide (x ∈ unique)) as [Hu|Hu].
  { rewrite bool_decide_eq_true_2 by done. replace ({[x]} ∪ unique) with unique by set_solver. by apply IH. }
  rewrite (bool_decide_eq_false_2 (x ∈ unique)) by done.
  destruct (decide (x ∈ n)) as [Hn|Hn].
  - rewrite (bool_decide_eq_true_2 (x ∈ n)), orb_true_r by done.
    assert (n ∖ unique = {[x]} ∪ (n ∖ ({[x]} ∪ unique))) as E.
    { apply set_eq. intros y. destruct (decide (y = x)); set_solver. }
    assert (Z.of_nat (size (n ∖ unique)) = Z.of_nat (size (n ∖ ({[x]} ∪ unique))) + 1) as Es by (rewrite E at 1; apply size_one_more; set_solver).
    assert (size (n ∖ unique) ≤ size n)%nat by (apply subseteq_size; set_solver).
    rewrite u64_small by lia. apply IH; try done; [lia|]. rewrite Hacc, acc_of_remove by set_solver.
    apply acc_of_perm. replace (n ∖ unique ∖ {[x]}) with (n ∖ ({[x]} ∪ unique)) by set_solver. done.
  - rewrite (bool_decide_eq_false_2 (x ∈ n)), (bool_decide_eq_false_2 (x ∈ gen_set _)) by (destruct Hc; set_solver). simpl.
    assert (n ∖ ({[x]} ∪ unique) = n ∖ unique) as E by set_solver. apply IH; rewrite ?E; done.
Qed.

(** Updates of the nullifiers that are written, insertions without repetitions. *)
Definition tidy (op : set_op) : Prop :=
  match op with
  | OpInsert written l => written = true ∧ NoDup l
  | OpRemove written l => written = true
  | _ => True
  end.

Definition inserted (op : set_op) : Z := match op with OpInsert _ l => zlen l | _ => 0 end.
Definition inserted_total (ops : list set_op) : Z := foldr (λ op t, inserted op + t) 0 ops.

Lemma counted_db n s c : counted n s → db_nullifier (m_db c) = db_nullifier (m_db s) → db_count (m_db c) = db_count (m_db s) →
  m_count c = m_count s → m_nullifier_accumulator c = m_nullifier_accumulator s → m_accumulator_loaded c = m_accumulator_loaded s → counted n c.
Proof. unfold counted. intros (Hn & Hs & Hc & Hd & Ha) -> -> -> -> ->. done. Qed.

Lemma counted_ensure n s : counted n s → counted n (EnsureNullifierAccumulatorLoaded s)
  ∧ m_nullifier_accumulator (EnsureNullifierAccumulatorLoaded s) ≡ acc_of (elements n).
Proof.
  intros (Hn & Hs & Hc & Hd & Ha). rewrite <- Hn in Ha. pose proof (Ensure_acc s Ha) as He. rewrite Hn in He. split; [|done].
  unfold counted. rewrite Ensure_db. split_and!; try done. unfold EnsureNullifierAccumulatorLoaded. by destruct (m_accumulator_loaded s).
Qed.

Lemma counted_insert n s l : counted n s → set_ok s → NoDup l → Z.of_nat (size n) + zlen l < 2 ^ 64 →
  counted (if no_null l then list_to_set l ∪ n else n) (Insert true s l).2.
Proof.
  intros Hcn Hs Hl Hsz. unfold Insert. rewrite no_null_spec. destruct (no_null l); simpl; [|done].
  destruct (counted_ensure n s Hcn) as [(Hn & Hs1 & Hc & Hd & _) Ha]. destruct (Ensure_ok s Hs) as [Hok _ _ _].
  set (s1 := EnsureNullifierAccumulatorLoaded s) in *. clearbody s1.
  subst n. set (n := db_nullifier (m_db s1)) in *. assert (∅ ∪ n = n) as E0 by set_solver.
  assert (Z.of_nat (size (list_to_set l ∪ n)) < 2 ^ 64) as Hb.
  { assert (size (list_to_set (C:=hashes) l ∪ n) ≤ length l + size n)%nat; [|unfold zlen in Hsz; lia].
    rewrite size_union_alt. pose proof (subseteq_size (n ∖ list_to_set l) n ltac:(set_solver)).
    rewrite size_list_to_set by done. lia. }
  pose proof (count_new_spec s1 l 0 ∅ (m_nullifier_accumulator s1) Hok Hl ltac:(set_solver)) as Hspec. fold n in Hspec. rewrite E0 in Hspec.
  destruct Hspec as (k & acc & -> & Hk & Hacc); [lia | done | done|]. simpl.
  assert (u64 (m_count s1 + k) = Z.of_nat (size (list_to_set l ∪ n))) as Eu by (rewrite Hc, Hk, u64_small; lia).
  unfold counted. simpl. fold n. rewrite Eu. split_and!; try done. intros c [= <-]. done.
Qed.

Lemma counted_remove n s l : counted n s → set_ok s → counted (if no_null l then n ∖ list_to_set l else n) (Remove true s l).2.
Proof.
  intros Hcn Hs. unfold Remove. rewrite no_null_spec. destruct (no_null l); simpl; [|done].
  destruct (counted_ensure n s Hcn) as [(Hn & Hs1 & Hc & Hd & _) Ha]. destruct (Ensure_ok s Hs) as [Hok _ _ _].
  set (s1 := EnsureNullifierAccumulatorLoaded s) in *. clearbody s1.
  subst n. set (n := db_nullifier (m_db s1)) in *. assert (n ∖ ∅ = n) as E0 by set_solver.
  assert (list_to_set l ∪ ∅ = list_to_set (C:=hashes) l) as E1 by set_solver.
  pose proof (count_removed_spec s1 l 0 ∅ (m_nullifier_accumulator s1) Hok) as Hspec. fold n in Hspec. rewrite E0, E1 in Hspec.
  destruct Hspec as (k & acc & -> & Hk & Hacc); [lia | done | done|]. simpl.
  pose proof (subseteq_size (n ∖ list_to_set l) n ltac:(set_solver)).
  unfold counted. simpl. fold n. rewrite Hc, u64_small by lia. split_and!; try done; try lia.
  intros c [= <-]. destruct (Z.ltb_spec (Z.of_nat (size n)) k); lia.
Qed.

(** The other operations leave the nullifiers, their counter and their
    accumulator alone; persisting the digest loads the accumulator. *)
Lemma counted_other op n s : counted n s → match op with OpInsert _ _ | OpRemove _ _ => False | _ => True end → counted n (set_run1 op s).2.
Proof.
  intros Hcn Hop. destruct op; try done; simpl.
  all: try (match goal with |- context [PersistNullifierAccumulator] =>
    unfold PersistNullifierAccumulator; destruct (counted_ensure n s Hcn) as [He _]; destruct written; simpl;
    [by apply (counted_db n _ _ He) | done] end).
  all: try (unfold Contains, ContainsSettlementAnchor, ContainsNettingManifest, ContainsRecoveryExitCommitment; destruct (contains _ _ _)).
  all: unfold AnyExist, InsertSettlementAnchorDigests, InsertSettlementAnchors, RemoveSettlementAnchors, GetNettingManifestState,
    InsertNettingManifests, RemoveNettingManifests, InsertRecoveryExitCommitments, RemoveRecoveryExitCommitments, WritePoolBalance,
    WriteUnshieldVelocity; repeat case_match; simpl; by apply (counted_db n _ _ Hcn).
Qed.

Lemma counted_op op n s : counted n s → set_ok s → tidy op → Z.of_nat (size n) + inserted op < 2 ^ 64 →
  counted (p_nullifiers (spec_run1 op (plain_of (m_db s))).2) (set_run1 op s).2.
Proof.
  intros Hcn Hs Ht Hi. pose proof (proj1 Hcn) as Hn.
  assert (match op with OpInsert _ _ | OpRemove _ _ => False | _ => True end → p_nullifiers (spec_run1 op (plain_of (m_db s))).2 = n) as Hsame.
  { intros Hop. rewrite <- Hn. destruct op; try done; simpl; unfold update; by case_match. }
  destruct op; simpl in Ht, Hi; try (rewrite Hsame by done; by apply counted_other).
  - destruct Ht as [-> Hnd]. pose proof (counted_insert n s l Hcn Hs Hnd Hi) as Hc. simpl. unfold update. rewrite andb_true_r.
    revert Hc. rewrite <- Hn. by destruct (no_null l).
  - subst written. pose proof (counted_remove n s l Hcn Hs) as Hc. simpl. unfold update. rewrite andb_true_r.
    revert Hc. rewrite <- Hn. by destruct (no_null l).
Qed.

Lemma size_after op p : Z.of_nat (size (p_nullifiers (spec_run1 op p).2)) ≤ Z.of_nat (size (p_nullifiers p)) + inserted op.
Proof.
  destruct p as [n a m r v e]. destruct op; simpl; unfold update; try (case_match; simpl; unfold zlen; lia); try (simpl; unfold zlen; lia).
  - case_match; simpl; unfold zlen; [|lia]. rewrite size_union_alt. pose proof (subseteq_size (n ∖ list_to_set l) n ltac:(set_solver)).
    assert (size (list_to_set (C:=hashes) l) ≤ length l)%nat; [|lia].
    clear. induction l as [|x l IH]; [done|]. rewrite list_to_set_cons. cbn [length]. rewrite size_union_alt, size_singleton.
    pose proof (subseteq_size (list_to_set l ∖ {[x]}) (list_to_set (C:=hashes) l) ltac:(set_solver)). lia.
  - case_match; simpl; [|lia]. pose proof (subseteq_size (n ∖ list_to_set l) n ltac:(set_solver)). lia.
Qed.

Lemma counted_run ops : ∀ n s p, counted n s → stores s p → Forall tidy ops → Z.of_nat (size n) + inserted_total ops < 2 ^ 64 →
  counted (p_nullifiers (spec_run ops p).2) (set_run ops s).2.
Proof.
  induction ops as [|op ops IH]; intros n s p Hcn Hs Ht Hi; simpl in *; [destruct Hs as (_ & _ & <-); simpl; by rewrite (proj1 Hcn)|].
  apply list.Forall_cons in Ht as [Ht1 Ht]. destruct (refine_op op s p Hs) as (s1 & E1 & Hs1).
  assert (0 ≤ inserted_total ops) as Hpos by (clear; induction ops as [|[] ops IH]; simpl; unfold inserted, zlen in *; lia).
  pose proof (counted_op op n s Hcn (proj1 Hs) Ht1 ltac:(lia)) as Hc1. pose proof (size_after op p) as Hsz.
  assert (p_nullifiers p = n) as Epn by (destruct Hs as (_ & _ & <-); apply Hcn).
  rewrite (proj2 (proj2 Hs)) in Hc1. rewrite E1 in Hc1 |- *. destruct (spec_run1 op p) as [a p1]. simpl in *.
  pose proof (IH _ s1 p1 Hc1 Hs1 Ht ltac:(rewrite Epn in Hsz; lia)) as Hend.
  destruct (set_run ops s1), (spec_run ops p1). done.
Qed.

(** In any history whose updates of the nullifiers reach the database and
    whose insertions do not repeat a nullifier, the counter is the number of
    nullifiers stored, the persisted counter too, and the digest is that of the
    stored set, whatever the order in which it was built. *)
Theorem nullifier_count_and_digest w d ops :
  db_ok d → (∀ c, db_count d = Some c → c = Z.of_nat (size (db_nullifier d))) → Forall tidy ops →
  Z.of_nat (size (db_nullifier d)) + inserted_total ops < 2 ^ 64 →
  let s := (set_run ops (set_new w d)).2 in
  let n := p_nullifiers (spec_run ops (plain_of d)).2 in
  CountNullifiers s = Z.of_nat (size n)
  ∧ (∀ c, db_count (m_db s) = Some c → c = Z.of_nat (size n))
  ∧ (NullifierAccumulatorDigest s).1 = mu_Finalize (acc_of (elements n)).
Proof.
  intros Hd Hc Ht Hi s n.
  assert (0 ≤ inserted_total ops) as Hpos by (clear; induction ops as [|[] ops IH]; simpl; unfold inserted, zlen in *; lia).
  assert (counted (db_nullifier d) (set_new w d)) as H0'.
  { unfold set_new, CountNullifiersSlow. destruct (db_count d) eqn:E; [|destruct w]; unfold counted; simpl; split_and!; try done; try lia.
    - by apply Hc.
    - rewrite E. intros c [= <-]. by apply Hc.
    - intros c [= <-]. lia.
    - rewrite E. intros c Hs. congruence. }
  pose proof (counted_run ops _ _ _ H0' (set_new_stores w d Hd) Ht Hi) as Hend. fold s n in Hend.
  destruct (counted_ensure n s Hend) as [_ Ha]. destruct Hend as (_ & _ & Hcnt & Hdb & _). split_and!; try done.
  unfold NullifierAccumulatorDigest. simpl. by rewrite Ha.
Qed.
End counting.

(** ** Error paths *)

(** A batch of insertions that fails to be written answers false and leaves the
    set as it was, but the accumulator already has the new nullifier. *)
Theorem failed_insert_leaves_accumulator s x :
  m_accumulator_loaded s = true → x ≠ null_hash → set_ok s → x ∉ db_nullifier (m_db s) →
  let r := Insert false s [x] in
  r.1 = false ∧ db_nullifier (m_db r.2) = db_nullifier (m_db s)
  ∧ m_nullifier_accumulator r.2 = mu_Insert x (m_nullifier_accumulator s).
Proof.
  intros Hl Hx [Hc _ _ _] Hs. unfold Insert, EnsureNullifierAccumulatorLoaded. simpl. rewrite Hl. simpl.
  unfold IsNull. rewrite bool_decide_eq_false_2 by done. simpl. rewrite CacheContains_spec.
  rewrite !bool_decide_eq_false_2 by (destruct Hc; set_solver). done.
Qed.

(** One call that repeats a new nullifier counts it twice. *)
Theorem repeated_insert_counts_twice s x :
  x ≠ null_hash → set_ok s → x ∉ db_nullifier (m_db s) →
  let r := Insert true s [x; x] in
  r.1 = true ∧ db_nullifier (m_db r.2) = {[x]} ∪ db_nullifier (m_db s) ∧ m_count r.2 = u64 (m_count s + 2).
Proof.
  intros Hx Hs Hn. unfold Insert. simpl. unfold IsNull. rewrite !bool_decide_eq_false_2 by done. simpl.
  pose proof (Ensure_db s) as Hd. destruct (Ensure_ok s Hs) as [Hc _ _ _].
  assert (m_count (EnsureNullifierAccumulatorLoaded s) = m_count s) as Hm
    by (unfold EnsureNullifierAccumulatorLoaded; by destruct (m_accumulator_loaded s)).
  rewrite !CacheContains_spec. rewrite Hd in *. set (s1 := EnsureNullifierAccumulatorLoaded s) in *. clearbody s1.
  rewrite (bool_decide_eq_false_2 (x ∈ db_nullifier (m_db s))), (bool_decide_eq_false_2 (x ∈ gen_set _)) by (destruct Hc; set_solver). simpl.
  rewrite (bool_decide_eq_false_2 (x ∈ (∅ : hashes))), (bool_decide_eq_true_2 (x ∈ {[x]} ∪ (∅ : hashes))) by set_solver. simpl.
  rewrite Hm. split; [done|]. split; [set_solver|]. by rewrite (u64_small (0 + 1)), (u64_small (0 + 1 + 1)) by lia.
Qed.

(** [GetNettingManifestState] notes an absentee after it has released the lock
    under which it looked, and does not look again: a manifest inserted in
    between is stored and yet reported absent from then on. *)
Theorem manifest_miss_can_be_stale s st :
  manifest_IsValid st = true → set_ok s →
  let s1 := (InsertNettingManifests true s [st]).2 in
  let s2 := set_manifests s1 (note_miss (manifests s1) (manifest_id st)) in
  db_manifest (m_db s2) !! manifest_id st = Some st ∧ (GetNettingManifestState s2 (manifest_id st)).1 = None.
Proof.
  intros Hv Hs. unfold InsertNettingManifests. simpl. rewrite Hv. simpl. split; [apply lookup_insert_eq|].
  unfold GetNettingManifestState. destruct (IsNull _); [done|]. simpl. unfold note_miss. simpl.
  destruct (CacheContains (gen_erase _ _) _) eqn:E; simpl; [by rewrite E|]. unfold RememberMissInCache. rewrite CacheContains_spec, gen_insert_set.
  by rewrite bool_decide_eq_true_2 by set_solver.
Qed.

End laws.
