(* ===== verification/NullifierRaces.v ===== *)
(** Look-ups in the nullifier database beside its writers.

    [NullifierSet] is read and written by several threads: a look-up visits the
    caches, the database and the caches again, and releases its lock in
    between. The steps of look-ups and writers interleave here in any order
    their locks allow. *)

From Stdlib Require Import ZArith Lia.
From stdpp Require Import base list numbers gmap fin_sets tactics.
From S2P Require Import Prelude BlockIndex Coins CoinsRun BlockUndo TxCheck Supply Nullifiers NullifierLaws.
Import coins tx_check supply nullifier_set.

Open Scope Z_scope.

(** ** Look-ups beside writers *)

(** A cached set shared by threads. A look-up reads the caches under the shared
    lock, the database under no lock, and notes an absentee under the unique
    lock. A writer holds the unique lock from its batch to its last change of
    the caches, but look-ups may read the database meanwhile. [held]: the
    writer's list, and whether it inserts; [settling]: the look-ups that found
    nothing, each with the number of times the cache of members has been
    rotated since. *)
Record shared := mkShared {
  cache : Cached;
  stored : hashes;
  held : option (bool * list uint256);
  probing : list uint256;
  settling : list (uint256 * nat)
}.

Definition rotates (c : Cached) (l : list uint256) : bool :=
  NULLIFIER_CACHE_MAX_ENTRIES <=? gen_size (default ∅ (current (hits c))) + zlen l.

Definition bump (b : bool) (l : list (uint256 * nat)) : list (uint256 * nat) := (λ p, (p.1, if b then S p.2 else p.2)) <$> l.

(** One step; some steps answer a look-up. *)
Inductive step : shared → option (uint256 * bool) → shared → Prop :=
| step_known c S p t x b : x ≠ null_hash → look c x = Some b → step (mkShared c S None p t) (Some (x, b)) (mkShared c S None p t)
| step_unknown c S p t x : x ≠ null_hash → look c x = None → step (mkShared c S None p t) None (mkShared c S None (x :: p) t)
| step_found c S h p1 p2 t x : x ∈ S → step (mkShared c S h (p1 ++ x :: p2) t) (Some (x, true)) (mkShared c S h (p1 ++ p2) t)
| step_absent c S h p1 p2 t x : x ∉ S → step (mkShared c S h (p1 ++ x :: p2) t) None (mkShared c S h (p1 ++ p2) ((x, O) :: t))
| step_settle c c' S p t1 t2 x r b : settle c x = (b, c') →
    step (mkShared c S None p (t1 ++ (x, r) :: t2)) (Some (x, b)) (mkShared c' S None p (t1 ++ t2))
| step_insert c S p t l : step (mkShared c S None p t) None (mkShared c (list_to_set l ∪ S) (Some (true, l)) p t)
| step_inserted c S p t l :
    step (mkShared c S (Some (true, l)) p t) None (mkShared (cache_inserted c l) S None p (bump (rotates c l) t))
| step_remove c S p t l : step (mkShared c S None p t) None (mkShared c (S ∖ list_to_set l) (Some (false, l)) p t)
| step_removed c S p t l : step (mkShared c S (Some (false, l)) p t) None (mkShared (cache_removed c l) S None p t).

(** No look-up is so slow that the cache of members is rotated twice (some two
    million insertions each) between its two visits to the caches. *)
Definition calm (w : shared) : Prop := Forall (λ p, (p.2 ≤ 1)%nat) (settling w).

Inductive reach : shared → shared → Prop :=
| reach_refl w : reach w w
| reach_step w w1 w2 a : reach w w1 → calm w1 → step w1 a w2 → reach w w2.

Definition current_set (c : Generations) : hashes := default ∅ (current c).

(** The caches as the unfinished writer, if any, will leave them. *)
Definition caches_ok (w : shared) : Prop :=
  match held w with
  | None => cached_ok (stored w) (cache w)
  | Some (true, l) =>
      list_to_set l ⊆ stored w ∧ gen_set (hits (cache w)) ⊆ stored w ∧ gen_set (misses (cache w)) ## stored w ∖ list_to_set l
  | Some (false, l) =>
      stored w ## list_to_set l ∧ gen_set (hits (cache w)) ⊆ stored w ∪ list_to_set l ∧ gen_set (misses (cache w)) ## stored w
  end.

(** A look-up about to note [x] absent: it is absent, or the member cache knows. *)
Definition pending_ok (w : shared) (x : uint256) (r : nat) : Prop :=
  x ∉ stored w ∨ (∃ l, held w = Some (true, l) ∧ x ∈ l)
  ∨ (r = 0%nat ∧ x ∈ current_set (hits (cache w))) ∨ (r = 1%nat ∧ x ∈ gen_set (hits (cache w))) ∨ (2 ≤ r)%nat.

Definition shared_ok (w : shared) : Prop := caches_ok w ∧ ∀ x r, (x, r) ∈ settling w → pending_ok w x r.

Lemma current_gen c x : x ∈ current_set c → x ∈ gen_set c.
Proof. unfold current_set, gen_set. set_solver. Qed.

(** After an insertion its members are in the current generation; what was there
    before is still in one of the two, and in the current one without a rotation. *)
Lemma cache_inserted_current c l x :
  (x ∈ l → x ∈ current_set (hits (cache_inserted c l)))
  ∧ (x ∈ current_set (hits c) → if rotates c l then x ∈ gen_set (hits (cache_inserted c l)) else x ∈ current_set (hits (cache_inserted c l)))
  ∧ (rotates c l = false → x ∈ gen_set (hits c) → x ∈ gen_set (hits (cache_inserted c l))).
Proof.
  unfold cache_inserted. set (c0 := mkCached (RotateCacheGeneration (hits c) (zlen l)) (misses c)).
  assert (∀ k d, let e := foldl (λ c x, mkCached (gen_insert x (hits c)) (gen_erase x (misses c))) d k in
    current_set (hits e) = list_to_set k ∪ current_set (hits d) ∧ gen_set (hits e) = list_to_set k ∪ gen_set (hits d)) as Hfold.
  { clear. induction k as [|y k IH]; intros d; simpl; [split; set_solver|].
    destruct (IH (mkCached (gen_insert y (hits d)) (gen_erase y (misses d)))) as [-> ->]. simpl. rewrite gen_insert_set.
    unfold current_set. simpl. split; set_solver. }
  destruct (Hfold l c0) as [-> ->]. clear Hfold. unfold c0, rotates, RotateCacheGeneration, current_set, gen_set. simpl.
  case_match; simpl; set_solver.
Qed.

Lemma cache_removed_current c l x : x ∉ l → x ∈ current_set (hits c) → x ∈ current_set (hits (cache_removed c l)).
Proof.
  unfold cache_removed. revert c. induction l as [|y l IH]; intros c Hx Hc; simpl; [done|]. apply IH; [set_solver|].
  assert (∀ d z, hits (note_miss d z) = hits d) as Hnm by (intros d z; unfold note_miss; by case_match).
  rewrite Hnm. simpl. unfold current_set, gen_erase in *. simpl. destruct (current (hits c)); simpl in *; set_solver.
Qed.

Lemma cache_removed_keeps c l x : x ∉ l → x ∈ gen_set (hits c) → x ∈ gen_set (hits (cache_removed c l)).
Proof.
  unfold cache_removed. revert c. induction l as [|y l IH]; intros c Hx Hc; simpl; [done|]. apply IH; [set_solver|].
  assert (∀ d z, hits (note_miss d z) = hits d) as Hnm by (intros d z; unfold note_miss; by case_match).
  rewrite Hnm. simpl. rewrite gen_erase_set. set_solver.
Qed.

Lemma inserted_caches (c : Cached) (S : hashes) (l : list uint256) : list_to_set l ⊆ S → gen_set (hits c) ⊆ S → gen_set (misses c) ## S ∖ list_to_set l →
  cached_ok S (cache_inserted c l).
Proof.
  intros Hl Hh Hm. replace S with (list_to_set l ∪ S ∖ list_to_set l) by (symmetry; by apply union_difference_L).
  apply cache_inserted_gen; [|done]. by rewrite <- union_difference_L.
Qed.

Lemma removed_caches (c : Cached) (S : hashes) (l : list uint256) : S ## list_to_set l → gen_set (hits c) ⊆ S ∪ list_to_set l → gen_set (misses c) ## S →
  cached_ok S (cache_removed c l).
Proof.
  intros Hl Hh Hm. assert ((S ∪ list_to_set l) ∖ list_to_set l = S) as E by set_solver.
  rewrite <- E. apply cache_removed_gen; [done|]. by rewrite E.
Qed.

Lemma look_ok (S : hashes) (c : Cached) (x : uint256) (b : bool) : cached_ok S c → look c x = Some b → b = bool_decide (x ∈ S).
Proof.
  intros [Hh Hm]. unfold look. rewrite !CacheContains_spec. repeat case_bool_decide; intros [= <-]; try done; set_solver.
Qed.

(** A look-up that found nothing settles with the truth. *)
Lemma settle_answers w x r : held w = None → caches_ok w → pending_ok w x r → (r ≤ 1)%nat →
  ∃ c', settle (cache w) x = (bool_decide (x ∈ stored w), c') ∧ cached_ok (stored w) c' ∧ hits c' = hits (cache w).
Proof.
  unfold caches_ok, pending_ok. intros -> Hc Hp Hr.
  assert (x ∈ gen_set (hits (cache w)) ∨ x ∉ stored w) as [Hin|Hout].
  { destruct Hp as [?|[(l & [=] & _)|[[_ Hx]|[[_ Hx]|?]]]]; [by right | left; by apply current_gen | by left | lia]. }
  - unfold settle. rewrite CacheContains_spec, !bool_decide_eq_true_2 by (destruct Hc; set_solver). by exists (cache w).
  - rewrite bool_decide_eq_false_2 by done. destruct (settle_ok _ _ x Hc Hout) as (c' & E & Hc'). exists c'. split_and!; try done.
    revert E. unfold settle, note_miss. repeat case_match; intros [= <-]; done.
Qed.

Lemma pending_caches w w' x r : stored w' = stored w → held w' = held w → hits (cache w') = hits (cache w) → pending_ok w x r → pending_ok w' x r.
Proof. unfold pending_ok. by intros -> -> ->. Qed.

Lemma pending_inserted c S p t l x r : pending_ok (mkShared c S (Some (true, l)) p t) x r →
  pending_ok (mkShared (cache_inserted c l) S None p (bump (rotates c l) t)) x (if rotates c l then Datatypes.S r else r).
Proof.
  unfold pending_ok. simpl. destruct (cache_inserted_current c l x) as (Hl & Hcur & Hgen).
  intros [?|[(l' & [= <-] & Hx)|[[-> Hx]|[[-> Hx]|?]]]].
  - by left.
  - apply Hl in Hx. right; right. destruct (rotates c l), r as [|[|r]]; try lia.
    + right; left. split; [done | by apply current_gen].
    + by left.
    + right; left. split; [done | by apply current_gen].
  - apply Hcur in Hx. right; right. destruct (rotates c l); [right; by left | by left].
  - right; right; right. destruct (rotates c l); [right; lia | left; auto].
  - right; right; right; right. destruct (rotates c l); lia.
Qed.

Lemma elem_mid {A} (l k : list A) x : x ∈ l ++ x :: k.
Proof. apply elem_of_app. right. left. Qed.

Lemma elem_rest {A} (l k : list A) x y : y ∈ l ++ k → y ∈ l ++ x :: k.
Proof. rewrite !elem_of_app. intros [?|?]; [by left | right; by right]. Qed.

Lemma insert_starts (c : Cached) (S : hashes) (l : list uint256) : cached_ok S c →
  list_to_set l ⊆ list_to_set l ∪ S ∧ gen_set (hits c) ⊆ list_to_set l ∪ S ∧ gen_set (misses c) ## (list_to_set l ∪ S) ∖ list_to_set l.
Proof. intros [Hh Hm]. split; [set_solver|]. split; set_solver. Qed.

Lemma remove_starts (c : Cached) (S : hashes) (l : list uint256) : cached_ok S c →
  S ∖ list_to_set l ## list_to_set l ∧ gen_set (hits c) ⊆ S ∖ list_to_set l ∪ list_to_set l ∧ gen_set (misses c) ## S ∖ list_to_set l.
Proof.
  intros [Hh Hm]. split; [set_solver|]. split; [|set_solver]. intros x Hx. destruct (decide (x ∈ (list_to_set l : hashes))); set_solver.
Qed.

Lemma shared_step_ok w a w' : shared_ok w → calm w → step w a w' →
  shared_ok w' ∧ match a with Some (x, b) => b = bool_decide (x ∈ stored w') | None => True end.
Proof.
  intros [Hc Hp] Hcalm Hstep. destruct Hstep; unfold caches_ok in Hc; simpl in *.
  - split; [done|]. by apply (look_ok _ c).
  - done.
  - split; [|by rewrite bool_decide_eq_true_2]. done.
  - split; [|done]. split; [done|]. intros y r [[= -> ->]|Hin]%elem_of_cons; [by left | by apply Hp].
  - assert ((r ≤ 1)%nat) as Hr by (unfold calm in Hcalm; simpl in Hcalm; rewrite list.Forall_forall in Hcalm; apply (Hcalm (x, r)); apply elem_mid).
    destruct (settle_answers (mkShared c S None p (t1 ++ (x, r) :: t2)) x r eq_refl Hc (Hp x r (elem_mid _ _ _)) Hr) as (d & Ed & Hd & Hh). simpl in *. rewrite H in Ed. injection Ed as -> ->.
    split; [|done]. split; [done|]. intros y r' Hin. eapply pending_caches; [| | | apply (Hp y r' (elem_rest _ _ _ _ Hin))]; done.
  - split; [|done]. split; [by apply insert_starts|].
    intros x r Hin. destruct (Hp x r Hin) as [Hx|[(l' & [=] & _)|Hx]]; unfold pending_ok; simpl in *; [|auto].
    destruct (decide (x ∈ l)); [right; left; eauto | left; clear Hp Hcalm; set_solver].
  - split; [|done]. destruct Hc as (Hl & Hh & Hm). split; [by apply inserted_caches|].
    intros x r Hin. unfold bump in Hin. simpl in Hin. apply list_elem_of_fmap in Hin as ([y r'] & [= -> ->] & Hin). simpl. by apply pending_inserted, Hp.
  - split; [|done]. split; [by apply remove_starts|].
    intros x r Hin. destruct (Hp x r Hin) as [Hx|[(l' & [=] & _)|Hx]]; unfold pending_ok; simpl in *; [left; clear Hp Hcalm; set_solver | auto].
  - split; [|done]. destruct Hc as (Hl & Hh & Hm). split; [by apply removed_caches|].
    intros x r Hin. destruct (Hp x r Hin) as [Hx|[(l' & [=] & _)|Hx]]; unfold pending_ok; simpl in *; [by left|].
    destruct (decide (x ∈ l)) as [Hxl|Hxl]; [left; clear Hp Hcalm; set_solver|].
    destruct Hx as [[-> Hx]|[[-> Hx]|?]]; [right; right; left | right; right; right; left | auto].
    + split; [done | by apply cache_removed_current].
    + split; [done | by apply cache_removed_keeps].
Qed.

Lemma reach_ok w w' : reach w w' → shared_ok w → shared_ok w'.
Proof. induction 1 as [w|w w1 w2 a Hr IH Hc Hs]; intros Hw; [done|]. by apply (shared_step_ok w1 a w2); [apply IH|..]. Qed.

(** C22: threads look up and update one cached set in any interleaving its
    locks allow, starting with empty caches over any stored set; no look-up is
    overtaken by two rotations of the cache of members. Then every look-up
    answers with the truth at the moment it answers, and whenever no writer is
    at work neither cache holds a wrong entry: an absentee is never noted over
    an insertion that happened between the two visits. *)
Theorem nullifier_lookups_are_atomic (S : hashes) w w' a :
  reach (mkShared cached_new S None [] []) w → calm w → step w a w' →
  match a with Some (x, b) => b = bool_decide (x ∈ stored w') | None => True end
  ∧ (held w' = None → cached_ok (stored w') (cache w')).
Proof.
  intros Hr Hcalm Hstep.
  assert (shared_ok w) as Hok.
  { apply (reach_ok _ _ Hr). split; [apply cached_new_ok | intros x r Hin; by apply not_elem_of_nil in Hin]. }
  destruct (shared_step_ok w a w' Hok Hcalm Hstep) as [[Hc _] Ha]. split; [done|]. intros Hh. unfold caches_ok in Hc. by rewrite Hh in Hc.
Qed.
