(* ===== verification/ConnectBlock.v ===== *)
(** A block on the chain state.

    The parts of [CheckBlock], [ConnectBlock] and [DisconnectBlock] of
    [validation.cpp] that move value and spend nullifiers: the coins, the fees,
    the reward, the pool, the limit on leaving it, and the database of
    nullifiers, in the order in which the code changes them. The other checks
    (scripts, proofs, anchors, the account registry, sizes) only reject; they
    are the fields of [BlockRules], and every theorem holds for all of them.
    The commitment tree, the registry and the settlement state, which the same
    functions update, are not part of this state. *)

From Stdlib Require Import ZArith Lia String.
From stdpp Require Import base list numbers gmap fin_sets tactics.
From S2P Require Import Prelude BlockIndex Coins CoinsRun BlockUndo TxCheck Supply Nullifiers.
Import block_index coins block_undo tx_check supply nullifier_set.

Open Scope Z_scope.

Module connect_block.

(** [None]: no objection. [deferred_rules]: the checks that run in other
    threads and are collected after the last transaction. *)
Record BlockRules := mkRules {
  block_rules : list Transaction → option string;
  enforce_bip30 : bool;
  tx_gate : Transaction → option string;
  bundle_rules : Transaction → option string;
  exit_ids : CShieldedBundle → option (uint256 * uint256);
  exit_rules : Transaction → Z → option string;
  fee_rules : Transaction → Z → option string;
  script_rules : Transaction → option string;
  deferred_rules : list Transaction → option string;
  nLockTimeFlags : Z
}.

Inductive Verdict := Valid | Invalid (reason : string) | Error (reason : string).

Definition reject (o : option string) : Verdict := match o with Some reason => Invalid reason | None => Valid end.

(** ** Bundles *)
Definition IsRecoveryExitBundle (b : CShieldedBundle) : bool :=
  match v2_bundle b with
  | Some v2 => match payload v2 with RecoveryExitPayload _ => true | _ => false end
  | None => false
  end.

Definition CollectShieldedNullifiers (b : CShieldedBundle) : list uint256 :=
  match v2_bundle b with
  | Some v2 =>
      match payload v2 with
      | SendPayload spends _ _ | SpendPathRecoveryPayload spends _ _ | IngressBatchPayload spends _ _ => spends
      | _ => []
      end
  | None => nullifier <$> shielded_inputs b
  end.

Definition BlockHasShieldedBundle (vtx : list Transaction) : bool := existsb HasShieldedBundle vtx.

(** ** The block so far *)
Section block.
Context `{MuHash} `{ShieldedFormats Transaction} (R : BlockRules) (P : SupplyParams).

Record BlockState := mkBlockState {
  view : CCoinsViewCache;
  base_view : CCoinsView;
  spent : NullifierSet;
  block_nullifiers : hashes;
  block_nullifier_vec : list uint256;
  block_recovery_exit_commitments : list uint256;
  next_pool_balance : Z;
  nFees : Z;
  vtxundo : list (list Coin)
}.

Definition set_view (st : BlockState) (c : CCoinsViewCache) (base : CCoinsView) : BlockState :=
  mkBlockState c base (spent st) (block_nullifiers st) (block_nullifier_vec st) (block_recovery_exit_commitments st)
    (next_pool_balance st) (nFees st) (vtxundo st).
Definition set_spent (st : BlockState) (s : NullifierSet) : BlockState :=
  mkBlockState (view st) (base_view st) s (block_nullifiers st) (block_nullifier_vec st) (block_recovery_exit_commitments st)
    (next_pool_balance st) (nFees st) (vtxundo st).
Definition set_seen (st : BlockState) (seen : hashes) : BlockState :=
  mkBlockState (view st) (base_view st) (spent st) seen (block_nullifier_vec st) (block_recovery_exit_commitments st)
    (next_pool_balance st) (nFees st) (vtxundo st).
Definition set_vec (st : BlockState) (vec : list uint256) : BlockState :=
  mkBlockState (view st) (base_view st) (spent st) (block_nullifiers st) vec (block_recovery_exit_commitments st)
    (next_pool_balance st) (nFees st) (vtxundo st).
Definition set_exits (st : BlockState) (exits : list uint256) : BlockState :=
  mkBlockState (view st) (base_view st) (spent st) (block_nullifiers st) (block_nullifier_vec st) exits
    (next_pool_balance st) (nFees st) (vtxundo st).
Definition set_pool (st : BlockState) (pool : Z) : BlockState :=
  mkBlockState (view st) (base_view st) (spent st) (block_nullifiers st) (block_nullifier_vec st) (block_recovery_exit_commitments st)
    pool (nFees st) (vtxundo st).
Definition set_fees (st : BlockState) (fees : Z) : BlockState :=
  mkBlockState (view st) (base_view st) (spent st) (block_nullifiers st) (block_nullifier_vec st) (block_recovery_exit_commitments st)
    (next_pool_balance st) fees (vtxundo st).
Definition set_undo (st : BlockState) (undo : list (list Coin)) : BlockState :=
  mkBlockState (view st) (base_view st) (spent st) (block_nullifiers st) (block_nullifier_vec st) (block_recovery_exit_commitments st)
    (next_pool_balance st) (nFees st) undo.

(** The loop over a bundle's nullifiers. *)
Fixpoint spend_nullifiers (l : list uint256) (st : BlockState) : Verdict * BlockState :=
  match l with
  | [] => (Valid, st)
  | nf :: l =>
      if bool_decide (nf ∈ block_nullifiers st) then (Invalid "bad-shielded-nullifier-duplicate", st)
      else
        let st := set_seen st ({[nf]} ∪ block_nullifiers st) in
        let '(already, s) := Contains (spent st) nf in
        let st := set_spent st s in
        if (already : bool) then (Invalid "bad-shielded-nullifier-spent", st)
        else spend_nullifiers l (set_vec st (block_nullifier_vec st ++ [nf]))
  end.

(** A transparent claim of a stranded note. *)
Definition connect_exit (tx : Transaction) (st : BlockState) : Verdict * BlockState :=
  let b := shielded_bundle tx in
  if negb (IsRecoveryExitBundle b) then (Valid, st)
  else
    match exit_ids R b with
    | None => (Invalid "bad-shielded-recovery-exit-malformed", st)
    | Some (nf, cm) =>
        let '(already_spent, st) :=
          if bool_decide (nf ∈ block_nullifiers st) then (true, st)
          else let '(already, s) := Contains (spent st) nf in (already, set_spent st s) in
        if (already_spent : bool) then (Invalid "bad-recovery-exit-nullifier-spent", st)
        else
          let '(already_claimed, st) :=
            if bool_decide (cm ∈ block_recovery_exit_commitments st) then (true, st)
            else let '(already, s) := ContainsRecoveryExitCommitment (spent st) cm in (already, set_spent st s) in
          if (already_claimed : bool) then (Invalid "bad-recovery-exit-commitment-claimed", st)
          else
            match exit_rules R tx (next_pool_balance st) with
            | Some reason => (Invalid reason, st)
            | None =>
                if bool_decide (nf ∈ block_nullifiers st) then (Invalid "bad-shielded-nullifier-duplicate", st)
                else
                  let st := set_seen st ({[nf]} ∪ block_nullifiers st) in
                  let st := set_vec st (block_nullifier_vec st ++ [nf]) in
                  (Valid, set_exits st (block_recovery_exit_commitments st ++ [cm]))
            end
    end.

(** The turnstile. *)
Definition connect_value (tx : Transaction) (st : BlockState) : Verdict * BlockState :=
  match TryGetShieldedStateValueBalance (shielded_bundle tx) with
  | None => (Invalid "bad-shielded-value-balance", st)
  | Some value_balance =>
      match ApplyValueBalance (next_pool_balance st) value_balance with
      | None => (Invalid "shielded-pool-balance-negative", st)
      | Some pool => (Valid, set_pool st pool)
      end
  end.

Definition then_ (r : Verdict * BlockState) (k : BlockState → Verdict * BlockState) : Verdict * BlockState :=
  match r with (Valid, st) => k st | r => r end.

Definition connect_bundle (tx : Transaction) (st : BlockState) : Verdict * BlockState :=
  then_ (reject (bundle_rules R tx), st) (λ st,
  then_ (spend_nullifiers (CollectShieldedNullifiers (shielded_bundle tx)) st) (λ st,
  then_ (connect_exit tx st) (connect_value tx))).

(** The heights of the coins a transaction spends. *)
Definition prev_heights (ins : list CTxIn) (c : CCoinsViewCache) (base : CCoinsView) : result (list Z * CCoinsViewCache * CCoinsView) :=
  mfold (λ i '(heights, c, base),
    '(coin, c, base) ← AccessCoin c base (prevout i);
    Ok (heights ++ [coin_nHeight coin], c, base)) ins ([], c, base).

(** The transparent side: inputs, fee, relative lock times. *)
Definition connect_inputs (σ : BlockMap) (pindex : list Z) (nHeight : Z) (tx : Transaction) (st : BlockState) : result (Verdict * BlockState) :=
  '(fee, c, base) ← CheckTxInputs tx (view st) (base_view st) nHeight;
  let st := set_view st c base in
  match fee with
  | inl reason => Ok (Invalid reason, st)
  | inr txfee =>
      let st := set_fees st (nFees st + txfee) in
      if negb (MoneyRange (nFees st)) then Ok (Invalid "bad-txns-accumulated-fee-outofrange", st)
      else
        match fee_rules R tx txfee with
        | Some reason => Ok (Invalid reason, st)
        | None =>
            '(prevheights, c, base) ← prev_heights (t_vin tx) (view st) (base_view st);
            let st := set_view st c base in
            '(_, ok) ← SequenceLocks σ tx (nLockTimeFlags R) prevheights pindex;
            Ok (if (ok : bool) then Valid else Invalid "bad-txns-nonfinal", st)
        end
  end.

(** One transaction; [enforce]: the shielded state is checked and changed. *)
Definition connect_tx (σ : BlockMap) (pindex : list Z) (nHeight : Z) (enforce : bool) (i : nat) (tx : Transaction) (st : BlockState) :
    result (Verdict * BlockState) :=
  let r := then_ (if HasShieldedBundle tx then reject (tx_gate R tx) else Valid, st)
                 (λ st, if enforce && HasShieldedBundle tx then connect_bundle tx st else (Valid, st)) in
  match r with
  | (Valid, st) =>
      r ← (if IsCoinBase (core tx) then Ok (Valid, st) else connect_inputs σ pindex nHeight tx st);
      match then_ r (λ st, (reject (script_rules R tx), st)) with
      | (Valid, st) =>
          '(undo, c, base) ← UpdateCoins (core tx) (view st) (base_view st) nHeight;
          let st := set_view st c base in
          Ok (Valid, if (0 <? i)%nat then set_undo st (vtxundo st ++ [undo]) else st)
      | r => Ok r
      end
  | r => Ok r
  end.

Fixpoint connect_loop (σ : BlockMap) (pindex : list Z) (nHeight : Z) (enforce : bool) (i : nat) (vtx : list Transaction) (st : BlockState) :
    result (Verdict * BlockState) :=
  match vtx with
  | [] => Ok (Valid, st)
  | tx :: vtx =>
      r ← connect_tx σ pindex nHeight enforce i tx st;
      match r with (Valid, st) => connect_loop σ pindex nHeight enforce (S i) vtx st | r => Ok r end
  end.

(** Is an output of the block already a coin? The loop does not stop at one. *)
Definition bip30_clash (vtx : list Transaction) (c : CCoinsViewCache) (base : CCoinsView) : result (bool * CCoinsViewCache * CCoinsView) :=
  mfold (λ o '(clash, c, base), '(have, c, base) ← HaveCoin c base o; Ok ((clash : bool) || (have : bool), c, base))
        (concat ((λ tx, (outputs (core tx)).*1) <$> vtx)) (false, c, base).

(** What [CheckBlock] asks of the transactions. *)
Definition check_block_txs (vtx : list Transaction) : Verdict :=
  match vtx with
  | [] => Invalid "bad-blk-length"
  | cb :: rest =>
      if negb (IsCoinBase (core cb)) then Invalid "bad-cb-missing"
      else if existsb (λ tx, IsCoinBase (core tx)) rest then Invalid "bad-cb-multiple"
      else match list_find (λ tx, CheckTransaction tx ≠ None) vtx with
           | Some (_, tx) => reject (CheckTransaction tx)
           | None => Valid
           end
  end.

(** ** The chain state *)
Record ChainState := mkChainState {
  cs_view : CCoinsViewCache;
  cs_base : CCoinsView;
  cs_spent : NullifierSet;
  cs_pool : Z;
  cs_velocity : ShieldedUnshieldVelocity
}.

(** What an accepted block does to the shielded state: the nullifiers and the
    claimed exits are stored first, then the limit is checked, then the log
    and the balance are stored. [written k]: whether the [k]th write succeeds. *)
Definition commit_shielded (written : nat → bool) (nHeight : Z) (st : BlockState) (cs : ChainState) : Verdict * ChainState :=
  let with_spent s := mkChainState (view st) (base_view st) s (cs_pool cs) (cs_velocity cs) in
  let s := spent st in
  let '(ok, s) := if is_empty (block_nullifier_vec st) then (true, s) else Insert (written 0%nat) s (block_nullifier_vec st) in
  if negb ok then (Error "shielded-nullifier-db-write-failed", with_spent s)
  else
    let '(ok, s) := if is_empty (block_recovery_exit_commitments st) then (true, s)
                    else InsertRecoveryExitCommitments (written 1%nat) s (block_recovery_exit_commitments st) in
    if negb ok then (Error "shielded-recovery-exit-db-write-failed", with_spent s)
    else
      let velocity_active := IsShieldedUnshieldVelocityCapActive P nHeight in
      let next_velocity := if velocity_active then velocity_connect P nHeight (cs_pool cs) (next_pool_balance st) (cs_velocity cs)
                           else Some (cs_velocity cs) in
      match next_velocity with
      | None => (Invalid "shielded-unshield-velocity-exceeded", with_spent s)
      | Some log =>
          let '(ok, s) := if velocity_active then WriteUnshieldVelocity (written 2%nat) s log else (true, s) in
          if negb ok then (Error "shielded-velocity-db-write-failed", with_spent s)
          else
            let '(ok, s) := WritePoolBalance (written 3%nat) s (next_pool_balance st) in
            if negb ok then (Error "shielded-pool-db-write-failed", with_spent s)
            else (Valid, mkChainState (view st) (base_view st) s (next_pool_balance st) log)
      end.

Definition block_start (cs : ChainState) (c : CCoinsViewCache) (base : CCoinsView) : BlockState :=
  mkBlockState c base (cs_spent cs) ∅ [] [] (cs_pool cs) 0 [].

Definition set_tip (cs : ChainState) (hash : list Z) : ChainState :=
  mkChainState (SetBestBlock (cs_view cs) hash) (cs_base cs) (cs_spent cs) (cs_pool cs) (cs_velocity cs).

Definition best_block (cs : ChainState) : list Z * ChainState :=
  let '(hash, v) := GetBestBlock (ViewCache (cs_view cs) (cs_base cs)) in
  let '(c, base) := split_view v (cs_view cs) (cs_base cs) in
  (hash, mkChainState c base (cs_spent cs) (cs_pool cs) (cs_velocity cs)).

(** [pindex] and [pprev] name the block and its parent by their hashes; [nTx]:
    the number of transactions of the indexed blocks. The undo data of the block
    is returned. A refused block leaves the view and the database as they were
    at the refusal. *)
Definition connect_block (written : nat → bool) (σ : BlockMap) (nTx : list Z → Z) (fJustCheck apply_shielded_state : bool)
    (pindex : list Z) (nHeight : Z) (pprev : option (list Z)) (vtx : list Transaction) (cs : ChainState) :
    result (Verdict * list (list Coin) * ChainState) :=
  match check_block_txs vtx with
  | Valid =>
      match block_rules R vtx with
      | Some reason => Ok (Invalid reason, [], cs)
      | None =>
          let '(best, cs) := best_block cs in
          if negb (bool_decide (default null_hash pprev = best)) then Ok (Invalid "bad-view-bestblock", [], cs)
          else
            '(clash, c, base) ← (if enforce_bip30 R then bip30_clash vtx (cs_view cs) (cs_base cs) else Ok (false, cs_view cs, cs_base cs));
            let enforce := apply_shielded_state && (BlockHasShieldedBundle vtx || IsShieldedUnshieldVelocityCapActive P nHeight) in
            let st := block_start cs c base in
            '(v, st) ← (if (clash : bool) then Ok (Invalid "bad-txns-BIP30", st) else connect_loop σ pindex nHeight enforce 0 vtx st);
            subsidy ← GetBlockSubsidyForBlock σ nTx nHeight (zlen vtx) pprev P;
            let blockReward := nFees st + subsidy in
            cb ← vget vtx 0;
            paid ← GetValueOut cb;
            let v := match v with Valid => if blockReward <? paid then Invalid "bad-cb-amount" else Valid | v => v end in
            let v := match v with Valid => reject (deferred_rules R vtx) | v => v end in
            let unchanged := mkChainState (view st) (base_view st) (spent st) (cs_pool cs) (cs_velocity cs) in
            match v with
            | Valid =>
                let '(v, cs) := if enforce && negb fJustCheck then commit_shielded written nHeight st cs else (Valid, unchanged) in
                match v with
                | Valid => Ok (Valid, vtxundo st, if fJustCheck then cs else set_tip cs pindex)
                | v => Ok (v, [], cs)
                end
            | v => Ok (v, [], unchanged)
            end
      end
  | v => Ok (v, [], cs)
  end.

(** ** Disconnecting: the shielded side of a block that was connected *)
Record Rollback := mkRollback { rb_nullifiers : list uint256; rb_exits : list uint256; rolled_back_pool : Z }.

Definition rollback_tx (tx : Transaction) (r : Rollback) : option Rollback :=
  if negb (HasShieldedBundle tx) then Some r
  else
    let b := shielded_bundle tx in
    let nfs := rb_nullifiers r ++ CollectShieldedNullifiers b in
    ids ← (if IsRecoveryExitBundle b then '(nf, cm) ← exit_ids R b; Some (nfs ++ [nf], rb_exits r ++ [cm]) else Some (nfs, rb_exits r));
    value_balance ← TryGetShieldedStateValueBalance b;
    pool ← UndoValueBalance (rolled_back_pool r) value_balance;
    Some (mkRollback ids.1 ids.2 pool).

Definition rollback_block (vtx : list Transaction) (pool : Z) : option Rollback :=
  foldl (λ r tx, r ← r; rollback_tx tx r) (Some (mkRollback [] [] pool)) vtx.

(** [false]: the block cannot be disconnected. *)
Definition disconnect_shielded (written : nat → bool) (nHeight : Z) (vtx : list Transaction) (cs : ChainState) : bool * ChainState :=
  if negb (BlockHasShieldedBundle vtx || IsShieldedUnshieldVelocityCapActive P nHeight) then (true, cs)
  else
    match rollback_block vtx (cs_pool cs) with
    | None => (false, cs)
    | Some r =>
        let with_spent s := mkChainState (cs_view cs) (cs_base cs) s (cs_pool cs) (cs_velocity cs) in
        let s := cs_spent cs in
        let '(ok, s) := if is_empty (rb_nullifiers r) then (true, s) else Remove (written 0%nat) s (rb_nullifiers r) in
        if negb ok then (false, with_spent s)
        else
          let '(ok, s) := if is_empty (rb_exits r) then (true, s) else RemoveRecoveryExitCommitments (written 1%nat) s (rb_exits r) in
          if negb ok then (false, with_spent s)
          else
            let '(ok, s) := WritePoolBalance (written 2%nat) s (rolled_back_pool r) in
            if negb ok then (false, with_spent s)
            else
              let cs := mkChainState (cs_view cs) (cs_base cs) s (rolled_back_pool r) (cs_velocity cs) in
              if IsShieldedUnshieldVelocityCapActive P nHeight then
                let log := UndoBlock (cs_velocity cs) nHeight in
                let '(ok, s) := WriteUnshieldVelocity (written 3%nat) (cs_spent cs) log in
                if negb ok then (false, mkChainState (cs_view cs) (cs_base cs) s (cs_pool cs) (cs_velocity cs))
                else (true, mkChainState (cs_view cs) (cs_base cs) s (cs_pool cs) log)
              else (true, cs)
    end.

End block.
End connect_block.
