(* ===== verification/ConnectLaws.v ===== *)
(** What connecting a block preserves.

    No value is created but the subsidy; no nullifier is spent twice; and the
    shielded side of a connected block can be taken back. *)

From Stdlib Require Import ZArith Lia String.
From stdpp Require Import base list numbers gmap fin_sets tactics.
From S2P Require Import Prelude BlockIndex Coins CoinsRun BlockUndo TxCheck TxRules Supply Nullifiers NullifierLaws ConnectBlock.
Import block_index coins block_undo tx_check supply nullifier_set connect_block.

Open Scope Z_scope.

(** ** The value of a set of coins *)
Definition coin_value (s : ledger) (o : COutPoint) : Z := match unspent s o with Some k => nValue (out k) | None => 0 end.

Definition list_value (s : ledger) (os : list COutPoint) : Z := foldr (λ o t, coin_value s o + t) 0 os.

Definition total_value (X : gset COutPoint) (s : ledger) : Z := list_value s (elements X).

Lemma list_value_perm s l k : l ≡ₚ k → list_value s l = list_value s k.
Proof. unfold list_value. induction 1; simpl; lia. Qed.

Lemma list_value_ext s s' l : (∀ o, o ∈ l → unspent s o = unspent s' o) → list_value s l = list_value s' l.
Proof.
  induction l as [|o l IH]; intros Hl; [done|]. simpl. rewrite IH by (intros o' Ho'; apply Hl; by right).
  unfold coin_value. by rewrite (Hl o ltac:(left)).
Qed.

Lemma total_value_write X s o k : o ∈ X → total_value X (write1 s (o, k)) = total_value X s - coin_value s o + match k with Some k => nValue (out k) | None => 0 end.
Proof.
  intros Ho. unfold total_value. assert (X = {[o]} ∪ X ∖ {[o]}) as E by (apply union_difference_L; set_solver).
  assert (elements X ≡ₚ o :: elements (X ∖ {[o]})) as Ep by (rewrite E at 1; apply elements_union_singleton; set_solver).
  rewrite !(list_value_perm _ _ _ Ep). simpl. rewrite (list_value_ext (write1 s (o, k)) s).
  - unfold coin_value at 1. simpl. unfold put. rewrite decide_True by done. lia.
  - intros o' Ho'. simpl. unfold put. rewrite decide_False; [done|]. intros ->. apply elem_of_elements in Ho'. set_solver.
Qed.

Lemma total_value_spends X s os : NoDup os → (∀ o, o ∈ os → o ∈ X) →
  total_value X (apply_writes s (spends os)) = total_value X s - list_value s os.
Proof.
  revert s. induction os as [|o os IH]; intros s Hnd HX; simpl; [lia|]. apply list.NoDup_cons in Hnd as [Ho Hnd].
  unfold apply_writes in *. simpl. rewrite IH; [|done | intros o' Ho'; apply HX; by right].
  rewrite total_value_write by (apply HX; left). rewrite (list_value_ext (write1 s (o, None)) s).
  - lia.
  - intros o' Ho'. simpl. unfold put. rewrite decide_False; [done|]. by intros ->.
Qed.

Lemma total_value_adds X s l : NoDup l.*1 → (∀ p, p ∈ l → p.1 ∈ X ∧ unspent s p.1 = None) →
  total_value X (apply_writes s (adds l)) = total_value X s + foldr (λ p t, nValue (out p.2) + t) 0 l.
Proof.
  revert s. induction l as [|[o k] l IH]; intros s Hnd Hl; simpl; [unfold apply_writes; simpl; lia|]. simpl in Hnd. apply list.NoDup_cons in Hnd as [Ho Hnd].
  destruct (Hl (o, k) ltac:(left)) as [HoX Hos]. simpl in HoX, Hos. unfold apply_writes in *. simpl. rewrite IH; [|done|].
  - rewrite total_value_write by done. unfold coin_value. rewrite Hos. lia.
  - intros p Hp. destruct (Hl p ltac:(by right)) as [HX Hs]. split; [done|]. simpl. unfold put. rewrite decide_False; [done|].
    intros Heq. apply Ho. rewrite <- Heq. by apply list_elem_of_fmap_2.
Qed.

(** What a transaction makes spendable is at most what it pays. *)
Lemma created_value h tx : Forall (λ o, 0 ≤ nValue o) (vout tx) →
  foldr (λ p t, nValue (out p.2) + t) 0 (created h tx) ≤ out_total (vout tx).
Proof.
  intros Hpos. unfold created, created_of, outputs.
  assert (∀ (g : nat → CTxOut → COutPoint * CTxOut) l, (∀ i o, (g i o).2 = o) → Forall (λ o, 0 ≤ nValue o) l →
    foldr (λ p t, nValue (out p.2) + t) 0 ((λ p, (p.1, make_coin p.2 h (IsCoinBase tx))) <$> filter spendable (imap g l))
    ≤ out_total l) as Hgen; [|by apply Hgen].
  intros g l. revert g. induction l as [|o l IH]; intros g Hg Hl; [done|]. apply list.Forall_cons in Hl as [Ho Hl].
  rewrite imap_cons, filter_cons. specialize (IH (g ∘ S) ltac:(intros; apply Hg) Hl). unfold out_total in *.
  case_decide; [rewrite fmap_cons|]; cbn [foldr fst snd out make_coin]; rewrite ?Hg; lia.
Qed.

Definition outs_good (tx : Transaction) : Prop :=
  Forall (λ o, 0 ≤ nValue o) (t_vout tx) ∧ out_total (t_vout tx) ≤ MAX_MONEY ∧ zlen (t_vout tx) ≤ 2 ^ 32.

Lemma outs_good_ok tx : outs_good tx → outs_ok (core tx).
Proof. intros (Hp & _ & Hl). split; [|done]. eapply list.Forall_impl; [exact Hp|]. simpl. intros. lia. Qed.

(** The coin map loses the inputs and gains at most the outputs. *)
Lemma total_value_tx X h s tx :
  tx_outpoints (core tx) ⊆ X → outs_good tx → new_outputs s (core tx) →
  (IsCoinBase (core tx) = false → NoDup (prevout <$> t_vin tx)) →
  total_value X (apply_writes s (tx_writes h (core tx)))
  ≤ total_value X s - (if IsCoinBase (core tx) then 0 else list_value s (prevout <$> t_vin tx)) + out_total (t_vout tx).
Proof.
  intros HX Ho Hnew Hnd. unfold tx_writes. rewrite apply_writes_app.
  set (s1 := apply_writes s (if IsCoinBase (core tx) then [] else spends (vin (core tx)))).
  assert (new_outputs s1 (core tx)) as Hnew1.
  { unfold s1. destruct (IsCoinBase (core tx)); [done|]. by apply spends_new. }
  rewrite total_value_adds.
  - pose proof (created_value h (core tx) (proj1 Ho)) as Hc. simpl in Hc.
    assert (total_value X s1 = total_value X s - (if IsCoinBase (core tx) then 0 else list_value s (prevout <$> t_vin tx))); [|lia].
    unfold s1. destruct (IsCoinBase (core tx)); [unfold apply_writes; simpl; lia|].
    apply total_value_spends; [by apply Hnd | intros o Hin; by apply (tx_outpoints_in X (core tx))].
  - by apply created_NoDup, outs_good_ok.
  - intros p Hp. assert (p.1 ∈ (created h (core tx)).*1) as Hk by by apply list_elem_of_fmap_2. split.
    + apply created_sub in Hk. apply HX. unfold tx_outpoints. apply elem_of_list_to_set, elem_of_app. by right.
    + by apply (created_new h s1 (core tx)).
Qed.

(** ** The transparent side *)
Section inputs.
Context (w : option CCoinsViewDB) (X : gset COutPoint).

Lemma sum_inputs_good h ins : ∀ n s c base, good w X s c base → (∀ i, i ∈ ins → prevout i ∈ X) → in_range n →
  ∃ r c' b', sum_inputs h n ins c base = Ok (r, c', b') ∧ good w X s c' b'
  ∧ ∀ v, r = inr v → (∀ i, i ∈ ins → is_Some (unspent s (prevout i))) ∧ v = n + list_value s (prevout <$> ins) ∧ in_range v.
Proof.
  induction ins as [|i ins IH]; intros n s c base Hg HX Hn; cbn [sum_inputs].
  { exists (inr n), c, base. split; [done|]. split; [done|]. intros v [= <-]. split; [set_solver|]. simpl. split; [lia | done]. }
  destruct (access_good w X s c base Hg (prevout i) ltac:(apply HX; left)) as (k & (c1 & b1 & -> & Hg1) & Hk). rewrite bind_Ok.
  assert (∀ reason : string, ∃ r c' b', @Ok ((string + Z) * CCoinsViewCache * CCoinsView) (inl reason, c1, b1) = Ok (r, c', b') ∧ good w X s c' b'
    ∧ ∀ v : Z, r = inr v → (∀ i0, i0 ∈ i :: ins → is_Some (unspent s (prevout i0))) ∧ v = n + list_value s (prevout <$> i :: ins) ∧ in_range v) as Hfail.
  { intros reason. exists (inl reason), c1, b1. split_and!; [done | done|]. intros v [=]. }
  destruct (IsSpent k) eqn:Ek; [apply Hfail|]. destruct (_ && _); [apply Hfail|].
  destruct (MoneyRange (nValue (out k))) eqn:Em; cbn [negb]; [|apply Hfail]. apply MoneyRange_spec in Em.
  unfold in_range, MAX_MONEY, COIN in Em, Hn. rewrite CheckedAdd_small by lia.
  destruct (MoneyRange (n + nValue (out k))) eqn:Es; cbn [negb]; [|apply Hfail]. apply MoneyRange_spec in Es.
  destruct (IH (n + nValue (out k)) s c1 b1 Hg1 ltac:(intros j Hj; apply HX; by right) Es) as (r & c' & b' & E & Hg' & Hv).
  exists r, c', b'. split; [done|]. split; [done|]. intros v ->. destruct (Hv v eq_refl) as (Hall & -> & Hr). split_and!; [| |done].
  - intros j [->|Hj]%elem_of_cons; [rewrite <- Hk; eauto | by apply Hall].
  - assert (coin_value s (prevout i) = nValue (out k)) as Ec by (unfold coin_value; by rewrite <- Hk).
    rewrite fmap_cons. unfold list_value in *. simpl. lia.
Qed.

Lemma sum_outputs_total outs n v : sum_outputs n outs = Ok v → v = n + out_total outs.
Proof.
  revert n. induction outs as [|o outs IH]; intros n; cbn [sum_outputs out_total foldr]; [intros [= <-]; lia|].
  unfold throw_if. destruct (_ || _); [done|]. rewrite bind_Ok. intros E%IH. unfold out_total in E. lia.
Qed.

Lemma GetValueOut_total tx v : GetValueOut tx = Ok v → v = out_total (t_vout tx) ∧ in_range v.
Proof.
  unfold GetValueOut. destruct (sum_outputs 0 (t_vout tx)) as [x|] eqn:E; [|done]. rewrite bind_Ok. unfold assert_.
  destruct (MoneyRange x) eqn:Em; [|done]. rewrite bind_Ok. intros [= <-]. apply sum_outputs_total in E. apply MoneyRange_spec in Em. split; [lia | done].
Qed.

Definition tx_balance (tx : Transaction) : Z := if HasShieldedBundle tx then GetShieldedTxValueBalance (shielded_bundle tx) else 0.

(** An accepted fee is what the inputs and the pool give less what is paid. *)
Lemma CheckTxInputs_good h tx s c base fee c' b' : good w X s c base → (∀ i, i ∈ t_vin tx → prevout i ∈ X) →
  CheckTxInputs tx c base h = Ok (inr fee, c', b') →
  good w X s c' b' ∧ (∀ i, i ∈ t_vin tx → is_Some (unspent s (prevout i)))
  ∧ fee = list_value s (prevout <$> t_vin tx) + tx_balance tx - out_total (t_vout tx) ∧ in_range fee.
Proof.
  intros Hg HX. unfold CheckTxInputs.
  destruct (sum_inputs_good h (t_vin tx) 0 s c base Hg HX ltac:(unfold in_range, MAX_MONEY, COIN; lia)) as (r & c1 & b1 & -> & Hg1 & Hv).
  rewrite bind_Ok. destruct r as [reason|v]; [done|]. destruct (Hv v eq_refl) as (Hall & Ev & Hr). fold (tx_balance tx). cbv zeta.
  destruct (MoneyRangeSigned (tx_balance tx)) eqn:Es; cbn [negb]; [|done]. apply MoneyRangeSigned_spec in Es.
  unfold in_range, MAX_MONEY, COIN in Hr, Es. rewrite CheckedAdd_small by lia.
  destruct (MoneyRange (v + tx_balance tx)); cbn [negb]; [|done].
  destruct (GetValueOut tx) as [vo|] eqn:Eo; [|done]. rewrite bind_Ok. apply GetValueOut_total in Eo as [-> _].
  destruct (_ <? _); [done|]. destruct (MoneyRange (v + tx_balance tx - _)) eqn:Ef; cbn [negb]; [|done].
  intros [= <- <- <-]. apply MoneyRange_spec in Ef. split_and!; [done | done | lia | apply Ef..].
Qed.

Lemma prev_heights_good s c base ins : good w X s c base → (∀ i, i ∈ ins → prevout i ∈ X) →
  ∃ hs, returns w X s hs (prev_heights ins c base).
Proof.
  unfold prev_heights. intros Hg HX.
  assert (∀ acc, ∃ hs, returns w X s hs (mfold (λ i '(heights, c, base), '(coin, c, base) ← AccessCoin c base (prevout i);
    Ok (heights ++ [coin_nHeight coin], c, base)) ins (acc, c, base))) as Hgen; [|apply Hgen].
  revert c base Hg HX. induction ins as [|i ins IH]; intros c base Hg HX acc; cbn [mfold]; [exists acc, c, base; done|].
  destruct (access_good w X s c base Hg (prevout i) ltac:(apply HX; left)) as (k & (c1 & b1 & -> & Hg1) & _). rewrite !bind_Ok.
  apply IH; [done | intros j Hj; apply HX; by right].
Qed.

End inputs.

(** ** The shielded side *)
Section bundles.
Context `{MuHash} `{ShieldedFormats Transaction} (R : BlockRules).

Definition sane (s : NullifierSet) : Prop := set_ok s ∧ db_ok (m_db s).

Lemma sane_contains s x : sane s → ∃ s', Contains s x = (bool_decide (x ∈ db_nullifier (m_db s)), s') ∧ sane s' ∧ m_db s' = m_db s.
Proof.
  intros [Hs Hd]. destruct (contains_ok _ _ x (ok_nullifiers _ Hs) (null_nullifier _ Hd)) as (c & E & Hc).
  unfold Contains. rewrite E. eexists. split; [done|]. split; [|done]. split; [destruct Hs; by constructor | done].
Qed.

Lemma sane_contains_exit s x : sane s →
  ∃ s', ContainsRecoveryExitCommitment s x = (bool_decide (x ∈ db_recovery (m_db s)), s') ∧ sane s' ∧ m_db s' = m_db s.
Proof.
  intros [Hs Hd]. destruct (contains_ok _ _ x (ok_recoveries _ Hs) (null_recovery _ Hd)) as (c & E & Hc).
  unfold ContainsRecoveryExitCommitment. rewrite E. eexists. split; [done|]. split; [|done]. split; [destruct Hs; by constructor | done].
Qed.

(** What a transaction retires: nullifiers and claimed commitments. *)
Definition retired (tx : Transaction) : option (list uint256 * list uint256) :=
  let b := shielded_bundle tx in
  if IsRecoveryExitBundle b then '(nf, cm) ← exit_ids R b; Some (CollectShieldedNullifiers b ++ [nf], [cm])
  else Some (CollectShieldedNullifiers b, []).

(** [st'] is [st] after retiring [ids] and [cms], with the same database. *)
Definition advanced (st st' : BlockState) (ids cms : list uint256) (pool : Z) : Prop :=
  ∃ s, sane s ∧ m_db s = m_db (spent st) ∧
    st' = mkBlockState (view st) (base_view st) s (list_to_set ids ∪ block_nullifiers st) (block_nullifier_vec st ++ ids)
            (block_recovery_exit_commitments st ++ cms) pool (nFees st) (vtxundo st).

Definition fresh_ids (st : BlockState) (ids cms : list uint256) : Prop :=
  NoDup ids ∧ (∀ x, x ∈ ids → x ∉ block_nullifiers st ∧ x ∉ db_nullifier (m_db (spent st)))
  ∧ NoDup cms ∧ (∀ x, x ∈ cms → x ∉ block_recovery_exit_commitments st ∧ x ∉ db_recovery (m_db (spent st))).

Lemma advanced_refl st : sane (spent st) → advanced st st [] [] (next_pool_balance st).
Proof. intros Hs. exists (spent st). split; [done|]. split; [done|]. rewrite !app_nil_r. destruct st. simpl. f_equal. set_solver. Qed.

Lemma spend_nullifiers_valid l : ∀ st st', sane (spent st) → spend_nullifiers l st = (Valid, st') →
  advanced st st' l [] (next_pool_balance st) ∧ fresh_ids st l [].
Proof.
  induction l as [|x l IH]; intros st st' Hs; cbn [spend_nullifiers].
  { intros [= <-]. split; [by apply advanced_refl|]. split_and!; try constructor; set_solver. }
  case_bool_decide as Ex; [done|]. destruct (sane_contains (spent st) x Hs) as (s1 & E1 & Hs1 & Hd1). simpl. rewrite E1.
  case_bool_decide as Ed; [done|]. intros E. apply IH in E; [|done]. simpl in E.
  destruct E as [(s2 & Hs2 & Hd2 & ->) (Hnd & Hfresh & _)]. simpl in *. rewrite Hd1 in *. split.
  - exists s2. split; [done|]. split; [congruence|]. f_equal; [set_solver | by rewrite <- app_assoc].
  - split_and!; [|set_solver | constructor | set_solver]. apply list.NoDup_cons. split; [|done]. intros Hx%Hfresh. set_solver.
Qed.

Lemma connect_exit_valid tx st st' : sane (spent st) → connect_exit R tx st = (Valid, st') →
  if IsRecoveryExitBundle (shielded_bundle tx) then
    ∃ nf cm, exit_ids R (shielded_bundle tx) = Some (nf, cm) ∧ advanced st st' [nf] [cm] (next_pool_balance st) ∧ fresh_ids st [nf] [cm]
  else st' = st.
Proof.
  intros Hs. unfold connect_exit. destruct (IsRecoveryExitBundle _); cbn [negb]; [|by intros [= <-]].
  destruct (exit_ids R (shielded_bundle tx)) as [[nf cm]|]; [|done]. case_bool_decide as En; [done|].
  destruct (sane_contains (spent st) nf Hs) as (s1 & -> & Hs1 & Hd1). case_bool_decide as En2; [done|]. cbn [block_recovery_exit_commitments set_spent].
  case_bool_decide as Ec; [done|]. destruct (sane_contains_exit s1 cm Hs1) as (s2 & E2 & Hs2 & Hd2). simpl. rewrite E2. rewrite Hd1 in *.
  case_bool_decide as Ec2; [done|]. destruct (exit_rules R tx _); [done|]. case_bool_decide; [done|]. intros [= <-].
  exists nf, cm. split; [done|]. split.
  - exists s2. split; [done|]. split; [done|]. simpl. f_equal. by rewrite union_empty_r_L.
  - split; [apply list.NoDup_singleton|]. split; [intros x ->%list_elem_of_singleton; done|].
    split; [apply list.NoDup_singleton|]. intros x ->%list_elem_of_singleton. done.
Qed.

Lemma connect_bundle_valid tx st st' : sane (spent st) → in_range (next_pool_balance st) → connect_bundle R tx st = (Valid, st') →
  ∃ ids cms v, retired tx = Some (ids, cms) ∧ TryGetShieldedStateValueBalance (shielded_bundle tx) = Some v
    ∧ in_range (next_pool_balance st - v) ∧ - MAX_MONEY ≤ v ≤ MAX_MONEY
    ∧ advanced st st' ids cms (next_pool_balance st - v) ∧ fresh_ids st ids cms.
Proof.
  intros Hs Hp. unfold connect_bundle, then_. destruct (bundle_rules R tx); [done|]. cbn [reject].
  destruct (spend_nullifiers _ st) as [v1 st1] eqn:E1. destruct v1; try done.
  destruct (spend_nullifiers_valid _ st st1 Hs E1) as [(s1 & Hs1 & Hd1 & Est1) (Hnd & Hf & _)].
  destruct (connect_exit R tx st1) as [v2 st2] eqn:E2. destruct v2; try done.
  pose proof (connect_exit_valid tx st1 st2 ltac:(by rewrite Est1) E2) as Hexit.
  unfold connect_value. destruct (TryGetShieldedStateValueBalance _) as [v|]; [|done].
  destruct (ApplyValueBalance (next_pool_balance st2) v) as [p|] eqn:Ep; [|done]. intros [= <-].
  assert (next_pool_balance st2 = next_pool_balance st) as Epool.
  { destruct (IsRecoveryExitBundle _); [destruct Hexit as (? & ? & _ & (? & _ & _ & ->) & _)|subst st2]; simpl; by rewrite Est1. }
  apply ApplyValueBalance_spec in Ep as (-> & Hv & Hr); [|by rewrite Epool]. rewrite Epool in Hr |- *.
  unfold retired. destruct (IsRecoveryExitBundle (shielded_bundle tx)).
  - destruct Hexit as (nf & cm & -> & (s2 & Hs2 & Hd2 & ->) & (_ & Hf2 & _ & Hf3)). simpl.
    eexists _, _, v. split; [done|]. split; [done|]. split; [done|]. split; [done|]. rewrite Est1 in *. simpl in *. split.
    + exists s2. split; [done|]. split; [congruence|]. unfold set_pool. simpl. rewrite app_nil_r, app_assoc. f_equal.
      rewrite list_to_set_app_L. simpl. rewrite union_empty_r_L, (comm_L (∪) (list_to_set _) {[nf]}). by rewrite assoc_L by apply _.
    + rewrite Hd1, app_nil_r in *. destruct (Hf2 nf ltac:(left)) as [Hnf1 Hnf2]. clear Hf2.
      apply not_elem_of_union in Hnf1 as [Hnl Hns]. rewrite elem_of_list_to_set in Hnl.
      split; [|split; [|split; [apply list.NoDup_singleton | done]]].
      * apply list.NoDup_app. split_and!; [done | | apply list.NoDup_singleton]. intros x Hx ->%list_elem_of_singleton. done.
      * intros x [Hx| ->%list_elem_of_singleton]%elem_of_app; [by apply Hf | done].
  - subst st2. eexists _, _, v. split; [done|]. split; [done|]. split; [done|]. split; [done|]. rewrite Est1 in *. simpl in *. split.
    + exists s1. split; [done|]. split; [done|]. done.
    + split; [done|]. split; [done|]. split; [constructor|]. intros x Hx. by apply not_elem_of_nil in Hx.
Qed.

End bundles.

(** ** Transactions *)
Section transactions.
Context `{MuHash} `{ShieldedFormats Transaction} (R : BlockRules) (w : option CCoinsViewDB) (X : gset COutPoint).
Context (σ : BlockMap) (pindex : list Z) (h : Z).

Definition tx_retires (tx : Transaction) : option (list uint256 * list uint256) := if HasShieldedBundle tx then retired R tx else Some ([], []).

(** What a transaction takes out of the pool. *)
Definition state_balance (tx : Transaction) : Z :=
  if HasShieldedBundle tx then default 0 (TryGetShieldedStateValueBalance (shielded_bundle tx)) else 0.

(** What it gives to its transparent side without taking it from the pool: zero
    but for the batches that settle with other chains. *)
Definition bridged (tx : Transaction) : Z := tx_balance tx - state_balance tx.

(** The shielded side of the block so far. *)
Definition stepped (st st' : BlockState) (ids cms : list uint256) : Prop :=
  sane (spent st') ∧ m_db (spent st') = m_db (spent st) ∧ block_nullifiers st' = list_to_set ids ∪ block_nullifiers st
  ∧ block_nullifier_vec st' = block_nullifier_vec st ++ ids ∧ block_recovery_exit_commitments st' = block_recovery_exit_commitments st ++ cms.

Lemma shielded_part tx enforce st st1 : sane (spent st) → in_range (next_pool_balance st) → (enforce = true ∨ HasShieldedBundle tx = false) →
  then_ (if HasShieldedBundle tx then reject (tx_gate R tx) else Valid, st)
    (λ st, if enforce && HasShieldedBundle tx then connect_bundle R tx st else (Valid, st)) = (Valid, st1) →
  ∃ ids cms, tx_retires tx = Some (ids, cms) ∧ stepped st st1 ids cms ∧ fresh_ids st ids cms
    ∧ next_pool_balance st1 = next_pool_balance st - state_balance tx ∧ in_range (next_pool_balance st1)
    ∧ - MAX_MONEY ≤ state_balance tx ≤ MAX_MONEY
    ∧ (HasShieldedBundle tx = true → is_Some (TryGetShieldedStateValueBalance (shielded_bundle tx)))
    ∧ view st1 = view st ∧ base_view st1 = base_view st ∧ nFees st1 = nFees st ∧ vtxundo st1 = vtxundo st.
Proof.
  intros Hs Hp Hen. unfold then_, tx_retires, state_balance. destruct (HasShieldedBundle tx) eqn:Eb.
  - destruct Hen as [-> |?]; [|done]. destruct (reject (tx_gate R tx)); [|done..]. cbn [andb].
    intros (ids & cms & v & Er & Ev & Hr & Hv & (s1 & Hs1 & Hd1 & ->) & Hf)%connect_bundle_valid; [|done|done].
    exists ids, cms. rewrite Ev. simpl. split; [done|]. split; [done|]. split; [done|]. split_and!; try done; try apply Hr; try apply Hv.
  - rewrite andb_false_r. intros [= <-]. exists [], []. unfold MAX_MONEY, COIN.
    split; [done|]. split; [|split; [|split_and!; try done; try lia; try apply Hp]].
    + unfold stepped. rewrite !app_nil_r. simpl. rewrite union_empty_l_L. done.
    + split; [constructor|]. split; [intros x Hx; by apply not_elem_of_nil in Hx|]. split; [constructor|]. intros x Hx. by apply not_elem_of_nil in Hx.
Qed.

Lemma connect_inputs_valid tx s st st1 : good w X s (view st) (base_view st) → (∀ i, i ∈ t_vin tx → prevout i ∈ X) →
  connect_inputs R σ pindex h tx st = Ok (Valid, st1) →
  ∃ fee c b, st1 = set_view (set_fees st (nFees st + fee)) c b ∧ good w X s c b
    ∧ (∀ i, i ∈ t_vin tx → is_Some (unspent s (prevout i)))
    ∧ fee = list_value s (prevout <$> t_vin tx) + tx_balance tx - out_total (t_vout tx) ∧ 0 ≤ fee ∧ in_range (nFees st + fee).
Proof.
  intros Hg HX. unfold connect_inputs. destruct (CheckTxInputs tx (view st) (base_view st) h) as [[[[reason|fee] c1] b1]|e] eqn:E; [done| |done].
  destruct (CheckTxInputs_good w X h tx s _ _ fee c1 b1 Hg HX E) as (Hg1 & Hall & Efee & Hfee). rewrite bind_Ok. cbv zeta. cbn [nFees set_fees set_view].
  destruct (MoneyRange (nFees st + fee)) eqn:Em; cbn [negb]; [|done]. apply MoneyRange_spec in Em.
  destruct (fee_rules R tx fee); [done|]. cbn [view base_view set_view set_fees].
  destruct (prev_heights_good w X s c1 b1 (t_vin tx) Hg1 HX) as (hs & c2 & b2 & -> & Hg2). rewrite bind_Ok.
  destruct (SequenceLocks σ tx _ hs pindex) as [[hs' ok]|]; [|done]. rewrite bind_Ok. destruct ok; [|done]. intros [= <-].
  exists fee, c2, b2. split; [done|]. split_and!; [done | done | done | apply Hfee | apply Em..].
Qed.

Lemma connect_tx_valid enforce i tx s st st' :
  good w X s (view st) (base_view st) → sane (spent st) → in_range (next_pool_balance st) →
  outs_good tx → new_outputs s (core tx) → tx_outpoints (core tx) ⊆ X →
  (IsCoinBase (core tx) = false → NoDup (prevout <$> t_vin tx)) → (IsCoinBase (core tx) = true → HasShieldedBundle tx = false) →
  (enforce = true ∨ HasShieldedBundle tx = false) →
  connect_tx R σ pindex h enforce i tx st = Ok (Valid, st') →
  let s' := apply_writes s (tx_writes h (core tx)) in
  good w X s' (view st') (base_view st') ∧ tx_ok s (IsCoinBase (core tx)) (core tx)
  ∧ (∃ ids cms, tx_retires tx = Some (ids, cms) ∧ stepped st st' ids cms ∧ fresh_ids st ids cms)
  ∧ next_pool_balance st' = next_pool_balance st - state_balance tx ∧ in_range (next_pool_balance st')
  ∧ (HasShieldedBundle tx = true → is_Some (TryGetShieldedStateValueBalance (shielded_bundle tx)))
  ∧ (IsCoinBase (core tx) = true → nFees st' = nFees st)
  ∧ total_value X s' + next_pool_balance st' + nFees st'
    ≤ total_value X s + next_pool_balance st + nFees st + bridged tx + (if IsCoinBase (core tx) then out_total (t_vout tx) else 0).
Proof.
  intros Hg Hs Hp Ho Hnew HX Hnd Hcb Hen. unfold connect_tx. destruct (then_ _ _) as [v st1] eqn:E1. destruct v; [|done..].
  destruct (shielded_part tx enforce st st1 Hs Hp Hen E1) as (ids & cms & Er & Hst & Hfr & Ep & Hr & Hv & Hok & Ec & Eb & Ef & Eu).
  assert (∀ j, j ∈ t_vin tx → prevout j ∈ X) as HXi.
  { intros j Hj. apply (tx_outpoints_in X (core tx) _ HX). simpl. by apply list_elem_of_fmap_2. }
  pose proof (total_value_tx X h s tx HX Ho Hnew Hnd) as Hval.
  destruct (IsCoinBase (core tx)) eqn:Ecb.
  - rewrite bind_Ok. unfold then_. destruct (reject (script_rules R tx)); [|done..].
    assert (tx_ok s true (core tx)) as Htx by (split_and!; [done | by apply outs_good_ok | done | done]).
    destruct (UpdateCoins_good w X (core tx) h true s (view st1) (base_view st1) ltac:(by rewrite Ec, Eb) Htx HX) as (c' & b' & -> & Hg').
    rewrite bind_Ok. intros [= <-].
    assert (bridged tx = 0) as Ebr by (unfold bridged, tx_balance, state_balance; rewrite (Hcb eq_refl); lia).
    assert (state_balance tx = 0) as Esb by (unfold state_balance; by rewrite (Hcb eq_refl)).
    destruct (0 <? i)%nat; cbn [view base_view next_pool_balance nFees set_view set_undo]; (split; [done|]); (split; [done|]);
      (split; [exists ids, cms; done|]); (split; [done|]); (split; [done|]); (split; [done|]); (split; [done|]); lia.
  - destruct (connect_inputs R σ pindex h tx st1) as [[v2 st2]|] eqn:E2; [|done]. rewrite bind_Ok. unfold then_. destruct v2; [|done..].
    destruct (connect_inputs_valid tx s st1 st2 ltac:(by rewrite Ec, Eb) HXi E2) as (fee & c2 & b2 & -> & Hg2 & Hall & Efee & Hfee & Hfr2).
    destruct (reject (script_rules R tx)); [|done..].
    assert (tx_ok s false (core tx)) as Htx.
    { split; [done|]. split; [by apply outs_good_ok|]. split; [done|]. intros _. split; [by apply Hnd|].
      simpl. intros o (j & -> & Hj)%list_elem_of_fmap. by apply Hall. }
    destruct (UpdateCoins_good w X (core tx) h false s c2 b2 Hg2 Htx HX) as (c' & b' & E3 & Hg').
    cbn [view base_view set_view]. rewrite E3, bind_Ok. intros [= <-].
    assert (bridged tx = tx_balance tx - state_balance tx) as Ebr by done.
    destruct (0 <? i)%nat; cbn [view base_view next_pool_balance nFees set_view set_undo set_fees]; (split; [done|]); (split; [done|]);
      (split; [exists ids, cms; done|]); (split; [done|]); (split; [done|]); (split; [done|]); (split; [done|]); lia.
Qed.

(** ** Loops *)
Fixpoint retires (vtx : list Transaction) : option (list uint256 * list uint256) :=
  match vtx with
  | [] => Some ([], [])
  | tx :: vtx => '(ids, cms) ← tx_retires tx; '(ids', cms') ← retires vtx; Some (ids ++ ids', cms ++ cms')
  end.

Definition sum_over (f : Transaction → Z) (vtx : list Transaction) : Z := foldr (λ tx t, f tx + t) 0 vtx.

(** Every output is new when its transaction is reached. *)
Fixpoint all_new (s : ledger) (vtx : list Transaction) : Prop :=
  match vtx with
  | [] => True
  | tx :: vtx => new_outputs s (core tx) ∧ all_new (apply_writes s (tx_writes h (core tx))) vtx
  end.

Record tx_fits (enforce : bool) (tx : Transaction) : Prop := mkFits {
  fit_outs : outs_good tx;
  fit_X : tx_outpoints (core tx) ⊆ X;
  fit_ins : IsCoinBase (core tx) = false → NoDup (prevout <$> t_vin tx);
  fit_cb : IsCoinBase (core tx) = true → HasShieldedBundle tx = false;
  fit_enforce : enforce = true ∨ HasShieldedBundle tx = false;
}.

Lemma stepped_trans st st1 st2 ids cms ids' cms' : stepped st st1 ids cms → stepped st1 st2 ids' cms' → stepped st st2 (ids ++ ids') (cms ++ cms').
Proof.
  intros (_ & Hd1 & Hn1 & Hv1 & He1) (Hs2 & Hd2 & Hn2 & Hv2 & He2). unfold stepped. rewrite Hd2, Hn2, Hv2, He2, Hd1, Hn1, Hv1, He1.
  split_and!; [done | done | | by rewrite app_assoc | by rewrite app_assoc].
  rewrite list_to_set_app_L, assoc_L by apply _. by rewrite (comm_L (∪) (list_to_set ids') (list_to_set ids)).
Qed.

Lemma fresh_trans st st1 ids cms ids' cms' : stepped st st1 ids cms → fresh_ids st ids cms → fresh_ids st1 ids' cms' →
  fresh_ids st (ids ++ ids') (cms ++ cms').
Proof.
  intros (_ & Hd & Hn & _ & He) (Hnd & Hf & Hcnd & Hcf) (Hnd' & Hf' & Hcnd' & Hcf'). rewrite Hd, Hn in Hf'. rewrite Hd, He in Hcf'.
  assert (∀ x, x ∈ ids' → x ∉ ids ∧ x ∉ block_nullifiers st ∧ x ∉ db_nullifier (m_db (spent st))) as Hids.
  { intros x Hx. destruct (Hf' x Hx) as [Hu Hdb]. apply not_elem_of_union in Hu as [Hl Hb]. by rewrite elem_of_list_to_set in Hl. }
  assert (∀ x, x ∈ cms' → x ∉ cms ∧ x ∉ block_recovery_exit_commitments st ∧ x ∉ db_recovery (m_db (spent st))) as Hcms.
  { intros x Hx. destruct (Hcf' x Hx) as [Hu Hdb]. by apply not_elem_of_app in Hu as [Hl Hb]. }
  split; [|split; [|split]].
  - apply list.NoDup_app. split; [done|]. split; [|done]. intros x Hx Hx'. by destruct (Hids x Hx') as [? _].
  - intros x [Hx|Hx]%elem_of_app; [by apply Hf | by apply Hids].
  - apply list.NoDup_app. split; [done|]. split; [|done]. intros x Hx Hx'. by destruct (Hcms x Hx') as [? _].
  - intros x [Hx|Hx]%elem_of_app; [by apply Hcf | by apply Hcms].
Qed.

Lemma connect_loop_valid enforce vtx : ∀ i s st st',
  good w X s (view st) (base_view st) → sane (spent st) → in_range (next_pool_balance st) →
  Forall (tx_fits enforce) vtx → all_new s vtx →
  connect_loop R σ pindex h enforce i vtx st = Ok (Valid, st') →
  let s' := apply_writes s (block_writes h (core <$> vtx)) in
  good w X s' (view st') (base_view st')
  ∧ (∃ ids cms, retires vtx = Some (ids, cms) ∧ stepped st st' ids cms ∧ fresh_ids st ids cms)
  ∧ next_pool_balance st' = next_pool_balance st - sum_over state_balance vtx ∧ in_range (next_pool_balance st')
  ∧ Forall (λ tx, HasShieldedBundle tx = true → is_Some (TryGetShieldedStateValueBalance (shielded_bundle tx))) vtx
  ∧ total_value X s' + next_pool_balance st' + nFees st'
    ≤ total_value X s + next_pool_balance st + nFees st + sum_over bridged vtx
      + sum_over (λ tx, if IsCoinBase (core tx) then out_total (t_vout tx) else 0) vtx.
Proof.
  induction vtx as [|tx vtx IH]; intros i s st st' Hg Hs Hp Hfit Hnew; cbn [connect_loop].
  { intros [= <-]. simpl. split; [done|]. split.
    - exists [], []. split; [done|]. split.
      + unfold stepped. rewrite !app_nil_r. simpl. by rewrite union_empty_l_L.
      + split; [constructor|]. split; [intros x Hx; by apply not_elem_of_nil in Hx|]. split; [constructor|]. intros x Hx. by apply not_elem_of_nil in Hx.
    - split_and!; [lia | done | constructor | unfold apply_writes; simpl; lia]. }
  apply list.Forall_cons in Hfit as [[Ho HX Hi Hcb Hen] Hfit]. destruct Hnew as [Hn Hnew].
  destruct (connect_tx R σ pindex h enforce i tx st) as [[v st1]|] eqn:E1; [|done]. rewrite bind_Ok. destruct v; [|done..]. intros E2.
  destruct (connect_tx_valid enforce i tx s st st1 Hg Hs Hp Ho Hn HX Hi Hcb Hen E1)
    as (Hg1 & _ & (ids & cms & Er & Hst & Hfr) & Ep & Hr & Hok & _ & Hval).
  destruct (IH (S i) _ st1 st' Hg1 (proj1 Hst) Hr Hfit Hnew E2) as (Hg2 & (ids' & cms' & Er' & Hst' & Hfr') & Ep' & Hr' & Hok' & Hval').
  assert (apply_writes s (block_writes h (core <$> tx :: vtx)) = apply_writes (apply_writes s (tx_writes h (core tx))) (block_writes h (core <$> vtx))) as Es
    by (unfold block_writes; simpl; apply apply_writes_app).
  cbv zeta. rewrite Es. split; [done|]. split.
  - exists (ids ++ ids'), (cms ++ cms'). cbn [retires]. rewrite Er. simpl. rewrite Er'. split; [done|].
    split; [by apply (stepped_trans st st1) | by apply (fresh_trans st st1)].
  - unfold sum_over in *. simpl. split; [lia|]. split; [done|]. split; [by apply list.Forall_cons|]. lia.
Qed.

Lemma all_new_absent vtx : ∀ s, NoDup (txid <$> vtx) → (∀ tx p, tx ∈ vtx → p ∈ outputs (core tx) → unspent s p.1 = None) → all_new s vtx.
Proof.
  induction vtx as [|tx vtx IH]; intros s Hnd Habs; [done|]. simpl in Hnd. apply list.NoDup_cons in Hnd as [Hid Hnd]. split.
  { intros p Hp _. apply (Habs tx); [left | done]. }
  apply IH; [done|]. intros tx' p Htx' Hp. unfold tx_writes. rewrite apply_writes_app, apply_other.
  - destruct (IsCoinBase (core tx)); [apply (Habs tx'); [by right | done]|]. rewrite apply_spends. case_decide; [done|]. apply (Habs tx'); [by right | done].
  - rewrite adds_keys. intros Hin%created_sub. apply Hid. unfold outputs in *.
    apply elem_of_lookup_imap in Hp as (j & o & -> & _). simpl in Hin. apply list_elem_of_fmap in Hin as (q & Eq & Hq).
    apply elem_of_lookup_imap in Hq as (k & o' & -> & _). simpl in Eq. injection Eq as Eq _. apply list_elem_of_fmap. by exists tx'.
Qed.

Lemma bip30_clash_good vtx s c base : good w X s c base → (∀ tx, tx ∈ vtx → tx_outpoints (core tx) ⊆ X) →
  ∃ clash, returns w X s clash (bip30_clash vtx c base)
  ∧ (clash = false → ∀ tx p, tx ∈ vtx → p ∈ outputs (core tx) → unspent s p.1 = None).
Proof.
  intros Hg HX. unfold bip30_clash.
  assert (∀ os acc c base, good w X s c base → (∀ o, o ∈ os → o ∈ X) → ∃ clash, returns w X s clash
    (mfold (λ o '(clash, c, base), '(have, c, base) ← HaveCoin c base o; Ok ((clash : bool) || (have : bool), c, base)) os (acc, c, base))
    ∧ (clash = false → acc = false ∧ ∀ o, o ∈ os → unspent s o = None)) as Hgen.
  { clear. induction os as [|o os IH]; intros acc c base Hg HX; cbn [mfold].
    - exists acc. split; [by exists c, base|]. intros ->. split; [done|]. intros o Ho. by apply not_elem_of_nil in Ho.
    - destruct (have_good w X s c base Hg o ltac:(apply HX; left)) as (c1 & b1 & -> & Hg1). rewrite !bind_Ok.
      destruct (IH (acc || bool_decide (is_Some (unspent s o))) c1 b1 Hg1 ltac:(intros o' Ho'; apply HX; by right)) as (clash & Hr & Hc).
      exists clash. split; [done|]. intros Hf. destruct (Hc Hf) as [Ha Hos]. apply orb_false_iff in Ha as [-> Hb]. split; [done|].
      intros o' [->|Ho']%elem_of_cons; [|by apply Hos]. apply bool_decide_eq_false in Hb. by apply eq_None_not_Some. }
  destruct (Hgen (concat ((λ tx, (outputs (core tx)).*1) <$> vtx)) false c base Hg) as (clash & Hr & Hc).
  { intros o Ho. apply list_elem_of_In, in_concat in Ho as (l & Hl%list_elem_of_In & Hin%list_elem_of_In).
    apply list_elem_of_fmap in Hl as (tx & -> & Htx). apply (HX tx Htx). unfold tx_outpoints. apply elem_of_list_to_set, elem_of_app. by right. }
  exists clash. split; [done|]. intros Hf tx p Htx Hp. apply (proj2 (Hc Hf)). apply list_elem_of_In, in_concat. exists ((outputs (core tx)).*1).
  split; apply list_elem_of_In; [apply list_elem_of_fmap; by exists tx | by apply list_elem_of_fmap_2].
Qed.

End transactions.
