(* ===== verification/BlockClaims.v ===== *)
(** Blocks and chains of blocks.

    What one accepted block does to the coins, the pool and the nullifiers, and
    what follows for a chain from an empty state. *)

From Stdlib Require Import ZArith Lia String.
From stdpp Require Import base list numbers gmap fin_sets tactics.
From S2P Require Import Prelude BlockIndex Coins CoinsRun BlockUndo TxCheck TxRules Supply Nullifiers NullifierLaws ConnectBlock ConnectLaws.
Import block_index coins block_undo tx_check supply nullifier_set connect_block.

Open Scope Z_scope.

Section claims.
Context `{MuHash} `{ShieldedFormats Transaction}.

(** ** The database after an accepted block *)
Lemma run_plain op s a s' : sane s → set_run1 op s = (a, s') → sane s' ∧ (a, plain_of (m_db s')) = spec_run1 op (plain_of (m_db s)).
Proof.
  intros [Hs Hd] E. destruct (refine_op op s _ (conj Hs (conj Hd eq_refl))) as (s1 & E1 & Hs1 & Hd1 & Hp1). rewrite E in E1.
  injection E1 as -> ->. split; [done|]. rewrite Hp1. symmetry. apply surjective_pairing.
Qed.

Definition plain_eq (s : NullifierSet) (n r : hashes) : Prop := db_nullifier (m_db s) = n ∧ db_recovery (m_db s) = r.

Lemma insert_true b s l s' : sane s → (if is_empty l then (true, s) else Insert b s l) = (true, s') →
  sane s' ∧ plain_eq s' (list_to_set l ∪ db_nullifier (m_db s)) (db_recovery (m_db s)).
Proof.
  intros Hs. destruct l as [|x l]; cbn [is_empty].
  { intros [= <-]. split; [done|]. split; [|done]. simpl. by rewrite union_empty_l_L. }
  intros E. destruct (run_plain (OpInsert b (x :: l)) s (AnsBool true) s' Hs) as [Hs' Hp]; [unfold set_run1, bool_op; by rewrite E|].
  split; [done|]. simpl in Hp. unfold update in Hp. destruct (_ && b); [|done]. injection Hp as Hn Ha Hm Hr Hv He. done.
Qed.

Lemma insert_exits_true b s l s' : sane s → (if is_empty l then (true, s) else InsertRecoveryExitCommitments b s l) = (true, s') →
  sane s' ∧ plain_eq s' (db_nullifier (m_db s)) (list_to_set l ∪ db_recovery (m_db s)).
Proof.
  intros Hs. destruct l as [|x l]; cbn [is_empty].
  { intros [= <-]. split; [done|]. split; [done|]. simpl. by rewrite union_empty_l_L. }
  intros E. destruct (run_plain (OpInsertRecoveries b (x :: l)) s (AnsBool true) s' Hs) as [Hs' Hp]; [unfold set_run1, bool_op; by rewrite E|].
  split; [done|]. simpl in Hp. unfold update in Hp. destruct (_ && b); [|done]. injection Hp as Hn Ha Hm Hr Hv He. done.
Qed.

Lemma write_true b s v s' : sane s → WriteUnshieldVelocity b s v = (true, s') →
  sane s' ∧ plain_eq s' (db_nullifier (m_db s)) (db_recovery (m_db s)).
Proof.
  intros Hs E. destruct (run_plain (OpWriteVelocity b v) s (AnsBool true) s' Hs) as [Hs' Hp]; [unfold set_run1, bool_op; by rewrite E|].
  split; [done|]. simpl in Hp. unfold update in Hp. destruct b; [|done]. injection Hp as Hn Ha Hm Hr Hv He. done.
Qed.

Lemma write_pool_true b s v s' : sane s → WritePoolBalance b s v = (true, s') →
  sane s' ∧ plain_eq s' (db_nullifier (m_db s)) (db_recovery (m_db s)).
Proof.
  intros Hs E. destruct (run_plain (OpWritePool b v) s (AnsBool true) s' Hs) as [Hs' Hp]; [unfold set_run1, bool_op; by rewrite E|].
  split; [done|]. simpl in Hp. unfold update in Hp. destruct (_ && b); [|done]. injection Hp as Hn Ha Hm Hr Hv He. done.
Qed.

Section one.
Context (R : BlockRules) (P : SupplyParams).

Lemma commit_shielded_valid written h st cs cs' : sane (spent st) → commit_shielded P written h st cs = (Valid, cs') →
  sane (cs_spent cs') ∧ cs_view cs' = view st ∧ cs_base cs' = base_view st ∧ cs_pool cs' = next_pool_balance st
  ∧ plain_eq (cs_spent cs') (list_to_set (block_nullifier_vec st) ∪ db_nullifier (m_db (spent st)))
      (list_to_set (block_recovery_exit_commitments st) ∪ db_recovery (m_db (spent st)))
  ∧ (if IsShieldedUnshieldVelocityCapActive P h then velocity_connect P h (cs_pool cs) (next_pool_balance st) (cs_velocity cs)
     else Some (cs_velocity cs)) = Some (cs_velocity cs').
Proof.
  intros Hs. unfold commit_shielded. destruct (if is_empty (block_nullifier_vec st) then _ else _) as [[] s1] eqn:E1; [|done]. cbn [negb].
  destruct (insert_true _ _ _ _ Hs E1) as [Hs1 [Hn1 Hr1]].
  destruct (if is_empty (block_recovery_exit_commitments st) then _ else _) as [[] s2] eqn:E2; [|done]. cbn [negb].
  destruct (insert_exits_true _ _ _ _ Hs1 E2) as [Hs2 [Hn2 Hr2]]. cbv zeta.
  destruct (if IsShieldedUnshieldVelocityCapActive P h then velocity_connect _ _ _ _ _ else _) as [log|] eqn:Ev; [|done].
  destruct (if IsShieldedUnshieldVelocityCapActive P h then WriteUnshieldVelocity _ _ _ else _) as [[] s3] eqn:E3; [|done]. cbn [negb].
  assert (sane s3 ∧ plain_eq s3 (db_nullifier (m_db s2)) (db_recovery (m_db s2))) as [Hs3 [Hn3 Hr3]].
  { destruct (IsShieldedUnshieldVelocityCapActive P h); [by apply (write_true _ _ _ _ Hs2 E3)|]. by injection E3 as <-. }
  destruct (WritePoolBalance _ s3 _) as [[] s4] eqn:E4; [|done]. cbn [negb].
  destruct (write_pool_true _ _ _ _ Hs3 E4) as [Hs4 [Hn4 Hr4]].
  intros [= <-]. cbn [cs_spent cs_view cs_base cs_pool cs_velocity]. split_and!; try done.
  split; [by rewrite Hn4, Hn3, Hn2, Hn1 | by rewrite Hr4, Hr3, Hr2, Hr1].
Qed.

(** ** The checks on the transactions of a block *)
Lemma check_block_txs_valid vtx : check_block_txs vtx = Valid →
  ∃ cb rest, vtx = cb :: rest ∧ IsCoinBase (core cb) = true ∧ Forall (λ tx, IsCoinBase (core tx) = false) rest
    ∧ Forall (λ tx, CheckTransaction tx = None) vtx.
Proof.
  unfold check_block_txs. destruct vtx as [|cb rest]; [done|]. destruct (IsCoinBase (core cb)) eqn:Ecb; [|done]. cbn [negb].
  destruct (existsb _ rest) eqn:Er; [done|]. destruct (list_find _ (cb :: rest)) as [[i tx]|] eqn:Ef.
  { apply list_find_Some in Ef as (_ & Hne & _). by destruct (CheckTransaction tx). }
  intros _. exists cb, rest. split_and!; try done.
  - apply list.Forall_forall. intros tx Htx. apply not_true_iff_false. intros Hcb.
    assert (existsb (λ tx, IsCoinBase (core tx)) rest = true); [|congruence]. apply existsb_exists. exists tx. split; [by apply list_elem_of_In | done].
  - apply list_find_None in Ef. eapply list.Forall_impl; [exact Ef|]. intros tx Hn. by apply dec_stable.
Qed.

Record block_wf (X : gset COutPoint) (vtx : list Transaction) : Prop := mkBlockWf {
  wf_hashes : Forall (λ tx, Forall (λ i, is_hash (prevout i).1) (t_vin tx)) vtx;
  wf_outs : Forall (λ tx, zlen (t_vout tx) ≤ 2 ^ 32) vtx;
  wf_X : Forall (λ tx, tx_outpoints (core tx) ⊆ X) vtx;
  wf_ids : NoDup (txid <$> vtx);
}.

Lemma checked_fits X enforce vtx : block_wf X vtx → Forall (λ tx, CheckTransaction tx = None) vtx →
  Forall (λ tx, enforce = true ∨ HasShieldedBundle tx = false) vtx → Forall (tx_fits X enforce) vtx.
Proof.
  intros [Hh Ho HX _] Hc He. rewrite list.Forall_forall in *. intros tx Htx.
  destruct (proj1 (CheckTransaction_spec tx (Hh tx Htx)) (Hc tx Htx)) as (_ & _ & _ & [Hpos Htot] & Hin). unfold inputs_rule in Hin.
  constructor; [split_and!; [done | done | by apply Ho] | by apply HX | | | by apply He]; intros Ecb; rewrite Ecb in Hin; apply Hin.
Qed.

(** ** An accepted block *)
Definition outputs_absent (s : ledger) (vtx : list Transaction) : Prop :=
  ∀ tx p, tx ∈ vtx → p ∈ outputs (core tx) → unspent s p.1 = None.

(** The coins after a block. *)
Definition after_block (hash : list Z) (h : Z) (s : ledger) (vtx : list Transaction) : ledger :=
  mkLedger hash (unspent (apply_writes s (block_writes h (core <$> vtx)))).

Definition balances_known (vtx : list Transaction) : Prop :=
  Forall (λ tx, HasShieldedBundle tx = true → is_Some (TryGetShieldedStateValueBalance (shielded_bundle tx))) vtx.

Definition coinbase_paid (vtx : list Transaction) : Z := sum_over (λ tx, if IsCoinBase (core tx) then out_total (t_vout tx) else 0) vtx.

Lemma coinbase_paid_cons cb rest : IsCoinBase (core cb) = true → Forall (λ tx, IsCoinBase (core tx) = false) rest →
  coinbase_paid (cb :: rest) = out_total (t_vout cb).
Proof.
  intros Hcb Hr. unfold coinbase_paid, sum_over. simpl. rewrite Hcb. rewrite <- (Z.add_0_r (out_total (t_vout cb))) at 2. f_equal.
  induction Hr as [|tx rest Htx Hr IH]; [done|]. simpl. by rewrite Htx, IH.
Qed.

Lemma no_bundles vtx : BlockHasShieldedBundle vtx = false → retires R vtx = Some ([], []) ∧ sum_over state_balance vtx = 0.
Proof.
  unfold BlockHasShieldedBundle, sum_over. induction vtx as [|tx vtx IH]; [done|]. simpl. intros [Hb Hr]%orb_false_iff.
  destruct (IH Hr) as [Er Es]. unfold tx_retires, state_balance at 1. rewrite Hb. simpl. by rewrite Er, Es.
Qed.

Section accepted.
Context (written : nat → bool) (σ : BlockMap) (nTx : list Z → Z) (pindex : list Z) (h : Z) (pprev : option (list Z)).
Context (X : gset COutPoint).

Lemma best_block_good s cs : good None X s (cs_view cs) (cs_base cs) → ∃ best, best_block cs = (best, cs).
Proof.
  intros Hg. unfold best_block. cbn [GetBestBlock]. rewrite bool_decide_false by by apply Hg. cbn. exists (hashBlock (cs_view cs)). by destruct cs.
Qed.

(** Everything an accepted block does, from the coins to the egress log. *)
Lemma connect_block_valid vtx cs undo cs' s :
  good None X s (cs_view cs) (cs_base cs) → sane (cs_spent cs) → in_range (cs_pool cs) → block_wf X vtx →
  (enforce_bip30 R = true ∨ outputs_absent s vtx) → pindex ≠ null_hash →
  connect_block R P written σ nTx false true pindex h pprev vtx cs = Ok (Valid, undo, cs') →
  let s' := after_block pindex h s vtx in
  good None X s' (cs_view cs') (cs_base cs') ∧ sane (cs_spent cs') ∧ in_range (cs_pool cs')
  ∧ (∃ ids cms, retires R vtx = Some (ids, cms) ∧ NoDup ids ∧ (∀ x, x ∈ ids → x ∉ db_nullifier (m_db (cs_spent cs)))
       ∧ NoDup cms ∧ (∀ x, x ∈ cms → x ∉ db_recovery (m_db (cs_spent cs)))
       ∧ plain_eq (cs_spent cs') (list_to_set ids ∪ db_nullifier (m_db (cs_spent cs))) (list_to_set cms ∪ db_recovery (m_db (cs_spent cs))))
  ∧ cs_pool cs' = cs_pool cs - sum_over state_balance vtx ∧ balances_known vtx
  ∧ (if IsShieldedUnshieldVelocityCapActive P h then velocity_connect P h (cs_pool cs) (cs_pool cs') (cs_velocity cs)
     else Some (cs_velocity cs)) = Some (cs_velocity cs')
  ∧ ∃ subsidy, GetBlockSubsidyForBlock σ nTx h (zlen vtx) pprev P = Ok subsidy
    ∧ total_value X s' + cs_pool cs' ≤ total_value X s + cs_pool cs + subsidy + sum_over bridged vtx.
Proof.
  intros Hg Hs Hp Hwf Hbip Hhash. unfold connect_block. destruct (check_block_txs vtx) eqn:Ec; [|done..].
  destruct (block_rules R vtx); [done|]. destruct (best_block_good s cs Hg) as [best ->]. destruct (negb _); [done|].
  destruct (check_block_txs_valid vtx Ec) as (cb & rest & Evtx & Hcb & Hrest & Hchk).
  assert (∃ clash c b, (if enforce_bip30 R then bip30_clash vtx (cs_view cs) (cs_base cs) else Ok (false, cs_view cs, cs_base cs)) = Ok (clash, c, b)
    ∧ good None X s c b ∧ (clash = false → outputs_absent s vtx)) as (clash & c & b & -> & Hg1 & Habs).
  { destruct (enforce_bip30 R) eqn:Ebip.
    - destruct (bip30_clash_good None X vtx s _ _ Hg (proj1 (list.Forall_forall _ _) (wf_X _ _ Hwf))) as (clash & (c & b & E & Hg1) & Ha).
      exists clash, c, b. done.
    - exists false, (cs_view cs), (cs_base cs). destruct Hbip as [?|Ha]; [done|]. done. }
  rewrite bind_Ok. set (enforce := BlockHasShieldedBundle vtx || IsShieldedUnshieldVelocityCapActive P h). cbn [andb]. fold enforce.
  destruct clash; [rewrite bind_Ok; destruct (GetBlockSubsidyForBlock _ _ _ _ _ _); [|done]; rewrite bind_Ok;
    destruct (vget vtx 0); [|done]; rewrite bind_Ok; destruct (GetValueOut _); [|done]; rewrite bind_Ok; done|].
  destruct (connect_loop R σ pindex h enforce 0 vtx (block_start cs c b)) as [[v st]|] eqn:El; [|done]. rewrite bind_Ok.
  destruct (GetBlockSubsidyForBlock _ _ _ _ _ _) as [subsidy|] eqn:Esub; [|done]. rewrite bind_Ok.
  assert (vget vtx 0 = Ok cb) as -> by (by rewrite Evtx). rewrite bind_Ok.
  destruct (GetValueOut cb) as [paid|] eqn:Epaid; [|done]. rewrite bind_Ok. apply GetValueOut_total in Epaid as [-> _].
  destruct v; [|done..]. destruct (Z.ltb_spec (nFees st + subsidy) (out_total (t_vout cb))) as [|Hpay]; [done|].
  destruct (reject (deferred_rules R vtx)); [|done..].
  assert (Forall (λ tx, enforce = true ∨ HasShieldedBundle tx = false) vtx) as Hen.
  { apply list.Forall_forall. intros tx Htx. destruct (HasShieldedBundle tx) eqn:Eb; [left|by right]. unfold enforce, BlockHasShieldedBundle.
    apply orb_true_iff. left. apply existsb_exists. exists tx. split; [by apply list_elem_of_In | done]. }
  pose proof (all_new_absent h vtx s (wf_ids _ _ Hwf) (Habs eq_refl)) as Hnew.
  destruct (connect_loop_valid R None X σ pindex h enforce vtx 0 s (block_start cs c b) st Hg1 Hs Hp (checked_fits X enforce vtx Hwf Hchk Hen) Hnew El)
    as (Hg2 & (ids & cms & Er & (Hs2 & Hd2 & _ & Hv2 & He2) & (Hnd & Hf & Hcnd & Hcf)) & Epool & Hr & Hbal & Hval).
  change (sum_over (λ tx, if IsCoinBase (core tx) then out_total (t_vout tx) else 0) vtx) with (coinbase_paid vtx) in Hval.
  assert (coinbase_paid vtx = out_total (t_vout cb)) as Ecp by (rewrite Evtx; by apply coinbase_paid_cons).
  cbn [next_pool_balance nFees block_start spent block_nullifier_vec block_recovery_exit_commitments block_nullifiers] in *.
  destruct enforce eqn:Een; cbn [andb negb].
  - destruct (commit_shielded P written h st cs) as [v cs1] eqn:Ecom. destruct v; [|done..]. intros [= <- <-].
    destruct (commit_shielded_valid written h st cs cs1 Hs2 Ecom) as (Hs3 & Ev3 & Eb3 & Ep3 & Hpl & Hvel). rewrite Hv2, He2, Hd2 in Hpl.
    cbn [set_tip cs_view cs_base cs_spent cs_pool cs_velocity]. rewrite Ev3, Eb3, Ep3.
    cbv zeta. split; [apply (set_tip_good _ _ _ _ _ Hg2); auto|]. change (total_value X (after_block pindex h s vtx)) with (total_value X (apply_writes s (block_writes h (core <$> vtx)))). split; [done|]. split; [done|]. split.
    { exists ids, cms. split; [done|]. split; [done|]. split; [intros x Hx; by apply Hf|]. split; [done|]. split; [intros x Hx; by apply Hcf | done]. }
    split; [done|]. split; [done|]. split; [done|]. exists subsidy. split; [done | lia].
  - intros [= <- <-]. cbn [set_tip cs_view cs_base cs_spent cs_pool cs_velocity]. apply orb_false_iff in Een as [Ebun Evel].
    destruct (no_bundles vtx Ebun) as [Enb Esb]. rewrite Er in Enb. injection Enb as -> ->. rewrite Evel, Esb in *.
    cbv zeta. split; [apply (set_tip_good _ _ _ _ _ Hg2); auto|]. change (total_value X (after_block pindex h s vtx)) with (total_value X (apply_writes s (block_writes h (core <$> vtx)))).
    split; [done|]. split; [done|]. split.
    { exists [], []. split; [done|]. split; [done|]. split; [intros x Hx; by apply Hf|]. split; [done|]. split; [intros x Hx; by apply Hcf|].
      split; simpl; by rewrite union_empty_l_L, Hd2. }
    split; [lia|]. split; [done|]. split; [done|]. exists subsidy. split; [done | lia].
Qed.

End accepted.
End one.

(** ** A block creates no value *)
(** Let a block be accepted on top of coins [s] and a pool. The coins and
    the pool after it are worth at most what they were worth before, plus the
    subsidy of its height, plus what its batches bring in from settlement with
    other chains; the empty-block penalty only lowers this. *)
Theorem connect_no_inflation R P written σ nTx pindex h pprev vtx X cs undo cs' s :
  good None X s (cs_view cs) (cs_base cs) → sane (cs_spent cs) → in_range (cs_pool cs) → block_wf X vtx →
  (enforce_bip30 R = true ∨ outputs_absent s vtx) → pindex ≠ null_hash →
  linked σ → present σ pprev → 0 ≤ h → 0 ≤ nEmptyBlockSubsidyMaxHalvings P < 2 ^ 32 →
  0 < nSubsidyHalvingInterval P → 0 ≤ nInitialSubsidy P →
  connect_block R P written σ nTx false true pindex h pprev vtx cs = Ok (Valid, undo, cs') →
  let s' := after_block pindex h s vtx in
  good None X s' (cs_view cs') (cs_base cs') ∧ in_range (cs_pool cs')
  ∧ total_value X s' + cs_pool cs' ≤ total_value X s + cs_pool cs + GetBlockSubsidy h P + sum_over bridged vtx.
Proof.
  intros Hg Hs Hp Hwf Hb Hh Hσ Hpre Hge HM HI HS E.
  destruct (connect_block_valid R P written σ nTx pindex h pprev X vtx cs undo cs' s Hg Hs Hp Hwf Hb Hh E)
    as (Hg' & _ & Hp' & _ & _ & _ & _ & subsidy & Esub & Hval).
  destruct (subsidy_for_block P HI HS σ nTx h (zlen vtx) pprev Hσ Hpre Hge HM) as (v & Ev & Hv). rewrite Esub in Ev. injection Ev as <-.
  split; [done|]. split; [done|]. lia.
Qed.

(** ** Chains of blocks *)
Record Block := mkBlock {
  b_rules : BlockRules;
  b_written : nat → bool;
  b_hash : list Z;
  b_prev : option (list Z);
  b_vtx : list Transaction
}.

Section chains.
Context (P : SupplyParams) (σ : BlockMap) (nTx : list Z → Z) (X : gset COutPoint).

(** The blocks, each accepted on the state the one before it left. *)
Fixpoint connect_blocks (h : Z) (blocks : list Block) (cs : ChainState) : option ChainState :=
  match blocks with
  | [] => Some cs
  | b :: blocks =>
      match connect_block (b_rules b) P (b_written b) σ nTx false true (b_hash b) h (b_prev b) (b_vtx b) cs with
      | Ok (Valid, _, cs) => connect_blocks (h + 1) blocks cs
      | _ => None
      end
  end.

Fixpoint after_blocks (h : Z) (s : ledger) (blocks : list Block) : ledger :=
  match blocks with [] => s | b :: blocks => after_blocks (h + 1) (after_block (b_hash b) h s (b_vtx b)) blocks end.

Fixpoint chain_wf (h : Z) (s : ledger) (blocks : list Block) : Prop :=
  match blocks with
  | [] => True
  | b :: blocks =>
      present σ (b_prev b) ∧ b_hash b ≠ null_hash ∧ block_wf X (b_vtx b)
      ∧ (enforce_bip30 (b_rules b) = true ∨ outputs_absent s (b_vtx b))
      ∧ chain_wf (h + 1) (after_block (b_hash b) h s (b_vtx b)) blocks
  end.

Definition all_bridged (blocks : list Block) : Z := foldr (λ b t, sum_over bridged (b_vtx b) + t) 0 blocks.

Fixpoint all_retired (blocks : list Block) : option (list uint256 * list uint256) :=
  match blocks with
  | [] => Some ([], [])
  | b :: blocks => '(ids, cms) ← retires (b_rules b) (b_vtx b); '(ids', cms') ← all_retired blocks; Some (ids ++ ids', cms ++ cms')
  end.

Context (Hσ : linked σ) (HM : 0 ≤ nEmptyBlockSubsidyMaxHalvings P < 2 ^ 32).
Context (HI : 0 < nSubsidyHalvingInterval P) (HS : 0 ≤ nInitialSubsidy P).

Lemma connect_blocks_value blocks : ∀ n s cs cs',
  good None X s (cs_view cs) (cs_base cs) → sane (cs_spent cs) → in_range (cs_pool cs) → chain_wf (Z.of_nat n) s blocks →
  connect_blocks (Z.of_nat n) blocks cs = Some cs' →
  let s' := after_blocks (Z.of_nat n) s blocks in
  good None X s' (cs_view cs') (cs_base cs') ∧ in_range (cs_pool cs')
  ∧ total_value X s' + cs_pool cs' + subsidy_total P n
    ≤ total_value X s + cs_pool cs + subsidy_total P (n + length blocks) + all_bridged blocks.
Proof.
  induction blocks as [|b blocks IH]; intros n s cs cs' Hg Hs Hp Hwf; cbn [connect_blocks].
  { intros [= <-]. simpl. rewrite Nat.add_0_r. split; [done|]. split; [done|]. lia. }
  destruct Hwf as (Hpre & Hh & Hb & Hbip & Hwf).
  destruct (connect_block _ _ _ _ _ _ _ _ _ _ _ cs) as [[[[|e|e] undo] cs1]|e] eqn:E; [|done..].
  destruct (connect_block_valid _ _ _ _ _ _ _ _ X _ _ _ _ s Hg Hs Hp Hb Hbip Hh E) as (Hg1 & Hs1 & Hp1 & _ & _ & _ & _ & subsidy & Esub & Hval).
  destruct (subsidy_for_block P HI HS σ nTx (Z.of_nat n) (zlen (b_vtx b)) (b_prev b) Hσ Hpre ltac:(lia) HM) as (v & Ev & Hv).
  rewrite Esub in Ev. injection Ev as <-.
  replace (Z.of_nat n + 1) with (Z.of_nat (S n)) in * by lia. intros E2.
  destruct (IH (S n) _ cs1 cs' Hg1 Hs1 Hp1 Hwf E2) as (Hg2 & Hp2 & Hval2). cbn [after_blocks]. replace (Z.of_nat n + 1) with (Z.of_nat (S n)) by lia.
  split; [done|]. split; [done|]. unfold all_bridged in *. cbn [foldr length]. rewrite subsidy_total_S in Hval2.
  replace (n + S (length blocks))%nat with (S n + length blocks)%nat by lia. lia.
Qed.

Lemma connect_blocks_ids blocks : ∀ h s cs cs',
  good None X s (cs_view cs) (cs_base cs) → sane (cs_spent cs) → in_range (cs_pool cs) → chain_wf h s blocks →
  connect_blocks h blocks cs = Some cs' →
  ∃ ids cms, all_retired blocks = Some (ids, cms) ∧ NoDup ids ∧ (∀ x, x ∈ ids → x ∉ db_nullifier (m_db (cs_spent cs)))
    ∧ NoDup cms ∧ (∀ x, x ∈ cms → x ∉ db_recovery (m_db (cs_spent cs)))
    ∧ plain_eq (cs_spent cs') (list_to_set ids ∪ db_nullifier (m_db (cs_spent cs))) (list_to_set cms ∪ db_recovery (m_db (cs_spent cs))).
Proof.
  induction blocks as [|b blocks IH]; intros h s cs cs' Hg Hs Hp Hwf; cbn [connect_blocks].
  { intros [= <-]. exists [], []. split; [done|]. split; [constructor|]. split; [intros x Hx; by apply not_elem_of_nil in Hx|].
    split; [constructor|]. split; [intros x Hx; by apply not_elem_of_nil in Hx|]. split; simpl; by rewrite union_empty_l_L. }
  destruct Hwf as (Hpre & Hh & Hb & Hbip & Hwf).
  destruct (connect_block _ _ _ _ _ _ _ _ _ _ _ cs) as [[[[|e|e] undo] cs1]|e] eqn:E; [|done..].
  destruct (connect_block_valid _ _ _ _ _ _ _ _ X _ _ _ _ s Hg Hs Hp Hb Hbip Hh E)
    as (Hg1 & Hs1 & Hp1 & (ids & cms & Er & Hnd & Hf & Hcnd & Hcf & En & Ec) & _). intros E2.
  destruct (IH (h + 1) _ cs1 cs' Hg1 Hs1 Hp1 Hwf E2) as (ids' & cms' & Er' & Hnd' & Hf' & Hcnd' & Hcf' & En' & Ec').
  assert (∀ x, x ∈ ids' → x ∉ ids ∧ x ∉ db_nullifier (m_db (cs_spent cs))) as Hi.
  { intros x Hx%Hf'. rewrite En in Hx. apply not_elem_of_union in Hx as [Hl Hx]. by rewrite elem_of_list_to_set in Hl. }
  assert (∀ x, x ∈ cms' → x ∉ cms ∧ x ∉ db_recovery (m_db (cs_spent cs))) as Hc.
  { intros x Hx%Hcf'. rewrite Ec in Hx. apply not_elem_of_union in Hx as [Hl Hx]. by rewrite elem_of_list_to_set in Hl. }
  exists (ids ++ ids'), (cms ++ cms'). cbn [all_retired]. rewrite Er. simpl. rewrite Er'. split; [done|]. split.
  { apply list.NoDup_app. split; [done|]. split; [|done]. intros x Hx Hx'. by destruct (Hi x Hx') as [? _]. }
  split; [intros x [Hx|Hx]%elem_of_app; [by apply Hf | by apply Hi]|]. split.
  { apply list.NoDup_app. split; [done|]. split; [|done]. intros x Hx Hx'. by destruct (Hc x Hx') as [? _]. }
  split; [intros x [Hx|Hx]%elem_of_app; [by apply Hcf | by apply Hc]|].
  split; [rewrite En', En | rewrite Ec', Ec]; rewrite list_to_set_app_L, assoc_L by apply _; f_equal; apply (comm_L (∪)).
Qed.

End chains.


(** C5: on every chain of connected blocks each nullifier is spent at most
    once, within a block, across blocks and against the stored set; so is each
    claim of a stranded note. The database then holds exactly what it held and
    what the blocks retired. *)
Theorem nullifiers_spent_once P σ nTx X blocks h s cs cs' :
  good None X s (cs_view cs) (cs_base cs) → sane (cs_spent cs) → in_range (cs_pool cs) → chain_wf σ X h s blocks →
  connect_blocks P σ nTx h blocks cs = Some cs' →
  ∃ ids cms, all_retired blocks = Some (ids, cms)
    ∧ NoDup ids ∧ (∀ x, x ∈ ids → x ∉ db_nullifier (m_db (cs_spent cs)))
    ∧ NoDup cms ∧ (∀ x, x ∈ cms → x ∉ db_recovery (m_db (cs_spent cs)))
    ∧ db_nullifier (m_db (cs_spent cs')) = list_to_set ids ∪ db_nullifier (m_db (cs_spent cs))
    ∧ db_recovery (m_db (cs_spent cs')) = list_to_set cms ∪ db_recovery (m_db (cs_spent cs)).
Proof.
  intros Hg Hs Hp Hwf E.
  destruct (connect_blocks_ids P σ nTx X blocks h s cs cs' Hg Hs Hp Hwf E) as (ids & cms & ? & ? & ? & ? & ? & ? & ?).
  exists ids, cms. done.
Qed.

(** ** Taking a block back *)
Section undone.
Context (R : BlockRules) (P : SupplyParams).

(** The pool passes only through amounts it can hold. *)
Definition undo_fits (pool : Z) (vtx : list Transaction) : Prop := ∀ k, in_range (pool + sum_over state_balance (take k vtx)).

Lemma UndoValueBalance_in p v : in_range p → in_range (p + v) → UndoValueBalance p v = Some (p + v).
Proof.
  intros Hp Hr. rewrite UndoValueBalance_apply. apply ApplyValueBalance_spec; [done|]. unfold in_range in *. lia.
Qed.

Lemma rollback_tx_valid tx r ids cms : tx_retires R tx = Some (ids, cms) →
  (HasShieldedBundle tx = true → is_Some (TryGetShieldedStateValueBalance (shielded_bundle tx))) →
  in_range (rolled_back_pool r) → in_range (rolled_back_pool r + state_balance tx) →
  rollback_tx R tx r = Some (mkRollback (rb_nullifiers r ++ ids) (rb_exits r ++ cms) (rolled_back_pool r + state_balance tx)).
Proof.
  unfold tx_retires, retired, rollback_tx, state_balance. destruct (HasShieldedBundle tx) eqn:Eb; cbn [negb].
  2: { intros [= <- <-] _ _ _. rewrite !app_nil_r, Z.add_0_r. by destruct r. }
  intros Er Hv Hp Hr. destruct (Hv eq_refl) as [v Ev]. rewrite Ev in *. simpl in Hr.
  destruct (IsRecoveryExitBundle _).
  - destruct (exit_ids R _) as [[nf cm]|]; [|done]. simpl in Er. injection Er as <- <-. simpl.
    by rewrite (UndoValueBalance_in _ _ Hp Hr), app_assoc.
  - injection Er as <- <-. simpl. by rewrite (UndoValueBalance_in _ _ Hp Hr), app_nil_r.
Qed.

Lemma rollback_block_valid vtx : ∀ r ids cms, retires R vtx = Some (ids, cms) →
  balances_known vtx →
  undo_fits (rolled_back_pool r) vtx →
  foldl (λ r tx, r ← r; rollback_tx R tx r) (Some r) vtx
  = Some (mkRollback (rb_nullifiers r ++ ids) (rb_exits r ++ cms) (rolled_back_pool r + sum_over state_balance vtx)).
Proof.
  induction vtx as [|tx vtx IH]; intros r ids cms Er Hv Hfit; simpl.
  { injection Er as <- <-. rewrite !app_nil_r, Z.add_0_r. by destruct r. }
  cbn [retires] in Er. destruct (tx_retires R tx) as [[i1 c1]|] eqn:E1; [|done]. simpl in Er.
  destruct (retires R vtx) as [[i2 c2]|] eqn:E2; [|done]. simpl in Er. injection Er as <- <-.
  apply list.Forall_cons in Hv as [Hv Hvs]. pose proof (Hfit 0%nat) as H0'. pose proof (Hfit 1%nat) as H1'. unfold sum_over in H0', H1'. simpl in H0', H1'.
  rewrite Z.add_0_r in H0', H1'. rewrite (rollback_tx_valid tx r i1 c1 E1 Hv H0' H1').
  rewrite (IH _ i2 c2 eq_refl Hvs); simpl.
  - rewrite <- !app_assoc. unfold sum_over. f_equal. f_equal. lia.
  - intros k. specialize (Hfit (S k)). unfold sum_over in *. simpl in *. by rewrite <- Z.add_assoc.
Qed.

Lemma cancel_added (l : list uint256) (n0 : hashes) : (∀ x, x ∈ l → x ∉ n0) → (list_to_set l ∪ n0) ∖ list_to_set l = n0.
Proof.
  intros Hf. rewrite difference_union_distr_l_L, difference_diag_L, union_empty_l_L. apply difference_disjoint_L.
  intros y Hy Hyl. rewrite elem_of_list_to_set in Hyl. by apply (Hf y).
Qed.

Lemma stored_no_null (l : list uint256) (D n0 : hashes) : null_hash ∉ D → D = list_to_set l ∪ n0 → no_null l = true.
Proof.
  intros Hn ->. unfold no_null. apply forallb_forall. intros y Hy%list_elem_of_In. unfold IsNull. rewrite bool_decide_eq_false_2; [done|].
  intros ->. apply Hn, elem_of_union_l, elem_of_list_to_set, Hy.
Qed.

Lemma remove_all s l n0 : sane s → db_nullifier (m_db s) = list_to_set l ∪ n0 → (∀ x, x ∈ l → x ∉ n0) →
  ∃ s', (if is_empty l then (true, s) else Remove true s l) = (true, s') ∧ sane s' ∧ plain_eq s' n0 (db_recovery (m_db s)).
Proof.
  intros Hs Hd Hf. destruct (is_empty l) eqn:El.
  { destruct l; [|done]. exists s. split; [done|]. split; [done|]. split; [|done]. rewrite Hd. simpl. by rewrite union_empty_l_L. }
  destruct (Remove true s l) as [a s'] eqn:E. destruct (run_plain (OpRemove true l) s (AnsBool a) s' Hs) as [Hs' Hp];
    [unfold set_run1, bool_op; by rewrite E|].
  unfold spec_run1, plain_of in Hp. rewrite (stored_no_null l _ n0 (null_nullifier _ (proj2 Hs)) Hd) in Hp. unfold update in Hp. cbn [andb] in Hp.
  injection Hp as -> Hn Ha Hm Hr Hv He. exists s'. split; [done|]. split; [done|]. split; [|done]. by rewrite Hn, Hd, cancel_added.
Qed.

Lemma remove_exits_all s l r0 : sane s → db_recovery (m_db s) = list_to_set l ∪ r0 → (∀ x, x ∈ l → x ∉ r0) →
  ∃ s', (if is_empty l then (true, s) else RemoveRecoveryExitCommitments true s l) = (true, s') ∧ sane s' ∧ plain_eq s' (db_nullifier (m_db s)) r0.
Proof.
  intros Hs Hd Hf. destruct (is_empty l) eqn:El.
  { destruct l; [|done]. exists s. split; [done|]. split; [done|]. split; [done|]. rewrite Hd. simpl. by rewrite union_empty_l_L. }
  destruct (RemoveRecoveryExitCommitments true s l) as [a s'] eqn:E.
  destruct (run_plain (OpRemoveRecoveries true l) s (AnsBool a) s' Hs) as [Hs' Hp]; [unfold set_run1, bool_op; by rewrite E|].
  unfold spec_run1, plain_of in Hp. rewrite (stored_no_null l _ r0 (null_recovery _ (proj2 Hs)) Hd) in Hp. unfold update in Hp. cbn [andb] in Hp.
  injection Hp as -> Hn Ha Hm Hr Hv He. exists s'. split; [done|]. split; [done|]. split; [done|]. by rewrite Hr, Hd, cancel_added.
Qed.

Lemma write_pool_ok s v : sane s → in_range v →
  ∃ s', WritePoolBalance true s v = (true, s') ∧ sane s' ∧ plain_eq s' (db_nullifier (m_db s)) (db_recovery (m_db s)).
Proof.
  intros Hs Hv. destruct (WritePoolBalance true s v) as [a s'] eqn:E.
  assert (a = true) as ->.
  { destruct (run_plain (OpWritePool true v) s (AnsBool a) s' Hs) as [_ Hp]; [unfold set_run1, bool_op; by rewrite E|].
    unfold spec_run1, plain_of in Hp. rewrite (proj2 (MoneyRange_spec v) Hv) in Hp. unfold update in Hp. cbn [andb] in Hp. by injection Hp as ->. }
  exists s'. split; [done|]. by apply (write_pool_true true s v).
Qed.

Lemma write_log_ok s log : sane s →
  ∃ s', WriteUnshieldVelocity true s log = (true, s') ∧ sane s' ∧ plain_eq s' (db_nullifier (m_db s)) (db_recovery (m_db s)).
Proof.
  intros Hs. destruct (WriteUnshieldVelocity true s log) as [a s'] eqn:E.
  assert (a = true) as ->.
  { destruct (run_plain (OpWriteVelocity true log) s (AnsBool a) s' Hs) as [_ Hp]; [unfold set_run1, bool_op; by rewrite E|].
    unfold spec_run1, plain_of in Hp. unfold update in Hp. by injection Hp as ->. }
  exists s'. split; [done|]. by apply (write_true true s log).
Qed.

Lemma disconnect_shielded_valid h vtx cs ids cms n0 r0 :
  sane (cs_spent cs) → retires R vtx = Some (ids, cms) →
  balances_known vtx →
  undo_fits (cs_pool cs) vtx →
  plain_eq (cs_spent cs) (list_to_set ids ∪ n0) (list_to_set cms ∪ r0) → (∀ x, x ∈ ids → x ∉ n0) → (∀ x, x ∈ cms → x ∉ r0) →
  ∃ s, sane s ∧ plain_eq s n0 r0 ∧
    disconnect_shielded R P (λ _, true) h vtx cs
    = (true, mkChainState (cs_view cs) (cs_base cs) s (cs_pool cs + sum_over state_balance vtx)
         (if IsShieldedUnshieldVelocityCapActive P h then UndoBlock (cs_velocity cs) h else cs_velocity cs)).
Proof.
  intros Hs Er Hv Hfit [Hn Hr] Hf Hcf. unfold disconnect_shielded.
  destruct (BlockHasShieldedBundle vtx || IsShieldedUnshieldVelocityCapActive P h) eqn:Ea; cbn [negb].
  2: { apply orb_false_iff in Ea as [Eb ->]. destruct (no_bundles R vtx Eb) as [Enb ->]. rewrite Er in Enb. injection Enb as -> ->.
    exists (cs_spent cs). split; [done|]. simpl in Hn, Hr. rewrite union_empty_l_L in Hn, Hr. split; [done|]. rewrite Z.add_0_r. by destruct cs. }
  unfold rollback_block. rewrite (rollback_block_valid vtx (mkRollback [] [] (cs_pool cs)) ids cms Er Hv Hfit). cbn [rb_nullifiers rb_exits rolled_back_pool app].
  destruct (remove_all (cs_spent cs) ids n0 Hs Hn Hf) as (s1 & -> & Hs1 & Hn1 & Hr1). cbn [negb].
  destruct (remove_exits_all s1 cms r0 Hs1 ltac:(by rewrite Hr1) Hcf) as (s2 & -> & Hs2 & Hn2 & Hr2). cbn [negb].
  assert (in_range (cs_pool cs + sum_over state_balance vtx)) as Hp by (specialize (Hfit (length vtx)); by rewrite firstn_all in Hfit).
  destruct (write_pool_ok s2 _ Hs2 Hp) as (s3 & -> & Hs3 & Hn3 & Hr3). cbn [negb cs_spent cs_velocity cs_view cs_base cs_pool].
  destruct (IsShieldedUnshieldVelocityCapActive P h).
  - destruct (write_log_ok s3 (UndoBlock (cs_velocity cs) h) Hs3) as (s4 & -> & Hs4 & Hn4 & Hr4). cbn [negb].
    exists s4. split; [done|]. split; [split; congruence | done].
  - exists s3. split; [done|]. split; [split; congruence | done].
Qed.

End undone.


(** ** What the code does not do *)

(** A block refused because it lets too much out of the pool has by then
    stored its nullifiers and its claims; pool and log are as they were. *)
Theorem refused_egress_keeps_nullifiers P written h st cs cs' reason :
  sane (spent st) → commit_shielded P written h st cs = (Invalid reason, cs') →
  db_nullifier (m_db (cs_spent cs')) = list_to_set (block_nullifier_vec st) ∪ db_nullifier (m_db (spent st))
  ∧ db_recovery (m_db (cs_spent cs')) = list_to_set (block_recovery_exit_commitments st) ∪ db_recovery (m_db (spent st))
  ∧ cs_pool cs' = cs_pool cs ∧ cs_velocity cs' = cs_velocity cs.
Proof.
  intros Hs. unfold commit_shielded. destruct (if is_empty (block_nullifier_vec st) then _ else _) as [[] s1] eqn:E1; [|done]. cbn [negb].
  destruct (insert_true _ _ _ _ Hs E1) as [Hs1 [Hn1 Hr1]].
  destruct (if is_empty (block_recovery_exit_commitments st) then _ else _) as [[] s2] eqn:E2; [|done]. cbn [negb].
  destruct (insert_exits_true _ _ _ _ Hs1 E2) as [Hs2 [Hn2 Hr2]]. cbv zeta.
  destruct (if IsShieldedUnshieldVelocityCapActive P h then velocity_connect _ _ _ _ _ else _) as [log|].
  - destruct (if IsShieldedUnshieldVelocityCapActive P h then WriteUnshieldVelocity _ _ _ else _) as [[] s3]; [|done]. cbn [negb].
    by destruct (WritePoolBalance _ s3 _) as [[] s4].
  - intros [= _ <-]. cbn [cs_spent cs_pool cs_velocity]. split_and!; [congruence | congruence | done | done].
Qed.

End claims.
