(* ===== verification/Script.v ===== *)
(** Scripts: opcodes, numbers and instructions.

    [script/script.h] and [script/script.cpp]: the opcodes, [CScriptNum] with
    its 64-bit value and its minimal encoding, the reader [GetScriptOp], the
    writer [operator<<] and the predicates on whole scripts that consensus
    uses. A script is its list of bytes, an iterator [pc] the bytes it has
    still to read. *)

From Stdlib Require Import ZArith Lia String.
From stdpp Require Import base list numbers tactics.
From S2P Require Import Prelude Sha256.

Open Scope Z_scope.

Module script.

(** ** Limits *)
Definition MAX_SCRIPT_ELEMENT_SIZE : Z := 520.
Definition MAX_OPS_PER_SCRIPT : Z := 201.
Definition MAX_PUBKEYS_PER_MULTISIG : Z := 20.
Definition MAX_SCRIPT_SIZE : Z := 10000.
Definition MAX_STACK_SIZE : Z := 1000.
Definition ANNEX_TAG : Z := 0x50.
Definition VALIDATION_WEIGHT_PER_SIGOP_PASSED : Z := 50.
Definition VALIDATION_WEIGHT_OFFSET : Z := 50.
Definition VALIDATION_WEIGHT_PER_MLDSA_SIGOP : Z := 50.
Definition VALIDATION_WEIGHT_PER_SLHDSA_SIGOP : Z := 500.
Definition VALIDATION_WEIGHT_PER_MLDSA_MULTISIG_SIGOP : Z := 500.
Definition VALIDATION_WEIGHT_PER_SLHDSA_MULTISIG_SIGOP : Z := 5000.
Definition MAX_PQ_PUBKEYS_PER_MULTISIG : Z := 8.
Definition MAX_P2MR_ELEMENT_SIZE : Z := 10000.
Definition MAX_P2MR_SCRIPT_SIZE : Z := 11000.
Definition MAX_P2MR_STACK_BYTES : Z := 1000000.

(** ** Opcodes

    The enumeration; [opcode_byte] is a byte the enumeration does not name: a
    direct push of 1 to 75 bytes, or an unassigned opcode. *)
Inductive opcodetype :=
| OP_0 | OP_PUSHDATA1 | OP_PUSHDATA2 | OP_PUSHDATA4 | OP_1NEGATE | OP_RESERVED | OP_1 | OP_2 | OP_3 | OP_4 | OP_5
| OP_6 | OP_7 | OP_8 | OP_9 | OP_10 | OP_11 | OP_12 | OP_13 | OP_14 | OP_15 | OP_16 | OP_NOP | OP_VER | OP_IF
| OP_NOTIF | OP_VERIF | OP_VERNOTIF | OP_ELSE | OP_ENDIF | OP_VERIFY | OP_RETURN | OP_TOALTSTACK | OP_FROMALTSTACK
| OP_2DROP | OP_2DUP | OP_3DUP | OP_2OVER | OP_2ROT | OP_2SWAP | OP_IFDUP | OP_DEPTH | OP_DROP | OP_DUP | OP_NIP
| OP_OVER | OP_PICK | OP_ROLL | OP_ROT | OP_SWAP | OP_TUCK | OP_CAT | OP_SUBSTR | OP_LEFT | OP_RIGHT | OP_SIZE
| OP_INVERT | OP_AND | OP_OR | OP_XOR | OP_EQUAL | OP_EQUALVERIFY | OP_RESERVED1 | OP_RESERVED2 | OP_1ADD | OP_1SUB
| OP_2MUL | OP_2DIV | OP_NEGATE | OP_ABS | OP_NOT | OP_0NOTEQUAL | OP_ADD | OP_SUB | OP_MUL | OP_DIV | OP_MOD
| OP_LSHIFT | OP_RSHIFT | OP_BOOLAND | OP_BOOLOR | OP_NUMEQUAL | OP_NUMEQUALVERIFY | OP_NUMNOTEQUAL | OP_LESSTHAN
| OP_GREATERTHAN | OP_LESSTHANOREQUAL | OP_GREATERTHANOREQUAL | OP_MIN | OP_MAX | OP_WITHIN | OP_RIPEMD160
| OP_SHA1 | OP_SHA256 | OP_HASH160 | OP_HASH256 | OP_CODESEPARATOR | OP_CHECKSIG | OP_CHECKSIGVERIFY
| OP_CHECKMULTISIG | OP_CHECKMULTISIGVERIFY | OP_NOP1 | OP_CHECKLOCKTIMEVERIFY | OP_CHECKSEQUENCEVERIFY
| OP_CHECKTEMPLATEVERIFY | OP_NOP5 | OP_NOP6 | OP_NOP7 | OP_NOP8 | OP_NOP9 | OP_NOP10 | OP_CHECKSIGADD
| OP_CHECKSIG_MLDSA | OP_CHECKSIG_SLHDSA | OP_CHECKSIGFROMSTACK | OP_CHECKSIGADD_MLDSA | OP_CHECKSIGADD_SLHDSA
| OP_CHECKSIG_FALCON | OP_CHECKSIGADD_FALCON | OP_CHECKSIGFROMSTACK_FALCON | OP_INVALIDOPCODE
| opcode_byte (b : Z).

Definition opcode_value (op : opcodetype) : Z :=
  match op with
  | OP_0 => 0x00 | OP_PUSHDATA1 => 0x4c | OP_PUSHDATA2 => 0x4d | OP_PUSHDATA4 => 0x4e | OP_1NEGATE => 0x4f
  | OP_RESERVED => 0x50 | OP_1 => 0x51 | OP_2 => 0x52 | OP_3 => 0x53 | OP_4 => 0x54 | OP_5 => 0x55 | OP_6 => 0x56
  | OP_7 => 0x57 | OP_8 => 0x58 | OP_9 => 0x59 | OP_10 => 0x5a | OP_11 => 0x5b | OP_12 => 0x5c | OP_13 => 0x5d
  | OP_14 => 0x5e | OP_15 => 0x5f | OP_16 => 0x60 | OP_NOP => 0x61 | OP_VER => 0x62 | OP_IF => 0x63
  | OP_NOTIF => 0x64 | OP_VERIF => 0x65 | OP_VERNOTIF => 0x66 | OP_ELSE => 0x67 | OP_ENDIF => 0x68
  | OP_VERIFY => 0x69 | OP_RETURN => 0x6a | OP_TOALTSTACK => 0x6b | OP_FROMALTSTACK => 0x6c | OP_2DROP => 0x6d
  | OP_2DUP => 0x6e | OP_3DUP => 0x6f | OP_2OVER => 0x70 | OP_2ROT => 0x71 | OP_2SWAP => 0x72 | OP_IFDUP => 0x73
  | OP_DEPTH => 0x74 | OP_DROP => 0x75 | OP_DUP => 0x76 | OP_NIP => 0x77 | OP_OVER => 0x78 | OP_PICK => 0x79
  | OP_ROLL => 0x7a | OP_ROT => 0x7b | OP_SWAP => 0x7c | OP_TUCK => 0x7d | OP_CAT => 0x7e | OP_SUBSTR => 0x7f
  | OP_LEFT => 0x80 | OP_RIGHT => 0x81 | OP_SIZE => 0x82 | OP_INVERT => 0x83 | OP_AND => 0x84 | OP_OR => 0x85
  | OP_XOR => 0x86 | OP_EQUAL => 0x87 | OP_EQUALVERIFY => 0x88 | OP_RESERVED1 => 0x89 | OP_RESERVED2 => 0x8a
  | OP_1ADD => 0x8b | OP_1SUB => 0x8c | OP_2MUL => 0x8d | OP_2DIV => 0x8e | OP_NEGATE => 0x8f | OP_ABS => 0x90
  | OP_NOT => 0x91 | OP_0NOTEQUAL => 0x92 | OP_ADD => 0x93 | OP_SUB => 0x94 | OP_MUL => 0x95 | OP_DIV => 0x96
  | OP_MOD => 0x97 | OP_LSHIFT => 0x98 | OP_RSHIFT => 0x99 | OP_BOOLAND => 0x9a | OP_BOOLOR => 0x9b
  | OP_NUMEQUAL => 0x9c | OP_NUMEQUALVERIFY => 0x9d | OP_NUMNOTEQUAL => 0x9e | OP_LESSTHAN => 0x9f
  | OP_GREATERTHAN => 0xa0 | OP_LESSTHANOREQUAL => 0xa1 | OP_GREATERTHANOREQUAL => 0xa2 | OP_MIN => 0xa3
  | OP_MAX => 0xa4 | OP_WITHIN => 0xa5 | OP_RIPEMD160 => 0xa6 | OP_SHA1 => 0xa7 | OP_SHA256 => 0xa8
  | OP_HASH160 => 0xa9 | OP_HASH256 => 0xaa | OP_CODESEPARATOR => 0xab | OP_CHECKSIG => 0xac
  | OP_CHECKSIGVERIFY => 0xad | OP_CHECKMULTISIG => 0xae | OP_CHECKMULTISIGVERIFY => 0xaf | OP_NOP1 => 0xb0
  | OP_CHECKLOCKTIMEVERIFY => 0xb1 | OP_CHECKSEQUENCEVERIFY => 0xb2 | OP_CHECKTEMPLATEVERIFY => 0xb3
  | OP_NOP5 => 0xb4 | OP_NOP6 => 0xb5 | OP_NOP7 => 0xb6 | OP_NOP8 => 0xb7 | OP_NOP9 => 0xb8 | OP_NOP10 => 0xb9
  | OP_CHECKSIGADD => 0xba | OP_CHECKSIG_MLDSA => 0xbb | OP_CHECKSIG_SLHDSA => 0xbc | OP_CHECKSIGFROMSTACK => 0xbd
  | OP_CHECKSIGADD_MLDSA => 0xbe | OP_CHECKSIGADD_SLHDSA => 0xbf | OP_CHECKSIG_FALCON => 0xc0
  | OP_CHECKSIGADD_FALCON => 0xc1 | OP_CHECKSIGFROMSTACK_FALCON => 0xc2 | OP_INVALIDOPCODE => 0xff
  | opcode_byte b => b
  end.

Definition to_opcode (b : Z) : opcodetype :=
  match b with
  | 0x00 => OP_0 | 0x4c => OP_PUSHDATA1 | 0x4d => OP_PUSHDATA2 | 0x4e => OP_PUSHDATA4 | 0x4f => OP_1NEGATE
  | 0x50 => OP_RESERVED | 0x51 => OP_1 | 0x52 => OP_2 | 0x53 => OP_3 | 0x54 => OP_4 | 0x55 => OP_5 | 0x56 => OP_6
  | 0x57 => OP_7 | 0x58 => OP_8 | 0x59 => OP_9 | 0x5a => OP_10 | 0x5b => OP_11 | 0x5c => OP_12 | 0x5d => OP_13
  | 0x5e => OP_14 | 0x5f => OP_15 | 0x60 => OP_16 | 0x61 => OP_NOP | 0x62 => OP_VER | 0x63 => OP_IF
  | 0x64 => OP_NOTIF | 0x65 => OP_VERIF | 0x66 => OP_VERNOTIF | 0x67 => OP_ELSE | 0x68 => OP_ENDIF
  | 0x69 => OP_VERIFY | 0x6a => OP_RETURN | 0x6b => OP_TOALTSTACK | 0x6c => OP_FROMALTSTACK | 0x6d => OP_2DROP
  | 0x6e => OP_2DUP | 0x6f => OP_3DUP | 0x70 => OP_2OVER | 0x71 => OP_2ROT | 0x72 => OP_2SWAP | 0x73 => OP_IFDUP
  | 0x74 => OP_DEPTH | 0x75 => OP_DROP | 0x76 => OP_DUP | 0x77 => OP_NIP | 0x78 => OP_OVER | 0x79 => OP_PICK
  | 0x7a => OP_ROLL | 0x7b => OP_ROT | 0x7c => OP_SWAP | 0x7d => OP_TUCK | 0x7e => OP_CAT | 0x7f => OP_SUBSTR
  | 0x80 => OP_LEFT | 0x81 => OP_RIGHT | 0x82 => OP_SIZE | 0x83 => OP_INVERT | 0x84 => OP_AND | 0x85 => OP_OR
  | 0x86 => OP_XOR | 0x87 => OP_EQUAL | 0x88 => OP_EQUALVERIFY | 0x89 => OP_RESERVED1 | 0x8a => OP_RESERVED2
  | 0x8b => OP_1ADD | 0x8c => OP_1SUB | 0x8d => OP_2MUL | 0x8e => OP_2DIV | 0x8f => OP_NEGATE | 0x90 => OP_ABS
  | 0x91 => OP_NOT | 0x92 => OP_0NOTEQUAL | 0x93 => OP_ADD | 0x94 => OP_SUB | 0x95 => OP_MUL | 0x96 => OP_DIV
  | 0x97 => OP_MOD | 0x98 => OP_LSHIFT | 0x99 => OP_RSHIFT | 0x9a => OP_BOOLAND | 0x9b => OP_BOOLOR
  | 0x9c => OP_NUMEQUAL | 0x9d => OP_NUMEQUALVERIFY | 0x9e => OP_NUMNOTEQUAL | 0x9f => OP_LESSTHAN
  | 0xa0 => OP_GREATERTHAN | 0xa1 => OP_LESSTHANOREQUAL | 0xa2 => OP_GREATERTHANOREQUAL | 0xa3 => OP_MIN
  | 0xa4 => OP_MAX | 0xa5 => OP_WITHIN | 0xa6 => OP_RIPEMD160 | 0xa7 => OP_SHA1 | 0xa8 => OP_SHA256
  | 0xa9 => OP_HASH160 | 0xaa => OP_HASH256 | 0xab => OP_CODESEPARATOR | 0xac => OP_CHECKSIG
  | 0xad => OP_CHECKSIGVERIFY | 0xae => OP_CHECKMULTISIG | 0xaf => OP_CHECKMULTISIGVERIFY | 0xb0 => OP_NOP1
  | 0xb1 => OP_CHECKLOCKTIMEVERIFY | 0xb2 => OP_CHECKSEQUENCEVERIFY | 0xb3 => OP_CHECKTEMPLATEVERIFY
  | 0xb4 => OP_NOP5 | 0xb5 => OP_NOP6 | 0xb6 => OP_NOP7 | 0xb7 => OP_NOP8 | 0xb8 => OP_NOP9 | 0xb9 => OP_NOP10
  | 0xba => OP_CHECKSIGADD | 0xbb => OP_CHECKSIG_MLDSA | 0xbc => OP_CHECKSIG_SLHDSA | 0xbd => OP_CHECKSIGFROMSTACK
  | 0xbe => OP_CHECKSIGADD_MLDSA | 0xbf => OP_CHECKSIGADD_SLHDSA | 0xc0 => OP_CHECKSIG_FALCON
  | 0xc1 => OP_CHECKSIGADD_FALCON | 0xc2 => OP_CHECKSIGFROMSTACK_FALCON | 0xff => OP_INVALIDOPCODE
  | _ => opcode_byte b
  end.

(** Comparisons of opcodes are comparisons of their values. *)
Definition op_le (a b : opcodetype) : bool := opcode_value a <=? opcode_value b.
Definition op_is (a b : opcodetype) : bool := opcode_value a =? opcode_value b.

Definition MAX_OPCODE : opcodetype := OP_CHECKSIGFROMSTACK_FALCON.

(** ** Numbers *)
Definition INT_MAX : Z := 2 ^ 31 - 1.
Definition INT_MIN : Z := - 2 ^ 31.
Definition int64_range (v : Z) : bool := (- 2 ^ 63 <=? v) && (v <=? 2 ^ 63 - 1).

Fixpoint magnitude_bytes (fuel : nat) (absvalue : Z) : list Z :=
  match fuel with
  | O => []
  | S fuel => if absvalue =? 0 then [] else Z.land absvalue 0xff :: magnitude_bytes fuel (Z.shiftr absvalue 8)
  end.

(** [|=] on the last element. *)
Definition or_back (l : list Z) (m : Z) : list Z :=
  match reverse l with [] => [] | b :: r => reverse (Z.lor b m :: r) end.

(** A [uint64_t] is empty after eight shifts by a byte. *)
Definition serialize (value : Z) : list Z :=
  if value =? 0 then [] else
  let neg := value <? 0 in
  let absvalue := if neg then u64 (u64 (Z.lnot (u64 value)) + 1) else u64 value in
  let result := magnitude_bytes 8 absvalue in
  if negb (Z.land (default 0 (list.last result)) 0x80 =? 0) then result ++ [if neg then 0x80 else 0]
  else if neg then or_back result 0x80
  else result.

Fixpoint or_bytes (i : Z) (vch : list Z) (result : Z) : Z :=
  match vch with
  | [] => result
  | b :: vch => or_bytes (i + 1) vch (Z.lor result (Z.shiftl b (8 * i)))
  end.

Definition set_vch (vch : list Z) : Z :=
  if bool_decide (vch = []) then 0 else
  let result := or_bytes 0 vch 0 in
  if negb (Z.land (default 0 (list.last vch)) 0x80 =? 0)
  then - Z.land result (Z.lnot (Z.shiftl 0x80 (8 * (zlen vch - 1))))
  else result.

Definition nDefaultMaxNumSize : Z := 4.

(** The constructor from bytes; [scriptnum_error] is a [std::runtime_error]. *)
Definition num_overflow : string := "script number overflow".
Definition num_not_minimal : string := "non-minimally encoded script number".

Definition is_minimal_num (vch : list Z) : bool :=
  match reverse vch with
  | [] => true
  | [b] => negb (Z.land b 0x7f =? 0)
  | b :: c :: _ => negb (Z.land b 0x7f =? 0) || negb (Z.land c 0x80 =? 0)
  end.

Definition CScriptNum (vch : list Z) (fRequireMinimal : bool) (nMaxNumSize : Z) : result Z :=
  _ ← throw_if (nMaxNumSize <? zlen vch) num_overflow;
  _ ← throw_if (fRequireMinimal && negb (is_minimal_num vch)) num_not_minimal;
  Ok (set_vch vch).

(** [operator+] and [operator-] overflow without a check, which is undefined;
    [+=], [-=] and the negation assert that they do not. *)
Definition num_add (a b : Z) : result Z := if int64_range (a + b) then Ok (a + b) else Err EBounds.
Definition num_sub (a b : Z) : result Z := if int64_range (a - b) then Ok (a - b) else Err EBounds.
Definition num_incr (a b : Z) : result Z := _ ← assert_ (int64_range (a + b)); Ok (a + b).
Definition num_decr (a b : Z) : result Z := _ ← assert_ (int64_range (a - b)); Ok (a - b).
Definition num_neg (a : Z) : result Z := _ ← assert_ (negb (a =? - 2 ^ 63)); Ok (- a).

Definition getint (v : Z) : Z := if INT_MAX <? v then INT_MAX else if v <? INT_MIN then INT_MIN else v.

(** ** Reading instructions *)
Definition ReadLE16 (p : list Z) : Z := le_word (take 2 p).

(** The size of the data of a push, and the iterator behind it. *)
Definition push_size (opcode : Z) (pc : list Z) : bool * Z * list Z :=
  if opcode <? 0x4c then (true, opcode, pc)
  else if opcode =? 0x4c then
    match pc with [] => (false, 0, pc) | b :: pc => (true, b, pc) end
  else if opcode =? 0x4d then
    if zlen pc <? 2 then (false, 0, pc) else (true, ReadLE16 pc, drop 2 pc)
  else
    if zlen pc <? 4 then (false, 0, pc) else (true, ReadLE32 pc, drop 4 pc).

(** Whether an instruction was read, the opcode, the data it pushes and the
    iterator, which a failed read may have moved. *)
Definition GetScriptOp (pc : list Z) : bool * opcodetype * list Z * list Z :=
  match pc with
  | [] => (false, OP_INVALIDOPCODE, [], [])
  | opcode :: pc =>
      if opcode <=? 0x4e then
        let '(ok, nSize, pc) := push_size opcode pc in
        if negb ok || (zlen pc <? nSize) then (false, OP_INVALIDOPCODE, [], pc)
        else (true, to_opcode opcode, take (Z.to_nat nSize) pc, drop (Z.to_nat nSize) pc)
      else (true, to_opcode opcode, [], pc)
  end.

(** A loop [while (pc < end())] that reads an instruction per turn: [bad] is
    what it does when that fails, [step] may leave it. *)
Fixpoint ops_loop {S A} (fuel : nat) (bad done : S → A) (step : opcodetype → list Z → S → S + A) (pc : list Z) (s : S) : A :=
  match fuel, pc with
  | O, _ | _, [] => done s
  | Datatypes.S fuel, _ =>
      let '(ok, opcode, data, pc) := GetScriptOp pc in
      if ok then
        match step opcode data s with
        | inl s => ops_loop fuel bad done step pc s
        | inr a => a
        end
      else bad s
  end.

Definition over_ops {S A} (script : list Z) (bad done : S → A) (step : opcodetype → list Z → S → S + A) (s : S) : A :=
  ops_loop (length script) bad done step script s.

(** ** Writing instructions *)
Definition AppendDataSize (size : Z) : list Z :=
  if size <? 0x4c then [size]
  else if size <=? 0xff then [0x4c; size]
  else if size <=? 0xffff then 0x4d :: WriteLE16 size
  else 0x4e :: WriteLE32 size.

Definition push_data (b : list Z) : list Z := AppendDataSize (zlen b) ++ b.
Definition push_opcode (op : opcodetype) : list Z := [opcode_value op].
Definition push_int64 (n : Z) : list Z :=
  if (n =? -1) || ((1 <=? n) && (n <=? 16)) then [n + (opcode_value OP_1 - 1)]
  else if n =? 0 then [opcode_value OP_0]
  else push_data (serialize n).

Definition DecodeOP_N (op : opcodetype) : result Z :=
  if op_is op OP_0 then Ok 0 else
  _ ← assert_ (op_le OP_1 op && op_le op OP_16);
  Ok (opcode_value op - (opcode_value OP_1 - 1)).

(** ** Predicates on scripts *)
Definition IsPayToScriptHash (s : list Z) : bool :=
  (zlen s =? 23) && (znth s 0 =? opcode_value OP_HASH160) && (znth s 1 =? 0x14) && (znth s 22 =? opcode_value OP_EQUAL).

Definition IsPayToAnchor (version : Z) (program : list Z) : bool :=
  (version =? 1) && (zlen program =? 2) && (znth program 0 =? 0x4e) && (znth program 1 =? 0x73).

(** The version and the program. *)
Definition IsWitnessProgram (s : list Z) : result (option (Z * list Z)) :=
  if (zlen s <? 4) || (42 <? zlen s) then Ok None
  else if negb (znth s 0 =? opcode_value OP_0) && ((znth s 0 <? opcode_value OP_1) || (opcode_value OP_16 <? znth s 0)) then Ok None
  else if znth s 1 + 2 =? zlen s then
    version ← DecodeOP_N (to_opcode (znth s 0));
    Ok (Some (version, drop 2 s))
  else Ok None.

Definition IsPushOnly (s : list Z) : bool :=
  over_ops s (λ _, false) (λ _, true) (λ op _ u, if op_le op OP_16 then inl u else inr false) ().

Definition HasValidOps (s : list Z) : bool :=
  over_ops s (λ _, false) (λ _, true)
    (λ op item u, if op_le op MAX_OPCODE && (zlen item <=? MAX_SCRIPT_ELEMENT_SIZE) then inl u else inr false) ().

Definition counts_as_sigop (op : opcodetype) : bool :=
  match op with
  | OP_CHECKSIG | OP_CHECKSIGVERIFY | OP_CHECKSIG_MLDSA | OP_CHECKSIG_SLHDSA | OP_CHECKSIGFROMSTACK
  | OP_CHECKSIGADD_MLDSA | OP_CHECKSIGADD_SLHDSA => true
  | _ => false
  end.

Definition sigop_step (fAccurate : bool) (op : opcodetype) (acc : Z * opcodetype) : result (Z * opcodetype) :=
  let '(n, lastOpcode) := acc in
  if counts_as_sigop op then Ok (u32 (n + 1), op)
  else if op_is op OP_CHECKMULTISIG || op_is op OP_CHECKMULTISIGVERIFY then
    if fAccurate && op_le OP_1 lastOpcode && op_le lastOpcode OP_16 then
      k ← DecodeOP_N lastOpcode;
      Ok (u32 (n + k), op)
    else Ok (u32 (n + MAX_PUBKEYS_PER_MULTISIG), op)
  else Ok (n, op).

Definition GetSigOpCount (s : list Z) (fAccurate : bool) : result Z :=
  over_ops s (λ acc, Ok acc.1) (λ acc, Ok acc.1)
    (λ op _ acc, match sigop_step fAccurate op acc with Ok acc => inl acc | Err e => inr (Err e) end)
    (0, OP_INVALIDOPCODE).

(** The count of a spend: behind pay-to-script-hash, that of the last push. *)
Definition GetSigOpCount_of (s scriptSig : list Z) : result Z :=
  if negb (IsPayToScriptHash s) then GetSigOpCount s true else
  over_ops scriptSig (λ _, Ok 0) (λ vData, GetSigOpCount vData true)
    (λ op vData _, if op_le op OP_16 then inl vData else inr (Ok 0)) [].

(** ** Opcodes that may be assigned later *)
Definition IsOpSuccess (op : opcodetype) : bool :=
  let o := opcode_value op in
  (o =? 80) || (o =? 98) || ((126 <=? o) && (o <=? 129)) || ((131 <=? o) && (o <=? 134)) || ((137 <=? o) && (o <=? 138)) ||
  ((141 <=? o) && (o <=? 142)) || ((149 <=? o) && (o <=? 153)) || ((187 <=? o) && (o <=? 254)).

Definition IsOpSuccessP2MR (op : opcodetype) : bool :=
  if negb (IsOpSuccess op) then false else
  negb (op_is op OP_CHECKSIG_MLDSA) && negb (op_is op OP_CHECKSIG_SLHDSA) && negb (op_is op OP_CHECKSIGFROMSTACK) &&
  negb (op_is op OP_CHECKSIGADD_MLDSA) && negb (op_is op OP_CHECKSIGADD_SLHDSA).

Definition CheckMinimalPush (data : list Z) (op : opcodetype) : result bool :=
  _ ← assert_ (op_le op OP_PUSHDATA4);
  Ok (if zlen data =? 0 then op_is op OP_0
      else if (zlen data =? 1) && (1 <=? znth data 0) && (znth data 0 <=? 16) then false
      else if (zlen data =? 1) && (znth data 0 =? 0x81) then false
      else if zlen data <=? 75 then opcode_value op =? zlen data
      else if zlen data <=? 255 then op_is op OP_PUSHDATA1
      else if zlen data <=? 65535 then op_is op OP_PUSHDATA2
      else true).

End script.
