(* ===== verification/ScriptLaws.v ===== *)
(** Laws of script numbers and instructions.

    The encoding of a number and its decoding are inverse to each other on
    minimal encodings; what is written is read back; the loops over a script
    end. *)

From Stdlib Require Import ZArith Lia String.
From stdpp Require Import base list numbers tactics.
From S2P Require Import Prelude Sha256 Script.
Import script.

Open Scope Z_scope.

Module script_laws.

(** ** Bytes *)
Lemma le_word_snoc l b : le_word (l ++ [b]) = le_word l + 2 ^ (8 * zlen l) * b.
Proof.
  induction l as [|a l IH]; [change (2 ^ (8 * zlen (@nil Z))) with 1; simpl; lia|].
  change (le_word ((a :: l) ++ [b])) with (a + 256 * le_word (l ++ [b])).
  change (le_word (a :: l)) with (a + 256 * le_word l).
  replace (8 * zlen (a :: l)) with (8 + 8 * zlen l) by (unfold zlen; simpl length; lia).
  rewrite IH, Z.pow_add_r by (pose proof (zlen_nonneg l); lia). change (2 ^ 8) with 256. lia.
Qed.

Lemma shiftl_pow a n : 0 ≤ n → Z.shiftl a n = a * 2 ^ n.
Proof. intros. by rewrite Z.shiftl_mul_pow2. Qed.

Lemma lor_shiftl_add x b n : 0 ≤ n → 0 ≤ x < 2 ^ n → 0 ≤ b → Z.lor x (Z.shiftl b n) = x + 2 ^ n * b.
Proof.
  intros Hn Hx Hb. rewrite <- Z.add_lor_land.
  rewrite shiftl_pow, (Z.mul_comm (2 ^ n)) by done.
  enough (Z.land x (b * 2 ^ n) = 0) by lia.
  apply Z.bits_inj'. intros i Hi. rewrite Z.land_spec, Z.bits_0.
  destruct (decide (i < n)).
  - rewrite Z.mul_pow2_bits_low by lia. apply andb_false_r.
  - replace (Z.testbit x i) with false; [done|]. symmetry.
    rewrite <- (Z.mod_small x (2 ^ n)) by done. apply Z.mod_pow2_bits_high. lia.
Qed.

Lemma or_bytes_word l i r :
  0 ≤ i → Forall is_byte l → 0 ≤ r < 2 ^ (8 * i) → or_bytes i l r = r + 2 ^ (8 * i) * le_word l.
Proof.
  intros Hi Hl. revert i Hi r. induction Hl as [|b l Hb Hl IH]; intros i Hi r Hr; simpl; [lia|].
  assert (2 ^ (8 * (i + 1)) = 256 * 2 ^ (8 * i)) as E.
  { replace (8 * (i + 1)) with (8 + 8 * i) by lia. rewrite Z.pow_add_r by lia. done. }
  rewrite lor_shiftl_add by (unfold is_byte in Hb; lia).
  unfold is_byte in Hb. rewrite IH; [rewrite E; nia|lia|rewrite E; nia].
Qed.

Lemma clear_high_bit y n :
  0 ≤ n → 0 ≤ y < 2 ^ n * 128 → Z.land (y + 2 ^ n * 128) (Z.lnot (Z.shiftl 128 n)) = y.
Proof.
  intros Hn Hy. assert (2 ^ (n + 7) = 2 ^ n * 128) as E by (rewrite Z.pow_add_r by lia; done).
  replace (y + 2 ^ n * 128) with (y + 2 ^ (n + 7) * 1) by lia.
  rewrite <- lor_shiftl_add by lia.
  replace (Z.shiftl 128 n) with (Z.shiftl 1 (n + 7)) by (rewrite !Z.shiftl_mul_pow2 by lia; lia).
  apply Z.bits_inj'. intros i Hi. rewrite Z.land_spec, Z.lor_spec, Z.lnot_spec, Z.shiftl_spec by lia.
  destruct (decide (i = n + 7)) as [->|].
  - rewrite Z.sub_diag. cbn. rewrite andb_false_r. symmetry.
    rewrite <- (Z.mod_small y (2 ^ (n + 7))) by lia. apply Z.mod_pow2_bits_high. lia.
  - replace (Z.testbit 1 (i - (n + 7))) with false; [by rewrite orb_false_r, andb_true_r|].
    symmetry. destruct (decide (i < n + 7)); [apply Z.testbit_neg_r; lia|].
    apply (Z.bits_above_log2 1); simpl; lia.
Qed.

Lemma bytes_snoc l b : Forall is_byte l → is_byte b → Forall is_byte (l ++ [b]).
Proof. intros. apply Forall_app. split; [done|]. by apply Forall_singleton. Qed.

(** A property of bytes that evaluates to true on all of them. *)
Lemma for_all_bytes (P : Z → bool) :
  forallb P (Z.of_nat <$> seq 0 256) = true → ∀ b, is_byte b → P b = true.
Proof.
  intros H b Hb. unfold is_byte in Hb. rewrite forallb_forall in H. apply H, list_elem_of_In, list_elem_of_fmap.
  exists (Z.to_nat b). split; [lia|]. apply elem_of_seq. lia.
Qed.

Ltac by_bytes P := apply Z.eqb_eq || apply eqb_true_iff; apply (for_all_bytes P); [vm_compute; reflexivity|assumption].

Lemma byte_high_bit b : is_byte b → (Z.land b 0x80 =? 0) = (b <? 128).
Proof. intros. by_bytes (λ b, Bool.eqb (Z.land b 0x80 =? 0) (b <? 128)). Qed.

Lemma byte_low_bits b : is_byte b → Z.land b 0x7f = b mod 128.
Proof. intros. by_bytes (λ b, Z.land b 0x7f =? b mod 128). Qed.

Lemma byte_set_high b : is_byte b → Z.lor b 0x80 = b mod 128 + 128.
Proof. intros. by_bytes (λ b, Z.lor b 0x80 =? b mod 128 + 128). Qed.

(** ** Numbers *)
Lemma magnitude_word n a : 0 ≤ a < 2 ^ (8 * Z.of_nat n) → le_word (magnitude_bytes n a) = a.
Proof.
  revert a. induction n as [|n IH]; intros a Ha; [change (2 ^ (8 * Z.of_nat 0)) with 1 in Ha; simpl; lia|].
  cbn [magnitude_bytes]. destruct (a =? 0) eqn:E; [simpl; lia|]. cbn [le_word].
  rewrite IH.
  - rewrite (land_mask a 8 0xff), Z.shiftr_div_pow2 by done. change (2 ^ 8) with 256.
    pose proof (Z.div_mod a 256). lia.
  - rewrite Z.shiftr_div_pow2 by done. change (2 ^ 8) with 256. split; [apply Z.div_pos; lia|].
    apply Z.div_lt_upper_bound; [lia|]. replace (256 * 2 ^ (8 * Z.of_nat n)) with (2 ^ (8 * Z.of_nat (S n))); [lia|].
    replace (8 * Z.of_nat (S n)) with (8 + 8 * Z.of_nat n) by lia. rewrite Z.pow_add_r by lia. done.
Qed.

Lemma magnitude_length n a : (length (magnitude_bytes n a) ≤ n)%nat.
Proof. revert a. induction n as [|n IH]; intros a; simpl; [lia|]. case_match; simpl; [lia|]. specialize (IH (Z.shiftr a 8)). lia. Qed.

Lemma le_word_zero_top l b : Forall is_byte l → is_byte b → le_word (l ++ [b]) = 0 → b = 0.
Proof.
  intros Hl [? ?] E. rewrite le_word_snoc in E. pose proof (le_word_bound l Hl). pose proof (zlen_nonneg l).
  assert (0 < 2 ^ (8 * zlen l)) by (apply Z.pow_pos_nonneg; lia). nia.
Qed.

(** The magnitude is the only list of bytes with its value and a top byte that
    is not zero. *)
Lemma magnitude_unique n l b :
  Forall is_byte l → is_byte b → b ≠ 0 → (length l < n)%nat → magnitude_bytes n (le_word (l ++ [b])) = l ++ [b].
Proof.
  intros Hl Hb Hnz. revert n. induction Hl as [|a l Ha Hl IH]; intros n Hn; (destruct n as [|n]; [simpl in Hn; lia|]).
  - simpl. unfold is_byte in *. rewrite Z.mul_0_r, Z.add_0_r. destruct (Z.eqb_spec b 0); [lia|].
    rewrite (land_mask b 8 0xff), Z.shiftr_div_pow2 by done. change (2 ^ 8) with 256.
    rewrite Z.mod_small, Z.div_small by lia. by destruct n.
  - change (le_word ((a :: l) ++ [b])) with (a + 256 * le_word (l ++ [b])).
    assert (0 < le_word (l ++ [b])).
    { pose proof (le_word_bound (l ++ [b])) as B. destruct (decide (le_word (l ++ [b]) = 0)) as [E|].
      - by apply le_word_zero_top in E.
      - enough (0 ≤ le_word (l ++ [b])) by lia. by apply B, bytes_snoc. }
    unfold is_byte in Ha. cbn [magnitude_bytes]. destruct (Z.eqb_spec (a + 256 * le_word (l ++ [b])) 0); [lia|].
    rewrite (land_mask _ 8 0xff), Z.shiftr_div_pow2 by done. change (2 ^ 8) with 256.
    replace (a + 256 * le_word (l ++ [b])) with (a + le_word (l ++ [b]) * 256) by lia.
    rewrite Z.mod_add, Z.div_add, Z.mod_small, Z.div_small, Z.add_0_l by lia.
    rewrite IH by (simpl in Hn; lia). done.
Qed.

Lemma magnitude_is_byte n a : Forall is_byte (magnitude_bytes n a).
Proof.
  revert a. induction n as [|n IH]; intros a; simpl; [constructor|]. case_match; constructor; [|apply IH].
  rewrite (land_mask _ 8 0xff) by done. unfold is_byte. apply Z.mod_pos_bound. done.
Qed.

Lemma magnitude_top n a l b : magnitude_bytes n a = l ++ [b] → 0 ≤ a < 2 ^ (8 * Z.of_nat n) → b ≠ 0.
Proof.
  revert a l. induction n as [|n IH]; intros a l H Ha; simpl in H; [by destruct l|].
  destruct (Z.eqb_spec a 0) as [->|Hz]; [by destruct l|].
  assert (0 ≤ Z.shiftr a 8 < 2 ^ (8 * Z.of_nat n)) as Hs.
  { rewrite Z.shiftr_div_pow2 by done. split; [apply Z.div_pos; lia|]. apply Z.div_lt_upper_bound; [lia|].
    rewrite <- Z.pow_add_r by lia. replace (8 + 8 * Z.of_nat n) with (8 * Z.of_nat (S n)) by lia. lia. }
  destruct l as [|x l]; simpl in H.
  - injection H as <- E1. pose proof (magnitude_word n _ Hs) as W. rewrite E1 in W. simpl in W.
    rewrite (land_mask a 8 0xff) by done. rewrite Z.shiftr_div_pow2 in W by done.
    pose proof (Z.div_mod a (2 ^ 8)). lia.
  - injection H as _ E. by apply IH in E.
Qed.

Lemma last_snoc_default (l : list Z) b : default 0 (list.last (l ++ [b])) = b.
Proof. by rewrite last_snoc. Qed.

(** The value a number's bytes encode: the top bit is the sign. *)
Lemma set_vch_snoc l b :
  Forall is_byte l → is_byte b →
  set_vch (l ++ [b]) = (if b <? 128 then 1 else -1) * (le_word l + 2 ^ (8 * zlen l) * (b mod 128)).
Proof.
  intros Hl Hb. unfold set_vch. rewrite bool_decide_false by (by destruct l).
  pose proof (bytes_snoc l b Hl Hb) as Hlb.
  rewrite or_bytes_word, last_snoc_default, byte_high_bit by (done || simpl; lia).
  change (2 ^ (8 * 0)) with 1. rewrite Z.mul_1_l, Z.add_0_l.
  pose proof (le_word_bound l Hl) as B. pose proof (zlen_nonneg l) as HL.
  assert (0 < 2 ^ (8 * zlen l)) as HP by (apply Z.pow_pos_nonneg; lia).
  unfold is_byte in Hb. destruct (Z.ltb_spec b 128); cbn [negb].
  - rewrite le_word_snoc, Z.mod_small by lia. lia.
  - replace (8 * (zlen (l ++ [b]) - 1)) with (8 * zlen l) by (rewrite zlen_app; unfold zlen; simpl length; lia).
    rewrite le_word_snoc. assert (0 ≤ b mod 128 < 128 ∧ b = b mod 128 + 128) as [Hr Er] by divmod_lia.
    revert Hr Er. generalize (b mod 128). intros r Hr ->.
    enough (Z.land (le_word l + 2 ^ (8 * zlen l) * (r + 128)) (Z.lnot (Z.shiftl 128 (8 * zlen l))) =
            le_word l + 2 ^ (8 * zlen l) * r) by lia.
    replace (le_word l + 2 ^ (8 * zlen l) * (r + 128)) with (le_word l + 2 ^ (8 * zlen l) * r + 2 ^ (8 * zlen l) * 128) by lia.
    apply clear_high_bit; [lia|nia].
Qed.

Definition int64 (v : Z) : Prop := - 2 ^ 63 ≤ v < 2 ^ 63.

Lemma int64_range_true v : int64_range v = true ↔ int64 v.
Proof. unfold int64_range, int64. rewrite andb_true_iff, !Z.leb_le. lia. Qed.

Lemma magnitude_of v :
  int64 v → (if v <? 0 then u64 (u64 (Z.lnot (u64 v)) + 1) else u64 v) = Z.abs v.
Proof.
  unfold int64. intros Hv. rewrite !u64_mod. unfold Z.lnot. destruct (Z.ltb_spec v 0).
  - rewrite Zplus_mod_idemp_l, Z.abs_neq by lia.
    replace (Z.pred (- (v mod 2 ^ 64)) + 1) with (- (v mod 2 ^ 64)) by lia.
    rewrite <- (Z.mod_small (- v) (2 ^ 64)) by lia. rewrite <- !(Z.sub_0_l (_ mod _)), <- !(Z.sub_0_l v).
    by rewrite Zminus_mod_idemp_r.
  - rewrite Z.abs_eq, Z.mod_small by lia. done.
Qed.

Definition sign_bit (neg : bool) : Z := if neg then 128 else 0.

(** The encoding: the magnitude, its top bit free for the sign. *)
Lemma serialize_shape v :
  int64 v → v ≠ 0 →
  ∃ l t, Forall is_byte l ∧ is_byte t ∧ t ≠ 0 ∧ (length l < 8)%nat ∧ le_word (l ++ [t]) = Z.abs v ∧
    serialize v = (if t <? 128 then l ++ [t + sign_bit (v <? 0)] else (l ++ [t]) ++ [sign_bit (v <? 0)]).
Proof.
  intros Hv Hz. unfold serialize. destruct (Z.eqb_spec v 0); [done|]. rewrite magnitude_of by done.
  assert (0 ≤ Z.abs v < 2 ^ (8 * Z.of_nat 8)) as Hm by (unfold int64 in Hv; change (8 * Z.of_nat 8) with 64; lia).
  pose proof (magnitude_word 8 _ Hm) as W. pose proof (magnitude_is_byte 8 (Z.abs v)) as B.
  pose proof (magnitude_length 8 (Z.abs v)) as L.
  pose proof (magnitude_top 8 (Z.abs v)) as T.
  destruct (magnitude_bytes 8 (Z.abs v)) as [|t l _] using rev_ind; [simpl in W; lia|].
  apply Forall_app in B as [Bl Bt]. rewrite Forall_singleton in Bt.
  specialize (T l t eq_refl Hm). rewrite length_app in L. simpl in L.
  exists l, t. split_and!; [exact Bl|exact Bt|exact T|lia|exact W|].
  rewrite last_snoc_default, byte_high_bit by done. unfold sign_bit.
  destruct (Z.ltb_spec t 128); cbn [negb]; [|by destruct (v <? 0)].
  destruct (v <? 0); [|by rewrite Z.add_0_r].
  unfold or_back. rewrite reverse_snoc, reverse_cons, reverse_involutive, byte_set_high by done.
  unfold is_byte in Bt. by rewrite Z.mod_small by lia.
Qed.

Lemma serialize_is_byte v : int64 v → Forall is_byte (serialize v).
Proof.
  intros Hv. destruct (decide (v = 0)) as [->|Hz]; [constructor|].
  destruct (serialize_shape v Hv Hz) as (l & t & Hl & Ht & _ & _ & _ & ->).
  unfold is_byte, sign_bit in *. destruct (Z.ltb_spec t 128); repeat apply bytes_snoc; try done;
    unfold is_byte; destruct (v <? 0); lia.
Qed.

Lemma serialize_length v : int64 v → (length (serialize v) ≤ 9)%nat.
Proof.
  intros Hv. destruct (decide (v = 0)) as [->|Hz]; [simpl; lia|].
  destruct (serialize_shape v Hv Hz) as (l & t & _ & _ & _ & L & _ & ->).
  destruct (t <? 128); rewrite ?length_app; simpl; lia.
Qed.

Lemma sign_byte neg : is_byte (sign_bit neg) ∧ (sign_bit neg <? 128) = negb neg ∧ sign_bit neg mod 128 = 0.
Proof. destruct neg; done. Qed.

Lemma set_vch_serialize v : int64 v → set_vch (serialize v) = v.
Proof.
  intros Hv. destruct (decide (v = 0)) as [->|Hz]; [done|].
  destruct (serialize_shape v Hv Hz) as (l & t & Hl & Ht & Hnz & _ & W & ->).
  unfold is_byte in Ht. destruct (Z.ltb_spec t 128).
  - rewrite set_vch_snoc by (done || unfold is_byte, sign_bit; destruct (v <? 0); lia).
    rewrite le_word_snoc in W. unfold sign_bit. destruct (Z.ltb_spec v 0).
    + replace (t + 128 <? 128) with false by lia. replace ((t + 128) mod 128) with t by divmod_lia. lia.
    + replace (t + 0 <? 128) with true by lia. rewrite Z.add_0_r, Z.mod_small by lia. lia.
  - destruct (sign_byte (v <? 0)) as (Hs & Es & Em).
    rewrite set_vch_snoc, Es, Em, W by (done || by apply bytes_snoc). destruct (Z.ltb_spec v 0); simpl; lia.
Qed.

Lemma is_minimal_snoc l b :
  is_byte b →
  is_minimal_num (l ++ [b]) = negb (b mod 128 =? 0) || match list.last l with Some c => negb (Z.land c 0x80 =? 0) | None => false end.
Proof.
  intros Hb. unfold is_minimal_num. rewrite reverse_snoc. destruct l as [|c l _] using rev_ind; simpl.
  - by rewrite byte_low_bits, orb_false_r.
  - rewrite reverse_snoc, last_snoc. by rewrite byte_low_bits.
Qed.

Lemma serialize_minimal v : int64 v → is_minimal_num (serialize v) = true.
Proof.
  intros Hv. destruct (decide (v = 0)) as [->|Hz]; [done|].
  destruct (serialize_shape v Hv Hz) as (l & t & Hl & Ht & Hnz & _ & _ & ->).
  unfold is_byte in Ht. destruct (Z.ltb_spec t 128).
  - rewrite is_minimal_snoc by (unfold is_byte, sign_bit; destruct (v <? 0); lia).
    apply orb_true_intro. left. apply negb_true_iff, Z.eqb_neq. unfold sign_bit. destruct (v <? 0); divmod_lia.
  - rewrite is_minimal_snoc by apply sign_byte. apply orb_true_intro. right.
    rewrite last_snoc, byte_high_bit by done. apply negb_true_iff, Z.ltb_ge. lia.
Qed.

(** The value of an encoding of at most eight bytes. *)
Lemma set_vch_bound vch n : Forall is_byte vch → zlen vch ≤ n → 0 < n → Z.abs (set_vch vch) < 2 ^ (8 * n - 1).
Proof.
  intros Hv Hn Hp. destruct vch as [|b l _] using rev_ind; [cbn; apply Z.pow_pos_nonneg; lia|].
  apply Forall_app in Hv as [Hl Hb]. rewrite Forall_singleton in Hb. rewrite set_vch_snoc by done.
  rewrite zlen_app in Hn. change (zlen [b]) with 1 in Hn.
  pose proof (le_word_bound l Hl) as B. pose proof (zlen_nonneg l).
  assert (0 < 2 ^ (8 * zlen l)) by (apply Z.pow_pos_nonneg; lia).
  assert (0 ≤ b mod 128 < 128) by (apply Z.mod_pos_bound; lia).
  assert (2 ^ (8 * zlen l) * 128 ≤ 2 ^ (8 * n - 1)).
  { change 128 with (2 ^ 7). rewrite <- Z.pow_add_r by lia. apply Z.pow_le_mono_r; lia. }
  destruct (b <? 128); nia.
Qed.

(** The encoding is the only one of its shape. *)
Lemma serialize_from v l t :
  int64 v → Forall is_byte l → is_byte t → t ≠ 0 → (length l < 8)%nat → le_word (l ++ [t]) = Z.abs v →
  serialize v = (if t <? 128 then l ++ [t + sign_bit (v <? 0)] else (l ++ [t]) ++ [sign_bit (v <? 0)]).
Proof.
  intros Hv Hl Ht Hnz HL W.
  assert (v ≠ 0) as Hz by (intros ->; by apply le_word_zero_top in W).
  destruct (serialize_shape v Hv Hz) as (l' & t' & Hl' & Ht' & Hnz' & HL' & W' & ->).
  assert (l ++ [t] = l' ++ [t']) as E.
  { rewrite <- (magnitude_unique 8 l t), <- (magnitude_unique 8 l' t') by done. by rewrite W, W'. }
  apply app_inj_tail in E as [-> ->]. done.
Qed.

Lemma serialize_set_vch vch :
  Forall is_byte vch → zlen vch ≤ 8 → is_minimal_num vch = true → serialize (set_vch vch) = vch.
Proof.
  intros Hv Hn Hm. destruct vch as [|b l _] using rev_ind; [done|].
  assert (int64 (set_vch (l ++ [b]))) as H64.
  { pose proof (set_vch_bound _ 8 Hv Hn) as B. unfold int64. change (8 * 8 - 1) with 63 in B. lia. }
  apply Forall_app in Hv as [Hl Hb]. rewrite Forall_singleton in Hb.
  rewrite zlen_app in Hn. change (zlen [b]) with 1 in Hn. unfold zlen in Hn.
  rewrite is_minimal_snoc in Hm by done.
  pose proof (set_vch_snoc l b Hl Hb) as E.
  revert Hm. destruct (Z.eqb_spec (b mod 128) 0) as [Eb|Eb]; cbn [negb orb]; intros Hm.
  - destruct l as [|t l _] using rev_ind; [done|]. rewrite last_snoc in Hm.
    apply Forall_app in Hl as [Hl Ht]. rewrite Forall_singleton in Ht.
    rewrite length_app in Hn. simpl in Hn.
    rewrite byte_high_bit in Hm by done. apply negb_true_iff, Z.ltb_ge in Hm.
    rewrite Eb, Z.mul_0_r, Z.add_0_r in E.
    pose proof (le_word_bound _ (bytes_snoc _ _ Hl Ht)) as B.
    assert (0 < le_word (l ++ [t])).
    { destruct (decide (le_word (l ++ [t]) = 0)) as [Ez|]; [|lia]. apply le_word_zero_top in Ez; [lia|done..]. }
    rewrite (serialize_from _ l t) by (done || lia || (rewrite E; destruct (b <? 128); lia)).
    replace (t <? 128) with false by lia. do 2 f_equal. rewrite E. unfold sign_bit, is_byte in *.
    destruct (Z.ltb_spec b 128); case_match; divmod_lia.
  - pose proof (le_word_bound l Hl) as B. unfold is_byte in Hb.
    assert (0 < b mod 128 < 128) as Hr by divmod_lia.
    assert (0 < 2 ^ (8 * zlen l)) by (apply Z.pow_pos_nonneg; pose proof (zlen_nonneg l); lia).
    rewrite (serialize_from _ l (b mod 128)); try done; try (unfold is_byte; lia).
    + replace (b mod 128 <? 128) with true by lia. do 2 f_equal. unfold sign_bit. rewrite E.
      destruct (Z.ltb_spec b 128); case_match; first [nia | divmod_lia].
    + rewrite le_word_snoc, E. destruct (b <? 128); nia.
Qed.

Lemma CScriptNum_Ok vch minimal n v :
  CScriptNum vch minimal n = Ok v → v = set_vch vch ∧ zlen vch ≤ n ∧ (minimal = true → is_minimal_num vch = true).
Proof.
  unfold CScriptNum, throw_if. destruct (Z.ltb_spec n (zlen vch)); [done|]. cbn.
  destruct (minimal && negb (is_minimal_num vch)) eqn:E; [done|]. cbn. intros [= <-]. split; [done|]. split; [done|].
  intros ->. cbn in E. by apply negb_false_iff in E.
Qed.

Lemma CScriptNum_bound vch minimal n v :
  Forall is_byte vch → 0 < n → CScriptNum vch minimal n = Ok v → Z.abs v < 2 ^ (8 * n - 1).
Proof. intros Hb Hn H. apply CScriptNum_Ok in H as (-> & Hl & _). by apply set_vch_bound. Qed.

(** What the constructor throws. *)
Lemma CScriptNum_Err vch minimal n e :
  CScriptNum vch minimal n = Err e → e = ERuntime num_overflow ∨ e = ERuntime num_not_minimal.
Proof.
  unfold CScriptNum, throw_if. destruct (n <? zlen vch); cbn; [intros [= <-]; by left|].
  destruct (minimal && negb (is_minimal_num vch)); cbn; intros [= <-]. by right.
Qed.

(** ** Instructions *)
Lemma to_opcode_value b : is_byte b → opcode_value (to_opcode b) = b.
Proof. intros. by_bytes (λ b, opcode_value (to_opcode b) =? b). Qed.

Lemma push_size_suffix b pc ok n pc' : push_size b pc = (ok, n, pc') → (length pc' ≤ length pc)%nat.
Proof.
  unfold push_size. intros H. repeat case_match; simplify_eq; rewrite ?length_drop; simpl; lia.
Qed.

(** Reading moves the iterator. *)
Lemma GetScriptOp_moves pc ok op data pc' :
  GetScriptOp pc = (ok, op, data, pc') → (length pc' ≤ Nat.pred (length pc))%nat ∧ (ok = true → pc ≠ []).
Proof.
  destruct pc as [|b pc]; cbn [GetScriptOp]; [intros [= <- <- <- <-]; split; [simpl; lia|done]|].
  intros H. split; [|done]. destruct (b <=? 78).
  - destruct (push_size b pc) as [[ok' n] pc''] eqn:E. apply push_size_suffix in E.
    case_match; simplify_eq; rewrite ?length_drop; simpl; lia.
  - simplify_eq. simpl. lia.
Qed.

(** A successful read: the instruction's bytes are in front of the rest. *)
Lemma GetScriptOp_data pc op data pc' :
  GetScriptOp pc = (true, op, data, pc') → ∃ pre, pc = pre ++ data ++ pc'.
Proof.
  destruct pc as [|b pc]; cbn [GetScriptOp]; [done|]. destruct (b <=? 78).
  - destruct (push_size b pc) as [[ok' n] pc''] eqn:E.
    assert (∃ pre, pc = pre ++ pc'') as [pre ->].
    { revert E. unfold push_size. intros E. repeat case_match; simplify_eq; try (by exists []).
      - by eexists [_].
      - exists (take 2 pc). by rewrite take_drop.
      - exists (take 4 pc). by rewrite take_drop. }
    case_match; [done|]. intros [= <- <- <-]. exists (b :: pre). by rewrite take_drop.
  - intros [= <- <- <-]. by exists [b].
Qed.

Lemma GetScriptOp_bytes pc ok op data pc' :
  Forall is_byte pc → GetScriptOp pc = (ok, op, data, pc') → Forall is_byte data ∧ Forall is_byte pc'.
Proof.
  intros Hb H. destruct ok.
  - apply GetScriptOp_data in H as [pre ->]. rewrite !Forall_app in Hb. tauto.
  - destruct pc as [|b pc]; cbn [GetScriptOp] in H; [by simplify_eq|]. apply list.Forall_cons in Hb as [_ Hb].
    destruct (b <=? 78); [|done]. destruct (push_size b pc) as [[ok n] pc''] eqn:E.
    case_match; simplify_eq. split; [constructor|].
    revert E. unfold push_size. intros E. repeat case_match; simplify_eq;
      first [done | by apply Forall_drop | by apply list.Forall_cons in Hb as [_ Hb]].
Qed.

Lemma GetScriptOp_opcode pc op data pc' :
  Forall is_byte pc → GetScriptOp pc = (true, op, data, pc') → ∃ b, is_byte b ∧ op = to_opcode b ∧ (78 < b → data = []).
Proof.
  destruct pc as [|b pc]; cbn [GetScriptOp]; [done|]. intros [Hb _]%list.Forall_cons H. exists b. split; [done|].
  destruct (Z.leb_spec b 78); [|simplify_eq; done].
  destruct (push_size b pc) as [[ok n] pc'']. case_match; simplify_eq. split; [done|lia].
Qed.

Lemma zlen_le_bytes n x : zlen (le_bytes n x) = Z.of_nat n.
Proof. unfold zlen. by rewrite length_le_bytes. Qed.

(** The smallest push of several bytes. *)
Lemma minimal_push d op :
  opcode_value op ≤ 78 → 2 ≤ zlen d →
  (if zlen d <=? 75 then opcode_value op =? zlen d else if zlen d <=? 255 then op_is op OP_PUSHDATA1
   else if zlen d <=? 65535 then op_is op OP_PUSHDATA2 else true) = true →
  CheckMinimalPush d op = Ok true.
Proof.
  intros Hop Hsz <-. unfold CheckMinimalPush, op_le. replace (opcode_value op <=? opcode_value OP_PUSHDATA4) with true by (simpl; lia).
  replace (zlen d =? 0) with false by lia. by replace (zlen d =? 1) with false by lia.
Qed.

(** Written data is read back. *)
Lemma GetScriptOp_push d rest :
  zlen d < 2 ^ 32 →
  ∃ op, GetScriptOp (push_data d ++ rest) = (true, op, d, rest) ∧ opcode_value op ≤ 78 ∧ (2 ≤ zlen d → CheckMinimalPush d op = Ok true).
Proof.
  intros Hd. pose proof (zlen_nonneg d). unfold push_data, AppendDataSize.
  assert (∀ b, is_byte b → b ≤ 78 → (b <=? 78) = true) as Hle by lia.
  assert (∀ tail, zlen (d ++ tail) <? zlen d = false) as Hlen
    by (intros; rewrite zlen_app; pose proof (zlen_nonneg tail); lia).
  assert (∀ tail, take (Z.to_nat (zlen d)) (d ++ tail) = d) as Htk
    by (intros; apply take_app_length'; unfold zlen; lia).
  assert (∀ tail, drop (Z.to_nat (zlen d)) (d ++ tail) = tail) as Hdr
    by (intros; apply drop_app_length'; unfold zlen; lia).
  destruct (Z.ltb_spec (zlen d) 76); [|destruct (Z.leb_spec (zlen d) 255); [|destruct (Z.leb_spec (zlen d) 65535)]];
    rewrite <- app_assoc; cbn [app GetScriptOp].
  - replace (zlen d <=? 78) with true by lia. unfold push_size. replace (zlen d <? 76) with true by lia.
    rewrite Hlen, Htk, Hdr. assert (opcode_value (to_opcode (zlen d)) = zlen d) as Hv by (apply to_opcode_value; unfold is_byte; lia).
    eexists. split; [done|]. rewrite Hv. split; [lia|]. intros. apply minimal_push; rewrite ?Hv; [lia..|].
    replace (zlen d <=? 75) with true by lia. lia.
  - cbn -[opcode_value CheckMinimalPush]. rewrite Hlen, Htk, Hdr. eexists. split; [done|]. split; [by vm_compute|]. intros. apply minimal_push; [by vm_compute|lia|].
    replace (zlen d <=? 75) with false by lia. by replace (zlen d <=? 255) with true by lia.
  - unfold push_size. cbn -[le_word ReadLE16 zlen take drop WriteLE16 app].
    replace (zlen (WriteLE16 (zlen d) ++ d ++ rest) <? 2) with false
      by (symmetry; apply Z.ltb_ge; rewrite zlen_app; unfold WriteLE16; rewrite zlen_le_bytes;
          pose proof (zlen_nonneg (d ++ rest)); simpl; lia).
    unfold ReadLE16. rewrite take_app_length', drop_app_length' by (symmetry; apply length_le_bytes).
    unfold WriteLE16. rewrite le_word_le_bytes, Z.mod_small by (simpl; lia). rewrite Hlen, Htk, Hdr.
    eexists. split; [done|]. split; [by vm_compute|]. intros. apply minimal_push; [by vm_compute|lia|].
    replace (zlen d <=? 75) with false by lia. replace (zlen d <=? 255) with false by lia. by replace (zlen d <=? 65535) with true by lia.
  - unfold push_size. cbn -[le_word ReadLE32 zlen take drop WriteLE32 app].
    replace (zlen (WriteLE32 (zlen d) ++ d ++ rest) <? 4) with false
      by (symmetry; apply Z.ltb_ge; rewrite zlen_app; unfold WriteLE32; rewrite zlen_le_bytes;
          pose proof (zlen_nonneg (d ++ rest)); simpl; lia).
    unfold ReadLE32. rewrite take_app_length', drop_app_length' by (symmetry; apply length_le_bytes).
    unfold WriteLE32. rewrite le_word_le_bytes, Z.mod_small by (simpl; lia). rewrite Hlen, Htk, Hdr.
    eexists. split; [done|]. split; [by vm_compute|]. intros. apply minimal_push; [by vm_compute|lia|].
    replace (zlen d <=? 75) with false by lia. replace (zlen d <=? 255) with false by lia. by replace (zlen d <=? 65535) with false by lia.
Qed.

(** The loops over a script end: any fuel from the length on gives the same. *)
Lemma ops_loop_fuel {S A} (bad done : S → A) step n pc s :
  (length pc ≤ n)%nat → ops_loop n bad done step pc s = ops_loop (length pc) bad done step pc s.
Proof.
  assert (∀ k m pc s, (length pc ≤ k)%nat → (length pc ≤ m)%nat →
    ops_loop k bad done step pc s = ops_loop m bad done step pc s) as H; [|intros; apply H; lia].
  clear. induction k as [|k IH]; intros m pc s Hk Hm.
  - destruct pc; [|simpl in Hk; lia]. by destruct m.
  - destruct pc as [|b pc]; [by destruct m|]. destruct m as [|m]; [simpl in Hm; lia|].
    cbn [ops_loop]. destruct (GetScriptOp (b :: pc)) as [[[ok op] data] pc'] eqn:E.
    apply GetScriptOp_moves in E as [E _]. simpl in *. destruct ok; [|done]. destruct (step op data s); [|done].
    apply IH; lia.
Qed.

End script_laws.
