(* ===== verification/Pqm.v ===== *)
(** Pay to Merkle root.

    [script/pqm.cpp], with the sizes and the verification of [pqkey.cpp] and
    [TaggedHash] of [hash.cpp]: the hashes of leaves and branches, the root of
    a list of leaves, the check of a control block against a program, and the
    scripts the wallet builds and recognises. The signature schemes themselves
    (libbitcoinpqc) are a parameter. *)

From Stdlib Require Import ZArith Lia String.
From stdpp Require Import base list numbers tactics lexico.
From S2P Require Import Prelude Sha256 Header Script.
Import block_header script.

Open Scope Z_scope.

Module pqm.

(** ** Keys *)
Inductive PQAlgorithm := ML_DSA_44 | SLH_DSA_128S.

#[export] Instance PQAlgorithm_eq_dec : EqDecision PQAlgorithm.
Proof. solve_decision. Defined.

Definition SUPPORTED_PQ_ALGORITHMS : list PQAlgorithm := [ML_DSA_44; SLH_DSA_128S].

Definition GetPQPubKeySize (algo : PQAlgorithm) : Z :=
  match algo with ML_DSA_44 => 1312 | SLH_DSA_128S => 32 end.
Definition GetPQSignatureSize (algo : PQAlgorithm) : Z :=
  match algo with ML_DSA_44 => 2420 | SLH_DSA_128S => 7856 end.

Definition GetPQAlgorithmByPubKeySize (pubkey_size : Z) : option PQAlgorithm :=
  list_find (λ algo, GetPQPubKeySize algo = pubkey_size) SUPPORTED_PQ_ALGORITHMS ≫= λ '(_, algo), Some algo.

(** The library: algorithm, key, message, signature, and whether the message
    carries the context of FIPS 205. *)
Class PQLibrary := { bitcoin_pqc_verify : PQAlgorithm → list Z → list Z → list Z → bool → bool }.

Definition Fips205PureContextMessage (hash : list Z) : list Z := [0; 0] ++ hash.

Definition CPQPubKey_Verify `{PQLibrary} (algo : PQAlgorithm) (data hash sig : list Z) (slhdsa_fips205 : bool) : bool :=
  if negb (zlen data =? GetPQPubKeySize algo) || negb (zlen sig =? GetPQSignatureSize algo) then false else
  let wrap := slhdsa_fips205 && bool_decide (algo = SLH_DSA_128S) in
  bitcoin_pqc_verify algo data (if wrap then Fips205PureContextMessage hash else hash) sig wrap.

(** ** Hashes *)
Definition TaggedHash (tag : string) : CSHA256 :=
  let taghash := fst (sha_Finalize (sha_Write CSHA256_new (chars tag))) in
  HashWriter_write (HashWriter_write HashWriter_new taghash) taghash.

Definition hash_parts (w : CSHA256) (parts : list (list Z)) : list Z :=
  HashWriter_GetSHA256 (foldl HashWriter_write w parts).

Definition ComputeP2MRLeafHash (leaf_version : Z) (script : list Z) : list Z :=
  hash_parts (TaggedHash "P2MRLeaf") [[leaf_version]; WriteCompactSize (zlen script); script].

(** [std::lexicographical_compare]. *)
Fixpoint bytes_lt (a b : list Z) : bool :=
  match a, b with
  | _, [] => false
  | [], _ => true
  | x :: a, y :: b => if x <? y then true else if y <? x then false else bytes_lt a b
  end.

Definition ComputeP2MRBranchHash (left right : list Z) : list Z :=
  hash_parts (TaggedHash "P2MRBranch") (if bytes_lt left right then [left; right] else [right; left]).

(** One level up; a last node without a partner moves up as it is. *)
Fixpoint next_level (level : list (list Z)) : list (list Z) :=
  match level with
  | a :: b :: level => ComputeP2MRBranchHash a b :: next_level level
  | level => level
  end.

Fixpoint reduce_levels (fuel : nat) (level : list (list Z)) : list (list Z) :=
  match fuel with
  | O => level
  | S fuel => if (1 <? zlen level) then reduce_levels fuel (next_level level) else level
  end.

Definition ComputeP2MRMerkleRoot (leaf_hashes : list (list Z)) : list Z :=
  match leaf_hashes with
  | [] => null256
  | [h] => h
  | _ => default null256 (head (reduce_levels (length leaf_hashes) leaf_hashes))
  end.

(** ** The control block *)
Definition P2MR_LEAF_VERSION : Z := 0xc2.
Definition P2MR_LEAF_MASK : Z := 0xfe.
Definition P2MR_PROGRAM_SIZE : Z := 32.
Definition P2MR_CONTROL_BASE_SIZE : Z := 1.
Definition P2MR_CONTROL_NODE_SIZE : Z := 32.
Definition P2MR_CONTROL_MAX_SIZE : Z := 1 + 128 * 32.

Definition control_node (control : list Z) (i : nat) : list Z := take 32 (drop (1 + i * 32) control).

Definition climb_control (control leaf_hash : list Z) (path_len : nat) : list Z :=
  foldl (λ root i, ComputeP2MRBranchHash root (control_node control i)) leaf_hash (seq 0 path_len).

Definition VerifyP2MRCommitment (control program leaf_hash : list Z) : bool :=
  if negb (zlen program =? P2MR_PROGRAM_SIZE) then false else
  if (zlen control <? P2MR_CONTROL_BASE_SIZE) || (P2MR_CONTROL_MAX_SIZE <? zlen control) then false else
  if negb ((zlen control - P2MR_CONTROL_BASE_SIZE) mod P2MR_CONTROL_NODE_SIZE =? 0) then false else
  let path_len := (zlen control - P2MR_CONTROL_BASE_SIZE) / P2MR_CONTROL_NODE_SIZE in
  bool_decide (program = climb_control control leaf_hash (Z.to_nat path_len)).

(** ** Opcodes of the algorithms *)
Definition GetP2MRChecksigOpcode (algo : PQAlgorithm) : opcodetype :=
  match algo with ML_DSA_44 => OP_CHECKSIG_MLDSA | SLH_DSA_128S => OP_CHECKSIG_SLHDSA end.
Definition GetP2MRChecksigAddOpcode (algo : PQAlgorithm) : opcodetype :=
  match algo with ML_DSA_44 => OP_CHECKSIGADD_MLDSA | SLH_DSA_128S => OP_CHECKSIGADD_SLHDSA end.

(** The algorithm, and whether it is the adding form. *)
Definition DecodeP2MRChecksigOpcode (opcode : opcodetype) : option (PQAlgorithm * bool) :=
  match opcode with
  | OP_CHECKSIG_MLDSA => Some (ML_DSA_44, false)
  | OP_CHECKSIG_SLHDSA => Some (SLH_DSA_128S, false)
  | OP_CHECKSIGADD_MLDSA => Some (ML_DSA_44, true)
  | OP_CHECKSIGADD_SLHDSA => Some (SLH_DSA_128S, true)
  | _ => None
  end.

(** ** Building scripts

    The builders return an empty script when they fail. *)
Definition BuildP2MRPubkeyPush (algo : PQAlgorithm) (pubkey : list Z) : list Z :=
  let expected_size := GetPQPubKeySize algo in
  if (expected_size =? 0) || negb (zlen pubkey =? expected_size) then [] else
  if expected_size <=? 75 then expected_size :: pubkey
  else if expected_size <=? 0xff then [opcode_value OP_PUSHDATA1; expected_size] ++ pubkey
  else if expected_size <=? 0xffff then
    [opcode_value OP_PUSHDATA2; Z.land expected_size 0xff; Z.land (Z.shiftr expected_size 8) 0xff] ++ pubkey
  else [].

(** A later part is appended unless it failed. *)
Definition append_built (script part : list Z) : list Z :=
  match part with [] => [] | _ => script ++ part end.

Definition BuildP2MRScript (algo : PQAlgorithm) (pubkey : list Z) : list Z :=
  match BuildP2MRPubkeyPush algo pubkey with
  | [] => []
  | script => script ++ [opcode_value (GetP2MRChecksigOpcode algo)]
  end.

Abbreviation pq_key := (PQAlgorithm * list Z)%type.

Fixpoint keys_unique (seen pubkeys : list pq_key) : bool :=
  match pubkeys with
  | [] => true
  | k :: pubkeys => if bool_decide (k ∈ seen) then false else keys_unique (k :: seen) pubkeys
  end.

(** The loop over the keys; [first] is [i == 0]. *)
Fixpoint multisig_keys (first : bool) (script : list Z) (pubkeys : list pq_key) : option (list Z) :=
  match pubkeys with
  | [] => Some script
  | (algo, pubkey) :: pubkeys =>
      match BuildP2MRPubkeyPush algo pubkey with
      | [] => None
      | push =>
          let script := script ++ push in
          if MAX_P2MR_SCRIPT_SIZE <? zlen script then None else
          let script := script ++ [opcode_value (if first then GetP2MRChecksigOpcode algo else GetP2MRChecksigAddOpcode algo)] in
          if MAX_P2MR_SCRIPT_SIZE <? zlen script then None else
          multisig_keys false script pubkeys
      end
  end.

Definition BuildP2MRMultisigScript (threshold : Z) (pubkeys : list pq_key) : list Z :=
  if zlen pubkeys <? 2 then [] else
  if (threshold <? 1) || (zlen pubkeys <? threshold) then [] else
  if MAX_PQ_PUBKEYS_PER_MULTISIG <? zlen pubkeys then [] else
  if negb (keys_unique [] pubkeys) then [] else
  match multisig_keys true [] pubkeys with
  | None => []
  | Some script =>
      let script := script ++ push_int64 threshold ++ push_opcode OP_NUMEQUAL in
      if MAX_P2MR_SCRIPT_SIZE <? zlen script then [] else script
  end.

Definition BuildP2MRCTVScript (ctv_hash : list Z) : list Z :=
  push_data ctv_hash ++ push_opcode OP_CHECKTEMPLATEVERIFY.

(** A prefix and the multisig script, within the limit. *)
Definition with_multisig (prefix : list Z) (threshold : Z) (pubkeys : list pq_key) : list Z :=
  let script := append_built prefix (BuildP2MRMultisigScript threshold pubkeys) in
  if MAX_P2MR_SCRIPT_SIZE <? zlen script then [] else script.

Definition BuildP2MRMultisigCTVScript (ctv_hash : list Z) (threshold : Z) (pubkeys : list pq_key) : list Z :=
  with_multisig (BuildP2MRCTVScript ctv_hash ++ push_opcode OP_DROP) threshold pubkeys.

Definition BuildP2MRCLTVMultisigScript (locktime threshold : Z) (pubkeys : list pq_key) : list Z :=
  with_multisig (push_int64 locktime ++ push_opcode OP_CHECKLOCKTIMEVERIFY ++ push_opcode OP_DROP) threshold pubkeys.

Definition SEQUENCE_DISABLE_FLAG : Z := Z.shiftl 1 31.

Definition BuildP2MRCSVMultisigScript (sequence threshold : Z) (pubkeys : list pq_key) : list Z :=
  if (sequence <? 1) || (2 ^ 31 - 1 <? sequence) then [] else
  if negb (Z.land (u32 sequence) SEQUENCE_DISABLE_FLAG =? 0) then [] else
  with_multisig (push_int64 sequence ++ push_opcode OP_CHECKSEQUENCEVERIFY ++ push_opcode OP_DROP) threshold pubkeys.

Definition BuildP2MRCSFSScript (algo : PQAlgorithm) (pubkey : list Z) : list Z :=
  match BuildP2MRPubkeyPush algo pubkey with
  | [] => []
  | script => script ++ push_opcode OP_CHECKSIGFROMSTACK
  end.

Definition BuildP2MRCTVCSFSScript (ctv_hash : list Z) (algo : PQAlgorithm) (pubkey : list Z) : list Z :=
  append_built (BuildP2MRCTVScript ctv_hash ++ push_opcode OP_DROP) (BuildP2MRCSFSScript algo pubkey).

Definition BuildP2MRCTVChecksigScript (ctv_hash : list Z) (algo : PQAlgorithm) (pubkey : list Z) : list Z :=
  append_built (BuildP2MRCTVScript ctv_hash ++ push_opcode OP_DROP) (BuildP2MRScript algo pubkey).

Definition BuildP2MRDelegationScript (csfs_algo : PQAlgorithm) (csfs_pubkey : list Z)
    (checksig_algo : PQAlgorithm) (checksig_pubkey : list Z) : list Z :=
  match BuildP2MRCSFSScript csfs_algo csfs_pubkey with
  | [] => []
  | script => append_built (script ++ push_opcode OP_VERIFY) (BuildP2MRScript checksig_algo checksig_pubkey)
  end.

Definition htlc_prefix (preimage_hash160 : list Z) : list Z :=
  push_data preimage_hash160 ++ push_opcode OP_OVER ++ push_opcode OP_HASH160 ++ push_opcode OP_EQUALVERIFY.

Definition BuildP2MRHTLCLeaf (preimage_hash160 : list Z) (oracle_algo : PQAlgorithm) (oracle_pubkey : list Z) : list Z :=
  if negb (zlen preimage_hash160 =? 20) then [] else
  match BuildP2MRPubkeyPush oracle_algo oracle_pubkey with
  | [] => []
  | push => htlc_prefix preimage_hash160 ++ push ++ push_opcode OP_CHECKSIGFROMSTACK
  end.

Definition BuildP2MRHTLCTxLeaf (preimage_hash160 : list Z) (claimant_algo : PQAlgorithm) (claimant_pubkey : list Z) : list Z :=
  if negb (zlen preimage_hash160 =? 20) then [] else
  append_built (htlc_prefix preimage_hash160 ++ push_opcode OP_DROP) (BuildP2MRScript claimant_algo claimant_pubkey).

Definition BuildP2MRRefundLeaf (timeout : Z) (sender_algo : PQAlgorithm) (sender_pubkey : list Z) : list Z :=
  append_built (push_int64 timeout ++ push_opcode OP_CHECKLOCKTIMEVERIFY ++ push_opcode OP_DROP)
    (BuildP2MRScript sender_algo sender_pubkey).

Definition BuildP2MRAtomicSwapLeaf (ctv_hash : list Z) (spender_algo : PQAlgorithm) (spender_pubkey : list Z) : list Z :=
  BuildP2MRCTVChecksigScript ctv_hash spender_algo spender_pubkey.

(** ** Recognising scripts *)
Definition subspan (s : list Z) (offset count : Z) : list Z := take (Z.to_nat count) (drop (Z.to_nat offset) s).

(** The key and the number of bytes of its push. *)
Definition ParseP2MRPubkeyPush (script : list Z) (offset : Z) (algo : PQAlgorithm) : option (list Z * Z) :=
  let expected_size := GetPQPubKeySize algo in
  if expected_size =? 0 then None else
  if expected_size <=? 75 then
    if zlen script <? offset + 1 + expected_size then None else
    if negb (znth script offset =? expected_size) then None else
    Some (subspan script (offset + 1) expected_size, 1 + expected_size)
  else if expected_size <=? 0xff then
    if zlen script <? offset + 2 + expected_size then None else
    if negb (znth script offset =? opcode_value OP_PUSHDATA1) then None else
    if negb (znth script (offset + 1) =? expected_size) then None else
    Some (subspan script (offset + 2) expected_size, 2 + expected_size)
  else if expected_size <=? 0xffff then
    if zlen script <? offset + 3 + expected_size then None else
    if negb (znth script offset =? opcode_value OP_PUSHDATA2) then None else
    if negb (znth script (offset + 1) =? Z.land expected_size 0xff) then None else
    if negb (znth script (offset + 2) =? Z.land (Z.shiftr expected_size 8) 0xff) then None else
    Some (subspan script (offset + 3) expected_size, 3 + expected_size)
  else None.

Fixpoint first_push (script : list Z) (offset : Z) (candidates : list PQAlgorithm) : option (PQAlgorithm * list Z * Z) :=
  match candidates with
  | [] => None
  | candidate :: candidates =>
      match ParseP2MRPubkeyPush script offset candidate with
      | Some (pubkey, consumed) => Some (candidate, pubkey, consumed)
      | None => first_push script offset candidates
      end
  end.

Definition ParseP2MRAnyPubkeyPush (script : list Z) (offset : Z) : option (PQAlgorithm * list Z * Z) :=
  first_push script offset SUPPORTED_PQ_ALGORITHMS.

(** The hash, the algorithm and the key of the claimant. *)
Definition ParseP2MRHTLCLeafCommon (script : list Z) (transaction_bound : bool) : option (list Z * PQAlgorithm * list Z) :=
  let key_offset := if transaction_bound then 25 else 24 in
  if zlen script <=? key_offset then None else
  if negb (znth script 0 =? 0x14) || negb (znth script 21 =? opcode_value OP_OVER) ||
     negb (znth script 22 =? opcode_value OP_HASH160) || negb (znth script 23 =? opcode_value OP_EQUALVERIFY) then None else
  if transaction_bound && negb (znth script 24 =? opcode_value OP_DROP) then None else
  match ParseP2MRAnyPubkeyPush script key_offset with
  | None => None
  | Some (claimant_algo, pubkey, push_consumed) =>
      let tail := key_offset + push_consumed in
      if negb (zlen script =? tail + 1) then None else
      let expected := if transaction_bound then GetP2MRChecksigOpcode claimant_algo else OP_CHECKSIGFROMSTACK in
      if negb (znth script tail =? opcode_value expected) then None else
      Some (subspan script 1 20, claimant_algo, pubkey)
  end.

Definition ParseP2MRLegacyHTLCLeaf (script : list Z) : option (list Z * PQAlgorithm * list Z) :=
  ParseP2MRHTLCLeafCommon script false.
Definition ParseP2MRHTLCTxLeaf (script : list Z) : option (list Z * PQAlgorithm * list Z) :=
  ParseP2MRHTLCLeafCommon script true.

End pqm.
