(* ===== verification/Interpreter.v ===== *)
(** The script interpreter.

    [script/interpreter.cpp], from [CastToBool] to [EvalScript]: the encodings
    of keys and signatures, [FindAndDelete], the condition stack, the signature
    opcodes and the loop over the instructions. A stack is a list with its top
    first. A function that returns [false] with an error is a value of
    [exec]; an exception is an [Err], which [EvalScript] catches unless it is a
    failed assertion. The object that checks signatures is the class
    [BaseSignatureChecker], as in the source. *)

From Stdlib Require Import ZArith Lia String.
From stdpp Require Import base list numbers tactics.
From S2P Require Import Prelude Sha256 Header Script Pqm.
Import script pqm.

Open Scope Z_scope.

Module interpreter.

Inductive ScriptError :=
| SCRIPT_ERR_OK | SCRIPT_ERR_UNKNOWN_ERROR | SCRIPT_ERR_EVAL_FALSE | SCRIPT_ERR_OP_RETURN | SCRIPT_ERR_SCRIPT_SIZE
| SCRIPT_ERR_PUSH_SIZE | SCRIPT_ERR_OP_COUNT | SCRIPT_ERR_STACK_SIZE | SCRIPT_ERR_SIG_COUNT
| SCRIPT_ERR_PUBKEY_COUNT | SCRIPT_ERR_VERIFY | SCRIPT_ERR_EQUALVERIFY | SCRIPT_ERR_CHECKMULTISIGVERIFY
| SCRIPT_ERR_CHECKSIGVERIFY | SCRIPT_ERR_NUMEQUALVERIFY | SCRIPT_ERR_BAD_OPCODE | SCRIPT_ERR_DISABLED_OPCODE
| SCRIPT_ERR_INVALID_STACK_OPERATION | SCRIPT_ERR_INVALID_ALTSTACK_OPERATION | SCRIPT_ERR_UNBALANCED_CONDITIONAL
| SCRIPT_ERR_NEGATIVE_LOCKTIME | SCRIPT_ERR_UNSATISFIED_LOCKTIME | SCRIPT_ERR_SIG_HASHTYPE | SCRIPT_ERR_SIG_DER
| SCRIPT_ERR_MINIMALDATA | SCRIPT_ERR_SIG_PUSHONLY | SCRIPT_ERR_SIG_HIGH_S | SCRIPT_ERR_SIG_NULLDUMMY
| SCRIPT_ERR_PUBKEYTYPE | SCRIPT_ERR_CLEANSTACK | SCRIPT_ERR_MINIMALIF | SCRIPT_ERR_SIG_NULLFAIL
| SCRIPT_ERR_SIG_MLDSA | SCRIPT_ERR_SIG_SLHDSA | SCRIPT_ERR_DISCOURAGE_UPGRADABLE_NOPS
| SCRIPT_ERR_DISCOURAGE_UPGRADABLE_WITNESS_PROGRAM | SCRIPT_ERR_DISCOURAGE_UPGRADABLE_TAPROOT_VERSION
| SCRIPT_ERR_DISCOURAGE_OP_SUCCESS | SCRIPT_ERR_DISCOURAGE_UPGRADABLE_PUBKEYTYPE
| SCRIPT_ERR_WITNESS_PROGRAM_WRONG_LENGTH | SCRIPT_ERR_WITNESS_PROGRAM_WITNESS_EMPTY
| SCRIPT_ERR_WITNESS_PROGRAM_MISMATCH | SCRIPT_ERR_WITNESS_MALLEATED | SCRIPT_ERR_WITNESS_MALLEATED_P2SH
| SCRIPT_ERR_WITNESS_UNEXPECTED | SCRIPT_ERR_WITNESS_PUBKEYTYPE | SCRIPT_ERR_SCHNORR_SIG_SIZE
| SCRIPT_ERR_SCHNORR_SIG_HASHTYPE | SCRIPT_ERR_SCHNORR_SIG | SCRIPT_ERR_TAPROOT_WRONG_CONTROL_SIZE
| SCRIPT_ERR_TAPSCRIPT_VALIDATION_WEIGHT | SCRIPT_ERR_TAPSCRIPT_CHECKMULTISIG | SCRIPT_ERR_TAPSCRIPT_MINIMALIF
| SCRIPT_ERR_P2MR_WRONG_CONTROL_SIZE | SCRIPT_ERR_P2MR_WRONG_LEAF_VERSION | SCRIPT_ERR_PQ_PUBKEY_SIZE
| SCRIPT_ERR_PQ_MULTISIG_THRESHOLD | SCRIPT_ERR_OP_CODESEPARATOR | SCRIPT_ERR_SIG_FINDANDDELETE
| SCRIPT_ERR_CTV_HASH_SIZE | SCRIPT_ERR_CTV_HASH_MISMATCH.

#[export] Instance ScriptError_eq_dec : EqDecision ScriptError.
Proof. solve_decision. Defined.

Inductive SigVersion := BASE | WITNESS_V0 | TAPROOT | TAPSCRIPT | P2MR.

#[export] Instance SigVersion_eq_dec : EqDecision SigVersion.
Proof. solve_decision. Defined.

(** ** Flags *)
Definition SCRIPT_VERIFY_P2SH : Z := Z.shiftl 1 0.
Definition SCRIPT_VERIFY_STRICTENC : Z := Z.shiftl 1 1.
Definition SCRIPT_VERIFY_DERSIG : Z := Z.shiftl 1 2.
Definition SCRIPT_VERIFY_LOW_S : Z := Z.shiftl 1 3.
Definition SCRIPT_VERIFY_NULLDUMMY : Z := Z.shiftl 1 4.
Definition SCRIPT_VERIFY_SIGPUSHONLY : Z := Z.shiftl 1 5.
Definition SCRIPT_VERIFY_MINIMALDATA : Z := Z.shiftl 1 6.
Definition SCRIPT_VERIFY_DISCOURAGE_UPGRADABLE_NOPS : Z := Z.shiftl 1 7.
Definition SCRIPT_VERIFY_CLEANSTACK : Z := Z.shiftl 1 8.
Definition SCRIPT_VERIFY_CHECKLOCKTIMEVERIFY : Z := Z.shiftl 1 9.
Definition SCRIPT_VERIFY_CHECKSEQUENCEVERIFY : Z := Z.shiftl 1 10.
Definition SCRIPT_VERIFY_WITNESS : Z := Z.shiftl 1 11.
Definition SCRIPT_VERIFY_DISCOURAGE_UPGRADABLE_WITNESS_PROGRAM : Z := Z.shiftl 1 12.
Definition SCRIPT_VERIFY_MINIMALIF : Z := Z.shiftl 1 13.
Definition SCRIPT_VERIFY_NULLFAIL : Z := Z.shiftl 1 14.
Definition SCRIPT_VERIFY_WITNESS_PUBKEYTYPE : Z := Z.shiftl 1 15.
Definition SCRIPT_VERIFY_CONST_SCRIPTCODE : Z := Z.shiftl 1 16.
Definition SCRIPT_VERIFY_TAPROOT : Z := Z.shiftl 1 17.
Definition SCRIPT_VERIFY_DISCOURAGE_UPGRADABLE_TAPROOT_VERSION : Z := Z.shiftl 1 18.
Definition SCRIPT_VERIFY_DISCOURAGE_OP_SUCCESS : Z := Z.shiftl 1 19.
Definition SCRIPT_VERIFY_DISCOURAGE_UPGRADABLE_PUBKEYTYPE : Z := Z.shiftl 1 20.
Definition SCRIPT_VERIFY_CHECKTEMPLATEVERIFY : Z := Z.shiftl 1 21.
Definition SCRIPT_VERIFY_CHECKSIGFROMSTACK : Z := Z.shiftl 1 22.
Definition SCRIPT_VERIFY_DISALLOW_MLDSA : Z := Z.shiftl 1 23.
Definition SCRIPT_VERIFY_SLHDSA_FIPS205 : Z := Z.shiftl 1 24.
Definition SCRIPT_VERIFY_REJECT_LEGACY_SIGS : Z := Z.shiftl 1 25.

Definition flag (flags f : Z) : bool := negb (Z.land flags f =? 0).

(** ** Results *)
Definition exec (A : Type) : Type := result (ScriptError + A).
Definition fail {A} (e : ScriptError) : exec A := Ok (inl e).
Definition ret {A} (a : A) : exec A := Ok (inr a).
Definition lift {A} (m : result A) : exec A := match m with Ok a => ret a | Err e => Err e end.
Definition ebind {A B} (m : exec A) (f : A → exec B) : exec B :=
  match m with Ok (inr a) => f a | Ok (inl e) => Ok (inl e) | Err e => Err e end.
Definition fail_if (b : bool) (e : ScriptError) : exec unit := if b then fail e else ret tt.

Notation "x '<~' m ; k" := (ebind m (λ x, k)) (at level 20, m at level 100, k at level 200, right associativity).
Notation "' x '<~' m ; k" := (ebind m (λ x, k)) (at level 20, x pattern, m at level 100, k at level 200, right associativity).

(** ** Interfaces *)
Record ScriptExecutionData := mkExecData {
  m_tapleaf_hash_init : bool;
  m_tapleaf_hash : list Z;
  m_codeseparator_pos_init : bool;
  m_codeseparator_pos : Z;
  m_annex_init : bool;
  m_annex_present : bool;
  m_annex_hash : list Z;
  m_validation_weight_left_init : bool;
  m_validation_weight_left : Z;
  m_output_hash : option (list Z);
}.

Definition execdata_new : ScriptExecutionData := mkExecData false [] false 0 false false [] false 0 None.

Definition set_codeseparator (d : ScriptExecutionData) (pos : Z) : ScriptExecutionData :=
  mkExecData (m_tapleaf_hash_init d) (m_tapleaf_hash d) true pos (m_annex_init d) (m_annex_present d) (m_annex_hash d)
    (m_validation_weight_left_init d) (m_validation_weight_left d) (m_output_hash d).
Definition set_weight (d : ScriptExecutionData) (w : Z) : ScriptExecutionData :=
  mkExecData (m_tapleaf_hash_init d) (m_tapleaf_hash d) (m_codeseparator_pos_init d) (m_codeseparator_pos d)
    (m_annex_init d) (m_annex_present d) (m_annex_hash d) (m_validation_weight_left_init d) w (m_output_hash d).
Definition set_output_hash (d : ScriptExecutionData) (h : option (list Z)) : ScriptExecutionData :=
  mkExecData (m_tapleaf_hash_init d) (m_tapleaf_hash d) (m_codeseparator_pos_init d) (m_codeseparator_pos d)
    (m_annex_init d) (m_annex_present d) (m_annex_hash d) (m_validation_weight_left_init d) (m_validation_weight_left d) h.

(** [BaseSignatureChecker]: [C] is what a checker mutates. A failed Schnorr
    check may leave the error as it was, which is [inl None]. *)
Class BaseSignatureChecker (C : Type) := {
  CheckECDSASignature : list Z → list Z → list Z → SigVersion → C → result (bool * C);
  CheckSchnorrSignature : list Z → list Z → SigVersion → ScriptExecutionData → result (option ScriptError + ScriptExecutionData);
  CheckPQSignature : list Z → list Z → PQAlgorithm → Z → SigVersion → ScriptExecutionData → bool → result (bool * ScriptExecutionData);
  CheckCTVHash : list Z → result bool;
  CheckLockTime : Z → result bool;
  CheckSequence : Z → result bool;
}.

(** The methods of the base class itself. *)
Definition base_checker : BaseSignatureChecker unit := {|
  CheckECDSASignature := λ _ _ _ _ c, Ok (false, c);
  CheckSchnorrSignature := λ _ _ _ _, Ok (inl None);
  CheckPQSignature := λ _ _ _ _ _ d _, Ok (false, d);
  CheckCTVHash := λ _, Ok false;
  CheckLockTime := λ _, Ok false;
  CheckSequence := λ _, Ok false;
|}.

(** The hashes and the curve arithmetic the opcodes use besides SHA-256. *)
Class ScriptPrimitives := {
  CRIPEMD160 : list Z → list Z;
  CSHA1 : list Z → list Z;
  CheckLowS : list Z → bool;
}.

Definition CHash160 `{ScriptPrimitives} (input : list Z) : list Z :=
  CRIPEMD160 (fst (sha_Finalize (sha_Write CSHA256_new input))).

(** ** Booleans *)
Fixpoint CastToBool (vch : list Z) : bool :=
  match vch with
  | [] => false
  | b :: rest => if negb (b =? 0) then negb (bool_decide (rest = []) && (b =? 0x80)) else CastToBool rest
  end.

Definition vchFalse : list Z := [].
Definition vchTrue : list Z := [1].
Definition bool_vch (b : bool) : list Z := if b then vchTrue else vchFalse.

(** ** Encodings of keys and signatures *)
Definition IsCompressedOrUncompressedPubKey (vchPubKey : list Z) : bool :=
  if zlen vchPubKey <? 33 then false
  else if znth vchPubKey 0 =? 0x04 then zlen vchPubKey =? 65
  else if (znth vchPubKey 0 =? 0x02) || (znth vchPubKey 0 =? 0x03) then zlen vchPubKey =? 33
  else false.

Definition IsCompressedPubKey (vchPubKey : list Z) : bool :=
  if negb (zlen vchPubKey =? 33) then false
  else (znth vchPubKey 0 =? 0x02) || (znth vchPubKey 0 =? 0x03).

Definition bit7 (b : Z) : bool := negb (Z.land b 0x80 =? 0).

Definition IsValidSignatureEncoding (sig : list Z) : bool :=
  let at_ := znth sig in
  if zlen sig <? 9 then false else
  if 73 <? zlen sig then false else
  if negb (at_ 0 =? 0x30) then false else
  if negb (at_ 1 =? zlen sig - 3) then false else
  let lenR := at_ 3 in
  if zlen sig <=? 5 + lenR then false else
  let lenS := at_ (5 + lenR) in
  if negb (lenR + lenS + 7 =? zlen sig) then false else
  if negb (at_ 2 =? 0x02) then false else
  if lenR =? 0 then false else
  if bit7 (at_ 4) then false else
  if (1 <? lenR) && (at_ 4 =? 0) && negb (bit7 (at_ 5)) then false else
  if negb (at_ (lenR + 4) =? 0x02) then false else
  if lenS =? 0 then false else
  if bit7 (at_ (lenR + 6)) then false else
  if (1 <? lenS) && (at_ (lenR + 6) =? 0) && negb (bit7 (at_ (lenR + 7))) then false else
  true.

Definition SIGHASH_DEFAULT : Z := 0.
Definition SIGHASH_ALL : Z := 1.
Definition SIGHASH_NONE : Z := 2.
Definition SIGHASH_SINGLE : Z := 3.
Definition SIGHASH_ANYONECANPAY : Z := 0x80.
Definition SIGHASH_OUTPUT_MASK : Z := 3.
Definition SIGHASH_INPUT_MASK : Z := 0x80.

Definition IsDefinedHashtypeSignature (vchSig : list Z) : bool :=
  if zlen vchSig =? 0 then false else
  let nHashType := Z.land (znth vchSig (zlen vchSig - 1)) (Z.lnot SIGHASH_ANYONECANPAY) in
  negb ((nHashType <? SIGHASH_ALL) || (SIGHASH_SINGLE <? nHashType)).

Definition IsDefinedSchnorrHashtype (hash_type : Z) (allow_default : bool) : bool :=
  if allow_default && (hash_type =? SIGHASH_DEFAULT) then true
  else (hash_type <=? 0x03) || ((0x81 <=? hash_type) && (hash_type <=? 0x83)).

Section Evaluation.
Context `{ScriptPrimitives} `{PQLibrary}.

Definition IsLowDERSignature (vchSig : list Z) : exec unit :=
  if negb (IsValidSignatureEncoding vchSig) then fail SCRIPT_ERR_SIG_DER
  else if negb (CheckLowS (take (Nat.pred (length vchSig)) vchSig)) then fail SCRIPT_ERR_SIG_HIGH_S
  else ret tt.

Definition CheckSignatureEncoding (vchSig : list Z) (flags : Z) : exec unit :=
  if zlen vchSig =? 0 then ret tt else
  if flag flags (Z.lor (Z.lor SCRIPT_VERIFY_DERSIG SCRIPT_VERIFY_LOW_S) SCRIPT_VERIFY_STRICTENC) && negb (IsValidSignatureEncoding vchSig)
  then fail SCRIPT_ERR_SIG_DER else
  _ <~ (if flag flags SCRIPT_VERIFY_LOW_S then IsLowDERSignature vchSig else ret tt);
  if flag flags SCRIPT_VERIFY_STRICTENC && negb (IsDefinedHashtypeSignature vchSig) then fail SCRIPT_ERR_SIG_HASHTYPE
  else ret tt.

Definition CheckPubKeyEncoding (vchPubKey : list Z) (flags : Z) (sigversion : SigVersion) : exec unit :=
  if flag flags SCRIPT_VERIFY_STRICTENC && negb (IsCompressedOrUncompressedPubKey vchPubKey) then fail SCRIPT_ERR_PUBKEYTYPE else
  if flag flags SCRIPT_VERIFY_WITNESS_PUBKEYTYPE && bool_decide (sigversion = WITNESS_V0) && negb (IsCompressedPubKey vchPubKey)
  then fail SCRIPT_ERR_WITNESS_PUBKEYTYPE else ret tt.

(** ** Removing a push from a script *)

(** The bytes between two iterators. *)
Definition between (pc2 pc : list Z) : list Z := take (length pc2 - length pc) pc2.

(** Skip the occurrences of [b] at [pc]. *)
Fixpoint skip_matches (fuel : nat) (b pc : list Z) (nFound : Z) : list Z * Z :=
  match fuel with
  | O => (pc, nFound)
  | S fuel =>
      if (zlen b <=? zlen pc) && bool_decide (take (length b) pc = b)
      then skip_matches fuel b (drop (length b) pc) (nFound + 1)
      else (pc, nFound)
  end.

(** The [do ... while] loop: the result, [pc2] and [nFound] at its end. *)
Fixpoint find_and_delete (fuel : nat) (b pc2 pc result : list Z) (nFound : Z) : list Z * list Z * Z :=
  let result := result ++ between pc2 pc in
  let '(pc, nFound) := skip_matches (length pc) b pc nFound in
  match fuel with
  | O => (result, pc, nFound)
  | S fuel =>
      let '(ok, _, _, pc') := GetScriptOp pc in
      if ok then find_and_delete fuel b pc pc' result nFound else (result, pc, nFound)
  end.

(** The number of occurrences found, and the script. *)
Definition FindAndDelete (s b : list Z) : Z * list Z :=
  match b with
  | [] => (0, s)
  | _ =>
      let '(result, pc2, nFound) := find_and_delete (length s) b s s [] 0 in
      if 0 <? nFound then (nFound, result ++ pc2) else (nFound, s)
  end.

End Evaluation.

(** ** The condition stack *)
Class CondStack (V : Type) := {
  cond_new : V;
  cond_empty : V → bool;
  all_true : V → bool;
  cond_push : bool → V → V;
  cond_pop : V → result V;
  toggle_top : V → result V;
}.

(** The class of the source: the size of the stack and the position of its
    first false value. *)
Record ConditionStack := mkCondStack { m_stack_size : Z; m_first_false_pos : Z }.

Definition NO_FALSE : Z := 0xffffffff.

#[export] Instance condition_stack : CondStack ConditionStack := {|
  cond_new := mkCondStack 0 NO_FALSE;
  cond_empty v := m_stack_size v =? 0;
  all_true v := m_first_false_pos v =? NO_FALSE;
  cond_push f v :=
    mkCondStack (u32 (m_stack_size v + 1))
      (if (m_first_false_pos v =? NO_FALSE) && negb f then m_stack_size v else m_first_false_pos v);
  cond_pop v :=
    _ ← assert_ (0 <? m_stack_size v);
    let n := m_stack_size v - 1 in
    Ok (mkCondStack n (if m_first_false_pos v =? n then NO_FALSE else m_first_false_pos v));
  toggle_top v :=
    _ ← assert_ (0 <? m_stack_size v);
    Ok (mkCondStack (m_stack_size v)
          (if m_first_false_pos v =? NO_FALSE then m_stack_size v - 1
           else if m_first_false_pos v =? m_stack_size v - 1 then NO_FALSE
           else m_first_false_pos v));
|}.

(** ** Signature checks *)
Section Checks.
Context `{ScriptPrimitives} `{PQLibrary} {C : Type} `{!BaseSignatureChecker C}.

Definition EvalChecksigPreTapscript (vchSig vchPubKey pbegincodehash : list Z) (flags : Z) (sigversion : SigVersion) (c : C) :
    exec (bool * C) :=
  _ <~ lift (assert_ (bool_decide (sigversion = BASE) || bool_decide (sigversion = WITNESS_V0)));
  scriptCode <~
    (if bool_decide (sigversion = BASE) then
       let '(found, scriptCode) := FindAndDelete pbegincodehash (push_data vchSig) in
       if (0 <? found) && flag flags SCRIPT_VERIFY_CONST_SCRIPTCODE then fail SCRIPT_ERR_SIG_FINDANDDELETE else ret scriptCode
     else ret pbegincodehash);
  _ <~ CheckSignatureEncoding vchSig flags;
  _ <~ CheckPubKeyEncoding vchPubKey flags sigversion;
  '(fSuccess, c) <~ lift (CheckECDSASignature vchSig vchPubKey scriptCode sigversion c);
  if negb fSuccess && flag flags SCRIPT_VERIFY_NULLFAIL && negb (zlen vchSig =? 0) then fail SCRIPT_ERR_SIG_NULLFAIL
  else ret (fSuccess, c).

(** Charge the weight of a signature. *)
Definition charge (execdata : ScriptExecutionData) (cost : Z) : exec ScriptExecutionData :=
  _ <~ lift (assert_ (m_validation_weight_left_init execdata));
  let left := m_validation_weight_left execdata - cost in
  if left <? 0 then fail SCRIPT_ERR_TAPSCRIPT_VALIDATION_WEIGHT else ret (set_weight execdata left).

Definition EvalChecksigTapscript (sig pubkey : list Z) (execdata : ScriptExecutionData) (flags : Z) (sigversion : SigVersion) :
    exec (bool * ScriptExecutionData) :=
  _ <~ lift (assert_ (bool_decide (sigversion = TAPSCRIPT)));
  let success := negb (zlen sig =? 0) in
  execdata <~ (if success then charge execdata VALIDATION_WEIGHT_PER_SIGOP_PASSED else ret execdata);
  if zlen pubkey =? 0 then fail SCRIPT_ERR_PUBKEYTYPE
  else if zlen pubkey =? 32 then
    if success then
      r <~ lift (CheckSchnorrSignature sig pubkey sigversion execdata);
      match r with
      | inl e => fail (default SCRIPT_ERR_UNKNOWN_ERROR e)
      | inr execdata => ret (success, execdata)
      end
    else ret (success, execdata)
  else if flag flags SCRIPT_VERIFY_DISCOURAGE_UPGRADABLE_PUBKEYTYPE then fail SCRIPT_ERR_DISCOURAGE_UPGRADABLE_PUBKEYTYPE
  else ret (success, execdata).

Definition EvalChecksig (sig pubkey pbegincodehash : list Z) (execdata : ScriptExecutionData) (flags : Z) (sigversion : SigVersion) (c : C) :
    exec (bool * ScriptExecutionData * C) :=
  if flag flags SCRIPT_VERIFY_REJECT_LEGACY_SIGS &&
     (bool_decide (sigversion = BASE) || bool_decide (sigversion = WITNESS_V0) || bool_decide (sigversion = TAPSCRIPT))
  then fail SCRIPT_ERR_BAD_OPCODE else
  match sigversion with
  | BASE | WITNESS_V0 =>
      '(success, c) <~ EvalChecksigPreTapscript sig pubkey pbegincodehash flags sigversion c;
      ret (success, execdata, c)
  | TAPSCRIPT =>
      '(success, execdata) <~ EvalChecksigTapscript sig pubkey execdata flags sigversion;
      ret (success, execdata, c)
  | P2MR => fail SCRIPT_ERR_BAD_OPCODE
  | TAPROOT => lift (Err EAssert)
  end.

(** The checks that the post-quantum opcodes share: the sizes, the hash type,
    the weight, the signature. *)
Definition pq_sig_err (algo : PQAlgorithm) : ScriptError :=
  match algo with ML_DSA_44 => SCRIPT_ERR_SIG_MLDSA | SLH_DSA_128S => SCRIPT_ERR_SIG_SLHDSA end.

(** The signature without its hash type, and the hash type. *)
Definition split_hash_type (algo : PQAlgorithm) (sig : list Z) : exec (list Z * Z) :=
  if negb (zlen sig =? 0) && (zlen sig =? GetPQSignatureSize algo + 1) then
    let hash_type := znth sig (zlen sig - 1) in
    if negb (IsDefinedSchnorrHashtype hash_type false) then fail SCRIPT_ERR_SIG_HASHTYPE
    else ret (take (Nat.pred (length sig)) sig, hash_type)
  else if negb (zlen sig =? 0) && negb (zlen sig =? GetPQSignatureSize algo) then fail (pq_sig_err algo)
  else ret (sig, SIGHASH_DEFAULT).

Definition pq_check (algo : PQAlgorithm) (weight_cost : Z) (sig pubkey : list Z) (flags : Z) (sigversion : SigVersion)
    (execdata : ScriptExecutionData) : exec (bool * ScriptExecutionData) :=
  if bool_decide (algo = ML_DSA_44) && flag flags SCRIPT_VERIFY_DISALLOW_MLDSA then fail SCRIPT_ERR_DISABLED_OPCODE else
  if negb (zlen pubkey =? GetPQPubKeySize algo) then fail SCRIPT_ERR_PQ_PUBKEY_SIZE else
  '(sig, hash_type) <~ split_hash_type algo sig;
  '(success, execdata) <~
    (if zlen sig =? 0 then ret (false, execdata) else
     execdata <~ charge execdata weight_cost;
     lift (CheckPQSignature sig pubkey algo hash_type sigversion execdata (flag flags SCRIPT_VERIFY_SLHDSA_FIPS205)));
  if negb success && flag flags SCRIPT_VERIFY_NULLFAIL && negb (zlen sig =? 0) then fail (pq_sig_err algo)
  else ret (success, execdata).

Definition checksig_weight (algo : PQAlgorithm) : Z :=
  match algo with ML_DSA_44 => VALIDATION_WEIGHT_PER_MLDSA_SIGOP | SLH_DSA_128S => VALIDATION_WEIGHT_PER_SLHDSA_SIGOP end.
Definition checksigadd_weight (algo : PQAlgorithm) : Z :=
  match algo with
  | ML_DSA_44 => VALIDATION_WEIGHT_PER_MLDSA_MULTISIG_SIGOP
  | SLH_DSA_128S => VALIDATION_WEIGHT_PER_SLHDSA_MULTISIG_SIGOP
  end.

Definition csfs_hash (msg : list Z) : list Z := hash_parts (TaggedHash "CSFS/btx") [msg].

(** ** The machine *)
Context {V : Type} `{!CondStack V}.

Abbreviation valtype := (list Z).

Record EvalState := mkState {
  stack : list valtype;
  altstack : list valtype;
  vfExec : V;
  pc : list Z;
  pbegincodehash : list Z;
  nOpCount : Z;
  opcode_pos : Z;
  execdata : ScriptExecutionData;
  checker : C;
}.

Definition with_stack (st : EvalState) (s : list valtype) : EvalState :=
  mkState s (altstack st) (vfExec st) (pc st) (pbegincodehash st) (nOpCount st) (opcode_pos st) (execdata st) (checker st).
Definition with_altstack (st : EvalState) (s : list valtype) : EvalState :=
  mkState (stack st) s (vfExec st) (pc st) (pbegincodehash st) (nOpCount st) (opcode_pos st) (execdata st) (checker st).
Definition with_cond (st : EvalState) (v : V) : EvalState :=
  mkState (stack st) (altstack st) v (pc st) (pbegincodehash st) (nOpCount st) (opcode_pos st) (execdata st) (checker st).
Definition with_pc (st : EvalState) (p : list Z) : EvalState :=
  mkState (stack st) (altstack st) (vfExec st) p (pbegincodehash st) (nOpCount st) (opcode_pos st) (execdata st) (checker st).
Definition with_ops (st : EvalState) (n : Z) : EvalState :=
  mkState (stack st) (altstack st) (vfExec st) (pc st) (pbegincodehash st) n (opcode_pos st) (execdata st) (checker st).
Definition with_execdata (st : EvalState) (d : ScriptExecutionData) : EvalState :=
  mkState (stack st) (altstack st) (vfExec st) (pc st) (pbegincodehash st) (nOpCount st) (opcode_pos st) d (checker st).
Definition with_checker (st : EvalState) (c : C) : EvalState :=
  mkState (stack st) (altstack st) (vfExec st) (pc st) (pbegincodehash st) (nOpCount st) (opcode_pos st) (execdata st) c.

(** Replace the stack. *)
Definition leave (st : EvalState) (s : list valtype) : exec EvalState := ret (with_stack st s).

Definition invalid_stack {A} : exec A := fail SCRIPT_ERR_INVALID_STACK_OPERATION.

(** [stacktop(-i)] and [popstack], which throw. *)
Definition stacktop (s : list valtype) (i : Z) : result valtype :=
  match s !! Z.to_nat (i - 1) with Some v => Ok v | None => Err (ERuntime "vector::at") end.
Definition popstack (s : list valtype) : result (list valtype) :=
  match s with [] => Err (ERuntime "popstack(): stack empty") | _ :: s => Ok s end.

(** An opcode that ends in [VERIFY] pops the result again, or fails. *)
Definition push_verified (st : EvalState) (verify : bool) (ok : bool) (e : ScriptError) (v : valtype) (s : list valtype) : exec EvalState :=
  if verify then if ok then leave st s else fail e
  else leave st (v :: s).

(** ** Opcodes *)
Variables (flags : Z) (sigversion : SigVersion).

Definition fRequireMinimal : bool := flag flags SCRIPT_VERIFY_MINIMALDATA.
Definition num (vch : valtype) : exec Z := lift (CScriptNum vch fRequireMinimal nDefaultMaxNumSize).

(** [CHECKLOCKTIMEVERIFY]. *)
Definition op_checklocktime (st : EvalState) : exec EvalState :=
  if negb (flag flags SCRIPT_VERIFY_CHECKLOCKTIMEVERIFY) then ret st else
  match stack st with
  | [] => invalid_stack
  | top :: _ =>
      nLockTime <~ lift (CScriptNum top fRequireMinimal 5);
      if nLockTime <? 0 then fail SCRIPT_ERR_NEGATIVE_LOCKTIME else
      ok <~ lift (CheckLockTime nLockTime);
      if ok then ret st else fail SCRIPT_ERR_UNSATISFIED_LOCKTIME
  end.

Definition op_checksequence (st : EvalState) : exec EvalState :=
  if negb (flag flags SCRIPT_VERIFY_CHECKSEQUENCEVERIFY) then ret st else
  match stack st with
  | [] => invalid_stack
  | top :: _ =>
      nSequence <~ lift (CScriptNum top fRequireMinimal 5);
      if nSequence <? 0 then fail SCRIPT_ERR_NEGATIVE_LOCKTIME else
      if negb (Z.land nSequence SEQUENCE_DISABLE_FLAG =? 0) then ret st else
      ok <~ lift (CheckSequence nSequence);
      if ok then ret st else fail SCRIPT_ERR_UNSATISFIED_LOCKTIME
  end.

Definition op_upgradable_nop (st : EvalState) : exec EvalState :=
  if flag flags SCRIPT_VERIFY_DISCOURAGE_UPGRADABLE_NOPS then fail SCRIPT_ERR_DISCOURAGE_UPGRADABLE_NOPS else ret st.

Definition op_checktemplate (st : EvalState) : exec EvalState :=
  if negb (flag flags SCRIPT_VERIFY_CHECKTEMPLATEVERIFY) then op_upgradable_nop st else
  if negb (bool_decide (sigversion = P2MR)) then op_upgradable_nop st else
  match stack st with
  | [] => invalid_stack
  | ctv_hash :: _ =>
      if negb (zlen ctv_hash =? 32) then fail SCRIPT_ERR_CTV_HASH_SIZE else
      ok <~ lift (CheckCTVHash ctv_hash);
      if ok then ret st else fail SCRIPT_ERR_CTV_HASH_MISMATCH
  end.

(** The argument of [IF] is empty or the byte one. *)
Definition minimal_if (vch : valtype) : bool := negb ((1 <? zlen vch) || ((zlen vch =? 1) && negb (znth vch 0 =? 1))).

Definition op_if (notif fExec : bool) (st : EvalState) : exec EvalState :=
  if negb fExec then ret (with_cond st (cond_push false (vfExec st))) else
  match stack st with
  | [] => fail SCRIPT_ERR_UNBALANCED_CONDITIONAL
  | vch :: rest =>
      _ <~ fail_if ((bool_decide (sigversion = TAPSCRIPT) || bool_decide (sigversion = P2MR)) && negb (minimal_if vch))
             SCRIPT_ERR_TAPSCRIPT_MINIMALIF;
      _ <~ fail_if (bool_decide (sigversion = WITNESS_V0) && flag flags SCRIPT_VERIFY_MINIMALIF && negb (minimal_if vch))
             SCRIPT_ERR_MINIMALIF;
      let fValue := if notif then negb (CastToBool vch) else CastToBool vch in
      ret (with_cond (with_stack st rest) (cond_push fValue (vfExec st)))
  end.

Definition op_else (st : EvalState) : exec EvalState :=
  if cond_empty (vfExec st) then fail SCRIPT_ERR_UNBALANCED_CONDITIONAL else
  v <~ lift (toggle_top (vfExec st));
  ret (with_cond st v).

Definition op_endif (st : EvalState) : exec EvalState :=
  if cond_empty (vfExec st) then fail SCRIPT_ERR_UNBALANCED_CONDITIONAL else
  v <~ lift (cond_pop (vfExec st));
  ret (with_cond st v).

Definition op_verify (st : EvalState) : exec EvalState :=
  match stack st with
  | [] => invalid_stack
  | v :: s => if CastToBool v then leave st s else fail SCRIPT_ERR_VERIFY
  end.

(** [PICK] and [ROLL]. *)
Definition op_pick (roll : bool) (st : EvalState) : exec EvalState :=
  match stack st with
  | top :: ((_ :: _) as s) =>
      v <~ num top;
      let n := getint v in
      if (n <? 0) || (zlen s <=? n) then invalid_stack else
      vch <~ lift (stacktop s (n + 1));
      leave st (vch :: (if roll then delete (Z.to_nat n) s else s))
  | _ => invalid_stack
  end.

(** The opcodes that only move elements. *)
Definition op_stack (opcode : opcodetype) (st : EvalState) : exec EvalState :=
  match opcode, stack st with
  | OP_TOALTSTACK, x :: s => ret (with_altstack (with_stack st s) (x :: altstack st))
  | OP_FROMALTSTACK, s =>
      match altstack st with
      | [] => fail SCRIPT_ERR_INVALID_ALTSTACK_OPERATION
      | x :: a => ret (with_altstack (with_stack st (x :: s)) a)
      end
  | OP_2DROP, _ :: _ :: s => leave st s
  | OP_2DUP, x2 :: x1 :: s => leave st (x2 :: x1 :: x2 :: x1 :: s)
  | OP_3DUP, x3 :: x2 :: x1 :: s => leave st (x3 :: x2 :: x1 :: x3 :: x2 :: x1 :: s)
  | OP_2OVER, x4 :: x3 :: x2 :: x1 :: s => leave st (x2 :: x1 :: x4 :: x3 :: x2 :: x1 :: s)
  | OP_2ROT, x6 :: x5 :: x4 :: x3 :: x2 :: x1 :: s => leave st (x2 :: x1 :: x6 :: x5 :: x4 :: x3 :: s)
  | OP_2SWAP, x4 :: x3 :: x2 :: x1 :: s => leave st (x2 :: x1 :: x4 :: x3 :: s)
  | OP_IFDUP, x :: s => leave st (if CastToBool x then x :: x :: s else x :: s)
  | OP_DEPTH, s => leave st (serialize (zlen s) :: s)
  | OP_DROP, _ :: s => leave st s
  | OP_DUP, x :: s => leave st (x :: x :: s)
  | OP_NIP, x2 :: _ :: s => leave st (x2 :: s)
  | OP_OVER, x2 :: x1 :: s => leave st (x1 :: x2 :: x1 :: s)
  | OP_ROT, x3 :: x2 :: x1 :: s => leave st (x1 :: x3 :: x2 :: s)
  | OP_SWAP, x2 :: x1 :: s => leave st (x1 :: x2 :: s)
  | OP_TUCK, x2 :: x1 :: s => leave st (x2 :: x1 :: x2 :: s)
  | OP_SIZE, x :: s => leave st (serialize (zlen x) :: x :: s)
  | _, _ => invalid_stack
  end.

Definition op_equal (verify : bool) (st : EvalState) : exec EvalState :=
  match stack st with
  | vch2 :: vch1 :: s =>
      let fEqual := bool_decide (vch1 = vch2) in
      push_verified st verify fEqual SCRIPT_ERR_EQUALVERIFY (bool_vch fEqual) s
  | _ => invalid_stack
  end.

Definition unary (opcode : opcodetype) (bn : Z) : result Z :=
  match opcode with
  | OP_1ADD => num_incr bn 1
  | OP_1SUB => num_decr bn 1
  | OP_NEGATE => num_neg bn
  | OP_ABS => if bn <? 0 then num_neg bn else Ok bn
  | OP_NOT => Ok (Z.b2z (bn =? 0))
  | OP_0NOTEQUAL => Ok (Z.b2z (negb (bn =? 0)))
  | _ => Err EAssert
  end.

Definition op_unary (opcode : opcodetype) (st : EvalState) : exec EvalState :=
  match stack st with
  | top :: s =>
      bn <~ num top;
      bn <~ lift (unary opcode bn);
      leave st (serialize bn :: s)
  | _ => invalid_stack
  end.

Definition binary (opcode : opcodetype) (bn1 bn2 : Z) : result Z :=
  match opcode with
  | OP_ADD => num_add bn1 bn2
  | OP_SUB => num_sub bn1 bn2
  | OP_BOOLAND => Ok (Z.b2z (negb (bn1 =? 0) && negb (bn2 =? 0)))
  | OP_BOOLOR => Ok (Z.b2z (negb (bn1 =? 0) || negb (bn2 =? 0)))
  | OP_NUMEQUAL => Ok (Z.b2z (bn1 =? bn2))
  | OP_NUMEQUALVERIFY => Ok (Z.b2z (bn1 =? bn2))
  | OP_NUMNOTEQUAL => Ok (Z.b2z (negb (bn1 =? bn2)))
  | OP_LESSTHAN => Ok (Z.b2z (bn1 <? bn2))
  | OP_GREATERTHAN => Ok (Z.b2z (bn2 <? bn1))
  | OP_LESSTHANOREQUAL => Ok (Z.b2z (bn1 <=? bn2))
  | OP_GREATERTHANOREQUAL => Ok (Z.b2z (bn2 <=? bn1))
  | OP_MIN => Ok (if bn1 <? bn2 then bn1 else bn2)
  | OP_MAX => Ok (if bn2 <? bn1 then bn1 else bn2)
  | _ => Err EAssert
  end.

Definition op_binary (opcode : opcodetype) (st : EvalState) : exec EvalState :=
  match stack st with
  | x2 :: x1 :: s =>
      bn1 <~ num x1;
      bn2 <~ num x2;
      bn <~ lift (binary opcode bn1 bn2);
      push_verified st (op_is opcode OP_NUMEQUALVERIFY) (CastToBool (serialize bn)) SCRIPT_ERR_NUMEQUALVERIFY (serialize bn) s
  | _ => invalid_stack
  end.

Definition op_within (st : EvalState) : exec EvalState :=
  match stack st with
  | x3 :: x2 :: x1 :: s =>
      bn1 <~ num x1;
      bn2 <~ num x2;
      bn3 <~ num x3;
      leave st (bool_vch ((bn2 <=? bn1) && (bn1 <? bn3)) :: s)
  | _ => invalid_stack
  end.

Definition hash_op (opcode : opcodetype) (vch : valtype) : valtype :=
  match opcode with
  | OP_RIPEMD160 => CRIPEMD160 vch
  | OP_SHA1 => CSHA1 vch
  | OP_SHA256 => fst (sha_Finalize (sha_Write CSHA256_new vch))
  | OP_HASH160 => CHash160 vch
  | _ => CHash256_Finalize (CHash256_Write CHash256_new vch)
  end.

Definition op_hash (opcode : opcodetype) (st : EvalState) : exec EvalState :=
  match stack st with
  | vch :: s => leave st (hash_op opcode vch :: s)
  | _ => invalid_stack
  end.

Definition op_codeseparator (st : EvalState) : exec EvalState :=
  ret (mkState (stack st) (altstack st) (vfExec st) (pc st) (pc st) (nOpCount st) (opcode_pos st)
         (set_codeseparator (execdata st) (opcode_pos st)) (checker st)).

Definition op_checksig (verify : bool) (st : EvalState) : exec EvalState :=
  match stack st with
  | vchPubKey :: vchSig :: s =>
      '(fSuccess, d, c) <~ EvalChecksig vchSig vchPubKey (pbegincodehash st) (execdata st) flags sigversion (checker st);
      push_verified (with_checker (with_execdata st d) c) verify fSuccess SCRIPT_ERR_CHECKSIGVERIFY (bool_vch fSuccess) s
  | _ => invalid_stack
  end.

Definition op_checksigadd (st : EvalState) : exec EvalState :=
  if negb (bool_decide (sigversion = TAPSCRIPT)) then fail SCRIPT_ERR_BAD_OPCODE else
  match stack st with
  | pubkey :: n :: sig :: s =>
      n <~ num n;
      '(success, d, c) <~ EvalChecksig sig pubkey (pbegincodehash st) (execdata st) flags sigversion (checker st);
      sum <~ lift (num_add n (Z.b2z success));
      leave (with_checker (with_execdata st d) c) (serialize sum :: s)
  | _ => invalid_stack
  end.

Definition op_checksig_pq (opcode : opcodetype) (st : EvalState) : exec EvalState :=
  if negb (bool_decide (sigversion = P2MR)) then fail SCRIPT_ERR_BAD_OPCODE else
  match stack st with
  | pubkey :: sig :: s =>
      match DecodeP2MRChecksigOpcode opcode with
      | Some (algo, false) =>
          '(success, d) <~ pq_check algo (checksig_weight algo) sig pubkey flags sigversion (execdata st);
          leave (with_execdata st d) (bool_vch success :: s)
      | _ => fail SCRIPT_ERR_BAD_OPCODE
      end
  | _ => invalid_stack
  end.

Definition op_checksigadd_pq (opcode : opcodetype) (st : EvalState) : exec EvalState :=
  if negb (bool_decide (sigversion = P2MR)) then fail SCRIPT_ERR_BAD_OPCODE else
  match stack st with
  | pubkey :: n :: sig :: s =>
      n <~ lift (CScriptNum n true nDefaultMaxNumSize);
      match DecodeP2MRChecksigOpcode opcode with
      | Some (algo, true) =>
          '(success, d) <~ pq_check algo (checksigadd_weight algo) sig pubkey flags sigversion (execdata st);
          sum <~ lift (num_add n (Z.b2z success));
          leave (with_execdata st d) (serialize sum :: s)
      | _ => fail SCRIPT_ERR_BAD_OPCODE
      end
  | _ => invalid_stack
  end.

Definition op_checksigfromstack (st : EvalState) : exec EvalState :=
  if negb (bool_decide (sigversion = P2MR)) then fail SCRIPT_ERR_BAD_OPCODE else
  match stack st with
  | pubkey :: msg :: sig :: s =>
      match GetPQAlgorithmByPubKeySize (zlen pubkey) with
      | None => fail SCRIPT_ERR_PQ_PUBKEY_SIZE
      | Some algo =>
          if bool_decide (algo = ML_DSA_44) && flag flags SCRIPT_VERIFY_DISALLOW_MLDSA then fail SCRIPT_ERR_DISABLED_OPCODE else
          if negb (zlen sig =? 0) && negb (zlen sig =? GetPQSignatureSize algo) then fail (pq_sig_err algo) else
          '(success, d) <~
            (if zlen sig =? 0 then ret (false, execdata st) else
             d <~ charge (execdata st) (checksig_weight algo);
             ret (CPQPubKey_Verify algo pubkey (csfs_hash msg) sig (flag flags SCRIPT_VERIFY_SLHDSA_FIPS205), d));
          if negb success && flag flags SCRIPT_VERIFY_NULLFAIL && negb (zlen sig =? 0) then fail (pq_sig_err algo) else
          leave (with_execdata st d) (bool_vch success :: s)
      end
  | _ => invalid_stack
  end.

(** *** CHECKMULTISIG *)

(** Drop the signatures from the script code. *)
Fixpoint multisig_script (n : nat) (isig : Z) (s : list valtype) (scriptCode : list Z) : exec (list Z) :=
  match n with
  | O => ret scriptCode
  | S n =>
      vchSig <~ lift (stacktop s isig);
      scriptCode <~
        (if bool_decide (sigversion = BASE) then
           let '(found, scriptCode) := FindAndDelete scriptCode (push_data vchSig) in
           if (0 <? found) && flag flags SCRIPT_VERIFY_CONST_SCRIPTCODE then fail SCRIPT_ERR_SIG_FINDANDDELETE else ret scriptCode
         else ret scriptCode);
      multisig_script n (isig + 1) s scriptCode
  end.

(** [while (fSuccess && nSigsCount > 0)]; every turn uses up a key. *)
Fixpoint multisig_match (fuel : nat) (s : list valtype) (scriptCode : list Z) (isig ikey nSigsCount nKeysCount : Z) (c : C) :
    exec (bool * C) :=
  if nSigsCount <=? 0 then ret (true, c) else
  match fuel with
  | O => lift (Err EFuel)
  | S fuel =>
      vchSig <~ lift (stacktop s isig);
      vchPubKey <~ lift (stacktop s ikey);
      _ <~ CheckSignatureEncoding vchSig flags;
      _ <~ CheckPubKeyEncoding vchPubKey flags sigversion;
      '(fOk, c) <~ lift (CheckECDSASignature vchSig vchPubKey scriptCode sigversion c);
      let isig := if fOk : bool then isig + 1 else isig in
      let nSigsCount := if fOk then nSigsCount - 1 else nSigsCount in
      if nKeysCount - 1 <? nSigsCount then ret (false, c)
      else multisig_match fuel s scriptCode isig (ikey + 1) nSigsCount (nKeysCount - 1) c
  end.

(** [while (i-- > 1)]: pop the arguments. *)
Fixpoint multisig_cleanup (n : nat) (fSuccess : bool) (ikey2 : Z) (s : list valtype) : exec (list valtype) :=
  match n with
  | O => ret s
  | S n =>
      _ <~ (if negb fSuccess && flag flags SCRIPT_VERIFY_NULLFAIL && (ikey2 =? 0) then
              top <~ lift (stacktop s 1);
              fail_if (negb (zlen top =? 0)) SCRIPT_ERR_SIG_NULLFAIL
            else ret tt);
      s <~ lift (popstack s);
      multisig_cleanup n fSuccess (if 0 <? ikey2 then ikey2 - 1 else ikey2) s
  end.

Definition op_checkmultisig (verify : bool) (st : EvalState) : exec EvalState :=
  match sigversion with
  | TAPSCRIPT => fail SCRIPT_ERR_TAPSCRIPT_CHECKMULTISIG
  | P2MR => fail SCRIPT_ERR_BAD_OPCODE
  | _ =>
      let s := stack st in
      if zlen s <? 1 then invalid_stack else
      keys <~ lift (stacktop s 1);
      keys <~ num keys;
      let nKeysCount := getint keys in
      if (nKeysCount <? 0) || (MAX_PUBKEYS_PER_MULTISIG <? nKeysCount) then fail SCRIPT_ERR_PUBKEY_COUNT else
      let nOpCount := nOpCount st + nKeysCount in
      if MAX_OPS_PER_SCRIPT <? nOpCount then fail SCRIPT_ERR_OP_COUNT else
      let ikey := 2 in
      let i := 2 + nKeysCount in
      if zlen s <? i then invalid_stack else
      sigs <~ lift (stacktop s i);
      sigs <~ num sigs;
      let nSigsCount := getint sigs in
      if (nSigsCount <? 0) || (nKeysCount <? nSigsCount) then fail SCRIPT_ERR_SIG_COUNT else
      let isig := i + 1 in
      let i := isig + nSigsCount in
      if zlen s <? i then invalid_stack else
      scriptCode <~ multisig_script (Z.to_nat nSigsCount) isig s (pbegincodehash st);
      '(fSuccess, c) <~ multisig_match (Z.to_nat nKeysCount) s scriptCode isig ikey nSigsCount nKeysCount (checker st);
      s <~ multisig_cleanup (Z.to_nat (i - 1)) fSuccess (nKeysCount + 2) s;
      match s with
      | [] => invalid_stack
      | dummy :: s =>
          if flag flags SCRIPT_VERIFY_NULLDUMMY && negb (zlen dummy =? 0) then fail SCRIPT_ERR_SIG_NULLDUMMY else
          push_verified (with_checker (with_ops st nOpCount) c) verify fSuccess SCRIPT_ERR_CHECKMULTISIGVERIFY (bool_vch fSuccess) s
      end
  end.

(** ** The switch *)
Definition eval_op (opcode : opcodetype) (fExec : bool) (st : EvalState) : exec EvalState :=
  match opcode with
  | OP_1NEGATE | OP_1 | OP_2 | OP_3 | OP_4 | OP_5 | OP_6 | OP_7 | OP_8 | OP_9 | OP_10 | OP_11 | OP_12 | OP_13 | OP_14
  | OP_15 | OP_16 => leave st (serialize (opcode_value opcode - (opcode_value OP_1 - 1)) :: stack st)
  | OP_NOP => ret st
  | OP_CHECKLOCKTIMEVERIFY => op_checklocktime st
  | OP_CHECKSEQUENCEVERIFY => op_checksequence st
  | OP_NOP1 | OP_NOP5 | OP_NOP6 | OP_NOP7 | OP_NOP8 | OP_NOP9 | OP_NOP10 => op_upgradable_nop st
  | OP_CHECKTEMPLATEVERIFY => op_checktemplate st
  | OP_IF => op_if false fExec st
  | OP_NOTIF => op_if true fExec st
  | OP_ELSE => op_else st
  | OP_ENDIF => op_endif st
  | OP_VERIFY => op_verify st
  | OP_RETURN => fail SCRIPT_ERR_OP_RETURN
  | OP_TOALTSTACK | OP_FROMALTSTACK | OP_2DROP | OP_2DUP | OP_3DUP | OP_2OVER | OP_2ROT | OP_2SWAP | OP_IFDUP | OP_DEPTH
  | OP_DROP | OP_DUP | OP_NIP | OP_OVER | OP_ROT | OP_SWAP | OP_TUCK | OP_SIZE => op_stack opcode st
  | OP_PICK => op_pick false st
  | OP_ROLL => op_pick true st
  | OP_EQUAL => op_equal false st
  | OP_EQUALVERIFY => op_equal true st
  | OP_1ADD | OP_1SUB | OP_NEGATE | OP_ABS | OP_NOT | OP_0NOTEQUAL => op_unary opcode st
  | OP_ADD | OP_SUB | OP_BOOLAND | OP_BOOLOR | OP_NUMEQUAL | OP_NUMEQUALVERIFY | OP_NUMNOTEQUAL | OP_LESSTHAN
  | OP_GREATERTHAN | OP_LESSTHANOREQUAL | OP_GREATERTHANOREQUAL | OP_MIN | OP_MAX => op_binary opcode st
  | OP_WITHIN => op_within st
  | OP_RIPEMD160 | OP_SHA1 | OP_SHA256 | OP_HASH160 | OP_HASH256 => op_hash opcode st
  | OP_CODESEPARATOR => op_codeseparator st
  | OP_CHECKSIG => op_checksig false st
  | OP_CHECKSIGVERIFY => op_checksig true st
  | OP_CHECKSIGADD => op_checksigadd st
  | OP_CHECKSIG_MLDSA | OP_CHECKSIG_SLHDSA => op_checksig_pq opcode st
  | OP_CHECKSIGADD_MLDSA | OP_CHECKSIGADD_SLHDSA => op_checksigadd_pq opcode st
  | OP_CHECKSIGFROMSTACK => op_checksigfromstack st
  | OP_CHECKMULTISIG => op_checkmultisig false st
  | OP_CHECKMULTISIGVERIFY => op_checkmultisig true st
  | _ => fail SCRIPT_ERR_BAD_OPCODE
  end.

(** ** The loop *)
Definition is_disabled (opcode : opcodetype) : bool :=
  match opcode with
  | OP_CAT | OP_SUBSTR | OP_LEFT | OP_RIGHT | OP_INVERT | OP_AND | OP_OR | OP_XOR | OP_2MUL | OP_2DIV | OP_MUL | OP_DIV
  | OP_MOD | OP_LSHIFT | OP_RSHIFT => true
  | _ => false
  end.

Definition is_legacy : bool := bool_decide (sigversion = BASE) || bool_decide (sigversion = WITNESS_V0).
Definition max_push_size : Z := if bool_decide (sigversion = P2MR) then MAX_P2MR_ELEMENT_SIZE else MAX_SCRIPT_ELEMENT_SIZE.

Fixpoint stack_bytes (s : list valtype) : Z := match s with [] => 0 | x :: s => zlen x + stack_bytes s end.

Definition p2mr_stack_bytes_ok (st : EvalState) : bool :=
  negb (bool_decide (sigversion = P2MR)) || (stack_bytes (stack st) + stack_bytes (altstack st) <=? MAX_P2MR_STACK_BYTES).

(** One turn, without [++opcode_pos]. *)
Definition eval_step (st : EvalState) : exec EvalState :=
  let fExec := all_true (vfExec st) in
  let '(ok, opcode, vchPushValue, pc) := GetScriptOp (pc st) in
  if negb ok then fail SCRIPT_ERR_BAD_OPCODE else
  let st := with_pc st pc in
  if max_push_size <? zlen vchPushValue then fail SCRIPT_ERR_PUSH_SIZE else
  let st := if is_legacy && negb (op_le opcode OP_16) then with_ops st (nOpCount st + 1) else st in
  if is_legacy && negb (op_le opcode OP_16) && (MAX_OPS_PER_SCRIPT <? nOpCount st) then fail SCRIPT_ERR_OP_COUNT else
  if is_disabled opcode then fail SCRIPT_ERR_DISABLED_OPCODE else
  if op_is opcode OP_CODESEPARATOR && bool_decide (sigversion = BASE) && flag flags SCRIPT_VERIFY_CONST_SCRIPTCODE
  then fail SCRIPT_ERR_OP_CODESEPARATOR else
  st <~
    (if fExec && op_le opcode OP_PUSHDATA4 then
       minimal <~ (if fRequireMinimal then lift (CheckMinimalPush vchPushValue opcode) else ret true);
       if minimal then leave st (vchPushValue :: stack st) else fail SCRIPT_ERR_MINIMALDATA
     else if fExec || (op_le OP_IF opcode && op_le opcode OP_ENDIF) then eval_op opcode fExec st
     else ret st);
  if MAX_STACK_SIZE <? zlen (stack st) + zlen (altstack st) then fail SCRIPT_ERR_STACK_SIZE else
  if negb (p2mr_stack_bytes_ok st) then fail SCRIPT_ERR_STACK_SIZE else
  ret st.

Definition next_position (st : EvalState) : EvalState :=
  mkState (stack st) (altstack st) (vfExec st) (pc st) (pbegincodehash st) (nOpCount st) (u32 (opcode_pos st + 1)) (execdata st) (checker st).

Fixpoint eval_loop (fuel : nat) (st : EvalState) : exec EvalState :=
  match pc st with
  | [] => ret st
  | _ =>
      match fuel with
      | O => lift (Err EFuel)
      | S fuel => st <~ eval_step st; eval_loop fuel (next_position st)
      end
  end.

Definition start (s : list valtype) (script : list Z) (d : ScriptExecutionData) (c : C) : EvalState :=
  mkState s [] cond_new script script 0 0 (set_codeseparator d 0xffffffff) c.

(** [catch (...)]; an assertion is not caught. *)
Definition catch_all {A} (m : exec A) : exec A :=
  match m with Err (ERuntime _) => fail SCRIPT_ERR_UNKNOWN_ERROR | m => m end.

(** The stack, the execution data and the checker after the script. *)
Definition EvalScript (s : list valtype) (script : list Z) (d : ScriptExecutionData) (c : C) :
    exec (list valtype * ScriptExecutionData * C) :=
  _ <~ lift (assert_ (negb (bool_decide (sigversion = TAPROOT))));
  if is_legacy && (MAX_SCRIPT_SIZE <? zlen script) then fail SCRIPT_ERR_SCRIPT_SIZE else
  st <~ catch_all (eval_loop (length script) (start s script d c));
  if negb (cond_empty (vfExec st)) then fail SCRIPT_ERR_UNBALANCED_CONDITIONAL else
  ret (stack st, execdata st, checker st).

End Checks.

End interpreter.
