(* ===== verification/InterpreterLaws.v ===== *)
(** Laws of the script interpreter: the condition stack.

    The interpreter does not keep the stack of conditions but its size and the
    position of its first false value. Run with the stack itself it gives the
    same results. *)

From Stdlib Require Import ZArith Lia String.
From stdpp Require Import base list numbers tactics.
From S2P Require Import Prelude Sha256 Header Script ScriptLaws Pqm Interpreter.
Import script script_laws pqm interpreter.

Open Scope Z_scope.

Module condition_stacks.

(** The stack itself, its top first. *)
#[export] Instance plain_conditions : CondStack (list bool) := {|
  cond_new := [];
  cond_empty v := bool_decide (v = []);
  all_true v := forallb id v;
  cond_push f v := f :: v;
  cond_pop v := match v with [] => Err EAssert | _ :: v => Ok v end;
  toggle_top v := match v with [] => Err EAssert | b :: v => Ok (negb b :: v) end;
|}.

(** The position of the first false value from the bottom. *)
Fixpoint first_false (l : list bool) : Z :=
  match l with
  | [] => NO_FALSE
  | b :: l => if first_false l =? NO_FALSE then if b then NO_FALSE else zlen l else first_false l
  end.

Definition stands_for (v : ConditionStack) (l : list bool) : Prop :=
  m_stack_size v = zlen l ∧ m_first_false_pos v = first_false l.

Lemma first_false_range l : zlen l < NO_FALSE → first_false l = NO_FALSE ∨ 0 ≤ first_false l < zlen l.
Proof.
  induction l as [|b l IH]; intros Hl; [by left|].
  assert (zlen (b :: l) = zlen l + 1) as E by (unfold zlen; simpl length; lia). rewrite E in *.
  pose proof (zlen_nonneg l). cbn [first_false].
  destruct (Z.eqb_spec (first_false l) NO_FALSE); [destruct b; [by left|right; lia]|].
  destruct IH as [|]; [lia|done|right; lia].
Qed.

Lemma first_false_all l : zlen l < NO_FALSE → (first_false l =? NO_FALSE) = forallb id l.
Proof.
  induction l as [|b l IH]; intros Hl; [done|].
  assert (zlen (b :: l) = zlen l + 1) as E by (unfold zlen; simpl length; lia). rewrite E in *.
  cbn [first_false forallb]. rewrite <- IH by lia. destruct (Z.eqb_spec (first_false l) NO_FALSE) as [En|En].
  - destruct b; [done|]. pose proof (zlen_nonneg l). simpl. apply Z.eqb_neq. lia.
  - rewrite andb_false_r. by apply Z.eqb_neq.
Qed.

Lemma stands_empty v l : stands_for v l → cond_empty v = cond_empty l.
Proof.
  intros [E _]. cbn. rewrite E. destruct l; [done|]. rewrite bool_decide_false by done. apply Z.eqb_neq. unfold zlen. simpl. lia.
Qed.

Section Simulation.
Context (v : ConditionStack) (l : list bool) (Hs : stands_for v l) (Hl : zlen l + 1 < NO_FALSE).

Lemma stands_all_true : all_true v = all_true l.
Proof. cbn. rewrite (proj2 Hs). apply first_false_all. lia. Qed.

Lemma stands_push f : stands_for (cond_push f v) (cond_push f l).
Proof.
  destruct Hs as [E1 E2]. pose proof (zlen_nonneg l). split; cbn.
  - rewrite E1. unfold u32. rewrite (land_mask _ 32) by done.
    rewrite Z.mod_small by (unfold NO_FALSE in Hl; lia). unfold zlen. simpl length. lia.
  - rewrite E1, E2. destruct (first_false l =? NO_FALSE) eqn:E; [|done]. apply Z.eqb_eq in E. by destruct f.
Qed.

Lemma stands_pop : cond_empty l = false → ∃ v' l', cond_pop v = Ok v' ∧ cond_pop l = Ok l' ∧ stands_for v' l'.
Proof.
  destruct Hs as [E1 E2]. destruct l as [|b l']; [done|]. intros _.
  assert (zlen (b :: l') = zlen l' + 1) as E by (unfold zlen; simpl length; lia). rewrite E in *.
  pose proof (zlen_nonneg l'). cbn. rewrite E1, assert_true by lia. do 2 eexists. split; [done|]. split; [done|].
  split; cbn; [lia|]. rewrite E2. cbn [first_false].
  destruct (first_false_range l') as [R|R]; [lia|rewrite R, Z.eqb_refl; destruct b|].
  - by replace (NO_FALSE =? zlen l' + 1 - 1) with false by lia.
  - by replace (zlen l' =? zlen l' + 1 - 1) with true by lia.
  - destruct (Z.eqb_spec (first_false l') NO_FALSE); [lia|]. repeat case_match; lia.
Qed.

Lemma stands_toggle : cond_empty l = false → ∃ v' l', toggle_top v = Ok v' ∧ toggle_top l = Ok l' ∧ stands_for v' l' ∧ length l' = length l.
Proof.
  destruct Hs as [E1 E2]. destruct l as [|b l']; [done|]. intros _.
  assert (zlen (b :: l') = zlen l' + 1) as E by (unfold zlen; simpl length; lia). rewrite E in *.
  pose proof (zlen_nonneg l'). cbn. rewrite E1, assert_true by lia. do 2 eexists. split; [done|]. split; [done|].
  split; [|done]. split; cbn; [unfold zlen in *; simpl length; lia|]. rewrite E2. cbn [first_false].
  destruct (first_false_range l') as [R|R]; [lia|rewrite R, Z.eqb_refl; destruct b; cbn|].
  - lia.
  - replace (zlen l' =? NO_FALSE) with false by lia. by replace (zlen l' =? zlen l' + 1 - 1) with true by lia.
  - destruct (Z.eqb_spec (first_false l') NO_FALSE); [lia|]. repeat case_match; lia.
Qed.
End Simulation.

(** ** Two runs side by side *)
Definition agree {A B} (R : A → B → Prop) (m1 : exec A) (m2 : exec B) : Prop :=
  match m1, m2 with
  | Ok (inr a), Ok (inr b) => R a b
  | Ok (inl e), Ok (inl e') => e = e'
  | Err e, Err e' => e = e'
  | _, _ => False
  end.

Lemma agree_refl {A} (m : exec A) : agree eq m m.
Proof. by destruct m as [[]|]. Qed.

Lemma agree_bind {A B A' B'} (R : A → B → Prop) (S : A' → B' → Prop) m1 m2 f g :
  agree R m1 m2 → (∀ a b, R a b → agree S (f a) (g b)) → agree S (ebind m1 f) (ebind m2 g).
Proof. destruct m1 as [[]|], m2 as [[]|]; simpl; try done; [|by intros ->..]. intros H K. by apply K. Qed.

Lemma agree_bind_same {A A' B'} (S : A' → B' → Prop) (m : exec A) f g :
  (∀ a, agree S (f a) (g a)) → agree S (ebind m f) (ebind m g).
Proof. intros H. apply (agree_bind eq); [apply agree_refl|]. by intros a b ->. Qed.

Lemma agree_weaken {A B} (R S : A → B → Prop) m1 m2 : (∀ a b, R a b → S a b) → agree R m1 m2 → agree S m1 m2.
Proof. intros H. destruct m1 as [[]|], m2 as [[]|]; simpl; auto. Qed.

(** What holds of the state a successful computation returns. *)
Definition yields {A} (P : A → Prop) (m : exec A) : Prop :=
  match m with Ok (inr a) => P a | _ => True end.

Lemma yields_bind {A B} (P : A → Prop) (Q : B → Prop) m f :
  yields P m → (∀ a, P a → yields Q (f a)) → yields Q (ebind m f).
Proof. destruct m as [[]|]; simpl; auto. Qed.

Lemma yields_bind_any {A B} (Q : B → Prop) (m : exec A) f : (∀ a, yields Q (f a)) → yields Q (ebind m f).
Proof. destruct m as [[]|]; simpl; auto. Qed.

Lemma yields_weaken {A} (P Q : A → Prop) m : (∀ a, P a → Q a) → yields P m → yields Q m.
Proof. destruct m as [[]|]; simpl; auto. Qed.

Section Runs.
Context `{ScriptPrimitives} `{PQLibrary} {C : Type} `{!BaseSignatureChecker C}.
Context (flags : Z) (sigversion : SigVersion).

(** The states of the two runs; [n] bounds the depth of the conditions. *)
Inductive same (n : Z) : EvalState (C:=C) (V:=ConditionStack) → EvalState (C:=C) (V:=list bool) → Prop :=
| same_intro s a v l p b ops pos d c :
    stands_for v l → zlen l ≤ n → same n (mkState s a v p b ops pos d c) (mkState s a l p b ops pos d c).

Lemma same_le n m st1 st2 : n ≤ m → same n st1 st2 → same m st1 st2.
Proof. intros Hn []. constructor; [done|lia]. Qed.

Ltac run_both :=
  repeat first
    [ apply agree_bind_same; intros ?
    | progress (cbn [stack altstack vfExec pc pbegincodehash nOpCount opcode_pos execdata checker
        with_stack with_altstack with_cond with_pc with_ops with_execdata with_checker leave])
    | case_match
    | (progress unfold push_verified, leave, invalid_stack, fail_if) ].

Ltac both_return :=
  first
    [ reflexivity
    | (unfold agree, ret, leave, with_stack, with_altstack, with_cond, with_pc, with_ops, with_execdata, with_checker;
       cbn [stack altstack vfExec pc pbegincodehash nOpCount opcode_pos execdata checker];
       apply same_intro; [by auto|first [by auto | lia]]) ].

Lemma op_if_agree n notif fExec st1 st2 :
  same n st1 st2 → n + 1 < NO_FALSE → agree (same (n + 1)) (op_if flags sigversion notif fExec st1) (op_if flags sigversion notif fExec st2).
Proof.
  intros [s a v l p b ops pos d c Hs Hl] Hn. unfold op_if.
  assert (∀ f, stands_for (cond_push f v) (cond_push f l)) as Hp by (intros; apply stands_push; [done|lia]).
  assert (∀ f, zlen (cond_push f l) ≤ n + 1) by (intros; cbn [cond_push plain_conditions]; unfold zlen in *; simpl length; lia).
  destruct fExec; cbn [negb stack]; [|both_return]. destruct s as [|vch s]; [done|].
  do 2 (apply agree_bind_same; intros ?). both_return.
Qed.

Lemma op_else_agree n st1 st2 : same n st1 st2 → n + 1 < NO_FALSE → agree (same (n + 1)) (op_else st1) (op_else st2).
Proof.
  intros [s a v l p b ops pos d c Hs Hl] Hn. unfold op_else. cbn [vfExec].
  rewrite (stands_empty v l) by done. destruct (cond_empty l) eqn:E; [done|].
  destruct (stands_toggle v l Hs ltac:(lia) E) as (v' & l' & -> & -> & Hs' & El). assert (zlen l' ≤ n + 1) by (unfold zlen in *; lia).
  unfold lift, ebind, ret. both_return.
Qed.

Lemma op_endif_agree n st1 st2 : same n st1 st2 → n + 1 < NO_FALSE → agree (same (n + 1)) (op_endif st1) (op_endif st2).
Proof.
  intros [s a v l p b ops pos d c Hs Hl] Hn. unfold op_endif. cbn [vfExec].
  rewrite (stands_empty v l) by done. destruct (cond_empty l) eqn:E; [done|].
  destruct (stands_pop v l Hs ltac:(lia) E) as (v' & l' & -> & El & Hs'). rewrite El.
  destruct l as [|b' l]; [done|]. simpl in El. simplify_eq.
  assert (zlen l' ≤ n + 1) by (unfold zlen in *; simpl length in *; lia). unfold lift, ebind, ret. both_return.
Qed.

Lemma eval_op_agree n opcode fExec st1 st2 :
  same n st1 st2 → n + 1 < NO_FALSE → agree (same (n + 1)) (eval_op flags sigversion opcode fExec st1) (eval_op flags sigversion opcode fExec st2).
Proof.
  intros [s a v l p b ops pos d c Hs Hl] Hn.
  destruct opcode; cbn [eval_op];
    try (unfold op_checklocktime, op_checksequence, op_checktemplate, op_upgradable_nop, op_verify, op_pick, op_stack,
           op_equal, op_unary, op_binary, op_within, op_hash, op_codeseparator, op_checksig, op_checksigadd, op_checksig_pq,
           op_checksigadd_pq, op_checksigfromstack, op_checkmultisig; run_both; both_return).
  - by apply op_if_agree; [constructor|].
  - by apply op_if_agree; [constructor|].
  - by apply (op_else_agree n); [constructor|].
  - by apply (op_endif_agree n); [constructor|].
Qed.

Lemma eval_step_agree n st1 st2 :
  same n st1 st2 → n + 1 < NO_FALSE → agree (same (n + 1)) (eval_step flags sigversion st1) (eval_step flags sigversion st2).
Proof.
  intros Hs Hn. pose proof Hs as [s a v l p b ops pos d c Hv Hl]. unfold eval_step.
  cbn [vfExec pc]. rewrite (stands_all_true v l) by (done || lia).
  destruct (GetScriptOp p) as [[[ok opcode] data] p']. destruct ok; [|done].
  cbn [negb]. case_match; [done|].
  set (t1 := if is_legacy sigversion && negb (op_le opcode OP_16) then with_ops (with_pc (mkState _ _ v _ _ _ _ _ _) _) _ else _).
  set (t2 := if is_legacy sigversion && negb (op_le opcode OP_16) then with_ops (with_pc (mkState _ _ l _ _ _ _ _ _) _) _ else _).
  assert (same n t1 t2) as Hst by (subst t1 t2; case_match; by constructor).
  assert (nOpCount t1 = nOpCount t2) as -> by (by destruct Hst).
  clearbody t1 t2. do 3 (case_match; [done|]).
  apply (agree_bind (same (n + 1))).
  - case_match; [|case_match; [by apply eval_op_agree|apply (same_le n); [lia|done]]].
    apply agree_bind_same. intros []; [|done]. destruct Hst. both_return.
  - intros st1' st2' []. cbn [stack altstack]. case_match; [done|]. unfold p2mr_stack_bytes_ok. cbn [stack altstack].
    case_match; [done|]. both_return.
Qed.

Ltac run_one :=
  repeat first
    [ (apply yields_bind_any; intros ?)
    | progress (cbn [stack altstack vfExec pc pbegincodehash nOpCount opcode_pos execdata checker
        with_stack with_altstack with_cond with_pc with_ops with_execdata with_checker leave])
    | case_match
    | (progress unfold push_verified, leave, invalid_stack, fail_if, fail, ret, lift) ].

(** No opcode moves the iterator; a turn of the loop moves it. *)
Lemma eval_op_pc {V} `{!CondStack V} opcode fExec (st : EvalState (C:=C) (V:=V)) :
  yields (λ st', pc st' = pc st) (eval_op flags sigversion opcode fExec st).
Proof.
  destruct opcode; cbn [eval_op]; unfold op_checklocktime, op_checksequence, op_checktemplate, op_upgradable_nop, op_verify, op_pick,
    op_stack, op_equal, op_unary, op_binary, op_within, op_hash, op_codeseparator, op_checksig, op_checksigadd, op_checksig_pq,
    op_checksigadd_pq, op_checksigfromstack, op_checkmultisig, op_if, op_else, op_endif; run_one; done.
Qed.

Lemma eval_step_pc {V} `{!CondStack V} (st : EvalState (C:=C) (V:=V)) :
  yields (λ st', (length (pc st') < length (pc st))%nat) (eval_step flags sigversion st).
Proof.
  unfold eval_step. destruct (GetScriptOp (pc st)) as [[[ok opcode] data] p'] eqn:E.
  destruct ok; [|done]. apply GetScriptOp_moves in E as [Hp Hne]. specialize (Hne eq_refl). cbn [negb].
  assert (length p' < length (pc st))%nat as Hlt by (destruct (pc st); [done|simpl in *; lia]). clear Hp Hne.
  case_match; [done|].
  set (t1 := if is_legacy sigversion && negb (op_le opcode OP_16) then with_ops (with_pc _ _) _ else _).
  assert (pc t1 = p') as Ht by (subst t1; by case_match). clearbody t1. do 3 (case_match; [done|]).
  apply (yields_bind (λ st', pc st' = p')).
  - case_match; [|case_match].
    + apply yields_bind_any. intros []; [|done]. by cbn.
    + rewrite <- Ht. apply eval_op_pc.
    + done.
  - intros st' Hst. do 2 (case_match; [done|]). simpl. by rewrite Hst.
Qed.

(** The loop ends within the length of the script. *)
Lemma eval_loop_agree fuel n st1 st2 :
  same n st1 st2 → (length (pc st2) ≤ fuel)%nat → n + Z.of_nat (length (pc st2)) < NO_FALSE →
  agree (λ a b, same (n + Z.of_nat (length (pc st2))) a b) (eval_loop flags sigversion fuel st1) (eval_loop flags sigversion fuel st2).
Proof.
  revert n st1 st2. induction fuel as [|fuel IH]; intros n st1 st2 Hs Hf Hn.
  - assert (pc st1 = [] ∧ pc st2 = []) as [E1 E2] by (destruct Hs; simpl in *; destruct p; simpl in *; [done|lia]).
    cbn [eval_loop]. rewrite E1, E2. apply (same_le n); [simpl; lia|done].
  - assert (pc st1 = pc st2) as E1 by (by destruct Hs).
    cbn [eval_loop]. rewrite E1. destruct (pc st2) as [|x p] eqn:E2; [apply (same_le n); [simpl; lia|done]|].
    pose proof (eval_step_agree n st1 st2 Hs ltac:(simpl in *; lia)) as Ha. pose proof (eval_step_pc st2) as Hp.
    rewrite E2 in Hp. destruct (eval_step flags sigversion st1) as [[]|], (eval_step flags sigversion st2) as [[]|]; try done.
    simpl in Ha, Hp. cbn [ebind].
    eapply (agree_weaken _ _ _ _ (λ a b, same_le _ _ a b _)); apply (IH (n + 1)); try (simpl in *; lia).
    destruct Ha. by constructor.
  Unshelve. simpl in *; lia.
Qed.

(** The condition stack of the interpreter does not show. *)
Lemma EvalScript_plain s script d c :
  zlen script < NO_FALSE →
  EvalScript (V:=ConditionStack) flags sigversion s script d c = EvalScript (V:=list bool) flags sigversion s script d c.
Proof.
  intros Hl. unfold EvalScript. destruct (assert_ _); [|done]. cbn [lift ebind ret]. case_match; [done|].
  pose proof (eval_loop_agree (length script) 0 (start s script d c) (start s script d c)) as Ha.
  cbn [pc start] in Ha. specialize (Ha ltac:(by constructor) ltac:(lia) ltac:(unfold zlen in Hl; lia)).
  destruct (eval_loop _ _ _ _) as [[]|] eqn:E1, (eval_loop flags sigversion (length script) (start (V:=list bool) s script d c)) as [[]|] eqn:E2;
    cbn [agree] in Ha; try done; [by subst| |subst; by destruct e0].
  destruct Ha as [s' al v l p b ops pos d' c' Hv Hlen]. cbn [catch_all ebind vfExec stack execdata checker].
  by rewrite (stands_empty v l).
Qed.

End Runs.

End condition_stacks.
