(* ===== verification/InterpreterSafety.v ===== *)
(** Laws of the script interpreter: it is safe.

    On every script the interpreter returns: no assertion fails, no access is
    out of range and no sum overflows. The only exceptions it catches are those
    of numbers that are too long or not minimal. The stack it leaves keeps the
    limits on the size of its elements and on their number. *)

From Stdlib Require Import ZArith Lia String.
From stdpp Require Import base list numbers tactics.
From S2P Require Import Prelude Sha256 Header Script ScriptLaws Pqm Interpreter InterpreterLaws.
Import script script_laws pqm interpreter condition_stacks.

Open Scope Z_scope.

Module interpreter_safety.

(** A computation that returns, fails or throws an exception of a number. *)
Definition safe {A} (P : A → Prop) (m : exec A) : Prop :=
  match m with
  | Ok (inr a) => P a
  | Ok (inl _) => True
  | Err e => e = ERuntime num_overflow ∨ e = ERuntime num_not_minimal
  end.

Lemma safe_bind {A B} (P : A → Prop) (Q : B → Prop) m f :
  safe P m → (∀ a, P a → safe Q (f a)) → safe Q (ebind m f).
Proof. destruct m as [[]|]; simpl; auto. Qed.

Lemma safe_weaken {A} (P Q : A → Prop) m : (∀ a, P a → Q a) → safe P m → safe Q m.
Proof. destruct m as [[]|]; simpl; auto. Qed.

Lemma safe_fail_if b e : safe (λ _, b = false) (fail_if b e).
Proof. by destruct b. Qed.

Lemma safe_lift {A} (P : A → Prop) (m : result A) a : m = Ok a → P a → safe P (lift m).
Proof. by intros ->. Qed.

(** ** What the interpreter asks of its surroundings *)

(** The hashes return twenty bytes. *)
Class PrimitiveLaws `{ScriptPrimitives} := {
  ripemd160_bytes v : Forall is_byte (CRIPEMD160 v) ∧ length (CRIPEMD160 v) = 20%nat;
  sha1_bytes v : Forall is_byte (CSHA1 v) ∧ length (CSHA1 v) = 20%nat;
}.

(** What has been set before a checker may hash. *)
Definition ready (sigversion : SigVersion) (d : ScriptExecutionData) : Prop :=
  m_annex_init d = true ∧ (sigversion ≠ TAPROOT → m_tapleaf_hash_init d = true ∧ m_codeseparator_pos_init d = true).

(** A checker returns, and changes nothing but its own state and the cached
    hash of the output. *)
Class CheckerLaws (C : Type) `{!BaseSignatureChecker C} := {
  ecdsa_returns sig pubkey script v c :
    v = BASE ∨ v = WITNESS_V0 → ∃ b c', CheckECDSASignature sig pubkey script v c = Ok (b, c');
  schnorr_returns sig pubkey v d :
    v = TAPROOT ∨ v = TAPSCRIPT → zlen pubkey = 32 → ready v d →
    (∃ e, CheckSchnorrSignature sig pubkey v d = Ok (inl e)) ∨
    (∃ h, CheckSchnorrSignature sig pubkey v d = Ok (inr (set_output_hash d h)));
  pq_returns sig pubkey algo ht d fips :
    ready P2MR d → ∃ b h, CheckPQSignature sig pubkey algo ht P2MR d fips = Ok (b, set_output_hash d h);
  ctv_returns h : zlen h = 32 → ∃ b, CheckCTVHash h = Ok b;
  locktime_returns n : ∃ b, CheckLockTime n = Ok b;
  sequence_returns n : ∃ b, CheckSequence n = Ok b;
}.

(** ** Elements *)
Section Safety.
Context `{ScriptPrimitives, !PrimitiveLaws} `{PQLibrary} {C : Type} `{!BaseSignatureChecker C, !CheckerLaws C}.
Context (flags : Z) (sigversion : SigVersion).

Definition elem_ok (v : list Z) : Prop := Forall is_byte v ∧ zlen v ≤ max_push_size sigversion.

Lemma elem_small v : Forall is_byte v → (length v ≤ 520)%nat → elem_ok v.
Proof. split; [done|]. unfold max_push_size, zlen. case_match; unfold MAX_P2MR_ELEMENT_SIZE, MAX_SCRIPT_ELEMENT_SIZE; lia. Qed.

Lemma serialize_small v : Forall is_byte (serialize v) ∧ (length (serialize v) ≤ 9)%nat.
Proof.
  unfold serialize. case_match; [simpl; split; [constructor|lia]|].
  set (a := if v <? 0 then _ else _). pose proof (magnitude_is_byte 8 a) as Hb. pose proof (magnitude_length 8 a) as Hl.
  destruct (magnitude_bytes 8 a) as [|t l _] using rev_ind; [cbn; destruct (v <? 0); (split; [constructor|simpl; lia])|].
  rewrite length_app in Hl. simpl in Hl. case_match.
  - split; [apply bytes_snoc; [done|case_match; done]|rewrite ?length_app; simpl; lia].
  - case_match; [|split; [done|rewrite ?length_app; simpl; lia]]. unfold or_back. rewrite reverse_snoc, reverse_cons, reverse_involutive.
    apply Forall_app in Hb as [Hb Ht]. rewrite Forall_singleton in Ht.
    split; [|rewrite ?length_app; simpl; lia]. apply bytes_snoc; [done|]. rewrite byte_set_high by done. unfold is_byte. divmod_lia.
Qed.

Lemma serialize_ok v : elem_ok (serialize v).
Proof. destruct (serialize_small v). apply elem_small; [done|lia]. Qed.

Lemma bool_vch_ok b : elem_ok (bool_vch b).
Proof. apply elem_small; destruct b; cbn; try lia; repeat constructor; lia. Qed.

Lemma hash_op_ok op v : elem_ok (hash_op op v).
Proof.
  assert (∀ w, Forall is_byte w → (length w = 20 ∨ length w = 32)%nat → elem_ok w) as K by (intros; apply elem_small; [done|lia]).
  assert (∀ st, Forall is_byte (fst (sha_Finalize st)) ∧ length (fst (sha_Finalize st)) = 32%nat) as K2.
  { intros st. unfold sha_Finalize. cbn [fst]. split; [apply hash_bytes_is_byte|apply length_hash_bytes]. }
  assert (elem_ok (CHash256_Finalize (CHash256_Write CHash256_new v))) by (apply K; [apply K2|right; apply K2]).
  destruct op; cbn [hash_op]; try done; apply K;
    first [ apply ripemd160_bytes | apply sha1_bytes | apply K2 | (left; apply ripemd160_bytes) | (left; apply sha1_bytes) | (right; apply K2) ].
Qed.

(** ** States *)
Definition exec_ready (d : ScriptExecutionData) : Prop :=
  sigversion = TAPSCRIPT ∨ sigversion = P2MR → ready sigversion d ∧ m_validation_weight_left_init d = true.

Abbreviation State := (EvalState (C:=C) (V:=list bool)).

Record state_ok (st : State) : Prop := {
  ok_stack : Forall elem_ok (stack st);
  ok_alt : Forall elem_ok (altstack st);
  ok_pc : Forall is_byte (pc st);
  ok_ready : exec_ready (execdata st);
}.

Lemma leave_ok st s : state_ok st → Forall elem_ok s → safe state_ok (leave st s).
Proof. intros [] Hs. by split. Qed.

Lemma fail_ok {A} (P : A → Prop) e : safe P (fail e).
Proof. done. Qed.

Lemma ret_ok {A} (P : A → Prop) a : P a → safe P (ret a).
Proof. done. Qed.

Lemma num_safe v : elem_ok v → safe (λ n, Z.abs n < 2 ^ 31) (num flags v).
Proof.
  intros [Hb _]. unfold num, nDefaultMaxNumSize. destruct (CScriptNum v _ 4) eqn:E; simpl; [|by apply CScriptNum_Err in E].
  apply CScriptNum_bound in E; [done|done|lia].
Qed.

Lemma num5_safe v m n : safe (λ _, True) (lift (CScriptNum v m n)).
Proof. destruct (CScriptNum v m n) eqn:E; simpl; [done|by apply CScriptNum_Err in E]. Qed.

Lemma stacktop_safe s i : Forall elem_ok s → 1 ≤ i ≤ zlen s → safe elem_ok (lift (stacktop s i)).
Proof.
  intros Hs Hi. unfold stacktop. destruct (s !! Z.to_nat (i - 1)) eqn:E; simpl.
  - by eapply Forall_lookup_1 in E.
  - apply lookup_ge_None in E. unfold zlen in Hi. lia.
Qed.

(** ** Opcodes *)
#[local] Hint Resolve leave_ok fail_ok ret_ok num_safe num5_safe stacktop_safe serialize_ok bool_vch_ok hash_op_ok : safety.

(** Go through the binds and branches of an opcode. *)
Ltac destruct_stack :=
  match goal with
  | H : Forall elem_ok (_ :: _) |- _ => apply list.Forall_cons in H as [? H]
  end.

Lemma push_verified_ok st verify ok e v s :
  state_ok st → elem_ok v → Forall elem_ok s → safe state_ok (push_verified st verify ok e v s).
Proof. intros. unfold push_verified. destruct verify, ok; auto with safety; apply leave_ok; try done; by constructor. Qed.

Lemma checklocktime_ok st : state_ok st → safe state_ok (op_checklocktime flags st).
Proof.
  intros Hs. unfold op_checklocktime. case_match; [done|]. case_match; [done|].
  eapply safe_bind; [apply num5_safe|]. intros n _. case_match; [done|]. destruct (locktime_returns n) as [b ->]. by destruct b.
Qed.

Lemma checksequence_ok st : state_ok st → safe state_ok (op_checksequence flags st).
Proof.
  intros Hs. unfold op_checksequence. case_match; [done|]. case_match; [done|].
  eapply safe_bind; [apply num5_safe|]. intros n _. case_match; [done|]. case_match; [done|].
  destruct (sequence_returns n) as [b ->]. by destruct b.
Qed.

Lemma checktemplate_ok st : state_ok st → safe state_ok (op_checktemplate flags sigversion st).
Proof.
  intros Hs. unfold op_checktemplate, op_upgradable_nop. case_match; [by case_match|]. case_match; [by case_match|].
  case_match; [done|]. destruct (Z.eqb_spec (zlen l) 32); [|done]. destruct (ctv_returns l) as [b ->]; [done|]. by destruct b.
Qed.

Lemma op_if_ok notif fExec st : state_ok st → safe state_ok (op_if flags sigversion notif fExec st).
Proof.
  intros []. unfold op_if. case_match; [by split|]. destruct (stack st) as [|v s]; [done|]. destruct_stack.
  eapply safe_bind; [apply safe_fail_if|]. intros _ _. eapply safe_bind; [apply safe_fail_if|]. intros _ _. by split.
Qed.

Lemma op_else_ok st : state_ok st → safe state_ok (op_else st).
Proof. intros []. unfold op_else. cbn. destruct (vfExec st) as [|b v]; [done|]. by split. Qed.

Lemma op_endif_ok st : state_ok st → safe state_ok (op_endif st).
Proof. intros []. unfold op_endif. cbn. destruct (vfExec st) as [|b v]; [done|]. by split. Qed.

Lemma op_verify_ok st : state_ok st → safe state_ok (op_verify st).
Proof.
  intros Hs. pose proof (ok_stack _ Hs) as Ho. unfold op_verify. destruct (stack st); [done|]. destruct_stack.
  case_match; auto with safety.
Qed.

Lemma op_pick_ok roll st : state_ok st → safe state_ok (op_pick flags roll st).
Proof.
  intros Hs. pose proof (ok_stack _ Hs) as Ho. unfold op_pick. destruct (stack st) as [|x [|y s]]; [done..|]. destruct_stack.
  eapply safe_bind; [by apply num_safe|]. intros n Hn. case_match eqn:E; [done|].
  apply orb_false_iff in E as [E1%Z.ltb_ge E2%Z.leb_gt].
  eapply safe_bind; [apply stacktop_safe; [done|lia]|]. intros v Hv. apply leave_ok; [done|]. constructor; [done|].
  destruct roll; [by apply Forall_delete|done].
Qed.

Lemma op_stack_ok op st : state_ok st → safe state_ok (op_stack op st).
Proof.
  intros Hs. pose proof (ok_stack _ Hs) as Ho. pose proof (ok_alt _ Hs) as Ha. destruct Hs.
  destruct op; cbn [op_stack]; try done; repeat case_match; try done; repeat destruct_stack;
    try (apply leave_ok; [by split|]); try (apply ret_ok; split; cbn; try done); repeat (constructor; try done); apply serialize_ok.
Qed.

Lemma op_equal_ok verify st : state_ok st → safe state_ok (op_equal verify st).
Proof.
  intros Hs. pose proof (ok_stack _ Hs) as Ho. unfold op_equal. destruct (stack st) as [|x [|y s]]; [done..|].
  repeat destruct_stack. apply push_verified_ok; auto with safety.
Qed.


Lemma int64_small n : Z.abs n < 2 ^ 32 → int64_range n = true.
Proof. intros. apply int64_range_true. unfold int64. lia. Qed.

Definition is_unary (op : opcodetype) : bool :=
  match op with OP_1ADD | OP_1SUB | OP_NEGATE | OP_ABS | OP_NOT | OP_0NOTEQUAL => true | _ => false end.

Lemma unary_returns op n : is_unary op = true → Z.abs n < 2 ^ 31 → ∃ m, unary op n = Ok m.
Proof.
  intros Ho Hn. assert (negb (n =? - 2 ^ 63) = true) as Hm by (apply negb_true_iff, Z.eqb_neq; lia).
  destruct op; try done; cbn [unary]; unfold num_incr, num_decr, num_neg; rewrite ?int64_small, ?Hm by lia;
    try case_match; by eexists.
Qed.

Lemma op_unary_ok op st : is_unary op = true → state_ok st → safe state_ok (op_unary flags op st).
Proof.
  intros Hop Hs. pose proof (ok_stack _ Hs) as Ho. unfold op_unary. destruct (stack st) as [|x s]; [done|]. destruct_stack.
  eapply safe_bind; [by apply num_safe|]. intros n Hn. destruct (unary_returns op n Hop Hn) as [m ->].
  apply leave_ok; [done|]. constructor; [apply serialize_ok|done].
Qed.

Definition is_binary (op : opcodetype) : bool :=
  match op with
  | OP_ADD | OP_SUB | OP_BOOLAND | OP_BOOLOR | OP_NUMEQUAL | OP_NUMEQUALVERIFY | OP_NUMNOTEQUAL | OP_LESSTHAN
  | OP_GREATERTHAN | OP_LESSTHANOREQUAL | OP_GREATERTHANOREQUAL | OP_MIN | OP_MAX => true
  | _ => false
  end.

Lemma binary_returns op n m : is_binary op = true → Z.abs n < 2 ^ 31 → Z.abs m < 2 ^ 31 → ∃ r, binary op n m = Ok r.
Proof.
  intros Ho Hn Hm. destruct op; try done; cbn [binary]; unfold num_add, num_sub; rewrite ?int64_small by lia; by eexists.
Qed.

Lemma op_binary_ok op st : is_binary op = true → state_ok st → safe state_ok (op_binary flags op st).
Proof.
  intros Hop Hs. pose proof (ok_stack _ Hs) as Ho. unfold op_binary. destruct (stack st) as [|x [|y s]]; [done..|].
  repeat destruct_stack. eapply safe_bind; [by apply num_safe|]. intros n Hn. eapply safe_bind; [by apply num_safe|]. intros m Hm.
  destruct (binary_returns op n m Hop Hn Hm) as [r ->]. apply push_verified_ok; auto with safety.
Qed.

Lemma op_within_ok st : state_ok st → safe state_ok (op_within flags st).
Proof.
  intros Hs. pose proof (ok_stack _ Hs) as Ho. unfold op_within. destruct (stack st) as [|x [|y [|z s]]]; [done..|].
  repeat destruct_stack. do 3 (eapply safe_bind; [by apply num_safe|]; intros ? _).
  apply leave_ok; [done|]. constructor; [apply bool_vch_ok|done].
Qed.

Lemma op_hash_ok op st : state_ok st → safe state_ok (op_hash op st).
Proof.
  intros Hs. pose proof (ok_stack _ Hs) as Ho. unfold op_hash. destruct (stack st) as [|x s]; [done|]. destruct_stack.
  apply leave_ok; [done|]. constructor; [apply hash_op_ok|done].
Qed.

Lemma op_codeseparator_ok st : state_ok st → safe state_ok (op_codeseparator st).
Proof.
  intros []. split; try done. cbn. intros Hv. destruct (ok_ready0 Hv) as [[Ha Hb] Hw]. split; [|done]. split; [done|].
  intros Hne. by destruct (Hb Hne).
Qed.

(** ** Signatures *)
Lemma encoding_safe vchSig : safe (λ _, True) (CheckSignatureEncoding vchSig flags).
Proof.
  unfold CheckSignatureEncoding. case_match; [done|]. case_match; [done|].
  apply (safe_bind (λ _, True)); [unfold IsLowDERSignature; by repeat case_match|]. intros _ _. by case_match.
Qed.

Lemma pubkey_encoding_safe k : safe (λ _, True) (CheckPubKeyEncoding k flags sigversion).
Proof. unfold CheckPubKeyEncoding. by repeat case_match. Qed.

Lemma charge_safe d cost : m_validation_weight_left_init d = true → safe (λ d', ∃ w, d' = set_weight d w) (charge d cost).
Proof. intros Hi. unfold charge. rewrite Hi. cbn. case_match; [done|]. by eexists. Qed.

Lemma exec_ready_weight d w : exec_ready d → exec_ready (set_weight d w).
Proof. done. Qed.

Lemma exec_ready_output d h : exec_ready d → exec_ready (set_output_hash d h).
Proof. done. Qed.

Lemma pre_tapscript_safe vchSig pk code c :
  sigversion = BASE ∨ sigversion = WITNESS_V0 →
  safe (λ _, True) (EvalChecksigPreTapscript vchSig pk code flags sigversion c).
Proof.
  intros Hv. unfold EvalChecksigPreTapscript. rewrite assert_true by (apply orb_true_iff; rewrite !bool_decide_eq_true; done).
  cbn [lift ebind ret]. apply (safe_bind (λ _, True)).
  { case_match; [|done]. destruct (FindAndDelete _ _). by case_match. }
  intros script _. eapply safe_bind; [apply encoding_safe|]. intros _ _. eapply safe_bind; [apply pubkey_encoding_safe|]. intros _ _.
  destruct (ecdsa_returns vchSig pk script sigversion c Hv) as (b & c' & ->). cbn [lift ebind ret]. by case_match.
Qed.

Lemma tapscript_safe sig pk d :
  sigversion = TAPSCRIPT → exec_ready d → safe (λ r, exec_ready r.2) (EvalChecksigTapscript sig pk d flags sigversion).
Proof.
  intros Hv Hr. unfold EvalChecksigTapscript. rewrite assert_true by (by rewrite bool_decide_eq_true). cbn [lift ebind ret].
  apply (safe_bind exec_ready).
  { case_match; [|done]. eapply safe_weaken; [|apply charge_safe; by apply Hr; left]. by intros ? [w ->]. }
  intros d' Hd. case_match; [done|]. destruct (Z.eqb_spec (zlen pk) 32) as [Ek|]; [|by case_match].
  case_match; [|done].
  destruct (schnorr_returns sig pk sigversion d') as [[e ->]|[h ->]]; [by right|done|by apply Hd; left|done|done].
Qed.

Lemma EvalChecksig_safe sig pk code d c :
  sigversion ≠ TAPROOT → exec_ready d → safe (λ r, exec_ready r.1.2) (EvalChecksig sig pk code d flags sigversion c).
Proof.
  intros Hv Hr. unfold EvalChecksig. case_match; [done|].
  pose proof (pre_tapscript_safe sig pk code c) as Hp. pose proof (tapscript_safe sig pk d) as Ht.
  destruct sigversion; try done.
  - eapply safe_bind; [apply Hp; by left|]. by intros [b c'] _.
  - eapply safe_bind; [apply Hp; by right|]. by intros [b c'] _.
  - eapply safe_bind; [by apply Ht|]. by intros [b d'] Hd.
Qed.

Lemma state_after st d c : state_ok st → exec_ready d → state_ok (with_checker (with_execdata st d) c).
Proof. intros [] Hd. by split. Qed.

Lemma op_checksig_ok verify st : sigversion ≠ TAPROOT → state_ok st → safe state_ok (op_checksig flags sigversion verify st).
Proof.
  intros Hv Hs. pose proof (ok_stack _ Hs) as Ho. unfold op_checksig. destruct (stack st) as [|x [|y s]]; [done..|].
  repeat destruct_stack. eapply safe_bind; [apply EvalChecksig_safe; [done|apply Hs]|]. intros [[b d] c] Hd.
  apply push_verified_ok; [by apply state_after|apply bool_vch_ok|done].
Qed.

Lemma add_bool_returns n b : Z.abs n < 2 ^ 31 → ∃ m, num_add n (Z.b2z b) = Ok m.
Proof. intros. unfold num_add. rewrite int64_small by (destruct b; cbn; lia). by eexists. Qed.

Lemma op_checksigadd_ok st : sigversion ≠ TAPROOT → state_ok st → safe state_ok (op_checksigadd flags sigversion st).
Proof.
  intros Hv Hs. pose proof (ok_stack _ Hs) as Ho. unfold op_checksigadd. case_match; [done|].
  destruct (stack st) as [|x [|y [|z s]]]; [done..|]. repeat destruct_stack.
  eapply safe_bind; [by apply num_safe|]. intros n Hn.
  eapply safe_bind; [apply EvalChecksig_safe; [done|apply Hs]|]. intros [[b d] c] Hd.
  destruct (add_bool_returns n b Hn) as [m ->]. apply leave_ok; [by apply state_after|]. constructor; [apply serialize_ok|done].
Qed.

Lemma pq_check_safe algo cost sig pk d :
  sigversion = P2MR → exec_ready d → safe (λ r, exec_ready r.2) (pq_check algo cost sig pk flags sigversion d).
Proof.
  intros Hv Hr. unfold pq_check. case_match; [done|]. case_match; [done|].
  apply (safe_bind (λ _, True)); [unfold split_hash_type; by repeat case_match|]. intros [sig' ht] _.
  apply (safe_bind (λ r, exec_ready r.2)).
  - case_match; [done|]. eapply safe_bind; [apply charge_safe; by apply Hr; right|]. intros d' [w ->].
    rewrite Hv. destruct (pq_returns sig' pk algo ht (set_weight d w) (flag flags SCRIPT_VERIFY_SLHDSA_FIPS205)) as (b & h & ->); [|done].
    rewrite <- Hv. apply Hr. by right.
  - intros [b d'] Hd. by case_match.
Qed.

Lemma state_after_pq st d : state_ok st → exec_ready d → state_ok (with_execdata st d).
Proof. intros [] Hd. by split. Qed.

Lemma op_checksig_pq_ok op st : state_ok st → safe state_ok (op_checksig_pq flags sigversion op st).
Proof.
  intros Hs. pose proof (ok_stack _ Hs) as Ho. unfold op_checksig_pq. case_bool_decide as Hv; [|done]. cbn [negb].
  destruct (stack st) as [|x [|y s]]; [done..|]. repeat destruct_stack.
  destruct (DecodeP2MRChecksigOpcode op) as [[algo []]|]; [done| |done].
  eapply safe_bind; [apply pq_check_safe; [done|apply Hs]|]. intros [b d] Hd.
  apply leave_ok; [by apply state_after_pq|]. constructor; [apply bool_vch_ok|done].
Qed.

Lemma op_checksigadd_pq_ok op st : state_ok st → safe state_ok (op_checksigadd_pq flags sigversion op st).
Proof.
  intros Hs. pose proof (ok_stack _ Hs) as Ho. unfold op_checksigadd_pq. case_bool_decide as Hv; [|done]. cbn [negb].
  destruct (stack st) as [|x [|y [|z s]]]; [done..|]. repeat destruct_stack.
  apply (safe_bind (λ n, Z.abs n < 2 ^ 31)).
  { unfold nDefaultMaxNumSize. destruct (CScriptNum y true 4) eqn:E; simpl; [|by apply CScriptNum_Err in E].
    apply CScriptNum_bound in E; [done|by match goal with K : elem_ok y |- _ => destruct K end|lia]. }
  intros n Hn. destruct (DecodeP2MRChecksigOpcode op) as [[algo []]|]; [|done..].
  eapply safe_bind; [apply pq_check_safe; [done|apply Hs]|]. intros [b d] Hd.
  destruct (add_bool_returns n b Hn) as [m ->]. apply leave_ok; [by apply state_after_pq|]. constructor; [apply serialize_ok|done].
Qed.

Lemma op_checksigfromstack_ok st : state_ok st → safe state_ok (op_checksigfromstack flags sigversion st).
Proof.
  intros Hs. pose proof (ok_stack _ Hs) as Ho. pose proof (ok_ready _ Hs) as Hr.
  unfold op_checksigfromstack. case_bool_decide as Hv; [|done]. cbn [negb].
  destruct (stack st) as [|x [|y [|z s]]]; [done..|]. repeat destruct_stack.
  case_match; [|done]. case_match; [done|]. case_match; [done|]. apply (safe_bind (λ r, exec_ready r.2)).
  - case_match; [done|]. eapply safe_bind; [apply charge_safe; by apply Hr; right|]. by intros d' [w ->].
  - intros [b d] Hd. case_match; [done|]. apply leave_ok; [by apply state_after_pq|]. constructor; [apply bool_vch_ok|done].
Qed.

(** ** Multisignatures *)
Lemma multisig_script_safe n isig s code :
  Forall elem_ok s → 1 ≤ isig → isig + Z.of_nat n - 1 ≤ zlen s → safe (λ _, True) (multisig_script flags sigversion n isig s code).
Proof.
  intros Hs. revert isig code. induction n as [|n IH]; intros isig code Hi Hl; [done|]. cbn [multisig_script].
  eapply safe_bind; [apply stacktop_safe; [done|lia]|]. intros v _. apply (safe_bind (λ _, True)).
  - case_match; [|done]. destruct (FindAndDelete _ _). by case_match.
  - intros code' _. apply IH; lia.
Qed.

Lemma multisig_match_safe fuel s code isig ikey nSigs nKeys c :
  sigversion = BASE ∨ sigversion = WITNESS_V0 → Forall elem_ok s → 1 ≤ isig → 1 ≤ ikey →
  isig + nSigs - 1 ≤ zlen s → ikey + nKeys - 1 ≤ zlen s → nSigs ≤ nKeys → nKeys = Z.of_nat fuel →
  safe (λ _, True) (multisig_match flags sigversion fuel s code isig ikey nSigs nKeys c).
Proof.
  intros Hv Hs. revert isig ikey nSigs nKeys c. induction fuel as [|fuel IH]; intros isig ikey nSigs nKeys c Hi Hk Hl1 Hl2 Hle Hf;
    cbn [multisig_match]; (destruct (Z.leb_spec nSigs 0); [done|]); [lia|].
  eapply safe_bind; [apply stacktop_safe; [done|lia]|]. intros sig _.
  eapply safe_bind; [apply stacktop_safe; [done|lia]|]. intros key _.
  eapply safe_bind; [apply encoding_safe|]. intros _ _. eapply safe_bind; [apply pubkey_encoding_safe|]. intros _ _.
  destruct (ecdsa_returns sig key code sigversion c Hv) as (b & c' & ->). cbn [lift ebind ret].
  destruct b; case_match eqn:E; try done; apply Z.ltb_ge in E; apply IH; lia.
Qed.

Lemma multisig_cleanup_safe n ok ikey2 s :
  Forall elem_ok s → (n ≤ length s)%nat → safe (Forall elem_ok) (multisig_cleanup flags n ok ikey2 s).
Proof.
  revert ikey2 s. induction n as [|n IH]; intros ikey2 s Hs Hn; [done|]. cbn [multisig_cleanup].
  destruct s as [|x s]; [simpl in Hn; lia|]. destruct_stack. apply (safe_bind (λ _, True)).
  - case_match; [|done]. eapply safe_bind; [apply stacktop_safe; [by constructor|unfold zlen; simpl; lia]|]. intros v _.
    by eapply safe_weaken; [|apply safe_fail_if].
  - intros _ _. cbn. apply IH; [done|simpl in Hn; lia].
Qed.

Lemma getint_range n : Z.abs n < 2 ^ 31 → getint n = n.
Proof. intros. unfold getint, INT_MAX, INT_MIN. repeat case_match; lia. Qed.

Lemma op_checkmultisig_ok verify st : sigversion ≠ TAPROOT → state_ok st → safe state_ok (op_checkmultisig flags sigversion verify st).
Proof.
  intros Hv Hs. pose proof (ok_stack _ Hs) as Ho. unfold op_checkmultisig.
  assert (sigversion = BASE ∨ sigversion = WITNESS_V0 → safe state_ok (op_checkmultisig flags sigversion verify st)) as K;
    [|unfold op_checkmultisig in K; destruct sigversion; try done; apply K; auto].
  intros Hl. unfold op_checkmultisig. set (body := if zlen (stack st) <? 1 then _ else _).
  replace (match sigversion with TAPSCRIPT => _ | P2MR => _ | _ => _ end) with body by (destruct Hl as [-> | ->]; done).
  subst body. destruct (Z.ltb_spec (zlen (stack st)) 1); [done|].
  eapply safe_bind; [apply stacktop_safe; [done|lia]|]. intros k Hk. eapply safe_bind; [by apply num_safe|]. intros nk Hnk.
  rewrite getint_range by done. case_match eqn:E1; [done|]. apply orb_false_iff in E1 as [E1%Z.ltb_ge E1'%Z.ltb_ge].
  case_match; [done|]. destruct (Z.ltb_spec (zlen (stack st)) (2 + nk)); [done|].
  eapply safe_bind; [apply stacktop_safe; [done|lia]|]. intros q Hq. eapply safe_bind; [by apply num_safe|]. intros ns Hns.
  rewrite getint_range by done. case_match eqn:E2; [done|]. apply orb_false_iff in E2 as [E2%Z.ltb_ge E2'%Z.ltb_ge].
  destruct (Z.ltb_spec (zlen (stack st)) (2 + nk + 1 + ns)); [done|].
  eapply safe_bind; [apply multisig_script_safe; [done|lia|lia]|]. intros code _.
  eapply safe_bind; [apply multisig_match_safe; (done || lia)|]. intros [b c] _.
  eapply safe_bind; [apply multisig_cleanup_safe; [done|unfold zlen in *; lia]|]. intros s' Hs'.
  destruct s' as [|dummy s']; [done|]. destruct_stack. case_match; [done|].
  apply push_verified_ok; [by destruct Hs; split|apply bool_vch_ok|done].
Qed.

(** ** The loop *)
Lemma eval_op_ok op fExec st : sigversion ≠ TAPROOT → state_ok st → safe state_ok (eval_op flags sigversion op fExec st).
Proof.
  intros Hv Hs. pose proof (ok_stack _ Hs) as Ho.
  destruct op; cbn [eval_op]; try done;
    first [ apply leave_ok; [done|constructor; [apply serialize_ok|done]]
          | by apply op_stack_ok | by apply op_unary_ok | by apply op_binary_ok | by apply op_hash_ok | by apply op_if_ok
          | by apply op_else_ok | by apply op_endif_ok | by apply op_verify_ok | by apply op_pick_ok | by apply op_equal_ok
          | by apply op_within_ok | by apply op_codeseparator_ok | by apply op_checksig_ok | by apply op_checksigadd_ok
          | by apply op_checksig_pq_ok | by apply op_checksigadd_pq_ok | by apply op_checksigfromstack_ok
          | by apply op_checkmultisig_ok | by apply checklocktime_ok | by apply checksequence_ok | by apply checktemplate_ok
          | (unfold op_upgradable_nop; by case_match) ].
Qed.

Lemma stack_bytes_nonneg s : 0 ≤ stack_bytes s.
Proof. induction s as [|x s IH]; simpl; [done|]. pose proof (zlen_nonneg x). lia. Qed.

(** The limits on the stacks. *)
Definition limited (s alt : list (list Z)) : Prop :=
  zlen s + zlen alt ≤ MAX_STACK_SIZE ∧ (sigversion = P2MR → stack_bytes s + stack_bytes alt ≤ MAX_P2MR_STACK_BYTES).

Lemma eval_step_ok st :
  sigversion ≠ TAPROOT → state_ok st → safe (λ st', state_ok st' ∧ limited (stack st') (altstack st')) (eval_step flags sigversion st).
Proof.
  intros Hv Hs. unfold eval_step. destruct (GetScriptOp (pc st)) as [[[ok op] data] p'] eqn:E.
  apply GetScriptOp_bytes in E as [Hd Hp]; [|apply Hs]. destruct ok; [|done]. cbn [negb].
  destruct (Z.ltb_spec (max_push_size sigversion) (zlen data)); [done|].
  set (t1 := if is_legacy sigversion && negb (op_le op OP_16) then with_ops (with_pc _ _) _ else _).
  assert (state_ok t1) as Ht by (destruct Hs; subst t1; case_match; by split). clearbody t1.
  do 3 (case_match; [done|]). apply (safe_bind state_ok).
  - destruct (all_true (vfExec st) && op_le op OP_PUSHDATA4) eqn:E1; [|case_match; [by apply eval_op_ok|done]].
    apply (safe_bind (λ _, True)).
    + case_match; [|done]. unfold CheckMinimalPush. apply andb_true_iff in E1 as [_ ->]. done.
    + intros [] _; [|done]. apply leave_ok; [done|]. constructor; [by split|apply Ht].
  - intros st' Hst. destruct (Z.ltb_spec MAX_STACK_SIZE (zlen (stack st') + zlen (altstack st'))); [done|].
    unfold p2mr_stack_bytes_ok. destruct (_ || _) eqn:Eb; [|done]. cbn. split; [done|]. split; [lia|].
    intros ->. apply Z.leb_le. by destruct (bool_decide_reflect (P2MR = P2MR)).
Qed.

Lemma eval_loop_ok fuel st :
  sigversion ≠ TAPROOT → state_ok st → (length (pc st) ≤ fuel)%nat →
  safe (λ st', state_ok st' ∧ (pc st = [] ∧ st' = st ∨ limited (stack st') (altstack st'))) (eval_loop flags sigversion fuel st).
Proof.
  intros Hv. revert st. induction fuel as [|fuel IH]; intros st Hs Hf; cbn [eval_loop].
  - destruct (pc st); [split; [done|by left]|simpl in Hf; lia].
  - destruct (pc st) eqn:Ep; [split; [done|by left]|].
    pose proof (eval_step_ok st Hv Hs) as Ho. pose proof (eval_step_pc flags sigversion st) as Hp. rewrite Ep in Hp.
    destruct (eval_step flags sigversion st) as [[|st']|]; [done| |done]. destruct Ho as [Ho Hl]. simpl in Hp. cbn [ebind].
    eapply safe_weaken; [|apply IH; [destruct Ho; by split|simpl in *; lia]].
    intros st'' [Hs'' [[_ ->]|Hl'']]; [|by auto]. split; [done|]. by right.
Qed.

(** The script is evaluated to the end, whatever it is. *)
Lemma EvalScript_safe s script d c :
  sigversion ≠ TAPROOT → Forall elem_ok s → Forall is_byte script → zlen script < NO_FALSE →
  exec_ready (set_codeseparator d 0xffffffff) →
  (∀ e, eval_loop flags sigversion (length script) (start (V:=ConditionStack) s script d c) = Err e →
     e = ERuntime num_overflow ∨ e = ERuntime num_not_minimal) ∧
  match EvalScript (V:=ConditionStack) flags sigversion s script d c with
  | Ok (inr (s', d', c')) => Forall elem_ok s' ∧ exec_ready d' ∧ (script = [] ∧ s' = s ∨ limited s' [])
  | Ok (inl _) => True
  | Err _ => False
  end.
Proof.
  intros Hv Hs Hb Hl Hr.
  assert (state_ok (start (V:=list bool) s script d c)) as Hst by (split; cbn; done || constructor).
  pose proof (eval_loop_ok (length script) _ Hv Hst ltac:(done)) as Ho. split.
  - intros e He. pose proof (eval_loop_agree flags sigversion (length script) 0 (start s script d c) (start s script d c)) as Ha.
    cbn [pc start] in Ha. specialize (Ha ltac:(by constructor) ltac:(lia) ltac:(unfold zlen in Hl; lia)).
    rewrite He in Ha. cbn [agree] in Ha. destruct (eval_loop flags sigversion (length script) (start (V:=list bool) s script d c)) as [[]|]; try done.
    simpl in Ha. by subst.
  - rewrite EvalScript_plain by done. unfold EvalScript. rewrite assert_true by (by rewrite bool_decide_false).
    cbn [lift ebind ret]. destruct (is_legacy sigversion && (MAX_SCRIPT_SIZE <? zlen script)); [done|].
    destruct (eval_loop flags sigversion (length script) _) as [[|st']|e]; cbn [catch_all ebind]; [done| |].
    + destruct Ho as [[] Ho]. destruct (negb (cond_empty (vfExec st'))); [done|]. cbn. split; [done|]. split; [done|].
      destruct Ho as [[Hp ->]|[Hc Hm]]; [by left|right].
      split; [pose proof (zlen_nonneg (altstack st')); change (zlen (@nil (list Z))) with 0; lia|].
      intros Hp. specialize (Hm Hp). pose proof (stack_bytes_nonneg (altstack st')). cbn. lia.
    + by destruct Ho as [-> | ->].
Qed.

End Safety.
End interpreter_safety.
