(* ===== verification/VerifyScript.v ===== *)
(** Spending an output.

    [script/interpreter.cpp], from [ExecuteWitnessScript] on: witness programs
    of versions 0, 1 and 2, [VerifyScript], and the count of the signature
    operations of a witness. A witness is the list of its elements in the order
    of the source, so that its last element is the top of the stack; the tweak
    of a Taproot key is a parameter. *)

From Stdlib Require Import ZArith Lia String.
From stdpp Require Import base list numbers tactics.
From S2P Require Import Prelude Sha256 Header Script Pqm Interpreter.
Import block_header script pqm interpreter.

Open Scope Z_scope.

Module verify_script.

Definition WITNESS_V0_SCRIPTHASH_SIZE : Z := 32.
Definition WITNESS_V0_KEYHASH_SIZE : Z := 20.
Definition WITNESS_V1_TAPROOT_SIZE : Z := 32.
Definition WITNESS_V2_P2MR_SIZE : Z := 32.
Definition TAPROOT_LEAF_MASK : Z := 0xfe.
Definition TAPROOT_LEAF_TAPSCRIPT : Z := 0xc0.
Definition TAPROOT_CONTROL_BASE_SIZE : Z := 33.
Definition TAPROOT_CONTROL_NODE_SIZE : Z := 32.
Definition TAPROOT_CONTROL_MAX_NODE_COUNT : Z := 128.
Definition TAPROOT_CONTROL_MAX_SIZE : Z := TAPROOT_CONTROL_BASE_SIZE + TAPROOT_CONTROL_NODE_SIZE * TAPROOT_CONTROL_MAX_NODE_COUNT.

(** ** Taproot *)

(** [XOnlyPubKey::CheckTapTweak]: the output key, the internal key, the root
    and the parity. *)
Class TaprootLibrary := { CheckTapTweak : list Z → list Z → list Z → bool → bool }.

Definition ComputeTapleafHash (leaf_version : Z) (script : list Z) : list Z :=
  hash_parts (TaggedHash "TapLeaf") [[leaf_version]; WriteCompactSize (zlen script); script].

Definition ComputeTapbranchHash (a b : list Z) : list Z :=
  hash_parts (TaggedHash "TapBranch") (if bytes_lt a b then [a; b] else [b; a]).

Definition ComputeTaprootMerkleRoot (control tapleaf_hash : list Z) : result (list Z) :=
  _ ← assert_ (TAPROOT_CONTROL_BASE_SIZE <=? zlen control);
  _ ← assert_ (zlen control <=? TAPROOT_CONTROL_MAX_SIZE);
  _ ← assert_ ((zlen control - TAPROOT_CONTROL_BASE_SIZE) mod TAPROOT_CONTROL_NODE_SIZE =? 0);
  let path_len := (zlen control - TAPROOT_CONTROL_BASE_SIZE) / TAPROOT_CONTROL_NODE_SIZE in
  Ok (foldl (λ k i, ComputeTapbranchHash k (take 32 (drop (33 + 32 * i) control))) tapleaf_hash (seq 0 (Z.to_nat path_len))).

Definition VerifyTaprootCommitment `{TaprootLibrary} (control program tapleaf_hash : list Z) : result bool :=
  _ ← assert_ (TAPROOT_CONTROL_BASE_SIZE <=? zlen control);
  _ ← assert_ (32 <=? zlen program);
  merkle_root ← ComputeTaprootMerkleRoot control tapleaf_hash;
  Ok (CheckTapTweak program (take 32 (drop 1 control)) merkle_root (negb (Z.land (znth control 0) 1 =? 0))).

(** ** Witnesses *)
Definition sized_control (control : list Z) (base node limit : Z) : bool :=
  negb ((zlen control <? base) || (limit <? zlen control) || negb ((zlen control - base) mod node =? 0)).

(** The serialized size of a vector of byte vectors. *)
Definition witness_size (w : list (list Z)) : Z :=
  zlen (WriteCompactSize (zlen w)) + foldr (λ e n, zlen (WriteCompactSize (zlen e)) + zlen e + n) 0 w.

Definition hash_annex (annex : list Z) : list Z := hash_parts HashWriter_new [WriteCompactSize (zlen annex); annex].

(** The annex is dropped from the stack and recorded. *)
Definition take_annex (least : Z) (stack : list (list Z)) : list (list Z) * ScriptExecutionData :=
  let d := execdata_new in
  let set present hash :=
    mkExecData (m_tapleaf_hash_init d) (m_tapleaf_hash d) (m_codeseparator_pos_init d) (m_codeseparator_pos d)
      true present hash (m_validation_weight_left_init d) (m_validation_weight_left d) (m_output_hash d) in
  match stack with
  | (b :: annex) as top :: rest =>
      if (least <=? zlen stack) && (b =? ANNEX_TAG) then (rest, set true (hash_annex top)) else (stack, set false [])
  | _ => (stack, set false [])
  end.

Definition set_leaf (d : ScriptExecutionData) (hash : list Z) : ScriptExecutionData :=
  mkExecData true hash (m_codeseparator_pos_init d) (m_codeseparator_pos d) (m_annex_init d) (m_annex_present d)
    (m_annex_hash d) (m_validation_weight_left_init d) (m_validation_weight_left d) (m_output_hash d).
Definition set_budget (d : ScriptExecutionData) (weight : Z) : ScriptExecutionData :=
  mkExecData (m_tapleaf_hash_init d) (m_tapleaf_hash d) (m_codeseparator_pos_init d) (m_codeseparator_pos d)
    (m_annex_init d) (m_annex_present d) (m_annex_hash d) true weight (m_output_hash d).

Section Verification.
Context `{ScriptPrimitives} `{PQLibrary} `{TaprootLibrary} {C : Type} `{!BaseSignatureChecker C}.
Context (flags : Z).

(** A script with an [OP_SUCCESSx] is not executed: [Some] is what the scan
    returns. *)
Definition scan_op_success (sigversion : SigVersion) (exec_script : list Z) : option (exec unit) :=
  over_ops exec_script (λ _, Some (fail SCRIPT_ERR_BAD_OPCODE)) (λ _, None)
    (λ opcode _ u,
       let is_op_success := if bool_decide (sigversion = TAPSCRIPT) then IsOpSuccess opcode else IsOpSuccessP2MR opcode in
       if is_op_success then
         inr (Some (if flag flags SCRIPT_VERIFY_DISCOURAGE_OP_SUCCESS then fail SCRIPT_ERR_DISCOURAGE_OP_SUCCESS else ret tt))
       else inl u) ().

(** The sizes of the elements, from the bottom of the stack. *)
Fixpoint check_elements (sigversion : SigVersion) (witness_stack_bytes : Z) (elems : list (list Z)) : exec unit :=
  match elems with
  | [] => ret tt
  | elem :: elems =>
      if max_push_size sigversion <? zlen elem then fail SCRIPT_ERR_PUSH_SIZE else
      let witness_stack_bytes := u64 (witness_stack_bytes + zlen elem) in
      if bool_decide (sigversion = P2MR) && (MAX_P2MR_STACK_BYTES <? witness_stack_bytes) then fail SCRIPT_ERR_STACK_SIZE else
      check_elements sigversion witness_stack_bytes elems
  end.

Definition ExecuteWitnessScript (stack : list (list Z)) (exec_script : list Z) (sigversion : SigVersion) (d : ScriptExecutionData) (c : C) :
    exec C :=
  let tap := bool_decide (sigversion = TAPSCRIPT) || bool_decide (sigversion = P2MR) in
  match (if tap then scan_op_success sigversion exec_script else None) with
  | Some early => _ <~ early; ret c
  | None =>
      _ <~ fail_if (bool_decide (sigversion = TAPSCRIPT) && (MAX_STACK_SIZE <? zlen stack)) SCRIPT_ERR_STACK_SIZE;
      _ <~ check_elements sigversion 0 (reverse stack);
      '(stack, d, c) <~ EvalScript (V:=ConditionStack) flags sigversion stack exec_script d c;
      match stack with
      | [top] => if CastToBool top then ret c else fail SCRIPT_ERR_EVAL_FALSE
      | _ => fail SCRIPT_ERR_CLEANSTACK
      end
  end.

(** [OP_DUP OP_HASH160 <program> OP_EQUALVERIFY OP_CHECKSIG]. *)
Definition p2wpkh_script (program : list Z) : list Z :=
  push_opcode OP_DUP ++ push_opcode OP_HASH160 ++ push_data program ++ push_opcode OP_EQUALVERIFY ++ push_opcode OP_CHECKSIG.

Definition verify_v0 (stack : list (list Z)) (program : list Z) (c : C) : exec C :=
  if zlen program =? WITNESS_V0_SCRIPTHASH_SIZE then
    match stack with
    | [] => fail SCRIPT_ERR_WITNESS_PROGRAM_WITNESS_EMPTY
    | exec_script :: stack =>
        if bool_decide (fst (sha_Finalize (sha_Write CSHA256_new exec_script)) = program)
        then ExecuteWitnessScript stack exec_script WITNESS_V0 execdata_new c
        else fail SCRIPT_ERR_WITNESS_PROGRAM_MISMATCH
    end
  else if zlen program =? WITNESS_V0_KEYHASH_SIZE then
    if negb (zlen stack =? 2) then fail SCRIPT_ERR_WITNESS_PROGRAM_MISMATCH
    else ExecuteWitnessScript stack (p2wpkh_script program) WITNESS_V0 execdata_new c
  else fail SCRIPT_ERR_WITNESS_PROGRAM_WRONG_LENGTH.

Definition verify_taproot (witness stack : list (list Z)) (program : list Z) (c : C) : exec C :=
  if negb (flag flags SCRIPT_VERIFY_TAPROOT) then ret c else
  if zlen stack =? 0 then fail SCRIPT_ERR_WITNESS_PROGRAM_WITNESS_EMPTY else
  let '(stack, d) := take_annex 2 stack in
  match stack with
  | [sig] =>
      r <~ lift (CheckSchnorrSignature sig program TAPROOT d);
      match r with
      | inl e => fail (default SCRIPT_ERR_OK e)
      | inr _ => ret c
      end
  | control :: script :: stack =>
      if negb (sized_control control TAPROOT_CONTROL_BASE_SIZE TAPROOT_CONTROL_NODE_SIZE TAPROOT_CONTROL_MAX_SIZE)
      then fail SCRIPT_ERR_TAPROOT_WRONG_CONTROL_SIZE else
      let leaf := ComputeTapleafHash (Z.land (znth control 0) TAPROOT_LEAF_MASK) script in
      ok <~ lift (VerifyTaprootCommitment control program leaf);
      if negb ok then fail SCRIPT_ERR_WITNESS_PROGRAM_MISMATCH else
      if Z.land (znth control 0) TAPROOT_LEAF_MASK =? TAPROOT_LEAF_TAPSCRIPT then
        ExecuteWitnessScript stack script TAPSCRIPT (set_budget (set_leaf d leaf) (witness_size witness + VALIDATION_WEIGHT_OFFSET)) c
      else if flag flags SCRIPT_VERIFY_DISCOURAGE_UPGRADABLE_TAPROOT_VERSION then fail SCRIPT_ERR_DISCOURAGE_UPGRADABLE_TAPROOT_VERSION
      else ret c
  | [] => Err EBounds
  end.

Definition verify_p2mr (witness stack : list (list Z)) (program : list Z) (c : C) : exec C :=
  if zlen stack <? 2 then fail SCRIPT_ERR_WITNESS_PROGRAM_WITNESS_EMPTY else
  let '(stack, d) := take_annex 3 stack in
  match stack with
  | control :: script :: stack =>
      if MAX_P2MR_SCRIPT_SIZE <? zlen script then fail SCRIPT_ERR_SCRIPT_SIZE else
      if negb (sized_control control P2MR_CONTROL_BASE_SIZE P2MR_CONTROL_NODE_SIZE P2MR_CONTROL_MAX_SIZE)
      then fail SCRIPT_ERR_P2MR_WRONG_CONTROL_SIZE else
      if negb (Z.land (znth control 0) P2MR_LEAF_MASK =? P2MR_LEAF_VERSION) then fail SCRIPT_ERR_P2MR_WRONG_LEAF_VERSION else
      let leaf := ComputeP2MRLeafHash (Z.land (znth control 0) P2MR_LEAF_MASK) script in
      if negb (VerifyP2MRCommitment control program leaf) then fail SCRIPT_ERR_WITNESS_PROGRAM_MISMATCH else
      ExecuteWitnessScript stack script P2MR (set_budget (set_leaf d leaf) (witness_size witness + VALIDATION_WEIGHT_OFFSET)) c
  | _ => Err EBounds
  end.

Definition VerifyWitnessProgram (witness : list (list Z)) (witversion : Z) (program : list Z) (is_p2sh : bool) (c : C) : exec C :=
  let stack := reverse witness in
  if witversion =? 0 then verify_v0 stack program c
  else if (witversion =? 1) && (zlen program =? WITNESS_V1_TAPROOT_SIZE) && negb is_p2sh then verify_taproot witness stack program c
  else if (witversion =? 2) && (zlen program =? WITNESS_V2_P2MR_SIZE) && negb is_p2sh then verify_p2mr witness stack program c
  else if negb is_p2sh && IsPayToAnchor witversion program then ret c
  else if flag flags SCRIPT_VERIFY_DISCOURAGE_UPGRADABLE_WITNESS_PROGRAM then fail SCRIPT_ERR_DISCOURAGE_UPGRADABLE_WITNESS_PROGRAM
  else ret c.

(** ** VerifyScript *)

(** [stack.resize(1)]: the bottom element stays. *)
Definition resize1 (stack : list (list Z)) : list (list Z) := [default [] (list.last stack)].

(** The stack must not be empty and its top must be true. *)
Definition top_is_true (stack : list (list Z)) : exec unit :=
  match stack with
  | top :: _ => if CastToBool top then ret tt else fail SCRIPT_ERR_EVAL_FALSE
  | [] => fail SCRIPT_ERR_EVAL_FALSE
  end.

(** The witness program of a script, if witnesses are verified: [malleated]
    is what its script signature must not be. *)
Definition verify_witness (witness : list (list Z)) (scriptPubKey : list Z) (malleated : bool) (e : ScriptError) (is_p2sh : bool)
    (stack : list (list Z)) (c : C) : exec (bool * list (list Z) * C) :=
  if negb (flag flags SCRIPT_VERIFY_WITNESS) then ret (false, stack, c) else
  program <~ lift (IsWitnessProgram scriptPubKey);
  match program with
  | None => ret (false, stack, c)
  | Some (witnessversion, witnessprogram) =>
      if malleated then fail e else
      c <~ VerifyWitnessProgram witness witnessversion witnessprogram is_p2sh c;
      ret (true, resize1 stack, c)
  end.

Definition verify_p2sh (witness : list (list Z)) (scriptSig : list Z) (stackCopy : list (list Z)) (hadWitness : bool) (c : C) :
    exec (bool * list (list Z) * C) :=
  if negb (IsPushOnly scriptSig) then fail SCRIPT_ERR_SIG_PUSHONLY else
  match stackCopy with
  | [] => Err EAssert
  | pubKey2 :: stack =>
      '(stack, _, c) <~ EvalScript (V:=ConditionStack) flags BASE stack pubKey2 execdata_new c;
      _ <~ top_is_true stack;
      '(had, stack, c) <~ verify_witness witness pubKey2 (negb (bool_decide (scriptSig = push_data pubKey2)))
                            SCRIPT_ERR_WITNESS_MALLEATED_P2SH true stack c;
      ret (hadWitness || had, stack, c)
  end.

Definition VerifyScript (scriptSig scriptPubKey : list Z) (witness : list (list Z)) (c : C) : exec C :=
  _ <~ fail_if (flag flags SCRIPT_VERIFY_SIGPUSHONLY && negb (IsPushOnly scriptSig)) SCRIPT_ERR_SIG_PUSHONLY;
  '(stack, _, c) <~ EvalScript (V:=ConditionStack) flags BASE [] scriptSig execdata_new c;
  let stackCopy := stack in
  '(stack, _, c) <~ EvalScript (V:=ConditionStack) flags BASE stack scriptPubKey execdata_new c;
  _ <~ top_is_true stack;
  '(hadWitness, stack, c) <~ verify_witness witness scriptPubKey (negb (zlen scriptSig =? 0)) SCRIPT_ERR_WITNESS_MALLEATED false stack c;
  '(hadWitness, stack, c) <~
    (if flag flags SCRIPT_VERIFY_P2SH && IsPayToScriptHash scriptPubKey
     then verify_p2sh witness scriptSig stackCopy hadWitness c
     else ret (hadWitness, stack, c));
  _ <~ (if flag flags SCRIPT_VERIFY_CLEANSTACK then
          _ <~ lift (assert_ (flag flags SCRIPT_VERIFY_P2SH));
          _ <~ lift (assert_ (flag flags SCRIPT_VERIFY_WITNESS));
          fail_if (negb (zlen stack =? 1)) SCRIPT_ERR_CLEANSTACK
        else ret tt);
  if flag flags SCRIPT_VERIFY_WITNESS then
    _ <~ lift (assert_ (flag flags SCRIPT_VERIFY_P2SH));
    if negb hadWitness && negb (zlen witness =? 0) then fail SCRIPT_ERR_WITNESS_UNEXPECTED else ret c
  else ret c.

End Verification.

(** ** Counting signature operations *)
Definition p2mr_sigop_weight (opcode : opcodetype) : Z :=
  match opcode with
  | OP_CHECKSIG_MLDSA => VALIDATION_WEIGHT_PER_MLDSA_SIGOP
  | OP_CHECKSIG_SLHDSA => VALIDATION_WEIGHT_PER_SLHDSA_SIGOP
  | OP_CHECKSIGADD_MLDSA => VALIDATION_WEIGHT_PER_MLDSA_MULTISIG_SIGOP
  | OP_CHECKSIGADD_SLHDSA => VALIDATION_WEIGHT_PER_SLHDSA_MULTISIG_SIGOP
  | _ => 0
  end.

Definition count_p2mr_sigops (leaf_script : list Z) : Z :=
  over_ops leaf_script id id (λ opcode _ n, inl (u64 (n + p2mr_sigop_weight opcode))) 0.

Definition WitnessSigOps (witversion : Z) (witprogram : list Z) (witness : list (list Z)) : result Z :=
  if (witversion =? 0) && (zlen witprogram =? WITNESS_V0_KEYHASH_SIZE) then Ok 1
  else if (witversion =? 0) && (zlen witprogram =? WITNESS_V0_SCRIPTHASH_SIZE) && (0 <? zlen witness)
  then GetSigOpCount (default [] (list.last witness)) true
  else if (witversion =? 2) && (zlen witprogram =? WITNESS_V2_P2MR_SIZE) && (2 <=? zlen witness)
  then Ok (count_p2mr_sigops (default [] (witness !! (length witness - 2)%nat)))
  else Ok 0.

Definition CountWitnessSigOps (scriptSig scriptPubKey : list Z) (witness : list (list Z)) (flags : Z) : result Z :=
  if negb (flag flags SCRIPT_VERIFY_WITNESS) then Ok 0 else
  _ ← assert_ (flag flags SCRIPT_VERIFY_P2SH);
  program ← IsWitnessProgram scriptPubKey;
  match program with
  | Some (witnessversion, witnessprogram) => WitnessSigOps witnessversion witnessprogram witness
  | None =>
      if IsPayToScriptHash scriptPubKey && IsPushOnly scriptSig then
        let data := over_ops scriptSig id id (λ _ data _, inl data) [] in
        program ← IsWitnessProgram data;
        match program with
        | Some (witnessversion, witnessprogram) => WitnessSigOps witnessversion witnessprogram witness
        | None => Ok 0
        end
      else Ok 0
  end.

End verify_script.
