(* ===== verification/SigHash.v ===== *)
(** What a signature signs.

    [script/interpreter.cpp]: the precomputed hashes of a transaction, the hash
    of a template ([ComputeCTVHash]), the hashes that post-quantum, Schnorr and
    ECDSA signatures sign, the cache of SHA-256 midstates, and
    [GenericTransactionSignatureChecker]. The witnesses of the inputs are given
    beside the transaction; the hash of a shielded bundle and the verification
    of elliptic-curve signatures are parameters. *)

From Stdlib Require Import ZArith Lia String.
From stdpp Require Import base list numbers tactics.
From S2P Require Import Prelude Sha256 Header Coins TxCheck Script Pqm Interpreter.
Import block_header tx_check script pqm interpreter.

Open Scope Z_scope.

Module sighash.

(** ** The wire format of the parts *)
Definition ser_outpoint (o : COutPoint) : list (list Z) := [o.1; WriteLE32 o.2].
Definition ser_script (s : list Z) : list (list Z) := [WriteCompactSize (zlen s); s].
Definition ser_amount (v : Z) : list (list Z) := [WriteLE64 (u64 v)].
Definition ser_txout (o : CTxOut) : list (list Z) := ser_amount (nValue o) ++ ser_script (scriptPubKey o).

Definition SHA256Uint256 (input : list Z) : list Z := fst (sha_Finalize (sha_Write CSHA256_new input)).

Definition GetPrevoutsSHA256 (tx : Transaction) : list Z :=
  hash_parts HashWriter_new (concat ((λ i, ser_outpoint (prevout i)) <$> t_vin tx)).
Definition GetSequencesSHA256 (tx : Transaction) : list Z :=
  hash_parts HashWriter_new ((λ i, WriteLE32 (nSequence i)) <$> t_vin tx).
Definition GetOutputsSHA256 (tx : Transaction) : list Z :=
  hash_parts HashWriter_new (concat (ser_txout <$> t_vout tx)).
Definition GetSpentAmountsSHA256 (outputs_spent : list CTxOut) : list Z :=
  hash_parts HashWriter_new (concat ((λ o, ser_amount (nValue o)) <$> outputs_spent)).
Definition GetSpentScriptsSHA256 (outputs_spent : list CTxOut) : list Z :=
  hash_parts HashWriter_new (concat ((λ o, ser_script (scriptPubKey o)) <$> outputs_spent)).

(** ** Precomputed data *)
Class BundleHash := { ComputeShieldedBundleCtvHash : CShieldedBundle → list Z }.

Record PrecomputedTransactionData := mkTxData {
  m_prevouts_single_hash : list Z;
  m_sequences_single_hash : list Z;
  m_outputs_single_hash : list Z;
  m_spent_amounts_single_hash : list Z;
  m_spent_scripts_single_hash : list Z;
  m_bip341_taproot_ready : bool;
  hashPrevouts : list Z;
  hashSequence : list Z;
  hashOutputs : list Z;
  m_bip143_segwit_ready : bool;
  m_ctv_scriptsigs_hash : list Z;
  m_ctv_shielded_bundle_hash : list Z;
  m_ctv_has_scriptsigs : bool;
  m_ctv_has_shielded_bundle : bool;
  m_ctv_ready : bool;
  m_spent_outputs : list CTxOut;
  m_spent_outputs_ready : bool;
}.

(** A witness on an output of 34 bytes that starts with [OP_1] or [OP_2]. *)
Definition spends_taproot (ready : bool) (spent_outputs : list CTxOut) (inpos : nat) : bool :=
  let s := scriptPubKey (default (mkTxOut (-1) []) (spent_outputs !! inpos)) in
  ready && (zlen s =? 2 + 32) && ((znth s 0 =? opcode_value OP_1) || (znth s 0 =? opcode_value OP_2)).

(** The scan of the inputs; [witnesses] are their [scriptWitness] stacks. *)
Fixpoint scan_inputs (ready : bool) (spent_outputs : list CTxOut) (inpos : nat) (witnesses : list (list (list Z)))
    (uses_bip143_segwit uses_bip341_taproot : bool) : bool * bool :=
  if uses_bip143_segwit && uses_bip341_taproot then (uses_bip143_segwit, uses_bip341_taproot) else
  match witnesses with
  | [] => (uses_bip143_segwit, uses_bip341_taproot)
  | w :: witnesses =>
      if zlen w =? 0 then scan_inputs ready spent_outputs (S inpos) witnesses uses_bip143_segwit uses_bip341_taproot
      else if spends_taproot ready spent_outputs inpos
      then scan_inputs ready spent_outputs (S inpos) witnesses uses_bip143_segwit true
      else scan_inputs ready spent_outputs (S inpos) witnesses true uses_bip341_taproot
  end.

Definition uint256_zero : list Z := replicate 32 0.
Definition uint256_one : list Z := 1 :: replicate 31 0.

(** [Init] on a fresh object. *)
Definition Init `{BundleHash} (tx : Transaction) (witnesses : list (list (list Z))) (spent_outputs : list CTxOut) (force : bool) :
    result PrecomputedTransactionData :=
  let ready := negb (zlen spent_outputs =? 0) in
  _ ← (if ready then assert_ (zlen spent_outputs =? zlen (t_vin tx)) else Ok tt);
  let '(uses_bip143_segwit, uses_bip341_taproot) := scan_inputs ready spent_outputs 0 witnesses force force in
  let shared h := if uses_bip143_segwit || uses_bip341_taproot then h tx else uint256_zero in
  let prevouts := shared GetPrevoutsSHA256 in
  let sequences := shared GetSequencesSHA256 in
  let outputs := shared GetOutputsSHA256 in
  let segwit h := if uses_bip143_segwit then SHA256Uint256 h else uint256_zero in
  let taproot_ready := uses_bip341_taproot && ready in
  let spent h := if taproot_ready then h spent_outputs else uint256_zero in
  let scripts := scriptSig <$> t_vin tx in
  Ok (mkTxData prevouts sequences outputs (spent GetSpentAmountsSHA256) (spent GetSpentScriptsSHA256) taproot_ready
        (segwit prevouts) (segwit sequences) (segwit outputs) uses_bip143_segwit
        (hash_parts HashWriter_new (concat (ser_script <$> scripts)))
        (if HasShieldedBundle tx then ComputeShieldedBundleCtvHash (shielded_bundle tx) else uint256_zero)
        (existsb (λ s, negb (zlen s =? 0)) scripts) (HasShieldedBundle tx) true
        spent_outputs ready).

(** ** Templates *)
Definition ctv_parts (tx : Transaction) (nIn : Z) (txdata : PrecomputedTransactionData) : list (list Z) :=
  [WriteLE32 (version tx); WriteLE32 (nLockTime tx)] ++
  (if m_ctv_has_scriptsigs txdata then [m_ctv_scriptsigs_hash txdata] else []) ++
  [WriteLE32 (zlen (t_vin tx)); m_sequences_single_hash txdata; WriteLE32 (zlen (t_vout tx)); m_outputs_single_hash txdata] ++
  (if m_ctv_has_shielded_bundle txdata then [m_ctv_shielded_bundle_hash txdata] else []) ++
  [WriteLE32 nIn].

Definition ComputeCTVHash (tx : Transaction) (nIn : Z) (txdata : PrecomputedTransactionData) : result (list Z) :=
  _ ← assert_ (nIn <? zlen (t_vin tx));
  _ ← assert_ (m_ctv_ready txdata);
  _ ← assert_ (m_bip143_segwit_ready txdata || m_bip341_taproot_ready txdata);
  Ok (hash_parts HashWriter_new (ctv_parts tx nIn txdata)).

(** ** Schnorr and post-quantum signatures *)
Inductive MissingDataBehavior := ASSERT_FAIL | FAIL.

Definition HandleMissingData (mdb : MissingDataBehavior) : result bool :=
  match mdb with ASSERT_FAIL => Err EAssert | FAIL => Ok false end.

Definition txin_at (tx : Transaction) (i : Z) : CTxIn := default (mkTxIn ([], 0) [] 0) (t_vin tx !! Z.to_nat i).
Definition txout_at (outs : list CTxOut) (i : Z) : CTxOut := default (mkTxOut (-1) []) (outs !! Z.to_nat i).

Definition hash_txout (o : CTxOut) : list Z := hash_parts HashWriter_new (ser_txout o).

(** What is hashed behind the tag; [output_hash] is that of the single output. *)
Definition schnorr_parts (execdata : ScriptExecutionData) (tx_to : Transaction) (in_pos hash_type : Z) (sigversion : SigVersion)
    (cache : PrecomputedTransactionData) (output_hash : list Z) : list (list Z) :=
  let ext_flag := if bool_decide (sigversion = TAPROOT) then 0 else 1 in
  let epoch := if bool_decide (sigversion = P2MR) then 2 else 0 in
  let output_type := if hash_type =? SIGHASH_DEFAULT then SIGHASH_ALL else Z.land hash_type SIGHASH_OUTPUT_MASK in
  let input_type := Z.land hash_type SIGHASH_INPUT_MASK in
  [[epoch]; [hash_type]; WriteLE32 (version tx_to); WriteLE32 (nLockTime tx_to)] ++
  (if negb (input_type =? SIGHASH_ANYONECANPAY)
   then [m_prevouts_single_hash cache; m_spent_amounts_single_hash cache; m_spent_scripts_single_hash cache; m_sequences_single_hash cache]
   else []) ++
  (if output_type =? SIGHASH_ALL then [m_outputs_single_hash cache] else []) ++
  [[Z.shiftl ext_flag 1 + Z.b2z (m_annex_present execdata)]] ++
  (if input_type =? SIGHASH_ANYONECANPAY
   then ser_outpoint (prevout (txin_at tx_to in_pos)) ++ ser_txout (txout_at (m_spent_outputs cache) in_pos) ++
        [WriteLE32 (nSequence (txin_at tx_to in_pos))]
   else [WriteLE32 in_pos]) ++
  (if m_annex_present execdata then [m_annex_hash execdata] else []) ++
  (if output_type =? SIGHASH_SINGLE then [output_hash] else []) ++
  (if bool_decide (sigversion = TAPROOT) then []
   else [m_tapleaf_hash execdata; [0]; WriteLE32 (m_codeseparator_pos execdata)]).

(** The hash and the execution data, with the hash of the output cached. *)
Definition SignatureHashSchnorr (execdata : ScriptExecutionData) (tx_to : Transaction) (in_pos hash_type : Z) (sigversion : SigVersion)
    (cache : PrecomputedTransactionData) (mdb : MissingDataBehavior) : result (option (list Z * ScriptExecutionData)) :=
  _ ← assert_ (negb (bool_decide (sigversion = BASE) || bool_decide (sigversion = WITNESS_V0)));
  _ ← assert_ (in_pos <? zlen (t_vin tx_to));
  if negb (m_bip341_taproot_ready cache && m_spent_outputs_ready cache) then _ ← HandleMissingData mdb; Ok None else
  if negb ((hash_type <=? 0x03) || ((0x81 <=? hash_type) && (hash_type <=? 0x83))) then Ok None else
  _ ← assert_ (m_annex_init execdata);
  let output_type := if hash_type =? SIGHASH_DEFAULT then SIGHASH_ALL else Z.land hash_type SIGHASH_OUTPUT_MASK in
  if (output_type =? SIGHASH_SINGLE) && (zlen (t_vout tx_to) <=? in_pos) then Ok None else
  let output_hash := default (hash_txout (txout_at (t_vout tx_to) in_pos)) (m_output_hash execdata) in
  let execdata := if output_type =? SIGHASH_SINGLE then set_output_hash execdata (Some output_hash) else execdata in
  _ ← (if bool_decide (sigversion = TAPROOT) then Ok tt else
       _ ← assert_ (m_tapleaf_hash_init execdata); assert_ (m_codeseparator_pos_init execdata));
  Ok (Some (hash_parts (TaggedHash "TapSighash") (schnorr_parts execdata tx_to in_pos hash_type sigversion cache output_hash), execdata)).

(** ** The cache of midstates *)
Abbreviation SigHashCache := (list (option (list Z * CSHA256))).

Definition SigHashCache_new : SigHashCache := replicate 6 None.

Definition CacheIndex (hash_type : Z) : Z :=
  3 * Z.b2z (negb (Z.land hash_type SIGHASH_ANYONECANPAY =? 0)) +
  2 * Z.b2z (Z.land hash_type 0x1f =? SIGHASH_SINGLE) +
  1 * Z.b2z (Z.land hash_type 0x1f =? SIGHASH_NONE).

Definition Load (m_cache_entries : SigHashCache) (hash_type : Z) (script_code : list Z) : option CSHA256 :=
  match m_cache_entries !! Z.to_nat (CacheIndex hash_type) with
  | Some (Some (script, writer)) => if bool_decide (script_code = script) then Some writer else None
  | _ => None
  end.

Definition Store (m_cache_entries : SigHashCache) (hash_type : Z) (script_code : list Z) (writer : CSHA256) : SigHashCache :=
  <[Z.to_nat (CacheIndex hash_type) := Some (script_code, writer)]> m_cache_entries.

(** ** The serializer of signatures before segregated witness *)

(** The pieces of the script between its [OP_CODESEPARATOR]s. *)
Fixpoint code_pieces (fuel : nat) (itBegin it : list Z) : list (list Z) :=
  match fuel with
  | O => []
  | S fuel =>
      let '(ok, opcode, _, it) := GetScriptOp it in
      if ok then
        if op_is opcode OP_CODESEPARATOR then take (length itBegin - length it - 1) itBegin :: code_pieces fuel it it
        else code_pieces fuel itBegin it
      else match itBegin with [] => [] | _ => [between itBegin it] end
  end.

Definition SerializeScriptCode (scriptCode : list Z) : list (list Z) :=
  let nCodeSeparators := over_ops scriptCode id id (λ op _ n, inl (if op_is op OP_CODESEPARATOR then n + 1 else n)) 0 in
  WriteCompactSize (zlen scriptCode - nCodeSeparators) :: code_pieces (S (length scriptCode)) scriptCode scriptCode.

Section Serializer.
Context (txTo : Transaction) (scriptCode : list Z) (nIn nHashType : Z).

Definition fAnyoneCanPay : bool := negb (Z.land nHashType SIGHASH_ANYONECANPAY =? 0).
Definition fHashSingle : bool := Z.land nHashType 0x1f =? SIGHASH_SINGLE.
Definition fHashNone : bool := Z.land nHashType 0x1f =? SIGHASH_NONE.

Definition SerializeInput (nInput : Z) : list (list Z) :=
  let nInput := if fAnyoneCanPay then nIn else nInput in
  let i := txin_at txTo nInput in
  ser_outpoint (prevout i) ++
  (if negb (nInput =? nIn) then ser_script [] else SerializeScriptCode scriptCode) ++
  [if negb (nInput =? nIn) && (fHashSingle || fHashNone) then WriteLE32 0 else WriteLE32 (nSequence i)].

Definition SerializeOutput (nOutput : Z) : list (list Z) :=
  if fHashSingle && negb (nOutput =? nIn) then ser_txout (mkTxOut (-1) []) else ser_txout (txout_at (t_vout txTo) nOutput).

Definition serialize_for_signature : list (list Z) :=
  let nInputs := if fAnyoneCanPay then 1 else zlen (t_vin txTo) in
  let nOutputs := if fHashNone then 0 else if fHashSingle then nIn + 1 else zlen (t_vout txTo) in
  [WriteLE32 (version txTo); WriteCompactSize nInputs] ++ concat (ztab nInputs SerializeInput) ++
  [WriteCompactSize nOutputs] ++ concat (ztab nOutputs SerializeOutput) ++ [WriteLE32 (nLockTime txTo)].
End Serializer.

(** The message of a version 0 witness (BIP 143). *)
Definition segwit_parts (scriptCode : list Z) (txTo : Transaction) (nIn nHashType amount : Z) (cache : option PrecomputedTransactionData) :
    list (list Z) :=
  let cacheready := match cache with Some c => m_bip143_segwit_ready c | None => false end in
  let pick (f : PrecomputedTransactionData → list Z) (h : list Z) := match cache with Some c => if cacheready then f c else h | None => h end in
  let anyone := negb (Z.land nHashType SIGHASH_ANYONECANPAY =? 0) in
  let single := Z.land nHashType 0x1f =? SIGHASH_SINGLE in
  let none := Z.land nHashType 0x1f =? SIGHASH_NONE in
  let prevouts := if negb anyone then pick hashPrevouts (SHA256Uint256 (GetPrevoutsSHA256 txTo)) else uint256_zero in
  let sequence := if negb anyone && negb single && negb none then pick hashSequence (SHA256Uint256 (GetSequencesSHA256 txTo)) else uint256_zero in
  let outputs :=
    if negb single && negb none then pick hashOutputs (SHA256Uint256 (GetOutputsSHA256 txTo))
    else if single && (nIn <? zlen (t_vout txTo))
    then HashWriter_GetHash (foldl HashWriter_write HashWriter_new (ser_txout (txout_at (t_vout txTo) nIn)))
    else uint256_zero in
  [WriteLE32 (version txTo); prevouts; sequence] ++ ser_outpoint (prevout (txin_at txTo nIn)) ++ ser_script scriptCode ++
  ser_amount amount ++ [WriteLE32 (nSequence (txin_at txTo nIn)); outputs; WriteLE32 (nLockTime txTo)].

Definition SignatureHash (scriptCode : list Z) (txTo : Transaction) (nIn nHashType amount : Z) (sigversion : SigVersion)
    (cache : option PrecomputedTransactionData) (sighash_cache : option SigHashCache) : result (list Z * option SigHashCache) :=
  _ ← assert_ (nIn <? zlen (t_vin txTo));
  if negb (bool_decide (sigversion = WITNESS_V0)) && (Z.land nHashType 0x1f =? SIGHASH_SINGLE) && (zlen (t_vout txTo) <=? nIn)
  then Ok (uint256_one, sighash_cache) else
  match sighash_cache ≫= λ m, Load m nHashType scriptCode with
  | Some ss => Ok (HashWriter_GetHash (HashWriter_write ss (WriteLE32 nHashType)), sighash_cache)
  | None =>
      let ss := foldl HashWriter_write HashWriter_new
        (if bool_decide (sigversion = WITNESS_V0) then segwit_parts scriptCode txTo nIn nHashType amount cache
         else serialize_for_signature txTo scriptCode nIn nHashType) in
      Ok (HashWriter_GetHash (HashWriter_write ss (WriteLE32 nHashType)),
          (λ m, Store m nHashType scriptCode ss) <$> sighash_cache)
  end.

(** ** The checker of transactions *)
Class CurveLibrary := {
  ecdsa_verify : list Z → list Z → list Z → bool;
  schnorr_verify : list Z → list Z → list Z → bool;
}.

Definition GetLen (chHeader : Z) : Z :=
  if (chHeader =? 2) || (chHeader =? 3) then 33
  else if (chHeader =? 4) || (chHeader =? 6) || (chHeader =? 7) then 65
  else 0.

(** [CPubKey::IsValid] of a key made from these bytes. *)
Definition CPubKey_IsValid (vch : list Z) : bool :=
  let len := match vch with [] => 0 | b :: _ => GetLen b end in
  negb (len =? 0) && (len =? zlen vch).

Record SignatureContext := mkContext {
  txTo : Transaction;
  m_mdb : MissingDataBehavior;
  nIn : Z;
  amount : Z;
  txdata : option PrecomputedTransactionData;
  m_require_sighash_all : bool;
}.

Section Checker.
Context `{PQLibrary} `{CurveLibrary} (k : SignatureContext).

(** [HandleMissingData], as an outcome that is not a success. *)
Definition missing : result unit := _ ← HandleMissingData (m_mdb k); Ok tt.

Definition tx_CheckECDSASignature (vchSigIn vchPubKey scriptCode : list Z) (sigversion : SigVersion) (c : SigHashCache) :
    result (bool * SigHashCache) :=
  if negb (CPubKey_IsValid vchPubKey) then Ok (false, c) else
  if zlen vchSigIn =? 0 then Ok (false, c) else
  let nHashType := znth vchSigIn (zlen vchSigIn - 1) in
  let vchSig := take (Nat.pred (length vchSigIn)) vchSigIn in
  if m_require_sighash_all k && negb (nHashType =? SIGHASH_ALL) then Ok (false, c) else
  if bool_decide (sigversion = WITNESS_V0) && (amount k <? 0) then _ ← missing; Ok (false, c) else
  '(sighash, c') ← SignatureHash scriptCode (txTo k) (nIn k) nHashType (amount k) sigversion (txdata k) (Some c);
  Ok (ecdsa_verify vchPubKey sighash vchSig, default c c').

Definition tx_CheckSchnorrSignature (sig pubkey : list Z) (sigversion : SigVersion) (execdata : ScriptExecutionData) :
    result (option ScriptError + ScriptExecutionData) :=
  _ ← assert_ (bool_decide (sigversion = TAPROOT) || bool_decide (sigversion = TAPSCRIPT));
  _ ← assert_ (zlen pubkey =? 32);
  if negb (zlen sig =? 64) && negb (zlen sig =? 65) then Ok (inl (Some SCRIPT_ERR_SCHNORR_SIG_SIZE)) else
  let hashtype := if zlen sig =? 65 then znth sig 64 else SIGHASH_DEFAULT in
  if (zlen sig =? 65) && m_require_sighash_all k && negb (hashtype =? SIGHASH_ALL) then Ok (inl (Some SCRIPT_ERR_SIG_HASHTYPE)) else
  if (zlen sig =? 65) && (hashtype =? SIGHASH_DEFAULT) then Ok (inl (Some SCRIPT_ERR_SCHNORR_SIG_HASHTYPE)) else
  match txdata k with
  | None => _ ← missing; Ok (inl None)
  | Some data =>
      r ← SignatureHashSchnorr execdata (txTo k) (nIn k) hashtype sigversion data (m_mdb k);
      match r with
      | None => Ok (inl (Some SCRIPT_ERR_SCHNORR_SIG_HASHTYPE))
      | Some (sighash, execdata) =>
          if schnorr_verify pubkey sighash (take 64 sig) then Ok (inr execdata) else Ok (inl (Some SCRIPT_ERR_SCHNORR_SIG))
      end
  end.

Definition tx_CheckPQSignature (sig pubkey : list Z) (algo : PQAlgorithm) (hash_type : Z) (sigversion : SigVersion)
    (execdata : ScriptExecutionData) (slhdsa_fips205 : bool) : result (bool * ScriptExecutionData) :=
  _ ← assert_ (bool_decide (sigversion = P2MR));
  if m_require_sighash_all k && negb (hash_type =? SIGHASH_ALL) && negb (hash_type =? SIGHASH_DEFAULT) then Ok (false, execdata) else
  match txdata k with
  | None => _ ← missing; Ok (false, execdata)
  | Some data =>
      r ← SignatureHashSchnorr execdata (txTo k) (nIn k) hash_type sigversion data (m_mdb k);
      match r with
      | None => Ok (false, execdata)
      | Some (sighash, execdata) => Ok (CPQPubKey_Verify algo pubkey sighash sig slhdsa_fips205, execdata)
      end
  end.

Definition tx_CheckCTVHash (hash_from_stack : list Z) : result bool :=
  _ ← assert_ (zlen hash_from_stack =? 32);
  match txdata k with
  | None => HandleMissingData (m_mdb k)
  | Some data => computed ← ComputeCTVHash (txTo k) (nIn k) data; Ok (bool_decide (hash_from_stack = computed))
  end.

Definition tx_CheckLockTime (nLockTime : Z) : result bool :=
  let lock := tx_check.nLockTime (txTo k) in
  if negb (((lock <? LOCKTIME_THRESHOLD) && (nLockTime <? LOCKTIME_THRESHOLD)) ||
           ((LOCKTIME_THRESHOLD <=? lock) && (LOCKTIME_THRESHOLD <=? nLockTime))) then Ok false else
  if lock <? nLockTime then Ok false else
  i ← vget (t_vin (txTo k)) (nIn k);
  Ok (negb (SEQUENCE_FINAL =? nSequence i)).

Definition tx_CheckSequence (nSequence : Z) : result bool :=
  i ← vget (t_vin (txTo k)) (nIn k);
  let txToSequence := tx_check.nSequence i in
  if version (txTo k) <? 2 then Ok false else
  if negb (Z.land txToSequence SEQUENCE_LOCKTIME_DISABLE_FLAG =? 0) then Ok false else
  let nLockTimeMask := Z.lor SEQUENCE_LOCKTIME_TYPE_FLAG SEQUENCE_LOCKTIME_MASK in
  let txToSequenceMasked := Z.land txToSequence nLockTimeMask in
  let nSequenceMasked := Z.land nSequence nLockTimeMask in
  if negb (((txToSequenceMasked <? SEQUENCE_LOCKTIME_TYPE_FLAG) && (nSequenceMasked <? SEQUENCE_LOCKTIME_TYPE_FLAG)) ||
           ((SEQUENCE_LOCKTIME_TYPE_FLAG <=? txToSequenceMasked) && (SEQUENCE_LOCKTIME_TYPE_FLAG <=? nSequenceMasked))) then Ok false else
  Ok (negb (txToSequenceMasked <? nSequenceMasked)).

(** [TransactionSignatureChecker]. *)
Definition transaction_checker : BaseSignatureChecker SigHashCache := {|
  CheckECDSASignature := tx_CheckECDSASignature;
  CheckSchnorrSignature := tx_CheckSchnorrSignature;
  CheckPQSignature := tx_CheckPQSignature;
  CheckCTVHash := tx_CheckCTVHash;
  CheckLockTime := tx_CheckLockTime;
  CheckSequence := tx_CheckSequence;
|}.
End Checker.

End sighash.
