(* ===== verification/PqmLaws.v ===== *)
(** Laws of pay to Merkle root.

    An output commits to a list of scripts: each of them can be spent with a
    control block, and nothing else can, unless SHA-256 has a collision. The
    contracts the wallet builds are recognised again. *)

From Stdlib Require Import ZArith Lia String.
From stdpp Require Import base list numbers tactics.
From S2P Require Import Prelude Sha256 Header ShieldedFrontier Script ScriptLaws Pqm.
Import block_header script script_laws pqm.

Open Scope Z_scope.

Module pqm_laws.

(** ** Hashes *)
Lemma hash_parts_fips w m parts : represents w m → hash_parts w parts = fips.sha256 (m ++ concat parts).
Proof. intros H. unfold hash_parts. apply sha_Finalize_fips. by apply sha_writes_represents. Qed.

Definition tag_prefix (tag : string) : list Z := fips.sha256 (chars tag) ++ fips.sha256 (chars tag).

Lemma TaggedHash_represents tag : represents (TaggedHash tag) (tag_prefix tag).
Proof.
  unfold TaggedHash, tag_prefix, HashWriter_write.
  rewrite (sha_Finalize_fips _ (chars tag)) by (apply (sha_Write_represents _ []), represents_new).
  apply sha_Write_represents. apply (sha_Write_represents _ []), represents_new.
Qed.

Lemma tagged_fips tag parts : hash_parts (TaggedHash tag) parts = fips.sha256 (tag_prefix tag ++ concat parts).
Proof. apply hash_parts_fips, TaggedHash_represents. Qed.

Lemma plain_fips parts : hash_parts HashWriter_new parts = fips.sha256 (concat parts).
Proof. apply (hash_parts_fips _ []), represents_new. Qed.

Lemma tag_prefix_length tag : length (tag_prefix tag) = 64%nat.
Proof. unfold tag_prefix. by rewrite length_app, sha256_length. Qed.

(** Equal digests of one construction have equal messages. *)
Lemma sha256_inj x y : fips.sha256 x = fips.sha256 y → x = y ∨ sha_collision.
Proof. intros E. destruct (decide (x = y)) as [|Hne]; [by left|right]. by exists x, y. Qed.

Lemma tagged_inj tag p q : hash_parts (TaggedHash tag) p = hash_parts (TaggedHash tag) q → concat p = concat q ∨ sha_collision.
Proof. rewrite !tagged_fips. intros [E|]%sha256_inj; [|by right]. left. by apply app_inv_head in E. Qed.

Lemma plain_inj p q : hash_parts HashWriter_new p = hash_parts HashWriter_new q → concat p = concat q ∨ sha_collision.
Proof. rewrite !plain_fips. apply sha256_inj. Qed.

(** Different tags are different constructions. *)
Lemma tags_differ tag tag' p q :
  fips.sha256 (chars tag) ≠ fips.sha256 (chars tag') →
  hash_parts (TaggedHash tag) p = hash_parts (TaggedHash tag') q → sha_collision.
Proof.
  rewrite !tagged_fips. intros Hne [E|]%sha256_inj; [|done]. exfalso. apply Hne. unfold tag_prefix in E.
  rewrite <- !app_assoc in E. by apply app_inj_1 in E as [E _]; [|by rewrite !sha256_length].
Qed.

(** A compact size and as many bytes are read back. *)
Lemma sized_inj s s' t t' :
  zlen s < 2 ^ 64 → zlen s' < 2 ^ 64 →
  WriteCompactSize (zlen s) ++ s ++ t = WriteCompactSize (zlen s') ++ s' ++ t' → s = s' ∧ t = t'.
Proof.
  intros Hs Hs' E.
  pose proof (compact_size_roundtrip_aux (zlen s) false (s ++ t)) as R. pose proof (compact_size_roundtrip_aux (zlen s') false (s' ++ t')) as R'.
  pose proof (zlen_nonneg s). pose proof (zlen_nonneg s').
  rewrite E, R' in R by (done || lia). injection (R ltac:(lia) ltac:(done)) as E1 E2.
  apply app_inj_1; [unfold zlen in E1; lia|done].
Qed.

(** ** Leaves and branches *)
Lemma leaf_branch_tags : fips.sha256 (chars "P2MRLeaf") ≠ fips.sha256 (chars "P2MRBranch").
Proof.
  assert (∀ m, fips.sha256 m = fst (sha_Finalize (sha_Write CSHA256_new m))) as E.
  { intros m. symmetry. apply sha_Finalize_fips, (sha_Write_represents _ []), represents_new. }
  rewrite !E. intros K. apply (f_equal (λ l, nth 0 l 0)) in K. vm_compute in K. discriminate K.
Qed.

#[local] Opaque hash_parts TaggedHash fips.sha256.

Lemma leaf_hash_inj v s v' s' :
  zlen s < 2 ^ 64 → zlen s' < 2 ^ 64 →
  ComputeP2MRLeafHash v s = ComputeP2MRLeafHash v' s' → (v = v' ∧ s = s') ∨ sha_collision.
Proof.
  unfold ComputeP2MRLeafHash. intros Hs Hs' E. apply tagged_inj in E as [E|]; [|by right]. left.
  cbn [concat app] in E. injection E as -> E. by apply sized_inj in E as [-> _].
Qed.

Lemma leaf_not_branch v s a b : ComputeP2MRLeafHash v s = ComputeP2MRBranchHash a b → sha_collision.
Proof. unfold ComputeP2MRLeafHash, ComputeP2MRBranchHash. apply tags_differ, leaf_branch_tags. Qed.

Lemma branch_hash_inj a b a' b' :
  length a = 32%nat → length b = 32%nat → length a' = 32%nat → length b' = 32%nat →
  ComputeP2MRBranchHash a b = ComputeP2MRBranchHash a' b' → (a = a' ∧ b = b') ∨ (a = b' ∧ b = a') ∨ sha_collision.
Proof.
  unfold ComputeP2MRBranchHash. intros Ha Hb Ha' Hb' E. apply tagged_inj in E as [E|]; [|by auto].
  destruct (bytes_lt a b), (bytes_lt a' b'); cbn [concat] in E; rewrite !app_nil_r in E; apply app_inj_1 in E as [-> ->]; (congruence || auto).
Qed.

Lemma bytes_lt_total a b : length a = length b → bytes_lt a b = false → bytes_lt b a = false → a = b.
Proof.
  revert b. induction a as [|x a IH]; intros [|y b] Hl; try done. cbn. injection Hl as Hl.
  repeat case_match; try done; intros; f_equal; [lia|by apply IH].
Qed.

Lemma bytes_lt_asym a b : bytes_lt a b = true → bytes_lt b a = false.
Proof. revert b. induction a as [|x a IH]; intros [|y b]; try done. cbn. repeat case_match; try done; try lia. apply IH. Qed.

Lemma branch_hash_comm a b : length a = length b → ComputeP2MRBranchHash a b = ComputeP2MRBranchHash b a.
Proof.
  intros Hl. unfold ComputeP2MRBranchHash. f_equal. destruct (bytes_lt a b) eqn:E1, (bytes_lt b a) eqn:E2; try done.
  - apply bytes_lt_asym in E1. congruence.
  - by rewrite (bytes_lt_total a b).
Qed.

Lemma leaf_hash_length v s : length (ComputeP2MRLeafHash v s) = 32%nat.
Proof. unfold ComputeP2MRLeafHash. rewrite tagged_fips. apply sha256_length. Qed.

Lemma branch_hash_length a b : length (ComputeP2MRBranchHash a b) = 32%nat.
Proof. unfold ComputeP2MRBranchHash. rewrite tagged_fips. apply sha256_length. Qed.

#[local] Opaque ComputeP2MRLeafHash ComputeP2MRBranchHash.

(** ** The tree behind a root *)
Inductive Tree := Leaf (h : list Z) | Node (l r : Tree).

Fixpoint tree_hash (t : Tree) : list Z :=
  match t with Leaf h => h | Node l r => ComputeP2MRBranchHash (tree_hash l) (tree_hash r) end.
Fixpoint leaves (t : Tree) : list (list Z) := match t with Leaf h => [h] | Node l r => leaves l ++ leaves r end.
Fixpoint depth (t : Tree) : nat := match t with Leaf _ => 0%nat | Node l r => S (depth l `max` depth r) end.

Fixpoint pair_up (l : list Tree) : list Tree :=
  match l with a :: b :: l => Node a b :: pair_up l | l => l end.

Fixpoint grow (fuel : nat) (l : list Tree) : list Tree :=
  match fuel with O => l | S fuel => if 1 <? zlen l then grow fuel (pair_up l) else l end.

Lemma next_level_trees l : next_level (tree_hash <$> l) = tree_hash <$> pair_up l.
Proof. induction l as [| |a b l IH] using pair_ind; [done..|]. cbn. by f_equal. Qed.

Lemma pair_up_leaves l : concat (leaves <$> pair_up l) = concat (leaves <$> l).
Proof. induction l as [| |a b l IH] using pair_ind; [done..|]. cbn. cbn in IH. by rewrite IH, app_assoc. Qed.

Lemma pair_up_length l : (2 * length (pair_up l) ≤ S (length l) ∧ (l ≠ [] → pair_up l ≠ []))%nat.
Proof. induction l as [| |a b l [IH _]] using pair_ind; cbn; [split; [lia|done]..|]. split; [lia|done]. Qed.

Lemma pair_up_depth l d : Forall (λ t, (depth t ≤ d)%nat) l → Forall (λ t, (depth t ≤ S d)%nat) (pair_up l).
Proof.
  induction l as [|a|a b l IH] using pair_ind; intros H; [constructor|repeat constructor; inversion H; lia|].
  apply list.Forall_cons in H as [Ha H]. apply list.Forall_cons in H as [Hb H]. constructor; [cbn; lia|]. by apply IH.
Qed.

Lemma reduce_trees n l : reduce_levels n (tree_hash <$> l) = tree_hash <$> grow n l.
Proof.
  revert l. induction n as [|n IH]; intros l; [done|]. cbn [reduce_levels grow].
  replace (zlen (tree_hash <$> l)) with (zlen l) by (unfold zlen; by rewrite length_fmap).
  case_match; [|done]. by rewrite next_level_trees, IH.
Qed.

(** Enough rounds leave one tree with all the leaves, as deep as it must be. *)
Lemma grow_one n k d l :
  l ≠ [] → (length l ≤ n)%nat → (length l ≤ 2 ^ k)%nat → Forall (λ t, (depth t ≤ d)%nat) l →
  ∃ t, grow n l = [t] ∧ leaves t = concat (leaves <$> l) ∧ (depth t ≤ d + k)%nat.
Proof.
  revert k d l. induction n as [|n IH]; intros k d l Hne Hn Hk Hd; [destruct l; [done|simpl in Hn; lia]|].
  cbn [grow]. destruct (Z.ltb_spec 1 (zlen l)) as [Hl|Hl].
  - unfold zlen in Hl. destruct (pair_up_length l) as [Hp Hp']. destruct k as [|k]; [simpl in Hk; lia|].
    destruct (IH k (S d) (pair_up l)) as (t & Ht & Hlv & Hdt); [by apply Hp'|lia|simpl in Hk; lia|by apply pair_up_depth|].
    exists t. rewrite Ht, Hlv, pair_up_leaves. split; [done|]. split; [done|lia].
  - destruct l as [|t [|? ?]]; [done| |unfold zlen in Hl; simpl in Hl; lia].
    exists t. split; [done|]. split; [cbn; by rewrite app_nil_r|]. apply list.Forall_cons in Hd as [Hd _]. lia.
Qed.

Lemma root_tree hs k :
  hs ≠ [] → (length hs ≤ 2 ^ k)%nat → ∃ t, ComputeP2MRMerkleRoot hs = tree_hash t ∧ leaves t = hs ∧ (depth t ≤ k)%nat.
Proof.
  intros Hne Hk. assert (tree_hash <$> (Leaf <$> hs) = hs) as E by (rewrite <- list_fmap_compose; apply list_fmap_id).
  destruct (grow_one (length hs) k 0 (Leaf <$> hs)) as (t & Ht & Hl & Hd).
  - by destruct hs.
  - by rewrite length_fmap.
  - by rewrite length_fmap.
  - apply Forall_fmap, list.Forall_forall. intros; simpl; lia.
  - exists t. assert (concat (leaves <$> (Leaf <$> hs)) = hs) as El.
    { rewrite <- list_fmap_compose. clear. induction hs as [|h hs IH]; [done|]. cbn. by rewrite IH. }
    rewrite El in Hl. split; [|by split; [|lia]].
    destruct hs as [|h [|h' hs]]; [done| |].
    + simpl in Hl. cbn in Ht. injection Ht as <-. done.
    + unfold ComputeP2MRMerkleRoot. rewrite <- E at 2. by rewrite reduce_trees, Ht.
Qed.

(** ** Climbing *)
Definition climb_path (path : list (list Z)) (h : list Z) : list Z := foldl ComputeP2MRBranchHash h path.

Lemma climb_length path h : length h = 32%nat → length (climb_path path h) = 32%nat.
Proof. induction path as [|x path IH] using rev_ind; [done|]. intros Hh. unfold climb_path. rewrite foldl_snoc. apply branch_hash_length. Qed.

Lemma tree_hash_length t : Forall (λ h, length h = 32%nat) (leaves t) → length (tree_hash t) = 32%nat.
Proof. destruct t; cbn; [by intros [? _]%list.Forall_cons|intros _; apply branch_hash_length]. Qed.

(** A path from a leaf hash to the root ends in a leaf of the tree. *)
Lemma climb_in_tree v s path t :
  zlen s < 2 ^ 64 → Forall (λ h, length h = 32%nat) path →
  Forall (λ h, ∃ v' s', h = ComputeP2MRLeafHash v' s') (leaves t) →
  climb_path path (ComputeP2MRLeafHash v s) = tree_hash t → ComputeP2MRLeafHash v s ∈ leaves t ∨ sha_collision.
Proof.
  intros Hs. revert t. induction path as [|n path IH] using rev_ind; intros t Hp Hl E.
  - destruct t as [h|l r]; cbn in *; [left; subst; by apply list_elem_of_singleton|].
    right. by apply leaf_not_branch in E.
  - apply Forall_app in Hp as [Hp Hn]. rewrite Forall_singleton in Hn.
    unfold climb_path in E. rewrite foldl_snoc in E. destruct t as [h|l r]; cbn in E, Hl.
    + apply list.Forall_cons in Hl as [(v' & s' & ->) _]. right. symmetry in E. by apply leaf_not_branch in E.
    + apply Forall_app in Hl as [Hl Hr].
      assert (∀ t, Forall (λ h, ∃ v' s', h = ComputeP2MRLeafHash v' s') (leaves t) → length (tree_hash t) = 32%nat) as Hlen.
      { intros t Ht. apply tree_hash_length. apply (list.Forall_impl _ _ _ Ht). intros ? (? & ? & ->). apply leaf_hash_length. }
      apply branch_hash_inj in E; [|by apply climb_length, leaf_hash_length|done|by apply Hlen|by apply Hlen].
      destruct E as [[E _]|[[E _]|]]; [| |by right].
      * destruct (IH l Hp Hl E) as [Hin|]; [left; cbn; apply elem_of_app; by left|by right].
      * destruct (IH r Hp Hr E) as [Hin|]; [left; cbn; apply elem_of_app; by right|by right].
Qed.

(** Every leaf has its path. *)
Lemma leaf_path t h :
  Forall (λ h, length h = 32%nat) (leaves t) → h ∈ leaves t →
  ∃ path, climb_path path h = tree_hash t ∧ (length path ≤ depth t)%nat ∧ Forall (λ h, length h = 32%nat) path.
Proof.
  induction t as [h'|l IHl r IHr]; cbn; intros Hl Hin.
  - apply list_elem_of_singleton in Hin as ->. exists []. split; [done|]. split; [done|constructor].
  - apply Forall_app in Hl as [Hl Hr]. apply elem_of_app in Hin as [Hin|Hin].
    + destruct (IHl Hl Hin) as (path & E & Hd & Hp). exists (path ++ [tree_hash r]). unfold climb_path in *.
      rewrite foldl_snoc, E, length_app. split; [done|]. split; [simpl; lia|]. apply Forall_app. split; [done|].
      apply Forall_singleton. by apply tree_hash_length.
    + destruct (IHr Hr Hin) as (path & E & Hd & Hp). exists (path ++ [tree_hash l]). unfold climb_path in *.
      rewrite foldl_snoc, E, length_app. split; [apply branch_hash_comm; by rewrite !tree_hash_length|]. split; [simpl; lia|].
      apply Forall_app. split; [done|]. apply Forall_singleton. by apply tree_hash_length.
Qed.

(** ** Control blocks *)
Definition path_of (control : list Z) : list (list Z) :=
  (λ i, control_node control i) <$> seq 0 (Z.to_nat ((zlen control - 1) / 32)).

Lemma climb_control_path control h n : climb_control control h n = climb_path (control_node control <$> seq 0 n) h.
Proof. unfold climb_control, climb_path. by rewrite foldl_fmap. Qed.

Lemma path_of_length control : Forall (λ h, length h = 32%nat) (path_of control).
Proof.
  apply Forall_fmap, list.Forall_forall. intros i Hi%elem_of_seq. unfold control_node. cbn.
  rewrite length_take, length_drop. unfold zlen in Hi.
  assert ((Z.of_nat (length control) - 1) / 32 * 32 ≤ Z.of_nat (length control) - 1) by divmod_lia. lia.
Qed.

Lemma VerifyP2MRCommitment_spec control program h :
  VerifyP2MRCommitment control program h = true ↔
  zlen program = 32 ∧ 1 ≤ zlen control ≤ P2MR_CONTROL_MAX_SIZE ∧ (zlen control - 1) mod 32 = 0 ∧ program = climb_path (path_of control) h.
Proof.
  unfold VerifyP2MRCommitment, P2MR_PROGRAM_SIZE, P2MR_CONTROL_BASE_SIZE, P2MR_CONTROL_NODE_SIZE.
  rewrite climb_control_path. fold (path_of control).
  destruct (Z.eqb_spec (zlen program) 32); cbn [negb]; [|split; [done|lia]].
  destruct (Z.ltb_spec (zlen control) 1); cbn [orb]; [split; [done|lia]|].
  destruct (Z.ltb_spec P2MR_CONTROL_MAX_SIZE (zlen control)); [split; [done|lia]|].
  destruct (Z.eqb_spec ((zlen control - 1) mod 32) 0); cbn [negb]; [|split; [done|lia]].
  rewrite bool_decide_eq_true. naive_solver.
Qed.

(** The control block of a path. *)
Definition make_control (version : Z) (path : list (list Z)) : list Z := version :: concat path.

Lemma concat_length (path : list (list Z)) : Forall (λ h, length h = 32%nat) path → length (concat path) = (32 * length path)%nat.
Proof. induction 1 as [|h path Hh Hp IH]; [done|]. cbn [concat]. rewrite length_app, IH, Hh. simpl length. lia. Qed.

Lemma concat_slice (path : list (list Z)) i h : Forall (λ h, length h = 32%nat) path → path !! i = Some h → take 32 (drop (i * 32) (concat path)) = h.
Proof.
  intros Hp. revert i. induction Hp as [|x path Hx Hp IH]; intros [|i] E; try done; cbn [concat].
  - injection E as <-. change (0 * 32)%nat with 0%nat. rewrite drop_0. by apply take_app_length'.
  - replace (S i * 32)%nat with (32 + i * 32)%nat by lia. rewrite <- drop_drop, drop_app_length' by done. by apply IH.
Qed.

Lemma path_of_make version path : Forall (λ h, length h = 32%nat) path → path_of (make_control version path) = path.
Proof.
  intros Hp. unfold path_of, make_control. replace (zlen (version :: concat path) - 1) with (32 * zlen path)
    by (unfold zlen; simpl length; rewrite concat_length by done; lia).
  rewrite Z.mul_comm, Z.div_mul by done. unfold zlen. rewrite Nat2Z.id.
  apply list_eq. intros i. rewrite list_lookup_fmap. destruct (path !! i) as [h|] eqn:E.
  - pose proof (lookup_lt_Some _ _ _ E). rewrite lookup_seq_lt by done. cbn [fmap option_fmap option_map].
    unfold control_node. replace (1 + (0 + i) * 32)%nat with (S (i * 32)) by lia. cbn [drop]. by rewrite (concat_slice path i h).
  - apply lookup_ge_None in E. by rewrite lookup_seq_ge by done.
Qed.

(** ** What an output commits to *)
Definition commits_to (version : Z) (scripts : list (list Z)) : list Z := ComputeP2MRMerkleRoot (ComputeP2MRLeafHash version <$> scripts).

Lemma commitment_sound version scripts control v script k :
  scripts ≠ [] → (length scripts ≤ 2 ^ k)%nat → Forall (λ s, zlen s < 2 ^ 64) scripts → zlen script < 2 ^ 64 →
  VerifyP2MRCommitment control (commits_to version scripts) (ComputeP2MRLeafHash v script) = true →
  (v = version ∧ script ∈ scripts) ∨ sha_collision.
Proof.
  intros Hne Hk Hs Hsz (_ & _ & _ & E)%VerifyP2MRCommitment_spec.
  destruct (root_tree (ComputeP2MRLeafHash version <$> scripts) k) as (t & Ht & Hl & _);
    [by destruct scripts|by rewrite length_fmap|].
  unfold commits_to in E. rewrite Ht in E. symmetry in E. apply climb_in_tree in E as [Hin|]; [| |done| |].
  - rewrite Hl in Hin. apply list_elem_of_fmap in Hin as (s & E & Hin). rewrite list.Forall_forall in Hs.
    apply leaf_hash_inj in E as [[-> ->]|]; [by left|by right|done|by apply Hs].
  - by right.
  - apply path_of_length.
  - rewrite Hl. apply Forall_fmap, list.Forall_forall. intros s _. cbn. eauto.
Qed.

Lemma commitment_complete version scripts script k :
  (k ≤ 128)%nat → (length scripts ≤ 2 ^ k)%nat → script ∈ scripts →
  ∃ path, (length path ≤ k)%nat ∧ zlen (make_control version path) ≤ P2MR_CONTROL_MAX_SIZE ∧
    VerifyP2MRCommitment (make_control version path) (commits_to version scripts) (ComputeP2MRLeafHash version script) = true.
Proof.
  intros Hk Hl Hin.
  destruct (root_tree (ComputeP2MRLeafHash version <$> scripts) k) as (t & Ht & Hlv & Hd);
    [by destruct scripts; [apply not_elem_of_nil in Hin|]|by rewrite length_fmap|].
  assert (Forall (λ h, length h = 32%nat) (leaves t)) as H32.
  { rewrite Hlv. apply Forall_fmap, list.Forall_forall. intros; apply leaf_hash_length. }
  destruct (leaf_path t (ComputeP2MRLeafHash version script) H32) as (path & E & Hp & Hp32).
  { rewrite Hlv. by apply list_elem_of_fmap_2. }
  assert (zlen (make_control version path) = 1 + 32 * zlen path) as Hz.
  { unfold make_control, zlen. simpl length. rewrite concat_length by done. lia. }
  exists path. split; [lia|]. assert (zlen path ≤ 128) by (unfold zlen; lia). pose proof (zlen_nonneg path).
  split; [rewrite Hz; unfold P2MR_CONTROL_MAX_SIZE; lia|].
  apply VerifyP2MRCommitment_spec. unfold commits_to. rewrite Ht, Hz, path_of_make by done.
  split; [unfold zlen; rewrite tree_hash_length by done; done|]. split; [unfold P2MR_CONTROL_MAX_SIZE; lia|].
  split; [replace (1 + 32 * zlen path - 1) with (zlen path * 32) by lia; by apply Z.mod_mul|done].
Qed.

End pqm_laws.
