(* ===== verification/FlagLaws.v ===== *)
(** Verification flags are soft forks.

    The source promises that setting more flags never accepts more spends. It
    holds for every flag but one, and for the discouraged no-operations when
    they do not hide [CHECKTEMPLATEVERIFY]. *)

From Stdlib Require Import ZArith Lia String.
From stdpp Require Import base list numbers tactics.
From S2P Require Import Prelude Sha256 Header Script ScriptLaws Pqm Interpreter InterpreterLaws VerifyScript.
Import script script_laws pqm interpreter condition_stacks verify_script.

Open Scope Z_scope.

Module flag_laws.

(** What the right computation returns, the left one returns too. *)
Definition weaker {A} (m m' : exec A) : Prop := ∀ a, m' = Ok (inr a) → m = Ok (inr a).

Lemma weaker_refl {A} (m : exec A) : weaker m m.
Proof. by intros a. Qed.

Lemma weaker_fail {A} (m : exec A) e : weaker m (fail e).
Proof. by intros a. Qed.

Lemma weaker_err {A} (m : exec A) e : weaker m (Err e).
Proof. by intros a. Qed.

Lemma weaker_bind {A B} (m m' : exec A) (f f' : A → exec B) :
  weaker m m' → (∀ a, weaker (f a) (f' a)) → weaker (ebind m f) (ebind m' f').
Proof.
  intros Hm Hf b Hb. destruct m' as [[e|a]|e]; [done| |done]. rewrite (Hm a eq_refl). by apply Hf.
Qed.

Lemma weaker_guard {A} (b b' : bool) e (m m' : exec A) :
  (b = true → b' = true) → weaker m m' → weaker (if b then fail e else m) (if b' then fail e else m').
Proof. intros Hb Hm. destruct b'; [apply weaker_fail|]. destruct b; [by specialize (Hb eq_refl)|done]. Qed.

Section Forks.
Context `{ScriptPrimitives} `{PQLibrary} `{TaprootLibrary} {C : Type} `{!BaseSignatureChecker C}.

(** [g] has every flag of [f], the one that rejects legacy signatures apart. *)
Context (f g : Z).
Hypothesis more_flags : ∀ x, flag f x = true → Z.land x SCRIPT_VERIFY_REJECT_LEGACY_SIGS = 0 → flag g x = true.
Hypothesis same_fips : flag f SCRIPT_VERIFY_SLHDSA_FIPS205 = flag g SCRIPT_VERIFY_SLHDSA_FIPS205.
Hypothesis ctv_not_hidden :
  flag f SCRIPT_VERIFY_DISCOURAGE_UPGRADABLE_NOPS = true →
  flag f SCRIPT_VERIFY_CHECKTEMPLATEVERIFY = flag g SCRIPT_VERIFY_CHECKTEMPLATEVERIFY.

(** Split a guard into its conditions. *)
Ltac flags_imply :=
  intros; repeat match goal with
  | H : _ && _ = true |- _ => apply andb_true_iff in H as [? ?]
  end; repeat (apply andb_true_iff; split); try (apply more_flags; [|reflexivity]); assumption.

Lemma weaker_num v : weaker (num f v) (num g v).
Proof.
  unfold num, fRequireMinimal. intros a. unfold CScriptNum, throw_if. destruct (_ <? _); [done|]. cbn.
  destruct (flag f SCRIPT_VERIFY_MINIMALDATA) eqn:E; [by rewrite (more_flags _ E eq_refl)|].
  destruct (flag g SCRIPT_VERIFY_MINIMALDATA && negb (is_minimal_num v)); done.
Qed.

Lemma weaker_num5 v n : weaker (lift (CScriptNum v (fRequireMinimal f) n)) (lift (CScriptNum v (fRequireMinimal g) n)).
Proof.
  unfold fRequireMinimal. intros a. unfold CScriptNum, throw_if. destruct (_ <? _); [done|]. cbn.
  destruct (flag f SCRIPT_VERIFY_MINIMALDATA) eqn:E; [by rewrite (more_flags _ E eq_refl)|].
  destruct (flag g SCRIPT_VERIFY_MINIMALDATA && negb (is_minimal_num v)); done.
Qed.

Lemma weaker_sig_encoding sig : weaker (CheckSignatureEncoding sig f) (CheckSignatureEncoding sig g).
Proof.
  unfold CheckSignatureEncoding. case_match; [apply weaker_refl|]. apply weaker_guard; [flags_imply|].
  apply weaker_bind; [|intros _; apply weaker_guard; [flags_imply|apply weaker_refl]].
  destruct (flag f SCRIPT_VERIFY_LOW_S) eqn:E; [rewrite (more_flags _ E eq_refl); apply weaker_refl|].
  case_match; [|apply weaker_refl]. unfold IsLowDERSignature. intros []. by repeat case_match.
Qed.

Lemma weaker_key_encoding key v : weaker (CheckPubKeyEncoding key f v) (CheckPubKeyEncoding key g v).
Proof. unfold CheckPubKeyEncoding. apply weaker_guard; [flags_imply|]. apply weaker_guard; [flags_imply|apply weaker_refl]. Qed.

Lemma weaker_pre_tapscript sig key code v c : weaker (EvalChecksigPreTapscript sig key code f v c) (EvalChecksigPreTapscript sig key code g v c).
Proof.
  unfold EvalChecksigPreTapscript. apply weaker_bind; [apply weaker_refl|intros _]. apply weaker_bind.
  - case_match; [|apply weaker_refl]. destruct (FindAndDelete _ _). apply weaker_guard; [flags_imply|apply weaker_refl].
  - intros script. apply weaker_bind; [apply weaker_sig_encoding|intros _]. apply weaker_bind; [apply weaker_key_encoding|intros _].
    apply weaker_bind; [apply weaker_refl|intros [b c']]. apply weaker_guard; [flags_imply|apply weaker_refl].
Qed.

Lemma weaker_tapscript sig key d v : weaker (EvalChecksigTapscript sig key d f v) (EvalChecksigTapscript sig key d g v).
Proof.
  unfold EvalChecksigTapscript. do 2 (apply weaker_bind; [apply weaker_refl|intros ?]). case_match; [apply weaker_refl|].
  case_match; [apply weaker_refl|]. apply weaker_guard; [flags_imply|apply weaker_refl].
Qed.

(** That flag does not matter to a script of a Merkle root, which has no
    legacy signatures. *)
Definition legacy_too (v : SigVersion) : Prop :=
  v = P2MR ∨ (flag f SCRIPT_VERIFY_REJECT_LEGACY_SIGS = true → flag g SCRIPT_VERIFY_REJECT_LEGACY_SIGS = true).

Lemma weaker_EvalChecksig sig key code d v c : legacy_too v → weaker (EvalChecksig sig key code d f v c) (EvalChecksig sig key code d g v c).
Proof.
  intros [->|Hl]; unfold EvalChecksig; [apply weaker_refl + (rewrite !andb_false_r; apply weaker_refl)|].
  apply weaker_guard; [intros [? ?]%andb_true_iff; apply andb_true_iff; auto|].
  destruct v; try apply weaker_refl; (apply weaker_bind; [apply weaker_pre_tapscript || apply weaker_tapscript|intros; apply weaker_refl]).
Qed.

Lemma weaker_pq_check algo cost sig key v d : weaker (pq_check algo cost sig key f v d) (pq_check algo cost sig key g v d).
Proof.
  unfold pq_check. apply weaker_guard; [flags_imply|]. case_match; [apply weaker_refl|].
  apply weaker_bind; [apply weaker_refl|intros [sig' ht]]. rewrite same_fips.
  apply weaker_bind; [apply weaker_refl|intros [b d']]. apply weaker_guard; [flags_imply|apply weaker_refl].
Qed.

Lemma weaker_multisig_script v n isig s code : weaker (multisig_script f v n isig s code) (multisig_script g v n isig s code).
Proof.
  revert isig code. induction n as [|n IH]; intros isig code; [apply weaker_refl|]. cbn [multisig_script].
  apply weaker_bind; [apply weaker_refl|intros sig]. apply weaker_bind; [|intros; apply IH].
  case_match; [|apply weaker_refl]. destruct (FindAndDelete _ _). apply weaker_guard; [flags_imply|apply weaker_refl].
Qed.

Lemma weaker_multisig_match v fuel s code isig ikey ns nk (c : C) :
  weaker (multisig_match f v fuel s code isig ikey ns nk c) (multisig_match g v fuel s code isig ikey ns nk c).
Proof.
  revert isig ikey ns nk c. induction fuel as [|fuel IH]; intros isig ikey ns nk c; [apply weaker_refl|]. cbn [multisig_match].
  case_match; [apply weaker_refl|]. do 2 (apply weaker_bind; [apply weaker_refl|intros ?]).
  apply weaker_bind; [apply weaker_sig_encoding|intros _]. apply weaker_bind; [apply weaker_key_encoding|intros _].
  apply weaker_bind; [apply weaker_refl|intros [b c']]. case_match; [apply weaker_refl|apply IH].
Qed.

Lemma weaker_multisig_cleanup n b ikey2 s : weaker (multisig_cleanup f n b ikey2 s) (multisig_cleanup g n b ikey2 s).
Proof.
  revert ikey2 s. induction n as [|n IH]; intros ikey2 s; [apply weaker_refl|]. cbn [multisig_cleanup].
  apply weaker_bind; [|intros _; apply weaker_bind; [apply weaker_refl|intros; apply IH]].
  destruct (negb b && flag f SCRIPT_VERIFY_NULLFAIL && (ikey2 =? 0)) eqn:E.
  - apply andb_true_iff in E as [[Eb Ef]%andb_true_iff Ei]. rewrite Eb, (more_flags _ Ef eq_refl), Ei. apply weaker_refl.
  - case_match; [|apply weaker_refl]. intros []. destruct (lift _) as [[]|]; cbn; [done| |done]. by destruct (fail_if _ _) as [[]|].
Qed.

(** ** Opcodes *)
Context {V : Type} `{!CondStack V}.
Abbreviation State := (EvalState (C:=C) (V:=V)).

Ltac weaker_run :=
  repeat first
    [ apply weaker_refl | apply weaker_fail | apply weaker_err | apply weaker_num | apply weaker_num5
    | (apply weaker_EvalChecksig; assumption) | apply weaker_pq_check | apply weaker_multisig_script | apply weaker_multisig_match
    | apply weaker_multisig_cleanup
    | (apply weaker_guard; [by flags_imply|])
    | (apply weaker_bind; [|intros ?])
    | case_match ].

Lemma weaker_locktime (st : State) : weaker (op_checklocktime f st) (op_checklocktime g st).
Proof.
  unfold op_checklocktime. destruct (flag f SCRIPT_VERIFY_CHECKLOCKTIMEVERIFY) eqn:E; cbn [negb].
  - rewrite (more_flags _ E eq_refl). cbn [negb]. weaker_run.
  - intros st' Hst. repeat (case_match; try done); simplify_eq; try done.
    destruct (lift _) as [[]|]; cbn in Hst; try done. case_match; [done|].
    destruct (lift _) as [[|[]]|]; cbn in Hst; try done.
Qed.

Lemma weaker_sequence (st : State) : weaker (op_checksequence f st) (op_checksequence g st).
Proof.
  unfold op_checksequence. destruct (flag f SCRIPT_VERIFY_CHECKSEQUENCEVERIFY) eqn:E; cbn [negb].
  - rewrite (more_flags _ E eq_refl). cbn [negb]. weaker_run.
  - intros st' Hst. repeat (case_match; try done); simplify_eq; try done.
    destruct (lift _) as [[]|]; cbn in Hst; try done. do 2 (case_match; [done|]).
    destruct (lift _) as [[|[]]|]; cbn in Hst; try done.
Qed.

Lemma weaker_nop (st : State) : weaker (op_upgradable_nop f st) (op_upgradable_nop g st).
Proof. unfold op_upgradable_nop. weaker_run. Qed.

Lemma weaker_template v (st : State) : weaker (op_checktemplate f v st) (op_checktemplate g v st).
Proof.
  unfold op_checktemplate. destruct (flag f SCRIPT_VERIFY_CHECKTEMPLATEVERIFY) eqn:E; cbn [negb].
  - rewrite (more_flags _ E eq_refl). cbn [negb]. case_match; [apply weaker_nop|weaker_run].
  - destruct (flag g SCRIPT_VERIFY_CHECKTEMPLATEVERIFY) eqn:Eg; cbn [negb]; [|apply weaker_nop].
    unfold op_upgradable_nop. destruct (flag f SCRIPT_VERIFY_DISCOURAGE_UPGRADABLE_NOPS) eqn:Ed.
    { specialize (ctv_not_hidden eq_refl). congruence. }
    intros st' Hst. repeat (case_match; try done); simplify_eq; try done.
    destruct (lift _) as [[|[]]|]; cbn in Hst; try done.
Qed.

Lemma weaker_op v op fExec (st : State) : legacy_too v → weaker (eval_op f v op fExec st) (eval_op g v op fExec st).
Proof.
  intros Hl. destruct op; cbn [eval_op]; try apply weaker_refl;
    first [ apply weaker_locktime | apply weaker_sequence | apply weaker_nop | apply weaker_template | idtac ];
    unfold op_pick, op_unary, op_binary, op_within, op_checksig, op_checksigadd, op_checksig_pq, op_checksigadd_pq,
      op_checksigfromstack, op_checkmultisig, op_if, fail_if; rewrite ?same_fips; weaker_run.
Qed.

Lemma weaker_step v (st : State) : legacy_too v → weaker (eval_step f v st) (eval_step g v st).
Proof.
  intros Hl. unfold eval_step. destruct (GetScriptOp (pc st)) as [[[ok op] data] p']. do 2 (case_match; [apply weaker_refl|]).
  set (t1 := if is_legacy v && negb (op_le op OP_16) then _ else _). do 2 (case_match; [apply weaker_refl|]).
  apply weaker_guard; [flags_imply|]. apply weaker_bind; [|intros; apply weaker_refl].
  case_match; [|case_match; [by apply weaker_op|apply weaker_refl]].
  unfold fRequireMinimal. destruct (flag f SCRIPT_VERIFY_MINIMALDATA) eqn:E; [rewrite (more_flags _ E eq_refl); apply weaker_refl|].
  intros st' Hst. cbn. case_match; [|done]. destruct (lift _) as [[|[]]|]; cbn in Hst; done.
Qed.

Lemma weaker_loop v fuel (st : State) : legacy_too v → weaker (eval_loop f v fuel st) (eval_loop g v fuel st).
Proof.
  intros Hl. revert st. induction fuel as [|fuel IH]; intros st; cbn [eval_loop]; (destruct (pc st); [apply weaker_refl|]); [apply weaker_refl|].
  apply weaker_bind; [by apply weaker_step|intros; apply IH].
Qed.

Lemma weaker_EvalScript v s script d (c : C) :
  legacy_too v → weaker (EvalScript (V:=V) f v s script d c) (EvalScript (V:=V) g v s script d c).
Proof.
  intros Hv. unfold EvalScript. apply weaker_bind; [apply weaker_refl|intros _]. case_match; [apply weaker_refl|].
  apply weaker_bind; [|intros; apply weaker_refl]. intros st'. pose proof (weaker_loop v (length script) (start s script d c) Hv) as Hl.
  unfold catch_all. destruct (eval_loop g v (length script) (start s script d c)) as [[|st'']|[]]; intros Hst; simplify_eq; try done.
  by rewrite (Hl _ eq_refl).
Qed.

End Forks.

(** ** Spends *)
Section Spends.
Context `{ScriptPrimitives} `{PQLibrary} `{TaprootLibrary} {C : Type} `{!BaseSignatureChecker C}.
Context (f g : Z).
Hypothesis more_flags : ∀ x, flag f x = true → Z.land x SCRIPT_VERIFY_REJECT_LEGACY_SIGS = 0 → flag g x = true.
Hypothesis same_fips : flag f SCRIPT_VERIFY_SLHDSA_FIPS205 = flag g SCRIPT_VERIFY_SLHDSA_FIPS205.
Hypothesis ctv_not_hidden :
  flag f SCRIPT_VERIFY_DISCOURAGE_UPGRADABLE_NOPS = true →
  flag f SCRIPT_VERIFY_CHECKTEMPLATEVERIFY = flag g SCRIPT_VERIFY_CHECKTEMPLATEVERIFY.

Definition accepts {A} (m : exec A) : Prop := ∃ a, m = Ok (inr a).

Lemma accepts_weaker {A} (m m' : exec A) : weaker m m' → accepts m' → accepts m.
Proof. intros Hw [a Ha]. exists a. by apply Hw. Qed.

Lemma weaker_execute stack script v d (c : C) :
  legacy_too f g v →
  weaker (ExecuteWitnessScript f stack script v d c) (ExecuteWitnessScript g stack script v d c).
Proof.
  intros Hl. unfold ExecuteWitnessScript.
  assert (∀ k k' : exec C, weaker k k' →
    weaker (match (if bool_decide (v = TAPSCRIPT) || bool_decide (v = P2MR) then scan_op_success f v script else None) with
            | Some early => _ <~ early; ret c | None => k end)
           (match (if bool_decide (v = TAPSCRIPT) || bool_decide (v = P2MR) then scan_op_success g v script else None) with
            | Some early => _ <~ early; ret c | None => k' end)) as Hscan.
  { intros k k' Hk. destruct (bool_decide (v = TAPSCRIPT) || bool_decide (v = P2MR)); [|exact Hk]. unfold scan_op_success, over_ops. clear -more_flags Hk.
    generalize (length script) as n. intros n. revert script. induction n as [|n IH]; intros script; [exact Hk|].
    destruct script as [|b script]; [exact Hk|]. cbn [ops_loop]. destruct (GetScriptOp (b :: script)) as [[[ok op] data] pc'].
    destruct ok; [|apply weaker_fail]. destruct (if bool_decide (v = TAPSCRIPT) then _ else _); [|apply IH].
    intros c' Hc. destruct (flag g SCRIPT_VERIFY_DISCOURAGE_OP_SUCCESS) eqn:E; [done|].
    destruct (flag f SCRIPT_VERIFY_DISCOURAGE_OP_SUCCESS) eqn:Ef; [pose proof (more_flags _ Ef eq_refl); congruence|done]. }
  apply Hscan. do 2 (apply weaker_bind; [apply weaker_refl|intros _]).
  apply weaker_bind; [by apply weaker_EvalScript|intros; apply weaker_refl].
Qed.

Lemma weaker_accepts_execute stack script v d (c : C) :
  legacy_too f g v →
  accepts (ExecuteWitnessScript g stack script v d c) → accepts (ExecuteWitnessScript f stack script v d c).
Proof. intros Hl. by apply accepts_weaker, weaker_execute. Qed.

Lemma guard_accepts {A} (b b' : bool) e (m m' : exec A) :
  (b = true → b' = true) → (accepts m' → accepts m) → accepts (if b' then fail e else m') → accepts (if b then fail e else m).
Proof. intros Hb Hm. destruct b'; [by intros []|]. destruct b; [by specialize (Hb eq_refl)|done]. Qed.

Lemma bind_accepts {A B} (m : exec A) (k k' : A → exec B) :
  (∀ a, accepts (k' a) → accepts (k a)) → accepts (ebind m k') → accepts (ebind m k).
Proof. intros Hk. destruct m as [[]|]; [by intros []| |by intros []]. apply Hk. Qed.

Lemma accepts_ret {A} (a : A) : accepts (ret a).
Proof. by exists a. Qed.

Lemma p2mr_accepts witness stack program (c : C) : accepts (verify_p2mr g witness stack program c) → accepts (verify_p2mr f witness stack program c).
Proof.
  unfold verify_p2mr. case_match; [done|]. destruct (take_annex 3 stack) as [rest d].
  destruct rest as [|control [|script rest]]; [done|done|]. repeat (case_match; [done|]). apply weaker_accepts_execute. by left.
Qed.

Hypothesis legacy : flag f SCRIPT_VERIFY_REJECT_LEGACY_SIGS = true → flag g SCRIPT_VERIFY_REJECT_LEGACY_SIGS = true.

Lemma any_legacy v : legacy_too f g v.
Proof. by right. Qed.

Lemma program_accepts witness ver program p2sh (c : C) :
  accepts (VerifyWitnessProgram g witness ver program p2sh c) → accepts (VerifyWitnessProgram f witness ver program p2sh c).
Proof.
  unfold VerifyWitnessProgram, verify_v0, verify_taproot. case_match.
  { repeat case_match; try done; apply weaker_accepts_execute, any_legacy. }
  case_match.
  { destruct (flag f SCRIPT_VERIFY_TAPROOT) eqn:E; cbn [negb]; [|intros _; apply accepts_ret].
    rewrite (more_flags _ E eq_refl). cbn [negb]. case_match; [done|]. destruct (take_annex 2 (reverse witness)) as [stack d].
    destruct stack as [|control [|script stack]]; [done|done|]. case_match; [done|]. apply bind_accepts. intros ok.
    case_match; [done|]. case_match; [apply weaker_accepts_execute, any_legacy|]. apply guard_accepts; [intros E'; exact (more_flags _ E' eq_refl)|done]. }
  case_match; [apply p2mr_accepts|]. case_match; [done|]. apply guard_accepts; [intros E'; exact (more_flags _ E' eq_refl)|done].
Qed.

(** *** [VerifyScript] *)
Lemma bind_ok {A B} (m : exec A) (k : A → exec B) b :
  ebind m k = Ok (inr b) → ∃ a, m = Ok (inr a) ∧ k a = Ok (inr b).
Proof. destruct m as [[]|]; [done| |done]. by eauto. Qed.

Lemma fail_if_ok b e : fail_if b e = Ok (inr tt) → b = false.
Proof. by destruct b. Qed.

(** A script is not both a script hash and a witness program. *)
Lemma script_hash_no_program s : IsPayToScriptHash s = true → IsWitnessProgram s = Ok None.
Proof.
  unfold IsPayToScriptHash, IsWitnessProgram. intros [[[_ Hb]%andb_true_iff _]%andb_true_iff _]%andb_true_iff.
  apply Z.eqb_eq in Hb. rewrite Hb. by destruct (_ || _).
Qed.

Lemma witness_accepts witness spk malleated e p2sh stack (c : C) had stack' c' :
  flag f SCRIPT_VERIFY_WITNESS = true →
  verify_witness g witness spk malleated e p2sh stack c = Ok (inr (had, stack', c')) →
  ∃ c'', verify_witness f witness spk malleated e p2sh stack c = Ok (inr (had, stack', c'')).
Proof.
  intros Hf. unfold verify_witness. rewrite Hf, (more_flags _ Hf eq_refl). cbn [negb].
  intros (program & Hp & Hw)%bind_ok. rewrite Hp. cbn [ebind]. destruct program as [[version program]|]; [|unfold ret in *; by simplify_eq; eauto].
  destruct malleated; [done|]. apply bind_ok in Hw as (c1 & Hc1 & Hw).
  destruct (program_accepts witness version program p2sh c) as [c2 Hc2]; [by exists c1|]. rewrite Hc2. unfold ret in *. cbn in *. simplify_eq. eauto.
Qed.

Lemma no_witness_accepts witness spk malleated e p2sh stack (c : C) :
  flag f SCRIPT_VERIFY_WITNESS = false → verify_witness f witness spk malleated e p2sh stack c = ret (false, stack, c).
Proof. intros Hf. unfold verify_witness. by rewrite Hf. Qed.

Lemma p2sh_accepts witness sig copy had (c : C) had' stack' c' :
  verify_p2sh g witness sig copy had c = Ok (inr (had', stack', c')) →
  ∃ had'' stack'' c'', verify_p2sh f witness sig copy had c = Ok (inr (had'', stack'', c'')) ∧
    (flag f SCRIPT_VERIFY_WITNESS = true → had'' = had' ∧ stack'' = stack').
Proof.
  unfold verify_p2sh. case_match; [done|]. destruct copy as [|key stack]; [done|].
  intros ([[s1 d1] c1] & E1 & E2)%bind_ok. eapply weaker_EvalScript in E1; try done; [|apply any_legacy]. rewrite E1. cbn [ebind].
  apply bind_ok in E2 as ([] & Ht & E2). rewrite Ht. cbn [ebind]. apply bind_ok in E2 as ([[h2 s2] c2] & E2 & E3).
  destruct (flag f SCRIPT_VERIFY_WITNESS) eqn:Hf.
  - apply witness_accepts in E2 as [c3 E2]; [|done]. rewrite E2. unfold ret in *. cbn in *. simplify_eq. eexists _, _, _. by split.
  - rewrite no_witness_accepts by done. eexists _, _, _. by split.
Qed.

(** What [VerifyScript] asks of its flags. *)
Hypothesis clean_needs : flag f SCRIPT_VERIFY_CLEANSTACK = true → flag f SCRIPT_VERIFY_WITNESS = true.
Hypothesis witness_needs : flag f SCRIPT_VERIFY_WITNESS = true → flag f SCRIPT_VERIFY_P2SH = true.

(** The last checks of [VerifyScript]. *)
Definition last_checks (flags : Z) (witness : list (list Z)) (r : bool * list (list Z) * C) : exec C :=
  let '(hadWitness, stack, c) := r in
  _ <~ (if flag flags SCRIPT_VERIFY_CLEANSTACK then
          _ <~ lift (assert_ (flag flags SCRIPT_VERIFY_P2SH));
          _ <~ lift (assert_ (flag flags SCRIPT_VERIFY_WITNESS));
          fail_if (negb (zlen stack =? 1)) SCRIPT_ERR_CLEANSTACK
        else ret tt);
  if flag flags SCRIPT_VERIFY_WITNESS then
    _ <~ lift (assert_ (flag flags SCRIPT_VERIFY_P2SH));
    if negb hadWitness && negb (zlen witness =? 0) then fail SCRIPT_ERR_WITNESS_UNEXPECTED else ret c
  else ret c.

Lemma last_checks_accept witness had stack (c c' : C) :
  flag f SCRIPT_VERIFY_WITNESS = true → accepts (last_checks g witness (had, stack, c)) → accepts (last_checks f witness (had, stack, c')).
Proof.
  intros Hf. pose proof (witness_needs Hf) as Hp. unfold last_checks. rewrite Hf, Hp, (more_flags _ Hf eq_refl), (more_flags _ Hp eq_refl).
  intros [c1 ([] & E1 & E2)%bind_ok]. cbn [assert_ lift ebind ret] in *.
  destruct (negb had && negb (zlen witness =? 0)); [done|]. exists c'.
  destruct (flag f SCRIPT_VERIFY_CLEANSTACK) eqn:Hc; [|done]. rewrite (more_flags _ Hc eq_refl) in E1. by rewrite E1.
Qed.

Lemma last_checks_plain witness had stack (c : C) :
  flag f SCRIPT_VERIFY_WITNESS = false → last_checks f witness (had, stack, c) = ret c.
Proof.
  intros Hf. unfold last_checks. rewrite Hf. destruct (flag f SCRIPT_VERIFY_CLEANSTACK) eqn:Hc; [|done].
  pose proof (clean_needs eq_refl). congruence.
Qed.

Lemma program_part_accepts sig spk witness copy stack (c : C) :
  let part flags :=
    '(hadWitness, stack, c) <~ verify_witness flags witness spk (negb (zlen sig =? 0)) SCRIPT_ERR_WITNESS_MALLEATED false stack c;
    r <~ (if flag flags SCRIPT_VERIFY_P2SH && IsPayToScriptHash spk then verify_p2sh flags witness sig copy hadWitness c
          else ret (hadWitness, stack, c));
    last_checks flags witness r in
  accepts (part g) → accepts (part f).
Proof.
  intros part [c' ([[had stack1] c1] & Hw & ([[had2 stack2] c2] & Hp & Hl)%bind_ok)%bind_ok]. unfold part.
  destruct (Bool.bool_dec (flag f SCRIPT_VERIFY_WITNESS) true) as [Hf|Hf%not_true_is_false].
  - pose proof (witness_needs Hf) as Hs. rewrite Hs. rewrite (more_flags _ Hs eq_refl) in Hp. cbn [andb] in *.
    destruct (IsPayToScriptHash spk) eqn:Hh.
    + unfold verify_witness in *. rewrite Hf, (script_hash_no_program _ Hh). rewrite (more_flags _ Hf eq_refl), (script_hash_no_program _ Hh) in Hw.
      unfold ret in *. cbn in *. simplify_eq. apply p2sh_accepts in Hp as (h & s & c5 & -> & Hsame). destruct (Hsame Hf) as [-> ->]. cbn [ebind].
      eapply last_checks_accept; [done|]. by exists c'.
    + apply witness_accepts in Hw as [c3 ->]; [|done]. unfold ret in *. cbn in *. simplify_eq. eapply last_checks_accept; [done|]. by exists c'.
  - rewrite no_witness_accepts by done. cbn [ebind ret].
    destruct (flag f SCRIPT_VERIFY_P2SH && IsPayToScriptHash spk) eqn:Hs; [|cbn [ebind ret]; rewrite last_checks_plain by done; apply accepts_ret].
    apply andb_true_iff in Hs as [Hs Hh]. rewrite (more_flags _ Hs eq_refl), Hh in Hp. cbn [andb] in Hp.
    assert (had = false ∧ c1 = c) as [-> ->].
    { unfold verify_witness in Hw. rewrite (script_hash_no_program _ Hh) in Hw. unfold lift, ret in Hw.
      destruct (flag g SCRIPT_VERIFY_WITNESS); cbn in Hw; by simplify_eq. }
    apply p2sh_accepts in Hp as (h & s & c5 & -> & _). cbn [ebind]. rewrite last_checks_plain by done. apply accepts_ret.
Qed.

Lemma VerifyScript_accepts sig spk witness (c : C) :
  accepts (VerifyScript g sig spk witness c) → accepts (VerifyScript f sig spk witness c).
Proof.
  intros [c' Hg]. unfold VerifyScript in *.
  apply bind_ok in Hg as ([] & E1 & Hg). apply fail_if_ok in E1.
  assert (flag f SCRIPT_VERIFY_SIGPUSHONLY && negb (IsPushOnly sig) = false) as ->.
  { destruct (flag f SCRIPT_VERIFY_SIGPUSHONLY) eqn:E; [|done]. by rewrite (more_flags _ E eq_refl) in E1. }
  cbn [fail_if ebind ret]. apply bind_ok in Hg as ([[copy d1] c1] & E2 & Hg). eapply weaker_EvalScript in E2; try done; [|apply any_legacy]. rewrite E2. cbn [ebind].
  apply bind_ok in Hg as ([[stack d2] c2] & E3 & Hg). eapply weaker_EvalScript in E3; try done; [|apply any_legacy]. rewrite E3. cbn [ebind].
  apply bind_ok in Hg as ([] & Ht & Hg). rewrite Ht. cbn [ebind].
  apply (program_part_accepts sig spk witness copy stack c2). by exists c'.
Qed.

End Spends.

End flag_laws.
