(* ===== verification/P2mrSpend.v ===== *)
(** Spending Merkle-root outputs.

    What the interpreter does with the scripts that [script/pqm.cpp] builds: a
    key, and several keys with a threshold. The runs are read off the switch
    one instruction at a time. *)

From Stdlib Require Import ZArith Lia String.
From stdpp Require Import base list numbers tactics.
From S2P Require Import Prelude Sha256 Header Script ScriptLaws Pqm Interpreter InterpreterLaws VerifyScript ShieldedFrontier PqmLaws FlagLaws.
Import script script_laws pqm interpreter condition_stacks verify_script pqm_laws flag_laws.

Open Scope Z_scope.

Module p2mr_spend.

Section Runs.
Context `{ScriptPrimitives} `{PQLibrary} {C : Type} `{!BaseSignatureChecker C} {V : Type} `{!CondStack V}.
Context (flags : Z) (v : SigVersion).
Abbreviation State := (EvalState (C:=C) (V:=V)).

(** Run what is left of the script. *)
Definition run (st : State) : exec State := eval_loop flags v (length (pc st)) st.

Lemma ebind_ret {A} (m : exec A) : ebind m ret = m.
Proof. by destruct m as [[]|]. Qed.

Lemma eval_loop_enough n (st : State) : (length (pc st) ≤ n)%nat → eval_loop flags v n st = run st.
Proof.
  unfold run. remember (length (pc st)) as k eqn:Ek. revert n st Ek.
  induction k as [k IH] using lt_wf_ind. intros n st -> Hn.
  destruct (pc st) as [|b p] eqn:Ep; [destruct n; simpl; by rewrite Ep|].
  destruct n as [|n]; [simpl in Hn; lia|]. simpl length. cbn [eval_loop]. rewrite Ep.
  pose proof (eval_step_pc flags v st) as Hp. rewrite Ep in Hp. destruct (eval_step flags v st) as [[|st']|]; [done| |done].
  cbn [ebind]. simpl in Hp, Hn, IH. transitivity (run (next_position st')); [apply (IH (length (pc st')))|symmetry; apply (IH (length (pc st')))]; simpl; lia.
Qed.

Lemma run_end (st : State) : pc st = [] → run st = ret st.
Proof. intros E. unfold run. rewrite E. simpl. by rewrite E. Qed.

Lemma run_step (st : State) : pc st ≠ [] → run st = ebind (eval_step flags v st) (λ st', run (next_position st')).
Proof.
  intros Hne. unfold run at 1. destruct (pc st) as [|b p] eqn:Ep; [done|]. simpl length. cbn [eval_loop]. rewrite Ep.
  pose proof (eval_step_pc flags v st) as Hp. rewrite Ep in Hp. destruct (eval_step flags v st) as [[|st']|]; [done| |done].
  cbn [ebind]. simpl in Hp. apply eval_loop_enough. simpl. lia.
Qed.

(** The limits at the end of a turn. *)
Definition within_limits (st : State) : bool :=
  (zlen (stack st) + zlen (altstack st) <=? MAX_STACK_SIZE) && p2mr_stack_bytes_ok v st.

Definition limits (st : State) : exec State := if within_limits st then ret st else fail SCRIPT_ERR_STACK_SIZE.

Lemma limits_eq (st : State) :
  (if MAX_STACK_SIZE <? zlen (stack st) + zlen (altstack st) then fail SCRIPT_ERR_STACK_SIZE else
   if negb (p2mr_stack_bytes_ok v st) then fail SCRIPT_ERR_STACK_SIZE else ret st) = limits st.
Proof. unfold limits, within_limits. rewrite Z.ltb_antisym. destruct (_ <=? _); [|done]. by destruct (p2mr_stack_bytes_ok v st). Qed.

(** A push, minimal or not as the flags ask. *)
Lemma run_push (st : State) d rest :
  all_true (vfExec st) = true → pc st = push_data d ++ rest → zlen d ≤ MAX_SCRIPT_ELEMENT_SIZE ∨ v = P2MR ∧ zlen d ≤ MAX_P2MR_ELEMENT_SIZE →
  2 ≤ zlen d →
  run st = ebind (limits (with_stack (with_pc st rest) (d :: stack st))) (λ st', run (next_position st')).
Proof.
  intros Hc Hp Hsz Hm. rewrite run_step.
  2:{ rewrite Hp. unfold push_data, AppendDataSize. by repeat case_match. }
  f_equal. unfold eval_step. rewrite Hp, Hc.
  assert (zlen d < 2 ^ 16) as Hlt by (unfold MAX_SCRIPT_ELEMENT_SIZE, MAX_P2MR_ELEMENT_SIZE in Hsz; lia).
  destruct (GetScriptOp_push d rest) as (op & -> & Hop & Hmin); [lia|]. cbn [negb].
  replace (max_push_size v <? zlen d) with false
    by (symmetry; apply Z.ltb_ge; unfold max_push_size; destruct Hsz as [?|[-> ?]]; [case_bool_decide; unfold MAX_P2MR_ELEMENT_SIZE, MAX_SCRIPT_ELEMENT_SIZE in *; lia|done]).
  assert (op_le op OP_16 = true) as -> by (unfold op_le; simpl; lia). rewrite andb_false_r. cbn [andb].
  assert (is_disabled op = false ∧ op_is op OP_CODESEPARATOR = false ∧ op_le op OP_PUSHDATA4 = true) as (-> & -> & ->).
  { unfold op_is, op_le. destruct op; try done; simpl in Hop |- *; lia. }
  cbn [andb]. rewrite Hmin by done. unfold leave.
  replace (if fRequireMinimal flags then lift (Ok true) else ret true) with (ret true : exec bool) by by destruct (fRequireMinimal flags).
  cbn [ebind ret]. apply limits_eq.
Qed.

(** An instruction that is not a push. *)
Lemma run_op (st : State) b op rest :
  all_true (vfExec st) = true → pc st = b :: rest → 78 < b → to_opcode b = op → is_legacy v && negb (op_le op OP_16) = false →
  is_disabled op = false → op_is op OP_CODESEPARATOR = false → op_le op OP_PUSHDATA4 = false →
  run st = ebind (ebind (eval_op flags v op true (with_pc st rest)) limits) (λ st', run (next_position st')).
Proof.
  intros Hc Hp Hb Hop Hl Hd Hs Hpush. rewrite run_step by by rewrite Hp. f_equal. unfold eval_step. rewrite Hp, Hc. cbn [GetScriptOp].
  replace (b <=? 78) with false by lia. rewrite Hop, Hl, Hd, Hs, Hpush. cbn [negb andb orb].
  replace (max_push_size v <? zlen []) with false by (unfold max_push_size; by case_bool_decide).
  destruct (eval_op _ _ _ _ _) as [[|st']|]; [done| |done]. apply limits_eq.
Qed.

Lemma run_op_ok (st st' : State) b op rest :
  all_true (vfExec st) = true → pc st = b :: rest → 78 < b → to_opcode b = op → is_legacy v && negb (op_le op OP_16) = false →
  is_disabled op = false → op_is op OP_CODESEPARATOR = false → op_le op OP_PUSHDATA4 = false →
  run st = Ok (inr st') →
  ∃ st1, eval_op flags v op true (with_pc st rest) = Ok (inr st1) ∧ run (next_position st1) = Ok (inr st').
Proof.
  intros ???????? Hr. erewrite run_op in Hr by done. apply bind_ok in Hr as (st1 & (st2 & Hr1 & Hr2)%bind_ok & Hr3).
  unfold limits in Hr2. case_match; [|done]. unfold ret in Hr2. simplify_eq. eauto.
Qed.

Lemma run_push_ok (st st' : State) d rest :
  all_true (vfExec st) = true → pc st = push_data d ++ rest → zlen d ≤ MAX_SCRIPT_ELEMENT_SIZE ∨ v = P2MR ∧ zlen d ≤ MAX_P2MR_ELEMENT_SIZE →
  2 ≤ zlen d → run st = Ok (inr st') →
  run (next_position (with_stack (with_pc st rest) (d :: stack st))) = Ok (inr st').
Proof.
  intros ???? Hr. erewrite run_push in Hr by done. apply bind_ok in Hr as (st1 & Hr1 & Hr2).
  unfold limits in Hr1. case_match; [|done]. unfold ret in Hr1. by simplify_eq.
Qed.
End Runs.

(** ** Key pushes *)
Lemma BuildP2MRPubkeyPush_data algo key :
  zlen key = GetPQPubKeySize algo → BuildP2MRPubkeyPush algo key = push_data key.
Proof. intros Hk. unfold BuildP2MRPubkeyPush, push_data, AppendDataSize. rewrite Hk. by destruct algo. Qed.

Lemma BuildP2MRPubkeyPush_size algo key : BuildP2MRPubkeyPush algo key ≠ [] → zlen key = GetPQPubKeySize algo.
Proof. unfold BuildP2MRPubkeyPush. destruct (Z.eqb_spec (zlen key) (GetPQPubKeySize algo)); [done|]. cbn [negb]. by rewrite orb_true_r. Qed.

(** The code of the keys of a threshold script. *)
Fixpoint keys_code (first : bool) (keys : list pq_key) : list Z :=
  match keys with
  | [] => []
  | (algo, key) :: keys =>
      push_data key ++ opcode_value (if first then GetP2MRChecksigOpcode algo else GetP2MRChecksigAddOpcode algo) :: keys_code false keys
  end.

Definition key_sized (k : pq_key) : Prop := zlen k.2 = GetPQPubKeySize k.1.

Lemma multisig_keys_code first script keys script' :
  multisig_keys first script keys = Some script' → script' = script ++ keys_code first keys ∧ Forall key_sized keys.
Proof.
  revert first script. induction keys as [|[algo key] keys IH]; intros first script; cbn [multisig_keys keys_code].
  - intros [= <-]. by rewrite app_nil_r.
  - intros Hk. assert (BuildP2MRPubkeyPush algo key ≠ []) as Hne by by destruct (BuildP2MRPubkeyPush algo key).
    apply BuildP2MRPubkeyPush_size in Hne. rewrite (BuildP2MRPubkeyPush_data _ _ Hne) in Hk.
    destruct (push_data key) eqn:E; [done|]. rewrite <- E in Hk |- *.
    case_match; [done|]. case_match; [done|]. apply IH in Hk as [-> Hf]. rewrite <- !app_assoc. split; [done|by constructor].
Qed.

Lemma keys_unique_NoDup seen keys : keys_unique seen keys = true → NoDup keys ∧ Forall (λ k, k ∉ seen) keys.
Proof.
  revert seen. induction keys as [|k keys IH]; intros seen; cbn [keys_unique]; [by repeat constructor|].
  case_bool_decide as Hk; [done|]. intros [Hd Hn]%IH. rewrite list.Forall_forall in Hn. split.
  - constructor; [|done]. intros Hin. apply (Hn _ Hin). left.
  - constructor; [done|]. apply list.Forall_forall. intros x Hx Hs. apply (Hn _ Hx). by right.
Qed.

Lemma zlen_cons {A} (x : A) l : zlen (x :: l) = 1 + zlen l.
Proof. unfold zlen. cbn [length]. lia. Qed.

(** A small number is read back, minimal or not. *)
Lemma small_num n m : 0 ≤ n ≤ 16 → CScriptNum (serialize n) m nDefaultMaxNumSize = Ok n.
Proof.
  intros Hn. assert (n ∈ seqZ 0 17) as Hin by (apply elem_of_seqZ; lia). revert n Hn Hin.
  assert (Forall (λ n, ∀ m, CScriptNum (serialize n) m nDefaultMaxNumSize = Ok n) (seqZ 0 17)) as Hall.
  { repeat constructor; by intros []. }
  rewrite list.Forall_forall in Hall. intros. by apply Hall.
Qed.

Lemma bool_vch_serialize b : bool_vch b = serialize (Z.b2z b).
Proof. by destruct b. Qed.

Lemma small_CastToBool b : CastToBool (serialize (Z.b2z b)) = b.
Proof. by destruct b. Qed.

(** What the builder of a threshold script promises. *)
Lemma multisig_shape t keys :
  BuildP2MRMultisigScript t keys ≠ [] →
  BuildP2MRMultisigScript t keys = keys_code true keys ++ push_int64 t ++ push_opcode OP_NUMEQUAL ∧
  1 ≤ t ≤ zlen keys ∧ 2 ≤ zlen keys ≤ MAX_PQ_PUBKEYS_PER_MULTISIG ∧ Forall key_sized keys ∧ NoDup keys ∧
  zlen (BuildP2MRMultisigScript t keys) ≤ MAX_P2MR_SCRIPT_SIZE.
Proof.
  unfold BuildP2MRMultisigScript.
  destruct (Z.ltb_spec (zlen keys) 2); [done|]. destruct (Z.ltb_spec t 1); [done|]. destruct (Z.ltb_spec (zlen keys) t); [done|].
  cbn [orb] in *. destruct (Z.ltb_spec MAX_PQ_PUBKEYS_PER_MULTISIG (zlen keys)); [done|].
  destruct (keys_unique [] keys) eqn:Eu; [|done]. cbn [negb] in *. apply keys_unique_NoDup in Eu as [Hd _].
  destruct (multisig_keys true [] keys) as [script|] eqn:Ek; [|done]. apply multisig_keys_code in Ek as [-> Hk]. cbn [app] in *.
  destruct (Z.ltb_spec MAX_P2MR_SCRIPT_SIZE (zlen (keys_code true keys ++ push_int64 t ++ push_opcode OP_NUMEQUAL))); [done|].
  intros _. done.
Qed.

(** ** Thresholds *)
Section Multisig.
Context `{ScriptPrimitives} `{PQLibrary} {C : Type} `{!BaseSignatureChecker C}.
Context (flags : Z).
Abbreviation State := (EvalState (C:=C) (V:=ConditionStack)).
Abbreviation valtype := (list Z).

(** One signature per key, in the order of the keys: how many are valid. *)
Fixpoint tally (first : bool) (keys : list pq_key) (s : list valtype) (d : ScriptExecutionData) (n : Z) :
    exec (Z * list valtype * ScriptExecutionData) :=
  match keys, s with
  | [], _ => ret (n, s, d)
  | _ :: _, [] => fail SCRIPT_ERR_INVALID_STACK_OPERATION
  | (algo, key) :: keys, sig :: s =>
      '(ok, d) <~ pq_check algo (if first then checksig_weight algo else checksigadd_weight algo) sig key flags P2MR d;
      tally false keys s d (n + Z.b2z ok)
  end.

Definition executing (st : State) : Prop := all_true (vfExec st) = true ∧ altstack st = [].

Lemma sized_push key : key_sized key → 2 ≤ zlen key.2 ∧ zlen key.2 ≤ MAX_P2MR_ELEMENT_SIZE.
Proof. unfold key_sized. intros ->. by destruct (key.1). Qed.

(** One key after the first: its signature adds to the count. *)
Lemma add_turn (st st' : State) algo key rest n s :
  executing st → key_sized (algo, key) → pc st = push_data key ++ opcode_value (GetP2MRChecksigAddOpcode algo) :: rest →
  stack st = serialize n :: s → 0 ≤ n < 16 → run flags P2MR st = Ok (inr st') →
  ∃ sig s' ok d st1, s = sig :: s' ∧ pq_check algo (checksigadd_weight algo) sig key flags P2MR (execdata st) = Ok (inr (ok, d)) ∧
    executing st1 ∧ pc st1 = rest ∧ stack st1 = serialize (n + Z.b2z ok) :: s' ∧ execdata st1 = d ∧ checker st1 = checker st ∧
    vfExec st1 = vfExec st ∧ run flags P2MR st1 = Ok (inr st').
Proof.
  intros [Hc Ha] Hk Hp Hs Hn HR. destruct (sized_push _ Hk) as [Hk1 Hk2].
  eapply run_push_ok in HR; [|done|done|right; by split|done].
  eapply (run_op_ok _ _ _ _ _ (GetP2MRChecksigAddOpcode algo)) in HR as (st1 & HE & HR); [|done|done|by destruct algo..].
  assert (op_checksigadd_pq flags P2MR (GetP2MRChecksigAddOpcode algo)
    (with_pc (next_position (with_stack (with_pc st (opcode_value (GetP2MRChecksigAddOpcode algo) :: rest)) (key :: stack st))) rest) = Ok (inr st1)) as HE'
    by by destruct algo.
  clear HE. unfold op_checksigadd_pq in HE'. cbn [stack with_stack with_pc next_position] in HE'. rewrite Hs in HE'. cbn [negb bool_decide] in HE'.
  destruct s as [|sig s']; [done|]. rewrite small_num in HE' by lia. cbn [lift ret ebind] in HE'.
  replace (DecodeP2MRChecksigOpcode (GetP2MRChecksigAddOpcode algo)) with (Some (algo, true)) in HE' by by destruct algo.
  apply bind_ok in HE' as ([ok d] & Hq & HE'). unfold num_add in HE'.
  replace (int64_range (n + Z.b2z ok)) with true in HE' by (unfold int64_range; destruct ok; simpl; lia).
  cbn in HE'. unfold leave, ret in HE'. simplify_eq. exists sig, s', ok, d. eexists. split_and!; [done|exact Hq|..|exact HR]; done.
Qed.

(** The first key, or the only one. *)
Lemma first_turn (st st' : State) algo key rest :
  executing st → key_sized (algo, key) → pc st = push_data key ++ opcode_value (GetP2MRChecksigOpcode algo) :: rest →
  run flags P2MR st = Ok (inr st') →
  ∃ sig s' ok d st1, stack st = sig :: s' ∧ pq_check algo (checksig_weight algo) sig key flags P2MR (execdata st) = Ok (inr (ok, d)) ∧
    executing st1 ∧ pc st1 = rest ∧ stack st1 = serialize (Z.b2z ok) :: s' ∧ execdata st1 = d ∧ checker st1 = checker st ∧
    vfExec st1 = vfExec st ∧ run flags P2MR st1 = Ok (inr st').
Proof.
  intros [Hc Ha] Hk Hp HR. destruct (sized_push _ Hk) as [Hk1 Hk2].
  eapply run_push_ok in HR; [|done|done|right; by split|done].
  eapply (run_op_ok _ _ _ _ _ (GetP2MRChecksigOpcode algo)) in HR as (st1 & HE & HR); [|done|done|by destruct algo..].
  assert (op_checksig_pq flags P2MR (GetP2MRChecksigOpcode algo)
    (with_pc (next_position (with_stack (with_pc st (opcode_value (GetP2MRChecksigOpcode algo) :: rest)) (key :: stack st))) rest) = Ok (inr st1)) as HE'
    by by destruct algo.
  clear HE. unfold op_checksig_pq in HE'. cbn [stack with_stack with_pc next_position] in HE'. cbn [negb bool_decide] in HE'.
  destruct (stack st) as [|sig s']; [done|].
  replace (DecodeP2MRChecksigOpcode (GetP2MRChecksigOpcode algo)) with (Some (algo, false)) in HE' by by destruct algo.
  apply bind_ok in HE' as ([ok d] & Hq & HE'). rewrite bool_vch_serialize in HE'. unfold leave, ret in HE'. simplify_eq.
  exists sig, s', ok, d. eexists. split_and!; [done|exact Hq|..|exact HR]; done.
Qed.

Lemma keys_turns keys (st st' : State) rest n s :
  executing st → Forall key_sized keys → pc st = keys_code false keys ++ rest → stack st = serialize n :: s →
  0 ≤ n → n + zlen keys ≤ 16 → run flags P2MR st = Ok (inr st') →
  ∃ n' s' d st1, tally false keys s (execdata st) n = Ok (inr (n', s', d)) ∧ 0 ≤ n' ≤ n + zlen keys ∧
    executing st1 ∧ pc st1 = rest ∧ stack st1 = serialize n' :: s' ∧ execdata st1 = d ∧ checker st1 = checker st ∧
    vfExec st1 = vfExec st ∧ run flags P2MR st1 = Ok (inr st').
Proof.
  revert st n s. induction keys as [|[algo key] keys IH]; intros st n s He Hk Hp Hs Hn Hl HR.
  - exists n, s, (execdata st), st. change (zlen (@nil pq_key)) with 0 in *. split_and!; try done; lia.
  - apply list.Forall_cons in Hk as [Hk Hks]. cbn [keys_code] in Hp. rewrite <- app_assoc in Hp. rewrite zlen_cons in *.
    pose proof (zlen_nonneg keys).
    eapply add_turn in HR as (sig & s' & ok & d & st1 & -> & Hq & He1 & Hp1 & Hs1 & <- & <- & Hv & HR); [|done|done|exact Hp|done|lia].
    eapply IH in HR as (n' & s'' & d' & st2 & Ht & Hn' & HR); [|done..| |]; [|destruct ok; simpl; lia..].
    exists n', s'', d', st2. cbn [tally]. rewrite Hq. cbn [ebind]. rewrite Ht, <- Hv. split; [done|]. split; [destruct ok; simpl in *; lia|done].
Qed.

Lemma threshold_opcode t :
  1 ≤ t ≤ 16 →
  ∃ op, to_opcode (t + 80) = op ∧ op_le op OP_16 = true ∧ is_disabled op = false ∧ op_is op OP_CODESEPARATOR = false ∧
    op_le op OP_PUSHDATA4 = false ∧ ∀ st : State, eval_op flags P2MR op true st = leave st (serialize t :: stack st).
Proof.
  intros Ht. assert (t ∈ seqZ 1 16) as Hin by (apply elem_of_seqZ; lia).
  change (t ∈ [1; 2; 3; 4; 5; 6; 7; 8; 9; 10; 11; 12; 13; 14; 15; 16]) in Hin.
  repeat (apply elem_of_cons in Hin as [->|Hin]; [eexists; repeat split; reflexivity|]). by apply elem_of_nil in Hin.
Qed.

(** The comparison with the threshold. *)
Lemma threshold_turn (st st' : State) t n s :
  executing st → 1 ≤ t ≤ 16 → pc st = push_int64 t ++ push_opcode OP_NUMEQUAL → stack st = serialize n :: s → 0 ≤ n ≤ 16 →
  run flags P2MR st = Ok (inr st') →
  stack st' = serialize (Z.b2z (n =? t)) :: s ∧ execdata st' = execdata st ∧ checker st' = checker st ∧ vfExec st' = vfExec st.
Proof.
  intros [Hc Ha] Ht Hp Hs Hn HR. unfold push_int64 in Hp.
  replace ((t =? -1) || (1 <=? t) && (t <=? 16)) with true in Hp by lia. change (opcode_value OP_1 - 1) with 80 in Hp.
  destruct (threshold_opcode t Ht) as (op & Hop & H1' & H2' & H3' & H4' & Hev).
  eapply (run_op_ok _ _ _ _ _ op) in HR as (st1 & HE & HR); [|done|exact Hp|lia|done..]. rewrite Hev in HE. unfold leave, ret in HE. simplify_eq.
  eapply (run_op_ok _ _ _ _ _ OP_NUMEQUAL) in HR as (st1 & HE & HR); [|done..].
  cbn [eval_op] in HE. unfold op_binary in HE. cbn [stack with_stack with_pc next_position] in HE. rewrite Hs in HE. unfold num in HE.
  rewrite !small_num in HE by lia. cbn in HE. unfold push_verified, leave, ret in HE. cbn in HE. simplify_eq.
  rewrite run_end in HR by done. unfold ret in HR. simplify_eq. done.
Qed.

(** The whole script: one signature per key was taken, and what is left says
    whether as many as the threshold are valid. *)
Lemma multisig_sound t keys s d c s' d' c' :
  BuildP2MRMultisigScript t keys ≠ [] →
  EvalScript (V:=ConditionStack) flags P2MR s (BuildP2MRMultisigScript t keys) d c = Ok (inr (s', d', c')) →
  ∃ n rest, tally true keys s (set_codeseparator d 0xffffffff) 0 = Ok (inr (n, rest, d')) ∧
    s' = serialize (Z.b2z (n =? t)) :: rest ∧ c' = c.
Proof.
  intros (-> & Ht & Hks & Hk & _ & _)%multisig_shape He. unfold MAX_PQ_PUBKEYS_PER_MULTISIG in Hks.
  unfold EvalScript in He. apply bind_ok in He as ([] & _ & He). cbn [is_legacy] in He. apply bind_ok in He as (st' & HR & He).
  assert (run flags P2MR (start (V:=ConditionStack) s (keys_code true keys ++ push_int64 t ++ push_opcode OP_NUMEQUAL) d c) = Ok (inr st')) as HR'.
  { unfold catch_all in HR. unfold run. cbn [pc start]. by repeat case_match. }
  clear HR. destruct keys as [|[algo key] keys]; [by destruct Hks|]. apply list.Forall_cons in Hk as [Hk1 Hk].
  rewrite zlen_cons in *. cbn [keys_code] in HR'. rewrite <- app_assoc in HR'. cbn [app] in HR'. pose proof (zlen_nonneg keys).
  eapply first_turn in HR' as (sig & s1 & ok & d1 & st1 & Hs & Hq & He1 & Hp1 & Hs1 & <- & Hc1 & Hv1 & HR); [|done|done|done].
  eapply keys_turns in HR as (n & s2 & d2 & st2 & Hta & Hn & He2 & Hp2 & Hs2 & <- & Hc2 & Hv2 & HR);
    [|done|done|exact Hp1|exact Hs1|destruct ok; simpl; lia..].
  eapply threshold_turn in HR as (Hs3 & Hd3 & Hc3 & Hv3); [|done| |exact Hp2|exact Hs2|destruct ok; simpl in *; lia]; [|lia].
  case_match; [done|]. unfold ret in He. simplify_eq. cbn in Hs, Hq. subst s. exists n, s2. cbn [tally]. rewrite Hq. cbn [ebind].
  change (0 + Z.b2z ok) with (Z.b2z ok). rewrite Hta, Hs3, Hd3, Hc3, Hc2, Hc1. done.
Qed.

(** *** Enough signatures are enough *)
Lemma small_size n : 0 ≤ n ≤ 16 → 0 ≤ zlen (serialize n) ≤ 1.
Proof.
  intros Hn. assert (n ∈ seqZ 0 17) as Hin by (apply elem_of_seqZ; lia).
  change (n ∈ [0; 1; 2; 3; 4; 5; 6; 7; 8; 9; 10; 11; 12; 13; 14; 15; 16]) in Hin.
  repeat (apply elem_of_cons in Hin as [->|Hin]; [done|]). by apply elem_of_nil in Hin.
Qed.

Lemma stack_bytes_pos (s : list valtype) : 0 ≤ stack_bytes s.
Proof. induction s as [|x s IH]; [done|]. cbn [stack_bytes]. pose proof (zlen_nonneg x). lia. Qed.

(** Room for the keys and the count on top of [s]. *)
Definition room (s : list valtype) : Prop := zlen s + 2 ≤ MAX_STACK_SIZE ∧ stack_bytes s + 1400 ≤ MAX_P2MR_STACK_BYTES.

Lemma room_tail sig s : room (sig :: s) → room s.
Proof. unfold room. rewrite zlen_cons. cbn [stack_bytes]. pose proof (zlen_nonneg sig). lia. Qed.

Lemma limits_room (st : State) :
  altstack st = [] → zlen (stack st) ≤ MAX_STACK_SIZE → stack_bytes (stack st) ≤ MAX_P2MR_STACK_BYTES → limits P2MR st = ret st.
Proof.
  intros Ha Hl Hb. unfold limits, within_limits, p2mr_stack_bytes_ok. rewrite Ha. cbn [stack_bytes].
  change (zlen (@nil valtype)) with 0. rewrite !Z.add_0_r. replace (zlen (stack st) <=? MAX_STACK_SIZE) with true by lia.
  replace (stack_bytes (stack st) <=? MAX_P2MR_STACK_BYTES) with true by lia. by rewrite orb_true_r.
Qed.

Lemma sized_bytes key : key_sized key → zlen key.2 ≤ 1312.
Proof. unfold key_sized. intros ->. by destruct (key.1). Qed.

Lemma add_turn_runs (st : State) algo key rest n sig s ok d :
  executing st → key_sized (algo, key) → pc st = push_data key ++ opcode_value (GetP2MRChecksigAddOpcode algo) :: rest →
  stack st = serialize n :: sig :: s → 0 ≤ n < 16 → room (sig :: s) →
  pq_check algo (checksigadd_weight algo) sig key flags P2MR (execdata st) = Ok (inr (ok, d)) →
  ∃ st1, executing st1 ∧ pc st1 = rest ∧ stack st1 = serialize (n + Z.b2z ok) :: s ∧ execdata st1 = d ∧ checker st1 = checker st ∧
    vfExec st1 = vfExec st ∧ run flags P2MR st = run flags P2MR st1.
Proof.
  intros [Hc Ha] Hk Hp Hs Hn Hroom Hq. destruct (sized_push _ Hk) as [Hk1 Hk2]. pose proof (sized_bytes _ Hk) as Hk3. cbn in Hk1, Hk2, Hk3.
  pose proof (small_size n ltac:(lia)) as Hsz. pose proof (small_size (n + Z.b2z ok) ltac:(destruct ok; simpl; lia)) as Hsz'.
  destruct (room_tail _ _ Hroom) as [Hr1 Hr2]. unfold room in Hroom. rewrite zlen_cons in Hroom. cbn [stack_bytes] in Hroom.
  erewrite run_push; [|done|exact Hp|right; by split|done].
  rewrite limits_room; [|done|cbn; rewrite Hs, !zlen_cons; lia|cbn; rewrite Hs; cbn [stack_bytes]; lia]. cbn [ebind ret].
  erewrite (run_op _ _ _ _ (GetP2MRChecksigAddOpcode algo)); [|done|done|by destruct algo..].
  set (st0 := with_pc (next_position _) _).
  assert (eval_op flags P2MR (GetP2MRChecksigAddOpcode algo) true st0 = leave (with_execdata st0 d) (serialize (n + Z.b2z ok) :: s)) as ->.
  { transitivity (op_checksigadd_pq flags P2MR (GetP2MRChecksigAddOpcode algo) st0); [by destruct algo|].
    unfold op_checksigadd_pq. cbn [stack with_stack with_pc next_position st0]. rewrite Hs, bool_decide_eq_true_2 by done. cbn [negb].
    rewrite small_num by lia. cbn [lift ret ebind].
    replace (DecodeP2MRChecksigOpcode (GetP2MRChecksigAddOpcode algo)) with (Some (algo, true)) by by destruct algo.
    cbn [execdata with_pc next_position with_stack st0]. rewrite Hq. cbn [ebind]. unfold num_add.
    by replace (int64_range (n + Z.b2z ok)) with true by (unfold int64_range; destruct ok; simpl; lia). }
  unfold leave. cbn [ebind ret]. rewrite limits_room; [|done|cbn; rewrite zlen_cons; lia|cbn [stack with_stack stack_bytes]; lia].
  cbn [ebind ret]. eexists. split_and!; [..|reflexivity]; done.
Qed.

Lemma first_turn_runs (st : State) algo key rest sig s ok d :
  executing st → key_sized (algo, key) → pc st = push_data key ++ opcode_value (GetP2MRChecksigOpcode algo) :: rest →
  stack st = sig :: s → room (sig :: s) →
  pq_check algo (checksig_weight algo) sig key flags P2MR (execdata st) = Ok (inr (ok, d)) →
  ∃ st1, executing st1 ∧ pc st1 = rest ∧ stack st1 = serialize (Z.b2z ok) :: s ∧ execdata st1 = d ∧ checker st1 = checker st ∧
    vfExec st1 = vfExec st ∧ run flags P2MR st = run flags P2MR st1.
Proof.
  intros [Hc Ha] Hk Hp Hs Hroom Hq. destruct (sized_push _ Hk) as [Hk1 Hk2]. pose proof (sized_bytes _ Hk) as Hk3. cbn in Hk1, Hk2, Hk3.
  pose proof (small_size (Z.b2z ok) ltac:(destruct ok; simpl; lia)) as Hsz'.
  destruct (room_tail _ _ Hroom) as [Hr1 Hr2]. unfold room in Hroom. rewrite zlen_cons in Hroom. cbn [stack_bytes] in Hroom.
  erewrite run_push; [|done|exact Hp|right; by split|done].
  rewrite limits_room; [|done|cbn; rewrite Hs, !zlen_cons; lia|cbn; rewrite Hs; cbn [stack_bytes]; lia]. cbn [ebind ret].
  erewrite (run_op _ _ _ _ (GetP2MRChecksigOpcode algo)); [|done|done|by destruct algo..].
  set (st0 := with_pc (next_position _) _).
  assert (eval_op flags P2MR (GetP2MRChecksigOpcode algo) true st0 = leave (with_execdata st0 d) (serialize (Z.b2z ok) :: s)) as ->.
  { transitivity (op_checksig_pq flags P2MR (GetP2MRChecksigOpcode algo) st0); [by destruct algo|].
    unfold op_checksig_pq. cbn [stack with_stack with_pc next_position st0]. rewrite Hs, bool_decide_eq_true_2 by done. cbn [negb].
    replace (DecodeP2MRChecksigOpcode (GetP2MRChecksigOpcode algo)) with (Some (algo, false)) by by destruct algo.
    cbn [execdata with_pc next_position with_stack st0]. rewrite Hq. cbn [ebind]. by rewrite bool_vch_serialize. }
  unfold leave. cbn [ebind ret]. rewrite limits_room; [|done|cbn; rewrite zlen_cons; lia|cbn [stack with_stack stack_bytes]; lia].
  cbn [ebind ret]. eexists. split_and!; [..|reflexivity]; done.
Qed.

Lemma keys_run keys (st : State) rest n s n' s' d :
  executing st → Forall key_sized keys → pc st = keys_code false keys ++ rest → stack st = serialize n :: s →
  0 ≤ n → n + zlen keys ≤ 16 → room s → tally false keys s (execdata st) n = Ok (inr (n', s', d)) →
  ∃ st1, 0 ≤ n' ≤ n + zlen keys ∧ executing st1 ∧ pc st1 = rest ∧ stack st1 = serialize n' :: s' ∧ execdata st1 = d ∧
    checker st1 = checker st ∧ vfExec st1 = vfExec st ∧ room s' ∧ run flags P2MR st = run flags P2MR st1.
Proof.
  revert st n s. induction keys as [|[algo key] keys IH]; intros st n s He Hk Hp Hs Hn Hl Hroom Ht.
  - change (zlen (@nil pq_key)) with 0 in *. cbn in Ht. assert (n' = n ∧ s' = s ∧ d = execdata st) as (-> & -> & ->) by (destruct s; unfold ret in Ht; by simplify_eq).
    exists st. split; [lia|done].
  - destruct s as [|sig s]; [done|]. cbn [tally] in Ht. apply bind_ok in Ht as ([ok d1] & Hq & Ht).
    apply list.Forall_cons in Hk as [Hk Hks]. cbn [keys_code] in Hp. rewrite <- app_assoc in Hp. rewrite zlen_cons in *. pose proof (zlen_nonneg keys).
    edestruct add_turn_runs as (st1 & He1 & Hp1 & Hs1 & Hd1 & Hc1 & Hv1 & ->); [exact He|exact Hk|exact Hp|exact Hs|lia|done|exact Hq|].
    apply room_tail in Hroom. rewrite <- Hd1 in Ht.
    edestruct IH as (st2 & Hn2 & He2 & Hp2 & Hs2 & Hd2 & Hc2 & Hv2 & Hr2 & ->); [exact He1|done|exact Hp1|exact Hs1| | |done|exact Ht|]; [destruct ok; simpl; lia..|].
    exists st2. rewrite <- Hc1, <- Hv1. split; [destruct ok; simpl in *; lia|done].
Qed.

Lemma threshold_runs (st : State) t n s :
  executing st → 1 ≤ t ≤ 16 → pc st = push_int64 t ++ push_opcode OP_NUMEQUAL → stack st = serialize n :: s → 0 ≤ n ≤ 16 → room s →
  ∃ st1, run flags P2MR st = ret st1 ∧ stack st1 = serialize (Z.b2z (n =? t)) :: s ∧ execdata st1 = execdata st ∧
    checker st1 = checker st ∧ vfExec st1 = vfExec st.
Proof.
  intros [Hc Ha] Ht Hp Hs Hn [Hr1 Hr2]. unfold push_int64 in Hp.
  pose proof (small_size n ltac:(lia)). pose proof (small_size t ltac:(lia)). pose proof (small_size (Z.b2z (n =? t)) ltac:(destruct (n =? t); simpl; lia)).
  replace ((t =? -1) || (1 <=? t) && (t <=? 16)) with true in Hp by lia. change (opcode_value OP_1 - 1) with 80 in Hp.
  destruct (threshold_opcode t Ht) as (op & Hop & H1' & H2' & H3' & H4' & Hev).
  rewrite (run_op _ _ st (t + 80) op (push_opcode OP_NUMEQUAL)); [|done|exact Hp|lia|done..].
  rewrite Hev. unfold leave. cbn [ebind ret].
  rewrite limits_room; [|done|cbn; rewrite Hs, !zlen_cons; lia|cbn; rewrite Hs; cbn [stack_bytes]; lia]. cbn [ebind ret].
  erewrite (run_op _ _ _ _ OP_NUMEQUAL); [|done..]. cbn [eval_op]. unfold op_binary. cbn [stack with_stack with_pc next_position].
  rewrite Hs. unfold num. rewrite !small_num by lia. cbn [lift ret ebind binary]. unfold push_verified, leave. cbn [op_is opcode_value Z.eqb Pos.eqb ebind ret].
  rewrite limits_room; [|done|cbn; rewrite zlen_cons; lia|cbn [stack with_stack stack_bytes]; lia]. cbn [ebind ret].
  rewrite run_end by done. eexists. split; [reflexivity|]. done.
Qed.

(** A tally that reaches its end is what the script computes. *)
Lemma multisig_complete t keys s d c n rest d' :
  BuildP2MRMultisigScript t keys ≠ [] → room s →
  tally true keys s (set_codeseparator d 0xffffffff) 0 = Ok (inr (n, rest, d')) →
  EvalScript (V:=ConditionStack) flags P2MR s (BuildP2MRMultisigScript t keys) d c =
  Ok (inr (serialize (Z.b2z (n =? t)) :: rest, d', c)).
Proof.
  intros (-> & Ht & Hks & Hk & _ & _)%multisig_shape Hroom Htl. unfold MAX_PQ_PUBKEYS_PER_MULTISIG in Hks. unfold EvalScript.
  cbn [lift assert_ ebind is_legacy].
  set (script := keys_code true keys ++ _).
  assert (∃ st', run flags P2MR (start (V:=ConditionStack) s script d c) = ret st' ∧ stack st' = serialize (Z.b2z (n =? t)) :: rest ∧
    execdata st' = d' ∧ checker st' = c ∧ vfExec st' = cond_new) as (st' & Hrun & <- & <- & <- & Hv).
  - destruct keys as [|[algo key] keys]; [by destruct Hks|]. apply list.Forall_cons in Hk as [Hk1 Hk]. rewrite zlen_cons in *. pose proof (zlen_nonneg keys).
    destruct s as [|sig s]; [done|]. cbn [tally] in Htl. apply bind_ok in Htl as ([ok d1] & Hq & Htl).
    destruct (first_turn_runs (start (sig :: s) script d c) algo key (keys_code false keys ++ push_int64 t ++ push_opcode OP_NUMEQUAL) sig s ok d1)
      as (st1 & He1 & Hp1 & Hs1 & Hd1 & Hc1 & Hv1 & ->); [done|done| |done|done|done|].
    { unfold script. cbn [pc start keys_code]. by rewrite <- app_assoc. }
    apply room_tail in Hroom. rewrite <- Hd1 in Htl. change (0 + Z.b2z ok) with (Z.b2z ok) in Htl.
    edestruct keys_run as (st2 & Hn2 & He2 & Hp2 & Hs2 & Hd2 & Hc2 & Hv2 & Hr2 & ->); [exact He1|exact Hk|exact Hp1|exact Hs1|..|exact Hroom|exact Htl|];
      [destruct ok; simpl; lia..|].
    edestruct (threshold_runs st2) as (st3 & -> & Hs3 & Hd3 & Hc3 & Hv3); [exact He2| |exact Hp2|exact Hs2| |exact Hr2|]; [lia|destruct ok; simpl in *; lia|].
    exists st3. rewrite Hs3, Hd3, Hc3, Hv3, Hc2, Hv2, Hc1, Hv1. done.
  - unfold run in Hrun. cbn [pc start] in Hrun. rewrite Hrun. cbn [catch_all ret ebind]. by rewrite Hv.
Qed.
End Multisig.

(** ** Outputs *)
Section Outputs.
Context `{ScriptPrimitives} `{PQLibrary} `{TaprootLibrary} {C : Type} `{!BaseSignatureChecker C}.
Context (flags : Z).

Definition p2mr_output (program : list Z) : list Z := opcode_value OP_2 :: push_data program.

Lemma p2mr_output_program program : zlen program = 32 → IsWitnessProgram (p2mr_output program) = Ok (Some (2, program)).
Proof.
  intros Hp. unfold p2mr_output, push_data, AppendDataSize. rewrite Hp. cbn [app Z.ltb Z.compare Pos.compare Pos.compare_cont].
  unfold IsWitnessProgram. rewrite !zlen_cons, Hp. done.
Qed.

(** The script of the output pushes its version and its program. *)
Lemma p2mr_output_eval program d (c : C) :
  zlen program = 32 →
  EvalScript (V:=ConditionStack) flags BASE [] (p2mr_output program) d c =
  Ok (inr ([program; [2]], set_codeseparator d 0xffffffff, c)).
Proof.
  intros Hp. unfold EvalScript. cbn [ebind lift assert_]. unfold p2mr_output at 1.
  assert (zlen (push_data program) = 33) as Hpush by (unfold push_data, AppendDataSize; rewrite Hp; cbn; rewrite zlen_cons; lia).
  rewrite zlen_cons, Hpush. cbn [ebind].
  change (eval_loop flags BASE (length (p2mr_output program)) (start [] (p2mr_output program) d c))
    with (run flags BASE (start (V:=ConditionStack) [] (p2mr_output program) d c)).
  rewrite (run_op flags BASE _ (opcode_value OP_2) OP_2 (push_data program)) by done. cbn [eval_op].
  unfold leave. cbn [ebind ret]. set (st1 := with_stack _ _). assert (limits BASE st1 = ret st1) as -> by reflexivity. cbn [ebind ret].
  rewrite (run_push flags BASE _ program []); [|done|cbn; by rewrite app_nil_r|left; by rewrite Hp|by rewrite Hp].
  set (st2 := with_stack _ _). assert (limits BASE st2 = ret st2) as -> by reflexivity. cbn [ebind ret].
  rewrite run_end by done. done.
Qed.

Lemma VerifyScript_p2mr sig program witness (c : C) :
  zlen program = 32 → flag flags SCRIPT_VERIFY_WITNESS = true → flag flags SCRIPT_VERIFY_P2SH = true →
  accepts (VerifyScript flags sig (p2mr_output program) witness c) ↔
  sig = [] ∧ CastToBool program = true ∧ accepts (verify_p2mr flags witness (reverse witness) program c).
Proof.
  intros Hp Hw Hs.
  assert (IsPayToScriptHash (p2mr_output program) = false) as Hh
    by (unfold IsPayToScriptHash, p2mr_output; rewrite zlen_cons; unfold push_data; rewrite zlen_app, Hp; done).
  assert (∀ s (c' : C), verify_witness flags witness (p2mr_output program) (negb (zlen sig =? 0)) SCRIPT_ERR_WITNESS_MALLEATED false s c' =
    if zlen sig =? 0 then c'' <~ verify_p2mr flags witness (reverse witness) program c'; ret (true, resize1 s, c'') else fail SCRIPT_ERR_WITNESS_MALLEATED) as Hwit.
  { intros s c'. unfold verify_witness. rewrite Hw, p2mr_output_program by done. cbn [negb lift ret ebind].
    destruct (zlen sig =? 0); [|done]. cbn [negb]. unfold VerifyWitnessProgram. by rewrite Hp. }
  assert (EvalScript (V:=ConditionStack) flags BASE [] [] execdata_new c = Ok (inr ([], set_codeseparator execdata_new 0xffffffff, c))) as Hnil by done.
  split.
  - intros [c' Ha]. unfold VerifyScript in Ha. apply bind_ok in Ha as ([] & _ & Ha). apply bind_ok in Ha as ([[s1 d1] c1] & He1 & Ha).
    apply bind_ok in Ha as ([[s2 d2] c2] & He2 & Ha). apply bind_ok in Ha as ([] & Ht & Ha). rewrite Hwit in Ha.
    destruct sig as [|b sig]; [|done]. rewrite Hnil in He1. simplify_eq.
    rewrite p2mr_output_eval in He2 by done. simplify_eq. cbn in Ht. destruct (CastToBool program); [|done]. split_and!; [done..|].
    destruct (verify_p2mr flags witness (reverse witness) program c2) as [[|c3]|]; [done|by exists c3|done].
  - intros (-> & Ht & [c' Ha]). exists c'. unfold VerifyScript. rewrite andb_false_r. cbn [fail_if ebind].
    rewrite Hnil. cbn [ebind]. rewrite p2mr_output_eval by done. cbn [ebind top_is_true]. rewrite Ht. cbn [ebind ret]. rewrite Hwit. cbn [zlen length Z.of_nat Z.eqb].
    rewrite Ha. cbn [ebind ret]. rewrite Hs, Hh. cbn [andb ebind ret]. rewrite Hw. by destruct (flag flags SCRIPT_VERIFY_CLEANSTACK).
Qed.

Definition leaf_of (script : list Z) : list Z := ComputeP2MRLeafHash P2MR_LEAF_VERSION script.

(** What a spend starts with: the leaf, the budget and no cached output. *)
Definition leaf_data (script : list Z) (witness : list (list Z)) (d0 : ScriptExecutionData) : ScriptExecutionData :=
  set_budget (set_leaf d0 (leaf_of script)) (witness_size witness + VALIDATION_WEIGHT_OFFSET).

Lemma verify_p2mr_inv witness stack program (c : C) :
  accepts (verify_p2mr flags witness stack program c) →
  ∃ control script stack' d0, take_annex 3 stack = (control :: script :: stack', d0) ∧ zlen script ≤ MAX_P2MR_SCRIPT_SIZE ∧
    VerifyP2MRCommitment control program (leaf_of script) = true ∧
    accepts (ExecuteWitnessScript flags stack' script P2MR (leaf_data script witness d0) c).
Proof.
  unfold verify_p2mr. case_match; [by intros []|]. destruct (take_annex 3 stack) as [rest d0].
  destruct rest as [|control [|script rest]]; [by intros []..|].
  destruct (Z.ltb_spec MAX_P2MR_SCRIPT_SIZE (zlen script)); [by intros []|]. case_match; [by intros []|].
  destruct (Z.eqb_spec (Z.land (znth control 0) P2MR_LEAF_MASK) P2MR_LEAF_VERSION) as [->|]; [|by intros []]. cbn [negb].
  destruct (VerifyP2MRCommitment control program _) eqn:Hv; [|by intros []]. intros Ha. by exists control, script, rest, d0.
Qed.

Lemma commits_to_size scripts : scripts ≠ [] → zlen (commits_to P2MR_LEAF_VERSION scripts) = 32.
Proof.
  intros Hne. destruct (root_tree (ComputeP2MRLeafHash P2MR_LEAF_VERSION <$> scripts) (length scripts)) as (t & Ht & Hl & _).
  - by destruct scripts.
  - rewrite length_fmap. pose proof (Nat.pow_gt_lin_r 2 (length scripts)). lia.
  - unfold commits_to. rewrite Ht. unfold zlen. rewrite tree_hash_length; [done|]. rewrite Hl.
    apply Forall_fmap, list.Forall_forall. intros; apply leaf_hash_length.
Qed.

(** An output that commits to scripts is spent through one of them. *)
Lemma p2mr_spend_inv scripts sig witness (c : C) :
  scripts ≠ [] → Forall (λ s, zlen s < 2 ^ 64) scripts → flag flags SCRIPT_VERIFY_WITNESS = true → flag flags SCRIPT_VERIFY_P2SH = true →
  accepts (VerifyScript flags sig (p2mr_output (commits_to P2MR_LEAF_VERSION scripts)) witness c) →
  (∃ control script stack d0, script ∈ scripts ∧ take_annex 3 (reverse witness) = (control :: script :: stack, d0) ∧
     accepts (ExecuteWitnessScript flags stack script P2MR (leaf_data script witness d0) c)) ∨ sha_collision.
Proof.
  intros Hne Hs Hw Hp Ha. pose proof (commits_to_size scripts Hne) as H32.
  remember (commits_to P2MR_LEAF_VERSION scripts) as program eqn:Ep.
  destruct (proj1 (VerifyScript_p2mr _ _ _ _ H32 Hw Hp) Ha) as (_ & _ & Ha'). clear Ha. subst program.
  apply verify_p2mr_inv in Ha' as (control & script & stack & d0 & Ht & Hsz & Hv & Ha).
  assert (length scripts ≤ 2 ^ length scripts)%nat as Hk by (pose proof (Nat.pow_gt_lin_r 2 (length scripts)); lia).
  assert (zlen script < 2 ^ 64) as Hsz' by (unfold MAX_P2MR_SCRIPT_SIZE in Hsz; lia).
  destruct (commitment_sound _ _ _ _ _ _ Hne Hk Hs Hsz' Hv) as [[_ Hin]|Hc]; [left|by right].
  by exists control, script, stack, d0.
Qed.

(** Each of the scripts can be reached: what satisfies it spends the output. *)
Lemma p2mr_spend_intro scripts script k :
  script ∈ scripts → (length scripts ≤ 2 ^ k)%nat → (k ≤ 128)%nat → zlen script ≤ MAX_P2MR_SCRIPT_SIZE →
  CastToBool (commits_to P2MR_LEAF_VERSION scripts) = true → flag flags SCRIPT_VERIFY_WITNESS = true → flag flags SCRIPT_VERIFY_P2SH = true →
  ∃ control d0, zlen control ≤ P2MR_CONTROL_MAX_SIZE ∧ ∀ stack (c : C),
    let witness := reverse (control :: script :: stack) in
    accepts (ExecuteWitnessScript flags stack script P2MR (leaf_data script witness d0) c) →
    accepts (VerifyScript flags [] (p2mr_output (commits_to P2MR_LEAF_VERSION scripts)) witness c).
Proof.
  intros Hin Hl Hk Hsz Hcast Hw Hp. destruct (commitment_complete P2MR_LEAF_VERSION scripts script k Hk Hl Hin) as (path & Hpath & Hmax & Hv).
  pose proof (commits_to_size scripts ltac:(by intros ->; apply elem_of_nil in Hin)) as H32.
  apply VerifyP2MRCommitment_spec in Hv as Hspec. destruct Hspec as (_ & [Hmin _] & Hmod & _).
  set (control := make_control P2MR_LEAF_VERSION path) in *. remember (commits_to P2MR_LEAF_VERSION scripts) as program eqn:Ep. clear Ep.
  exists control, (snd (take_annex 3 [control])). split; [done|]. intros stack c witness Ha.
  apply (proj2 (VerifyScript_p2mr _ _ _ _ H32 Hw Hp)). split; [done|]. split; [done|]. unfold witness at 2. rewrite reverse_involutive.
  unfold verify_p2mr. replace (zlen (control :: script :: stack) <? 2) with false by (rewrite !zlen_cons; pose proof (zlen_nonneg stack); lia).
  assert (take_annex 3 (control :: script :: stack) = (control :: script :: stack, snd (take_annex 3 [control]))) as ->
    by (unfold take_annex, control, make_control; rewrite !andb_false_r; done).
  replace (MAX_P2MR_SCRIPT_SIZE <? zlen script) with false by lia.
  assert (sized_control control P2MR_CONTROL_BASE_SIZE P2MR_CONTROL_NODE_SIZE P2MR_CONTROL_MAX_SIZE = true) as ->
    by (unfold sized_control, P2MR_CONTROL_BASE_SIZE, P2MR_CONTROL_NODE_SIZE; lia).
  replace (Z.land (znth control 0) P2MR_LEAF_MASK) with P2MR_LEAF_VERSION by reflexivity. cbn [negb Z.eqb].
  rewrite Z.eqb_refl, Hv. cbn [negb]. exact Ha.
Qed.
End Outputs.

End p2mr_spend.
