(* ===== verification/P2mrSigners.v ===== *)
(** Who signed a spend.

    A threshold output ([BuildP2MRMultisigScript] of [script/pqm.cpp]) that a
    transaction spends was signed by as many of its keys as the threshold says,
    each over the hash of that transaction. *)

From Stdlib Require Import ZArith Lia String.
From stdpp Require Import base list numbers tactics.
From S2P Require Import Prelude Sha256 Header Script ScriptLaws Pqm Interpreter InterpreterLaws VerifyScript TxCheck SigHash.
From S2P Require Import ShieldedFrontier PqmLaws FlagLaws P2mrSpend.
Import tx_check script script_laws pqm interpreter condition_stacks verify_script sighash pqm_laws flag_laws p2mr_spend.

Open Scope Z_scope.

Module p2mr_signers.

(** ** No opcode of the script skips the execution *)
Section Scan.
Context (flags : Z).

Lemma scan_step b p :
  scan_op_success flags P2MR (b :: p) =
  let '(ok, op, _, p') := GetScriptOp (b :: p) in
  if ok then
    if IsOpSuccessP2MR op
    then Some (if flag flags SCRIPT_VERIFY_DISCOURAGE_OP_SUCCESS then fail SCRIPT_ERR_DISCOURAGE_OP_SUCCESS else ret tt)
    else scan_op_success flags P2MR p'
  else Some (fail SCRIPT_ERR_BAD_OPCODE).
Proof.
  unfold scan_op_success, over_ops. cbn [length]. cbn [ops_loop]. destruct (GetScriptOp (b :: p)) as [[[ok op] data] p'] eqn:E.
  apply GetScriptOp_moves in E as [E _]. destruct ok; [|done]. cbn [bool_decide]. destruct (IsOpSuccessP2MR op); [done|].
  apply ops_loop_fuel. simpl in E. lia.
Qed.

Lemma scan_push d rest : zlen d < 2 ^ 32 → scan_op_success flags P2MR (push_data d ++ rest) = scan_op_success flags P2MR rest.
Proof.
  intros Hd. destruct (GetScriptOp_push d rest Hd) as (op & Hg & Hop & _).
  assert (IsOpSuccessP2MR op = false) as Hno 
    by (unfold IsOpSuccessP2MR; replace (IsOpSuccess op) with false by (unfold IsOpSuccess; lia); done).
  destruct (push_data d ++ rest) as [|b p]; [done|]. rewrite scan_step, Hg, Hno. done.
Qed.

Lemma scan_op b op rest :
  78 < b → to_opcode b = op → IsOpSuccessP2MR op = false → scan_op_success flags P2MR (b :: rest) = scan_op_success flags P2MR rest.
Proof. intros Hb Ho Hs. rewrite scan_step. cbn [GetScriptOp]. replace (b <=? 78) with false by lia. by rewrite Ho, Hs. Qed.

Lemma scan_keys first keys rest :
  Forall key_sized keys → scan_op_success flags P2MR (keys_code first keys ++ rest) = scan_op_success flags P2MR rest.
Proof.
  revert first. induction keys as [|[algo key] keys IH]; intros first Hk; [done|]. apply list.Forall_cons in Hk as [Hk Hks].
  cbn [keys_code]. rewrite <- app_assoc, scan_push by (rewrite Hk; by destruct algo). cbn [app].
  erewrite scan_op; [by apply IH| |reflexivity|]; by destruct first, algo.
Qed.

Lemma scan_threshold t : 1 ≤ t ≤ 16 → scan_op_success flags P2MR (push_int64 t ++ push_opcode OP_NUMEQUAL) = None.
Proof.
  intros Ht. assert (t ∈ seqZ 1 16) as Hin by (apply elem_of_seqZ; lia).
  change (t ∈ [1; 2; 3; 4; 5; 6; 7; 8; 9; 10; 11; 12; 13; 14; 15; 16]) in Hin.
  repeat (apply elem_of_cons in Hin as [->|Hin]; [reflexivity|]). by apply elem_of_nil in Hin.
Qed.
End Scan.

(** ** The hash that is signed *)
Section Signers.
Context `{ScriptPrimitives} `{PQLibrary} `{TaprootLibrary} `{CurveLibrary} (k : SignatureContext) (data : PrecomputedTransactionData).
Hypothesis has_data : txdata k = Some data.
#[local] Instance the_checker : BaseSignatureChecker SigHashCache := transaction_checker k.
Context (flags : Z).

(** The signature of a key over the hash for [d0]. *)
Definition signed (d0 : ScriptExecutionData) (s : pq_key * list Z) : Prop :=
  ∃ sig ht h d', split_hash_type s.1.1 s.2 = Ok (inr (sig, ht)) ∧ zlen sig ≠ 0 ∧
    SignatureHashSchnorr d0 (txTo k) (nIn k) ht P2MR data (m_mdb k) = Ok (Some (h, d')) ∧
    CPQPubKey_Verify s.1.1 s.1.2 h sig (flag flags SCRIPT_VERIFY_SLHDSA_FIPS205) = true.

(** Signatures spend the budget and may cache the hash of the output, no more. *)
Definition like (d0 d : ScriptExecutionData) : Prop :=
  ∃ w o, d = set_output_hash (set_weight d0 w) o ∧ (o = None ∨ o = Some (hash_txout (txout_at (t_vout (txTo k)) (nIn k)))).

Lemma like_refl d : m_output_hash d = None → like d d.
Proof. intros Ho. exists (m_validation_weight_left d), None. destruct d. cbn in *. subst. split; [done|by left]. Qed.

Lemma like_weight d0 d w : like d0 d → like d0 (set_weight d w).
Proof. intros (w' & o & -> & Ho). by exists w, o. Qed.

Lemma like_hash d0 d ht h d' :
  m_output_hash d0 = None → like d0 d → SignatureHashSchnorr d (txTo k) (nIn k) ht P2MR data (m_mdb k) = Ok (Some (h, d')) →
  (∃ d'', SignatureHashSchnorr d0 (txTo k) (nIn k) ht P2MR data (m_mdb k) = Ok (Some (h, d''))) ∧ like d0 d'.
Proof.
  intros H0' (w & o & -> & Ho). unfold SignatureHashSchnorr. rewrite H0'.
  set (ot := if ht =? SIGHASH_DEFAULT then SIGHASH_ALL else Z.land ht SIGHASH_OUTPUT_MASK).
  cbn [m_annex_init set_output_hash set_weight m_output_hash].
  destruct (assert_ (negb _)); [|done]. destruct (assert_ (nIn k <? zlen (t_vin (txTo k)))); [cbn [mbind result_bind]|done].
  destruct (negb (m_bip341_taproot_ready data && m_spent_outputs_ready data)); [by destruct (m_mdb k)|].
  destruct (negb _); [done|]. destruct (assert_ (m_annex_init d0)); [cbn [mbind result_bind]|done].
  destruct ((ot =? SIGHASH_SINGLE) && _); [done|].
  assert (default (hash_txout (txout_at (t_vout (txTo k)) (nIn k))) o = hash_txout (txout_at (t_vout (txTo k)) (nIn k))) as -> by by destruct Ho as [->| ->].
  cbn [default from_option id].
  destruct (ot =? SIGHASH_SINGLE); cbn [bool_decide m_tapleaf_hash_init m_codeseparator_pos_init set_output_hash set_weight];
    (destruct (assert_ (m_tapleaf_hash_init d0)); [cbn [mbind result_bind]|done]);
    (destruct (assert_ (m_codeseparator_pos_init d0)); [cbn [mbind result_bind]|done]); intros [= <- <-].
  - split; [by eexists|]. exists w. eexists. split; [reflexivity|by right].
  - split; [by eexists|]. by exists w, o.
Qed.

Lemma signed_check d0 d w algo key sig ok d' :
  m_output_hash d0 = None → like d0 d → pq_check (C:=SigHashCache) algo w sig key flags P2MR d = Ok (inr (ok, d')) →
  like d0 d' ∧ (ok = true → signed d0 ((algo, key), sig)).
Proof.
  intros H0' Hd. unfold pq_check. case_match; [done|]. case_match; [done|].
  intros ([sig' ht] & Hs & Hc)%bind_ok. apply bind_ok in Hc as ([ok' d1] & Hc & He). case_match; [done|]. unfold ret in He. simplify_eq.
  destruct (Z.eqb_spec (zlen sig') 0) as [Hz|Hz]; [unfold ret in Hc; simplify_eq; split; [exact Hd|intros E; discriminate E]|].
  apply bind_ok in Hc as (d2 & Hch & Hc).
  assert (like d0 d2) as Hd2.
  { unfold charge in Hch. apply bind_ok in Hch as ([] & _ & Hch). case_match; [done|]. unfold ret in Hch. simplify_eq. by apply like_weight. }
  cbn [CheckPQSignature the_checker transaction_checker] in Hc. unfold tx_CheckPQSignature in Hc. rewrite has_data in Hc.
  rewrite bool_decide_eq_true_2 in Hc by done. cbn [assert_ mbind result_bind] in Hc.
  destruct (m_require_sighash_all k && _ && _); [cbn [lift] in Hc; unfold ret in Hc; simplify_eq; by split|].
  destruct (SignatureHashSchnorr d2 (txTo k) (nIn k) ht P2MR data (m_mdb k)) as [[[h d3]|]|] eqn:Eh; cbn [mbind result_bind] in Hc;
    [|cbn [lift] in Hc; unfold ret in Hc; simplify_eq; by split|done].
  apply (like_hash d0) in Eh as [[d'' Eh] Hd3]; [|done..]. unfold lift, ret in Hc. simplify_eq. split; [done|]. intros Hv. by exists sig', ht, h, d''.
Qed.

(** The valid signatures of a tally. *)
Lemma tally_signers d0 first keys s d n n' rest d' :
  m_output_hash d0 = None → like d0 d → tally (C:=SigHashCache) flags first keys s d n = Ok (inr (n', rest, d')) →
  ∃ signers, (fst <$> signers) `sublist_of` keys ∧ Forall (signed d0) signers ∧ Forall (λ x, x.2 ∈ s) signers ∧ n' = n + zlen signers.
Proof.
  intros H0'. revert first s d n. induction keys as [|[algo key] keys IH]; intros first s d n Hd; cbn [tally].
  - destruct s; unfold ret; intros; simplify_eq; exists []; (split; [done|]; split; [done|]; split; [done|unfold zlen; simpl; lia]).
  - destruct s as [|sig s]; [done|]. intros ([ok d1] & Hq & Ht)%bind_ok. apply (signed_check d0) in Hq as [Hd1 Hs]; [|done..].
    apply IH in Ht as (signers & Hsub & Hf & Hin & ->); [|done]. destruct ok.
    + exists (((algo, key), sig) :: signers). split; [by constructor|]. split; [constructor; auto|].
      split; [constructor; [by left|]|rewrite zlen_cons; simpl; lia].
      eapply list.Forall_impl; [done|]. intros x Hx. by right.
    + exists signers. split; [by constructor|]. split; [done|]. split; [|simpl; lia].
      eapply list.Forall_impl; [done|]. intros x Hx. by right.
Qed.

Lemma take_annex_stack least stack rest d0 :
  take_annex least stack = (rest, d0) → m_output_hash d0 = None ∧ (∀ x, x ∈ rest → x ∈ stack).
Proof.
  unfold take_annex. destruct stack as [|[|b annex] stack]; [|..|case_match]; intros [= <- <-]; (split; [done|]); intros x Hx; try done. by right.
Qed.

(** An execution that ends well without an opcode that skips it. *)
Lemma execute_inv {C} `{!BaseSignatureChecker C} stack script d (c : C) :
  scan_op_success flags P2MR script = None → accepts (ExecuteWitnessScript flags stack script P2MR d c) →
  ∃ top d' c', EvalScript (V:=ConditionStack) flags P2MR stack script d c = Ok (inr ([top], d', c')) ∧ CastToBool top = true.
Proof.
  intros Hscan [c' Ha]. unfold ExecuteWitnessScript in Ha. rewrite bool_decide_eq_false_2, bool_decide_eq_true_2, Hscan in Ha by done.
  cbn [orb andb fail_if ebind ret] in Ha. apply bind_ok in Ha as ([] & _ & Ha). apply bind_ok in Ha as ([[s1 d1] c1] & He & Ha).
  destruct s1 as [|top [|? ?]]; [done| |done]. destruct (CastToBool top) eqn:Et; [|done]. by exists top, d1, c1.
Qed.

Lemma multisig_signers t keys sig witness c :
  BuildP2MRMultisigScript t keys ≠ [] → flag flags SCRIPT_VERIFY_WITNESS = true → flag flags SCRIPT_VERIFY_P2SH = true →
  accepts (VerifyScript (C:=SigHashCache) flags sig (p2mr_output (commits_to P2MR_LEAF_VERSION [BuildP2MRMultisigScript t keys])) witness c) →
  (∃ d signers, m_tapleaf_hash d = leaf_of (BuildP2MRMultisigScript t keys) ∧ m_codeseparator_pos d = 0xffffffff ∧ zlen signers = t ∧
     (fst <$> signers) `sublist_of` keys ∧ NoDup (fst <$> signers) ∧ Forall (λ x, x.2 ∈ witness) signers ∧ Forall (signed d) signers) ∨ sha_collision.
Proof.
  intros Hb Hw Hp Ha. destruct (multisig_shape _ _ Hb) as (Hsc & Ht & Hn & Hk & Hd & Hsz). remember (BuildP2MRMultisigScript t keys) as script eqn:Es.
  apply p2mr_spend_inv in Ha as [(control & script' & stack & d0 & Hin & Hta & Ha)|Hc];
    [|by right|done|constructor; [unfold MAX_P2MR_SCRIPT_SIZE in Hsz; lia|done]|done|done].
  left. apply list_elem_of_singleton in Hin. subst script'. apply take_annex_stack in Hta as [Ho Hst].
  apply execute_inv in Ha as (top & d1 & c1 & He & Htop).
  2:{ rewrite Hsc, scan_keys by done. apply scan_threshold. unfold MAX_PQ_PUBKEYS_PER_MULTISIG in Hn. lia. }
  rewrite Es in He. apply multisig_sound in He as (n & rest & Htl & Hs & _); [|by rewrite <- Es]. rewrite <- Es in Htl.
  injection Hs as -> <-. rewrite small_CastToBool in Htop. apply Z.eqb_eq in Htop as ->.
  apply (tally_signers (set_codeseparator (leaf_data script witness d0) 0xffffffff)) in Htl as (signers & Hsub & Hf & Hin & ->); [|done|by apply like_refl].
  eexists _, signers. split; [|split; [|split; [|split; [exact Hsub|split; [by eapply sublist_NoDup|split; [|exact Hf]]]]]]; [done|done|lia|].
  eapply list.Forall_impl; [exact Hin|]. intros x Hx. cbn. apply elem_of_reverse, Hst. by do 2 right.
Qed.
End Signers.

End p2mr_signers.
