(* ===== verification/ScriptFlags.v ===== *)
(** The flags that scripts are verified with.

    [policy/policy.h] and [validation.cpp]: the mandatory and standard flags,
    those of a block ([GetBlockScriptFlags]), of the mempool's policy
    ([PolicyScriptVerifyFlags], [PolicyScriptChecks]) and of its check against
    the rules of the next block ([GetNextBlockMempoolConsensusScriptFlags]).
    What policy accepts, consensus accepts. *)

From Stdlib Require Import ZArith Lia String.
From stdpp Require Import base list numbers tactics.
From S2P Require Import Prelude Sha256 Header Script ScriptLaws Pqm Interpreter InterpreterLaws VerifyScript FlagLaws P2mrSpend.
Import script script_laws pqm interpreter condition_stacks verify_script flag_laws p2mr_spend.

Open Scope Z_scope.

Module script_flags.

(** ** policy.h *)
Definition any_flags (fs : list Z) : Z := foldr Z.lor 0 fs.

Definition MANDATORY_SCRIPT_VERIFY_FLAGS : Z :=
  any_flags [SCRIPT_VERIFY_P2SH; SCRIPT_VERIFY_DERSIG; SCRIPT_VERIFY_NULLDUMMY; SCRIPT_VERIFY_CHECKLOCKTIMEVERIFY;
    SCRIPT_VERIFY_CHECKSEQUENCEVERIFY; SCRIPT_VERIFY_WITNESS; SCRIPT_VERIFY_TAPROOT; SCRIPT_VERIFY_CHECKTEMPLATEVERIFY;
    SCRIPT_VERIFY_CHECKSIGFROMSTACK].

Definition STANDARD_SCRIPT_VERIFY_FLAGS : Z :=
  any_flags [MANDATORY_SCRIPT_VERIFY_FLAGS; SCRIPT_VERIFY_STRICTENC; SCRIPT_VERIFY_MINIMALDATA;
    SCRIPT_VERIFY_DISCOURAGE_UPGRADABLE_NOPS; SCRIPT_VERIFY_CLEANSTACK; SCRIPT_VERIFY_MINIMALIF; SCRIPT_VERIFY_NULLFAIL;
    SCRIPT_VERIFY_LOW_S; SCRIPT_VERIFY_DISCOURAGE_UPGRADABLE_WITNESS_PROGRAM; SCRIPT_VERIFY_WITNESS_PUBKEYTYPE;
    SCRIPT_VERIFY_CONST_SCRIPTCODE; SCRIPT_VERIFY_DISCOURAGE_UPGRADABLE_TAPROOT_VERSION; SCRIPT_VERIFY_DISCOURAGE_OP_SUCCESS;
    SCRIPT_VERIFY_DISCOURAGE_UPGRADABLE_PUBKEYTYPE].

Definition STANDARD_NOT_MANDATORY_VERIFY_FLAGS : Z := Z.ldiff STANDARD_SCRIPT_VERIFY_FLAGS MANDATORY_SCRIPT_VERIFY_FLAGS.

(** ** Policy *)
Section Policy.
(** [ignore_rejects.count(reason)]. *)
Context (ignore_rejects : list string).
Definition ignores (reason : string) : bool := bool_decide (reason ∈ ignore_rejects).

(** [flags &= ~mask] when the reason is ignored. *)
Definition clear_if (reason : string) (mask flags : Z) : Z := if ignores reason then Z.ldiff flags mask else flags.

Definition PolicyScriptVerifyFlags : Z :=
  match ignore_rejects with
  | [] => STANDARD_SCRIPT_VERIFY_FLAGS
  | _ =>
    if ignores "non-mandatory-script-verify-flag" then MANDATORY_SCRIPT_VERIFY_FLAGS else
    let flags := STANDARD_SCRIPT_VERIFY_FLAGS in
    let flags :=
      if ignores "non-mandatory-script-verify-flag-upgradable" then
        Z.ldiff flags (any_flags [SCRIPT_VERIFY_DISCOURAGE_UPGRADABLE_NOPS; SCRIPT_VERIFY_DISCOURAGE_UPGRADABLE_WITNESS_PROGRAM;
          SCRIPT_VERIFY_DISCOURAGE_UPGRADABLE_TAPROOT_VERSION; SCRIPT_VERIFY_DISCOURAGE_OP_SUCCESS;
          SCRIPT_VERIFY_DISCOURAGE_UPGRADABLE_PUBKEYTYPE])
      else
        clear_if "non-mandatory-script-verify-flag-upgradable-pubkeytype" SCRIPT_VERIFY_DISCOURAGE_UPGRADABLE_PUBKEYTYPE
        (clear_if "non-mandatory-script-verify-flag-upgradable-op_success" SCRIPT_VERIFY_DISCOURAGE_OP_SUCCESS
        (clear_if "non-mandatory-script-verify-flag-upgradable-taproot_version" SCRIPT_VERIFY_DISCOURAGE_UPGRADABLE_TAPROOT_VERSION
        (clear_if "non-mandatory-script-verify-flag-upgradable-witness_program" SCRIPT_VERIFY_DISCOURAGE_UPGRADABLE_WITNESS_PROGRAM
        (clear_if "non-mandatory-script-verify-flag-upgradable-nops" SCRIPT_VERIFY_DISCOURAGE_UPGRADABLE_NOPS flags)))) in
    let flags :=
      if ignores "non-mandatory-script-verify-flag-bip62" then
        Z.ldiff flags (any_flags [SCRIPT_VERIFY_LOW_S; SCRIPT_VERIFY_SIGPUSHONLY; SCRIPT_VERIFY_MINIMALDATA])
      else
        clear_if "non-mandatory-script-verify-flag-cleanstack" SCRIPT_VERIFY_CLEANSTACK
        (clear_if "non-mandatory-script-verify-flag-minimaldata" SCRIPT_VERIFY_MINIMALDATA
        (clear_if "non-mandatory-script-verify-flag-low_s" SCRIPT_VERIFY_LOW_S flags)) in
    let flags := clear_if "non-mandatory-script-verify-flag-strictenc" SCRIPT_VERIFY_STRICTENC flags in
    let flags := clear_if "non-mandatory-script-verify-flag-minimalif" SCRIPT_VERIFY_MINIMALIF flags in
    let flags := clear_if "non-mandatory-script-verify-flag-nullfail" SCRIPT_VERIFY_NULLFAIL flags in
    let flags := clear_if "non-mandatory-script-verify-flag-witness_pubkeytype" SCRIPT_VERIFY_WITNESS_PUBKEYTYPE flags in
    let flags := clear_if "non-mandatory-script-verify-flag-const_scriptcode" SCRIPT_VERIFY_CONST_SCRIPTCODE flags in
    Z.lor flags MANDATORY_SCRIPT_VERIFY_FLAGS
  end.
End Policy.

(** ** Consensus *)

(** The fields of [Consensus::Params] that the flags depend on. *)
Record ScriptParams := mkScriptParams {
  script_flag_exceptions : list Z → option Z;
  BIP65Height : Z;
  BIP66Height : Z;
  CSVHeight : Z;
  SegwitHeight : Z;
  nMLDSADisableHeight : Z;
  nShieldedC002ActivationHeight : Z;
  fEnforceP2MROnlyOutputs : bool;
}.

Section Consensus.
Context (params : ScriptParams).

Definition IsShieldedC002Active (height : Z) : bool :=
  (0 <=? height) && negb (nShieldedC002ActivationHeight params =? INT_MAX) && (nShieldedC002ActivationHeight params <=? height).

(** The hash and the height of the block. *)
Definition GetBlockScriptFlags (hash : list Z) (nHeight : Z) : Z :=
  let flags := any_flags [SCRIPT_VERIFY_P2SH; SCRIPT_VERIFY_WITNESS; SCRIPT_VERIFY_TAPROOT; SCRIPT_VERIFY_CHECKTEMPLATEVERIFY;
    SCRIPT_VERIFY_CHECKSIGFROMSTACK] in
  let flags := default flags (script_flag_exceptions params hash) in
  let set (b : bool) f flags := if b then Z.lor flags f else flags in
  let flags := set (BIP66Height params <=? nHeight) SCRIPT_VERIFY_DERSIG flags in
  let flags := set (BIP65Height params <=? nHeight) SCRIPT_VERIFY_CHECKLOCKTIMEVERIFY flags in
  let flags := set (CSVHeight params <=? nHeight) SCRIPT_VERIFY_CHECKSEQUENCEVERIFY flags in
  let flags := set (SegwitHeight params <=? nHeight) SCRIPT_VERIFY_NULLDUMMY flags in
  let flags := set (negb (nMLDSADisableHeight params =? INT_MAX) && (nMLDSADisableHeight params <=? nHeight)) SCRIPT_VERIFY_DISALLOW_MLDSA flags in
  let flags := set (IsShieldedC002Active nHeight) SCRIPT_VERIFY_SLHDSA_FIPS205 flags in
  set (fEnforceP2MROnlyOutputs params) SCRIPT_VERIFY_REJECT_LEGACY_SIGS flags.

Definition MLDSA_EMERGENCY_RELAY_WINDOW_BLOCKS : Z := 960.

Definition NextBlockHeightOrLimit (current_height : Z) : Z := if current_height =? INT_MAX then INT_MAX else current_height + 1.

Definition IsMLDSADisallowedForMempool (next_block_height : Z) : bool :=
  if nMLDSADisableHeight params =? INT_MAX then false else
  Z.max 0 (nMLDSADisableHeight params - MLDSA_EMERGENCY_RELAY_WINDOW_BLOCKS) <=? next_block_height.

Definition IsSLHDSAFips205RequiredForMempool (next_block_height : Z) : bool := IsShieldedC002Active next_block_height.

(** The flags that depend on the height of the next block. *)
Definition with_next_height (next_block_height flags : Z) : Z :=
  let flags := if IsMLDSADisallowedForMempool next_block_height then Z.lor flags SCRIPT_VERIFY_DISALLOW_MLDSA else flags in
  if IsSLHDSAFips205RequiredForMempool next_block_height then Z.lor flags SCRIPT_VERIFY_SLHDSA_FIPS205 else flags.

Definition GetNextBlockMempoolConsensusScriptFlags (tip_hash : list Z) (tip_height next_block_height : Z) : Z :=
  with_next_height next_block_height (GetBlockScriptFlags tip_hash tip_height).

(** The flags of [PolicyScriptChecks] and of [ConsensusScriptChecks]. *)
Definition policy_flags (ignore_rejects : list string) (tip_height : Z) : Z :=
  with_next_height (NextBlockHeightOrLimit tip_height) (PolicyScriptVerifyFlags ignore_rejects).
Definition consensus_flags (tip_hash : list Z) (tip_height : Z) : Z :=
  GetNextBlockMempoolConsensusScriptFlags tip_hash tip_height (NextBlockHeightOrLimit tip_height).
End Consensus.

(** ** What a set of flags contains *)
Lemma flag_lor a b x : flag (Z.lor a b) x = flag a x || flag b x.
Proof.
  unfold flag. rewrite Z.land_lor_distr_l. destruct (Z.eqb_spec (Z.land a x) 0) as [->|Ha]; [by rewrite Z.lor_0_l|].
  destruct (Z.eqb_spec (Z.lor (Z.land a x) (Z.land b x)) 0) as [E|]; [|done]. apply Z.lor_eq_0_iff in E as [E _]. done.
Qed.

Lemma flag_set (b : bool) a f x : flag (if b then Z.lor a f else a) x = flag a x || (b && flag f x).
Proof. destruct b; [apply flag_lor|by rewrite orb_false_r]. Qed.

Lemma flag_ldiff a m x : flag (Z.ldiff a m) x = true → flag a x = true.
Proof.
  unfold flag. intros Hf. apply negb_true_iff, Z.eqb_neq. intros E. apply negb_true_iff, Z.eqb_neq in Hf. apply Hf.
  apply Z.bits_inj'. intros n Hn. assert (Z.testbit (Z.land a x) n = Z.testbit 0 n) as Hb by by rewrite E.
  rewrite Z.bits_0, Z.land_spec in *. rewrite Z.ldiff_spec. destruct (Z.testbit a n), (Z.testbit x n), (Z.testbit m n); done.
Qed.

Lemma flag_sub a b x : Z.land a b = a → flag a x = true → flag b x = true.
Proof.
  unfold flag. intros Hs Ha. apply negb_true_iff, Z.eqb_neq. apply negb_true_iff, Z.eqb_neq in Ha. intros Hb. apply Ha.
  by rewrite <- Hs, <- Z.land_assoc, Hb, Z.land_0_r.
Qed.

Lemma flag_clear_if l r m a x : flag (clear_if l r m a) x = true → flag a x = true.
Proof. unfold clear_if. case_match; [apply flag_ldiff|done]. Qed.

Lemma flag_either (b : bool) a m c x :
  (flag c x = true → flag a x = true) → flag (if b then Z.ldiff a m else c) x = true → flag a x = true.
Proof. destruct b; [intros _; apply flag_ldiff|done]. Qed.

Lemma flag_MANDATORY_STANDARD x : flag MANDATORY_SCRIPT_VERIFY_FLAGS x = true → flag STANDARD_SCRIPT_VERIFY_FLAGS x = true.
Proof. by apply flag_sub. Qed.

(** Policy is between the mandatory and the standard flags. *)
Lemma policy_between l x :
  (flag MANDATORY_SCRIPT_VERIFY_FLAGS x = true → flag (PolicyScriptVerifyFlags l) x = true) ∧
  (flag (PolicyScriptVerifyFlags l) x = true → flag STANDARD_SCRIPT_VERIFY_FLAGS x = true).
Proof.
  unfold PolicyScriptVerifyFlags. destruct l as [|r l]; [split; [apply flag_MANDATORY_STANDARD|done]|].
  case_match; [split; [done|apply flag_MANDATORY_STANDARD]|]. rewrite flag_lor. split; [intros ->; apply orb_true_r|].
  intros [Hf|Hf]%orb_true_iff; [|by apply flag_MANDATORY_STANDARD].
  do 5 apply flag_clear_if in Hf.
  apply flag_either in Hf; [|by intros ?%flag_clear_if%flag_clear_if%flag_clear_if].
  apply flag_either in Hf; [done|]. by intros ?%flag_clear_if%flag_clear_if%flag_clear_if%flag_clear_if%flag_clear_if.
Qed.

Section Mempool.
Context (params : ScriptParams) (tip_hash : list Z) (tip_height : Z) (ignore_rejects : list string).
Hypothesis no_exception : script_flag_exceptions params tip_hash = None.
Hypothesis height_int : tip_height ≤ INT_MAX.

Abbreviation consensus := (consensus_flags params tip_hash tip_height).
Abbreviation policy := (policy_flags params ignore_rejects tip_height).

Lemma next_height : tip_height ≤ NextBlockHeightOrLimit tip_height.
Proof. unfold NextBlockHeightOrLimit. case_match; lia. Qed.

(** The rules of the tip hold for the next block. *)
Lemma C002_next : IsShieldedC002Active params tip_height = true → IsShieldedC002Active params (NextBlockHeightOrLimit tip_height) = true.
Proof. unfold IsShieldedC002Active. pose proof next_height. lia. Qed.

Lemma MLDSA_next :
  negb (nMLDSADisableHeight params =? INT_MAX) && (nMLDSADisableHeight params <=? tip_height) = true → 0 ≤ tip_height →
  IsMLDSADisallowedForMempool params (NextBlockHeightOrLimit tip_height) = true.
Proof.
  unfold IsMLDSADisallowedForMempool, MLDSA_EMERGENCY_RELAY_WINDOW_BLOCKS. pose proof next_height.
  intros [Hn Hh]%andb_true_iff H0. apply negb_true_iff in Hn. rewrite Hn. lia.
Qed.

(** The flags of the tip, one by one. *)
Lemma consensus_flag x :
  flag consensus x =
  flag (any_flags [SCRIPT_VERIFY_P2SH; SCRIPT_VERIFY_WITNESS; SCRIPT_VERIFY_TAPROOT; SCRIPT_VERIFY_CHECKTEMPLATEVERIFY; SCRIPT_VERIFY_CHECKSIGFROMSTACK]) x
  || ((BIP66Height params <=? tip_height) && flag SCRIPT_VERIFY_DERSIG x)
  || ((BIP65Height params <=? tip_height) && flag SCRIPT_VERIFY_CHECKLOCKTIMEVERIFY x)
  || ((CSVHeight params <=? tip_height) && flag SCRIPT_VERIFY_CHECKSEQUENCEVERIFY x)
  || ((SegwitHeight params <=? tip_height) && flag SCRIPT_VERIFY_NULLDUMMY x)
  || (negb (nMLDSADisableHeight params =? INT_MAX) && (nMLDSADisableHeight params <=? tip_height) && flag SCRIPT_VERIFY_DISALLOW_MLDSA x)
  || (IsShieldedC002Active params tip_height && flag SCRIPT_VERIFY_SLHDSA_FIPS205 x)
  || (fEnforceP2MROnlyOutputs params && flag SCRIPT_VERIFY_REJECT_LEGACY_SIGS x)
  || (IsMLDSADisallowedForMempool params (NextBlockHeightOrLimit tip_height) && flag SCRIPT_VERIFY_DISALLOW_MLDSA x)
  || (IsShieldedC002Active params (NextBlockHeightOrLimit tip_height) && flag SCRIPT_VERIFY_SLHDSA_FIPS205 x).
Proof.
  unfold consensus_flags, GetNextBlockMempoolConsensusScriptFlags, with_next_height, GetBlockScriptFlags, IsSLHDSAFips205RequiredForMempool.
  by rewrite !flag_set, no_exception.
Qed.

Lemma policy_flag x :
  flag policy x =
  flag (PolicyScriptVerifyFlags ignore_rejects) x
  || (IsMLDSADisallowedForMempool params (NextBlockHeightOrLimit tip_height) && flag SCRIPT_VERIFY_DISALLOW_MLDSA x)
  || (IsShieldedC002Active params (NextBlockHeightOrLimit tip_height) && flag SCRIPT_VERIFY_SLHDSA_FIPS205 x).
Proof. unfold policy_flags, with_next_height, IsSLHDSAFips205RequiredForMempool. by rewrite !flag_set. Qed.

Lemma policy_mandatory x : flag MANDATORY_SCRIPT_VERIFY_FLAGS x = true → flag policy x = true.
Proof. intros Hm. rewrite policy_flag. apply orb_true_iff. left. apply orb_true_iff. left. by apply policy_between. Qed.

Hypothesis height_nonneg : 0 ≤ tip_height.

Lemma consensus_in_policy x :
  flag consensus x = true → Z.land x SCRIPT_VERIFY_REJECT_LEGACY_SIGS = 0 → flag policy x = true.
Proof.
  rewrite consensus_flag. intros Hc Hx. rewrite !orb_true_iff in Hc.
  assert (∀ f, Z.land f MANDATORY_SCRIPT_VERIFY_FLAGS = f → flag f x = true → flag policy x = true) as Hm.
  { intros f Hf Hfx. apply policy_mandatory. by apply (flag_sub f). }
  destruct Hc as [[[[[[[[[Hb|[_ Hb]%andb_true_iff]|[_ Hb]%andb_true_iff]|[_ Hb]%andb_true_iff]|[_ Hb]%andb_true_iff]|[Hh Hb]%andb_true_iff]
    |[Hh Hb]%andb_true_iff]|[_ Hb]%andb_true_iff]|Hb]|Hb]; try (by revert Hb; apply Hm).
  - rewrite policy_flag, MLDSA_next, Hb by done. by rewrite orb_true_r.
  - rewrite policy_flag, C002_next, Hb by done. by rewrite !orb_true_r.
  - unfold flag in Hb. rewrite Z.land_comm, Hx in Hb. done.
  - rewrite policy_flag, Hb. by rewrite orb_true_r.
  - rewrite policy_flag, Hb. by rewrite orb_true_r.
Qed.

(** A flag that only the height decides. *)
Lemma consensus_fips : flag consensus SCRIPT_VERIFY_SLHDSA_FIPS205 = IsShieldedC002Active params (NextBlockHeightOrLimit tip_height).
Proof.
  rewrite consensus_flag. assert (∀ b : bool, b && false = false) as Hf by by intros [].
  change (flag (any_flags _) _) with false. change (flag SCRIPT_VERIFY_SLHDSA_FIPS205 SCRIPT_VERIFY_SLHDSA_FIPS205) with true.
  change (flag SCRIPT_VERIFY_DERSIG _) with false. change (flag SCRIPT_VERIFY_CHECKLOCKTIMEVERIFY _) with false.
  change (flag SCRIPT_VERIFY_CHECKSEQUENCEVERIFY _) with false. change (flag SCRIPT_VERIFY_NULLDUMMY _) with false.
  change (flag SCRIPT_VERIFY_DISALLOW_MLDSA _) with false. change (flag SCRIPT_VERIFY_REJECT_LEGACY_SIGS _) with false.
  rewrite !Hf, !andb_true_r. cbn [orb]. rewrite !orb_false_r.
  destruct (IsShieldedC002Active params tip_height) eqn:E; [by rewrite C002_next|done].
Qed.

Lemma policy_fips : flag policy SCRIPT_VERIFY_SLHDSA_FIPS205 = IsShieldedC002Active params (NextBlockHeightOrLimit tip_height).
Proof.
  rewrite policy_flag. change (flag SCRIPT_VERIFY_SLHDSA_FIPS205 SCRIPT_VERIFY_SLHDSA_FIPS205) with true.
  change (flag SCRIPT_VERIFY_DISALLOW_MLDSA _) with false. rewrite andb_false_r, andb_true_r, orb_false_r.
  destruct (flag (PolicyScriptVerifyFlags ignore_rejects) SCRIPT_VERIFY_SLHDSA_FIPS205) eqn:E; [|done]. by apply policy_between in E.
Qed.

(** Flags that no block sets. *)
Lemma consensus_unset x :
  x = SCRIPT_VERIFY_DISCOURAGE_UPGRADABLE_NOPS ∨ x = SCRIPT_VERIFY_CLEANSTACK → flag consensus x = false.
Proof.
  intros Hx. rewrite consensus_flag.
  destruct Hx as [->| ->]; (repeat match goal with |- context [flag ?a ?b] => change (flag a b) with false end); by rewrite !andb_false_r.
Qed.

Lemma consensus_base x :
  flag (any_flags [SCRIPT_VERIFY_P2SH; SCRIPT_VERIFY_WITNESS; SCRIPT_VERIFY_TAPROOT; SCRIPT_VERIFY_CHECKTEMPLATEVERIFY; SCRIPT_VERIFY_CHECKSIGFROMSTACK]) x = true →
  flag consensus x = true.
Proof. intros Hb. rewrite consensus_flag, Hb. done. Qed.

Context `{ScriptPrimitives} `{PQLibrary} `{TaprootLibrary} {C : Type} `{!BaseSignatureChecker C}.

(** What policy accepts, the rules of the next block accept, when no rule
    against legacy signatures is set or none can be met. *)
Lemma policy_accepts_consensus sig spk witness (c : C) :
  (fEnforceP2MROnlyOutputs params = true → ∃ program, zlen program = 32 ∧ spk = p2mr_output program) →
  accepts (VerifyScript policy sig spk witness c) → accepts (VerifyScript consensus sig spk witness c).
Proof.
  intros Hout Ha.
  assert (flag consensus SCRIPT_VERIFY_SLHDSA_FIPS205 = flag policy SCRIPT_VERIFY_SLHDSA_FIPS205) as Hfips by by rewrite consensus_fips, policy_fips.
  assert (flag consensus SCRIPT_VERIFY_DISCOURAGE_UPGRADABLE_NOPS = true →
    flag consensus SCRIPT_VERIFY_CHECKTEMPLATEVERIFY = flag policy SCRIPT_VERIFY_CHECKTEMPLATEVERIFY) as Hctv
    by (rewrite consensus_unset by auto; done).
  destruct (fEnforceP2MROnlyOutputs params) eqn:Hen.
  - destruct (Hout eq_refl) as (program & Hp & ->). clear Hout.
    rewrite VerifyScript_p2mr in Ha |- * by (done || by apply consensus_base || by apply policy_mandatory).
    destruct Ha as (-> & Ht & Ha). split_and!; [done..|]. revert Ha. apply p2mr_accepts; [apply consensus_in_policy|done..].
  - revert Ha. apply VerifyScript_accepts; [apply consensus_in_policy|done|done| | |]; [|rewrite consensus_unset by auto; done|intros _; by apply consensus_base].
    rewrite consensus_flag, Hen.
    repeat match goal with |- context [flag ?a SCRIPT_VERIFY_REJECT_LEGACY_SIGS] =>
      lazymatch a with policy_flags _ _ _ => fail | _ => change (flag a SCRIPT_VERIFY_REJECT_LEGACY_SIGS) with false end end.
    by rewrite !andb_false_r.
Qed.
End Mempool.

End script_flags.
