(* ===== verification/CuckooCache.v ===== *)
(** The cuckoo cache.

    [cuckoocache.h]: a set of fixed size that forgets, with eight places for an
    element, flags for what may be overwritten and two generations. The
    elements are 256-bit hashes and their places come from their eight words
    ([SignatureCacheHasher], [FastRange32]). The rounding of [std::log2] on
    [float] is a parameter. *)

From Stdlib Require Import ZArith Lia.
From stdpp Require Import base list numbers tactics.
From S2P Require Import Prelude.

Open Scope Z_scope.

Module cuckoo.

(** ** Packed flags *)
Definition flags_new (size : Z) : list Z := replicate (Z.to_nat (u32 (size + 7) / 8)) 0xff.

(** [mem[i] = f(mem[i])]. *)
Definition at_byte (mem : list Z) (i : Z) (f : Z → Z) : list Z := <[Z.to_nat i := f (znth mem i)]> mem.

Definition bit_set (mem : list Z) (s : Z) : list Z :=
  at_byte mem (Z.shiftr s 3) (λ b, Z.lor b (u8 (Z.shiftl 1 (Z.land s 7)))).
Definition bit_unset (mem : list Z) (s : Z) : list Z :=
  at_byte mem (Z.shiftr s 3) (λ b, Z.land b (u8 (Z.lnot (Z.shiftl 1 (Z.land s 7))))).
Definition bit_is_set (mem : list Z) (s : Z) : bool := negb (Z.land (Z.shiftl 1 (Z.land s 7)) (znth mem (Z.shiftr s 3)) =? 0).

(** ** The cache *)
Abbreviation Element := (list Z).

Record cache := mkCache {
  table : list Element;
  size : Z;
  collection_flags : list Z;
  epoch_flags : list bool;
  epoch_heuristic_counter : Z;
  epoch_size : Z;
  depth_limit : Z;
}.

Definition cache_new : cache := mkCache [] 0 (flags_new 0) [] 0 0 0.

(** [static_cast<uint8_t>(std::log2(static_cast<float>(size)))]. *)
Class FloatLog := { float_log2 : Z → Z }.

Definition FastRange32 (x n : Z) : Z := u32 (Z.shiftr (x * n) 32).

Definition SignatureCacheHasher (hash_select : nat) (key : Element) : Z := le_word (take 4 (drop (4 * hash_select) key)).

Definition compute_hashes (c : cache) (e : Element) : list Z :=
  (λ i, FastRange32 (SignatureCacheHasher i e) (size c)) <$> seq 0 8.

Definition invalid : Z := u32 (Z.lnot 0).

Definition with_flags (c : cache) (mem : list Z) : cache :=
  mkCache (table c) (size c) mem (epoch_flags c) (epoch_heuristic_counter c) (epoch_size c) (depth_limit c).
Definition with_counter (c : cache) (n : Z) : cache :=
  mkCache (table c) (size c) (collection_flags c) (epoch_flags c) n (epoch_size c) (depth_limit c).

Definition allow_erase (c : cache) (n : Z) : cache := with_flags c (bit_set (collection_flags c) n).
Definition please_keep (c : cache) (n : Z) : cache := with_flags c (bit_unset (collection_flags c) n).

Definition elem_at (c : cache) (i : Z) : Element := default [] (table c !! Z.to_nat i).
Definition epoch_at (c : cache) (i : Z) : bool := default false (epoch_flags c !! Z.to_nat i).

(** [table[i] = e; epoch_flags[i] = epoch]. *)
Definition put (c : cache) (i : Z) (e : Element) (epoch : bool) : cache :=
  mkCache (<[Z.to_nat i := e]> (table c)) (size c) (collection_flags c) (<[Z.to_nat i := epoch]> (epoch_flags c))
    (epoch_heuristic_counter c) (epoch_size c) (depth_limit c).

(** ** Epochs *)
Definition epoch_unused_count (c : cache) : Z :=
  foldl (λ n i, n + Z.b2z (epoch_at c i && negb (bit_is_set (collection_flags c) i))) 0 (seqZ 0 (size c)).

(** [epoch_flags[i] = false]. *)
Definition clear_epoch (c : cache) (i : Z) : cache :=
  mkCache (table c) (size c) (collection_flags c) (<[Z.to_nat i := false]> (epoch_flags c)) (epoch_heuristic_counter c) (epoch_size c) (depth_limit c).

(** The older generation may go, the younger one becomes the older. *)
Definition age (c : cache) : cache :=
  foldl (λ c i, if epoch_at c i then clear_epoch c i else allow_erase c i) c (seqZ 0 (size c)).

Definition epoch_check (c : cache) : cache :=
  if negb (epoch_heuristic_counter c =? 0) then with_counter c (epoch_heuristic_counter c - 1) else
  let epoch_unused_count := epoch_unused_count c in
  if epoch_size c <=? epoch_unused_count then with_counter (age c) (epoch_size c)
  else with_counter c (Z.max 1 (Z.max (epoch_size c / 16) (epoch_size c - epoch_unused_count))).

(** ** Setup *)
Definition resize {A} (l : list A) (n : nat) (x : A) : list A := take n l ++ replicate (n - length l) x.

Definition setup `{FloatLog} (c : cache) (new_size : Z) : cache :=
  let size := Z.max 2 new_size in
  let epoch_size := Z.max 1 (u32 (45 * size) / 100) in
  mkCache (resize (table c) (Z.to_nat size) (replicate 32 0)) size (flags_new size) (resize (epoch_flags c) (Z.to_nat size) false)
    epoch_size epoch_size (float_log2 size).

Definition setup_bytes `{FloatLog} (c : cache) (bytes : Z) : cache := setup c (Z.min (bytes / 32) (2 ^ 32 - 1)).

(** ** Insertion *)

(** [std::find(locs) - locs.begin()]. *)
Fixpoint find_pos (locs : list Z) (x : Z) : Z :=
  match locs with
  | [] => 0
  | l :: locs => if l =? x then 0 else 1 + find_pos locs x
  end.

Definition keep_at (c : cache) (loc : Z) (e : Element) (epoch : bool) : cache := please_keep (put c loc e epoch) loc.

Fixpoint insert_loop (fuel : nat) (c : cache) (e : Element) (last_loc : Z) (last_epoch : bool) : cache :=
  match fuel with
  | O => c
  | S fuel =>
      let locs := compute_hashes c e in
      match list_find (λ loc, bit_is_set (collection_flags c) loc = true) locs with
      | Some (_, loc) => keep_at c loc e last_epoch
      | None =>
          let last_loc := znth locs (Z.land (1 + find_pos locs last_loc) 7) in
          insert_loop fuel (put c last_loc e last_epoch) (elem_at c last_loc) last_loc (epoch_at c last_loc)
      end
  end.

Definition insert (c : cache) (e : Element) : cache :=
  let c := epoch_check c in
  let last_epoch := true in
  match list_find (λ loc, elem_at c loc = e) (compute_hashes c e) with
  | Some (_, loc) => keep_at c loc e last_epoch
  | None => insert_loop (Z.to_nat (depth_limit c)) c e invalid last_epoch
  end.

Definition contains (c : cache) (e : Element) (erase : bool) : bool * cache :=
  match list_find (λ loc, elem_at c loc = e) (compute_hashes c e) with
  | Some (_, loc) => (true, if erase then allow_erase c loc else c)
  | None => (false, c)
  end.

(** ** Flags *)
Lemma land_7 s : Z.land s 7 = s mod 8.
Proof. change 7 with (Z.ones 3). by rewrite Z.land_ones. Qed.

Lemma shiftr_3 s : Z.shiftr s 3 = s / 8.
Proof. by rewrite Z.shiftr_div_pow2. Qed.

Lemma bit_is_set_testbit mem s : bit_is_set mem s = Z.testbit (znth mem (s / 8)) (s mod 8).
Proof.
  unfold bit_is_set. rewrite shiftr_3, land_7. pose proof (Z.mod_pos_bound s 8 ltac:(done)) as Hm.
  destruct (Z.testbit _ _) eqn:E.
  - apply negb_true_iff, Z.eqb_neq. intros H0. assert (Z.testbit (Z.land (Z.shiftl 1 (s mod 8)) (znth mem (s / 8))) (s mod 8) = false) as Hb by by rewrite H0, Z.bits_0.
    rewrite Z.land_spec, E, andb_true_r, Z.shiftl_1_l, Z.pow2_bits_true in Hb by lia. done.
  - apply negb_false_iff, Z.eqb_eq. apply Z.bits_inj'. intros n Hn. rewrite Z.land_spec, Z.bits_0, Z.shiftl_1_l.
    destruct (decide (n = s mod 8)) as [->|]; [by rewrite E, andb_false_r|]. by rewrite Z.pow2_bits_false.
Qed.

(** The byte of a flag is there. *)
Definition covered (mem : list Z) (s : Z) : Prop := 0 ≤ s ∧ s / 8 < zlen mem.

Lemma znth_at_byte mem i f j :
  0 ≤ i < zlen mem → 0 ≤ j → znth (at_byte mem i f) j = if i =? j then f (znth mem i) else znth mem j.
Proof.
  intros Hi Hj. unfold at_byte. rewrite znth_insert by done. case_decide; destruct (Z.eqb_spec i j); congruence.
Qed.

Lemma same_place s t : 0 ≤ s → 0 ≤ t → (s =? t) = (s / 8 =? t / 8) && (s mod 8 =? t mod 8).
Proof. intros Hs Ht. pose proof (Z.div_mod s 8 ltac:(done)). pose proof (Z.div_mod t 8 ltac:(done)).
  destruct (Z.eqb_spec s t) as [->|Hne]; [by rewrite !Z.eqb_refl|]. symmetry. apply andb_false_iff.
  destruct (Z.eqb_spec (s / 8) (t / 8)); [right; apply Z.eqb_neq; lia|by left]. Qed.

Lemma testbit_u8 x m : 0 ≤ m < 8 → Z.testbit (u8 x) m = Z.testbit x m.
Proof. intros Hm. unfold u8. change 0xff with (Z.ones 8). by rewrite Z.land_spec, Z.ones_spec_low, andb_true_r by lia. Qed.

Lemma bit_is_set_set mem s t : covered mem s → 0 ≤ t → bit_is_set (bit_set mem s) t = (s =? t) || bit_is_set mem t.
Proof.
  intros [Hs Hl] Ht. rewrite !bit_is_set_testbit. unfold bit_set. rewrite shiftr_3, land_7.
  rewrite znth_at_byte by (split; [apply Z.div_pos; lia|done] || (apply Z.div_pos; lia)).
  pose proof (Z.mod_pos_bound s 8 ltac:(done)). pose proof (Z.mod_pos_bound t 8 ltac:(done)).
  rewrite (same_place s t) by done. destruct (s / 8 =? t / 8) eqn:E; [|done]. apply Z.eqb_eq in E. rewrite E. cbn [andb].
  rewrite Z.lor_spec, testbit_u8, Z.shiftl_1_l, Z.pow2_bits_eqb, orb_comm by lia. done.
Qed.

Lemma bit_is_set_unset mem s t : covered mem s → 0 ≤ t → bit_is_set (bit_unset mem s) t = negb (s =? t) && bit_is_set mem t.
Proof.
  intros [Hs Hl] Ht. rewrite !bit_is_set_testbit. unfold bit_unset. rewrite shiftr_3, land_7.
  rewrite znth_at_byte by (split; [apply Z.div_pos; lia|done] || (apply Z.div_pos; lia)).
  pose proof (Z.mod_pos_bound s 8 ltac:(done)). pose proof (Z.mod_pos_bound t 8 ltac:(done)).
  rewrite (same_place s t) by done. destruct (s / 8 =? t / 8) eqn:E; [|done]. apply Z.eqb_eq in E. rewrite E. cbn [andb].
  rewrite Z.land_spec, testbit_u8, Z.lnot_spec, Z.shiftl_1_l, Z.pow2_bits_eqb, andb_comm by lia. done.
Qed.

Lemma zlen_at_byte mem i f : zlen (at_byte mem i f) = zlen mem.
Proof. apply zlen_insert. Qed.

Lemma flags_new_set size s : 0 ≤ s < size → size < 2 ^ 32 - 7 → covered (flags_new size) s ∧ bit_is_set (flags_new size) s = true.
Proof.
  intros Hs Hsz. unfold flags_new. rewrite u32_small by lia.
  assert (s / 8 < (size + 7) / 8) as Hlt.
  { apply Z.div_lt_upper_bound; [done|]. pose proof (Z.div_mod (size + 7) 8 ltac:(done)). pose proof (Z.mod_pos_bound (size + 7) 8 ltac:(done)). lia. }
  assert (0 ≤ s / 8) as H0 by (apply Z.div_pos; lia). split.
  - split; [lia|]. unfold zlen. rewrite length_replicate. lia.
  - rewrite bit_is_set_testbit, znth_replicate by lia. pose proof (Z.mod_pos_bound s 8 ltac:(done)).
    change 255 with (Z.ones 8). apply Z.ones_spec_low. lia.
Qed.

(** ** The invariant *)
Record cache_ok (c : cache) : Prop := {
  ok_size : 2 ≤ size c < 2 ^ 32 - 7;
  ok_table : zlen (table c) = size c;
  ok_epochs : zlen (epoch_flags c) = size c;
  ok_flags : zlen (collection_flags c) = (size c + 7) / 8;
  ok_depth : 1 ≤ depth_limit c;
}.

Lemma cover c s : cache_ok c → 0 ≤ s < size c → covered (collection_flags c) s.
Proof.
  intros Hc Hs. split; [lia|]. rewrite (ok_flags c Hc). apply Z.div_lt_upper_bound; [done|].
  pose proof (Z.div_mod (size c + 7) 8 ltac:(done)). pose proof (Z.mod_pos_bound (size c + 7) 8 ltac:(done)). lia.
Qed.

(** The places of an element are places of the table. *)
Lemma FastRange32_bound x n : 0 ≤ x < 2 ^ 32 → 0 < n < 2 ^ 32 → 0 ≤ FastRange32 x n < n.
Proof.
  intros Hx Hn. unfold FastRange32. rewrite Z.shiftr_div_pow2 by done.
  assert (0 ≤ x * n / 2 ^ 32 < n) as Hb by (split; [apply Z.div_pos; nia|apply Z.div_lt_upper_bound; [done|nia]]). rewrite u32_small; lia.
Qed.

Lemma hasher_bound i e : Forall is_byte e → 0 ≤ SignatureCacheHasher i e < 2 ^ 32.
Proof.
  intros He. unfold SignatureCacheHasher. set (w := take 4 (drop (4 * i) e)).
  assert (Forall is_byte w) as Hw by by apply list.Forall_take, list.Forall_drop. pose proof (le_word_bound w Hw) as Hb.
  assert (zlen w ≤ 4) as Hl by (unfold zlen, w; rewrite length_take; lia). pose proof (zlen_nonneg w).
  assert (2 ^ (8 * zlen w) ≤ 2 ^ 32) by (apply Z.pow_le_mono_r; lia). lia.
Qed.

Lemma compute_hashes_bound c e loc : cache_ok c → Forall is_byte e → loc ∈ compute_hashes c e → 0 ≤ loc < size c.
Proof.
  intros Hc He Hin. apply list_elem_of_fmap in Hin as (i & -> & _). pose proof (ok_size c Hc). apply FastRange32_bound; [by apply hasher_bound|lia].
Qed.

Lemma compute_hashes_size c c' e : size c = size c' → compute_hashes c e = compute_hashes c' e.
Proof. unfold compute_hashes. by intros ->. Qed.

(** Operations that leave the shape as it is. *)
Lemma allow_erase_ok c n : cache_ok c → cache_ok (allow_erase c n).
Proof. intros []. split; cbn; try done. unfold bit_set. by rewrite zlen_at_byte. Qed.

Lemma please_keep_ok c n : cache_ok c → cache_ok (please_keep c n).
Proof. intros []. split; cbn; try done. unfold bit_unset. by rewrite zlen_at_byte. Qed.

Lemma with_counter_ok c n : cache_ok c → cache_ok (with_counter c n).
Proof. by intros []. Qed.

Lemma put_ok c i e b : cache_ok c → cache_ok (put c i e b).
Proof. intros []. split; cbn; rewrite ?zlen_insert; done. Qed.

Lemma clear_epoch_ok c i : cache_ok c → cache_ok (clear_epoch c i).
Proof. intros []. split; cbn; rewrite ?zlen_insert; done. Qed.

Lemma keep_at_ok c i e b : cache_ok c → cache_ok (keep_at c i e b).
Proof. intros. by apply please_keep_ok, put_ok. Qed.

(** The ageing of the entries is about flags. *)
Lemma age_table c : cache_ok c → cache_ok (age c) ∧ table (age c) = table c ∧ size (age c) = size c ∧ depth_limit (age c) = depth_limit c ∧ epoch_size (age c) = epoch_size c.
Proof.
  unfold age. generalize (seqZ 0 (size c)) as l. intros l. revert c. induction l as [|i l IH]; intros c Hc; [done|]. cbn [foldl].
  case_match.
  - destruct (IH _ (clear_epoch_ok c i Hc)) as (H1 & H2 & H3 & H4 & H5). split; [exact H1|]. by rewrite H2, H3, H4, H5.
  - destruct (IH _ (allow_erase_ok c i Hc)) as (H1 & H2 & H3 & H4 & H5). split; [exact H1|]. by rewrite H2, H3, H4, H5.
Qed.

Lemma epoch_check_table c :
  cache_ok c → cache_ok (epoch_check c) ∧ table (epoch_check c) = table c ∧ size (epoch_check c) = size c ∧ depth_limit (epoch_check c) = depth_limit c.
Proof.
  intros Hc. unfold epoch_check. destruct (age_table c Hc) as (H1 & H2 & H3 & H4 & _).
  repeat case_match; cbn; (split; [by apply with_counter_ok|done]).
Qed.

Lemma setup_ok `{FloatLog} n :
  n < 2 ^ 32 - 7 → 1 ≤ float_log2 (Z.max 2 n) → cache_ok (setup cache_new n).
Proof.
  intros Hn Hlog. split; cbn -[u32 replicate Z.max Z.mul]; try lia.
  - unfold resize, zlen. rewrite take_nil. cbn [app length]. rewrite length_replicate. lia.
  - unfold resize, zlen. rewrite take_nil. cbn [app length]. rewrite length_replicate. lia.
  - unfold flags_new, zlen. rewrite length_replicate, u32_small by lia. pose proof (Z.div_pos (Z.max 2 n + 7) 8 ltac:(lia) ltac:(done)). lia.
Qed.

(** ** What an insertion does to the elements *)
Lemma elem_at_lookup c i : cache_ok c → 0 ≤ i < size c → table c !! Z.to_nat i = Some (elem_at c i).
Proof.
  intros Hc Hi. unfold elem_at. destruct (table c !! Z.to_nat i) eqn:E; [done|]. apply lookup_ge_None in E.
  pose proof (ok_table c Hc) as Ht. unfold zlen in Ht. lia.
Qed.

Lemma put_perm c i e b : cache_ok c → 0 ≤ i < size c → elem_at c i :: table (put c i e b) ≡ₚ e :: table c.
Proof.
  intros Hc Hi. pose proof (elem_at_lookup c i Hc Hi) as Hl. cbn. pose proof (lookup_lt_Some _ _ _ Hl).
  rewrite insert_take_drop by done. rewrite <- (take_drop_middle (table c) (Z.to_nat i) (elem_at c i) Hl) at 3.
  rewrite <- !Permutation_middle. apply Permutation_swap.
Qed.

Definition hashes (l : list Element) : Prop := Forall (Forall is_byte) l.

Lemma evict_loc c e last : cache_ok c → Forall is_byte e → 0 ≤ znth (compute_hashes c e) (Z.land last 7) < size c.
Proof.
  intros Hc He. apply (compute_hashes_bound c e); [done..|]. rewrite land_7. pose proof (Z.mod_pos_bound last 8 ltac:(done)).
  apply list_elem_of_lookup. exists (Z.to_nat (last mod 8)).
  rewrite (znth_lookup (compute_hashes c e) (Z.to_nat (last mod 8))) by (cbn; lia). by rewrite Z2Nat.id by lia.
Qed.

Lemma insert_loop_perm fuel c e last b :
  cache_ok c → hashes (e :: table c) →
  cache_ok (insert_loop fuel c e last b) ∧ size (insert_loop fuel c e last b) = size c ∧
  ∃ dropped, dropped :: table (insert_loop fuel c e last b) ≡ₚ e :: table c.
Proof.
  revert c e last b. induction fuel as [|fuel IH]; intros c e last b Hc Hh; cbn [insert_loop]; [by eauto|].
  pose proof Hh as [He _]%list.Forall_cons.
  destruct (list_find _ _) as [[i loc]|] eqn:Ef.
  - apply list_find_Some in Ef as (Hl & _ & _). apply list_elem_of_lookup_2, compute_hashes_bound in Hl; [|done..].
    split; [by apply keep_at_ok|]. split; [done|]. exists (elem_at c loc). by apply put_perm.
  - set (loc := znth _ _). assert (0 ≤ loc < size c) as Hl by by apply evict_loc. pose proof (put_perm c loc e b Hc Hl) as Hp.
    destruct (IH (put c loc e b) (elem_at c loc) loc (epoch_at c loc)) as (H1 & H2 & dropped & H3); [by apply put_ok| |].
    { unfold hashes. by rewrite Hp. }
    split; [done|]. split; [done|]. exists dropped. by rewrite H3.
Qed.

(** One element comes, one goes: it may be the element itself when it was
    there already. *)
Lemma insert_perm c e :
  cache_ok c → hashes (e :: table c) →
  cache_ok (insert c e) ∧ size (insert c e) = size c ∧ ∃ dropped, dropped :: table (insert c e) ≡ₚ e :: table c.
Proof.
  intros Hc Hh. destruct (epoch_check_table c Hc) as (H1 & H2 & H3 & _). unfold insert. rewrite <- H2 in Hh. rewrite <- H2, <- H3.
  pose proof Hh as [He _]%list.Forall_cons. destruct (list_find _ _) as [[i loc]|] eqn:Ef; [|by apply insert_loop_perm].
  apply list_find_Some in Ef as (Hl & Hat & _). apply list_elem_of_lookup_2, compute_hashes_bound in Hl; [|done..].
  split; [by apply keep_at_ok|]. split; [done|]. exists e. rewrite <- Hat at 1. by apply put_perm.
Qed.

(** ** Membership *)
Lemma contains_member c e erase : cache_ok c → Forall is_byte e → fst (contains c e erase) = true → e ∈ table c.
Proof.
  intros Hc He. unfold contains. destruct (list_find _ _) as [[i loc]|] eqn:Ef; [|done]. intros _.
  apply list_find_Some in Ef as (Hl & Hat & _). apply list_elem_of_lookup_2, compute_hashes_bound in Hl; [|done..].
  apply list_elem_of_lookup. exists (Z.to_nat loc). rewrite elem_at_lookup by done. by rewrite Hat.
Qed.

Lemma contains_table c e erase :
  cache_ok c → cache_ok (snd (contains c e erase)) ∧ table (snd (contains c e erase)) = table c ∧ size (snd (contains c e erase)) = size c.
Proof.
  intros Hc. unfold contains. destruct (list_find _ _) as [[i loc]|]; [|done]. cbn. destruct erase; [|done].
  split; [by apply allow_erase_ok|done].
Qed.

(** A place with the element is enough. *)
Lemma contains_intro c e erase loc : loc ∈ compute_hashes c e → elem_at c loc = e → fst (contains c e erase) = true.
Proof.
  intros Hin Hat. unfold contains. destruct (list_find _ _) as [[]|] eqn:Ef; [done|].
  apply list_find_None in Ef. rewrite list.Forall_forall in Ef. by destruct (Ef _ Hin).
Qed.

(** Marking an element for erasure does not take it out. *)
Lemma contains_again c e erase erase' :
  fst (contains c e erase) = true → fst (contains (snd (contains c e erase)) e erase') = true.
Proof.
  intros Hc. assert (∃ loc, loc ∈ compute_hashes c e ∧ elem_at c loc = e) as (loc & Hin & Hat).
  { unfold contains in Hc. destruct (list_find _ _) as [[i loc]|] eqn:Ef; [|done].
    apply list_find_Some in Ef as (Hl & Hat & _). apply list_elem_of_lookup_2 in Hl. by exists loc. }
  assert (table (snd (contains c e erase)) = table c ∧ size (snd (contains c e erase)) = size c) as [Ht Hs].
  { unfold contains. destruct (list_find _ _) as [[]|]; [|done]. by destruct erase. }
  apply (contains_intro _ _ _ loc); [by rewrite (compute_hashes_size _ c)|unfold elem_at; by rewrite Ht].
Qed.

Lemma elem_at_keep c loc e b : cache_ok c → 0 ≤ loc < size c → elem_at (keep_at c loc e b) loc = e.
Proof.
  intros Hc Hl. unfold elem_at. cbn. rewrite list_lookup_insert_eq; [done|]. pose proof (ok_table c Hc) as Ht. unfold zlen in Ht. lia.
Qed.

(** With a place that may be overwritten the element is found afterwards, and
    no other place changes. *)
Lemma insert_found c e erase :
  cache_ok c → Forall is_byte e →
  (∃ loc, loc ∈ compute_hashes c e ∧ (elem_at c loc = e ∨ bit_is_set (collection_flags (epoch_check c)) loc = true)) →
  fst (contains (insert c e) e erase) = true ∧
  ∃ loc, table (insert c e) = <[Z.to_nat loc := e]> (table c) ∧ (elem_at c loc = e ∨ bit_is_set (collection_flags (epoch_check c)) loc = true).
Proof.
  intros Hc He (loc & Hin & Hloc). destruct (epoch_check_table c Hc) as (H1 & H2 & H3 & H4). unfold insert. set (c1 := epoch_check c) in *.
  assert (∀ l, elem_at c1 l = elem_at c l) as Hel by (intros; unfold elem_at; by rewrite H2).
  rewrite (compute_hashes_size c c1) in Hin by done. pose proof (ok_depth c1 H1) as Hd.
  assert (∀ l, l ∈ compute_hashes c1 e → fst (contains (keep_at c1 l e true) e erase) = true) as Hfound.
  { intros l Hl. apply (contains_intro _ _ _ l); [done|]. apply elem_at_keep; [done|]. by apply compute_hashes_bound with e. }
  destruct (list_find _ _) as [[i l]|] eqn:Ef.
  - apply list_find_Some in Ef as (Hl & Hat & _). apply list_elem_of_lookup_2 in Hl. split; [by apply Hfound|].
    exists l. cbn. rewrite H2. split; [done|left; by rewrite <- Hel].
  - apply list_find_None in Ef. rewrite list.Forall_forall in Ef. destruct Hloc as [Hloc|Hloc]; [by destruct (Ef _ Hin); rewrite Hel|].
    replace (Z.to_nat (depth_limit c1)) with (S (Nat.pred (Z.to_nat (depth_limit c1)))) by lia. cbn [insert_loop].
    destruct (list_find _ _) as [[i l]|] eqn:Eg.
    + apply list_find_Some in Eg as (Hl & Hat & _). apply list_elem_of_lookup_2 in Hl. split; [by apply Hfound|].
      exists l. cbn. rewrite H2. split; [done|by right].
    + apply list_find_None in Eg. rewrite list.Forall_forall in Eg. by destruct (Eg _ Hin).
Qed.

(** ** Histories *)

(** A cache and what was inserted into it. *)
Inductive history `{FloatLog} : cache → list Element → Prop :=
| history_setup n : n < 2 ^ 32 - 7 → 1 ≤ float_log2 (Z.max 2 n) → history (setup cache_new n) []
| history_insert c l e : history c l → Forall is_byte e → history (insert c e) (e :: l)
| history_contains c l e erase : history c l → history (snd (contains c e erase)) l.

Definition no_element : Element := replicate 32 0.

Lemma history_members `{FloatLog} c l :
  history c l → cache_ok c ∧ hashes (table c) ∧ ∀ e, e ∈ table c → e ∈ l ∨ e = no_element.
Proof.
  induction 1 as [n Hn Hlog|c l e _ (Hc & Hh & Hm) He|c l e erase _ (Hc & Hh & Hm)].
  - split; [by apply setup_ok|]. cbn. unfold resize. rewrite take_nil. cbn [app length]. split.
    + apply list.Forall_replicate. by apply (list.Forall_replicate _ 32).
    + intros e He. right. by apply elem_of_replicate in He as [-> _].
  - destruct (insert_perm c e Hc) as (H1 & H2 & dropped & Hp); [by constructor|]. split; [done|].
    assert (hashes (dropped :: table (insert c e))) as Hd by (unfold hashes; rewrite Hp; by constructor). split; [by inversion Hd|].
    intros x Hx. assert (x ∈ e :: table c) as [->|Hin]%elem_of_cons by (rewrite <- Hp; by right); [left; left|].
    destruct (Hm x Hin) as [|]; [left; by right|by right].
  - destruct (contains_table c e erase Hc) as (H1 & H2 & _). by rewrite H2.
Qed.

End cuckoo.
