(* ===== verification/SigCache.v ===== *)
(** The signature cache.

    [script/sigcache.cpp]: entries are salted hashes of signatures that were
    found valid, kept in a cuckoo cache, and the checker that asks the cache
    first. A signature is accepted exactly when it verifies, whatever is in
    the cache, short of a collision of the hash. *)

From Stdlib Require Import ZArith Lia String.
From stdpp Require Import base list numbers tactics.
From S2P Require Import Prelude Sha256 Header Script ScriptLaws Pqm Interpreter SigHash ShieldedFrontier PqmLaws CuckooCache.
Import script script_laws pqm interpreter sighash pqm_laws.

Open Scope Z_scope.

Module sigcache.

Record SignatureCache := mkSigCache {
  m_salted_hasher_ecdsa : CSHA256;
  m_salted_hasher_schnorr : CSHA256;
  m_salted_hasher_pq : CSHA256;
  setValid : cuckoo.cache;
}.

(** The letter and 31 zero bytes. *)
Definition padding (letter : Z) : list Z := letter :: replicate 31 0.
Definition PADDING_ECDSA : list Z := padding 69.
Definition PADDING_SCHNORR : list Z := padding 83.
Definition PADDING_PQ : list Z := padding 80.

Definition salted (nonce pad : list Z) : CSHA256 := sha_Write (sha_Write CSHA256_new nonce) pad.

Definition SignatureCache_new `{cuckoo.FloatLog} (nonce : list Z) (max_size_bytes : Z) : SignatureCache :=
  mkSigCache (salted nonce PADDING_ECDSA) (salted nonce PADDING_SCHNORR) (salted nonce PADDING_PQ)
    (cuckoo.setup_bytes cuckoo.cache_new max_size_bytes).

Definition algo_byte (algo : PQAlgorithm) : Z := match algo with ML_DSA_44 => 0 | SLH_DSA_128S => 1 end.

Definition ComputeEntryECDSA (c : SignatureCache) (hash vchSig pubkey : list Z) : list Z :=
  hash_parts (m_salted_hasher_ecdsa c) [hash; pubkey; vchSig].
Definition ComputeEntrySchnorr (c : SignatureCache) (hash sig pubkey : list Z) : list Z :=
  hash_parts (m_salted_hasher_schnorr c) [hash; pubkey; sig].
Definition ComputeEntryPQ (c : SignatureCache) (hash sig pubkey : list Z) (algo : PQAlgorithm) (slhdsa_fips205 : bool) : list Z :=
  hash_parts (m_salted_hasher_pq c) [hash; [algo_byte algo]; [Z.b2z slhdsa_fips205]; pubkey; sig].

Definition with_valid (c : SignatureCache) (v : cuckoo.cache) : SignatureCache :=
  mkSigCache (m_salted_hasher_ecdsa c) (m_salted_hasher_schnorr c) (m_salted_hasher_pq c) v.

Definition Get (c : SignatureCache) (entry : list Z) (erase : bool) : bool * SignatureCache :=
  let '(b, v) := cuckoo.contains (setValid c) entry erase in (b, with_valid c v).
Definition Set_ (c : SignatureCache) (entry : list Z) : SignatureCache := with_valid c (cuckoo.insert (setValid c) entry).

(** The three methods of [CachingTransactionSignatureChecker] have one shape:
    the cache first, then the check, then the cache. *)
Definition cached (store : bool) (c : SignatureCache) (entry : list Z) (valid : bool) : bool * SignatureCache :=
  let '(b, c) := Get c entry (negb store) in
  if b then (true, c) else
  if negb valid then (false, c) else
  (true, if store then Set_ c entry else c).

Section Methods.
Context `{PQLibrary} `{CurveLibrary} (store : bool).

Definition VerifyECDSASignature (c : SignatureCache) (vchSig pubkey sighash : list Z) : bool * SignatureCache :=
  cached store c (ComputeEntryECDSA c sighash vchSig pubkey) (ecdsa_verify pubkey sighash vchSig).
Definition VerifySchnorrSignature (c : SignatureCache) (sig pubkey sighash : list Z) : bool * SignatureCache :=
  cached store c (ComputeEntrySchnorr c sighash sig pubkey) (schnorr_verify pubkey sighash sig).
Definition VerifyPQSignature (c : SignatureCache) (sig pubkey : list Z) (algo : PQAlgorithm) (sighash : list Z) (slhdsa_fips205 : bool) :
    bool * SignatureCache :=
  cached store c (ComputeEntryPQ c sighash sig pubkey algo slhdsa_fips205) (CPQPubKey_Verify algo pubkey sighash sig slhdsa_fips205).
End Methods.

(** ** What an entry stands for *)
Inductive query :=
| ECDSA (hash key sig : list Z)
| Schnorr (hash key sig : list Z)
| PQ (algo : PQAlgorithm) (fips : bool) (hash key sig : list Z).

Definition query_ok (q : query) : Prop :=
  match q with
  | ECDSA hash key _ => length hash = 32%nat ∧ CPubKey_IsValid key = true
  | Schnorr hash key _ => length hash = 32%nat ∧ length key = 32%nat
  | PQ algo _ hash key _ => length hash = 32%nat ∧ zlen key = GetPQPubKeySize algo
  end.

Definition message (nonce : list Z) (q : query) : list Z :=
  match q with
  | ECDSA hash key sig => nonce ++ PADDING_ECDSA ++ hash ++ key ++ sig
  | Schnorr hash key sig => nonce ++ PADDING_SCHNORR ++ hash ++ key ++ sig
  | PQ algo fips hash key sig => nonce ++ PADDING_PQ ++ hash ++ algo_byte algo :: Z.b2z fips :: key ++ sig
  end.

(** A public key says how long it is. *)
Lemma key_prefix key key' sig sig' :
  CPubKey_IsValid key = true → CPubKey_IsValid key' = true → key ++ sig = key' ++ sig' → key = key' ∧ sig = sig'.
Proof.
  unfold CPubKey_IsValid. destruct key as [|b key], key' as [|b' key']; try done.
  intros [_ H1%Z.eqb_eq]%andb_true_iff [_ H2%Z.eqb_eq]%andb_true_iff E. injection E as -> E.
  assert (length (b' :: key) = length (b' :: key')) as Hl by (unfold zlen in *; lia).
  apply app_inj_1 in E as [-> ->]; [done|]. by injection Hl.
Qed.

#[local] Opaque fips.sha256 hash_parts.

Lemma message_inj nonce q q' : query_ok q → query_ok q' → message nonce q = message nonce q' → q = q'.
Proof.
  destruct q as [hash key sig|hash key sig|algo fips hash key sig], q' as [hash' key' sig'|hash' key' sig'|algo' fips' hash' key' sig'];
    cbn [query_ok message]; intros [Hh Hk] [Hh' Hk'] E; apply app_inv_head in E; try done;
    apply app_inv_head in E; (apply app_inj_1 in E as [-> E]; [|by rewrite Hh, Hh']).
  - by apply key_prefix in E as [-> ->].
  - by apply app_inj_1 in E as [-> ->]; [|by rewrite Hk, Hk'].
  - injection E as Ea Ef E. assert (algo = algo') as <- by by destruct algo, algo'. assert (fips = fips') as <- by by destruct fips, fips'.
    by apply app_inj_1 in E as [-> ->]; [|unfold zlen in *; lia].
Qed.

(** Some message hashes to the element of an empty place. *)
Definition zero_preimage : Prop := ∃ m, fips.sha256 m = cuckoo.no_element.

Section Sound.
Context `{PQLibrary} `{CurveLibrary} (nonce : list Z).

Definition verdict (q : query) : bool :=
  match q with
  | ECDSA hash key sig => ecdsa_verify key hash sig
  | Schnorr hash key sig => schnorr_verify key hash sig
  | PQ algo fips hash key sig => CPQPubKey_Verify algo key hash sig fips
  end.

Definition ask (store : bool) (c : SignatureCache) (q : query) : bool * SignatureCache :=
  match q with
  | ECDSA hash key sig => VerifyECDSASignature store c sig key hash
  | Schnorr hash key sig => VerifySchnorrSignature store c sig key hash
  | PQ algo fips hash key sig => VerifyPQSignature store c sig key algo hash fips
  end.

(** Every entry was found valid. *)
Record cache_sound (c : SignatureCache) : Prop := {
  sound_ecdsa : m_salted_hasher_ecdsa c = salted nonce PADDING_ECDSA;
  sound_schnorr : m_salted_hasher_schnorr c = salted nonce PADDING_SCHNORR;
  sound_pq : m_salted_hasher_pq c = salted nonce PADDING_PQ;
  sound_table : cuckoo.cache_ok (setValid c);
  sound_hashes : cuckoo.hashes (cuckoo.table (setValid c));
  sound_entries e : e ∈ cuckoo.table (setValid c) →
    e = cuckoo.no_element ∨ ∃ q, query_ok q ∧ verdict q = true ∧ e = fips.sha256 (message nonce q);
}.

Lemma salted_represents pad : represents (salted nonce pad) (nonce ++ pad).
Proof. apply sha_Write_represents, (sha_Write_represents _ []), represents_new. Qed.

Lemma ask_cached store c q : cache_sound c → ask store c q = cached store c (fips.sha256 (message nonce q)) (verdict q).
Proof.
  intros []. destruct q; cbn [ask verdict message];
    unfold VerifyECDSASignature, VerifySchnorrSignature, VerifyPQSignature, ComputeEntryECDSA, ComputeEntrySchnorr, ComputeEntryPQ;
    rewrite ?sound_ecdsa0, ?sound_schnorr0, ?sound_pq0, (hash_parts_fips _ _ _ (salted_represents _)); cbn [concat];
    rewrite ?app_nil_r, <- ?app_assoc; done.
Qed.

Lemma sound_with_valid c v :
  cache_sound c → cuckoo.cache_ok v → cuckoo.hashes (cuckoo.table v) →
  (∀ e, e ∈ cuckoo.table v → e ∈ cuckoo.table (setValid c) ∨ ∃ q, query_ok q ∧ verdict q = true ∧ e = fips.sha256 (message nonce q)) →
  cache_sound (with_valid c v).
Proof. intros [] Hv Hh Hm. split; cbn; try done. intros e He. destruct (Hm e He); [auto|by right]. Qed.

Lemma sound_Set c q : cache_sound c → query_ok q → verdict q = true → cache_sound (Set_ c (fips.sha256 (message nonce q))).
Proof.
  intros Hc Hq Hv. pose proof Hc as []. assert (cuckoo.hashes (fips.sha256 (message nonce q) :: cuckoo.table (setValid c))) as Hh
    by (constructor; [apply sha256_is_byte|done]).
  destruct (cuckoo.insert_perm _ _ sound_table0 Hh) as (H1 & _ & dropped & Hp).
  apply sound_with_valid; [done|done| |].
  - assert (cuckoo.hashes (dropped :: cuckoo.table (cuckoo.insert (setValid c) (fips.sha256 (message nonce q))))) as Hd
      by (unfold cuckoo.hashes; by rewrite Hp). by inversion Hd.
  - intros e He. assert (e ∈ fips.sha256 (message nonce q) :: cuckoo.table (setValid c)) as [->|]%elem_of_cons by (rewrite <- Hp; by right);
      [right; by exists q|by left].
Qed.

(** The cache never changes a verdict. *)
Lemma ask_verdict store c q :
  cache_sound c → query_ok q →
  (fst (ask store c q) = verdict q ∨ sha_collision ∨ zero_preimage) ∧ cache_sound (snd (ask store c q)).
Proof.
  intros Hc Hq. rewrite ask_cached by done. unfold cached, Get. set (e := fips.sha256 (message nonce q)).
  pose proof (cuckoo.contains_table (setValid c) e (negb store) (sound_table c Hc)) as (H1 & H2 & _).
  pose proof (cuckoo.contains_member (setValid c) e (negb store) (sound_table c Hc) (sha256_is_byte _)) as Hm.
  destruct (cuckoo.contains (setValid c) e (negb store)) as [b v]. cbn [fst snd] in *.
  assert (cache_sound (with_valid c v)) as Hcv.
  { apply sound_with_valid; [done|done|rewrite H2; apply (sound_hashes c Hc)|]. intros x Hx. left. by rewrite <- H2. }
  destruct b; cbn [fst snd].
  - split; [|done]. destruct (sound_entries c Hc e (Hm eq_refl)) as [Hz|(q' & Hq' & Hv' & E)]; [right; right; by exists (message nonce q)|].
    unfold e in E. apply sha256_inj in E as [E|]; [|right; by left]. apply message_inj in E as ->; [|done..]. by left.
  - destruct (verdict q) eqn:Hv; cbn [negb]; [|split; [by left|done]]. split; [by left|]. destruct store; [|done].
    by apply sound_Set.
Qed.

(** Questions one after the other, each with its [store]. *)
Fixpoint ask_all (c : SignatureCache) (qs : list (bool * query)) : list bool * SignatureCache :=
  match qs with
  | [] => ([], c)
  | (store, q) :: qs =>
      let '(b, c) := ask store c q in
      let '(bs, c) := ask_all c qs in (b :: bs, c)
  end.

Lemma ask_all_verdicts c qs :
  cache_sound c → Forall (λ q, query_ok q.2) qs → fst (ask_all c qs) = (λ q, verdict q.2) <$> qs ∨ sha_collision ∨ zero_preimage.
Proof.
  revert c. induction qs as [|[store q] qs IH]; intros c Hc Hq; [by left|]. apply list.Forall_cons in Hq as [Hq Hqs]. cbn [ask_all].
  destruct (ask_verdict store c q Hc Hq) as [Hv Hs]. destruct (ask store c q) as [b c1]. cbn [fst snd] in *.
  destruct Hv as [->|]; [|by right]. pose proof (IH c1 Hs Hqs) as Hr. destruct (ask_all c1 qs) as [bs c2]. cbn [fst] in *.
  destruct Hr as [->|]; [by left|by right].
Qed.

(** A fresh cache has no entries. *)
Lemma SignatureCache_new_sound `{cuckoo.FloatLog} bytes :
  bytes / 32 < 2 ^ 32 - 7 → 1 ≤ cuckoo.float_log2 (Z.max 2 (bytes / 32)) → cache_sound (SignatureCache_new nonce bytes).
Proof.
  intros Hb Hl.
  assert (cuckoo.history (setValid (SignatureCache_new nonce bytes)) []) as Hh.
  { cbn. unfold cuckoo.setup_bytes. rewrite Z.min_l by lia. by constructor. }
  apply cuckoo.history_members in Hh as (Hok & Hby & Hin). split; try done.
  intros e He. destruct (Hin e He) as [Hn|]; [by apply elem_of_nil in Hn|by left].
Qed.
End Sound.

End sigcache.
