(* ===== verification/SigHashLaws.v ===== *)
(** Laws of the signature hashes.

    The checker of transactions returns on the data that validation prepares;
    the cache of midstates does not change a hash; and a post-quantum signature
    hash determines what it commits to. *)

From Stdlib Require Import ZArith Lia String.
From stdpp Require Import base list numbers tactics.
From S2P Require Import Prelude Sha256 Header Coins BlockUndo TxCheck Script ScriptLaws Pqm Interpreter InterpreterLaws InterpreterSafety.
From S2P Require Import VerifyScript SigHash ShieldedFrontier PqmLaws.
Import block_header coins block_undo tx_check script script_laws pqm interpreter interpreter_safety verify_script sighash pqm_laws.

Open Scope Z_scope.

Module sighash_laws.

#[local] Opaque hash_parts TaggedHash.

(** ** The checker returns *)
Lemma vget_returns {A} (l : list A) i : 0 ≤ i < zlen l → ∃ x, vget l i = Ok x.
Proof.
  intros Hi. unfold vget. rewrite bool_decide_eq_true_2 by lia. destruct (l !! Z.to_nat i) eqn:E; [by eexists|].
  apply lookup_ge_None in E. unfold zlen in Hi. lia.
Qed.

Section Returns.
Context `{PQLibrary} `{CurveLibrary} (k : SignatureContext) (data : PrecomputedTransactionData).

Record context_ok : Prop := {
  has_data : txdata k = Some data;
  has_input : 0 ≤ nIn k < zlen (t_vin (txTo k));
  has_amount : 0 ≤ amount k;
  has_spent : m_bip341_taproot_ready data = true ∧ m_spent_outputs_ready data = true;
  has_template : m_ctv_ready data = true;
}.

Hypothesis ctx : context_ok.

Lemma same_output_hash d : d = set_output_hash d (m_output_hash d).
Proof. by destruct d. Qed.

Lemma schnorr_hash_returns v d ht :
  v = TAPROOT ∨ v = TAPSCRIPT ∨ v = P2MR → ready v d →
  SignatureHashSchnorr d (txTo k) (nIn k) ht v data (m_mdb k) = Ok None ∨
  ∃ h o, SignatureHashSchnorr d (txTo k) (nIn k) ht v data (m_mdb k) = Ok (Some (h, set_output_hash d o)).
Proof.
  intros Hv [Ha Hl]. destruct ctx as [_ Hi _ [Hr Hs] _]. unfold SignatureHashSchnorr.
  rewrite (assert_true (negb _)) by (destruct Hv as [-> |[-> | ->]]; reflexivity). rewrite (assert_true (_ <? _)) by lia. rewrite Hr, Hs, Ha. cbn [mbind result_bind negb andb assert_].
  case_match; [by left|]. case_match; [by left|]. set (o := default _ _). right.
  assert (∀ e, m_tapleaf_hash_init e = m_tapleaf_hash_init d → m_codeseparator_pos_init e = m_codeseparator_pos_init d →
    (if bool_decide (v = TAPROOT) then Ok tt else _ ← assert_ (m_tapleaf_hash_init e); assert_ (m_codeseparator_pos_init e)) = Ok tt) as Hassert.
  { intros e E1 E2. case_bool_decide as Hn; [done|]. destruct (Hl Hn) as [Hl1 Hl2]. by rewrite E1, E2, Hl1, Hl2. }
  match goal with |- context [if ?b then set_output_hash d (Some o) else d] => destruct b end; rewrite Hassert by done; cbn [mbind result_bind].
  - by do 2 eexists.
  - eexists _, (m_output_hash d). by rewrite <- same_output_hash.
Qed.

Lemma transaction_checker_laws : @CheckerLaws SigHashCache (transaction_checker k).
Proof.
  pose proof ctx as [Hd Hi Ham _ Hc]. split; cbn [CheckECDSASignature CheckSchnorrSignature CheckPQSignature CheckCTVHash CheckLockTime CheckSequence transaction_checker].
  - intros sig pubkey script v c Hv. unfold tx_CheckECDSASignature. repeat (case_match; [by do 2 eexists|]).
    replace (amount k <? 0) with false by lia. rewrite andb_false_r. unfold SignatureHash. rewrite assert_true by lia. cbn [mbind result_bind].
    case_match; [by do 2 eexists|]. case_match; by do 2 eexists.
  - intros sig pubkey v d Hv Hp Hr. unfold tx_CheckSchnorrSignature. rewrite (assert_true (_ || _)) by (destruct Hv as [-> | ->]; reflexivity).
    rewrite (assert_true (_ =? _)) by lia.
    cbn [mbind result_bind]. do 2 (case_match; [left; by eexists|]).
    match goal with |- context [if ?b then Ok (inl (Some SCRIPT_ERR_SCHNORR_SIG_HASHTYPE)) else _] => destruct b; [left; by eexists|] end. rewrite Hd.
    destruct (schnorr_hash_returns v d (if zlen sig =? 65 then znth sig 64 else SIGHASH_DEFAULT)) as [-> |(h & o & ->)]; [by destruct Hv; auto|done| |];
      cbn [mbind result_bind]; [left; eexists; reflexivity|]. destruct (schnorr_verify _ _ _); [right|left]; eexists; reflexivity.
  - intros sig pubkey algo ht d fips Hr. unfold tx_CheckPQSignature. rewrite (assert_true (bool_decide _)) by reflexivity. cbn [mbind result_bind].
    case_match; [eexists _, (m_output_hash d); by rewrite <- same_output_hash|]. rewrite Hd.
    destruct (schnorr_hash_returns P2MR d ht) as [-> |(h & o & ->)]; [by auto|done| |]; cbn [mbind result_bind].
    + eexists _, (m_output_hash d). by rewrite <- same_output_hash.
    + by do 2 eexists.
  - intros h Hh. unfold tx_CheckCTVHash. rewrite (assert_true (zlen h =? 32)) by lia. rewrite Hd. cbn [mbind result_bind]. unfold ComputeCTVHash.
    pose proof (has_spent ctx) as [Hr _]. rewrite (assert_true (nIn k <? _)) by lia. rewrite Hc, Hr, orb_true_r. cbn [mbind result_bind assert_]. by eexists.
  - intros n. unfold tx_CheckLockTime. repeat (case_match; [by eexists|]).
    destruct (vget_returns (t_vin (txTo k)) (nIn k) Hi) as [i ->]. by eexists.
  - intros n. unfold tx_CheckSequence. destruct (vget_returns (t_vin (txTo k)) (nIn k) Hi) as [i ->]. cbn [mbind result_bind].
    repeat (case_match; [by eexists|]). by eexists.
Qed.
End Returns.

(** ** The cache of midstates *)

(** The index of an entry says which of the three bits of a hash type are set. *)
Lemma CacheIndex_flags a b :
  CacheIndex a = CacheIndex b →
  fAnyoneCanPay a = fAnyoneCanPay b ∧ fHashSingle a = fHashSingle b ∧ fHashNone a = fHashNone b.
Proof.
  unfold CacheIndex, fAnyoneCanPay, fHashSingle, fHashNone, SIGHASH_SINGLE, SIGHASH_NONE.
  destruct (Z.land a SIGHASH_ANYONECANPAY =? 0), (Z.land b SIGHASH_ANYONECANPAY =? 0); cbn [negb Z.b2z];
    destruct (Z.eqb_spec (Z.land a 31) 3), (Z.eqb_spec (Z.land b 31) 3), (Z.eqb_spec (Z.land a 31) 2), (Z.eqb_spec (Z.land b 31) 2); cbn [Z.b2z]; lia || auto.
Qed.

Section Midstates.
Context (tx : Transaction) (n amount : Z) (v : SigVersion) (data : option PrecomputedTransactionData).

Definition signed_parts (script : list Z) (ht : Z) : list (list Z) :=
  if bool_decide (v = WITNESS_V0) then segwit_parts script tx n ht amount data else serialize_for_signature tx script n ht.

Lemma signed_parts_same script a b : CacheIndex a = CacheIndex b → signed_parts script a = signed_parts script b.
Proof.
  intros (E1 & E2 & E3)%CacheIndex_flags. unfold signed_parts. case_bool_decide.
  - unfold segwit_parts. unfold fAnyoneCanPay, fHashSingle, fHashNone in *. by rewrite E1, E2, E3.
  - unfold serialize_for_signature, SerializeInput, SerializeOutput. by rewrite E1, E2, E3.
Qed.

(** An entry is the midstate of its script for the hash types of its place. *)
Definition midstates_ok (m : SigHashCache) : Prop :=
  length m = 6%nat ∧
  ∀ ht script w, m !! Z.to_nat (CacheIndex ht) = Some (Some (script, w)) → w = foldl HashWriter_write HashWriter_new (signed_parts script ht).

Lemma midstates_new : midstates_ok SigHashCache_new.
Proof. split; [done|]. intros ht script w. unfold SigHashCache_new. intros [? ?]%lookup_replicate. done. Qed.

Lemma CacheIndex_bound ht : 0 ≤ CacheIndex ht < 6.
Proof.
  unfold CacheIndex, SIGHASH_SINGLE, SIGHASH_NONE.
  destruct (negb _), (Z.eqb_spec (Z.land ht 31) 3), (Z.eqb_spec (Z.land ht 31) 2); cbn [Z.b2z]; lia.
Qed.

Lemma midstates_store m script ht :
  midstates_ok m → midstates_ok (Store m ht script (foldl HashWriter_write HashWriter_new (signed_parts script ht))).
Proof.
  intros [Hl Hm]. split; [unfold Store; by rewrite length_insert|]. intros ht' script' w. unfold Store. pose proof (CacheIndex_bound ht).
  destruct (decide (CacheIndex ht' = CacheIndex ht)) as [E|Hne].
  - rewrite E, list_lookup_insert_eq by lia. intros [= <- <-]. by rewrite (signed_parts_same script ht' ht).
  - pose proof (CacheIndex_bound ht'). rewrite list_lookup_insert_ne by lia. apply Hm.
Qed.

(** With a cache the hash is the one without. *)
Lemma SignatureHash_cached m script ht :
  midstates_ok m →
  match SignatureHash script tx n ht amount v data (Some m), SignatureHash script tx n ht amount v data None with
  | Ok (h, Some m'), Ok (h', _) => h = h' ∧ midstates_ok m'
  | Err e, Err e' => e = e'
  | _, _ => False
  end.
Proof.
  intros Hm. unfold SignatureHash. destruct (assert_ _); cbn [mbind result_bind option_bind]; [|done].
  destruct (negb _ && _ && _); [done|]. fold (signed_parts script ht). destruct (Load m ht script) as [w|] eqn:El.
  - split; [|done]. unfold Load in El. destruct (m !! _) as [[[script' w']|]|] eqn:Em; try done. case_bool_decide; [|done]. injection El as <-.
    subst script'. by rewrite (proj2 Hm _ _ _ Em).
  - split; [done|]. by apply midstates_store.
Qed.
End Midstates.

(** ** What a signature commits to *)
Lemma concat_fixed (ps qs : list (list Z)) r r' :
  Forall2 (λ p q, length p = length q) ps qs → concat ps ++ r = concat qs ++ r' → ps = qs ∧ r = r'.
Proof.
  induction 1 as [|p q ps qs Hl _ IH]; [done|]. cbn [concat]. rewrite <- !app_assoc. intros E. apply app_inj_1 in E as [-> E]; [|done].
  by destruct (IH E) as [-> ->].
Qed.

Lemma part_eq i (ps qs : list (list Z)) : ps = qs → nth i ps [] = nth i qs [].
Proof. by intros ->. Qed.

(** Records that say where they end can be read back from their bytes. *)
Lemma concat_records {A B} (enc : A → list (list Z)) (f : A → B) (wf : A → Prop) l l' :
  (∀ a, concat (enc a) ≠ []) →
  (∀ a a' r r', wf a → wf a' → concat (enc a) ++ r = concat (enc a') ++ r' → f a = f a' ∧ r = r') →
  Forall wf l → Forall wf l' → concat (concat (enc <$> l)) = concat (concat (enc <$> l')) → f <$> l = f <$> l'.
Proof.
  intros Hne Hinj. revert l'. induction l as [|a l IH]; intros [|a' l'] Hl Hl' E; [done|..].
  - cbn in E. rewrite concat_app in E. symmetry in E. apply app_eq_nil in E as [E _]. by destruct (Hne a').
  - cbn in E. rewrite concat_app in E. apply app_eq_nil in E as [E _]. by destruct (Hne a).
  - apply list.Forall_cons in Hl as [Ha Hl]. apply list.Forall_cons in Hl' as [Ha' Hl']. cbn in E. rewrite !concat_app in E.
    apply Hinj in E as [E1 E2]; [|done..]. cbn. by rewrite E1, (IH l').
Qed.

Lemma length_WriteLE32 x : length (WriteLE32 x) = 4%nat.
Proof. apply length_le_bytes. Qed.

Lemma WriteLE32_inj x y : 0 ≤ x < 2 ^ 32 → 0 ≤ y < 2 ^ 32 → WriteLE32 x = WriteLE32 y → x = y.
Proof. intros Hx Hy E. apply (f_equal le_word) in E. unfold WriteLE32 in E. by rewrite !le_word_le_bytes, !Z.mod_small in E by (simpl; lia). Qed.

Lemma amount_inj x y : - 2 ^ 63 ≤ x < 2 ^ 63 → - 2 ^ 63 ≤ y < 2 ^ 63 → WriteLE64 (u64 x) = WriteLE64 (u64 y) → x = y.
Proof.
  intros Hx Hy E. apply (f_equal le_word) in E. unfold WriteLE64 in E. rewrite !le_word_le_bytes, !u64_mod in E.
  change (2 ^ (8 * Z.of_nat 8)) with (2 ^ 64) in E. rewrite !Zmod_mod in E.
  pose proof (Z.div_mod x (2 ^ 64) ltac:(done)). pose proof (Z.div_mod y (2 ^ 64) ltac:(done)).
  pose proof (Z.mod_pos_bound x (2 ^ 64) ltac:(done)). pose proof (Z.mod_pos_bound y (2 ^ 64) ltac:(done)). nia.
Qed.

Definition input_wf (i : CTxIn) : Prop := length (prevout i).1 = 32%nat ∧ 0 ≤ (prevout i).2 < 2 ^ 32 ∧ 0 ≤ nSequence i < 2 ^ 32.
Definition output_wf (o : CTxOut) : Prop := - 2 ^ 63 ≤ nValue o < 2 ^ 63 ∧ zlen (scriptPubKey o) < 2 ^ 64.

Lemma compact_nonempty n : WriteCompactSize n ≠ [].
Proof. unfold WriteCompactSize. by repeat case_match. Qed.

Lemma outpoint_nonempty o : concat (ser_outpoint o) ≠ [].
Proof. cbn. intros E. apply app_eq_nil in E as [_ E]. by destruct o. Qed.

Lemma prevouts_commit tx tx' :
  Forall input_wf (t_vin tx) → Forall input_wf (t_vin tx') → GetPrevoutsSHA256 tx = GetPrevoutsSHA256 tx' →
  prevout <$> t_vin tx = prevout <$> t_vin tx' ∨ sha_collision.
Proof.
  intros Hw Hw' E. apply plain_inj in E as [E|]; [left|by right].
  apply (concat_records (λ i, ser_outpoint (prevout i)) prevout input_wf); [intros; apply outpoint_nonempty| |done..].
  intros a a' r r' (Ha & Hn & _) (Ha' & Hn' & _). unfold ser_outpoint. intros Er. apply concat_fixed in Er as [Er ->].
  - pose proof (part_eq 0 _ _ Er) as E1. pose proof (part_eq 1 _ _ Er) as E2. cbn [nth] in E1, E2. apply WriteLE32_inj in E2; [|done..].
    split; [|done]. rewrite (surjective_pairing (prevout a)), (surjective_pairing (prevout a')). by rewrite E1, E2.
  - constructor; [by rewrite Ha, Ha'|]. constructor; [by rewrite !length_WriteLE32|constructor].
Qed.

Lemma sequences_commit tx tx' :
  Forall input_wf (t_vin tx) → Forall input_wf (t_vin tx') → GetSequencesSHA256 tx = GetSequencesSHA256 tx' →
  nSequence <$> t_vin tx = nSequence <$> t_vin tx' ∨ sha_collision.
Proof.
  intros Hw Hw' E. apply plain_inj in E as [E|]; [left|by right].
  assert (∀ l : list CTxIn, (λ i, WriteLE32 (nSequence i)) <$> l = concat ((λ i, [WriteLE32 (nSequence i)]) <$> l)) as Hl
    by (induction l as [|i l IH]; [done|]; by rewrite !fmap_cons, IH). rewrite !Hl in E.
  apply (concat_records (λ i, [WriteLE32 (nSequence i)]) nSequence input_wf) in E; [done| | |done..].
  - done.
  - intros a a' r r' (_ & _ & Hn) (_ & _ & Hn') Er. apply concat_fixed in Er as [Er ->]; [|constructor; [by rewrite !length_WriteLE32|constructor]].
    apply (part_eq 0) in Er. cbn [nth] in Er. split; [|done]. by apply WriteLE32_inj.
Qed.

Lemma script_records s s' r r' :
  zlen s < 2 ^ 64 → zlen s' < 2 ^ 64 → concat (ser_script s) ++ r = concat (ser_script s') ++ r' → s = s' ∧ r = r'.
Proof. intros Hs Hs' E. cbn in E. rewrite !app_nil_r, <- !app_assoc in E. by apply sized_inj in E. Qed.

Lemma scripts_commit outs outs' :
  Forall output_wf outs → Forall output_wf outs' → GetSpentScriptsSHA256 outs = GetSpentScriptsSHA256 outs' →
  scriptPubKey <$> outs = scriptPubKey <$> outs' ∨ sha_collision.
Proof.
  intros Hw Hw' E. apply plain_inj in E as [E|]; [left|by right].
  apply (concat_records (λ o, ser_script (scriptPubKey o)) scriptPubKey output_wf); [| |done..].
  - intros a Ea. cbn in Ea. apply app_eq_nil in Ea as [Ea _]. by apply compact_nonempty in Ea.
  - intros a a' r r' [_ Hs] [_ Hs']. by apply script_records.
Qed.

Lemma amounts_commit outs outs' :
  Forall output_wf outs → Forall output_wf outs' → GetSpentAmountsSHA256 outs = GetSpentAmountsSHA256 outs' →
  nValue <$> outs = nValue <$> outs' ∨ sha_collision.
Proof.
  intros Hw Hw' E. apply plain_inj in E as [E|]; [left|by right].
  apply (concat_records (λ o, ser_amount (nValue o)) nValue output_wf); [by intros| |done..].
  intros a a' r r' [Hv _] [Hv' _] Er. apply concat_fixed in Er as [Er ->]; [|constructor; [unfold WriteLE64; by rewrite !length_le_bytes|constructor]].
  apply (part_eq 0) in Er. cbn [nth] in Er. split; [|done]. by apply amount_inj.
Qed.

Lemma outputs_commit tx tx' :
  Forall output_wf (t_vout tx) → Forall output_wf (t_vout tx') → GetOutputsSHA256 tx = GetOutputsSHA256 tx' →
  t_vout tx = t_vout tx' ∨ sha_collision.
Proof.
  intros Hw Hw' E. apply plain_inj in E as [E|]; [left|by right]. rewrite <- (list_fmap_id (t_vout tx)), <- (list_fmap_id (t_vout tx')).
  apply (concat_records ser_txout id output_wf); [by intros| |done..].
  intros a a' r r' [Hv Hs] [Hv' Hs'] Er. unfold ser_txout in Er. rewrite !concat_app, <- !app_assoc in Er.
  apply concat_fixed in Er as [Er E2]; [|constructor; [unfold WriteLE64; by rewrite !length_le_bytes|constructor]].
  apply script_records in E2 as [E2 ->]; [|done..]. apply (part_eq 0) in Er. cbn [nth] in Er. apply amount_inj in Er; [|done..]. split; [|done].
  destruct a, a'. cbn in *. by subst.
Qed.

(** The parts for a signature of the whole transaction, as one list. *)
Definition whole_parts (d : ScriptExecutionData) (tx : Transaction) (n ht : Z) (c : PrecomputedTransactionData) : list (list Z) :=
  [[2]; [ht]; WriteLE32 (version tx); WriteLE32 (nLockTime tx); m_prevouts_single_hash c; m_spent_amounts_single_hash c;
   m_spent_scripts_single_hash c; m_sequences_single_hash c; m_outputs_single_hash c;
   [Z.shiftl 1 1 + Z.b2z (m_annex_present d)]; WriteLE32 n].
Definition leaf_parts (d : ScriptExecutionData) : list (list Z) :=
  (if m_annex_present d then [m_annex_hash d] else []) ++ [m_tapleaf_hash d; [0]; WriteLE32 (m_codeseparator_pos d)].

Definition whole (ht : Z) : Prop := ht = SIGHASH_DEFAULT ∨ ht = SIGHASH_ALL.

Lemma whole_schnorr d tx n ht c o : whole ht → schnorr_parts d tx n ht P2MR c o = whole_parts d tx n ht c ++ leaf_parts d.
Proof. by intros [-> | ->]. Qed.

(** A hash that was computed. *)
Lemma schnorr_hash_inv d tx n ht c mdb h d' :
  SignatureHashSchnorr d tx n ht P2MR c mdb = Ok (Some (h, d')) →
  ∃ o, h = hash_parts (TaggedHash "TapSighash") (schnorr_parts d tx n ht P2MR c o) ∧ n < zlen (t_vin tx) ∧
    m_bip341_taproot_ready c = true ∧ m_spent_outputs_ready c = true.
Proof.
  unfold SignatureHashSchnorr. intros (u & _ & Hr)%bind_Ok_inv. apply bind_Ok_inv in Hr as (u1 & Hn%assert_Ok_inv & Hr).
  destruct (m_bip341_taproot_ready c && m_spent_outputs_ready c) eqn:Er; cbn [negb] in Hr; [|by destruct mdb].
  apply andb_true_iff in Er as [Er1 Er2]. destruct (negb _); [done|]. apply bind_Ok_inv in Hr as (u2 & _ & Hr). destruct (_ && _); [done|].
  apply bind_Ok_inv in Hr as (u3 & _ & Hr). injection Hr as <- _. eexists. split; [|by split; [lia|]].
  by destruct (_ =? SIGHASH_SINGLE).
Qed.

Lemma Init_hashes `{BundleHash} tx w outs data :
  Init tx w outs false = Ok data → m_bip341_taproot_ready data = true →
  m_prevouts_single_hash data = GetPrevoutsSHA256 tx ∧ m_sequences_single_hash data = GetSequencesSHA256 tx ∧
  m_outputs_single_hash data = GetOutputsSHA256 tx ∧ m_spent_amounts_single_hash data = GetSpentAmountsSHA256 outs ∧
  m_spent_scripts_single_hash data = GetSpentScriptsSHA256 outs.
Proof.
  unfold Init. intros (u & _ & He)%bind_Ok_inv. destruct (scan_inputs _ _ _ _ _ _) as [segwit taproot]. injection He as <-. cbn.
  destruct taproot; [|done]. cbn [andb]. intros Hr. rewrite orb_true_r, Hr. done.
Qed.

Lemma hash_parts_length parts : length (hash_parts HashWriter_new parts) = 32%nat.
Proof. rewrite plain_fips. apply sha256_length. Qed.

(** The fields that a signature of the whole transaction covers. *)
Record covered (d d' : ScriptExecutionData) (tx tx' : Transaction) (n n' : Z) (outs outs' : list CTxOut) : Prop := {
  cover_leaf : m_tapleaf_hash d = m_tapleaf_hash d';
  cover_codeseparator : m_codeseparator_pos d = m_codeseparator_pos d';
  cover_annex : m_annex_present d = m_annex_present d';
  cover_annex_hash : m_annex_present d = true → m_annex_hash d = m_annex_hash d';
  cover_version : version tx = version tx';
  cover_locktime : nLockTime tx = nLockTime tx';
  cover_input : n = n';
  cover_prevouts : prevout <$> t_vin tx = prevout <$> t_vin tx';
  cover_sequences : nSequence <$> t_vin tx = nSequence <$> t_vin tx';
  cover_outputs : t_vout tx = t_vout tx';
  cover_scripts : scriptPubKey <$> outs = scriptPubKey <$> outs';
  cover_amounts : nValue <$> outs = nValue <$> outs';
}.

Definition data_wf (d : ScriptExecutionData) : Prop :=
  length (m_tapleaf_hash d) = 32%nat ∧ (m_annex_present d = true → length (m_annex_hash d) = 32%nat) ∧ 0 ≤ m_codeseparator_pos d < 2 ^ 32.
Definition signing_wf (tx : Transaction) (n : Z) (outs : list CTxOut) : Prop :=
  Forall input_wf (t_vin tx) ∧ Forall output_wf (t_vout tx) ∧ Forall output_wf outs ∧
  0 ≤ version tx < 2 ^ 32 ∧ 0 ≤ nLockTime tx < 2 ^ 32 ∧ 0 ≤ n < 2 ^ 32.

Lemma leaf_parts_inj d d' :
  data_wf d → data_wf d' → m_annex_present d = m_annex_present d' → concat (leaf_parts d) = concat (leaf_parts d') →
  m_tapleaf_hash d = m_tapleaf_hash d' ∧ m_codeseparator_pos d = m_codeseparator_pos d' ∧ (m_annex_present d = true → m_annex_hash d = m_annex_hash d').
Proof.
  intros (Hl & Ha & Hc) (Hl' & Ha' & Hc') Ea E. unfold leaf_parts in E. rewrite <- Ea in E, Ha'.
  assert (∀ x y : list (list Z), concat x = concat y → concat x ++ [] = concat y ++ []) as Hnil by by intros ?? ->.
  apply Hnil, concat_fixed in E as [E _].
  - destruct (m_annex_present d).
    + pose proof (part_eq 0 _ _ E) as E0. pose proof (part_eq 1 _ _ E) as E1. pose proof (part_eq 3 _ _ E) as E3. cbn [nth app] in E0, E1, E3.
      apply WriteLE32_inj in E3; [|done..]. done.
    + pose proof (part_eq 0 _ _ E) as E1. pose proof (part_eq 2 _ _ E) as E3. cbn [nth app] in E1, E3. apply WriteLE32_inj in E3; [|done..]. done.
  - destruct (m_annex_present d); [specialize (Ha eq_refl); specialize (Ha' eq_refl)|];
      repeat (apply Forall2_cons_2; [by rewrite ?Ha, ?Ha', ?Hl, ?Hl', ?length_WriteLE32|]); constructor.
Qed.

Lemma schnorr_parts_type d tx n ht c o : ∃ rest, concat (schnorr_parts d tx n ht P2MR c o) = 2 :: ht :: rest.
Proof. by eexists. Qed.

Lemma pq_hash_covers `{BundleHash} d d' tx tx' n n' ht ht' w w' outs outs' data data' mdb mdb' h e e' :
  whole ht → data_wf d → data_wf d' → signing_wf tx n outs → signing_wf tx' n' outs' →
  Init tx w outs false = Ok data → Init tx' w' outs' false = Ok data' →
  SignatureHashSchnorr d tx n ht P2MR data mdb = Ok (Some (h, e)) →
  SignatureHashSchnorr d' tx' n' ht' P2MR data' mdb' = Ok (Some (h, e')) →
  (ht = ht' ∧ covered d d' tx tx' n n' outs outs') ∨ sha_collision.
Proof.
  intros Hw Hd Hd' (Hi & Ho & Hs & Hv & Hl & Hn) (Hi' & Ho' & Hs' & Hv' & Hl' & Hn') Hin Hin' Hh Hh'.
  apply schnorr_hash_inv in Hh as (o & Hh & _ & Hr & _). apply schnorr_hash_inv in Hh' as (o' & Hh' & _ & Hr' & _).
  destruct (Init_hashes _ _ _ _ Hin Hr) as (Hp1 & Hp2 & Hp3 & Hp4 & Hp5). destruct (Init_hashes _ _ _ _ Hin' Hr') as (Hq1 & Hq2 & Hq3 & Hq4 & Hq5).
  rewrite Hh in Hh'. apply tagged_inj in Hh' as [E|]; [|by right].
  destruct (schnorr_parts_type d tx n ht data o) as [r Er]. destruct (schnorr_parts_type d' tx' n' ht' data' o') as [r' Er'].
  assert (ht = ht') as <- by (rewrite Er, Er' in E; by injection E). clear Er Er'.
  rewrite !whole_schnorr, !concat_app in E by done. apply concat_fixed in E as [E El].
  2:{ unfold whole_parts. rewrite Hp1, Hp2, Hp3, Hp4, Hp5, Hq1, Hq2, Hq3, Hq4, Hq5.
      unfold GetPrevoutsSHA256, GetSequencesSHA256, GetOutputsSHA256, GetSpentAmountsSHA256, GetSpentScriptsSHA256.
      repeat (apply Forall2_cons_2; [by rewrite ?length_WriteLE32, ?hash_parts_length|]). constructor. }
  pose proof (part_eq 2 _ _ E) as E2. pose proof (part_eq 3 _ _ E) as E3. pose proof (part_eq 4 _ _ E) as E4. pose proof (part_eq 5 _ _ E) as E5.
  pose proof (part_eq 6 _ _ E) as E6. pose proof (part_eq 7 _ _ E) as E7. pose proof (part_eq 8 _ _ E) as E8. pose proof (part_eq 9 _ _ E) as E9.
  pose proof (part_eq 10 _ _ E) as E10. clear E. unfold whole_parts in *. cbn [nth] in *.
  rewrite Hp1, Hq1 in E4. rewrite Hp4, Hq4 in E5. rewrite Hp5, Hq5 in E6. rewrite Hp2, Hq2 in E7. rewrite Hp3, Hq3 in E8.
  apply WriteLE32_inj in E2, E3, E10; [|done..].
  assert (m_annex_present d = m_annex_present d') as Ea by (destruct (m_annex_present d), (m_annex_present d'); done).
  apply leaf_parts_inj in El as (El1 & El2 & El3); [|done..].
  apply prevouts_commit in E4 as [E4|]; [|by right|done..]. apply sequences_commit in E7 as [E7|]; [|by right|done..].
  apply outputs_commit in E8 as [E8|]; [|by right|done..]. apply scripts_commit in E6 as [E6|]; [|by right|done..].
  apply amounts_commit in E5 as [E5|]; [|by right|done..]. left. by split.
Qed.

(** The hash does not depend on the shielded bundle. *)
Lemma pq_hash_ignores_bundle `{BundleHash} d tx b n ht w outs data data' mdb :
  let tx' := mkTransaction (txid tx) (version tx) (t_vin tx) (t_vout tx) (nLockTime tx) b in
  Init tx w outs false = Ok data → Init tx' w outs false = Ok data' →
  SignatureHashSchnorr d tx n ht P2MR data mdb = SignatureHashSchnorr d tx' n ht P2MR data' mdb.
Proof.
  intros tx' Hi Hi'. unfold Init in Hi, Hi'. apply bind_Ok_inv in Hi as (u & _ & Hi). apply bind_Ok_inv in Hi' as (u' & _ & Hi').
  destruct (scan_inputs _ _ _ _ _ _) as [segwit taproot]. injection Hi as <-. injection Hi' as <-. reflexivity.
Qed.

End sighash_laws.
