(* ===== verification/InputScripts.v ===== *)
(** The scripts of a transaction.

    [validation.cpp]: [CheckInputScripts] runs the script of every input, or
    queues the runs, and remembers in a cuckoo cache which transactions passed
    with which flags ([ValidationCache], [CScriptCheck]). The
    signature cache is left out of a run: [SigCache] shows that it changes no
    verdict. The witness hash
    of a transaction is a field of it, as in [CTransaction]. *)

From Stdlib Require Import ZArith Lia String.
From stdpp Require Import base list numbers tactics.
From S2P Require Import Prelude Sha256 Header Coins BlockUndo TxCheck Script ScriptLaws Pqm Interpreter InterpreterLaws VerifyScript SigHash.
From S2P Require Import ShieldedFrontier PqmLaws FlagLaws P2mrSpend ScriptFlags CuckooCache SigCache.
Import block_header coins block_undo tx_check script script_laws pqm interpreter verify_script sighash pqm_laws flag_laws script_flags sigcache.

Open Scope Z_scope.

Module input_scripts.

(** A transaction with its witnesses and its witness hash. *)
Record SignedTransaction := mkSigned { plain_tx : Transaction; scriptWitness : list (list (list Z)); m_witness_hash : list Z }.

Record ValidationCache := mkValidationCache { m_script_execution_cache_hasher : CSHA256; m_script_execution_cache : cuckoo.cache }.

Definition ValidationCache_new `{cuckoo.FloatLog} (nonce : list Z) (script_execution_cache_bytes : Z) : ValidationCache :=
  mkValidationCache (salted nonce nonce) (cuckoo.setup_bytes cuckoo.cache_new script_execution_cache_bytes).

Inductive TxValidationResult := TX_CONSENSUS | TX_NOT_STANDARD.

Section Scripts.
Context `{ScriptPrimitives} `{PQLibrary} `{TaprootLibrary} `{CurveLibrary} `{BundleHash}.

(** A check: the output spent, the input and the flags. *)
Record CScriptCheck := mkScriptCheck { m_tx_out : CTxOut; ck_nIn : Z; nFlags : Z }.

Definition check_context (tx : SignedTransaction) (txdata : PrecomputedTransactionData) (ck : CScriptCheck) : SignatureContext :=
  mkContext (plain_tx tx) ASSERT_FAIL (ck_nIn ck) (nValue (m_tx_out ck)) (Some txdata) false.

(** [CScriptCheck::operator()]: the error of a failed run. *)
Definition run_check (tx : SignedTransaction) (txdata : PrecomputedTransactionData) (ck : CScriptCheck) : result (option ScriptError) :=
  let witness := default [] (scriptWitness tx !! Z.to_nat (ck_nIn ck)) in
  r ← VerifyScript (BaseSignatureChecker0 := transaction_checker (check_context tx txdata ck)) (nFlags ck)
        (scriptSig (txin_at (plain_tx tx) (ck_nIn ck))) (scriptPubKey (m_tx_out ck)) witness SigHashCache_new;
  Ok (match r with inl e => Some e | inr _ => None end).

Fixpoint spent_coins (inputs : COutPoint → option CTxOut) (vin : list CTxIn) : result (list CTxOut) :=
  match vin with
  | [] => Ok []
  | txin :: vin =>
      o ← (match inputs (prevout txin) with Some o => Ok o | None => Err EAssert end);
      os ← spent_coins inputs vin;
      Ok (o :: os)
  end.

(** The first check that fails. *)
Fixpoint run_checks (tx : SignedTransaction) (txdata : PrecomputedTransactionData) (checks : list CScriptCheck) : result (option ScriptError) :=
  match checks with
  | [] => Ok None
  | ck :: checks =>
      r ← run_check tx txdata ck;
      match r with
      | Some e => Ok (Some e)
      | None => run_checks tx txdata checks
      end
  end.

Definition hashCacheEntry (c : ValidationCache) (tx : SignedTransaction) (flags : Z) : list Z :=
  hash_parts (m_script_execution_cache_hasher c) [m_witness_hash tx; WriteLE32 flags].

(** The outcome, the checks that were queued when [queue] asks for it, the
    precomputed data and the cache. *)
Definition CheckInputScripts (tx : SignedTransaction) (inputs : COutPoint → option CTxOut) (flags : Z) (cacheFullScriptStore : bool)
    (txdata : PrecomputedTransactionData) (c : ValidationCache) (queue : bool) :
    result (option (TxValidationResult * ScriptError) * list CScriptCheck * PrecomputedTransactionData * ValidationCache) :=
  if IsCoinBase (core (plain_tx tx)) then Ok (None, [], txdata, c) else
  let entry := hashCacheEntry c tx flags in
  let '(found, set) := cuckoo.contains (m_script_execution_cache c) entry (negb cacheFullScriptStore) in
  let c := mkValidationCache (m_script_execution_cache_hasher c) set in
  if found then Ok (None, [], txdata, c) else
  txdata ← (if m_spent_outputs_ready txdata then Ok txdata else
            spent_outputs ← spent_coins inputs (t_vin (plain_tx tx));
            Init (plain_tx tx) (scriptWitness tx) spent_outputs false);
  _ ← assert_ (zlen (m_spent_outputs txdata) =? zlen (t_vin (plain_tx tx)));
  let checks := imap (λ i o, mkScriptCheck o (Z.of_nat i) flags) (m_spent_outputs txdata) in
  if queue then Ok (None, checks, txdata, c) else
  r ← run_checks tx txdata checks;
  match r with
  | Some e =>
      let why := if negb (Z.land flags STANDARD_NOT_MANDATORY_VERIFY_FLAGS =? 0) then TX_NOT_STANDARD else TX_CONSENSUS in
      Ok (Some (why, e), [], txdata, c)
  | None =>
      Ok (None, [], txdata,
          if cacheFullScriptStore then mkValidationCache (m_script_execution_cache_hasher c) (cuckoo.insert set entry) else c)
  end.

(** ** What the cache promises *)
Section Sound.
Context (nonce : list Z) (coins : COutPoint → option CTxOut) (known : list Z → option SignedTransaction).

(** The scripts of all inputs pass with these flags. *)
Definition passes (flags : Z) (tx : SignedTransaction) : Prop :=
  ∃ outs data, spent_coins coins (t_vin (plain_tx tx)) = Ok outs ∧ Init (plain_tx tx) (scriptWitness tx) outs false = Ok data ∧
    ∀ i o, outs !! i = Some o → run_check tx data (mkScriptCheck o (Z.of_nat i) flags) = Ok None.

Definition entry_message (tx : SignedTransaction) (flags : Z) : list Z := (nonce ++ nonce) ++ m_witness_hash tx ++ WriteLE32 flags.

Record exec_sound (c : ValidationCache) : Prop := {
  exec_hasher : m_script_execution_cache_hasher c = salted nonce nonce;
  exec_table : cuckoo.cache_ok (m_script_execution_cache c);
  exec_hashes : cuckoo.hashes (cuckoo.table (m_script_execution_cache c));
  exec_entries e : e ∈ cuckoo.table (m_script_execution_cache c) →
    e = cuckoo.no_element ∨
    ∃ tx flags, known (m_witness_hash tx) = Some tx ∧ length (m_witness_hash tx) = 32%nat ∧ 0 ≤ flags < 2 ^ 32 ∧ passes flags tx ∧
      e = fips.sha256 (entry_message tx flags);
}.

#[local] Opaque fips.sha256 hash_parts.

Lemma entry_fips c tx flags : exec_sound c → hashCacheEntry c tx flags = fips.sha256 (entry_message tx flags).
Proof.
  intros []. unfold hashCacheEntry. rewrite exec_hasher0, (hash_parts_fips _ _ _ (salted_represents nonce nonce)). cbn [concat].
  by rewrite app_nil_r.
Qed.

Lemma spent_coins_agree inputs vin : (∀ i, i ∈ vin → inputs (prevout i) = coins (prevout i)) → spent_coins inputs vin = spent_coins coins vin.
Proof.
  induction vin as [|i vin IH]; intros Hi; [done|]. cbn [spent_coins]. rewrite (Hi i) by left. rewrite IH; [done|]. intros j Hj. apply Hi. by right.
Qed.

Lemma Init_outputs tx w outs data : Init tx w outs false = Ok data → m_spent_outputs data = outs.
Proof.
  unfold Init. intros (u & _ & He)%bind_Ok_inv. destruct (scan_inputs _ _ _ _ _ _). by injection He as <-.
Qed.

Lemma run_checks_None tx data checks : run_checks tx data checks = Ok None → Forall (λ ck, run_check tx data ck = Ok None) checks.
Proof.
  induction checks as [|ck checks IH]; [done|]. cbn [run_checks]. intros ([e|] & Hr & Hk)%bind_Ok_inv; [done|]. constructor; auto.
Qed.

Lemma checks_pass tx data outs flags :
  spent_coins coins (t_vin (plain_tx tx)) = Ok outs → Init (plain_tx tx) (scriptWitness tx) outs false = Ok data →
  run_checks tx data (imap (λ i o, mkScriptCheck o (Z.of_nat i) flags) (m_spent_outputs data)) = Ok None → passes flags tx.
Proof.
  intros Hs Hi Hr. exists outs, data. split; [done|]. split; [done|]. intros i o Ho. apply run_checks_None in Hr. rewrite list.Forall_forall in Hr.
  apply Hr. apply list_elem_of_lookup. exists i. rewrite list_lookup_imap, (Init_outputs _ _ _ _ Hi), Ho. done.
Qed.

(** Precomputed data that is ready was computed from the coins. *)
Definition data_ok (tx : SignedTransaction) (data : PrecomputedTransactionData) : Prop :=
  m_spent_outputs_ready data = true →
  ∃ outs, spent_coins coins (t_vin (plain_tx tx)) = Ok outs ∧ Init (plain_tx tx) (scriptWitness tx) outs false = Ok data.

Lemma sound_contains c e erase :
  exec_sound c →
  exec_sound (mkValidationCache (m_script_execution_cache_hasher c) (snd (cuckoo.contains (m_script_execution_cache c) e erase))).
Proof.
  intros []. destruct (cuckoo.contains_table (m_script_execution_cache c) e erase exec_table0) as (Hok & Ht & _).
  split; cbn; [done|done|by rewrite Ht|]. intros x. rewrite Ht. auto.
Qed.

Lemma sound_insert c tx flags :
  exec_sound c → known (m_witness_hash tx) = Some tx → length (m_witness_hash tx) = 32%nat → 0 ≤ flags < 2 ^ 32 → passes flags tx →
  exec_sound (mkValidationCache (m_script_execution_cache_hasher c)
    (cuckoo.insert (m_script_execution_cache c) (fips.sha256 (entry_message tx flags)))).
Proof.
  intros [] Hk Hl Hf Hp. assert (cuckoo.hashes (fips.sha256 (entry_message tx flags) :: cuckoo.table (m_script_execution_cache c))) as Hh
    by (constructor; [apply sha256_is_byte|done]).
  destruct (cuckoo.insert_perm _ _ exec_table0 Hh) as (Hok & _ & dropped & Hpm).
  assert (cuckoo.hashes (dropped :: cuckoo.table (cuckoo.insert (m_script_execution_cache c) (fips.sha256 (entry_message tx flags))))) as Hd
    by (unfold cuckoo.hashes; by rewrite Hpm).
  split; cbn; [done|done|by inversion Hd|].
  intros e He. assert (e ∈ fips.sha256 (entry_message tx flags) :: cuckoo.table (m_script_execution_cache c)) as [->|]%elem_of_cons
    by (rewrite <- Hpm; by right); [right; by exists tx, flags|auto].
Qed.

(** A transaction that is let through has scripts that pass. *)
Lemma CheckInputScripts_passes tx inputs flags store txdata c queue checks data' c' :
  exec_sound c → known (m_witness_hash tx) = Some tx → length (m_witness_hash tx) = 32%nat → 0 ≤ flags < 2 ^ 32 → data_ok tx txdata →
  (∀ i, i ∈ t_vin (plain_tx tx) → inputs (prevout i) = coins (prevout i)) → IsCoinBase (core (plain_tx tx)) = false →
  CheckInputScripts tx inputs flags store txdata c queue = Ok (None, checks, data', c') → run_checks tx data' checks = Ok None →
  (passes flags tx ∨ sha_collision ∨ zero_preimage) ∧ exec_sound c'.
Proof.
  intros Hc Hk Hl Hf Hd Hin Hcb Hr Hq. unfold CheckInputScripts in Hr. rewrite Hcb, (entry_fips _ _ _ Hc) in Hr.
  pose proof (sound_contains c (fips.sha256 (entry_message tx flags)) (negb store) Hc) as Hs.
  pose proof (cuckoo.contains_member (m_script_execution_cache c) (fips.sha256 (entry_message tx flags)) (negb store) (exec_table c Hc) (sha256_is_byte _)) as Hm.
  destruct (cuckoo.contains _ _ _) as [found set]. cbn [fst snd] in *. destruct found.
  { injection Hr as <- <- <-. split; [|done]. destruct (exec_entries c Hc _ (Hm eq_refl)) as [Hz|(tx' & flags' & Hk' & Hl' & Hf' & Hp & E)].
    - right. right. by eexists.
    - apply sha256_inj in E as [E|]; [|right; by left]. left. unfold entry_message in E. apply app_inv_head in E.
      apply app_inj_1 in E as [Ew E]; [|by rewrite Hl, Hl']. rewrite Ew, Hk' in Hk. injection Hk as ->.
      assert (flags = flags') as ->; [|done]. apply (f_equal le_word) in E. unfold WriteLE32 in E. rewrite !le_word_le_bytes, !Z.mod_small in E by (simpl; lia). done. }
  apply bind_Ok_inv in Hr as (data & Hdata & Hr). apply bind_Ok_inv in Hr as (u & _ & Hr).
  assert (∃ outs, spent_coins coins (t_vin (plain_tx tx)) = Ok outs ∧ Init (plain_tx tx) (scriptWitness tx) outs false = Ok data) as (outs & Ho & Hi).
  { destruct (m_spent_outputs_ready txdata) eqn:Er; [injection Hdata as <-; by apply Hd|].
    apply bind_Ok_inv in Hdata as (outs & Ho & Hi). exists outs. by rewrite <- (spent_coins_agree inputs) by done. }
  destruct queue.
  { injection Hr as <- <- <-. split; [left; by eapply checks_pass|done]. }
  apply bind_Ok_inv in Hr as ([e|] & Hrun & Hr); [done|]. assert (passes flags tx) as Hp by by eapply checks_pass.
  injection Hr as <- <- <-. split; [by left|]. destruct store; [|done].
  by apply (sound_insert (mkValidationCache (m_script_execution_cache_hasher c) set) tx flags).
Qed.

(** A new cache promises nothing. *)
Lemma ValidationCache_new_sound `{cuckoo.FloatLog} bytes :
  bytes / 32 < 2 ^ 32 - 7 → 1 ≤ cuckoo.float_log2 (Z.max 2 (bytes / 32)) → exec_sound (ValidationCache_new nonce bytes).
Proof.
  intros Hb Hl. assert (cuckoo.history (m_script_execution_cache (ValidationCache_new nonce bytes)) []) as Hh.
  { cbn. unfold cuckoo.setup_bytes. rewrite Z.min_l by lia. by constructor. }
  apply cuckoo.history_members in Hh as (Hok & Hby & Hin). split; try done.
  intros e He. destruct (Hin e He) as [Hn|]; [by apply elem_of_nil in Hn|by left].
Qed.
End Sound.
End Scripts.

End input_scripts.
