(* ===== verification/SpendSafety.v ===== *)
(** No spend stops the program.

    [VerifyScript] returns for every script signature, output script and
    witness: neither its assertions nor those of what it calls can fail. *)

From Stdlib Require Import ZArith Lia String.
From stdpp Require Import base list numbers tactics.
From S2P Require Import Prelude Sha256 Header Script ScriptLaws Pqm Interpreter InterpreterLaws InterpreterSafety VerifyScript FlagLaws P2mrSpend.
Import block_header script script_laws pqm interpreter condition_stacks interpreter_safety verify_script flag_laws p2mr_spend.

Open Scope Z_scope.

Module spend_safety.

(** The computation ends with a result or an error of its own. *)
Definition returns {A} (P : A → Prop) (m : exec A) : Prop :=
  match m with Ok (inr a) => P a | Ok (inl _) => True | Err _ => False end.

Lemma returns_bind {A B} (P : A → Prop) (Q : B → Prop) m f : returns P m → (∀ a, P a → returns Q (f a)) → returns Q (ebind m f).
Proof. destruct m as [[]|]; simpl; auto. Qed.

Lemma returns_weaken {A} (P Q : A → Prop) m : (∀ a, P a → Q a) → returns P m → returns Q m.
Proof. destruct m as [[]|]; simpl; auto. Qed.

Lemma returns_lift {A} (P : A → Prop) (m : result A) a : m = Ok a → P a → returns P (lift m).
Proof. by intros ->. Qed.

Lemma returns_fail_if b e : returns (λ _, True) (fail_if b e).
Proof. by destruct b. Qed.

(** What the loops over a script return. *)
Lemma ops_loop_result {S A} (P : A → Prop) n (bad done : S → A) step p s :
  (∀ s, P (bad s)) → (∀ s, P (done s)) → (∀ op d s a, step op d s = inr a → P a) → P (ops_loop n bad done step p s).
Proof.
  intros Hb Hd Hs. revert p s. induction n as [|n IH]; intros p s; [apply Hd|]. destruct p as [|b p]; [apply Hd|]. cbn [ops_loop].
  destruct (GetScriptOp (b :: p)) as [[[ok op] data] p']. destruct ok; [|apply Hb]. destruct (step op data s) eqn:E; [apply IH|by eapply Hs].
Qed.

Lemma DecodeOP_N_returns b :
  is_byte b → b = opcode_value OP_0 ∨ opcode_value OP_1 ≤ b ≤ opcode_value OP_16 → ∃ n, DecodeOP_N (to_opcode b) = Ok n.
Proof.
  intros Hb Hr. unfold DecodeOP_N, op_is, op_le. rewrite to_opcode_value by done. destruct Hr as [->|Hr]; [by eexists|].
  destruct (b =? opcode_value OP_0); [by eexists|]. rewrite assert_true by lia. by eexists.
Qed.

Lemma IsWitnessProgram_returns s : Forall is_byte s → ∃ p, IsWitnessProgram s = Ok p ∧ ∀ v q, p = Some (v, q) → q = drop 2 s ∧ zlen q ≤ 40.
Proof.
  intros Hs. unfold IsWitnessProgram. destruct ((zlen s <? 4) || (42 <? zlen s)) eqn:El; [by eexists|].
  destruct (negb (znth s 0 =? opcode_value OP_0) && _) eqn:Ev; [by eexists|]. case_match; [|by eexists].
  apply orb_false_iff in El as [El1 El2]. pose proof (zlen_nonneg s).
  assert (is_byte (znth s 0)) as Hb by (rewrite Forall_znth in Hs; apply Hs; lia).
  destruct (DecodeOP_N_returns (znth s 0) Hb) as [n ->]; [lia|]. eexists. split; [done|]. intros v q [= <- <-]. split; [done|].
  unfold zlen in *. rewrite length_drop. lia.
Qed.

Section Returns.
Context `{ScriptPrimitives, !PrimitiveLaws} `{PQLibrary} `{TaprootLibrary} {C : Type} `{!BaseSignatureChecker C, !CheckerLaws C}.
Context (flags : Z).

Definition short_bytes (e : list Z) : Prop := Forall is_byte e ∧ zlen e < NO_FALSE.

Lemma eval_returns v s script d (c : C) :
  v ≠ TAPROOT → Forall (elem_ok v) s → short_bytes script → exec_ready v (set_codeseparator d 0xffffffff) →
  returns (λ r, Forall (elem_ok v) r.1.1) (EvalScript (V:=ConditionStack) flags v s script d c).
Proof.
  intros Hv Hs [Hb Hl] Hr. destruct (EvalScript_safe flags v s script d c Hv Hs Hb Hl Hr) as [_ He].
  destruct (EvalScript flags v s script d c) as [[|[[s' d'] c']]|]; cbn; [done|by destruct He|done].
Qed.

Lemma check_elements_returns v n elems :
  returns (λ _, Forall (λ e, zlen e ≤ max_push_size v) elems) (check_elements v n elems).
Proof.
  revert n. induction elems as [|e elems IH]; intros n; cbn [check_elements]; [by constructor|].
  destruct (Z.ltb_spec (max_push_size v) (zlen e)); [done|]. case_match; [done|].
  eapply returns_weaken; [|apply IH]. intros u Hf. by constructor.
Qed.

Lemma scan_returns v script m : scan_op_success flags v script = Some m → returns (λ _, True) m.
Proof.
  unfold scan_op_success, over_ops.
  apply (ops_loop_result (λ a, a = Some m → returns (λ _, True) m)); [intros u [= <-]; exact Logic.I|done|].
  intros op d u a Ha ->. destruct (if bool_decide (v = TAPSCRIPT) then _ else _); [|done]. injection Ha as <-.
  destruct (flag flags SCRIPT_VERIFY_DISCOURAGE_OP_SUCCESS); exact Logic.I.
Qed.

Lemma execute_returns stack script v d (c : C) :
  v ≠ TAPROOT → Forall (Forall is_byte) stack → short_bytes script → exec_ready v (set_codeseparator d 0xffffffff) →
  returns (λ _, True) (ExecuteWitnessScript flags stack script v d c).
Proof.
  intros Hv Hs Hsc Hr. unfold ExecuteWitnessScript. 
  destruct (if bool_decide (v = TAPSCRIPT) || bool_decide (v = P2MR) then scan_op_success flags v script else None) as [m|] eqn:Em.
  { assert (returns (λ _, True) m) by (destruct (bool_decide (v = TAPSCRIPT) || bool_decide (v = P2MR)); [by eapply scan_returns|done]).
    by destruct m as [[]|]. }
  eapply returns_bind; [apply returns_fail_if|intros _ _]. eapply returns_bind; [apply check_elements_returns|intros u Hl].
  eapply returns_bind; [apply eval_returns; [done| |done..]|].
  - cbn in Hl. rewrite list.Forall_forall in *. intros e He. split; [by apply Hs|]. apply (Hl e). by apply elem_of_reverse.
  - intros [[s1 d1] c1] _. destruct s1 as [|top [|]]; [done| |done]. by destruct (CastToBool top).
Qed.

Lemma p2wpkh_bytes program : Forall is_byte program → zlen program ≤ 40 → short_bytes (p2wpkh_script program).
Proof.
  intros Hb Hl. pose proof (zlen_nonneg program). unfold p2wpkh_script, push_data, AppendDataSize. replace (zlen program <? 76) with true by lia. split.
  - cbn [app push_opcode]. repeat (apply list.Forall_cons; split; [unfold is_byte; cbn; lia|]). apply Forall_app; split; [done|].
    repeat (apply list.Forall_cons; split; [unfold is_byte; cbn; lia|]). constructor.
  - unfold push_opcode. rewrite !zlen_app, !zlen_cons. change (zlen (@nil Z)) with 0. unfold NO_FALSE. lia.
Qed.

Lemma v0_ready d : exec_ready WITNESS_V0 d.
Proof. by intros [|]. Qed.
Lemma base_ready d : exec_ready BASE d.
Proof. by intros [|]. Qed.

Lemma tail_Forall {A} (P : A → Prop) x l : Forall P (x :: l) → P x ∧ Forall P l.
Proof. by rewrite list.Forall_cons. Qed.

Lemma short_Forall stack : Forall short_bytes stack → Forall (Forall is_byte) stack.
Proof. intros Hs. eapply list.Forall_impl; [exact Hs|]. by intros e []. Qed.

Lemma take_annex_shape least stack rest d :
  Forall short_bytes stack → take_annex least stack = (rest, d) →
  Forall short_bytes rest ∧ m_annex_init d = true ∧ zlen stack - 1 ≤ zlen rest ∧ (zlen stack < least → rest = stack).
Proof.
  intros Hs. unfold take_annex.
  destruct stack as [|[|b annex] stack]; [intros [= <- <-]; split_and!; done || lia..|].
  destruct (Z.leb_spec least (zlen ((b :: annex) :: stack))); destruct (b =? ANNEX_TAG); cbn [andb]; intros [= <- <-];
    (split; [first [exact Hs|by apply tail_Forall in Hs as [_ ?]]|]); split_and!; rewrite ?zlen_cons in *; done || lia || (intros; lia).
Qed.

Lemma tap_ready v d leaf w : m_annex_init d = true → exec_ready v (set_codeseparator (set_budget (set_leaf d leaf) w) 0xffffffff).
Proof. intros Ha _. by split; [split|]. Qed.

Lemma verify_p2mr_returns witness stack program (c : C) :
  Forall short_bytes stack → returns (λ _, True) (verify_p2mr flags witness stack program c).
Proof.
  intros Hs. unfold verify_p2mr. destruct (Z.ltb_spec (zlen stack) 2); [done|].
  destruct (take_annex 3 stack) as [rest d] eqn:Ea. apply take_annex_shape in Ea as (Hr & Hi & Hl & Heq); [|done].
  destruct rest as [|control [|script rest]].
  - change (zlen (@nil (list Z))) with 0 in Hl. lia.
  - change (zlen [control]) with 1 in Hl. destruct (Z.ltb_spec (zlen stack) 3) as [Hlt|]; [|lia]. rewrite <- (Heq Hlt) in *. done.
  - do 2 (case_match; [done|]). do 2 (case_match; [done|]). apply tail_Forall in Hr as [_ Hr]. apply tail_Forall in Hr as [Hsc Hr].
    apply execute_returns; [done|by apply short_Forall|done|by apply tap_ready].
Qed.

Lemma verify_v0_returns stack program (c : C) :
  Forall short_bytes stack → Forall is_byte program → zlen program ≤ 40 → returns (λ _, True) (verify_v0 flags stack program c).
Proof.
  intros Hs Hp Hl. unfold verify_v0. case_match.
  - destruct stack as [|script stack]; [done|]. apply tail_Forall in Hs as [Hsc Hs]. case_match; [|done].
    apply execute_returns; [done|by apply short_Forall|done|apply v0_ready].
  - case_match; [|done]. case_match; [done|]. apply execute_returns; [done|by apply short_Forall|by apply p2wpkh_bytes|apply v0_ready].
Qed.

Lemma sized_control_spec control base node limit :
  sized_control control base node limit = true → base ≤ zlen control ≤ limit ∧ (zlen control - base) mod node = 0.
Proof. unfold sized_control. intros Hs. lia. Qed.

Lemma VerifyTaprootCommitment_returns control program leaf :
  sized_control control TAPROOT_CONTROL_BASE_SIZE TAPROOT_CONTROL_NODE_SIZE TAPROOT_CONTROL_MAX_SIZE = true → zlen program = 32 →
  ∃ b, VerifyTaprootCommitment control program leaf = Ok b.
Proof.
  intros ([Hl Hu] & Hm)%sized_control_spec Hp. unfold VerifyTaprootCommitment, ComputeTaprootMerkleRoot.
  rewrite !(assert_true (_ <=? _)) by lia. cbn [mbind result_bind]. rewrite assert_true by lia. by eexists.
Qed.

Lemma verify_taproot_returns witness stack program (c : C) :
  Forall short_bytes stack → zlen program = 32 → returns (λ _, True) (verify_taproot flags witness stack program c).
Proof.
  intros Hs Hp. unfold verify_taproot. case_match; [done|]. destruct (Z.eqb_spec (zlen stack) 0); [done|]. pose proof (zlen_nonneg stack).
  destruct (take_annex 2 stack) as [rest d] eqn:Ea. apply take_annex_shape in Ea as (Hr & Hi & Hl & Heq); [|done].
  destruct rest as [|control [|script rest]].
  - change (zlen (@nil (list Z))) with 0 in Hl. destruct (Z.ltb_spec (zlen stack) 2) as [Hlt|]; [|lia]. rewrite <- (Heq Hlt) in *. done.
  - destruct (schnorr_returns control program TAPROOT d) as [[e ->]|[h ->]]; [by left|done|by split|done|done].
  - case_match; [done|].
    match goal with E : negb (sized_control _ _ _ _) = false |- _ => apply negb_false_iff in E;
      edestruct (VerifyTaprootCommitment_returns control program) as [b ->]; [exact E|exact Hp|] end. cbn [lift ebind ret].
    case_match; [done|]. case_match; [|by case_match]. apply tail_Forall in Hr as [_ Hr]. apply tail_Forall in Hr as [Hsc Hr].
    apply execute_returns; [done|by apply short_Forall|done|by apply tap_ready].
Qed.

Lemma program_returns witness ver program p2sh (c : C) :
  Forall short_bytes witness → Forall is_byte program → zlen program ≤ 40 →
  returns (λ _, True) (VerifyWitnessProgram flags witness ver program p2sh c).
Proof.
  intros Hw Hp Hl. unfold VerifyWitnessProgram. assert (Forall short_bytes (reverse witness)) as Hr by by apply Forall_reverse.
  case_match; [by apply verify_v0_returns|].
  destruct ((ver =? 1) && (zlen program =? WITNESS_V1_TAPROOT_SIZE) && negb p2sh) eqn:E1.
  { apply verify_taproot_returns; [done|]. unfold WITNESS_V1_TAPROOT_SIZE in E1. lia. }
  case_match; [by apply verify_p2mr_returns|]. case_match; [done|]. by case_match.
Qed.

Lemma drop_bytes n s : Forall is_byte s → Forall is_byte (drop n s).
Proof. apply list.Forall_drop. Qed.

Lemma verify_witness_returns witness spk malleated e p2sh stack (c : C) :
  Forall short_bytes witness → Forall is_byte spk → Forall (elem_ok BASE) stack →
  returns (λ r, True) (verify_witness flags witness spk malleated e p2sh stack c).
Proof.
  intros Hw Hb Hs. unfold verify_witness. case_match; [done|]. destruct (IsWitnessProgram_returns spk Hb) as (p & -> & Hp). cbn [lift ebind ret].
  destruct p as [[ver program]|]; [|done]. destruct (Hp ver program eq_refl) as [-> Hl]. case_match; [done|].
  eapply returns_bind; [apply program_returns; [done|by apply drop_bytes|done]|]. done.
Qed.

Lemma top_is_true_returns stack : returns (λ _, True) (top_is_true stack).
Proof. unfold top_is_true. destruct stack; [done|]. by case_match. Qed.

(** A pay-to-script-hash output fails on an empty stack. *)
Lemma p2sh_needs_stack spk d (c : C) : IsPayToScriptHash spk = true → ¬ accepts (EvalScript (V:=ConditionStack) flags BASE [] spk d c).
Proof.
  unfold IsPayToScriptHash. intros [[[Hl Hb]%andb_true_iff _]%andb_true_iff _]%andb_true_iff [r Hr]. apply Z.eqb_eq in Hb.
  destruct spk as [|b spk]; [done|]. change (b = 169) in Hb. subst b.
  unfold EvalScript in Hr. cbn [lift assert_ ebind] in Hr. apply bind_ok in Hr as (u & _ & Hr). case_match; [done|].
  cbn [length eval_loop start pc] in Hr. done.
Qed.

Lemma verify_p2sh_returns witness sig stack had (c : C) :
  Forall short_bytes witness → Forall (elem_ok BASE) stack → stack ≠ [] → returns (λ _, True) (verify_p2sh flags witness sig stack had c).
Proof.
  intros Hw Hs Hne. unfold verify_p2sh. case_match; [done|]. destruct stack as [|key stack]; [done|]. apply tail_Forall in Hs as [[Hk Hkl] Hs].
  eapply returns_bind; [apply eval_returns; [done|done| |apply base_ready]|].
  { split; [done|]. change (max_push_size BASE) with 520 in Hkl. unfold NO_FALSE. lia. }
  intros [[s1 d1] c1] Hs1. cbn in Hs1. eapply returns_bind; [apply top_is_true_returns|intros _ _].
  eapply returns_bind; [by apply verify_witness_returns|]. by intros [[had' s2] c2] _.
Qed.

(** Flags that the last checks of [VerifyScript] accept. *)
Definition flags_ok : Prop :=
  (flag flags SCRIPT_VERIFY_CLEANSTACK = true → flag flags SCRIPT_VERIFY_WITNESS = true) ∧
  (flag flags SCRIPT_VERIFY_WITNESS = true → flag flags SCRIPT_VERIFY_P2SH = true).

Lemma last_checks_returns witness r : flags_ok → returns (λ _, True) (last_checks (C:=C) flags witness r).
Proof.
  intros [Hc Hw]. destruct r as [[had stack] c]. unfold last_checks. eapply (returns_bind (λ _, True)).
  - case_match; [|done]. specialize (Hc eq_refl). rewrite Hc, (Hw Hc). cbn [assert_ lift ebind ret]. apply returns_fail_if.
  - intros _ _. case_match; [|done]. rewrite Hw by done. cbn [assert_ lift ebind ret]. by case_match.
Qed.

(** No spend makes the program stop. *)
Lemma VerifyScript_returns sig spk witness (c : C) :
  flags_ok → short_bytes sig → short_bytes spk → Forall short_bytes witness →
  returns (λ _, True) (VerifyScript flags sig spk witness c).
Proof.
  intros Hf Hsig Hspk Hw. unfold VerifyScript. eapply returns_bind; [apply returns_fail_if|intros _ _].
  eapply returns_bind; [apply eval_returns; [done|constructor|done|apply base_ready]|]. intros [[copy d1] c1] Hcopy. cbn in Hcopy.
  destruct (EvalScript flags BASE copy spk execdata_new c1) as [[|[[stack d2] c2]]|] eqn:E2; cbn [ebind]; [done| |].
  2:{ pose proof (eval_returns BASE copy spk execdata_new c1 ltac:(done) Hcopy Hspk (base_ready _)) as Hr. by rewrite E2 in Hr. }
  pose proof (eval_returns BASE copy spk execdata_new c1 ltac:(done) Hcopy Hspk (base_ready _)) as Hst. rewrite E2 in Hst. cbn in Hst.
  eapply returns_bind; [apply top_is_true_returns|intros _ _].
  eapply returns_bind; [apply verify_witness_returns; [done|by destruct Hspk|done]|]. intros [[had s3] c3] _.
  eapply (returns_bind (λ _, True)); [|intros r _; apply (last_checks_returns witness r Hf)].
  destruct (flag flags SCRIPT_VERIFY_P2SH && IsPayToScriptHash spk) eqn:Ep; [|done]. apply andb_true_iff in Ep as [_ Ep].
  apply verify_p2sh_returns; [done|done|]. intros ->. apply (p2sh_needs_stack spk execdata_new c1 Ep). by exists (stack, d2, c2).
Qed.
End Returns.

End spend_safety.
