(* ===== verification/InputSafety.v ===== *)
(** Checking the scripts of an input returns.

    The data that [CheckInputScripts] prepares is what the checker needs: no
    input that spends a Merkle-root output with a witness makes an assertion
    fail, whatever its scripts and its witness are. *)

From Stdlib Require Import ZArith Lia String.
From stdpp Require Import base list numbers tactics.
From S2P Require Import Prelude Sha256 Header Coins BlockUndo TxCheck Script ScriptLaws Pqm Interpreter InterpreterLaws InterpreterSafety.
From S2P Require Import VerifyScript SigHash SigHashLaws P2mrSpend SpendSafety InputScripts.
Import coins tx_check script script_laws pqm interpreter interpreter_safety verify_script sighash sighash_laws p2mr_spend spend_safety input_scripts.

Open Scope Z_scope.

Module input_safety.

Section Returns.
Context `{ScriptPrimitives, !PrimitiveLaws} `{PQLibrary} `{TaprootLibrary} `{CurveLibrary} `{BundleHash}.

Lemma scan_keeps ready outs pos ws a : snd (scan_inputs ready outs pos ws a true) = true.
Proof.
  revert pos a. induction ws as [|w ws IH]; intros pos a; cbn [scan_inputs]; [by destruct (a && true)|].
  repeat case_match; [done|apply IH..].
Qed.

(** An input with a witness on such an output makes the scan find it. *)
Lemma scan_finds ready outs i pos ws a b w :
  ws !! i = Some w → w ≠ [] → spends_taproot ready outs (pos + i) = true → snd (scan_inputs ready outs pos ws a b) = true.
Proof.
  revert i pos a b. induction ws as [|w0 ws IH]; intros i pos a b Hw Hne Ht; [done|]. cbn [scan_inputs].
  destruct (a && b) eqn:Eab; [by apply andb_true_iff in Eab as [_ ->]|]. destruct i as [|i].
  - injection Hw as ->. destruct w as [|e w]; [done|]. rewrite zlen_cons. replace (1 + zlen w =? 0) with false by (pose proof (zlen_nonneg w); lia).
    rewrite Nat.add_0_r in Ht. rewrite Ht. apply scan_keeps.
  - cbn in Hw. rewrite <- Nat.add_succ_comm in Ht. repeat case_match; by apply (IH i).
Qed.

(** The precomputed data of a transaction with such an input is ready. *)
Lemma Init_ready tx ws outs data i o w program :
  Init tx ws outs false = Ok data → outs !! i = Some o → scriptPubKey o = p2mr_output program → zlen program = 32 →
  ws !! i = Some w → w ≠ [] →
  m_bip341_taproot_ready data = true ∧ m_spent_outputs_ready data = true ∧ m_ctv_ready data = true ∧ m_spent_outputs data = outs ∧
  zlen outs = zlen (t_vin tx).
Proof.
  intros Hi Ho Hp Hl Hw Hne. unfold Init in Hi. apply bind_Ok_inv in Hi as (u & Hz & Hi).
  assert (negb (zlen outs =? 0) = true) as Hr by (apply lookup_lt_Some in Ho; unfold zlen; lia). rewrite Hr in *. apply assert_Ok_inv in Hz.
  pose proof (scan_finds true outs i 0 ws false false w Hw Hne) as Hs.
  destruct (scan_inputs true outs 0 ws false false) as [segwit taproot]. cbn in Hs. rewrite Hs in Hi.
  - injection Hi as <-. cbn. split_and!; done || lia.
  - unfold spends_taproot. rewrite Ho. cbn [default from_option id]. rewrite Hp. unfold p2mr_output, push_data, AppendDataSize. rewrite Hl. cbn [app Z.ltb Z.compare Pos.compare Pos.compare_cont].
    rewrite !zlen_cons, Hl. done.
Qed.

Lemma p2mr_output_bytes program : Forall is_byte program → zlen program = 32 → short_bytes (p2mr_output program).
Proof.
  intros Hb Hl. unfold p2mr_output, push_data, AppendDataSize. rewrite Hl. cbn [app Z.ltb Z.compare Pos.compare Pos.compare_cont]. split.
  - repeat (apply list.Forall_cons; split; [unfold is_byte; cbn; lia|]). done.
  - rewrite !zlen_cons, Hl. done.
Qed.

Lemma run_check_returns tx outs data flags i o w program :
  flags_ok flags → Init (plain_tx tx) (scriptWitness tx) outs false = Ok data → outs !! i = Some o →
  scriptPubKey o = p2mr_output program → zlen program = 32 → Forall is_byte program → 0 ≤ nValue o →
  scriptWitness tx !! i = Some w → w ≠ [] → Forall short_bytes w → short_bytes (scriptSig (txin_at (plain_tx tx) (Z.of_nat i))) →
  ∃ r, run_check tx data (mkScriptCheck o (Z.of_nat i) flags) = Ok r.
Proof.
  intros Hf Hi Ho Hp Hl Hb Hv Hw Hne Hsw Hsig. destruct (Init_ready _ _ _ _ _ _ _ _ Hi Ho Hp Hl Hw Hne) as (Hr1 & Hr2 & Hr3 & Hr4 & Hz).
  set (ck := mkScriptCheck o (Z.of_nat i) flags). set (k := check_context tx data ck).
  assert (context_ok k data) as Hk.
  { split; cbn; [done| |done|done|done]. apply lookup_lt_Some in Ho. rewrite <- Hz. unfold zlen. lia. }
  unfold run_check. fold k. cbn [ck_nIn ck nFlags m_tx_out]. rewrite Nat2Z.id, Hw, Hp. cbn [default from_option id].
  pose proof (@VerifyScript_returns _ _ _ _ _ (transaction_checker k) (transaction_checker_laws k data Hk) flags
    (scriptSig (txin_at (plain_tx tx) (Z.of_nat i))) (p2mr_output program) w SigHashCache_new Hf Hsig (p2mr_output_bytes _ Hb Hl) Hsw) as Hret.
  destruct (VerifyScript _ _ _ _ _) as [r|]; [by eexists|done].
Qed.
End Returns.
End input_safety.
