(* ===== verification/Witnesses.v ===== *)
(** Concrete instances.

    A small network, a short chain with a fork and 2 x 2 operands, at which
    the hypotheses of the development's theorems hold. *)

From Stdlib Require Import ZArith Lia String.
From stdpp Require Import base list numbers gmap tactics relations.
From S2P Require Import Prelude Sha256 Field FieldInverse Matrix Noise Transcript Replay Multiply SharedCache ArithUint256 Compact Freivalds LowRank MatMulPow Params Difficulty BlockIndex ChainWork AsertParams Credit Asert Retarget Header HeaderPow.
Import matmul_pow block_header header_pow field noise transcript blocked shared_cache arith_uint256 freivalds lowrank Consensus difficulty block_index chain_work asert_params credit asert retarget.

Open Scope Z_scope.

(** ** Machines *)
Definition toy_platform : Platform := {|
  arm_neon := true; apple := false; hardware_concurrency := 8; blocked_multiply_threads := Some 2;
  noise_parallel := None; solve_worker_limit := 0
|}.
#[local] Existing Instance toy_platform.

(** A BLAS whose product is exact. *)
Definition toy_blas : Blas := {|
  have_accelerate := true; amx_experiment := Some 49;
  dgemm := λ m n k a b, ztab (m * n) (λ q, zsum k (λ t, znth a (q / n * k + t) * znth b (t * n + q mod n)))
|}.
#[local] Existing Instance toy_blas.

Lemma toy_blas_exact : ExactBlas.
Proof. intros m n k a b _ _ _ _ _ _ _ _. reflexivity. Qed.
#[local] Existing Instance toy_blas_exact.

(** ** Operands *)
Definition toy_A : Matrix := mkMatrix 2 2 [1; 2; 3; 4].
Definition toy_B : Matrix := mkMatrix 2 2 [5; 6; 7; 8].
Definition toy_sigma : list Z := replicate 32 7.
Definition toy_np : NoisePair := noise_pair toy_sigma 2 1.

Ltac canon := repeat constructor; unfold is_byte, is_digit, canonical, MODULUS; lia.

Lemma toy_A_wf : wf toy_A.
Proof. split; cbn [m_rows m_cols m_data toy_A]; [lia|lia|reflexivity|canon]. Qed.
Lemma toy_B_wf : wf toy_B.
Proof. split; cbn [m_rows m_cols m_data toy_B]; [lia|lia|reflexivity|canon]. Qed.
Lemma toy_blocked : blocked toy_A toy_B 1.
Proof. split; cbn [m_rows m_cols toy_A toy_B]; first [apply toy_A_wf|apply toy_B_wf|reflexivity|lia]. Qed.
Lemma toy_noise : noise_ok toy_np 2 1.
Proof. apply noise_pair_ok; lia. Qed.
Lemma toy_product_conformant : conformant toy_A toy_B (mmul toy_A toy_B).
Proof.
  split; cbn [m_rows m_cols toy_A toy_B mmul mat_of]; first [apply toy_A_wf|apply toy_B_wf|apply wf_mmul; [apply toy_A_wf|apply toy_B_wf]|lia].
Qed.

(** A product that is wrong in one entry. *)
Definition toy_wrong : Matrix := mkMatrix 2 2 [19; 22; 43; 51].
Lemma toy_wrong_conformant : conformant toy_A toy_B toy_wrong.
Proof.
  split; cbn [m_rows m_cols toy_A toy_B toy_wrong]; try lia; [apply toy_A_wf|apply toy_B_wf|].
  split; cbn [m_rows m_cols m_data toy_wrong]; [lia|lia|reflexivity|canon].
Qed.

Lemma dot_backends_agree_witness :
  canon_list [1; 2; 3; 4; 5] ∧ ScalarDot [1; 2; 3; 4; 5] [2; 2; 2; 2; 2147483646] 5 = Ok (15 mod MODULUS) ∧
  NeonDot [1; 2; 3; 4; 5] [2; 2; 2; 2; 2147483646] 5 = ScalarDot [1; 2; 3; 4; 5] [2; 2; 2; 2; 2147483646] 5.
Proof.
  assert (canon_list [1; 2; 3; 4; 5]) as H1 by canon. assert (canon_list [2; 2; 2; 2; 2147483646]) as H2 by canon.
  destruct (dot_backends_agree [1; 2; 3; 4; 5] [2; 2; 2; 2; 2147483646] 5 H1 H2 ltac:(unfold zlen; cbn; lia)
    ltac:(unfold zlen; cbn; lia) ltac:(lia)) as (E1 & E2 & _).
  split; [exact H1|]. split; [exact E1|exact E2].
Defined.

Lemma inverse_correct_witness : canonical 3 ∧ ∃ i, inv 3 = Ok i ∧ field.mul 3 i = Ok 1.
Proof.
  assert (canonical 3) as H by (unfold canonical, MODULUS; lia). pose proof (inverse_correct 3 H) as Hi.
  split; [exact H|]. destruct (decide (3 = 0)) as [E|E]; [discriminate E|]. destruct Hi as (i & E1 & _ & E2 & _). eauto.
Defined.

Lemma canonical_matmul_product_witness :
  blocked toy_A toy_B 1 ∧ ∃ r, CanonicalMatMul toy_A toy_B 1 toy_sigma = Ok r ∧ C_prime r = mkMatrix 2 2 [19; 22; 43; 50].
Proof.
  split; [apply toy_blocked|]. destruct (canonical_matmul_product toy_A toy_B 1 toy_sigma toy_blocked) as (r & E & EC & _).
  exists r. split; [exact E|]. rewrite EC. reflexivity.
Defined.

Lemma replay_equals_canonical_witness :
  ∃ clean res, PrecomputeCleanBlockProducts toy_A toy_B 1 = Ok clean ∧
    ReplayCanonicalHashWithReusableCleanProducts toy_A toy_B clean toy_np 1 toy_sigma = Ok (transcript_hash res).
Proof.
  destruct (replay_equals_canonical toy_A toy_B toy_np 1 1 toy_sigma toy_blocked toy_noise ltac:(lia)) as (clean & res & E1 & _ & E2 & _).
  exists clean, res. split; [exact E1|exact E2].
Defined.

Lemma any_interleaving_multiplies_witness :
  tileable toy_A toy_B 1 ∧ MultiplyBlocked toy_A toy_B 1 = Ok (mkMatrix 2 2 [19; 22; 43; 50]).
Proof.
  assert (tileable toy_A toy_B 1) as Ht by (split; cbn [m_rows m_cols toy_A toy_B]; first [apply toy_A_wf|apply toy_B_wf|lia]).
  split; [exact Ht|]. destruct (any_interleaving_multiplies toy_A toy_B 1 Ht) as (ts & _ & _ & _ & E). rewrite E. reflexivity.
Defined.

Lemma shared_cache_safe_witness :
  ∃ s, system_ok (mkSystem [] [Called toy_sigma 1; Called toy_sigma 1]) ∧
    step (mkSystem [] [Called toy_sigma 1; Called toy_sigma 1]) s ∧ system_ok s.
Proof.
  assert (system_ok (mkSystem [] [Called toy_sigma 1; Called toy_sigma 1])) as Hok.
  { split; [apply cache_ok_empty|]. repeat constructor. }
  assert (step (mkSystem [] [Called toy_sigma 1; Called toy_sigma 1]) (mkSystem [] [Missed toy_sigma 1; Called toy_sigma 1])) as Hs.
  { apply (step_thread [] [Called toy_sigma 1; Called toy_sigma 1] 0%nat (Called toy_sigma 1) [] (Missed toy_sigma 1)); [reflexivity|]. apply step_miss. reflexivity. }
  eexists. split; [exact Hok|]. split; [exact Hs|]. exact (proj1 (shared_cache_safe _ _ Hok (rtc_once _ _ Hs))).
Defined.

Lemma arith_refines_integers_witness :
  is_arith (of_u64 WIDTH 100) ∧ ∃ q, div (of_u64 WIDTH 100) (of_u64 WIDTH 7) = Ok q ∧ val q = 14.
Proof.
  destruct (of_u64_ok 100 ltac:(lia)) as [H1 V1]. destruct (of_u64_ok 7 ltac:(lia)) as [H2 V2]. split; [exact H1|].
  destruct (arith_refines_integers (of_u64 WIDTH 100) (of_u64 WIDTH 7) H1 H2) as (_ & _ & _ & Hd & _).
  rewrite V1, V2 in Hd. cbn in Hd. destruct Hd as (q & E & _ & V). exists q. split; [exact E|exact V].
Defined.

Lemma compact_bits_roundtrip_witness :
  is_arith (of_u64 WIDTH 1000000) ∧ ∃ c v, GetCompact (of_u64 WIDTH 1000000) false = Ok c ∧ SetCompact c = (v, false, false).
Proof.
  destruct (of_u64_ok 1000000 ltac:(lia)) as [H1 V1]. split; [exact H1|].
  destruct (compact_bits_roundtrip _ _ H1 H1) as (c & d & v & w & E1 & E2 & _). exists c, v. split; [exact E1|exact E2].
Defined.

Lemma freivalds_verdict_witness :
  conformant toy_A toy_B (mmul toy_A toy_B) ∧
  ∃ res, freivalds.Verify toy_A toy_B (mmul toy_A toy_B) toy_sigma 2 = Ok res ∧ passed res = true.
Proof.
  split; [apply toy_product_conformant|].
  destruct (freivalds_verdict toy_A toy_B (mmul toy_A toy_B) toy_sigma 2 toy_product_conformant ltac:(lia)) as (res & E & _ & Hc & _).
  exists res. split; [exact E|]. apply Hc. reflexivity.
Defined.


Lemma denoise_exact_witness :
  Denoise (mmul (perturb toy_A (E_L toy_np) (E_R toy_np)) (perturb toy_B (F_L toy_np) (F_R toy_np))) toy_A toy_B toy_np false
    = Ok (mmul toy_A toy_B, false).
Proof.
  apply (denoise_exact toy_A toy_B toy_np 2 1 false).
  split; [split; [apply toy_A_wf|split; reflexivity]|split; [apply toy_B_wf|split; reflexivity]|apply toy_noise].
Defined.

(** A small network: ASERT from height 2, a version-4 fork at height 4 that
    halves the target, stall recovery from height 6, 2 x 2 matrices. *)
Definition toy_params : Params := {|
  powLimit := replicate 32 255;
  powLimitUpgrade := replicate 32 0;
  hashGenesisBlock := replicate 32 0;
  fPowAllowMinDifficultyBlocks := false;
  fPowNoRetargeting := false;
  enforce_BIP94 := false;
  fMatMulPOW := true;
  fKAWPOW := false;
  nKAWPOWHeight := INT32_MAX;
  nPowTargetSpacing := 90;
  nPowTargetTimespan := 9000;
  nPowTargetSpacingFastMs := 250;
  nPowTargetSpacingNormal := 90;
  nFastMineHeight := 2;
  nFastMineDifficultyScale := 4;
  nDgwWindowAlignmentHeight := INT32_MAX;
  nDgwAsymmetricClampHeight := INT32_MAX;
  nDgwEasingBoostHeight := INT32_MAX;
  nDgwSlewGuardHeight := INT32_MAX;
  nMatMulAsertHeight := 2;
  nMatMulAsertHalfLife := 14400;
  nMatMulAsertBootstrapFactor := 40;
  nMatMulAsertRetuneHeight := INT32_MAX;
  nMatMulAsertRetuneHardeningFactor := 1;
  nMatMulAsertRetune2Height := INT32_MAX;
  nMatMulAsertRetune2TargetNum := 1;
  nMatMulAsertRetune2TargetDen := 1;
  nMatMulAsertHalfLifeUpgradeHeight := INT32_MAX;
  nMatMulAsertHalfLifeUpgrade := 14400;
  nMatMulPowLimitUpgradeHeight := INT32_MAX;
  nMatMulStallRecoveryHeight := 6;
  nMatMulStallRecoveryAsertNum := 1;
  nMatMulStallRecoveryAsertDen := 1;
  nMatMulMaxBlockTimeAdvance := 600;
  nMatMulAsertClampedMinInterval := 0;
  nMatMulMaxFutureMtpDriftHeight := 0;
  nMatMulMaxFutureMtpDrift := 3600;
  nMatMulV4Height := 4;
  nMatMulV4AsertRescaleNum := 1;
  nMatMulV4AsertRescaleDen := 2;
  nMatMulV4Dimension := 64;
  nMatMulV4TranscriptBlockSize := 16;
  nMatMulBMX4CHeight := INT32_MAX;
  nMatMulBMX4CAsertRescaleNum := 1;
  nMatMulBMX4CAsertRescaleDen := 1;
  nMatMulDRLTHeight := INT32_MAX;
  nMatMulDRLTAsertRescaleNum := 1;
  nMatMulDRLTAsertRescaleDen := 1;
  nMatMulRCHeight := INT32_MAX;
  nMatMulRCProfile := 1;
  nMatMulRCAsertRescaleNum := 1;
  nMatMulRCAsertRescaleDen := 1;
  fMatMulRCUseToyDims := false;
  nMatMulRCCoupledHeight := INT32_MAX;
  nMatMulRCCoupledAsertRescaleNum := 1;
  nMatMulRCCoupledAsertRescaleDen := 1;
  fMatMulRCCoupledUseToyDims := false;
  fMatMulLTSealAsPoW := false;
  nMatMulHeaderPoWDiscountBits := 8;
  nMatMulPreHashEpsilonBits := 0;
  nMatMulPreHashEpsilonBitsUpgradeHeight := INT32_MAX;
  nMatMulPreHashEpsilonBitsUpgrade := 0;
  nMatMulDimension := 2;
  nMatMulMinDimension := 1;
  nMatMulMaxDimension := 2048;
  nMatMulTranscriptBlockSize := 2;
  nMatMulNoiseRank := 1;
  nMatMulNonceSeedHeight := 1;
  nMatMulParentMtpSeedHeight := 3;
  fMatMulFreivaldsEnabled := true;
  nMatMulFreivaldsRounds := 2;
  nMatMulFreivaldsBindingHeight := 1;
  nMatMulProductDigestHeight := 2;
  fMatMulRequireProductPayload := false;
|}.

(** ** Proof of work *)
Definition toy_config : PowConfig := mkConfig 2 2 1 (bnot (zero WIDTH)).
Definition toy_state : PowState :=
  mkState 1 (replicate 32 1) (replicate 32 2) 1000 0x2100ffff (replicate 32 3) (replicate 32 4) 5 2 (replicate 32 0).

Lemma bytes_ok n x : 0 ≤ x < 256 → length (replicate n x) = n ∧ Forall is_byte (replicate n x).
Proof. intros Hx. split; [apply length_replicate|]. by apply Forall_replicate. Qed.

Lemma toy_config_typed : config_typed toy_config.
Proof. split; cbn [toy_config cfg_b cfg_r cfg_target]; [lia|lia|apply bnot_arith, zero_arith]. Qed.

Lemma toy_state_ok : state_ok toy_state.
Proof. split; cbn [toy_state ps_matmul_dim ps_digest ps_nonce]; first [apply bytes_ok; lia|lia]. Qed.

(** The state with the digest of its transcript. *)
Definition toy_solved : PowState := set_digest toy_state (pow_hash toy_state toy_config).

Lemma verify_decides_witness : state_ok toy_solved ∧ valid_pow toy_solved toy_config ∧ matmul_pow.Verify toy_solved toy_config = Ok true.
Proof.
  assert (state_ok toy_solved) as Hs by apply (solve_state_ok toy_config toy_state toy_state_ok).
  assert (valid_pow toy_solved toy_config) as Hv.
  { split; [reflexivity|]. split; [reflexivity|]. split; [|reflexivity].
    destruct (pow_hash_bytes toy_state toy_config) as [Hl Hb]. pose proof (le_word_bound _ Hb) as Hw. unfold zlen in Hw. rewrite Hl in Hw.
    unfold meets. cbn [toy_solved set_digest ps_digest toy_config cfg_target]. rewrite (proj2 (bnot_arith _ (proj1 zero_arith))), (proj2 zero_arith).
    change (8 * Z.of_nat 32) with 256 in Hw. lia. }
  split; [exact Hs|]. split; [exact Hv|]. rewrite (verify_decides toy_solved toy_config Hs toy_config_typed).
  by rewrite bool_decide_true.
Defined.

Lemma solve_outcome_verifies_witness :
  ∃ ok s left, Solve toy_state toy_config 3 (mkOptions 0 0) 0 (λ _, 0) = Ok (ok, s, left) ∧ (left ≤ 3)%nat ∧
    (ok = true → matmul_pow.Verify s toy_config = Ok true).
Proof.
  destruct (solve_outcome_verifies toy_state toy_config 3 (mkOptions 0 0) 0 (λ _, 0) toy_state_ok toy_config_typed eq_refl eq_refl ltac:(lia))
    as (ok & s & left & E & Hl & _ & Hv).
  exists ok, s, left. split; [exact E|]. split; [exact Hl|exact Hv].
Defined.

(** ** Headers and blocks *)
Definition toy_header : CBlockHeader :=
  matmul_pow.mkHeader 1 (replicate 32 1) (replicate 32 2) 1000 0x2100ffff 5 0 2 (replicate 32 3) (replicate 32 4) (replicate 32 0).

Lemma toy_header_typed : header_typed toy_header.
Proof.
  split; cbn [toy_header h_nVersion h_hashPrevBlock h_hashMerkleRoot h_nTime h_nBits h_nNonce64 h_nNonce h_matmul_dim h_seed_a h_seed_b
    h_matmul_digest]; first [apply bytes_ok; lia|lia].
Qed.

Lemma header_wire_roundtrip_witness :
  ∃ bytes, Serialize [] toy_header = bytes ∧ length bytes = 182%nat ∧ Unserialize (bytes ++ [9]) = Ok (drop_nonce toy_header, [9]).
Proof.
  destruct (header_wire_roundtrip toy_header [] [9] toy_header_typed) as (bytes & E1 & E2 & E3 & _).
  exists bytes. split; [exact E1|]. split; [exact E2|exact E3].
Defined.

Lemma parse_unambiguous_witness :
  Forall is_byte [253; 0; 1; 77] ∧ ReadCompactSize true [253; 0; 1; 77] = Ok (256, [77]) ∧ [253; 0; 1; 77] = WriteCompactSize 256 ++ [77].
Proof.
  assert (Forall is_byte [253; 0; 1; 77]) as Hb by canon. split; [exact Hb|].
  assert (ReadCompactSize true [253; 0; 1; 77] = Ok (256, [77])) as E by reflexivity. split; [exact E|].
  apply (proj2 (parse_unambiguous [253; 0; 1; 77] Hb) true 256 [77] E).
Defined.

Lemma seeds_recomputable_witness :
  ∃ h, SetDeterministicMatMulSeeds toy_header toy_params 3 (Some 900) = (true, h) ∧
    SetDeterministicMatMulSeeds h toy_params 3 (Some 900) = (true, h).
Proof.
  eexists. split; [reflexivity|]. apply (seeds_recomputable toy_header toy_params 3 (Some 900) true _ [] [] eq_refl).
Defined.

Definition set_matmul_digest (h : CBlockHeader) (d : list Z) : CBlockHeader :=
  matmul_pow.mkHeader (h_nVersion h) (h_hashPrevBlock h) (h_hashMerkleRoot h) (h_nTime h) (h_nBits h) (h_nNonce64 h) (h_nNonce h)
    (h_matmul_dim h) (h_seed_a h) (h_seed_b h) d.

(** The header mined for a transcript, and the one mined for a product. *)
Definition toy_transcript_header : CBlockHeader := set_matmul_digest toy_header
  [20; 211; 106; 250; 35; 207; 228; 63; 147; 8; 149; 247; 209; 87; 58; 40;
   42; 192; 107; 108; 146; 226; 187; 182; 192; 95; 11; 91; 239; 99; 99; 237].
Definition toy_product_header : CBlockHeader := set_matmul_digest toy_header
  [186; 4; 123; 152; 160; 162; 100; 40; 56; 68; 148; 191; 149; 52; 75; 244;
   192; 133; 91; 253; 104; 9; 98; 231; 225; 129; 106; 126; 184; 61; 110; 193].

Lemma set_digest_typed h d :
  header_typed h → length d = 32%nat → Forall is_byte d → header_typed (set_matmul_digest h d).
Proof. intros [H1 H2 H3 H4 H5 H6 H7 H8 H9 H10 H11] Hl Hb. split; try assumption. split; assumption. Qed.

Lemma toy_pow_typed h : header_typed h → pow_typed h toy_params.
Proof.
  intros Hh. split; [exact Hh|..]; cbn [toy_params powLimit nMatMulTranscriptBlockSize nMatMulNoiseRank nMatMulFreivaldsRounds
    nMatMulHeaderPoWDiscountBits nMatMulPreHashEpsilonBits nMatMulPreHashEpsilonBitsUpgrade]; first [apply bytes_ok; lia|lia].
Qed.

Lemma toy_transcript_typed : pow_typed toy_transcript_header toy_params.
Proof. apply toy_pow_typed, set_digest_typed; [apply toy_header_typed|reflexivity|canon]. Qed.

Lemma toy_prev_not_null : ¬ is_null (replicate 32 1).
Proof. intros H. apply IsNull_spec in H. discriminate H. Qed.


Definition toy_block : CBlock := mkBlock toy_product_header [] [] [].

Lemma toy_block_typed : block_typed toy_block toy_params.
Proof.
  split; [apply toy_pow_typed, set_digest_typed; [apply toy_header_typed|reflexivity|canon]|repeat constructor|split; reflexivity].
Qed.

Lemma toy_phase1 : phase1_valid toy_product_header toy_params.
Proof. apply Phase1_ok; [apply toy_block_typed|]. vm_compute. reflexivity. Qed.

Lemma mined_block_accepted_witness :
  ∃ mined c1 c2, PopulateFreivaldsPayload toy_block toy_params [] = Ok (mined, c1) ∧
    CheckMatMulProofOfWork_ProductCommitted mined toy_params 3 c1 = Ok (true, c2).
Proof.
  destruct (mined_block_accepted toy_block toy_params 3 [] toy_block_typed cache_ok_empty eq_refl eq_refl toy_prev_not_null toy_phase1
    ltac:(cbn; unfold MATMUL_V2_ABS_MAX_DIM; lia) ltac:(cbn; lia) ltac:(cbn; lia) ltac:(cbn; lia) ltac:(left; reflexivity)
    ltac:(vm_compute; reflexivity)) as (mined & c1 & c2 & E1 & _ & E2).
  exists mined, c1, c2. split; [exact E1|exact E2].
Defined.

(** The block with its payload. *)
Definition toy_mined : CBlock := set_c_data toy_block (m_data (product toy_product_header toy_params)).

Lemma toy_mined_typed : block_typed toy_mined toy_params.
Proof. apply mined_typed, toy_block_typed. Qed.


(** The same payload on a header that was mined for the transcript. *)
Definition toy_bound : CBlock := mkBlock toy_transcript_header [] [] (matrix_c_data toy_mined).

Lemma toy_bound_typed : block_typed toy_bound toy_params.
Proof. destruct toy_mined_typed as [_ Hw _]. split; [apply toy_transcript_typed|exact Hw|split; reflexivity]. Qed.

Lemma freivalds_check_binds_witness :
  IsMatMulProductDigestActive toy_params 1 = false ∧ freivalds_valid toy_bound toy_params 1 ∧
  phase2_valid toy_transcript_header toy_params 1.
Proof.
  destruct (freivalds_check_binds toy_bound toy_params 1 [] toy_bound_typed cache_ok_empty) as [(ok & cache & E & _ & Hok) Hb].
  assert (ok = true) as ->.
  { apply (f_equal (λ r, match r with Ok (b, _) => b | Err _ => false end)) in E. rewrite <- E. vm_compute. reflexivity. }
  assert (freivalds_valid toy_bound toy_params 1) as Hv by (by apply Hok).
  split; [reflexivity|]. split; [exact Hv|]. exact (Hb eq_refl Hv).
Defined.

Lemma grind_outcome_witness :
  pow_typed toy_header toy_params ∧ IsMatMulHeaderPoWEnabled toy_params = true ∧
  ∃ k : nat, (k ≤ 4)%nat ∧ GetHash (nth_try toy_header (Z.of_nat k)) = GetHash toy_header.
Proof.
  assert (pow_typed toy_header toy_params) as Ht by apply (toy_pow_typed _ toy_header_typed).
  split; [exact Ht|]. split; [reflexivity|]. destruct (grind_outcome toy_header toy_params 4 Ht eq_refl) as (k & Hk & _ & E & _).
  exists k. split; [exact Hk|exact E].
Defined.

(** ** Targets *)
Definition toy_anchor : list Z := of_u64 WIDTH 1000000.
Definition toy_limit : list Z := UintToArith256 (replicate 32 255).

Lemma toy_limit_ok : is_arith toy_limit ∧ val toy_limit = 2 ^ 256 - 1.
Proof. destruct (UintToArith256_val (replicate 32 255)) as [H E]; [apply bytes_ok; lia|]. split; [exact H|]. unfold toy_limit. rewrite E. reflexivity. Qed.
Lemma toy_anchor_ok : is_arith toy_anchor ∧ val toy_anchor = 1000000.
Proof. apply of_u64_ok. lia. Qed.

Lemma asert_doubles_per_half_life_witness :
  denotes (CalculateMatMulAsertTarget toy_anchor (90 * (10 + 1) + 3 * 14400) 10 14400 90 toy_limit) 8000000.
Proof.
  destruct toy_anchor_ok as [Ha Va], toy_limit_ok as [Hl Vl].
  pose proof (asert_doubles_per_half_life toy_anchor toy_limit 3 10 14400 90 Ha Hl ltac:(lia) ltac:(rewrite Va; unfold MAX; lia)
    ltac:(split; lia) ltac:(lia)) as H.
  rewrite Va, Vl in H. exact H.
Defined.

Lemma asert_target_monotone_witness :
  ∃ r r', CalculateMatMulAsertTarget toy_anchor 900 10 14400 90 toy_limit = Ok r ∧
          CalculateMatMulAsertTarget toy_anchor 1800 10 14400 90 toy_limit = Ok r' ∧ val r ≤ val r'.
Proof.
  destruct toy_anchor_ok as [Ha Va], toy_limit_ok as [Hl Vl].
  destruct (asert_target_monotone toy_anchor toy_limit 900 1800 10 14400 90 Ha Hl ltac:(lia) ltac:(split; lia) ltac:(split; lia))
    as (r & r' & E & E' & _ & _ & Hm).
  exists r, r'. split; [exact E|]. split; [exact E'|]. apply Hm; [lia|rewrite Va; unfold MAX; lia|lia].
Defined.
