(* ===== verification/ChainWitnesses.v ===== *)
(** Concrete chains.

    A block index of eight headers with a fork and version-4 headers that have
    no bodies, at which the hypotheses of the index, work and retarget
    theorems hold. *)

From Stdlib Require Import ZArith Lia String.
From stdpp Require Import base list numbers gmap tactics relations.
From S2P Require Import Prelude ArithUint256 Compact Params Difficulty BlockIndex ChainWork AsertParams Credit Asert Retarget VersionBits Witnesses.
Import arith_uint256 Consensus difficulty block_index chain_work asert_params credit asert retarget versionbits.

Open Scope Z_scope.

(** ** A chain

    Eight blocks on the main branch, version 4 from the fifth on with no
    bodies received, and a fork at height 2. *)
Definition toy_hash (k : Z) : list Z := replicate 32 k.
Definition toy_work : Z := 4295032833.

Definition toy_entry (prev skip : option Z) (height work auth time : Z) : CBlockIndex :=
  mkIndex (toy_hash <$> prev) (toy_hash <$> skip) height (of_u64 WIDTH (toy_work * work)) (of_u64 WIDTH (toy_work * auth))
    BLOCK_VALID_TREE time 0x1d00ffff time 0 0.

Definition toy_list : list (list Z * CBlockIndex) :=
  [(toy_hash 0, toy_entry None None 0 1 1 1000); (toy_hash 1, toy_entry (Some 0) (Some 0) 1 2 2 1090);
   (toy_hash 2, toy_entry (Some 1) (Some 0) 2 3 3 1180); (toy_hash 3, toy_entry (Some 2) (Some 1) 3 4 4 1270);
   (toy_hash 4, toy_entry (Some 3) (Some 0) 4 5 4 1360); (toy_hash 5, toy_entry (Some 4) (Some 1) 5 6 4 1450);
   (toy_hash 6, toy_entry (Some 5) (Some 4) 6 7 4 1540); (toy_hash 7, toy_entry (Some 6) (Some 1) 7 8 4 1630);
   (toy_hash 9, toy_entry (Some 1) (Some 0) 2 3 3 1200)].

Definition toy_index : BlockMap := list_to_map toy_list.

Lemma toy_in p b : toy_index !! p = Some b → (p, b) ∈ toy_list.
Proof. apply elem_of_list_to_map_2. Qed.

(** Runs [tac] once per entry. *)
Ltac toy_cases H :=
  apply toy_in in H; unfold toy_list in H;
  repeat (apply elem_of_cons in H as [H|H]; [injection H as -> ->|]); [..|by apply not_elem_of_nil in H].

Lemma toy_linked : linked toy_index.
Proof.
  split.
  - intros p b H. toy_cases H; cbn [nHeight toy_entry]; lia.
  - intros p b H. toy_cases H; cbn; first [reflexivity|discriminate].
  - intros p b q H Hq. toy_cases H; cbn in Hq; try discriminate Hq; injection Hq as <-;
      eexists; (split; [vm_compute; reflexivity|reflexivity]).
  - intros p b k H Hk. toy_cases H; cbn in Hk; try discriminate Hk; injection Hk as <-; (split; [reflexivity|vm_compute; reflexivity]).
Qed.

Lemma toy_tip : toy_index !! toy_hash 7 = Some (toy_entry (Some 6) (Some 1) 7 8 4 1630).
Proof. vm_compute. reflexivity. Qed.
Lemma toy_fork : toy_index !! toy_hash 9 = Some (toy_entry (Some 1) (Some 0) 2 3 3 1200).
Proof. vm_compute. reflexivity. Qed.

Lemma get_ancestor_walks_pprev_witness :
  linked toy_index ∧ GetAncestor toy_index (toy_hash 7) 2 = Ok (Some (toy_hash 2)).
Proof.
  split; [apply toy_linked|]. destruct (get_ancestor_walks_pprev toy_index (toy_hash 7) _ toy_linked toy_tip) as [H _].
  rewrite (H 2). vm_compute. reflexivity.
Defined.

Lemma toy_times_follow : times_follow_median toy_index.
Proof.
  intros p b q m H Hq Hm. toy_cases H; cbn in Hq; try discriminate Hq; injection Hq as <-; vm_compute in Hm; injection Hm as <-; cbn; lia.
Qed.

Lemma median_time_past_monotone_witness :
  ∃ m m', GetMedianTimePast toy_index (toy_hash 3) = Ok m ∧ GetMedianTimePast toy_index (toy_hash 7) = Ok m' ∧ m ≤ m'.
Proof.
  destruct (median_time_past_monotone toy_index 4 (toy_hash 7) _ (toy_hash 3) toy_linked toy_times_follow toy_tip
    ltac:(vm_compute; reflexivity)) as (m & m' & _ & E & E' & Hm & _).
  exists m, m'. split; [exact E|]. split; [exact E'|exact Hm].
Defined.

Definition toy_chain : list (option (list Z)) := (λ k, Some (toy_hash k)) <$> [0; 1; 2; 3; 4; 5; 6; 7].

Lemma toy_chain_of : chain_of toy_index toy_chain (toy_hash 7).
Proof.
  eexists. split; [apply toy_tip|]. split; [reflexivity|]. cbn [nHeight toy_entry]. intros i Hi.
  assert (i ∈ [0; 1; 2; 3; 4; 5; 6; 7]) as H by (rewrite !elem_of_cons; lia).
  repeat (apply elem_of_cons in H as [->|H]; [vm_compute; reflexivity|]). by apply not_elem_of_nil in H.
Qed.

Lemma last_common_ancestor_highest_witness :
  ∃ r, LastCommonAncestor toy_index (toy_hash 7) (toy_hash 9) = Ok r ∧ is_fork_point toy_index (toy_hash 7) (toy_hash 9) 2 r.
Proof.
  exact (proj1 (last_common_ancestor_highest toy_index (toy_hash 7) (toy_hash 9) _ _ toy_chain toy_linked toy_tip toy_fork toy_chain_of)).
Defined.

Lemma set_tip_rebuilds_chain_witness :
  ∃ v, SetTip toy_index toy_chain (toy_hash 9) = Ok v ∧ zlen v = 3 ∧ at_height v 2 = Some (toy_hash 9).
Proof.
  destruct (set_tip_rebuilds_chain toy_index toy_chain (toy_hash 9) _ toy_linked
    (or_intror (ex_intro _ (toy_hash 7) toy_chain_of)) toy_fork) as (v & E & Hn & Ht & _).
  exists v. split; [exact E|]. split; [exact Hn|exact Ht].
Defined.

Lemma locator_descends_witness :
  ∃ l, LocatorEntries toy_index (Some (toy_hash 7)) = Ok l ∧ locator toy_index (toy_hash 7) l.
Proof.
  destruct (locator_descends toy_index (toy_hash 7) _ toy_linked toy_tip) as (l & E & H & _). exists l. split; [exact E|exact H].
Defined.

(** ** Work *)
Lemma toy_block_work : block_work 0x1d00ffff = toy_work.
Proof. vm_compute. reflexivity. Qed.

Lemma toy_entry_typed prev skip height work auth time :
  0 ≤ work ≤ 8 → 0 ≤ auth ≤ 8 → typed (toy_entry prev skip height work auth time) ∧
  val (nChainWork (toy_entry prev skip height work auth time)) = toy_work * work ∧
  val (nAuthenticatedChainWork (toy_entry prev skip height work auth time)) = toy_work * auth.
Proof.
  intros Hw Ha. cbn [nChainWork nAuthenticatedChainWork toy_entry].
  destruct (of_u64_ok (toy_work * work)) as [H1 E1]; [unfold toy_work; lia|].
  destruct (of_u64_ok (toy_work * auth)) as [H2 E2]; [unfold toy_work; lia|].
  split; [split; [exact H1|exact H2|cbn [nBits toy_entry]; lia]|]. split; [exact E1|exact E2].
Qed.

Lemma toy_entries p b : toy_index !! p = Some b → ∃ prev skip height work auth time,
  b = toy_entry prev skip height work auth time ∧ 0 ≤ auth ≤ work ∧ work ≤ 8 ∧ length p = 32%nat ∧ 0 ≤ time < 2 ^ 31.
Proof. intros H. toy_cases H; eexists _, _, _, _, _, _; (split; [reflexivity|]); (split; [lia|]); (split; [lia|]); (split; [reflexivity|lia]). Qed.

Lemma toy_pre : pre_ok toy_index.
Proof.
  split; [apply toy_linked|..].
  - intros p b H. apply toy_entries in H as (? & ? & ? & ? & ? & ? & -> & ? & ? & _). apply toy_entry_typed; lia.
  - intros p b H. toy_cases H; vm_compute; reflexivity.
Qed.

Lemma toy_settled p b : toy_index !! p = Some b → settled toy_params toy_index b.
Proof. intros H. toy_cases H; eexists; (split; [vm_compute; reflexivity|vm_compute; reflexivity]). Qed.

Lemma toy_tree : tree_ok toy_params toy_index.
Proof. destruct toy_pre as [H1 H2 H3]. split; [exact H1|exact H2|exact H3|exact toy_settled]. Qed.

Definition toy_manager : BlockManager := mkManager toy_index ∅ ∅ (Some (toy_hash 7)).
Definition toy_next : Header := mkHeader (toy_hash 8) (toy_hash 7) 1720 0x1d00ffff.

Lemma toy_room c : toy_index !! toy_hash 7 = Some c →
  nHeight c < INT32_MAX ∧ val (nChainWork c) + block_work 0x1d00ffff < 2 ^ 256.
Proof. rewrite toy_tip. intros [= <-]. vm_compute. split; reflexivity. Qed.

Lemma add_to_block_index_preserves_witness :
  ∃ b m', AddToBlockIndex toy_manager toy_params toy_next = Ok m' ∧ tree_ok toy_params (m_block_index m') ∧
    m_block_index m' !! toy_hash 8 = Some b ∧ nHeight b = 8.
Proof.
  pose proof (add_to_block_index_preserves toy_params toy_manager toy_next toy_tree ltac:(discriminate) ltac:(cbn; lia) toy_room
    ltac:(intros h [= <-]; exists (toy_entry (Some 6) (Some 1) 7 8 4 1630); exact toy_tip)) as H.
  assert (m_block_index toy_manager !! h_hash toy_next = None) as E by (vm_compute; reflexivity).
  rewrite E in H. destruct H as (b & m' & E1 & E2 & Ht & _ & _ & Eh). exists b, m'. split; [exact E1|]. split; [exact Ht|].
  split; [rewrite E2; apply lookup_insert_eq|]. rewrite Eh. vm_compute. reflexivity.
Defined.

Lemma toy_rankable : rankable toy_index 6.
Proof.
  intros p b H. pose proof (pr_typed _ toy_pre p b H) as Ht. apply toy_entries in H as (? & ? & ? & ? & ? & ? & -> & ? & ? & Hn & _).
  destruct (toy_entry_typed x x0 x1 x2 x3 x4 ltac:(lia) ltac:(lia)) as (_ & E1 & E2). split; [split; [exact Ht|]|].
  - rewrite E1, E2. unfold toy_work. lia.
  - split; [|exact Hn]. split; [lia|]. cbn [nBits toy_entry]. rewrite toy_block_work. unfold toy_work. lia.
Qed.

Lemma header_preference_order_witness :
  rankable toy_index 6 ∧ PreferTrustAdjustedHeader toy_index (toy_hash 9) (toy_hash 7) 6 =
    Ok (bool_decide (prefers toy_index 6 (toy_hash 9) (toy_hash 7))).
Proof.
  split; [exact toy_rankable|].
  exact (proj1 (header_preference_order toy_index 6 toy_rankable) _ _ _ _ toy_fork toy_tip).
Defined.

Lemma forged_suffix_gains_nothing_witness :
  ∃ b c, toy_index !! toy_hash 4 = Some b ∧ toy_index !! toy_hash 7 = Some c ∧
    val (nAuthenticatedChainWork c) = val (nAuthenticatedChainWork b).
Proof.
  exists (toy_entry (Some 3) (Some 0) 4 5 4 1360), (toy_entry (Some 6) (Some 1) 7 8 4 1630).
  assert (toy_index !! toy_hash 4 = Some (toy_entry (Some 3) (Some 0) 4 5 4 1360)) as E by (vm_compute; reflexivity).
  split; [exact E|]. split; [exact toy_tip|].
  exact (proj1 (forged_suffix_gains_nothing toy_params toy_index 3 _ _ _ _ 6 toy_tree E toy_tip
    ltac:(vm_compute; reflexivity) ltac:(vm_compute; reflexivity) ltac:(vm_compute; reflexivity) ltac:(lia))).
Defined.

(** The fifth block has just been authenticated: its own work is up to date,
    that of its descendants is not. *)
Definition toy_authenticated : CBlockIndex :=
  mkIndex (Some (toy_hash 3)) (Some (toy_hash 0)) 4 (of_u64 WIDTH (toy_work * 5)) (of_u64 WIDTH (toy_work * 5))
    (Z.lor BLOCK_VALID_TRANSACTIONS (Z.lor BLOCK_HAVE_DATA BLOCK_EXACT_REPLAY_VERIFIED)) 1360 0x1d00ffff 1360 0 0.

Definition auth_list : list (list Z * CBlockIndex) := <[4%nat := (toy_hash 4, toy_authenticated)]> toy_list.
Definition auth_index : BlockMap := list_to_map auth_list.

Lemma auth_in p b : auth_index !! p = Some b ↔ (p, b) ∈ auth_list.
Proof. symmetry. apply elem_of_list_to_map. apply (bool_decide_unpack _). vm_compute. exact I. Qed.

Ltac auth_cases H :=
  apply auth_in in H; cbv [auth_list list_insert insert toy_list] in H;
  repeat (apply elem_of_cons in H as [H|H]; [injection H as -> ->|]); [..|by apply not_elem_of_nil in H].

Definition auth_children (p : list Z) : list (list Z) := (filter (λ e, pprev e.2 = Some p) auth_list).*1.

Lemma auth_adjacency : adjacency auth_children auth_index.
Proof.
  split.
  - intros p k. unfold auth_children. rewrite list_elem_of_fmap. split.
    + intros ([k' b] & -> & [Hp Hin]%list_elem_of_filter). exists b. split; [by apply auth_in|exact Hp].
    + intros (b & Hb%auth_in & Hp). exists (k, b). split; [reflexivity|]. by apply list_elem_of_filter.
  - intros p. unfold auth_children. eapply sublist_NoDup; [|apply fmap_sublist, sublist_filter].
    apply (bool_decide_unpack _). vm_compute. exact I.
Qed.

Lemma auth_pre : pre_ok auth_index.
Proof.
  split; [split|..].
  - intros p b H. auth_cases H; vm_compute; (split; [discriminate|reflexivity]).
  - intros p b H. auth_cases H; vm_compute; first [reflexivity|discriminate].
  - intros p b q H Hq. auth_cases H; cbn in Hq; try discriminate Hq; injection Hq as <-;
      eexists; (split; [vm_compute; reflexivity|reflexivity]).
  - intros p b k H Hk. auth_cases H; cbn in Hk; try discriminate Hk; injection Hk as <-; (split; [reflexivity|vm_compute; reflexivity]).
  - intros p b H. auth_cases H; (split; [cbn..|vm_compute; split; [discriminate|reflexivity]]); apply of_u64_ok; unfold toy_work; lia.
  - intros p b H. auth_cases H; vm_compute; reflexivity.
Qed.

Lemma auth_stale p b : auth_index !! p = Some b → settled toy_params auth_index b ∨ strict_desc auth_index p (toy_hash 4).
Proof.
  intros H. auth_cases H.
  all: first [left; eexists; split; [vm_compute; reflexivity|vm_compute; reflexivity]
             |right; exists 0%nat; vm_compute; reflexivity|right; exists 1%nat; vm_compute; reflexivity|right; exists 2%nat; vm_compute; reflexivity].
Qed.

Lemma propagation_restores_recurrence_witness :
  ∃ σ', PropagateAuthenticatedChainWorkDescendants auth_index (toy_hash 4) toy_params auth_children = Ok σ' ∧
    tree_ok toy_params σ'.
Proof.
  assert (auth_index !! toy_hash 4 = Some toy_authenticated) as E by (vm_compute; reflexivity).
  assert (settled toy_params auth_index toy_authenticated) as Hs by (exists true; split; vm_compute; reflexivity).
  destruct (propagation_restores_recurrence toy_params auth_children (toy_hash 4) auth_index _ auth_pre auth_adjacency E
    ltac:(vm_compute; discriminate) auth_stale Hs) as (σ' & E' & _ & Ht).
  exists σ'. split; [exact E'|exact Ht].
Defined.

(** ** Retargets *)

(** The arbitrary-precision integers of the transition target, as [Z]. *)
#[local] Instance Z_cpp_int : CppInt Z := {|
  cpp_of_u64 x := x; cpp_shl := Z.shiftl; cpp_shr := Z.shiftr; cpp_add := Z.add; cpp_mul := Z.mul; cpp_div := Z.div;
  cpp_and := Z.land; cpp_gtb := Z.gtb; cpp_eqb := Z.eqb; cpp_to_u32 x := x
|}.
#[local] Instance Z_cpp_int_laws : CppIntLaws Z.
Proof.
  refine {| wide := λ x : Z, x |}; cbn; intros;
    first [reflexivity|apply Z.shiftl_mul_pow2; lia|apply Z.shiftr_div_pow2; lia|apply Z.gtb_ltb].
Defined.

Lemma toy_params_typed : params_typed toy_params.
Proof.
  split; try (cbn; lia).
  - split; first [apply bytes_ok; lia|vm_compute; reflexivity].
  - intros x H. cbn in H. repeat (apply elem_of_cons in H as [->|H]; [lia|]). by apply not_elem_of_nil in H.
Qed.

Lemma toy_times : times_typed toy_index.
Proof. intros p b H. apply toy_entries in H as (? & ? & ? & ? & ? & ? & -> & _ & _ & _ & ?). cbn [nTime toy_entry]. lia. Qed.

Lemma toy_index_typed : index_typed toy_index.
Proof.
  split; [apply toy_linked| |apply toy_times].
  intros p b H. apply toy_entries in H as (? & ? & ? & ? & ? & ? & -> & _). cbn [nBits toy_entry]. lia.
Qed.

Lemma toy_cache_ok anc : cache_ok toy_params anc toy_index.
Proof.
  intros p b H. apply toy_entries in H as (? & ? & ? & ? & ? & ? & -> & _). intros Hk.
  cbn [nMatMulClampedAsertCreditKey toy_entry] in Hk. symmetry in Hk. destruct (key_for_nonzero _ _ Hk).
Qed.

Lemma matmul_asert_total_witness :
  ∃ c σ', MatMulAsert (T := Z) toy_index (toy_hash 7) toy_params = Ok (c, σ') ∧ bits_valid c (le_word (powLimit toy_params)).
Proof.
  destruct (matmul_asert_total (T := Z) toy_index toy_params (toy_hash 7) _ toy_index_typed toy_params_typed toy_tip
    ltac:(cbn; lia) (toy_cache_ok _)) as (c & σ' & E & _ & Hv & _).
  exists c, σ'. split; [exact E|exact Hv].
Defined.

Lemma toy_valid h : ValidateMatMulAsertParams toy_params h = Ok true.
Proof. vm_compute. reflexivity. Qed.


Lemma no_rescale_skipped_witness :
  one_shot (T := Z) toy_params 4 toy_anchor toy_limit = Some (rescale_bits toy_anchor 1 2 toy_limit).
Proof.
  apply (no_rescale_skipped (T := Z) toy_params 4 1 2); [apply toy_valid|discriminate|left|discriminate].
Defined.

Lemma anchor_is_latest_fork_witness :
  let anchor t := current_anchor_height (ResolveMatMulAsertHalfLifeInfo (Some t) toy_params) in
  anchor 5 ∈ fork_heights toy_params ∧ 2 ≤ anchor 5 ≤ 5.
Proof.
  destruct (anchor_is_latest_fork toy_params 6 5 (toy_valid 6) ltac:(vm_compute; split; [discriminate|reflexivity])) as (H1 & H2 & _).
  split; [exact H1|exact H2].
Defined.

Lemma credit_cache_transparent_witness :
  ∃ σ', MatMulAsertClampedTimeCredit toy_index (toy_hash 7) (toy_hash 6) toy_params =
    Ok (credit_ref toy_index toy_params 1 (toy_hash 7), σ') ∧ same_but_cache toy_index σ'.
Proof.
  destruct (credit_cache_transparent toy_params (λ _, 6) 6 toy_index (toy_hash 7) _ (toy_hash 6) ltac:(reflexivity)
    ltac:(vm_compute; split; [reflexivity|discriminate]) toy_linked toy_times (toy_cache_ok _) toy_tip ltac:(vm_compute; reflexivity)
    ltac:(cbn; lia) ltac:(vm_compute; reflexivity)) as (σ' & E & H & _).
  exists σ'. split; [exact E|exact H].
Defined.

Lemma toy_interval : interval_params toy_params.
Proof. split; cbn; lia. Qed.

Lemma toy_bits_valid : all_bits_valid toy_index (le_word (powLimit toy_params)).
Proof. intros p b H. apply toy_entries in H as (? & ? & ? & ? & ? & ? & -> & _). cbn [nBits toy_entry]. vm_compute. intuition discriminate. Qed.

Lemma next_work_valid_witness :
  ∃ c σ', GetNextWorkRequired (T := Z) toy_index (toy_hash 7) 1720 toy_params = Ok (c, σ') ∧ bits_valid c (le_word (powLimit toy_params)).
Proof.
  destruct (next_work_valid (T := Z) toy_index toy_params (toy_hash 7) _ 1720 toy_index_typed toy_params_typed toy_interval toy_bits_valid
    toy_tip ltac:(cbn; lia) (toy_cache_ok _)) as (c & σ' & E & _ & Hv & _).
  exists c, σ'. split; [exact E|exact Hv].
Defined.

(** The same network on the interval retarget. *)
Definition interval_network : Params := {|
  powLimit := powLimit toy_params; powLimitUpgrade := powLimitUpgrade toy_params; hashGenesisBlock := hashGenesisBlock
  toy_params; fPowAllowMinDifficultyBlocks := fPowAllowMinDifficultyBlocks toy_params; fPowNoRetargeting :=
  fPowNoRetargeting toy_params; enforce_BIP94 := enforce_BIP94 toy_params; fMatMulPOW := false; fKAWPOW := fKAWPOW
  toy_params; nKAWPOWHeight := nKAWPOWHeight toy_params; nPowTargetSpacing := nPowTargetSpacing toy_params;
  nPowTargetTimespan := nPowTargetTimespan toy_params; nPowTargetSpacingFastMs := nPowTargetSpacingFastMs toy_params;
  nPowTargetSpacingNormal := nPowTargetSpacingNormal toy_params; nFastMineHeight := nFastMineHeight toy_params;
  nFastMineDifficultyScale := nFastMineDifficultyScale toy_params; nDgwWindowAlignmentHeight :=
  nDgwWindowAlignmentHeight toy_params; nDgwAsymmetricClampHeight := nDgwAsymmetricClampHeight toy_params;
  nDgwEasingBoostHeight := nDgwEasingBoostHeight toy_params; nDgwSlewGuardHeight := nDgwSlewGuardHeight toy_params;
  nMatMulAsertHeight := nMatMulAsertHeight toy_params; nMatMulAsertHalfLife := nMatMulAsertHalfLife toy_params;
  nMatMulAsertBootstrapFactor := nMatMulAsertBootstrapFactor toy_params; nMatMulAsertRetuneHeight :=
  nMatMulAsertRetuneHeight toy_params; nMatMulAsertRetuneHardeningFactor := nMatMulAsertRetuneHardeningFactor
  toy_params; nMatMulAsertRetune2Height := nMatMulAsertRetune2Height toy_params; nMatMulAsertRetune2TargetNum :=
  nMatMulAsertRetune2TargetNum toy_params; nMatMulAsertRetune2TargetDen := nMatMulAsertRetune2TargetDen toy_params;
  nMatMulAsertHalfLifeUpgradeHeight := nMatMulAsertHalfLifeUpgradeHeight toy_params; nMatMulAsertHalfLifeUpgrade :=
  nMatMulAsertHalfLifeUpgrade toy_params; nMatMulPowLimitUpgradeHeight := nMatMulPowLimitUpgradeHeight toy_params;
  nMatMulStallRecoveryHeight := nMatMulStallRecoveryHeight toy_params; nMatMulStallRecoveryAsertNum :=
  nMatMulStallRecoveryAsertNum toy_params; nMatMulStallRecoveryAsertDen := nMatMulStallRecoveryAsertDen toy_params;
  nMatMulMaxBlockTimeAdvance := nMatMulMaxBlockTimeAdvance toy_params; nMatMulAsertClampedMinInterval :=
  nMatMulAsertClampedMinInterval toy_params; nMatMulMaxFutureMtpDriftHeight := nMatMulMaxFutureMtpDriftHeight
  toy_params; nMatMulMaxFutureMtpDrift := nMatMulMaxFutureMtpDrift toy_params; nMatMulV4Height := nMatMulV4Height
  toy_params; nMatMulV4AsertRescaleNum := nMatMulV4AsertRescaleNum toy_params; nMatMulV4AsertRescaleDen :=
  nMatMulV4AsertRescaleDen toy_params; nMatMulV4Dimension := nMatMulV4Dimension toy_params;
  nMatMulV4TranscriptBlockSize := nMatMulV4TranscriptBlockSize toy_params; nMatMulBMX4CHeight := nMatMulBMX4CHeight
  toy_params; nMatMulBMX4CAsertRescaleNum := nMatMulBMX4CAsertRescaleNum toy_params; nMatMulBMX4CAsertRescaleDen :=
  nMatMulBMX4CAsertRescaleDen toy_params; nMatMulDRLTHeight := nMatMulDRLTHeight toy_params;
  nMatMulDRLTAsertRescaleNum := nMatMulDRLTAsertRescaleNum toy_params; nMatMulDRLTAsertRescaleDen :=
  nMatMulDRLTAsertRescaleDen toy_params; nMatMulRCHeight := nMatMulRCHeight toy_params; nMatMulRCProfile :=
  nMatMulRCProfile toy_params; nMatMulRCAsertRescaleNum := nMatMulRCAsertRescaleNum toy_params;
  nMatMulRCAsertRescaleDen := nMatMulRCAsertRescaleDen toy_params; fMatMulRCUseToyDims := fMatMulRCUseToyDims
  toy_params; nMatMulRCCoupledHeight := nMatMulRCCoupledHeight toy_params; nMatMulRCCoupledAsertRescaleNum :=
  nMatMulRCCoupledAsertRescaleNum toy_params; nMatMulRCCoupledAsertRescaleDen := nMatMulRCCoupledAsertRescaleDen
  toy_params; fMatMulRCCoupledUseToyDims := fMatMulRCCoupledUseToyDims toy_params; fMatMulLTSealAsPoW :=
  fMatMulLTSealAsPoW toy_params; nMatMulHeaderPoWDiscountBits := nMatMulHeaderPoWDiscountBits toy_params;
  nMatMulPreHashEpsilonBits := nMatMulPreHashEpsilonBits toy_params; nMatMulPreHashEpsilonBitsUpgradeHeight :=
  nMatMulPreHashEpsilonBitsUpgradeHeight toy_params; nMatMulPreHashEpsilonBitsUpgrade :=
  nMatMulPreHashEpsilonBitsUpgrade toy_params; nMatMulDimension := nMatMulDimension toy_params; nMatMulMinDimension :=
  nMatMulMinDimension toy_params; nMatMulMaxDimension := nMatMulMaxDimension toy_params; nMatMulTranscriptBlockSize :=
  nMatMulTranscriptBlockSize toy_params; nMatMulNoiseRank := nMatMulNoiseRank toy_params; nMatMulNonceSeedHeight :=
  nMatMulNonceSeedHeight toy_params; nMatMulParentMtpSeedHeight := nMatMulParentMtpSeedHeight toy_params;
  fMatMulFreivaldsEnabled := fMatMulFreivaldsEnabled toy_params; nMatMulFreivaldsRounds := nMatMulFreivaldsRounds
  toy_params; nMatMulFreivaldsBindingHeight := nMatMulFreivaldsBindingHeight toy_params; nMatMulProductDigestHeight :=
  nMatMulProductDigestHeight toy_params; fMatMulRequireProductPayload := fMatMulRequireProductPayload toy_params
|}.

Lemma interval_network_typed : params_typed interval_network.
Proof.
  destruct toy_params_typed as [[H1 H2 H3] H4 H5 H6 H7 H8 H9 H10 H11 H12].
  split; first [split; first [exact H1|exact H2|exact H3]|exact H4|exact H5|exact H6|exact H7|exact H8|exact H9|exact H10|exact H11|exact H12].
Qed.

Lemma interval_retarget_permitted_witness :
  ∃ c, CalculateNextWorkRequired toy_index (toy_hash 7) 1000 interval_network = Ok c ∧
    PermittedDifficultyTransition interval_network 100 0x1d00ffff c = Ok true.
Proof.
  destruct (interval_retarget_permitted toy_index (toy_hash 7) _ 1000 interval_network 100 toy_index_typed interval_network_typed
    ltac:(split; cbn; lia) toy_tip eq_refl eq_refl eq_refl ltac:(lia) ltac:(vm_compute; intuition discriminate)
    ltac:(vm_compute; reflexivity) ltac:(intros n H; vm_compute in H; injection H as <-; reflexivity)) as (c & E & _ & Ep).
  exists c. split; [exact E|exact Ep].
Defined.

(** ** A deployment on the toy chain: periods of two blocks. *)
Definition toy_deployment : BIP9Deployment := mkDeployment 3 1100 5000 6.
Definition toy_version (p : list Z) : Z := if bool_decide (p = toy_hash 5) then 0x20000008 else 0x20000000.
#[local] Instance toy_checker : ThresholdConditionChecker := VersionBitsConditionChecker 2 1 toy_version toy_deployment.

Lemma empty_sound `{ThresholdConditionChecker} σ : cache_sound σ ∅.
Proof. intros q s. by rewrite lookup_empty. Qed.

Lemma versionbits_state_correct_witness : ∃ cache', GetStateFor toy_index (Some (toy_hash 7)) ∅ = Ok (ACTIVE, cache') ∧ cache_sound toy_index cache'.
Proof.
  destruct (versionbits_state_correct toy_index (Some (toy_hash 7)) ∅ toy_linked toy_times_follow) as (s & c' & E & _ & _ & Hc & _).
  - vm_compute. reflexivity.
  - vm_compute. discriminate.
  - vm_compute. discriminate.
  - eexists. apply toy_tip.
  - apply empty_sound.
  - exists c'. split; [|exact Hc]. assert ((r ← GetStateFor toy_index (Some (toy_hash 7)) ∅; Ok r.1) = Ok ACTIVE) as E' by (vm_compute; reflexivity).
    rewrite E, bind_Ok in E'. cbn in E'. injection E' as ->. exact E.
Defined.

Lemma versionbits_since_height_witness : ∃ cache', GetStateSinceHeightFor toy_index (Some (toy_hash 7)) ∅ = Ok (8, cache') ∧ cache_sound toy_index cache'.
Proof.
  destruct (versionbits_since_height toy_index (Some (toy_hash 7)) ∅ toy_linked toy_times_follow) as (h & c' & s & E & Hc & _).
  - vm_compute. reflexivity.
  - vm_compute. discriminate.
  - vm_compute. discriminate.
  - eexists. apply toy_tip.
  - apply empty_sound.
  - exists c'. split; [|exact Hc]. assert ((r ← GetStateSinceHeightFor toy_index (Some (toy_hash 7)) ∅; Ok r.1) = Ok 8) as E' by (vm_compute; reflexivity).
    rewrite E, bind_Ok in E'. cbn in E'. injection E' as ->. exact E.
Defined.

Lemma block_version_signals_witness : ∃ v caches', ComputeBlockVersion toy_index 2 1 toy_version [toy_deployment; mkDeployment 4 1100 5000 0] (Some (toy_hash 1)) [∅; ∅] = Ok (v, caches').
Proof.
  destruct (block_version_signals toy_index 2 1 toy_version [toy_deployment; mkDeployment 4 1100 5000 0] (Some (toy_hash 1)) [∅; ∅] toy_linked toy_times_follow)
    as (v & caches' & E & _).
  - vm_compute. reflexivity.
  - eexists. vm_compute. reflexivity.
  - repeat constructor; cbn; lia.
  - vm_compute. repeat constructor; set_solver.
  - reflexivity.
  - intros [|[|i]] d cache Hd Hc; cbn in Hd, Hc; simplify_eq; apply empty_sound.
  - exists v, caches'. exact E.
Defined.
