(* ===== verification/CoinsWitnesses.v ===== *)
(** A small chain with coins.

    Three blocks, two of them children of the genesis block, their coins and
    files, at which the hypotheses of the theorems on connecting,
    disconnecting and replaying blocks hold. *)

From Stdlib Require Import ZArith Lia String.
From stdpp Require Import base list numbers gmap tactics.
From S2P Require Import Prelude BlockIndex Coins CoinsRun BlockUndo CrashReplay.
Import block_index coins block_undo replay_blocks.

Open Scope Z_scope.

(** ** A block that spends a coin of the database *)
Definition id (k : Z) : list Z := replicate 32 k.

Definition coinbase_tx (k : Z) : CTransaction := mkTx (id k) [(null_hash, NULL_INDEX)] [mkTxOut 50 [118; 169]; mkTxOut 0 [106; 1]].
Definition spending_tx : CTransaction := mkTx (id 21) [toy_out 1] [mkTxOut 20 [118; 169]; mkTxOut 29 [118; 170]].
Definition toy_block : list CTransaction := [coinbase_tx 20; spending_tx].

Definition toy_ledger : ledger := mkLedger (id 8) (utxo (ViewDB toy_coins_db)).

Lemma toy_ledger_restorable : all_restorable toy_ledger.
Proof. intros o k Hk. cbn [toy_ledger unspent utxo toy_coins_db db_coins] in Hk. apply lookup_singleton_Some in Hk as [_ <-]. split; [done|]. split; [done|]. cbn. lia. Qed.

Lemma toy_good : good None (block_outpoints toy_block) toy_ledger toy_cache (ViewDB toy_coins_db).
Proof.
  split; [split; [apply empty_cache_ok|apply toy_db_ok]|split; [done|]; intros o; cbn; by rewrite lookup_empty|].
  split; [vm_compute; reflexivity|unfold touched; cbn; rewrite dom_empty_L; clear; set_solver|intros _; vm_compute; discriminate|intros _; vm_compute; discriminate|done].
Qed.

(** Proves that no output of a concrete transaction is in a concrete ledger. *)
Ltac outputs_absent :=
  let p := fresh in let Hp := fresh in
  intros p Hp _; unfold outputs in Hp; cbn in Hp;
  repeat (apply elem_of_cons in Hp as [-> |Hp]; [vm_compute; reflexivity|]); by apply not_elem_of_nil in Hp.

Ltac outs_fine := split; [repeat constructor; cbn; lia|vm_compute; discriminate].

Lemma toy_block_ok : txs_ok 9 true toy_ledger toy_block.
Proof.
  split; [|split; [|done]].
  - split; [reflexivity|]. split; [outs_fine|]. split; [outputs_absent|done].
  - split; [reflexivity|]. split; [outs_fine|]. split; [outputs_absent|]. intros _. split; [apply list.NoDup_singleton|].
    intros o Ho. apply list_elem_of_singleton in Ho as ->. eexists. vm_compute. reflexivity.
Qed.


(** ** A reorganisation cut off in the middle *)
Definition genesis_hash : list Z := id 30.
Definition old_hash : list Z := id 31.
Definition new_hash : list Z := id 32.

Definition entry (prev : option (list Z)) (height : Z) : CBlockIndex := mkIndex prev None height [] [] 0 0 0 0 0 0.

Definition fork_index : BlockMap :=
  list_to_map [(genesis_hash, entry None 0); (old_hash, entry (Some genesis_hash) 1); (new_hash, entry (Some genesis_hash) 1)].

Definition fork_coins (p : list Z) (o : COutPoint) : option Coin :=
  if bool_decide (p = old_hash) then if bool_decide (o = (id 41, 0)) then Some (make_coin (mkTxOut 50 [118; 169]) 1 true) else None
  else if bool_decide (p = new_hash) then if bool_decide (o = (id 42, 0)) then Some (make_coin (mkTxOut 50 [118; 169]) 1 true) else None
  else None.

#[local] Instance fork_files : BlockFiles := {
  ReadBlock p := if bool_decide (p = old_hash) then Some [coinbase_tx 41] else if bool_decide (p = new_hash) then Some [coinbase_tx 42] else None;
  ReadBlockUndo p := Some [];
}.

Definition fork_outpoints : gset COutPoint := block_outpoints [coinbase_tx 41] ∪ block_outpoints [coinbase_tx 42].

Lemma fork_lookup p b : fork_index !! p = Some b →
  (p = genesis_hash ∧ b = entry None 0) ∨ (p = old_hash ∧ b = entry (Some genesis_hash) 1) ∨ (p = new_hash ∧ b = entry (Some genesis_hash) 1).
Proof.
  intros H. apply elem_of_list_to_map_2 in H. repeat (apply elem_of_cons in H as [H|H]; [injection H as -> ->; tauto|]). by apply not_elem_of_nil in H.
Qed.

Lemma fork_linked : linked fork_index.
Proof.
  split.
  - intros p b H. destruct (fork_lookup p b H) as [[-> ->]|[[-> ->]|[-> ->]]]; cbn; lia.
  - intros p b H. destruct (fork_lookup p b H) as [[-> ->]|[[-> ->]|[-> ->]]]; cbn; done.
  - intros p b q H Hq. destruct (fork_lookup p b H) as [[-> ->]|[[-> ->]|[-> ->]]]; cbn in Hq; [done| |];
      injection Hq as <-; (eexists; split; [vm_compute; reflexivity|reflexivity]).
  - intros p b k H Hk. destruct (fork_lookup p b H) as [[-> ->]|[[-> ->]|[-> ->]]]; done.
Qed.

Lemma fork_restorable p : all_restorable (ledger_of fork_coins p).
Proof.
  intros o k. cbn. unfold fork_coins. repeat case_bool_decide; intros [= <-]; (split; [done|split; [done|vm_compute; discriminate]]).
Qed.

(** The one block of either branch. *)
Lemma fork_branch p k : p = old_hash ∧ k = 41 ∨ p = new_hash ∧ k = 42 →
  coins_eq (ledger_of fork_coins p) (apply_writes (ledger_of fork_coins genesis_hash) (block_writes 1 [coinbase_tx k])) ∧
  txs_ok 1 true (ledger_of fork_coins genesis_hash) [coinbase_tx k].
Proof.
  intros Hp. split.
  - intros o. assert (block_writes 1 [coinbase_tx k] = [((id k, 0), Some (make_coin (mkTxOut 50 [118; 169]) 1 true))]) as ->
      by (destruct Hp as [[-> ->]|[-> ->]]; vm_compute; reflexivity).
    unfold apply_writes, write1, put. cbn [foldl unspent ledger_of tip fst snd]. unfold fork_coins.
    destruct Hp as [[-> ->]|[-> ->]]; cbn [bool_decide]; repeat case_bool_decide; repeat case_decide; try done.
  - split; [|done]. destruct Hp as [[-> ->]|[-> ->]]; (split; [reflexivity|]; split; [outs_fine|]; split; [outputs_absent|done]).
Qed.

Lemma fork_stored p : is_Some (fork_index !! p) → stored fork_index fork_coins fork_outpoints p.
Proof.
  intros [b0 Hp]. split; [apply fork_restorable|]. intros b q Hb Hq.
  assert (∀ k, p = old_hash ∧ k = 41 ∨ p = new_hash ∧ k = 42 → ReadBlock p = Some [coinbase_tx k] → block_outpoints [coinbase_tx k] ⊆ fork_outpoints →
    nHeight b = 1 → q = genesis_hash → ∃ vtx, ReadBlock p = Some vtx ∧ ReadBlockUndo p = Some (block_undo_data (nHeight b) true (ledger_of fork_coins q) vtx) ∧
      txs_ok (nHeight b) true (ledger_of fork_coins q) vtx ∧ vtx ≠ [] ∧ zlen vtx < 2 ^ 64 ∧ block_outpoints vtx ⊆ fork_outpoints ∧
      coins_eq (ledger_of fork_coins p) (apply_writes (ledger_of fork_coins q) (block_writes (nHeight b) vtx))) as Hone.
  { intros k Hk Hr HX -> ->. destruct (fork_branch p k Hk) as [H1 H2]. exists [coinbase_tx k]. by split_and!. }
  destruct (fork_lookup p b Hb) as [[-> ->]|[[-> ->]|[-> ->]]]; [done| |]; injection Hq as <-.
  - apply (Hone 41); [by left|vm_compute; reflexivity|apply union_subseteq_l|done|done].
  - apply (Hone 42); [by right|vm_compute; reflexivity|apply union_subseteq_r|done|done].
Qed.

Lemma fork_chain p : is_Some (fork_index !! p) → chain_stored fork_index fork_coins fork_outpoints p.
Proof. intros [b Hb] n q Hq. apply fork_stored. by apply (back_present fork_index n p b q fork_linked Hb Hq). Qed.

(** Neither the removal of the old coin nor the new coin reached the disk. *)
Definition torn_db : CCoinsViewDB := mkDB {[(id 41, 0) := make_coin (mkTxOut 50 [118; 169]) 1 true]} None (Some [new_hash; old_hash]).

