(* ===== verification/ShieldedWitnesses.v ===== *)
(** Concrete commitment trees at which the theorems apply.

    The database is a finite map; a tree with its index in memory and one with
    its index in the configured store. *)

From Stdlib Require Import ZArith Lia String.
From stdpp Require Import base list gmap numbers tactics sorting.
From S2P Require Import Prelude Sha256 Header ShieldedTree ShieldedFrontier ShieldedWitness ShieldedIndex ShieldedLookup ShieldedSerial.
Import sha256 block_header shielded_tree shielded_serial.

Open Scope Z_scope.

#[local] Opaque BranchHash EmptyLeafHash node.

#[local] Instance map_db : LevelDB := {|
  DB := gmap (list Z) (list Z);
  db_Put d k v := Some (<[k := v]> d);
  db_Get d k := d !! k;
  db_Seek d k := map_to_list d
|}.

#[local] Instance free_lock : CacheLock := λ _, true.

#[local] Instance map_db_laws : LevelDBLaws.
Proof.
  split.
  - intros d k v d' k' [= <-]. cbn. destruct (decide (k = k')) as [->|]; [apply lookup_insert_eq|by apply lookup_insert_ne].
  - intros d k k' v Hin. cbn in *. by apply elem_of_map_to_list.
Qed.

Lemma map_db_reliable : reliable.
Proof. intros d k v. by eexists. Qed.

Definition leaf_of (b : Z) : uint256 := replicate 32 b.
Definition no_store : World := mkWorld [] None.
Definition empty_store : CommitmentIndexStore := mkStore (∅ : gmap (list Z) (list Z)) 2 [] ∅.
Definition one_store : World := mkWorld [empty_store] (Some 0%nat).

Definition two_leaves : ShieldedMerkleTree :=
  mkTree (mkFrontier 2 (Some (leaf_of 1)) (Some (leaf_of 2)) []) (Some [leaf_of 1; leaf_of 2]) None true MEMORY_ONLY (Some []).

Lemma two_leaves_grown : append_all (tree_new no_store MEMORY_ONLY) no_store ([leaf_of 1] ++ [leaf_of 2]) = Ok (two_leaves, no_store).
Proof. vm_compute. reflexivity. Qed.

Lemma three_hashes : hashes_ok [leaf_of 1; leaf_of 2; leaf_of 3].
Proof. repeat constructor. Qed.

Lemma tree_new_empty_indexed : indexed one_store (tree_new one_store AUTO) [].
Proof.
  split; [apply built_empty|constructor|done|done| |eexists; split; [done|split; constructor]].
  exists empty_store. split; [done|]. split; [|done]. split; [|done].
  split_and!; [cbn; lia|vm_compute; congruence|constructor|]. intros p. change (lru_cache empty_store !! p) with ((∅ : gmap Z uint256) !! p). rewrite lookup_empty. split; [by intros ?%not_elem_of_nil|by intros [? ?]].
Qed.

Lemma stored_tree : ∃ t w, append_all (tree_new one_store AUTO) one_store [leaf_of 1; leaf_of 2; leaf_of 3] = Ok (t, w) ∧
  indexed w t [leaf_of 1; leaf_of 2; leaf_of 3] ∧ attached w t ∧ commitment_index_store_ t = Some 0%nat.
Proof.
  destruct (append_all_indexed [leaf_of 1; leaf_of 2; leaf_of 3] one_store _ [] tree_new_empty_indexed three_hashes) as (t & w & E & Hi & Hp).
  { split_and!; [apply map_db_reliable|done|done]. }
  exists t, w. split_and!; [exact E|exact Hi|apply (same_place_attached _ _ _ _ Hp); by split|]. destruct Hp as (_ & -> & _). done.
Qed.



Lemma shielded_witnesses_at_witness :
  ∃ t w out w', indexed w t [leaf_of 1; leaf_of 2; leaf_of 3] ∧ WitnessesAt t w [2; 0; 2; 7] = Ok (out, w') ∧ is_Some (out !! 0) ∧ out !! 7 = None.
Proof.
  destruct stored_tree as (t & w & _ & Hi & _).
  destruct (shielded_witnesses_at w t [leaf_of 1; leaf_of 2; leaf_of 3] [2; 0; 2; 7] Hi) as (out & w' & root & E & _ & _ & Hd & _).
  - repeat constructor; lia.
  - exact map_db_reliable.
  - vm_compute. congruence.
  - exists t, w, out, w'. split; [exact Hi|]. split; [exact E|]. split.
    + apply Hd. split; [right; left|reflexivity].
    + destruct (out !! 7) eqn:E7; [|reflexivity]. exfalso. assert (is_Some (out !! 7)) as H7 by (rewrite E7; eexists; reflexivity).
      apply Hd in H7. destruct H7 as [_ H7]. vm_compute in H7. congruence.
Defined.

Lemma shielded_truncate_restores_witness :
  ∃ t w t' w', indexed w t [leaf_of 1; leaf_of 2; leaf_of 3] ∧ Truncate t w 1 = Ok (true, t', w') ∧ tree_Root t' = Ok (commitment_root [leaf_of 1]).
Proof.
  destruct stored_tree as (t & w & _ & Hi & Ha & Hs).
  pose proof (shielded_truncate_restores w t [leaf_of 1; leaf_of 2; leaf_of 3] 1 Hi Ha map_db_reliable) as H. rewrite Hs in H.
  destruct H as (t' & w' & E & _ & Er & _); [congruence|lia|]. exists t, w, t', w'. split; [exact Hi|]. split; [exact E|exact Er].
Defined.

Lemma shielded_detach_isolates_witness :
  ∃ t w t0 t1, DetachToMemoryOnly t w = Ok (true, t0) ∧ scratch_run t0 w [ScratchRemoveLast 2; ScratchAppend (leaf_of 9)] = Ok (t1, w) ∧
    tree_Root t1 = Ok (commitment_root [leaf_of 1; leaf_of 9]).
Proof.
  destruct stored_tree as (t & w & _ & Hi & _).
  destruct (shielded_detach_isolates w t [leaf_of 1; leaf_of 2; leaf_of 3] [ScratchRemoveLast 2; ScratchAppend (leaf_of 9)] Hi map_db_reliable) as (t0 & t1 & E0 & E1 & Er & _).
  - repeat split; vm_compute; congruence.
  - exists t, w, t0, t1. split; [exact E0|]. split; [exact E1|exact Er].
Defined.

Lemma shielded_witness_restarts_witness :
  ∃ wit0 wit wit', Witness two_leaves = Ok wit0 ∧ update_all wit0 no_store [leaf_of 3] = Ok (wit, no_store) ∧
    witness_Unserialize no_store (witness_Serialize wit ++ [7]) = Ok (reread wit, [7]) ∧
    update_all (reread wit) no_store [leaf_of 4] = Ok (wit', no_store) ∧
    Verify wit' (leaf_of 2) (commitment_root [leaf_of 1; leaf_of 2; leaf_of 3; leaf_of 4]) = Ok true.
Proof.
  destruct (shielded_witness_restarts MEMORY_ONLY no_store no_store [leaf_of 1] (leaf_of 2) [leaf_of 3] [leaf_of 4] two_leaves [7] two_leaves_grown)
    as (wit0 & wit & wit' & E0 & E & Es & E' & _ & _ & Ev).
  - repeat constructor.
  - vm_compute. congruence.
  - exists wit0, wit, wit'. split; [exact E0|]. split; [exact E|]. split; [exact Es|]. split; [exact E'|exact Ev].
Defined.
