(* ===== verification/BlockWitnesses.v ===== *)
(** Blocks with shielded transactions.

    Two blocks: one moves a coin into the pool, the next one takes value out of
    it by a spend and by a claim of a stranded note. The hypotheses of the
    theorems on transactions, on the nullifier database, on the supply and on
    connecting blocks hold at them. *)

From Stdlib Require Import ZArith Lia String.
From stdpp Require Import base list numbers gmap fin_sets tactics.
From S2P Require Import Prelude BlockIndex Coins CoinsRun BlockUndo TxCheck TxRules Supply Nullifiers NullifierLaws NullifierRaces ConnectBlock ConnectLaws BlockClaims ChainWitnesses.
Import block_index coins block_undo tx_check supply nullifier_set connect_block.

Open Scope Z_scope.

(** ** Instances *)
Definition hash_number (x : uint256) : Z := foldr (λ d n, d + 256 * n) 0 x.

#[local] Instance sum_hash : MuHash := {|
  Accumulator := Z;
  mu_equiv := eq;
  mu_empty := 0;
  mu_Insert x a := a + hash_number x;
  mu_Remove x a := a - hash_number x;
  mu_Finalize a := replicate 32 (a mod 256)
|}.

#[local] Instance sum_hash_laws : MuHashLaws.
Proof.
  split; [change (Equivalence (@eq Z)); apply _|intros x a b Hab|intros x a b Hab|intros a b Hab|intros x y a|intros x a];
    unfold equiv, mu_equiv in *; cbn in *; subst; (done || lia).
Qed.

#[local] Instance plain_formats : ShieldedFormats Transaction := {|
  v2_IsValid _ := true;
  ParseV2IngressWitness _ := None;
  ParseSettlementWitness _ := None;
  GetTransactionWeight _ := 1000;
  GetSerializeSize _ := 250
|}.

Definition block_id (k : Z) : uint256 := replicate 32 k.

Definition pass_rules : BlockRules :=
  mkRules (λ _, None) true (λ _, None) (λ _, None) (λ _, Some (block_id 70, block_id 71)) (λ _ _, None) (λ _ _, None) (λ _, None) (λ _, None) 0.

Definition small_supply (floor : Z) : SupplyParams := mkSupply 525000 (20 * COIN) 100 100 200 3 1 10 1000 INT32_MAX 0 floor.

(** ** Transactions *)
Definition mint (k v : Z) : Transaction :=
  mkTransaction (block_id k) 2 [mkTxIn (null_hash, NULL_INDEX) [1; 2] 0] [mkTxOut v [118; 169]] 0 no_bundle.
Definition shield : Transaction :=
  mkTransaction (block_id 41) 2 [mkTxIn (block_id 40, 0) [] 0] [mkTxOut 20 [118; 169]] 0
    (mkBundle [] [mkShieldedOutput (block_id 50) (replicate 16 0) [] (block_id 51)] [] [] None (-25)).
Definition unshield : Transaction :=
  mkTransaction (block_id 42) 2 [] [mkTxOut 1 [118; 169]] 0 (mkBundle [] [] [] [] (Some (mkV2 (SendPayload [block_id 60] [] 2) [])) 0).
Definition reclaim : Transaction :=
  mkTransaction (block_id 43) 2 [] [mkTxOut 1 [118; 170]] 0 (mkBundle [] [] [] [] (Some (mkV2 (RecoveryExitPayload 1) [])) 0).

Definition block_in : list Transaction := [mint 30 7; shield].
Definition block_out : list Transaction := [mint 31 8; unshield; reclaim].

Definition pool_coins : gset COutPoint := block_outpoints (core <$> block_in ++ block_out).

Definition pool_db : CCoinsViewDB := coins.mkDB {[(block_id 40, 0) := mkCoin (mkTxOut 50 [118; 169]) false 1]} (Some (block_id 1)) None.
Definition pool_ledger : ledger := mkLedger (block_id 1) (utxo (ViewDB pool_db)).

Definition empty_nullifiers : NullifierDB := nullifier_set.mkDB ∅ None ∅ ∅ ∅ None None None.
Definition pool_state : ChainState :=
  mkChainState (mkCache (block_id 1) [] ∅ 0) (ViewDB pool_db) (set_new true empty_nullifiers) 0 ∅.

Definition all_written (k : nat) : bool := true.
Definition two_blocks : list Block :=
  [mkBlock pass_rules all_written (block_id 2) (Some (block_id 1)) block_in;
   mkBlock pass_rules all_written (block_id 3) (Some (block_id 2)) block_out].

Definition run_two (floor : Z) : option ChainState := connect_blocks (small_supply floor) toy_index (λ _, 2) 2 two_blocks pool_state.

Lemma run_two_some : ∃ cs, run_two 100 = Some cs.
Proof.
  assert (match run_two 100 with Some _ => true | None => false end = true) as E by (vm_compute; reflexivity).
  destruct (run_two 100) as [cs|]; [by exists cs | discriminate E].
Qed.

(** ** The hypotheses *)
Lemma pool_good : good None pool_coins pool_ledger (cs_view pool_state) (cs_base pool_state).
Proof.
  split; [split; [apply empty_cache_ok|]|split; [done|]; intros o; cbn; by rewrite lookup_empty|].
  - intros o k Hk. cbn [pool_db pool_state cs_base db_coins] in Hk. apply lookup_singleton_Some in Hk as [_ <-]. reflexivity.
  - split; [vm_compute; reflexivity|unfold touched; cbn; rewrite dom_empty_L; clear; set_solver|intros _; vm_compute; discriminate|intros _; vm_compute; discriminate|done].
Qed.

Lemma empty_nullifiers_ok : db_ok empty_nullifiers.
Proof. split; cbn; try (rewrite dom_empty_L); try apply not_elem_of_empty; apply map_Forall_empty. Qed.

Lemma pool_sane : sane (cs_spent pool_state).
Proof. destruct (set_new_stores true empty_nullifiers empty_nullifiers_ok) as (Hs & Hd & _). by split. Qed.

Lemma zero_in_range : in_range 0.
Proof. unfold in_range, MAX_MONEY, COIN. lia. Qed.

Ltac by_decision := apply (bool_decide_unpack _); vm_compute; exact Logic.I.

#[local] Instance is_hash_dec h : Decision (is_hash h).
Proof. unfold is_hash, is_byte. apply _. Defined.

Lemma block_in_wf : block_wf pool_coins block_in.
Proof. split; by_decision. Qed.
Lemma block_out_wf : block_wf pool_coins block_out.
Proof. split; by_decision. Qed.

Lemma toy_present k b : toy_index !! block_id k = Some b → present toy_index (Some (block_id k)).
Proof. intros Hb. by exists b. Qed.

Lemma two_blocks_wf : chain_wf toy_index pool_coins 2 pool_ledger two_blocks.
Proof.
  split; [eapply toy_present; vm_compute; reflexivity|]. split; [discriminate|]. split; [apply block_in_wf|]. split; [by left|].
  split; [eapply toy_present; vm_compute; reflexivity|]. split; [discriminate|]. split; [apply block_out_wf|]. split; [by left|]. done.
Qed.


Lemma nullifiers_spent_once_witness : ∃ cs, run_two 100 = Some cs ∧
  db_nullifier (m_db (cs_spent cs)) = {[block_id 60; block_id 70]}.
Proof.
  destruct run_two_some as [cs E]. exists cs. split; [exact E|].
  destruct (nullifiers_spent_once (small_supply 100) toy_index (λ _, 2) pool_coins two_blocks 2 pool_ledger pool_state cs
    pool_good pool_sane zero_in_range two_blocks_wf E) as (ids & cms & Er & _ & _ & _ & _ & -> & _).
  vm_compute in Er. injection Er as <- _. by_decision.
Defined.

Lemma accepted_in : ∃ undo cs, connect_block pass_rules (small_supply 100) all_written toy_index (λ _, 2) false true (block_id 2) 2
    (Some (block_id 1)) block_in pool_state = Ok (Valid, undo, cs) ∧ undo_fits (cs_pool cs) block_in.
Proof.
  set (r := connect_block _ _ _ _ _ _ _ _ _ _ _ _).
  assert (match r with Ok (Valid, _, cs) => cs_pool cs =? 25 | _ => false end = true) as E by (vm_compute; reflexivity).
  destruct r as [[[[|e|e] undo] cs]|]; try discriminate E. apply Z.eqb_eq in E. exists undo, cs. split; [done|]. rewrite E.
  intros [|[|[|k]]]; vm_compute; split; discriminate.
Qed.

Lemma pool_present : present toy_index (Some (block_id 1)).
Proof. eapply toy_present. vm_compute. reflexivity. Qed.

Lemma connect_no_inflation_witness : ∃ undo cs, connect_block pass_rules (small_supply 100) all_written toy_index (λ _, 2) false true (block_id 2) 2
    (Some (block_id 1)) block_in pool_state = Ok (Valid, undo, cs) ∧
  total_value pool_coins (after_block (block_id 2) 2 pool_ledger block_in) + cs_pool cs ≤ 50 + 0 + 20 * COIN + 0.
Proof.
  destruct accepted_in as (undo & cs & E & _). exists undo, cs. split; [exact E|].
  apply (connect_no_inflation pass_rules (small_supply 100) all_written toy_index (λ _, 2) (block_id 2) 2 (Some (block_id 1)) block_in pool_coins
    pool_state undo cs pool_ledger pool_good pool_sane zero_in_range block_in_wf (or_introl eq_refl) ltac:(discriminate) toy_linked pool_present);
    [lia|cbn; lia|cbn; lia|cbn; unfold COIN; lia|exact E].
Defined.


(** ** What goes wrong *)

(** A trial run accepts a block whose egress the real run refuses. *)
Theorem trial_run_misses_egress :
  let run just_check cs := connect_block pass_rules (small_supply 0) all_written toy_index (λ _, 2) just_check true (block_id 3) 3
    (Some (block_id 2)) block_out cs in
  match connect_blocks (small_supply 0) toy_index (λ _, 2) 2 (take 1 two_blocks) pool_state with
  | Some cs =>
      match run true cs, run false cs with
      | Ok (Valid, _, _), Ok (Invalid reason, _, cs') =>
          reason = "shielded-unshield-velocity-exceeded"%string ∧ block_id 60 ∈ db_nullifier (m_db (cs_spent cs'))
          ∧ block_id 60 ∉ db_nullifier (m_db (cs_spent cs))
      | _, _ => False
      end
  | None => False
  end.
Proof. vm_compute. split_and!; [reflexivity | reflexivity | discriminate]. Qed.

(** A block that shields and then unshields cannot be disconnected when the
    pool was too small: the balances are undone in the order in which they were
    applied. *)
Theorem forward_undo_can_fail :
  let deposit := mkTransaction (block_id 44) 2 [] [] 0 (mkBundle [] [] [] [] None (-5)) in
  let withdraw := mkTransaction (block_id 45) 2 [] [] 0 (mkBundle [] [] [] [] None 5) in
  (pool ← ApplyValueBalance 0 (state_balance deposit); ApplyValueBalance pool (state_balance withdraw)) = Some 0
  ∧ rollback_block pass_rules [deposit; withdraw] 0 = None
  ∧ (pool ← UndoValueBalance 0 (state_balance withdraw); UndoValueBalance pool (state_balance deposit)) = Some 0.
Proof. vm_compute. split_and!; reflexivity. Qed.

(** ** Transactions *)
Lemma check_transaction_decides_witness :
  CheckTransaction shield = None ∧ out_total (t_vout shield) ≤ MAX_MONEY ∧ NoDup (prevout <$> t_vin shield).
Proof.
  assert (CheckTransaction shield = None) as E by (vm_compute; reflexivity). split; [exact E|].
  destruct (proj1 (check_transaction_decides shield ltac:(by_decision)) E) as (_ & _ & _ & [_ Ht] & Hi).
  split; [exact Ht|]. exact (proj1 Hi).
Defined.

Definition locked : Transaction :=
  mkTransaction (block_id 46) 2 [mkTxIn (block_id 40, 0) [] 4; mkTxIn (block_id 41, 0) [] (2 ^ 22)] [] 0 no_bundle.

(** The first input is four blocks old at height 7, the second has no delay. *)
Lemma sequence_locks_decide_witness : ∃ heights ok,
  SequenceLocks toy_index locked LOCKTIME_VERIFY_SEQUENCE [3; 5] (toy_hash 7) = Ok (heights, ok)
  ∧ (ok = true ↔ (2 < 2 ∨ Z.land LOCKTIME_VERIFY_SEQUENCE LOCKTIME_VERIFY_SEQUENCE = 0)
      ∨ Forall2 (lock_passed toy_index (toy_hash 7) (toy_entry (Some 6) (Some 1) 7 8 4 1630) 1270) (t_vin locked) [3; 5]).
Proof.
  apply (sequence_locks_decide toy_index locked LOCKTIME_VERIFY_SEQUENCE [3; 5] (toy_hash 7) _ (toy_hash 6) 1270 toy_linked toy_tip);
    [reflexivity|vm_compute; reflexivity|lia|reflexivity|by_decision|reflexivity].
Defined.

(** ** Leaving the pool *)
Definition falling (h : Z) : Z := if h =? 2 then 1000 else if h =? 3 then 960 else if h =? 4 then 940 else 935.

Lemma falling_range h : in_range (falling h).
Proof. unfold in_range, falling, MAX_MONEY, COIN. repeat case_match; lia. Qed.

Lemma falling_runs : ∃ log, velocity_run (small_supply 0) falling 2 3 ∅ = Some log.
Proof.
  assert (match velocity_run (small_supply 0) falling 2 3 ∅ with Some _ => true | None => false end = true) as E by (vm_compute; reflexivity).
  destruct (velocity_run _ _ _ _ _) as [log|]; [by exists log | discriminate E].
Qed.

Lemma velocity_limits_egress_witness : ∃ log, velocity_run (small_supply 0) falling 2 3 ∅ = Some log
  ∧ Z.min MAX_MONEY (zsum 3 (λ i, net_egress falling (2 + i))) ≤ window_cap (small_supply 0) falling 4.
Proof.
  destruct falling_runs as [log E]. exists log. split; [exact E|].
  apply (velocity_limits_egress (small_supply 0) falling 2 2 ∅ log 3);
    [cbn; lia|cbn; lia|apply falling_range|lia|lia|apply map_Forall_empty|exact E|cbn; lia|lia].
Defined.

Lemma velocity_reorg_exact_witness : ∃ log, velocity_run (small_supply 0) falling 2 3 ∅ = Some log
  ∧ WindowTotal (velocity_undo 2 3 log) 1 10 = WindowTotal ∅ 1 10.
Proof.
  destruct falling_runs as [log E]. exists log. split; [exact E|].
  apply (velocity_reorg_exact (small_supply 0) falling 2 3 ∅ log);
    [cbn; lia|cbn; lia|apply falling_range|lia|lia|apply map_Forall_empty|intros k _; apply lookup_empty|exact E|cbn; lia].
Defined.

(** ** Nullifiers *)
Definition nullifier_ops : list set_op :=
  [OpContains (block_id 60); OpInsert true [block_id 60; block_id 61]; OpContains (block_id 60); OpRemove true [block_id 60];
   OpContains (block_id 60); OpInsertRecoveries true [block_id 71]; OpReadPool].


Lemma nullifier_count_and_digest_witness : CountNullifiers (set_run nullifier_ops (set_new true empty_nullifiers)).2 = 1.
Proof.
  assert (Forall tidy nullifier_ops) as Ht.
  { apply list.Forall_forall. intros op Hop.
    repeat (apply elem_of_cons in Hop as [-> |Hop]; [first [exact Logic.I|reflexivity|split; [reflexivity|by_decision]]|]). by apply not_elem_of_nil in Hop. }
  destruct (nullifier_count_and_digest true empty_nullifiers nullifier_ops empty_nullifiers_ok ltac:(discriminate) Ht ltac:(vm_compute; reflexivity)) as [-> _].
  vm_compute. reflexivity.
Defined.

(** A look-up finds nothing; [block_id 60] is inserted before it notes so. *)
Definition raced : shared :=
  mkShared (cache_inserted cached_new [block_id 60]) (list_to_set [block_id 60] ∪ ∅) None [] [(block_id 60, 0%nat)].

Ltac is_calm := unfold calm; cbn; repeat constructor.

Lemma race_reached : reach (mkShared cached_new ∅ None [] []) raced.
Proof.
  apply (reach_step _ (mkShared cached_new (list_to_set [block_id 60] ∪ ∅) (Some (true, [block_id 60])) [] [(block_id 60, 0%nat)]) _ None);
    [|is_calm|apply (step_inserted cached_new _ [] [(block_id 60, 0%nat)] [block_id 60])].
  apply (reach_step _ (mkShared cached_new ∅ None [] [(block_id 60, 0%nat)]) _ None); [|is_calm|apply step_insert].
  apply (reach_step _ (mkShared cached_new ∅ None [block_id 60] []) _ None);
    [|is_calm|apply (step_absent cached_new ∅ None [] [] [] (block_id 60)), not_elem_of_empty].
  apply (reach_step _ (mkShared cached_new ∅ None [] []) _ None); [apply reach_refl|is_calm|].
  apply (step_unknown cached_new ∅ [] [] (block_id 60)); [discriminate|reflexivity].
Qed.

Lemma nullifier_lookups_are_atomic_witness : ∃ c, settle (cache raced) (block_id 60) = (true, c)
  ∧ cached_ok (stored raced) c.
Proof.
  destruct (settle (cache raced) (block_id 60)) as [b c] eqn:E. exists c.
  destruct (nullifier_lookups_are_atomic ∅ raced (mkShared c (stored raced) None [] []) (Some (block_id 60, b)) race_reached) as [Hb Hc];
    [is_calm|exact (step_settle _ _ (stored raced) [] [] [] _ _ _ E)|].
  assert (b = true) as -> by (rewrite Hb; vm_compute; reflexivity). split; [reflexivity|exact (Hc eq_refl)].
Defined.
