(* ===== verification/ScriptWitnesses.v ===== *)
(** Concrete runs for the results on scripts: a library that accepts a
    signature that begins like its key, a transaction that spends an output
    of two keys, and the caches. *)

From Stdlib Require Import ZArith Lia String.
From stdpp Require Import base list numbers tactics.
From S2P Require Import Prelude Sha256 Header Coins BlockUndo TxCheck Script ScriptLaws Pqm Interpreter InterpreterLaws InterpreterSafety.
From S2P Require Import VerifyScript SigHash SigHashLaws ShieldedFrontier PqmLaws FlagLaws P2mrSpend P2mrSigners ScriptFlags SpendSafety.
From S2P Require Import CuckooCache SigCache InputScripts InputSafety ScriptClaims.
Import coins block_undo tx_check script script_laws pqm interpreter condition_stacks interpreter_safety verify_script sighash sighash_laws pqm_laws
  flag_laws p2mr_spend p2mr_signers script_flags spend_safety sigcache input_scripts input_safety.

Open Scope Z_scope.

#[local] Instance toy_primitives : ScriptPrimitives :=
  {| CRIPEMD160 := λ _, replicate 20 7; CSHA1 := λ _, replicate 20 9; CheckLowS := λ _, true |}.
#[local] Instance toy_primitive_laws : PrimitiveLaws.
Proof. split; intros v; (split; [apply (list.Forall_replicate _ 20); unfold is_byte; lia|done]). Qed.
#[local] Instance toy_library : PQLibrary := {| bitcoin_pqc_verify := λ _ key _ sig _, bool_decide (take 1 sig = take 1 key) |}.
#[local] Instance toy_taproot : TaprootLibrary := {| CheckTapTweak := λ _ _ _ _, true |}.
#[local] Instance toy_curve : CurveLibrary := {| ecdsa_verify := λ _ _ _, true; schnorr_verify := λ _ _ _, true |}.
#[local] Instance toy_bundle : BundleHash := {| ComputeShieldedBundleCtvHash := λ _, replicate 32 3 |}.
#[local] Instance toy_log : cuckoo.FloatLog := {| cuckoo.float_log2 := Z.log2 |}.

(** The base checker, but for post-quantum signatures. *)
#[local] Instance toy_checker : BaseSignatureChecker unit := {|
  CheckECDSASignature := λ _ _ _ _ c, Ok (true, c);
  CheckSchnorrSignature := λ _ _ _ _, Ok (inl None);
  CheckPQSignature := λ sig key _ _ _ d _, Ok (bool_decide (take 1 sig = take 1 key), d);
  CheckCTVHash := λ _, Ok true;
  CheckLockTime := λ _, Ok false;
  CheckSequence := λ _, Ok false;
|}.
#[local] Instance toy_checker_laws : CheckerLaws unit.
Proof.
  split; cbn.
  - intros sig key script v c _. by exists true, c.
  - intros. left. by eexists.
  - intros sig key algo ht d fips _. eexists _, (m_output_hash d). by rewrite <- same_output_hash.
  - intros. by eexists.
  - intros. by eexists.
  - intros. by eexists.
Qed.

#[local] Instance short_bytes_dec e : Decision (short_bytes e).
Proof. unfold short_bytes, is_byte. apply _. Defined.

#[local] Ltac by_decision := apply (bool_decide_unpack _); vm_compute; exact Logic.I.

Definition both_flags : Z := Z.lor SCRIPT_VERIFY_P2SH SCRIPT_VERIFY_WITNESS.

Lemma both_flags_ok : flags_ok both_flags.
Proof. by split. Qed.

Lemma condition_stack_refines_witness :
  EvalScript (V:=ConditionStack) 0 BASE [] [0x51; 0x63; 0x52; 0x68] execdata_new tt =
  EvalScript (V:=list bool) 0 BASE [] [0x51; 0x63; 0x52; 0x68] execdata_new tt.
Proof. apply (condition_stack_refines 0 BASE [] [0x51; 0x63; 0x52; 0x68] execdata_new tt). reflexivity. Defined.

Lemma verify_script_returns_witness : ∃ r, VerifyScript both_flags [0x51] [0xac; 0xba] [[1]; [2]] tt = Ok r.
Proof.
  apply (verify_script_returns both_flags [0x51] [0xac; 0xba] [[1]; [2]] tt); [exact both_flags_ok|..]; by_decision.
Defined.

(** ** A spend *)
Definition key1 : pq_key := (SLH_DSA_128S, replicate 32 1).
Definition key2 : pq_key := (SLH_DSA_128S, replicate 32 2).
Definition toy_multisig : list Z := BuildP2MRMultisigScript 1 [key1; key2].
Definition sig2 : list Z := replicate (Z.to_nat 7856) 2.
Definition toy_program : list Z := commits_to P2MR_LEAF_VERSION [toy_multisig].
Definition toy_tx : Transaction :=
  mkTransaction (replicate 32 8) 2 [mkTxIn (replicate 32 4, 1) [] 0xffffffff] [mkTxOut 90 [0x51]] 0 no_bundle.
(** The signatures from the last key to the first, then the script and the
    control block of a single leaf. *)
Definition toy_witness : list (list Z) := [sig2; []; toy_multisig; [P2MR_LEAF_VERSION]].
Definition toy_spent : CTxOut := mkTxOut 100 (p2mr_output toy_program).
Definition toy_signed : SignedTransaction := mkSigned toy_tx [toy_witness] (replicate 32 6).

Definition or_default {A} (m : result A) (a : A) : A := match m with Ok a => a | Err _ => a end.
Definition no_data : PrecomputedTransactionData := mkTxData [] [] [] [] [] false [] [] [] false [] [] false false false [] false.
Definition toy_data : PrecomputedTransactionData :=
  Eval vm_compute in or_default (Init toy_tx [toy_witness] [toy_spent] false) no_data.
Definition toy_context : SignatureContext := mkContext toy_tx ASSERT_FAIL 0 100 (Some toy_data) false.

Lemma toy_Init : Init toy_tx [toy_witness] [toy_spent] false = Ok toy_data.
Proof. vm_compute. reflexivity. Qed.

Lemma toy_program_bytes : Forall is_byte toy_program ∧ zlen toy_program = 32.
Proof. split; [unfold is_byte; by_decision|vm_compute; reflexivity]. Qed.

Lemma toy_witness_short : Forall short_bytes toy_witness.
Proof.
  by_decision.
Qed.

Lemma input_check_returns_witness : ∃ r, run_check toy_signed toy_data (mkScriptCheck toy_spent 0 both_flags) = Ok r.
Proof.
  destruct toy_program_bytes as [Hb Hl].
  apply (input_check_returns toy_signed [toy_spent] toy_data both_flags 0 toy_spent toy_witness toy_program);
    [exact both_flags_ok|exact toy_Init|reflexivity|reflexivity|exact Hl|exact Hb|vm_compute; discriminate|reflexivity|discriminate|
     exact toy_witness_short|by_decision].
Defined.

Lemma p2mr_multisig_counts_witness :
  ∃ d', EvalScript (V:=ConditionStack) both_flags P2MR [[]; sig2] toy_multisig (set_budget execdata_new 100000) tt = Ok (inr ([[1]], d', tt)).
Proof.
  eexists. apply (p2mr_multisig_counts both_flags 1 [key1; key2] [[]; sig2] (set_budget execdata_new 100000) tt).
  - vm_compute. discriminate.
  - split; vm_compute; discriminate.
  - exists 1, []. split; [vm_compute; reflexivity|done].
Defined.


(** The hash that the second key signed. *)
Definition toy_leaf : ScriptExecutionData := leaf_data toy_multisig toy_witness (snd (take_annex 3 (reverse toy_witness))).
Definition toy_leaf_start : ScriptExecutionData := set_codeseparator toy_leaf 0xffffffff.


(** ** A spend of a script that is always true *)
Definition true_program : list Z := commits_to P2MR_LEAF_VERSION [[0x51]].
Definition true_witness : list (list Z) := [[0x51]; [P2MR_LEAF_VERSION]].


Lemma true_accepted flags :
  flags = STANDARD_SCRIPT_VERIFY_FLAGS → accepts (VerifyScript flags [] (p2mr_output true_program) true_witness tt).
Proof. intros ->. exists tt. vm_compute. reflexivity. Qed.

Lemma flags_are_soft_forks_witness : accepts (VerifyScript both_flags [] (p2mr_output true_program) true_witness tt).
Proof.
  apply (flags_are_soft_forks both_flags STANDARD_SCRIPT_VERIFY_FLAGS [] (p2mr_output true_program) true_witness tt);
    [reflexivity|reflexivity|discriminate|exact both_flags_ok|by apply true_accepted].
Defined.

Definition toy_params : ScriptParams := mkScriptParams (λ _, None) 1 1 1 1 INT_MAX INT_MAX true.

Lemma mempool_policy_stricter_witness :
  accepts (VerifyScript (consensus_flags toy_params [] 100) [] (p2mr_output true_program) true_witness tt).
Proof.
  apply (mempool_policy_stricter toy_params [] 100 [] [] (p2mr_output true_program) true_witness tt).
  - reflexivity.
  - split; vm_compute; discriminate.
  - intros _. exists true_program. split; [vm_compute; reflexivity|reflexivity].
  - apply true_accepted. vm_compute. reflexivity.
Defined.


Definition toy_questions : list (bool * query) := [(true, PQ SLH_DSA_128S false (replicate 32 4) (replicate 32 2) sig2)].


Definition toy_coins (o : COutPoint) : option CTxOut := Some toy_spent.
Definition toy_known (w : list Z) : option SignedTransaction := Some toy_signed.
Definition toy_result :=
  CheckInputScripts toy_signed toy_coins both_flags true no_data (ValidationCache_new (replicate 32 7) 128) false.


(** ** Where the code and its comments part *)

(** The flag that changes the message of SLH-DSA is no soft fork: a library may
    accept a signature of the new message only. *)
#[local] Instance fips_checker : BaseSignatureChecker unit := {|
  CheckECDSASignature := λ _ _ _ _ c, Ok (true, c);
  CheckSchnorrSignature := λ _ _ _ _, Ok (inl None);
  CheckPQSignature := λ _ _ _ _ _ d fips, Ok (fips, d);
  CheckCTVHash := λ _, Ok true;
  CheckLockTime := λ _, Ok false;
  CheckSequence := λ _, Ok false;
|}.

Lemma fips_flag_accepts_more :
  let output := p2mr_output toy_program in
  accepts (VerifyScript (BaseSignatureChecker0 := fips_checker) (Z.lor both_flags SCRIPT_VERIFY_SLHDSA_FIPS205) [] output toy_witness tt) ∧
  ¬ accepts (VerifyScript (BaseSignatureChecker0 := fips_checker) both_flags [] output toy_witness tt).
Proof. split; [exists tt; vm_compute; reflexivity|intros [c Hc]; vm_compute in Hc; discriminate]. Qed.

(** Nor is the flag of [CHECKTEMPLATEVERIFY] beside that of the no-operations. *)
Lemma ctv_flag_accepts_more :
  let flags := Z.lor both_flags SCRIPT_VERIFY_DISCOURAGE_UPGRADABLE_NOPS in
  let script := BuildP2MRCTVScript (replicate 32 1) in
  let output := p2mr_output (commits_to P2MR_LEAF_VERSION [script]) in
  let witness := [script; [P2MR_LEAF_VERSION]] in
  accepts (VerifyScript (BaseSignatureChecker0 := toy_checker) (Z.lor flags SCRIPT_VERIFY_CHECKTEMPLATEVERIFY) [] output witness tt) ∧
  ¬ accepts (VerifyScript (BaseSignatureChecker0 := toy_checker) flags [] output witness tt).
Proof. split; [exists tt; vm_compute; reflexivity|intros [c Hc]; vm_compute in Hc; discriminate]. Qed.

(** The operations of a leaf are not counted when the witness has an annex,
    and those that check a signature of a message are never counted. *)
Lemma annex_hides_sigops :
  CountWitnessSigOps [] (p2mr_output toy_program) toy_witness both_flags = Ok 5500 ∧
  CountWitnessSigOps [] (p2mr_output toy_program) (toy_witness ++ [[ANNEX_TAG]]) both_flags = Ok 0 ∧
  CountWitnessSigOps [] (p2mr_output toy_program) [BuildP2MRCSFSScript SLH_DSA_128S (replicate 32 1); [P2MR_LEAF_VERSION]] both_flags = Ok 0 ∧
  accepts (VerifyScript (BaseSignatureChecker0 := toy_checker) both_flags [] (p2mr_output toy_program) (toy_witness ++ [[ANNEX_TAG]]) tt).
Proof. repeat split; [vm_compute; reflexivity..|exists tt; vm_compute; reflexivity]. Qed.

(** With the flag that rejects legacy signatures, [OP_CHECKSIG] fails but
    [OP_CHECKMULTISIG] still checks them. *)
Lemma multisig_keeps_legacy :
  let flags := Z.lor both_flags SCRIPT_VERIFY_REJECT_LEGACY_SIGS in
  let key := 2 :: replicate 32 1 in
  VerifyScript (BaseSignatureChecker0 := toy_checker) flags [1; 1] (push_data key ++ [opcode_value OP_CHECKSIG]) [] tt = Ok (inl SCRIPT_ERR_BAD_OPCODE) ∧
  accepts (VerifyScript (BaseSignatureChecker0 := toy_checker) flags [0; 1; 1] ([0x51] ++ push_data key ++ [0x51; opcode_value OP_CHECKMULTISIG]) [] tt).
Proof. split; [vm_compute; reflexivity|exists tt; vm_compute; reflexivity]. Qed.

(** The size of an epoch is not 45 percent of a table of 95,443,718 places or
    more: the product wraps. *)
Lemma epoch_size_wraps n : 95443718 ≤ n ≤ 190887435 → cuckoo.epoch_size (cuckoo.setup cuckoo.cache_new n) < 45 * n / 100 - 42949671.
Proof.
  intros Hn. unfold cuckoo.setup. cbn [cuckoo.epoch_size]. rewrite (Z.max_r 2 n) by lia.
  replace (u32 (45 * n)) with (45 * n - 2 ^ 32); [change (2 ^ 32) with 4294967296; Z.to_euclidean_division_equations; lia|]. rewrite u32_mod.
  apply (Z.mod_unique _ _ 1); lia.
Qed.

(** The first place tried for a displaced element is the second of its
    places, not the first. *)
Lemma first_place_tried locs : length locs = 8%nat → Forall (λ l, l < cuckoo.invalid) locs →
  znth locs (Z.land (1 + cuckoo.find_pos locs cuckoo.invalid) 7) = znth locs 1.
Proof.
  intros Hl Hb. replace (cuckoo.find_pos locs cuckoo.invalid) with 8; [reflexivity|].
  enough (∀ l, Forall (λ x, x < cuckoo.invalid) l → cuckoo.find_pos l cuckoo.invalid = Z.of_nat (length l)) as E
    by (rewrite E by done; by rewrite Hl).
  induction 1 as [|x l Hx _ IH]; [done|]. cbn [cuckoo.find_pos length]. destruct (Z.eqb_spec x cuckoo.invalid); lia.
Qed.
