(* ===== verification/HeaderSyncClaims.v ===== *)
(** The claims about header synchronisation, and sessions at which they
    apply. *)

From Stdlib Require Import ZArith Lia.
From stdpp Require Import base list numbers gmap tactics.
From S2P Require Import Prelude Sha256 ArithUint256 Compact Params MatMulPow BlockIndex ChainWork AsertParams Credit Asert Retarget Header HeaderPow.
From S2P Require Import HeaderSync HeaderSyncWindow HeaderSyncLaws Witnesses ChainWitnesses.
Import arith_uint256 Consensus matmul_pow block_index chain_work asert_params credit asert retarget block_header header_pow header_sync header_sync_window header_sync_laws.

Open Scope Z_scope.

Section Session.
Context {T : Type} `{CppInt T} (σ : BlockMap) (params : Params) (cs : list Z) (hdr : CBlockHeader) (minw : list Z) (off : Z) (key : Z * Z) (now : Z).
Context (k : SyncConfig) (s0 : HeadersSyncState) (b0 : CBlockIndex).

Lemma session_state s P R rel :
  length cs = 32%nat → σ !! cs = Some b0 → HeadersSyncState_new σ params cs hdr minw off key now = Ok (k, s0) →
  session (T:=T) k s0 s P R rel → m_chain_start k = cs ∧ between k σ b0 s P R rel.
Proof.
  intros Hlen Hb Hnew Hs. destruct (new_between _ _ _ _ _ _ _ _ _ _ _ Hb Hnew) as [E HB]. subst cs. split; [done|].
  by eapply session_between.
Qed.
End Session.

(** C7: Released headers are sound. In every state of a session, with [P] the
    headers that counted in the first phase, [R] those that counted in the
    second and [rel] those that were released: when any were released, the work
    of [P] reaches the minimum, [R] is a chain from the start, and the released
    headers are its first ones. Either the commitments of all of [R] are those
    of [P] and 7924 headers lie on top of the last one released, or they agree
    up to the header at which the work of [R] reaches the minimum. *)
Theorem sync_releases_sound {T} `{CppInt T} σ params cs hdr minw off key now k s0 b0 s P R rel :
  length cs = 32%nat → σ !! cs = Some b0 → HeadersSyncState_new σ params cs hdr minw off key now = Ok (k, s0) →
  session (T:=T) k s0 s P R rel →
  rel = [] ∨
  geb (work_of (nChainWork b0) P) minw = true ∧ chained cs R ∧ rel `prefix_of` R ∧
  (bits_of k (nHeight b0) R `prefix_of` bits_of k (nHeight b0) P ∧ zlen rel + 7924 ≤ zlen R ∨
   ∃ R1 h R2, R = R1 ++ h :: R2 ∧ bits_of k (nHeight b0) R1 `prefix_of` bits_of k (nHeight b0) P ∧
     geb (work_of (nChainWork b0) (R1 ++ [h])) minw = true).
Proof.
  intros Hlen Hb Hnew Hs. destruct (session_state _ _ _ _ _ _ _ _ _ _ _ _ _ _ _ Hlen Hb Hnew Hs) as [E HB]. subst cs.
  rewrite <-(proj1 (new_fixed _ _ _ _ _ _ _ _ _ _ Hnew)). by eapply between_sound.
Qed.

(** C27: What a peer can make the session hold. Between messages at most
    [m_max_commitments] commitments and 7924 headers are kept, and nothing once
    the session is over; the number of commitments that are allowed is at most
    one per 350 of the six blocks a second since the chain's start, two hours
    ahead included. *)
Theorem sync_memory_bounded {T} `{CppInt T} σ params cs hdr minw off key now k s0 b0 mtp s P R rel :
  length cs = 32%nat → σ !! cs = Some b0 → GetMedianTimePast σ cs = Ok mtp →
  HeadersSyncState_new σ params cs hdr minw off key now = Ok (k, s0) → session (T:=T) k s0 s P R rel →
  zlen (m_header_commitments s) ≤ m_max_commitments k ∧ zlen (m_redownloaded_headers s) ≤ 7924 ∧
  (m_download_state s = FINAL → final_ok s) ∧ 350 * m_max_commitments k ≤ Z.max 0 (6 * (now - mtp + 7200)).
Proof.
  intros Hlen Hb Hm Hnew Hs. destruct (session_state _ _ _ _ _ _ _ _ _ _ _ _ _ _ _ Hlen Hb Hnew Hs) as [E HB].
  pose proof (new_config _ _ _ _ _ _ _ _ _ _ _ Hnew Hm) as Hk. destruct (max_commitments_bound now mtp) as [H0 H1].
  assert (Hmx : m_max_commitments k = max_commitments now mtp) by (by rewrite Hk). rewrite <-Hmx in H0, H1.
  by destruct (between_bounded _ _ _ _ _ _ _ H0 HB) as (? & ? & ?).
Qed.

(** C19: A peer that serves its chain again gets it accepted. When a message of
    the second phase continues with the headers of the first, they follow each
    other and their targets are in order, the message succeeds: more headers are
    asked for if the message is full, or all that were sent again are released;
    when the last of them is sent, the whole chain has been released. *)
Theorem honest_resync_released {T} `{CppInt T} σ params cs hdr minw off key now k s0 b0 s P R rel hs full :
  length cs = 32%nat → σ !! cs = Some b0 → 0 ≤ nHeight b0 → HeadersSyncState_new σ params cs hdr minw off key now = Ok (k, s0) →
  session (T:=T) k s0 s P R rel → m_download_state s = REDOWNLOAD → hs ≠ [] → R ++ hs `prefix_of` P → chained (last_hash cs R) hs →
  targets_follow (T:=T) k s hs = true →
  ∃ r s', ProcessNextHeaders (T:=T) k s hs full = Ok (r, s') ∧ success r = true ∧
    (request_more r = full ∨ rel ++ pow_validated_headers r = R ++ hs ∧ request_more r = false) ∧
    (R ++ hs = P → rel ++ pow_validated_headers r = P ∧ request_more r = false).
Proof.
  intros Hlen Hb H0 Hnew Hs Hst Hne Hp Hc Ht. destruct (session_state _ _ _ _ _ _ _ _ _ _ _ _ _ _ _ Hlen Hb Hnew Hs) as [E HB]. subst cs.
  by eapply same_message.
Qed.

(** C18: The window keeps what the retarget asks for. On a MatMul network whose
    schedule passes validation, in every state of a session whose newest header
    has reached the start of the ASERT schedule: if the anchor is above the
    chain's start, the walk from the newest entry of the running phase ends at
    the entry for the anchor, which holds the time and the bits of the peer's
    header at that height; otherwise the window holds every header of the
    peer. *)
Theorem sync_window_keeps_anchor {T} `{CppInt T} σ params cs hdr minw off key now k s0 b0 s P R rel (phase : bool) tip last window L n :
  length cs = 32%nat → σ !! cs = Some b0 → HeadersSyncState_new σ params cs hdr minw off key now = Ok (k, s0) →
  session (T:=T) k s0 s P R rel → fMatMulPOW params = true → ValidateMatMulAsertParams params n = Ok true →
  (m_download_state s, phase, tip, last, window, L) = (PRESYNC, false, m_current_height s, m_presync_last_index s, m_presync_index_window s, P) ∨
  (m_download_state s, phase, tip, last, window, L) =
    (REDOWNLOAD, true, m_redownload_buffer_last_height s, m_redownload_last_index s, m_redownload_index_window s, R) →
  0 ≤ nMatMulAsertHeight params ≤ tip → tip < INT32_MAX →
  let a := anchor_at params tip in
  a ≤ nHeight b0 ∧ window = synthetic phase <$> seqZ (nHeight b0 + 1) (tip - nHeight b0) ∨
  nHeight b0 < a ∧ ∃ p b h, last = Some p ∧ GetAncestor (m_index s) p a = Ok (Some (synthetic phase a)) ∧
    m_index s !! synthetic phase a = Some b ∧ L !! Z.to_nat (a - nHeight b0 - 1) = Some h ∧
    nHeight b = a ∧ nTime b = h_nTime h ∧ nBits b = h_nBits h.
Proof.
  intros Hlen Hb Hnew Hs Hm Hv Hphase H0 H1. destruct (session_state _ _ _ _ _ _ _ _ _ _ _ _ _ _ _ Hlen Hb Hnew Hs) as [E HB]. subst cs.
  destruct (new_fixed _ _ _ _ _ _ _ _ _ _ Hnew) as [_ <-]. apply validated_schedule in Hv.
  replace (tip - nHeight b0) with (tip + 1 - (nHeight b0 + 1)) by lia. eapply window_finds_anchor; [|done..].
  unfold between in HB. destruct Hphase as [[= Hst -> -> -> -> ->]|[= Hst -> -> -> -> ->]]; rewrite Hst in HB.
  - destruct HB as [HI _]. by apply (pre_window _ _ _ _ _ HI).
  - destruct HB as (_ & buf & HI & _). by apply (red_window _ _ _ _ _ _ _ _ HI).
Qed.

(** In the first phase an entry of the block index is kept for every header
    from the anchor on: the window has no other bound. *)
Theorem presync_window_grows {T} `{CppInt T} σ params cs hdr minw off key now k s0 b0 s P R rel n :
  length cs = 32%nat → σ !! cs = Some b0 → HeadersSyncState_new σ params cs hdr minw off key now = Ok (k, s0) →
  session (T:=T) k s0 s P R rel → fMatMulPOW params = true → ValidateMatMulAsertParams params n = Ok true →
  m_download_state s = PRESYNC → 0 ≤ nMatMulAsertHeight params ≤ nHeight b0 + zlen P → nHeight b0 + zlen P < INT32_MAX →
  zlen P - Z.max 0 (anchor_at params (nHeight b0 + zlen P) - nHeight b0 - 1) ≤ zlen (m_presync_index_window s).
Proof.
  intros Hlen Hb Hnew Hs Hm Hv Hst H0 H1. destruct (session_state _ _ _ _ _ _ _ _ _ _ _ _ _ _ _ Hlen Hb Hnew Hs) as [E HB]. subst cs.
  destruct (new_fixed _ _ _ _ _ _ _ _ _ _ Hnew) as [_ <-]. apply validated_schedule in Hv. unfold between in HB. rewrite Hst in HB.
  destruct HB as [HI _]. destruct (pre_window _ _ _ _ _ HI Hm) as (lo & Hlo & _ & -> & _ & _ & Ha). rewrite (pre_height _ _ _ _ _ HI) in *.
  rewrite heights_length by lia. specialize (Ha Hv H0 H1). unfold header_sync.params in Ha. lia.
Qed.

(** ** A session

    Two headers on top of a block at height 4, the second at the height of a
    new anchor. *)

(** Messages one after the other. *)
Fixpoint run_session (k : SyncConfig) (s : HeadersSyncState) (P R rel : list CBlockHeader) (messages : list (list CBlockHeader * bool)) :
    result (HeadersSyncState * list CBlockHeader * list CBlockHeader * list CBlockHeader) :=
  match messages with
  | [] => Ok (s, P, R, rel)
  | (hs, full) :: messages =>
      '(r, s') ← ProcessNextHeaders (T:=Z) k s hs full;
      run_session k s' (P ++ counted PRESYNC s r hs) (R ++ counted REDOWNLOAD s r hs) (rel ++ pow_validated_headers r) messages
  end.

Lemma run_session_ok k s0 messages : ∀ s P R rel s' P' R' rel',
  session (T:=Z) k s0 s P R rel → run_session k s P R rel messages = Ok (s', P', R', rel') → session (T:=Z) k s0 s' P' R' rel'.
Proof.
  induction messages as [|[hs full] messages IH]; intros s P R rel s' P' R' rel' Hs; cbn [run_session]; [by intros [= <- <- <- <-]|].
  intros ([r s1] & E1 & E)%bind_Ok_inv. eapply IH; [|exact E]. by eapply session_message.
Qed.

Definition easy_bits : Z := 0x2100ffff.

Definition sync_header (prev : list Z) (time bits : Z) : CBlockHeader :=
  matmul_pow.mkHeader 1 prev (replicate 32 5) time bits 0 0 0 null256 null256 null256.

Definition sync_start : CBlockHeader := sync_header (toy_hash 3) 1360 easy_bits.
Definition sync_start_hash : list Z := Eval vm_compute in GetHash sync_start.

Definition sync_start_entry : CBlockIndex :=
  mkIndex (Some (toy_hash 3)) None 4 (of_u64 WIDTH 5) (of_u64 WIDTH 4) BLOCK_VALID_TREE 1360 easy_bits 1360 0 0.

Definition sync_index : BlockMap :=
  <[sync_start_hash := sync_start_entry]>
    ((λ b, mkIndex (pprev b) (pskip b) (nHeight b) (nChainWork b) (nAuthenticatedChainWork b) (nStatus b) (nTime b) easy_bits (nTimeMax b) 0 0)
       <$> toy_index).

Definition sync_first : CBlockHeader := Eval vm_compute in sync_header sync_start_hash 1450
  match GetNextWorkRequired (T:=Z) sync_index sync_start_hash 1450 toy_params with Ok (bits, _) => bits | Err _ => 0 end.

(** The session with the minimum [minw]. *)
Definition sync_new (minw : Z) : result (SyncConfig * HeadersSyncState) :=
  HeadersSyncState_new sync_index toy_params sync_start_hash sync_start (of_u64 WIDTH minw) 5 (1, 2) 5000.

Definition sync_second : CBlockHeader := Eval vm_compute in sync_header (GetHash sync_first) 1540
  match sync_new 7 with
  | Ok (k, s) =>
      match ProcessNextHeaders (T:=Z) k s [sync_first] true with
      | Ok (_, s) => match GetNextWorkRequired (T:=Z) (m_index s) (synthetic false 5) 1540 toy_params with Ok (bits, _) => bits | Err _ => 0 end
      | Err _ => 0
      end
  | Err _ => 0
  end.

Record reached := mkReached {
  r_config : SyncConfig; r_start : HeadersSyncState; r_state : HeadersSyncState; r_first : list CBlockHeader; r_again : list CBlockHeader;
  r_released : list CBlockHeader;
}.

Definition sync_run (minw : Z) (messages : list (list CBlockHeader * bool)) : option reached :=
  match sync_new minw with
  | Ok (k, s0) =>
      match run_session k s0 [] [] [] messages with Ok (s, P, R, rel) => Some (mkReached k s0 s P R rel) | Err _ => None end
  | Err _ => None
  end.

Lemma sync_run_ok minw messages r :
  sync_run minw messages = Some r →
  sync_new minw = Ok (r_config r, r_start r) ∧ session (T:=Z) (r_config r) (r_start r) (r_state r) (r_first r) (r_again r) (r_released r).
Proof.
  unfold sync_run. destruct (sync_new minw) as [[k s0]|]; [|done]. destruct (run_session _ _ _ _ _ _) as [[[[s P] R] rel]|] eqn:E; [|done].
  intros [= <-]. split; [done|]. eapply run_session_ok; [|exact E]. constructor.
Qed.

Lemma run_such {A} (o : option reached) (f : reached → A) a : f <$> o = Some a → ∃ r, o = Some r ∧ f r = a.
Proof. intros (r & -> & ->)%fmap_Some. by exists r. Qed.

(** The chain is sent, and its first header again. *)
Definition sync_messages : list (list CBlockHeader * bool) := [([sync_first], true); ([sync_second], true); ([sync_first], true)].

Lemma sync_all_ran :
  ∃ r, sync_run 7 (sync_messages ++ [([sync_second], false)]) = Some r ∧ r_first r = [sync_first; sync_second] ∧
    r_again r = [sync_first; sync_second] ∧ r_released r = [sync_first; sync_second] ∧ m_download_state (r_state r) = FINAL.
Proof.
  destruct (run_such (sync_run 7 (sync_messages ++ [([sync_second], false)])) (λ r, (r_first r, r_again r, r_released r, m_download_state (r_state r))) ([sync_first; sync_second], [sync_first; sync_second], [sync_first; sync_second], FINAL) ltac:(vm_compute; reflexivity)) as (r & E & Hr). exists r. split; [exact E|].
  injection Hr as ? ? ? ?. repeat (split; [assumption|]). assumption.
Qed.

Lemma sync_releases_sound_witness :
  ∃ s k, session (T:=Z) k s s [] [] [] ∧ chained sync_start_hash [sync_first; sync_second] ∧
    geb (work_of (of_u64 WIDTH 5) [sync_first; sync_second]) (of_u64 WIDTH 7) = true.
Proof.
  destruct sync_all_ran as (r & [Hnew Hs]%sync_run_ok & E1 & E2 & E3 & _). rewrite E1, E2, E3 in Hs.
  destruct (sync_releases_sound (T:=Z) sync_index toy_params sync_start_hash sync_start (of_u64 WIDTH 7) 5 (1, 2) 5000 (r_config r) (r_start r) sync_start_entry
     _ _ _ _ ltac:(reflexivity) ltac:(vm_compute; reflexivity) Hnew Hs)
    as [?|(Hw & Hc & _)]; [discriminate|].
  exists (r_start r), (r_config r). split; [constructor|]. split; [exact Hc|exact Hw].
Defined.

Lemma sync_memory_bounded_witness :
  ∃ r, sync_run 7 (sync_messages ++ [([sync_second], false)]) = Some r ∧ final_ok (r_state r).
Proof.
  destruct sync_all_ran as (r & E & _ & _ & _ & Hst). exists r. split; [exact E|]. destruct (sync_run_ok _ _ _ E) as [Hnew Hs].
  exact (proj1 (proj2 (proj2 (sync_memory_bounded (T:=Z) sync_index toy_params sync_start_hash sync_start (of_u64 WIDTH 7) 5 (1, 2) 5000 (r_config r) (r_start r) sync_start_entry
     1180 _ _ _ _ ltac:(reflexivity)
    ltac:(vm_compute; reflexivity) ltac:(vm_compute; reflexivity) Hnew Hs))) Hst).
Defined.

Lemma sync_first_ran :
  ∃ r, sync_run 7 sync_messages = Some r ∧ r_first r = [sync_first; sync_second] ∧ r_again r = [sync_first] ∧ r_released r = [] ∧
    m_download_state (r_state r) = REDOWNLOAD ∧ targets_follow (T:=Z) (r_config r) (r_state r) [sync_second] = true.
Proof.
  destruct (run_such (sync_run 7 sync_messages) (λ r, (r_first r, r_again r, r_released r, m_download_state (r_state r), targets_follow (T:=Z) (r_config r) (r_state r) [sync_second])) ([sync_first; sync_second], [sync_first], [], REDOWNLOAD, true) ltac:(vm_compute; reflexivity)) as (r & E & Hr). exists r. split; [exact E|].
  injection Hr as ? ? ? ? ?. repeat (split; [assumption|]). assumption.
Qed.

Lemma honest_resync_released_witness :
  ∃ k s r s', ProcessNextHeaders (T:=Z) k s [sync_second] false = Ok (r, s') ∧ pow_validated_headers r = [sync_first; sync_second].
Proof.
  destruct sync_first_ran as (r & [Hnew Hs]%sync_run_ok & E1 & E2 & E3 & Hst & Ht). rewrite E1, E2, E3 in Hs.
  destruct (honest_resync_released (T:=Z) sync_index toy_params sync_start_hash sync_start (of_u64 WIDTH 7) 5 (1, 2) 5000 (r_config r) (r_start r) sync_start_entry
     _ _ _ _ [sync_second] false ltac:(reflexivity)
    ltac:(vm_compute; reflexivity) ltac:(vm_compute; discriminate) Hnew Hs Hst ltac:(discriminate) ltac:(exists []; reflexivity)
    ltac:(split; [vm_compute; reflexivity|exact I]) Ht) as (res & s' & E & _ & _ & Hall).
  exists (r_config r), (r_state r), res, s'. split; [exact E|]. exact (proj1 (Hall eq_refl)).
Defined.

Lemma sync_presync_ran :
  ∃ r, sync_run 100 [([sync_first], true); ([sync_second], true)] = Some r ∧ r_first r = [sync_first; sync_second] ∧
    m_download_state (r_state r) = PRESYNC ∧ m_current_height (r_state r) = 6.
Proof.
  destruct (run_such (sync_run 100 [([sync_first], true); ([sync_second], true)]) (λ r, (r_first r, m_download_state (r_state r), m_current_height (r_state r))) ([sync_first; sync_second], PRESYNC, 6) ltac:(vm_compute; reflexivity)) as (r & E & Hr). exists r. split; [exact E|].
  injection Hr as ? ? ?. repeat (split; [assumption|]). assumption.
Qed.

Lemma sync_window_keeps_anchor_witness :
  ∃ σ p b, GetAncestor σ p 6 = Ok (Some (synthetic false 6)) ∧ σ !! synthetic false 6 = Some b ∧ nTime b = h_nTime sync_second.
Proof.
  destruct sync_presync_ran as (r & [Hnew Hs]%sync_run_ok & E1 & Hst & Hh). rewrite E1 in Hs.
  destruct (sync_window_keeps_anchor (T:=Z) sync_index toy_params sync_start_hash sync_start (of_u64 WIDTH 100) 5 (1, 2) 5000 (r_config r) (r_start r) sync_start_entry _ _ _ _ false 6
    (m_presync_last_index (r_state r)) (m_presync_index_window (r_state r)) [sync_first; sync_second] 7 ltac:(reflexivity)
    ltac:(vm_compute; reflexivity) Hnew Hs ltac:(reflexivity) (toy_valid 7)
    ltac:(left; rewrite Hst, Hh; reflexivity) ltac:(vm_compute; split; discriminate) ltac:(reflexivity)) as [[Ha _]|(_ & p & b & h & _ & E & Hb & Hl & _ & Ht & _)].
  { vm_compute in Ha. contradiction (Ha eq_refl). }
  exists (m_index (r_state r)), p, b. split; [exact E|]. split; [exact Hb|]. rewrite Ht. injection Hl as <-. reflexivity.
Defined.
